(* ===== verification/_CoqProject ===== *)
-Q . S2P
Prelude.v
Geometry.v
Surface.v
Layout.v
LayoutGrid.v
LayoutScroll.v
Scene.v
Damage.v
Ecs.v
Forest.v
World.v
WorldInv.v
WorldOps.v
WorldViews.v
WorldFocus.v
WorldArrange.v
WorldScene.v
WorldSpec.v
Registry.v
RegistrySpec.v
Sync.v
Ring.v
Host.v
Present.v
PresentSpec.v
Events.v
EventsSpec.v
Lease.v
LeaseInv.v
LeaseSpec.v
Outputs.v
OutputsSpec.v
Codec.v
CodecSpec.v
Suballoc.v
Memory.v
MemoryInv.v
MemorySpec.v
Graph.v
GraphSpec.v
Bytes.v
Names.v
Wire.v
WireSpec.v
WireSafe.v
Auth.v
AuthSpec.v
Reader.v
ReaderSpec.v
Routing.v
RoutingInv.v
RoutingSpec.v
RoutingSend.v
RoutingRun.v
RoutingCall.v
Cached.v
CachedSpec.v
Transaction.v
TransactionSpec.v
SurfaceTree.v
SurfaceTreeInv.v
SurfaceTreeOps.v
SurfaceTreeCommit.v
SurfaceTreeApply.v
SurfaceTreeRequests.v
SurfaceTreeDestroy.v
SurfaceTreeSpec.v
SurfaceTreeSync.v
SurfaceTreeTraversal.v
KdlSwar.v
KdlChars.v
KdlValue.v
KdlParser.v
KdlVisit.v
KdlCursor.v
KdlSafe.v
KdlWrite.v
KdlTokens.v
KdlEntries.v
KdlRoundtrip.v
