(* ===== verification/Prelude.v ===== *)
(** * TensorDE: a verification library of the Tensorland value model

    ** The program

    TensorDE is a Wayland desktop. Its compositor, Tensorland
    ([apps/tensor-wm]), keeps the decisions it takes apart from the objects
    they are about: windows, layouts, scenes, damage, buffers, outputs, leases
    and events are plain values in small crates ([crates/tensor-util],
    [tensor-protocol], [tensor-host], [tensor-drm], [tensor-present],
    [tensor-event], [tensor-ipc]) and in the policy modules of the compositor
    ([apps/tensor-wm/src/ecs], [layout], [scene]). The renderer keeps its
    bookkeeping apart from the driver in the same way ([crates/vulkan-renderer]:
    the memory allocator and the render graph), and the desktop talks to its
    services over a message bus of its own ([crates/tensor-dbus]). The adapters
    around them talk to the kernel, to Vulkan and to Wayland clients. This
    library models the value side and proves what the adapters rely on.

    A frame goes through the modelled parts as follows. Surface commits enter
    the buffer registry ([Registry]), which reports the content a surface shows
    and the buffers that may be released; the points of explicit
    synchronisation travel with them ([Sync]). The content becomes part of a
    view of the compositor world ([World]), which arranges a workspace with a
    layout engine ([Layout], [LayoutGrid], [LayoutScroll]) and extracts a scene
    ([Scene]). The difference of two scenes is damage ([Damage]) in physical
    pixels ([Geometry]). The frame is announced to the present queue
    ([Present]) of an output that was planned from the connectors ([Outputs])
    and not leased to a client ([Lease]); completions and input come back over
    the event bus ([Events]), control messages over framed sockets ([Codec]).
    The passes that draw it are ordered, with their barriers, by the render
    graph ([Graph]) over buffers and images that the memory allocator places
    ([Suballoc], [Memory]).

    The desktop's services are reached over the message bus. A connection
    begins with a handshake ([Auth]); behind it the reader cuts messages from
    the socket ([Reader]) and decodes them ([Wire], [Names]), and the routing
    layer ([Routing]) gives each message to the caller that waits for it,
    encodes calls, replies and signals and hands them to the writer.

    Clients reach the compositor through the surface tree
    ([apps/tensor-wm/src/protocol/globals/compositor]). A request writes the
    pending version of a surface's state ([Cached]); a commit moves it into a
    queue under a commit id, gathers the synchronised subsurfaces into one
    transaction ([Transaction]) and applies it to the current version when
    nothing blocks it ([SurfaceTree]). Every surface is behind a mutex of its
    own, transactions are shared cells, and hooks call back into the rest of the
    compositor.

    Configuration files are KDL documents ([crates/tensor-kdl]). The reader
    ([KdlParser], [KdlVisit]) walks the text with scanners that take a word at
    a time ([KdlSwar]) and gives nodes to a visitor; the writer ([KdlWrite])
    pushes values and documents into a growing or a fixed buffer.

    ** Files

    - [Prelude]: machine integers, the [Outcome] and [Run] of methods that
      fail or panic, sorting by a key (stable and unstable), [max_by_key],
      [swap_remove], sequences of calls with their simulation lemma.
    - [Geometry]: [tensor-util/src/geometry.rs], [scale.rs] and the even
      splitting of tracks: rectangles with saturating arithmetic, output scale.
    - [Surface]: [tensor-protocol/src/content.rs], [color.rs], [ids.rs].
    - [Layout], [LayoutGrid], [LayoutScroll]: [tensor-wm/src/layout].
    - [Scene]: [tensor-wm/src/scene/model.rs] and its effects; [Damage]:
      [scene/damage.rs].
    - [Ecs]: the interface of the entity store, as a class with laws, and an
      instance; [Forest]: attachment forests; [World]: [ecs/world.rs] and its
      children; [WorldInv] (invariant), [WorldOps], [WorldViews], [WorldFocus],
      [WorldArrange], [WorldScene] (one group of operations each), [WorldSpec]
      (claims).
    - [Registry], [RegistrySpec]: [tensor-protocol/src/registry.rs].
    - [Sync]: [tensor-protocol/src/sync.rs].
    - [Ring]: the array of optional entries with a head and a length that both
      queues below use, and the list it holds.
    - [Host]: [tensor-host] (connectors, modes, present intents, vblanks).
    - [Present], [PresentSpec]: [tensor-present/src/readiness.rs] and
      [schedule.rs].
    - [Events], [EventsSpec]: [tensor-event/src/event.rs], [phase.rs],
      [coalesce.rs], [queue.rs].
    - [Lease], [LeaseInv], [LeaseSpec]: [tensor-drm/src/lease.rs].
    - [Outputs], [OutputsSpec]: [tensor-drm/src/policy.rs], [plan.rs],
      [snapshot.rs] and [tensor-host/src/format.rs].
    - [Codec], [CodecSpec]: [tensor-ipc/src/land/codec.rs] and the reading loop
      of [tensor-wm/src/ipc/server/runtime.rs].
    - [Suballoc]: the free ranges of one block of device memory,
      [vulkan-renderer/src/allocator.rs]; [Memory]: blocks, allocations and
      host access, [allocator.rs], [allocator/image.rs], and the choice of a
      memory type, [memory.rs]; [MemoryInv], [MemorySpec].
    - [Graph], [GraphSpec]: [vulkan-renderer/src/render_graph.rs] and the
      barriers of [sync.rs].
    - [Bytes]: byte strings, UTF-8, decimal and hexadecimal digits and byte
      orders; [Names]: [tensor-dbus/src/name.rs], [flags.rs], [error.rs];
      [Wire], [WireSpec] (encoding and decoding), [WireSafe] (arbitrary bytes):
      [wire.rs] and [wire/message.rs].
    - [Auth], [AuthSpec]: [auth.rs] and [guid.rs] over a model of the socket;
      [Reader], [ReaderSpec]: [connection/reader.rs].
    - [Routing]: [connection.rs], [pending.rs] and [connection/writer.rs];
      [RoutingInv] (a Hoare logic for methods, the mailbox, the invariant),
      [RoutingSpec] (receiving), [RoutingSend] (sending), [RoutingRun] (runs),
      [RoutingCall] (two connections).

    - [Cached], [CachedSpec]: [compositor/cache.rs], the attributes of
      [compositor.rs] and the eight [Cacheable] states of [wire.rs],
      [surface_timing/fifo.rs], [syncobj.rs], [presentation.rs],
      [viewporter.rs] and [xwayland/shell.rs]; [Transaction],
      [TransactionSpec]: [compositor/transaction.rs].
    - [SurfaceTree]: [compositor/tree.rs], [wire.rs] and [compositor.rs] over a
      store of surfaces, locks and cells; [SurfaceTreeInv] (invariant and ledger
      of buffers), [SurfaceTreeOps] (locks, walks to the root),
      [SurfaceTreeCommit] (subtrees), [SurfaceTreeApply] (commits and queues),
      [SurfaceTreeRequests] (the stacking order), [SurfaceTreeDestroy] (one
      lemma per request), [SurfaceTreeSpec], [SurfaceTreeSync],
      [SurfaceTreeTraversal] (claims).

    - [KdlSwar]: [tensor-kdl/src/parse/swar.rs] and [simd.rs] with their
      specification; [KdlChars]: [parse/chars.rs] and UTF-8; [KdlValue]:
      [value.rs], [value/tree.rs], [opts.rs], [context.rs], [pad.rs] and the
      codes of [error.rs]; [KdlParser]: [parse/reader.rs] and its children
      [space.rs], [string.rs], [multiline.rs], [number.rs]; [KdlVisit]:
      [reader/visit.rs], [visitor.rs] and the document loop; [KdlCursor] (two
      logics for the reader: what returns, and what reads a text off the front),
      [KdlSafe] (one lemma per method); [KdlWrite]: [encode/sink.rs],
      [encode.rs], [write.rs] and the texts they write; [KdlTokens] (words,
      integers, quoted strings), [KdlEntries] (values and entries),
      [KdlRoundtrip] (the normal form of a tree, nodes, documents).

    Each Rust type is a Module of its name with its data as [t] and one
    definition per method; a method with [&mut self] returns the new state with
    its result, and is a [Run] when it returns a [Result] or may panic.

    ** What is proved

    - Geometry, layout, scene and damage: intersections, unions and scaled
      covers are exact; grid and master-stack placements tile the area;
      scrolling reveals the focused column; scenes are canonical; damage covers
      every pixel that differs, with blur closed under its dependencies.
    - World: every run of operations keeps the invariant and never panics;
      focus, placement, minimizing, arrangement and extraction do exactly what
      they promise, on every error as well.
    - Registry and synchronisation: attachment counts are exact, every buffer
      is released once and every release point is handed back once.
    - Leases: exclusive and consistent over every run; changes are reported
      exactly; a reservation succeeds exactly when it is valid.
    - Queues: the present queue refines a bounded list; the nine event rings
      are one queue sorted by phase; a full drain delivers everything.
    - Outputs: plans contain exactly the usable connectors, differences lead
      from one plan to the next, negotiation returns the usable formats in
      preference order.
    - Framing: whatever the chunks, the decoder delivers the complete frames
      at once and in order; on arbitrary bytes it returns and buffers less
      than one frame.
    - Memory: a block's free ranges are exactly the bytes no allocation holds
      and first fit finds a place when there is one; live allocations never
      overlap and a block outlives them; host access stays inside its
      allocation; trimming frees exactly the empty blocks over the budget.
    - Render graph: compilation orders conflicting passes, fails exactly on a
      cycle, and its barriers replay from the imported states to the final
      ones, each typed by the resource it is for.

    - Message bus: names follow their grammar; encoding and decoding are
      inverse, and the decoder accepts exactly what the rules of the bus allow
      and returns on any bytes; the server admits only the user that the kernel
      reports and always returns, and the two sides of the handshake never wait
      for each other for ever and agree; messages are read whole and in order
      wherever the socket cuts the stream; a connection is
      a mailbox that delivers every message once and sends every message whole
      under its own serial, also when callers drop their futures; a call is
      answered.

    - Surface tree: every run of requests keeps parents and children in
      agreement, the mutexes free and the transactions unshared, and returns but
      for one request; no buffer is released more often than it was attached; a
      synchronised commit shows and sends nothing; any other commit gathers exactly the
      synchronised subtree and its blockers, or is applied at once; the queue
      hands out exactly what is not blocked, in order; a cached state is the
      merge of its applied updates; restacking and walks are exact.

    - KDL: reading any text, padded or not, returns a document or an error
      within the text and restores the depth; the word scanners are the byte
      scanners, but for the white space before an exclamation mark; whatever an
      encoder writes into a fixed buffer is a prefix of what it writes into a
      string;
      a readable document that is written is read back as its normal form.

    ** Bounds and fuel

    Loops that are not structural carry fuel that their callers compute from
    the input (the number of views, of scene nodes, of buffered bytes); the
    theorems show that it never runs out. Runs of the world are bounded by
    2^31 operations and runs of the lease registry by the 64-bit token space,
    because their counters would otherwise wrap. The topological sort of the
    render graph has one unit of fuel per pass. The header fields of a message
    have one unit per byte, the line reader of the handshake as many as a line
    may have bytes, a search for a message one per queued message and unread
    byte. The recursions over a surface tree have one unit per surface, the
    walks to the root the 256 steps of the code, and shared cells one unit per
    cell. The loops of the KDL reader have one unit per byte or
    character of the text, and one that runs out of fuel is a panic of the
    method. Saturating and wrapping counters of 64 bits are modelled as such;
    that a synchronised commit sends nothing is for surfaces whose 64-bit commit
    ids have not wrapped around.

    ** Parameters

    The entity store (bevy_ecs) is a class with the laws the code relies on;
    the JSON library is a pair of functions of which only the round trip is
    assumed; wire objects, commit markers and synchronisation points are
    opaque types; [guess_monitor_scale], which computes in floating point, is
    an argument of the output plan. What the Vulkan driver answers (memory
    requirements, handles, failures) is an argument of the allocator's
    operations, with the documented bounds on the requirements as hypotheses.
    The zvariant library is a class: its signatures, the sizes and bytes it
    writes for a body and the variants it reads, with the hypothesis that the
    signature of a body that is sent can be read back. A socket is the list of
    segments that the kernel will deliver, each with the descriptors that
    arrive with its first byte, and the answers to writes; two ends that run
    against each other hear what the other has written so far; dropping the future
    of a send is an argument of it, dropping a receive only delays it. The
    hooks of a surface and what the compositor does when a commit is applied are
    a class whose laws say that they return, keep the store and release only
    buffers they hold; the versions and numbers of wire objects are functions.
    The cargo features of the KDL crate ([simd], [dom]) are booleans, and the
    decimal digits of a finite float other than zero are a function.

    ** Not modelled

    Command recording, Vulkan's flag words and the kernel interface, the Wayland
    library and the protocol globals other than the core compositor, Xwayland, process and signal handling,
    the decoding of KDL into Rust types and its queries, floating point input,
    the control messages that carry descriptors, dynamic message bodies, the object server and the clients
    of desktop services, and the desktop applications: they are adapters, user
    interface or numerical code around the values above. Debug assertions and
    textual error messages are left out, and so is allocation failure. The
    next candidates are the configuration reload, typed KDL decoding, the
    protocol catalog, the interactive overview and the scheduling policies of
    the wallpaper engine and the file manager. *)

From Stdlib Require Export ZArith Lia Bool.
From stdpp Require Export base tactics numbers list option gmap sorting relations.

Open Scope Z_scope.

(** ** Fixed-width integers

    A Rust integer is a [Z] together with the range of its type; the
    operations write out the saturation, the clamp or the wrap-around that
    the source calls. *)

Create HintDb ints.

Module I32.

Definition MIN : Z := -2147483648.

Definition MAX : Z := 2147483647.

Definition ok (v : Z) : Prop := MIN <= v <= MAX.

(** Nearest representable value. *)
Definition sat (v : Z) : Z := Z.max MIN (Z.min MAX v).

(** Two's complement reduction: the value of an unchecked operation in a
    build without overflow checks. *)
Definition wrap (v : Z) : Z := (v + 2147483648) mod 4294967296 - 2147483648.

Definition saturating_add (a b : Z) : Z := sat (a + b).

Definition saturating_sub (a b : Z) : Z := sat (a - b).

(** [i32::try_from(v).unwrap_or(i32::MAX)] for an unsigned [v]. *)
Definition of_u32_or_max (v : Z) : Z := if v <=? MAX then v else MAX.

(** [i32::try_from(v).unwrap_or(if v.is_negative() { MIN } else { MAX })]
    for a wider signed [v]. *)
Definition of_wide_or_edge (v : Z) : Z :=
  if (MIN <=? v) && (v <=? MAX) then v else if v <? 0 then MIN else MAX.

(** [v.clamp(i32::MIN.into(), i32::MAX.into()) as i32]. *)
Definition of_clamped (v : Z) : Z := sat v.

End I32.

Module U32.

Definition MAX : Z := 4294967295.

Definition ok (v : Z) : Prop := 0 <= v <= MAX.

Definition sat (v : Z) : Z := Z.max 0 (Z.min MAX v).

Definition saturating_add (a b : Z) : Z := sat (a + b).

Definition saturating_sub (a b : Z) : Z := sat (a - b).

Definition saturating_mul (a b : Z) : Z := sat (a * b).

(** [v as u32] for an [i32]. *)
Definition of_i32_cast (v : Z) : Z := v mod 4294967296.

(** [u32::try_from(v).unwrap_or(u32::MAX)] for any wider or signed [v]. *)
Definition of_or_max (v : Z) : Z := if (0 <=? v) && (v <=? MAX) then v else MAX.

End U32.

Module I64.

Definition MIN : Z := -9223372036854775808.

Definition MAX : Z := 9223372036854775807.

Definition ok (v : Z) : Prop := MIN <= v <= MAX.

Definition sat (v : Z) : Z := Z.max MIN (Z.min MAX v).

Definition saturating_add (a b : Z) : Z := sat (a + b).

Definition saturating_sub (a b : Z) : Z := sat (a - b).

End I64.

Module U64.

Definition MAX : Z := 18446744073709551615.

Definition ok (v : Z) : Prop := 0 <= v <= MAX.

Definition sat (v : Z) : Z := Z.max 0 (Z.min MAX v).

Definition saturating_add (a b : Z) : Z := sat (a + b).

Definition saturating_sub (a b : Z) : Z := sat (a - b).

Definition saturating_mul (a b : Z) : Z := sat (a * b).

(** [v.checked_add(1)]. *)
Definition checked_succ (v : Z) : option Z :=
  if v <? MAX then Some (v + 1) else None.

Definition wrapping_succ (v : Z) : Z := (v + 1) mod 18446744073709551616.

End U64.

(** [v.clamp(lo, hi)]; Rust panics when [lo > hi], which every caller here
    rules out. *)
Definition zclamp (lo hi v : Z) : Z :=
  if v <? lo then lo else if hi <? v then hi else v.

#[export] Hint Unfold I32.MIN I32.MAX I32.ok I32.sat I32.saturating_add
  I32.saturating_sub I32.of_clamped U32.MAX U32.ok U32.sat
  U32.saturating_add U32.saturating_sub I64.MIN I64.MAX I64.ok I64.sat
  I64.saturating_add I64.saturating_sub U64.MAX U64.ok U64.sat
  U64.saturating_add U64.saturating_sub : ints.

(** ** Tactics

    [ints] exposes the ranges and saturations to [lia]; [zcases] splits on
    the boolean guards of the goal and of the hypotheses; [int_solve] is both
    followed by linear arithmetic. *)

Ltac ints := autounfold with ints in *.

Ltac zcase_step :=
  match goal with
  | H : context [if ?b then _ else _] |- _ =>
      lazymatch type of b with bool => destruct b eqn:? end
  | |- context [if ?b then _ else _] =>
      lazymatch type of b with bool => destruct b eqn:? end
  end.

Ltac zcases := repeat zcase_step.

Ltac int_unfold :=
  unfold I32.of_u32_or_max, I32.of_wide_or_edge, U32.of_or_max, zclamp in *;
  ints.

Ltac int_solve := int_unfold; zcases; lia.

(** Linear arithmetic with [Z.div] and [Z.modulo] by constants. *)
Ltac div_lia := Z.to_euclidean_division_equations; lia.

(** ** Range lemmas of the machine operations *)

Lemma i32_sat_ok v : I32.ok (I32.sat v).
Proof. int_solve. Qed.

Lemma i32_sat_id v : I32.ok v → I32.sat v = v.
Proof. int_solve. Qed.

Lemma i32_sat_mono v w : v <= w → I32.sat v <= I32.sat w.
Proof. int_solve. Qed.

Lemma u32_sat_ok v : U32.ok (U32.sat v).
Proof. int_solve. Qed.

Lemma u32_sat_id v : U32.ok v → U32.sat v = v.
Proof. int_solve. Qed.

Lemma u32_of_or_max_ok v : U32.ok (U32.of_or_max v).
Proof. int_solve. Qed.

Lemma u32_of_or_max_id v : U32.ok v → U32.of_or_max v = v.
Proof. int_solve. Qed.

Lemma of_u32_or_max_range v : 0 <= v → 0 <= I32.of_u32_or_max v <= I32.MAX.
Proof. int_solve. Qed.

Lemma of_u32_or_max_le v : I32.of_u32_or_max v <= v.
Proof. int_solve. Qed.

Lemma of_wide_or_edge_sat v : I32.of_wide_or_edge v = I32.sat v.
Proof. int_solve. Qed.

Lemma zclamp_range lo hi v : lo <= hi → lo <= zclamp lo hi v <= hi.
Proof. int_solve. Qed.

Lemma zclamp_id lo hi v : lo <= v <= hi → zclamp lo hi v = v.
Proof. int_solve. Qed.

(** Wrap-around is invisible on a representable value. *)
Lemma i32_wrap_id v : I32.ok v → I32.wrap v = v.
Proof. intros. unfold I32.wrap. ints. rewrite Z.mod_small; lia. Qed.

Lemma of_i32_cast_id v : 0 <= v → I32.ok v → U32.of_i32_cast v = v.
Proof. intros. unfold U32.of_i32_cast. ints. rewrite Z.mod_small; lia. Qed.

#[export] Hint Resolve i32_sat_ok u32_sat_ok u32_of_or_max_ok : ints.

(** ** Results of stateful operations

    A method that may fail or panic returns [Ok], one of the error values of
    its [Result] type, or [Panic] for a failed [expect], index or arithmetic
    check. *)

Inductive Outcome (E A : Type) : Type :=
| Ok (a : A)
| Err (e : E)
| Panic.

Arguments Ok {E A} a.
Arguments Err {E A} e.
Arguments Panic {E A}.

(** ** Sums and ceilings *)

Definition zsum (l : list Z) : Z := foldr Z.add 0 l.

Lemma zsum_app l k : zsum (l ++ k) = zsum l + zsum k.
Proof. induction l as [|a l IH]; simpl; [done|]. rewrite IH. lia. Qed.

Lemma zsum_nonneg l : Forall (Z.le 0) l → 0 <= zsum l.
Proof. induction 1; simpl; lia. Qed.

Lemma zsum_take_le l n : Forall (Z.le 0) l → zsum (take n l) <= zsum l.
Proof.
  intros H. rewrite <- (take_drop n l) at 2. rewrite zsum_app.
  pose proof (zsum_nonneg (drop n l) (Forall_drop _ _ _ H)). lia.
Qed.

Lemma zsum_take_S l n v :
  l !! n = Some v → zsum (take (S n) l) = zsum (take n l) + v.
Proof. intros H. rewrite (take_S_r _ _ _ H), zsum_app. simpl. lia. Qed.

(** [n.div_ceil(d)] of the unsigned integers. *)
Definition div_ceil (n d : Z) : Z :=
  if n mod d =? 0 then n / d else n / d + 1.

Lemma div_ceil_spec n d :
  0 < d → n <= d * div_ceil n d < n + d.
Proof.
  intros. unfold div_ceil. pose proof (Z.div_mod n d). pose proof (Z.mod_pos_bound n d).
  destruct (Z.eqb_spec (n mod d) 0); nia.
Qed.

Lemma div_ceil_le n d k : 0 < d → n <= d * k → div_ceil n d <= k.
Proof. intros ? H. pose proof (div_ceil_spec n d). nia. Qed.

Lemma div_ceil_pos n d : 0 < d → 0 < n → 0 < div_ceil n d.
Proof. intros ? H. pose proof (div_ceil_spec n d). nia. Qed.

(** ** Sorting by a key

    [sort_unstable_by_key] returns some permutation that is sorted by the
    key. The executable model is stdpp's merge sort; [sort_by_key_unique]
    shows that it is the only possible result when the keys are distinct. *)

Class KeyOrder (K : Type) := {
  key_le : relation K;
  #[global] key_le_dec :: RelDecision key_le;
  #[global] key_le_order :: TotalOrder key_le }.

#[export] Program Instance Z_key_order : KeyOrder Z := {| key_le := Z.le |}.
Next Obligation.
  split; [split; [split|]|]; [intros x; lia|intros x y z; lia|intros x y; lia|].
  intros x y. unfold strict. lia.
Qed.

(** Pairs are compared lexicographically. *)
Definition lex_le (p q : Z * Z) : Prop :=
  p.1 < q.1 ∨ (p.1 = q.1 ∧ p.2 <= q.2).

#[export] Instance lex_le_dec : RelDecision lex_le.
Proof. intros p q. unfold lex_le. apply _. Defined.

#[export] Program Instance ZZ_key_order : KeyOrder (Z * Z) :=
  {| key_le := lex_le |}.
Next Obligation.
  split; [split; [split|]|].
  - intros [x y]. unfold lex_le; simpl. lia.
  - intros [] [] []. unfold lex_le; simpl. lia.
  - intros [] []. unfold lex_le; simpl. intros. f_equal; lia.
  - intros [a b] [c d]. unfold strict, lex_le; simpl.
    destruct (Z.lt_trichotomy a c) as [|[->|]]; [left; lia| |right; right; lia].
    destruct (Z.lt_trichotomy b d) as [|[->|]]; [left; lia|by right; left|right; right; lia].
Qed.

(** Triples are compared lexicographically. *)
Definition lex3_le (p q : Z * (Z * Z)) : Prop :=
  p.1 < q.1 ∨ (p.1 = q.1 ∧ lex_le p.2 q.2).

#[export] Instance lex3_le_dec : RelDecision lex3_le.
Proof. intros p q. unfold lex3_le. apply _. Defined.

#[export] Program Instance ZZZ_key_order : KeyOrder (Z * (Z * Z)) :=
  {| key_le := lex3_le |}.
Next Obligation.
  split; [split; [split|]|].
  - intros [x [y z]]. unfold lex3_le, lex_le; simpl. lia.
  - intros [a []] [b []] [c []]. unfold lex3_le, lex_le; simpl. lia.
  - intros [a []] [b []]. unfold lex3_le, lex_le; simpl. intros. repeat f_equal; lia.
  - intros [a [b c]] [d [e f]]. unfold strict, lex3_le, lex_le; simpl.
    destruct (Z.lt_trichotomy a d) as [|[->|]]; [left; lia| |right; right; lia].
    destruct (Z.lt_trichotomy b e) as [|[->|]]; [left; lia| |right; right; lia].
    destruct (Z.lt_trichotomy c f) as [|[->|]]; [left; lia|by right; left|right; right; lia].
Qed.

Section sort_by_key.

Context {A K : Type} `{KeyOrder K} (key : A → K).

Definition by_key : relation A := λ a b, key_le (key a) (key b).

#[export] Instance by_key_dec : RelDecision by_key.
Proof. intros a b. unfold by_key. apply _. Defined.

#[export] Instance by_key_total : Total by_key.
Proof. intros a b. apply (total key_le). Qed.

#[export] Instance by_key_trans : Transitive by_key.
Proof. intros a b c. unfold by_key. apply transitivity. Qed.

Definition sort_by_key (l : list A) : list A := merge_sort by_key l.

Lemma sort_by_key_perm l : sort_by_key l ≡ₚ l.
Proof. apply merge_sort_Permutation. Qed.

Lemma sort_by_key_sorted l : StronglySorted by_key (sort_by_key l).
Proof. apply (StronglySorted_merge_sort by_key). Qed.

Lemma sort_by_key_elem a l : a ∈ sort_by_key l ↔ a ∈ l.
Proof. by rewrite sort_by_key_perm. Qed.

Lemma sort_by_key_length l : length (sort_by_key l) = length l.
Proof. apply Permutation_length, sort_by_key_perm. Qed.

Lemma sort_by_key_Forall (P : A → Prop) l : Forall P l ↔ Forall P (sort_by_key l).
Proof. by rewrite sort_by_key_perm. Qed.

(** Distinct keys determine the sorted permutation. *)
Lemma sorted_key_unique l k :
  NoDup (key <$> l) → l ≡ₚ k →
  StronglySorted by_key l → StronglySorted by_key k → l = k.
Proof.
  intros Hnd Hp Hl Hk. apply (StronglySorted_unique_strong by_key); [|done..].
  intros a b Ha Hb Hab Hba. rewrite <- Hp in Hb.
  assert (key a = key b) as E by (apply (anti_symm key_le); [apply Hab|apply Hba]).
  apply list_elem_of_lookup in Ha as [i Hi]. apply list_elem_of_lookup in Hb as [j Hj].
  assert (i = j) as ->; [|congruence].
  eapply (NoDup_lookup (key <$> l)); [done|..]; rewrite list_lookup_fmap.
  - by rewrite Hi.
  - by rewrite Hj, E.
Qed.

Lemma sort_by_key_unique l k :
  NoDup (key <$> l) → k ≡ₚ l → StronglySorted by_key k → k = sort_by_key l.
Proof.
  intros Hnd Hp Hk. apply sorted_key_unique; [|by rewrite Hp, sort_by_key_perm|done|].
  - by rewrite Hp.
  - apply sort_by_key_sorted.
Qed.

End sort_by_key.

(** ** Filters *)

Lemma filter_all {A} (P : A → Prop) `{!∀ x, Decision (P x)} (l : list A) :
  Forall P l → filter P l = l.
Proof. induction 1; [done|]. by rewrite filter_cons, decide_True, IHForall. Qed.

Lemma filter_none {A} (P : A → Prop) `{!∀ x, Decision (P x)} (l : list A) :
  Forall (λ x, ¬ P x) l → filter P l = [].
Proof. induction 1; [done|]. by rewrite filter_cons, decide_False. Qed.

(** ** Counting *)

Lemma filter_length_le {A} (P Q : A → Prop) `{!∀ x, Decision (P x)} `{!∀ x, Decision (Q x)}
    (l : list A) :
  (∀ x, x ∈ l → P x → Q x) → (length (filter P l) <= length (filter Q l))%nat.
Proof.
  induction l as [|a l IH]; intros Himp; [done|]. rewrite !filter_cons.
  assert (length (filter P l) <= length (filter Q l))%nat
    by (apply IH; intros; apply Himp; [by right|done]).
  destruct (decide (P a)) as [Hp|], (decide (Q a)) as [|Hq]; simpl; try lia.
  exfalso. apply Hq, Himp; [by left|done].
Qed.

(** A predicate that became strictly smaller on a list is counted less
    often. *)
Lemma filter_length_lt {A} (P Q : A → Prop) `{!∀ x, Decision (P x)} `{!∀ x, Decision (Q x)}
    (l : list A) :
  (∀ x, x ∈ l → P x → Q x) → (∃ x, x ∈ l ∧ Q x ∧ ¬ P x) →
  (length (filter P l) < length (filter Q l))%nat.
Proof.
  intros Himp (x&Hx&HQ&HP). apply list_elem_of_split in Hx as (l1&l2&->).
  rewrite !filter_app, !length_app, !filter_cons.
  rewrite (decide_False (P := P x)) by done. rewrite (decide_True (P := Q x)) by done.
  assert (length (filter P l1) <= length (filter Q l1))%nat.
  { apply filter_length_le. intros y Hy. apply Himp, elem_of_app. by left. }
  assert (length (filter P l2) <= length (filter Q l2))%nat.
  { apply filter_length_le. intros y Hy. apply Himp, elem_of_app. right. by right. }
  simpl. lia.
Qed.

(** [max_by_key]: the last element with the greatest key. *)
Definition max_by_key {A K} `{KeyOrder K} (key : A → K) (l : list A) : option A :=
  foldl (λ best x,
    match best with
    | None => Some x
    | Some b => if decide (key_le (key b) (key x)) then Some x else best
    end) None l.

Lemma max_by_key_spec {A K} `{KeyOrder K} (key : A → K) l :
  match max_by_key key l with
  | None => l = []
  | Some m => m ∈ l ∧ ∀ x, x ∈ l → key_le (key x) (key m)
  end.
Proof.
  unfold max_by_key.
  assert (Hgen : ∀ best, match foldl (λ best x,
      match best with
      | None => Some x
      | Some b => if decide (key_le (key b) (key x)) then Some x else best
      end) best l with
    | None => best = None ∧ l = []
    | Some m => (best = Some m ∨ m ∈ l) ∧ (∀ x, x ∈ l → key_le (key x) (key m)) ∧
                ∀ b, best = Some b → key_le (key b) (key m)
    end).
  { induction l as [|a l IH]; intros best; simpl.
    - destruct best as [b|]; [|done]. split_and!; [by left|by intros x ?%elem_of_nil|].
      by intros c [= ->].
    - specialize (IH (match best with None => Some a
        | Some b => if decide (key_le (key b) (key a)) then Some a else best end)).
      destruct (foldl _ _ l) as [m|].
      + destruct IH as (Hm&Hl&Hb).
        assert (Ha : key_le (key a) (key m)).
        { destruct best as [b|]; [|by apply Hb]. case_decide as Hd; [by apply Hb|].
          destruct (total key_le (key a) (key b)) as [|?]; [|done].
          etransitivity; [done|]. by apply Hb. }
        split_and!.
        * destruct best as [b|]; [case_decide|]; destruct Hm as [Hm|Hm]; simplify_eq;
            try (by right; left); try (by right; right); by left.
        * intros x [->|Hx]%elem_of_cons; [done|by apply Hl].
        * intros b ->. case_decide as Hd; [by etransitivity|by apply Hb].
      + destruct IH as [Hb _]. destruct best as [b|]; [case_decide|]; done. }
  specialize (Hgen None). destruct (foldl _ None l) as [m|].
  - destruct Hgen as ([?|?]&?&_); [done|by split].
  - by destruct Hgen.
Qed.

(** ** State and outcome

    Methods with [&mut self] that return a [Result] or may panic thread the
    state explicitly; the state reached before an error is kept. *)

Definition Run (S E A : Type) : Type := S → S * Outcome E A.

#[export] Instance run_ret {S E} : MRet (Run S E) := λ A a s, (s, Ok a).

#[export] Instance run_bind {S E} : MBind (Run S E) := λ A B k m s,
  match m s with
  | (s, Ok a) => k a s
  | (s, Err e) => (s, Err e)
  | (s, Panic) => (s, Panic)
  end.

Section run.

Context {S E : Type}.

Definition get_state : Run S E S := λ s, (s, Ok s).

Definition modify (f : S → S) : Run S E unit := λ s, (f s, Ok tt).

Definition throw {A} (e : E) : Run S E A := λ s, (s, Err e).

Definition panic {A} : Run S E A := λ s, (s, Panic).

(** [expect], an index or another partial operation. *)
Definition expect {A} (o : option A) : Run S E A :=
  match o with Some a => mret a | None => panic end.

Fixpoint for_each {A} (f : A → Run S E unit) (l : list A) : Run S E unit :=
  match l with [] => mret tt | a :: l => f a;; for_each f l end.

Lemma run_ok {A B} (m : Run S E A) (k : A → Run S E B) s s' a :
  m s = (s', Ok a) → (m ≫= k) s = k a s'.
Proof. intros Hm. unfold mbind, run_bind. by rewrite Hm. Qed.

Lemma run_err {A B} (m : Run S E A) (k : A → Run S E B) s s' e :
  m s = (s', Err e) → (m ≫= k) s = (s', Err e).
Proof. intros Hm. unfold mbind, run_bind. by rewrite Hm. Qed.

Lemma run_get {B} (k : S → Run S E B) s : (get_state ≫= k) s = k s s.
Proof. done. Qed.

Lemma run_modify {B} (f : S → S) (k : unit → Run S E B) s :
  (modify f ≫= k) s = k tt (f s).
Proof. done. Qed.

Lemma run_ret_bind {A B} (a : A) (k : A → Run S E B) s : (mret a ≫= k) s = k a s.
Proof. done. Qed.

Lemma run_expect {A B} (o : option A) a (k : A → Run S E B) s :
  o = Some a → (expect o ≫= k) s = k a s.
Proof. by intros ->. Qed.

(** A loop whose steps succeed and keep an invariant succeeds. *)
Lemma for_each_ok {A} (f : A → Run S E unit) (P : list A → S → Prop) l s :
  P l s →
  (∀ a l s, P (a :: l) s → ∃ s', f a s = (s', Ok tt) ∧ P l s') →
  ∃ s', for_each f l s = (s', Ok tt) ∧ P [] s'.
Proof.
  intros HP Hf. revert s HP. induction l as [|a l IH]; intros s HP; simpl; [by exists s|].
  destruct (Hf a l s HP) as (s1&E1&HP1). destruct (IH s1 HP1) as (s2&E2&HP2).
  exists s2. split; [|done]. by rewrite (run_ok _ _ _ _ _ E1).
Qed.

End run.

(** ** Methods that do not panic *)

Section runs.

Context {S E : Type}.

(** [m] returns from [s]: with a value that satisfies [Q], or an error that
    satisfies [X]. *)
Definition runs {A} (m : Run S E A) (s : S) (Q : A → S → Prop) (X : E → S → Prop) : Prop :=
  match m s with
  | (s', Ok a) => Q a s'
  | (s', Err e) => X e s'
  | (_, Panic) => False
  end.

Lemma runs_bind {A B} (m : Run S E A) (k : A → Run S E B) s Q X :
  runs m s (λ a s', runs (k a) s' Q X) X → runs (m ≫= k) s Q X.
Proof. unfold runs, mbind, run_bind. destruct (m s) as [s' [a|e|]]; done. Qed.

Lemma runs_mono {A} (m : Run S E A) s (Q Q' : A → S → Prop) (X X' : E → S → Prop) :
  runs m s Q X → (∀ a s', Q a s' → Q' a s') → (∀ e s', X e s' → X' e s') → runs m s Q' X'.
Proof. unfold runs. destruct (m s) as [s' [a|e|]]; auto. Qed.

(** A step with a known specification, then the rest. *)
Lemma runs_step {A B} (m : Run S E A) (k : A → Run S E B) s (Q1 : A → S → Prop) (X1 : E → S → Prop) Q X :
  runs m s Q1 X1 → (∀ a s', Q1 a s' → runs (k a) s' Q X) → (∀ e s', X1 e s' → X e s') →
  runs (m ≫= k) s Q X.
Proof. intros Hm Hk HX. apply runs_bind. by eapply runs_mono. Qed.

Lemma runs_ret {A} (a : A) s Q X : Q a s → runs (mret a) s Q X.
Proof. done. Qed.

Lemma runs_and {A} (m : Run S E A) s (Q1 Q2 : A → S → Prop) (X1 X2 : E → S → Prop) :
  runs m s Q1 X1 → runs m s Q2 X2 →
  runs m s (λ a s', Q1 a s' ∧ Q2 a s') (λ e s', X1 e s' ∧ X2 e s').
Proof. unfold runs. destruct (m s) as [s' [a|e|]]; auto. Qed.

End runs.

(** One step of a run, by the equation of the step. *)
Tactic Notation "run_step" uconstr(lem) :=
  etransitivity; [eapply lem; try done|cbv beta].

(** ** [Vec::swap_remove]

    The removed element is replaced by the last one. *)

Definition swap_remove {A} (i : nat) (l : list A) : list A :=
  match last l with
  | Some x => take (length l - 1) (<[i := x]> l)
  | None => l
  end.

Lemma swap_remove_perm {A} (i : nat) (l : list A) x :
  l !! i = Some x → x :: swap_remove i l ≡ₚ l.
Proof.
  intros Hi. unfold swap_remove. destruct (last l) as [y|] eqn:El.
  2: { by apply last_None in El as ->. }
  apply last_Some in El as [l' ->]. apply lookup_lt_Some in Hi as Hlt.
  rewrite length_app in *. simpl in *. rewrite Nat.add_sub.
  destruct (decide (i = length l')) as [->|Hne].
  - rewrite lookup_app_r, Nat.sub_diag in Hi by lia. injection Hi as ->.
    rewrite insert_app_r_alt, Nat.sub_diag, take_app_length by lia. apply Permutation_cons_append.
  - rewrite lookup_app_l in Hi by lia. rewrite insert_app_l by lia.
    rewrite <- (length_insert l' i y) at 1. rewrite take_app_length.
    rewrite <- Permutation_cons_append.
    rewrite <- (take_drop_middle _ _ _ Hi) at 2.
    rewrite insert_take_drop by lia. rewrite <- !Permutation_middle. apply Permutation_swap.
Qed.

(** ** Sequences of calls

    A component is a step function from a call to an answer. Two components
    refine each other when a relation between their states is kept and the
    answers agree. *)

Section calls.

Context {S C R : Type} (step : S → C → S * R).

Fixpoint run_calls (s : S) (cs : list C) : S * list R :=
  match cs with
  | [] => (s, [])
  | c :: cs =>
      let '(s, r) := step s c in
      let '(s, rs) := run_calls s cs in (s, r :: rs)
  end.

Lemma run_calls_cons s c cs :
  run_calls s (c :: cs) =
    ((run_calls (step s c).1 cs).1, (step s c).2 :: (run_calls (step s c).1 cs).2).
Proof. simpl. destruct (step s c) as [s' r]. simpl. by destruct (run_calls s' cs). Qed.

(** An invariant of the steps holds after every sequence of calls. *)
Lemma run_calls_inv (P : S → Prop) s cs :
  P s → (∀ s c, P s → P (step s c).1) → P (run_calls s cs).1.
Proof.
  intros Hs Hstep. revert s Hs. induction cs as [|c cs IH]; intros s Hs; [done|].
  rewrite run_calls_cons. simpl. by apply IH, Hstep.
Qed.

End calls.

Section simulation.

Context {S T C R : Type} (step : S → C → S * R) (spec : T → C → T * R).

Context (sim : S → T → Prop).

Hypothesis sim_step : ∀ s t c, sim s t →
  (step s c).2 = (spec t c).2 ∧ sim (step s c).1 (spec t c).1.

Lemma run_calls_sim s t cs :
  sim s t →
  (run_calls step s cs).2 = (run_calls spec t cs).2 ∧
  sim (run_calls step s cs).1 (run_calls spec t cs).1.
Proof.
  revert s t. induction cs as [|c cs IH]; intros s t Hs; [done|].
  rewrite !run_calls_cons. simpl. destruct (sim_step s t c Hs) as [-> Hs'].
  destruct (IH _ _ Hs') as [-> ?]. done.
Qed.

End simulation.

(** ** Stable sorting by a key

    [sort_by_key] of the standard library keeps the order of equal keys; the
    executable model inserts every element before the first one whose key is
    not smaller. *)

Section stable_sort.

Context {A K : Type} `{KeyOrder K} (key : A → K).

Fixpoint insert_by_key (a : A) (l : list A) : list A :=
  match l with
  | [] => [a]
  | b :: l' => if decide (key_le (key a) (key b)) then a :: l else b :: insert_by_key a l'
  end.

Definition stable_sort_by_key (l : list A) : list A := foldr insert_by_key [] l.

Lemma insert_by_key_perm a l : insert_by_key a l ≡ₚ a :: l.
Proof.
  induction l as [|b l IH]; simpl; [done|]. case_decide; [done|]. rewrite IH. apply Permutation_swap.
Qed.

Lemma stable_sort_perm l : stable_sort_by_key l ≡ₚ l.
Proof. induction l as [|a l IH]; simpl; [done|]. by rewrite insert_by_key_perm, IH. Qed.

Lemma insert_by_key_sorted a l :
  StronglySorted (by_key key) l → StronglySorted (by_key key) (insert_by_key a l).
Proof.
  induction 1 as [|b l Hl IH Hb]; simpl; [by repeat constructor|]. case_decide as Hab.
  - repeat constructor; [done..|]. eapply Forall_impl; [done|]. intros c Hc. simpl in Hc.
    unfold by_key in *. by etransitivity.
  - constructor; [done|]. rewrite insert_by_key_perm. constructor; [|done].
    unfold by_key. destruct (total key_le (key a) (key b)); [done|done].
Qed.

Lemma stable_sort_sorted l : StronglySorted (by_key key) (stable_sort_by_key l).
Proof. induction l; simpl; [constructor|by apply insert_by_key_sorted]. Qed.

(** Stability: the elements of one key keep their order. *)
Lemma insert_by_key_filter a l (P : A → Prop) `{!∀ x, Decision (P x)} :
  (∀ x y, P x → P y → key x = key y) →
  filter P (insert_by_key a l) = filter P (a :: l).
Proof.
  intros HP. induction l as [|b l IH]; [done|]. simpl. case_decide as Hab; [done|].
  rewrite filter_cons, IH, !filter_cons.
  destruct (decide (P b)) as [Hb|], (decide (P a)) as [Ha|]; try done.
  exfalso. apply Hab. by rewrite (HP a b).
Qed.

Lemma stable_sort_filter l (P : A → Prop) `{!∀ x, Decision (P x)} :
  (∀ x y, P x → P y → key x = key y) → filter P (stable_sort_by_key l) = filter P l.
Proof.
  intros HP. induction l as [|a l IH]; [done|]. simpl. rewrite insert_by_key_filter by done.
  by rewrite !filter_cons, IH.
Qed.

End stable_sort.
