(* ===== verification/Geometry.v ===== *)
(** * Geometry of the shared [tensor-util] crate

    Points, sizes and rectangles of [crates/tensor-util/src/geometry.rs], the
    even splitting of a length, and the fixed-denominator output scale of
    [scale.rs]. Rectangles are related to the set of logical pixels they
    contain ([Rect.mem]); the operations are shown exact on that set wherever
    the machine arithmetic does not saturate. *)

From S2P Require Import Prelude.

Module Point.

Record t := new { x : Z; y : Z }.

End Point.

Module Size.

Record t := new { width : Z; height : Z }.

#[global] Instance t_eq_dec : EqDecision t.
Proof. solve_decision. Defined.

Definition wf (s : t) : Prop := U32.ok (width s) ∧ U32.ok (height s).

End Size.

Module Rect.

Record t := new { x : Z; y : Z; width : Z; height : Z }.

#[global] Instance t_eq_dec : EqDecision t.
Proof. solve_decision. Defined.

Definition right (r : t) : Z :=
  I32.saturating_add (x r) (I32.of_u32_or_max (width r)).

Definition bottom (r : t) : Z :=
  I32.saturating_add (y r) (I32.of_u32_or_max (height r)).

Definition size (r : t) : Size.t := Size.new (width r) (height r).

(** The two subtractions are unchecked [i32] operations in the source, cast
    to [u32]: they are modelled with their wrap-around. *)
Definition intersection (a b : t) : option t :=
  let left := Z.max (x a) (x b) in
  let top := Z.max (y a) (y b) in
  let right' := Z.min (right a) (right b) in
  let bottom' := Z.min (bottom a) (bottom b) in
  if (right' <=? left) || (bottom' <=? top) then None
  else Some (new left top
               (U32.of_i32_cast (I32.wrap (right' - left)))
               (U32.of_i32_cast (I32.wrap (bottom' - top)))).

Definition translated (r : t) (dx dy : Z) : t :=
  new (I32.saturating_add (x r) dx) (I32.saturating_add (y r) dy)
      (width r) (height r).

Definition inflated (r : t) (amount : Z) : t :=
  let amount_i32 := I32.of_u32_or_max amount in
  new (I32.saturating_sub (x r) amount_i32)
      (I32.saturating_sub (y r) amount_i32)
      (U32.saturating_add (width r) (U32.saturating_mul amount 2))
      (U32.saturating_add (height r) (U32.saturating_mul amount 2)).

Definition union (a b : t) : t :=
  let left := Z.min (x a) (x b) in
  let top := Z.min (y a) (y b) in
  let right' := Z.max (right a) (right b) in
  let bottom' := Z.max (bottom a) (bottom b) in
  new left top
      (U32.of_or_max (I32.saturating_sub right' left))
      (U32.of_or_max (I32.saturating_sub bottom' top)).

Definition touches_or_overlaps (a b : t) : bool :=
  (x a <=? right b) && (x b <=? right a)
  && (y a <=? bottom b) && (y b <=? bottom a).

Definition contains_rect (a b : t) : bool :=
  (x a <=? x b) && (y a <=? y b)
  && (right b <=? right a) && (bottom b <=? bottom a).

(** Field ranges of a Rust [Rect]. *)
Definition wf (r : t) : Prop :=
  I32.ok (x r) ∧ I32.ok (y r) ∧ U32.ok (width r) ∧ U32.ok (height r).

(** The half-open pixel set of a rectangle. *)
Definition mem (r : t) (px py : Z) : Prop :=
  x r <= px < right r ∧ y r <= py < bottom r.

(** The rectangle has no saturated edge. *)
Definition exact (r : t) : Prop :=
  right r = x r + width r ∧ bottom r = y r + height r.

Definition nonempty (r : t) : Prop := 0 < width r ∧ 0 < height r.

End Rect.

(** ** Edges *)

Lemma rect_right_bounds r :
  Rect.wf r →
  Rect.x r <= Rect.right r <= Rect.x r + Rect.width r ∧
  Rect.right r <= Rect.x r + I32.MAX ∧ I32.ok (Rect.right r).
Proof. destruct r; unfold Rect.wf, Rect.right; simpl; intros; int_solve. Qed.

Lemma rect_bottom_bounds r :
  Rect.wf r →
  Rect.y r <= Rect.bottom r <= Rect.y r + Rect.height r ∧
  Rect.bottom r <= Rect.y r + I32.MAX ∧ I32.ok (Rect.bottom r).
Proof. destruct r; unfold Rect.wf, Rect.bottom; simpl; intros; int_solve. Qed.

(** A width that fits [i32] and does not run past its edge is not
    saturated. *)
Lemma rect_right_exact r :
  Rect.wf r → Rect.x r + Rect.width r <= I32.MAX → Rect.width r <= I32.MAX →
  Rect.right r = Rect.x r + Rect.width r.
Proof. destruct r; unfold Rect.wf, Rect.right; simpl; intros; int_solve. Qed.

Lemma rect_bottom_exact r :
  Rect.wf r → Rect.y r + Rect.height r <= I32.MAX → Rect.height r <= I32.MAX →
  Rect.bottom r = Rect.y r + Rect.height r.
Proof. destruct r; unfold Rect.wf, Rect.bottom; simpl; intros; int_solve. Qed.

(** The rectangle spanned by two edges that lie within [i32::MAX] of each
    other has exactly these edges. *)
Lemma rect_of_edges_right l t r h :
  I32.ok l → I32.ok r → l <= r <= l + I32.MAX →
  Rect.right (Rect.new l t (r - l) h) = r.
Proof. unfold Rect.right; simpl; intros; int_solve. Qed.

Lemma rect_of_edges_bottom l t w b :
  I32.ok t → I32.ok b → t <= b <= t + I32.MAX →
  Rect.bottom (Rect.new l t w (b - t)) = b.
Proof. unfold Rect.bottom; simpl; intros; int_solve. Qed.

Ltac edges r :=
  let Hr := fresh "Hright" in let Hb := fresh "Hbottom" in
  assert (Hr := rect_right_bounds r); assert (Hb := rect_bottom_bounds r);
  try match goal with H : Rect.wf r |- _ =>
    specialize (Hr H); specialize (Hb H) end.

(** ** Intersection *)

(** The branch condition of [intersection] in terms of the edges. *)
Definition overlap (a b : Rect.t) : Prop :=
  Z.max (Rect.x a) (Rect.x b) < Z.min (Rect.right a) (Rect.right b) ∧
  Z.max (Rect.y a) (Rect.y b) < Z.min (Rect.bottom a) (Rect.bottom b).

Lemma intersection_None a b :
  Rect.intersection a b = None ↔ ¬ overlap a b.
Proof.
  unfold Rect.intersection, overlap.
  destruct (_ || _) eqn:E; split; intros; try done; lia.
Qed.

Lemma intersection_Some a b r :
  Rect.wf a → Rect.wf b → Rect.intersection a b = Some r →
  overlap a b ∧
  Rect.x r = Z.max (Rect.x a) (Rect.x b) ∧
  Rect.y r = Z.max (Rect.y a) (Rect.y b) ∧
  Rect.right r = Z.min (Rect.right a) (Rect.right b) ∧
  Rect.bottom r = Z.min (Rect.bottom a) (Rect.bottom b) ∧
  Rect.width r = Rect.right r - Rect.x r ∧
  Rect.height r = Rect.bottom r - Rect.y r.
Proof.
  intros Ha Hb. unfold Rect.intersection, overlap.
  destruct (_ || _) eqn:E; [done|]. intros [= <-].
  edges a; edges b. destruct Ha as (?&?&_), Hb as (?&?&_).
  rewrite !i32_wrap_id, !of_i32_cast_id by (ints; lia). simpl.
  rewrite rect_of_edges_right, rect_of_edges_bottom by (ints; lia).
  repeat split; lia.
Qed.

Lemma intersection_wf a b r :
  Rect.wf a → Rect.wf b → Rect.intersection a b = Some r →
  Rect.wf r ∧ Rect.nonempty r ∧ Rect.exact r.
Proof.
  intros Ha Hb Hr.
  destruct (intersection_Some a b r Ha Hb Hr) as (Ho&Hx&Hy&HR&HB&Hw&Hh).
  edges a; edges b. destruct Ha as (?&?&_), Hb as (?&?&_). unfold overlap in Ho.
  unfold Rect.wf, Rect.nonempty, Rect.exact.
  rewrite Hw, Hh, HR, HB, Hx, Hy. ints; lia.
Qed.

(** Membership in the intersection is membership in both. *)
Lemma intersection_mem a b r px py :
  Rect.wf a → Rect.wf b → Rect.intersection a b = Some r →
  Rect.mem r px py ↔ Rect.mem a px py ∧ Rect.mem b px py.
Proof.
  intros Ha Hb Hr.
  destruct (intersection_Some a b r Ha Hb Hr) as (Ho&Hx&Hy&HR&HB&_).
  unfold Rect.mem. rewrite Hx, Hy, HR, HB. lia.
Qed.

Lemma intersection_sub_l a b r px py :
  Rect.wf a → Rect.wf b → Rect.intersection a b = Some r →
  Rect.mem r px py → Rect.mem a px py.
Proof. intros Ha Hb Hr Hm. by apply (intersection_mem a b r px py Ha Hb Hr) in Hm as [? _]. Qed.

Lemma overlap_mem a b px py :
  Rect.mem a px py → Rect.mem b px py → overlap a b.
Proof. unfold overlap, Rect.mem. lia. Qed.

(** on representable rectangles [Rect::intersection] computes exactly the
    set intersection of the two pixel sets: the result is a representable,
    non-empty rectangle with unsaturated edges whose pixels are the common
    ones, and [None] means there is no common pixel. In particular neither
    unchecked [i32] subtraction overflows. *)
Theorem intersection_exact a b :
  Rect.wf a → Rect.wf b →
  match Rect.intersection a b with
  | Some r => Rect.wf r ∧ Rect.nonempty r ∧ Rect.exact r ∧
              ∀ px py, Rect.mem r px py ↔ Rect.mem a px py ∧ Rect.mem b px py
  | None => ∀ px py, ¬ (Rect.mem a px py ∧ Rect.mem b px py)
  end.
Proof.
  intros Ha Hb. destruct (Rect.intersection a b) as [r|] eqn:E.
  - destruct (intersection_wf a b r) as (?&?&?); [done..|].
    split_and!; [done..|]. intros. by apply intersection_mem.
  - apply intersection_None in E. intros px py [? ?].
    eauto using overlap_mem.
Qed.

Lemma intersection_exact_witness :
  Rect.intersection (Rect.new 10 10 100 80) (Rect.new 0 0 40 30)
    = Some (Rect.new 10 10 30 20) ∧
  Rect.mem (Rect.new 10 10 30 20) 39 29.
Proof.
  assert (Ha : Rect.wf (Rect.new 10 10 100 80)) by (repeat split; ints; simpl; lia).
  assert (Hb : Rect.wf (Rect.new 0 0 40 30)) by (repeat split; ints; simpl; lia).
  pose proof (intersection_exact _ _ Ha Hb) as H.
  change (Rect.intersection (Rect.new 10 10 100 80) (Rect.new 0 0 40 30))
    with (Some (Rect.new 10 10 30 20)) in *.
  split; [done|]. destruct H as (_&_&_&H). apply H.
  unfold Rect.mem; vm_compute; intuition congruence.
Defined.

(** ** Union and containment *)

(** The joint extent of two rectangles is at most [i32::MAX] on both axes,
    so that [union] does not saturate. *)
Definition joinable (a b : Rect.t) : Prop :=
  Z.max (Rect.right a) (Rect.right b) - Z.min (Rect.x a) (Rect.x b) <= I32.MAX ∧
  Z.max (Rect.bottom a) (Rect.bottom b) - Z.min (Rect.y a) (Rect.y b) <= I32.MAX.

Lemma union_edges a b :
  Rect.wf a → Rect.wf b → joinable a b →
  Rect.x (Rect.union a b) = Z.min (Rect.x a) (Rect.x b) ∧
  Rect.y (Rect.union a b) = Z.min (Rect.y a) (Rect.y b) ∧
  Rect.right (Rect.union a b) = Z.max (Rect.right a) (Rect.right b) ∧
  Rect.bottom (Rect.union a b) = Z.max (Rect.bottom a) (Rect.bottom b) ∧
  Rect.wf (Rect.union a b) ∧ Rect.exact (Rect.union a b).
Proof.
  intros Ha Hb [Hj1 Hj2]. edges a; edges b. unfold Rect.union, Rect.exact.
  destruct Ha as (?&?&_), Hb as (?&?&_).
  set (l := Z.min (Rect.x a) (Rect.x b)) in *.
  set (t := Z.min (Rect.y a) (Rect.y b)) in *.
  set (r := Z.max (Rect.right a) (Rect.right b)) in *.
  set (m := Z.max (Rect.bottom a) (Rect.bottom b)) in *.
  assert (I32.ok l ∧ I32.ok t ∧ I32.ok r ∧ I32.ok m) as (?&?&?&?) by (ints; lia).
  unfold I32.saturating_sub.
  rewrite !i32_sat_id, !u32_of_or_max_id by (ints; lia).
  rewrite rect_of_edges_right, rect_of_edges_bottom by (ints; lia).
  simpl. unfold Rect.wf; simpl. ints; lia.
Qed.

Lemma contains_rect_spec a b :
  Rect.contains_rect a b = true ↔
  Rect.x a <= Rect.x b ∧ Rect.y a <= Rect.y b ∧
  Rect.right b <= Rect.right a ∧ Rect.bottom b <= Rect.bottom a.
Proof. unfold Rect.contains_rect. lia. Qed.

Lemma contains_rect_mem a b px py :
  Rect.contains_rect a b = true → Rect.mem b px py → Rect.mem a px py.
Proof. rewrite contains_rect_spec. unfold Rect.mem. lia. Qed.

Lemma contains_rect_refl a : Rect.contains_rect a a = true.
Proof. rewrite contains_rect_spec. lia. Qed.

Lemma contains_rect_trans a b c :
  Rect.contains_rect a b = true → Rect.contains_rect b c = true →
  Rect.contains_rect a c = true.
Proof. rewrite !contains_rect_spec. lia. Qed.

#[export] Instance rect_contains_preorder :
  PreOrder (λ a b, Rect.contains_rect a b = true).
Proof. split; [exact contains_rect_refl | exact contains_rect_trans]. Qed.

Lemma union_comm a b : Rect.union a b = Rect.union b a.
Proof.
  unfold Rect.union.
  by rewrite (Z.min_comm (Rect.x a)), (Z.min_comm (Rect.y a)),
    (Z.max_comm (Rect.right a)), (Z.max_comm (Rect.bottom a)).
Qed.

Lemma joinable_comm a b : joinable a b → joinable b a.
Proof. unfold joinable. lia. Qed.

Lemma union_contains_l a b :
  Rect.wf a → Rect.wf b → joinable a b →
  Rect.contains_rect (Rect.union a b) a = true.
Proof.
  intros Ha Hb Hj. destruct (union_edges a b Ha Hb Hj) as (E1&E2&E3&E4&_).
  rewrite contains_rect_spec, E1, E2, E3, E4. lia.
Qed.

Lemma union_contains_r a b :
  Rect.wf a → Rect.wf b → joinable a b →
  Rect.contains_rect (Rect.union a b) b = true.
Proof. intros. rewrite union_comm. eauto using union_contains_l, joinable_comm. Qed.

(** Rectangles inside a common representable frame are joinable and their
    union stays in the frame. *)
Lemma contained_joinable v a b :
  Rect.wf v → Rect.wf a → Rect.wf b →
  Rect.contains_rect v a = true → Rect.contains_rect v b = true →
  joinable a b.
Proof.
  rewrite !contains_rect_spec. intros Hv Ha Hb ??. edges v; edges a; edges b.
  unfold joinable. lia.
Qed.

Lemma union_contained v a b :
  Rect.wf v → Rect.wf a → Rect.wf b →
  Rect.contains_rect v a = true → Rect.contains_rect v b = true →
  Rect.contains_rect v (Rect.union a b) = true.
Proof.
  intros Hv Ha Hb Hva Hvb.
  destruct (union_edges a b Ha Hb (contained_joinable v a b Hv Ha Hb Hva Hvb))
    as (E1&E2&E3&E4&_).
  revert Hva Hvb. rewrite !contains_rect_spec, E1, E2, E3, E4. lia.
Qed.

(** [Rect::union] is the least covering rectangle of two rectangles whose
    joint extent fits [i32]: it contains both, every rectangle containing both
    contains it, and its edges are unsaturated. *)
Theorem union_least a b :
  Rect.wf a → Rect.wf b → joinable a b →
  Rect.wf (Rect.union a b) ∧ Rect.exact (Rect.union a b) ∧
  Rect.contains_rect (Rect.union a b) a = true ∧
  Rect.contains_rect (Rect.union a b) b = true ∧
  ∀ c, Rect.contains_rect c a = true → Rect.contains_rect c b = true →
       Rect.contains_rect c (Rect.union a b) = true.
Proof.
  intros Ha Hb Hj. destruct (union_edges a b Ha Hb Hj) as (E1&E2&E3&E4&?&?).
  split_and!; [done..|by apply union_contains_l|by apply union_contains_r|].
  intros c. rewrite !contains_rect_spec, E1, E2, E3, E4. lia.
Qed.

Lemma union_least_witness :
  joinable (Rect.new 2 24 36 46) (Rect.new 38 24 10 10) ∧
  Rect.contains_rect (Rect.new 2 24 46 46) (Rect.new 38 24 10 10) = true.
Proof.
  assert (Ha : Rect.wf (Rect.new 2 24 36 46)) by (repeat split; ints; simpl; lia).
  assert (Hb : Rect.wf (Rect.new 38 24 10 10)) by (repeat split; ints; simpl; lia).
  assert (Hj : joinable (Rect.new 2 24 36 46) (Rect.new 38 24 10 10))
    by (split; vm_compute; congruence).
  split; [exact Hj|].
  destruct (union_least _ _ Ha Hb Hj) as (_&_&_&H&_). exact H.
Defined.

(** ** Hulls

    [is_hull v b l]: the optional rectangle [b] is the least cover of the
    rectangles [l], all inside the representable frame [v]. Accumulating with
    [union] keeps this relation, so that bounds collected in a viewport never
    saturate. *)

Definition inside (v r : Rect.t) : Prop :=
  Rect.wf r ∧ Rect.contains_rect v r = true.

Definition least_cover (b : Rect.t) (l : list Rect.t) : Prop :=
  Forall (λ r, Rect.contains_rect b r = true) l ∧
  ∀ c, Forall (λ r, Rect.contains_rect c r = true) l → Rect.contains_rect c b = true.

Definition is_hull (v : Rect.t) (b : option Rect.t) (l : list Rect.t) : Prop :=
  match b with
  | None => l = []
  | Some b => l ≠ [] ∧ inside v b ∧ least_cover b l
  end.

(** The accumulation step the source writes as a [match] on the bounds. *)
Definition extend (b : option Rect.t) (r : Rect.t) : Rect.t :=
  match b with Some b => Rect.union b r | None => r end.

Lemma inside_wf v r : inside v r → Rect.wf r.
Proof. by intros [? _]. Qed.

Lemma inside_union v a b :
  Rect.wf v → inside v a → inside v b → inside v (Rect.union a b).
Proof.
  intros Hv [Ha Hva] [Hb Hvb].
  destruct (union_edges a b Ha Hb (contained_joinable v a b Hv Ha Hb Hva Hvb))
    as (_&_&_&_&?&_).
  split; [done|]. by apply union_contained.
Qed.

Lemma inside_union_cover v a b c :
  Rect.wf v → inside v a → inside v b →
  Rect.contains_rect c (Rect.union a b) = true ↔
  Rect.contains_rect c a = true ∧ Rect.contains_rect c b = true.
Proof.
  intros Hv [Ha Hva] [Hb Hvb].
  destruct (union_edges a b Ha Hb (contained_joinable v a b Hv Ha Hb Hva Hvb))
    as (E1&E2&E3&E4&_).
  rewrite !contains_rect_spec, E1, E2, E3, E4. lia.
Qed.

Lemma intersection_inside a v r :
  Rect.wf a → Rect.wf v → Rect.intersection a v = Some r → inside v r.
Proof.
  intros Ha Hv Hr. split; [by apply (intersection_wf a v r)|].
  destruct (intersection_Some a v r Ha Hv Hr) as (_&Ex&Ey&ER&EB&_).
  rewrite contains_rect_spec, Ex, Ey, ER, EB. lia.
Qed.

Lemma intersection_inside_l a v r :
  Rect.wf a → Rect.wf v → Rect.intersection a v = Some r → inside a r.
Proof.
  intros Ha Hv Hr. split; [by apply (intersection_wf a v r)|].
  destruct (intersection_Some a v r Ha Hv Hr) as (_&Ex&Ey&ER&EB&_).
  rewrite contains_rect_spec, Ex, Ey, ER, EB. lia.
Qed.

(** Clipping is monotone: a rectangle inside both arguments is inside the
    intersection. *)
Lemma intersection_greatest a b r c :
  Rect.wf a → Rect.wf b → Rect.intersection a b = Some r →
  Rect.contains_rect a c = true → Rect.contains_rect b c = true →
  Rect.contains_rect r c = true.
Proof.
  intros Ha Hb Hr. destruct (intersection_Some a b r Ha Hb Hr) as (_&Ex&Ey&ER&EB&_).
  rewrite !contains_rect_spec, Ex, Ey, ER, EB. lia.
Qed.

Lemma is_hull_extend v b l r :
  Rect.wf v → is_hull v b l → inside v r → is_hull v (Some (extend b r)) (r :: l).
Proof.
  intros Hv Hb Hr. destruct b as [b|]; simpl in *.
  - destruct Hb as (Hne&Hin&Hc&Hl).
    split; [done|]. split; [by apply inside_union|]. split.
    + assert (Hu := contains_rect_refl (Rect.union b r)).
      rewrite (inside_union_cover v) in Hu by done. destruct Hu as [Hub Hur].
      constructor; [done|]. eapply Forall_impl; [exact Hc|]. simpl.
      intros x Hx. exact (contains_rect_trans _ _ _ Hub Hx).
    + intros c [Hcr Hcl]%Forall_cons. rewrite (inside_union_cover v) by done. auto.
  - subst l. split; [done|]. split; [done|].
    split; [constructor; [apply contains_rect_refl|done]|].
    by intros c [? _]%Forall_cons.
Qed.

Lemma is_hull_perm v b l k : l ≡ₚ k → is_hull v b l → is_hull v b k.
Proof.
  intros Hp. destruct b as [b|]; simpl.
  - intros (Hne&Hin&Hc&Hl). split; [|split; [done|split]].
    + intros ->. by apply Hne, Permutation_nil_r.
    + by rewrite <- Hp.
    + intros c. rewrite <- Hp. apply Hl.
  - intros ->. by apply Permutation_nil_l in Hp.
Qed.

Definition extend_all (b : option Rect.t) (rs : list Rect.t) : option Rect.t :=
  foldl (λ b r, Some (extend b r)) b rs.

Lemma is_hull_extend_all v b l rs :
  Rect.wf v → is_hull v b l → Forall (inside v) rs →
  is_hull v (extend_all b rs) (l ++ rs).
Proof.
  intros Hv Hb Hrs. revert b l Hb.
  induction Hrs as [|r rs Hr _ IH]; intros b l Hb; simpl; [by rewrite app_nil_r|].
  eapply is_hull_perm; [|apply (IH _ (r :: l)); by apply is_hull_extend].
  simpl. by rewrite Permutation_middle.
Qed.

(** A pixel of a covered rectangle is a pixel of the hull. *)
Lemma is_hull_mem v b l r px py :
  is_hull v b l → r ∈ l → Rect.mem r px py → ∃ h, b = Some h ∧ Rect.mem h px py.
Proof.
  destruct b as [b|]; simpl; [|by intros -> ?%elem_of_nil].
  intros (_&_&Hc&_) Hr Hm. exists b. split; [done|].
  rewrite Forall_forall in Hc. eapply contains_rect_mem; [by apply Hc|done].
Qed.

Lemma union_wf a b : Rect.wf a → Rect.wf b → Rect.wf (Rect.union a b).
Proof.
  intros (?&?&_) (?&?&_). unfold Rect.union, Rect.wf; simpl.
  split_and!; [ints; lia|ints; lia|apply u32_of_or_max_ok..].
Qed.

(** Outside that range the union saturates and loses part of its arguments:
    two one-pixel rectangles near the opposite ends of the coordinate space. *)
Lemma union_saturates :
  let a := Rect.new (-2147483648) 0 1 1 in
  let b := Rect.new 2147483646 0 1 1 in
  Rect.wf a ∧ Rect.wf b ∧ Rect.contains_rect (Rect.union a b) b = false.
Proof. split_and!; [repeat split; simpl; ints; lia.. | reflexivity]. Qed.

(** Touching rectangles: the test is symmetric and implied by a common
    pixel. *)
Lemma touches_comm a b :
  Rect.touches_or_overlaps a b = Rect.touches_or_overlaps b a.
Proof. unfold Rect.touches_or_overlaps. lia. Qed.

Lemma touches_of_overlap a b :
  Rect.wf a → Rect.wf b → overlap a b → Rect.touches_or_overlaps a b = true.
Proof. unfold overlap, Rect.touches_or_overlaps. lia. Qed.

Lemma not_touches_disjoint a b px py :
  Rect.touches_or_overlaps a b = false →
  ¬ (Rect.mem a px py ∧ Rect.mem b px py).
Proof. unfold Rect.touches_or_overlaps, Rect.mem. lia. Qed.

(** ** Translation and inflation *)

Lemma translated_wf r dx dy : Rect.wf r → Rect.wf (Rect.translated r dx dy).
Proof.
  intros (?&?&?&?). unfold Rect.translated, Rect.wf; simpl.
  split_and!; auto; apply i32_sat_ok.
Qed.

Lemma inflated_wf r n : Rect.wf r → Rect.wf (Rect.inflated r n).
Proof.
  intros (?&?&?&?). unfold Rect.inflated, Rect.wf; simpl.
  split_and!; first [apply i32_sat_ok | apply u32_sat_ok].
Qed.

(** One axis of [inflated]: the grown edges enclose the original ones. *)
Lemma inflate_axis o len n :
  I32.ok o → 0 <= len → 0 <= n → len + n <= I32.MAX →
  I32.saturating_sub o (I32.of_u32_or_max n) <= o ∧
  Z.min (o + len) I32.MAX <=
    I32.saturating_add (I32.saturating_sub o (I32.of_u32_or_max n))
      (I32.of_u32_or_max (U32.saturating_add len (U32.saturating_mul n 2))).
Proof.
  intros Ho Hl Hn Hs. unfold U32.saturating_mul, U32.saturating_add.
  rewrite (u32_sat_id (n * 2)) by (ints; lia).
  assert (I32.of_u32_or_max n = n) as -> by int_solve.
  assert (len + n <= I32.of_u32_or_max (U32.sat (len + n * 2))) as Hk
    by int_solve.
  set (k := I32.of_u32_or_max _) in *. clearbody k.
  assert (I32.saturating_sub o n <= o ∧ o - n <= I32.saturating_sub o n) as [? ?]
    by (ints; lia).
  set (a := I32.saturating_sub o n) in *. clearbody a. split; [done|].
  transitivity (I32.sat (o + len)); [ints; lia|]. apply i32_sat_mono. lia.
Qed.

(** Inflating keeps every pixel as long as the grown extent fits [i32]. *)
Lemma inflated_contains r n :
  Rect.wf r → 0 <= n →
  Rect.width r + n <= I32.MAX → Rect.height r + n <= I32.MAX →
  Rect.contains_rect (Rect.inflated r n) r = true.
Proof.
  intros Hr Hn Hw Hh. edges r. destruct Hr as (?&?&[? ?]&[? ?]).
  destruct (inflate_axis (Rect.x r) (Rect.width r) n) as [? ?]; [done..|].
  destruct (inflate_axis (Rect.y r) (Rect.height r) n) as [? ?]; [done..|].
  rewrite contains_rect_spec. unfold Rect.inflated; simpl.
  unfold Rect.right at 2, Rect.bottom at 2; simpl.
  destruct Hright as ([_ ?]&_&[_ ?]), Hbottom as ([_ ?]&_&[_ ?]).
  split_and!; [done..| |]; (eapply Z.le_trans; [|eassumption]);
    by apply Z.min_glb.
Qed.

(** ** Even splitting *)

Definition split_evenly (len : Z) (count : nat) : list Z :=
  if Nat.eqb count 0 then []
  else
    let count := U32.of_or_max (Z.of_nat count) in
    let base := len / count in
    let remainder := len mod count in
    map (λ index, base + (if Z.of_nat index <? remainder then 1 else 0))
        (seq 0 (Z.to_nat count)).

Lemma zsum_shares (base rem : Z) (k n : nat) :
  0 <= rem →
  zsum (map (λ i, base + (if Z.of_nat i <? rem then 1 else 0)) (seq k n))
  = Z.of_nat n * base + Z.max 0 (Z.min (Z.of_nat n) (rem - Z.of_nat k)).
Proof.
  intros Hr. revert k. induction n as [|n IH]; intros k; simpl seq; simpl map.
  - simpl. lia.
  - change (zsum (?a :: ?l)) with (a + zsum l). rewrite IH.
    destruct (Z.ltb_spec (Z.of_nat k) rem); lia.
Qed.

Lemma split_evenly_small len count :
  (0 < count)%nat → Z.of_nat count <= U32.MAX →
  split_evenly len count =
    map (λ i, len / Z.of_nat count
              + (if Z.of_nat i <? len mod Z.of_nat count then 1 else 0))
        (seq 0 count).
Proof.
  intros Hc Hm. unfold split_evenly. destruct (Nat.eqb_spec count 0); [lia|].
  rewrite u32_of_or_max_id by (ints; lia). by rewrite Nat2Z.id.
Qed.

Lemma split_evenly_length len count :
  Z.of_nat count <= U32.MAX → length (split_evenly len count) = count.
Proof.
  intros. destruct count as [|n]; [done|].
  rewrite split_evenly_small by lia. by rewrite length_map, length_seq.
Qed.

Lemma split_evenly_lookup len count i :
  Z.of_nat count <= U32.MAX → (i < count)%nat →
  split_evenly len count !! i =
    Some (len / Z.of_nat count
          + (if Z.of_nat i <? len mod Z.of_nat count then 1 else 0)).
Proof.
  intros. rewrite split_evenly_small by lia.
  rewrite list_lookup_fmap, lookup_seq_lt by lia. done.
Qed.

Lemma split_evenly_sum len count :
  0 <= len → (0 < count)%nat → Z.of_nat count <= U32.MAX →
  zsum (split_evenly len count) = len.
Proof.
  intros. rewrite split_evenly_small by lia.
  pose proof (Z.mod_pos_bound len (Z.of_nat count)).
  pose proof (Z.div_mod len (Z.of_nat count)).
  rewrite zsum_shares by lia. lia.
Qed.

Lemma split_evenly_nonneg len count :
  0 <= len → Forall (Z.le 0) (split_evenly len count).
Proof.
  intros. unfold split_evenly. destruct (Nat.eqb_spec count 0); [constructor|].
  apply Forall_map, Forall_true. intros i. simpl.
  pose proof (u32_of_or_max_ok (Z.of_nat count)) as Hc.
  assert (0 <= len / U32.of_or_max (Z.of_nat count)).
  { int_unfold. apply Z.div_pos; zcases; lia. }
  zcases; lia.
Qed.

(** [split_evenly] gives one share per track, the shares add up to the
    length, and they are balanced: any earlier share is equal to a later one
    or larger by exactly one. *)
Theorem split_evenly_balanced len count :
  U32.ok len → (0 < count)%nat → Z.of_nat count <= U32.MAX →
  length (split_evenly len count) = count ∧
  zsum (split_evenly len count) = len ∧
  Forall U32.ok (split_evenly len count) ∧
  ∀ i j a b, (i <= j)%nat → split_evenly len count !! i = Some a →
             split_evenly len count !! j = Some b → b <= a <= b + 1.
Proof.
  intros Hl Hc Hm. pose proof (split_evenly_length len count Hm) as Hlen.
  assert (Hs : zsum (split_evenly len count) = len)
    by (apply split_evenly_sum; ints; lia).
  assert (Hn : Forall (Z.le 0) (split_evenly len count))
    by (apply split_evenly_nonneg; ints; lia).
  split_and!; [done..| |].
  - apply Forall_lookup. intros i v Hv.
    pose proof (zsum_take_S _ _ _ Hv). pose proof (zsum_take_le _ (S i) Hn).
    pose proof (zsum_nonneg _ (Forall_take _ i _ Hn)).
    assert (0 <= v) by (eapply Forall_lookup_1 in Hn; eauto). ints; lia.
  - intros i j a b Hij Ha Hb.
    assert (j < count)%nat by (rewrite <- Hlen; by eapply lookup_lt_Some).
    rewrite split_evenly_lookup in Ha, Hb by lia. simplify_eq. zcases; lia.
Qed.

Lemma split_evenly_balanced_witness :
  split_evenly 10 3 = [4; 3; 3] ∧ zsum (split_evenly 10 3) = 10.
Proof.
  split; [reflexivity|].
  refine (proj1 (proj2 (split_evenly_balanced 10 3 _ _ _))); ints; lia.
Defined.

(** ** Output scale

    [OutputScale] of [crates/tensor-util/src/scale.rs]: a number of units over
    the fixed denominator 120. The conversions from and to [f64] are not
    modelled. The [u64] and [i64] intermediates hold products of two 32-bit
    values and never wrap, so they are plain integers here. *)

Module OutputScale.

Definition DENOMINATOR : Z := 120.

Definition MIN_UNITS : Z := 12.

Definition MAX_UNITS : Z := 1200.

Record t := mk { units : Z }.

Definition ONE : t := mk DENOMINATOR.

Definition from_units (u : Z) : option t :=
  if (MIN_UNITS <=? u) && (u <=? MAX_UNITS) then Some (mk u) else None.

Definition physical_length_round (s : t) (logical : Z) : Z :=
  let numerator := logical * units s in
  let rounded := (numerator + DENOMINATOR / 2) / DENOMINATOR in
  U32.of_or_max rounded.

Definition logical_length_ceil (s : t) (physical : Z) : Z :=
  let numerator := physical * DENOMINATOR in
  U32.of_or_max (div_ceil numerator (units s)).

Definition logical_size_ceil (s : t) (physical : Size.t) : Size.t :=
  Size.new (logical_length_ceil s (Size.width physical))
           (logical_length_ceil s (Size.height physical)).

Definition clamp_i64_to_i32 (v : Z) : Z := I32.of_clamped v.

Definition round_ratio (value u : Z) : Z :=
  let numerator := value * u in
  let rounded :=
    if 0 <=? numerator then (numerator + DENOMINATOR / 2) / DENOMINATOR
    else - ((- numerator + DENOMINATOR / 2) / DENOMINATOR) in
  clamp_i64_to_i32 rounded.

Definition floor_ratio (value u : Z) : Z :=
  clamp_i64_to_i32 (value * u / DENOMINATOR).

Definition ceil_ratio (value u : Z) : Z :=
  clamp_i64_to_i32 (- (- (value * u) / DENOMINATOR)).

Definition map_rect (logical : Rect.t) (lower upper : Z → Z) : Rect.t :=
  let left := lower (Rect.x logical) in
  let top := lower (Rect.y logical) in
  let right := if Rect.width logical =? 0 then left
               else upper (Rect.right logical) in
  let bottom := if Rect.height logical =? 0 then top
                else upper (Rect.bottom logical) in
  Rect.new left top
    (U32.of_or_max (I32.saturating_sub right left))
    (U32.of_or_max (I32.saturating_sub bottom top)).

Definition physical_rect_round (s : t) (logical : Rect.t) : Rect.t :=
  map_rect logical (λ edge, round_ratio edge (units s))
                   (λ edge, round_ratio edge (units s)).

Definition physical_rect_cover (s : t) (logical : Rect.t) : Rect.t :=
  map_rect logical (λ edge, floor_ratio edge (units s))
                   (λ edge, ceil_ratio edge (units s)).

(** A scale that [from_units] can produce. *)
Definition wf (s : t) : Prop := MIN_UNITS <= units s <= MAX_UNITS.

(** Logical coordinates whose scaled edges and extents stay representable at
    every admissible scale: a tenth of [i32::MAX], halved. *)
Definition COORD : Z := 107374182.

Definition small (r : Rect.t) : Prop :=
  Rect.wf r ∧ - COORD <= Rect.x r ∧ Rect.right r <= COORD ∧
  - COORD <= Rect.y r ∧ Rect.bottom r <= COORD.

End OutputScale.

Import OutputScale.

Lemma from_units_wf u s : from_units u = Some s → wf s ∧ units s = u.
Proof. unfold from_units. destruct (_ && _) eqn:E; intros; simplify_eq. unfold wf; simpl. lia. Qed.

(** Scaled edges are not clamped on small coordinates. *)
Lemma ratio_range s e :
  wf s → - COORD <= e <= COORD →
  - 1073741820 <= e * units s / DENOMINATOR ∧
  e * units s <= 128849018400 ∧ -128849018400 <= e * units s.
Proof.
  unfold wf, MIN_UNITS, MAX_UNITS, COORD, DENOMINATOR. intros ? ?.
  assert (-128849018400 <= e * units s <= 128849018400) by nia.
  split; [|lia]. apply Z.div_le_lower_bound; lia.
Qed.

Lemma floor_ratio_spec s e :
  wf s → - COORD <= e <= COORD →
  DENOMINATOR * floor_ratio e (units s) <= e * units s
    < DENOMINATOR * floor_ratio e (units s) + DENOMINATOR ∧
  -1073741820 <= floor_ratio e (units s) <= 1073741820.
Proof.
  intros Hs He. pose proof (ratio_range s e Hs He) as (?&?&?).
  unfold floor_ratio, clamp_i64_to_i32, I32.of_clamped, DENOMINATOR in *.
  set (n := e * units s) in *. clearbody n.
  rewrite i32_sat_id by (ints; div_lia). div_lia.
Qed.

Lemma ceil_ratio_spec s e :
  wf s → - COORD <= e <= COORD →
  e * units s <= DENOMINATOR * ceil_ratio e (units s) < e * units s + DENOMINATOR ∧
  -1073741820 <= ceil_ratio e (units s) <= 1073741820.
Proof.
  intros Hs He. pose proof (ratio_range s e Hs He) as (?&?&?).
  unfold ceil_ratio, clamp_i64_to_i32, I32.of_clamped, DENOMINATOR in *.
  set (n := e * units s) in *. clearbody n.
  rewrite i32_sat_id by (ints; div_lia). div_lia.
Qed.

Lemma round_ratio_spec s e :
  wf s → - COORD <= e <= COORD →
  2 * e * units s - DENOMINATOR <= 2 * DENOMINATOR * round_ratio e (units s)
    <= 2 * e * units s + DENOMINATOR ∧
  -1073741821 <= round_ratio e (units s) <= 1073741821.
Proof.
  intros Hs He. pose proof (ratio_range s e Hs He) as (?&?&?).
  unfold round_ratio, clamp_i64_to_i32, I32.of_clamped, DENOMINATOR in *.
  rewrite <- Z.mul_assoc.
  set (n := e * units s) in *. clearbody n. change (120 / 2) with 60.
  rewrite i32_sat_id; [destruct (Z.leb_spec 0 n); div_lia|].
  ints; destruct (Z.leb_spec 0 n); div_lia.
Qed.

(** Rounding an edge is monotone, also where it clamps. *)
Lemma round_ratio_mono u e f : 0 <= u → e <= f → round_ratio e u <= round_ratio f u.
Proof.
  intros Hu Hef. assert (e * u <= f * u) by nia.
  unfold round_ratio, clamp_i64_to_i32, I32.of_clamped, DENOMINATOR in *.
  set (n := e * u) in *. set (m := f * u) in *. clearbody n m. change (120 / 2) with 60.
  apply i32_sat_mono. destruct (Z.leb_spec 0 n), (Z.leb_spec 0 m); div_lia.
Qed.

(** The edges of a mapped rectangle when the mapped coordinates stay within
    [i32::MAX] of each other. *)
Definition mapped_range (e : Z) : Prop := -1073741821 <= e <= 1073741821.

Lemma map_rect_edges r lower upper :
  mapped_range (lower (Rect.x r)) → mapped_range (lower (Rect.y r)) →
  mapped_range (upper (Rect.right r)) → mapped_range (upper (Rect.bottom r)) →
  lower (Rect.x r) <= upper (Rect.right r) →
  lower (Rect.y r) <= upper (Rect.bottom r) →
  let m := map_rect r lower upper in
  Rect.wf m ∧ Rect.x m = lower (Rect.x r) ∧ Rect.y m = lower (Rect.y r) ∧
  Rect.right m = (if Rect.width r =? 0 then lower (Rect.x r) else upper (Rect.right r)) ∧
  Rect.bottom m = (if Rect.height r =? 0 then lower (Rect.y r) else upper (Rect.bottom r)).
Proof.
  intros ???? Hx Hy m. unfold mapped_range in *.
  set (rr := if Rect.width r =? 0 then lower (Rect.x r) else upper (Rect.right r)).
  set (bb := if Rect.height r =? 0 then lower (Rect.y r) else upper (Rect.bottom r)).
  assert (m = Rect.new (lower (Rect.x r)) (lower (Rect.y r))
    (U32.of_or_max (I32.saturating_sub rr (lower (Rect.x r))))
    (U32.of_or_max (I32.saturating_sub bb (lower (Rect.y r))))) as -> by done.
  assert (lower (Rect.x r) <= rr <= 1073741821) by (unfold rr; zcases; lia).
  assert (lower (Rect.y r) <= bb <= 1073741821) by (unfold bb; zcases; lia).
  clearbody rr bb. unfold I32.saturating_sub.
  rewrite !i32_sat_id, !u32_of_or_max_id by (ints; lia).
  rewrite rect_of_edges_right, rect_of_edges_bottom by (ints; lia).
  unfold Rect.wf; simpl. ints; lia.
Qed.

Lemma small_edges r :
  small r → - COORD <= Rect.x r <= COORD ∧ - COORD <= Rect.right r <= COORD ∧
            - COORD <= Rect.y r <= COORD ∧ - COORD <= Rect.bottom r <= COORD.
Proof.
  intros (Hr&?&?&?&?). destruct (rect_right_bounds r Hr) as ([??]&_).
  destruct (rect_bottom_bounds r Hr) as ([??]&_). lia.
Qed.

(** Each physical edge of [physical_rect_cover], in units of 1/120 logical
    pixel, encloses the scaled logical edge and is less than one physical
    pixel away from it. *)
Lemma cover_edges s r :
  wf s → small r → Rect.nonempty r →
  let p := physical_rect_cover s r in
  Rect.wf p ∧
  DENOMINATOR * Rect.x p <= Rect.x r * units s < DENOMINATOR * (Rect.x p + 1) ∧
  DENOMINATOR * Rect.y p <= Rect.y r * units s < DENOMINATOR * (Rect.y p + 1) ∧
  DENOMINATOR * (Rect.right p - 1) < Rect.right r * units s <= DENOMINATOR * Rect.right p ∧
  DENOMINATOR * (Rect.bottom p - 1) < Rect.bottom r * units s <= DENOMINATOR * Rect.bottom p.
Proof.
  intros Hs Hr [Hw Hh] p. destruct (small_edges r Hr) as (B1&B2&B3&B4).
  destruct (floor_ratio_spec s _ Hs B1) as [F1 R1].
  destruct (floor_ratio_spec s _ Hs B3) as [F3 R3].
  destruct (ceil_ratio_spec s _ Hs B2) as [F2 R2].
  destruct (ceil_ratio_spec s _ Hs B4) as [F4 R4].
  destruct Hr as (Hwf&_). edges r.
  assert (Rect.x r * units s <= Rect.right r * units s) by (unfold wf, MIN_UNITS in Hs; nia).
  assert (Rect.y r * units s <= Rect.bottom r * units s) by (unfold wf, MIN_UNITS in Hs; nia).
  destruct (map_rect_edges r (λ e, floor_ratio e (units s)) (λ e, ceil_ratio e (units s)))
    as (?&Ex&Ey&Er&Eb); unfold mapped_range; simpl; try (unfold DENOMINATOR in *; lia).
  change (map_rect _ _ _) with p in *. cbn beta in *.
  destruct (Z.eqb_spec (Rect.width r) 0); [lia|].
  destruct (Z.eqb_spec (Rect.height r) 0); [lia|].
  rewrite Er, Eb. split; [done|]. unfold DENOMINATOR in *. lia.
Qed.

(** The square of the physical pixel [(px, py)] meets the interior of the
    scaled logical rectangle. *)
Definition touches_scaled (s : t) (r : Rect.t) (px py : Z) : Prop :=
  DENOMINATOR * px < Rect.right r * units s ∧
  Rect.x r * units s < DENOMINATOR * (px + 1) ∧
  DENOMINATOR * py < Rect.bottom r * units s ∧
  Rect.y r * units s < DENOMINATOR * (py + 1).

Lemma cover_mem s r px py :
  wf s → small r → Rect.nonempty r →
  Rect.wf (physical_rect_cover s r) ∧
  (Rect.mem (physical_rect_cover s r) px py ↔ touches_scaled s r px py).
Proof.
  intros Hs Hr Hn. destruct (cover_edges s r Hs Hr Hn) as (?&?&?&?&?).
  split; [done|]. unfold Rect.mem, touches_scaled, DENOMINATOR in *. lia.
Qed.

(** the physical rectangle of [physical_rect_cover] contains exactly the
    physical pixels that the scaled logical rectangle touches: it covers the
    scaled rectangle and no smaller pixel rectangle does. *)
Theorem physical_rect_cover_exact s r :
  wf s → small r → Rect.nonempty r →
  Rect.wf (physical_rect_cover s r) ∧
  ∀ px py, Rect.mem (physical_rect_cover s r) px py ↔ touches_scaled s r px py.
Proof.
  intros Hs Hr Hn. split; [by apply (cover_mem s r 0 0)|].
  intros px py. by apply cover_mem.
Qed.

Lemma physical_rect_cover_exact_witness :
  physical_rect_cover (mk 150) (Rect.new (-1) (-1) 2 2) = Rect.new (-2) (-2) 4 4 ∧
  touches_scaled (mk 150) (Rect.new (-1) (-1) 2 2) 1 (-2).
Proof.
  split; [reflexivity|].
  refine (proj1 (proj2 (physical_rect_cover_exact (mk 150)
    (Rect.new (-1) (-1) 2 2) _ _ _) 1 (-2)) _).
  - split; vm_compute; congruence.
  - repeat split; vm_compute; congruence.
  - split; vm_compute; congruence.
  - repeat split; vm_compute; congruence.
Defined.

(** rounding maps both edges independently and monotonically: a logical
    rectangle keeps ordered physical edges, each within half a physical pixel
    of the scaled one, and two rectangles that share a vertical logical edge
    share the physical edge. *)
Theorem physical_rect_round_shared_edges s a b :
  wf s → small a → small b → Rect.nonempty a → Rect.nonempty b →
  Rect.right a = Rect.x b →
  let pa := physical_rect_round s a in
  let pb := physical_rect_round s b in
  Rect.right pa = Rect.x pb ∧ Rect.wf pa ∧ Rect.wf pb ∧
  Rect.x pa <= Rect.right pa ∧
  2 * Rect.x a * units s - DENOMINATOR <= 2 * DENOMINATOR * Rect.x pa
    <= 2 * Rect.x a * units s + DENOMINATOR.
Proof.
  intros Hs Ha Hb [Hwa Hha] [Hwb Hhb] Hshare pa pb.
  assert (Hmap : ∀ r, small r → Rect.wf (physical_rect_round s r) ∧
    Rect.x (physical_rect_round s r) = round_ratio (Rect.x r) (units s) ∧
    (0 < Rect.width r →
      Rect.right (physical_rect_round s r) = round_ratio (Rect.right r) (units s))).
  { intros r Hr. destruct (small_edges r Hr) as (B1&B2&B3&B4).
    destruct (round_ratio_spec s _ Hs B1) as [_ ?], (round_ratio_spec s _ Hs B2) as [_ ?],
      (round_ratio_spec s _ Hs B3) as [_ ?], (round_ratio_spec s _ Hs B4) as [_ ?].
    destruct Hr as (Hwf&_). edges r. unfold wf, MIN_UNITS in Hs.
    destruct (map_rect_edges r (λ e, round_ratio e (units s)) (λ e, round_ratio e (units s)))
      as (?&Ex&_&Er&_); unfold mapped_range; try lia;
      try (apply round_ratio_mono; lia).
    split_and!; [done..|]. intros. etransitivity; [apply Er|].
    by destruct (Z.eqb_spec (Rect.width r) 0); [lia|]. }
  destruct (Hmap a Ha) as (?&Exa&Era), (Hmap b Hb) as (?&Exb&_).
  destruct (small_edges a Ha) as (B1&_). unfold pa, pb.
  rewrite Era, Exa, Exb, Hshare by done. destruct Ha as (Hwf&_). edges a.
  split_and!; try done; try apply (round_ratio_spec s _ Hs B1).
  apply round_ratio_mono; [unfold wf, MIN_UNITS in Hs|]; lia.
Qed.

Lemma physical_rect_round_shared_edges_witness :
  Rect.right (physical_rect_round (mk 150) (Rect.new 0 0 1 10)) =
  Rect.x (physical_rect_round (mk 150) (Rect.new 1 0 1 10)).
Proof.
  refine (proj1 (physical_rect_round_shared_edges (mk 150)
    (Rect.new 0 0 1 10) (Rect.new 1 0 1 10) _ _ _ _ _ _));
    first [reflexivity | repeat split; vm_compute; congruence].
Defined.

(** [logical_length_ceil] gives the least logical length whose scaled
    length reaches the physical one, so that rounding it back never loses a
    physical pixel. *)
Theorem logical_length_ceil_covers s p :
  wf s → 0 <= p <= COORD →
  let l := logical_length_ceil s p in
  U32.ok l ∧ p * DENOMINATOR <= l * units s ∧
  (∀ k, p * DENOMINATOR <= k * units s → l <= k) ∧
  p <= physical_length_round s l.
Proof.
  intros Hs Hp l. unfold wf, MIN_UNITS, MAX_UNITS, COORD in *.
  pose proof (div_ceil_spec (p * DENOMINATOR) (units s)) as Hd.
  assert (E : l = div_ceil (p * DENOMINATOR) (units s)).
  { apply u32_of_or_max_id. unfold DENOMINATOR in *. ints. nia. }
  rewrite <- E in Hd. unfold DENOMINATOR in *.
  assert (U32.ok l) by (rewrite E; ints; rewrite <- E; nia).
  split_and!; [done|nia| |].
  - intros k Hk. rewrite E. apply div_ceil_le; lia.
  - unfold physical_length_round, DENOMINATOR. change (120 / 2) with 60.
    assert (p * 120 <= l * units s < p * 120 + 1200) by nia.
    set (n := l * units s) in *. rewrite u32_of_or_max_id; ints; div_lia.
Qed.

Lemma logical_length_ceil_covers_witness :
  logical_length_ceil (mk 150) 101 = 81 ∧
  101 <= physical_length_round (mk 150) 81.
Proof.
  split; [reflexivity|].
  refine (proj2 (proj2 (proj2 (logical_length_ceil_covers (mk 150) 101 _ _))));
    split; vm_compute; congruence.
Defined.
