(* ===== verification/Surface.v ===== *)
(** * Surface values of the [tensor-protocol] crate

    Colorimetry ([color.rs]), buffer orientation, crop rectangle, sampling
    transform and renderable content of one surface ([content.rs]), and the
    presentation hint ([presentation.rs]). Identifiers ([SurfaceId],
    [SurfaceBufferId], [ViewId], [WorkspaceId], [ContentRevision]) are
    transparent newtypes over unsigned integers and are plain [Z] values here.

    [SurfaceSampleTransform::for_surface] computes in [f64] and [f32]; it is
    modelled with the Standard Library's executable specification of IEEE 754
    binary arithmetic. *)

From Stdlib Require Import Floats.SpecFloat.
From S2P Require Import Prelude Geometry.

(** ** Color state *)

Module RenderIntent.

Inductive t :=
  Perceptual | Relative | Saturation | Absolute
| RelativeBlackPointCompensation | AbsoluteNoAdaptation.

#[global] Instance t_eq_dec : EqDecision t.
Proof. solve_decision. Defined.

End RenderIntent.

Module Chromaticity.

Record t := new { x : Z; y : Z }.

#[global] Instance t_eq_dec : EqDecision t.
Proof. solve_decision. Defined.

Definition SCALE : Z := 1000000.

Definition is_physical (c : t) : bool :=
  (0 <=? x c) && (0 <? y c) && (x c <=? SCALE) && (y c <=? SCALE)
  && (I32.saturating_add (x c) (y c) <=? SCALE).

End Chromaticity.

Module Chromaticities.

Record t := mk {
  red : Chromaticity.t; green : Chromaticity.t;
  blue : Chromaticity.t; white : Chromaticity.t }.

#[global] Instance t_eq_dec : EqDecision t.
Proof. solve_decision. Defined.

Definition SRGB : t := mk
  (Chromaticity.new 640000 330000) (Chromaticity.new 300000 600000)
  (Chromaticity.new 150000 60000) (Chromaticity.new 312700 329000).

Definition BT2020 : t := mk
  (Chromaticity.new 708000 292000) (Chromaticity.new 170000 797000)
  (Chromaticity.new 131000 46000) (Chromaticity.new 312700 329000).

Definition is_physical (c : t) : bool :=
  Chromaticity.is_physical (red c) && Chromaticity.is_physical (green c)
  && Chromaticity.is_physical (blue c) && Chromaticity.is_physical (white c).

End Chromaticities.

Module ColorPrimaries.

Inductive t :=
  Srgb | PalM | Pal | Ntsc | GenericFilm | Bt2020 | Cie1931Xyz | DciP3
| DisplayP3 | AdobeRgb
| Custom (value : Chromaticities.t).

#[global] Instance t_eq_dec : EqDecision t.
Proof. solve_decision. Defined.

Definition chromaticities (p : t) : option Chromaticities.t :=
  match p with
  | Srgb => Some Chromaticities.SRGB
  | Bt2020 => Some Chromaticities.BT2020
  | Custom value => Some value
  | _ => None
  end.

End ColorPrimaries.

Module TransferFunction.

Inductive t :=
  Bt1886 | Gamma22 | Gamma28 | St240 | ExtendedLinear | Log100 | Log316
| XvYcc | Srgb | ExtendedSrgb | St2084Pq | St428 | Hlg | CompoundPower24
| Power (exponent : Z).

#[global] Instance t_eq_dec : EqDecision t.
Proof. solve_decision. Defined.

Definition is_hdr (f : t) : bool :=
  match f with St2084Pq | Hlg => true | _ => false end.

Definition valid (f : t) : bool :=
  match f with
  | Power exponent => (10000 <=? exponent) && (exponent <=? 100000)
  | _ => true
  end.

End TransferFunction.

Module ColorLuminances.

Record t := new {
  min_luminance_x10k : Z; max_luminance : Z; reference_white : Z }.

#[global] Instance t_eq_dec : EqDecision t.
Proof. solve_decision. Defined.

Definition SDR : t := new 2000 80 80.

Definition PQ : t := new 50 10000 203.

Definition HLG : t := new 50 1000 203.

(** The two products are [u64] products of a [u32] by 10000. *)
Definition valid (l : t) : bool :=
  let max_x10k := max_luminance l * 10000 in
  let reference_x10k := reference_white l * 10000 in
  (min_luminance_x10k l <? max_x10k) && (min_luminance_x10k l <? reference_x10k).

End ColorLuminances.

Module MasteringMetadata.

Record t := mk {
  primaries : Chromaticities.t;
  min_luminance_x10k : Z;
  max_luminance : Z;
  max_content_light_level : option Z;
  max_frame_average_light_level : option Z }.

#[global] Instance t_eq_dec : EqDecision t.
Proof. solve_decision. Defined.

Definition valid (m : t) : bool :=
  Chromaticities.is_physical (primaries m)
  && (min_luminance_x10k m <? max_luminance m * 10000)
  && match max_content_light_level m, max_frame_average_light_level m with
     | Some content, Some average => average <=? content
     | _, _ => true
     end.

End MasteringMetadata.

Module ImageDescriptionError.

Inductive t :=
  InvalidTransferFunction | InvalidPrimaries | InvalidLuminances
| InvalidMasteringMetadata.

End ImageDescriptionError.

Module ImageDescriptionId.

(** Zero is reserved by the wire protocol. *)
Definition new (value : Z) : option Z :=
  if value =? 0 then None else Some value.

End ImageDescriptionId.

Module ImageDescription.

Record t := mk {
  id : Z;
  primaries : ColorPrimaries.t;
  transfer_function : TransferFunction.t;
  luminances : ColorLuminances.t;
  mastering : option MasteringMetadata.t }.

#[global] Instance t_eq_dec : EqDecision t.
Proof. solve_decision. Defined.

Definition srgb (id : Z) : t :=
  mk id ColorPrimaries.Srgb TransferFunction.CompoundPower24
     ColorLuminances.SDR None.

Definition validate (d : t) : Outcome ImageDescriptionError.t t :=
  if negb (TransferFunction.valid (transfer_function d)) then
    Err ImageDescriptionError.InvalidTransferFunction
  else if match primaries d with
          | ColorPrimaries.Custom primaries =>
              negb (Chromaticities.is_physical primaries)
          | _ => false
          end then
    Err ImageDescriptionError.InvalidPrimaries
  else if negb (ColorLuminances.valid (luminances d)) then
    Err ImageDescriptionError.InvalidLuminances
  else if match mastering d with
          | Some mastering => negb (MasteringMetadata.valid mastering)
          | None => false
          end then
    Err ImageDescriptionError.InvalidMasteringMetadata
  else Ok d.

Definition is_hdr (d : t) : bool :=
  TransferFunction.is_hdr (transfer_function d)
  || (203 <? ColorLuminances.max_luminance (luminances d)).

End ImageDescription.

Module ColorAlphaMode.

Inductive t := PremultipliedElectrical | PremultipliedOptical | Straight.

#[global] Instance t_eq_dec : EqDecision t.
Proof. solve_decision. Defined.

End ColorAlphaMode.

Module MatrixCoefficients.

Inductive t :=
  Identity | Bt709 | Fcc | Bt601 | Smpte240 | Bt2020
| Bt2020ConstantLuminance | Ictcp.

#[global] Instance t_eq_dec : EqDecision t.
Proof. solve_decision. Defined.

End MatrixCoefficients.

Module ColorRange.

Inductive t := Full | Limited.

#[global] Instance t_eq_dec : EqDecision t.
Proof. solve_decision. Defined.

End ColorRange.

Module ChromaLocation.

Inductive t := Type0 | Type1 | Type2 | Type3 | Type4 | Type5.

#[global] Instance t_eq_dec : EqDecision t.
Proof. solve_decision. Defined.

End ChromaLocation.

Module ColorRepresentation.

Record t := mk {
  alpha_mode : ColorAlphaMode.t;
  coefficients_and_range : option (MatrixCoefficients.t * ColorRange.t);
  chroma_location : option ChromaLocation.t }.

#[global] Instance t_eq_dec : EqDecision t.
Proof. solve_decision. Defined.

Definition dflt : t := mk ColorAlphaMode.PremultipliedElectrical None None.

End ColorRepresentation.

Module SurfaceColorState.

Record t := mk {
  image_description : option (ImageDescription.t * RenderIntent.t);
  representation : ColorRepresentation.t }.

#[global] Instance t_eq_dec : EqDecision t.
Proof. solve_decision. Defined.

Definition dflt : t := mk None ColorRepresentation.dflt.

End SurfaceColorState.

(** ** Content of one surface *)

Module ContentRevision.

(** [ContentRevision::next]: the generation counter wraps. *)
Definition next (revision : Z) : Z := U64.wrapping_succ revision.

End ContentRevision.

Module SurfaceAlpha.

Definition TRANSPARENT : Z := 0.

Definition OPAQUE : Z := U32.MAX.

End SurfaceAlpha.

Module SurfacePresentationHint.

Inductive t := Vsync | Async.

#[global] Instance t_eq_dec : EqDecision t.
Proof. solve_decision. Defined.

End SurfacePresentationHint.

Module SurfaceLayer.

Inductive t := View | Popup.

#[global] Instance t_eq_dec : EqDecision t.
Proof. solve_decision. Defined.

End SurfaceLayer.

Module SurfaceUvTransform.

(** Components are [i8] pairs. *)
Record t := mk { origin : Z * Z; axis_x : Z * Z; axis_y : Z * Z }.

#[global] Instance t_eq_dec : EqDecision t.
Proof. solve_decision. Defined.

(** The buffer position sampled for the surface position [(u, v)]. *)
Definition apply (m : t) (p : Z * Z) : Z * Z :=
  ((origin m).1 + (axis_x m).1 * p.1 + (axis_y m).1 * p.2,
   (origin m).2 + (axis_x m).2 * p.1 + (axis_y m).2 * p.2).

End SurfaceUvTransform.

Module SurfaceTransform.

Inductive t :=
  Normal | Rotate90 | Rotate180 | Rotate270
| Flipped | Flipped90 | Flipped180 | Flipped270.

#[global] Instance t_eq_dec : EqDecision t.
Proof. solve_decision. Defined.

Definition swaps_axes (s : t) : bool :=
  match s with
  | Rotate90 | Rotate270 | Flipped90 | Flipped270 => true
  | _ => false
  end.

Definition uv_transform (s : t) : SurfaceUvTransform.t :=
  match s with
  | Normal => SurfaceUvTransform.mk (0, 0) (1, 0) (0, 1)
  | Rotate90 => SurfaceUvTransform.mk (1, 0) (0, 1) (-1, 0)
  | Rotate180 => SurfaceUvTransform.mk (1, 1) (-1, 0) (0, -1)
  | Rotate270 => SurfaceUvTransform.mk (0, 1) (0, -1) (1, 0)
  | Flipped => SurfaceUvTransform.mk (1, 0) (-1, 0) (0, 1)
  | Flipped90 => SurfaceUvTransform.mk (0, 0) (0, 1) (1, 0)
  | Flipped180 => SurfaceUvTransform.mk (0, 1) (1, 0) (0, -1)
  | Flipped270 => SurfaceUvTransform.mk (1, 1) (0, -1) (-1, 0)
  end.

End SurfaceTransform.

Module SurfaceSourceRect.

(** Wayland 24.8 fixed-point values, each an [i32]. *)
Record t := from_raw_fixed { x : Z; y : Z; width : Z; height : Z }.

#[global] Instance t_eq_dec : EqDecision t.
Proof. solve_decision. Defined.

Definition FIXED_SCALE : Z := 256.

Definition has_integer_size (s : t) : bool :=
  (Z.rem (width s) FIXED_SCALE =? 0) && (Z.rem (height s) FIXED_SCALE =? 0).

Definition integer_size (s : t) : Z * Z :=
  (Z.quot (width s) FIXED_SCALE, Z.quot (height s) FIXED_SCALE).

(** The sums and products are [i64] operations on [i32] values. *)
Definition fits_within (s : t) (w h : Z) : bool :=
  (0 <=? x s) && (0 <=? y s) && (0 <? width s) && (0 <? height s)
  && (x s + width s <=? w * FIXED_SCALE)
  && (y s + height s <=? h * FIXED_SCALE).

End SurfaceSourceRect.

(** Rounding to nearest even in the two formats the source uses. *)
Module F64.

Definition of_int (v : Z) : spec_float := binary_normalize 53 1024 v 0 false.

Definition div (a b : spec_float) : spec_float := SFdiv 53 1024 a b.

End F64.

Module F32.

Definition of_int (v : Z) : spec_float := binary_normalize 24 128 v 0 false.

Definition mul (a b : spec_float) : spec_float := SFmul 24 128 a b.

Definition add (a b : spec_float) : spec_float := SFadd 24 128 a b.

(** [v as f32] for an [f64]. *)
Definition of_f64 (v : spec_float) : spec_float :=
  match v with
  | S754_finite s m e =>
      binary_normalize 24 128 (if s then Z.neg m else Z.pos m) e s
  | _ => v
  end.

(** [f32::to_bits]. *)
Definition to_bits (v : spec_float) : Z :=
  let sign (s : bool) := if s then 2147483648 else 0 in
  match v with
  | S754_zero s => sign s
  | S754_infinity s => sign s + 255 * 8388608
  | S754_nan => 2143289344
  | S754_finite s m e =>
      if Z.pos m <? 8388608 then sign s + Z.pos m
      else sign s + (e + 150) * 8388608 + (Z.pos m - 8388608)
  end.

End F32.

Module SurfaceSampleTransform.

(** The six [f32] components by their bits. *)
Record t := mk { components : list Z }.

#[global] Instance t_eq_dec : EqDecision t.
Proof. solve_decision. Defined.

Definition new (origin axis_x axis_y : spec_float * spec_float) : t :=
  mk [F32.to_bits origin.1; F32.to_bits origin.2;
      F32.to_bits axis_x.1; F32.to_bits axis_x.2;
      F32.to_bits axis_y.1; F32.to_bits axis_y.2].

Definition of_pair (p : Z * Z) : spec_float * spec_float :=
  (F32.of_int p.1, F32.of_int p.2).

Definition IDENTITY : t := new (of_pair (0, 0)) (of_pair (1, 0)) (of_pair (0, 1)).

Definition from_discrete (m : SurfaceUvTransform.t) : t :=
  new (of_pair (SurfaceUvTransform.origin m))
      (of_pair (SurfaceUvTransform.axis_x m))
      (of_pair (SurfaceUvTransform.axis_y m)).

(** [source.as_f64()[i] / f64::from(logical)] as [f32]. *)
Definition unit_coordinate (fixed logical : Z) : spec_float :=
  F32.of_f64 (F64.div (F64.div (F64.of_int fixed)
                               (F64.of_int SurfaceSourceRect.FIXED_SCALE))
                      (F64.of_int logical)).

Definition for_surface (buffer_size : Size.t) (buffer_scale : Z)
    (transform : SurfaceTransform.t) (source : option SurfaceSourceRect.t) : t :=
  let base := SurfaceTransform.uv_transform transform in
  match source with
  | None => from_discrete base
  | Some source =>
      let scale := Z.max buffer_scale 1 in
      let '(transformed_width, transformed_height) :=
        if SurfaceTransform.swaps_axes transform
        then (Size.height buffer_size, Size.width buffer_size)
        else (Size.width buffer_size, Size.height buffer_size) in
      let logical_width := transformed_width / scale in
      let logical_height := transformed_height / scale in
      if (logical_width =? 0) || (logical_height =? 0) then from_discrete base
      else
        let x := unit_coordinate (SurfaceSourceRect.x source) logical_width in
        let y := unit_coordinate (SurfaceSourceRect.y source) logical_height in
        let width := unit_coordinate (SurfaceSourceRect.width source) logical_width in
        let height := unit_coordinate (SurfaceSourceRect.height source) logical_height in
        let base_origin := of_pair (SurfaceUvTransform.origin base) in
        let base_x := of_pair (SurfaceUvTransform.axis_x base) in
        let base_y := of_pair (SurfaceUvTransform.axis_y base) in
        new
          (F32.add (F32.add base_origin.1 (F32.mul base_x.1 x)) (F32.mul base_y.1 y),
           F32.add (F32.add base_origin.2 (F32.mul base_x.2 x)) (F32.mul base_y.2 y))
          (F32.mul base_x.1 width, F32.mul base_x.2 width)
          (F32.mul base_y.1 height, F32.mul base_y.2 height)
  end.

End SurfaceSampleTransform.

Module SurfaceContent.

Record t := mk {
  surface_id : Z;
  buffer_id : Z;
  revision : Z;
  layer : SurfaceLayer.t;
  alpha : Z;
  color : SurfaceColorState.t;
  local_geometry : Rect.t;
  sample_transform : SurfaceSampleTransform.t }.

#[global] Instance t_eq_dec : EqDecision t.
Proof. solve_decision. Defined.

End SurfaceContent.

(** ** Examples from the source's tests *)

Example standard_descriptions_validate :
  ImageDescription.validate (ImageDescription.srgb 1) = Ok (ImageDescription.srgb 1) ∧
  ImageDescription.is_hdr (ImageDescription.mk 2 ColorPrimaries.Bt2020
    TransferFunction.St2084Pq ColorLuminances.PQ None) = true.
Proof. split; reflexivity. Qed.

Example revisions_wrap : ContentRevision.next U64.MAX = 0.
Proof. reflexivity. Qed.

Example identity_bits : SurfaceSampleTransform.components SurfaceSampleTransform.IDENTITY
  = [0; 0; 1065353216; 0; 0; 1065353216].
Proof. vm_compute. reflexivity. Qed.

(** Cropping composes after scale and rotation: the bits of (0.9, 0.1),
    (0, 0.2) and (-0.2, 0). *)
Example cropped_sampling :
  SurfaceSampleTransform.components
    (SurfaceSampleTransform.for_surface (Size.new 200 100) 2
       SurfaceTransform.Rotate90
       (Some (SurfaceSourceRect.from_raw_fixed 1280 2560 2560 5120)))
  = [1063675494; 1036831949; 0; 1045220557; 3192704205; 0].
Proof. vm_compute. reflexivity. Qed.

(** ** Orientations *)

Definition unit_corners : list (Z * Z) := [(0, 0); (1, 0); (0, 1); (1, 1)].

Definition determinant (m : SurfaceUvTransform.t) : Z :=
  (SurfaceUvTransform.axis_x m).1 * (SurfaceUvTransform.axis_y m).2
  - (SurfaceUvTransform.axis_x m).2 * (SurfaceUvTransform.axis_y m).1.

(** The affine map sends the corners of the unit square to corners, and no
    two corners to the same one. *)
Definition square_symmetry (m : SurfaceUvTransform.t) : Prop :=
  Forall (λ p, SurfaceUvTransform.apply m p ∈ unit_corners) unit_corners ∧
  NoDup (SurfaceUvTransform.apply m <$> unit_corners).

#[export] Instance square_symmetry_dec m : Decision (square_symmetry m).
Proof. unfold square_symmetry. apply _. Defined.

Lemma unit_corners_elem p :
  p ∈ unit_corners ↔ (p.1 = 0 ∨ p.1 = 1) ∧ (p.2 = 0 ∨ p.2 = 1).
Proof.
  destruct p as [x y]. unfold unit_corners. simpl. split.
  - rewrite !elem_of_cons, elem_of_nil. intros [|[|[|[|[]]]]]; simplify_eq; lia.
  - intros [[-> | ->] [-> | ->]]; repeat (first [left; reflexivity | right]).
Qed.

(** A symmetry is determined by the corners it sends three corners to. *)
Definition of_corners (o a b : Z * Z) : SurfaceUvTransform.t :=
  SurfaceUvTransform.mk o (a.1 - o.1, a.2 - o.2) (b.1 - o.1, b.2 - o.2).

Lemma symmetry_of_corners m :
  square_symmetry m →
  ∃ o a b, m = of_corners o a b ∧
    o ∈ unit_corners ∧ a ∈ unit_corners ∧ b ∈ unit_corners.
Proof.
  intros [Hin _]. unfold unit_corners at 2 in Hin. rewrite !Forall_cons in Hin.
  destruct Hin as (?&?&?&_).
  exists (SurfaceUvTransform.apply m (0, 0)), (SurfaceUvTransform.apply m (1, 0)),
    (SurfaceUvTransform.apply m (0, 1)). split; [|by split_and!].
  destruct m as [[] [] []]. unfold of_corners, SurfaceUvTransform.apply; simpl.
  f_equal; apply injective_projections; simpl; lia.
Qed.

Definition orientations : list SurfaceTransform.t :=
  [SurfaceTransform.Normal; SurfaceTransform.Rotate90;
   SurfaceTransform.Rotate180; SurfaceTransform.Rotate270;
   SurfaceTransform.Flipped; SurfaceTransform.Flipped90;
   SurfaceTransform.Flipped180; SurfaceTransform.Flipped270].

Lemma symmetry_oriented m :
  square_symmetry m → ∃ s, SurfaceTransform.uv_transform s = m.
Proof.
  intros Hm. destruct (symmetry_of_corners m Hm) as (o&a&b&->&Ho&Ha&Hb).
  assert (Hall : Forall (λ o, Forall (λ a, Forall (λ b,
      square_symmetry (of_corners o a b) →
      Exists (λ s, SurfaceTransform.uv_transform s = of_corners o a b) orientations)
    unit_corners) unit_corners) unit_corners)
    by (apply (bool_decide_eq_true_1 _); vm_compute; reflexivity).
  rewrite Forall_forall in Hall; specialize (Hall o Ho).
  rewrite Forall_forall in Hall; specialize (Hall a Ha).
  rewrite Forall_forall in Hall; specialize (Hall b Hb).
  apply Hall, Exists_exists in Hm as (s&_&Hs). by exists s.
Qed.

(** The eight buffer orientations of [SurfaceTransform::uv_transform] are
    exactly the eight symmetries of the unit square: each maps the corners of
    a surface onto the corners of its buffer, they are pairwise different, no
    other integer affine map does so, the flipped ones are the reflections and
    [swaps_axes] holds for those that exchange width and height. *)
Theorem uv_transform_symmetries :
  (∀ s, square_symmetry (SurfaceTransform.uv_transform s)) ∧
  (∀ m, square_symmetry m → ∃ s, SurfaceTransform.uv_transform s = m) ∧
  (∀ s s', SurfaceTransform.uv_transform s = SurfaceTransform.uv_transform s' → s = s') ∧
  (∀ s, determinant (SurfaceTransform.uv_transform s) = 1 ↔
        s ∈ [SurfaceTransform.Normal; SurfaceTransform.Rotate90;
             SurfaceTransform.Rotate180; SurfaceTransform.Rotate270]) ∧
  ∀ s, SurfaceTransform.swaps_axes s = true ↔
       (SurfaceUvTransform.axis_x (SurfaceTransform.uv_transform s)).1 = 0.
Proof.
  split_and!.
  - intros s. apply (bool_decide_eq_true_1 _). by destruct s.
  - intros m. apply symmetry_oriented.
  - intros [] []; (reflexivity || discriminate).
  - intros s. rewrite !elem_of_cons, elem_of_nil.
    destruct s; vm_compute; intuition congruence.
  - by intros [].
Qed.
