(* ===== verification/Layout.v ===== *)
(** * Workspace layout engines

    [apps/tensor-wm/src/layout]: the size constraints and lengths of
    [model.rs], the grid and master-stack engines of [policy.rs] and the
    scrolling engine of [scrolling.rs]. Loops over the items are recursions
    over the remaining items; every coordinate goes through the saturating
    operations the source uses. *)

From S2P Require Import Prelude Geometry.

(** ** Values of model.rs *)

Module SizeConstraints.

Record t := new {
  min : Size.t;
  max_width : option Z;
  max_height : option Z }.

#[global] Instance t_eq_dec : EqDecision t.
Proof. solve_decision. Defined.

Definition constrain_axis (desired min : Z) (max : option Z) : Z :=
  let max := Z.max (default U32.MAX max) min in
  zclamp min max desired.

Definition constrain (c : t) (desired : Size.t) : Size.t :=
  Size.new
    (constrain_axis (Size.width desired) (Size.width (min c)) (max_width c))
    (constrain_axis (Size.height desired) (Size.height (min c)) (max_height c)).

Definition dflt : t := new (Size.new 1 1) None None.

(** Field ranges of the Rust struct. *)
Definition wf (c : t) : Prop :=
  Size.wf (min c) ∧ (∀ w, max_width c = Some w → U32.ok w) ∧
  (∀ h, max_height c = Some h → U32.ok h).

End SizeConstraints.

Module LayoutLength.

Inductive t :=
| Proportion (numerator denominator : Z)
| Fixed (pixels : Z).

#[global] Instance t_eq_dec : EqDecision t.
Proof. solve_decision. Defined.

(** The Euclidean loop; the fuel of its caller is enough for [u32]
    operands, see [gcd_loop_gcd]. *)
Fixpoint gcd_loop (fuel : nat) (left right : Z) : Z :=
  match fuel with
  | O => left
  | S fuel =>
      if right =? 0 then left else gcd_loop fuel right (left mod right)
  end.

Definition greatest_common_divisor (left right : Z) : Z :=
  let left := gcd_loop 65 left right in
  if left =? 0 then 1 else left.

Definition proportion (numerator denominator : Z) : t :=
  let denominator := if denominator =? 0 then 1 else denominator in
  let divisor := greatest_common_divisor numerator denominator in
  Proportion (numerator / divisor) (denominator / divisor).

Definition fixed (pixels : Z) : t := Fixed pixels.

Definition resolve (l : t) (available : Z) : Z :=
  match l with
  | Proportion numerator denominator =>
      let denominator := Z.max denominator 1 in
      let value := U64.saturating_mul available numerator / denominator in
      U32.of_or_max value
  | Fixed pixels => pixels
  end.

Definition resolve_column (l : t) (view_width gap : Z) : Z :=
  match l with
  | Proportion _ _ =>
      U32.saturating_sub (resolve l (U32.saturating_sub view_width gap)) gap
  | Fixed pixels => pixels
  end.

Definition dflt : t := proportion 1 2.

Definition wf (l : t) : Prop :=
  match l with
  | Proportion n d => U32.ok n ∧ U32.ok d
  | Fixed p => U32.ok p
  end.

End LayoutLength.

Module LayoutItem.

Record t := new {
  constraints : SizeConstraints.t;
  primary_size : option LayoutLength.t }.

Definition dflt : t := new SizeConstraints.dflt None.

Definition wf (i : t) : Prop :=
  SizeConstraints.wf (constraints i) ∧
  (∀ l, primary_size i = Some l → LayoutLength.wf l).

End LayoutItem.

Module LayoutOptions.

Record t := new {
  gap : Z;
  scrolling_default_width : LayoutLength.t;
  master_width : LayoutLength.t }.

Definition dflt : t :=
  new 8 (LayoutLength.proportion 1 2) (LayoutLength.proportion 55 100).

Definition wf (o : t) : Prop :=
  U32.ok (gap o) ∧ LayoutLength.wf (scrolling_default_width o) ∧
  LayoutLength.wf (master_width o).

End LayoutOptions.

Module LayoutState.

Record t := new { horizontal_offset : Z }.

Definition dflt : t := new 0.

Definition reset_horizontal (s : t) : t := new 0.

End LayoutState.

Module LayoutPlacement.

Record t := mk { geometry : Rect.t; visible : option Rect.t }.

#[global] Instance t_eq_dec : EqDecision t.
Proof. solve_decision. Defined.

Definition new (geometry viewport : Rect.t) : t :=
  mk geometry (Rect.intersection geometry viewport).

End LayoutPlacement.

Module LayoutSnapshot.

Record t := mk {
  viewport : Rect.t;
  placements : list LayoutPlacement.t;
  content_bounds : Rect.t;
  horizontal_offset : Z }.

Definition empty (area : Rect.t) (state : LayoutState.t) : t :=
  mk area [] (Rect.new (Rect.x area) (Rect.y area) 0 0)
     (LayoutState.horizontal_offset state).

End LayoutSnapshot.

(** [add_offset] of policy.rs and of scrolling.rs. *)
Definition add_offset (origin amount : Z) : Z :=
  I32.saturating_add origin (I32.of_u32_or_max amount).

(** ** Grid and master-stack engines of policy.rs *)

Module Policy.

Definition fixed_snapshot (area : Rect.t) (state : LayoutState.t)
    (placements : list LayoutPlacement.t) : LayoutSnapshot.t :=
  LayoutSnapshot.mk area placements area (LayoutState.horizontal_offset state).

Definition place_in_cell (cell viewport : Rect.t) (size : Size.t)
    : LayoutPlacement.t :=
  let x := add_offset (Rect.x cell)
             (U32.saturating_sub (Rect.width cell) (Size.width size) / 2) in
  let y := add_offset (Rect.y cell)
             (U32.saturating_sub (Rect.height cell) (Size.height size) / 2) in
  LayoutPlacement.new (Rect.new x y (Size.width size) (Size.height size)) viewport.

Definition inset (area : Rect.t) (gap : Z) : Rect.t :=
  Rect.new (add_offset (Rect.x area) gap) (add_offset (Rect.y area) gap)
    (U32.saturating_sub (Rect.width area) (U32.saturating_mul gap 2))
    (U32.saturating_sub (Rect.height area) (U32.saturating_mul gap 2)).

Definition split_tracks (len : Z) (count : nat) (gap : Z) : list Z :=
  let gaps := U32.saturating_mul
                (U32.of_or_max (U64.saturating_add (Z.of_nat count) 1)) gap in
  split_evenly (U32.saturating_sub len gaps) count.

(** [while root.saturating_mul(root) < value { root += 1 }]; the fuel of the
    caller is enough, see [integer_ceil_sqrt_spec]. *)
Fixpoint ceil_sqrt_loop (fuel : nat) (root value : Z) : Z :=
  match fuel with
  | O => root
  | S fuel =>
      if U64.saturating_mul root root <? value
      then ceil_sqrt_loop fuel (root + 1) value else root
  end.

Definition integer_ceil_sqrt (value : nat) : nat :=
  Z.to_nat (ceil_sqrt_loop value 1 (Z.of_nat value)).

(** The inner loop of [arrange_grid]: one row of cells, consuming items. *)
Fixpoint grid_row (gap : Z) (area : Rect.t) (widths : list Z) (x y height : Z)
    (items : list LayoutItem.t) : list LayoutPlacement.t * list LayoutItem.t :=
  match widths, items with
  | width :: widths, item :: items =>
      let cell := Rect.new x y width height in
      let placement := place_in_cell cell area
        (SizeConstraints.constrain (LayoutItem.constraints item) (Rect.size cell)) in
      let '(row, rest) :=
        grid_row gap area widths (add_offset (add_offset x width) gap) y height items in
      (placement :: row, rest)
  | _, items => ([], items)
  end.

(** The outer loop; it returns as soon as every item is placed. *)
Fixpoint grid_rows (gap : Z) (area : Rect.t) (widths heights : list Z) (y : Z)
    (items : list LayoutItem.t) : list LayoutPlacement.t :=
  match heights with
  | [] => []
  | height :: heights =>
      let '(row, rest) :=
        grid_row gap area widths (add_offset (Rect.x area) gap) y height items in
      row ++ grid_rows gap area widths heights
               (add_offset (add_offset y height) gap) rest
  end.

Definition arrange_grid (options : LayoutOptions.t) (state : LayoutState.t)
    (area : Rect.t) (items : list LayoutItem.t) : LayoutSnapshot.t :=
  match items with
  | [] => LayoutSnapshot.empty area state
  | _ =>
      let gap := LayoutOptions.gap options in
      let columns := integer_ceil_sqrt (length items) in
      let rows := Z.to_nat (div_ceil (Z.of_nat (length items)) (Z.of_nat columns)) in
      let widths := split_tracks (Rect.width area) columns gap in
      let heights := split_tracks (Rect.height area) rows gap in
      fixed_snapshot area state
        (grid_rows gap area widths heights (add_offset (Rect.y area) gap) items)
  end.

(** The stack column of [arrange_master_stack]. *)
Fixpoint stack_column (gap : Z) (area : Rect.t) (stack_x stack_width y : Z)
    (items : list LayoutItem.t) (heights : list Z) : list LayoutPlacement.t :=
  match items, heights with
  | item :: items, height :: heights =>
      let cell := Rect.new stack_x y stack_width height in
      place_in_cell cell area
        (SizeConstraints.constrain (LayoutItem.constraints item) (Rect.size cell))
      :: stack_column gap area stack_x stack_width
           (add_offset (add_offset y height) gap) items heights
  | _, _ => []
  end.

Definition arrange_master_stack (options : LayoutOptions.t)
    (state : LayoutState.t) (area : Rect.t) (items : list LayoutItem.t)
    : LayoutSnapshot.t :=
  let gap := LayoutOptions.gap options in
  match items with
  | [] => LayoutSnapshot.empty area state
  | [item] =>
      let inner := inset area gap in
      let size := SizeConstraints.constrain (LayoutItem.constraints item)
                    (Rect.size inner) in
      fixed_snapshot area state [place_in_cell inner area size]
  | master :: stack =>
      let inner := inset area gap in
      let tracks_width := U32.saturating_sub (Rect.width inner) gap in
      let master_width :=
        Z.min (LayoutLength.resolve (LayoutOptions.master_width options) tracks_width)
              tracks_width in
      let stack_width := U32.saturating_sub tracks_width master_width in
      let master_cell :=
        Rect.new (Rect.x inner) (Rect.y inner) master_width (Rect.height inner) in
      let stack_x := add_offset (add_offset (Rect.x inner) master_width) gap in
      let stack_heights := split_tracks (Rect.height inner) (length stack) gap in
      fixed_snapshot area state
        (place_in_cell master_cell area
           (SizeConstraints.constrain (LayoutItem.constraints master)
              (Rect.size master_cell))
         :: stack_column gap area stack_x stack_width (Rect.y inner) stack stack_heights)
  end.

End Policy.

(** ** Scrolling engine of scrolling.rs *)

Module Scrolling.

Definition to_i32 (v : Z) : Z := I32.of_u32_or_max v.

Definition clamp_i64 (v : Z) : Z := I32.of_clamped v.

Definition distance (left right : Z) : Z :=
  U32.of_or_max (I32.saturating_sub right left).

Definition center_axis (origin available size : Z) : Z :=
  add_offset origin (U32.saturating_sub available size / 2).

(** The size of one column. *)
Definition column_size (options : LayoutOptions.t) (area : Rect.t)
    (inner_height : Z) (item : LayoutItem.t) : Size.t :=
  let requested_width :=
    LayoutLength.resolve_column
      (default (LayoutOptions.scrolling_default_width options)
               (LayoutItem.primary_size item))
      (Rect.width area) (LayoutOptions.gap options) in
  SizeConstraints.constrain (LayoutItem.constraints item)
    (Size.new requested_width inner_height).

(** The loop over the items: the unscrolled columns, the final [x] and the
    maximal height, from the running [x] and [max_height]. *)
Fixpoint base_columns (options : LayoutOptions.t) (area : Rect.t)
    (padding inner_height x max_height : Z) (items : list LayoutItem.t)
    : list Rect.t * Z * Z :=
  match items with
  | [] => ([], x, max_height)
  | item :: items =>
      let size := column_size options area inner_height item in
      let y := center_axis (add_offset (Rect.y area) padding) inner_height
                 (Size.height size) in
      let column := Rect.new x y (Size.width size) (Size.height size) in
      let x := add_offset (add_offset x (Size.width size))
                 (LayoutOptions.gap options) in
      let '(base, x, max_height) :=
        base_columns options area padding inner_height x
          (Z.max max_height (Size.height size)) items in
      (column :: base, x, max_height)
  end.

Definition update_view_offset (state : LayoutState.t) (area : Rect.t)
    (padding content_width : Z) (base : list Rect.t) (focused : option nat)
    : LayoutState.t :=
  if content_width <=? Rect.width area then LayoutState.reset_horizontal state
  else
    let view_left := add_offset (Rect.x area) padding in
    let view_right := I32.saturating_sub (Rect.right area) (to_i32 padding) in
    let content_right := Rect.x area + content_width - padding in
    let minimum := Z.min (I64.saturating_sub view_right content_right) 0 in
    let offset := zclamp minimum 0 (LayoutState.horizontal_offset state) in
    let offset :=
      match (focused ≫= λ index, base !! index) with
      | Some focused =>
          let left := Rect.x focused + offset in
          let right := Rect.right focused + offset in
          let view_width := I64.saturating_sub view_right view_left in
          if view_width <=? Rect.width focused
          then I64.saturating_sub view_left (Rect.x focused)
          else if left <? view_left
          then I64.saturating_add offset (view_left - left)
          else if view_right <? right
          then I64.saturating_sub offset (right - view_right)
          else offset
      | None => offset
      end in
    LayoutState.new (clamp_i64 (zclamp minimum 0 offset)).

Definition shift_column (offset : Z) (area column : Rect.t) : LayoutPlacement.t :=
  LayoutPlacement.new
    (Rect.new (I32.saturating_add (Rect.x column) offset) (Rect.y column)
       (Rect.width column) (Rect.height column)) area.

(** [arrange] returns the updated state next to the snapshot. *)
Definition arrange (options : LayoutOptions.t) (state : LayoutState.t)
    (area : Rect.t) (items : list LayoutItem.t) (focused : option nat)
    : LayoutState.t * LayoutSnapshot.t :=
  match items with
  | [] =>
      let state := LayoutState.reset_horizontal state in
      (state, LayoutSnapshot.empty area state)
  | _ =>
      let padding := Z.min (LayoutOptions.gap options) (Rect.width area / 2) in
      let inner_height :=
        U32.saturating_sub (Rect.height area) (U32.saturating_mul padding 2) in
      let '(base, x, max_height) :=
        base_columns options area padding inner_height
          (add_offset (Rect.x area) padding) 0 items in
      let content_width :=
        distance (Rect.x area)
          (add_offset x (U32.saturating_sub padding (LayoutOptions.gap options))) in
      let state := update_view_offset state area padding content_width base focused in
      let offset := LayoutState.horizontal_offset state in
      (state,
       LayoutSnapshot.mk area (map (shift_column offset area) base)
         (Rect.new (I32.saturating_add (Rect.x area) offset) (Rect.y area)
            content_width
            (U32.saturating_add max_height (U32.saturating_mul padding 2)))
         offset)
  end.

End Scrolling.

(** ** The engine *)

Module LayoutKind.

Inductive t := Scrolling1D | Spatial2D | MasterStack.

End LayoutKind.

Module LayoutEngine.

Record t := with_options { kind : LayoutKind.t; options : LayoutOptions.t }.

Definition new (kind : LayoutKind.t) : t := with_options kind LayoutOptions.dflt.

Definition arrange (engine : t) (state : LayoutState.t) (area : Rect.t)
    (items : list LayoutItem.t) (focused : option nat)
    : LayoutState.t * LayoutSnapshot.t :=
  match kind engine with
  | LayoutKind.Scrolling1D =>
      Scrolling.arrange (options engine) state area items focused
  | LayoutKind.Spatial2D =>
      let state := LayoutState.reset_horizontal state in
      (state, Policy.arrange_grid (options engine) state area items)
  | LayoutKind.MasterStack =>
      let state := LayoutState.reset_horizontal state in
      (state, Policy.arrange_master_stack (options engine) state area items)
  end.

End LayoutEngine.

(** ** The source's own tests, replayed on the model *)

Definition output : Rect.t := Rect.new 0 0 1920 1080.

Definition geometries (s : LayoutSnapshot.t) : list Rect.t :=
  map LayoutPlacement.geometry (LayoutSnapshot.placements s).

Example spatial_layout_test :
  geometries (LayoutEngine.arrange (LayoutEngine.new LayoutKind.Spatial2D)
    LayoutState.dflt output (replicate 4 LayoutItem.dflt) None).2
  = [Rect.new 8 8 948 528; Rect.new 964 8 948 528;
     Rect.new 8 544 948 528; Rect.new 964 544 948 528].
Proof. reflexivity. Qed.

Example master_stack_test :
  geometries (LayoutEngine.arrange (LayoutEngine.new LayoutKind.MasterStack)
    LayoutState.dflt output (replicate 3 LayoutItem.dflt) None).2
  = [Rect.new 8 8 1042 1064; Rect.new 1058 8 854 520; Rect.new 1058 536 854 520].
Proof. reflexivity. Qed.

Example scrolling_test :
  let view := Rect.new 0 0 100 80 in
  let items := replicate 3 LayoutItem.dflt in
  let '(s1, first) := LayoutEngine.arrange (LayoutEngine.new LayoutKind.Scrolling1D)
    LayoutState.dflt view items (Some 0%nat) in
  let '(s2, last) := LayoutEngine.arrange (LayoutEngine.new LayoutKind.Scrolling1D)
    s1 view items (Some 2%nat) in
  (LayoutSnapshot.horizontal_offset first, LayoutSnapshot.horizontal_offset last,
   geometries last !! 2%nat)
  = (0, -46, Some (Rect.new 54 8 38 64)).
Proof. reflexivity. Qed.

(** ** Constraints *)

Import SizeConstraints LayoutLength.

Lemma constrain_axis_spec desired min max :
  U32.ok desired → U32.ok min → (∀ m, max = Some m → U32.ok m) →
  let hi := Z.max (default U32.MAX max) min in
  let r := constrain_axis desired min max in
  min <= r <= hi ∧ U32.ok r ∧ (∀ v, min <= v <= hi → Z.abs (r - desired) <= Z.abs (v - desired)).
Proof.
  intros Hd Hm Hx hi r. unfold r, constrain_axis. fold hi.
  assert (min <= hi <= U32.MAX).
  { unfold hi. destruct max as [m|]; simpl; [specialize (Hx m eq_refl)|]; ints; lia. }
  clearbody hi. clear r. unfold zclamp. ints. zcases; split_and!; intros; lia.
Qed.

Lemma constrain_axis_wf desired min max :
  U32.ok desired → U32.ok min → (∀ m, max = Some m → U32.ok m) →
  U32.ok (constrain_axis desired min max).
Proof. intros. by apply constrain_axis_spec. Qed.

Lemma constrain_wf c s : SizeConstraints.wf c → Size.wf s → Size.wf (constrain c s).
Proof.
  intros ([? ?]&?&?) [? ?]. split; simpl; by apply constrain_axis_wf.
Qed.

(** A desired size that respects the constraints is kept. *)
Lemma constrain_axis_id desired min max :
  min <= desired → (∀ m, max = Some m → desired <= m) → desired <= U32.MAX →
  constrain_axis desired min max = desired.
Proof.
  intros H1 H2 H3. unfold constrain_axis. apply zclamp_id.
  destruct max as [m|]; simpl; [specialize (H2 m eq_refl)|]; lia.
Qed.

(** The width never exceeds the desired one unless the minimum asks so. *)
Lemma constrain_axis_le desired min max :
  min <= desired → constrain_axis desired min max <= desired.
Proof. intros. unfold constrain_axis, zclamp. zcases; lia. Qed.

(** [SizeConstraints::constrain] returns, on each axis, the admissible
    length nearest to the desired one, where the admissible range starts at
    the minimum and a contradictory maximum never undercuts it; constraining
    an already constrained size changes nothing. *)
Theorem constrain_nearest c s :
  SizeConstraints.wf c → Size.wf s →
  let r := constrain c s in
  let hi_w := Z.max (default U32.MAX (max_width c)) (Size.width (min c)) in
  let hi_h := Z.max (default U32.MAX (max_height c)) (Size.height (min c)) in
  Size.wf r ∧
  Size.width (min c) <= Size.width r <= hi_w ∧
  Size.height (min c) <= Size.height r <= hi_h ∧
  (∀ v, Size.width (min c) <= v <= hi_w →
        Z.abs (Size.width r - Size.width s) <= Z.abs (v - Size.width s)) ∧
  (∀ v, Size.height (min c) <= v <= hi_h →
        Z.abs (Size.height r - Size.height s) <= Z.abs (v - Size.height s)) ∧
  constrain c r = r.
Proof.
  intros Hc Hs r hi_w hi_h. pose proof (constrain_wf c s Hc Hs) as Hr.
  destruct Hc as ([Hmw Hmh]&Hxw&Hxh), Hs as [Hsw Hsh].
  destruct (constrain_axis_spec (Size.width s) _ _ Hsw Hmw Hxw) as (Bw&_&Nw).
  destruct (constrain_axis_spec (Size.height s) _ _ Hsh Hmh Hxh) as (Bh&_&Nh).
  split_and!; try done; [apply Bw|apply Bw|apply Bh|apply Bh|].
  change (constrain c r) with
    (Size.new (constrain_axis (Size.width r) (Size.width (min c)) (max_width c))
              (constrain_axis (Size.height r) (Size.height (min c)) (max_height c))).
  unfold constrain_axis. rewrite !zclamp_id; [by destruct r|apply Bh|apply Bw].
Qed.

Lemma constrain_nearest_witness :
  constrain (SizeConstraints.new (Size.new 300 200) (Some 100) (Some 50)) (Size.new 10 10)
    = Size.new 300 200 ∧
  constrain (SizeConstraints.new (Size.new 300 200) (Some 100) (Some 50)) (Size.new 300 200)
    = Size.new 300 200.
Proof.
  split; [reflexivity|].
  refine (proj2 (proj2 (proj2 (proj2 (proj2 (constrain_nearest
    (SizeConstraints.new (Size.new 300 200) (Some 100) (Some 50)) (Size.new 10 10) _ _)))))).
  - split; [split; vm_compute; intuition congruence|]. simpl.
    split; intros ? [= <-]; vm_compute; intuition congruence.
  - split; vm_compute; intuition congruence.
Defined.

(** ** Lengths *)

(** The Euclidean loop needs at most two rounds per bit of its second
    operand. *)
Lemma gcd_loop_gcd k fuel a b :
  0 <= a → 0 <= b < 2 ^ Z.of_nat k → (2 * k < fuel)%nat →
  gcd_loop fuel a b = Z.gcd a b.
Proof.
  revert fuel a b. induction k as [|k IH]; intros fuel a b Ha Hb Hf.
  - destruct fuel as [|fuel]; [lia|]. assert (b = 0) as -> by (simpl in Hb; lia).
    simpl. by rewrite Z.gcd_0_r, Z.abs_eq.
  - destruct fuel as [|[|fuel]]; [lia..|].
    rewrite Nat2Z.inj_succ, Z.pow_succ_r in Hb by lia. simpl.
    destruct (Z.eqb_spec b 0) as [->|Hb0]; [by rewrite Z.gcd_0_r, Z.abs_eq|].
    pose proof (Z.mod_pos_bound a b).
    destruct (Z.eqb_spec (a mod b) 0) as [E|E].
    + rewrite (Z.gcd_comm a b), <- (Z.gcd_mod a b), E, Z.gcd_0_l, Z.abs_eq by lia.
      done.
    + pose proof (Z.mod_pos_bound b (a mod b)).
      pose proof (Z.div_mod b (a mod b)). pose proof (Z.div_str_pos b (a mod b)).
      rewrite IH; [|lia| |lia].
      * rewrite (Z.gcd_comm (a mod b)), (Z.gcd_mod b (a mod b)) by lia.
        rewrite (Z.gcd_mod a b) by lia. apply Z.gcd_comm.
      * split; [lia|]. nia.
Qed.

Lemma greatest_common_divisor_gcd a b :
  U32.ok a → 0 < b <= U32.MAX → greatest_common_divisor a b = Z.gcd a b.
Proof.
  intros Ha Hb. unfold greatest_common_divisor.
  rewrite (gcd_loop_gcd 32); [|ints; lia| |lia]; [|split; [lia|ints; simpl; lia]].
  assert (0 < Z.gcd a b).
  { pose proof (Z.gcd_nonneg a b). assert (Z.gcd a b ≠ 0); [|lia].
    rewrite Z.gcd_eq_0. lia. }
  destruct (Z.eqb_spec (Z.gcd a b) 0); lia.
Qed.

(** [LayoutLength::proportion] stores the fraction in lowest terms with a
    non-zero denominator, and resolving it gives the exact integer part of
    the requested share of the available length, capped at [u32::MAX]; a zero
    denominator counts as one. *)
Theorem proportion_resolve n d available :
  U32.ok n → U32.ok d → U32.ok available →
  LayoutLength.wf (proportion n d) ∧
  match proportion n d with
  | Proportion n' d' => Z.gcd n' d' = 1 ∧ 0 < d'
  | Fixed _ => False
  end ∧
  resolve (proportion n d) available
    = Z.min U32.MAX (available * n / (if d =? 0 then 1 else d)).
Proof.
  intros Hn Hd Ha. unfold proportion.
  set (d1 := if d =? 0 then 1 else d).
  assert (Hd1 : 0 < d1 <= U32.MAX) by (unfold d1; ints; destruct (Z.eqb_spec d 0); lia).
  clearbody d1. rewrite greatest_common_divisor_gcd by done.
  set (g := Z.gcd n d1).
  assert (Hg : 0 < g).
  { pose proof (Z.gcd_nonneg n d1). assert (Z.gcd n d1 ≠ 0); [|lia].
    rewrite Z.gcd_eq_0. lia. }
  destruct (Z.gcd_divide_l n d1) as [n' En]. fold g in En.
  destruct (Z.gcd_divide_r n d1) as [d' Ed]. fold g in Ed.
  assert (Hn' : n / g = n') by (rewrite En; apply Z.div_mul; lia).
  assert (Hd' : d1 / g = d') by (rewrite Ed; apply Z.div_mul; lia).
  rewrite Hn', Hd'. assert (0 < d' <= U32.MAX) by (ints; nia).
  assert (0 <= n' <= U32.MAX) by (ints; nia).
  split_and!.
  - unfold LayoutLength.wf. ints; lia.
  - rewrite <- Hn', <- Hd'. apply Z.gcd_div_gcd; [lia|done].
  - lia.
  - unfold resolve. rewrite Z.max_l by lia. unfold U64.saturating_mul.
    assert (U64.sat (available * n') = available * n') as ->.
    { ints. rewrite Z.max_r, Z.min_r; nia. }
    assert (available * n / d1 = available * n' / d') as ->.
    { rewrite Ed, En. rewrite Z.mul_assoc. apply Z.div_mul_cancel_r; lia. }
    assert (0 <= available * n' / d') by (apply Z.div_pos; ints; nia).
    set (v := available * n' / d') in *. clearbody v. int_solve.
Qed.

Lemma proportion_resolve_witness :
  resolve (proportion 55 100) 1048 = 576.
Proof.
  etransitivity; [exact (proj2 (proj2 (proportion_resolve 55 100 1048
    ltac:(vm_compute; intuition congruence) ltac:(vm_compute; intuition congruence)
    ltac:(vm_compute; intuition congruence))))|reflexivity].
Defined.

Lemma resolve_wf l a : LayoutLength.wf l → U32.ok (resolve l a).
Proof. destruct l; simpl; [intros; apply u32_of_or_max_ok|done]. Qed.

Lemma resolve_column_wf l w g : LayoutLength.wf l → U32.ok (resolve_column l w g).
Proof. destruct l; simpl; [intros; apply u32_sat_ok|done]. Qed.
