(* ===== verification/LayoutGrid.v ===== *)
(** * Grid and master-stack layouts never overlap

    The position of a cell is the running sum of the tracks and gaps before
    it. When the gaps fit the area, the cells of [arrange_grid] and of
    [arrange_master_stack] lie inside the area, do not overlap, and hold the
    placements of the items whose minimum size they can satisfy. *)

From S2P Require Import Prelude Geometry Layout.

Import Policy.

(** ** Track positions *)

(** The coordinate reached after the given tracks, as the loops compute it. *)
Definition advance (gap x : Z) (tracks : list Z) : Z :=
  foldl (λ x track, add_offset (add_offset x track) gap) x tracks.

Lemma add_offset_exact origin amount :
  I32.ok origin → 0 <= amount → origin + amount <= I32.MAX → amount <= I32.MAX →
  add_offset origin amount = origin + amount.
Proof. intros. unfold add_offset. int_solve. Qed.

Lemma add_offset_ok origin amount : I32.ok (add_offset origin amount).
Proof. apply i32_sat_ok. Qed.

Lemma advance_exact gap x tracks :
  I32.ok x → 0 <= gap <= I32.MAX → Forall (λ t, 0 <= t <= I32.MAX) tracks →
  x + zsum tracks + Z.of_nat (length tracks) * gap <= I32.MAX →
  advance gap x tracks = x + zsum tracks + Z.of_nat (length tracks) * gap.
Proof.
  intros Hx Hg Ht. revert x Hx. induction Ht as [|t ts Ht Hts IH]; intros x Hx Hs.
  - simpl. lia.
  - simpl in *. assert (0 <= zsum ts).
    { apply zsum_nonneg. eapply Forall_impl; [exact Hts|]. simpl. lia. }
    assert (E : add_offset (add_offset x t) gap = x + t + gap).
    { rewrite (add_offset_exact x t) by (ints; lia).
      rewrite add_offset_exact by (ints; lia). lia. }
    rewrite E, IH by (ints; lia). lia.
Qed.

(** A later track starts past the end of an earlier one. *)
Lemma zsum_take_lt tracks i j w :
  Forall (Z.le 0) tracks → tracks !! i = Some w → (i < j)%nat →
  zsum (take i tracks) + w <= zsum (take j tracks).
Proof.
  intros Ht Hi Hij. rewrite <- (zsum_take_S _ _ _ Hi).
  replace (take (S i) tracks) with (take (S i) (take j tracks))
    by (rewrite take_take; f_equal; lia).
  apply zsum_take_le, Forall_take, Ht.
Qed.

(** ** Placements of the two nested loops *)

Lemma grid_row_spec gap area widths x y height items :
  let '(row, rest) := grid_row gap area widths x y height items in
  rest = drop (length widths) items ∧
  length row = Nat.min (length widths) (length items) ∧
  ∀ c w item, widths !! c = Some w → items !! c = Some item →
    let cell := Rect.new (advance gap x (take c widths)) y w height in
    row !! c = Some (place_in_cell cell area
      (SizeConstraints.constrain (LayoutItem.constraints item) (Rect.size cell))).
Proof.
  revert x items. induction widths as [|w widths IH]; intros x items.
  - by destruct items.
  - destruct items as [|item items]; [done|]. simpl.
    specialize (IH (add_offset (add_offset x w) gap) items).
    destruct (grid_row _ _ _ _ _ _ _) as [row rest].
    destruct IH as (->&Hlen&Hrow). split; [done|]. split; [simpl; lia|].
    intros [|c] w' item' Hw Hi; simpl in *; [by simplify_eq|].
    by apply Hrow.
Qed.

Lemma grid_rows_spec gap area widths heights y items :
  let cols := length widths in
  length (grid_rows gap area widths heights y items)
    = Nat.min (cols * length heights) (length items) ∧
  ∀ r c w h item, (c < cols)%nat → widths !! c = Some w → heights !! r = Some h →
    items !! (r * cols + c)%nat = Some item →
    let cell := Rect.new (advance gap (add_offset (Rect.x area) gap) (take c widths))
                         (advance gap y (take r heights)) w h in
    grid_rows gap area widths heights y items !! (r * cols + c)%nat
      = Some (place_in_cell cell area
          (SizeConstraints.constrain (LayoutItem.constraints item) (Rect.size cell))).
Proof.
  revert y items. induction heights as [|h heights IH]; intros y items cols; subst cols; simpl.
  - split; [lia|]. intros r c w h item _ _ Hh. by rewrite lookup_nil in Hh.
  - pose proof (grid_row_spec gap area widths (add_offset (Rect.x area) gap) y h items) as Hrow.
    destruct (grid_row _ _ _ _ _ _ _) as [row rest]. destruct Hrow as (->&Hlen&Hrow).
    destruct (IH (add_offset (add_offset y h) gap) (drop (length widths) items)) as [IHlen IHlook].
    set (cols := length widths) in *. clearbody cols. split.
    + rewrite length_app, Hlen, IHlen, length_drop. lia.
    + intros r c w h' item Hc Hw Hh Hi.
      assert (r * cols + c < length items)%nat by (by eapply lookup_lt_Some).
      destruct r as [|r]; simpl in *.
      * simplify_eq. rewrite lookup_app_l by lia. by apply Hrow.
      * rewrite lookup_app_r by lia.
        replace (cols + r * cols + c - length row)%nat with (r * cols + c)%nat by lia.
        apply IHlook; [done..|]. rewrite lookup_drop.
        by replace (cols + (r * cols + c))%nat with (cols + r * cols + c)%nat by lia.
Qed.

(** ** The number of columns and rows *)

Lemma ceil_sqrt_loop_spec fuel root value :
  1 <= root <= value → value <= U64.MAX → value <= root + Z.of_nat fuel →
  root = 1 ∨ (root - 1) * (root - 1) < value →
  let r := ceil_sqrt_loop fuel root value in
  root <= r <= value ∧ value <= r * r ∧ (r = 1 ∨ (r - 1) * (r - 1) < value).
Proof.
  revert root. induction fuel as [|fuel IH]; intros root Hr Hv Hf Hm; simpl.
  - split; [lia|]. split; [nia|done].
  - unfold U64.saturating_mul. assert (0 <= root * root) by nia.
    destruct (Z.ltb_spec (U64.sat (root * root)) value) as [Hlt|Hge].
    + assert (root * root < value) by (ints; lia).
      destruct (IH (root + 1)) as (?&?&?); [nia|lia..|right; lia|].
      split; [lia|done].
    + assert (value <= root * root) by (ints; lia). split; [lia|]. split; [lia|done].
Qed.

(** [integer_ceil_sqrt] returns the least root whose square reaches the
    number of items. *)
Lemma integer_ceil_sqrt_spec n :
  (0 < n)%nat → Z.of_nat n <= U64.MAX →
  let c := integer_ceil_sqrt n in
  (0 < c <= n)%nat ∧ (n <= c * c)%nat ∧ (c = 1 ∨ (c - 1) * (c - 1) < n)%nat.
Proof.
  intros Hn Hm c. unfold c, integer_ceil_sqrt.
  destruct (ceil_sqrt_loop_spec n 1 (Z.of_nat n)) as (H1&H2&H3); [lia..|by left|].
  set (r := ceil_sqrt_loop n 1 (Z.of_nat n)) in *. clearbody r.
  assert (E : r = Z.of_nat (Z.to_nat r)) by lia. set (k := Z.to_nat r) in *.
  clearbody k. subst r. split; [lia|]. split; [nia|]. destruct H3; [left; lia|right; nia].
Qed.

Lemma grid_rows_enough n c :
  (0 < c)%nat → let r := Z.to_nat (div_ceil (Z.of_nat n) (Z.of_nat c)) in
  (n <= c * r < n + c)%nat.
Proof.
  intros Hc r. pose proof (div_ceil_spec (Z.of_nat n) (Z.of_nat c)). unfold r.
  assert (0 <= div_ceil (Z.of_nat n) (Z.of_nat c)) by nia. nia.
Qed.

(** ** Tracks *)

(** The gaps around [count] tracks fit the length. *)
Definition gaps_fit (len gap : Z) (count : nat) : Prop :=
  0 <= gap ∧ (Z.of_nat count + 1) * gap <= len ∧ len <= I32.MAX ∧
  Z.of_nat count < U32.MAX.

Lemma split_tracks_fit len gap count :
  (0 < count)%nat → gaps_fit len gap count →
  split_tracks len count gap = split_evenly (len - (Z.of_nat count + 1) * gap) count.
Proof.
  intros Hc (Hg&Hs&Hl&Hm). unfold split_tracks. f_equal.
  assert (E : U64.saturating_add (Z.of_nat count) 1 = Z.of_nat count + 1) by (ints; lia).
  rewrite E, u32_of_or_max_id by (ints; lia).
  unfold U32.saturating_mul, U32.saturating_sub. ints.
  set (p := (Z.of_nat count + 1) * gap) in *.
  assert (0 <= p) by (unfold p; nia). clearbody p. lia.
Qed.

(** What the loops need of a list of tracks: it fills the length exactly, and
    every track has at least the guaranteed share. *)
Record tracks_ok (len gap : Z) (count : nat) (tracks : list Z) : Prop := {
  tracks_length : length tracks = count;
  tracks_bounded : Forall (λ t, 0 <= t <= I32.MAX) tracks;
  tracks_sum : zsum tracks + (Z.of_nat count + 1) * gap = len;
  tracks_share : Forall (λ t, (len - (Z.of_nat count + 1) * gap) / Z.of_nat count <= t) tracks }.

Lemma split_tracks_ok len gap count :
  (0 < count)%nat → gaps_fit len gap count →
  tracks_ok len gap count (split_tracks len count gap).
Proof.
  intros Hc Hf. rewrite split_tracks_fit by done. destruct Hf as (Hg&Hs&Hl&Hm).
  set (avail := len - (Z.of_nat count + 1) * gap).
  assert (0 <= avail <= I32.MAX) by (unfold avail; nia).
  assert (Hlen : length (split_evenly avail count) = count)
    by (apply split_evenly_length; lia).
  assert (Hsum : zsum (split_evenly avail count) = avail)
    by (apply split_evenly_sum; lia).
  assert (Hnn : Forall (Z.le 0) (split_evenly avail count))
    by (apply split_evenly_nonneg; lia).
  split; [done| | |].
  - apply Forall_lookup. intros i v Hv. pose proof (zsum_take_S _ _ _ Hv).
    pose proof (zsum_take_le _ (S i) Hnn). pose proof (zsum_nonneg _ (Forall_take _ i _ Hnn)).
    assert (0 <= v) by (eapply Forall_lookup_1 in Hnn; eauto). lia.
  - rewrite Hsum. unfold avail. lia.
  - apply Forall_lookup. intros i v Hv.
    assert (i < count)%nat by (rewrite <- Hlen; by eapply lookup_lt_Some).
    rewrite split_evenly_lookup in Hv by lia. simplify_eq. zcases; lia.
Qed.

(** Positions of the tracks inside the length. *)
Lemma advance_inside len gap count tracks o c w :
  tracks_ok len gap count tracks → 0 <= gap → I32.ok o → o + len <= I32.MAX →
  0 <= len <= I32.MAX → tracks !! c = Some w →
  let x := advance gap (o + gap) (take c tracks) in
  x = o + gap + zsum (take c tracks) + Z.of_nat c * gap ∧
  o + gap <= x ∧ x + w + gap <= o + len.
Proof.
  intros [Hlen Hb Hsum _] Hg Ho Hl Hln Hc x.
  assert (Hnn : Forall (Z.le 0) tracks) by (eapply Forall_impl; [exact Hb|]; simpl; lia).
  assert (Hcl : (c < count)%nat) by (rewrite <- Hlen; by eapply lookup_lt_Some).
  pose proof (zsum_take_S _ _ _ Hc). pose proof (zsum_take_le _ (S c) Hnn).
  pose proof (zsum_nonneg _ (Forall_take _ c _ Hnn)).
  assert (0 <= w) by (eapply Forall_lookup_1 in Hb; [|exact Hc]; simpl in Hb; lia).
  assert (Z.of_nat c * gap <= (Z.of_nat count - 1) * gap) by nia.
  assert (Hx : x = o + gap + zsum (take c tracks) + Z.of_nat c * gap).
  { unfold x. rewrite advance_exact; rewrite ?length_take_le by lia; [done|..].
    - ints; nia.
    - nia.
    - by apply Forall_take.
    - nia. }
  split; [done|]. rewrite Hx. nia.
Qed.

Lemma advance_separated len gap count tracks o c c' w w' :
  tracks_ok len gap count tracks → 0 <= gap → I32.ok o → o + len <= I32.MAX →
  0 <= len <= I32.MAX → tracks !! c = Some w → tracks !! c' = Some w' → (c < c')%nat →
  advance gap (o + gap) (take c tracks) + w + gap
    <= advance gap (o + gap) (take c' tracks).
Proof.
  intros Ht Hg Ho Hl Hln Hc Hc' Hlt.
  destruct (advance_inside len gap count tracks o c w) as (->&_); [done..|].
  destruct (advance_inside len gap count tracks o c' w') as (->&_); [done..|].
  assert (Hnn : Forall (Z.le 0) tracks).
  { destruct Ht as [_ Hb _ _]. eapply Forall_impl; [exact Hb|]; simpl; lia. }
  pose proof (zsum_take_lt tracks c c' w Hnn Hc Hlt). nia.
Qed.

(** ** Placements inside their cells *)

(** A cell whose far edges are representable. *)
Definition cell_ok (cell : Rect.t) : Prop :=
  I32.ok (Rect.x cell) ∧ I32.ok (Rect.y cell) ∧
  0 <= Rect.width cell <= I32.MAX ∧ 0 <= Rect.height cell <= I32.MAX ∧
  Rect.x cell + Rect.width cell <= I32.MAX ∧
  Rect.y cell + Rect.height cell <= I32.MAX.

Lemma cell_ok_edges cell :
  cell_ok cell → Rect.wf cell ∧
  Rect.right cell = Rect.x cell + Rect.width cell ∧
  Rect.bottom cell = Rect.y cell + Rect.height cell.
Proof.
  intros (?&?&?&?&?&?).
  assert (Rect.wf cell) by (unfold Rect.wf; ints; lia).
  split; [done|]. rewrite rect_right_exact, rect_bottom_exact by (done || lia). done.
Qed.

(** One axis of the centering: the item stays within its cell. *)
Lemma center_in_cell o len size :
  I32.ok o → 0 <= size <= len → len <= I32.MAX → o + len <= I32.MAX →
  let p := add_offset o (U32.saturating_sub len size / 2) in
  o <= p ∧ p + size <= o + len ∧ I32.ok p.
Proof.
  intros Ho Hs Hl Hm p. unfold U32.saturating_sub in p.
  assert (E : U32.sat (len - size) = len - size) by (apply u32_sat_id; ints; lia).
  subst p. rewrite E.
  assert (0 <= (len - size) / 2 <= len - size) by div_lia.
  set (k := (len - size) / 2) in *. clearbody k.
  rewrite add_offset_exact by (ints; lia). ints; lia.
Qed.

Lemma place_in_cell_inside cell viewport size :
  cell_ok cell →
  0 <= Size.width size <= Rect.width cell → 0 <= Size.height size <= Rect.height cell →
  let g := LayoutPlacement.geometry (place_in_cell cell viewport size) in
  cell_ok g ∧ Rect.contains_rect cell g = true ∧ Rect.size g = size.
Proof.
  intros Hc Hw Hh g. destruct (cell_ok_edges cell Hc) as (_&Er&Eb).
  destruct Hc as (?&?&?&?&?&?).
  destruct (center_in_cell (Rect.x cell) (Rect.width cell) (Size.width size)) as (?&?&?); [first [done|lia]..|].
  destruct (center_in_cell (Rect.y cell) (Rect.height cell) (Size.height size)) as (?&?&?); [first [done|lia]..|].
  assert (Hg : cell_ok g).
  { unfold cell_ok, g; simpl. split_and!; auto; lia. }
  destruct (cell_ok_edges g Hg) as (_&Egr&Egb).
  split_and!; [done| |by destruct size].
  rewrite contains_rect_spec, Er, Eb, Egr, Egb. unfold g; simpl. lia.
Qed.

(** The item accepts the size of the cell: its minimum fits. *)
Definition item_fits (cell : Rect.t) (item : LayoutItem.t) : Prop :=
  Size.width (SizeConstraints.min (LayoutItem.constraints item)) <= Rect.width cell ∧
  Size.height (SizeConstraints.min (LayoutItem.constraints item)) <= Rect.height cell.

Lemma constrain_in_cell cell item :
  LayoutItem.wf item → cell_ok cell → item_fits cell item →
  let size := SizeConstraints.constrain (LayoutItem.constraints item) (Rect.size cell) in
  0 <= Size.width size <= Rect.width cell ∧ 0 <= Size.height size <= Rect.height cell.
Proof.
  intros [Hc _] Hcell [Hw Hh] size. destruct Hcell as (_&_&?&?&_).
  assert (Size.wf (Rect.size cell)) as Hs by (split; simpl; ints; lia).
  destruct (constrain_wf _ _ Hc Hs) as [[? _] [? _]].
  split; split; try done; apply constrain_axis_le; done.
Qed.

Lemma place_item_inside cell viewport item :
  LayoutItem.wf item → cell_ok cell → item_fits cell item →
  let g := LayoutPlacement.geometry (place_in_cell cell viewport
     (SizeConstraints.constrain (LayoutItem.constraints item) (Rect.size cell))) in
  cell_ok g ∧ Rect.contains_rect cell g = true.
Proof.
  intros Hi Hc Hf g. destruct (constrain_in_cell cell item Hi Hc Hf) as [? ?].
  by destruct (place_in_cell_inside cell viewport
    (SizeConstraints.constrain (LayoutItem.constraints item) (Rect.size cell))) as (?&?&_).
Qed.

(** ** Separated rectangles *)

(** No common pixel. *)
Definition disjoint (a b : Rect.t) : Prop :=
  ∀ px py, ¬ (Rect.mem a px py ∧ Rect.mem b px py).

Lemma disjoint_sym a b : disjoint a b → disjoint b a.
Proof. intros H px py [? ?]. by apply (H px py). Qed.

Lemma disjoint_contained a b c d :
  Rect.contains_rect a c = true → Rect.contains_rect b d = true →
  disjoint a b → disjoint c d.
Proof.
  intros Hac Hbd H px py [? ?]. apply (H px py).
  split; eapply contains_rect_mem; eauto.
Qed.

Lemma disjoint_columns a b : Rect.right a <= Rect.x b → disjoint a b.
Proof. intros ? px py. unfold Rect.mem. lia. Qed.

Lemma disjoint_rows a b : Rect.bottom a <= Rect.y b → disjoint a b.
Proof. intros ? px py. unfold Rect.mem. lia. Qed.

(** The promise of a fixed layout on the placements it returns. *)
Definition tiles (area : Rect.t) (n : nat) (ps : list LayoutPlacement.t) : Prop :=
  length ps = n ∧
  (∀ i p, ps !! i = Some p →
     Rect.wf (LayoutPlacement.geometry p) ∧
     Rect.contains_rect area (LayoutPlacement.geometry p) = true) ∧
  (∀ i j p q, i ≠ j → ps !! i = Some p → ps !! j = Some q →
     disjoint (LayoutPlacement.geometry p) (LayoutPlacement.geometry q)).

(** It is enough to give every index its own cell. *)
Lemma tiles_by_cells area n ps (cell : nat → Rect.t) :
  length ps = n →
  (∀ i p, ps !! i = Some p → cell_ok (cell i) ∧
     Rect.contains_rect area (cell i) = true ∧
     cell_ok (LayoutPlacement.geometry p) ∧
     Rect.contains_rect (cell i) (LayoutPlacement.geometry p) = true) →
  (∀ i j, (i < j < n)%nat → disjoint (cell i) (cell j)) →
  tiles area n ps.
Proof.
  intros Hlen Hcell Hdis. split_and!; [done|..].
  - intros i p Hp. destruct (Hcell i p Hp) as (_&?&Hg&?).
    split; [by apply cell_ok_edges|]. by eapply contains_rect_trans.
  - intros i j p q Hij Hp Hq.
    destruct (Hcell i p Hp) as (_&_&_&Hi), (Hcell j q Hq) as (_&_&_&Hj).
    eapply disjoint_contained; [exact Hi|exact Hj|].
    apply lookup_lt_Some in Hp, Hq.
    destruct (Nat.lt_trichotomy i j) as [?|[?|?]]; [|done|].
    + apply Hdis. lia.
    + apply disjoint_sym, Hdis. lia.
Qed.

(** ** The grid *)

Section grid.

Context (area : Rect.t) (gap : Z) (cols rows : nat) (widths heights : list Z).
Hypothesis Harea : cell_ok area.
Hypothesis Hgap : 0 <= gap.
Hypothesis Hcols : (0 < cols)%nat.
Hypothesis Hw : tracks_ok (Rect.width area) gap cols widths.
Hypothesis Hh : tracks_ok (Rect.height area) gap rows heights.

Definition grid_cell (i : nat) : Rect.t :=
  Rect.new (advance gap (Rect.x area + gap) (take (i mod cols) widths))
           (advance gap (Rect.y area + gap) (take (i / cols) heights))
           (default 0 (widths !! (i mod cols)%nat))
           (default 0 (heights !! (i / cols)%nat)).

Lemma column_lookup i : ∃ w, widths !! (i mod cols)%nat = Some w.
Proof.
  destruct Hw as [Hlen _ _ _]. apply lookup_lt_is_Some_2.
  rewrite Hlen. apply Nat.mod_upper_bound. lia.
Qed.

Lemma row_lookup i : (i < cols * rows)%nat → ∃ h, heights !! (i / cols)%nat = Some h.
Proof.
  intros Hi. destruct Hh as [Hlen _ _ _]. apply lookup_lt_is_Some_2.
  rewrite Hlen. by apply Nat.Div0.div_lt_upper_bound.
Qed.

Lemma track_bounds len count tracks k t :
  tracks_ok len gap count tracks → tracks !! k = Some t → 0 <= t <= I32.MAX.
Proof. intros [_ Hb _ _] Hk. by eapply Forall_lookup_1 in Hb. Qed.

Lemma grid_cell_inside i :
  (i < cols * rows)%nat →
  cell_ok (grid_cell i) ∧ Rect.contains_rect area (grid_cell i) = true.
Proof.
  intros Hi. destruct (column_lookup i) as [w Ew], (row_lookup i Hi) as [h Eh].
  destruct (cell_ok_edges area Harea) as (_&Er&Eb).
  destruct Harea as (Ax&Ay&Aw&Ah&Ar&Ab).
  destruct (advance_inside _ _ _ _ _ _ _ Hw Hgap Ax Ar Aw Ew) as (_&?&?).
  destruct (advance_inside _ _ _ _ _ _ _ Hh Hgap Ay Ab Ah Eh) as (_&?&?).
  pose proof (track_bounds _ _ _ _ _ Hw Ew). pose proof (track_bounds _ _ _ _ _ Hh Eh).
  assert (Hc : cell_ok (grid_cell i)).
  { unfold cell_ok, grid_cell. rewrite Ew, Eh. simpl. ints; lia. }
  split; [done|]. destruct (cell_ok_edges _ Hc) as (_&Ecr&Ecb).
  rewrite contains_rect_spec, Er, Eb, Ecr, Ecb.
  unfold grid_cell. rewrite Ew, Eh. simpl. lia.
Qed.

Lemma grid_cells_disjoint i j :
  (i < j < cols * rows)%nat → disjoint (grid_cell i) (grid_cell j).
Proof.
  intros Hij.
  destruct (column_lookup i) as [w Ew], (row_lookup i) as [h Eh]; [lia|].
  destruct (column_lookup j) as [w' Ew'], (row_lookup j) as [h' Eh']; [lia|].
  destruct (grid_cell_inside i) as [Hci _]; [lia|].
  destruct (cell_ok_edges _ Hci) as (_&Er&Eb). destruct Harea as (Ax&Ay&Aw&Ah&Ar&Ab).
  assert (i / cols <= j / cols)%nat by (apply Nat.Div0.div_le_mono; lia).
  destruct (decide (i / cols = j / cols)%nat) as [E|E].
  - apply disjoint_columns. rewrite Er.
    assert (i mod cols < j mod cols)%nat.
    { pose proof (Nat.div_mod_eq i cols). pose proof (Nat.div_mod_eq j cols). nia. }
    pose proof (advance_separated _ _ _ _ _ _ _ _ _ Hw Hgap Ax Ar Aw Ew Ew').
    unfold grid_cell. rewrite Ew. simpl. lia.
  - apply disjoint_rows. rewrite Eb.
    pose proof (advance_separated _ _ _ _ _ _ _ _ _ Hh Hgap Ay Ab Ah Eh Eh').
    unfold grid_cell. rewrite Eh. simpl. lia.
Qed.

(** The share every track has at least. *)
Definition track_share (len gap : Z) (count : nat) : Z :=
  (len - (Z.of_nat count + 1) * gap) / Z.of_nat count.

(** The minimum size of the item is within the guaranteed cell size. *)
Definition accepts_share (gap : Z) (cols rows : nat) (item : LayoutItem.t) : Prop :=
  Size.width (SizeConstraints.min (LayoutItem.constraints item))
    <= track_share (Rect.width area) gap cols ∧
  Size.height (SizeConstraints.min (LayoutItem.constraints item))
    <= track_share (Rect.height area) gap rows.

Lemma grid_item_fits i item :
  (i < cols * rows)%nat → accepts_share gap cols rows item → item_fits (grid_cell i) item.
Proof.
  intros Hi [Hm1 Hm2]. destruct (column_lookup i) as [w Ew], (row_lookup i Hi) as [h Eh].
  pose proof (Forall_lookup_1 _ _ _ _ (tracks_share _ _ _ _ Hw) Ew) as S1.
  pose proof (Forall_lookup_1 _ _ _ _ (tracks_share _ _ _ _ Hh) Eh) as S2.
  unfold item_fits, grid_cell. rewrite Ew, Eh. unfold track_share in *. simpl in *. lia.
Qed.

(** The loops put item [i] into cell [i]. *)
Lemma grid_rows_lookup items i item :
  (i < cols * rows)%nat → items !! i = Some item →
  add_offset (Rect.x area) gap = Rect.x area + gap →
  grid_rows gap area widths heights (Rect.y area + gap) items !! i
  = Some (place_in_cell (grid_cell i) area
      (SizeConstraints.constrain (LayoutItem.constraints item) (Rect.size (grid_cell i)))).
Proof.
  intros Hi Ei Ex. destruct (column_lookup i) as [w Ew], (row_lookup i Hi) as [h Eh].
  destruct (grid_rows_spec gap area widths heights (Rect.y area + gap) items) as [_ Hlook].
  rewrite (tracks_length _ _ _ _ Hw), Ex in Hlook.
  pose proof (Nat.mod_upper_bound i cols). pose proof (Nat.div_mod_eq i cols) as Ei'.
  specialize (Hlook (i / cols)%nat (i mod cols)%nat w h item ltac:(lia) Ew Eh).
  replace (i / cols * cols + i mod cols)%nat with i in Hlook by lia.
  rewrite (Hlook Ei). unfold grid_cell. by rewrite Ew, Eh.
Qed.

Lemma grid_rows_tile items :
  (length items <= cols * rows)%nat → Forall LayoutItem.wf items →
  Forall (accepts_share gap cols rows) items →
  add_offset (Rect.x area) gap = Rect.x area + gap →
  tiles area (length items) (grid_rows gap area widths heights (Rect.y area + gap) items).
Proof.
  intros Hn Hwf Hmin Ex.
  destruct (grid_rows_spec gap area widths heights (Rect.y area + gap) items) as [Hlen _].
  rewrite (tracks_length _ _ _ _ Hw), (tracks_length _ _ _ _ Hh), Nat.min_r in Hlen by lia.
  apply (tiles_by_cells _ _ _ grid_cell); [done| |].
  - intros i p Hp. assert (i < length items)%nat by (rewrite <- Hlen; by eapply lookup_lt_Some).
    destruct (lookup_lt_is_Some_2 items i) as [item Ei]; [done|].
    rewrite (grid_rows_lookup items i item) in Hp by (lia || done). injection Hp as <-.
    destruct (grid_cell_inside i) as [Hcell Hin]; [lia|].
    assert (item_fits (grid_cell i) item).
    { apply grid_item_fits; [lia|]. by eapply Forall_lookup_1 in Hmin. }
    pose proof (Forall_lookup_1 _ _ _ _ Hwf Ei) as Hiw.
    split_and!; [done..| |]; by apply place_item_inside.
  - intros i j Hij. apply grid_cells_disjoint. lia.
Qed.

End grid.

Definition grid_columns (n : nat) : nat := integer_ceil_sqrt n.

Definition grid_row_count (n : nat) : nat :=
  Z.to_nat (div_ceil (Z.of_nat n) (Z.of_nat (grid_columns n))).

(** the spatial layout places every item, in its own cell: the returned
    geometries are representable, lie inside the output area and pairwise
    share no pixel, whenever the gaps fit the area and no item's minimum size
    exceeds the guaranteed cell size. *)
Theorem arrange_grid_tiles options state area items :
  let n := length items in
  let cols := grid_columns n in
  let rows := grid_row_count n in
  let gap := LayoutOptions.gap options in
  items ≠ [] → Z.of_nat n <= U32.MAX → Forall LayoutItem.wf items → cell_ok area →
  gaps_fit (Rect.width area) gap cols → gaps_fit (Rect.height area) gap rows →
  Forall (accepts_share area gap cols rows) items →
  tiles area n (LayoutSnapshot.placements (arrange_grid options state area items)).
Proof.
  intros n cols rows gap Hne Hn Hwf Harea Hfw Hfh Hmin.
  assert (Hpos : (0 < n)%nat) by (destruct items; [done|simpl in n; lia]).
  destruct (integer_ceil_sqrt_spec n Hpos) as ([Hc _]&_&_); [ints; lia|].
  fold (grid_columns n) in Hc. fold cols in Hc.
  pose proof (grid_rows_enough n cols Hc) as [Hrows _].
  change (Z.to_nat (div_ceil (Z.of_nat n) (Z.of_nat cols))) with rows in Hrows.
  assert (Hr : (0 < rows)%nat) by nia.
  assert (E : LayoutSnapshot.placements (arrange_grid options state area items)
    = grid_rows gap area (split_tracks (Rect.width area) cols gap)
        (split_tracks (Rect.height area) rows gap) (add_offset (Rect.y area) gap) items)
    by (destruct items; [done|reflexivity]).
  pose proof Harea as (?&?&?&?&?&?). pose proof Hfw as (Hg&?&?&_). pose proof Hfh as (_&?&?&_).
  rewrite E, (add_offset_exact (Rect.y area)) by (done || nia).
  apply (grid_rows_tile area gap cols rows); try done.
  - by apply split_tracks_ok.
  - by apply split_tracks_ok.
  - apply add_offset_exact; first [done|nia].
Qed.

Lemma arrange_grid_tiles_witness :
  tiles output 4 (LayoutSnapshot.placements
    (arrange_grid LayoutOptions.dflt LayoutState.dflt output (replicate 4 LayoutItem.dflt))).
Proof.
  apply (arrange_grid_tiles LayoutOptions.dflt LayoutState.dflt output
           (replicate 4 LayoutItem.dflt)).
  - done.
  - vm_compute; congruence.
  - apply Forall_replicate. split; [|done].
    split; [repeat split; vm_compute; congruence|done].
  - repeat split; vm_compute; congruence.
  - repeat split; vm_compute; congruence.
  - repeat split; vm_compute; congruence.
  - apply Forall_replicate. split; vm_compute; congruence.
Defined.

(** ** Master and stack *)

Lemma stack_column_spec gap area sx sw y items heights :
  length (stack_column gap area sx sw y items heights)
    = Nat.min (length items) (length heights) ∧
  ∀ k h item, heights !! k = Some h → items !! k = Some item →
    let cell := Rect.new sx (advance gap y (take k heights)) sw h in
    stack_column gap area sx sw y items heights !! k
      = Some (place_in_cell cell area
          (SizeConstraints.constrain (LayoutItem.constraints item) (Rect.size cell))).
Proof.
  revert y heights. induction items as [|item items IH]; intros y heights.
  - split; [done|]. intros. by rewrite lookup_nil in H0.
  - destruct heights as [|h heights]; simpl.
    + split; [done|]. intros. by rewrite lookup_nil in H.
    + destruct (IH (add_offset (add_offset y h) gap) heights) as [IHlen IHlook].
      split; [lia|]. intros [|k] h' item' Hh Hi; simpl in *; [by simplify_eq|].
      by apply IHlook.
Qed.

Lemma inset_exact area gap :
  cell_ok area → 0 <= gap → 2 * gap <= Rect.width area → 2 * gap <= Rect.height area →
  inset area gap = Rect.new (Rect.x area + gap) (Rect.y area + gap)
                     (Rect.width area - 2 * gap) (Rect.height area - 2 * gap).
Proof.
  intros (?&?&?&?&?&?) Hg Hw Hh. unfold inset, U32.saturating_mul, U32.saturating_sub.
  rewrite !add_offset_exact by (done || lia).
  rewrite (u32_sat_id (gap * 2)) by (ints; lia).
  rewrite !u32_sat_id by (ints; lia). f_equal; lia.
Qed.

(** The widths of the two columns of a layout with a stack. *)
Definition master_columns (options : LayoutOptions.t) (area : Rect.t) : Z * Z :=
  let tracks := Rect.width area - 3 * LayoutOptions.gap options in
  let master := Z.min (LayoutLength.resolve (LayoutOptions.master_width options) tracks)
                      tracks in
  (master, tracks - master).

Section master.

Context (options : LayoutOptions.t) (area : Rect.t) (count : nat).
Let gap := LayoutOptions.gap options.
Let inner_height := Rect.height area - 2 * gap.
Let mw := (master_columns options area).1.
Let sw := (master_columns options area).2.
Let sx := Rect.x area + gap + mw + gap.
Context (heights : list Z).
Hypothesis Hopt : LayoutOptions.wf options.
Hypothesis Harea : cell_ok area.
Hypothesis Hwidth : 3 * gap <= Rect.width area.
Hypothesis Hheight : 0 <= inner_height.
Hypothesis Hh : tracks_ok inner_height gap count heights.

(** Cell 0 is the master, cell [S k] the k-th of the stack. *)
Definition master_cell (i : nat) : Rect.t :=
  match i with
  | O => Rect.new (Rect.x area + gap) (Rect.y area + gap) mw inner_height
  | S k => Rect.new sx (advance gap (Rect.y area + gap) (take k heights)) sw
             (default 0 (heights !! k))
  end.

Lemma master_columns_bounds : 0 <= gap ∧ 0 <= mw ∧ 0 <= sw ∧
  mw + sw = Rect.width area - 3 * gap.
Proof.
  destruct Hopt as ([? _]&_&Hm). unfold gap, mw, sw, master_columns in *. simpl.
  destruct (resolve_wf _ (Rect.width area - 3 * LayoutOptions.gap options) Hm). lia.
Qed.

Lemma master_cell_inside i :
  (i <= count)%nat →
  cell_ok (master_cell i) ∧ Rect.contains_rect area (master_cell i) = true.
Proof.
  intros Hi. destruct master_columns_bounds as (Hg&?&?&?).
  destruct (cell_ok_edges area Harea) as (_&Er&Eb).
  destruct Harea as (Ax&Ay&Aw&Ah&Ar&Ab).
  assert (Esx : sx = Rect.x area + gap + mw + gap) by done.
  assert (Eih : inner_height = Rect.height area - 2 * gap) by done.
  assert (Hc : cell_ok (master_cell i) ∧
    Rect.x area <= Rect.x (master_cell i) ∧ Rect.y area <= Rect.y (master_cell i) ∧
    Rect.x (master_cell i) + Rect.width (master_cell i) <= Rect.x area + Rect.width area ∧
    Rect.y (master_cell i) + Rect.height (master_cell i) <= Rect.y area + Rect.height area).
  { destruct i as [|k].
    - unfold cell_ok; simpl. ints; lia.
    - destruct (lookup_lt_is_Some_2 heights k) as [h Eh];
        [rewrite (tracks_length _ _ _ _ Hh); lia|].
      pose proof (track_bounds gap _ _ _ _ _ Hh Eh).
      destruct (advance_inside _ _ _ _ (Rect.y area) k h Hh Hg Ay) as (_&?&?);
        [lia|lia|done|].
      unfold cell_ok; simpl. rewrite Eh; simpl. ints; lia. }
  destruct Hc as (Hc&?&?&?&?). split; [done|].
  destruct (cell_ok_edges _ Hc) as (_&Ecr&Ecb).
  rewrite contains_rect_spec, Er, Eb, Ecr, Ecb. lia.
Qed.

Lemma master_cells_disjoint i j :
  (i < j <= count)%nat → disjoint (master_cell i) (master_cell j).
Proof.
  intros Hij. destruct master_columns_bounds as (Hg&?&?&?).
  destruct (master_cell_inside i) as [Hci _]; [lia|].
  destruct (cell_ok_edges _ Hci) as (_&Er&Eb).
  destruct Harea as (Ax&Ay&Aw&Ah&Ar&Ab).
  destruct j as [|l]; [lia|]. destruct i as [|k].
  - apply disjoint_columns. rewrite Er.
    assert (Esx : sx = Rect.x area + gap + mw + gap) by done. simpl. lia.
  - apply disjoint_rows. rewrite Eb.
    destruct (lookup_lt_is_Some_2 heights k) as [h Eh];
      [rewrite (tracks_length _ _ _ _ Hh); lia|].
    destruct (lookup_lt_is_Some_2 heights l) as [h' Eh'];
      [rewrite (tracks_length _ _ _ _ Hh); lia|].
    pose proof (advance_separated _ _ _ _ (Rect.y area) k l h h' Hh Hg Ay) as Hs.
    assert (Eih : inner_height = Rect.height area - 2 * gap) by done.
    specialize (Hs ltac:(lia) ltac:(lia) Eh Eh' ltac:(lia)).
    simpl. rewrite Eh. simpl. lia.
Qed.

(** Each item fits its cell. *)
Definition accepts_column (master : LayoutItem.t) (stack : list LayoutItem.t) : Prop :=
  Forall LayoutItem.wf (master :: stack) ∧
  ∀ i item, (master :: stack) !! i = Some item → item_fits (master_cell i) item.

Lemma master_stack_tile master stack :
  length stack = count → accepts_column master stack →
  tiles area (S count)
    (place_in_cell (master_cell 0) area
       (SizeConstraints.constrain (LayoutItem.constraints master)
          (Rect.size (master_cell 0)))
     :: stack_column gap area sx sw (Rect.y area + gap) stack heights).
Proof.
  intros Hn [Hwf Hfit].
  destruct (stack_column_spec gap area sx sw (Rect.y area + gap) stack heights)
    as [Hlen Hlook]. rewrite (tracks_length _ _ _ _ Hh), Hn in Hlen.
  apply (tiles_by_cells _ _ _ master_cell).
  - simpl. lia.
  - intros i p Hp.
    assert (Hi : (i < S count)%nat) by (apply lookup_lt_Some in Hp; simpl in Hp; lia).
    destruct (master_cell_inside i) as [Hcell Hin]; [lia|].
    destruct (lookup_lt_is_Some_2 (master :: stack) i) as [item Ei]; [simpl; lia|].
    pose proof (Forall_lookup_1 _ _ _ _ Hwf Ei). pose proof (Hfit i item Ei).
    assert (p = place_in_cell (master_cell i) area
      (SizeConstraints.constrain (LayoutItem.constraints item) (Rect.size (master_cell i))))
      as ->.
    { destruct i as [|k]; simpl in *; [by simplify_eq|].
      destruct (lookup_lt_is_Some_2 heights k) as [h Eh];
        [rewrite (tracks_length _ _ _ _ Hh); lia|].
      specialize (Hlook k h item Eh Ei). rewrite Eh. simpl in *. congruence. }
    split_and!; [done..| |]; by apply place_item_inside.
  - intros i j Hij. apply master_cells_disjoint. lia.
Qed.

End master.

Definition single_cell (options : LayoutOptions.t) (area : Rect.t) : Rect.t :=
  inset area (LayoutOptions.gap options).

(** The columns the code computes, with the saturations discharged. *)
Lemma arrange_master_stack_eq options state area master stack :
  let gap := LayoutOptions.gap options in
  let heights := split_tracks (Rect.height area - 2 * gap) (length stack) gap in
  LayoutOptions.wf options → cell_ok area → 3 * gap <= Rect.width area →
  2 * gap <= Rect.height area → stack ≠ [] →
  LayoutSnapshot.placements (arrange_master_stack options state area (master :: stack)) =
    place_in_cell (master_cell options area heights 0) area
      (SizeConstraints.constrain (LayoutItem.constraints master)
         (Rect.size (master_cell options area heights 0)))
    :: stack_column gap area (Rect.x area + gap + (master_columns options area).1 + gap)
         (master_columns options area).2 (Rect.y area + gap) stack heights.
Proof.
  intros gap heights Hopt Harea Hw Hh Hne.
  destruct (Hopt) as ([Hg _]&_&Hm). fold gap in Hg.
  pose proof Harea as (Ax&Ay&Aw&Ah&Ar&Ab).
  destruct (master_columns_bounds options area Hopt Hw) as (_&Hmw&Hsw&Hsum). fold gap in Hsum.
  assert (Et : U32.saturating_sub (Rect.width area - 2 * gap) gap = Rect.width area - 3 * gap)
    by (unfold U32.saturating_sub; rewrite u32_sat_id by (ints; lia); lia).
  assert (Es : U32.saturating_sub (Rect.width area - 3 * gap) (master_columns options area).1
    = (master_columns options area).2)
    by (unfold U32.saturating_sub; rewrite u32_sat_id by (ints; lia); lia).
  assert (Ex : add_offset (add_offset (Rect.x area + gap) (master_columns options area).1) gap
    = Rect.x area + gap + (master_columns options area).1 + gap)
    by (rewrite (add_offset_exact (Rect.x area + gap)), add_offset_exact by (ints; lia); lia).
  destruct stack as [|item stack']; [done|]. unfold arrange_master_stack. fold gap.
  rewrite (inset_exact area gap) by (done || lia). cbn [Rect.x Rect.y Rect.width Rect.height].
  rewrite Et. change (Z.min _ _) with (master_columns options area).1.
  rewrite Es, Ex. done.
Qed.

(** the master-stack layout gives every item a cell of its own: one item
    fills the inset area, otherwise the first item takes the master column and
    the others the stack column; the returned geometries are representable,
    lie inside the area and pairwise share no pixel, whenever the gaps fit the
    area and every item accepts its cell. *)
Theorem arrange_master_stack_tiles options state area master stack :
  let gap := LayoutOptions.gap options in
  let count := length stack in
  let heights := split_tracks (Rect.height area - 2 * gap) count gap in
  LayoutOptions.wf options → cell_ok area → 3 * gap <= Rect.width area →
  2 * gap <= Rect.height area →
  (stack = [] → LayoutItem.wf master ∧ item_fits (single_cell options area) master) →
  (stack ≠ [] → gaps_fit (Rect.height area - 2 * gap) gap count ∧
                accepts_column options area heights master stack) →
  tiles area (S count)
    (LayoutSnapshot.placements (arrange_master_stack options state area (master :: stack))).
Proof.
  intros gap count heights Hopt Harea Hw Hh Hone Hmany.
  destruct (decide (stack = [])) as [->|Hne].
  - destruct Hone as [Hwf Hfit]; [done|]. destruct (Hopt) as ([Hg _]&_&_). fold gap in Hg.
    pose proof Harea as (?&?&?&?&?&?).
    assert (Ein : single_cell options area = _) by (apply inset_exact; (done || lia)).
    assert (Hc : cell_ok (single_cell options area)).
    { rewrite Ein. unfold cell_ok; simpl. fold gap. ints; lia. }
    destruct (place_item_inside _ area master Hwf Hc Hfit) as [? ?].
    apply (tiles_by_cells _ _ _ (λ _, single_cell options area)); [done| |].
    + intros [|i] p Hp; simpl in Hp; simplify_eq. split_and!; [done| |done..].
      destruct (cell_ok_edges _ Hc) as (_&E1&E2), (cell_ok_edges _ Harea) as (_&E3&E4).
      rewrite contains_rect_spec, E1, E2, E3, E4, Ein. simpl. fold gap. lia.
    + intros i j Hij. unfold count in Hij. simpl in Hij. lia.
  - destruct Hmany as [Hf Ha]; [done|]. rewrite arrange_master_stack_eq by done.
    apply (master_stack_tile options area count heights); try done.
    + fold gap. lia.
    + apply split_tracks_ok; [|done]. unfold count. destruct stack; [done|simpl; lia].
Qed.

Lemma arrange_master_stack_tiles_witness :
  tiles output 3 (LayoutSnapshot.placements (arrange_master_stack
    LayoutOptions.dflt LayoutState.dflt output
    (LayoutItem.dflt :: replicate 2 LayoutItem.dflt))).
Proof.
  apply (arrange_master_stack_tiles LayoutOptions.dflt LayoutState.dflt output
    LayoutItem.dflt (replicate 2 LayoutItem.dflt)).
  - repeat split; vm_compute; congruence.
  - repeat split; vm_compute; congruence.
  - vm_compute; congruence.
  - vm_compute; congruence.
  - done.
  - intros _. split; [repeat split; vm_compute; congruence|]. split.
    + change (LayoutItem.dflt :: replicate 2 LayoutItem.dflt)
        with (replicate 3 LayoutItem.dflt).
      apply Forall_replicate. split; [|done].
      split; [repeat split; vm_compute; congruence|done].
    + intros [|[|[|i]]] item [= <-]; split; vm_compute; congruence.
Defined.
