(* ===== verification/LayoutScroll.v ===== *)
(** * The scrolling layout reveals the focused column

    Columns are laid out once from left to right and then shifted by the
    horizontal offset of the workspace. The offset stays between the two ends
    of the content, the focused column is always revealed, and a further
    [arrange] with the same inputs changes nothing. *)

From S2P Require Import Prelude Geometry Layout LayoutGrid.

Import Scrolling.

(** ** Columns before scrolling *)

Section columns.

Context (options : LayoutOptions.t) (area : Rect.t).

(** The quantities [arrange] computes first. *)
Definition scroll_padding : Z :=
  Z.min (LayoutOptions.gap options) (Rect.width area / 2).

Definition scroll_height : Z :=
  U32.saturating_sub (Rect.height area) (U32.saturating_mul scroll_padding 2).

Definition column_widths (items : list LayoutItem.t) : list Z :=
  map (λ item, Size.width (column_size options area scroll_height item)) items.

(** The far end of the content, measured from the left edge of the area. *)
Definition content_extent (items : list LayoutItem.t) : Z :=
  scroll_padding + zsum (column_widths items)
  + Z.of_nat (length items) * LayoutOptions.gap options.

(** The columns fit the coordinate space around the area. *)
Record scroll_fits (items : list LayoutItem.t) : Prop := {
  fits_options : LayoutOptions.wf options;
  fits_area : cell_ok area;
  fits_items : Forall LayoutItem.wf items;
  fits_extent : content_extent items <= I32.MAX;
  fits_right : Rect.x area + content_extent items <= I32.MAX;
  fits_left : I32.MIN <= Rect.x area - content_extent items }.

Lemma base_columns_spec padding ih x mh items :
  let '(base, xe, _) := base_columns options area padding ih x mh items in
  let widths := map (λ item, Size.width (column_size options area ih item)) items in
  length base = length items ∧
  xe = advance (LayoutOptions.gap options) x widths ∧
  ∀ i item, items !! i = Some item → ∃ column, base !! i = Some column ∧
    Rect.x column = advance (LayoutOptions.gap options) x (take i widths) ∧
    I32.ok (Rect.y column) ∧
    Rect.size column = column_size options area ih item.
Proof.
  revert x mh. induction items as [|item items IH]; intros x mh; simpl.
  - split_and!; [done..|]. intros i item Hi. by rewrite lookup_nil in Hi.
  - set (size := column_size options area ih item).
    set (x' := add_offset (add_offset x (Size.width size)) (LayoutOptions.gap options)).
    specialize (IH x' (Z.max mh (Size.height size))).
    destruct (base_columns _ _ _ _ _ _ _) as [[base xe] mh'].
    destruct IH as (Hlen&->&Hlook). split_and!; [simpl; lia|done|].
    intros [|i] item' Hi; simpl in *; [|by apply Hlook].
    simplify_eq. eexists; split; [done|]. split; [done|].
    split; [apply add_offset_ok|]. simpl. unfold Rect.size. simpl. by destruct size.
Qed.

Lemma column_size_wf ih item :
  LayoutOptions.wf options → LayoutItem.wf item → U32.ok ih →
  Size.wf (column_size options area ih item).
Proof.
  intros (_&Hd&_) [Hc Hp] Hi. apply constrain_wf; [done|]. split; [|done]. simpl.
  apply resolve_column_wf. destruct (LayoutItem.primary_size item) eqn:E; simpl; auto.
Qed.

Lemma scroll_height_ok : U32.ok scroll_height.
Proof. apply u32_sat_ok. Qed.

Lemma column_widths_nonneg items :
  LayoutOptions.wf options → Forall LayoutItem.wf items →
  Forall (Z.le 0) (column_widths items).
Proof.
  intros Ho Hi. apply Forall_map. eapply Forall_impl; [exact Hi|].
  intros item Hitem. simpl.
  by destruct (column_size_wf scroll_height item Ho Hitem scroll_height_ok) as [[? _] _].
Qed.

Lemma scroll_padding_bounds :
  LayoutOptions.wf options → cell_ok area →
  0 <= scroll_padding <= LayoutOptions.gap options ∧ 2 * scroll_padding <= Rect.width area.
Proof. intros ([? _]&_) (_&_&?&_). unfold scroll_padding. div_lia. Qed.

(** The position of every column, with the saturations discharged. *)
Lemma advance_columns items k :
  scroll_fits items → (k <= length items)%nat →
  let x0 := add_offset (Rect.x area) scroll_padding in
  advance (LayoutOptions.gap options) x0 (take k (column_widths items))
  = Rect.x area + scroll_padding + zsum (take k (column_widths items))
    + Z.of_nat k * LayoutOptions.gap options.
Proof.
  intros [Ho Ha Hi He Hr Hl] Hk x0. destruct (scroll_padding_bounds Ho Ha) as [Hp Hp2].
  pose proof (column_widths_nonneg items Ho Hi) as Hnn.
  pose proof Ha as (Ax&_&Aw&_&Ar&_). pose proof Ho as ([Hg _]&_).
  assert (Hlen : length (column_widths items) = length items) by apply length_map.
  assert (Ex : x0 = Rect.x area + scroll_padding)
    by (apply add_offset_exact; [done|lia..]).
  pose proof (zsum_take_le (column_widths items) k Hnn).
  pose proof (zsum_nonneg _ Hnn). unfold content_extent in *.
  destruct (decide (items = [])) as [->|Hne].
  { assert (k = 0%nat) as -> by (simpl in Hk; lia). rewrite Ex. simpl. lia. }
  assert (0 < length items)%nat by (destruct items; [done|simpl; lia]).
  rewrite Ex, advance_exact; rewrite ?length_take_le by lia.
  - done.
  - ints; lia.
  - split; [done|nia].
  - apply Forall_take, Forall_lookup. intros i v Hv.
    pose proof (zsum_take_S _ _ _ Hv). pose proof (zsum_take_le _ (S i) Hnn).
    pose proof (zsum_nonneg _ (Forall_take _ i _ Hnn)).
    assert (0 <= v) by (eapply Forall_lookup_1 in Hnn; eauto). nia.
  - nia.
Qed.

(** The columns [arrange] shifts: one per item, ordered, inside the content. *)
Record columns_ok (items : list LayoutItem.t) (base : list Rect.t) : Prop := {
  columns_length : length base = length items;
  columns_at : ∀ i column, base !! i = Some column →
    I32.ok (Rect.x column) ∧ Rect.wf column ∧
    Rect.right column = Rect.x column + Rect.width column ∧
    Rect.x area + scroll_padding <= Rect.x column ∧
    Rect.x column + Rect.width column + LayoutOptions.gap options
      <= Rect.x area + content_extent items;
  columns_apart : ∀ i j a b, (i < j)%nat → base !! i = Some a → base !! j = Some b →
    Rect.x a + Rect.width a + LayoutOptions.gap options <= Rect.x b }.

Lemma base_columns_at items mh i column :
  scroll_fits items →
  (base_columns options area scroll_padding scroll_height
     (add_offset (Rect.x area) scroll_padding) mh items).1.1 !! i = Some column →
  (i < length items)%nat ∧ column_widths items !! i = Some (Rect.width column) ∧
  I32.ok (Rect.y column) ∧ Size.wf (Rect.size column) ∧
  Rect.x column = Rect.x area + scroll_padding + zsum (take i (column_widths items))
                  + Z.of_nat i * LayoutOptions.gap options.
Proof.
  intros Hf. pose proof (base_columns_spec scroll_padding scroll_height
    (add_offset (Rect.x area) scroll_padding) mh items) as Hs.
  destruct (base_columns _ _ _ _ _ _ _) as [[base xe] mh']. simpl. intros Hc.
  destruct Hs as (Hlen&_&Hlook). fold (column_widths items) in Hlook.
  pose proof (lookup_lt_Some _ _ _ Hc) as Hlt. rewrite Hlen in Hlt.
  destruct (lookup_lt_is_Some_2 items i Hlt) as [item Ei].
  destruct (Hlook i item Ei) as (column'&Hc'&Hx&Hy&Hsz). simplify_eq.
  rewrite advance_columns in Hx by (done || lia).
  destruct Hf as [Ho Ha Hi _ _ _]. split_and!; [done| |done| |done].
  - unfold column_widths. rewrite list_lookup_fmap, Ei.
    change (Some (Size.width (column_size options area scroll_height item))
      = Some (Rect.width column)). by rewrite <- Hsz.
  - rewrite Hsz. apply column_size_wf; [done|by eapply Forall_lookup_1 in Hi|].
    apply scroll_height_ok.
Qed.

Lemma base_columns_ok items mh :
  scroll_fits items →
  let '(base, xe, _) := base_columns options area scroll_padding scroll_height
    (add_offset (Rect.x area) scroll_padding) mh items in
  columns_ok items base ∧ xe = Rect.x area + content_extent items.
Proof.
  intros Hf. pose proof (base_columns_spec scroll_padding scroll_height
    (add_offset (Rect.x area) scroll_padding) mh items) as Hs.
  pose proof (base_columns_at items mh) as Hat.
  destruct (base_columns _ _ _ _ _ _ _) as [[base xe] mh']. simpl in Hat.
  destruct Hs as (Hlen&Hxe&_). fold (column_widths items) in Hxe.
  pose proof Hf as [Ho Ha Hi He Hr Hl].
  pose proof (column_widths_nonneg items Ho Hi) as Hnn.
  assert (Hwl : length (column_widths items) = length items) by apply length_map.
  destruct (scroll_padding_bounds Ho Ha) as [Hp Hp2]. pose proof Ha as ([??]&_&Aw&_&Ar&_).
  pose proof Ho as ([Hg _]&_). unfold content_extent in *. split; [split; [done|..]|].
  - intros i column Hc. destruct (Hat i column Hf Hc) as (Hlt&Ew&Hy&[Hs1 Hs2]&Hx).
    pose proof (zsum_take_S _ _ _ Ew). pose proof (zsum_take_le _ (S i) Hnn).
    pose proof (zsum_nonneg _ (Forall_take _ i _ Hnn)).
    assert ((Z.of_nat i + 1) * LayoutOptions.gap options
      <= Z.of_nat (length items) * LayoutOptions.gap options) by nia.
    assert (0 <= Z.of_nat i * LayoutOptions.gap options) by nia. pose proof Hs1 as [? ?].
    assert (I32.ok (Rect.x column)) by (rewrite Hx; split; simpl in *; lia).
    assert (Hwf : Rect.wf column) by (unfold Rect.wf; split_and!; assumption).
    unfold content_extent. simpl in *.
    split_and!; [done|done|apply rect_right_exact; [done|..]|..]; lia.
  - intros i j a b Hij Hca Hcb.
    destruct (Hat i a Hf Hca) as (_&Ew&_&_&Hx), (Hat j b Hf Hcb) as (_&_&_&_&Hx').
    pose proof (zsum_take_lt _ i j _ Hnn Ew Hij). nia.
  - rewrite Hxe. rewrite <- (take_ge (column_widths items) (length items)) by lia.
    rewrite advance_columns by (done || lia). unfold content_extent.
    rewrite take_ge by lia. lia.
Qed.

End columns.

(** ** The view offset *)

(** The offset stays at zero while the content fits, and otherwise between
    the position that shows the end of the content and zero. *)
Definition offset_range (area : Rect.t) (content_width o : Z) : Prop :=
  if content_width <=? Rect.width area then o = 0
  else Rect.width area - content_width <= o <= 0.

(** A column as shown under the offset is revealed: inside the padded view
    when it is narrow enough, otherwise aligned with its left edge. *)
Definition revealed (area : Rect.t) (padding o : Z) (column : Rect.t) : Prop :=
  let view_left := Rect.x area + padding in
  let view_right := Rect.x area + Rect.width area - padding in
  if Rect.width column <=? view_right - view_left
  then view_left <= Rect.x column + o ∧ Rect.x column + Rect.width column + o <= view_right
  else Rect.x column + o = view_left.

(** [update_view_offset] without its saturations. *)
Definition target_offset (area : Rect.t) (padding content_width o : Z)
    (focused : option Rect.t) : Z :=
  let view_left := Rect.x area + padding in
  let view_right := Rect.x area + Rect.width area - padding in
  let o := zclamp (Rect.width area - content_width) 0 o in
  match focused with
  | Some f =>
      if view_right - view_left <=? Rect.width f then view_left - Rect.x f
      else if Rect.x f + o <? view_left then view_left - Rect.x f
      else if view_right <? Rect.x f + Rect.width f + o
      then view_right - (Rect.x f + Rect.width f)
      else o
  | None => o
  end.

Section offset.

Context (area : Rect.t) (padding content_width : Z).
Hypothesis Harea : cell_ok area.
Hypothesis Hpad : 0 <= padding ∧ 2 * padding <= Rect.width area.
Hypothesis Hcw : 0 <= content_width <= I32.MAX.
Hypothesis Hfit : Rect.x area + content_width <= I32.MAX.

(** A column within the content. *)
Definition in_content (f : Rect.t) : Prop :=
  I32.ok (Rect.x f) ∧ 0 <= Rect.width f ∧
  Rect.right f = Rect.x f + Rect.width f ∧
  Rect.x area + padding <= Rect.x f ∧
  Rect.x f + Rect.width f <= Rect.x area + content_width - padding.

Lemma target_offset_range o focused :
  Rect.width area < content_width → (∀ f, focused = Some f → in_content f) →
  Rect.width area - content_width <= target_offset area padding content_width o focused <= 0.
Proof.
  intros Hlt Hf. unfold target_offset.
  assert (Hz : Rect.width area - content_width
    <= zclamp (Rect.width area - content_width) 0 o <= 0) by (apply zclamp_range; lia).
  set (z := zclamp _ _ _) in *. clearbody z. destruct focused as [f|]; [|done].
  destruct (Hf f eq_refl) as (_&?&_&?&?). zcases; lia.
Qed.

Lemma update_view_offset_target state base focused :
  (∀ f, (focused ≫= λ i, base !! i) = Some f → in_content f) →
  LayoutState.horizontal_offset
    (update_view_offset state area padding content_width base focused)
  = if content_width <=? Rect.width area then 0
    else target_offset area padding content_width
           (LayoutState.horizontal_offset state) (focused ≫= λ i, base !! i).
Proof.
  intros Hf. unfold update_view_offset.
  destruct (Z.leb_spec content_width (Rect.width area)) as [|Hlt]; [done|].
  pose proof Harea as (Ax&_&Aw&_&Ar&_). destruct (cell_ok_edges area Harea) as (_&Er&_).
  assert (E1 : add_offset (Rect.x area) padding = Rect.x area + padding)
    by (apply add_offset_exact; [done|lia..]).
  assert (E2 : I32.saturating_sub (Rect.right area) (to_i32 padding)
    = Rect.x area + Rect.width area - padding) by (rewrite Er; unfold to_i32; int_solve).
  assert (E3 : Z.min (I64.saturating_sub (Rect.x area + Rect.width area - padding)
    (Rect.x area + content_width - padding)) 0 = Rect.width area - content_width)
    by (ints; lia).
  rewrite E1, E2, E3. simpl.
  set (o := zclamp (Rect.width area - content_width) 0 (LayoutState.horizontal_offset state)).
  assert (Ho : Rect.width area - content_width <= o <= 0) by (apply zclamp_range; lia).
  assert (Ht : Rect.width area - content_width <= target_offset area padding content_width
    (LayoutState.horizontal_offset state) (focused ≫= λ i, base !! i) <= 0)
    by (by apply target_offset_range).
  unfold target_offset in *. fold o in Ht |- *.
  destruct (focused ≫= _) as [f|].
  - destruct (Hf f eq_refl) as ([? ?]&?&->&?&?). clearbody o. clear Hf E1 E2 E3.
    assert (Es : I64.saturating_sub (Rect.x area + Rect.width area - padding)
      (Rect.x area + padding) = Rect.x area + Rect.width area - padding - (Rect.x area + padding))
      by (ints; lia).
    rewrite Es. unfold clamp_i64, I32.of_clamped.
    zcases; rewrite zclamp_id by (ints; lia); rewrite i32_sat_id by (ints; lia); ints; lia.
  - rewrite zclamp_id by lia. apply i32_sat_id. ints; lia.
Qed.

Lemma target_revealed o f :
  Rect.width area < content_width → in_content f →
  revealed area padding (target_offset area padding content_width o (Some f)) f.
Proof.
  intros Hlt (_&?&_&?&?). unfold target_offset, revealed.
  set (z := zclamp _ _ _). clearbody z. zcases; lia.
Qed.

Lemma target_idempotent o focused :
  Rect.width area < content_width → (∀ f, focused = Some f → in_content f) →
  let t := target_offset area padding content_width o focused in
  target_offset area padding content_width t focused = t.
Proof.
  intros Hlt Hf t. pose proof (target_offset_range o focused Hlt Hf) as Ht. fold t in Ht.
  unfold target_offset at 1. rewrite zclamp_id by done.
  destruct focused as [f|]; [|done]. destruct (Hf f eq_refl) as (_&?&_&?&?).
  pose proof (target_revealed o f Hlt (Hf f eq_refl)) as Hr. fold t in Hr.
  assert (Ho : Rect.x area + Rect.width area - padding - (Rect.x area + padding)
      <= Rect.width f → t = Rect.x area + padding - Rect.x f).
  { intros Hle. unfold t, target_offset.
    destruct (Z.leb_spec (Rect.x area + Rect.width area - padding - (Rect.x area + padding))
      (Rect.width f)); lia. }
  clearbody t. unfold revealed in Hr. zcases; lia.
Qed.

End offset.

(** ** The whole engine *)

Section arrange.

Context (options : LayoutOptions.t) (area : Rect.t) (items : list LayoutItem.t).
Hypothesis Hfits : scroll_fits options area items.
Hypothesis Hne : items ≠ [].

#[local] Abbreviation padding := (scroll_padding options area).
#[local] Abbreviation extent := (content_extent options area items).

(** The columns before scrolling. *)
Definition scroll_base : list Rect.t :=
  (base_columns options area padding (scroll_height options area)
     (add_offset (Rect.x area) padding) 0 items).1.1.

(** The offset [arrange] settles on. *)
Definition scroll_offset (o : Z) (focused : option nat) : Z :=
  if extent <=? Rect.width area then 0
  else target_offset area padding extent o (focused ≫= λ i, scroll_base !! i).

Lemma scroll_base_ok : columns_ok options area items scroll_base.
Proof.
  unfold scroll_base. pose proof (base_columns_ok options area items 0 Hfits) as H.
  destruct (base_columns _ _ _ _ _ _ _) as [[base xe] mh]. apply H.
Qed.

Lemma extent_bounds : 0 <= extent <= I32.MAX.
Proof.
  destruct Hfits as [Ho Ha Hi He _ _]. split; [|done].
  pose proof (zsum_nonneg _ (column_widths_nonneg options area items Ho Hi)).
  destruct (scroll_padding_bounds options area Ho Ha). destruct Ho as ([? _]&_).
  unfold content_extent. nia.
Qed.

Lemma padding_bounds :
  0 <= padding ∧ 2 * padding <= Rect.width area ∧ padding <= LayoutOptions.gap options.
Proof.
  destruct Hfits as [Ho Ha _ _ _ _].
  destruct (scroll_padding_bounds options area Ho Ha). lia.
Qed.

Lemma scroll_in_content focused f :
  (focused ≫= λ i, scroll_base !! i) = Some f → in_content area padding extent f.
Proof.
  destruct focused as [i|]; [|done]. simpl. intros Hi.
  destruct (columns_at _ _ _ _ scroll_base_ok i f Hi) as (?&(_&_&[? _]&_)&?&?&?).
  destruct padding_bounds as (?&?&?).
  unfold in_content. split_and!; try done. lia.
Qed.

Lemma arrange_state state focused :
  (arrange options state area items focused).1
  = LayoutState.new (scroll_offset (LayoutState.horizontal_offset state) focused) ∧
  LayoutSnapshot.placements (arrange options state area items focused).2
  = map (shift_column (scroll_offset (LayoutState.horizontal_offset state) focused) area)
        scroll_base ∧
  LayoutSnapshot.horizontal_offset (arrange options state area items focused).2
  = scroll_offset (LayoutState.horizontal_offset state) focused.
Proof.
  destruct padding_bounds as (Hp1&Hp2&Hp3). pose proof extent_bounds as He.
  pose proof Hfits as [Ho Ha _ _ Hr _].
  pose proof (base_columns_ok options area items 0 Hfits) as Hb.
  pose proof (update_view_offset_target area padding extent Ha (conj Hp1 Hp2) He Hr
    state scroll_base focused (scroll_in_content focused)) as Hu.
  assert (E : arrange options state area items focused =
    let '(base, x, max_height) := base_columns options area padding
      (scroll_height options area) (add_offset (Rect.x area) padding) 0 items in
    let content_width := distance (Rect.x area)
      (add_offset x (U32.saturating_sub padding (LayoutOptions.gap options))) in
    let st := update_view_offset state area padding content_width base focused in
    let offset := LayoutState.horizontal_offset st in
    (st, LayoutSnapshot.mk area (map (shift_column offset area) base)
       (Rect.new (I32.saturating_add (Rect.x area) offset) (Rect.y area) content_width
          (U32.saturating_add max_height (U32.saturating_mul padding 2))) offset))
    by (destruct items; [done|reflexivity]).
  rewrite E. unfold scroll_offset, scroll_base in *.
  destruct (base_columns _ _ _ _ _ _ _) as [[base x] mh]. destruct Hb as [_ ->]. simpl in *.
  assert (Ec : distance (Rect.x area) (add_offset (Rect.x area + content_extent options area items)
    (U32.saturating_sub padding (LayoutOptions.gap options))) = extent).
  { assert (U32.saturating_sub padding (LayoutOptions.gap options) = 0) as -> by (ints; lia).
    pose proof Ha as (Ax&_). unfold distance.
    rewrite add_offset_exact by (ints; lia). unfold I32.saturating_sub.
    rewrite i32_sat_id, u32_of_or_max_id by (ints; lia). lia. }
  rewrite Ec, <- Hu. by destruct (update_view_offset state area padding extent base focused).
Qed.

Lemma scroll_offset_range o focused :
  offset_range area extent (scroll_offset o focused).
Proof.
  unfold offset_range, scroll_offset. destruct (Z.leb_spec extent (Rect.width area)); [done|].
  apply target_offset_range; [done|]. apply scroll_in_content.
Qed.

(** Shifting a column does not saturate. *)
Lemma shifted_column i column o :
  scroll_base !! i = Some column → offset_range area extent o →
  let g := LayoutPlacement.geometry (shift_column o area column) in
  Rect.x g = Rect.x column + o ∧ Rect.right g = Rect.x column + o + Rect.width column ∧
  Rect.wf g ∧ Rect.width g = Rect.width column.
Proof.
  intros Hi Ho g.
  destruct (columns_at _ _ _ _ scroll_base_ok i column Hi) as (_&Hwf&_&Hl&Hr).
  destruct padding_bounds as (?&?&?). pose proof extent_bounds.
  pose proof Hfits as [_ ([??]&_&?&_) _ _ Hfr Hfl].
  destruct Hwf as ([??]&?&[??]&?). unfold offset_range in Ho.
  assert (Hx : Rect.x g = Rect.x column + o).
  { apply i32_sat_id. unfold I32.ok. destruct (Z.leb_spec extent (Rect.width area)); lia. }
  assert (Hg : Rect.wf g).
  { unfold Rect.wf. split_and!; try done; apply i32_sat_ok. }
  split_and!; try done. rewrite rect_right_exact; [rewrite Hx; done|done|..].
  - rewrite Hx. simpl. destruct (Z.leb_spec extent (Rect.width area)); lia.
  - simpl. ints; lia.
Qed.

(** The focused column is revealed by the settled offset. *)
Lemma scroll_offset_revealed o i column :
  scroll_base !! i = Some column →
  revealed area padding (scroll_offset o (Some i)) column.
Proof.
  intros Hc. destruct (columns_at _ _ _ _ scroll_base_ok i column Hc)
    as (_&(_&_&[? _]&_)&_&?&?).
  destruct padding_bounds as (?&?&?). unfold scroll_offset. simpl. rewrite Hc.
  destruct (Z.leb_spec extent (Rect.width area)) as [|Hlt].
  - unfold revealed. zcases; lia.
  - apply target_revealed; [done|]. by apply (scroll_in_content (Some i)).
Qed.

Lemma scroll_offset_idempotent o focused :
  scroll_offset (scroll_offset o focused) focused = scroll_offset o focused.
Proof.
  unfold scroll_offset. destruct (Z.leb_spec extent (Rect.width area)); [done|].
  apply target_idempotent; [done|]. apply scroll_in_content.
Qed.

End arrange.

(** after [arrange] the focused column is revealed: if it is at most as
    wide as the padded view it lies entirely inside it, otherwise its left
    edge is the left edge of the view. This holds from any previous offset. *)
Theorem scroll_reveals_focus options state area items i :
  scroll_fits options area items → (i < length items)%nat →
  let snapshot := (arrange options state area items (Some i)).2 in
  let view_left := Rect.x area + scroll_padding options area in
  let view_right := Rect.x area + Rect.width area - scroll_padding options area in
  ∃ p, LayoutSnapshot.placements snapshot !! i = Some p ∧
    let g := LayoutPlacement.geometry p in
    if Rect.width g <=? view_right - view_left
    then view_left <= Rect.x g ∧ Rect.right g <= view_right
    else Rect.x g = view_left.
Proof.
  intros Hf Hi snapshot view_left view_right.
  assert (Hne : items ≠ []) by (destruct items; [simpl in Hi; lia|done]).
  destruct (arrange_state options area items Hf Hne state (Some i)) as (_&Hp&_).
  set (o := scroll_offset _ _ _ _ _) in Hp.
  pose proof (scroll_base_ok options area items Hf) as Hok.
  destruct (lookup_lt_is_Some_2 (scroll_base options area items) i) as [column Hc];
    [by rewrite (columns_length _ _ _ _ Hok)|].
  exists (shift_column o area column). unfold snapshot.
  split; [by rewrite Hp, list_lookup_fmap, Hc|].
  pose proof (scroll_offset_range options area items Hf
    (LayoutState.horizontal_offset state) (Some i)) as Hr. fold o in Hr.
  destruct (shifted_column options area items Hf i column o Hc Hr) as (Hx&Hg&_&Hw).
  pose proof (scroll_offset_revealed options area items Hf
    (LayoutState.horizontal_offset state) i column Hc) as Hv. fold o in Hv.
  cbv zeta. rewrite Hx, Hg, Hw. unfold view_left, view_right, revealed in *.
  zcases; lia.
Qed.

(** A view of 100 by 80 pixels over three default columns: the last column
    starts outside the view. *)
Definition narrow_view : Rect.t := Rect.new 0 0 100 80.

Definition three_columns : list LayoutItem.t := replicate 3 LayoutItem.dflt.

Lemma three_columns_fit : scroll_fits LayoutOptions.dflt narrow_view three_columns.
Proof.
  split.
  - repeat split; vm_compute; congruence.
  - repeat split; vm_compute; congruence.
  - apply Forall_replicate. split; [|done].
    split; [repeat split; vm_compute; congruence|done].
  - vm_compute; congruence.
  - vm_compute; congruence.
  - vm_compute; congruence.
Qed.

Lemma scroll_reveals_focus_witness :
  ∃ p, LayoutSnapshot.placements
         (arrange LayoutOptions.dflt LayoutState.dflt narrow_view three_columns (Some 2%nat)).2
         !! 2%nat = Some p ∧
    Rect.x (LayoutPlacement.geometry p) = 54 ∧ Rect.right (LayoutPlacement.geometry p) <= 92.
Proof.
  destruct (scroll_reveals_focus LayoutOptions.dflt LayoutState.dflt narrow_view
    three_columns 2 three_columns_fit) as (p&Hp&Hv); [vm_compute; lia|].
  exists p. split; [exact Hp|]. vm_compute in Hp. injection Hp as <-.
  split; [reflexivity|]. apply Hv.
Defined.

(** the columns of the scrolling layout keep the order of the items and
    never overlap: one placement per item, each at least the gap to the right
    of the previous one, whatever the offset. *)
Theorem scroll_columns_apart options state area items focused :
  scroll_fits options area items → items ≠ [] →
  let placements := LayoutSnapshot.placements
    (arrange options state area items focused).2 in
  length placements = length items ∧
  (∀ i p, placements !! i = Some p → Rect.wf (LayoutPlacement.geometry p)) ∧
  (∀ i j p q, (i < j)%nat → placements !! i = Some p → placements !! j = Some q →
     Rect.right (LayoutPlacement.geometry p) + LayoutOptions.gap options
     <= Rect.x (LayoutPlacement.geometry q)).
Proof.
  intros Hf Hne placements.
  destruct (arrange_state options area items Hf Hne state focused) as (_&Hp&_).
  fold placements in Hp. set (o := scroll_offset _ _ _ _ _) in Hp.
  pose proof (scroll_base_ok options area items Hf) as Hok.
  pose proof (scroll_offset_range options area items Hf
    (LayoutState.horizontal_offset state) focused) as Hr. fold o in Hr. clearbody o.
  rewrite Hp. split_and!.
  - by rewrite length_map, (columns_length _ _ _ _ Hok).
  - intros i p. rewrite list_lookup_fmap. intros (c&Hc&->)%fmap_Some.
    by destruct (shifted_column options area items Hf i c o Hc Hr) as (_&_&?&_).
  - intros i j p q Hij. rewrite !list_lookup_fmap.
    intros (c&Hc&->)%fmap_Some (d&Hd&->)%fmap_Some.
    destruct (shifted_column options area items Hf i c o Hc Hr) as (_&->&_).
    destruct (shifted_column options area items Hf j d o Hd Hr) as (->&_).
    pose proof (columns_apart _ _ _ _ Hok i j c d Hij Hc Hd). lia.
Qed.

Lemma scroll_columns_apart_witness :
  length (LayoutSnapshot.placements
    (arrange LayoutOptions.dflt LayoutState.dflt narrow_view three_columns None).2) = 3%nat.
Proof.
  exact (proj1 (scroll_columns_apart LayoutOptions.dflt LayoutState.dflt narrow_view
    three_columns None three_columns_fit ltac:(discriminate))).
Defined.

(** The offset the engine stores stays between the two ends of the content
    and is stable: arranging again from the stored state, with the same area,
    items and focus, returns the same state and the same placements. *)
Theorem scroll_offset_stable options state area items focused :
  scroll_fits options area items → items ≠ [] →
  let '(state', snapshot) := arrange options state area items focused in
  offset_range area (content_extent options area items)
    (LayoutState.horizontal_offset state') ∧
  LayoutSnapshot.horizontal_offset snapshot = LayoutState.horizontal_offset state' ∧
  (arrange options state' area items focused).1 = state' ∧
  LayoutSnapshot.placements (arrange options state' area items focused).2
    = LayoutSnapshot.placements snapshot.
Proof.
  intros Hf Hne.
  destruct (arrange_state options area items Hf Hne state focused) as (Hs&Hp&Ho).
  destruct (arrange options state area items focused) as [state' snapshot]. simpl in *.
  subst state'. simpl. destruct (arrange_state options area items Hf Hne
    (LayoutState.new (scroll_offset options area items
      (LayoutState.horizontal_offset state) focused)) focused) as (->&->&_). simpl.
  rewrite scroll_offset_idempotent by done.
  split_and!; [by apply scroll_offset_range|done..].
Qed.

Lemma scroll_offset_stable_witness :
  let '(state', snapshot) :=
    arrange LayoutOptions.dflt LayoutState.dflt narrow_view three_columns (Some 2%nat) in
  LayoutState.horizontal_offset state' = -46 ∧
  (arrange LayoutOptions.dflt state' narrow_view three_columns (Some 2%nat)).1 = state'.
Proof.
  pose proof (scroll_offset_stable LayoutOptions.dflt LayoutState.dflt narrow_view
    three_columns (Some 2%nat) three_columns_fit ltac:(discriminate)) as H.
  destruct (arrange LayoutOptions.dflt LayoutState.dflt narrow_view three_columns
    (Some 2%nat)) as [state' snapshot] eqn:E.
  vm_compute in E. injection E as <- <-. split; [reflexivity|]. apply H.
Defined.

(** ** Every engine places every item *)

Lemma base_columns_length options area padding ih x mh items :
  length (base_columns options area padding ih x mh items).1.1 = length items.
Proof.
  pose proof (base_columns_spec options area padding ih x mh items) as H.
  destruct (base_columns _ _ _ _ _ _ _) as [[base xe] mh']. apply H.
Qed.

Lemma arrange_grid_length options state area items :
  Z.of_nat (length items) <= U32.MAX →
  length (LayoutSnapshot.placements (Policy.arrange_grid options state area items))
  = length items.
Proof.
  intros Hn. destruct items as [|item items'] eqn:E; [done|]. rewrite <- E in *.
  assert (Hpos : (0 < length items)%nat) by (subst; simpl; lia).
  destruct (integer_ceil_sqrt_spec (length items) Hpos) as ([Hc1 Hc2]&_&_); [ints; lia|].
  pose proof (grid_rows_enough (length items) _ Hc1) as [Hr1 Hr2].
  assert (Z.to_nat (div_ceil (Z.of_nat (length items))
    (Z.of_nat (Policy.integer_ceil_sqrt (length items)))) <= length items)%nat by nia.
  replace (LayoutSnapshot.placements (Policy.arrange_grid options state area items))
    with (Policy.grid_rows (LayoutOptions.gap options) area
      (Policy.split_tracks (Rect.width area)
         (Policy.integer_ceil_sqrt (length items)) (LayoutOptions.gap options))
      (Policy.split_tracks (Rect.height area)
         (Z.to_nat (div_ceil (Z.of_nat (length items))
            (Z.of_nat (Policy.integer_ceil_sqrt (length items)))))
         (LayoutOptions.gap options))
      (add_offset (Rect.y area) (LayoutOptions.gap options)) items)
    by (subst; reflexivity).
  destruct (grid_rows_spec (LayoutOptions.gap options) area
    (Policy.split_tracks (Rect.width area)
         (Policy.integer_ceil_sqrt (length items)) (LayoutOptions.gap options))
    (Policy.split_tracks (Rect.height area)
         (Z.to_nat (div_ceil (Z.of_nat (length items))
            (Z.of_nat (Policy.integer_ceil_sqrt (length items)))))
         (LayoutOptions.gap options))
    (add_offset (Rect.y area) (LayoutOptions.gap options)) items) as [-> _].
  unfold Policy.split_tracks. rewrite !split_evenly_length by lia. lia.
Qed.

Lemma arrange_master_stack_shape options state area master item stack :
  ∃ p sx sw y h,
    LayoutSnapshot.placements
      (Policy.arrange_master_stack options state area (master :: item :: stack))
    = p :: Policy.stack_column (LayoutOptions.gap options) area sx sw y (item :: stack)
        (Policy.split_tracks h (length (item :: stack)) (LayoutOptions.gap options)).
Proof.
  unfold Policy.arrange_master_stack, Policy.fixed_snapshot.
  cbn [LayoutSnapshot.placements]. do 5 eexists.
  with_strategy opaque [Policy.stack_column Policy.split_tracks Policy.place_in_cell]
    reflexivity.
Qed.

Lemma stack_column_length gap area sx sw y h items :
  Z.of_nat (length items) <= U32.MAX →
  length (Policy.stack_column gap area sx sw y items
    (Policy.split_tracks h (length items) gap)) = length items.
Proof.
  intros Hn. destruct (stack_column_spec gap area sx sw y items
    (Policy.split_tracks h (length items) gap)) as [-> _].
  unfold Policy.split_tracks. rewrite split_evenly_length by lia. lia.
Qed.

Lemma arrange_master_stack_length options state area items :
  Z.of_nat (length items) <= U32.MAX →
  length (LayoutSnapshot.placements (Policy.arrange_master_stack options state area items))
  = length items.
Proof.
  destruct items as [|master [|item stack]]; intros Hn.
  - reflexivity.
  - reflexivity.
  - destruct (arrange_master_stack_shape options state area master item stack)
      as (p&sx&sw&y&h&E).
    rewrite E, length_cons, stack_column_length.
    + reflexivity.
    + rewrite length_cons in Hn. lia.
Qed.

(** Every engine, from any previous state and for any area, returns exactly
    one placement per item, reports the area as its viewport and stores the
    offset it reports. *)
Lemma engine_places_every_item engine state area items focused :
  Z.of_nat (length items) <= U32.MAX →
  let '(state', snapshot) := LayoutEngine.arrange engine state area items focused in
  length (LayoutSnapshot.placements snapshot) = length items ∧
  LayoutSnapshot.viewport snapshot = area ∧
  LayoutSnapshot.horizontal_offset snapshot = LayoutState.horizontal_offset state'.
Proof.
  intros Hn. unfold LayoutEngine.arrange. destruct (LayoutEngine.kind engine).
  - destruct items as [|item items'] eqn:E; [done|]. rewrite <- E.
    pose proof (base_columns_length (LayoutEngine.options engine) area
      (Z.min (LayoutOptions.gap (LayoutEngine.options engine)) (Rect.width area / 2))
      (U32.saturating_sub (Rect.height area) (U32.saturating_mul
        (Z.min (LayoutOptions.gap (LayoutEngine.options engine)) (Rect.width area / 2)) 2))
      (add_offset (Rect.x area)
        (Z.min (LayoutOptions.gap (LayoutEngine.options engine)) (Rect.width area / 2)))
      0 items) as Hb.
    unfold arrange. rewrite E in Hb |- *.
    destruct (base_columns _ _ _ _ _ _ _) as [[base x] mh]. simpl in *.
    by rewrite length_map.
  - split; [by apply arrange_grid_length|]. by destruct items.
  - split; [by apply arrange_master_stack_length|]. by destruct items as [|? [|? ?]].
Qed.
