(* ===== verification/Scene.v ===== *)
(** * Scene snapshots of the compositor

    The value model of [apps/tensor-wm/src/scene]: appearance policies
    ([appearance.rs]), content spans ([content.rs]), effects, nodes and the
    immutable snapshot with its draw order and surface submissions
    ([model.rs]). Damage between two snapshots is in [Damage.v].

    [contents_for] slices the content table with a span that the extraction
    validated; the slice panics on a span that runs past the table. Operations
    that slice return an [option] whose [None] is that panic; the assertion on
    all spans in [with_content] exists in debug builds only. *)

From S2P Require Import Prelude Geometry Layout Surface.

(** ** Effects and appearance *)

Module UnitFraction.

Definition TRANSPARENT : Z := 0.

Definition OPAQUE : Z := 65535.

End UnitFraction.

Module LinearRgba16.

Record t := new { red : Z; green : Z; blue : Z; alpha : Z }.

#[global] Instance t_eq_dec : EqDecision t.
Proof. solve_decision. Defined.

End LinearRgba16.

Module FocusOutline.

Record t := mk { width : Z; color : LinearRgba16.t }.

#[global] Instance t_eq_dec : EqDecision t.
Proof. solve_decision. Defined.

Definition DEFAULT : t := mk 4 (LinearRgba16.new 32639 51400 65535 65535).

Definition visible (o : t) : bool :=
  (0 <? width o) && (0 <? LinearRgba16.alpha (color o)).

Definition bounds (o : t) (geometry : Rect.t) : option Rect.t :=
  if visible o then Some (Rect.inflated geometry (width o)) else None.

End FocusOutline.

Module ShadowStyle.

Record t := mk {
  offset_x : Z; offset_y : Z; blur_radius : Z; spread : Z;
  color : LinearRgba16.t }.

#[global] Instance t_eq_dec : EqDecision t.
Proof. solve_decision. Defined.

Definition bounds (s : t) (geometry : Rect.t) : option Rect.t :=
  if 0 <? LinearRgba16.alpha (color s) then
    Some (Rect.inflated (Rect.translated geometry (offset_x s) (offset_y s))
            (U32.saturating_add (blur_radius s) (spread s)))
  else None.

End ShadowStyle.

Module BackdropBlur.

Record t := mk { radius : Z }.

#[global] Instance t_eq_dec : EqDecision t.
Proof. solve_decision. Defined.

End BackdropBlur.

Module BackdropRegion.

Record t := mk { rects : list Rect.t }.

#[global] Instance t_eq_dec : EqDecision t.
Proof. solve_decision. Defined.

Definition new (rects : list Rect.t) : option t :=
  match rects with [] => None | _ => Some (mk rects) end.

End BackdropRegion.

Module EffectStyle.

Record t := mk {
  opacity : Z;
  corner_radius : Z;
  shadow : option ShadowStyle.t;
  backdrop_blur : option BackdropBlur.t }.

#[global] Instance t_eq_dec : EqDecision t.
Proof. solve_decision. Defined.

Definition dflt : t := mk UnitFraction.OPAQUE 0 None None.

Definition resolved_for (e : t) (geometry : Rect.t) : t :=
  let maximum_radius := Z.min (Rect.width geometry) (Rect.height geometry) / 2 in
  mk (opacity e) (Z.min (corner_radius e) maximum_radius) (shadow e) (backdrop_blur e).

End EffectStyle.

Module FocusRingStyle.

Record t := mk { enabled : bool; width : Z; color : LinearRgba16.t }.

#[global] Instance t_eq_dec : EqDecision t.
Proof. solve_decision. Defined.

Definition dflt : t :=
  mk true (FocusOutline.width FocusOutline.DEFAULT) (FocusOutline.color FocusOutline.DEFAULT).

Definition outline (r : t) : option FocusOutline.t :=
  if enabled r && (0 <? width r) && (0 <? LinearRgba16.alpha (color r))
  then Some (FocusOutline.mk (width r) (color r)) else None.

End FocusRingStyle.

Module WindowShadowStyle.

Record t := mk {
  enabled : bool; offset_x : Z; offset_y : Z; blur_radius : Z; spread : Z;
  color : LinearRgba16.t }.

#[global] Instance t_eq_dec : EqDecision t.
Proof. solve_decision. Defined.

Definition dflt : t := mk false 0 6 18 0 (LinearRgba16.new 0 0 0 28784).

Definition effect (s : t) : option ShadowStyle.t :=
  if enabled s && (0 <? LinearRgba16.alpha (color s)) then
    Some (ShadowStyle.mk (offset_x s) (offset_y s) (blur_radius s) (spread s) (color s))
  else None.

End WindowShadowStyle.

Module SceneAppearance.

Record t := mk {
  focus_ring : FocusRingStyle.t;
  window_shadow : WindowShadowStyle.t;
  window_corners : Z }.

#[global] Instance t_eq_dec : EqDecision t.
Proof. solve_decision. Defined.

Definition dflt : t := mk FocusRingStyle.dflt WindowShadowStyle.dflt 0.

End SceneAppearance.

(** ** Nodes *)

Module ContentSpan.

Record t := mk { start : Z; len : Z }.

#[global] Instance t_eq_dec : EqDecision t.
Proof. solve_decision. Defined.

Definition dflt : t := mk 0 0.

Definition new (start len : Z) : option t :=
  if (start <=? U32.MAX) && (len <=? U32.MAX) then Some (mk start len) else None.

Definition is_empty (s : t) : bool := len s =? 0.

(** [usize] is 64 bits wide. *)
Definition range (s : t) : option (Z * Z) :=
  if start s + len s <=? U64.MAX then Some (start s, start s + len s) else None.

Definition wf (s : t) : Prop := U32.ok (start s) ∧ U32.ok (len s).

End ContentSpan.

Module SceneNode.

Record t := mk {
  view_id : Z;
  stacking_order : Z;
  placement : LayoutPlacement.t;
  effects : EffectStyle.t;
  focus_outline : option FocusOutline.t;
  presentation_hint : SurfacePresentationHint.t;
  backdrop_region : option BackdropRegion.t;
  content : ContentSpan.t }.

#[global] Instance t_eq_dec : EqDecision t.
Proof. solve_decision. Defined.

Definition new (view_id stacking_order : Z) (placement : LayoutPlacement.t)
    (effects : EffectStyle.t) : t :=
  mk view_id stacking_order placement
     (EffectStyle.resolved_for effects (LayoutPlacement.geometry placement))
     None SurfacePresentationHint.Vsync None ContentSpan.dflt.

Definition with_content (n : t) (c : ContentSpan.t) : t :=
  mk (view_id n) (stacking_order n) (placement n) (effects n)
     (focus_outline n) (presentation_hint n) (backdrop_region n) c.

Definition with_focus_outline (n : t) (o : option FocusOutline.t) : t :=
  mk (view_id n) (stacking_order n) (placement n) (effects n)
     (match o with
      | Some outline => if FocusOutline.visible outline then Some outline else None
      | None => None
      end)
     (presentation_hint n) (backdrop_region n) (content n).

Definition with_presentation_hint (n : t) (h : SurfacePresentationHint.t) : t :=
  mk (view_id n) (stacking_order n) (placement n) (effects n)
     (focus_outline n) h (backdrop_region n) (content n).

Definition with_backdrop_region (n : t) (r : option BackdropRegion.t) : t :=
  mk (view_id n) (stacking_order n) (placement n) (effects n)
     (focus_outline n) (presentation_hint n) r (content n).

Definition geometry (n : t) : Rect.t := LayoutPlacement.geometry (placement n).

Definition backdrop_regions (n : t) (viewport : Rect.t) : list Rect.t :=
  let visible :=
    v ← LayoutPlacement.visible (placement n); Rect.intersection v viewport in
  let complete :=
    match backdrop_region n with None => option_list visible | Some _ => [] end in
  let explicit :=
    match backdrop_region n with
    | None => []
    | Some region =>
        omap (λ r, v ← visible;
                   Rect.intersection
                     (Rect.translated r (Rect.x (geometry n)) (Rect.y (geometry n))) v)
             (BackdropRegion.rects region)
    end in
  complete ++ explicit.

(** The ink of a node before clipping. *)
Definition join (bounds : Rect.t) (extra : option Rect.t) : Rect.t :=
  match extra with Some r => Rect.union bounds r | None => bounds end.

Definition visual_bounds (n : t) (viewport : Rect.t) : option Rect.t :=
  if EffectStyle.opacity (effects n) =? UnitFraction.TRANSPARENT then None
  else
    let bounds := geometry n in
    let bounds := join bounds
      (s ← EffectStyle.shadow (effects n); ShadowStyle.bounds s bounds) in
    let bounds := join bounds
      (o ← focus_outline n; FocusOutline.bounds o (geometry n)) in
    Rect.intersection bounds viewport.

Definition samples_background (n : t) : bool :=
  match EffectStyle.backdrop_blur (effects n) with Some _ => true | None => false end.

End SceneNode.

Module SceneSurfaceSubmission.

Record t := mk { surface_id : Z; view_id : Z; bounds : Rect.t }.

#[global] Instance t_eq_dec : EqDecision t.
Proof. solve_decision. Defined.

End SceneSurfaceSubmission.

(** ** Snapshots *)

Module SceneSnapshot.

Record t := mk {
  workspace_id : Z;
  viewport : Rect.t;
  nodes : list SceneNode.t;
  contents : list SurfaceContent.t;
  draw_order_indices : list Z;
  submitted_surfaces : list SceneSurfaceSubmission.t }.

#[global] Instance t_eq_dec : EqDecision t.
Proof. solve_decision. Defined.

(** [self.draw_order()]: every index is in range by construction. *)
Definition draw_order (s : t) : list SceneNode.t :=
  omap (λ index, nodes s !! Z.to_nat index) (draw_order_indices s).

(** [&self.contents[range]]; [None] when the slice panics. *)
Definition contents_for (s : t) (n : SceneNode.t) : option (list SurfaceContent.t) :=
  '(first, last) ← ContentSpan.range (SceneNode.content n);
  if last <=? Z.of_nat (length (contents s)) then
    Some (take (Z.to_nat (last - first)) (drop (Z.to_nat first) (contents s)))
  else None.

Definition destination (n : SceneNode.t) (c : SurfaceContent.t) : Rect.t :=
  Rect.translated (SurfaceContent.local_geometry c)
    (Rect.x (SceneNode.geometry n)) (Rect.y (SceneNode.geometry n)).

(** One step of the popup loop of [visual_bounds]. *)
Definition popup_bounds (s : t) (n : SceneNode.t) (bounds : option Rect.t)
    (c : SurfaceContent.t) : option Rect.t :=
  match SurfaceContent.layer c with
  | SurfaceLayer.View => bounds
  | SurfaceLayer.Popup =>
      match Rect.intersection (destination n c) (viewport s) with
      | None => bounds
      | Some popup =>
          Some (match bounds with
                | Some bounds => Rect.union bounds popup
                | None => popup
                end)
      end
  end.

Definition visual_bounds (s : t) (n : SceneNode.t) : option (option Rect.t) :=
  let bounds := SceneNode.visual_bounds n (viewport s) in
  if EffectStyle.opacity (SceneNode.effects n) =? UnitFraction.TRANSPARENT
  then Some None
  else
    contents ← contents_for s n;
    Some (foldl (popup_bounds s n) bounds contents).

Definition submitted_content_bounds (s : t) (n : SceneNode.t)
    (c : SurfaceContent.t) : option Rect.t :=
  let dest := destination n c in
  match SurfaceContent.layer c with
  | SurfaceLayer.View =>
      clip ← LayoutPlacement.visible (SceneNode.placement n);
      Rect.intersection dest clip
  | SurfaceLayer.Popup => Rect.intersection dest (viewport s)
  end.

(** The [entry] update of one content of one node. *)
Definition submit_content (s : t) (n : SceneNode.t)
    (submitted : gmap Z SceneSurfaceSubmission.t) (c : SurfaceContent.t) :
    gmap Z SceneSurfaceSubmission.t :=
  match submitted_content_bounds s n c with
  | None => submitted
  | Some content_bounds =>
      let id := SurfaceContent.surface_id c in
      let bounds :=
        match submitted !! id with
        | Some surface => Rect.union (SceneSurfaceSubmission.bounds surface) content_bounds
        | None => content_bounds
        end in
      <[id := SceneSurfaceSubmission.mk id (SceneNode.view_id n) bounds]> submitted
  end.

Definition submit_node (s : t) (submitted : gmap Z SceneSurfaceSubmission.t)
    (n : SceneNode.t) : option (gmap Z SceneSurfaceSubmission.t) :=
  bounds ← visual_bounds s n;
  match bounds with
  | None => Some submitted
  | Some _ =>
      contents ← contents_for s n;
      Some (foldl (submit_content s n) submitted contents)
  end.

Fixpoint submit_nodes (s : t) (submitted : gmap Z SceneSurfaceSubmission.t)
    (ns : list SceneNode.t) : option (gmap Z SceneSurfaceSubmission.t) :=
  match ns with
  | [] => Some submitted
  | n :: ns => submitted ← submit_node s submitted n; submit_nodes s submitted ns
  end.

Definition build_surface_submissions (s : t) :
    option (list SceneSurfaceSubmission.t) :=
  submitted ← submit_nodes s ∅ (draw_order s);
  Some (sort_by_key SceneSurfaceSubmission.surface_id
          (snd <$> map_to_list submitted)).

(** The sort keys of [nodes] and of [draw_order]. The second one is only
    evaluated on indices of [nodes]. *)
Definition draw_key (ns : list SceneNode.t) (index : Z) : Z * Z :=
  match ns !! Z.to_nat index with
  | Some n => (SceneNode.stacking_order n, SceneNode.view_id n)
  | None => (0, 0)
  end.

Definition with_content (workspace_id : Z) (viewport : Rect.t)
    (ns : list SceneNode.t) (cs : list SurfaceContent.t) : option t :=
  let ns := sort_by_key SceneNode.view_id ns in
  let indices := (λ index, U32.of_or_max (Z.of_nat index)) <$> seq 0 (length ns) in
  let order := sort_by_key (draw_key ns) indices in
  let scene := mk workspace_id viewport ns cs order [] in
  submitted ← build_surface_submissions scene;
  Some (mk workspace_id viewport ns cs order submitted).

Definition new (workspace_id : Z) (viewport : Rect.t) (ns : list SceneNode.t) :
    option t :=
  with_content workspace_id viewport ns [].

(** Imported images in table order, each once. *)
Fixpoint unseen_buffers (seen : gset Z) (cs : list SurfaceContent.t) : list Z :=
  match cs with
  | [] => []
  | c :: cs =>
      let id := SurfaceContent.buffer_id c in
      if decide (id ∈ seen) then unseen_buffers seen cs
      else id :: unseen_buffers ({[id]} ∪ seen) cs
  end.

Definition buffer_ids (s : t) : list Z := unseen_buffers ∅ (contents s).

End SceneSnapshot.

Import SceneSnapshot.

(** ** Examples from the source's tests *)

Definition full_placement : LayoutPlacement.t :=
  LayoutPlacement.mk (Rect.new 0 0 100 100) (Some (Rect.new 0 0 100 100)).

Example stable_nodes_and_draw_order_are_independent :
  (s ← SceneSnapshot.new 1 (Rect.new 0 0 100 100)
         [SceneNode.new 2 1 full_placement EffectStyle.dflt;
          SceneNode.new 1 2 full_placement EffectStyle.dflt];
   Some (SceneNode.view_id <$> nodes s, SceneNode.view_id <$> draw_order s))
  = Some ([1; 2], [2; 1]).
Proof. vm_compute. reflexivity. Qed.

Example visual_bounds_include_shadow :
  SceneNode.visual_bounds
    (SceneNode.new 1 0
       (LayoutPlacement.mk (Rect.new 20 20 40 20) (Some (Rect.new 20 20 40 20)))
       (EffectStyle.mk UnitFraction.OPAQUE 100
          (Some (ShadowStyle.mk 5 3 4 2 (LinearRgba16.new 0 0 0 65535))) None))
    (Rect.new 0 0 100 100) = Some (Rect.new 19 17 52 32).
Proof. vm_compute. reflexivity. Qed.

Definition popup_content (geometry : Rect.t) : SurfaceContent.t :=
  SurfaceContent.mk 1 1 1 SurfaceLayer.Popup SurfaceAlpha.OPAQUE
    SurfaceColorState.dflt geometry SurfaceSampleTransform.IDENTITY.

Definition popup_node : SceneNode.t :=
  SceneNode.with_content
    (SceneNode.new 1 0
       (LayoutPlacement.mk (Rect.new 10 10 20 20) (Some (Rect.new 10 10 20 20)))
       EffectStyle.dflt)
    (ContentSpan.mk 0 1).

Example popup_content_extends_visual_bounds :
  (s ← with_content 1 (Rect.new 0 0 100 100) [popup_node]
         [popup_content (Rect.new 20 5 10 10)];
   visual_bounds s popup_node) = Some (Some (Rect.new 10 10 30 20)).
Proof. vm_compute. reflexivity. Qed.

(** ** Content spans *)

Definition span_ok (cs : list SurfaceContent.t) (n : SceneNode.t) : Prop :=
  let span := SceneNode.content n in
  ContentSpan.wf span ∧
  ContentSpan.start span + ContentSpan.len span <= Z.of_nat (length cs).

Lemma contents_for_Some s n :
  span_ok (contents s) n →
  contents_for s n =
    Some (take (Z.to_nat (ContentSpan.len (SceneNode.content n)))
            (drop (Z.to_nat (ContentSpan.start (SceneNode.content n))) (contents s))).
Proof.
  intros [[Hs Hl] Hle]. unfold contents_for, ContentSpan.range.
  rewrite (proj2 (Z.leb_le _ _)) by (ints; lia). simpl.
  rewrite (proj2 (Z.leb_le _ _)) by done. do 3 f_equal. lia.
Qed.

Lemma contents_for_sub s n cs c :
  contents_for s n = Some cs → c ∈ cs → c ∈ contents s.
Proof.
  unfold contents_for. destruct (ContentSpan.range _) as [[first last]|]; simpl; [|done].
  destruct (_ <=? _); intros [= <-]. intros Hc.
  apply list_elem_of_lookup in Hc as [i Hi].
  apply lookup_take_Some in Hi as [Hi _]. rewrite lookup_drop in Hi.
  by eapply list_elem_of_lookup_2.
Qed.

Lemma visual_bounds_total s n :
  span_ok (contents s) n → is_Some (visual_bounds s n).
Proof.
  intros Hn. unfold visual_bounds. destruct (_ =? _); [by eauto|].
  rewrite (contents_for_Some s n Hn). by eauto.
Qed.

(** ** Submissions as a fold over events

    The entry updates of [build_surface_submissions] in the order they
    happen: one event per visible content of a visible node. *)

Definition node_events (s : t) (n : SceneNode.t) (cs : list SurfaceContent.t) :
    list SceneSurfaceSubmission.t :=
  omap (λ c, r ← submitted_content_bounds s n c;
             Some (SceneSurfaceSubmission.mk (SurfaceContent.surface_id c)
                     (SceneNode.view_id n) r)) cs.

Definition visible_events (s : t) (n : SceneNode.t) :
    option (list SceneSurfaceSubmission.t) :=
  bounds ← visual_bounds s n;
  match bounds with
  | None => Some []
  | Some _ => cs ← contents_for s n; Some (node_events s n cs)
  end.

Definition merge_entry (old : option SceneSurfaceSubmission.t)
    (e : SceneSurfaceSubmission.t) : SceneSurfaceSubmission.t :=
  SceneSurfaceSubmission.mk (SceneSurfaceSubmission.surface_id e)
    (SceneSurfaceSubmission.view_id e)
    (extend (SceneSurfaceSubmission.bounds <$> old) (SceneSurfaceSubmission.bounds e)).

Definition record_event (m : gmap Z SceneSurfaceSubmission.t)
    (e : SceneSurfaceSubmission.t) : gmap Z SceneSurfaceSubmission.t :=
  <[SceneSurfaceSubmission.surface_id e :=
      merge_entry (m !! SceneSurfaceSubmission.surface_id e) e]> m.

Lemma submit_contents_events s n m cs :
  foldl (submit_content s n) m cs = foldl record_event m (node_events s n cs).
Proof.
  revert m. induction cs as [|c cs IH]; intros m; simpl; [done|].
  rewrite IH. unfold submit_content, node_events. simpl.
  destruct (submitted_content_bounds s n c); simpl; [|done].
  f_equal. unfold record_event, merge_entry; simpl. by destruct (m !! _).
Qed.

Fixpoint all_events (s : t) (ns : list SceneNode.t) :
    option (list SceneSurfaceSubmission.t) :=
  match ns with
  | [] => Some []
  | n :: ns => es ← visible_events s n; rest ← all_events s ns; Some (es ++ rest)
  end.

Lemma submit_nodes_events s m ns :
  submit_nodes s m ns = (λ es, foldl record_event m es) <$> all_events s ns.
Proof.
  revert m. induction ns as [|n ns IH]; intros m; simpl; [done|].
  unfold submit_node, visible_events.
  destruct (visual_bounds s n) as [[b|]|]; simpl; [|rewrite IH; by destruct (all_events s ns)|done].
  destruct (contents_for s n) as [cs|]; simpl; [|done].
  rewrite IH, submit_contents_events.
  destruct (all_events s ns); simpl; [|done]. by rewrite foldl_app.
Qed.

Lemma all_events_total s ns :
  Forall (span_ok (contents s)) ns → is_Some (all_events s ns).
Proof.
  induction 1 as [|n ns Hn _ [es IH]]; simpl; [by eauto|].
  unfold visible_events. destruct (visual_bounds_total s n Hn) as [[b|] ->]; simpl.
  - rewrite (contents_for_Some s n Hn), IH. simpl. by eauto.
  - rewrite IH. simpl. by eauto.
Qed.

(** ** Construction *)

Definition order_key (n : SceneNode.t) : Z * Z :=
  (SceneNode.stacking_order n, SceneNode.view_id n).

Definition node_indices (ns : list SceneNode.t) : list Z :=
  (λ index, U32.of_or_max (Z.of_nat index)) <$> seq 0 (length ns).

Lemma omap_lookup_indices (ns : list SceneNode.t) :
  Z.of_nat (length ns) <= U32.MAX →
  omap (λ i, ns !! Z.to_nat i) (node_indices ns) = ns.
Proof.
  intros Hlen.
  assert (Hgen : ∀ pre post, pre ++ post = ns →
    omap (λ i, ns !! Z.to_nat i)
      ((λ i, U32.of_or_max (Z.of_nat i)) <$> seq (length pre) (length post)) = post).
  { intros pre post. revert pre. induction post as [|n post IH]; intros pre Heq; [done|].
    subst ns. rewrite length_app in Hlen. simpl in *.
    rewrite u32_of_or_max_id by (ints; lia).
    rewrite Nat2Z.id, list_lookup_middle by done. f_equal.
    specialize (IH (pre ++ [n])). rewrite length_app in IH. simpl in IH.
    rewrite Nat.add_1_r in IH. rewrite <- app_assoc in IH. by apply IH. }
  by apply (Hgen [] ns).
Qed.

Lemma omap_StronglySorted {A B} (f : A → option B) (R : relation A) (R' : relation B) l :
  (∀ a b x y, a ∈ l → b ∈ l → R a b → f a = Some x → f b = Some y → R' x y) →
  StronglySorted R l → StronglySorted R' (omap f l).
Proof.
  intros Hf Hs. induction Hs as [|a l Hl IH Ha]; simpl; [constructor|].
  assert (IH' : StronglySorted R' (omap f l))
    by (apply IH; intros b c x y Hb Hc; apply Hf; by right).
  destruct (f a) as [x|] eqn:E; [|done]. constructor; [done|].
  apply Forall_forall. intros y (b&Hb&Hy)%list_elem_of_omap.
  rewrite Forall_forall in Ha. apply (Hf a b x y); [by left|by right|by apply Ha|done|done].
Qed.

(** The scene before its submissions are known. *)
Definition bare_scene (ws : Z) (v : Rect.t) (ns : list SceneNode.t)
    (cs : list SurfaceContent.t) : t :=
  let ns := sort_by_key SceneNode.view_id ns in
  mk ws v ns cs (sort_by_key (draw_key ns) (node_indices ns)) [].

Lemma bare_draw_order ws v ns cs :
  Z.of_nat (length ns) <= U32.MAX →
  draw_order (bare_scene ws v ns cs) ≡ₚ ns ∧
  StronglySorted (by_key order_key) (draw_order (bare_scene ws v ns cs)).
Proof.
  intros Hlen. unfold draw_order, bare_scene; simpl.
  set (ks := sort_by_key SceneNode.view_id ns).
  assert (Hks : ks ≡ₚ ns) by apply sort_by_key_perm.
  assert (Z.of_nat (length ks) <= U32.MAX) by by rewrite Hks.
  split.
  - rewrite sort_by_key_perm, omap_lookup_indices by done. done.
  - eapply omap_StronglySorted; [|apply sort_by_key_sorted].
    intros a b x y _ _ Hab Ha Hb. unfold by_key, draw_key in *. by rewrite Ha, Hb in Hab.
Qed.

(** The events of a scene do not depend on its stored submissions. *)
Lemma with_content_eq ws v ns cs :
  with_content ws v ns cs =
    (λ es, let b := bare_scene ws v ns cs in
       mk ws v (nodes b) cs (draw_order_indices b)
         (sort_by_key SceneSurfaceSubmission.surface_id
            (snd <$> map_to_list (foldl record_event ∅ es))))
    <$> all_events (bare_scene ws v ns cs) (draw_order (bare_scene ws v ns cs)).
Proof.
  unfold with_content, build_surface_submissions.
  change (mk _ _ _ _ _ []) with (bare_scene ws v ns cs).
  rewrite submit_nodes_events. by destruct (all_events _ _).
Qed.

(** Building a snapshot succeeds; the stored nodes are sorted by view and the
    draw order lists all of them by stacking order. *)
Lemma with_content_built ws v ns cs :
  Z.of_nat (length ns) <= U32.MAX → Forall (span_ok cs) ns →
  ∃ s, with_content ws v ns cs = Some s ∧
    workspace_id s = ws ∧ viewport s = v ∧ contents s = cs ∧
    nodes s = sort_by_key SceneNode.view_id ns ∧
    draw_order s ≡ₚ ns ∧ StronglySorted (by_key order_key) (draw_order s).
Proof.
  intros Hlen Hspan. destruct (bare_draw_order ws v ns cs Hlen) as [Hp Hs].
  destruct (all_events_total (bare_scene ws v ns cs) (draw_order (bare_scene ws v ns cs)))
    as [es Hes]; [by rewrite Hp|].
  eexists. by rewrite with_content_eq, Hes.
Qed.

(** Permutations of nodes with distinct views build the same snapshot. *)
Lemma with_content_perm ws v ns ns' cs :
  NoDup (SceneNode.view_id <$> ns) → ns' ≡ₚ ns →
  with_content ws v ns' cs = with_content ws v ns cs.
Proof.
  intros Hnd Hns'.
  assert (sort_by_key SceneNode.view_id ns' = sort_by_key SceneNode.view_id ns) as E.
  { apply sort_by_key_unique; [done| |apply sort_by_key_sorted].
    by rewrite sort_by_key_perm. }
  assert (bare_scene ws v ns' cs = bare_scene ws v ns cs) as E'
    by (unfold bare_scene; by rewrite E).
  by rewrite !with_content_eq, E'.
Qed.

(** building a snapshot from nodes with valid content spans never
    panics; the stored nodes are the given ones sorted by view, the draw order
    lists every node exactly once from the bottom of the stack to the top, and
    when the views are distinct the snapshot does not depend on the order in
    which the nodes were extracted. *)
Theorem with_content_canonical ws v ns cs :
  Z.of_nat (length ns) <= U32.MAX → Forall (span_ok cs) ns →
  ∃ s, with_content ws v ns cs = Some s ∧
    workspace_id s = ws ∧ viewport s = v ∧ contents s = cs ∧
    nodes s ≡ₚ ns ∧ StronglySorted (by_key SceneNode.view_id) (nodes s) ∧
    draw_order s ≡ₚ ns ∧ StronglySorted (by_key order_key) (draw_order s) ∧
    (NoDup (SceneNode.view_id <$> ns) → ∀ ns', ns' ≡ₚ ns →
       with_content ws v ns' cs = Some s).
Proof.
  intros Hlen Hspan.
  destruct (with_content_built ws v ns cs Hlen Hspan) as (s&Es&?&?&?&Hn&?&?).
  exists s. rewrite Hn. split_and!; try done; [apply sort_by_key_perm|apply sort_by_key_sorted|].
  intros Hnd ns' Hns'. by rewrite (with_content_perm ws v ns).
Qed.

Lemma with_content_canonical_witness :
  ∃ s, with_content 1 (Rect.new 0 0 100 100) [popup_node]
         [popup_content (Rect.new 20 5 10 10)] = Some s ∧ nodes s ≡ₚ [popup_node].
Proof.
  destruct (with_content_canonical 1 (Rect.new 0 0 100 100) [popup_node]
    [popup_content (Rect.new 20 5 10 10)]) as (s&E&_&_&_&Hn&_).
  - vm_compute; congruence.
  - constructor; [|constructor]. repeat split; vm_compute; congruence.
  - by exists s.
Defined.

(** ** Visual bounds *)

(** What a node paints before clipping: its geometry, shadow and focus
    ring. *)
Definition ink (n : SceneNode.t) : list Rect.t :=
  let g := SceneNode.geometry n in
  g :: option_list (s ← EffectStyle.shadow (SceneNode.effects n); ShadowStyle.bounds s g)
    ++ option_list (o ← SceneNode.focus_outline n; FocusOutline.bounds o g).

Definition popup_rects (s : t) (n : SceneNode.t) (cs : list SurfaceContent.t) :
    list Rect.t :=
  omap (λ c, match SurfaceContent.layer c with
             | SurfaceLayer.View => None
             | SurfaceLayer.Popup => Rect.intersection (destination n c) (viewport s)
             end) cs.

Lemma popup_bounds_fold s n b cs :
  foldl (popup_bounds s n) b cs = extend_all b (popup_rects s n cs).
Proof.
  revert b. induction cs as [|c cs IH]; intros b; simpl; [done|].
  rewrite IH. unfold popup_bounds. destruct (SurfaceContent.layer c); [done|].
  by destruct (Rect.intersection _ _).
Qed.

Lemma shadow_bounds_wf sh g r :
  Rect.wf g → ShadowStyle.bounds sh g = Some r → Rect.wf r.
Proof.
  intros Hg. unfold ShadowStyle.bounds. destruct (_ <? _); intros [= <-].
  by apply inflated_wf, translated_wf.
Qed.

Lemma outline_bounds_wf o g r :
  Rect.wf g → FocusOutline.bounds o g = Some r → Rect.wf r.
Proof.
  intros Hg. unfold FocusOutline.bounds. destruct (FocusOutline.visible o); intros [= <-].
  by apply inflated_wf.
Qed.

Lemma ink_wf n : Rect.wf (SceneNode.geometry n) → Forall Rect.wf (ink n).
Proof.
  intros Hg. unfold ink. constructor; [done|]. apply Forall_app. split.
  - destruct (EffectStyle.shadow _) as [sh|]; simpl; [|constructor].
    destruct (ShadowStyle.bounds sh _) eqn:E; repeat constructor; try done.
    all: by eapply shadow_bounds_wf.
  - destruct (SceneNode.focus_outline n) as [o|]; simpl; [|constructor].
    destruct (FocusOutline.bounds o _) eqn:E; repeat constructor; try done.
    all: by eapply outline_bounds_wf.
Qed.

(** [visual_bounds] of a node clips the union of its ink. *)
Definition ink_union (n : SceneNode.t) : option Rect.t := extend_all None (ink n).

Lemma node_visual_bounds_ink n v :
  SceneNode.visual_bounds n v =
    if EffectStyle.opacity (SceneNode.effects n) =? UnitFraction.TRANSPARENT then None
    else b ← ink_union n; Rect.intersection b v.
Proof.
  unfold SceneNode.visual_bounds, ink_union, ink, extend_all. simpl.
  destruct (_ =? _); [done|].
  destruct (EffectStyle.shadow _) as [sh|], (SceneNode.focus_outline n) as [o|]; simpl; try done.
  - by destruct (ShadowStyle.bounds sh _), (FocusOutline.bounds o _).
  - by destruct (ShadowStyle.bounds sh _).
  - by destruct (FocusOutline.bounds o _).
Qed.

Lemma extend_all_wf b rs r :
  (∀ x, b = Some x → Rect.wf x) → Forall Rect.wf rs → extend_all b rs = Some r → Rect.wf r.
Proof.
  intros Hb Hrs. revert b Hb. induction Hrs as [|x rs Hx _ IH]; intros b Hb; simpl.
  - apply Hb.
  - apply IH. intros y [= <-]. destruct b as [b|]; simpl; [|done].
    apply union_wf; [by apply Hb|done].
Qed.

Lemma node_visual_bounds_inside n v r :
  Rect.wf v → Rect.wf (SceneNode.geometry n) →
  SceneNode.visual_bounds n v = Some r → inside v r.
Proof.
  rewrite node_visual_bounds_ink. intros Hv Hg. destruct (_ =? _); [done|].
  destruct (ink_union n) as [b|] eqn:E; simpl; [|done]. intros Hr.
  eapply intersection_inside; [|exact Hv|exact Hr].
  eapply (extend_all_wf None (ink n)); [done|by apply ink_wf|exact E].
Qed.

Definition contents_ok (s : t) : Prop :=
  Forall (λ c, Rect.wf (SurfaceContent.local_geometry c)) (contents s).

Lemma destination_wf s n cs c :
  contents_ok s → contents_for s n = Some cs → c ∈ cs → Rect.wf (destination n c).
Proof.
  intros Hok Hcs Hc. unfold contents_ok in Hok. rewrite Forall_forall in Hok.
  apply translated_wf, Hok. by eapply contents_for_sub.
Qed.

Lemma popup_rects_inside s n cs :
  Rect.wf (viewport s) → contents_ok s → contents_for s n = Some cs →
  Forall (inside (viewport s)) (popup_rects s n cs).
Proof.
  intros Hv Hok Hcs. apply Forall_forall. intros r (c&Hc&Hr)%list_elem_of_omap.
  destruct (SurfaceContent.layer c); [done|].
  eapply intersection_inside; [|exact Hv|exact Hr]. by eapply destination_wf.
Qed.

(** An opaque-enough node with valid spans has the hull of its clipped ink
    and of its clipped popups as visual bounds. *)
Lemma visual_bounds_hull s n :
  Rect.wf (viewport s) → Rect.wf (SceneNode.geometry n) → contents_ok s →
  span_ok (contents s) n →
  EffectStyle.opacity (SceneNode.effects n) ≠ UnitFraction.TRANSPARENT →
  ∃ b cs, visual_bounds s n = Some b ∧ contents_for s n = Some cs ∧
    is_hull (viewport s) b
      (option_list (SceneNode.visual_bounds n (viewport s)) ++ popup_rects s n cs).
Proof.
  intros Hv Hg Hok Hspan Hop. unfold visual_bounds.
  rewrite (proj2 (Z.eqb_neq _ _) Hop), (contents_for_Some s n Hspan). simpl.
  eexists _, _. split; [done|]. split; [done|]. rewrite popup_bounds_fold.
  apply is_hull_extend_all; [done| |by eapply popup_rects_inside, contents_for_Some].
  destruct (SceneNode.visual_bounds n _) as [r|] eqn:E; simpl; [|done].
  apply (is_hull_extend _ None []); [done..|]. by eapply node_visual_bounds_inside.
Qed.

(** [SceneSnapshot::visual_bounds] of a node that is not transparent
    stays inside the viewport and covers every on-screen pixel of the node's
    geometry, shadow and focus ring and of every popup it owns, whenever the
    node's own ink spans at most [i32::MAX] pixels; a transparent node has no
    bounds. *)
Theorem visual_bounds_cover s n f :
  Rect.wf (viewport s) → Rect.wf (SceneNode.geometry n) → contents_ok s →
  span_ok (contents s) n → Rect.wf f → Forall (inside f) (ink n) →
  ∃ b cs, visual_bounds s n = Some b ∧ contents_for s n = Some cs ∧
    (∀ h, b = Some h → inside (viewport s) h) ∧
    if EffectStyle.opacity (SceneNode.effects n) =? UnitFraction.TRANSPARENT
    then b = None
    else ∀ px py, Rect.mem (viewport s) px py →
      (∃ r, r ∈ ink n ∧ Rect.mem r px py) ∨
      (∃ c, c ∈ cs ∧ SurfaceContent.layer c = SurfaceLayer.Popup ∧
            Rect.mem (destination n c) px py) →
      ∃ h, b = Some h ∧ Rect.mem h px py.
Proof.
  intros Hv Hg Hok Hspan Hf Hink.
  destruct (Z.eqb_spec (EffectStyle.opacity (SceneNode.effects n)) UnitFraction.TRANSPARENT)
    as [Hop|Hop].
  { eexists None, _. split; [unfold visual_bounds; by rewrite Hop|].
    split; [by apply contents_for_Some|]. done. }
  destruct (visual_bounds_hull s n) as (b&cs&Hb&Hcs&Hh); [done..|].
  exists b, cs. split_and!; [done..| |].
  { intros h ->. by destruct Hh as (_&?&_). }
  intros px py Hpv [(r&Hr&Hm)|(c&Hc&Hl&Hm)].
  - assert (is_hull f (ink_union n) ([] ++ ink n)) as Hu by by apply is_hull_extend_all.
    destruct (is_hull_mem f _ _ r px py Hu Hr Hm) as (u&Eu&Hmu).
    assert (Hwu : inside f u) by (rewrite Eu in Hu; by destruct Hu as (_&?&_)).
    assert (SceneNode.visual_bounds n (viewport s) = Rect.intersection u (viewport s)) as Ei
      by (rewrite node_visual_bounds_ink, (proj2 (Z.eqb_neq _ _) Hop); by rewrite Eu).
    rewrite Ei in Hh. destruct (Rect.intersection u (viewport s)) as [i|] eqn:E.
    + eapply is_hull_mem; [exact Hh|left|].
      by apply (intersection_mem u (viewport s) i px py (inside_wf _ _ Hwu) Hv E).
    + apply intersection_None in E. exfalso. eauto using overlap_mem.
  - pose proof (destination_wf s n cs c Hok Hcs Hc) as Hwd.
    destruct (Rect.intersection (destination n c) (viewport s)) as [i|] eqn:E.
    + eapply is_hull_mem; [exact Hh| |].
      * apply elem_of_app. right. apply list_elem_of_omap. exists c. split; [done|].
        by rewrite Hl.
      * by apply (intersection_mem (destination n c) (viewport s) i px py Hwd Hv E).
    + apply intersection_None in E. exfalso. eauto using overlap_mem.
Qed.

Lemma visual_bounds_cover_witness :
  ∃ h, visual_bounds
         (bare_scene 1 (Rect.new 0 0 100 100) [popup_node]
            [popup_content (Rect.new 20 5 10 10)]) popup_node = Some (Some h) ∧
       Rect.mem h 35 20.
Proof.
  destruct (visual_bounds_cover
    (bare_scene 1 (Rect.new 0 0 100 100) [popup_node] [popup_content (Rect.new 20 5 10 10)])
    popup_node (Rect.new 0 0 100 100)) as (b&cs&Hb&Hcs&_&Hc).
  - repeat split; vm_compute; congruence.
  - repeat split; vm_compute; congruence.
  - constructor; [|constructor]. repeat split; vm_compute; congruence.
  - repeat split; vm_compute; congruence.
  - repeat split; vm_compute; congruence.
  - constructor; [|constructor]. repeat split; vm_compute; congruence.
  - destruct (Hc 35 20) as (h&->&Hh).
    + repeat split; vm_compute; congruence.
    + right. exists (popup_content (Rect.new 20 5 10 10)).
      split; [|split; [done|repeat split; vm_compute; congruence]].
      injection Hcs as <-. left.
    + exists h. split; [exact Hb|exact Hh].
Defined.

(** ** Surface submissions *)

Definition same_surface (id : Z) (e : SceneSurfaceSubmission.t) : Prop :=
  SceneSurfaceSubmission.surface_id e = id.

#[export] Instance same_surface_dec id e : Decision (same_surface id e).
Proof. unfold same_surface. apply _. Defined.

Definition merge_all (o : option SceneSurfaceSubmission.t)
    (es : list SceneSurfaceSubmission.t) : option SceneSurfaceSubmission.t :=
  foldl (λ o e, Some (merge_entry o e)) o es.

Lemma record_events_lookup m es id :
  foldl record_event m es !! id = merge_all (m !! id) (filter (same_surface id) es).
Proof.
  revert m. induction es as [|e es IH]; intros m; simpl; [done|].
  rewrite IH, filter_cons. unfold record_event at 1.
  destruct (decide (same_surface id e)) as [E|E]; unfold same_surface in E.
  - subst id. rewrite lookup_insert_eq. done.
  - by rewrite lookup_insert_ne.
Qed.

Lemma merge_all_hull v o l es id :
  Rect.wf v → Forall (inside v) (SceneSurfaceSubmission.bounds <$> es) →
  Forall (same_surface id) es →
  is_hull v (SceneSurfaceSubmission.bounds <$> o) l →
  (∀ x, o = Some x → same_surface id x) →
  is_hull v (SceneSurfaceSubmission.bounds <$> merge_all o es)
    (l ++ (SceneSurfaceSubmission.bounds <$> es)) ∧
  (∀ x, merge_all o es = Some x → same_surface id x) ∧
  (∀ e, last es = Some e →
     SceneSurfaceSubmission.view_id <$> merge_all o es
     = Some (SceneSurfaceSubmission.view_id e)).
Proof.
  intros Hv. revert o l. induction es as [|e es IH]; intros o l Hin Hid Ho Hs; simpl.
  - split_and!; [by rewrite app_nil_r|done|done].
  - apply Forall_cons in Hin as [Hine Hin]. apply Forall_cons in Hid as [Hide Hid].
    destruct (IH (Some (merge_entry o e)) (SceneSurfaceSubmission.bounds e :: l))
      as (IH1&IH2&IH3); [done|done| |by intros x [= <-]|].
    { simpl. by apply is_hull_extend. }
    split_and!; [|done|].
    + eapply is_hull_perm; [|exact IH1]. simpl. by rewrite Permutation_middle.
    + intros e' He'. destruct es as [|e2 es]; [by injection He' as <-|].
      by apply IH3.
Qed.

Definition clips_ok (v : Rect.t) (n : SceneNode.t) : Prop :=
  ∀ clip, LayoutPlacement.visible (SceneNode.placement n) = Some clip → inside v clip.

Lemma inside_trans v a r : inside v a → inside a r → inside v r.
Proof. intros [? H1] [? H2]. split; [done|]. exact (contains_rect_trans _ _ _ H1 H2). Qed.

Lemma node_events_inside s n cs :
  Rect.wf (viewport s) → contents_ok s → clips_ok (viewport s) n →
  contents_for s n = Some cs →
  Forall (inside (viewport s)) (SceneSurfaceSubmission.bounds <$> node_events s n cs).
Proof.
  intros Hv Hok Hclip Hcs. apply Forall_fmap, Forall_forall.
  intros e (c&Hc&He)%list_elem_of_omap. pose proof (destination_wf s n cs c Hok Hcs Hc) as Hd.
  unfold submitted_content_bounds in He. destruct (SurfaceContent.layer c).
  - destruct (LayoutPlacement.visible _) as [clip|] eqn:Ec; simpl in He; [|done].
    destruct (Hclip clip Ec) as [Hwc ?].
    destruct (Rect.intersection (destination n c) clip) as [r|] eqn:Er; simplify_eq/=.
    exact (inside_trans _ clip r (Hclip clip Ec) (intersection_inside _ _ _ Hd Hwc Er)).
  - destruct (Rect.intersection (destination n c) (viewport s)) as [r|] eqn:Er;
      simplify_eq/=. exact (intersection_inside _ _ _ Hd Hv Er).
Qed.

Lemma all_events_inside s ns es :
  Rect.wf (viewport s) → contents_ok s → Forall (clips_ok (viewport s)) ns →
  all_events s ns = Some es →
  Forall (inside (viewport s)) (SceneSurfaceSubmission.bounds <$> es).
Proof.
  intros Hv Hok Hns. revert es. induction Hns as [|n ns Hn _ IH]; intros es; simpl.
  { by intros [= <-]. }
  unfold visible_events. destruct (visual_bounds s n) as [[b|]|]; simpl; [| |done].
  - destruct (contents_for s n) as [cs|] eqn:Ecs; simpl; [|done].
    destruct (all_events s ns) as [rest|]; simpl; intros [= <-].
    rewrite fmap_app. apply Forall_app. split; [by apply node_events_inside|by apply IH].
  - destruct (all_events s ns) as [rest|]; simpl; intros [= <-]. by apply IH.
Qed.

Lemma filter_same_surface id es : Forall (same_surface id) (filter (same_surface id) es).
Proof. apply Forall_forall. by intros e [? _]%list_elem_of_filter. Qed.

(** The table built from the events of a scene. *)
Lemma event_table_spec v es id :
  Rect.wf v → Forall (inside v) (SceneSurfaceSubmission.bounds <$> es) →
  let mine := filter (same_surface id) es in
  match foldl record_event ∅ es !! id with
  | None => mine = []
  | Some x =>
      SceneSurfaceSubmission.surface_id x = id ∧
      SceneSurfaceSubmission.view_id <$> last mine = Some (SceneSurfaceSubmission.view_id x) ∧
      is_hull v (Some (SceneSurfaceSubmission.bounds x))
        (SceneSurfaceSubmission.bounds <$> mine)
  end.
Proof.
  intros Hv Hin mine. rewrite record_events_lookup, lookup_empty. fold mine.
  destruct (merge_all_hull v None [] mine id) as (Hh&Hid&Hlast); try done.
  { apply Forall_fmap, Forall_forall. intros e [_ He]%list_elem_of_filter.
    rewrite Forall_fmap, Forall_forall in Hin. by apply Hin. }
  { apply filter_same_surface. }
  destruct (merge_all None mine) as [x|] eqn:Ex; simpl in Hh.
  - split; [by apply Hid|split; [|exact Hh]].
    destruct (last mine) as [e|] eqn:El; simpl; [by rewrite <- (Hlast e eq_refl)|].
    apply last_None in El. by rewrite El in Ex.
  - by apply fmap_nil_inv in Hh.
Qed.

Lemma values_sorted_unique (m : gmap Z SceneSurfaceSubmission.t) :
  (∀ k x, m !! k = Some x → SceneSurfaceSubmission.surface_id x = k) →
  NoDup (SceneSurfaceSubmission.surface_id <$>
           sort_by_key SceneSurfaceSubmission.surface_id (snd <$> map_to_list m)).
Proof.
  intros Hm. rewrite sort_by_key_perm.
  assert (SceneSurfaceSubmission.surface_id <$> (snd <$> map_to_list m)
          = fst <$> map_to_list m) as ->; [|apply NoDup_fst_map_to_list].
  rewrite <- list_fmap_compose. apply list_fmap_ext. intros i [k x] Hi. simpl.
  apply Hm, elem_of_map_to_list. by eapply list_elem_of_lookup_2.
Qed.

(** Events only read the viewport and the content table. *)
Lemma all_events_ext s s' ns :
  viewport s = viewport s' → contents s = contents s' →
  all_events s ns = all_events s' ns.
Proof.
  destruct s, s'; simpl; intros -> ->.
  induction ns as [|n ns IH]; simpl; [done|]. by rewrite IH.
Qed.

(** the surface submissions of a snapshot are prepared exactly once per
    surface with visible content, in ascending surface order: the entry of a
    surface names the view of its topmost visible occurrence and its bounds
    are the least rectangle covering every visible clipped occurrence, inside
    the viewport; a surface without visible content has no entry. *)
Theorem submissions_exact ws v ns cs s :
  Z.of_nat (length ns) <= U32.MAX → Rect.wf v →
  Forall (λ c, Rect.wf (SurfaceContent.local_geometry c)) cs →
  Forall (span_ok cs) ns → Forall (clips_ok v) ns →
  with_content ws v ns cs = Some s →
  ∃ es, all_events s (draw_order s) = Some es ∧
    StronglySorted (by_key SceneSurfaceSubmission.surface_id) (submitted_surfaces s) ∧
    NoDup (SceneSurfaceSubmission.surface_id <$> submitted_surfaces s) ∧
    (∀ x, x ∈ submitted_surfaces s →
      let mine := filter (same_surface (SceneSurfaceSubmission.surface_id x)) es in
      SceneSurfaceSubmission.view_id <$> last mine = Some (SceneSurfaceSubmission.view_id x) ∧
      is_hull v (Some (SceneSurfaceSubmission.bounds x))
        (SceneSurfaceSubmission.bounds <$> mine)) ∧
    ∀ e, e ∈ es → ∃ x, x ∈ submitted_surfaces s ∧
      same_surface (SceneSurfaceSubmission.surface_id e) x.
Proof.
  intros Hlen Hv Hcs Hspan Hclip Hs. destruct (bare_draw_order ws v ns cs Hlen) as [Hp _].
  rewrite with_content_eq in Hs.
  destruct (all_events (bare_scene ws v ns cs) _) as [es|] eqn:Hes; [|done].
  injection Hs as <-. exists es. split; [by rewrite <- Hes; apply all_events_ext|]. simpl.
  set (m := foldl record_event ∅ es).
  assert (Hin : Forall (inside v) (SceneSurfaceSubmission.bounds <$> es)).
  { eapply (all_events_inside (bare_scene ws v ns cs)); [done|done| |exact Hes].
    by rewrite Hp. }
  assert (Hm : ∀ k x, m !! k = Some x → SceneSurfaceSubmission.surface_id x = k).
  { intros k x Hk. pose proof (event_table_spec v es k Hv Hin) as H. fold m in H.
    rewrite Hk in H. apply H. }
  split_and!; [apply sort_by_key_sorted|by apply values_sorted_unique| |].
  - intros x Hx. rewrite sort_by_key_elem in Hx.
    apply list_elem_of_fmap in Hx as ([k y]&->&Hk%elem_of_map_to_list). simpl.
    pose proof (event_table_spec v es k Hv Hin) as H. fold m in H.
    rewrite Hk in H. rewrite (Hm k y Hk). destruct H as (_&?&?). by split.
  - intros e He. pose proof (event_table_spec v es (SceneSurfaceSubmission.surface_id e) Hv Hin) as H.
    fold m in H. destruct (m !! SceneSurfaceSubmission.surface_id e) as [x|] eqn:Ex.
    + exists x. split; [|by destruct H]. rewrite sort_by_key_elem.
      apply list_elem_of_fmap. exists (SceneSurfaceSubmission.surface_id e, x).
      split; [done|]. by apply elem_of_map_to_list.
    + exfalso. eapply not_elem_of_nil. rewrite <- H. apply list_elem_of_filter. by split.
Qed.

Lemma submissions_exact_witness :
  ∃ s x, with_content 1 (Rect.new 0 0 100 100) [popup_node]
           [popup_content (Rect.new 20 5 10 10)] = Some s ∧
    x ∈ submitted_surfaces s ∧ same_surface 1 x.
Proof.
  destruct (with_content 1 (Rect.new 0 0 100 100) [popup_node]
    [popup_content (Rect.new 20 5 10 10)]) as [s|] eqn:E; [|vm_compute in E; congruence].
  destruct (submissions_exact 1 (Rect.new 0 0 100 100) [popup_node]
    [popup_content (Rect.new 20 5 10 10)] s) as (es&Hes&_&_&_&H); [..|exact E|].
  - vm_compute; congruence.
  - repeat split; vm_compute; congruence.
  - constructor; [|constructor]. repeat split; vm_compute; congruence.
  - constructor; [|constructor]. repeat split; vm_compute; congruence.
  - constructor; [|constructor]. intros clip [= <-]. repeat split; vm_compute; congruence.
  - vm_compute in E. injection E as <-. vm_compute in Hes. injection Hes as <-.
    destruct (H (SceneSurfaceSubmission.mk 1 1 (Rect.new 30 15 10 10))) as (x&Hx&Hid);
      [by left|]. eexists _, x. split; [reflexivity|by split].
Defined.
