(* ===== verification/Damage.v ===== *)
(** * Damage between scene snapshots

    [apps/tensor-wm/src/scene/damage.rs]: the bounded set of damaged regions
    ([DamageSet]), its compaction, the difference of two snapshots and the
    propagation of damage through backdrop blur. A failed [expect] and the
    slice panic of [contents_for] are the [None] of an [option]. *)

From S2P Require Import Prelude Geometry Layout Surface Scene.

(** ** Damage sets *)

Module DamageSet.

(** A damage set is its [regions] vector. *)

Definition MAX_DAMAGE_REGIONS : Z := 64.

Definition DAMAGE_EXTENTS_FACTOR : Z := 2.

Definition rect_area (r : Rect.t) : Z := Rect.width r * Rect.height r.

Definition non_empty (r : Rect.t) : option Rect.t :=
  if (0 <? Rect.width r) && (0 <? Rect.height r) then Some r else None.

Definition full (viewport : Rect.t) : list Rect.t := option_list (non_empty viewport).

Definition is_full (ds : list Rect.t) (viewport : Rect.t) : bool := bool_decide (ds = [viewport]).

(** The [while] loop shared by [add] and [merge_cheapest_pair]: absorb every
    touching region into [region], restarting the scan after each one.
    [absorb_fuel] bounds the number of iterations. *)
Fixpoint absorb (fuel : nat) (index : nat) (region : Rect.t) (regions : list Rect.t) :
    Rect.t * list Rect.t :=
  match fuel with
  | O => (region, regions)
  | S fuel =>
      match regions !! index with
      | None => (region, regions)
      | Some r =>
          if Rect.touches_or_overlaps r region
          then absorb fuel 0 (Rect.union region r) (delete index regions)
          else absorb fuel (S index) region regions
      end
  end.

Definition absorb_fuel (n : nat) : nat := S (n * S n + n).

Definition absorb_all (region : Rect.t) (regions : list Rect.t) : list Rect.t :=
  let '(region, regions) := absorb (absorb_fuel (length regions)) 0 region regions in
  regions ++ [region].

(** The comparison key of [merge_cheapest_pair], ordered lexicographically. *)
Definition key : Type := Z * Z * nat * nat.

Definition key_lt (a b : key) : bool :=
  let '(a1, a2, a3, a4) := a in
  let '(b1, b2, b3, b4) := b in
  (a1 <? b1)
  || ((a1 =? b1) && ((a2 <? b2)
  || ((a2 =? b2) && ((a3 <? b3)%nat
  || ((a3 =? b3)%nat && (a4 <? b4)%nat))))).

Definition pair_key (i j : nat) (a b : Rect.t) : key :=
  let union := Rect.union a b in
  let source_area := U64.saturating_add (rect_area a) (rect_area b) in
  (U64.saturating_sub (rect_area union) source_area, rect_area union, i, j).

(** [(left, right, left region, right region)] in iteration order. *)
Definition region_pairs (ds : list Rect.t) : list (nat * nat * Rect.t * Rect.t) :=
  i ← seq 0 (length ds);
  j ← seq (S i) (length ds - S i);
  match ds !! i, ds !! j with
  | Some a, Some b => [(i, j, a, b)]
  | _, _ => []
  end.

Definition better (best : option (key * Rect.t)) (p : nat * nat * Rect.t * Rect.t) :
    option (key * Rect.t) :=
  let '(i, j, a, b) := p in
  let k := pair_key i j a b in
  if match best with None => true | Some (current, _) => key_lt k current end
  then Some (k, Rect.union a b) else best.

Definition merge_cheapest_pair (ds : list Rect.t) : option (list Rect.t) :=
  match foldl better None (region_pairs ds) with
  | None => None
  | Some ((_, _, i, j), merged) =>
      Some (absorb_all merged (delete i (delete j ds)))
  end.

(** [self.regions.iter().copied().reduce(Rect::union)]. *)
Definition extents (ds : list Rect.t) : option Rect.t :=
  match ds with [] => None | r :: rs => Some (foldl Rect.union r rs) end.

Definition damaged_area (ds : list Rect.t) : Z :=
  foldl (λ area r, U64.saturating_add area (rect_area r)) 0 ds.

Fixpoint merge_loop (fuel : nat) (ds : list Rect.t) : option (list Rect.t) :=
  if Z.of_nat (length ds) <=? MAX_DAMAGE_REGIONS then Some ds
  else match fuel with
       | O => None
       | S fuel => ds ← merge_cheapest_pair ds; merge_loop fuel ds
       end.

Definition compact (ds : list Rect.t) : option (list Rect.t) :=
  e ← extents ds;
  if rect_area e <=? U64.saturating_mul (damaged_area ds) DAMAGE_EXTENTS_FACTOR
  then Some [e]
  else merge_loop (length ds) ds.

Definition add (ds : list Rect.t) (region viewport : Rect.t) : option (list Rect.t) :=
  match Rect.intersection region viewport with
  | None => Some ds
  | Some region =>
      let ds := absorb_all region ds in
      if MAX_DAMAGE_REGIONS <? Z.of_nat (length ds) then compact ds else Some ds
  end.

Definition region_key (r : Rect.t) : Z * Z := (Rect.y r, Rect.x r).

Definition sort (ds : list Rect.t) : list Rect.t := sort_by_key region_key ds.

Definition add_region (ds : list Rect.t) (region viewport : Rect.t) : option (list Rect.t) :=
  ds ← add ds region viewport; Some (sort ds).

(** The negated origin is an unchecked [i32] operation. *)
Definition to_physical (ds : list Rect.t) (logical_viewport physical_viewport : Rect.t)
    (scale : OutputScale.t) : list Rect.t :=
  omap (λ region,
    region ← Rect.intersection region logical_viewport;
    let region := Rect.translated region
      (I32.wrap (- Rect.x logical_viewport)) (I32.wrap (- Rect.y logical_viewport)) in
    Rect.intersection (OutputScale.physical_rect_cover scale region) physical_viewport) ds.

End DamageSet.

(** ** Difference of two snapshots *)

Module SceneDamage.

Definition add_node_bounds (damage : list Rect.t) (scene : SceneSnapshot.t)
    (node : SceneNode.t) : option (list Rect.t) :=
  bounds ← SceneSnapshot.visual_bounds scene node;
  match bounds with
  | Some bounds => DamageSet.add damage bounds (SceneSnapshot.viewport scene)
  | None => Some damage
  end.

(** [old != new || previous.contents_for(old) != current.contents_for(new)] *)
Definition differs (previous current : SceneSnapshot.t) (old new : SceneNode.t) :
    option bool :=
  if decide (old = new) then
    co ← SceneSnapshot.contents_for previous old;
    cn ← SceneSnapshot.contents_for current new;
    Some (negb (bool_decide (co = cn)))
  else Some true.

(** The [while] loop of [between] on the remaining nodes of both scenes; each
    iteration consumes a node. *)
Fixpoint walk (fuel : nat) (previous current : SceneSnapshot.t)
    (olds news : list SceneNode.t) (damage : list Rect.t) : option (list Rect.t) :=
  match fuel with
  | O => None
  | S fuel =>
      match olds, news with
      | old :: olds', new :: news' =>
          if SceneNode.view_id old =? SceneNode.view_id new then
            changed ← differs previous current old new;
            damage ←
              (if changed : bool then
                 damage ← add_node_bounds damage previous old;
                 add_node_bounds damage current new
               else Some damage);
            walk fuel previous current olds' news' damage
          else if SceneNode.view_id old <? SceneNode.view_id new then
            damage ← add_node_bounds damage previous old;
            walk fuel previous current olds' news damage
          else
            damage ← add_node_bounds damage current new;
            walk fuel previous current olds news' damage
      | old :: olds', [] =>
          damage ← add_node_bounds damage previous old;
          walk fuel previous current olds' [] damage
      | [], new :: news' =>
          damage ← add_node_bounds damage current new;
          walk fuel previous current [] news' damage
      | [], [] => Some damage
      end
  end.

(** One effect region in the loop of [propagate_background_dependencies]. *)
Definition propagate_region (viewport : Rect.t) (radius : Z)
    (st : list Rect.t * bool) (effect_region : Rect.t) :
    option (list Rect.t * bool) :=
  let '(damage, changed) := st in
  dependency ← Rect.intersection (Rect.inflated effect_region radius) viewport;
  if existsb (λ region, bool_decide (is_Some (Rect.intersection region dependency))) damage
     && negb (existsb (λ region, Rect.contains_rect region effect_region) damage)
  then damage ← DamageSet.add damage effect_region viewport; Some (damage, true)
  else Some (damage, changed).

Fixpoint fold_regions (viewport : Rect.t) (radius : Z)
    (st : list Rect.t * bool) (regions : list Rect.t) :
    option (list Rect.t * bool) :=
  match regions with
  | [] => Some st
  | r :: regions =>
      st ← propagate_region viewport radius st r;
      fold_regions viewport radius st regions
  end.

Definition positive_blur (node : SceneNode.t) : option Z :=
  blur ← EffectStyle.backdrop_blur (SceneNode.effects node);
  if 0 <? BackdropBlur.radius blur then Some (BackdropBlur.radius blur) else None.

Definition propagate_node (viewport : Rect.t) (st : list Rect.t * bool)
    (node : SceneNode.t) : option (list Rect.t * bool) :=
  if SceneNode.samples_background node then
    match positive_blur node with
    | None => Some st
    | Some radius =>
        fold_regions viewport radius st (SceneNode.backdrop_regions node viewport)
    end
  else Some st.

Fixpoint propagate_nodes (viewport : Rect.t) (st : list Rect.t * bool)
    (nodes : list SceneNode.t) : option (list Rect.t * bool) :=
  match nodes with
  | [] => Some st
  | n :: nodes =>
      st ← propagate_node viewport st n; propagate_nodes viewport st nodes
  end.

(** The [while changed] loop. *)
Fixpoint propagate (fuel : nat) (current : SceneSnapshot.t) (damage : list Rect.t) :
    option (list Rect.t) :=
  match fuel with
  | O => None
  | S fuel =>
      '(damage, changed) ←
        propagate_nodes (SceneSnapshot.viewport current) (damage, false)
          (SceneSnapshot.nodes current);
      if changed : bool then propagate fuel current damage else Some damage
  end.

(** Effect regions of the nodes in iteration order, with the radius of their
    node; each changing pass covers one of them for good. *)
Definition node_effects (v : Rect.t) (n : SceneNode.t) : list (Z * Rect.t) :=
  match positive_blur n with
  | None => []
  | Some radius => (λ r, (radius, r)) <$> SceneNode.backdrop_regions n v
  end.

Definition effect_regions (current : SceneSnapshot.t) : list (Z * Rect.t) :=
  SceneSnapshot.nodes current ≫= node_effects (SceneSnapshot.viewport current).

Definition propagate_background_dependencies (damage : list Rect.t)
    (current : SceneSnapshot.t) : option (list Rect.t) :=
  propagate (S (length (effect_regions current))) current damage.

Definition between (previous : option SceneSnapshot.t) (current : SceneSnapshot.t) :
    option (list Rect.t) :=
  match previous with
  | None => Some (DamageSet.full (SceneSnapshot.viewport current))
  | Some previous =>
      if negb (bool_decide (SceneSnapshot.workspace_id previous
                            = SceneSnapshot.workspace_id current))
         || negb (bool_decide (SceneSnapshot.viewport previous
                               = SceneSnapshot.viewport current))
      then Some (DamageSet.full (SceneSnapshot.viewport current))
      else
        let olds := SceneSnapshot.nodes previous in
        let news := SceneSnapshot.nodes current in
        damage ← walk (S (length olds + length news)) previous current olds news [];
        damage ← propagate_background_dependencies damage current;
        Some (DamageSet.sort damage)
  end.

(** [SceneSnapshot::damage_since]. *)
Definition damage_since (current : SceneSnapshot.t) (previous : option SceneSnapshot.t) :
    option (list Rect.t) := between previous current.

End SceneDamage.

Import DamageSet SceneDamage.

(** ** Regions of a damage set *)

Definition has_pixels (r : Rect.t) : Prop :=
  Rect.x r < Rect.right r ∧ Rect.y r < Rect.bottom r.

Lemma has_pixels_contains a b :
  Rect.contains_rect a b = true → has_pixels b → has_pixels a.
Proof. rewrite contains_rect_spec. unfold has_pixels. lia. Qed.

Lemma intersection_has_pixels a b r :
  Rect.wf a → Rect.wf b → Rect.intersection a b = Some r → has_pixels r.
Proof.
  intros Ha Hb Hr. destruct (intersection_Some a b r Ha Hb Hr) as ([]&?&?&?&?&_).
  unfold has_pixels. lia.
Qed.

(** A non-empty region inside the viewport. *)
Definition region_ok (v r : Rect.t) : Prop := inside v r ∧ has_pixels r.

Lemma intersection_region_ok a v r :
  Rect.wf a → Rect.wf v → Rect.intersection a v = Some r → region_ok v r.
Proof.
  intros Ha Hv Hr. split; [exact (intersection_inside _ _ _ Ha Hv Hr)|].
  exact (intersection_has_pixels _ _ _ Ha Hv Hr).
Qed.

Lemma hull_region_ok v h r l :
  is_hull v (Some h) l → r ∈ l → region_ok v r → region_ok v h.
Proof.
  intros (_&Hin&Hc&_) Hr [_ Hp]. split; [done|].
  rewrite Forall_forall in Hc. by eapply has_pixels_contains; [apply Hc|].
Qed.

(** Regions are pairwise separated: neither overlapping nor adjacent. *)
Definition separated (a b : Rect.t) : Prop := Rect.touches_or_overlaps a b = false.

Definition apart (ds : list Rect.t) : Prop := StronglySorted separated ds.

Lemma separated_comm a b : separated a b → separated b a.
Proof. unfold separated. by rewrite touches_comm. Qed.

Lemma apart_perm l k : l ≡ₚ k → apart l → apart k.
Proof.
  induction 1 as [|x l k Hp IH|x y l|l k m _ IH1 _ IH2]; intros Hs; [done|..].
  - apply StronglySorted_inv in Hs as [Hs Hx]. constructor; [by apply IH|].
    by rewrite <- Hp.
  - apply StronglySorted_inv in Hs as [Hs Hx]. apply StronglySorted_inv in Hs as [Hs Hy].
    apply Forall_cons in Hx as [Hxy Hx].
    constructor; [by constructor|constructor; [by apply separated_comm|done]].
  - auto.
Qed.

#[export] Instance apart_proper : Proper ((≡ₚ) ==> iff) apart.
Proof. intros l k Hp. split; apply apart_perm; by rewrite Hp. Qed.

Lemma apart_app_r l k : apart (l ++ k) → apart k.
Proof. induction l as [|x l IH]; simpl; [done|]. intros [? _]%StronglySorted_inv; auto. Qed.

(** Every region of [ds] lies in one region of [ds']. *)
Definition coarsens (ds ds' : list Rect.t) : Prop :=
  Forall (λ r, Exists (λ r', Rect.contains_rect r' r = true) ds') ds.

Definition covered (ds : list Rect.t) (r : Rect.t) : Prop :=
  Exists (λ r', Rect.contains_rect r' r = true) ds.

Lemma covered_coarsens ds ds' r : coarsens ds ds' → covered ds r → covered ds' r.
Proof.
  intros Hc (x&Hx&Hr)%Exists_exists. unfold coarsens in Hc. rewrite Forall_forall in Hc.
  apply Hc, Exists_exists in Hx as (y&Hy&Hyx). apply Exists_exists. exists y.
  split; [done|]. exact (contains_rect_trans _ _ _ Hyx Hr).
Qed.

#[export] Instance coarsens_preorder : PreOrder coarsens.
Proof.
  split.
  - intros ds. apply Forall_forall. intros r Hr. apply Exists_exists.
    exists r. split; [done|apply contains_rect_refl].
  - intros a b c Hab Hbc. apply Forall_forall. intros r Hr.
    eapply covered_coarsens; [exact Hbc|].
    unfold coarsens in Hab. rewrite Forall_forall in Hab. by apply Hab.
Qed.

Lemma coarsens_perm ds ds' : ds ≡ₚ ds' → coarsens ds ds'.
Proof.
  intros Hp. apply Forall_forall. intros r Hr. apply Exists_exists. exists r.
  split; [by rewrite <- Hp|apply contains_rect_refl].
Qed.

Lemma covered_perm ds ds' r : ds ≡ₚ ds' → covered ds r → covered ds' r.
Proof. intros Hp. by apply covered_coarsens, coarsens_perm. Qed.

Lemma covered_mem ds r px py :
  covered ds r → Rect.mem r px py → ∃ d, d ∈ ds ∧ Rect.mem d px py.
Proof.
  intros (d&Hd&Hc)%Exists_exists Hm. exists d. split; [done|].
  by eapply contains_rect_mem.
Qed.

(** ** The absorb loop *)

Lemma absorb_spec v fuel index r rs l :
  Rect.wf v → is_hull v (Some r) l → Forall (inside v) rs →
  (length rs * S (length rs) + (length rs - index) < fuel)%nat →
  (∀ j x, (j < index)%nat → rs !! j = Some x → separated x r) →
  let '(r', rs') := absorb fuel index r rs in
  ∃ gone, rs ≡ₚ gone ++ rs' ∧ is_hull v (Some r') (gone ++ l) ∧
    Forall (λ x, separated x r') rs'.
Proof.
  intros Hv. revert index r rs l.
  induction fuel as [|fuel IH]; intros index r rs l Hr Hrs Hf Hsep; [lia|].
  cbn [absorb].
  destruct (rs !! index) as [x|] eqn:Ex.
  - pose proof (lookup_lt_Some _ _ _ Ex) as Hlt.
    destruct (Rect.touches_or_overlaps x r) eqn:Et.
    + assert (Hx : inside v x) by exact (Forall_lookup_1 _ _ _ _ Hrs Ex).
      assert (Hlen : length (delete index rs) = (length rs - 1)%nat)
        by (apply length_delete; by eauto).
      specialize (IH 0%nat (Rect.union r x) (delete index rs) (x :: l)).
      destruct (absorb fuel 0 (Rect.union r x) (delete index rs)) as [r' rs'].
      destruct IH as (gone&Hp&Hh&Ha).
      * by apply (is_hull_extend v (Some r)).
      * by apply Forall_delete.
      * rewrite Hlen. destruct (length rs) as [|n]; simpl in *; lia.
      * lia.
      * exists (x :: gone). split; [|split; [|done]].
        -- rewrite (delete_Permutation rs index x Ex), Hp. done.
        -- eapply is_hull_perm; [|exact Hh]. simpl. by rewrite <- Permutation_middle.
    + specialize (IH (S index) r rs l).
      destruct (absorb fuel (S index) r rs) as [r' rs'].
      apply IH; [done|done|lia|].
      intros j y Hj Hy. destruct (decide (j = index)) as [->|]; [by simplify_eq|].
      eapply Hsep; [|done]. lia.
  - apply lookup_ge_None in Ex. exists []. split_and!; [done|done|].
    apply Forall_lookup. intros j y Hy. eapply Hsep; [|done].
    apply lookup_lt_Some in Hy. lia.
Qed.

(** Facts about a set of regions that every step keeps. *)
Definition regions_ok (v : Rect.t) (ds : list Rect.t) : Prop :=
  Forall (region_ok v) ds ∧ apart ds.

Lemma regions_inside v ds : Forall (region_ok v) ds → Forall (inside v) ds.
Proof. intros H. eapply Forall_impl; [exact H|]. by intros r [? _]. Qed.

Lemma absorb_all_spec v r rs :
  Rect.wf v → region_ok v r → regions_ok v rs →
  let ds := absorb_all r rs in
  regions_ok v ds ∧ coarsens (r :: rs) ds ∧ (0 < length ds <= S (length rs))%nat.
Proof.
  intros Hv Hr [Hrs Hap]. unfold absorb_all.
  pose proof (absorb_spec v (absorb_fuel (length rs)) 0 r rs [r] Hv) as H.
  destruct (absorb _ 0 r rs) as [r' rs']. simpl.
  destruct H as (gone&Hp&Hh&Hsep).
  - by apply (is_hull_extend v None []), Hr.
  - by apply regions_inside.
  - unfold absorb_fuel. lia.
  - lia.
  - assert (Hr' : region_ok v r').
    { eapply hull_region_ok; [exact Hh| |exact Hr]. apply elem_of_app. right. by left. }
    rewrite Hp in Hrs. apply Forall_app in Hrs as [_ Hrs].
    rewrite Hp in Hap. apply apart_app_r in Hap.
    split; [split|split].
    + apply Forall_app. by split; [|constructor].
    + rewrite <- Permutation_cons_append. constructor; [done|].
      eapply Forall_impl; [exact Hsep|]. intros x. apply separated_comm.
    + destruct Hh as (_&_&Hc&_). apply Forall_app in Hc as [Hcg Hcr].
      apply Forall_cons in Hcr as [Hcr _].
      assert (Hlast : ∀ x, Rect.contains_rect r' x = true → covered (rs' ++ [r']) x).
      { intros x Hx. apply Exists_app. right. by left. }
      constructor; [by apply Hlast|]. apply Forall_forall. intros x Hx.
      rewrite Hp in Hx. apply elem_of_app in Hx as [Hx|Hx].
      * apply Hlast. rewrite Forall_forall in Hcg. by apply Hcg.
      * apply Exists_exists. exists x. split; [|apply contains_rect_refl].
        apply elem_of_app. by left.
    + rewrite length_app, Hp, length_app. simpl. lia.
Qed.

(** ** Compaction *)

Lemma region_pairs_elem ds i j a b :
  (i, j, a, b) ∈ region_pairs ds →
  (i < j)%nat ∧ ds !! i = Some a ∧ ds !! j = Some b.
Proof.
  unfold region_pairs. intros (i'&H&Hi)%list_elem_of_bind.
  apply list_elem_of_bind in H as (j'&H&Hj). apply elem_of_seq in Hj.
  destruct (ds !! i') eqn:E1, (ds !! j') eqn:E2; try by apply elem_of_nil in H.
  apply list_elem_of_singleton in H. simplify_eq. split; [lia|done].
Qed.

Lemma region_pairs_nonempty ds : (2 <= length ds)%nat → region_pairs ds ≠ [].
Proof.
  intros Hl. destruct ds as [|a [|b ds]]; simpl in Hl; [lia..|].
  unfold region_pairs. simpl. discriminate.
Qed.

Definition scored (p : nat * nat * Rect.t * Rect.t) : key * Rect.t :=
  let '(i, j, a, b) := p in (pair_key i j a b, Rect.union a b).

Lemma best_pair_elem ps best x :
  foldl better best ps = Some x → best = Some x ∨ ∃ p, p ∈ ps ∧ x = scored p.
Proof.
  revert best. induction ps as [|p ps IH]; intros best; simpl; [by left|].
  intros [Hb|(q&Hq&->)]%IH.
  - destruct p as [[[i j] a] b]. unfold better in Hb.
    destruct (match best with None => true | Some (c, _) => _ end); [|by left].
    right. injection Hb as <-. exists (i, j, a, b). split; [by left|done].
  - right. exists q. split; [by right|done].
Qed.

Lemma best_pair_some ps best :
  is_Some best ∨ ps ≠ [] → is_Some (foldl better best ps).
Proof.
  revert best. induction ps as [|p ps IH]; intros best H; simpl; [by destruct H|].
  apply IH. left. destruct p as [[[i j] a] b]. unfold better.
  destruct best as [[c u]|]; [|by eauto]. destruct (key_lt _ c); by eauto.
Qed.

Lemma merge_cheapest_pair_spec v ds :
  Rect.wf v → regions_ok v ds → (2 <= length ds)%nat →
  ∃ ds', merge_cheapest_pair ds = Some ds' ∧ regions_ok v ds' ∧ coarsens ds ds' ∧
    (0 < length ds' < length ds)%nat.
Proof.
  intros Hv [Hok Hap] Hl. unfold merge_cheapest_pair.
  destruct (best_pair_some (region_pairs ds) None) as [x Hx];
    [right; by apply region_pairs_nonempty|].
  rewrite Hx. apply best_pair_elem in Hx as [|([[[i j] a] b]&Hp&->)]; [done|].
  apply region_pairs_elem in Hp as (Hij&Ha&Hb). simpl.
  set (rest := delete i (delete j ds)).
  assert (Hperm : ds ≡ₚ a :: b :: rest).
  { rewrite (delete_Permutation ds j b Hb).
    rewrite (delete_Permutation (delete j ds) i a); [by constructor|].
    by rewrite list_lookup_delete_lt. }
  rewrite Hperm in Hok. apply Forall_cons in Hok as [Hoa Hok].
  apply Forall_cons in Hok as [Hob Hok].
  assert (Hu : is_hull v (Some (Rect.union a b)) [b; a]).
  { apply (is_hull_extend v (Some a)); [done| |apply Hob].
    apply (is_hull_extend v None []); [done..|apply Hoa]. }
  destruct (absorb_all_spec v (Rect.union a b) rest Hv) as (Hok'&Hc&Hlen).
  - eapply hull_region_ok; [exact Hu|by left|done].
  - split; [done|]. rewrite Hperm in Hap. by apply (apart_app_r [a; b]).
  - eexists. split; [done|]. split; [done|]. split; [|].
    + transitivity (a :: b :: rest); [by apply coarsens_perm|].
      apply Forall_cons in Hc as [Hcu Hc]. destruct Hu as (_&_&Hcov&_).
      apply Forall_cons in Hcov as [Hub Hcov]. apply Forall_cons in Hcov as [Hua _].
      assert (Hin : ∀ x, Rect.contains_rect (Rect.union a b) x = true →
        covered (absorb_all (Rect.union a b) rest) x).
      { intros x Hx. eapply covered_coarsens; [|by left]. by constructor. }
      constructor; [by apply Hin|]. constructor; [by apply Hin|done].
    + rewrite Hperm. simpl. lia.
Qed.

Lemma merge_loop_spec v fuel ds :
  Rect.wf v → regions_ok v ds → ds ≠ [] → (length ds <= fuel + 64)%nat →
  ∃ ds', merge_loop fuel ds = Some ds' ∧ regions_ok v ds' ∧ coarsens ds ds' ∧
    (0 < length ds' <= 64)%nat.
Proof.
  intros Hv. revert ds. induction fuel as [|fuel IH]; intros ds Hok Hne Hf;
    assert (0 < length ds)%nat by (destruct ds; [done|simpl; lia]);
    unfold merge_loop; fold merge_loop; unfold MAX_DAMAGE_REGIONS.
  - rewrite (proj2 (Z.leb_le _ _)) by lia. exists ds. split_and!; [done..|lia|lia].
  - destruct (Z.leb_spec (Z.of_nat (length ds)) 64).
    + exists ds. split_and!; [done..|lia|lia].
    + destruct (merge_cheapest_pair_spec v ds Hv Hok) as (d1&->&Hok1&Hc1&Hlen); [lia|].
      destruct (IH d1 Hok1) as (d2&E2&Hok2&Hc2&Hlen2);
        [by destruct d1; [simpl in Hlen; lia|]|lia|].
      exists d2. split_and!; [done..|by transitivity d1|lia|lia].
Qed.

Lemma extents_hull v ds :
  Rect.wf v → Forall (inside v) ds → ds ≠ [] →
  ∃ e, extents ds = Some e ∧ is_hull v (Some e) ds.
Proof.
  intros Hv Hds Hne. destruct ds as [|r rs]; [done|]. apply Forall_cons in Hds as [Hr Hrs].
  eexists. split; [done|].
  assert (Hfold : ∀ b, extend_all (Some b) rs = Some (foldl Rect.union b rs)).
  { clear. induction rs as [|r rs IH]; intros b; simpl; [done|]. apply IH. }
  rewrite <- Hfold. apply (is_hull_extend_all v _ [r]); [done| |done].
  by apply (is_hull_extend v None []).
Qed.

Lemma compact_spec v ds :
  Rect.wf v → regions_ok v ds → ds ≠ [] →
  ∃ ds', compact ds = Some ds' ∧ regions_ok v ds' ∧ coarsens ds ds' ∧
    (0 < length ds' <= 64)%nat.
Proof.
  intros Hv Hok Hne. unfold compact.
  destruct (extents_hull v ds Hv) as (e&->&He); [by apply regions_inside, Hok|done|].
  simpl. destruct (_ <=? _).
  - exists [e]. split; [done|]. split; [|split; [|simpl; lia]].
    + split; [|by repeat constructor]. constructor; [|done].
      destruct ds as [|r rs]; [done|]. destruct Hok as [Hok _].
      apply Forall_cons in Hok as [Hr _]. by eapply hull_region_ok; [exact He|left|].
    + destruct He as (_&_&Hc&_). eapply Forall_impl; [exact Hc|]. intros r Hr. by left.
  - by apply merge_loop_spec; [| | |lia].
Qed.

(** Everything the operations guarantee about a damage set of a viewport. *)
Definition damage_ok (v : Rect.t) (ds : list Rect.t) : Prop :=
  regions_ok v ds ∧ (length ds <= 64)%nat.

Lemma damage_ok_nil v : damage_ok v [].
Proof. split; [split; constructor|simpl; lia]. Qed.

Lemma add_spec v ds r :
  Rect.wf v → damage_ok v ds → Rect.wf r →
  ∃ ds', add ds r v = Some ds' ∧ damage_ok v ds' ∧ coarsens ds ds' ∧
    ∀ c, Rect.intersection r v = Some c → covered ds' c.
Proof.
  intros Hv [Hok Hlen] Hr. unfold add.
  destruct (Rect.intersection r v) as [c|] eqn:Ec; [|by exists ds].
  assert (Hc : region_ok v c) by (by eapply (intersection_region_ok r)).
  destruct (absorb_all_spec v c ds Hv Hc Hok) as (Hok1&Hc1&Hl1).
  set (ds1 := absorb_all c ds) in *. apply Forall_cons in Hc1 as [Hcc Hc1].
  unfold MAX_DAMAGE_REGIONS. destruct (Z.ltb_spec 64 (Z.of_nat (length ds1))).
  - destruct (compact_spec v ds1 Hv Hok1) as (ds2&E2&Hok2&Hc2&Hl2);
      [by destruct ds1; [simpl in *; lia|]|].
    exists ds2. split; [done|]. split; [by split; [|lia]|].
    split; [by transitivity ds1|].
    intros ? [= <-]. by eapply covered_coarsens.
  - exists ds1. split; [done|]. split; [by split; [|lia]|]. split; [done|].
    by intros ? [= <-].
Qed.

(** [DamageSet::add] keeps a damage set of a viewport well formed (at
    most 64 non-empty regions inside the viewport, pairwise neither
    overlapping nor adjacent), never panics, loses no damage it already had,
    and covers the new region's on-screen part by a single region; in
    particular compaction never drops a damaged pixel. *)
Theorem damage_add_safe v ds r :
  Rect.wf v → damage_ok v ds → Rect.wf r →
  ∃ ds', add ds r v = Some ds' ∧ damage_ok v ds' ∧
    (∀ d, covered ds d → covered ds' d) ∧
    (∀ c, Rect.intersection r v = Some c → covered ds' c) ∧
    ∀ px py, Rect.mem v px py →
      (∃ d, d ∈ r :: ds ∧ Rect.mem d px py) → ∃ d, d ∈ ds' ∧ Rect.mem d px py.
Proof.
  intros Hv Hok Hr. destruct (add_spec v ds r Hv Hok Hr) as (ds'&E&Hok'&Hc&Hcr).
  exists ds'. split; [done|]. split; [done|].
  split; [intros d; by apply covered_coarsens|]. split; [done|].
  intros px py Hpv (d&[->|Hd]%elem_of_cons&Hm).
  - destruct (Rect.intersection r v) as [c|] eqn:Ec.
    + eapply covered_mem; [by apply Hcr|].
      by apply (intersection_mem r v c px py Hr Hv Ec).
    + exfalso. apply intersection_None in Ec. eauto using overlap_mem.
  - eapply covered_mem; [|exact Hm]. eapply covered_coarsens; [exact Hc|].
    apply Exists_exists. exists d. split; [done|apply contains_rect_refl].
Qed.

Lemma damage_add_safe_witness :
  add [Rect.new 10 10 20 20] (Rect.new 30 10 20 20) (Rect.new 0 0 200 100)
    = Some [Rect.new 10 10 40 20] ∧
  ∃ d, d ∈ [Rect.new 10 10 40 20] ∧ Rect.mem d 40 20.
Proof.
  split; [reflexivity|].
  destruct (damage_add_safe (Rect.new 0 0 200 100) [Rect.new 10 10 20 20]
    (Rect.new 30 10 20 20)) as (ds&E&_&_&_&H).
  - repeat split; vm_compute; congruence.
  - split; [split|simpl; lia].
    + constructor; [|constructor]. repeat split; vm_compute; congruence.
    + repeat constructor.
  - repeat split; vm_compute; congruence.
  - vm_compute in E. injection E as <-.
    destruct (H 40 20) as (d&Hd&Hm).
    + repeat split; vm_compute; congruence.
    + exists (Rect.new 30 10 20 20). split; [by left|].
      repeat split; vm_compute; congruence.
    + exists d. split; [exact Hd|exact Hm].
Defined.

(** Separated non-empty regions have distinct sort keys, so that the unstable
    sort of [DamageSet::sort] has one possible result. *)
Lemma regions_keys_distinct v ds : regions_ok v ds → NoDup (region_key <$> ds).
Proof.
  intros [Hok Hap]. induction Hap as [|r ds Hds IH Hr]; simpl; [constructor|].
  apply Forall_cons in Hok as [[[Hwr _] [Hx Hy]] Hok]. constructor; [|by apply IH].
  intros (d&Hk&Hd)%list_elem_of_fmap. rewrite Forall_forall in Hr, Hok.
  specialize (Hr d Hd). destruct (Hok d Hd) as [_ [Hdx Hdy]].
  unfold region_key in Hk. simplify_eq.
  unfold separated, Rect.touches_or_overlaps in Hr. lia.
Qed.

Lemma regions_ok_perm v ds ds' : ds ≡ₚ ds' → regions_ok v ds → regions_ok v ds'.
Proof. intros Hp [??]. split; by rewrite <- Hp. Qed.

Lemma sort_damage_ok v ds : damage_ok v ds → damage_ok v (sort ds).
Proof.
  intros [Hok Hl]. unfold sort. split.
  - eapply regions_ok_perm; [by rewrite sort_by_key_perm|done].
  - by rewrite sort_by_key_length.
Qed.

(** ** Physical damage *)

Section physical.

Context (scale : OutputScale.t) (lv pv : Rect.t).
Context (Hscale : OutputScale.wf scale) (Hlv : Rect.wf lv) (Hpv : Rect.wf pv).
Context (Horigin : I32.MIN < Rect.x lv ∧ I32.MIN < Rect.y lv).
Context (Hextent : Rect.right lv - Rect.x lv <= OutputScale.COORD ∧
                   Rect.bottom lv - Rect.y lv <= OutputScale.COORD).

(** A logical rectangle relative to the origin of the viewport. *)
Definition relative (c : Rect.t) : Rect.t :=
  Rect.new (Rect.x c - Rect.x lv) (Rect.y c - Rect.y lv) (Rect.width c) (Rect.height c).

Lemma relative_edges r c :
  Rect.wf r → Rect.intersection r lv = Some c →
  Rect.translated c (I32.wrap (- Rect.x lv)) (I32.wrap (- Rect.y lv)) = relative c ∧
  OutputScale.small (relative c) ∧ Rect.nonempty (relative c).
Proof.
  intros Hr Hc. destruct (intersection_wf r lv c Hr Hlv Hc) as (Hwc&[Hw Hh]&[Ex Ey]).
  destruct (intersection_inside r lv c Hr Hlv Hc) as [_ Hin].
  apply contains_rect_spec in Hin as (Ix&Iy&IR&IB).
  destruct (rect_right_bounds lv Hlv) as (_&_&[_ ?]).
  destruct (rect_bottom_bounds lv Hlv) as (_&_&[_ ?]).
  destruct Hlv as ([? ?]&[? ?]&_), Hwc as (?&?&?&?), Horigin, Hextent.
  unfold Rect.translated, I32.saturating_add, OutputScale.COORD in *.
  rewrite !i32_wrap_id by (ints; lia).
  rewrite !i32_sat_id by (ints; lia).
  split; [unfold relative; f_equal; lia|].
  assert (Rect.right (relative c) = Rect.right c - Rect.x lv).
  { rewrite rect_right_exact; unfold relative, Rect.wf; simpl; ints; lia. }
  assert (Rect.bottom (relative c) = Rect.bottom c - Rect.y lv).
  { rewrite rect_bottom_exact; unfold relative, Rect.wf; simpl; ints; lia. }
  split; [|by split]. unfold OutputScale.small, OutputScale.COORD.
  split; [unfold relative, Rect.wf; simpl; ints; lia|]. simpl. lia.
Qed.

Lemma to_physical_mem ds px py :
  Forall Rect.wf ds → Rect.mem pv px py →
  (∃ d, d ∈ to_physical ds lv pv scale ∧ Rect.mem d px py) ↔
  ∃ r c, r ∈ ds ∧ Rect.intersection r lv = Some c ∧
    touches_scaled scale (relative c) px py.
Proof.
  intros Hds Hm. rewrite Forall_forall in Hds. unfold to_physical. split.
  - intros (d&(r&Hr&Hd)%list_elem_of_omap&Hmd).
    destruct (Rect.intersection r lv) as [c|] eqn:Ec; simpl in Hd; [|done].
    destruct (relative_edges r c (Hds r Hr) Ec) as (E&Hs&Hn). rewrite E in Hd.
    exists r, c. split_and!; [done..|].
    destruct (cover_mem scale (relative c) px py Hscale Hs Hn) as [Hw Hiff].
    apply Hiff. by apply (intersection_mem _ _ d px py Hw Hpv Hd).
  - intros (r&c&Hr&Ec&Ht). destruct (relative_edges r c (Hds r Hr) Ec) as (E&Hs&Hn).
    destruct (cover_mem scale (relative c) px py Hscale Hs Hn) as [Hw Hiff].
    destruct (Rect.intersection (OutputScale.physical_rect_cover scale (relative c)) pv)
      as [d|] eqn:Ed.
    + exists d. split.
      * apply list_elem_of_omap. exists r. split; [done|]. rewrite Ec. simpl. by rewrite E.
      * apply (intersection_mem _ _ d px py Hw Hpv Ed). by rewrite Hiff.
    + apply intersection_None in Ed. exfalso. apply Ed.
      eapply overlap_mem; [by apply Hiff|done].
Qed.

End physical.

(** [DamageSet::to_physical] repaints exactly the physical pixels that the
    scaled damage touches: a pixel of the output is in a physical region if
    and only if its square meets the scaled on-screen part of a logical
    region. Damage is never lost at fractional scales. *)
Theorem damage_to_physical_exact scale lv pv ds :
  OutputScale.wf scale → Rect.wf lv → Rect.wf pv → Forall Rect.wf ds →
  I32.MIN < Rect.x lv ∧ I32.MIN < Rect.y lv →
  Rect.right lv - Rect.x lv <= OutputScale.COORD ∧
  Rect.bottom lv - Rect.y lv <= OutputScale.COORD →
  ∀ px py, Rect.mem pv px py →
    (∃ d, d ∈ to_physical ds lv pv scale ∧ Rect.mem d px py) ↔
    ∃ r c, r ∈ ds ∧ Rect.intersection r lv = Some c ∧
      touches_scaled scale (relative lv c) px py.
Proof. intros. by apply to_physical_mem. Qed.

Lemma damage_to_physical_exact_witness :
  to_physical [Rect.new 201 101 3 3] (Rect.new 200 100 100 80)
    (Rect.new 0 0 125 100) (OutputScale.mk 150) = [Rect.new 1 1 4 4] ∧
  ∃ d, d ∈ to_physical [Rect.new 201 101 3 3] (Rect.new 200 100 100 80)
             (Rect.new 0 0 125 100) (OutputScale.mk 150) ∧ Rect.mem d 4 4.
Proof.
  split; [reflexivity|].
  apply (damage_to_physical_exact (OutputScale.mk 150) (Rect.new 200 100 100 80)
    (Rect.new 0 0 125 100) [Rect.new 201 101 3 3]).
  - split; vm_compute; congruence.
  - repeat split; vm_compute; congruence.
  - repeat split; vm_compute; congruence.
  - constructor; [|constructor]. repeat split; vm_compute; congruence.
  - split; vm_compute; congruence.
  - split; vm_compute; congruence.
  - repeat split; vm_compute; congruence.
  - exists (Rect.new 201 101 3 3), (Rect.new 201 101 3 3). split; [by left|].
    split; [reflexivity|]. repeat split; vm_compute; congruence.
Defined.

(** ** Difference of two scenes *)

(** A snapshot of representable nodes and contents with valid spans. *)
Record scene_ok (s : SceneSnapshot.t) : Prop := {
  scene_viewport : Rect.wf (SceneSnapshot.viewport s);
  scene_contents : contents_ok s;
  scene_geometry : Forall (λ n, Rect.wf (SceneNode.geometry n)) (SceneSnapshot.nodes s);
  scene_spans : Forall (span_ok (SceneSnapshot.contents s)) (SceneSnapshot.nodes s) }.

Definition node_ok (s : SceneSnapshot.t) (n : SceneNode.t) : Prop :=
  Rect.wf (SceneNode.geometry n) ∧ span_ok (SceneSnapshot.contents s) n.

Lemma scene_nodes_ok s : scene_ok s → Forall (node_ok s) (SceneSnapshot.nodes s).
Proof. intros [_ _ Hg Hs]. apply Forall_and. by split. Qed.

Lemma visual_bounds_region_ok s n b :
  scene_ok s → node_ok s n → SceneSnapshot.visual_bounds s n = Some (Some b) →
  region_ok (SceneSnapshot.viewport s) b.
Proof.
  intros Hs [Hg Hspan] Hb. pose proof (scene_viewport s Hs) as Hv.
  destruct (Z.eq_dec (EffectStyle.opacity (SceneNode.effects n)) UnitFraction.TRANSPARENT)
    as [E|Hop].
  { unfold SceneSnapshot.visual_bounds in Hb. by rewrite E in Hb. }
  destruct (visual_bounds_hull s n) as (b'&cs&Hb'&Hcs&Hh);
    [done|done|apply Hs|done|done|]. rewrite Hb in Hb'. injection Hb' as <-.
  destruct (SceneNode.visual_bounds n _) as [r|] eqn:Er.
  - eapply hull_region_ok; [exact Hh|by left|]. rewrite node_visual_bounds_ink in Er.
    destruct (_ =? _); [done|]. destruct (ink_union n) as [u|] eqn:Eu; [|done]. simpl in Er.
    eapply intersection_region_ok; [|exact Hv|exact Er].
    by apply (extend_all_wf None (ink n) u); [|apply ink_wf|].
  - destruct (popup_rects s n cs) as [|p ps] eqn:Ep; [by destruct Hh|].
    eapply hull_region_ok; [exact Hh|by left|].
    assert (Hp : p ∈ popup_rects s n cs) by (rewrite Ep; by left).
    apply list_elem_of_omap in Hp as (c&Hc&Hp).
    destruct (SurfaceContent.layer c); [done|].
    eapply intersection_region_ok; [|exact Hv|exact Hp].
    eapply destination_wf; [apply Hs|exact Hcs|exact Hc].
Qed.

(** A region inside the viewport is covered once its clipped part is. *)
Lemma clipped_covered v ds b :
  Rect.wf v → region_ok v b →
  (∀ c, Rect.intersection b v = Some c → covered ds c) → covered ds b.
Proof.
  intros Hv [[Hb Hin] Hp] Hc. destruct (Rect.intersection b v) as [c|] eqn:Ec.
  - apply (covered_coarsens ds); [reflexivity|].
    destruct (proj1 (Exists_exists _ _) (Hc c eq_refl)) as (d&Hd&Hdc).
    apply Exists_exists. exists d. split; [done|].
    eapply contains_rect_trans; [exact Hdc|].
    eapply intersection_greatest; [exact Hb|exact Hv|exact Ec|apply contains_rect_refl|done].
  - apply intersection_None in Ec. apply contains_rect_spec in Hin.
    unfold has_pixels in Hp. unfold overlap in Ec. lia.
Qed.

Definition bounds_covered (ds : list Rect.t) (s : SceneSnapshot.t) (n : SceneNode.t) : Prop :=
  ∀ b, SceneSnapshot.visual_bounds s n = Some (Some b) → covered ds b.

Lemma bounds_covered_coarsens ds ds' s n :
  coarsens ds ds' → bounds_covered ds s n → bounds_covered ds' s n.
Proof. intros Hc Hb b Hn. eapply covered_coarsens; [done|]. by apply Hb. Qed.

Lemma add_node_bounds_spec s n ds :
  scene_ok s → node_ok s n → damage_ok (SceneSnapshot.viewport s) ds →
  ∃ ds', add_node_bounds ds s n = Some ds' ∧ damage_ok (SceneSnapshot.viewport s) ds' ∧
    coarsens ds ds' ∧ bounds_covered ds' s n.
Proof.
  intros Hs Hn Hok. unfold add_node_bounds. pose proof (scene_viewport s Hs) as Hv.
  destruct (visual_bounds_total s n) as [[b|] Eb]; [apply Hn|..]; rewrite Eb; simpl.
  - assert (Hb : region_ok (SceneSnapshot.viewport s) b)
      by (by eapply visual_bounds_region_ok).
    destruct (add_spec _ ds b Hv Hok) as (ds'&E&Hok'&Hc&Hcov); [apply Hb|].
    exists ds'. split; [done|]. split; [done|]. split; [done|].
    intros b' Hb'. rewrite Eb in Hb'. injection Hb' as <-. by eapply clipped_covered.
  - exists ds. split; [done|]. split; [done|]. split; [done|]. intros b Hb. congruence.
Qed.

Section difference.

Context (previous current : SceneSnapshot.t).
Context (Hp : scene_ok previous) (Hc : scene_ok current).
Context (Hview : SceneSnapshot.viewport previous = SceneSnapshot.viewport current).

Definition same_contents (n : SceneNode.t) : Prop :=
  SceneSnapshot.contents_for previous n = SceneSnapshot.contents_for current n.

Lemma differs_spec old new :
  node_ok previous old → node_ok current new →
  ∃ b, differs previous current old new = Some b ∧
       (b = false → old = new ∧ same_contents old).
Proof.
  intros [_ Ho] [_ Hn]. unfold differs. destruct (decide (old = new)) as [<-|]; [|by exists true].
  rewrite (contents_for_Some _ _ Ho), (contents_for_Some _ _ Hn). simpl.
  eexists. split; [done|]. rewrite negb_false_iff, bool_decide_eq_true. intros E.
  split; [done|]. unfold same_contents.
  by rewrite (contents_for_Some _ _ Ho), (contents_for_Some _ _ Hn), E.
Qed.

(** Every node of [olds] is kept unchanged in [news] or its bounds are
    damaged, and the other way round. *)
Definition accounted (ds : list Rect.t) (s : SceneSnapshot.t)
    (ns others : list SceneNode.t) : Prop :=
  Forall (λ n, (n ∈ others ∧ same_contents n) ∨ bounds_covered ds s n) ns.

Lemma accounted_weaken ds ds' s ns k k' :
  coarsens ds ds' → (∀ n, n ∈ k → n ∈ k') → accounted ds s ns k → accounted ds' s ns k'.
Proof.
  intros Hds Hk H. eapply Forall_impl; [exact H|]. intros n [[Hn ?]|Hb].
  - left. split; [by apply Hk|done].
  - right. by eapply bounds_covered_coarsens.
Qed.

Lemma walk_spec fuel olds news ds :
  (length olds + length news < fuel)%nat →
  Forall (node_ok previous) olds → Forall (node_ok current) news →
  damage_ok (SceneSnapshot.viewport current) ds →
  ∃ ds', walk fuel previous current olds news ds = Some ds' ∧
    damage_ok (SceneSnapshot.viewport current) ds' ∧ coarsens ds ds' ∧
    accounted ds' previous olds news ∧ accounted ds' current news olds.
Proof.
  revert olds news ds. induction fuel as [|fuel IH]; intros olds news ds Hf Ho Hn Hok; [lia|].
  assert (Hadd_old : ∀ ds n, node_ok previous n →
    damage_ok (SceneSnapshot.viewport current) ds →
    ∃ ds', add_node_bounds ds previous n = Some ds' ∧
      damage_ok (SceneSnapshot.viewport current) ds' ∧ coarsens ds ds' ∧
      bounds_covered ds' previous n).
  { intros d n Hnok Hd. rewrite <- Hview in *. by apply add_node_bounds_spec. }
  destruct olds as [|old olds], news as [|new news]; cbn [walk]; simpl in Hf.
  - exists ds. split; [done|]. split; [done|]. split; [done|]. split; constructor.
  - apply Forall_cons in Hn as [Hnn Hn].
    destruct (add_node_bounds_spec current new ds Hc Hnn Hok) as (d1&->&Hok1&Hc1&Hb1). simpl.
    destruct (IH [] news d1) as (d2&->&Hok2&Hc2&_&Ha2); [simpl; lia|done..|].
    exists d2. split; [done|]. split; [done|]. split; [by transitivity d1|].
    split; [constructor|]. constructor; [|done].
    right. by eapply bounds_covered_coarsens.
  - apply Forall_cons in Ho as [Hoo Ho].
    destruct (Hadd_old ds old Hoo Hok) as (d1&->&Hok1&Hc1&Hb1). simpl.
    destruct (IH olds [] d1) as (d2&->&Hok2&Hc2&Ha2&_); [simpl; lia|done..|].
    exists d2. split; [done|]. split; [done|]. split; [by transitivity d1|].
    split; [|constructor]. constructor; [|done].
    right. by eapply bounds_covered_coarsens.
  - apply Forall_cons in Ho as [Hoo Ho]. apply Forall_cons in Hn as [Hnn Hn].
    destruct (_ =? _).
    + destruct (differs_spec old new Hoo Hnn) as ([]&->&Hsame); simpl.
      * destruct (Hadd_old ds old Hoo Hok) as (d1&->&Hok1&Hc1&Hb1). simpl.
        destruct (add_node_bounds_spec current new d1 Hc Hnn Hok1)
          as (d2&->&Hok2&Hc2&Hb2). simpl.
        destruct (IH olds news d2) as (d3&->&Hok3&Hc3&Ha3&Hb3); [lia|done..|].
        exists d3. split; [done|]. split; [done|].
        split; [by transitivity d1; [|transitivity d2]|].
        split; (constructor; [right|eapply accounted_weaken; [reflexivity| |done];
          intros; by right]).
        -- eapply bounds_covered_coarsens; [|exact Hb1]. by transitivity d2.
        -- by eapply bounds_covered_coarsens.
      * destruct (Hsame eq_refl) as [<- Hsc].
        destruct (IH olds news ds) as (d3&->&Hok3&Hc3&Ha3&Hb3); [lia|done..|].
        exists d3. split; [done|]. split; [done|]. split; [done|].
        split; (constructor; [left; split; [by left|done]|
          eapply accounted_weaken; [reflexivity| |done]; intros; by right]).
    + destruct (_ <? _).
      * destruct (Hadd_old ds old Hoo Hok) as (d1&->&Hok1&Hc1&Hb1). simpl.
        destruct (IH olds (new :: news) d1) as (d2&->&Hok2&Hc2&Ha2&Hb2);
          [simpl; lia|done|by constructor|done|].
        exists d2. split; [done|]. split; [done|]. split; [by transitivity d1|]. split.
        -- constructor; [|done]. right. by eapply bounds_covered_coarsens.
        -- eapply accounted_weaken; [reflexivity| |done]. intros; by right.
      * destruct (add_node_bounds_spec current new ds Hc Hnn Hok) as (d1&->&Hok1&Hc1&Hb1).
        simpl.
        destruct (IH (old :: olds) news d1) as (d2&->&Hok2&Hc2&Ha2&Hb2);
          [simpl; lia|by constructor|done|done|].
        exists d2. split; [done|]. split; [done|]. split; [by transitivity d1|]. split.
        -- eapply accounted_weaken; [reflexivity| |done]. intros; by right.
        -- constructor; [|done]. right. by eapply bounds_covered_coarsens.
Qed.

End difference.

(** ** Propagation through backdrop blur *)

Fixpoint fold_effects (v : Rect.t) (st : list Rect.t * bool) (es : list (Z * Rect.t)) :
    option (list Rect.t * bool) :=
  match es with
  | [] => Some st
  | (radius, r) :: es => st ← propagate_region v radius st r; fold_effects v st es
  end.

Lemma fold_effects_app v st es1 es2 :
  fold_effects v st (es1 ++ es2) = (st ← fold_effects v st es1; fold_effects v st es2).
Proof.
  revert st. induction es1 as [|[radius r] es1 IH]; intros st; simpl; [done|].
  destruct (propagate_region v radius st r); simpl; [apply IH|done].
Qed.

Lemma fold_regions_effects v radius st rs :
  fold_regions v radius st rs = fold_effects v st ((λ r, (radius, r)) <$> rs).
Proof.
  revert st. induction rs as [|r rs IH]; intros st; simpl; [done|].
  destruct (propagate_region v radius st r); simpl; [apply IH|done].
Qed.

Lemma positive_blur_samples n radius :
  positive_blur n = Some radius → SceneNode.samples_background n = true ∧ 0 < radius.
Proof.
  unfold positive_blur, SceneNode.samples_background.
  destruct (EffectStyle.backdrop_blur _) as [b|]; simpl; [|done].
  destruct (Z.ltb_spec 0 (BackdropBlur.radius b)); [|done]. by intros [= <-].
Qed.

Lemma propagate_node_effects v st n :
  propagate_node v st n = fold_effects v st (node_effects v n).
Proof.
  unfold propagate_node, node_effects. destruct (positive_blur n) as [radius|] eqn:E.
  - destruct (positive_blur_samples n radius E) as [-> _]. apply fold_regions_effects.
  - by destruct (SceneNode.samples_background n).
Qed.

Lemma propagate_nodes_effects v st ns :
  propagate_nodes v st ns = fold_effects v st (ns ≫= node_effects v).
Proof.
  revert st. induction ns as [|n ns IH]; intros st; [done|].
  rewrite bind_cons, fold_effects_app, <- propagate_node_effects. simpl.
  destruct (propagate_node v st n); simpl; [apply IH|done].
Qed.

Section propagation.

Context (v : Rect.t) (Hv : Rect.wf v).

(** The grown region stays within reach of [i32] arithmetic. *)
Definition blur_fits (radius : Z) : Prop :=
  0 <= radius ∧ Rect.right v - Rect.x v + radius <= I32.MAX ∧
  Rect.bottom v - Rect.y v + radius <= I32.MAX.

Definition effect_ok (e : Z * Rect.t) : Prop :=
  blur_fits e.1 ∧ region_ok v e.2 ∧ Rect.exact e.2.

(** Damage in the sampled neighbourhood of the effect region covers it. *)
Definition settled (ds : list Rect.t) (e : Z * Rect.t) : Prop :=
  ∀ dep d, Rect.intersection (Rect.inflated e.2 e.1) v = Some dep →
    d ∈ ds → is_Some (Rect.intersection d dep) → covered ds e.2.

Lemma existsb_covered ds r :
  existsb (λ d, Rect.contains_rect d r) ds = true ↔ covered ds r.
Proof.
  rewrite existsb_exists. unfold covered. rewrite Exists_exists.
  split; intros (d&Hd&?); exists d; (split; [by apply list_elem_of_In|done]).
Qed.

Lemma effect_dependency e :
  effect_ok e →
  ∃ dep, Rect.intersection (Rect.inflated e.2 e.1) v = Some dep ∧
    Rect.contains_rect dep e.2 = true.
Proof.
  intros ((Hr&HfR&HfB)&[[Hwf Hin] [Hpx Hpy]]&[Ex Ey]).
  pose proof Hin as Hin'. apply contains_rect_spec in Hin' as (?&?&?&?).
  assert (Hg : Rect.contains_rect (Rect.inflated e.2 e.1) e.2 = true)
    by (apply inflated_contains; [done|done|lia..]).
  destruct (Rect.intersection (Rect.inflated e.2 e.1) v) as [dep|] eqn:Ed.
  - exists dep. split; [done|]. eapply intersection_greatest; [|exact Hv|exact Ed|done|done].
    by apply inflated_wf.
  - exfalso. apply intersection_None in Ed. apply Ed.
    apply (overlap_mem _ _ (Rect.x e.2) (Rect.y e.2)).
    + eapply contains_rect_mem; [exact Hg|]. unfold Rect.mem. lia.
    + eapply contains_rect_mem; [exact Hin|]. unfold Rect.mem. lia.
Qed.

Lemma propagate_region_spec ds changed e :
  damage_ok v ds → effect_ok e →
  ∃ ds' changed', propagate_region v e.1 (ds, changed) e.2 = Some (ds', changed') ∧
    damage_ok v ds' ∧ coarsens ds ds' ∧
    ((ds' = ds ∧ changed' = changed ∧ settled ds e) ∨
     (changed' = true ∧ ¬ covered ds e.2 ∧ covered ds' e.2)).
Proof.
  intros Hok He. destruct (effect_dependency e He) as (dep&Ed&_).
  unfold propagate_region. rewrite Ed. simpl.
  destruct (existsb (λ region, bool_decide _) ds && negb _) eqn:E.
  - apply andb_true_iff in E as [_ E]. rewrite negb_true_iff in E.
    destruct He as (_&Hre&_).
    destruct (add_spec v ds e.2 Hv Hok) as (ds'&->&Hok'&Hc&Hcov); [apply Hre|]. simpl.
    exists ds', true. split; [done|]. split; [done|]. split; [done|]. right.
    split; [done|]. split; [|by apply clipped_covered with v].
    rewrite <- existsb_covered, E. done.
  - exists ds, changed. split; [done|]. split; [done|]. split; [done|]. left.
    split; [done|]. split; [done|]. intros dep' d Hdep Hd Hi.
    rewrite Ed in Hdep. injection Hdep as <-.
    apply andb_false_iff in E as [E|E].
    + exfalso. assert (existsb (λ region,
        bool_decide (is_Some (Rect.intersection region dep))) ds = true); [|congruence].
      apply existsb_exists. exists d. split; [by apply list_elem_of_In|].
      by apply bool_decide_eq_true.
    + rewrite negb_false_iff in E. by apply existsb_covered.
Qed.

Lemma fold_effects_spec ds changed es :
  damage_ok v ds → Forall effect_ok es →
  ∃ ds' changed', fold_effects v (ds, changed) es = Some (ds', changed') ∧
    damage_ok v ds' ∧ coarsens ds ds' ∧
    ((ds' = ds ∧ changed' = changed ∧ Forall (settled ds) es) ∨
     (changed' = true ∧ ∃ e, e ∈ es ∧ ¬ covered ds e.2 ∧ covered ds' e.2)).
Proof.
  intros Hok Hes. revert ds changed Hok.
  induction Hes as [|e es He _ IH]; intros ds changed Hok; simpl.
  { exists ds, changed. split; [done|]. split; [done|]. split; [done|]. left. by split. }
  destruct (propagate_region_spec ds changed e Hok He) as (d1&c1&E1&Hok1&Hc1&Hcase).
  destruct e as [radius r]; simpl in *. rewrite E1. simpl.
  destruct (IH d1 c1 Hok1) as (d2&c2&->&Hok2&Hc2&Hcase2).
  exists d2, c2. split; [done|]. split; [done|]. split; [by transitivity d1|].
  destruct Hcase as [(->&->&Hset)|(->&Hn&Hcov)].
  - destruct Hcase2 as [(->&->&Hall)|(->&e&Hin&Hne&Hce)].
    + left. split; [done|]. split; [done|]. by constructor.
    + right. split; [done|]. exists e. split; [by right|done].
  - right. split; [by destruct Hcase2 as [(_&->&_)|[-> _]]|].
    exists (radius, r). split; [by left|]. split; [done|]. by eapply covered_coarsens.
Qed.

#[export] Instance covered_dec ds r : Decision (covered ds r).
Proof. unfold covered. apply _. Defined.

(** Effect regions that no damage region covers yet. *)
Definition uncovered (ds : list Rect.t) (es : list (Z * Rect.t)) : nat :=
  length (filter (λ e, ¬ covered ds e.2) es).

Lemma propagate_spec fuel s ds :
  SceneSnapshot.viewport s = v →
  damage_ok v ds → Forall effect_ok (SceneSnapshot.nodes s ≫= node_effects v) →
  (uncovered ds (SceneSnapshot.nodes s ≫= node_effects v) < fuel)%nat →
  ∃ ds', propagate fuel s ds = Some ds' ∧ damage_ok v ds' ∧ coarsens ds ds' ∧
    Forall (settled ds') (SceneSnapshot.nodes s ≫= node_effects v).
Proof.
  intros Hsv. revert ds. induction fuel as [|fuel IH]; intros ds Hok Hes Hf; [lia|].
  cbn [propagate]. rewrite Hsv, propagate_nodes_effects.
  destruct (fold_effects_spec ds false _ Hok Hes) as (d1&c1&->&Hok1&Hc1&Hcase). simpl.
  destruct Hcase as [(->&->&Hset)|(->&e&He&Hne&Hce)]; [by exists ds|].
  destruct (IH d1 Hok1 Hes) as (d2&->&Hok2&Hc2&Hset2).
  - assert (Hlt : (uncovered d1 (SceneSnapshot.nodes s ≫= node_effects v)
      < uncovered ds (SceneSnapshot.nodes s ≫= node_effects v))%nat); [|lia].
    apply filter_length_lt.
    + intros x _ Hx Hcx. apply Hx. by eapply covered_coarsens.
    + exists e. split; [done|]. split; [done|]. naive_solver.
  - exists d2. split; [done|]. split; [done|]. split; [by transitivity d1|done].
Qed.

End propagation.

(** Representable clips and blur regions, and radii within reach. *)
Record node_effects_ok (v : Rect.t) (n : SceneNode.t) : Prop := {
  effects_visible : ∀ r, LayoutPlacement.visible (SceneNode.placement n) = Some r → Rect.wf r;
  effects_region : ∀ b, SceneNode.backdrop_region n = Some b →
    Forall Rect.wf (BackdropRegion.rects b);
  effects_radius : ∀ radius, positive_blur n = Some radius → blur_fits v radius }.

Lemma backdrop_region_ok v n r :
  Rect.wf v → node_effects_ok v n → r ∈ SceneNode.backdrop_regions n v →
  region_ok v r ∧ Rect.exact r.
Proof.
  intros Hv Hn. unfold SceneNode.backdrop_regions.
  assert (Hvis : ∀ w, (vis ← LayoutPlacement.visible (SceneNode.placement n);
      Rect.intersection vis v) = Some w → region_ok v w ∧ Rect.exact w).
  { intros w Hw. destruct (LayoutPlacement.visible _) as [vis|] eqn:E; simpl in Hw; [|done].
    pose proof (effects_visible v n Hn vis E) as Hwf.
    split; [exact (intersection_region_ok _ _ _ Hwf Hv Hw)|].
    by apply (intersection_wf vis v w). }
  destruct (vis ← _; _) as [vis|] eqn:Evis.
  - destruct (Hvis vis eq_refl) as [[Hin _] _].
    destruct (SceneNode.backdrop_region n) as [b|] eqn:Eb; simpl.
    + intros (x&Hx&Hr)%list_elem_of_omap. simpl in Hr.
      pose proof (effects_region v n Hn b Eb) as Hrs. rewrite Forall_forall in Hrs.
      assert (Hwx : Rect.wf (Rect.translated x (Rect.x (SceneNode.geometry n))
        (Rect.y (SceneNode.geometry n)))) by (apply translated_wf; by apply Hrs).
      destruct (intersection_region_ok _ _ _ Hwx (inside_wf _ _ Hin) Hr) as [Hi Hpx].
      split; [split; [by eapply inside_trans|done]|].
      apply (intersection_wf _ _ r Hwx (inside_wf _ _ Hin) Hr).
    + intros Hr. apply Hvis. apply elem_of_cons in Hr as [->|Hr]; [done|].
      by apply elem_of_nil in Hr.
  - destruct (SceneNode.backdrop_region n) as [b|]; simpl.
    + intros (x&_&Hr)%list_elem_of_omap. done.
    + by intros ?%elem_of_nil.
Qed.

Lemma effect_regions_ok s :
  scene_ok s → Forall (node_effects_ok (SceneSnapshot.viewport s)) (SceneSnapshot.nodes s) →
  Forall (effect_ok (SceneSnapshot.viewport s)) (effect_regions s).
Proof.
  intros Hs Hn. apply Forall_forall. intros e (n&He&Hin)%list_elem_of_bind.
  rewrite Forall_forall in Hn. specialize (Hn n Hin). unfold node_effects in He.
  destruct (positive_blur n) as [radius|] eqn:E; [|by apply elem_of_nil in He].
  apply list_elem_of_fmap in He as (r&->&Hr).
  destruct (backdrop_region_ok _ n r (scene_viewport s Hs) Hn Hr) as [??].
  split; [by eapply effects_radius|done].
Qed.

Lemma settled_perm v ds ds' e : ds ≡ₚ ds' → settled v ds e → settled v ds' e.
Proof.
  intros Hp Hs dep d Hdep Hd Hi. eapply covered_perm; [exact Hp|].
  eapply Hs; [exact Hdep|by rewrite Hp|done].
Qed.

(** Two snapshots of the same workspace and viewport. *)
Record comparable (previous current : SceneSnapshot.t) : Prop := {
  comparable_previous : scene_ok previous;
  comparable_current : scene_ok current;
  comparable_workspace :
    SceneSnapshot.workspace_id previous = SceneSnapshot.workspace_id current;
  comparable_viewport :
    SceneSnapshot.viewport previous = SceneSnapshot.viewport current;
  comparable_effects :
    Forall (node_effects_ok (SceneSnapshot.viewport current)) (SceneSnapshot.nodes current) }.

Lemma between_spec previous current :
  comparable previous current →
  ∃ ds, between (Some previous) current = Some ds ∧
    damage_ok (SceneSnapshot.viewport current) ds ∧
    accounted previous current ds previous
      (SceneSnapshot.nodes previous) (SceneSnapshot.nodes current) ∧
    accounted previous current ds current
      (SceneSnapshot.nodes current) (SceneSnapshot.nodes previous) ∧
    Forall (settled (SceneSnapshot.viewport current) ds) (effect_regions current).
Proof.
  intros [Hp Hc Hw Hv He]. unfold between.
  rewrite Hw, Hv, !bool_decide_true by done. cbn [orb negb].
  destruct (walk_spec previous current Hp Hc Hv
    (S (length (SceneSnapshot.nodes previous) + length (SceneSnapshot.nodes current)))
    (SceneSnapshot.nodes previous) (SceneSnapshot.nodes current) [])
    as (d1&->&Hok1&_&Ha1&Hb1);
    [lia|by apply scene_nodes_ok|by apply scene_nodes_ok|apply damage_ok_nil|].
  cbn [mbind option_bind]. unfold propagate_background_dependencies.
  destruct (propagate_spec (SceneSnapshot.viewport current) (scene_viewport _ Hc)
    (S (length (effect_regions current))) current d1)
    as (d2&->&Hok2&Hc2&Hs2); [done|done|by apply effect_regions_ok| |].
  { unfold uncovered. pose proof (length_filter
      (λ e, ¬ covered d1 e.2) (effect_regions current)) as Hle. unfold effect_regions in *. lia. }
  simpl. exists (sort d2). split; [done|]. split; [by apply sort_damage_ok|].
  assert (Hperm : d2 ≡ₚ sort d2) by (symmetry; apply sort_by_key_perm).
  assert (Hds : coarsens d1 (sort d2))
    by (transitivity d2; [done|by apply coarsens_perm]).
  split; [by eapply accounted_weaken|]. split; [by eapply accounted_weaken|].
  eapply Forall_impl; [exact Hs2|]. intros e. by apply settled_perm.
Qed.

(** C35: damage is complete: comparing two snapshots of the same workspace and
    viewport never panics and gives a well-formed damage set of the viewport
    such that any pixel outside it is painted alike in both: a node of either
    snapshot whose visual bounds contain such a pixel occurs, with the same
    contents, in the other one. *)
Theorem damage_between_complete previous current :
  comparable previous current →
  ∃ ds, between (Some previous) current = Some ds ∧
    damage_ok (SceneSnapshot.viewport current) ds ∧
    ∀ px py, (∀ d, d ∈ ds → ¬ Rect.mem d px py) →
      (∀ n b, n ∈ SceneSnapshot.nodes previous →
         SceneSnapshot.visual_bounds previous n = Some (Some b) → Rect.mem b px py →
         n ∈ SceneSnapshot.nodes current ∧ same_contents previous current n) ∧
      (∀ n b, n ∈ SceneSnapshot.nodes current →
         SceneSnapshot.visual_bounds current n = Some (Some b) → Rect.mem b px py →
         n ∈ SceneSnapshot.nodes previous ∧ same_contents previous current n).
Proof.
  intros Hcmp. destruct (between_spec previous current Hcmp) as (ds&E&Hok&Ha&Hb&_).
  exists ds. split; [done|]. split; [done|]. intros px py Hout.
  unfold accounted in *. rewrite Forall_forall in Ha, Hb.
  split; intros n b Hn Hvb Hm; [destruct (Ha n Hn) as [?|Hcov]|destruct (Hb n Hn) as [?|Hcov]];
    try done; destruct (covered_mem ds b px py (Hcov b Hvb) Hm) as (d&Hd&Hmd);
    by destruct (Hout d Hd).
Qed.

(** C39: damage is closed under backdrop sampling: the propagation loop
    terminates, and afterwards every blurred region of the new snapshot that
    has damage within its sampling radius is covered by one damage region. *)
Theorem damage_blur_closed previous current :
  comparable previous current →
  ∃ ds, between (Some previous) current = Some ds ∧
    ∀ radius r, (radius, r) ∈ effect_regions current →
      ∃ dep, Rect.intersection (Rect.inflated r radius) (SceneSnapshot.viewport current)
               = Some dep ∧ Rect.contains_rect dep r = true ∧
        ((∃ d, d ∈ ds ∧ is_Some (Rect.intersection d dep)) → covered ds r).
Proof.
  intros Hcmp. destruct (between_spec previous current Hcmp) as (ds&E&_&_&_&Hs).
  exists ds. split; [done|]. intros radius r He.
  pose proof (effect_regions_ok current (comparable_current _ _ Hcmp)
    (comparable_effects _ _ Hcmp)) as Hok.
  rewrite Forall_forall in Hok, Hs.
  destruct (effect_dependency _ (scene_viewport _ (comparable_current _ _ Hcmp)) _
    (Hok _ He)) as (dep&Hd&Hc). simpl in *.
  exists dep. split; [done|]. split; [done|].
  intros (d&Hin&Hi). by apply (Hs _ He dep d).
Qed.

(** The walk over identical node lists adds nothing. *)
Lemma walk_same previous current fuel ns ds :
  (length ns < fuel)%nat →
  Forall (λ n, is_Some (SceneSnapshot.contents_for previous n) ∧
               same_contents previous current n) ns →
  walk fuel previous current ns ns ds = Some ds.
Proof.
  intros Hf Hns. revert fuel Hf. induction Hns as [|n ns [[cs Hcs] Hsc] _ IH]; intros [|fuel] Hf;
    simpl in *; [lia|done|lia|].
  rewrite Z.eqb_refl. unfold differs. rewrite decide_True by done.
  unfold same_contents in Hsc. rewrite <- Hsc, Hcs. simpl.
  rewrite bool_decide_true by done. simpl. apply IH. lia.
Qed.

Lemma fold_effects_nil v es :
  Rect.wf v → Forall (effect_ok v) es → fold_effects v ([], false) es = Some ([], false).
Proof.
  intros Hv. induction 1 as [|[radius r] es He _ IH]; simpl; [done|].
  destruct (effect_dependency v Hv _ He) as (dep&Hd&_). simpl in Hd. by rewrite Hd.
Qed.

(** An unchanged scene repaints nothing, and a first frame or a frame for
    another workspace or output repaints the whole viewport. *)
Theorem damage_unchanged_empty previous current :
  scene_ok current →
  Forall (node_effects_ok (SceneSnapshot.viewport current)) (SceneSnapshot.nodes current) →
  Rect.nonempty (SceneSnapshot.viewport current) →
  between (Some current) current = Some [] ∧
  between None current = Some [SceneSnapshot.viewport current] ∧
  (SceneSnapshot.workspace_id previous ≠ SceneSnapshot.workspace_id current ∨
   SceneSnapshot.viewport previous ≠ SceneSnapshot.viewport current →
   between (Some previous) current = Some [SceneSnapshot.viewport current]).
Proof.
  intros Hok Heff [Hw Hh].
  assert (Hfull : full (SceneSnapshot.viewport current) = [SceneSnapshot.viewport current]).
  { unfold full, non_empty. by rewrite !(proj2 (Z.ltb_lt _ _)) by done. }
  split; [|split].
  - unfold between. rewrite !bool_decide_true by done. cbn [orb negb].
    rewrite walk_same; [|lia|].
    + cbn [mbind option_bind]. unfold propagate_background_dependencies.
      cbn [propagate]. rewrite propagate_nodes_effects.
      rewrite fold_effects_nil; [done|apply Hok|by apply effect_regions_ok].
    + eapply Forall_impl; [by apply scene_nodes_ok|]. intros n [_ Hn].
      rewrite (contents_for_Some _ _ Hn). split; [by eauto|done].
  - unfold between. by rewrite Hfull.
  - intros Hne. unfold between. rewrite Hfull.
    destruct (bool_decide_reflect (SceneSnapshot.workspace_id previous
      = SceneSnapshot.workspace_id current)); [|done].
    destruct (bool_decide_reflect (SceneSnapshot.viewport previous
      = SceneSnapshot.viewport current)); [|done]. by destruct Hne.
Qed.

(** ** Examples from the source's tests *)

Definition VIEWPORT : Rect.t := Rect.new 0 0 200 100.

Definition test_node (id : Z) (geometry : Rect.t) (effects : EffectStyle.t) : SceneNode.t :=
  SceneNode.new id id
    (LayoutPlacement.mk geometry (Rect.intersection geometry VIEWPORT)) effects.

Definition snapshot (ns : list SceneNode.t) : SceneSnapshot.t := bare_scene 1 VIEWPORT ns [].

Definition test_blur (radius : Z) : EffectStyle.t :=
  EffectStyle.mk UnitFraction.OPAQUE 0 None (Some (BackdropBlur.mk radius)).

Example movement_damages_old_and_new_visual_bounds :
  between (Some (snapshot [test_node 1 (Rect.new 10 10 20 20) EffectStyle.dflt]))
    (snapshot [test_node 1 (Rect.new 60 10 20 20) EffectStyle.dflt])
  = Some [Rect.new 10 10 20 20; Rect.new 60 10 20 20].
Proof. vm_compute. reflexivity. Qed.

Example adjacent_damage_is_coalesced :
  between (Some (snapshot [test_node 1 (Rect.new 10 10 20 20) EffectStyle.dflt]))
    (snapshot [test_node 1 (Rect.new 30 10 20 20) EffectStyle.dflt])
  = Some [Rect.new 10 10 40 20].
Proof. vm_compute. reflexivity. Qed.

Example fragmented_damage_stays_bounded :
  (λ ds, (length ds, bool_decide (ds = [VIEWPORT]))) <$>
    between (Some (snapshot []))
      (snapshot ((λ i, test_node (Z.of_nat i + 1) (Rect.new (Z.of_nat i * 3) 0 1 1)
                         EffectStyle.dflt) <$> seq 0 65))
  = Some (64%nat, false).
Proof. vm_compute. reflexivity. Qed.

Example dense_damage_compacts_to_local_extents :
  foldl (λ ds i, ds ← ds;
           add ds (Rect.new (Z.of_nat (i mod 9) * 4) (Z.of_nat (i / 9) * 4) 3 3) VIEWPORT)
    (Some []) (seq 0 65)
  = Some [Rect.new 0 0 35 31].
Proof. vm_compute. reflexivity. Qed.

Example backdrop_blur_propagates :
  between
    (Some (snapshot [test_node 1 (Rect.new 10 10 20 20) EffectStyle.dflt;
                     test_node 2 (Rect.new 0 0 100 80) (test_blur 12)]))
    (snapshot [test_node 1 (Rect.new 15 10 20 20) EffectStyle.dflt;
               test_node 2 (Rect.new 0 0 100 80) (test_blur 12)])
  = Some [Rect.new 0 0 100 80].
Proof. vm_compute. reflexivity. Qed.

Example backdrop_blur_tracks_the_filter_footprint :
  between
    (Some (snapshot [test_node 1 (Rect.new 35 20 4 4) EffectStyle.dflt;
                     test_node 2 (Rect.new 50 10 40 40) (test_blur 12)]))
    (snapshot [test_node 1 (Rect.new 36 20 4 4) EffectStyle.dflt;
               test_node 2 (Rect.new 50 10 40 40) (test_blur 12)])
  = Some [Rect.new 50 10 40 40; Rect.new 35 20 5 4].
Proof. vm_compute. reflexivity. Qed.

(** Two comparable scenes: a moved view under a blurred one. *)
Definition moved_before : SceneSnapshot.t :=
  snapshot [test_node 1 (Rect.new 35 20 4 4) EffectStyle.dflt;
            test_node 2 (Rect.new 50 10 40 40) (test_blur 12)].

Definition moved_after : SceneSnapshot.t :=
  snapshot [test_node 1 (Rect.new 36 20 4 4) EffectStyle.dflt;
            test_node 2 (Rect.new 50 10 40 40) (test_blur 12)].

Definition moved_view (x : Z) : SceneNode.t :=
  test_node 1 (Rect.new x 20 4 4) EffectStyle.dflt.

Definition blurred_view : SceneNode.t := test_node 2 (Rect.new 50 10 40 40) (test_blur 12).

Lemma moved_nodes :
  SceneSnapshot.nodes moved_before = [moved_view 35; blurred_view] ∧
  SceneSnapshot.nodes moved_after = [moved_view 36; blurred_view].
Proof. split; vm_compute; reflexivity. Qed.

Lemma moved_scene_ok x :
  x = 35 ∨ x = 36 → scene_ok (snapshot [moved_view x; blurred_view]).
Proof.
  intros Hx.
  assert (E : SceneSnapshot.nodes (snapshot [moved_view x; blurred_view])
              = [moved_view x; blurred_view])
    by (destruct Hx as [-> | ->]; vm_compute; reflexivity).
  split.
  - repeat split; vm_compute; congruence.
  - constructor.
  - rewrite E. repeat (constructor; [destruct Hx as [-> | ->];
      repeat split; vm_compute; congruence|]). constructor.
  - rewrite E. repeat (constructor; [repeat split; vm_compute; congruence|]). constructor.
Qed.

Lemma moved_effects_ok :
  Forall (node_effects_ok VIEWPORT) [moved_view 36; blurred_view].
Proof.
  constructor; [|constructor; [|constructor]]; split;
    try (intros ? [= <-]; repeat split; vm_compute; congruence); discriminate.
Qed.

Lemma moved_comparable : comparable moved_before moved_after.
Proof.
  split; [apply moved_scene_ok; lia|apply moved_scene_ok; lia|done|done|].
  rewrite (proj2 moved_nodes). apply moved_effects_ok.
Qed.

Lemma damage_between_complete_witness :
  ∃ ds, between (Some moved_before) moved_after = Some ds ∧ damage_ok VIEWPORT ds.
Proof.
  destruct (damage_between_complete moved_before moved_after moved_comparable)
    as (ds&E&Hok&_).
  exists ds. split; [exact E|exact Hok].
Defined.

Lemma damage_blur_closed_witness :
  ∃ ds, between (Some moved_before) moved_after = Some ds ∧
    covered ds (Rect.new 50 10 40 40).
Proof.
  destruct (damage_blur_closed moved_before moved_after moved_comparable) as (ds&E&H).
  exists ds. split; [exact E|].
  destruct (H 12 (Rect.new 50 10 40 40)) as (dep&Ed&_&Hc).
  - vm_compute. left.
  - vm_compute in E. injection E as <-. vm_compute in Ed. injection Ed as <-.
    apply Hc. exists (Rect.new 35 20 5 4).
    split; [by right; left|vm_compute; by eexists].
Defined.

Lemma damage_unchanged_empty_witness :
  between (Some moved_after) moved_after = Some [].
Proof.
  refine (proj1 (damage_unchanged_empty moved_before moved_after _ _ _)).
  - apply moved_scene_ok. lia.
  - rewrite (proj2 moved_nodes). exact moved_effects_ok.
  - split; vm_compute; reflexivity.
Defined.
