(* ===== verification/Ecs.v ===== *)
(** * The entity store behind the compositor world

    The components of a view entity ([apps/tensor-wm/src/ecs/components.rs])
    and the interface of the third-party entity store ([bevy_ecs::World]) as a
    type class: a live entity carries a bundle of optional components, the
    operations are the ones the source calls, and the laws are the documented
    behaviour it relies on. Queries visit every live entity once in an
    unspecified order. A finite map of bundles is an instance. *)

From S2P Require Import Prelude Geometry Layout Surface Scene.

(** ** Components *)

Module ViewLayout.

Record t := mk {
  constraints : SizeConstraints.t;
  primary_size : option LayoutLength.t }.

Definition dflt : t := mk SizeConstraints.dflt None.

Definition item (l : t) : LayoutItem.t := LayoutItem.new (constraints l) (primary_size l).

#[global] Instance t_eq_dec : EqDecision t.
Proof. solve_decision. Defined.

End ViewLayout.

Module ViewPlacement.

Inductive t :=
| Tiled
| Floating (geometry : Rect.t)
| Attached (owner : Z) (preferred_size : Size.t).

#[global] Instance t_eq_dec : EqDecision t.
Proof. solve_decision. Defined.

Definition owner (p : t) : option Z :=
  match p with
  | Tiled | Floating _ => None
  | Attached owner _ => Some owner
  end.

Definition is_tiled (p : t) : bool :=
  match p with Tiled => true | _ => false end.

End ViewPlacement.

(** The components one entity can carry; [Focused] is a marker. *)
Module Bundle.

Record t := mk {
  view : option Z;
  workspace : option Z;
  layout : option ViewLayout.t;
  placement : option ViewPlacement.t;
  content : option (list SurfaceContent.t);
  effects : option EffectStyle.t;
  presentation_hint : option SurfacePresentationHint.t;
  backdrop_region : option (option BackdropRegion.t);
  stacking : option Z;
  geometry : option Rect.t;
  last_geometry : option Rect.t;
  minimized_from : option Z;
  focused : bool }.

Definition set_workspace (x : option Z) (b : t) : t :=
  mk (view b) x (layout b) (placement b) (content b)
     (effects b) (presentation_hint b) (backdrop_region b) (stacking b)
     (geometry b) (last_geometry b) (minimized_from b) (focused b).

Definition set_layout (x : option ViewLayout.t) (b : t) : t :=
  mk (view b) (workspace b) x (placement b) (content b)
     (effects b) (presentation_hint b) (backdrop_region b) (stacking b)
     (geometry b) (last_geometry b) (minimized_from b) (focused b).

Definition set_placement (x : option ViewPlacement.t) (b : t) : t :=
  mk (view b) (workspace b) (layout b) x (content b)
     (effects b) (presentation_hint b) (backdrop_region b) (stacking b)
     (geometry b) (last_geometry b) (minimized_from b) (focused b).

Definition set_content (x : option (list SurfaceContent.t)) (b : t) : t :=
  mk (view b) (workspace b) (layout b) (placement b) x
     (effects b) (presentation_hint b) (backdrop_region b) (stacking b)
     (geometry b) (last_geometry b) (minimized_from b) (focused b).

Definition set_effects (x : option EffectStyle.t) (b : t) : t :=
  mk (view b) (workspace b) (layout b) (placement b) (content b)
     x (presentation_hint b) (backdrop_region b) (stacking b)
     (geometry b) (last_geometry b) (minimized_from b) (focused b).

Definition set_presentation_hint (x : option SurfacePresentationHint.t) (b : t) : t :=
  mk (view b) (workspace b) (layout b) (placement b) (content b)
     (effects b) x (backdrop_region b) (stacking b)
     (geometry b) (last_geometry b) (minimized_from b) (focused b).

Definition set_backdrop_region (x : option (option BackdropRegion.t)) (b : t) : t :=
  mk (view b) (workspace b) (layout b) (placement b) (content b)
     (effects b) (presentation_hint b) x (stacking b)
     (geometry b) (last_geometry b) (minimized_from b) (focused b).

Definition set_stacking (x : option Z) (b : t) : t :=
  mk (view b) (workspace b) (layout b) (placement b) (content b)
     (effects b) (presentation_hint b) (backdrop_region b) x
     (geometry b) (last_geometry b) (minimized_from b) (focused b).

Definition set_geometry (x : option Rect.t) (b : t) : t :=
  mk (view b) (workspace b) (layout b) (placement b) (content b)
     (effects b) (presentation_hint b) (backdrop_region b) (stacking b)
     x (last_geometry b) (minimized_from b) (focused b).

Definition set_last_geometry (x : option Rect.t) (b : t) : t :=
  mk (view b) (workspace b) (layout b) (placement b) (content b)
     (effects b) (presentation_hint b) (backdrop_region b) (stacking b)
     (geometry b) x (minimized_from b) (focused b).

Definition set_minimized_from (x : option Z) (b : t) : t :=
  mk (view b) (workspace b) (layout b) (placement b) (content b)
     (effects b) (presentation_hint b) (backdrop_region b) (stacking b)
     (geometry b) (last_geometry b) x (focused b).

Definition set_focused (x : bool) (b : t) : t :=
  mk (view b) (workspace b) (layout b) (placement b) (content b)
     (effects b) (presentation_hint b) (backdrop_region b) (stacking b)
     (geometry b) (last_geometry b) (minimized_from b) x.

(** The tuple [spawn_view] hands to [World::spawn]. *)
Definition spawned (view_id workspace_id stacking_order : Z) : t :=
  mk (Some view_id) (Some workspace_id) (Some ViewLayout.dflt)
     (Some ViewPlacement.Tiled) (Some []) (Some EffectStyle.dflt)
     (Some SurfacePresentationHint.Vsync) (Some None) (Some stacking_order)
     None None None false.

(** Every component that is never removed is present. *)
Record complete (b : t) : Prop := {
  complete_view : is_Some (view b);
  complete_workspace : is_Some (workspace b);
  complete_layout : is_Some (layout b);
  complete_placement : is_Some (placement b);
  complete_content : is_Some (content b);
  complete_effects : is_Some (effects b);
  complete_hint : is_Some (presentation_hint b);
  complete_region : is_Some (backdrop_region b);
  complete_stacking : is_Some (stacking b) }.

End Bundle.

(** ** The store *)

Class Ecs (W E : Type) `{EqDecision E} := {
  ecs_new : W;
  ecs_get : W → E → option Bundle.t;
  ecs_spawn : W → Bundle.t → W * E;
  ecs_set : W → E → Bundle.t → W;
  ecs_despawn : W → E → W * bool;
  ecs_query : W → list (E * Bundle.t);
  ecs_get_new e : ecs_get ecs_new e = None;
  ecs_spawn_fresh w b w' e : ecs_spawn w b = (w', e) → ecs_get w e = None;
  ecs_get_spawn w b w' e e' :
    ecs_spawn w b = (w', e) →
    ecs_get w' e' = if decide (e' = e) then Some b else ecs_get w e';
  ecs_get_set w e b e' :
    is_Some (ecs_get w e) →
    ecs_get (ecs_set w e b) e' = if decide (e' = e) then Some b else ecs_get w e';
  ecs_get_despawn w e w' removed e' :
    ecs_despawn w e = (w', removed) →
    ecs_get w' e' = (if decide (e' = e) then None else ecs_get w e') ∧
    removed = bool_decide (is_Some (ecs_get w e));
  ecs_query_nodup w : NoDup (ecs_query w).*1;
  ecs_query_elem w e b : (e, b) ∈ ecs_query w ↔ ecs_get w e = Some b }.

(** ** A store in a finite map *)

Section map_ecs.

Definition map_fresh (m : gmap nat Bundle.t) : nat := fresh (dom m : gset nat).

#[export] Program Instance map_ecs : Ecs (gmap nat Bundle.t) nat := {|
  ecs_new := ∅;
  ecs_get m e := m !! e;
  ecs_spawn m b := (<[map_fresh m := b]> m, map_fresh m);
  ecs_set m e b := <[e := b]> m;
  ecs_despawn m e := (delete e m, bool_decide (is_Some (m !! e)));
  ecs_query m := map_to_list m |}.
Next Obligation. intros e. apply lookup_empty. Qed.
Next Obligation.
  intros m b m' e [= <- <-]. apply (not_elem_of_dom (D := gset nat)). exact (is_fresh (dom m : gset nat)).
Qed.
Next Obligation.
  intros m b m' e e' [= <- <-]. destruct (decide (e' = map_fresh m)) as [->|].
  - apply lookup_insert_eq.
  - by apply lookup_insert_ne.
Qed.
Next Obligation.
  intros m e b e' _. destruct (decide (e' = e)) as [->|].
  - apply lookup_insert_eq.
  - by apply lookup_insert_ne.
Qed.
Next Obligation.
  intros m e m' removed e' [= <- <-]. split; [|done].
  destruct (decide (e' = e)) as [->|].
  - apply lookup_delete_eq.
  - by apply lookup_delete_ne.
Qed.
Next Obligation. intros m. apply NoDup_fst_map_to_list. Qed.
Next Obligation. intros m e b. apply elem_of_map_to_list. Qed.

End map_ecs.
