(* ===== verification/Forest.v ===== *)
(** * Ownership forests

    Generic facts about a finite ownership relation without cycles: owner
    chains are bounded by the number of elements, so that the bounded loops of
    the compositor world reach the root; a breadth-first walk over the owned
    elements terminates and lists every descendant once; adding an edge that
    no chain closes keeps the relation acyclic. [World.v] instantiates this
    with the attachment of views. *)

From S2P Require Import Prelude.

Definition parent (own : Z → option Z) (v o : Z) : Prop := own v = Some o.

Definition acyclic (own : Z → option Z) : Prop := ∀ v, Acc (flip (parent own)) v.

(** [d] is [v] or owned by it, directly or not. *)
Definition descends (own : Z → option Z) (d v : Z) : Prop := rtc (parent own) d v.

Lemma parent_functional own v o o' : parent own v o → parent own v o' → o = o'.
Proof. unfold parent. congruence. Qed.

Lemma acyclic_irrefl own v : acyclic own → ¬ tc (parent own) v v.
Proof.
  intros Hac. induction (Hac v) as [v _ IH]. intros Hv.
  assert (∃ o, parent own v o ∧ rtc (parent own) o v) as (o&Ho&Hr).
  { inversion Hv; subst; [exists v; split; [done|apply rtc_refl]|].
    eexists; split; [done|]. by apply tc_rtc. }
  apply (IH o); [done|]. eapply tc_rtc_l; [exact Hr|]. by apply tc_once.
Qed.

Lemma acyclic_owner_neq own v o : acyclic own → parent own v o → o ≠ v.
Proof. intros Hac Ho ->. apply (acyclic_irrefl own v Hac). by apply tc_once. Qed.

(** A functional relation walks one path: two ends of chains from the same
    start are comparable. *)
Lemma descends_linear own v a b :
  descends own v a → descends own v b → descends own a b ∨ descends own b a.
Proof.
  intros Ha. revert b. induction Ha as [v|v w a Hvw Hwa IH]; intros b Hb; [by left|].
  inversion Hb as [|? w' ? Hvw' Hw'b]; subst.
  - right. eapply rtc_l; [exact Hvw|exact Hwa].
  - assert (w = w') as -> by (eapply parent_functional; done). by apply IH.
Qed.

Section forest.

Context (own : Z → option Z) (D : gset Z).
Context (closed : ∀ v o, own v = Some o → v ∈ D ∧ o ∈ D).
Context (Hac : acyclic own).

Lemma chain_list k v o :
  v ∈ D → nsteps (parent own) k v o →
  ∃ l, length l = S k ∧ NoDup l ∧ (∀ x, x ∈ l → x ∈ D ∧ descends own v x).
Proof.
  intros Hv Hk. induction Hk as [v|k v w o Hvw Hk IH].
  - exists [v]. split; [done|]. split; [apply NoDup_singleton|].
    intros x ->%list_elem_of_singleton. split; [done|apply rtc_refl].
  - destruct IH as (l&Hlen&Hnd&Hin); [by apply (closed v w)|].
    exists (v :: l). split; [simpl; lia|]. split.
    + apply NoDup_cons. split; [|done]. intros Hvl. apply (acyclic_irrefl own v Hac).
      destruct (Hin v Hvl) as [_ Hd]. by eapply tc_rtc_r; [apply tc_once|].
    + intros x [->|Hx]%elem_of_cons; [split; [done|apply rtc_refl]|].
      destruct (Hin x Hx). split; [done|]. by eapply rtc_l.
Qed.

Lemma nodup_bounded (l : list Z) :
  NoDup l → (∀ x, x ∈ l → x ∈ D) → (length l <= size D)%nat.
Proof.
  intros Hnd Hin. rewrite <- (size_list_to_set (C := gset Z) l Hnd).
  apply subseteq_size. intros x Hx%elem_of_list_to_set. by apply Hin.
Qed.

(** Owner chains are shorter than the number of elements. *)
Lemma chain_bound k v o : v ∈ D → nsteps (parent own) k v o → (k < size D)%nat.
Proof.
  intros Hv Hk. destruct (chain_list k v o Hv Hk) as (l&Hlen&Hnd&Hin).
  pose proof (nodup_bounded l Hnd (λ x Hx, proj1 (Hin x Hx))). lia.
Qed.

Lemma root_exists v : ∃ k r, nsteps (parent own) k v r ∧ own r = None.
Proof.
  induction (Hac v) as [v _ IH]. destruct (own v) as [o|] eqn:E.
  - destruct (IH o E) as (k&r&Hk&Hr). exists (S k), r. split; [|done].
    by eapply nsteps_l.
  - exists 0%nat, v. split; [constructor|done].
Qed.

Lemma root_unique v r r' :
  descends own v r → own r = None → descends own v r' → own r' = None → r = r'.
Proof.
  intros Hr Er Hr' Er'. destruct (descends_linear own v r r' Hr Hr') as [Hd|Hd].
  - inversion Hd as [|? w ? Hw]; subst; [done|]. unfold parent in Hw. congruence.
  - inversion Hd as [|? w ? Hw]; subst; [done|]. unfold parent in Hw. congruence.
Qed.

(** ** Breadth-first walk *)

Fixpoint bfs (children : Z → list Z) (fuel : nat) (family : list Z) (index : nat) :
    option (list Z) :=
  match fuel with
  | O => None
  | S fuel =>
      match family !! index with
      | None => Some family
      | Some owner => bfs children fuel (family ++ children owner) (S index)
      end
  end.

Context (children : Z → list Z).
Context (children_nodup : ∀ o, NoDup (children o)).
Context (children_spec : ∀ o v, v ∈ children o ↔ own v = Some o).

(** The vector during the walk: distinct descendants of the root, the
    children of the visited part are present, and every further element is
    the child of a visited one. *)
Record walk_ok (root : Z) (family : list Z) (index : nat) : Prop := {
  walk_nodup : NoDup family;
  walk_in : ∀ x, x ∈ family → x ∈ D;
  walk_descends : ∀ x, x ∈ family → descends own x root;
  walk_index : (index <= length family)%nat;
  walk_root : root ∈ family;
  walk_children : ∀ i o x, (i < index)%nat → family !! i = Some o →
    own x = Some o → x ∈ family;
  walk_parent : ∀ j x, family !! j = Some x → x ≠ root →
    ∃ i o, (i < index)%nat ∧ (i < j)%nat ∧ family !! i = Some o ∧ own x = Some o }.

Lemma walk_ok_start root : root ∈ D → walk_ok root [root] 0.
Proof.
  intros Hr. split; simpl.
  - apply NoDup_singleton.
  - by intros x ->%list_elem_of_singleton.
  - intros x ->%list_elem_of_singleton. apply rtc_refl.
  - lia.
  - by left.
  - lia.
  - intros [|j] x Hj; simpl in Hj; [congruence|by rewrite lookup_nil in Hj].
Qed.

Lemma walk_ok_step root family index o :
  walk_ok root family index → family !! index = Some o →
  walk_ok root (family ++ children o) (S index).
Proof.
  intros [Hnd Hin Hdesc Hidx Hroot Hch Hpar] Ho.
  pose proof (list_elem_of_lookup_2 _ _ _ Ho) as Hof.
  pose proof (lookup_lt_Some _ _ _ Ho) as Hlt. split.
  - apply NoDup_app. split; [done|]. split; [|done].
    intros x Hx Hxc%children_spec.
    destruct (decide (x = root)) as [->|Hxr].
    + apply (acyclic_irrefl own root Hac).
      eapply tc_rtc_r; [by apply tc_once|]. by apply Hdesc.
    + apply list_elem_of_lookup in Hx as [j Hj].
      destruct (Hpar j x Hj Hxr) as (i&o'&Hi&_&Hio&Hxo).
      assert (o' = o) as -> by congruence.
      assert (i = index) by (by eapply NoDup_lookup). lia.
  - intros x [Hx|Hx%children_spec]%elem_of_app; [by apply Hin|]. by apply (closed x o).
  - intros x [Hx|Hx%children_spec]%elem_of_app; [by apply Hdesc|].
    eapply rtc_l; [exact Hx|]. by apply Hdesc.
  - rewrite length_app. lia.
  - apply elem_of_app. by left.
  - intros i o' x Hi Hio Hx. rewrite lookup_app_l in Hio by lia.
    apply elem_of_app. destruct (decide (i = index)) as [->|].
    + right. apply children_spec. congruence.
    + left. eapply (Hch i); [lia|done|done].
  - intros j x Hj Hxr. apply lookup_app_Some in Hj as [Hj|[Hlen Hj]].
    + destruct (Hpar j x Hj Hxr) as (i&o'&?&?&?&?). exists i, o'.
      split; [lia|]. split; [done|]. split; [|done]. by rewrite lookup_app_l by lia.
    + apply list_elem_of_lookup_2, children_spec in Hj.
      exists index, o. split; [lia|]. split; [lia|]. split; [|done].
      by rewrite lookup_app_l by lia.
Qed.

Lemma bfs_spec root fuel family index :
  walk_ok root family index → (size D - index < fuel)%nat →
  ∃ l, bfs children fuel family index = Some l ∧ NoDup l ∧
    (∃ l', l = family ++ l') ∧ (∀ x, x ∈ l ↔ descends own x root) ∧
    ∀ j x, l !! j = Some x → x ≠ root →
      ∃ i o, (i < j)%nat ∧ l !! i = Some o ∧ own x = Some o.
Proof.
  revert family index. induction fuel as [|fuel IH]; intros family index Hok Hf; [lia|].
  cbn [bfs]. pose proof (nodup_bounded family (walk_nodup _ _ _ Hok) (walk_in _ _ _ Hok)).
  destruct (family !! index) as [o|] eqn:Eo.
  - pose proof (lookup_lt_Some _ _ _ Eo).
    destruct (IH (family ++ children o) (S index)) as (l&El&Hnd&(l'&Hl')&Hl&Hlo);
      [by apply walk_ok_step|lia|].
    exists l. split; [done|]. split; [done|].
    split; [|by split]. exists (children o ++ l'). by rewrite Hl', <- app_assoc.
  - exists family. split; [done|]. split; [apply Hok|]. split; [by exists []; rewrite app_nil_r|].
    split; [|intros j x Hj Hx; destruct (walk_parent _ _ _ Hok j x Hj Hx)
      as (i&o&_&?&?&?); by exists i, o].
    intros x. split; [apply Hok|]. intros Hx.
    apply lookup_ge_None in Eo. pose proof (walk_index _ _ _ Hok).
    clear IH. induction Hx as [x|x y r Hxy Hyr IHx]; [apply Hok|].
    specialize (IHx Hok). apply list_elem_of_lookup in IHx as [i Hi].
    eapply (walk_children _ _ _ Hok i y); [|done|done].
    apply lookup_lt_Some in Hi. lia.
Qed.

End forest.

(** The walk from a root: it starts with the root, and every other element
    comes after its owner. *)
Lemma bfs_total (own : Z → option Z) (D : gset Z) (children : Z → list Z) root :
  (∀ v o, own v = Some o → v ∈ D ∧ o ∈ D) → acyclic own →
  (∀ o, NoDup (children o)) → (∀ o v, v ∈ children o ↔ own v = Some o) →
  root ∈ D →
  ∃ l, bfs children (S (S (size D))) [root] 0 = Some (root :: l) ∧ NoDup (root :: l) ∧
    (∀ x, x ∈ root :: l ↔ descends own x root) ∧
    ∀ j x, (root :: l) !! j = Some x → x ≠ root →
      ∃ i o, (i < j)%nat ∧ (root :: l) !! i = Some o ∧ own x = Some o.
Proof.
  intros Hcl Hac Hnd Hsp Hr.
  destruct (bfs_spec own D Hcl Hac children Hnd Hsp root (S (S (size D))) [root] 0)
    as (l&El&Hl&(l'&->)&Hx&Ho); [by apply walk_ok_start|lia|].
  by exists l'.
Qed.

(** ** Adding an edge *)

Lemma acyclic_insert own own' v o :
  acyclic own → ¬ descends own o v → own' v = Some o →
  (∀ x, x ≠ v → own' x = own x) → acyclic own'.
Proof.
  intros Hac Hno Hv Hx.
  assert (Hclear : ∀ x, ¬ descends own x v → Acc (flip (parent own')) x).
  { intros x. induction (Hac x) as [x _ IH]. intros Hxv.
    assert (x ≠ v) by (intros ->; apply Hxv, rtc_refl).
    constructor. intros y Hy. unfold flip, parent in Hy. rewrite Hx in Hy by done.
    apply IH; [done|]. intros Hyv. apply Hxv. by eapply rtc_l. }
  assert (Hvacc : Acc (flip (parent own')) v).
  { constructor. intros y Hy. unfold flip, parent in Hy.
    assert (y = o) as -> by congruence. by apply Hclear. }
  intros x. induction (Hac x) as [x _ IH].
  destruct (decide (x = v)) as [->|Hne]; [done|].
  constructor. intros y Hy. unfold flip, parent in Hy. rewrite Hx in Hy by done. by apply IH.
Qed.

(** Dropping edges keeps a relation acyclic. *)
Lemma acyclic_sub own own' :
  acyclic own → (∀ v o, own' v = Some o → own v = Some o) → acyclic own'.
Proof.
  intros Hac Hsub v. induction (Hac v) as [v _ IH]. constructor.
  intros y Hy. apply IH. by apply Hsub.
Qed.

Lemma descends_sub own own' d v :
  (∀ v o, own' v = Some o → own v = Some o) → descends own' d v → descends own d v.
Proof.
  intros Hsub Hd. induction Hd as [|x y z Hxy _ IH]; [apply rtc_refl|].
  eapply rtc_l; [by apply Hsub|done].
Qed.
