(* ===== verification/World.v ===== *)
(** * The compositor world

    [CompositorWorld] of [apps/tensor-wm/src/ecs/world.rs] with its
    submodules [world/extract.rs], [world/minimize.rs] and
    [world/overview.rs]: the index from views to entities, the cached layout
    of each workspace, and every operation on views, in terms of the entity
    store of [Ecs.v]. Methods with [&mut self] run in the [Run] monad and
    methods with [&self] are functions of the state. Two panics are made
    explicit as [panic]: a failed [expect] or index, and a [view_family] loop
    that its fuel does not finish; [WorldInv.v] excludes both.
    The [debug_assert]s of the source are not modelled. *)

From S2P Require Import Prelude Geometry Layout Surface Scene Ecs.

Module ViewLifecycleError.

Inductive t :=
| DuplicateViewId (view : Z)
| MissingViewId (view : Z)
| SelfAttachment (view : Z)
| CrossWorkspaceAttachment (view owner : Z)
| AttachmentCycle (view owner : Z)
| AttachedViewCannotMove (view : Z)
| AttachedChild (owner child : Z)
| BrokenAttachment (view : Z).

End ViewLifecycleError.

Module OverviewViewKind.

Inductive t := Tiled | Floating | Attached.

#[global] Instance t_eq_dec : EqDecision t.
Proof. solve_decision. Defined.

End OverviewViewKind.

Module OverviewView.

Record t := mk {
  id : Z; root : Z; geometry : option Rect.t; focused : bool;
  kind : OverviewViewKind.t; stacking_order : Z }.

#[global] Instance t_eq_dec : EqDecision t.
Proof. solve_decision. Defined.

End OverviewView.

(** [centered_axis] and [attached_geometry]. *)
Definition centered_axis (origin available desired : Z) : Z :=
  let center := I64.saturating_add origin (available / 2) in
  let start := I64.saturating_sub center (desired / 2) in
  I32.of_wide_or_edge start.

Definition attached_geometry (owner : Rect.t) (constraints : SizeConstraints.t)
    (preferred_size : Size.t) : Rect.t :=
  let size := SizeConstraints.constrain constraints preferred_size in
  Rect.new (centered_axis (Rect.x owner) (Rect.width owner) (Size.width size))
           (centered_axis (Rect.y owner) (Rect.height owner) (Size.height size))
           (Size.width size) (Size.height size).

Module CompositorWorld.

Section world.

Context {W E : Type} `{Ecs W E}.

Record t := mk {
  world : W;
  appearance : SceneAppearance.t;
  view_entities : gmap Z E;
  layout_states : gmap Z LayoutState.t;
  layout_snapshots : gmap Z LayoutSnapshot.t;
  next_stacking_order : Z }.

Definition M (A : Type) : Type := Run t ViewLifecycleError.t A.

Definition with_appearance (a : SceneAppearance.t) : t := mk ecs_new a ∅ ∅ ∅ 1.

Definition new : t := with_appearance SceneAppearance.dflt.

Definition set_world (w : W) (s : t) : t :=
  mk w (appearance s) (view_entities s) (layout_states s) (layout_snapshots s)
     (next_stacking_order s).

Definition set_entities (m : gmap Z E) (s : t) : t :=
  mk (world s) (appearance s) m (layout_states s) (layout_snapshots s)
     (next_stacking_order s).

Definition set_layout_state (ws : Z) (st : LayoutState.t) (s : t) : t :=
  mk (world s) (appearance s) (view_entities s) (<[ws := st]> (layout_states s))
     (layout_snapshots s) (next_stacking_order s).

Definition set_snapshots (m : gmap Z LayoutSnapshot.t) (s : t) : t :=
  mk (world s) (appearance s) (view_entities s) (layout_states s) m
     (next_stacking_order s).

(** [self.layout_snapshots.remove(&ws)] *)
Definition drop_snapshot (ws : Z) (s : t) : t :=
  set_snapshots (delete ws (layout_snapshots s)) s.

Definition set_next (n : Z) (s : t) : t :=
  mk (world s) (appearance s) (view_entities s) (layout_states s)
     (layout_snapshots s) n.

Definition set_appearance (a : SceneAppearance.t) (s : t) : t * bool :=
  if bool_decide (a = appearance s) then (s, false)
  else (mk (world s) a (view_entities s) (layout_states s) (layout_snapshots s)
           (next_stacking_order s), true).

(** ** Access to components *)

(** [self.world.get::<C>(entity)] *)
Definition component {C} (p : Bundle.t → option C) (s : t) (e : E) : option C :=
  b ← ecs_get (world s) e; p b.

Definition entity_for (v : Z) : M E :=
  s ← get_state;
  match view_entities s !! v with
  | Some e => mret e
  | None => throw (ViewLifecycleError.MissingViewId v)
  end.

(** [self.view_entities[&v]] *)
Definition index_view (v : Z) : M E := s ← get_state; expect (view_entities s !! v).

(** [get::<C>(entity).expect(..)] *)
Definition required {C} (p : Bundle.t → option C) (e : E) : M C :=
  s ← get_state; expect (component p s e).

(** [self.world.entity_mut(entity)] followed by component updates. *)
Definition entity_mut (e : E) (f : Bundle.t → Bundle.t) : M unit :=
  s ← get_state;
  b ← expect (ecs_get (world s) e);
  modify (set_world (ecs_set (world s) e (f b))).

(** Entities that a query over [(&View, &Workspace, ..)] visits. *)
Definition query (s : t) : list (E * Bundle.t) := ecs_query (world s).

Definition view_component {C} (p : Bundle.t → option C) (s : t) (v : Z) : option C :=
  e ← view_entities s !! v; component p s e.

Definition view_placement (s : t) (v : Z) : option ViewPlacement.t :=
  view_component Bundle.placement s v.

Definition view_workspace (s : t) (v : Z) : option Z := view_component Bundle.workspace s v.

Definition presentation_hint (s : t) (v : Z) : option SurfacePresentationHint.t :=
  view_component Bundle.presentation_hint s v.

Definition geometry (s : t) (v : Z) : option Rect.t := view_component Bundle.geometry s v.

Definition view_layout (s : t) (v : Z) : option ViewLayout.t :=
  view_component Bundle.layout s v.

Definition view_effects (s : t) (v : Z) : option EffectStyle.t :=
  view_component Bundle.effects s v.

Definition view_content (s : t) (v : Z) : option (list SurfaceContent.t) :=
  view_component Bundle.content s v.

Definition minimized_from (s : t) (v : Z) : option Z :=
  view_component Bundle.minimized_from s v.

Definition layout_snapshot (s : t) (ws : Z) : option LayoutSnapshot.t :=
  layout_snapshots s !! ws.

Definition focus_marker (b : Bundle.t) : option unit :=
  if Bundle.focused b then Some tt else None.

Definition is_focused (s : t) (v : Z) : bool :=
  bool_decide (is_Some (view_component focus_marker s v)).

Definition owner_of (s : t) (v : Z) : option Z :=
  p ← view_placement s v; ViewPlacement.owner p.

(** ** Attachment *)

Definition attached_children (s : t) (owner : Z) : list Z :=
  sort_by_key id
    (omap (λ '(v, e),
       p ← component Bundle.placement s e;
       if decide (ViewPlacement.owner p = Some owner) then Some v else None)
     (map_to_list (view_entities s))).

Fixpoint ancestor_loop (n : nat) (s : t) (current : Z) : option Z :=
  match n with
  | O => None
  | S n =>
      placement ← view_placement s current;
      match ViewPlacement.owner placement with
      | None => Some current
      | Some owner => ancestor_loop n s owner
      end
  end.

Definition tiled_ancestor (s : t) (v : Z) : option Z :=
  ancestor_loop (size (view_entities s)) s v.

Fixpoint cycle_loop (n : nat) (s : t) (view current : Z) : bool :=
  match n with
  | O => true
  | S n =>
      if current =? view then true
      else match owner_of s current with
           | None => false
           | Some next => cycle_loop n s view next
           end
  end.

Definition attachment_would_cycle (s : t) (view owner : Z) : bool :=
  cycle_loop (size (view_entities s)) s view owner.

(** The [while let] loop over the growing vector. *)
Fixpoint family_loop (fuel : nat) (s : t) (family : list Z) (index : nat) :
    option (list Z) :=
  match fuel with
  | O => None
  | S fuel =>
      match family !! index with
      | None => Some family
      | Some owner =>
          family_loop fuel s (family ++ attached_children s owner) (S index)
      end
  end.

Definition view_family (s : t) (root : Z) : option (list Z) :=
  family_loop (S (S (size (view_entities s)))) s [root] 0.

(** ** Stacking *)

Definition allocate_stacking_order : M Z :=
  s ← get_state;
  let order := next_stacking_order s in
  next ← expect (U64.checked_succ order);
  modify (set_next next);;
  mret order.

Definition raise_one (v : Z) : M unit :=
  e ← entity_for v;
  order ← allocate_stacking_order;
  entity_mut e (Bundle.set_stacking (Some order)).

Definition raise_view_family (focused : Z) : M unit :=
  s ← get_state;
  root ← match tiled_ancestor s focused with
         | Some root => mret root
         | None => throw (ViewLifecycleError.BrokenAttachment focused)
         end;
  family ← expect (view_family s root);
  family ←
    (if decide (focused = root) then mret family
     else
       focused_subtree ← expect (view_family s focused);
       mret (filter (λ v, v ∉ focused_subtree) family ++ focused_subtree));
  for_each raise_one family.

(** ** Views *)

Definition spawn_view (v ws : Z) : M unit :=
  s ← get_state;
  if decide (is_Some (view_entities s !! v)) then
    throw (ViewLifecycleError.DuplicateViewId v)
  else
    order ← allocate_stacking_order;
    s ← get_state;
    let '(w, e) := ecs_spawn (world s) (Bundle.spawned v ws order) in
    modify (set_world w);;
    modify (λ s, set_entities (<[v := e]> (view_entities s)) s);;
    modify (drop_snapshot ws).

Definition remove_view (v : Z) : M unit :=
  s ← get_state;
  match attached_children s v with
  | child :: _ => throw (ViewLifecycleError.AttachedChild v child)
  | [] =>
      match view_entities s !! v with
      | None => throw (ViewLifecycleError.MissingViewId v)
      | Some e =>
          modify (λ s, set_entities (delete v (view_entities s)) s);;
          ws ← required Bundle.workspace e;
          modify (λ s, set_world (ecs_despawn (world s) e).1 s);;
          modify (drop_snapshot ws)
      end
  end.

Definition focused_entities (ws : Z) (s : t) : list E :=
  omap (λ '(e, b),
    w ← Bundle.workspace b;
    if decide (w = ws ∧ Bundle.focused b = true) then Some e else None) (query s).

Definition unfocus (e : E) : M unit := entity_mut e (Bundle.set_focused false).

Definition move_member (ws v : Z) : M unit :=
  e ← index_view v;
  required Bundle.workspace e;;
  entity_mut e (λ b, Bundle.set_minimized_from None
                       (Bundle.set_geometry None (Bundle.set_workspace (Some ws) b))).

Definition move_view (v ws : Z) : M unit :=
  e ← entity_for v;
  placement ← required Bundle.placement e;
  if decide (is_Some (ViewPlacement.owner placement)) then
    throw (ViewLifecycleError.AttachedViewCannotMove v)
  else
    current ← required Bundle.workspace e;
    if decide (current = ws) then mret tt
    else
      s ← get_state;
      family ← expect (view_family s v);
      let was_focused := existsb (is_focused s) family in
      (if was_focused then for_each unfocus (focused_entities ws s) else mret tt);;
      for_each (move_member ws) family;;
      modify (drop_snapshot current);;
      modify (drop_snapshot ws).

Definition set_view_placement (v : Z) (placement : ViewPlacement.t) : M bool :=
  e ← entity_for v;
  current ← required Bundle.placement e;
  if decide (current = placement) then mret false
  else
    ws ← required Bundle.workspace e;
    match ViewPlacement.owner placement with
    | None => mret tt
    | Some owner =>
        if decide (owner = v) then throw (ViewLifecycleError.SelfAttachment v)
        else
          owner_entity ← entity_for owner;
          owner_ws ← required Bundle.workspace owner_entity;
          if decide (owner_ws = ws) then
            s ← get_state;
            if attachment_would_cycle s v owner : bool
            then throw (ViewLifecycleError.AttachmentCycle v owner)
            else mret tt
          else throw (ViewLifecycleError.CrossWorkspaceAttachment v owner)
    end;;
    entity_mut e (Bundle.set_placement (Some placement));;
    modify (drop_snapshot ws);;
    mret true.

Definition update_floating_geometry (v : Z) (g : Rect.t) : M bool :=
  e ← entity_for v;
  placement ← required Bundle.placement e;
  match placement with
  | ViewPlacement.Floating current =>
      if decide (current = g) then mret false
      else
        entity_mut e (λ b, Bundle.set_last_geometry (Some g)
          (Bundle.set_geometry (Some g)
             (Bundle.set_placement (Some (ViewPlacement.Floating g)) b)));;
        mret true
  | _ => mret false
  end.

Definition set_view_layout (v : Z) (layout : ViewLayout.t) : M unit :=
  e ← entity_for v;
  ws ← required Bundle.workspace e;
  entity_mut e (Bundle.set_layout (Some layout));;
  modify (drop_snapshot ws).

Definition set_view_constraints (v : Z) (constraints : SizeConstraints.t) : M bool :=
  e ← entity_for v;
  layout ← required Bundle.layout e;
  if decide (ViewLayout.constraints layout = constraints) then mret false
  else
    ws ← required Bundle.workspace e;
    entity_mut e
      (Bundle.set_layout (Some (ViewLayout.mk constraints (ViewLayout.primary_size layout))));;
    modify (drop_snapshot ws);;
    mret true.

Definition reset_layout_states (s : t) : t :=
  mk (world s) (appearance s) (view_entities s) ∅ ∅ (next_stacking_order s).

Definition focus_view (v : Z) : M unit :=
  e ← entity_for v;
  s ← get_state;
  if decide (is_Some (component focus_marker s e)) then mret tt
  else
    ws ← required Bundle.workspace e;
    for_each unfocus (focused_entities ws s);;
    entity_mut e (Bundle.set_focused true);;
    raise_view_family v;;
    modify (drop_snapshot ws).

Definition set_view_effects (v : Z) (effects : EffectStyle.t) : M bool :=
  e ← entity_for v;
  current ← required Bundle.effects e;
  if decide (current = effects) then mret false
  else entity_mut e (Bundle.set_effects (Some effects));; mret true.

Definition set_view_backdrop_effect (v : Z) (blur : option BackdropBlur.t)
    (region : option BackdropRegion.t) : M bool :=
  e ← entity_for v;
  effects ← required Bundle.effects e;
  current_region ← required Bundle.backdrop_region e;
  if decide (EffectStyle.backdrop_blur effects = blur ∧ current_region = region)
  then mret false
  else
    entity_mut e (Bundle.set_effects (Some (EffectStyle.mk (EffectStyle.opacity effects)
      (EffectStyle.corner_radius effects) (EffectStyle.shadow effects) blur)));;
    entity_mut e (Bundle.set_backdrop_region (Some region));;
    mret true.

Definition set_view_content (v : Z) (surfaces : list SurfaceContent.t) : M bool :=
  e ← entity_for v;
  current ← required Bundle.content e;
  if decide (current = surfaces) then mret false
  else entity_mut e (Bundle.set_content (Some surfaces));; mret true.

Definition set_presentation_hint (v : Z) (hint : SurfacePresentationHint.t) : M bool :=
  e ← entity_for v;
  current ← required Bundle.presentation_hint e;
  if decide (current = hint) then mret false
  else entity_mut e (Bundle.set_presentation_hint (Some hint));; mret true.

(** ** Minimize *)

Definition minimize_view (v hidden : Z) : M bool :=
  e ← entity_for v;
  s ← get_state;
  if decide (is_Some (component Bundle.minimized_from s e)) then mret false
  else
    origin ← required Bundle.workspace e;
    if decide (origin = hidden) then mret false
    else
      move_view v hidden;;
      e ← entity_for v;
      entity_mut e (Bundle.set_minimized_from (Some origin));;
      mret true.

Definition restore_minimized_view (v : Z) : M (option Z) :=
  e ← entity_for v;
  s ← get_state;
  match component Bundle.minimized_from s e with
  | None => mret None
  | Some origin => move_view v origin;; mret (Some origin)
  end.

Definition minimized_count (s : t) : nat :=
  length (filter (λ p, is_Some (component Bundle.minimized_from s p.2))
            (map_to_list (view_entities s))).

(** ** Queries *)

Definition focused_view (ws : Z) (s : t) : option Z :=
  head (omap (λ '(_, b),
    v ← Bundle.view b;
    w ← Bundle.workspace b;
    if decide (w = ws ∧ Bundle.focused b = true) then Some v else None) (query s)).

Definition view_count (ws : Z) (s : t) : nat :=
  length (filter (λ p, Bundle.workspace p.2 = Some ws) (query s)).

(** Views of a workspace with their stacking order, as the two replacement
    queries visit them. *)
Definition stacked_views (ws : Z) (s : t) : list (Z * Z) :=
  omap (λ '(_, b),
    v ← Bundle.view b;
    w ← Bundle.workspace b;
    order ← Bundle.stacking b;
    if decide (w = ws) then Some (order, v) else None) (query s).

Definition focus_replacement_after_removal (v : Z) : M (option Z) :=
  e ← entity_for v;
  s ← get_state;
  if decide (component focus_marker s e = None) then mret None
  else
    ws ← required Bundle.workspace e;
    placement ← required Bundle.placement e;
    match ViewPlacement.owner placement with
    | Some owner => mret (Some owner)
    | None =>
        mret (snd <$> max_by_key id (filter (λ p, p.2 ≠ v) (stacked_views ws s)))
    end.

Definition focus_replacement_after_family_removal (root : Z) : M (option Z) :=
  e ← entity_for root;
  ws ← required Bundle.workspace e;
  s ← get_state;
  family ← expect (view_family s root);
  mret (snd <$> max_by_key id (filter (λ p, p.2 ∉ family) (stacked_views ws s))).

(** ** Arrangement *)

Record WorkspaceView := mk_workspace_view {
  wv_id : Z; wv_entity : E; wv_layout : ViewLayout.t;
  wv_placement : ViewPlacement.t; wv_focused : bool }.

Definition workspace_views (ws : Z) (s : t) : list WorkspaceView :=
  sort_by_key wv_id
    (omap (λ '(e, b),
       v ← Bundle.view b;
       w ← Bundle.workspace b;
       layout ← Bundle.layout b;
       placement ← Bundle.placement b;
       if decide (w = ws)
       then Some (mk_workspace_view v e layout placement (Bundle.focused b))
       else None) (query s)).

Definition tiled_views (views : list WorkspaceView) : list WorkspaceView :=
  filter (λ view, ViewPlacement.is_tiled (wv_placement view) = true) views.

(** The index of the focused column among the tiled views. *)
Definition focused_index (s : t) (views tiled : list WorkspaceView) : option nat :=
  view ← head (filter (λ view, wv_focused view = true) views);
  owner ← tiled_ancestor s (wv_id view);
  fst <$> list_find (λ view, wv_id view = owner) tiled.

(** One pass over [pending]: the geometries, the unresolved views in order
    and the [progressed] flag. *)
Fixpoint resolve_pass (geometries : gmap Z Rect.t) (pending : list WorkspaceView) :
    gmap Z Rect.t * list WorkspaceView * bool :=
  match pending with
  | [] => (geometries, [], false)
  | view :: pending =>
      match wv_placement view with
      | ViewPlacement.Tiled => resolve_pass geometries pending
      | ViewPlacement.Floating g =>
          let '(geometries, unresolved, _) :=
            resolve_pass (<[wv_id view := g]> geometries) pending in
          (geometries, unresolved, true)
      | ViewPlacement.Attached owner preferred_size =>
          match geometries !! owner with
          | None =>
              let '(geometries, unresolved, progressed) :=
                resolve_pass geometries pending in
              (geometries, view :: unresolved, progressed)
          | Some owner_geometry =>
              let g := attached_geometry owner_geometry
                         (ViewLayout.constraints (wv_layout view)) preferred_size in
              let '(geometries, unresolved, _) :=
                resolve_pass (<[wv_id view := g]> geometries) pending in
              (geometries, unresolved, true)
          end
      end
  end.

Fixpoint resolve_loop (n : nat) (geometries : gmap Z Rect.t)
    (pending : list WorkspaceView) : gmap Z Rect.t :=
  match n with
  | O => geometries
  | S n =>
      let '(geometries, unresolved, progressed) := resolve_pass geometries pending in
      match unresolved with
      | [] => geometries
      | _ => if progressed : bool then resolve_loop n geometries unresolved else geometries
      end
  end.

Definition tiled_geometries (tiled : list WorkspaceView)
    (placements : list LayoutPlacement.t) : gmap Z Rect.t :=
  foldl (λ m '(view, placement),
           <[wv_id view := LayoutPlacement.geometry placement]> m) ∅
    (zip tiled placements).

Definition workspace_geometries (views : list WorkspaceView)
    (snapshot : LayoutSnapshot.t) : gmap Z Rect.t :=
  let pending := filter (λ view, ViewPlacement.is_tiled (wv_placement view) = false) views in
  resolve_loop (length pending)
    (tiled_geometries (tiled_views views) (LayoutSnapshot.placements snapshot)) pending.

Definition apply_geometry (geometries : gmap Z Rect.t) (view : WorkspaceView) : M unit :=
  match geometries !! wv_id view with
  | Some g =>
      entity_mut (wv_entity view)
        (λ b, Bundle.set_last_geometry (Some g) (Bundle.set_geometry (Some g) b))
  | None => entity_mut (wv_entity view) (Bundle.set_geometry None)
  end.

Definition arrange_workspace (ws : Z) (engine : LayoutEngine.t) (output : Rect.t) :
    M LayoutSnapshot.t :=
  s ← get_state;
  let views := workspace_views ws s in
  let tiled := tiled_views views in
  let items := (λ view, ViewLayout.item (wv_layout view)) <$> tiled in
  let focused := focused_index s views tiled in
  let state := default LayoutState.dflt (layout_states s !! ws) in
  let '(state, snapshot) := LayoutEngine.arrange engine state output items focused in
  modify (set_layout_state ws state);;
  let geometries := workspace_geometries views snapshot in
  for_each (apply_geometry geometries) views;;
  modify (λ s, set_snapshots (<[ws := snapshot]> (layout_snapshots s)) s);;
  mret snapshot.

(** ** Scene extraction *)

(** [None] is the early return of [?]. *)
Fixpoint extract_nodes (viewport : Rect.t) (views : list Z)
    (nodes : list SceneNode.t) (contents : list SurfaceContent.t) :
    M (option (list SceneNode.t * list SurfaceContent.t)) :=
  match views with
  | [] => mret (Some (nodes, contents))
  | v :: views =>
      e ← index_view v;
      s ← get_state;
      match component Bundle.geometry s e with
      | None => mret None
      | Some g =>
          let placement := LayoutPlacement.new g viewport in
          stacking_order ← required Bundle.stacking e;
          effects ← required Bundle.effects e;
          let effects :=
            match WindowShadowStyle.effect (SceneAppearance.window_shadow (appearance s)) with
            | Some shadow =>
                EffectStyle.mk (EffectStyle.opacity effects)
                  (EffectStyle.corner_radius effects) (Some shadow)
                  (EffectStyle.backdrop_blur effects)
            | None => effects
            end in
          let effects :=
            if 0 <? SceneAppearance.window_corners (appearance s) then
              EffectStyle.mk (EffectStyle.opacity effects)
                (SceneAppearance.window_corners (appearance s))
                (EffectStyle.shadow effects) (EffectStyle.backdrop_blur effects)
            else effects in
          backdrop_region ← required Bundle.backdrop_region e;
          let focus_outline :=
            focus_marker' ← component focus_marker s e;
            FocusRingStyle.outline (SceneAppearance.focus_ring (appearance s)) in
          hint ← required Bundle.presentation_hint e;
          surfaces ← required Bundle.content e;
          span ← expect (ContentSpan.new (Z.of_nat (length contents))
                           (Z.of_nat (length surfaces)));
          let node :=
            SceneNode.with_content
              (SceneNode.with_presentation_hint
                 (SceneNode.with_focus_outline
                    (SceneNode.with_backdrop_region
                       (SceneNode.new v stacking_order placement effects)
                       backdrop_region)
                    focus_outline)
                 hint)
              span in
          extract_nodes viewport views (nodes ++ [node]) (contents ++ surfaces)
      end
  end.

Definition workspace_view_ids (ws : Z) (s : t) : list Z :=
  sort_by_key id
    (omap (λ '(_, b),
       v ← Bundle.view b;
       w ← Bundle.workspace b;
       if decide (w = ws) then Some v else None) (query s)).

Definition extract_scene (ws : Z) : M (option SceneSnapshot.t) :=
  s ← get_state;
  match layout_snapshots s !! ws with
  | None => mret None
  | Some layout =>
      extracted ← extract_nodes (LayoutSnapshot.viewport layout)
                    (workspace_view_ids ws s) [] [];
      match extracted with
      | None => mret None
      | Some (nodes, contents) =>
          scene ← expect (SceneSnapshot.with_content ws (LayoutSnapshot.viewport layout)
                            nodes contents);
          mret (Some scene)
      end
  end.

(** ** Overview inventory *)

(** One row of the inventory: identifier, geometry, focus, kind, stacking. *)
Definition overview_row (ws : Z) (b : Bundle.t) :
    option (Z * option Rect.t * bool * OverviewViewKind.t * Z) :=
  v ← Bundle.view b;
  w ← Bundle.workspace b;
  placement ← Bundle.placement b;
  order ← Bundle.stacking b;
  if decide (w = ws) then
    let '(kind, placement_geometry) :=
      match placement with
      | ViewPlacement.Tiled => (OverviewViewKind.Tiled, None)
      | ViewPlacement.Floating g => (OverviewViewKind.Floating, Some g)
      | ViewPlacement.Attached _ _ => (OverviewViewKind.Attached, None)
      end in
    let g :=
      match Bundle.geometry b, Bundle.last_geometry b with
      | Some g, _ => Some g
      | None, Some g => Some g
      | None, None => placement_geometry
      end in
    Some (v, g, Bundle.focused b, kind, order)
  else None.

Definition overview_key
    (row : Z * option Rect.t * bool * OverviewViewKind.t * Z) : Z * Z :=
  let '(v, _, _, _, order) := row in (order, v).

Definition overview_views (ws : Z) (s : t) : list OverviewView.t :=
  omap (λ '(v, g, focused, kind, order),
    root ← tiled_ancestor s v;
    Some (OverviewView.mk v root g focused kind order))
  (sort_by_key overview_key (omap (λ '(_, b), overview_row ws b) (query s))).

End world.

Arguments t W E : clear implicits.
Arguments M W E A : clear implicits.
Arguments WorkspaceView E : clear implicits.

End CompositorWorld.
