(* ===== verification/WorldInv.v ===== *)
(** * Invariant of the compositor world

    The entity store behind [CompositorWorld] is abstracted to a finite map
    from views to component bundles ([abs]), on which the primitives of the
    source act like map operations. [world_ok] is the invariant of every
    reachable world: index and store agree, owners exist in the same
    workspace, attachment has no cycle, at most one view per workspace is
    focused, stacking orders are distinct and below the next one, and a cached
    layout has a geometry for every view of its workspace. *)

From S2P Require Import Prelude Geometry Layout Surface Scene Ecs Forest.
From S2P Require Import World.

Import CompositorWorld.

Section abstraction.

Context {W E : Type} `{Ecs W E}.

#[local] Abbreviation state := (t W E).

(** ** The abstract state *)

Definition abs (s : state) : gmap Z Bundle.t :=
  omap (λ e, ecs_get (world s) e) (view_entities s).

(** Index and store describe the same views. *)
Definition linked (s : state) : Prop :=
  (∀ v v' e, view_entities s !! v = Some e → view_entities s !! v' = Some e → v = v') ∧
  (∀ v e, view_entities s !! v = Some e →
     ∃ b, ecs_get (world s) e = Some b ∧ Bundle.view b = Some v ∧ Bundle.complete b) ∧
  (∀ e b, ecs_get (world s) e = Some b → ∃ v, view_entities s !! v = Some e).

Lemma abs_lookup (s : state) v : abs s !! v = (e ← view_entities s !! v; ecs_get (world s) e).
Proof. unfold abs. rewrite lookup_omap. by destruct (view_entities s !! v). Qed.

Lemma abs_some (s : state) v b :
  linked s → abs s !! v = Some b →
  ∃ e, view_entities s !! v = Some e ∧ ecs_get (world s) e = Some b ∧
       Bundle.view b = Some v ∧ Bundle.complete b.
Proof.
  intros (_&Hlive&_). rewrite abs_lookup. destruct (view_entities s !! v) as [e|] eqn:Ee; simpl; [|done].
  intros Hb. exists e. destruct (Hlive v e Ee) as (b'&Hb'&?&?).
  assert (b' = b) as -> by congruence. done.
Qed.

Lemma abs_entity (s : state) v e :
  linked s → view_entities s !! v = Some e →
  ∃ b, abs s !! v = Some b ∧ ecs_get (world s) e = Some b ∧ Bundle.complete b.
Proof.
  intros (_&Hlive&_) He. destruct (Hlive v e He) as (b&Hb&_&Hc).
  exists b. split; [|done]. by rewrite abs_lookup, He.
Qed.

Lemma abs_none (s : state) v : linked s → abs s !! v = None ↔ view_entities s !! v = None.
Proof.
  intros Hl. split; intros Hn.
  - destruct (view_entities s !! v) as [e|] eqn:Ee; [|done].
    destruct (abs_entity s v e Hl Ee) as (b&Hb&_). congruence.
  - by rewrite abs_lookup, Hn.
Qed.

Lemma abs_dom (s : state) : linked s → dom (abs s) = dom (view_entities s).
Proof.
  intros Hl. apply set_eq. intros v. rewrite !elem_of_dom.
  split; intros [x Hx].
  - destruct (abs_some s v x Hl Hx) as (e&->&_). by eauto.
  - destruct (abs_entity s v x Hl Hx) as (b&->&_). by eauto.
Qed.

Lemma abs_size (s : state) : linked s → size (view_entities s) = size (dom (abs s)).
Proof. intros Hl. by rewrite abs_dom, size_dom. Qed.

Lemma view_component_abs {C} (p : Bundle.t → option C) (s : state) v :
  view_component p s v = (b ← abs s !! v; p b).
Proof.
  unfold view_component, component. rewrite abs_lookup.
  by destruct (view_entities s !! v).
Qed.

Lemma component_abs {C} (p : Bundle.t → option C) (s : state) v e :
  view_entities s !! v = Some e → component p s e = (b ← abs s !! v; p b).
Proof. intros He. unfold component. by rewrite abs_lookup, He. Qed.

(** ** Queries over the abstract state *)

Lemma query_elem (s : state) e b :
  linked s → (e, b) ∈ query s ↔ ∃ v, view_entities s !! v = Some e ∧ abs s !! v = Some b.
Proof.
  intros Hl. unfold query. rewrite ecs_query_elem. split.
  - intros Hb. destruct Hl as (Hinj&Hlive&Hidx). destruct (Hidx e b Hb) as [v Hv].
    exists v. split; [done|]. by rewrite abs_lookup, Hv.
  - intros (v&Hv&Hb). by rewrite abs_lookup, Hv in Hb.
Qed.

(** A query that keeps one value per matching entity. *)
Lemma query_omap_elem {C} (F : E → Bundle.t → option C) (s : state) x :
  linked s →
  x ∈ omap (λ '(e, b), F e b) (query s) ↔
  ∃ v e b, view_entities s !! v = Some e ∧ abs s !! v = Some b ∧ F e b = Some x.
Proof.
  intros Hl. rewrite list_elem_of_omap. split.
  - intros ([e b]&Hq&Hx). apply query_elem in Hq as (v&?&?); [|done]. by exists v, e, b.
  - intros (v&e&b&He&Hb&Hx). exists (e, b). split; [|done]. apply query_elem; [done|].
    by exists v.
Qed.

(** The values of a query are distinct when they determine the view. *)
Lemma query_omap_nodup {C} (F : E → Bundle.t → option C) (key : C → Z) (s : state) :
  linked s →
  (∀ e b x, F e b = Some x → Bundle.view b = Some (key x)) →
  NoDup (key <$> omap (λ '(e, b), F e b) (query s)).
Proof.
  intros Hl HF. pose proof (ecs_query_nodup (world s)) as Hnd. fold (query s) in Hnd.
  assert (Hq : ∀ e b, (e, b) ∈ query s → ecs_get (world s) e = Some b)
    by (intros e b; apply ecs_query_elem).
  induction (query s) as [|[e b] q IH]; simpl; [constructor|].
  apply NoDup_cons in Hnd as [Hne Hnd].
  assert (IH' : NoDup (key <$> omap (λ '(e, b), F e b) q)).
  { apply IH; [done|]. intros e' b' Hin. apply Hq. by right. }
  destruct (F e b) as [x|] eqn:Ex; [|done]. simpl. apply NoDup_cons. split; [|done].
  intros (y&Hk&([e' b']&Hin&Hy)%list_elem_of_omap)%list_elem_of_fmap.
  apply Hne. apply list_elem_of_fmap. exists (e', b'). split; [|done]. simpl.
  pose proof (HF e b x Ex) as Hv. pose proof (HF e' b' y Hy) as Hv'.
  destruct Hl as (_&Hlive&Hidx).
  assert (Hge : ecs_get (world s) e = Some b) by (apply Hq; by left).
  assert (Hge' : ecs_get (world s) e' = Some b') by (apply Hq; by right).
  destruct (Hidx e b Hge) as [v He]. destruct (Hidx e' b' Hge') as [v' He'].
  destruct (Hlive v e He) as (b1&?&?&_). destruct (Hlive v' e' He') as (b2&?&?&_).
  congruence.
Qed.

(** ** Primitives *)

Lemma run_entity_for {B} (s : state) v e (k : E → M W E B) :
  view_entities s !! v = Some e → (entity_for v ≫= k) s = k e s.
Proof.
  intros He. apply run_ok. unfold entity_for. rewrite run_get. by rewrite He.
Qed.

Lemma run_missing {B} (s : state) v (k : E → M W E B) :
  view_entities s !! v = None →
  (entity_for v ≫= k) s = (s, Err (ViewLifecycleError.MissingViewId v)).
Proof.
  intros He. apply run_err. unfold entity_for. rewrite run_get. by rewrite He.
Qed.

Lemma run_index_view {B} (s : state) v e (k : E → M W E B) :
  view_entities s !! v = Some e → (index_view v ≫= k) s = k e s.
Proof. intros He. apply run_ok. unfold index_view. rewrite run_get. by rewrite He. Qed.

Lemma run_required {B C} (p : Bundle.t → option C) (s : state) e c (k : C → M W E B) :
  component p s e = Some c → (required p e ≫= k) s = k c s.
Proof. intros Hc. apply run_ok. unfold required. rewrite run_get. by rewrite Hc. Qed.

(** Bundle updates that keep the identity and the mandatory components. *)
Definition keeps (f : Bundle.t → Bundle.t) : Prop :=
  ∀ b, Bundle.view (f b) = Bundle.view b ∧ (Bundle.complete b → Bundle.complete (f b)).

Lemma entity_mut_spec (s : state) v e b f :
  linked s → view_entities s !! v = Some e → abs s !! v = Some b → keeps f →
  ∃ w, entity_mut e f s = (set_world w s, Ok tt) ∧ linked (set_world w s) ∧
    abs (set_world w s) = <[v := f b]> (abs s).
Proof.
  intros Hl He Hb Hf. pose proof Hl as (Hinj&Hlive&Hidx).
  assert (Hge : ecs_get (world s) e = Some b) by (by rewrite abs_lookup, He in Hb).
  destruct (Hlive v e He) as (b'&Hb'&Hv&Hc). assert (b' = b) as -> by congruence.
  set (w := ecs_set (world s) e (f b)).
  assert (Hw : ∀ e', ecs_get w e' = if decide (e' = e) then Some (f b) else ecs_get (world s) e')
    by (intros e'; apply ecs_get_set; by eauto).
  exists w. split; [|split].
  - unfold entity_mut. rewrite run_get, (run_expect _ b) by done. done.
  - split; [done|]. split; cbn [world set_world view_entities].
    + intros v' e' He'. rewrite Hw. case_decide as Hd; [subst e'|by apply Hlive].
      assert (v' = v) as -> by (by eapply Hinj). exists (f b).
      destruct (Hf b) as [Hfv Hfc]. split; [done|]. split; [congruence|auto].
    + intros e' b'. rewrite Hw. case_decide as Hd; [subst; by eauto|by apply Hidx].
  - apply map_eq. intros v'. rewrite abs_lookup. cbn [world set_world view_entities].
    destruct (decide (v' = v)) as [->|Hne].
    + rewrite He, lookup_insert_eq. simpl. rewrite Hw. by rewrite decide_True.
    + rewrite lookup_insert_ne, abs_lookup by done.
      destruct (view_entities s !! v') as [e'|] eqn:He'; simpl; [|done].
      rewrite Hw. rewrite decide_False; [done|]. intros ->. apply Hne. by eapply Hinj.
Qed.

Lemma run_entity_mut {B} (s : state) v e b f (k : unit → M W E B) :
  linked s → view_entities s !! v = Some e → abs s !! v = Some b → keeps f →
  ∃ w, (entity_mut e f ≫= k) s = k tt (set_world w s) ∧ linked (set_world w s) ∧
    abs (set_world w s) = <[v := f b]> (abs s).
Proof.
  intros Hl He Hb Hf. destruct (entity_mut_spec s v e b f Hl He Hb Hf) as (w&Ew&?&?).
  exists w. split; [by apply run_ok|done].
Qed.

End abstraction.

(** ** Invariants of the abstract state *)

Definition map_owner (m : gmap Z Bundle.t) (v : Z) : option Z :=
  b ← m !! v; p ← Bundle.placement b; ViewPlacement.owner p.

Definition map_workspace (m : gmap Z Bundle.t) (v : Z) : option Z :=
  b ← m !! v; Bundle.workspace b.

(** Owners exist and share the workspace of what they own. *)
Definition owned (m : gmap Z Bundle.t) : Prop :=
  ∀ v o, map_owner m v = Some o →
    is_Some (m !! o) ∧ map_workspace m o = map_workspace m v.

(** At most one focused view per workspace. *)
Definition one_focus (m : gmap Z Bundle.t) : Prop :=
  ∀ v v' b b', m !! v = Some b → m !! v' = Some b' →
    Bundle.focused b = true → Bundle.focused b' = true →
    Bundle.workspace b = Bundle.workspace b' → v = v'.

(** Stacking orders are distinct and smaller than the next one. *)
Definition stacked (next : Z) (m : gmap Z Bundle.t) : Prop :=
  (∀ v b k, m !! v = Some b → Bundle.stacking b = Some k → 1 <= k < next) ∧
  ∀ v v' b b', m !! v = Some b → m !! v' = Some b' →
    Bundle.stacking b = Bundle.stacking b' → v = v'.

(** A cached layout covers every view of its workspace. *)
Definition laid_out (snapshots : gmap Z LayoutSnapshot.t) (m : gmap Z Bundle.t) : Prop :=
  ∀ ws v b, is_Some (snapshots !! ws) → m !! v = Some b →
    Bundle.workspace b = Some ws → is_Some (Bundle.geometry b).

Definition forest_ok (m : gmap Z Bundle.t) : Prop := owned m ∧ acyclic (map_owner m).

Definition map_ok (next : Z) (m : gmap Z Bundle.t) : Prop :=
  forest_ok m ∧ one_focus m ∧ stacked next m.

Lemma map_owner_closed m v o :
  owned m → map_owner m v = Some o → v ∈ dom m ∧ o ∈ dom m.
Proof.
  intros Hown Ho. rewrite !elem_of_dom. split; [|by apply (Hown v)].
  unfold map_owner in Ho. destruct (m !! v); [by eauto|done].
Qed.

Lemma owned_workspace m d v :
  owned m → descends (map_owner m) d v → map_workspace m d = map_workspace m v.
Proof.
  intros Hown Hd. induction Hd as [|x y z Hxy _ IH]; [done|].
  rewrite <- IH. symmetry. by apply Hown.
Qed.

(** Everything that descends from a view of [m] is a view of [m]. *)
Lemma descends_dom m d v :
  owned m → descends (map_owner m) d v → v ∈ dom m → d ∈ dom m.
Proof.
  intros Hown Hd Hv. inversion Hd as [|? y ? Hxy]; subst; [done|].
  by apply (map_owner_closed m d y).
Qed.

Section world_ok.

Context {W E : Type} `{Ecs W E}.

#[local] Abbreviation state := (t W E).

Definition world_ok (s : state) : Prop :=
  linked s ∧ map_ok (next_stacking_order s) (abs s) ∧
  1 <= next_stacking_order s <= U64.MAX ∧ laid_out (layout_snapshots s) (abs s).

Lemma owner_of_abs (s : state) v : owner_of s v = map_owner (abs s) v.
Proof.
  unfold owner_of, view_placement. rewrite view_component_abs. unfold map_owner.
  by destruct (abs s !! v).
Qed.

Lemma view_workspace_abs (s : state) v : view_workspace s v = map_workspace (abs s) v.
Proof. apply view_component_abs. Qed.

Lemma is_focused_abs (s : state) v :
  is_focused s v = true ↔ ∃ b, abs s !! v = Some b ∧ Bundle.focused b = true.
Proof.
  unfold is_focused. rewrite bool_decide_eq_true, view_component_abs. unfold focus_marker.
  destruct (abs s !! v) as [b|]; simpl.
  - destruct (Bundle.focused b) eqn:E1; split; [by eauto|by eauto|by intros []|].
    intros (b'&[= <-]&?). congruence.
  - split; [by intros []|by intros (b&?&_)].
Qed.

(** ** Attachment queries *)

Lemma attached_children_spec (s : state) o v :
  linked s → v ∈ attached_children s o ↔ map_owner (abs s) v = Some o.
Proof.
  intros Hl. unfold attached_children. rewrite sort_by_key_elem, list_elem_of_omap.
  unfold map_owner. split.
  - intros ([v' e]&Hin%elem_of_map_to_list&Hv).
    rewrite (component_abs _ s v' e Hin) in Hv.
    destruct (abs s !! v') as [b|] eqn:Eb; simpl in Hv; [|done].
    destruct (Bundle.placement b) as [p|] eqn:Ep; simpl in Hv; [|done].
    case_decide as Hd; simplify_eq. rewrite Eb. simpl. by rewrite Ep.
  - intros Hv. destruct (abs s !! v) as [b|] eqn:Eb; simpl in Hv; [|done].
    destruct (abs_some s v b Hl Eb) as (e&He&_). exists (v, e).
    split; [by apply elem_of_map_to_list|]. rewrite (component_abs _ s v e He), Eb. simpl.
    destruct (Bundle.placement b) as [p|]; simpl in *; [|done]. by rewrite decide_True.
Qed.

Lemma attached_children_nodup (s : state) o : NoDup (attached_children s o).
Proof.
  unfold attached_children. rewrite sort_by_key_perm.
  pose proof (NoDup_fst_map_to_list (view_entities s)) as Hnd.
  induction (map_to_list (view_entities s)) as [|[v e] l IH]; simpl; [constructor|].
  apply NoDup_cons in Hnd as [Hv Hnd]. specialize (IH Hnd).
  destruct (component Bundle.placement s e) as [p|]; simpl; [|done].
  case_decide; [|done]. constructor; [|done].
  intros ([v' e']&Hin&Hp)%list_elem_of_omap. apply Hv, list_elem_of_fmap.
  exists (v', e'). split; [|done].
  destruct (component Bundle.placement s e'); simpl in Hp; [|done].
  case_decide; [|done]. by injection Hp as <-.
Qed.

Lemma family_loop_bfs fuel (s : state) family index :
  family_loop fuel s family index = bfs (attached_children s) fuel family index.
Proof.
  revert family index. induction fuel as [|fuel IH]; intros family index; simpl; [done|].
  destruct (family !! index); [apply IH|done].
Qed.

Context (s : state) (Hl : linked s) (Hf : forest_ok (abs s)).

(** [view_family] terminates and lists the view and everything attached to it,
    directly or not, once. *)
Lemma view_family_spec v :
  v ∈ dom (abs s) →
  ∃ l, view_family s v = Some (v :: l) ∧ NoDup (v :: l) ∧
    (∀ x, x ∈ v :: l ↔ descends (map_owner (abs s)) x v) ∧
    ∀ j x, (v :: l) !! j = Some x → x ≠ v →
      ∃ i o, (i < j)%nat ∧ (v :: l) !! i = Some o ∧ map_owner (abs s) x = Some o.
Proof.
  intros Hv. destruct Hf as [Hown Hac]. unfold view_family.
  rewrite family_loop_bfs, (abs_size s Hl).
  apply (bfs_total (map_owner (abs s))); [|done|apply attached_children_nodup| |done].
  - intros x o. by apply map_owner_closed.
  - intros o x. by apply attached_children_spec.
Qed.

Lemma view_placement_abs v : view_placement s v = (b ← abs s !! v; Bundle.placement b).
Proof. apply view_component_abs. Qed.

(** Every view has placement state. *)
Lemma placement_some v :
  v ∈ dom (abs s) →
  ∃ p, view_placement s v = Some p ∧ ViewPlacement.owner p = map_owner (abs s) v.
Proof.
  intros [b Hb]%elem_of_dom. destruct (abs_some s v b Hl Hb) as (e&_&_&_&Hc).
  destruct (Bundle.complete_placement b Hc) as [p Hp]. exists p.
  rewrite view_placement_abs. unfold map_owner. rewrite Hb. simpl. rewrite Hp. done.
Qed.

Lemma ancestor_loop_spec n k v r :
  nsteps (parent (map_owner (abs s))) k v r → map_owner (abs s) r = None →
  v ∈ dom (abs s) → (k < n)%nat → ancestor_loop n s v = Some r.
Proof.
  intros Hk Hr. revert n. induction Hk as [v|k v w r Hvw Hk IH]; intros n Hv Hn;
    (destruct n as [|n]; [lia|]); simpl;
    destruct (placement_some v Hv) as (p&->&Hp); simpl; rewrite Hp.
  - by rewrite Hr.
  - rewrite Hvw. apply IH; [done| |lia]. by apply (map_owner_closed _ v w (proj1 Hf)).
Qed.

(** [tiled_ancestor] is total: it finds the unowned end of the owner chain. *)
Lemma tiled_ancestor_spec v :
  v ∈ dom (abs s) →
  ∃ r, tiled_ancestor s v = Some r ∧ descends (map_owner (abs s)) v r ∧
    map_owner (abs s) r = None ∧ r ∈ dom (abs s).
Proof.
  intros Hv. pose proof Hf as [Hown Hac].
  destruct (root_exists (map_owner (abs s)) Hac v) as (k&r&Hk&Hr).
  exists r. split; [|split; [|split; [done|]]].
  - unfold tiled_ancestor. rewrite (abs_size s Hl).
    eapply ancestor_loop_spec; [exact Hk|done|done|].
    eapply (chain_bound (map_owner (abs s))); [|done|done|exact Hk].
    intros x o. by apply map_owner_closed.
  - eapply rtc_nsteps_2. exact Hk.
  - destruct k as [|k]; [by inversion Hk; subst|].
    apply nsteps_inv_r in Hk as (y&_&Hy). by apply (map_owner_closed _ y r Hown).
Qed.

Lemma cycle_loop_true n view current :
  cycle_loop n s view current = true →
  descends (map_owner (abs s)) current view ∨
  ∃ x, nsteps (parent (map_owner (abs s))) n current x.
Proof.
  revert current. induction n as [|n IH]; intros current; simpl.
  - intros _. right. exists current. constructor.
  - destruct (Z.eqb_spec current view) as [->|]; [left; apply rtc_refl|].
    rewrite owner_of_abs. destruct (map_owner (abs s) current) as [o|] eqn:Eo; [|done].
    intros [Hd|(x&Hx)]%IH.
    + left. by eapply rtc_l.
    + right. exists x. by eapply nsteps_l.
Qed.

Lemma cycle_loop_found n k view current :
  nsteps (parent (map_owner (abs s))) k current view → (k < n)%nat →
  cycle_loop n s view current = true.
Proof.
  intros Hk. revert n. induction Hk as [v|k v w r Hvw Hk IH]; intros n Hn;
    (destruct n as [|n]; [lia|]); simpl.
  - by rewrite Z.eqb_refl.
  - destruct (v =? r); [done|]. rewrite owner_of_abs, Hvw. apply IH. lia.
Qed.

(** [attachment_would_cycle] decides whether the owner chain of the new owner
    contains the view. *)
Lemma attachment_would_cycle_spec view owner :
  owner ∈ dom (abs s) →
  attachment_would_cycle s view owner = true ↔ descends (map_owner (abs s)) owner view.
Proof.
  intros Ho. pose proof Hf as [Hown Hac].
  assert (Hcl : ∀ x o, map_owner (abs s) x = Some o → x ∈ dom (abs s) ∧ o ∈ dom (abs s))
    by (intros x o; by apply map_owner_closed).
  unfold attachment_would_cycle. rewrite (abs_size s Hl). split.
  - intros [?|(x&Hx)]%cycle_loop_true; [done|].
    apply (chain_bound _ _ Hcl Hac) in Hx; [lia|done].
  - intros Hd. apply rtc_nsteps_1 in Hd as [k Hk].
    eapply cycle_loop_found; [exact Hk|]. by eapply (chain_bound _ _ Hcl Hac).
Qed.

End world_ok.
