(* ===== verification/WorldOps.v ===== *)
(** * Operations of the compositor world

    Every operation of [CompositorWorld], run on a world that satisfies
    [world_ok], does not panic, and keeps [world_ok]; its effect on the
    abstract state is stated view by view. The only resource is the space of
    stacking orders ([room]). *)

From S2P Require Import Prelude Geometry Layout Surface Scene Ecs Forest.
From S2P Require Import World WorldInv.

Import CompositorWorld.

Create HintDb bundle.

(** Setters of mandatory components with a value, and setters of optional
    ones, keep a bundle complete. *)
Ltac keeps_solve :=
  let b := fresh "b" in intros b; split;
  [reflexivity | let Hc := fresh "Hc" in intros Hc; destruct Hc; split; simpl; eauto].

(** ** Updates of the abstract state *)

Definition bundle_owner (b : Bundle.t) : option Z :=
  p ← Bundle.placement b; ViewPlacement.owner p.

(** The updated bundle looks the same to the invariants. *)
Definition same_shape (b b' : Bundle.t) : Prop :=
  Bundle.workspace b' = Bundle.workspace b ∧ bundle_owner b' = bundle_owner b ∧
  Bundle.focused b' = Bundle.focused b ∧ Bundle.stacking b' = Bundle.stacking b.

(** Two maps that look the same to the invariants, view by view. *)
Definition same_shapes (m m' : gmap Z Bundle.t) : Prop :=
  ∀ v, match m !! v, m' !! v with
       | Some b, Some b' => same_shape b b'
       | None, None => True
       | _, _ => False
       end.

Lemma same_shapes_insert m v b b' :
  m !! v = Some b → same_shape b b' → same_shapes m (<[v := b']> m).
Proof.
  intros Hb Hs x. destruct (decide (x = v)) as [->|].
  - by rewrite lookup_insert_eq, Hb.
  - rewrite lookup_insert_ne by done. by destruct (m !! x).
Qed.

Lemma map_owner_bundle m v : map_owner m v = (b ← m !! v; bundle_owner b).
Proof. done. Qed.

Lemma map_owner_same m m' v : same_shapes m m' → map_owner m' v = map_owner m v.
Proof.
  intros Hs. rewrite !map_owner_bundle. specialize (Hs v).
  destruct (m !! v), (m' !! v); try done. by destruct Hs as (_&?&_).
Qed.

Lemma map_workspace_same m m' v : same_shapes m m' → map_workspace m' v = map_workspace m v.
Proof.
  intros Hs. unfold map_workspace. specialize (Hs v).
  destruct (m !! v), (m' !! v); try done. by destruct Hs as (?&_).
Qed.

Lemma same_shapes_some m m' v b' :
  same_shapes m m' → m' !! v = Some b' → ∃ b, m !! v = Some b ∧ same_shape b b'.
Proof.
  intros Hs Hb'. specialize (Hs v). rewrite Hb' in Hs.
  destruct (m !! v) as [b|]; [by exists b|done].
Qed.

Lemma forest_ok_owner m m' :
  (∀ v, map_owner m' v = map_owner m v) →
  (∀ v, is_Some (m !! v) → is_Some (m' !! v)) →
  (∀ v o, map_owner m v = Some o → map_workspace m' o = map_workspace m' v) →
  forest_ok m → forest_ok m'.
Proof.
  intros Ho Hs Hw [Hown Hac]. split.
  - intros v o. rewrite Ho. intros Hv. destruct (Hown v o Hv) as [Hi _]. auto.
  - eapply acyclic_sub; [exact Hac|]. intros v o. by rewrite Ho.
Qed.

(** Every view of the second map was in the first one, with the same focus
    and workspace, and stacking order, respectively. *)
Definition focus_from (m m' : gmap Z Bundle.t) : Prop :=
  ∀ v b', m' !! v = Some b' → Bundle.focused b' = true →
    ∃ b, m !! v = Some b ∧ Bundle.focused b = true ∧ Bundle.workspace b = Bundle.workspace b'.

Definition stacking_from (m m' : gmap Z Bundle.t) : Prop :=
  ∀ v b', m' !! v = Some b' → ∃ b, m !! v = Some b ∧ Bundle.stacking b = Bundle.stacking b'.

Lemma one_focus_from m m' : focus_from m m' → one_focus m → one_focus m'.
Proof.
  intros Hfr Hone v v' b b' Hb Hb' Hfb Hfb' Hw.
  destruct (Hfr v b Hb Hfb) as (c&Hc&?&E). destruct (Hfr v' b' Hb' Hfb') as (c'&Hc'&?&E').
  apply (Hone v v' c c'); congruence.
Qed.

Lemma stacked_from next m m' : stacking_from m m' → stacked next m → stacked next m'.
Proof.
  intros Hfr [Hst1 Hst2]. split.
  - intros v b k Hb Hk. destruct (Hfr v b Hb) as (c&Hc&E). apply (Hst1 v c); congruence.
  - intros v v' b b' Hb Hb' E. destruct (Hfr v b Hb) as (c&Hc&E1).
    destruct (Hfr v' b' Hb') as (c'&Hc'&E2). apply (Hst2 v v' c c'); congruence.
Qed.

Lemma map_ok_same next m m' : same_shapes m m' → map_ok next m → map_ok next m'.
Proof.
  intros Hs (Hfo&Hone&Hst). split; [|split].
  - eapply forest_ok_owner; [| | |exact Hfo].
    + intros v. by apply map_owner_same.
    + intros v [b Hb]. specialize (Hs v). rewrite Hb in Hs. by destruct (m' !! v).
    + intros v o Hv. rewrite !(map_workspace_same m m') by done.
      by apply (proj1 Hfo).
  - eapply one_focus_from; [|exact Hone]. intros v b' Hb' Hfb.
    destruct (same_shapes_some m m' v b' Hs Hb') as (c&Hc&?&_&?&_). exists c.
    split; [done|]. split; congruence.
  - eapply stacked_from; [|exact Hst]. intros v b' Hb'.
    destruct (same_shapes_some m m' v b' Hs Hb') as (c&Hc&_&_&_&?). by exists c.
Qed.

Lemma map_ok_placement next m v b p :
  m !! v = Some b → map_ok next m →
  (∀ o, ViewPlacement.owner p = Some o →
     is_Some (m !! o) ∧ map_workspace m o = map_workspace m v ∧
     ¬ descends (map_owner m) o v) →
  map_ok next (<[v := Bundle.set_placement (Some p) b]> m).
Proof.
  intros Hb ((Hown&Hac)&Hone&Hst) Hp. set (m' := <[v := _]> m).
  assert (Hw : ∀ x, map_workspace m' x = map_workspace m x).
  { intros x. unfold map_workspace, m'. destruct (decide (x = v)) as [->|].
    - by rewrite lookup_insert_eq, Hb.
    - by rewrite lookup_insert_ne. }
  assert (Hov : map_owner m' v = ViewPlacement.owner p)
    by (unfold map_owner, m'; by rewrite lookup_insert_eq).
  assert (Hox : ∀ x, x ≠ v → map_owner m' x = map_owner m x)
    by (intros x ?; unfold map_owner, m'; by rewrite lookup_insert_ne).
  split; [split|split].
  - intros x o Hx. rewrite !Hw. unfold m'. rewrite lookup_insert_is_Some'.
    destruct (decide (x = v)) as [->|Hne].
    + rewrite Hov in Hx. destruct (Hp o Hx) as (?&?&_). tauto.
    + rewrite Hox in Hx by done. destruct (Hown x o Hx). tauto.
  - destruct (ViewPlacement.owner p) as [o|] eqn:Eo.
    + apply (acyclic_insert (map_owner m) _ v o); [done|by apply Hp|done|done].
    + eapply acyclic_sub; [exact Hac|]. intros x o Hx.
      destruct (decide (x = v)) as [->|]; [congruence|]. by rewrite <- Hox.
  - eapply one_focus_from; [|exact Hone]. intros x b' Hb' Hfb. unfold m' in Hb'.
    destruct (decide (x = v)) as [->|].
    + rewrite lookup_insert_eq in Hb'. injection Hb' as <-. by exists b.
    + rewrite lookup_insert_ne in Hb' by done. by exists b'.
  - eapply stacked_from; [|exact Hst]. intros x b' Hb'. unfold m' in Hb'.
    destruct (decide (x = v)) as [->|].
    + rewrite lookup_insert_eq in Hb'. injection Hb' as <-. by exists b.
    + rewrite lookup_insert_ne in Hb' by done. by exists b'.
Qed.

Lemma laid_out_insert snapshots m v b b' :
  m !! v = Some b → Bundle.workspace b' = Bundle.workspace b →
  (is_Some (Bundle.geometry b) → is_Some (Bundle.geometry b')) →
  laid_out snapshots m → laid_out snapshots (<[v := b']> m).
Proof.
  intros Hb Hw Hg Hlo ws x c Hs. destruct (decide (x = v)) as [->|].
  - rewrite lookup_insert_eq. intros [= <-] Hws. apply Hg.
    eapply Hlo; [exact Hs|exact Hb|congruence].
  - rewrite lookup_insert_ne by done. by apply Hlo.
Qed.

Lemma laid_out_delete snapshots m ws :
  laid_out snapshots m → laid_out (delete ws snapshots) m.
Proof.
  intros Hlo ws' v b Hs. apply (Hlo ws' v b).
  destruct (decide (ws' = ws)) as [->|]; [by rewrite lookup_delete_eq in Hs; destruct Hs|].
  by rewrite lookup_delete_ne in Hs.
Qed.

Section operations.

Context {W E : Type} `{Ecs W E}.

#[local] Abbreviation state := (t W E).

Lemma world_ok_drop (s : state) ws : world_ok s → world_ok (drop_snapshot ws s).
Proof.
  intros (Hl&Hm&Hn&Hlo). split; [done|]. split; [done|]. split; [done|].
  by apply laid_out_delete.
Qed.

(** ** Operations that change one view without touching its shape *)

Lemma inert_update (s : state) v e b f :
  world_ok s → view_entities s !! v = Some e → abs s !! v = Some b → keeps f →
  same_shape b (f b) → (is_Some (Bundle.geometry b) → is_Some (Bundle.geometry (f b))) →
  ∃ w, entity_mut e f s = (set_world w s, Ok tt) ∧ world_ok (set_world w s) ∧
    abs (set_world w s) = <[v := f b]> (abs s).
Proof.
  intros (Hl&Hm&Hn&Hlo) He Hb Hf Hshape Hg.
  destruct (entity_mut_spec s v e b f Hl He Hb Hf) as (w&Ew&Hl'&Habs).
  exists w. split; [done|]. split; [|done].
  split; [done|]. rewrite Habs. split; [|split; [done|]].
  - eapply map_ok_same; [|exact Hm]. by apply same_shapes_insert with b.
  - eapply laid_out_insert; [exact Hb|apply Hshape|exact Hg|exact Hlo].
Qed.

(** The outcome of an operation: no panic, the invariant kept, and a fact
    about the final state and result. *)
Definition does {A} (m : M W E A) (s : state)
    (post : state → Outcome ViewLifecycleError.t A → Prop) : Prop :=
  ∃ s' r, m s = (s', r) ∧ r ≠ Panic ∧ world_ok s' ∧ post s' r.

(** Composition rules of [does]. *)

Lemma does_ret {A} (a : A) (s : state) P : world_ok s → P s (Ok a) → does (mret a) s P.
Proof. intros. by exists s, (Ok a). Qed.

Lemma does_throw {A} e (s : state) (P : state → Outcome _ A → Prop) :
  world_ok s → P s (Err e) → does (throw e) s P.
Proof. intros. by exists s, (Err e). Qed.

Lemma does_modify f (s : state) P :
  world_ok (f s) → P (f s) (Ok tt) → does (modify f) s P.
Proof. intros. by exists (f s), (Ok tt). Qed.

Lemma does_step {A B} (m : M W E A) (k : A → M W E B) s s' a P :
  m s = (s', Ok a) → does (k a) s' P → does (m ≫= k) s P.
Proof.
  intros Hm (s2&r&Hk&Hr). exists s2, r. by rewrite (run_ok _ _ _ _ _ Hm).
Qed.

Lemma does_fail {A B} (m : M W E A) (k : A → M W E B) s s' e P :
  m s = (s', Err e) → world_ok s' → P s' (Err e) → does (m ≫= k) s P.
Proof.
  intros Hm Hok HP. exists s', (Err e). by rewrite (run_err _ _ _ _ _ Hm).
Qed.

Lemma does_get {B} (k : state → M W E B) s P : does (k s) s P → does (get_state ≫= k) s P.
Proof. by apply does_step with (s' := s) (a := s). Qed.

Lemma does_mod {B} f (k : unit → M W E B) s P :
  does (k tt) (f s) P → does (modify f ≫= k) s P.
Proof. by apply does_step with (s' := f s) (a := tt). Qed.

Lemma does_expect {A B} (o : option A) a (k : A → M W E B) s P :
  o = Some a → does (k a) s P → does (expect o ≫= k) s P.
Proof. intros ->. by apply does_step with (s' := s) (a := a). Qed.

(** An unknown view is reported; a known one has its entity. *)
Lemma does_entity {B} v (k : E → M W E B) s P :
  world_ok s →
  (abs s !! v = None → P s (Err (ViewLifecycleError.MissingViewId v))) →
  (∀ e b, view_entities s !! v = Some e → abs s !! v = Some b →
     Bundle.complete b → does (k e) s P) →
  does (entity_for v ≫= k) s P.
Proof.
  intros Hok Hmiss Hk. pose proof Hok as [Hl _].
  destruct (view_entities s !! v) as [e|] eqn:He.
  - destruct (abs_entity s v e Hl He) as (b&Hb&_&Hc).
    apply does_step with (s' := s) (a := e); [|by apply (Hk e b)].
    unfold entity_for. rewrite run_get. by rewrite He.
  - apply does_fail with (s' := s) (e := ViewLifecycleError.MissingViewId v);
      [|done|apply Hmiss; by apply abs_none].
    unfold entity_for. rewrite run_get. by rewrite He.
Qed.

(** Reading a mandatory component. *)
Lemma does_required {B C} (p : Bundle.t → option C) v e b c (k : C → M W E B) s P :
  view_entities s !! v = Some e → abs s !! v = Some b → p b = Some c →
  does (k c) s P → does (required p e ≫= k) s P.
Proof.
  intros He Hb Hc. apply does_step with (s' := s).
  unfold required. rewrite run_get, (component_abs p s v e He), Hb. simpl. by rewrite Hc.
Qed.

Lemma does_inert {B} v e b f (k : unit → M W E B) s P :
  world_ok s → view_entities s !! v = Some e → abs s !! v = Some b → keeps f →
  same_shape b (f b) → (is_Some (Bundle.geometry b) → is_Some (Bundle.geometry (f b))) →
  (∀ w, world_ok (set_world w s) → abs (set_world w s) = <[v := f b]> (abs s) →
     does (k tt) (set_world w s) P) →
  does (entity_mut e f ≫= k) s P.
Proof.
  intros Hok He Hb Hf Hsh Hg Hk.
  destruct (inert_update s v e b f Hok He Hb Hf Hsh Hg) as (w&Ew&Hok'&Habs).
  eapply does_step; [exact Ew|by apply Hk].
Qed.

(** The state outside the views that most operations leave alone. *)
Definition framed (s s' : state) : Prop :=
  appearance s' = appearance s ∧ layout_states s' = layout_states s ∧
  next_stacking_order s' = next_stacking_order s.

(** What an operation that rewrites one view in place leaves. *)
Definition updates {A} (s : state) (v : Z) (f : Bundle.t → Bundle.t) (s' : state)
    (r : Outcome ViewLifecycleError.t A) : Prop :=
  match abs s !! v with
  | None => s' = s ∧ r = Err (ViewLifecycleError.MissingViewId v)
  | Some b => (∃ a, r = Ok a) ∧ abs s' = <[v := f b]> (abs s) ∧ framed s s'
  end.

Lemma updates_same {A} s v f (a : A) b :
  abs s !! v = Some b → f b = b → updates s v f s (Ok a).
Proof.
  intros Hb Hf. unfold updates. rewrite Hb, Hf. split; [by eexists|].
  split; [by rewrite insert_id|done].
Qed.

(** A setter that stores the value already there. *)
Ltac setter_id :=
  match goal with |- ?f ?b = ?b => destruct b end; cbv delta [Bundle.set_workspace
    Bundle.set_layout Bundle.set_placement Bundle.set_content Bundle.set_effects
    Bundle.set_presentation_hint Bundle.set_backdrop_region Bundle.set_geometry
    Bundle.set_last_geometry]; simpl in *; congruence.

Ltac inert := first [ keeps_solve | by repeat split | done ].

Lemma set_view_layout_spec s v layout :
  world_ok s →
  does (set_view_layout v layout) s (updates s v (Bundle.set_layout (Some layout))).
Proof.
  intros Hok. apply does_entity; [done|by intros Hn; unfold updates; rewrite Hn|].
  intros e b He Hb Hc. destruct (Bundle.complete_workspace b Hc) as [ws Hws].
  eapply does_required; [done..|]. eapply does_inert; [done|done|done|inert|inert|inert|].
  intros w Hok' Habs. apply does_modify; [by apply world_ok_drop|].
  unfold updates. rewrite Hb. split; [by eexists|by split].
Qed.

Lemma set_view_effects_spec s v effects :
  world_ok s →
  does (set_view_effects v effects) s (updates s v (Bundle.set_effects (Some effects))).
Proof.
  intros Hok. apply does_entity; [done|by intros Hn; unfold updates; rewrite Hn|].
  intros e b He Hb Hc. destruct (Bundle.complete_effects b Hc) as [c Hcur].
  eapply does_required; [done..|]. case_decide as Hd.
  - apply does_ret; [done|]. eapply updates_same; [exact Hb|setter_id].
  - eapply does_inert; [done|done|done|inert|inert|inert|].
    intros w Hok' Habs. apply does_ret; [done|].
    unfold updates. rewrite Hb. split; [by eexists|by split].
Qed.

Definition with_constraints (c : SizeConstraints.t) (b : Bundle.t) : Bundle.t :=
  Bundle.set_layout
    ((λ l, ViewLayout.mk c (ViewLayout.primary_size l)) <$> Bundle.layout b) b.

Lemma set_view_constraints_spec s v c :
  world_ok s → does (set_view_constraints v c) s (updates s v (with_constraints c)).
Proof.
  intros Hok. apply does_entity; [done|by intros Hn; unfold updates; rewrite Hn|].
  intros e b He Hb Hc. destruct (Bundle.complete_layout b Hc) as [l Hl].
  eapply does_required; [done..|]. case_decide as Hd.
  - apply does_ret; [done|]. eapply updates_same; [exact Hb|].
    unfold with_constraints. rewrite Hl. simpl. destruct l, b; simpl in *.
    unfold Bundle.set_layout; simpl. congruence.
  - destruct (Bundle.complete_workspace b Hc) as [ws Hws].
    eapply does_required; [done..|]. eapply does_inert; [done|done|done|inert|inert|inert|].
    intros w Hok' Habs. apply does_mod, does_ret; [by apply world_ok_drop|].
    unfold updates. rewrite Hb. split; [by eexists|]. split; [|done].
    unfold with_constraints. by rewrite Hl.
Qed.

Lemma set_view_content_spec s v surfaces :
  world_ok s →
  does (set_view_content v surfaces) s (updates s v (Bundle.set_content (Some surfaces))).
Proof.
  intros Hok. apply does_entity; [done|by intros Hn; unfold updates; rewrite Hn|].
  intros e b He Hb Hc. destruct (Bundle.complete_content b Hc) as [c Hcur].
  eapply does_required; [done..|]. case_decide as Hd.
  - apply does_ret; [done|]. eapply updates_same; [exact Hb|setter_id].
  - eapply does_inert; [done|done|done|inert|inert|inert|].
    intros w Hok' Habs. apply does_ret; [done|].
    unfold updates. rewrite Hb. split; [by eexists|by split].
Qed.

Lemma set_presentation_hint_spec s v hint :
  world_ok s →
  does (set_presentation_hint v hint) s (updates s v (Bundle.set_presentation_hint (Some hint))).
Proof.
  intros Hok. apply does_entity; [done|by intros Hn; unfold updates; rewrite Hn|].
  intros e b He Hb Hc. destruct (Bundle.complete_hint b Hc) as [c Hcur].
  eapply does_required; [done..|]. case_decide as Hd.
  - apply does_ret; [done|]. eapply updates_same; [exact Hb|setter_id].
  - eapply does_inert; [done|done|done|inert|inert|inert|].
    intros w Hok' Habs. apply does_ret; [done|].
    unfold updates. rewrite Hb. split; [by eexists|by split].
Qed.

Definition with_backdrop (blur : option BackdropBlur.t) (region : option BackdropRegion.t)
    (b : Bundle.t) : Bundle.t :=
  Bundle.set_backdrop_region (Some region)
    (Bundle.set_effects
       ((λ x, EffectStyle.mk (EffectStyle.opacity x) (EffectStyle.corner_radius x)
                (EffectStyle.shadow x) blur) <$> Bundle.effects b) b).

Lemma set_view_backdrop_effect_spec s v blur region :
  world_ok s →
  does (set_view_backdrop_effect v blur region) s (updates s v (with_backdrop blur region)).
Proof.
  intros Hok. apply does_entity; [done|by intros Hn; unfold updates; rewrite Hn|].
  intros e b He Hb Hc. destruct (Bundle.complete_effects b Hc) as [c Hcur].
  destruct (Bundle.complete_region b Hc) as [r Hr].
  do 2 (eapply does_required; [done..|]). case_decide as Hd.
  - apply does_ret; [done|]. eapply updates_same; [exact Hb|].
    destruct Hd as [<- <-]. unfold with_backdrop. rewrite Hcur. destruct b, c; simpl in *.
    unfold Bundle.set_backdrop_region, Bundle.set_effects; simpl. congruence.
  - eapply does_inert; [done|done|done|inert|inert|inert|]. intros w Hok' Habs.
    eapply does_inert; [done|exact He|rewrite Habs; apply lookup_insert_eq|inert|inert|inert|].
    intros w' Hok'' Habs'. apply does_ret; [done|].
    unfold updates. rewrite Hb. split; [by eexists|]. split; [|done].
    rewrite Habs', Habs, insert_insert_eq. unfold with_backdrop. by rewrite Hcur.
Qed.

(** Only a floating view follows [update_floating_geometry]. *)
Definition with_floating (g : Rect.t) (b : Bundle.t) : Bundle.t :=
  match Bundle.placement b with
  | Some (ViewPlacement.Floating current) =>
      if decide (current = g) then b
      else Bundle.set_last_geometry (Some g) (Bundle.set_geometry (Some g)
             (Bundle.set_placement (Some (ViewPlacement.Floating g)) b))
  | _ => b
  end.

Lemma update_floating_geometry_spec s v g :
  world_ok s → does (update_floating_geometry v g) s (updates s v (with_floating g)).
Proof.
  intros Hok. apply does_entity; [done|by intros Hn; unfold updates; rewrite Hn|].
  intros e b He Hb Hc. destruct (Bundle.complete_placement b Hc) as [p Hp].
  eapply does_required; [done..|].
  destruct p as [|current|o size].
  - apply does_ret; [done|]. eapply updates_same; [exact Hb|].
    unfold with_floating. by rewrite Hp.
  - case_decide as Hd.
    + apply does_ret; [done|]. eapply updates_same; [exact Hb|].
      unfold with_floating. rewrite Hp. by rewrite decide_True.
    + eapply does_inert; [done|done|done|inert| |inert|].
      { unfold same_shape, bundle_owner; simpl. by rewrite Hp. }
      intros w Hok' Habs. apply does_ret; [done|].
      unfold updates. rewrite Hb. split; [by eexists|]. split; [|done].
      rewrite Habs. unfold with_floating. rewrite Hp. by rewrite decide_False.
  - apply does_ret; [done|]. eapply updates_same; [exact Hb|].
    unfold with_floating. by rewrite Hp.
Qed.

(** ** Placement *)

(** Exactly which requests [set_view_placement] accepts, and why it rejects
    the others. *)
Definition placed (s : state) (v : Z) (p : ViewPlacement.t) (s' : state)
    (r : Outcome ViewLifecycleError.t bool) : Prop :=
  match r with
  | Ok changed =>
      ∃ b, abs s !! v = Some b ∧ changed = negb (bool_decide (Bundle.placement b = Some p)) ∧
        abs s' = <[v := Bundle.set_placement (Some p) b]> (abs s) ∧ framed s s' ∧
        ∀ o, changed = true → ViewPlacement.owner p = Some o →
          o ≠ v ∧ map_workspace (abs s) o = Bundle.workspace b ∧
          ¬ descends (map_owner (abs s)) o v
  | Err e =>
      s' = s ∧
      match e with
      | ViewLifecycleError.MissingViewId x =>
          (x = v ∨ ViewPlacement.owner p = Some x) ∧ abs s !! x = None
      | ViewLifecycleError.SelfAttachment x => x = v ∧ ViewPlacement.owner p = Some v
      | ViewLifecycleError.CrossWorkspaceAttachment x o =>
          x = v ∧ ViewPlacement.owner p = Some o ∧
          map_workspace (abs s) o ≠ map_workspace (abs s) v
      | ViewLifecycleError.AttachmentCycle x o =>
          x = v ∧ ViewPlacement.owner p = Some o ∧ o ≠ v ∧
          descends (map_owner (abs s)) o v
      | _ => False
      end
  | Panic => False
  end.

Lemma place_view (s : state) v e b p ws :
  world_ok s → view_entities s !! v = Some e → abs s !! v = Some b →
  Bundle.workspace b = Some ws → Bundle.placement b ≠ Some p →
  (∀ o, ViewPlacement.owner p = Some o →
     o ≠ v ∧ map_workspace (abs s) o = Bundle.workspace b ∧
     ¬ descends (map_owner (abs s)) o v) →
  does (entity_mut e (Bundle.set_placement (Some p));;
        modify (drop_snapshot ws);; mret true) s (placed s v p).
Proof.
  intros Hok He Hb Hws Hne Hp. pose proof Hok as (Hl&Hm&Hn&Hlo).
  destruct (entity_mut_spec s v e b (Bundle.set_placement (Some p)) Hl He Hb)
    as (w&Ew&Hl'&Habs); [keeps_solve|].
  eapply does_step; [exact Ew|]. apply does_mod, does_ret.
  - apply world_ok_drop. split; [done|]. rewrite Habs. split; [|split; [done|]].
    + apply map_ok_placement; [done|done|]. intros o Ho.
      destruct (Hp o Ho) as (?&Hwo&?). split; [|split; [|done]].
      * unfold map_workspace in Hwo. destruct (abs s !! o); [by eauto|]. simpl in Hwo. congruence.
      * rewrite Hwo. unfold map_workspace. by rewrite Hb.
    + by eapply laid_out_insert.
  - exists b. split; [done|]. rewrite bool_decide_false by done.
    split; [done|]. split; [done|]. split; [done|]. intros o _. apply Hp.
Qed.

Lemma set_view_placement_does s v p :
  world_ok s → does (set_view_placement v p) s (placed s v p).
Proof.
  intros Hok. pose proof Hok as (Hl&(Hf&_)&_).
  apply does_entity; [done|by intros Hn; split; [done|split; [by left|]]|].
  intros e b He Hb Hc. destruct (Bundle.complete_placement b Hc) as [q Hq].
  destruct (Bundle.complete_workspace b Hc) as [ws Hws].
  eapply does_required; [done..|]. case_decide as Hd.
  - apply does_ret; [done|]. exists b. subst q. rewrite bool_decide_true by done.
    split; [done|]. split; [done|]. split; [|by split]. rewrite insert_id; [done|].
    rewrite Hb. f_equal. symmetry. setter_id.
  - eapply does_required; [done..|].
    destruct (ViewPlacement.owner p) as [o|] eqn:Eo.
    + case_decide as Hov.
      { eapply does_fail; [reflexivity|done|]. subst o. by split. }
      pose proof (abs_none s o Hl) as Hnone.
      destruct (view_entities s !! o) as [eo|] eqn:Heo.
      * destruct (abs_entity s o eo Hl Heo) as (bo&Hbo&_&Hco).
        destruct (Bundle.complete_workspace bo Hco) as [wo Hwo].
        assert (Hcheck : ∀ k : E → M W E unit, (entity_for o ≫= k) s = k eo s)
          by (intros k; by apply run_entity_for).
        assert (Hreq : required Bundle.workspace eo s = (s, Ok wo)).
        { unfold required. rewrite run_get, (component_abs _ s o eo Heo), Hbo. simpl. by rewrite Hwo. }
        pose proof (attachment_would_cycle_spec s Hl Hf v o) as Hcyc.
        rewrite elem_of_dom, Hbo in Hcyc. specialize (Hcyc (ltac:(by eexists))).
        destruct (decide (wo = ws)) as [Hsame|Hsame].
        2: { eapply does_fail; [rewrite Hcheck, (run_ok _ _ _ _ _ Hreq);
               rewrite decide_False by done; reflexivity|done|].
             split; [done|]. split; [done|]. split; [done|].
             unfold map_workspace. rewrite Hbo, Hb. simpl. congruence. }
        destruct (attachment_would_cycle s v o) eqn:Ecyc.
        { eapply does_fail; [rewrite Hcheck, (run_ok _ _ _ _ _ Hreq);
            rewrite decide_True by done; rewrite run_get, Ecyc; reflexivity|done|].
          split; [done|]. split; [done|]. split; [done|]. split; [done|]. by apply Hcyc. }
        eapply does_step; [rewrite Hcheck, (run_ok _ _ _ _ _ Hreq);
          rewrite decide_True by done; rewrite run_get, Ecyc; reflexivity|].
        apply (place_view s v e b p ws Hok He Hb Hws); [congruence|].
        intros o' Ho'. assert (o' = o) as -> by congruence. split; [done|].
        split; [unfold map_workspace; rewrite Hbo; simpl; congruence|].
        intros Hdesc. apply Hcyc in Hdesc. congruence.
      * eapply does_fail; [by apply run_missing|done|].
        split; [done|]. split; [by right|]. by apply Hnone.
    + eapply does_step; [reflexivity|].
      apply (place_view s v e b p ws Hok He Hb Hws); [congruence|]. intros o Ho. congruence.
Qed.

End operations.
