(* ===== verification/WorldViews.v ===== *)
(** * Lifecycle, movement and focus of views

    [spawn_view], [remove_view], [move_view], [minimize_view],
    [restore_minimized_view] and [focus_view] with its stacking: each keeps
    [world_ok], never panics, and has the stated effect on the abstract
    state. *)

From S2P Require Import Prelude Geometry Layout Surface Scene Ecs Forest.
From S2P Require Import World WorldInv WorldOps.

Import CompositorWorld.

(** ** New and removed views *)

Lemma map_owner_insert_fresh m v b x :
  m !! v = None → bundle_owner b = None →
  map_owner (<[v := b]> m) x = map_owner m x.
Proof.
  intros Hv Hb. rewrite !map_owner_bundle. destruct (decide (x = v)) as [->|].
  - by rewrite lookup_insert_eq, Hv.
  - by rewrite lookup_insert_ne.
Qed.

Lemma map_ok_spawn next m v ws :
  m !! v = None → 1 <= next → map_ok next m →
  map_ok (next + 1) (<[v := Bundle.spawned v ws next]> m).
Proof.
  intros Hv Hn ((Hown&Hac)&Hone&Hst1&Hst2). set (m' := <[v := _]> m).
  assert (Ho : ∀ x, map_owner m' x = map_owner m x)
    by (intros x; by apply map_owner_insert_fresh).
  assert (Hold : ∀ x b, m !! x = Some b → m' !! x = Some b).
  { intros x b Hx. unfold m'. rewrite lookup_insert_ne; [done|]. intros ->. congruence. }
  assert (Hnew : ∀ x b, m' !! x = Some b →
    (x = v ∧ b = Bundle.spawned v ws next) ∨ m !! x = Some b).
  { intros x b. unfold m'. destruct (decide (x = v)) as [->|].
    - rewrite lookup_insert_eq. intros [= <-]. by left.
    - rewrite lookup_insert_ne by done. by right. }
  split; [|split; [|split]].
  - eapply forest_ok_owner; [exact Ho| | |by split].
    + intros x [b Hx]. rewrite (Hold x b Hx). by eexists.
    + intros x o Hx. destruct (Hown x o Hx) as [[bo Hbo] Hw].
      assert (is_Some (m !! x)) as [bx Hbx]
        by (unfold map_owner in Hx; destruct (m !! x); [by eexists|done]).
      revert Hw. unfold map_workspace. by rewrite (Hold o bo Hbo), (Hold x bx Hbx), Hbo, Hbx.
  - eapply one_focus_from; [|exact Hone]. intros x b Hx Hfb.
    destruct (Hnew x b Hx) as [[-> ->]|Hx']; [done|]. by exists b.
  - intros x b k Hx Hk. destruct (Hnew x b Hx) as [[-> ->]|Hx'].
    + simpl in Hk. injection Hk as <-. lia.
    + specialize (Hst1 x b k Hx' Hk). lia.
  - intros x y b c Hx Hy E.
    destruct (Hnew x b Hx) as [[-> ->]|Hx'], (Hnew y c Hy) as [[-> ->]|Hy'].
    + done.
    + simpl in E. specialize (Hst1 y c next Hy' (eq_sym E)). lia.
    + simpl in E. specialize (Hst1 x b next Hx' E). lia.
    + by apply (Hst2 x y b c).
Qed.

Lemma map_ok_delete next m v :
  (∀ x, map_owner m x ≠ Some v) → map_ok next m → map_ok next (delete v m).
Proof.
  intros Hch ((Hown&Hac)&Hone&Hst1&Hst2).
  assert (Hold : ∀ x b, delete v m !! x = Some b → x ≠ v ∧ m !! x = Some b).
  { intros x b Hx. apply lookup_delete_Some in Hx as [? ?]. done. }
  assert (Ho : ∀ x o, map_owner (delete v m) x = Some o → map_owner m x = Some o).
  { intros x o. unfold map_owner. destruct (delete v m !! x) as [b|] eqn:Eb; [|done].
    destruct (Hold x b Eb) as [_ ->]. done. }
  assert (Hw : ∀ x, x ≠ v → map_workspace (delete v m) x = map_workspace m x).
  { intros x Hx. unfold map_workspace. by rewrite lookup_delete_ne. }
  split; [split|split; [|split]].
  - intros x o Hx. pose proof (Ho x o Hx) as Hx'. destruct (Hown x o Hx') as [Hi Hwo].
    assert (o ≠ v) by (intros ->; by apply (Hch x)).
    assert (x ≠ v).
    { intros ->. unfold map_owner in Hx. by rewrite lookup_delete_eq in Hx. }
    rewrite !Hw by done. split; [|done]. by rewrite lookup_delete_ne.
  - eapply acyclic_sub; [exact Hac|exact Ho].
  - eapply one_focus_from; [|exact Hone]. intros x b Hx Hfb.
    destruct (Hold x b Hx). by exists b.
  - intros x b k Hx. destruct (Hold x b Hx). by apply (Hst1 x b).
  - intros x y b c Hx Hy. destruct (Hold x b Hx), (Hold y c Hy). by apply (Hst2 x y b c).
Qed.

Section views.

Context {W E : Type} `{Ecs W E}.

#[local] Abbreviation state := (t W E).

Lemma spawned_complete v ws k : Bundle.complete (Bundle.spawned v ws k).
Proof. split; simpl; by eexists. Qed.

(** A spawned entity that is added to the index is a new view. *)
Lemma spawn_linked (s : state) v b w e :
  linked s → view_entities s !! v = None → Bundle.view b = Some v → Bundle.complete b →
  ecs_spawn (world s) b = (w, e) →
  let s' := set_entities (<[v := e]> (view_entities s)) (set_world w s) in
  linked s' ∧ abs s' = <[v := b]> (abs s).
Proof.
  intros (Hinj&Hlive&Hidx) Hv Hbv Hbc Hsp s'.
  pose proof (ecs_spawn_fresh _ _ _ _ Hsp) as Hfresh.
  assert (Hget : ∀ e', ecs_get w e' = if decide (e' = e) then Some b else ecs_get (world s) e')
    by (intros e'; by apply (ecs_get_spawn _ _ _ _ _ Hsp)).
  assert (Hne : ∀ v' e', view_entities s !! v' = Some e' → e' ≠ e).
  { intros v' e' He' ->. destruct (Hlive v' e He') as (b'&Hb'&_). congruence. }
  split.
  - split; [|split]; unfold s'; cbn [view_entities world set_entities set_world].
    + intros v1 v2 e'. destruct (decide (v1 = v)) as [->|], (decide (v2 = v)) as [->|];
        rewrite ?lookup_insert_eq, ?lookup_insert_ne by done; intros H1 H2; simplify_eq.
      * done.
      * by apply Hne in H2.
      * by apply Hne in H1.
      * by eapply Hinj.
    + intros v' e'. destruct (decide (v' = v)) as [->|].
      * rewrite lookup_insert_eq. intros [= <-]. exists b. rewrite Hget.
        by rewrite decide_True.
      * rewrite lookup_insert_ne by done. intros He'. rewrite Hget.
        rewrite decide_False by (by eapply Hne). by apply Hlive.
    + intros e' b'. rewrite Hget. case_decide as Hd.
      * subst e'. intros _. exists v. by rewrite lookup_insert_eq.
      * intros Hb'. destruct (Hidx e' b' Hb') as [v' Hv']. exists v'.
        rewrite lookup_insert_ne; [done|]. intros <-. congruence.
  - apply map_eq. intros x. rewrite abs_lookup. unfold s'.
    cbn [view_entities world set_entities set_world].
    destruct (decide (x = v)) as [->|].
    + rewrite !lookup_insert_eq. simpl. rewrite Hget. by rewrite decide_True.
    + rewrite !lookup_insert_ne, abs_lookup by done.
      destruct (view_entities s !! x) as [e'|] eqn:Ex; simpl; [|done].
      rewrite Hget, decide_False; [done|]. by eapply Hne.
Qed.

Lemma run_allocate (s : state) :
  next_stacking_order s < U64.MAX →
  allocate_stacking_order s = (set_next (next_stacking_order s + 1) s,
                               Ok (next_stacking_order s)).
Proof.
  intros Hn. unfold allocate_stacking_order. rewrite run_get.
  rewrite (run_expect _ (next_stacking_order s + 1)).
  - done.
  - unfold U64.checked_succ. destruct (Z.ltb_spec (next_stacking_order s) U64.MAX); [done|lia].
Qed.

(** [spawn_view] adds an unfocused tiled view on top of the stack, or reports
    a duplicate. *)
Definition spawned_view (s : state) (v ws : Z) (s' : state)
    (r : Outcome ViewLifecycleError.t unit) : Prop :=
  match abs s !! v with
  | Some _ => s' = s ∧ r = Err (ViewLifecycleError.DuplicateViewId v)
  | None =>
      r = Ok tt ∧ abs s' = <[v := Bundle.spawned v ws (next_stacking_order s)]> (abs s) ∧
      next_stacking_order s' = next_stacking_order s + 1
  end.

Lemma spawn_view_spec s v ws :
  world_ok s → next_stacking_order s < U64.MAX →
  does (spawn_view v ws) s (spawned_view s v ws).
Proof.
  intros (Hl&Hm&Hn&Hlo) Hroom. apply does_get. unfold spawned_view.
  pose proof (abs_none s v Hl) as Hnone.
  destruct (view_entities s !! v) as [e|] eqn:He.
  - rewrite decide_True by (by eexists).
    destruct (abs_entity s v e Hl He) as (b&Hb&_). rewrite Hb.
    by apply does_throw.
  - rewrite decide_False by (by intros []). rewrite (proj2 Hnone eq_refl).
    eapply does_step; [by apply run_allocate|]. apply does_get.
    cbn [world set_next].
    destruct (ecs_spawn (world s) _) as [w e] eqn:Esp.
    apply does_mod, does_mod.
    destruct (spawn_linked s v (Bundle.spawned v ws (next_stacking_order s)) w e Hl He
      eq_refl (spawned_complete v ws _) Esp) as [Hl' Habs].
    apply does_modify; [|by split].
    split; [exact Hl'|]. split; [|split; [simpl; lia|]].
    + cbn [next_stacking_order drop_snapshot set_snapshots set_entities set_world set_next].
      change (abs (drop_snapshot ws _)) with
        (abs (set_entities (<[v := e]> (view_entities s)) (set_world w s))).
      rewrite Habs. apply map_ok_spawn; [by apply Hnone|lia|done].
    + change (abs (drop_snapshot ws _)) with
        (abs (set_entities (<[v := e]> (view_entities s)) (set_world w s))).
      rewrite Habs. intros ws' x b Hs Hx Hws.
      cbn [layout_snapshots drop_snapshot set_snapshots set_entities set_world set_next] in Hs.
      destruct (decide (ws' = ws)) as [->|];
        [by rewrite lookup_delete_eq in Hs; destruct Hs|].
      rewrite lookup_delete_ne in Hs by done.
      destruct (decide (x = v)) as [->|].
      * rewrite lookup_insert_eq in Hx. injection Hx as <-. simpl in Hws. congruence.
      * rewrite lookup_insert_ne in Hx by done. by eapply Hlo.
Qed.

(** [remove_view] refuses to orphan attached views and forgets exactly the
    view otherwise. *)
Definition removed_view (s : state) (v : Z) (s' : state)
    (r : Outcome ViewLifecycleError.t unit) : Prop :=
  match attached_children s v with
  | child :: _ => s' = s ∧ r = Err (ViewLifecycleError.AttachedChild v child)
  | [] =>
      match abs s !! v with
      | None => s' = s ∧ r = Err (ViewLifecycleError.MissingViewId v)
      | Some _ => r = Ok tt ∧ abs s' = delete v (abs s) ∧ framed s s'
      end
  end.

Lemma despawn_linked (s : state) v e :
  linked s → view_entities s !! v = Some e →
  let s' := set_world (ecs_despawn (world s) e).1
              (set_entities (delete v (view_entities s)) s) in
  linked s' ∧ abs s' = delete v (abs s).
Proof.
  intros (Hinj&Hlive&Hidx) He s'.
  destruct (ecs_despawn (world s) e) as [w removed] eqn:Ed.
  assert (Hget : ∀ e', ecs_get w e' = if decide (e' = e) then None else ecs_get (world s) e')
    by (intros e'; by apply (ecs_get_despawn _ _ _ _ e' Ed)).
  split.
  - split; [|split]; unfold s'; cbn [view_entities world set_entities set_world fst].
    + intros v1 v2 e' [_ H1]%lookup_delete_Some [_ H2]%lookup_delete_Some. by eapply Hinj.
    + intros v' e' [Hne He']%lookup_delete_Some. rewrite Hget.
      rewrite decide_False; [by apply Hlive|]. intros ->. apply Hne. by eapply Hinj.
    + intros e' b'. rewrite Hget. case_decide as Hd; [done|]. intros Hb'.
      destruct (Hidx e' b' Hb') as [v' Hv']. exists v'.
      rewrite lookup_delete_ne; [done|]. intros <-. congruence.
  - apply map_eq. intros x. rewrite abs_lookup. unfold s'.
    cbn [view_entities world set_entities set_world fst].
    destruct (decide (x = v)) as [->|]; [by rewrite !lookup_delete_eq|].
    rewrite !lookup_delete_ne, abs_lookup by done.
    destruct (view_entities s !! x) as [e'|] eqn:Ex; simpl; [|done].
    rewrite Hget, decide_False; [done|]. intros ->. apply n. by eapply Hinj.
Qed.

Lemma remove_view_spec s v : world_ok s → does (remove_view v) s (removed_view s v).
Proof.
  intros Hok. pose proof Hok as (Hl&Hm&Hn&Hlo). apply does_get. unfold removed_view.
  destruct (attached_children s v) as [|child rest] eqn:Ech; [|by apply does_throw].
  pose proof (abs_none s v Hl) as Hnone.
  destruct (view_entities s !! v) as [e|] eqn:He.
  - destruct (abs_entity s v e Hl He) as (b&Hb&Hge&Hc). rewrite Hb.
    destruct (Bundle.complete_workspace b Hc) as [ws Hws].
    apply does_mod.
    eapply does_step with (a := ws).
    { unfold required. rewrite run_get. unfold component.
      cbn [world set_entities]. rewrite Hge. simpl. by rewrite Hws. }
    apply does_mod. destruct (despawn_linked s v e Hl He) as [Hl' Habs].
    apply does_modify; [|by split].
    apply world_ok_drop. split; [exact Hl'|].
    change (abs (set_world _ _)) with (abs (set_world (ecs_despawn (world s) e).1
              (set_entities (delete v (view_entities s)) s))).
    rewrite Habs. split; [|split; [done|]].
    + apply map_ok_delete; [|done]. intros x Hx.
      apply (attached_children_spec s v x Hl) in Hx. rewrite Ech in Hx.
      by apply elem_of_nil in Hx.
    + intros ws' x c Hs [_ Hx]%lookup_delete_Some. by eapply Hlo.
  - rewrite (proj2 Hnone eq_refl). by apply does_throw.
Qed.

(** ** Loops over views *)

(** A loop whose steps rewrite one view each, idempotently, rewrites all of
    them. *)
Lemma for_each_update {A} (f : Z → Bundle.t → Bundle.t) (step : A → M W E unit)
    (s : state) (l : list A) (ks : list Z) :
  (∀ k b, f k (f k b) = f k b) → (∀ k, keeps (f k)) →
  Forall2 (λ a k, ∀ w b, linked (set_world w s) → abs (set_world w s) !! k = Some b →
    ∃ w', step a (set_world w s) = (set_world w' s, Ok tt) ∧ linked (set_world w' s) ∧
      abs (set_world w' s) = <[k := f k b]> (abs (set_world w s))) l ks →
  (∀ k, k ∈ ks → is_Some (abs s !! k)) → linked s →
  ∃ w, for_each step l s = (set_world w s, Ok tt) ∧ linked (set_world w s) ∧
    ∀ x, abs (set_world w s) !! x =
      if decide (x ∈ ks) then f x <$> abs s !! x else abs s !! x.
Proof.
  intros Hidem Hkeeps Hsteps Hdom Hl.
  assert (Hgen : ∀ w0 (done : list Z),
    linked (set_world w0 s) →
    (∀ x, abs (set_world w0 s) !! x =
       if decide (x ∈ done) then f x <$> abs s !! x else abs s !! x) →
    ∃ w, for_each step l (set_world w0 s) = (set_world w s, Ok tt) ∧
      linked (set_world w s) ∧
      ∀ x, abs (set_world w s) !! x =
        if decide (x ∈ done ++ ks) then f x <$> abs s !! x else abs s !! x).
  { induction Hsteps as [|a k l ks Hstep _ IH]; intros w0 dn Hl0 Habs0; simpl.
    - exists w0. split; [done|]. split; [done|]. by rewrite app_nil_r.
    - destruct (Hdom k) as [b Hb]; [by left|].
      assert (∃ b0, abs (set_world w0 s) !! k = Some b0 ∧ f k b0 = f k b) as (b0&Hb0&Ef).
      { rewrite Habs0, Hb. case_decide; simpl; eexists; split; [done| |done|done].
        apply Hidem. }
      destruct (Hstep w0 b0 Hl0 Hb0) as (w1&Ew1&Hl1&Habs1).
      destruct (IH (λ k' Hk', Hdom k' (proj2 (elem_of_cons _ _ _) (or_intror Hk')))
        w1 (dn ++ [k]) Hl1) as (w2&Ew2&Hl2&Habs2).
      { intros x. rewrite Habs1. destruct (decide (x = k)) as [->|Hne].
        - rewrite lookup_insert_eq, decide_True by (apply elem_of_app; right; by left).
          rewrite Hb. simpl. by rewrite Ef.
        - rewrite lookup_insert_ne, Habs0 by done.
          destruct (decide (x ∈ dn)) as [Hx|Hx].
          + rewrite decide_True; [done|]. apply elem_of_app. by left.
          + rewrite decide_False; [done|].
            intros [?|?%list_elem_of_singleton]%elem_of_app; done. }
      exists w2. split; [by rewrite (run_ok _ _ _ _ _ Ew1)|]. split; [done|].
      intros x. rewrite Habs2, <- app_assoc. done. }
  destruct (Hgen (world s) []) as (w&Ew&Hl'&Habs).
  - done.
  - intros x. by rewrite decide_False by apply not_elem_of_nil.
  - exists w. split; [|by split].
    destruct s; exact Ew.
Qed.

(** One step of such a loop that updates the entity of a view. *)
Lemma update_step (s : state) e k f :
  view_entities s !! k = Some e → keeps f →
  ∀ w b, linked (set_world w s) → abs (set_world w s) !! k = Some b →
    ∃ w', entity_mut e f (set_world w s) = (set_world w' s, Ok tt) ∧
      linked (set_world w' s) ∧
      abs (set_world w' s) = <[k := f b]> (abs (set_world w s)).
Proof.
  intros He Hf w b Hl Hb.
  destruct (entity_mut_spec (set_world w s) k e b f Hl He Hb Hf) as (w'&Ew&Hl'&Habs).
  by exists w'.
Qed.

(** ** Focus within a workspace *)

(** The views that [focused_entities] selects. *)
Lemma focused_entities_views (s : state) ws :
  linked s →
  ∃ ks, Forall2 (λ e k, view_entities s !! k = Some e) (focused_entities ws s) ks ∧
    ∀ k, k ∈ ks ↔ ∃ b, abs s !! k = Some b ∧ Bundle.workspace b = Some ws ∧
                       Bundle.focused b = true.
Proof.
  intros Hl.
  assert (Hin : ∀ e, e ∈ focused_entities ws s ↔
    ∃ k b, view_entities s !! k = Some e ∧ abs s !! k = Some b ∧
      Bundle.workspace b = Some ws ∧ Bundle.focused b = true).
  { intros e. unfold focused_entities.
    rewrite (query_omap_elem (λ e b, w ← Bundle.workspace b;
      if decide (w = ws ∧ Bundle.focused b = true) then Some e else None)) by done.
    split.
    - intros (k&e'&b&He&Hb&HF). destruct (Bundle.workspace b) as [w|] eqn:Ew; simpl in HF; [|done].
      case_decide as Hd; [|done]. injection HF as ->. destruct Hd as [-> ?].
      by exists k, b.
    - intros (k&b&He&Hb&Hw&Hfb). exists k, e, b. split; [done|]. split; [done|].
      rewrite Hw. simpl. by rewrite decide_True. }
  assert (Hex : ∀ l, (∀ e, e ∈ l → e ∈ focused_entities ws s) →
    ∃ ks, Forall2 (λ e k, view_entities s !! k = Some e) l ks).
  { induction l as [|e l IH]; intros Hl'; [by exists []|].
    destruct (IH (λ e' He', Hl' e' (proj2 (elem_of_cons _ _ _) (or_intror He')))) as [ks Hks].
    destruct (proj1 (Hin e) (Hl' e (proj2 (elem_of_cons _ _ _) (or_introl eq_refl))))
      as (k&_&Hk&_). exists (k :: ks). by constructor. }
  destruct (Hex (focused_entities ws s)) as [ks Hks]; [done|].
  exists ks. split; [done|]. intros k. split.
  - intros [i Hi]%list_elem_of_lookup.
    destruct (Forall2_lookup_r _ _ _ _ _ Hks Hi) as (e&He&Hke).
    pose proof (list_elem_of_lookup_2 _ _ _ He) as Hef.
    apply Hin in Hef as (k'&b&Hk'&?&?&?). destruct Hl as [Hinj _].
    assert (k' = k) as -> by (by eapply Hinj). by exists b.
  - intros (b&Hb&Hw&Hfb). destruct (abs_some s k b Hl Hb) as (e&He&_).
    assert (Hef : e ∈ focused_entities ws s) by (apply Hin; by exists k, b).
    apply list_elem_of_lookup in Hef as [i Hi].
    destruct (Forall2_lookup_l _ _ _ _ _ Hks Hi) as (k'&Hk'&He').
    destruct Hl as [Hinj _]. assert (k' = k) as -> by (by eapply Hinj).
    by eapply list_elem_of_lookup_2.
Qed.

Definition unfocused (ws : Z) (b : Bundle.t) : Bundle.t :=
  if bool_decide (Bundle.workspace b = Some ws) then Bundle.set_focused false b else b.

Lemma set_focused_id b : Bundle.focused b = false → Bundle.set_focused false b = b.
Proof. destruct b; simpl. by intros ->. Qed.

(** Clearing the focus of a workspace. *)
Lemma unfocus_all (s : state) ws :
  linked s →
  ∃ w, for_each unfocus (focused_entities ws s) s = (set_world w s, Ok tt) ∧
    linked (set_world w s) ∧
    ∀ x, abs (set_world w s) !! x = unfocused ws <$> abs s !! x.
Proof.
  intros Hl. destruct (focused_entities_views s ws Hl) as (ks&Hks&Hin).
  destruct (for_each_update (λ _, Bundle.set_focused false) unfocus s
    (focused_entities ws s) ks) as (w&Ew&Hl'&Habs).
  - by intros _ [].
  - intros _. keeps_solve.
  - eapply Forall2_impl; [exact Hks|]. intros e k He. apply update_step; [done|keeps_solve].
  - intros k Hk. apply Hin in Hk as (b&->&_). by eexists.
  - done.
  - exists w. split; [done|]. split; [done|]. intros x. rewrite Habs.
    destruct (abs s !! x) as [b|] eqn:Eb; simpl; [|by case_decide].
    unfold unfocused. case_decide as Hd.
    + apply Hin in Hd as (b'&Hb'&Hw&_). assert (b' = b) as -> by congruence.
      by rewrite bool_decide_true.
    + case_bool_decide as Hw; [|done].
      destruct (Bundle.focused b) eqn:Ef; [|by rewrite set_focused_id].
      exfalso. apply Hd, Hin. by exists b.
Qed.

(** ** Moving a family *)

Definition moved (ws : Z) (b : Bundle.t) : Bundle.t :=
  Bundle.set_minimized_from None (Bundle.set_geometry None (Bundle.set_workspace (Some ws) b)).

(** The family [l] is in [ws]; the views already there lost the focus when
    the family brings its own. *)
Definition family_moved (ws : Z) (l : list Z) (refocus : bool)
    (m m' : gmap Z Bundle.t) : Prop :=
  ∀ x, m' !! x =
    if decide (x ∈ l) then moved ws <$> m !! x
    else (if refocus then unfocused ws <$> m !! x else m !! x).

Definition family_of (m : gmap Z Bundle.t) (v : Z) (l : list Z) : Prop :=
  ∀ x, x ∈ l ↔ descends (map_owner m) x v.

Lemma unfocused_fields ws b :
  Bundle.workspace (unfocused ws b) = Bundle.workspace b ∧
  Bundle.placement (unfocused ws b) = Bundle.placement b ∧
  Bundle.stacking (unfocused ws b) = Bundle.stacking b ∧
  Bundle.geometry (unfocused ws b) = Bundle.geometry b ∧
  (Bundle.focused (unfocused ws b) = true →
     Bundle.focused b = true ∧ Bundle.workspace b ≠ Some ws).
Proof. unfold unfocused. case_bool_decide; simpl; by split_and!. Qed.

(** How a view of the new map relates to the old one. *)
Lemma family_moved_inv ws l refocus m m' x b' :
  family_moved ws l refocus m m' → m' !! x = Some b' →
  ∃ b, m !! x = Some b ∧ Bundle.placement b' = Bundle.placement b ∧
    Bundle.stacking b' = Bundle.stacking b ∧
    (x ∈ l → Bundle.workspace b' = Some ws ∧ Bundle.focused b' = Bundle.focused b) ∧
    (x ∉ l → Bundle.workspace b' = Bundle.workspace b ∧
       Bundle.geometry b' = Bundle.geometry b ∧
       (Bundle.focused b' = true → Bundle.focused b = true ∧
          (refocus = true → Bundle.workspace b ≠ Some ws))).
Proof.
  intros Hm Hb'. rewrite Hm in Hb'. case_decide as Hx.
  - destruct (m !! x) as [b|]; [|done]. injection Hb' as <-. exists b. by split_and!.
  - destruct refocus.
    + destruct (m !! x) as [b|]; [|done]. injection Hb' as <-. exists b.
      destruct (unfocused_fields ws b) as (E1&E2&E3&E4&E5).
      split; [done|]. split; [done|]. split; [done|]. split; [done|].
      intros _. split; [done|]. split; [done|]. intros Hf. destruct (E5 Hf). by split.
    + exists b'. by split_and!.
Qed.

Lemma map_ok_moved next m m' v ws l refocus :
  map_ok next m → v ∈ dom m → map_owner m v = None → family_of m v l →
  (refocus = true ↔ ∃ x b, x ∈ l ∧ m !! x = Some b ∧ Bundle.focused b = true) →
  family_moved ws l refocus m m' → map_ok next m'.
Proof.
  intros ((Hown&Hac)&Hone&Hst) Hv Hroot Hl Href Hm.
  assert (Ho : ∀ x, map_owner m' x = map_owner m x).
  { intros x. rewrite !map_owner_bundle. destruct (m' !! x) as [b'|] eqn:Eb'.
    - destruct (family_moved_inv _ _ _ _ _ _ _ Hm Eb') as (b&->&Hp&_). simpl.
      unfold bundle_owner. by rewrite Hp.
    - rewrite Hm in Eb'. destruct (m !! x); [|done].
      case_decide; [done|]. by destruct refocus. }
  assert (Hsame : ∀ x o, map_owner m x = Some o → x ∈ l ↔ o ∈ l).
  { intros x o Hxo. rewrite !(Hl _). split; intros Hd.
    - inversion Hd as [|? y ? Hxy]; subst; [congruence|].
      assert (y = o) as -> by (eapply parent_functional; done). done.
    - by eapply rtc_l. }
  assert (Hws : ∀ x b, m !! x = Some b →
    map_workspace m' x = if decide (x ∈ l) then Some ws else Bundle.workspace b).
  { intros x b Hb. unfold map_workspace. destruct (m' !! x) as [b'|] eqn:Eb'.
    - destruct (family_moved_inv _ _ _ _ _ _ _ Hm Eb') as (c&Hc&_&_&Hin&Hout). simpl.
      assert (c = b) as -> by congruence.
      case_decide; [by apply Hin|by apply Hout].
    - rewrite Hm, Hb in Eb'. case_decide; [done|]. by destruct refocus. }
  split; [|split].
  - eapply forest_ok_owner; [exact Ho| | |by split].
    + intros x [b Hb]. rewrite Hm, Hb. case_decide; [by eexists|]. destruct refocus; by eexists.
    + intros x o Hxo. destruct (map_owner_closed m x o Hown Hxo) as [Hx Hod].
      apply elem_of_dom in Hx as [b Hb]. apply elem_of_dom in Hod as [c Hc].
      rewrite (Hws x b Hb), (Hws o c Hc).
      destruct (Hown x o Hxo) as [_ Hw]. unfold map_workspace in Hw. rewrite Hb, Hc in Hw.
      simpl in Hw. pose proof (Hsame x o Hxo).
      destruct (decide (x ∈ l)), (decide (o ∈ l)); tauto || done.
  - intros x y b' c' Hb' Hc' Hfb Hfc Hw.
    destruct (family_moved_inv _ _ _ _ _ _ _ Hm Hb') as (b&Hb&_&_&Hbin&Hbout).
    destruct (family_moved_inv _ _ _ _ _ _ _ Hm Hc') as (c&Hc&_&_&Hcin&Hcout).
    destruct (decide (x ∈ l)) as [Hx|Hx], (decide (y ∈ l)) as [Hy|Hy].
    + destruct (Hbin Hx) as [_ E1], (Hcin Hy) as [_ E2].
      apply (Hone x y b c); [done|done|congruence|congruence|].
      pose proof (owned_workspace m x v Hown (proj1 (Hl x) Hx)) as W1.
      pose proof (owned_workspace m y v Hown (proj1 (Hl y) Hy)) as W2.
      unfold map_workspace in W1, W2. rewrite Hb in W1. rewrite Hc in W2. simpl in *. congruence.
    + destruct (Hbin Hx) as [E0 E1], (Hcout Hy) as (E2&_&E3). destruct (E3 Hfc) as [_ E4].
      exfalso. apply E4; [|congruence]. apply Href. exists x, b. split_and!; [done|done|congruence].
    + destruct (Hcin Hy) as [E0 E1], (Hbout Hx) as (E2&_&E3). destruct (E3 Hfb) as [_ E4].
      exfalso. apply E4; [|congruence]. apply Href. exists y, c. split_and!; [done|done|congruence].
    + destruct (Hbout Hx) as (E1&_&E2), (Hcout Hy) as (E3&_&E4).
      destruct (E2 Hfb) as [? _], (E4 Hfc) as [? _].
      apply (Hone x y b c); [done|done|done|done|congruence].
  - eapply stacked_from; [|exact Hst]. intros x b' Hb'.
    destruct (family_moved_inv _ _ _ _ _ _ _ Hm Hb') as (b&Hb&_&?&_). by exists b.
Qed.

(** The outcome of [move_view]. *)
Definition moved_view (s : state) (v ws : Z) (s' : state)
    (r : Outcome ViewLifecycleError.t unit) : Prop :=
  match abs s !! v with
  | None => s' = s ∧ r = Err (ViewLifecycleError.MissingViewId v)
  | Some b =>
      match map_owner (abs s) v with
      | Some _ => s' = s ∧ r = Err (ViewLifecycleError.AttachedViewCannotMove v)
      | None =>
          if decide (Bundle.workspace b = Some ws) then s' = s ∧ r = Ok tt
          else r = Ok tt ∧ framed s s' ∧ ∃ l refocus,
            family_of (abs s) v l ∧
            (refocus = true ↔ ∃ x b, x ∈ l ∧ abs s !! x = Some b ∧ Bundle.focused b = true) ∧
            family_moved ws l refocus (abs s) (abs s')
      end
  end.

Lemma move_member_step (s : state) e k ws :
  view_entities s !! k = Some e →
  ∀ w b, linked (set_world w s) → abs (set_world w s) !! k = Some b →
    ∃ w', move_member ws k (set_world w s) = (set_world w' s, Ok tt) ∧
      linked (set_world w' s) ∧
      abs (set_world w' s) = <[k := moved ws b]> (abs (set_world w s)).
Proof.
  intros He w b Hl Hb.
  destruct (abs_entity (set_world w s) k e Hl He) as (b'&Hb'&_&Hc).
  assert (b' = b) as -> by congruence. destruct (Bundle.complete_workspace b Hc) as [w0 Hw0].
  destruct (update_step s e k (moved ws) He ltac:(keeps_solve) w b Hl Hb) as (w'&Ew&?&?).
  exists w'. split; [|done]. unfold move_member.
  rewrite (run_index_view _ k e) by exact He.
  rewrite (run_required _ _ e w0); [exact Ew|].
  rewrite (component_abs _ (set_world w s) k e He), Hb. exact Hw0.
Qed.

Lemma set_world_world (s : state) : set_world (world s) s = s.
Proof. by destruct s. Qed.

Lemma move_view_spec s v ws :
  world_ok s → does (move_view v ws) s (moved_view s v ws).
Proof.
  intros Hok. pose proof Hok as (Hl&Hm&Hn&Hlo). unfold moved_view.
  apply does_entity; [done|by intros ->|].
  intros e b He Hb Hc. rewrite Hb.
  destruct (Bundle.complete_placement b Hc) as [p Hp].
  destruct (Bundle.complete_workspace b Hc) as [cur Hcur].
  eapply does_required; [done..|].
  assert (Howner : map_owner (abs s) v = ViewPlacement.owner p)
    by (rewrite map_owner_bundle, Hb; unfold bundle_owner; simpl; by rewrite Hp).
  rewrite Howner. destruct (ViewPlacement.owner p) as [o|].
  { rewrite decide_True by (by eexists). by apply does_throw. }
  rewrite decide_False by (by intros []).
  eapply does_required; [done..|]. rewrite Hcur.
  destruct (decide (cur = ws)) as [->|Hne].
  { apply does_ret; [done|]. by rewrite decide_True. }
  apply does_get.
  assert (Hvd : v ∈ dom (abs s)) by (apply elem_of_dom; by eexists).
  destruct (view_family_spec s Hl (proj1 Hm) v Hvd) as (l&Hfam&Hnd&Hin&_).
  eapply does_expect; [exact Hfam|].
  set (fam := v :: l) in *. set (refocus := existsb (is_focused s) fam).
  assert (Href : refocus = true ↔
    ∃ x b, x ∈ fam ∧ abs s !! x = Some b ∧ Bundle.focused b = true).
  { unfold refocus. rewrite existsb_exists. split.
    - intros (x&Hx&(c&?&?)%is_focused_abs). exists x, c. by rewrite list_elem_of_In.
    - intros (x&c&Hx&?&?). exists x. split; [by apply list_elem_of_In|].
      apply is_focused_abs. by exists c. }
  assert (Hstep1 : ∃ w1, (if refocus then for_each unfocus (focused_entities ws s)
      else mret tt) s = (set_world w1 s, Ok tt) ∧ linked (set_world w1 s) ∧
      ∀ x, abs (set_world w1 s) !! x =
        if refocus then unfocused ws <$> abs s !! x else abs s !! x).
  { destruct refocus.
    - by apply unfocus_all.
    - exists (world s). rewrite set_world_world. done. }
  destruct Hstep1 as (w1&Ew1&Hl1&Habs1).
  assert (Hents : ∀ k, k ∈ fam → ∃ ek, view_entities s !! k = Some ek).
  { intros k Hk. apply Hin, descends_dom in Hk; [|apply Hm|done].
    apply elem_of_dom in Hk as [bk Hbk].
    destruct (abs_some s k bk Hl Hbk) as (ek&?&_). by exists ek. }
  destruct (for_each_update (λ _, moved ws) (move_member ws) (set_world w1 s) fam fam)
    as (w2&Ew2&Hl2&Habs2).
  - by intros _ [].
  - intros _. keeps_solve.
  - apply Forall_Forall2_diag, Forall_forall. intros k Hk.
    destruct (Hents k Hk) as [ek Hek]. by apply (move_member_step (set_world w1 s) ek k ws).
  - intros k Hk. destruct (Hents k Hk) as [ek Hek].
    destruct (abs_entity (set_world w1 s) k ek Hl1 Hek) as (bk&->&_). by eexists.
  - done.
  - eapply does_step; [exact Ew1|]. eapply does_step; [exact Ew2|].
    assert (Hfm : family_moved ws fam refocus (abs s) (abs (set_world w2 s))).
    { intros x. change (set_world w2 s) with (set_world w2 (set_world w1 s)).
      rewrite Habs2, Habs1. case_decide as Hx; [|done].
      destruct refocus; [|done]. destruct (abs s !! x) as [c|] eqn:Ec; [|done]. simpl. f_equal.
      unfold unfocused. case_bool_decide as Hwc; [|done].
      exfalso. apply Hin in Hx.
      pose proof (owned_workspace _ x v (proj1 (proj1 Hm)) Hx) as Hwx.
      unfold map_workspace in Hwx. rewrite Hb, Ec in Hwx. simpl in Hwx. congruence. }
    assert (Hm2 : map_ok (next_stacking_order s) (abs (set_world w2 s)))
      by (eapply map_ok_moved; done).
    apply does_mod, does_modify.
    + split; [exact Hl2|]. split; [exact Hm2|]. split; [done|].
      change (abs (drop_snapshot ws _)) with (abs (set_world w2 s)).
      intros ws' x b' Hs Hb' Hwb'.
      destruct (family_moved_inv _ _ _ _ _ _ _ Hfm Hb') as (c&Hbc&_&_&Hi&Ho).
      cbn [layout_snapshots drop_snapshot set_snapshots set_world] in Hs.
      destruct (decide (ws' = ws)) as [->|Hws];
        [by rewrite lookup_delete_eq in Hs; destruct Hs|].
      rewrite lookup_delete_ne in Hs by done.
      destruct (decide (ws' = cur)) as [->|Hcu];
        [by rewrite lookup_delete_eq in Hs; destruct Hs|].
      rewrite lookup_delete_ne in Hs by done.
      destruct (decide (x ∈ fam)) as [Hx|Hx].
      { destruct (Hi Hx) as [Ew _]. congruence. }
      destruct (Ho Hx) as (Ew&->&_). eapply (Hlo ws'); [done|done|congruence].
    + rewrite decide_False by congruence. split; [done|]. split; [done|].
      exists fam, refocus. split; [done|]. split; [done|]. exact Hfm.
Qed.

End views.
