(* ===== verification/WorldFocus.v ===== *)
(** * Focus, stacking and minimizing

    [focus_view] makes a view the only focused one of its workspace and raises
    its attachment family; [minimize_view] and [restore_minimized_view] move a
    family to a hidden workspace and back. *)

From S2P Require Import Prelude Geometry Layout Surface Scene Ecs Forest.
From S2P Require Import World WorldInv WorldOps WorldViews.

Import CompositorWorld.

(** ** Raising a list of views *)

(** The views of [l] carry the stacking orders from [next] on, in order. *)
Definition raised (next : Z) (l : list Z) (m m' : gmap Z Bundle.t) : Prop :=
  (∀ i x, l !! i = Some x →
     m' !! x = Bundle.set_stacking (Some (next + Z.of_nat i)) <$> m !! x) ∧
  ∀ x, x ∉ l → m' !! x = m !! x.

Lemma raised_inv next l m m' x b' :
  raised next l m m' → m' !! x = Some b' →
  ∃ b, m !! x = Some b ∧ Bundle.workspace b' = Bundle.workspace b ∧
    Bundle.placement b' = Bundle.placement b ∧ Bundle.focused b' = Bundle.focused b ∧
    Bundle.geometry b' = Bundle.geometry b ∧
    ((x ∉ l ∧ Bundle.stacking b' = Bundle.stacking b) ∨
     ∃ i, l !! i = Some x ∧ Bundle.stacking b' = Some (next + Z.of_nat i)).
Proof.
  intros [Hin Hout] Hb'. destruct (decide (x ∈ l)) as [Hx|Hx].
  - apply list_elem_of_lookup in Hx as [i Hi]. rewrite (Hin i x Hi) in Hb'.
    destruct (m !! x) as [b|]; [|done]. injection Hb' as <-. exists b.
    split_and!; [done..|]. right. by exists i.
  - rewrite (Hout x Hx) in Hb'. exists b'. split_and!; [done..|]. by left.
Qed.

Lemma map_ok_raised next l m m' :
  NoDup l → 1 <= next → map_ok next m → raised next l m m' →
  map_ok (next + Z.of_nat (length l)) m'.
Proof.
  intros Hnd Hn (Hfo&Hone&Hst1&Hst2) Hr.
  assert (Hdom : ∀ x, is_Some (m !! x) → is_Some (m' !! x)).
  { intros x [b Hb]. destruct Hr as [Hin Hout]. destruct (decide (x ∈ l)) as [Hx|Hx].
    - apply list_elem_of_lookup in Hx as [i Hi]. rewrite (Hin i x Hi), Hb. by eexists.
    - rewrite Hout, Hb by done. by eexists. }
  assert (Hproj : ∀ {C} (p : Bundle.t → option C),
    (∀ b k, p (Bundle.set_stacking k b) = p b) →
    ∀ x, (b ← m' !! x; p b) = (b ← m !! x; p b)).
  { intros C p Hp x. destruct Hr as [Hin Hout]. destruct (decide (x ∈ l)) as [Hx|Hx].
    - apply list_elem_of_lookup in Hx as [i Hi]. rewrite (Hin i x Hi).
      destruct (m !! x) as [b|]; simpl; [apply Hp|done].
    - by rewrite Hout. }
  split; [|split; [|split]].
  - eapply forest_ok_owner; [|done| |exact Hfo].
    + intros x. by apply (Hproj _ bundle_owner).
    + intros x o Hxo. unfold map_workspace. rewrite !(Hproj _ Bundle.workspace) by done.
      by apply (proj1 Hfo).
  - eapply one_focus_from; [|exact Hone]. intros x b' Hb' Hf.
    destruct (raised_inv _ _ _ _ _ _ Hr Hb') as (b&Hb&?&_&?&_). exists b.
    split; [done|]. split; congruence.
  - intros x b' k Hb' Hk. destruct (raised_inv _ _ _ _ _ _ Hr Hb') as (b&Hb&_&_&_&_&[[_ E]|(i&Hi&E)]).
    + specialize (Hst1 x b k Hb). assert (1 <= k < next) by (apply Hst1; congruence). lia.
    + apply lookup_lt_Some in Hi. assert (k = next + Z.of_nat i) by congruence. lia.
  - intros x y b' c' Hb' Hc' Eq.
    destruct (raised_inv _ _ _ _ _ _ Hr Hb') as (b&Hb&_&_&_&_&Hcase).
    destruct (raised_inv _ _ _ _ _ _ Hr Hc') as (c&Hc&_&_&_&_&Hcase').
    destruct Hcase as [[_ E1]|(i&Hi&E1)], Hcase' as [[_ E2]|(j&Hj&E2)].
    + apply (Hst2 x y b c); congruence.
    + assert (1 <= next + Z.of_nat j < next) by (apply (Hst1 x b); congruence). lia.
    + assert (1 <= next + Z.of_nat i < next) by (apply (Hst1 y c); congruence). lia.
    + assert (i = j) as -> by (assert (next + Z.of_nat i = next + Z.of_nat j) by congruence; lia).
      congruence.
Qed.

Section focus.

Context {W E : Type} `{Ecs W E}.

#[local] Abbreviation state := (t W E).

Lemma raise_one_spec (s : state) v e b :
  linked s → view_entities s !! v = Some e → abs s !! v = Some b →
  next_stacking_order s < U64.MAX →
  ∃ w, let s' := set_next (next_stacking_order s + 1) (set_world w s) in
    raise_one v s = (s', Ok tt) ∧ linked s' ∧
    abs s' = <[v := Bundle.set_stacking (Some (next_stacking_order s)) b]> (abs s).
Proof.
  intros Hl He Hb Hn. unfold raise_one. rewrite (run_entity_for _ v e) by done.
  rewrite (run_ok _ _ _ _ _ (run_allocate s Hn)).
  destruct (entity_mut_spec (set_next (next_stacking_order s + 1) s) v e b
    (Bundle.set_stacking (Some (next_stacking_order s)))) as (w&Ew&Hl'&Habs);
    [exact Hl|exact He|exact Hb|keeps_solve|].
  exists w. split; [exact Ew|]. split; [exact Hl'|exact Habs].
Qed.

Lemma raise_all_spec (l : list Z) (s : state) :
  linked s → NoDup l → (∀ x, x ∈ l → is_Some (abs s !! x)) →
  next_stacking_order s + Z.of_nat (length l) <= U64.MAX →
  ∃ w, let s' := set_next (next_stacking_order s + Z.of_nat (length l)) (set_world w s) in
    for_each raise_one l s = (s', Ok tt) ∧ linked s' ∧
    raised (next_stacking_order s) l (abs s) (abs s').
Proof.
  revert s. induction l as [|v l IH]; intros s Hl Hnd Hdom Hn.
  { exists (world s). split; [|split; [exact Hl|]].
    - simpl. rewrite Z.add_0_r. by destruct s.
    - split; [by intros i x Hi; rewrite lookup_nil in Hi|done]. }
  apply NoDup_cons in Hnd as [Hv Hnd]. simpl length in *.
  destruct (Hdom v) as [b Hb]; [by left|]. destruct (abs_some s v b Hl Hb) as (e&He&_).
  destruct (raise_one_spec s v e b Hl He Hb) as (w1&E1&Hl1&Habs1); [lia|].
  set (s1 := set_next _ (set_world w1 s)) in *.
  destruct (IH s1 Hl1 Hnd) as (w2&E2&Hl2&Hr2).
  - intros x Hx. rewrite Habs1, lookup_insert_is_Some'. right. apply Hdom. by right.
  - cbn [next_stacking_order s1 set_next]. lia.
  - assert (En : next_stacking_order s1 + Z.of_nat (length l)
      = next_stacking_order s + Z.of_nat (S (length l)))
      by (cbn [next_stacking_order s1 set_next]; lia).
    exists w2. cbn zeta. rewrite <- En. simpl for_each.
    split; [by rewrite (run_ok _ _ _ _ _ E1)|]. split; [exact Hl2|].
    destruct Hr2 as [Hin Hout]. split.
    + intros [|i] x Hi; simpl in Hi.
      * injection Hi as ->. rewrite Z.add_0_r.
        change (abs (set_next _ (set_world w2 s))) with
          (abs (set_next (next_stacking_order s1 + Z.of_nat (length l)) (set_world w2 s1))).
        rewrite Hout by done. rewrite Habs1, lookup_insert_eq, Hb. done.
      * change (abs (set_next _ (set_world w2 s))) with
          (abs (set_next (next_stacking_order s1 + Z.of_nat (length l)) (set_world w2 s1))).
        rewrite (Hin i x Hi), Habs1. rewrite lookup_insert_ne.
        { cbn [next_stacking_order s1 set_next]. do 3 f_equal. lia. }
        intros ->. by apply Hv, (list_elem_of_lookup_2 _ i).
    + intros x Hx. apply not_elem_of_cons in Hx as [Hxv Hx].
      change (abs (set_next _ (set_world w2 s))) with
        (abs (set_next (next_stacking_order s1 + Z.of_nat (length l)) (set_world w2 s1))).
      rewrite Hout by done. by rewrite Habs1, lookup_insert_ne.
Qed.

(** ** The raised order *)

(** The order in which [raise_view_family] restacks: the rest of the family
    below, the focused subtree on top, owners before what they own. *)
Record raise_order (m : gmap Z Bundle.t) (v root : Z) (l : list Z) : Prop := {
  order_nodup : NoDup l;
  order_family : ∀ x, x ∈ l ↔ descends (map_owner m) x root;
  order_subtree : ∀ i j x y, l !! i = Some x → l !! j = Some y →
    ¬ descends (map_owner m) x v → descends (map_owner m) y v → (i < j)%nat;
  order_owner : ∀ i j x o, l !! j = Some x → l !! i = Some o →
    map_owner m x = Some o → (i < j)%nat }.

Lemma family_raise_order (s : state) v l :
  linked s → forest_ok (abs s) → v ∈ dom (abs s) → view_family s v = Some l →
  map_owner (abs s) v = None → raise_order (abs s) v v l.
Proof.
  intros Hl Hf Hv Hfam Hroot.
  destruct (view_family_spec s Hl Hf v Hv) as (l'&Hfam'&Hnd&Hin&Hord).
  assert (l = v :: l') as -> by congruence. split; [done|done| |].
  - intros i j x y Hi _ Hnx _. exfalso. apply Hnx, Hin. by eapply list_elem_of_lookup_2.
  - intros i j x o Hj Hi Hxo. destruct (Hord j x Hj) as (i'&o'&Hlt&Hi'&Hxo').
    + intros ->. congruence.
    + assert (o' = o) as -> by congruence.
      assert (i' = i) as -> by (by eapply NoDup_lookup). done.
Qed.

(** A list that keeps the elements outside a set in order. *)
Lemma filter_lookup_order {A} (P : A → Prop) `{!∀ x, Decision (P x)} (l : list A) i j x y :
  NoDup l → filter P l !! i = Some x → filter P l !! j = Some y →
  ∃ i' j', l !! i' = Some x ∧ l !! j' = Some y ∧ ((i' < j')%nat → (i < j)%nat).
Proof.
  revert i j. induction l as [|a l IH]; intros i j Hnd Hi Hj; [by rewrite filter_nil in Hi|].
  apply NoDup_cons in Hnd as [Ha Hnd]. rewrite filter_cons in Hi, Hj.
  assert (Hmem : ∀ k z, filter P l !! k = Some z → ∃ k', l !! k' = Some z).
  { intros k z Hk%list_elem_of_lookup_2. apply list_elem_of_filter in Hk as [_ Hk].
    by apply list_elem_of_lookup. }
  destruct (decide (P a)).
  - destruct i as [|i], j as [|j]; simpl in Hi, Hj.
    + simplify_eq. exists 0%nat, 0%nat. split_and!; [done|done|lia].
    + destruct (Hmem j y Hj) as [k Hk]. simplify_eq. exists 0%nat, (S k).
      split_and!; [done|done|lia].
    + destruct (Hmem i x Hi) as [k Hk]. simplify_eq. exists (S k), 0%nat.
      split_and!; [done|done|lia].
    + destruct (IH i j Hnd Hi Hj) as (i'&j'&?&?&?). exists (S i'), (S j').
      split_and!; [done|done|lia].
  - destruct (IH i j Hnd Hi Hj) as (i'&j'&?&?&?). exists (S i'), (S j').
    split_and!; [done|done|lia].
Qed.

Lemma subtree_raise_order (s : state) v root fam sub :
  linked s → forest_ok (abs s) → root ∈ dom (abs s) →
  descends (map_owner (abs s)) v root → map_owner (abs s) root = None →
  view_family s root = Some fam → view_family s v = Some sub →
  raise_order (abs s) v root (filter (λ x, x ∉ sub) fam ++ sub).
Proof.
  intros Hl Hf Hr Hvr Hroot Hfam Hsub. pose proof Hf as [Hown Hac].
  assert (Hv : v ∈ dom (abs s)) by (by eapply descends_dom).
  destruct (view_family_spec s Hl Hf root Hr) as (f'&Ef&Hnd&Hin&Hord).
  assert (fam = root :: f') as -> by congruence.
  destruct (view_family_spec s Hl Hf v Hv) as (s'&Es&Hnds&Hins&Hords).
  assert (sub = v :: s') as -> by congruence. set (fam := root :: f') in *.
  set (sub := v :: s') in *.
  assert (Hup : ∀ x o, map_owner (abs s) x = Some o → o ∈ sub → x ∈ sub).
  { intros x o Hxo Ho. apply Hins. apply Hins in Ho. by eapply rtc_l. }
  split.
  - apply NoDup_app. split; [by apply NoDup_filter|]. split; [|done].
    intros x Hx. by apply list_elem_of_filter in Hx as [? _].
  - intros x. rewrite elem_of_app, list_elem_of_filter. split.
    + intros [[_ ?]|Hx]; [by apply Hin|]. apply Hins in Hx.
      unfold descends in *; by etransitivity.
    + intros Hx. destruct (decide (x ∈ sub)) as [Hxs|Hxs]; [by right|].
      left. split; [done|by apply Hin].
  - intros i j x y Hi Hj Hnx Hy.
    apply lookup_app_Some in Hi as [Hi|[_ Hi]];
      [|exfalso; apply Hnx, Hins; by eapply list_elem_of_lookup_2].
    apply lookup_app_Some in Hj as [Hj|[Hge _]].
    + apply list_elem_of_lookup_2, list_elem_of_filter in Hj as [Hj _].
      exfalso. by apply Hj, Hins.
    + apply lookup_lt_Some in Hi. lia.
  - intros i j x o Hj Hi Hxo.
    apply lookup_app_Some in Hj as [Hj|[Hge Hj]]; apply lookup_app_Some in Hi as [Hi|[Hgi Hi]].
    + destruct (filter_lookup_order _ _ _ _ _ _ Hnd Hi Hj) as (i'&j'&Hi'&Hj'&Hlt).
      apply Hlt. destruct (Hord j' x Hj') as (i2&o2&Hlt2&Hi2&Hxo2).
      * intros ->. congruence.
      * assert (o2 = o) as -> by congruence.
        assert (i2 = i') as -> by (exact (NoDup_lookup _ _ _ _ Hnd Hi2 Hi')). done.
    + exfalso. apply list_elem_of_lookup_2, list_elem_of_filter in Hj as [Hj _].
      apply Hj. eapply Hup; [exact Hxo|]. by eapply list_elem_of_lookup_2.
    + apply lookup_lt_Some in Hi. lia.
    + destruct (decide (x = v)) as [->|Hxv].
      { exfalso. apply list_elem_of_lookup_2, Hins in Hi.
        apply (acyclic_irrefl _ v Hac). eapply tc_rtc_r; [by apply tc_once|exact Hi]. }
      destruct (Hords _ x Hj Hxv) as (i2&o2&Hlt2&Hi2&Hxo2).
      assert (o2 = o) as -> by congruence.
      assert (i2 = i - length (filter (λ x, x ∉ sub) fam))%nat as -> by (by eapply NoDup_lookup).
      lia.
Qed.

Lemma raise_order_dom (s : state) v root l :
  forest_ok (abs s) → root ∈ dom (abs s) → raise_order (abs s) v root l →
  (∀ x, x ∈ l → is_Some (abs s !! x)) ∧ (length l <= size (dom (abs s)))%nat.
Proof.
  intros [Hown _] Hr Ho.
  assert (Hin : ∀ x, x ∈ l → x ∈ dom (abs s)).
  { intros x Hx. apply (order_family _ _ _ _ Ho) in Hx. by eapply descends_dom. }
  split; [intros x Hx; by apply elem_of_dom, Hin|].
  apply nodup_bounded; [apply Ho|done].
Qed.

(** The whole attachment family of a view is restacked on top. *)
Lemma raise_view_family_spec (s : state) v :
  linked s → forest_ok (abs s) → v ∈ dom (abs s) →
  next_stacking_order s + Z.of_nat (size (dom (abs s))) <= U64.MAX →
  ∃ w root l,
    let s' := set_next (next_stacking_order s + Z.of_nat (length l)) (set_world w s) in
    raise_view_family v s = (s', Ok tt) ∧ linked s' ∧
    (length l <= size (dom (abs s)))%nat ∧
    map_owner (abs s) root = None ∧ descends (map_owner (abs s)) v root ∧
    raise_order (abs s) v root l ∧ raised (next_stacking_order s) l (abs s) (abs s').
Proof.
  intros Hl Hf Hv Hroom. pose proof Hf as [Hown _].
  destruct (tiled_ancestor_spec s Hl Hf v Hv) as (root&Ht&Hd&Hroot&Hrd).
  destruct (view_family_spec s Hl Hf root Hrd) as (fam&Hfam&_).
  destruct (view_family_spec s Hl Hf v Hv) as (sub&Hsub&_).
  assert (Hfinal : ∀ l, raise_order (abs s) v root l → ∃ w,
    let s' := set_next (next_stacking_order s + Z.of_nat (length l)) (set_world w s) in
    for_each raise_one l s = (s', Ok tt) ∧ linked s' ∧
    (length l <= size (dom (abs s)))%nat ∧
    raised (next_stacking_order s) l (abs s) (abs s')).
  { intros l Ho. destruct (raise_order_dom s v root l Hf Hrd Ho) as [Hin Hlen].
    destruct (raise_all_spec l s Hl (order_nodup _ _ _ _ Ho) Hin) as (w&Ew&Hl'&Hr); [lia|].
    by exists w. }
  unfold raise_view_family. destruct (decide (v = root)) as [->|Hne].
  - pose proof (family_raise_order s root (root :: fam) Hl Hf Hv Hfam Hroot) as Ho.
    destruct (Hfinal _ Ho) as (w&Ew&Hl'&Hlen&Hr). exists w, root, (root :: fam).
    split; [|by split_and!].
    rewrite run_get, (run_ok _ _ s s root) by (by rewrite Ht).
    rewrite (run_expect _ _ _ _ Hfam), (run_ok _ _ s s (root :: fam)) by (by rewrite decide_True).
    exact Ew.
  - pose proof (subtree_raise_order s v root _ _ Hl Hf Hrd Hd Hroot Hfam Hsub) as Ho.
    destruct (Hfinal _ Ho) as (w&Ew&Hl'&Hlen&Hr). exists w, root. eexists.
    split; [|split; [exact Hl'|split; [exact Hlen|by split_and!]]].
    rewrite run_get, (run_ok _ _ s s root) by (by rewrite Ht).
    rewrite (run_expect _ _ _ _ Hfam). erewrite run_ok; [exact Ew|].
    by rewrite decide_False, (run_expect _ _ _ _ Hsub).
Qed.

(** ** Focusing a view *)

(** The focus of the workspace moves to [v] ... *)
Definition refocused (ws v : Z) (m m' : gmap Z Bundle.t) : Prop :=
  ∀ x, m' !! x =
    if decide (x = v) then Bundle.set_focused true <$> m !! x
    else unfocused ws <$> m !! x.

(** ... and its attachment family to the top of the stack. *)
Definition focused_view_post (s : state) (v : Z) (s' : state)
    (r : Outcome ViewLifecycleError.t unit) : Prop :=
  match abs s !! v with
  | None => s' = s ∧ r = Err (ViewLifecycleError.MissingViewId v)
  | Some b =>
      r = Ok tt ∧
      if Bundle.focused b then s' = s
      else ∃ ws root l m,
        Bundle.workspace b = Some ws ∧ map_owner (abs s) root = None ∧
        descends (map_owner (abs s)) v root ∧ raise_order (abs s) v root l ∧
        refocused ws v (abs s) m ∧ raised (next_stacking_order s) l m (abs s') ∧
        next_stacking_order s' = next_stacking_order s + Z.of_nat (length l) ∧
        (length l <= size (dom (abs s)))%nat
  end.

Lemma refocused_inv ws v m m' x b' :
  refocused ws v m m' → m' !! x = Some b' →
  ∃ b, m !! x = Some b ∧ Bundle.workspace b' = Bundle.workspace b ∧
    Bundle.placement b' = Bundle.placement b ∧ Bundle.stacking b' = Bundle.stacking b ∧
    Bundle.geometry b' = Bundle.geometry b ∧
    (Bundle.focused b' = true → x = v ∨ Bundle.focused b = true ∧ Bundle.workspace b ≠ Some ws).
Proof.
  intros Hr Hb'. rewrite Hr in Hb'. case_decide as Hx.
  - destruct (m !! x) as [b|]; [|done]. injection Hb' as <-. exists b.
    split_and!; [done..|]. by left.
  - destruct (m !! x) as [b|]; [|done]. injection Hb' as <-. exists b.
    destruct (unfocused_fields ws b) as (E1&E2&E3&E4&E5). split_and!; [done..|].
    intros Hf. right. by apply E5.
Qed.

Lemma refocused_owner ws v m m' x : refocused ws v m m' → map_owner m' x = map_owner m x.
Proof.
  intros Hr. rewrite !map_owner_bundle. destruct (m' !! x) as [b'|] eqn:Ex.
  - destruct (refocused_inv _ _ _ _ _ _ Hr Ex) as (b&->&_&Hp&_). simpl.
    unfold bundle_owner. by rewrite Hp.
  - rewrite Hr in Ex. destruct (m !! x); [|done]. by case_decide.
Qed.

Lemma map_ok_refocused next ws v b m m' :
  m !! v = Some b → Bundle.workspace b = Some ws → refocused ws v m m' →
  map_ok next m → map_ok next m'.
Proof.
  intros Hb Hws Hr (Hfo&Hone&Hst).
  assert (Hw : ∀ x, map_workspace m' x = map_workspace m x).
  { intros x. unfold map_workspace. destruct (m' !! x) as [b'|] eqn:Ex.
    - by destruct (refocused_inv _ _ _ _ _ _ Hr Ex) as (c&->&?&_).
    - rewrite Hr in Ex. destruct (m !! x); [|done]. by case_decide. }
  split; [|split].
  - eapply forest_ok_owner; [intros x; by eapply refocused_owner| | |exact Hfo].
    + intros x [c Hc]. rewrite Hr, Hc. case_decide; by eexists.
    + intros x o Hx. rewrite !Hw. by apply (proj1 Hfo).
  - intros x y b1 b2 H1 H2 F1 F2 Ew.
    destruct (refocused_inv _ _ _ _ _ _ Hr H1) as (c1&Hc1&W1&_&_&_&C1).
    destruct (refocused_inv _ _ _ _ _ _ Hr H2) as (c2&Hc2&W2&_&_&_&C2).
    destruct (C1 F1) as [->|[G1 N1]], (C2 F2) as [->|[G2 N2]].
    + done.
    + exfalso. apply N2. congruence.
    + exfalso. apply N1. congruence.
    + apply (Hone x y c1 c2); congruence.
  - eapply stacked_from; [|exact Hst]. intros x b' Ex.
    destruct (refocused_inv _ _ _ _ _ _ Hr Ex) as (c&?&_&_&?&_). by exists c.
Qed.

Lemma laid_out_keep snapshots m m' :
  (∀ x b', m' !! x = Some b' → ∃ b, m !! x = Some b ∧
     Bundle.workspace b' = Bundle.workspace b ∧ Bundle.geometry b' = Bundle.geometry b) →
  laid_out snapshots m → laid_out snapshots m'.
Proof.
  intros Hk Hlo ws x b' Hs Hb' Hw. destruct (Hk x b' Hb') as (b&Hb&?&->).
  apply (Hlo ws x b); congruence.
Qed.

(** The focus moves before the family is raised. *)
Lemma refocus_step (s : state) v e b ws :
  linked s → view_entities s !! v = Some e → abs s !! v = Some b →
  ∃ w, (for_each unfocus (focused_entities ws s);; entity_mut e (Bundle.set_focused true)) s
    = (set_world w s, Ok tt) ∧ linked (set_world w s) ∧
    (Bundle.workspace b = Some ws → refocused ws v (abs s) (abs (set_world w s))).
Proof.
  intros Hl He Hb. destruct (unfocus_all s ws Hl) as (w1&Ew1&Hl1&Habs1).
  destruct (entity_mut_spec (set_world w1 s) v e (unfocused ws b) (Bundle.set_focused true) Hl1)
    as (w2&Ew2&Hl2&Habs2); [done|by rewrite Habs1, Hb|keeps_solve|].
  exists w2. split; [by rewrite (run_ok _ _ _ _ _ Ew1)|]. split; [exact Hl2|].
  intros Hws x. change (set_world w2 s) with (set_world w2 (set_world w1 s)). rewrite Habs2.
  case_decide as Hx.
  - subst x. rewrite lookup_insert_eq, Hb. simpl. f_equal. unfold unfocused.
    by case_bool_decide.
  - by rewrite lookup_insert_ne, Habs1.
Qed.

Lemma focus_marker_some b : is_Some (focus_marker b) ↔ Bundle.focused b = true.
Proof. unfold focus_marker. destruct (Bundle.focused b); split; first [done|by eexists|by intros []]. Qed.

Lemma focus_view_spec s v :
  world_ok s → next_stacking_order s + Z.of_nat (size (dom (abs s))) <= U64.MAX →
  does (focus_view v) s (focused_view_post s v).
Proof.
  intros Hok Hroom. pose proof Hok as (Hl&Hm&Hn&Hlo). unfold focused_view_post.
  apply does_entity; [done|by intros ->|]. intros e b He Hb Hc. rewrite Hb.
  apply does_get. rewrite (component_abs _ s v e He), Hb. cbn [mbind option_bind].
  pose proof (focus_marker_some b) as Hmark. destruct (Bundle.focused b) eqn:Hfb.
  { rewrite decide_True by (by apply Hmark). by apply does_ret. }
  rewrite decide_False by (by intros ?%Hmark).
  destruct (Bundle.complete_workspace b Hc) as [ws Hws].
  eapply does_required; [done..|].
  destruct (refocus_step s v e b ws Hl He Hb) as (w1&Ew1&Hl1&Hr1). specialize (Hr1 Hws).
  set (s1 := set_world w1 s) in *.
  pose proof (map_ok_refocused _ _ _ _ _ _ Hb Hws Hr1 Hm) as Hm1.
  assert (Hdom : dom (abs s1) = dom (abs s)).
  { rewrite !abs_dom by done. done. }
  assert (Hvd : v ∈ dom (abs s1)) by (rewrite Hdom; by apply elem_of_dom).
  destruct (raise_view_family_spec s1 v Hl1 (proj1 Hm1) Hvd) as (w2&root&l&E2&Hl2&Hlen&Hroot&Hd&Ho&Hr2);
    [by rewrite Hdom|].
  set (s2 := set_next _ (set_world w2 s1)) in *.
  assert (Howner : ∀ x, map_owner (abs s1) x = map_owner (abs s) x)
    by (intros x; by eapply refocused_owner).
  assert (Hrun : (for_each unfocus (focused_entities ws s);;
      entity_mut e (Bundle.set_focused true);; raise_view_family v;;
      modify (drop_snapshot ws)) s = (drop_snapshot ws s2, Ok tt)).
  { revert Ew1. unfold mbind, run_bind.
    destruct (for_each unfocus _ s) as [s3 [[]| |]]; [|done|done].
    destruct (entity_mut e _ s3) as [s4 [[]| |]]; [|done|done].
    intros [= ->]. by rewrite E2. }
  exists (drop_snapshot ws s2), (Ok tt). split; [exact Hrun|]. split; [done|].
  split.
  - apply world_ok_drop. split; [done|]. split; [|split].
    + apply (map_ok_raised _ l _ _ (order_nodup _ _ _ _ Ho)) in Hr2; [exact Hr2|simpl; lia|exact Hm1].
    + cbn [next_stacking_order s2 set_next]. rewrite Hdom in Hlen. simpl. lia.
    + change (layout_snapshots s2) with (layout_snapshots s).
      apply (laid_out_keep _ (abs s1)).
      { intros x b' Hx. destruct (raised_inv _ _ _ _ _ _ Hr2 Hx) as (c&?&?&_&_&?&_). by exists c. }
      apply (laid_out_keep _ (abs s)); [|done].
      intros x b' Hx. destruct (refocused_inv _ _ _ _ _ _ Hr1 Hx) as (c&?&?&_&_&?&_). by exists c.
  - split; [done|]. exists ws, root, l, (abs s1). rewrite Hdom in Hlen.
    split; [done|]. rewrite <- Howner. split; [done|].
    assert (Hdd : ∀ x y, descends (map_owner (abs s1)) x y ↔ descends (map_owner (abs s)) x y).
    { intros x y. split; apply descends_sub; intros; congruence. }
    split; [by apply Hdd|]. split; [|by split_and!].
    destruct Ho as [Ho1 Ho2 Ho3 Ho4]. split; [done| | |].
    + intros x. by rewrite <- Hdd.
    + intros i j x y Hi Hj Hx Hy. apply (Ho3 i j x y); [done|done|by rewrite Hdd|by rewrite Hdd].
    + intros i j x o. rewrite <- Howner. apply Ho4.
Qed.

(** ** Minimizing *)

(** Running one operation after another. *)
Lemma does_bind {A B} (m : M W E A) (k : A → M W E B) s Q P :
  does m s Q →
  (∀ s' a, world_ok s' → Q s' (Ok a) → does (k a) s' P) →
  (∀ s' e, world_ok s' → Q s' (Err e) → P s' (Err e)) →
  does (m ≫= k) s P.
Proof.
  intros (s'&[a|e|]&Hm&Hp&Hok&HQ) Hk He; [|by eapply does_fail; [exact Hm|done|auto]|done].
  eapply does_step; [exact Hm|]. by apply Hk.
Qed.

Definition minimized_post (s : state) (v hidden : Z) (s' : state)
    (r : Outcome ViewLifecycleError.t bool) : Prop :=
  match abs s !! v with
  | None => s' = s ∧ r = Err (ViewLifecycleError.MissingViewId v)
  | Some b =>
      if decide (is_Some (Bundle.minimized_from b) ∨ Bundle.workspace b = Some hidden)
      then s' = s ∧ r = Ok false
      else match map_owner (abs s) v with
      | Some _ => s' = s ∧ r = Err (ViewLifecycleError.AttachedViewCannotMove v)
      | None => r = Ok true ∧ framed s s' ∧ ∃ l refocus m,
          family_of (abs s) v l ∧
          (refocus = true ↔ ∃ x b, x ∈ l ∧ abs s !! x = Some b ∧ Bundle.focused b = true) ∧
          family_moved hidden l refocus (abs s) m ∧
          abs s' = <[v := Bundle.set_minimized_from (Bundle.workspace b) (moved hidden b)]> m
      end
  end.

Lemma minimize_view_spec s v hidden :
  world_ok s → does (minimize_view v hidden) s (minimized_post s v hidden).
Proof.
  intros Hok. pose proof Hok as (Hl&_). unfold minimized_post.
  apply does_entity; [done|by intros ->|]. intros e b He Hb Hc. rewrite Hb.
  apply does_get. rewrite (component_abs _ s v e He), Hb. cbn [mbind option_bind].
  destruct (Bundle.complete_workspace b Hc) as [ws Hws].
  destruct (decide (is_Some (Bundle.minimized_from b) ∨ Bundle.workspace b = Some hidden))
    as [Hskip|Hskip].
  { destruct (decide (is_Some (Bundle.minimized_from b))); [by apply does_ret|]. eapply does_required; [done..|].
    rewrite decide_True; [by apply does_ret|].
    destruct Hskip; [done|congruence]. }
  rewrite decide_False by tauto. eapply does_required; [done..|].
  rewrite decide_False by (intros ->; tauto). rewrite Hws.
  eapply does_bind; [by apply move_view_spec| |].
  - intros s1 [] Hok1 Hmv. unfold moved_view in Hmv. rewrite Hb in Hmv.
    destruct (map_owner (abs s) v) eqn:Eo; [by destruct Hmv|].
    rewrite decide_False in Hmv by tauto.
    destruct Hmv as (_&Hfr&l&refocus&Hfam&Href&Hm).
    assert (Hb1 : abs s1 !! v = Some (moved hidden b)).
    { rewrite Hm, decide_True, Hb; [done|]. apply Hfam, rtc_refl. }
    apply does_entity; [done|by intros Hn; rewrite Hn in Hb1|].
    intros e1 b1 He1 Hb1' Hc1. assert (b1 = moved hidden b) as -> by congruence.
    eapply does_inert; [done|done|exact Hb1'|keeps_solve|by repeat split|done|].
    intros w Hok' Habs. apply does_ret; [done|]. split; [done|].
    split; [by destruct Hfr as (?&?&?)|].
    exists l, refocus, (abs s1). split; [done|]. split; [done|]. by split.
  - intros s1 er Hok1 Hmv. unfold moved_view in Hmv. rewrite Hb in Hmv.
    destruct (map_owner (abs s) v) eqn:Eo.
    + destruct Hmv as [-> [= ->]]. done.
    + case_decide; by destruct Hmv.
Qed.

(** [restore_minimized_view] moves the family of a minimized view back to the
    workspace it was minimized from. *)
Definition restored_post (s : state) (v : Z) (s' : state)
    (r : Outcome ViewLifecycleError.t (option Z)) : Prop :=
  match abs s !! v with
  | None => s' = s ∧ r = Err (ViewLifecycleError.MissingViewId v)
  | Some b =>
      match Bundle.minimized_from b with
      | None => s' = s ∧ r = Ok None
      | Some origin =>
          match r with
          | Ok a => a = Some origin ∧ moved_view s v origin s' (Ok tt)
          | Err er => moved_view s v origin s' (Err er)
          | Panic => False
          end
      end
  end.

Lemma restore_minimized_view_spec s v :
  world_ok s → does (restore_minimized_view v) s (restored_post s v).
Proof.
  intros Hok. unfold restored_post.
  apply does_entity; [done|by intros ->|]. intros e b He Hb Hc. rewrite Hb.
  apply does_get. rewrite (component_abs _ s v e He), Hb. cbn [mbind option_bind].
  destruct (Bundle.minimized_from b) as [origin|]; [|by apply does_ret].
  eapply does_bind; [by apply move_view_spec| |done].
  intros s1 [] Hok1 Hmv. by apply does_ret.
Qed.

End focus.
