(* ===== verification/WorldArrange.v ===== *)
(** * Arranging a workspace

    [arrange_workspace] lays out the tiled views with the layout engine and
    derives the geometry of every other view: floating views keep their own,
    attached views are centred over their owner. The resolution loop is shown
    to reach every view, because attachment is a finite forest inside one
    workspace. *)

From S2P Require Import Prelude Geometry Layout LayoutGrid LayoutScroll Surface Scene.
From S2P Require Import Ecs Forest World WorldInv WorldOps WorldViews WorldFocus.

Import CompositorWorld.

(** ** Resolving geometries *)

Section resolve.

Context {E : Type}.

#[local] Abbreviation view := (WorkspaceView E).

(** The geometry that a table of geometries gives a view that is not tiled. *)
Definition derived_geometry (g : gmap Z Rect.t) (x : view) : option Rect.t :=
  match wv_placement x with
  | ViewPlacement.Tiled => None
  | ViewPlacement.Floating r => Some r
  | ViewPlacement.Attached owner preferred_size =>
      (λ o, attached_geometry o (ViewLayout.constraints (wv_layout x)) preferred_size)
        <$> g !! owner
  end.

Lemma derived_geometry_mono g g' x r :
  g ⊆ g' → derived_geometry g x = Some r → derived_geometry g' x = Some r.
Proof.
  intros Hsub. unfold derived_geometry. destruct (wv_placement x) as [| |o size]; [done|done|].
  destruct (g !! o) as [q|] eqn:Eq; simpl; [|done].
  by rewrite (lookup_weaken _ _ _ _ Eq Hsub).
Qed.

(** What a pass does: it extends the table with derived geometries of views
    of the list and keeps the views whose owner was not known. *)
Record pass_spec (g : gmap Z Rect.t) (pending : list view) (g' : gmap Z Rect.t)
    (unresolved : list view) (progressed : bool) : Prop := {
  pass_grows : g ⊆ g';
  pass_sublist : unresolved `sublist_of` pending;
  pass_covers : ∀ x, x ∈ pending → x ∈ unresolved ∨
    ∃ r, g' !! wv_id x = Some r ∧ derived_geometry g' x = Some r;
  pass_origin : ∀ v, is_Some (g' !! v) → is_Some (g !! v) ∨
    ∃ x, x ∈ pending ∧ x ∉ unresolved ∧ wv_id x = v;
  pass_stuck : ∀ x, x ∈ unresolved → derived_geometry g x = None;
  pass_progress : progressed = false → g' = g ∧ unresolved = pending }.

Lemma resolve_pass_insert g x r pending g' unresolved p :
  NoDup (wv_id <$> x :: pending) → g !! wv_id x = None → derived_geometry g x = Some r →
  pass_spec (<[wv_id x := r]> g) pending g' unresolved p →
  pass_spec g (x :: pending) g' unresolved true.
Proof.
  intros Hnd Hx Hd [Hg Hs Hc Ho Hst _].
  rewrite fmap_cons, NoDup_cons in Hnd. destruct Hnd as [Hxp Hnd].
  assert (Hsub : g ⊆ <[wv_id x := r]> g) by by apply insert_subseteq.
  assert (Hxu : x ∉ unresolved).
  { intros Hu. apply Hxp, list_elem_of_fmap_2. by eapply elem_of_sublist. }
  split; [by etransitivity|by apply sublist_cons| | | |done].
  - intros y [->|Hy]%elem_of_cons; [|by apply Hc]. right. exists r. split.
    + eapply lookup_weaken; [apply lookup_insert_eq|done].
    + eapply derived_geometry_mono; [|done]. by etransitivity.
  - intros v Hv. destruct (Ho v Hv) as [Hi|(y&?&?&?)].
    + destruct (decide (v = wv_id x)) as [->|].
      * right. exists x. split; [by left|done].
      * left. by rewrite lookup_insert_ne in Hi.
    + right. exists y. split; [by right|done].
  - intros y Hy. destruct (derived_geometry g y) as [q|] eqn:Eq; [|done].
    eapply derived_geometry_mono in Eq; [|exact Hsub]. by rewrite (Hst y Hy) in Eq.
Qed.

Lemma resolve_pass_spec g (pending : list view) :
  NoDup (wv_id <$> pending) → (∀ x, x ∈ pending → g !! wv_id x = None) →
  (∀ x, x ∈ pending → wv_placement x ≠ ViewPlacement.Tiled) →
  let '(g', unresolved, progressed) := resolve_pass g pending in
  pass_spec g pending g' unresolved progressed.
Proof.
  revert g. induction pending as [|x pending IH]; intros g Hnd Hnew Ht.
  { simpl. split; [done|done|by intros x ?%elem_of_nil|by left|by intros x ?%elem_of_nil|done]. }
  assert (Hins : ∀ r, derived_geometry g x = Some r →
    let '(g', unresolved, p) := resolve_pass (<[wv_id x := r]> g) pending in
    pass_spec g (x :: pending) g' unresolved true).
  { intros r Hr. specialize (IH (<[wv_id x := r]> g)).
    destruct (resolve_pass _ pending) as [[g' u] p].
    eapply resolve_pass_insert; [done|apply Hnew; by left|done|].
    rewrite fmap_cons, NoDup_cons in Hnd. destruct Hnd as [Hxp Hnd].
    apply IH; [done| |intros y Hy; apply Ht; by right].
    intros y Hy. rewrite lookup_insert_ne; [apply Hnew; by right|].
    intros Heq. apply Hxp. rewrite Heq. by apply list_elem_of_fmap_2. }
  simpl. destruct (wv_placement x) as [|r|o size] eqn:Ep.
  - exfalso. by apply (Ht x); [left|].
  - specialize (Hins r). unfold derived_geometry in Hins. rewrite Ep in Hins.
    specialize (Hins eq_refl). by destruct (resolve_pass _ pending) as [[g' u] p].
  - unfold derived_geometry in Hins. rewrite Ep in Hins.
    destruct (g !! o) as [q|] eqn:Eq; simpl in Hins.
    + specialize (Hins _ eq_refl). by destruct (resolve_pass _ pending) as [[g' u] p].
    + clear Hins. rewrite fmap_cons, NoDup_cons in Hnd. destruct Hnd as [Hxp Hnd].
      specialize (IH g Hnd (λ y Hy, Hnew y (list_elem_of_further _ _ _ Hy))
        (λ y Hy, Ht y (list_elem_of_further _ _ _ Hy))).
      destruct (resolve_pass g pending) as [[g' u] p]. destruct IH as [Hg Hs Hc Ho Hst Hp].
      split; [done|by apply sublist_skip| | | |].
      * intros y [->|Hy]%elem_of_cons; [by left; left|].
        destruct (Hc y Hy); [by left; right|by right].
      * intros v Hv. destruct (Ho v Hv) as [|(y&Hy&Hyu&<-)]; [by left|].
        right. exists y. split; [by right|]. split; [|done].
        intros [->|?]%elem_of_cons; [|done]. by apply Hxp, list_elem_of_fmap_2.
      * intros y [->|Hy]%elem_of_cons; [|by apply Hst].
        unfold derived_geometry. by rewrite Ep, Eq.
      * intros Hpf. by destruct (Hp Hpf) as [-> ->].
Qed.

(** Some pending view has a known owner: follow the owners. *)
Lemma pending_ready own g (pending : list view) x :
  acyclic own →
  (∀ x o, x ∈ pending → ViewPlacement.owner (wv_placement x) = Some o →
     own (wv_id x) = Some o ∧ (is_Some (g !! o) ∨ ∃ y, y ∈ pending ∧ wv_id y = o)) →
  (∀ x, x ∈ pending → wv_placement x ≠ ViewPlacement.Tiled) →
  x ∈ pending → ∃ y, y ∈ pending ∧ is_Some (derived_geometry g y).
Proof.
  intros Hac Hown Ht. remember (wv_id x) as v eqn:Ev. revert x Ev.
  induction (Hac v) as [v _ IH]. intros x -> Hx.
  destruct (wv_placement x) as [|r|o size] eqn:Ep.
  - by destruct (Ht x Hx).
  - exists x. split; [done|]. unfold derived_geometry. rewrite Ep. by eexists.
  - destruct (Hown x o Hx) as [Ho [[q Hq]|(y&Hy&Hyo)]]; [by rewrite Ep| |].
    + exists x. split; [done|]. unfold derived_geometry. rewrite Ep, Hq. by eexists.
    + by apply (IH o Ho y).
Qed.

(** What the loop achieves on a list of views. *)
Record resolved (g : gmap Z Rect.t) (pending : list view) (g' : gmap Z Rect.t) : Prop := {
  resolved_grows : g ⊆ g';
  resolved_all : ∀ x, x ∈ pending →
    ∃ r, g' !! wv_id x = Some r ∧ derived_geometry g' x = Some r;
  resolved_origin : ∀ v, is_Some (g' !! v) →
    is_Some (g !! v) ∨ ∃ x, x ∈ pending ∧ wv_id x = v }.

(** As many passes as there are pending views resolve all of them. *)
Lemma resolve_loop_spec own n g (pending : list view) :
  acyclic own → (length pending <= n)%nat →
  NoDup (wv_id <$> pending) → (∀ x, x ∈ pending → g !! wv_id x = None) →
  (∀ x, x ∈ pending → wv_placement x ≠ ViewPlacement.Tiled) →
  (∀ x o, x ∈ pending → ViewPlacement.owner (wv_placement x) = Some o →
     own (wv_id x) = Some o ∧ (is_Some (g !! o) ∨ ∃ y, y ∈ pending ∧ wv_id y = o)) →
  resolved g pending (resolve_loop n g pending).
Proof.
  intros Hac. revert g pending. induction n as [|n IH]; intros g pending Hn Hnd Hnew Ht Hown.
  { destruct pending; [|simpl in Hn; lia]. split; [done|by intros x ?%elem_of_nil|by left]. }
  simpl. pose proof (resolve_pass_spec g pending Hnd Hnew Ht) as Hpass.
  destruct (resolve_pass g pending) as [[g' u] p]. destruct Hpass as [Hg Hs Hc Ho Hst Hp].
  assert (Hin : ∀ x, x ∈ u → x ∈ pending) by (intros; by eapply elem_of_sublist).
  destruct u as [|x0 u0] eqn:Eu.
  { split; [done| |].
    - intros x Hx. destruct (Hc x Hx) as [?%elem_of_nil|]; done.
    - intros v Hv. destruct (Ho v Hv) as [|(x&?&_&?)]; [by left|right; by exists x]. }
  rewrite <- Eu in *. assert (Hx0 : x0 ∈ u) by (rewrite Eu; left).
  destruct (pending_ready own g pending x0 Hac Hown Ht (Hin x0 Hx0)) as (y&Hy&[r Hr]).
  assert (Hyu : y ∉ u) by (intros Hyu; rewrite (Hst y Hyu) in Hr; done).
  destruct p; [|by destruct (Hp eq_refl) as [_ E2]; rewrite E2 in Hyu].
  assert (length u < length pending)%nat.
  { destruct (decide (length pending <= length u)%nat); [|lia].
    destruct Hyu. rewrite (submseteq_length_Permutation u pending); [done| |done].
    by apply sublist_submseteq. }
  assert (Hdone : ∀ x, x ∈ pending → x ∉ u → is_Some (g' !! wv_id x)).
  { intros x Hx Hxu. destruct (Hc x Hx) as [|(q&Hq&_)]; [done|by eexists]. }
  destruct (IH g' u) as [Hg2 Hc2 Ho2].
  - lia.
  - eapply sublist_NoDup; [exact Hnd|by apply (fmap_sublist wv_id)].
  - intros x Hx. destruct (g' !! wv_id x) eqn:Ex; [|done]. exfalso.
    destruct (Ho (wv_id x)) as [[q Hq]|(z&Hz&Hzu&Ez)]; [by eexists| |].
    + rewrite (Hnew x (Hin x Hx)) in Hq. done.
    + apply Hzu. enough (z = x) as -> by done.
      apply list_elem_of_lookup in Hz as [i Hi].
      pose proof (Hin x Hx) as Hx'. apply list_elem_of_lookup in Hx' as [j Hj].
      assert (i = j) as ->; [|congruence].
      eapply (NoDup_lookup (wv_id <$> pending)); [done| |];
        rewrite list_lookup_fmap; [rewrite Hi|rewrite Hj]; simpl; [|done]. by rewrite Ez.
  - intros x Hx. apply Ht, Hin, Hx.
  - intros x o Hx Hxo. destruct (Hown x o (Hin x Hx) Hxo) as [Ho1 Ho3]. split; [done|].
    destruct Ho3 as [[q Hq]|(z&Hz&<-)].
    + left. exists q. by eapply lookup_weaken.
    + destruct (Hc z Hz) as [Hzu|(q&Hq&_)]; [right; by exists z|left; by eexists].
  - split.
    + by etransitivity.
    + intros x Hx. destruct (Hc x Hx) as [Hxu|(q&Hq&Hd)]; [by apply Hc2|].
      exists q. split; [by eapply lookup_weaken|by eapply derived_geometry_mono].
    + intros v Hv. destruct (Ho2 v Hv) as [Hv'|(z&Hz&<-)].
      * destruct (Ho v Hv') as [|(z&?&_&<-)]; [by left|right; by exists z].
      * right. exists z. split; [by apply Hin|done].
Qed.

End resolve.

(** ** The views of a workspace *)

(** The geometries of the tiled views, by position. *)
Lemma insert_geometries {E} (tiled : list (WorkspaceView E)) ps (m : gmap Z Rect.t) :
  NoDup (wv_id <$> tiled) → length ps = length tiled →
  let g : gmap Z Rect.t := foldl (λ m '(view, placement),
         <[wv_id view := LayoutPlacement.geometry placement]> m) m (zip tiled ps) in
  (∀ i x p, tiled !! i = Some x → ps !! i = Some p →
     g !! wv_id x = Some (LayoutPlacement.geometry p)) ∧
  ∀ v, v ∉ (wv_id <$> tiled) → g !! v = m !! v.
Proof.
  revert ps m. induction tiled as [|x tiled IH]; intros ps m Hnd Hlen; [by split|].
  destruct ps as [|p ps]; [done|]. simpl in Hlen.
  rewrite fmap_cons, NoDup_cons in Hnd. destruct Hnd as [Hx Hnd].
  destruct (IH ps (<[wv_id x := LayoutPlacement.geometry p]> m) Hnd ltac:(lia)) as [Hin Hout].
  split.
  - intros [|i] y q Hy Hq; simpl in *; [|by eapply Hin].
    simplify_eq. rewrite Hout by done. apply lookup_insert_eq.
  - intros v Hv. simpl in Hv. apply not_elem_of_cons in Hv as [Hvx Hv]. simpl.
    rewrite Hout by done. by apply lookup_insert_ne.
Qed.

Lemma tiled_geometries_lookup {E} (tiled : list (WorkspaceView E)) ps :
  NoDup (wv_id <$> tiled) → length ps = length tiled →
  (∀ i x p, tiled !! i = Some x → ps !! i = Some p →
     tiled_geometries tiled ps !! wv_id x = Some (LayoutPlacement.geometry p)) ∧
  ∀ v, is_Some (tiled_geometries tiled ps !! v) ↔ ∃ x, x ∈ tiled ∧ wv_id x = v.
Proof.
  intros Hnd Hlen. destruct (insert_geometries tiled ps ∅ Hnd Hlen) as [Hin Hout].
  split; [exact Hin|]. intros v. split.
  - intros Hv. destruct (decide (v ∈ (wv_id <$> tiled))) as [Ht|Ht].
    + apply list_elem_of_fmap in Ht as (x&->&Hx). by exists x.
    + unfold tiled_geometries in Hv. rewrite Hout in Hv by done.
      rewrite lookup_empty in Hv. by destruct Hv.
  - intros (x&Hx&<-). apply list_elem_of_lookup in Hx as [i Hi].
    destruct (lookup_lt_is_Some_2 ps i) as [p Hp].
    { rewrite Hlen. by apply lookup_lt_Some in Hi. }
    unfold tiled_geometries. rewrite (Hin i x p Hi Hp). by eexists.
Qed.

Section arrange.

Context {W E : Type} `{Ecs W E}.

#[local] Abbreviation state := (t W E).

Definition view_of (s : state) (ws : Z) (x : WorkspaceView E) : Prop :=
  ∃ b, view_entities s !! wv_id x = Some (wv_entity x) ∧ abs s !! wv_id x = Some b ∧
    Bundle.workspace b = Some ws ∧ Bundle.layout b = Some (wv_layout x) ∧
    Bundle.placement b = Some (wv_placement x) ∧ Bundle.focused b = wv_focused x.

Definition make_view (ws : Z) (e : E) (b : Bundle.t) : option (WorkspaceView E) :=
  v ← Bundle.view b;
  w ← Bundle.workspace b;
  layout ← Bundle.layout b;
  placement ← Bundle.placement b;
  if decide (w = ws)
  then Some (mk_workspace_view v e layout placement (Bundle.focused b))
  else None.

Lemma make_view_inv ws e b x :
  make_view ws e b = Some x →
  Bundle.view b = Some (wv_id x) ∧ wv_entity x = e ∧ Bundle.workspace b = Some ws ∧
  Bundle.layout b = Some (wv_layout x) ∧ Bundle.placement b = Some (wv_placement x) ∧
  Bundle.focused b = wv_focused x.
Proof.
  unfold make_view. intros Hx.
  destruct (Bundle.view b); simpl in Hx; [|done].
  destruct (Bundle.workspace b); simpl in Hx; [|done].
  destruct (Bundle.layout b); simpl in Hx; [|done].
  destruct (Bundle.placement b); simpl in Hx; [|done].
  case_decide; [|done]. injection Hx as <-. simpl. by subst.
Qed.

Lemma workspace_views_elem (s : state) ws x :
  linked s → x ∈ workspace_views ws s ↔ view_of s ws x.
Proof.
  intros Hl. unfold workspace_views.
  rewrite sort_by_key_elem, (query_omap_elem (make_view ws)) by done. split.
  - intros (v&e&b&He&Hb&Hx). apply make_view_inv in Hx as (Hv&<-&?&?&?&?).
    destruct (abs_some s v b Hl Hb) as (e'&_&_&Hv'&_).
    assert (v = wv_id x) as -> by congruence. by exists b.
  - intros (b&He&Hb&Hw&Hly&Hp&Hf). exists (wv_id x), (wv_entity x), b.
    split; [done|]. split; [done|].
    destruct (abs_some s _ b Hl Hb) as (e'&_&_&Hv&_). unfold make_view.
    rewrite Hv, Hw, Hly, Hp. simpl. rewrite decide_True by done. rewrite Hf. by destruct x.
Qed.

Lemma workspace_views_nodup (s : state) ws :
  linked s → NoDup (wv_id <$> workspace_views ws s).
Proof.
  intros Hl. unfold workspace_views. rewrite sort_by_key_perm.
  apply (query_omap_nodup (make_view ws)); [done|].
  intros e b x Hx. by apply make_view_inv in Hx as (?&_).
Qed.

(** Every view of the workspace is listed. *)
Lemma workspace_views_total (s : state) ws v b :
  linked s → abs s !! v = Some b → Bundle.workspace b = Some ws →
  ∃ x, x ∈ workspace_views ws s ∧ wv_id x = v ∧ Bundle.placement b = Some (wv_placement x).
Proof.
  intros Hl Hb Hw. destruct (abs_some s v b Hl Hb) as (e&He&_&Hv&Hc).
  destruct (Bundle.complete_layout b Hc) as [l Hly].
  destruct (Bundle.complete_placement b Hc) as [p Hp].
  exists (mk_workspace_view v e l p (Bundle.focused b)).
  split; [|done]. apply workspace_views_elem; [done|]. by exists b.
Qed.

(** The geometry of every view of a workspace for one layout. *)
Record geometries_of (views : list (WorkspaceView E)) (snapshot : LayoutSnapshot.t)
    (g : gmap Z Rect.t) : Prop := {
  geometries_dom : ∀ v, is_Some (g !! v) ↔ ∃ x, x ∈ views ∧ wv_id x = v;
  geometries_tiled : ∀ i x p, tiled_views views !! i = Some x →
    LayoutSnapshot.placements snapshot !! i = Some p →
    g !! wv_id x = Some (LayoutPlacement.geometry p);
  geometries_derived : ∀ x, x ∈ views → wv_placement x ≠ ViewPlacement.Tiled →
    g !! wv_id x = derived_geometry g x }.

Lemma views_sublist_nodup (views : list (WorkspaceView E)) (P : WorkspaceView E → Prop)
    `{!∀ x, Decision (P x)} :
  NoDup (wv_id <$> views) → NoDup (wv_id <$> filter P views).
Proof.
  intros Hnd. eapply sublist_NoDup; [exact Hnd|]. apply (fmap_sublist wv_id), sublist_filter.
Qed.

Lemma views_id_inj (views : list (WorkspaceView E)) x y :
  NoDup (wv_id <$> views) → x ∈ views → y ∈ views → wv_id x = wv_id y → x = y.
Proof.
  intros Hnd [i Hi]%list_elem_of_lookup [j Hj]%list_elem_of_lookup Heq.
  assert (i = j) as ->; [|congruence].
  eapply (NoDup_lookup (wv_id <$> views)); [done| |]; rewrite list_lookup_fmap;
    [rewrite Hi|rewrite Hj]; simpl; [|done]. by rewrite Heq.
Qed.

(** The owner of a view of the workspace is one, too. *)
Lemma owner_listed (s : state) ws x o :
  linked s → owned (abs s) → x ∈ workspace_views ws s →
  ViewPlacement.owner (wv_placement x) = Some o →
  map_owner (abs s) (wv_id x) = Some o ∧ ∃ y, y ∈ workspace_views ws s ∧ wv_id y = o.
Proof.
  intros Hl Hown Hx Ho. apply workspace_views_elem in Hx as (b&_&Hb&Hw&_&Hp&_); [|done].
  assert (Hxo : map_owner (abs s) (wv_id x) = Some o)
    by (rewrite map_owner_bundle, Hb; unfold bundle_owner; simpl; by rewrite Hp).
  split; [done|]. destruct (Hown _ _ Hxo) as [[c Hc] Hwo].
  unfold map_workspace in Hwo. rewrite Hb, Hc in Hwo. simpl in Hwo.
  destruct (workspace_views_total s ws o c Hl Hc) as (y&?&?&_); [congruence|by exists y].
Qed.

Lemma workspace_geometries_spec (s : state) ws snapshot :
  linked s → forest_ok (abs s) → let views := workspace_views ws s in
  length (LayoutSnapshot.placements snapshot) = length (tiled_views views) →
  geometries_of views snapshot (workspace_geometries views snapshot).
Proof.
  intros Hl [Hown Hac] views Hlen.
  pose proof (workspace_views_nodup s ws Hl) as Hnd. fold views in Hnd.
  unfold workspace_geometries. set (tiled := tiled_views views) in *.
  set (pending := filter _ views). set (t0 := tiled_geometries tiled _).
  destruct (tiled_geometries_lookup tiled (LayoutSnapshot.placements snapshot)) as [Htin Htdom];
    [by apply views_sublist_nodup|done|]. fold t0 in Htin, Htdom.
  assert (Htl : ∀ x, x ∈ tiled ↔ x ∈ views ∧ wv_placement x = ViewPlacement.Tiled).
  { intros x. unfold tiled, tiled_views. rewrite list_elem_of_filter.
    destruct (wv_placement x); simpl; tauto || (split; [by intros []|by intros [_ ?]]). }
  assert (Hpl : ∀ x, x ∈ pending ↔ x ∈ views ∧ wv_placement x ≠ ViewPlacement.Tiled).
  { intros x. unfold pending. rewrite list_elem_of_filter.
    destruct (wv_placement x); simpl; split; intros []; by split. }
  destruct (resolve_loop_spec (map_owner (abs s)) (length pending) t0 pending Hac)
    as [Hg Hall Horig].
  - done.
  - by apply views_sublist_nodup.
  - intros x [Hx Hnt]%Hpl. destruct (t0 !! wv_id x) eqn:Et; [|done]. exfalso.
    destruct (proj1 (Htdom (wv_id x))) as (y&[Hy Hyt]%Htl&Eid); [by eexists|].
    apply Hnt. by rewrite <- (views_id_inj views y x Hnd Hy Hx Eid).
  - by intros x [_ ?]%Hpl.
  - intros x o [Hx _]%Hpl Ho. destruct (owner_listed s ws x o Hl Hown Hx Ho) as [Hxo (y&Hy&<-)].
    split; [done|]. destruct (decide (wv_placement y = ViewPlacement.Tiled)) as [Hyt|Hyt].
    + left. apply Htdom. exists y. split; [by apply Htl|done].
    + right. exists y. split; [by apply Hpl|done].
  - split.
    + intros v. split.
      * intros Hv. destruct (Horig v Hv) as [(x&[Hx _]%Htl&?)%Htdom|(x&[Hx _]%Hpl&?)]; by exists x.
      * intros (x&Hx&<-). destruct (decide (wv_placement x = ViewPlacement.Tiled)) as [Hxt|Hxt].
        { destruct (proj2 (Htdom (wv_id x))) as [r Hr].
          - exists x. split; [by apply Htl|done].
          - exists r. by eapply lookup_weaken. }
        destruct (Hall x) as (r&Hr&_); [by apply Hpl|by eexists].
    + intros i x p Hi Hp. eapply lookup_weaken; [by eapply Htin|done].
    + intros x Hx Hnt. destruct (Hall x) as (r&Hr&Hd); [by apply Hpl|]. by rewrite Hr, Hd.
Qed.

(** ** The whole operation *)

Definition with_geometry (g : gmap Z Rect.t) (v : Z) (b : Bundle.t) : Bundle.t :=
  match g !! v with
  | Some r => Bundle.set_last_geometry (Some r) (Bundle.set_geometry (Some r) b)
  | None => Bundle.set_geometry None b
  end.

Lemma with_geometry_keeps g v : keeps (with_geometry g v).
Proof. unfold with_geometry. destruct (g !! v); keeps_solve. Qed.

Lemma with_geometry_idem g v b : with_geometry g v (with_geometry g v b) = with_geometry g v b.
Proof. unfold with_geometry. by destruct (g !! v). Qed.

Lemma apply_geometries (s : state) ws g :
  linked s →
  ∃ w, for_each (apply_geometry g) (workspace_views ws s) s = (set_world w s, Ok tt) ∧
    linked (set_world w s) ∧
    ∀ v, abs (set_world w s) !! v =
      (λ b, if decide (Bundle.workspace b = Some ws) then with_geometry g v b else b)
        <$> abs s !! v.
Proof.
  intros Hl.
  destruct (for_each_update (with_geometry g) (apply_geometry g) s
    (workspace_views ws s) (wv_id <$> workspace_views ws s)) as (w&Ew&Hl'&Habs).
  - apply with_geometry_idem.
  - apply with_geometry_keeps.
  - apply Forall2_fmap_r, Forall_Forall2_diag, Forall_forall. intros x Hx.
    apply workspace_views_elem in Hx as (b&He&_); [|done].
    replace (apply_geometry g x) with (entity_mut (W := W) (wv_entity x) (with_geometry g (wv_id x)))
      by (unfold apply_geometry, with_geometry; by destruct (g !! wv_id x)).
    exact (update_step s _ _ _ He (with_geometry_keeps g (wv_id x))).
  - intros k (x&->&Hx)%list_elem_of_fmap.
    apply workspace_views_elem in Hx as (b&_&->&_); [by eexists|done].
  - done.
  - exists w. split; [done|]. split; [done|]. intros v. rewrite Habs.
    destruct (abs s !! v) as [b|] eqn:Eb; [|by case_decide]. simpl.
    destruct (decide (v ∈ _)) as [Hv|Hv].
    + apply list_elem_of_fmap in Hv as (x&->&Hx).
      apply workspace_views_elem in Hx as (c&_&Hc&Hw&_); [|done].
      assert (c = b) as -> by congruence. by rewrite decide_True.
    + rewrite decide_False; [done|]. intros Hw. apply Hv.
      destruct (workspace_views_total s ws v b Hl Eb Hw) as (x&Hx&<-&_).
      by apply list_elem_of_fmap_2.
Qed.

(** The outcome of [arrange_workspace]: a cached layout of the output, and a
    geometry for every view of the workspace. *)
Definition arranged (s : state) (ws : Z) (output : Rect.t) (s' : state)
    (r : Outcome ViewLifecycleError.t LayoutSnapshot.t) : Prop :=
  ∃ snapshot g, r = Ok snapshot ∧ LayoutSnapshot.viewport snapshot = output ∧
    length (LayoutSnapshot.placements snapshot) = length (tiled_views (workspace_views ws s)) ∧
    layout_snapshots s' = <[ws := snapshot]> (layout_snapshots s) ∧
    appearance s' = appearance s ∧ next_stacking_order s' = next_stacking_order s ∧
    geometries_of (workspace_views ws s) snapshot g ∧
    ∀ v, abs s' !! v =
      (λ b, if decide (Bundle.workspace b = Some ws) then with_geometry g v b else b)
        <$> abs s !! v.

Lemma with_geometry_shape g ws v b :
  same_shape b (if decide (Bundle.workspace b = Some ws) then with_geometry g v b else b).
Proof. case_decide; [|by repeat split]. unfold with_geometry. destruct (g !! v); by repeat split. Qed.

Lemma tiled_views_length (s : state) ws :
  linked s → (length (tiled_views (workspace_views ws s)) <= size (dom (abs s)))%nat.
Proof.
  intros Hl. rewrite <- (length_fmap wv_id). apply nodup_bounded.
  - by apply views_sublist_nodup, workspace_views_nodup.
  - intros v (x&->&Hx)%list_elem_of_fmap. apply list_elem_of_filter in Hx as [_ Hx].
    apply workspace_views_elem in Hx as (b&_&Hb&_); [|done]. by apply elem_of_dom.
Qed.

Lemma arrange_workspace_spec s ws engine output :
  world_ok s → Z.of_nat (size (dom (abs s))) <= U32.MAX →
  does (arrange_workspace ws engine output) s (arranged s ws output).
Proof.
  intros Hok Hsize. pose proof Hok as (Hl&Hm&Hn&Hlo). apply does_get. cbv zeta.
  set (tiled := tiled_views (workspace_views ws s)). 
  set (items := (λ x : WorkspaceView E, ViewLayout.item (wv_layout x)) <$> tiled).
  set (focused := focused_index s (workspace_views ws s) tiled).
  pose proof (engine_places_every_item engine (default LayoutState.dflt (layout_states s !! ws))
    output items focused) as Heng.
  destruct (LayoutEngine.arrange _ _ _ _ _) as [st snapshot].
  destruct Heng as (Hlen&Hvp&_).
  { unfold items. rewrite length_fmap. pose proof (tiled_views_length s ws Hl) as Ht.
    fold tiled in Ht. lia. }
  unfold items in Hlen. rewrite length_fmap in Hlen.
  pose proof (workspace_geometries_spec s ws snapshot Hl (proj1 Hm) Hlen) as Hgeo.
  set (g := workspace_geometries _ snapshot) in *.
  apply does_mod. set (s1 := set_layout_state ws st s).
  destruct (apply_geometries s1 ws g Hl) as (w&Ew&Hl'&Habs).
  eapply does_step; [exact Ew|]. apply does_mod.
  set (s2 := set_snapshots _ _). change (abs s1) with (abs s) in Habs.
  assert (Habs2 : ∀ v, abs s2 !! v = (λ b, if decide (Bundle.workspace b = Some ws)
      then with_geometry g v b else b) <$> abs s !! v) by exact Habs.
  apply does_ret; [|by exists snapshot, g].
  split; [exact Hl'|]. split; [|split; [exact Hn|]].
  - eapply map_ok_same; [|exact Hm]. intros v. rewrite Habs2.
    destruct (abs s !! v) as [b|]; simpl; [apply with_geometry_shape|done].
  - intros ws' v b' Hs Hb' Hw. rewrite Habs2 in Hb'.
    destruct (abs s !! v) as [b|] eqn:Eb; [|done]. injection Hb' as <-.
    pose proof (with_geometry_shape g ws v b) as (Ews&_). case_decide as Hd.
    + destruct (workspace_views_total s ws v b Hl Eb Hd) as (x&Hx&Hid&_).
      destruct (proj2 (geometries_dom _ _ _ Hgeo v)) as [r Hr]; [by exists x|].
      unfold with_geometry. rewrite Hr. by eexists.
    + apply (Hlo ws' v b); [|done|done].
      change (is_Some (<[ws := snapshot]> (layout_snapshots s) !! ws')) in Hs.
      rewrite lookup_insert_ne in Hs by congruence. done.
Qed.

End arrange.
