(* ===== verification/WorldScene.v ===== *)
(** * Reading the compositor world

    [extract_scene] turns an arranged workspace into a scene snapshot,
    [overview_views] into the stable inventory of the overview, and the focus
    queries answer from the stacking orders. None of them changes the world. *)

From S2P Require Import Prelude Geometry Layout Surface Scene Ecs Forest.
From S2P Require Import World WorldInv WorldOps WorldViews WorldFocus.

Import CompositorWorld.

(** ** Extracted nodes *)

(** The effects a node gets from its view and the scene appearance. *)
Definition scene_effects (a : SceneAppearance.t) (e : EffectStyle.t) : EffectStyle.t :=
  EffectStyle.mk (EffectStyle.opacity e)
    (if 0 <? SceneAppearance.window_corners a then SceneAppearance.window_corners a
     else EffectStyle.corner_radius e)
    (match WindowShadowStyle.effect (SceneAppearance.window_shadow a) with
     | Some shadow => Some shadow
     | None => EffectStyle.shadow e
     end)
    (EffectStyle.backdrop_blur e).

Definition scene_outline (a : SceneAppearance.t) (focused : bool) : option FocusOutline.t :=
  if focused then FocusRingStyle.outline (SceneAppearance.focus_ring a) else None.

(** The node of one view. *)
Definition scene_node (a : SceneAppearance.t) (viewport : Rect.t) (v order : Z) (g : Rect.t)
    (b : Bundle.t) (effects : EffectStyle.t) (region : option BackdropRegion.t)
    (hint : SurfacePresentationHint.t) (span : ContentSpan.t) : SceneNode.t :=
  SceneNode.with_content
    (SceneNode.with_presentation_hint
       (SceneNode.with_focus_outline
          (SceneNode.with_backdrop_region
             (SceneNode.new v order (LayoutPlacement.new g viewport) (scene_effects a effects))
             region)
          (scene_outline a (Bundle.focused b)))
       hint)
    span.

(** A node shows a view: its place, look and contents are the view's. *)
Definition shows (m : gmap Z Bundle.t) (a : SceneAppearance.t) (viewport : Rect.t)
    (contents : list SurfaceContent.t) (v : Z) (n : SceneNode.t) : Prop :=
  ∃ b order g effects region hint span surfaces,
    m !! v = Some b ∧ Bundle.stacking b = Some order ∧ Bundle.geometry b = Some g ∧
    Bundle.effects b = Some effects ∧ Bundle.backdrop_region b = Some region ∧
    Bundle.presentation_hint b = Some hint ∧ Bundle.content b = Some surfaces ∧
    n = scene_node a viewport v order g b effects region hint span ∧
    span_ok contents n ∧
    take (Z.to_nat (ContentSpan.len span)) (drop (Z.to_nat (ContentSpan.start span)) contents)
      = surfaces.

Definition contents_of (m : gmap Z Bundle.t) (v : Z) : list SurfaceContent.t :=
  default [] (b ← m !! v; Bundle.content b).

Section scene.

Context {W E : Type} `{Ecs W E}.

#[local] Abbreviation state := (t W E).

Lemma shows_weaken m a vp cs cs' v n : shows m a vp cs v n → shows m a vp (cs ++ cs') v n.
Proof.
  intros (b&order&g&effects&region&hint&span&surfaces&?&?&?&?&?&?&?&->&[Hwf Hle]&Htake).
  exists b, order, g, effects, region, hint, span, surfaces. split_and!; [done..| |].
  - split; [done|]. rewrite length_app. lia.
  - destruct Hwf as [[? _] [? _]]. simpl in *. rewrite drop_app_le by lia.
    rewrite take_app_le by (rewrite length_drop; lia). done.
Qed.

(** One round of the extraction loop. *)
Lemma extract_one (s : state) viewport v views nodes contents b g :
  linked s → abs s !! v = Some b → Bundle.geometry b = Some g →
  Z.of_nat (length contents + length (contents_of (abs s) v)) <= U32.MAX →
  ∃ n, extract_nodes viewport (v :: views) nodes contents s =
      extract_nodes viewport views (nodes ++ [n]) (contents ++ contents_of (abs s) v) s ∧
    shows (abs s) (appearance s) viewport (contents ++ contents_of (abs s) v) v n.
Proof.
  intros Hl Hb Hg Hlen. destruct (abs_some s v b Hl Hb) as (e&He&_&_&Hc).
  destruct (Bundle.complete_stacking b Hc) as [order Ho].
  destruct (Bundle.complete_effects b Hc) as [effects Hef].
  destruct (Bundle.complete_region b Hc) as [region Hre].
  destruct (Bundle.complete_hint b Hc) as [hint Hhi].
  destruct (Bundle.complete_content b Hc) as [surfaces Hsu].
  assert (Hcs : contents_of (abs s) v = surfaces)
    by (unfold contents_of; rewrite Hb; simpl; by rewrite Hsu).
  rewrite Hcs in *.
  assert (Hcomp : ∀ {C} (p : Bundle.t → option C) c, p b = Some c → component p s e = Some c).
  { intros C p c Hp. rewrite (component_abs p s v e He), Hb. exact Hp. }
  set (span := ContentSpan.mk (Z.of_nat (length contents)) (Z.of_nat (length surfaces))).
  exists (scene_node (appearance s) viewport v order g b effects region hint span). split.
  - cbn [extract_nodes].
    run_step (run_index_view s v e). run_step run_get. rewrite (Hcomp _ _ _ Hg).
    run_step (run_required _ _ _ _ _ (Hcomp _ _ _ Ho)).
    run_step (run_required _ _ _ _ _ (Hcomp _ _ _ Hef)).
    run_step (run_required _ _ _ _ _ (Hcomp _ _ _ Hre)).
    run_step (run_required _ _ _ _ _ (Hcomp _ _ _ Hhi)).
    run_step (run_required _ _ _ _ _ (Hcomp _ _ _ Hsu)).
    run_step (run_expect _ span).
    + unfold ContentSpan.new, span. rewrite (proj2 (Z.leb_le _ _)) by lia.
      by rewrite (proj2 (Z.leb_le _ _)) by lia.
    + do 2 f_equal. unfold scene_node, scene_effects, scene_outline.
      rewrite (component_abs _ s v e He), Hb. cbn [mbind option_bind]. unfold focus_marker.
      destruct (Bundle.focused b), (WindowShadowStyle.effect _), (0 <? _); done.
  - exists b, order, g, effects, region, hint, span, surfaces. split_and!; [done..| |].
    + unfold span_ok. simpl. rewrite length_app.
      split; [|lia]. unfold ContentSpan.wf, U32.ok. simpl. lia.
    + simpl. by rewrite !Nat2Z.id, drop_app_length, firstn_all.
Qed.

Lemma extract_all (s : state) viewport views nodes contents :
  linked s →
  (∀ v, v ∈ views → ∃ b, abs s !! v = Some b ∧ is_Some (Bundle.geometry b)) →
  Z.of_nat (length contents + length (concat (contents_of (abs s) <$> views))) <= U32.MAX →
  ∃ ns, let cs := contents ++ concat (contents_of (abs s) <$> views) in
    extract_nodes viewport views nodes contents s = (s, Ok (Some (nodes ++ ns, cs))) ∧
    Forall2 (shows (abs s) (appearance s) viewport cs) views ns.
Proof.
  intros Hl. revert nodes contents. induction views as [|v views IH]; intros nodes contents Hv Hlen.
  { exists []. simpl. rewrite !app_nil_r. by split. }
  destruct (Hv v) as (b&Hb&[g Hg]); [by left|].
  rewrite fmap_cons in *. cbn [concat] in *. rewrite length_app in Hlen.
  destruct (extract_one s viewport v views nodes contents b g Hl Hb Hg) as (n&E1&Hn); [lia|].
  destruct (IH (nodes ++ [n]) (contents ++ contents_of (abs s) v)) as (ns&E2&Hns).
  - intros x Hx. apply Hv. by right.
  - rewrite length_app. lia.
  - exists (n :: ns). cbv zeta. rewrite E1, E2. rewrite <- !app_assoc in *. split; [done|].
    constructor; [|done]. rewrite app_assoc. by apply shows_weaken.
Qed.

(** ** The views of a workspace by identifier *)

Lemma workspace_view_ids_elem (s : state) ws v :
  linked s → v ∈ workspace_view_ids ws s ↔
    ∃ b, abs s !! v = Some b ∧ Bundle.workspace b = Some ws.
Proof.
  intros Hl. unfold workspace_view_ids.
  rewrite sort_by_key_elem, (query_omap_elem (λ _ b, x ← Bundle.view b;
    w ← Bundle.workspace b; if decide (w = ws) then Some x else None)) by done. split.
  - intros (x&e&b&_&Hb&Hx). destruct (abs_some s x b Hl Hb) as (_&_&_&Hv&_).
    rewrite Hv in Hx. simpl in Hx. destruct (Bundle.workspace b) eqn:Ew; simpl in Hx; [|done].
    case_decide; [|done]. exists b. by simplify_eq.
  - intros (b&Hb&Hw). destruct (abs_some s v b Hl Hb) as (e&He&_&Hv&_).
    exists v, e, b. split; [done|]. split; [done|]. rewrite Hv, Hw. simpl.
    by rewrite decide_True.
Qed.

Lemma workspace_view_ids_nodup (s : state) ws : linked s → NoDup (workspace_view_ids ws s).
Proof.
  intros Hl. unfold workspace_view_ids. rewrite sort_by_key_perm.
  rewrite <- (list_fmap_id (omap _ _)).
  apply (query_omap_nodup (λ _ b, x ← Bundle.view b;
    w ← Bundle.workspace b; if decide (w = ws) then Some x else None)); [done|].
  intros e b x Hx. destruct (Bundle.view b); simpl in Hx; [|done].
  destruct (Bundle.workspace b); simpl in Hx; [|done]. case_decide; by simplify_eq.
Qed.

Lemma nodes_sorted {A} (key : A → Z) (l : list A) ids :
  key <$> l = ids → NoDup ids → StronglySorted (by_key id) ids → sort_by_key key l = l.
Proof.
  intros <- Hnd Hs. symmetry. apply sort_by_key_unique; [done|done|].
  clear Hnd. induction l as [|a l IH]; [constructor|]. rewrite fmap_cons in Hs.
  inversion Hs as [|? ? Hs' Hf]; subst. constructor; [by apply IH|].
  rewrite Forall_fmap in Hf. exact Hf.
Qed.

Lemma shows_id m a vp cs v n : shows m a vp cs v n → SceneNode.view_id n = v ∧ span_ok cs n.
Proof. by intros (?&?&?&?&?&?&?&?&_&_&_&_&_&_&_&->&?&_). Qed.

Lemma shows_ids m a vp cs vs ns :
  Forall2 (shows m a vp cs) vs ns →
  SceneNode.view_id <$> ns = vs ∧ Forall (span_ok cs) ns.
Proof.
  induction 1 as [|v n vs ns Hn _ [IH1 IH2]]; [done|].
  destruct (shows_id _ _ _ _ _ _ Hn) as [E1 E2]. rewrite fmap_cons, IH1, E1.
  split; [done|by constructor].
Qed.

(** The scene of a workspace: every view once, in every order the renderer
    uses. *)
Definition scene_of (s : state) (ws : Z) (layout : LayoutSnapshot.t)
    (scene : SceneSnapshot.t) : Prop :=
  SceneSnapshot.workspace_id scene = ws ∧ SceneSnapshot.viewport scene = LayoutSnapshot.viewport layout ∧
  SceneSnapshot.contents scene = concat (contents_of (abs s) <$> workspace_view_ids ws s) ∧
  Forall2 (shows (abs s) (appearance s) (SceneSnapshot.viewport scene) (SceneSnapshot.contents scene))
    (workspace_view_ids ws s) (SceneSnapshot.nodes scene) ∧
  SceneSnapshot.draw_order scene ≡ₚ SceneSnapshot.nodes scene ∧ StronglySorted (by_key order_key) (SceneSnapshot.draw_order scene).

Lemma extract_scene_spec (s : state) ws :
  world_ok s →
  Z.of_nat (length (workspace_view_ids ws s)) <= U32.MAX →
  Z.of_nat (length (concat (contents_of (abs s) <$> workspace_view_ids ws s))) <= U32.MAX →
  match layout_snapshots s !! ws with
  | None => extract_scene ws s = (s, Ok None)
  | Some layout =>
      ∃ scene, extract_scene ws s = (s, Ok (Some scene)) ∧ scene_of s ws layout scene
  end.
Proof.
  intros (Hl&Hm&_&Hlo) Hviews Hcontents. unfold extract_scene.
  destruct (layout_snapshots s !! ws) as [layout|] eqn:Elay.
  2: { run_step run_get. by rewrite Elay. }
  set (ids := workspace_view_ids ws s) in *.
  destruct (extract_all s (LayoutSnapshot.viewport layout) ids [] []) as (ns&En&Hns).
  - done.
  - intros v (b&Hb&Hw)%workspace_view_ids_elem; [|done]. exists b. split; [done|].
    by eapply Hlo; [eexists; exact Elay|done..].
  - done.
  - cbn [app] in *. set (cs := concat _) in *.
    destruct (shows_ids _ _ _ _ _ _ Hns) as [Hids Hspans].
    destruct (with_content_built ws (LayoutSnapshot.viewport layout) ns cs)
      as (scene&Es&E1&E2&E3&E4&E5&E6).
    + by rewrite <- (length_fmap SceneNode.view_id), Hids.
    + done.
    + exists scene. split.
      * run_step run_get. rewrite Elay. fold ids. run_step run_ok.
        by run_step (run_expect _ scene).
      * rewrite (nodes_sorted _ _ ids) in E4; [|done|by apply workspace_view_ids_nodup|].
        2: { apply sort_by_key_sorted. }
        unfold scene_of. fold ids. rewrite E2, E3, E4. by split_and!.
Qed.

(** ** The overview inventory *)

(** What one entry of the inventory says about its view. *)
Definition overview_entry (m : gmap Z Bundle.t) (x : OverviewView.t) : Prop :=
  ∃ b p, m !! OverviewView.id x = Some b ∧ Bundle.placement b = Some p ∧
    descends (map_owner m) (OverviewView.id x) (OverviewView.root x) ∧
    map_owner m (OverviewView.root x) = None ∧
    Bundle.stacking b = Some (OverviewView.stacking_order x) ∧
    Bundle.focused b = OverviewView.focused x ∧
    (is_Some (Bundle.geometry b) → OverviewView.geometry x = Bundle.geometry b) ∧
    (Bundle.geometry b = None → is_Some (Bundle.last_geometry b) →
       OverviewView.geometry x = Bundle.last_geometry b) ∧
    (OverviewView.kind x = OverviewViewKind.Attached ↔ is_Some (ViewPlacement.owner p)) ∧
    (OverviewView.kind x = OverviewViewKind.Tiled ↔ p = ViewPlacement.Tiled).

Definition row_id (row : Z * option Rect.t * bool * OverviewViewKind.t * Z) : Z :=
  row.1.1.1.1.

Lemma overview_row_inv (s : state) ws v b row :
  linked s → abs s !! v = Some b → overview_row ws b = Some row →
  row_id row = v ∧ Bundle.workspace b = Some ws.
Proof.
  intros Hl Hb. destruct (abs_some s v b Hl Hb) as (_&_&_&Hv&_).
  unfold overview_row. rewrite Hv. simpl.
  destruct (Bundle.workspace b); simpl; [|done].
  destruct (Bundle.placement b) as [p|]; simpl; [|done].
  destruct (Bundle.stacking b); simpl; [|done]. case_decide; [|done]. subst.
  by destruct p; intros [= <-].
Qed.

Lemma overview_row_total (s : state) ws v b :
  linked s → abs s !! v = Some b → Bundle.workspace b = Some ws →
  is_Some (overview_row ws b).
Proof.
  intros Hl Hb Hw. destruct (abs_some s v b Hl Hb) as (_&_&_&Hv&Hc).
  destruct (Bundle.complete_placement b Hc) as [p Hp].
  destruct (Bundle.complete_stacking b Hc) as [k Hk].
  unfold overview_row. rewrite Hv, Hw, Hp, Hk. simpl. rewrite decide_True by done.
  destruct p; by eexists.
Qed.

(** The entry that a row becomes. *)
Lemma overview_row_entry (s : state) ws v b g f k o root :
  linked s → abs s !! v = Some b → overview_row ws b = Some (v, g, f, k, o) →
  descends (map_owner (abs s)) v root → map_owner (abs s) root = None →
  overview_entry (abs s) (OverviewView.mk v root g f k o).
Proof.
  intros Hl Hb Hrow Hd Hr. destruct (abs_some s v b Hl Hb) as (_&_&_&Hv&_).
  unfold overview_row in Hrow. rewrite Hv in Hrow. simpl in Hrow.
  destruct (Bundle.workspace b) eqn:Ew; simpl in Hrow; [|done].
  destruct (Bundle.placement b) as [p|] eqn:Ep; simpl in Hrow; [|done].
  destruct (Bundle.stacking b) eqn:Eo; simpl in Hrow; [|done]. case_decide; [|done].
  exists b, p. simpl. split; [done|]. split; [done|]. split; [done|]. split; [done|].
  destruct p; injection Hrow as <- <- <- <-;
    (split; [done|]); (split; [done|]);
    (split; [by intros [x ->]|]); (split; [by intros -> [y ->]|]);
    (split; [split; first [done|by intros []|by eexists]|split; done]).
Qed.

Lemma overview_rows_elem (s : state) ws row :
  linked s →
  row ∈ sort_by_key overview_key (omap (λ '(_, b), overview_row ws b) (query s)) ↔
  ∃ b, abs s !! row_id row = Some b ∧ overview_row ws b = Some row.
Proof.
  intros Hl. rewrite sort_by_key_elem, (query_omap_elem (λ _ b, overview_row ws b)) by done.
  split.
  - intros (v&e&b&_&Hb&Hr). destruct (overview_row_inv s ws v b row Hl Hb Hr) as [<- _].
    by exists b.
  - intros (b&Hb&Hr). destruct (abs_some s _ b Hl Hb) as (e&He&_). by exists (row_id row), e, b.
Qed.

(** The inventory of a workspace. *)
Lemma overview_views_spec (s : state) ws :
  world_ok s →
  Forall (overview_entry (abs s)) (overview_views ws s) ∧
  (∀ v, v ∈ (OverviewView.id <$> overview_views ws s) ↔
     ∃ b, abs s !! v = Some b ∧ Bundle.workspace b = Some ws) ∧
  StronglySorted (by_key OverviewView.stacking_order) (overview_views ws s).
Proof.
  intros (Hl&(Hf&_)&_&_). unfold overview_views.
  set (rows := sort_by_key overview_key _). set (entry := λ row, _).
  assert (Hentry : ∀ row x, row ∈ rows → entry row = Some x →
    overview_entry (abs s) x ∧ OverviewView.id x = row_id row ∧
    OverviewView.stacking_order x = (overview_key row).1).
  { intros [[[[v g] f] k] o] x (b&Hb&Hr)%overview_rows_elem Hx; [|done].
    assert (Hv : v ∈ dom (abs s)) by (by apply elem_of_dom; eexists).
    destruct (tiled_ancestor_spec s Hl Hf v Hv) as (r&Ht&Hd&Hroot&_).
    unfold entry in Hx. rewrite Ht in Hx. injection Hx as <-.
    split; [|done]. by eapply overview_row_entry. }
  split; [|split].
  - apply Forall_forall. intros x (row&Hrow&Hx)%list_elem_of_omap. by apply (Hentry row).
  - intros v. rewrite list_elem_of_fmap. split.
    + intros (x&->&(row&Hrow&Hx)%list_elem_of_omap).
      destruct (Hentry row x Hrow Hx) as (_&->&_).
      apply overview_rows_elem in Hrow as (b&Hb&Hr); [|done]. exists b. split; [done|].
      by destruct (overview_row_inv s ws _ b row Hl Hb Hr).
    + intros (b&Hb&Hw). destruct (overview_row_total s ws v b Hl Hb Hw) as [row Hrow].
      destruct (overview_row_inv s ws v b row Hl Hb Hrow) as [Hid _].
      assert (Hin : row ∈ rows) by (apply overview_rows_elem; [done|]; exists b; by rewrite Hid).
      assert (Hv : v ∈ dom (abs s)) by (by apply elem_of_dom; eexists).
      destruct (tiled_ancestor_spec s Hl Hf v Hv) as (r&Ht&_).
      assert (is_Some (entry row)) as [x Hx].
      { destruct row as [[[[v' g] f] k] o]. unfold row_id in Hid. simpl in Hid. subst v'. unfold entry.
        rewrite Ht. by eexists. }
      exists x. destruct (Hentry row x Hin Hx) as (_&->&_). split; [done|].
      apply list_elem_of_omap. by exists row.
  - apply (omap_StronglySorted entry (by_key overview_key)); [|apply sort_by_key_sorted].
    intros a b x y Ha Hb Hab Hx Hy. unfold by_key in *.
    destruct (Hentry a x Ha Hx) as (_&_&->). destruct (Hentry b y Hb Hy) as (_&_&->).
    destruct Hab as [|[-> _]]; simpl; lia.
Qed.

(** ** Focus queries *)

Lemma stacked_views_elem (s : state) ws k v :
  linked s → (k, v) ∈ stacked_views ws s ↔
    ∃ b, abs s !! v = Some b ∧ Bundle.workspace b = Some ws ∧ Bundle.stacking b = Some k.
Proof.
  intros Hl. unfold stacked_views.
  rewrite (query_omap_elem (λ _ b, x ← Bundle.view b; w ← Bundle.workspace b;
    order ← Bundle.stacking b; if decide (w = ws) then Some (order, x) else None)) by done.
  split.
  - intros (x&e&b&_&Hb&Hx). destruct (abs_some s x b Hl Hb) as (_&_&_&Hv&_).
    rewrite Hv in Hx. simpl in Hx. destruct (Bundle.workspace b) eqn:Ew; simpl in Hx; [|done].
    destruct (Bundle.stacking b) eqn:Eo; simpl in Hx; [|done].
    case_decide; [|done]. simplify_eq. by exists b.
  - intros (b&Hb&Hw&Hk). destruct (abs_some s v b Hl Hb) as (e&He&_&Hv&_).
    exists v, e, b. split; [done|]. split; [done|]. rewrite Hv, Hw, Hk. simpl.
    by rewrite decide_True.
Qed.

(** The topmost view of a workspace among those that satisfy [P]. *)
Definition topmost (m : gmap Z Bundle.t) (ws : Z) (P : Z → Prop) (r : option Z) : Prop :=
  match r with
  | None => ∀ x b, m !! x = Some b → Bundle.workspace b = Some ws → ¬ P x
  | Some x =>
      ∃ b k, m !! x = Some b ∧ Bundle.workspace b = Some ws ∧ P x ∧
        Bundle.stacking b = Some k ∧
        ∀ y c j, m !! y = Some c → Bundle.workspace c = Some ws → P y →
          Bundle.stacking c = Some j → j <= k
  end.

Lemma topmost_iff m ws (P Q : Z → Prop) r :
  (∀ x, P x ↔ Q x) → topmost m ws P r → topmost m ws Q r.
Proof.
  intros HPQ. destruct r as [x|]; simpl.
  - intros (b&k&?&?&?&?&Hmax). exists b, k. rewrite <- HPQ. split_and!; [done..|].
    intros y c j Hc Hw Hy. apply (Hmax y c j Hc Hw), HPQ, Hy.
  - intros Hn x b ? ?. rewrite <- HPQ. eauto.
Qed.

Lemma topmost_max (s : state) ws (P : Z → Prop) `{!∀ x, Decision (P x)} :
  linked s →
  topmost (abs s) ws P
    (snd <$> max_by_key id (filter (λ p : Z * Z, P p.2) (stacked_views ws s))).
Proof.
  intros Hl.
  pose proof (max_by_key_spec id (filter (λ p : Z * Z, P p.2) (stacked_views ws s))) as Hmax.
  destruct (max_by_key id _) as [[k x]|]; simpl.
  - destruct Hmax as [Hx Hle]. apply list_elem_of_filter in Hx as [HP Hx].
    apply stacked_views_elem in Hx as (b&Hb&Hw&Hk); [|done]. exists b, k.
    split_and!; [done..|]. intros y c j Hc Hwc HPy Hj.
    destruct (Hle (j, y)) as [|[? _]]; simpl in *; [|lia|lia].
    apply list_elem_of_filter. split; [done|]. apply stacked_views_elem; [done|by exists c].
  - intros x b Hb Hw HP. destruct (abs_some s x b Hl Hb) as (_&_&_&_&Hc).
    destruct (Bundle.complete_stacking b Hc) as [k Hk].
    enough ((k, x) ∈ filter (λ p : Z * Z, P p.2) (stacked_views ws s)) as Hin
      by (rewrite Hmax in Hin; by apply elem_of_nil in Hin).
    apply list_elem_of_filter. split; [done|]. apply stacked_views_elem; [done|by exists b].
Qed.

End scene.
