(* ===== verification/WorldSpec.v ===== *)
(** * What the compositor world promises

    The properties of [CompositorWorld]: no sequence of operations panics or
    breaks the invariant, and what focusing, placing, minimizing, arranging
    and extracting do. Each theorem holds for every entity store of [Ecs]; the
    witnesses run on the finite-map store. *)

From S2P Require Import Prelude Geometry Layout LayoutGrid LayoutScroll Surface Scene.
From S2P Require Import Ecs Forest World WorldInv WorldOps WorldViews WorldFocus.
From S2P Require Import WorldArrange WorldScene.

Import CompositorWorld.

(** ** Operations *)

(** The calls that change a world. *)
Inductive Op :=
| SpawnView (v ws : Z)
| RemoveView (v : Z)
| MoveView (v ws : Z)
| SetViewPlacement (v : Z) (placement : ViewPlacement.t)
| UpdateFloatingGeometry (v : Z) (g : Rect.t)
| SetViewLayout (v : Z) (layout : ViewLayout.t)
| SetViewConstraints (v : Z) (constraints : SizeConstraints.t)
| ResetLayoutStates
| SetAppearance (a : SceneAppearance.t)
| FocusView (v : Z)
| SetViewEffects (v : Z) (effects : EffectStyle.t)
| SetViewBackdropEffect (v : Z) (blur : option BackdropBlur.t) (region : option BackdropRegion.t)
| SetViewContent (v : Z) (surfaces : list SurfaceContent.t)
| SetPresentationHint (v : Z) (hint : SurfacePresentationHint.t)
| MinimizeView (v hidden : Z)
| RestoreMinimizedView (v : Z)
| ArrangeWorkspace (ws : Z) (engine : LayoutEngine.t) (output : Rect.t).

Section spec.

Context {W E : Type} `{Ecs W E}.

#[local] Abbreviation state := (t W E).

(** The call of an operation, its result dropped. *)
Definition exec (op : Op) : M W E unit :=
  match op with
  | SpawnView v ws => spawn_view v ws
  | RemoveView v => remove_view v
  | MoveView v ws => move_view v ws
  | SetViewPlacement v p => set_view_placement v p;; mret tt
  | UpdateFloatingGeometry v g => update_floating_geometry v g;; mret tt
  | SetViewLayout v l => set_view_layout v l
  | SetViewConstraints v c => set_view_constraints v c;; mret tt
  | ResetLayoutStates => modify reset_layout_states
  | SetAppearance a => modify (λ s, (CompositorWorld.set_appearance a s).1)
  | FocusView v => focus_view v
  | SetViewEffects v e => set_view_effects v e;; mret tt
  | SetViewBackdropEffect v blur region => set_view_backdrop_effect v blur region;; mret tt
  | SetViewContent v surfaces => set_view_content v surfaces;; mret tt
  | SetPresentationHint v hint => set_presentation_hint v hint;; mret tt
  | MinimizeView v hidden => minimize_view v hidden;; mret tt
  | RestoreMinimizedView v => restore_minimized_view v;; mret tt
  | ArrangeWorkspace ws engine output => arrange_workspace ws engine output;; mret tt
  end.

(** A run of operations whose callers report errors and go on; [None] is a
    panic. *)
Fixpoint run (ops : list Op) (s : state) : option state :=
  match ops with
  | [] => Some s
  | op :: ops =>
      match exec op s with
      | (_, Panic) => None
      | (s, _) => run ops s
      end
  end.

(** ** Growth *)

(** One operation adds at most one view and raises every view at most once. *)
Definition grows (s s' : state) : Prop :=
  (size (dom (abs s')) <= S (size (dom (abs s))))%nat ∧
  next_stacking_order s' <= next_stacking_order s + Z.of_nat (S (size (dom (abs s)))).

Lemma grows_dom (s s' : state) v :
  (∀ x, is_Some (abs s' !! x) → is_Some (abs s !! x) ∨ x = v) →
  (size (dom (abs s')) <= S (size (dom (abs s))))%nat.
Proof.
  intros Hsub. transitivity (size ({[v]} ∪ dom (abs s))).
  - apply subseteq_size. intros x Hx%elem_of_dom. rewrite elem_of_union, elem_of_singleton, elem_of_dom.
    destruct (Hsub x Hx); tauto.
  - rewrite size_union_alt, size_singleton.
    pose proof (subseteq_size (dom (abs s) ∖ {[v]}) (dom (abs s))) as Hle.
    assert (dom (abs s) ∖ {[v]} ⊆ dom (abs s)) as Hs by set_solver. specialize (Hle Hs). lia.
Qed.

Lemma grows_refl (s : state) : grows s s.
Proof. unfold grows. lia. Qed.

Lemma grows_same (s s' : state) :
  (∀ x, is_Some (abs s' !! x) → is_Some (abs s !! x)) →
  next_stacking_order s' = next_stacking_order s → grows s s'.
Proof.
  intros Hsub Hn. split; [|lia]. apply (grows_dom s s' 0). intros x Hx. left. auto.
Qed.

(** Weakening of a postcondition, through a dropped result. *)
Lemma does_weaken {A} (m : M W E A) s (P Q : state → Outcome ViewLifecycleError.t A → Prop) :
  does m s P → (∀ s' r, P s' r → Q s' r) → does m s Q.
Proof. intros (s'&r&?&?&?&?) HPQ. exists s', r. split_and!; auto. Qed.

Lemma does_drop {A} (m : M W E A) s P (Q : state → Outcome ViewLifecycleError.t unit → Prop) :
  does m s P → (∀ s' r r', P s' r → Q s' r') → does (m;; mret tt) s Q.
Proof.
  intros Hm HPQ. eapply does_bind; [exact Hm| |].
  - intros s' a Hok HP. apply does_ret; [done|by eapply HPQ].
  - intros s' e Hok HP. by eapply HPQ.
Qed.

Lemma updates_grows {A} (s : state) v f s' (r : Outcome ViewLifecycleError.t A) :
  updates s v f s' r → grows s s'.
Proof.
  unfold updates. destruct (abs s !! v) as [b|] eqn:Eb.
  - intros (_&Habs&_&_&Hn). apply grows_same; [|done]. intros x. rewrite Habs.
    rewrite lookup_insert_is_Some'. intros [<-|]; [by eexists|done].
  - intros [-> _]. apply grows_refl.
Qed.

Lemma family_moved_dom ws l refocus m m' x :
  family_moved ws l refocus m m' → is_Some (m' !! x) → is_Some (m !! x).
Proof.
  intros Hm [b' Hb']. destruct (family_moved_inv _ _ _ _ _ _ _ Hm Hb') as (b&Hb&_). by eexists.
Qed.

Lemma moved_grows (s : state) v ws s' r : moved_view s v ws s' r → grows s s'.
Proof.
  unfold moved_view. destruct (abs s !! v) as [b|] eqn:Eb; [|intros [-> _]; apply grows_refl].
  destruct (map_owner (abs s) v); [intros [-> _]; apply grows_refl|].
  case_decide; [intros [-> _]; apply grows_refl|].
  intros (_&(_&_&Hn)&l&refocus&_&_&Hm). apply grows_same; [|done].
  intros x. by eapply family_moved_dom.
Qed.

Lemma placed_grows (s : state) v p s' r : placed s v p s' r → grows s s'.
Proof.
  destruct r as [changed|e|]; [|intros [-> _]; apply grows_refl|done].
  intros (b&Hb&_&Habs&(_&_&Hn)&_). apply grows_same; [|done]. intros x. rewrite Habs.
  rewrite lookup_insert_is_Some'. intros [<-|]; [by eexists|done].
Qed.

Lemma spawned_grows (s : state) v ws s' r : spawned_view s v ws s' r → grows s s'.
Proof.
  unfold spawned_view. destruct (abs s !! v); [intros [-> _]; apply grows_refl|].
  intros (_&Habs&Hn). split; [|lia]. apply (grows_dom s s' v). intros x. rewrite Habs.
  rewrite lookup_insert_is_Some'. intros [<-|]; [by right|by left].
Qed.

Lemma removed_grows (s : state) v s' r : removed_view s v s' r → grows s s'.
Proof.
  unfold removed_view. destruct (attached_children s v); [|intros [-> _]; apply grows_refl].
  destruct (abs s !! v); [|intros [-> _]; apply grows_refl].
  intros (_&Habs&_&_&Hn). apply grows_same; [|done]. intros x. rewrite Habs.
  by rewrite lookup_delete_is_Some; intros [].
Qed.

Lemma minimized_grows (s : state) v hidden s' r : minimized_post s v hidden s' r → grows s s'.
Proof.
  unfold minimized_post. destruct (abs s !! v) as [b|] eqn:Eb; [|intros [-> _]; apply grows_refl].
  case_decide; [intros [-> _]; apply grows_refl|].
  destruct (map_owner (abs s) v); [intros [-> _]; apply grows_refl|].
  intros (_&(_&_&Hn)&l&refocus&m&_&_&Hm&Habs). apply grows_same; [|done].
  intros x. rewrite Habs, lookup_insert_is_Some'. intros [<-|Hx]; [by eexists|].
  by eapply family_moved_dom.
Qed.

Lemma restored_grows (s : state) v s' r : restored_post s v s' r → grows s s'.
Proof.
  unfold restored_post. destruct (abs s !! v) as [b|]; [|intros [-> _]; apply grows_refl].
  destruct (Bundle.minimized_from b); [|intros [-> _]; apply grows_refl].
  destruct r as [a|e|]; [intros [_ Hm]|intros Hm|done]; by eapply moved_grows.
Qed.

Lemma focused_grows (s : state) v s' r : focused_view_post s v s' r → grows s s'.
Proof.
  unfold focused_view_post. destruct (abs s !! v) as [b|]; [|intros [-> _]; apply grows_refl].
  intros [_ Hf]. destruct (Bundle.focused b); [subst; apply grows_refl|].
  destruct Hf as (ws&root&l&m&_&_&_&_&Hre&Hra&Hn&Hlen).
  split; [|lia]. apply (grows_dom s s' 0). intros x [b' Hb']. left.
  destruct (raised_inv _ _ _ _ _ _ Hra Hb') as (c&Hc&_).
  destruct (refocused_inv _ _ _ _ _ _ Hre Hc) as (d&Hd&_). by eexists.
Qed.

Lemma arranged_grows (s : state) ws output s' r : arranged s ws output s' r → grows s s'.
Proof.
  intros (snapshot&g&_&_&_&_&_&Hn&_&Habs). apply grows_same; [|done].
  intros x. rewrite Habs. by rewrite fmap_is_Some.
Qed.

(** Space for one more operation. *)
Definition room (s : state) : Prop :=
  next_stacking_order s + Z.of_nat (S (size (dom (abs s)))) <= U64.MAX ∧
  Z.of_nat (size (dom (abs s))) <= U32.MAX.

(** Every operation returns, keeps the invariant and grows as expected. *)
Lemma exec_does (s : state) op :
  world_ok s → room s → does (exec op) s (λ s' _, grows s s').
Proof.
  intros Hok [Hroom Hviews]. destruct op; simpl.
  - eapply does_weaken; [apply spawn_view_spec; [done|lia]|intros ? ?; apply spawned_grows].
  - eapply does_weaken; [by apply remove_view_spec|intros ? ?; apply removed_grows].
  - eapply does_weaken; [by apply move_view_spec|intros ? ?; apply moved_grows].
  - eapply does_drop; [by apply set_view_placement_does|intros ? ? _; apply placed_grows].
  - eapply does_drop; [by apply update_floating_geometry_spec|intros ? ? _; apply updates_grows].
  - eapply does_weaken; [by apply set_view_layout_spec|intros ? ?; apply updates_grows].
  - eapply does_drop; [by apply set_view_constraints_spec|intros ? ? _; apply updates_grows].
  - destruct Hok as (Hl&Hm&Hn&Hlo). apply does_modify; [|by apply grows_same].
    split; [done|]. split; [done|]. split; [done|]. intros ws v b [l Hs]. simpl in Hs.
    by rewrite lookup_empty in Hs.
  - apply does_modify; unfold CompositorWorld.set_appearance; case_bool_decide; try done;
      [apply grows_refl|by apply grows_same].
  - eapply does_weaken; [apply focus_view_spec; [done|lia]|intros ? ?; apply focused_grows].
  - eapply does_drop; [by apply set_view_effects_spec|intros ? ? _; apply updates_grows].
  - eapply does_drop; [by apply set_view_backdrop_effect_spec|intros ? ? _; apply updates_grows].
  - eapply does_drop; [by apply set_view_content_spec|intros ? ? _; apply updates_grows].
  - eapply does_drop; [by apply set_presentation_hint_spec|intros ? ? _; apply updates_grows].
  - eapply does_drop; [by apply minimize_view_spec|intros ? ? _; apply minimized_grows].
  - eapply does_drop; [by apply restore_minimized_view_spec|intros ? ? _; apply restored_grows].
  - eapply does_drop; [by apply arrange_workspace_spec|intros ? ? _; apply arranged_grows].
Qed.

Lemma new_ok a : world_ok (with_appearance a : state).
Proof.
  assert (Habs : abs (with_appearance a : state) = ∅)
    by (apply map_eq; intros v; rewrite abs_lookup; simpl; by rewrite !lookup_empty).
  split; [|split; [|split]].
  - split; [|split]; simpl.
    + intros v v' e. by rewrite lookup_empty.
    + intros v e. by rewrite lookup_empty.
    + intros e b. by rewrite ecs_get_new.
  - rewrite Habs. split; [split|split; [|split]].
    + intros v o. unfold map_owner. by rewrite lookup_empty.
    + intros v. constructor. intros o Ho. unfold flip, parent, map_owner in Ho.
      by rewrite lookup_empty in Ho.
    + intros v v' b b'. by rewrite lookup_empty.
    + intros v b k. by rewrite lookup_empty.
    + intros v v' b b'. by rewrite lookup_empty.
  - simpl. ints. lia.
  - intros ws v b [l Hs]. simpl in Hs. by rewrite lookup_empty in Hs.
Qed.

(** The bound that [n] operations from the start stay under. *)
Definition within (n : Z) (s : state) : Prop :=
  Z.of_nat (size (dom (abs s))) <= n ∧ next_stacking_order s <= 1 + n * (n + 1).

Lemma run_ok_from n ops (s : state) :
  world_ok s → 0 <= n → within n s → n + Z.of_nat (length ops) <= 2 ^ 31 →
  ∃ s', run ops s = Some s' ∧ world_ok s'.
Proof.
  revert n s. induction ops as [|op ops IH]; intros n s Hok Hn [Hsz Hnx] Hlen; [by exists s|].
  simpl length in Hlen.
  destruct (exec_does s op Hok) as (s'&r&He&Hp&Hok'&Hg1&Hg2).
  { unfold room, U64.MAX, U32.MAX. nia. }
  destruct (IH (n + 1) s' Hok') as (s2&Hs2&Hok2); [lia|split; [lia|nia]|lia|].
  exists s2. split; [|done]. simpl. rewrite He. by destruct r.
Qed.

(** C10: any sequence of up to 2^31 operations on views, from an empty world
    and over any entity store, runs without a panic and ends in a world that
    satisfies the invariant: index and store agree, owners exist in the
    workspace of what they own, attachment is acyclic, at most one view per
    workspace is focused, stacking orders are distinct, and a cached layout
    covers its workspace. Rejected operations are reported as errors and do
    not stop the run. *)
Theorem world_run_safe (a : SceneAppearance.t) (ops : list Op) :
  Z.of_nat (length ops) <= 2 ^ 31 →
  ∃ s, run ops (with_appearance a) = Some s ∧ world_ok s.
Proof.
  intros Hlen. apply (run_ok_from 0); [apply new_ok|lia| |lia].
  split; [|simpl; lia].
  assert (abs (with_appearance a : state) = ∅) as ->
    by (apply map_eq; intros v; rewrite abs_lookup; simpl; by rewrite !lookup_empty).
  rewrite dom_empty, size_empty. lia.
Qed.

(** ** Focus *)

Lemma focused_view_spec (s : state) ws v :
  world_ok s →
  focused_view ws s = Some v ↔
    ∃ b, abs s !! v = Some b ∧ Bundle.workspace b = Some ws ∧ Bundle.focused b = true.
Proof.
  intros (Hl&(_&Hone&_)&_). unfold focused_view.
  set (l := omap _ (query s)).
  assert (Hin : ∀ x, x ∈ l ↔
    ∃ b, abs s !! x = Some b ∧ Bundle.workspace b = Some ws ∧ Bundle.focused b = true).
  { intros x. unfold l. rewrite (query_omap_elem (λ _ b, y ← Bundle.view b;
      w ← Bundle.workspace b; if decide (w = ws ∧ Bundle.focused b = true) then Some y else None))
      by done. split.
    - intros (y&e&b&_&Hb&Hx). destruct (abs_some s y b Hl Hb) as (_&_&_&Hv&_).
      rewrite Hv in Hx. simpl in Hx. destruct (Bundle.workspace b) eqn:Ew; simpl in Hx; [|done].
      case_decide as Hd; [|done]. destruct Hd as [-> ?]. simplify_eq. by exists b.
    - intros (b&Hb&Hw&Hf). destruct (abs_some s x b Hl Hb) as (e&He&_&Hv&_).
      exists x, e, b. split; [done|]. split; [done|]. rewrite Hv, Hw. simpl.
      by rewrite decide_True. }
  assert (Huniq : ∀ x y, x ∈ l → y ∈ l → x = y).
  { intros x y (b&?&?&?)%Hin (c&?&?&?)%Hin. apply (Hone x y b c); congruence. }
  rewrite <- Hin. destruct l as [|x l]; simpl.
  - split; [done|by intros ?%elem_of_nil].
  - split; [intros [= ->]; by left|]. intros Hv. f_equal. apply Huniq; [by left|done].
Qed.

(** The attachment family of [v]: everything under its tiled ancestor. *)
Definition in_family (m : gmap Z Bundle.t) (v x : Z) : Prop :=
  ∃ root, map_owner m root = None ∧ descends (map_owner m) v root ∧
          descends (map_owner m) x root.

(** The family of [v] is above all other views, what hangs from [v] is above
    the rest of the family, and owned views are above their owners. *)
Definition on_top (m : gmap Z Bundle.t) (v : Z) : Prop :=
  ∀ x y bx by' kx ky, m !! x = Some bx → m !! y = Some by' →
    Bundle.stacking bx = Some kx → Bundle.stacking by' = Some ky → in_family m v x →
    (¬ in_family m v y → ky < kx) ∧
    (descends (map_owner m) x v → in_family m v y → ¬ descends (map_owner m) y v → ky < kx) ∧
    (map_owner m x = Some y → ky < kx).

Lemma raised_stacking next l m m' i x b' :
  raised next l m m' → l !! i = Some x → m' !! x = Some b' →
  Bundle.stacking b' = Some (next + Z.of_nat i).
Proof.
  intros [Hin _] Hi Hb'. rewrite (Hin i x Hi) in Hb'.
  destruct (m !! x); [|done]. by injection Hb' as <-.
Qed.

Lemma raised_on_top next m0 m m' v root l :
  stacked next m0 → (∀ x b, m !! x = Some b → ∃ c, m0 !! x = Some c ∧
    Bundle.stacking c = Bundle.stacking b) →
  (∀ x, map_owner m' x = map_owner m0 x) → acyclic (map_owner m0) →
  map_owner m0 root = None → descends (map_owner m0) v root →
  raise_order m0 v root l → raised next l m m' → on_top m' v.
Proof.
  intros [Hst _] Hm Ho Hac Hroot Hv [Hnd Hfam Hsub Hown] Hra.
  assert (Hdd : ∀ x y, descends (map_owner m') x y ↔ descends (map_owner m0) x y)
    by (intros x y; split; apply descends_sub; intros; congruence).
  assert (Hin : ∀ x, in_family m' v x ↔ x ∈ l).
  { intros x. rewrite Hfam. unfold in_family. split.
    - intros (r&Hr&Hvr&Hx). rewrite Ho in Hr. rewrite Hdd in Hvr, Hx.
      by rewrite (root_unique (map_owner m0) v root r Hv Hroot Hvr Hr).
    - intros Hx. exists root. by rewrite Ho, !Hdd. }
  intros x y bx cy kx ky Hx Hy Hkx Hky Hfx. apply Hin, list_elem_of_lookup in Hfx as [i Hi].
  pose proof (raised_stacking _ _ _ _ _ _ _ Hra Hi Hx) as Ex.
  assert (kx = next + Z.of_nat i) as -> by congruence.
  assert (Hlisted : ∀ j, l !! j = Some y → ky = next + Z.of_nat j).
  { intros j Hj. pose proof (raised_stacking _ _ _ _ _ _ _ Hra Hj Hy). congruence. }
  split; [|split].
  - intros Hny. rewrite Hin in Hny.
    destruct (raised_inv _ _ _ _ _ _ Hra Hy) as (c&Hc&_&_&_&_&[[_ Ec]|(j&Hj&_)]).
    + destruct (Hm y c Hc) as (d&Hd&Ed). specialize (Hst y d ky Hd). rewrite Ed in Hst.
      assert (1 <= ky < next) by (apply Hst; congruence). lia.
    + destruct Hny. by eapply list_elem_of_lookup_2.
  - intros Hxv Hfy Hnv. apply Hin, list_elem_of_lookup in Hfy as [j Hj].
    rewrite (Hlisted j Hj). rewrite Hdd in Hxv, Hnv.
    pose proof (Hsub j i y x Hj Hi Hnv Hxv). lia.
  - intros Hxy. rewrite Ho in Hxy. assert (y ∈ l) as Hyl.
    { apply list_elem_of_lookup_2, Hfam in Hi. apply Hfam.
      inversion Hi as [|? z ? Hxz Hz]; subst; [congruence|].
      assert (z = y) as -> by (by eapply parent_functional). done. }
    apply list_elem_of_lookup in Hyl as [j Hj]. rewrite (Hlisted j Hj).
    pose proof (Hown j i x y Hi Hj Hxy). lia.
Qed.

(** C11: focusing a known view makes it the only focused view of its
    workspace; unless it was focused already, its whole attachment family is
    raised above every other view, with its own attached subtree on top and
    every attached view above its owner. An unknown view is reported and
    changes nothing. *)
Theorem focus_view_raises_family (s : state) v :
  world_ok s → room s →
  ∃ s' r, focus_view v s = (s', r) ∧ world_ok s' ∧
    match abs s !! v with
    | None => s' = s ∧ r = Err (ViewLifecycleError.MissingViewId v)
    | Some b =>
        r = Ok tt ∧
        (∀ ws, Bundle.workspace b = Some ws → focused_view ws s' = Some v) ∧
        (if Bundle.focused b then s' = s else on_top (abs s') v)
    end.
Proof.
  intros Hok [Hroom _]. pose proof Hok as (Hl&((_&Hac)&_&Hst)&_).
  destruct (focus_view_spec s v Hok) as (s'&r&E1&_&Hok'&Hpost); [lia|].
  exists s', r. split; [done|]. split; [done|]. unfold focused_view_post in Hpost.
  destruct (abs s !! v) as [b|] eqn:Eb; [|done]. destruct Hpost as [-> Hpost].
  split; [done|]. destruct (Bundle.focused b) eqn:Ef.
  { subst s'. split; [|done]. intros ws Hw. apply focused_view_spec; [done|by exists b]. }
  destruct Hpost as (ws&root&l&m&Hw&Hroot&Hd&Ho&Hre&Hra&_).
  assert (Hback : ∀ x c, m !! x = Some c →
    ∃ d, abs s !! x = Some d ∧ Bundle.stacking d = Bundle.stacking c).
  { intros x c Hc. destruct (refocused_inv _ _ _ _ _ _ Hre Hc) as (d&Hd'&_&_&?&_). by exists d. }
  split.
  - intros ws' Hw'. assert (ws' = ws) as -> by congruence. apply focused_view_spec; [done|].
    assert (v ∈ l) as Hvl by by apply (order_family _ _ _ _ Ho).
    apply list_elem_of_lookup in Hvl as [i Hi]. destruct Hra as [Hin _].
    specialize (Hin i v Hi). rewrite Hre, decide_True, Eb in Hin by done.
    eexists. split; [exact Hin|by split].
  - apply (raised_on_top _ (abs s) m (abs s') v root l Hst Hback); try done.
    intros x. rewrite <- (refocused_owner _ _ _ _ x Hre).
    rewrite !map_owner_bundle. destruct (abs s' !! x) as [c|] eqn:Ec.
    + destruct (raised_inv _ _ _ _ _ _ Hra Ec) as (d&->&_&Hp&_). simpl.
      unfold bundle_owner. by rewrite Hp.
    + destruct (m !! x) as [d|] eqn:Ed; [|done]. exfalso. destruct Hra as [Hin Hout].
      destruct (decide (x ∈ l)) as [Hx|Hx].
      * apply list_elem_of_lookup in Hx as [i Hi]. by rewrite (Hin i x Hi), Ed in Ec.
      * rewrite (Hout x Hx) in Ec. congruence.
Qed.

(** C17: [set_view_placement] accepts exactly the placements that keep
    attachment a forest inside one workspace. It succeeds and changes nothing
    but the placement of the view, or names the reason and changes nothing:
    an unknown view or owner, an attachment to itself, an owner in another
    workspace, or an owner that already hangs from the view. *)
Theorem set_view_placement_checked (s : state) v p :
  world_ok s →
  ∃ s' r, set_view_placement v p s = (s', r) ∧ world_ok s' ∧ placed s v p s' r.
Proof.
  intros Hok. destruct (set_view_placement_does s v p Hok) as (s'&r&?&_&?&?). by exists s', r.
Qed.

(** ** Minimizing and restoring *)

Lemma moved_back ws hidden b :
  Bundle.workspace b = Some ws →
  moved ws (moved hidden b) = Bundle.set_minimized_from None (Bundle.set_geometry None b).
Proof. intros Hw. destruct b; simpl in *. subst. reflexivity. Qed.

(** The family of [v] and its workspace are the same after a move. *)
Lemma family_moved_owner ws l refocus m m' x :
  family_moved ws l refocus m m' → map_owner m' x = map_owner m x.
Proof.
  intros Hm. rewrite !map_owner_bundle. destruct (m' !! x) as [b'|] eqn:Eb'.
  - destruct (family_moved_inv _ _ _ _ _ _ _ Hm Eb') as (b&->&Hp&_). simpl.
    unfold bundle_owner. by rewrite Hp.
  - rewrite Hm in Eb'. destruct (m !! x); [|done].
    case_decide; [done|]. by destruct refocus.
Qed.

(** The views after a family was minimized, compared to before. *)
Lemma minimized_views (m0 m m1 : gmap Z Bundle.t) v l refocus hidden b origin :
  family_of m0 v l → family_moved hidden l refocus m0 m → m0 !! v = Some b →
  m1 = <[v := Bundle.set_minimized_from (Bundle.workspace b) (moved hidden b)]> m →
  (∀ x, map_owner m1 x = map_owner m0 x) ∧
  (∀ x, m0 !! x = None → m1 !! x = None) ∧
  ∀ x c, m0 !! x = Some c → ∃ c1, m1 !! x = Some c1 ∧
    (x ∈ l → Bundle.focused c1 = Bundle.focused c ∧
       Bundle.workspace c1 = Some hidden ∧ moved origin c1 = moved origin c) ∧
    (x ∉ l → c1 = if refocus then unfocused hidden c else c).
Proof.
  intros Hfam Hm Hb ->. assert (Hvl : v ∈ l) by (apply Hfam, rtc_refl). split; [|split].
  - intros x. rewrite <- (family_moved_owner _ _ _ _ _ x Hm), !map_owner_bundle.
    destruct (decide (x = v)) as [->|].
    + rewrite lookup_insert_eq, Hm, decide_True, Hb by done. done.
    + by rewrite lookup_insert_ne.
  - intros x Hx. rewrite lookup_insert_ne by congruence. rewrite Hm, Hx.
    by case_decide; [|destruct refocus].
  - intros x c Hc. destruct (decide (x = v)) as [->|Hxv].
    + assert (c = b) as -> by congruence. rewrite lookup_insert_eq. eexists.
      by split_and!.
    + rewrite lookup_insert_ne, Hm, Hc by done. destruct (decide (x ∈ l)).
      * eexists. by split_and!.
      * destruct refocus; simpl; eexists; by split_and!.
Qed.

(** A view outside the family after the family left and came back. *)
Lemma outside_back m l refocus v ws hidden x c :
  one_focus m → owned m → family_of m v l → map_workspace m v = Some ws → ws ≠ hidden →
  (refocus = true ↔ ∃ x b, x ∈ l ∧ m !! x = Some b ∧ Bundle.focused b = true) →
  m !! x = Some c → x ∉ l →
  let c1 := if refocus : bool then unfocused hidden c else c in
  let c2 := if refocus then unfocused ws c1 else c1 in
  c2 = c ∨ Bundle.workspace c = Some hidden ∧ c2 = Bundle.set_focused false c.
Proof.
  intros Hone Hown Hl Hv Hne Href Hc Hx. destruct refocus; [|by left]. simpl.
  destruct (decide (Bundle.workspace c = Some hidden)) as [Hw|Hw].
  - right. split; [done|]. unfold unfocused at 2. rewrite bool_decide_true by done.
    unfold unfocused. rewrite bool_decide_false; [done|]. simpl. congruence.
  - left. unfold unfocused at 2. rewrite bool_decide_false by done.
    unfold unfocused. case_bool_decide as Hw'; [|done]. apply set_focused_id.
    destruct (Bundle.focused c) eqn:Ef; [|done]. exfalso.
    destruct (proj1 Href eq_refl) as (y&b&Hy&Hb&Hfb). apply Hx.
    enough (x = y) as -> by done. apply (Hone x y c b Hc Hb Ef Hfb).
    pose proof (owned_workspace m y v Hown (proj1 (Hl y) Hy)) as Hwy.
    rewrite Hv in Hwy. unfold map_workspace in Hwy. rewrite Hb in Hwy. simpl in Hwy. congruence.
Qed.

(** minimizing an unattached view moves its whole attachment family to
    the hidden workspace, and restoring it brings every member back to the
    workspace it came from with all of its state but the arranged geometry;
    a view outside the family can at most lose the focus, when it had it in
    the hidden workspace. *)
Theorem minimize_restore_roundtrip (s : state) v hidden origin b :
  world_ok s → abs s !! v = Some b → map_owner (abs s) v = None →
  Bundle.minimized_from b = None → Bundle.workspace b = Some origin → origin ≠ hidden →
  ∃ s1 s2, minimize_view v hidden s = (s1, Ok true) ∧
    minimized_from s1 v = Some origin ∧
    restore_minimized_view v s1 = (s2, Ok (Some origin)) ∧ world_ok s2 ∧
    ∀ x c, abs s !! x = Some c →
      (descends (map_owner (abs s)) x v →
         view_workspace s1 x = Some hidden ∧
         abs s2 !! x = Some (Bundle.set_minimized_from None (Bundle.set_geometry None c))) ∧
      (¬ descends (map_owner (abs s)) x v →
         abs s2 !! x = Some c ∨
         Bundle.workspace c = Some hidden ∧ abs s2 !! x = Some (Bundle.set_focused false c)).
Proof.
  intros Hok Hb Hroot Hmin Hw Hne. pose proof Hok as (Hl&((Hown&_)&Hone&_)&_).
  destruct (minimize_view_spec s v hidden Hok) as (s1&r1&E1&_&Hok1&Hp1).
  unfold minimized_post in Hp1. rewrite Hb, Hroot in Hp1.
  rewrite decide_False in Hp1 by (intros [[? ?]|?]; congruence).
  destruct Hp1 as (->&_&l&refocus&m&Hfam&Href&Hm&Habs1).
  set (b1 := Bundle.set_minimized_from (Bundle.workspace b) (moved hidden b)) in *.
  assert (Hb1 : abs s1 !! v = Some b1) by (rewrite Habs1; apply lookup_insert_eq).
  destruct (minimized_views (abs s) m (abs s1) v l refocus hidden b origin)
    as (Ho1&Hn1&Hs1); [done..|].
  destruct (restore_minimized_view_spec s1 v Hok1) as (s2&r2&E2&Hnp&Hok2&Hp2).
  unfold restored_post in Hp2. rewrite Hb1 in Hp2. simpl in Hp2. rewrite Hw in Hp2.
  unfold moved_view in Hp2. rewrite Hb1, Ho1, Hroot in Hp2.
  destruct r2 as [a|e|]; [| |done].
  2: { rewrite decide_False in Hp2 by (simpl; congruence). by destruct Hp2. }
  rewrite decide_False in Hp2 by (simpl; congruence).
  destruct Hp2 as (->&_&_&l2&refocus2&Hfam2&Href2&Hm2).
  assert (Hll : ∀ x, x ∈ l2 ↔ x ∈ l).
  { intros x. rewrite (Hfam2 x), (Hfam x). split; apply descends_sub; intros; congruence. }
  assert (Hrr : refocus2 = refocus).
  { apply eq_true_iff_eq. rewrite Href2, Href. split.
    - intros (x&c1&Hx%Hll&Hc1&Hf). destruct (abs s !! x) as [c|] eqn:Ec.
      + destruct (Hs1 x c Ec) as (c1'&Hc1'&Hi&_). destruct (Hi Hx) as [Ef _].
        exists x, c. split_and!; [done|done|congruence].
      + rewrite (Hn1 x Ec) in Hc1. done.
    - intros (x&c&Hx&Hc&Hf). destruct (Hs1 x c Hc) as (c1&Hc1&Hi&_).
      destruct (Hi Hx) as [Ef _]. exists x, c1. split_and!; [by apply Hll|done|congruence]. }
  exists s1, s2. split; [done|]. split; [|split; [done|split; [done|]]].
  { unfold minimized_from. rewrite view_component_abs, Hb1. simpl. done. }
  intros x c Hc. destruct (Hs1 x c Hc) as (c1&Hc1&Hin&Hout). split.
  - intros Hx%Hfam. destruct (Hin Hx) as (_&Hw1&Hmv). rewrite view_workspace_abs.
    unfold map_workspace. rewrite Hm2, Hc1, decide_True by by apply Hll. simpl.
    split; [done|]. f_equal. rewrite Hmv.
    pose proof (owned_workspace _ x v Hown (proj1 (Hfam x) Hx)) as Hwx.
    unfold map_workspace in Hwx. rewrite Hc, Hb in Hwx. simpl in Hwx.
    apply (moved_back origin hidden c). congruence.
  - intros Hx. assert (Hxl : x ∉ l) by (by rewrite (Hfam x)).
    rewrite Hm2, decide_False, Hc1, Hrr by by rewrite Hll.
    assert (Hwv : map_workspace (abs s) v = Some origin) by (unfold map_workspace; by rewrite Hb).
    destruct (outside_back (abs s) l refocus v origin hidden x c Hone Hown Hfam Hwv Hne Href Hc Hxl)
      as [Ec|[Hwc Ec]]; rewrite (Hout Hxl) in *; destruct refocus; simpl in *;
      [left; by rewrite Ec|by left|right; by rewrite Ec|right; by rewrite <- Ec].
Qed.

(** ** Arrangement and extraction *)

(** The geometry that arranging must give one view. *)
Definition placed_by (s s' : state) (ws : Z) (snapshot : LayoutSnapshot.t) (v : Z)
    (b : Bundle.t) (g : Rect.t) : Prop :=
  match Bundle.placement b with
  | Some ViewPlacement.Tiled =>
      ∃ i p, (wv_id <$> tiled_views (workspace_views ws s)) !! i = Some v ∧
        LayoutSnapshot.placements snapshot !! i = Some p ∧ LayoutPlacement.geometry p = g
  | Some (ViewPlacement.Floating r) => g = r
  | Some (ViewPlacement.Attached owner size) =>
      ∃ owner_geometry l, geometry s' owner = Some owner_geometry ∧
        Bundle.layout b = Some l ∧
        g = attached_geometry owner_geometry (ViewLayout.constraints l) size
  | None => False
  end.

Lemma arranged_geometry (s : state) ws r s' v b snapshot g :
  linked s → abs s !! v = Some b → Bundle.workspace b = Some ws →
  geometries_of (workspace_views ws s) snapshot g →
  (∀ v, abs s' !! v = (λ b, if decide (Bundle.workspace b = Some ws)
     then with_geometry g v b else b) <$> abs s !! v) →
  g !! v = Some r → geometry s' v = Some r.
Proof.
  intros Hl Hb Hw Hgeo Habs Hr. unfold geometry. rewrite view_component_abs, Habs, Hb. simpl.
  rewrite decide_True by done. unfold with_geometry. by rewrite Hr.
Qed.

Lemma arranged_placed (s s' : state) ws snapshot g x :
  linked s → owned (abs s) → x ∈ workspace_views ws s →
  length (LayoutSnapshot.placements snapshot) = length (tiled_views (workspace_views ws s)) →
  geometries_of (workspace_views ws s) snapshot g →
  (∀ v, abs s' !! v = (λ b, if decide (Bundle.workspace b = Some ws)
     then with_geometry g v b else b) <$> abs s !! v) →
  ∃ b r, abs s !! wv_id x = Some b ∧ geometry s' (wv_id x) = Some r ∧
    placed_by s s' ws snapshot (wv_id x) b r.
Proof.
  intros Hl Hown Hx Hlen Hgeo Habs. pose proof Hx as Hx'.
  apply workspace_views_elem in Hx as (b&_&Hb&Hw&Hly&Hp&_); [|done].
  destruct (proj2 (geometries_dom _ _ _ Hgeo (wv_id x))) as [r Hr]; [by exists x|].
  exists b, r. split; [done|]. split; [by eapply (arranged_geometry s ws r s')|].
  unfold placed_by. rewrite Hp. destruct (wv_placement x) as [|q|o size] eqn:Ep.
  - assert (Ht : x ∈ tiled_views (workspace_views ws s))
      by (apply list_elem_of_filter; by rewrite Ep).
    apply list_elem_of_lookup in Ht as [i Hi].
    destruct (lookup_lt_is_Some_2 (LayoutSnapshot.placements snapshot) i) as [p Hpi].
    { rewrite Hlen. by apply lookup_lt_Some in Hi. }
    exists i, p. rewrite list_lookup_fmap, Hi. split; [done|]. split; [done|].
    pose proof (geometries_tiled _ _ _ Hgeo i x p Hi Hpi). congruence.
  - pose proof (geometries_derived _ _ _ Hgeo x Hx') as Hd. rewrite Ep in Hd.
    unfold derived_geometry in Hd. rewrite Ep in Hd. specialize (Hd ltac:(done)). congruence.
  - pose proof (geometries_derived _ _ _ Hgeo x Hx') as Hd. rewrite Ep in Hd.
    unfold derived_geometry in Hd. rewrite Ep in Hd. specialize (Hd ltac:(done)).
    destruct (owner_listed s ws x o Hl Hown Hx') as [_ (y&Hy&<-)]; [by rewrite Ep|].
    destruct (g !! wv_id y) as [og|] eqn:Eog; simpl in Hd; [|congruence].
    exists og, (wv_layout x). split; [|split; [done|congruence]].
    apply workspace_views_elem in Hy as (c&_&Hc&Hwc&_); [|done].
    by eapply (arranged_geometry s ws og s').
Qed.

(** C13: [arrange_workspace] always succeeds and gives every view of the
    workspace a geometry: a tiled view the one of its layout placement, by
    position in identifier order, a floating view its own, and an attached
    view the one centred over its owner's new geometry under its own size
    constraints. The layout is cached and views of other workspaces are
    untouched. *)
Theorem arrange_workspace_places_all (s : state) ws engine output :
  world_ok s → Z.of_nat (size (dom (abs s))) <= U32.MAX →
  ∃ s' snapshot, arrange_workspace ws engine output s = (s', Ok snapshot) ∧ world_ok s' ∧
    layout_snapshot s' ws = Some snapshot ∧ LayoutSnapshot.viewport snapshot = output ∧
    ∀ v b, abs s !! v = Some b →
      (Bundle.workspace b = Some ws →
         ∃ g, geometry s' v = Some g ∧ placed_by s s' ws snapshot v b g) ∧
      (Bundle.workspace b ≠ Some ws → abs s' !! v = Some b).
Proof.
  intros Hok Hsize. pose proof Hok as (Hl&((Hown&_)&_)&_).
  destruct (arrange_workspace_spec s ws engine output Hok Hsize) as (s'&r&E1&_&Hok'&Hpost).
  destruct Hpost as (snapshot&g&->&Hvp&Hlen&Hsn&_&_&Hgeo&Habs).
  exists s', snapshot. split; [done|]. split; [done|].
  split; [unfold layout_snapshot; rewrite Hsn; apply lookup_insert_eq|]. split; [done|].
  intros v b Hb. split; intros Hw.
  - destruct (workspace_views_total s ws v b Hl Hb Hw) as (x&Hx&<-&_).
    destruct (arranged_placed s s' ws snapshot g x Hl Hown Hx Hlen Hgeo Habs) as (b'&q&Hb'&?&?).
    assert (b' = b) as -> by congruence. by exists q.
  - rewrite Habs, Hb. simpl. by rewrite decide_False.
Qed.

Lemma arranged_contents (s s' : state) ws g v :
  (∀ v, abs s' !! v = (λ b, if decide (Bundle.workspace b = Some ws)
     then with_geometry g v b else b) <$> abs s !! v) →
  contents_of (abs s') v = contents_of (abs s) v.
Proof.
  intros Habs. unfold contents_of. rewrite Habs. destruct (abs s !! v) as [b|]; [|done]. simpl.
  case_decide; [|done]. unfold with_geometry. by destruct (g !! v).
Qed.

Lemma arranged_view_ids (s s' : state) ws output r :
  linked s → linked s' → arranged s ws output s' r →
  workspace_view_ids ws s' = workspace_view_ids ws s.
Proof.
  intros Hl Hl' (snapshot&g&_&_&_&_&_&_&_&Habs).
  rewrite <- (nodes_sorted id (workspace_view_ids ws s) (workspace_view_ids ws s));
    [|by rewrite list_fmap_id|by apply workspace_view_ids_nodup|apply sort_by_key_sorted].
  apply sort_by_key_unique; [rewrite list_fmap_id; by apply workspace_view_ids_nodup| |
    apply sort_by_key_sorted].
  apply NoDup_Permutation; [by apply workspace_view_ids_nodup..|]. intros v.
  rewrite !workspace_view_ids_elem by done. rewrite Habs. split.
  - intros (b'&Hb'&Hw). destruct (abs s !! v) as [b|]; [|done]. injection Hb' as <-.
    exists b. split; [done|]. destruct (with_geometry_shape g ws v b) as [E1 _]. congruence.
  - intros (b&Hb&Hw). rewrite Hb. eexists. split; [done|].
    destruct (with_geometry_shape g ws v b) as [E1 _]. congruence.
Qed.

(** C38: after [arrange_workspace], [extract_scene] succeeds without changing
    the world and yields one node for every view of the workspace, with its
    arranged geometry, stacking order, effects under the scene appearance,
    focus outline, presentation hint, backdrop region and exactly its
    contents; the draw order lists all nodes from the bottom of the stack to
    the top. Before a workspace is arranged there is no scene. *)
Theorem arranged_workspace_extracts (s : state) ws engine output :
  world_ok s → Z.of_nat (size (dom (abs s))) <= U32.MAX →
  Z.of_nat (length (concat (contents_of (abs s) <$> workspace_view_ids ws s))) <= U32.MAX →
  (layout_snapshot s ws = None → extract_scene ws s = (s, Ok None)) ∧
  ∃ s' snapshot scene, arrange_workspace ws engine output s = (s', Ok snapshot) ∧
    extract_scene ws s' = (s', Ok (Some scene)) ∧ scene_of s' ws snapshot scene ∧
    LayoutSnapshot.viewport snapshot = output ∧
    workspace_view_ids ws s' = workspace_view_ids ws s ∧
    ∀ v, v ∈ workspace_view_ids ws s ↔ view_workspace s v = Some ws.
Proof.
  intros Hok Hsize Hlen. pose proof Hok as (Hl&_).
  assert (Hcount : Z.of_nat (length (workspace_view_ids ws s)) <= U32.MAX).
  { transitivity (Z.of_nat (size (dom (abs s)))); [|done]. apply inj_le, nodup_bounded.
    - by apply workspace_view_ids_nodup.
    - intros v (b&Hb&_)%workspace_view_ids_elem; [|done]. by apply elem_of_dom. }
  split.
  { intros Hn. pose proof (extract_scene_spec s ws Hok Hcount Hlen) as Hex.
    unfold layout_snapshot in Hn. by rewrite Hn in Hex. }
  destruct (arrange_workspace_spec s ws engine output Hok Hsize) as (s'&r&E1&_&Hok'&Hpost).
  pose proof Hok' as (Hl'&_). pose proof (arranged_view_ids s s' ws output r Hl Hl' Hpost) as Hids.
  destruct Hpost as (snapshot&g&->&Hvp&_&Hsn&_&_&_&Habs).
  pose proof (extract_scene_spec s' ws Hok') as Hex. rewrite Hsn, lookup_insert_eq, Hids in Hex.
  destruct Hex as (scene&E2&Hs); [done| |].
  - rewrite (list_fmap_ext (contents_of (abs s')) (contents_of (abs s))); [done|].
    intros i v _. by eapply arranged_contents.
  - exists s', snapshot, scene. split; [done|]. split; [done|]. split; [done|].
    split; [done|]. split; [done|]. intros v. rewrite workspace_view_ids_elem by done.
    rewrite view_workspace_abs. unfold map_workspace. split.
    + by intros (b&->&?).
    + destruct (abs s !! v) as [b|]; simpl; [by exists b|done].
Qed.

(** ** Queries *)

(** when a focused view is about to go, the focus moves to its owner, or
    to the topmost other view of its workspace when it is not attached; and
    when a whole family goes, to the topmost view of the workspace outside
    the family. The queries never fail for a known view, and answer [None]
    only when the view was not focused or nothing else is left. *)
Theorem focus_replacement_topmost (s : state) v b ws :
  world_ok s → abs s !! v = Some b → Bundle.workspace b = Some ws →
  (∃ r, focus_replacement_after_removal v s = (s, Ok r) ∧
     if Bundle.focused b then
       match map_owner (abs s) v with
       | Some owner => r = Some owner
       | None => topmost (abs s) ws (λ x, x ≠ v) r
       end
     else r = None) ∧
  ∃ r, focus_replacement_after_family_removal v s = (s, Ok r) ∧
    topmost (abs s) ws (λ x, ¬ descends (map_owner (abs s)) x v) r.
Proof.
  intros (Hl&(Hf&_)&_) Hb Hw. destruct (abs_some s v b Hl Hb) as (e&He&_&_&Hc).
  destruct (Bundle.complete_placement b Hc) as [p Hp].
  assert (Hcomp : ∀ {C} (q : Bundle.t → option C) c, q b = Some c → component q s e = Some c).
  { intros C q c Hq. rewrite (component_abs q s v e He), Hb. exact Hq. }
  split.
  - pose proof (focus_marker_some b) as Hmark. eexists.
    split; [run_step (run_entity_for s v e); run_step run_get|].
    + rewrite (component_abs _ s v e He), Hb. cbn [mbind option_bind].
      instantiate (1 := if Bundle.focused b then
        match map_owner (abs s) v with
        | Some owner => Some owner
        | None => snd <$> max_by_key id (filter (λ p, p.2 ≠ v) (stacked_views ws s))
        end else None).
      destruct (Bundle.focused b).
      * rewrite decide_False by (intros Hn; destruct (proj2 Hmark eq_refl); congruence).
        run_step (run_required _ _ _ _ _ (Hcomp _ _ _ Hw)).
        run_step (run_required _ _ _ _ _ (Hcomp _ _ _ Hp)).
        rewrite map_owner_bundle, Hb. unfold bundle_owner. simpl. rewrite Hp. simpl.
        by destruct (ViewPlacement.owner p).
      * rewrite decide_True; [done|]. destruct (focus_marker b); [|done].
        by specialize (proj1 Hmark (ltac:(by eexists))).
    + destruct (Bundle.focused b); [|done]. destruct (map_owner (abs s) v); [done|].
      exact (topmost_max s ws (λ x, x ≠ v) Hl).
  - assert (Hv : v ∈ dom (abs s)) by (by apply elem_of_dom; eexists).
    destruct (view_family_spec s Hl Hf v Hv) as (l&Hfam&_&Hin&_).
    eexists. split.
    { run_step (run_entity_for s v e). run_step (run_required _ _ _ _ _ (Hcomp _ _ _ Hw)).
      run_step run_get. by run_step (run_expect _ _ _ _ Hfam). }
    apply (topmost_iff _ _ (λ x, x ∉ v :: l)); [intros x; by rewrite Hin|].
    exact (topmost_max s ws (λ x, x ∉ v :: l) Hl).
Qed.

(** the overview inventory of a workspace lists each of its views and no
    other, from the bottom of the stack to the top, each with its tiled
    ancestor, its stacking order, focus and kind, and with its current
    geometry or else the last one it was arranged with. *)
Theorem overview_lists_workspace (s : state) ws :
  world_ok s →
  Forall (overview_entry (abs s)) (overview_views ws s) ∧
  (∀ v, v ∈ (OverviewView.id <$> overview_views ws s) ↔ view_workspace s v = Some ws) ∧
  StronglySorted (by_key OverviewView.stacking_order) (overview_views ws s).
Proof.
  intros Hok. destruct (overview_views_spec s ws Hok) as (H1&H2&H3).
  split; [done|]. split; [|done]. intros v. rewrite H2, view_workspace_abs.
  unfold map_workspace. split; [by intros (b&->&?)|].
  destruct (abs s !! v) as [b|]; simpl; [by exists b|done].
Qed.

End spec.

(** ** A concrete world

    Views 1 to 4 in workspace 1 over the finite-map store: 2 is a dialog of
    1, 3 floats, 4 is tiled and focused. *)

Definition demo_ops : list Op :=
  [SpawnView 1 1; SpawnView 2 1; SpawnView 3 1; SpawnView 4 1;
   SetViewPlacement 2 (ViewPlacement.Attached 1 (Size.new 40 20));
   SetViewPlacement 3 (ViewPlacement.Floating (Rect.new 5 5 30 30)); FocusView 4].

Definition demo : t (gmap nat Bundle.t) nat :=
  default new (run demo_ops (with_appearance SceneAppearance.dflt)).

Lemma demo_ok : world_ok demo.
Proof.
  destruct (run_ok_from 0 demo_ops (with_appearance SceneAppearance.dflt : t (gmap nat Bundle.t) nat))
    as (s&Hs&Hok); [apply new_ok|lia|split; vm_compute; congruence|vm_compute; congruence|].
  unfold demo. by rewrite Hs.
Qed.

Definition demo_screen : Rect.t := Rect.new 0 0 1000 600.

Lemma world_run_safe_witness :
  ∃ s : t (gmap nat Bundle.t) nat,
    run demo_ops (with_appearance SceneAppearance.dflt) = Some s ∧ world_ok s.
Proof. apply (world_run_safe SceneAppearance.dflt demo_ops). vm_compute. congruence. Defined.

Lemma focus_view_raises_family_witness :
  focused_view 1 (focus_view 2 demo).1 = Some 2 ∧ on_top (abs (focus_view 2 demo).1) 2.
Proof.
  destruct (focus_view_raises_family demo 2) as (s'&r&E1&_&Hpost).
  - apply demo_ok.
  - split; vm_compute; congruence.
  - rewrite E1. simpl. destruct (abs demo !! 2) as [b|] eqn:Eb; [|vm_compute in Eb; congruence].
    vm_compute in Eb. injection Eb as <-. destruct Hpost as (_&Hf&Ht). split; [by apply Hf|done].
Defined.

Lemma set_view_placement_checked_witness :
  (set_view_placement 1 (ViewPlacement.Attached 2 (Size.new 9 9)) demo).2
    = Err (ViewLifecycleError.AttachmentCycle 1 2) ∧
  descends (map_owner (abs demo)) 2 1.
Proof.
  split; [vm_compute; reflexivity|].
  destruct (set_view_placement_checked demo 1 (ViewPlacement.Attached 2 (Size.new 9 9)) demo_ok)
    as (s'&r&E1&_&Hp).
  assert (Er : r = Err (ViewLifecycleError.AttachmentCycle 1 2)).
  { transitivity (set_view_placement 1 (ViewPlacement.Attached 2 (Size.new 9 9)) demo).2.
    - by rewrite E1.
    - vm_compute. reflexivity. }
  subst r. by destruct Hp as (_&_&_&_&Hd).
Defined.

Lemma minimize_restore_roundtrip_witness :
  ∃ s1 s2, minimize_view 1 99 demo = (s1, Ok true) ∧
    restore_minimized_view 1 s1 = (s2, Ok (Some 1)) ∧ view_workspace s1 2 = Some 99 ∧
    view_workspace s2 2 = Some 1.
Proof.
  destruct (abs demo !! 1) as [b|] eqn:Eb; [|vm_compute in Eb; congruence].
  destruct (minimize_restore_roundtrip demo 1 99 1 b demo_ok Eb) as (s1&s2&E1&_&E2&_&Hx);
    try (vm_compute in Eb; injection Eb as <-; first [reflexivity|lia]).
  exists s1, s2. split; [done|]. split; [done|].
  destruct (abs demo !! 2) as [c|] eqn:Ec; [|vm_compute in Ec; congruence].
  destruct (Hx 2 c Ec) as [Hd _]. destruct Hd as [Hw Hc].
  - apply rtc_once. vm_compute. reflexivity.
  - split; [done|]. rewrite view_workspace_abs. unfold map_workspace. rewrite Hc.
    vm_compute in Ec. injection Ec as <-. reflexivity.
Defined.

Lemma arrange_workspace_places_all_witness :
  ∃ s' snapshot, arrange_workspace 1 (LayoutEngine.new LayoutKind.MasterStack) demo_screen demo
      = (s', Ok snapshot) ∧ geometry s' 3 = Some (Rect.new 5 5 30 30).
Proof.
  destruct (arrange_workspace_places_all demo 1 (LayoutEngine.new LayoutKind.MasterStack)
    demo_screen demo_ok) as (s'&snapshot&E1&_&_&_&Hv); [vm_compute; congruence|].
  exists s', snapshot. split; [done|].
  destruct (abs demo !! 3) as [b|] eqn:Eb; [|vm_compute in Eb; congruence].
  destruct (Hv 3 b Eb) as [Hg _]. vm_compute in Eb. injection Eb as <-.
  destruct (Hg eq_refl) as (g&Hg'&Hp). unfold placed_by in Hp. simpl in Hp. by subst g.
Defined.

Lemma arranged_workspace_extracts_witness :
  ∃ s' snapshot scene,
    arrange_workspace 1 (LayoutEngine.new LayoutKind.Spatial2D) demo_screen demo
      = (s', Ok snapshot) ∧
    extract_scene 1 s' = (s', Ok (Some scene)) ∧ SceneSnapshot.viewport scene = demo_screen.
Proof.
  destruct (arranged_workspace_extracts demo 1 (LayoutEngine.new LayoutKind.Spatial2D) demo_screen
    demo_ok) as (_&s'&snapshot&scene&E1&E2&Hs&Hvp&_); [vm_compute; congruence..|].
  exists s', snapshot, scene. split; [done|]. split; [done|].
  destruct Hs as (_&Hv&_). by rewrite Hv.
Defined.

Lemma focus_replacement_topmost_witness :
  ∃ r, focus_replacement_after_removal 4 demo = (demo, Ok r) ∧
    topmost (abs demo) 1 (λ x, x ≠ 4) r.
Proof.
  destruct (abs demo !! 4) as [b|] eqn:Eb; [|vm_compute in Eb; congruence].
  destruct (focus_replacement_topmost demo 4 b 1 demo_ok Eb) as [(r&E1&Hr) _].
  - vm_compute in Eb. injection Eb as <-. reflexivity.
  - exists r. split; [done|]. vm_compute in Eb. injection Eb as <-. exact Hr.
Defined.

Lemma overview_lists_workspace_witness :
  length (overview_views 1 demo) = 4%nat ∧
  Forall (overview_entry (abs demo)) (overview_views 1 demo).
Proof.
  split; [vm_compute; reflexivity|]. apply (overview_lists_workspace demo 1). apply demo_ok.
Defined.

(** [minimized_count] counts every view that was minimized itself, although
    its documentation speaks of root families: two views minimized one after
    the other and attached afterwards are one family and count twice, and the
    attached one can no longer be restored on its own. *)
Example minimized_count_counts_members :
  ∃ s : t (gmap nat Bundle.t) nat,
    run [SpawnView 1 1; SpawnView 2 1; MinimizeView 1 9; MinimizeView 2 9;
         SetViewPlacement 2 (ViewPlacement.Attached 1 (Size.new 4 4))] new = Some s ∧
    minimized_count s = 2%nat ∧ view_family s 1 = Some [1; 2] ∧
    (restore_minimized_view 2 s).2 = Err (ViewLifecycleError.AttachedViewCannotMove 2).
Proof. eexists. split; [vm_compute; reflexivity|]. by vm_compute. Qed.
