(* ===== verification/Registry.v ===== *)
(** * The surface and buffer registry

    [SurfaceBufferRegistry] of [crates/tensor-protocol/src/registry.rs]: the
    mapping from opaque wire objects to surface and buffer identifiers, the
    attachment counts that decide when the renderer may drop an imported
    buffer, and the surface trees of views. Wire objects [K] and commit
    markers [C] are parameters; hash maps are finite maps. Methods with
    [&mut self] return the new registry with their result. *)

From S2P Require Import Prelude Geometry Surface.

Module AttachedBuffer.

Record t {K : Type} := mk { object : K; id : Z; local_geometry : Rect.t }.

Arguments t : clear implicits.

End AttachedBuffer.

Module SurfaceState.

Record t {K C : Type} := mk {
  id : Z;
  current : option (AttachedBuffer.t K);
  revision : Z;
  last_commit : option C;
  buffer_scale : Z;
  transform : SurfaceTransform.t;
  source : option SurfaceSourceRect.t;
  layer : SurfaceLayer.t;
  alpha : Z;
  color : SurfaceColorState.t }.

Arguments t : clear implicits.

(** The state that [register_surface] inserts. *)
Definition registered {K C} (id : Z) : t K C :=
  mk K C id None 0 None 1 SurfaceTransform.Normal None SurfaceLayer.View
     SurfaceAlpha.OPAQUE SurfaceColorState.dflt.

End SurfaceState.

Module BufferState.

Record t := mk { id : Z; size : Size.t; attachments : Z; destroyed : bool }.

End BufferState.

Module SurfaceUpdate.

Record t := mk {
  changed : bool; content : option SurfaceContent.t; released_buffers : list Z }.

Definition dflt : t := mk false None [].

End SurfaceUpdate.

Module SurfaceTreeUpdate.

Record t := mk {
  changed : bool; contents : list SurfaceContent.t;
  removed_surfaces : list Z; released_buffers : list Z }.

End SurfaceTreeUpdate.

Module SurfaceTreeRemoval.

Record t := mk { surfaces : list Z; released_buffers : list Z }.

End SurfaceTreeRemoval.

Module SurfaceCommit.

Record t {K C : Type} := mk {
  buffer : option K;
  logical_size : option Size.t;
  local_offset : Z * Z;
  commit : C;
  buffer_scale : Z;
  transform : SurfaceTransform.t;
  source : option SurfaceSourceRect.t;
  layer : SurfaceLayer.t;
  alpha : Z;
  color : SurfaceColorState.t }.

Arguments t : clear implicits.

End SurfaceCommit.

Module SurfaceBufferRegistry.

Section registry.

Context {K C : Type} `{Countable K} `{EqDecision C}.

Record t := mk {
  next_surface_id : Z;
  next_buffer_id : Z;
  surfaces : gmap K (SurfaceState.t K C);
  buffers : gmap K BufferState.t;
  view_members : gmap K (list K);
  surface_roots : gmap K K }.

Definition dflt : t := mk 1 1 ∅ ∅ ∅ ∅.

Definition set_surfaces (m : gmap K (SurfaceState.t K C)) (r : t) : t :=
  mk (next_surface_id r) (next_buffer_id r) m (buffers r) (view_members r) (surface_roots r).

Definition set_buffers (m : gmap K BufferState.t) (r : t) : t :=
  mk (next_surface_id r) (next_buffer_id r) (surfaces r) m (view_members r) (surface_roots r).

Definition set_members (m : gmap K (list K)) (r : t) : t :=
  mk (next_surface_id r) (next_buffer_id r) (surfaces r) (buffers r) m (surface_roots r).

Definition set_roots (m : gmap K K) (r : t) : t :=
  mk (next_surface_id r) (next_buffer_id r) (surfaces r) (buffers r) (view_members r) m.

(** ** Identifiers *)

Definition allocate_surface_id (r : t) : t * option Z :=
  let id := next_surface_id r in
  match U64.checked_succ id with
  | Some next =>
      (mk next (next_buffer_id r) (surfaces r) (buffers r) (view_members r) (surface_roots r),
       Some id)
  | None => (r, None)
  end.

Definition allocate_buffer_id (r : t) : t * option Z :=
  let id := next_buffer_id r in
  match U64.checked_succ id with
  | Some next =>
      (mk (next_surface_id r) next (surfaces r) (buffers r) (view_members r) (surface_roots r),
       Some id)
  | None => (r, None)
  end.

Definition register_surface (object : K) (r : t) : t * option Z :=
  match surfaces r !! object with
  | Some state => (r, Some (SurfaceState.id state))
  | None =>
      match allocate_surface_id r with
      | (r, None) => (r, None)
      | (r, Some id) =>
          (set_surfaces (<[object := SurfaceState.registered id]> (surfaces r)) r, Some id)
      end
  end.

(** [entry(key).or_insert(value)] *)
Definition or_insert {A} (key : K) (value : A) (m : gmap K A) : gmap K A :=
  match m !! key with Some _ => m | None => <[key := value]> m end.

Definition register_view_root (root : K) (r : t) : t * option Z :=
  match register_surface root r with
  | (r, None) => (r, None)
  | (r, Some id) =>
      let r := set_members (or_insert root [root] (view_members r)) r in
      (set_roots (or_insert root root (surface_roots r)) r, Some id)
  end.

Definition allocate_buffer_id_for_import (r : t) : t * option Z := allocate_buffer_id r.

Definition register_imported_buffer (object : K) (id : Z) (size : Size.t) (r : t) : t * bool :=
  match buffers r !! object with
  | Some state =>
      (r, negb (BufferState.destroyed state) && (BufferState.id state =? id)
          && bool_decide (BufferState.size state = size))
  | None => (set_buffers (<[object := BufferState.mk id size 0 false]> (buffers r)) r, true)
  end.

Definition imported_buffer (object : K) (r : t) : option (Z * Size.t) :=
  state ← buffers r !! object;
  if BufferState.destroyed state then None
  else Some (BufferState.id state, BufferState.size state).

(** ** Releasing buffers *)

Definition collect_destroyed (object : K) (r : t) : t * option Z :=
  match buffers r !! object with
  | Some record =>
      if BufferState.destroyed record && (BufferState.attachments record =? 0)
      then (set_buffers (delete object (buffers r)) r, Some (BufferState.id record))
      else (r, None)
  | None => (r, None)
  end.

Definition set_attachments (n : Z) (b : BufferState.t) : BufferState.t :=
  BufferState.mk (BufferState.id b) (BufferState.size b) n (BufferState.destroyed b).

Definition detach_buffer (object : K) (r : t) : t * list Z :=
  let r := set_buffers
    (alter (λ b, set_attachments (U64.saturating_sub (BufferState.attachments b) 1) b)
       object (buffers r)) r in
  match collect_destroyed object r with
  | (r, Some id) => (r, [id])
  | (r, None) => (r, [])
  end.

Definition buffer_destroyed (object : K) (r : t) : t * list Z :=
  match buffers r !! object with
  | None => (r, [])
  | Some record =>
      let r := set_buffers (<[object := BufferState.mk (BufferState.id record)
        (BufferState.size record) (BufferState.attachments record) true]> (buffers r)) r in
      match collect_destroyed object r with
      | (r, Some id) => (r, [id])
      | (r, None) => (r, [])
      end
  end.

Definition remove_surface (surface : K) (r : t) : t * list Z :=
  match surfaces r !! surface with
  | None => (r, [])
  | Some state =>
      let r := set_surfaces (delete surface (surfaces r)) r in
      let r := set_roots (delete surface (surface_roots r)) r in
      let r := set_members ((λ members, filter (λ member, member ≠ surface) members)
                              <$> view_members r) r in
      match SurfaceState.current state with
      | Some current => detach_buffer (AttachedBuffer.object current) r
      | None => (r, [])
      end
  end.

(** ** Commits *)

Definition current_object (state : SurfaceState.t K C) : option K :=
  AttachedBuffer.object <$> SurfaceState.current state.

(** The attachment that a commit asks for. *)
Definition next_attachment (r : t) (state : SurfaceState.t K C)
    (snapshot : SurfaceCommit.t K C) : option (AttachedBuffer.t K) :=
  object ← SurfaceCommit.buffer snapshot;
  record ← buffers r !! object;
  if BufferState.destroyed record && negb (bool_decide (current_object state = Some object))
  then None
  else
    let logical_size :=
      match SurfaceCommit.logical_size snapshot with
      | Some size =>
          if (0 <? Size.width size) && (0 <? Size.height size) then size
          else BufferState.size record
      | None => BufferState.size record
      end in
    Some (AttachedBuffer.mk K object (BufferState.id record)
            (Rect.new (SurfaceCommit.local_offset snapshot).1
               (SurfaceCommit.local_offset snapshot).2
               (Size.width logical_size) (Size.height logical_size))).

Definition commit_changed (state : SurfaceState.t K C) (next : option (AttachedBuffer.t K))
    (snapshot : SurfaceCommit.t K C) (buffer_scale : Z) : bool :=
  negb (bool_decide (AttachedBuffer.id <$> SurfaceState.current state
                     = AttachedBuffer.id <$> next))
  || match SurfaceState.current state, next with
     | Some old, Some new =>
         negb (bool_decide (AttachedBuffer.local_geometry old
                            = AttachedBuffer.local_geometry new))
     | _, _ => false
     end
  || negb (bool_decide (SurfaceState.last_commit state = Some (SurfaceCommit.commit snapshot)))
  || negb (SurfaceState.buffer_scale state =? buffer_scale)
  || negb (bool_decide (SurfaceState.transform state = SurfaceCommit.transform snapshot))
  || negb (bool_decide (SurfaceState.source state = SurfaceCommit.source snapshot))
  || negb (bool_decide (SurfaceState.layer state = SurfaceCommit.layer snapshot))
  || negb (SurfaceState.alpha state =? SurfaceCommit.alpha snapshot)
  || negb (bool_decide (SurfaceState.color state = SurfaceCommit.color snapshot)).

(** The content that a surface shows. *)
Definition content_of (r : t) (state : SurfaceState.t K C) : option SurfaceContent.t :=
  current ← SurfaceState.current state;
  let buffer_size :=
    match buffers r !! AttachedBuffer.object current with
    | Some record => BufferState.size record
    | None => Rect.size (AttachedBuffer.local_geometry current)
    end in
  Some (SurfaceContent.mk (SurfaceState.id state) (AttachedBuffer.id current)
          (SurfaceState.revision state) (SurfaceState.layer state) (SurfaceState.alpha state)
          (SurfaceState.color state) (AttachedBuffer.local_geometry current)
          (SurfaceSampleTransform.for_surface buffer_size (SurfaceState.buffer_scale state)
             (SurfaceState.transform state) (SurfaceState.source state))).

(** Moving the attachment of a surface: the old buffer loses a reference, the
    new one gains one. *)
Definition reattach (old new : option K) (r : t) : t * list Z :=
  let '(r, released) :=
    match old with
    | Some object => detach_buffer object r
    | None => (r, [])
    end in
  let r :=
    match new with
    | Some object =>
        set_buffers
          (alter (λ b, set_attachments (U64.saturating_add (BufferState.attachments b) 1) b)
             object (buffers r)) r
    | None => r
    end in
  (r, released).

Definition update_surface (surface : K) (snapshot : SurfaceCommit.t K C) (r : t) :
    t * SurfaceUpdate.t :=
  match surfaces r !! surface with
  | None => (r, SurfaceUpdate.dflt)
  | Some state =>
      let r := set_surfaces (delete surface (surfaces r)) r in
      let buffer_scale := Z.max (SurfaceCommit.buffer_scale snapshot) 1 in
      let next := next_attachment r state snapshot in
      let changed := commit_changed state next snapshot buffer_scale in
      let moved := negb (bool_decide (current_object state = AttachedBuffer.object <$> next)) in
      let '(r, released) :=
        if moved then reattach (current_object state) (AttachedBuffer.object <$> next) r
        else (r, []) in
      let current := if moved then None else SurfaceState.current state in
      let state := SurfaceState.mk K C (SurfaceState.id state)
        (if changed then next else current)
        (if changed then ContentRevision.next (SurfaceState.revision state)
         else SurfaceState.revision state)
        (Some (SurfaceCommit.commit snapshot)) buffer_scale (SurfaceCommit.transform snapshot)
        (SurfaceCommit.source snapshot) (SurfaceCommit.layer snapshot)
        (SurfaceCommit.alpha snapshot) (SurfaceCommit.color snapshot) in
      let content := content_of r state in
      let r := set_surfaces (<[surface := state]> (surfaces r)) r in
      (r, SurfaceUpdate.mk changed content released)
  end.

(** ** Queries *)

Definition current_content (surface : K) (r : t) : option SurfaceContent.t :=
  state ← surfaces r !! surface; content_of r state.

Definition view_tree_contents (root : K) (r : t) : list SurfaceContent.t :=
  match view_members r !! root with
  | Some members => omap (λ surface, current_content surface r) members
  | None => []
  end.

Definition surface_id (surface : K) (r : t) : option Z :=
  SurfaceState.id <$> surfaces r !! surface.

Definition view_root_for_surface (surface : K) (r : t) : option K := surface_roots r !! surface.

Definition view_member_count (root : K) (r : t) : nat :=
  match view_members r !! root with Some members => length members | None => 0%nat end.

(** ** Surface trees *)

(** [seen.insert(surface)] keeps the first commit of every surface. *)
Fixpoint first_commits (seen : gset K) (commits : list (K * SurfaceCommit.t K C)) :
    list (K * SurfaceCommit.t K C) :=
  match commits with
  | [] => []
  | (surface, snapshot) :: commits =>
      if decide (surface ∈ seen) then first_commits seen commits
      else (surface, snapshot) :: first_commits ({[surface]} ∪ seen) commits
  end.

(** Removing surfaces, with the released buffers dropped. *)
Definition remove_surfaces (l : list K) (r : t) : t :=
  foldl (λ r surface, (remove_surface surface r).1) r l.

(** The registration loop; [None] is the early return after the rollback. *)
Fixpoint register_members (members newly_registered : list K) (r : t) : t * option (list K) :=
  match members with
  | [] => (r, Some newly_registered)
  | surface :: members =>
      match surfaces r !! surface with
      | Some _ => register_members members newly_registered r
      | None =>
          match register_surface surface r with
          | (r, None) => (remove_surfaces newly_registered r, None)
          | (r, Some _) => register_members members (newly_registered ++ [surface]) r
          end
      end
  end.

(** One surface that left the tree. *)
Definition drop_member (current : list K) (surface : K)
    (acc : t * (list Z * list Z)) : t * (list Z * list Z) :=
  let '(r, (removed, released)) := acc in
  if decide (surface ∈ current) then (r, (removed, released))
  else
    let removed := match surface_id surface r with
                   | Some id => removed ++ [id]
                   | None => removed
                   end in
    let '(r, more) := remove_surface surface r in
    (r, (removed, released ++ more)).

Definition drop_members (current previous : list K) (acc : t * (list Z * list Z)) :
    t * (list Z * list Z) :=
  foldl (λ acc surface, drop_member current surface acc) acc previous.

(** One commit of the tree. *)
Definition apply_commit (acc : t * SurfaceTreeUpdate.t)
    (commit : K * SurfaceCommit.t K C) : t * SurfaceTreeUpdate.t :=
  let '(r, u) := acc in
  let '(r, surface_update) := update_surface commit.1 commit.2 r in
  (r, SurfaceTreeUpdate.mk
        (SurfaceTreeUpdate.changed u || SurfaceUpdate.changed surface_update)
        (SurfaceTreeUpdate.contents u ++ option_list (SurfaceUpdate.content surface_update))
        (SurfaceTreeUpdate.removed_surfaces u)
        (SurfaceTreeUpdate.released_buffers u ++ SurfaceUpdate.released_buffers surface_update)).

Definition update_view_tree (root : K) (commits : list (K * SurfaceCommit.t K C)) (r : t) :
    t * option SurfaceTreeUpdate.t :=
  let commits := first_commits ∅ commits in
  let members := commits.*1 in
  match register_members members [] r with
  | (r, None) => (r, None)
  | (r, Some _) =>
      let previous := default [] (view_members r !! root) in
      let r := set_members (<[root := members]> (view_members r)) r in
      let '(r, (removed, released)) := drop_members members previous (r, ([], [])) in
      let r := set_roots (foldl (λ m surface, <[surface := root]> m) (surface_roots r) members) r in
      let '(r, u) := foldl apply_commit
        (r, SurfaceTreeUpdate.mk (negb (bool_decide (previous = members))) [] removed released)
        commits in
      (r, Some u)
  end.

(** The [seen] check of the removal loop. *)
Fixpoint first_members (seen : gset K) (members : list K) : list K :=
  match members with
  | [] => []
  | surface :: members =>
      if decide (surface ∈ seen) then first_members seen members
      else surface :: first_members ({[surface]} ∪ seen) members
  end.

Definition remove_view_tree (root : K) (r : t) : t * SurfaceTreeRemoval.t :=
  let members := default [root] (view_members r !! root) in
  let r := set_members (delete root (view_members r)) r in
  let '(r, (removed, released)) := drop_members [] (first_members ∅ members) (r, ([], [])) in
  (r, SurfaceTreeRemoval.mk removed released).

End registry.

Arguments t K C {_ _}.

End SurfaceBufferRegistry.
