(* ===== verification/RegistrySpec.v ===== *)
(** * Buffers are released exactly once

    The attachment counts of [SurfaceBufferRegistry] are exact, the surface
    trees only contain registered surfaces, and every imported buffer is
    reported as released exactly once, when its object is destroyed and no
    surface shows it any more. *)

From S2P Require Import Prelude Geometry Surface Registry.

Import SurfaceBufferRegistry.

Section registry.

Context {K C : Type} `{Countable K} `{EqDecision C}.

#[local] Abbreviation registry := (t K C).

(** ** Counting attachments *)

(** How many surfaces show a buffer object. *)
Definition uses (o : K) (m : gmap K (SurfaceState.t K C)) : nat :=
  size (filter (λ p, current_object p.2 = Some o) m).

Definition shows_one (st : SurfaceState.t K C) (o : K) : nat :=
  if decide (current_object st = Some o) then 1 else 0.

Lemma uses_insert o m s st :
  m !! s = None → uses o (<[s := st]> m) = (shows_one st o + uses o m)%nat.
Proof.
  intros Hs. unfold uses, shows_one. rewrite map_filter_insert. simpl.
  destruct (decide _) as [Hc|Hc].
  - rewrite map_size_insert_None; [done|]. apply map_lookup_filter_None. by left.
  - by rewrite delete_id.
Qed.

Lemma uses_delete o m s st :
  m !! s = Some st → uses o m = (shows_one st o + uses o (delete s m))%nat.
Proof.
  intros Hs. rewrite <- (insert_delete_id m s st Hs) at 1.
  apply uses_insert, lookup_delete_eq.
Qed.

Lemma uses_le o m : (uses o m <= size m)%nat.
Proof.
  unfold uses. rewrite <- !size_dom. apply subseteq_size, dom_filter_subseteq.
Qed.

(** ** The invariant *)

(** The counts, up to one reference of [pending] that is being moved. *)
Record balanced (pending : option K) (r : registry) : Prop := {
  bal_counts : ∀ o b, buffers r !! o = Some b →
    BufferState.attachments b =
      Z.of_nat (uses o (surfaces r)) + (if decide (pending = Some o) then 1 else 0);
  bal_pending : ∀ o, pending = Some o → is_Some (buffers r !! o);
  bal_current : ∀ s st a, surfaces r !! s = Some st → SurfaceState.current st = Some a →
    ∃ b, buffers r !! AttachedBuffer.object a = Some b ∧
         BufferState.id b = AttachedBuffer.id a;
  bal_live : ∀ o b, buffers r !! o = Some b → BufferState.destroyed b = true →
    BufferState.attachments b ≠ 0;
  bal_ids : ∀ o o' b b', buffers r !! o = Some b → buffers r !! o' = Some b' →
    BufferState.id b = BufferState.id b' → o = o';
  bal_room : Z.of_nat (size (surfaces r)) < U64.MAX }.

(** Surface identifiers are distinct and older than the next one. *)
Record named (r : registry) : Prop := {
  named_range : ∀ s st, surfaces r !! s = Some st →
    1 <= SurfaceState.id st < next_surface_id r;
  named_ids : ∀ s s' st st', surfaces r !! s = Some st → surfaces r !! s' = Some st' →
    SurfaceState.id st = SurfaceState.id st' → s = s';
  named_next : 1 <= next_surface_id r <= U64.MAX }.

(** Trees list registered surfaces, once. *)
Record rooted (r : registry) : Prop := {
  rooted_members : ∀ root l, view_members r !! root = Some l →
    NoDup l ∧ ∀ s, s ∈ l → is_Some (surfaces r !! s);
  rooted_roots : ∀ s root, surface_roots r !! s = Some root → is_Some (surfaces r !! s) }.

Definition registry_ok (r : registry) : Prop := balanced None r ∧ named r ∧ rooted r.

(** ** Buffer identifiers in use *)

Definition live_ids (r : registry) : list Z :=
  BufferState.id <$> (map_to_list (buffers r)).*2.

(** Everything live is still live or was released. *)
Definition settles (r r' : registry) (released : list Z) : Prop :=
  live_ids r ≡ₚ released ++ live_ids r'.

Lemma settles_refl r : settles r r [].
Proof. by unfold settles. Qed.

Lemma settles_trans r1 r2 r3 l l' :
  settles r1 r2 l → settles r2 r3 l' → settles r1 r3 (l ++ l').
Proof. unfold settles. intros -> ->. by rewrite app_assoc. Qed.

Lemma live_ids_insert r o b :
  buffers r !! o = None → live_ids (set_buffers (<[o := b]> (buffers r)) r) ≡ₚ BufferState.id b :: live_ids r.
Proof. intros Ho. unfold live_ids. simpl. by rewrite map_to_list_insert. Qed.

Lemma live_ids_delete r o b :
  buffers r !! o = Some b →
  live_ids r ≡ₚ BufferState.id b :: live_ids (set_buffers (delete o (buffers r)) r).
Proof. intros Ho. unfold live_ids. simpl. by rewrite <- (map_to_list_delete _ _ _ Ho). Qed.

Lemma live_ids_alter r o f :
  (∀ b, BufferState.id (f b) = BufferState.id b) →
  live_ids (set_buffers (alter f o (buffers r)) r) ≡ₚ live_ids r.
Proof.
  intros Hf. destruct (buffers r !! o) as [b|] eqn:Eb.
  - rewrite (live_ids_delete r o b Eb).
    assert (Ha : alter f o (buffers r) = <[o := f b]> (delete o (buffers r))).
    { apply map_eq. intros x. destruct (decide (x = o)) as [->|].
      - by rewrite lookup_alter_eq, lookup_insert_eq, Eb.
      - by rewrite lookup_alter_ne, lookup_insert_ne, lookup_delete_ne by done. }
    rewrite Ha. pose proof (live_ids_insert (set_buffers (delete o (buffers r)) r) o (f b)) as Hi.
    simpl in Hi. rewrite <- (Hf b). apply Hi. apply lookup_delete_eq.
  - replace (alter f o (buffers r)) with (buffers r); [done|].
    apply map_eq. intros x. destruct (decide (x = o)) as [->|].
    + by rewrite lookup_alter_eq, Eb.
    + by rewrite lookup_alter_ne.
Qed.

(** ** Releasing *)

Lemma collect_spec r o :
  let '(r', released) := collect_destroyed o r in
  live_ids r ≡ₚ option_list released ++ live_ids r' ∧
  surfaces r' = surfaces r ∧ view_members r' = view_members r ∧
  surface_roots r' = surface_roots r ∧ next_surface_id r' = next_surface_id r ∧
  next_buffer_id r' = next_buffer_id r ∧
  ∀ x, buffers r' !! x = match buffers r !! x with
    | Some b => if decide (x = o) then
        (if BufferState.destroyed b && (BufferState.attachments b =? 0) then None else Some b)
        else Some b
    | None => None
    end.
Proof.
  unfold collect_destroyed. destruct (buffers r !! o) as [b|] eqn:Eb.
  - destruct (BufferState.destroyed b && (BufferState.attachments b =? 0)) eqn:Ed.
    + split; [by rewrite (live_ids_delete r o b Eb)|]. do 5 (split; [done|]). intros x.
      destruct (decide (x = o)) as [->|Hne]; simpl.
      * rewrite lookup_delete_eq, Eb. by rewrite Ed.
      * rewrite lookup_delete_ne by done. by destruct (buffers r !! x).
    + split; [done|]. do 5 (split; [done|]). intros x.
      destruct (decide (x = o)) as [->|Hne].
      * rewrite Eb. by rewrite Ed.
      * by destruct (buffers r !! x).
  - split; [done|]. do 5 (split; [done|]). intros x.
    destruct (decide (x = o)) as [->|Hne]; [by rewrite Eb|]. by destruct (buffers r !! x).
Qed.

(** What the release primitives leave untouched. *)
Record untouched (r r' : registry) : Prop := {
  same_surfaces : surfaces r' = surfaces r;
  same_members : view_members r' = view_members r;
  same_roots : surface_roots r' = surface_roots r;
  same_next : next_surface_id r' = next_surface_id r;
  same_next_buffer : next_buffer_id r' = next_buffer_id r }.

Lemma untouched_refl r : untouched r r.
Proof. done. Qed.

Lemma untouched_trans r1 r2 r3 : untouched r1 r2 → untouched r2 r3 → untouched r1 r3.
Proof. intros [] []. split; congruence. Qed.

Definition decrement (b : BufferState.t) : BufferState.t :=
  set_attachments (U64.saturating_sub (BufferState.attachments b) 1) b.

(** The buffers after [detach_buffer]: only the detached one changes, and it
    stays unless it is destroyed and unused. *)
Lemma detach_buffers r o b0 :
  buffers r !! o = Some b0 →
  let '(r', released) := detach_buffer o r in
  settles r r' released ∧ untouched r r' ∧
  (∀ x, x ≠ o → buffers r' !! x = buffers r !! x) ∧
  buffers r' !! o =
    if BufferState.destroyed b0 && (BufferState.attachments (decrement b0) =? 0)
    then None else Some (decrement b0).
Proof.
  intros Hb0. unfold detach_buffer. change (λ b, set_attachments _ b) with decrement.
  set (r1 := set_buffers (alter decrement o (buffers r)) r).
  assert (Hat : buffers r1 !! o = Some (decrement b0))
    by (unfold r1; simpl; by rewrite lookup_alter_eq, Hb0).
  assert (Hoff : ∀ x, x ≠ o → buffers r1 !! x = buffers r !! x)
    by (intros; unfold r1; simpl; by rewrite lookup_alter_ne).
  pose proof (collect_spec r1 o) as Hcol. destruct (collect_destroyed o r1) as [r2 released].
  destruct Hcol as (Hids&Es&Em&Ero&En&Eb&Hbuf).
  assert (Hres : settles r r2 (option_list released) ∧ untouched r r2 ∧
    (∀ x, x ≠ o → buffers r2 !! x = buffers r !! x) ∧
    buffers r2 !! o = if BufferState.destroyed b0 && (BufferState.attachments (decrement b0) =? 0)
      then None else Some (decrement b0)).
  { split; [|split; [done|split]].
    - unfold settles. rewrite <- Hids. symmetry. by apply live_ids_alter.
    - intros x Hx. rewrite Hbuf, Hoff by done.
      destruct (buffers r !! x); [by rewrite decide_False|done].
    - by rewrite Hbuf, Hat, decide_True. }
  by destruct released.
Qed.

(** Dropping the pending reference. *)
Lemma detach_spec r o :
  balanced (Some o) r →
  let '(r', released) := detach_buffer o r in
  balanced None r' ∧ settles r r' released ∧ untouched r r' ∧
  ∀ x, x ≠ o → buffers r' !! x = buffers r !! x.
Proof.
  intros [Hc Hp Hcur Hl Hid Hr]. destruct (Hp o eq_refl) as [b0 Hb0].
  pose proof (Hc o b0 Hb0) as Hcount. rewrite decide_True in Hcount by done.
  pose proof (uses_le o (surfaces r)) as Hle.
  assert (Hdec : BufferState.attachments (decrement b0) = Z.of_nat (uses o (surfaces r))).
  { unfold decrement, set_attachments, U64.saturating_sub, U64.sat. simpl. lia. }
  pose proof (detach_buffers r o b0 Hb0) as Hdet. destruct (detach_buffer o r) as [r2 released].
  destruct Hdet as (Hset&Hun&Hoff&Hat). split; [|split; [done|split; done]].
  destruct Hun as [Es _ _ _ _].
  assert (Hbuf : ∀ x b, buffers r2 !! x = Some b →
    (x ≠ o ∧ buffers r !! x = Some b) ∨
    (x = o ∧ b = decrement b0 ∧
     (BufferState.destroyed b = true → BufferState.attachments b ≠ 0))).
  { intros x b. destruct (decide (x = o)) as [->|Hne]; [|rewrite Hoff by done; by left].
    rewrite Hat. destruct (BufferState.destroyed b0 && _) eqn:Ed; [done|]. intros [= <-].
    right. split; [done|]. split; [done|]. intros Hd Hz.
    change (BufferState.destroyed b0 = true) in Hd. by rewrite Hd, Hz in Ed. }
  split.
  - intros x b Hx. rewrite Es. rewrite Z.add_0_r.
    destruct (Hbuf x b Hx) as [[Hne Hx']|(->&->&_)]; [|done].
    rewrite (Hc x b Hx'). rewrite decide_False by congruence. lia.
  - done.
  - intros s st a Hs Ha. rewrite Es in Hs. destruct (Hcur s st a Hs Ha) as (b&Hb&Hbid).
    destruct (decide (AttachedBuffer.object a = o)) as [Hao|Hao]; [|exists b; by rewrite Hoff].
    rewrite Hao in *. assert (b = b0) as -> by congruence. exists (decrement b0).
    split; [|done]. rewrite Hat, (proj2 (Z.eqb_neq _ 0)); [by rewrite andb_false_r|].
    rewrite Hdec, (uses_delete o _ s st Hs). unfold shows_one, current_object.
    rewrite Ha. simpl. rewrite Hao, decide_True by done. lia.
  - intros x b Hx Hd. destruct (Hbuf x b Hx) as [[Hne Hx']|(->&->&Hn)];
      [by apply (Hl x)|by apply Hn].
  - intros x y b b' Hx Hy Heq. destruct (Hbuf x b Hx) as [[_ Hx']|(->&->&_)],
      (Hbuf y b' Hy) as [[_ Hy']|(->&->&_)]; [by apply (Hid x y b b')|..|done].
    + by apply (Hid x o b b0).
    + by apply (Hid o y b0 b').
  - by rewrite Es.
Qed.

(** ** Moving references between surfaces and buffers *)

(** A surface taken out of the table leaves its reference pending. *)
Lemma surface_out r s st :
  balanced None r → surfaces r !! s = Some st →
  balanced (current_object st) (set_surfaces (delete s (surfaces r)) r).
Proof.
  intros [Hc Hp Hcur Hl Hid Hr] Hs. split; simpl.
  - intros o b Ho. rewrite (Hc o b Ho), (uses_delete o _ s st Hs). unfold shows_one.
    rewrite Z.add_0_r. case_decide; lia.
  - intros o Ho. unfold current_object in Ho.
    destruct (SurfaceState.current st) as [a|] eqn:Ea; [|done]. injection Ho as <-.
    destruct (Hcur s st a Hs Ea) as (b&Hb&_). by eexists.
  - intros s' st' a [_ Hs']%lookup_delete_Some. by apply (Hcur s').
  - done.
  - done.
  - rewrite map_size_delete_Some by (by eexists). lia.
Qed.

(** A surface put into the table takes the pending reference. *)
Lemma surface_in r s st :
  balanced (current_object st) r → surfaces r !! s = None →
  Z.of_nat (S (size (surfaces r))) < U64.MAX →
  (∀ a, SurfaceState.current st = Some a → ∃ b,
     buffers r !! AttachedBuffer.object a = Some b ∧ BufferState.id b = AttachedBuffer.id a) →
  balanced None (set_surfaces (<[s := st]> (surfaces r)) r).
Proof.
  intros [Hc Hp Hcur Hl Hid Hr] Hs Hroom Hst. split; simpl.
  - intros o b Ho. rewrite (Hc o b Ho), (uses_insert o _ s st Hs). unfold shows_one.
    case_decide; lia.
  - done.
  - intros s' st' a [[-> ->]|[Hne Hs']]%lookup_insert_Some Ha; [by apply Hst|by apply (Hcur s' st')].
  - done.
  - done.
  - by rewrite map_size_insert_None.
Qed.

Definition increment (b : BufferState.t) : BufferState.t :=
  set_attachments (U64.saturating_add (BufferState.attachments b) 1) b.

(** A buffer gains the reference of a surface that is out of the table. *)
Lemma attach_spec r o :
  balanced None r → is_Some (buffers r !! o) →
  balanced (Some o) (set_buffers (alter increment o (buffers r)) r).
Proof.
  intros [Hc Hp Hcur Hl Hid Hr] [b0 Hb0].
  assert (Hlook : ∀ x b, alter increment o (buffers r) !! x = Some b →
    (x ≠ o ∧ buffers r !! x = Some b) ∨ (x = o ∧ b = increment b0)).
  { intros x b. destruct (decide (x = o)) as [->|Hne].
    - rewrite lookup_alter_eq, Hb0. intros [= <-]. by right.
    - rewrite lookup_alter_ne by done. by left. }
  pose proof (uses_le o (surfaces r)) as Hle. pose proof (Hc o b0 Hb0) as H0.
  rewrite Z.add_0_r in H0.
  assert (Hinc : BufferState.attachments (increment b0) = Z.of_nat (uses o (surfaces r)) + 1).
  { unfold increment, set_attachments, U64.saturating_add, U64.sat. simpl. lia. }
  split; simpl.
  - intros x b Hx. destruct (Hlook x b Hx) as [[Hne Hx']|[-> ->]].
    + rewrite (Hc x b Hx'), Z.add_0_r, decide_False by congruence. lia.
    + by rewrite decide_True.
  - intros x [= <-]. rewrite lookup_alter_eq, Hb0. by eexists.
  - intros s st a Hs Ha. destruct (Hcur s st a Hs Ha) as (b&Hb&Hbid).
    destruct (decide (AttachedBuffer.object a = o)) as [Hao|Hao].
    + rewrite Hao in *. exists (increment b0). assert (b = b0) as -> by congruence.
      by rewrite lookup_alter_eq, Hb0.
    + exists b. by rewrite lookup_alter_ne.
  - intros x b Hx Hd. destruct (Hlook x b Hx) as [[_ Hx']|[-> ->]]; [by apply (Hl x)|lia].
  - intros x y b b' Hx Hy Heq. destruct (Hlook x b Hx) as [[_ Hx']|[-> ->]],
      (Hlook y b' Hy) as [[_ Hy']|[-> ->]]; [by apply (Hid x y b b')|..|done].
    + by apply (Hid x o b b0).
    + by apply (Hid o y b0 b').
  - done.
Qed.

(** Destroying a buffer object. *)
Lemma destroyed_spec r o :
  balanced None r →
  let '(r', released) := buffer_destroyed o r in
  balanced None r' ∧ settles r r' released ∧ untouched r r'.
Proof.
  intros Hbal0. pose proof Hbal0 as [Hc Hp Hcur Hl Hid Hr]. unfold buffer_destroyed.
  destruct (buffers r !! o) as [b0|] eqn:Hb0; [|split; [done|split; [apply settles_refl|done]]].
  set (dead := BufferState.mk _ _ _ true). set (r1 := set_buffers _ r).
  pose proof (collect_spec r1 o) as Hcol. destruct (collect_destroyed o r1) as [r2 released].
  destruct Hcol as (Hids&Es&Em&Ero&En&Eb&Hbuf). change (surfaces r1) with (surfaces r) in Es.
  assert (Hlook : ∀ x b, buffers r2 !! x = Some b →
    (x ≠ o ∧ buffers r !! x = Some b) ∨ (x = o ∧ b = dead ∧ BufferState.attachments b0 ≠ 0)).
  { intros x b. rewrite Hbuf. unfold r1. simpl. destruct (decide (x = o)) as [->|Hne].
    - rewrite lookup_insert_eq. simpl.
      destruct (Z.eqb_spec (BufferState.attachments b0) 0); [done|].
      intros [= <-]. by right.
    - rewrite lookup_insert_ne by done.
      destruct (buffers r !! x); intros; simplify_eq. by left. }
  assert (Hset : settles r r2 (option_list released)).
  { unfold settles. rewrite <- Hids, (live_ids_delete r o b0 Hb0).
    unfold r1. rewrite <- insert_delete_eq. symmetry.
    pose proof (live_ids_insert (set_buffers (delete o (buffers r)) r) o dead) as Hi.
    specialize (Hi (lookup_delete_eq (M := gmap K) (buffers r) o)). exact Hi. }
  assert (Hbal : balanced None r2).
  { split.
    - intros x b Hx. rewrite Es. destruct (Hlook x b Hx) as [[_ Hx']|(->&->&_)];
        [by apply Hc|]. by apply (Hc o b0).
    - done.
    - intros s st a Hs Ha. rewrite Es in Hs. destruct (Hcur s st a Hs Ha) as (b&Hb&Hbid).
      rewrite Hbuf. unfold r1. simpl. destruct (decide (AttachedBuffer.object a = o)) as [Hao|Hao].
      + rewrite Hao in *. assert (b = b0) as -> by congruence.
        rewrite lookup_insert_eq. simpl. rewrite (proj2 (Z.eqb_neq _ 0)); [by exists dead|].
        rewrite (Hc o b0 Hb0), (uses_delete o _ s st Hs). unfold shows_one, current_object.
        rewrite Ha. simpl. rewrite Hao, decide_True by done. lia.
      + exists b. by rewrite lookup_insert_ne, Hb.
    - intros x b Hx Hd. by destruct (Hlook x b Hx) as [[_ Hx']|(->&->&Hn)]; [apply (Hl x)|].
    - intros x y b b' Hx Hy Heq. destruct (Hlook x b Hx) as [[_ Hx']|(->&->&_)],
        (Hlook y b' Hy) as [[_ Hy']|(->&->&_)]; [by apply (Hid x y b b')|..|done].
      + by apply (Hid x o b b0).
      + by apply (Hid o y b0 b').
    - by rewrite Es. }
  by destruct released.
Qed.

(** ** Surfaces *)

Lemma balanced_frame p r r' :
  surfaces r' = surfaces r → buffers r' = buffers r → balanced p r → balanced p r'.
Proof. intros Es Eb []. split; rewrite ?Es, ?Eb; done. Qed.

(** Distinct identifiers below the next one bound the number of surfaces. *)
Lemma named_size r : named r → Z.of_nat (size (surfaces r)) < next_surface_id r.
Proof.
  intros [Hr Hi [Hn _]].
  set (ids := (λ p : K * SurfaceState.t K C, SurfaceState.id p.2) <$> map_to_list (surfaces r)).
  assert (Hnd : NoDup ids).
  { apply NoDup_fmap_2_strong; [|apply NoDup_map_to_list].
    intros [s st] [s' st'] H1%elem_of_map_to_list H2%elem_of_map_to_list Heq. simpl in Heq.
    assert (s = s') as -> by (by eapply Hi). by simplify_eq. }
  assert (Hsub : ids ⊆+ seqZ 1 (next_surface_id r - 1)).
  { apply NoDup_submseteq; [done|]. intros i ([s st]&->&Hs%elem_of_map_to_list)%list_elem_of_fmap.
    apply elem_of_seqZ. simpl. specialize (Hr s st Hs). lia. }
  apply submseteq_length in Hsub. unfold ids in Hsub.
  rewrite length_fmap, length_map_to_list, length_seqZ in Hsub. lia.
Qed.

(** The outcome of an operation on the registry. *)
Record step (r r' : registry) (released : list Z) : Prop := {
  step_ok : registry_ok r';
  step_settles : settles r r' released;
  step_next : next_buffer_id r' = next_buffer_id r }.

Lemma step_refl r : registry_ok r → step r r [].
Proof. intros Hok. split; [done|apply settles_refl|done]. Qed.

Lemma step_trans r1 r2 r3 l l' : step r1 r2 l → step r2 r3 l' → step r1 r3 (l ++ l').
Proof.
  intros [] []. split; [done|by eapply settles_trans|congruence].
Qed.

Lemma named_frame r r' :
  surfaces r' ⊆ surfaces r → next_surface_id r' = next_surface_id r → named r → named r'.
Proof.
  intros Hsub En [Hr Hi Hn]. split; rewrite ?En; [| |done].
  - intros s st Hs. apply (Hr s). by eapply lookup_weaken.
  - intros s s' st st' Hs Hs'. apply Hi; by eapply lookup_weaken.
Qed.

Lemma register_surface_spec r s :
  registry_ok r →
  let '(r', id) := register_surface s r in
  step r r' [] ∧ view_members r' = view_members r ∧ surface_roots r' = surface_roots r ∧
  buffers r' = buffers r ∧
  match id with
  | Some _ => is_Some (surfaces r' !! s) ∧
      ∀ x, x ≠ s → surfaces r' !! x = surfaces r !! x
  | None => r' = r ∧ surfaces r !! s = None
  end.
Proof.
  intros Hok. pose proof Hok as (Hb&Hn&[Hm Hro]). unfold register_surface, allocate_surface_id.
  destruct (surfaces r !! s) as [st|] eqn:Es.
  { split; [by apply step_refl|]. do 4 (split; [done|]). done. }
  unfold U64.checked_succ. destruct (Z.ltb_spec (next_surface_id r) U64.MAX) as [Hlt|Hge].
  2: { split; [by apply step_refl|]. do 4 (split; [done|]). done. }
  pose proof (named_size r Hn) as Hsize.
  split; [split|split; [done|split; [done|split; [done|]]]].
  - split; [|split].
    + set (r1 := mk (next_surface_id r + 1) (next_buffer_id r) (surfaces r) (buffers r)
        (view_members r) (surface_roots r)).
      apply (surface_in r1 s (SurfaceState.registered (next_surface_id r))); simpl; [|done|lia|done].
      by apply (balanced_frame None r).
    + destruct Hn as [Hr Hi [Hn1 Hn2]]. split; simpl; [| |lia].
      * intros x st [[<- <-]|[_ Hx]]%lookup_insert_Some; simpl; [lia|].
        specialize (Hr x st Hx). lia.
      * intros x y st st' [[<- <-]|[_ Hx]]%lookup_insert_Some [[<- <-]|[_ Hy]]%lookup_insert_Some;
          simpl; intros Heq; [done| | |by apply (Hi x y st st')].
        -- specialize (Hr y st' Hy). lia.
        -- specialize (Hr x st Hx). lia.
    + split; simpl.
      * intros root l Hl. destruct (Hm root l Hl) as [Hnd Hin]. split; [done|].
        intros x Hx. rewrite lookup_insert_is_Some'. right. by apply Hin.
      * intros x root Hx. rewrite lookup_insert_is_Some'. right. by eapply Hro.
  - by unfold settles, live_ids.
  - done.
  - simpl. split; [by rewrite lookup_insert_eq|]. intros x Hx. by rewrite lookup_insert_ne.
Qed.

Lemma remove_surface_spec r s :
  registry_ok r →
  let '(r', released) := remove_surface s r in
  step r r' released ∧ surfaces r' = delete s (surfaces r) ∧
  (∀ x, x ≠ s → surface_roots r' !! x = surface_roots r !! x) ∧
  view_members r' =
    (if decide (is_Some (surfaces r !! s)) then filter (λ x, x ≠ s) <$> view_members r
     else view_members r).
Proof.
  intros Hok. pose proof Hok as (Hb&Hn&[Hm Hro]). unfold remove_surface.
  destruct (surfaces r !! s) as [st|] eqn:Es.
  2: { split; [by apply step_refl|]. split; [by rewrite delete_id|]. split; [done|].
       rewrite decide_False by (by intros []). done. }
  set (r1 := set_members _ _).
  assert (Hout : balanced (current_object st) r1).
  { eapply balanced_frame; [| |by apply (surface_out r s st)]; done. }
  assert (Hn1 : named r1) by (apply (named_frame r); [apply delete_subseteq|done|done]).
  assert (Hr1 : rooted r1).
  { split; unfold r1; simpl.
    - intros root l Hl. rewrite lookup_fmap in Hl.
      destruct (view_members r !! root) as [l0|] eqn:El; [|done]. injection Hl as <-.
      destruct (Hm root l0 El) as [Hnd Hin]. split; [by apply NoDup_filter|].
      intros x [Hxs Hx]%list_elem_of_filter. rewrite lookup_delete_ne by done. by apply Hin.
    - intros x root [Hxs Hx]%lookup_delete_Some. rewrite lookup_delete_ne by done.
      by eapply Hro. }
  assert (Hroots : ∀ x, x ≠ s → surface_roots r1 !! x = surface_roots r !! x)
    by (intros x Hx; unfold r1; simpl; by rewrite lookup_delete_ne).
  rewrite decide_True by (by eexists).
  unfold current_object in Hout. destruct (SurfaceState.current st) as [a|]; simpl in Hout.
  - pose proof (detach_spec r1 _ Hout) as Hdet.
    destruct (detach_buffer (AttachedBuffer.object a) r1) as [r2 released].
    destruct Hdet as (Hb2&Hset&[E1 E2 E3 E4 E5]&_). rewrite E1, E2, E3. split; [|done]. split.
    + split; [done|]. split.
      * apply (named_frame r1); [by rewrite E1|done|done].
      * destruct Hr1 as [Hm1 Hro1]. split; rewrite ?E1, ?E2, ?E3; done.
    + exact Hset.
    + rewrite E5. done.
  - split; [|done]. split; [done|by unfold settles, live_ids|done].
Qed.

(** ** Commits *)

(** The requested attachment refers to a known buffer. *)
Lemma next_attachment_known (r : registry) st snapshot a :
  next_attachment r st snapshot = Some a →
  ∃ b, buffers r !! AttachedBuffer.object a = Some b ∧ BufferState.id b = AttachedBuffer.id a.
Proof.
  unfold next_attachment. destruct (SurfaceCommit.buffer snapshot) as [o|]; simpl; [|done].
  destruct (buffers r !! o) as [b|] eqn:Eb; simpl; [|done].
  destruct (_ && _); [done|]. intros [= <-]. by exists b.
Qed.

(** An unchanged commit keeps the buffer object. *)
Lemma unchanged_object p (r : registry) st snapshot scale :
  balanced p r →
  (∀ a, SurfaceState.current st = Some a → ∃ b,
     buffers r !! AttachedBuffer.object a = Some b ∧ BufferState.id b = AttachedBuffer.id a) →
  commit_changed st (next_attachment r st snapshot) snapshot scale = false →
  current_object st = AttachedBuffer.object <$> next_attachment r st snapshot.
Proof.
  intros Hb Hcur Hch. unfold commit_changed in Hch.
  assert (Hids : AttachedBuffer.id <$> SurfaceState.current st =
    AttachedBuffer.id <$> next_attachment r st snapshot).
  { case_bool_decide as Hd; [exact Hd|done]. }
  unfold current_object. destruct (SurfaceState.current st) as [a|],
    (next_attachment r st snapshot) as [a'|] eqn:En; simpl in *; try done.
  destruct (Hcur a eq_refl) as (b&Hbb&Hbid).
  destruct (next_attachment_known r st snapshot a' En) as (b'&Hbb'&Hbid').
  f_equal. apply (bal_ids _ _ Hb _ _ b b' Hbb Hbb'). congruence.
Qed.

(** Moving the reference of a surface that is out of the table. *)
Lemma reattach_spec (r : registry) old new :
  balanced old r → (∀ o, new = Some o → is_Some (buffers r !! o)) → old ≠ new →
  let '(r', released) := reattach old new r in
  balanced new r' ∧ settles r r' released ∧ untouched r r' ∧
  ∀ o b, new = Some o → buffers r !! o = Some b → buffers r' !! o = Some (increment b).
Proof.
  intros Hb Hnew Hne. unfold reattach.
  change (λ b, set_attachments (U64.saturating_add _ 1) b) with increment.
  assert (Hdet : let '(r1, released) :=
      match old with Some object => detach_buffer object r | None => (r, []) end in
    balanced None r1 ∧ settles r r1 released ∧ untouched r r1 ∧
    ∀ o, new = Some o → buffers r1 !! o = buffers r !! o).
  { destruct old as [o|].
    - pose proof (detach_spec r o Hb) as Hd. destruct (detach_buffer o r) as [r1 released].
      destruct Hd as (?&?&?&Hoff). split_and!; [done..|]. intros o' ->. apply Hoff. congruence.
    - split_and!; [done|apply settles_refl|apply untouched_refl|done]. }
  destruct (match old with Some object => detach_buffer object r | None => (r, []) end)
    as [r1 released]. destruct Hdet as (Hb1&Hset&Hun&Hsame).
  destruct new as [o|].
  - destruct (Hnew o eq_refl) as [b Hbo]. rewrite <- (Hsame o eq_refl) in Hbo.
    split; [by apply attach_spec|]. split; [|split].
    + unfold settles in *. rewrite Hset. f_equiv. symmetry. by apply live_ids_alter.
    + eapply untouched_trans; [exact Hun|done].
    + intros o' b' [= <-] Hb'. simpl. rewrite lookup_alter_eq, (Hsame o eq_refl), Hb'. done.
  - split_and!; done.
Qed.

(** The state a commit leaves a surface in. *)
Definition committed (st : SurfaceState.t K C) (snapshot : SurfaceCommit.t K C)
    (current : option (AttachedBuffer.t K)) (revision : Z) : SurfaceState.t K C :=
  SurfaceState.mk K C (SurfaceState.id st) current revision
    (Some (SurfaceCommit.commit snapshot)) (Z.max (SurfaceCommit.buffer_scale snapshot) 1)
    (SurfaceCommit.transform snapshot) (SurfaceCommit.source snapshot)
    (SurfaceCommit.layer snapshot) (SurfaceCommit.alpha snapshot) (SurfaceCommit.color snapshot).

(** Putting a surface back after its commit. *)
Lemma recommit_spec (r0 r1 : registry) s st st' :
  registry_ok r0 → surfaces r0 !! s = Some st → SurfaceState.id st' = SurfaceState.id st →
  untouched (set_surfaces (delete s (surfaces r0)) r0) r1 →
  balanced (current_object st') r1 →
  (∀ a, SurfaceState.current st' = Some a → ∃ b,
     buffers r1 !! AttachedBuffer.object a = Some b ∧ BufferState.id b = AttachedBuffer.id a) →
  let r' := set_surfaces (<[s := st']> (surfaces r1)) r1 in
  registry_ok r' ∧ surfaces r' = <[s := st']> (surfaces r0) ∧ next_buffer_id r' = next_buffer_id r0.
Proof.
  intros (Hb&[Hr Hi Hn]&[Hm Hro]) Hs Hid [E1 E2 E3 E4 E5] Hb1 Hcur r'. simpl in *.
  assert (Hsur : surfaces r' = <[s := st']> (surfaces r0))
    by (unfold r'; simpl; by rewrite E1, insert_delete_eq).
  assert (Hold : ∀ x x', surfaces r' !! x = Some x' → ∃ y,
    surfaces r0 !! x = Some y ∧ SurfaceState.id x' = SurfaceState.id y).
  { intros x x'. rewrite Hsur. intros [[<- <-]|[_ Hx]]%lookup_insert_Some; by eexists. }
  assert (Hdom : ∀ x, is_Some (surfaces r0 !! x) → is_Some (surfaces r' !! x))
    by (intros x Hx; rewrite Hsur, lookup_insert_is_Some'; by right).
  split; [|by split]. split; [|split].
  - apply surface_in; [done|by rewrite E1, lookup_delete_eq| |done].
    rewrite E1, map_size_delete_Some by (by eexists).
    assert (size (surfaces r0) ≠ 0)%nat by (apply map_size_ne_0_lookup; by exists s).
    pose proof (bal_room _ _ Hb). lia.
  - split; [| |unfold r'; simpl; by rewrite E4].
    + intros x x' Hx. destruct (Hold x x' Hx) as (y&Hy&->). unfold r'. simpl. rewrite E4.
      by apply (Hr x).
    + intros x y x' y' Hx Hy Heq. destruct (Hold x x' Hx) as (z&Hz&Ez).
      destruct (Hold y y' Hy) as (z'&Hz'&Ez'). apply (Hi x y z z'); congruence.
  - split; unfold r' at 1; simpl; rewrite ?E2, ?E3.
    + intros root l Hl. destruct (Hm root l Hl) as [Hnd Hin]. split; [done|].
      intros x Hx. by apply Hdom, Hin.
    + intros x root Hx. by eapply Hdom, Hro.
Qed.

Lemma update_surface_spec (r : registry) s snapshot :
  registry_ok r →
  let '(r', u) := update_surface s snapshot r in
  step r r' (SurfaceUpdate.released_buffers u) ∧
  view_members r' = view_members r ∧ surface_roots r' = surface_roots r ∧
  match surfaces r !! s with
  | None => r' = r ∧ u = SurfaceUpdate.dflt
  | Some st =>
      let next := next_attachment r st snapshot in
      let changed := SurfaceUpdate.changed u in
      let st' := committed st snapshot
        (if changed then next else SurfaceState.current st)
        (if changed then ContentRevision.next (SurfaceState.revision st)
         else SurfaceState.revision st) in
      surfaces r' = <[s := st']> (surfaces r) ∧
      SurfaceUpdate.content u = content_of r' st' ∧
      changed = commit_changed st next snapshot (Z.max (SurfaceCommit.buffer_scale snapshot) 1) ∧
      (changed = false → SurfaceUpdate.released_buffers u = [] ∧ buffers r' = buffers r)
  end.
Proof.
  intros Hok. pose proof Hok as (Hb&_&_). unfold update_surface.
  destruct (surfaces r !! s) as [st|] eqn:Es.
  2: { split; [by apply step_refl|done]. }
  set (r0 := set_surfaces (delete s (surfaces r)) r).
  pose proof (surface_out r s st Hb Es) as Hb0. fold r0 in Hb0.
  change (next_attachment r0 st snapshot) with (next_attachment r st snapshot).
  set (next := next_attachment r st snapshot).
  set (scale := Z.max (SurfaceCommit.buffer_scale snapshot) 1).
  assert (Hcur : ∀ a, SurfaceState.current st = Some a → ∃ b,
    buffers r0 !! AttachedBuffer.object a = Some b ∧ BufferState.id b = AttachedBuffer.id a)
    by (intros a; by apply (bal_current _ _ Hb s)).
  assert (Hknown : ∀ a, next = Some a → ∃ b,
    buffers r0 !! AttachedBuffer.object a = Some b ∧ BufferState.id b = AttachedBuffer.id a)
    by (intros a; apply (next_attachment_known r)).
  pose proof (unchanged_object _ r0 st snapshot scale Hb0 Hcur) as Hunch.
  change (next_attachment r0 st snapshot) with next in Hunch.
  destruct (bool_decide (current_object st = AttachedBuffer.object <$> next)) eqn:Emoved; simpl negb.
  - apply bool_decide_eq_true in Emoved. cbn iota.
    set (ch := commit_changed st next snapshot scale) in *.
    set (st' := SurfaceState.mk K C _ _ _ _ _ _ _ _ _ _).
    destruct (recommit_spec r r0 s st st' Hok Es eq_refl) as (Hok'&Hs'&Hn').
    + apply untouched_refl.
    + unfold st', current_object. simpl. destruct ch; [by rewrite <- Emoved|done].
    + intros a. unfold st'. simpl. destruct ch; [apply Hknown|apply Hcur].
    + split; [split; [done|by unfold settles, live_ids|done]|]. split; [done|]. split; [done|].
      split; [done|]. split; [done|]. by split.
  - apply bool_decide_eq_false in Emoved.
    pose proof (reattach_spec r0 _ (AttachedBuffer.object <$> next) Hb0) as Hre.
    destruct (reattach (current_object st) (AttachedBuffer.object <$> next) r0) as [r1 released].
    destruct Hre as (Hb1&Hset&Hun&Hinc); [|done|].
    { intros o Ho. destruct next as [a|]; [|done]. injection Ho as <-.
      destruct (Hknown a eq_refl) as (b&Hbb&_). by eexists. }
    destruct (commit_changed st next snapshot scale) eqn:Ech; [|by destruct Emoved; apply Hunch].
    set (st' := SurfaceState.mk K C _ _ _ _ _ _ _ _ _ _).
    destruct (recommit_spec r r1 s st st' Hok Es eq_refl Hun Hb1) as (Hok'&Hs'&Hn').
    + intros a Ha. unfold st' in Ha. simpl in Ha. destruct (Hknown a Ha) as (b&Hbb&Hbid).
      exists (increment b). split; [|done]. apply (Hinc (AttachedBuffer.object a) b); [by rewrite Ha|done].
    + destruct Hun as [_ U2 U3 _ _]. split; [split; [done|exact Hset|done]|].
      split; [done|]. split; [done|]. split; [done|]. by split.
Qed.

(** ** Trees *)

(** Removing a surface that was registered a moment ago undoes nothing else. *)
Lemma remove_fresh_spec (r0 r : registry) s id :
  registry_ok r → rooted r0 → surfaces r0 !! s = None →
  surfaces r !! s = Some (SurfaceState.registered id) →
  view_members r = view_members r0 → surface_roots r = surface_roots r0 →
  let '(r', released) := remove_surface s r in
  registry_ok r' ∧ released = [] ∧ surfaces r' = delete s (surfaces r) ∧
  view_members r' = view_members r0 ∧ surface_roots r' = surface_roots r0 ∧
  buffers r' = buffers r ∧ next_buffer_id r' = next_buffer_id r.
Proof.
  intros Hok [Hm Hro] Hs0 Hs Em Er. pose proof (remove_surface_spec r s Hok) as Hrm.
  unfold remove_surface in *. rewrite Hs in *. simpl in *.
  destruct Hrm as ([Hok' _ _]&_&_&_). split; [done|]. split; [done|]. split; [done|].
  split; [|split; [|done]].
  - rewrite Em. apply map_eq. intros root. rewrite lookup_fmap.
    destruct (view_members r0 !! root) as [l|] eqn:El; [|done]. simpl. f_equal.
    apply filter_all, Forall_forall. intros x Hx ->. destruct (Hm root l El) as [_ Hin].
    destruct (Hin s Hx) as [st Hst]. congruence.
  - rewrite Er. apply delete_id. destruct (surface_roots r0 !! s) as [root|] eqn:Eroot; [|done].
    destruct (Hro s root Eroot) as [st Hst]. congruence.
Qed.

(** The registry while the members of a tree are being registered. *)
Record extends (r0 : registry) (newly : list K) (r : registry) : Prop := {
  ext_ok : registry_ok r;
  ext_old : ∀ x, x ∉ newly → surfaces r !! x = surfaces r0 !! x;
  ext_new : ∀ x, x ∈ newly → surfaces r0 !! x = None ∧
    ∃ id, surfaces r !! x = Some (SurfaceState.registered id);
  ext_nodup : NoDup newly;
  ext_members : view_members r = view_members r0;
  ext_roots : surface_roots r = surface_roots r0;
  ext_buffers : buffers r = buffers r0;
  ext_next : next_buffer_id r = next_buffer_id r0 }.

Lemma rollback_spec r0 newly r :
  rooted r0 → extends r0 newly r →
  let r' := remove_surfaces newly r in
  registry_ok r' ∧ surfaces r' = surfaces r0 ∧ view_members r' = view_members r0 ∧
  surface_roots r' = surface_roots r0 ∧ buffers r' = buffers r0 ∧
  next_buffer_id r' = next_buffer_id r0.
Proof.
  intros Hro. revert r. induction newly as [|s newly IH]; intros r [Hok Hold Hnew Hnd Em Er Eb En].
  - simpl. split; [done|]. split; [|done]. apply map_eq. intros x. apply Hold. apply not_elem_of_nil.
  - apply NoDup_cons in Hnd as [Hs Hnd]. destruct (Hnew s) as [Hs0 [id Hid]]; [by left|].
    pose proof (remove_fresh_spec r0 r s id Hok Hro Hs0 Hid Em Er) as Hrm.
    unfold remove_surfaces. simpl. destruct (remove_surface s r) as [r1 released]. simpl.
    destruct Hrm as (Hok1&_&Es1&Em1&Er1&Eb1&En1). apply IH. split; [done| | |done|done|done|congruence|congruence].
    + intros x Hx. rewrite Es1. destruct (decide (x = s)) as [->|Hne].
      * by rewrite lookup_delete_eq.
      * rewrite lookup_delete_ne by done. apply Hold. by apply not_elem_of_cons.
    + intros x Hx. rewrite Es1. rewrite lookup_delete_ne by (by intros ->). apply Hnew. by right.
Qed.

Lemma register_members_spec r0 members newly r :
  rooted r0 → extends r0 newly r →
  let '(r', res) := register_members members newly r in
  match res with
  | Some newly' => extends r0 newly' r' ∧
      (∀ x, x ∈ members → is_Some (surfaces r' !! x)) ∧
      ∀ x, is_Some (surfaces r !! x) → is_Some (surfaces r' !! x)
  | None => registry_ok r' ∧ surfaces r' = surfaces r0 ∧ view_members r' = view_members r0 ∧
      surface_roots r' = surface_roots r0 ∧ buffers r' = buffers r0 ∧
      next_buffer_id r' = next_buffer_id r0
  end.
Proof.
  intros Hro. revert newly r. induction members as [|s members IH]; intros newly r Hext; simpl.
  { split; [done|]. split; [by intros x ?%elem_of_nil|done]. }
  destruct (surfaces r !! s) as [st|] eqn:Es.
  - specialize (IH newly r Hext). destruct (register_members members newly r) as [r' [n|]]; [|done].
    destruct IH as (?&Hin&Hmono). split; [done|]. split; [|done].
    intros x [->|Hx]%elem_of_cons; [apply Hmono; by eexists|by apply Hin].
  - pose proof Hext as [Hok Hold Hnew Hnd Em Er Eb En].
    pose proof (register_surface_spec r s Hok) as Hreg.
    assert (Hstate : ∀ r1 id, register_surface s r = (r1, Some id) →
      surfaces r1 !! s = Some (SurfaceState.registered id)).
    { intros r1 id. unfold register_surface. rewrite Es. unfold allocate_surface_id.
      destruct (U64.checked_succ _); [|done]. intros [= <- <-]. simpl. apply lookup_insert_eq. }
    destruct (register_surface s r) as [r1 [id|]]; simpl in *.
    + destruct Hreg as ([Hok1 _ En1]&Em1&Er1&Eb1&Hs1&Hother).
      assert (Hsn : s ∉ newly) by (intros Hs; destruct (Hnew s Hs) as [_ [? ?]]; congruence).
      specialize (IH (newly ++ [s]) r1). destruct (register_members members _ r1) as [r' res].
      assert (Hext1 : extends r0 (newly ++ [s]) r1).
      { split; [done| | | |congruence|congruence|congruence|congruence].
        - intros x [Hx Hxs%not_elem_of_cons]%not_elem_of_app. rewrite Hother by tauto. by apply Hold.
        - intros x [Hx| ->%list_elem_of_singleton]%elem_of_app.
          + destruct (Hnew x Hx) as [H0 [i Hi]]. split; [done|]. exists i.
            rewrite Hother; [done|]. by intros ->.
          + split; [rewrite <- Hold; done|]. exists id. by apply Hstate.
        - apply NoDup_app. split; [done|]. split; [|apply NoDup_singleton].
          by intros x Hx ->%list_elem_of_singleton. }
      specialize (IH Hext1). destruct res as [n|]; [|done]. destruct IH as (?&Hin&Hmono).
      split; [done|]. split.
      * intros x [->|Hx]%elem_of_cons; [by apply Hmono|by apply Hin].
      * intros x Hx. apply Hmono. destruct (decide (x = s)) as [->|Hne]; [done|].
        by rewrite Hother.
    + destruct Hreg as (_&_&_&_&->&_). by apply rollback_spec.
Qed.

Lemma set_members_step (r : registry) m :
  registry_ok r →
  (∀ root l, m !! root = Some l → NoDup l ∧ ∀ s, s ∈ l → is_Some (surfaces r !! s)) →
  step r (set_members m r) [].
Proof.
  intros (Hb&Hn&[_ Hro]) Hm. split; [|by unfold settles, live_ids|done].
  split; [by apply (balanced_frame None r)|]. split; [|by split].
  by apply (named_frame r).
Qed.

Lemma set_roots_step (r : registry) m :
  registry_ok r → (∀ s root, m !! s = Some root → is_Some (surfaces r !! s)) →
  step r (set_roots m r) [].
Proof.
  intros (Hb&Hn&[Hm _]) Hro. split; [|by unfold settles, live_ids|done].
  split; [by apply (balanced_frame None r)|]. split; [|by split].
  by apply (named_frame r).
Qed.

(** The surfaces that left a tree are removed, the others stay. *)
Lemma drop_members_spec current previous (r : registry) removed released :
  registry_ok r →
  let '(r', (_, released')) := drop_members current previous (r, (removed, released)) in
  ∃ more, released' = released ++ more ∧ step r r' more ∧
    ∀ x, x ∈ current → surfaces r' !! x = surfaces r !! x.
Proof.
  revert r removed released. induction previous as [|s previous IH]; intros r removed released Hok.
  { simpl. exists []. rewrite app_nil_r. split; [done|]. split; [by apply step_refl|done]. }
  change (drop_members current (s :: previous) (r, (removed, released))) with
    (drop_members current previous (drop_member current s (r, (removed, released)))).
  unfold drop_member. destruct (decide (s ∈ current)) as [Hs|Hs]; [by apply IH|].
  pose proof (remove_surface_spec r s Hok) as Hrm.
  destruct (remove_surface s r) as [r1 more]. destruct Hrm as (Hstep&Es&_&_).
  set (removed1 := match surface_id s r with Some _ => _ | None => _ end).
  specialize (IH r1 removed1 (released ++ more) (step_ok _ _ _ Hstep)).
  destruct (drop_members current previous _) as [r' [removed' released']].
  destruct IH as (more'&->&Hstep'&Hkeep). exists (more ++ more').
  rewrite app_assoc. split; [done|]. split; [by eapply step_trans|].
  intros x Hx. rewrite (Hkeep x Hx), Es, lookup_delete_ne; [done|]. by intros ->.
Qed.

Lemma apply_commits_spec commits (r : registry) (u : SurfaceTreeUpdate.t) :
  registry_ok r →
  let '(r', u') := foldl apply_commit (r, u) commits in
  ∃ more, SurfaceTreeUpdate.released_buffers u' = SurfaceTreeUpdate.released_buffers u ++ more ∧
    step r r' more.
Proof.
  revert r u. induction commits as [|[s snapshot] commits IH]; intros r u Hok; simpl.
  { exists []. rewrite app_nil_r. split; [done|by apply step_refl]. }
  pose proof (update_surface_spec r s snapshot Hok) as Hup.
  destruct (update_surface s snapshot r) as [r1 su]. destruct Hup as (Hstep&_).
  set (u1 := SurfaceTreeUpdate.mk _ _ _ _).
  specialize (IH r1 u1 (step_ok _ _ _ Hstep)).
  destruct (foldl apply_commit (r1, u1) commits) as [r' u'].
  destruct IH as (more&Hmore&Hstep'). exists (SurfaceUpdate.released_buffers su ++ more).
  rewrite Hmore. unfold u1. simpl. rewrite app_assoc. split; [done|by eapply step_trans].
Qed.

Lemma first_commits_nodup seen (commits : list (K * SurfaceCommit.t K C)) :
  NoDup (first_commits seen commits).*1 ∧
  ∀ s, s ∈ (first_commits seen commits).*1 → s ∉ seen.
Proof.
  revert seen. induction commits as [|[s snapshot] commits IH]; intros seen; simpl.
  { split; [constructor|by intros s ?%elem_of_nil]. }
  case_decide as Hs; [apply IH|]. destruct (IH ({[s]} ∪ seen)) as [Hnd Hin]. simpl. split.
  - apply NoDup_cons. split; [|done]. intros Hx. apply (Hin s Hx). set_solver.
  - intros x [->|Hx]%elem_of_cons; [done|]. specialize (Hin x Hx). set_solver.
Qed.

Lemma fold_roots (m : gmap K K) root members s x :
  foldl (λ m surface, <[surface := root]> m) m members !! s = Some x →
  m !! s = Some x ∨ s ∈ members.
Proof.
  revert m. induction members as [|k members IH]; intros m; simpl; [by left|].
  intros [Hm|Hs]%IH; [|by right; right].
  apply lookup_insert_Some in Hm as [[<- _]|[_ Hm]]; [by right; left|by left].
Qed.

Lemma update_view_tree_spec root commits (r : registry) :
  registry_ok r →
  let '(r', res) := update_view_tree root commits r in
  match res with
  | Some u => step r r' (SurfaceTreeUpdate.released_buffers u)
  | None => step r r' [] ∧ surfaces r' = surfaces r ∧ view_members r' = view_members r ∧
      surface_roots r' = surface_roots r ∧ buffers r' = buffers r
  end.
Proof.
  intros Hok. pose proof Hok as (Hb&Hn&Hro). unfold update_view_tree.
  set (cs := first_commits ∅ commits). set (members := cs.*1).
  destruct (first_commits_nodup ∅ commits) as [Hnd _].
  assert (Hext : extends r [] r)
    by (split; [done|done|by intros x ?%elem_of_nil|constructor|done..]).
  pose proof (register_members_spec r members [] r Hro Hext) as Hreg.
  destruct (register_members members [] r) as [r1 [newly|]].
  2: { destruct Hreg as (Hok1&Es&Em&Er&Eb&En). split; [|done].
       split; [done|unfold settles, live_ids; by rewrite Eb|done]. }
  destruct Hreg as ([Hok1 _ _ _ Em1 Er1 Eb1 En1]&Hin&_).
  set (previous := default [] (view_members r1 !! root)).
  assert (H12 : step r1 (set_members (<[root := members]> (view_members r1)) r1) []).
  { apply set_members_step; [done|]. intros k l [[<- <-]|[_ Hl]]%lookup_insert_Some.
    - split; [exact Hnd|exact Hin].
    - destruct Hok1 as (_&_&[Hm1 _]). by apply (Hm1 k). }
  set (r2 := set_members _ r1) in *. cbv zeta.
  pose proof (drop_members_spec members previous r2 [] [] (step_ok _ _ _ H12)) as H23.
  destruct (drop_members members previous (r2, ([], []))) as [r3 [removed released]].
  destruct H23 as (more&->&H23&Hkeep). set (r4 := set_roots _ r3).
  assert (H34 : step r3 r4 []).
  { apply set_roots_step; [apply H23|]. intros s x [Hs|Hs]%fold_roots.
    - destruct (step_ok _ _ _ H23) as (_&_&[_ Hro3]). by eapply Hro3.
    - rewrite (Hkeep s Hs). apply Hin, Hs. }
  set (u0 := SurfaceTreeUpdate.mk _ _ _ _).
  pose proof (apply_commits_spec cs r4 u0 (step_ok _ _ _ H34)) as H45.
  destruct (foldl apply_commit (r4, u0) cs) as [r5 u]. destruct H45 as (more'&->&H45).
  assert (H01 : step r r1 []) by (split; [done|unfold settles, live_ids; by rewrite Eb1|done]).
  pose proof (step_trans _ _ _ _ _ (step_trans _ _ _ _ _ (step_trans _ _ _ _ _
    (step_trans _ _ _ _ _ H01 H12) H23) H34) H45) as H05.
  simpl in H05. by rewrite app_nil_r in H05.
Qed.

Lemma remove_view_tree_spec root (r : registry) :
  registry_ok r →
  let '(r', removal) := remove_view_tree root r in
  step r r' (SurfaceTreeRemoval.released_buffers removal).
Proof.
  intros Hok. unfold remove_view_tree. set (members := default _ _).
  assert (H01 : step r (set_members (delete root (view_members r)) r) []).
  { apply set_members_step; [done|]. intros k l [_ Hl]%lookup_delete_Some.
    destruct Hok as (_&_&[Hm _]). by apply (Hm k). }
  set (r1 := set_members _ r) in *. cbv zeta.
  pose proof (drop_members_spec [] (first_members ∅ members) r1 [] [] (step_ok _ _ _ H01)) as H12.
  destruct (drop_members _ _ _) as [r2 [removed released]]. destruct H12 as (more&->&H12&_).
  exact (step_trans _ _ _ _ _ H01 H12).
Qed.

(** ** Importing *)

Lemma unused_unknown (r : registry) p o :
  balanced p r → buffers r !! o = None → uses o (surfaces r) = 0%nat.
Proof.
  intros Hb Ho. unfold uses. apply map_size_empty_iff, map_empty. intros s.
  apply map_lookup_filter_None. right. intros st Hs Hcur. simpl in Hcur. unfold current_object in Hcur.
  destruct (SurfaceState.current st) as [a|] eqn:Ea; [|done]. injection Hcur as <-.
  destruct (bal_current _ _ Hb s st a Hs Ea) as (b&Hbb&_). congruence.
Qed.

Lemma register_buffer_ok (r : registry) o id size :
  registry_ok r → buffers r !! o = None → id ∉ live_ids r →
  registry_ok (set_buffers (<[o := BufferState.mk id size 0 false]> (buffers r)) r).
Proof.
  intros (Hb&[? ? ?]&[? ?]) Ho Hid. pose proof (unused_unknown r None o Hb Ho) as Hu.
  assert (Hlive : ∀ x b, buffers r !! x = Some b → BufferState.id b ∈ live_ids r).
  { intros x b Hx. unfold live_ids. apply list_elem_of_fmap_2, list_elem_of_fmap.
    exists (x, b). split; [done|]. by apply elem_of_map_to_list. }
  destruct Hb as [Hc Hp Hcur Hl Hids Hroom].
  split; [|split; split; done]. split; simpl.
  - intros x b [[<- <-]|[_ Hx]]%lookup_insert_Some; [simpl; rewrite Hu; lia|by apply Hc].
  - done.
  - intros s st a Hs Ha. destruct (Hcur s st a Hs Ha) as (b&Hb&Hbid). exists b.
    split; [|done]. rewrite lookup_insert_ne; [done|]. intros ->. congruence.
  - intros x b [[<- <-]|[_ Hx]]%lookup_insert_Some; [done|by apply (Hl x)].
  - intros x y b b' [[<- <-]|[_ Hx]]%lookup_insert_Some [[<- <-]|[_ Hy]]%lookup_insert_Some;
      simpl; intros Heq; [done| | |by apply (Hids x y b b')].
    + destruct Hid. rewrite Heq. by eapply Hlive.
    + destruct Hid. rewrite <- Heq. by eapply Hlive.
  - done.
Qed.

Lemma or_insert_lookup {A} (k : K) (v : A) m x y :
  or_insert k v m !! x = Some y → m !! x = Some y ∨ (x = k ∧ y = v).
Proof.
  unfold or_insert. destruct (m !! k); [by left|].
  intros [[<- <-]|[_ Hx]]%lookup_insert_Some; [by right|by left].
Qed.

Lemma register_view_root_spec (r : registry) root :
  registry_ok r → step r (register_view_root root r).1 [].
Proof.
  intros Hok. unfold register_view_root. pose proof (register_surface_spec r root Hok) as Hreg.
  destruct (register_surface root r) as [r1 [id|]]; [|apply Hreg].
  destruct Hreg as (H01&_&_&_&Hroot&_). pose proof (step_ok _ _ _ H01) as Hok1.
  set (r2 := set_members _ r1). assert (H12 : step r1 r2 []).
  { apply set_members_step; [done|]. intros k l [Hl|[-> ->]]%or_insert_lookup.
    - destruct Hok1 as (_&_&[Hm _]). by apply (Hm k).
    - split; [apply NoDup_singleton|]. by intros s ->%list_elem_of_singleton. }
  assert (H23 : step r2 (set_roots (or_insert root root (surface_roots r2)) r2) []).
  { apply set_roots_step; [apply H12|]. intros s x [Hs|[-> ->]]%or_insert_lookup; [|exact Hroot].
    destruct Hok1 as (_&_&[_ Hro]). by eapply Hro. }
  exact (step_trans _ _ _ _ _ (step_trans _ _ _ _ _ H01 H12) H23).
Qed.

(** ** Runs *)

Inductive RegistryOp :=
| RegisterSurface (s : K)
| RegisterViewRoot (s : K)
| ImportBuffer (o : K) (size : Size.t)
| UpdateSurface (s : K) (snapshot : SurfaceCommit.t K C)
| UpdateViewTree (root : K) (commits : list (K * SurfaceCommit.t K C))
| RemoveViewTree (root : K)
| RemoveSurface (s : K)
| BufferDestroyed (o : K).

(** A call, with the buffers it imports and releases. Importing allocates an
    identifier first, as the renderer import needs it. *)
Definition exec (op : RegistryOp) (r : registry) : registry * (list Z * list Z) :=
  match op with
  | RegisterSurface s => ((register_surface s r).1, ([], []))
  | RegisterViewRoot s => ((register_view_root s r).1, ([], []))
  | ImportBuffer o size =>
      match allocate_buffer_id_for_import r with
      | (r, None) => (r, ([], []))
      | (r, Some id) =>
          let known := bool_decide (is_Some (buffers r !! o)) in
          ((register_imported_buffer o id size r).1, (if known then [] else [id], []))
      end
  | UpdateSurface s snapshot =>
      let '(r, u) := update_surface s snapshot r in (r, ([], SurfaceUpdate.released_buffers u))
  | UpdateViewTree root commits =>
      match update_view_tree root commits r with
      | (r, Some u) => (r, ([], SurfaceTreeUpdate.released_buffers u))
      | (r, None) => (r, ([], []))
      end
  | RemoveViewTree root =>
      let '(r, removal) := remove_view_tree root r in
      (r, ([], SurfaceTreeRemoval.released_buffers removal))
  | RemoveSurface s => let '(r, released) := remove_surface s r in (r, ([], released))
  | BufferDestroyed o => let '(r, released) := buffer_destroyed o r in (r, ([], released))
  end.

Definition run_op (acc : registry * (list Z * list Z)) (op : RegistryOp) :
    registry * (list Z * list Z) :=
  let '(r, (imported, released)) := acc in
  let '(r, (imports, releases)) := exec op r in
  (r, (imported ++ imports, released ++ releases)).

Definition run (ops : list RegistryOp) : registry * (list Z * list Z) :=
  foldl run_op (dflt, ([], [])) ops.

(** The books of a run: every imported buffer is live or was released. *)
Record ledger (r : registry) (imported released : list Z) : Prop := {
  ledger_ok : registry_ok r;
  ledger_balance : imported ≡ₚ released ++ live_ids r;
  ledger_nodup : NoDup imported;
  ledger_old : ∀ id, id ∈ imported → id < next_buffer_id r }.

Lemma ledger_step r r' imported released more :
  ledger r imported released → step r r' more → ledger r' imported (released ++ more).
Proof.
  intros [Hok Hbal Hnd Hold] [Hok' Hset Hn]. split; [done| |done|by rewrite Hn].
  unfold settles in Hset. by rewrite Hbal, Hset, app_assoc.
Qed.

Lemma ledger_import r imported released o size :
  ledger r imported released →
  let '(r', (imports, releases)) := exec (ImportBuffer o size) r in
  ledger r' (imported ++ imports) (released ++ releases).
Proof.
  intros [Hok Hbal Hnd Hold]. simpl. unfold allocate_buffer_id_for_import, allocate_buffer_id.
  destruct (U64.checked_succ (next_buffer_id r)) as [next|] eqn:En.
  2: { rewrite !app_nil_r. by split. }
  unfold U64.checked_succ in En. case_match; [|done]. injection En as <-.
  set (r1 := mk _ _ _ _ _ _).
  assert (Hok1 : registry_ok r1).
  { destruct Hok as (Hb&[? ? ?]&[? ?]). split; [by apply (balanced_frame None r)|].
    split; split; done. }
  unfold register_imported_buffer. change (buffers r1) with (buffers r).
  destruct (buffers r !! o) as [b|] eqn:Eo.
  - rewrite (bool_decide_true (is_Some (Some b))) by (by eexists). cbn [fst]. rewrite !app_nil_r. split; [done|exact Hbal|done|].
    intros id Hid. simpl. specialize (Hold id Hid). lia.
  - rewrite (bool_decide_false (is_Some None)) by (by intros []). cbn [fst]. rewrite app_nil_r.
    assert (Hfresh : next_buffer_id r ∉ imported) by (intros Hin; specialize (Hold _ Hin); lia).
    assert (Hlive : next_buffer_id r ∉ live_ids r1).
    { intros Hin. apply Hfresh. rewrite Hbal. apply elem_of_app. right. exact Hin. }
    split.
    + by apply (register_buffer_ok r1).
    + pose proof (live_ids_insert r1 o (BufferState.mk (next_buffer_id r) size 0 false) Eo) as Hi.
      transitivity (released ++ next_buffer_id r :: live_ids r1).
      * rewrite Hbal, <- app_assoc, (Permutation_app_comm (live_ids r)). done.
      * f_equiv. symmetry. exact Hi.
    + apply NoDup_app. split; [done|]. split; [|apply NoDup_singleton].
      by intros x Hx ->%list_elem_of_singleton.
    + intros id [Hid| ->%list_elem_of_singleton]%elem_of_app; simpl; [|lia].
      specialize (Hold id Hid). lia.
Qed.

Lemma ledger_exec r imported released op :
  ledger r imported released →
  let '(r', (imports, releases)) := exec op r in
  ledger r' (imported ++ imports) (released ++ releases).
Proof.
  intros Hled. pose proof (ledger_ok _ _ _ Hled) as Hok.
  destruct op as [s|s|o size|s snapshot|root commits|root|s|o]; [| |by apply ledger_import|..];
    simpl.
  - rewrite app_nil_r. eapply ledger_step; [done|].
    pose proof (register_surface_spec r s Hok) as Hs.
    destruct (register_surface s r) as [r' id]. apply Hs.
  - rewrite app_nil_r. eapply ledger_step; [done|]. by apply register_view_root_spec.
  - pose proof (update_surface_spec r s snapshot Hok) as Hs.
    destruct (update_surface s snapshot r) as [r' u]. rewrite app_nil_r.
    eapply ledger_step; [done|apply Hs].
  - pose proof (update_view_tree_spec root commits r Hok) as Hs.
    destruct (update_view_tree root commits r) as [r' [u|]]; rewrite app_nil_r;
      (eapply ledger_step; [done|apply Hs]).
  - pose proof (remove_view_tree_spec root r Hok) as Hs.
    destruct (remove_view_tree root r) as [r' removal]. rewrite app_nil_r.
    eapply ledger_step; [done|apply Hs].
  - pose proof (remove_surface_spec r s Hok) as Hs.
    destruct (remove_surface s r) as [r' more]. rewrite app_nil_r.
    eapply ledger_step; [done|apply Hs].
  - pose proof (destroyed_spec r o (proj1 Hok)) as Hs.
    destruct (buffer_destroyed o r) as [r' more]. rewrite app_nil_r.
    destruct Hs as (Hb&Hset&[E1 E2 E3 E4 E5]). destruct Hok as (_&Hn&[Hm Hro]).
    eapply ledger_step; [done|]. split; [|done|done]. split; [done|]. split.
    + apply (named_frame r); [by rewrite E1|done|done].
    + split; rewrite ?E1, ?E2, ?E3; done.
Qed.

Lemma ledger_empty : ledger dflt [] [].
Proof.
  split.
  - split; [|split].
    + split; simpl.
      * intros o b. by rewrite lookup_empty.
      * done.
      * intros s st a. by rewrite lookup_empty.
      * intros o b. by rewrite lookup_empty.
      * intros o o' b b'. by rewrite lookup_empty.
      * rewrite map_size_empty. done.
    + split; simpl; [intros s st; by rewrite lookup_empty|intros s s' st st'; by rewrite lookup_empty|].
      split; [lia|vm_compute; congruence].
    + split; simpl; [intros root l; by rewrite lookup_empty|intros s root; by rewrite lookup_empty].
  - unfold live_ids. simpl. by rewrite map_to_list_empty.
  - constructor.
  - by intros id ?%elem_of_nil.
Qed.

Lemma ledger_fold ops r imported released :
  ledger r imported released →
  let '(r', (imported', released')) := foldl run_op (r, (imported, released)) ops in
  ledger r' imported' released'.
Proof.
  revert r imported released. induction ops as [|op ops IH]; intros r imported released Hled; [done|].
  simpl. pose proof (ledger_exec r imported released op Hled) as Hop.
  destruct (exec op r) as [r1 [imports releases]]. by apply IH.
Qed.

Lemma ledger_run ops : registry_ok (run ops).1.
Proof.
  pose proof (ledger_fold ops dflt [] [] ledger_empty) as Hrun. unfold run.
  destruct (foldl run_op _ ops) as [r [imported released]]. apply Hrun.
Qed.

(** C31: over any sequence of registry calls, every imported buffer is either
    still live or has been reported as released exactly once; the attachment
    count of a live buffer is exactly the number of surfaces that show it, so
    a destroyed buffer stays only while some surface still shows it, and
    surface trees list registered surfaces only. *)
Theorem buffers_released_once (ops : list RegistryOp) :
  let '(r, (imported, released)) := run ops in
  registry_ok r ∧ NoDup imported ∧ imported ≡ₚ released ++ live_ids r ∧
  ∀ o b, buffers r !! o = Some b →
    BufferState.attachments b = Z.of_nat (uses o (surfaces r)) ∧
    (BufferState.destroyed b = true →
       ∃ s st, surfaces r !! s = Some st ∧ current_object st = Some o).
Proof.
  pose proof (ledger_fold ops dflt [] [] ledger_empty) as Hrun. unfold run.
  destruct (foldl run_op _ ops) as [r [imported released]]. destruct Hrun as [Hok Hbal Hnd _].
  split; [done|]. split; [done|]. split; [done|]. destruct Hok as (Hb&_&_). intros o b Ho.
  pose proof (bal_counts _ _ Hb o b Ho) as Hcount. simpl in Hcount. rewrite Z.add_0_r in Hcount.
  split; [done|]. intros Hd. pose proof (bal_live _ _ Hb o b Ho Hd) as Hne.
  assert (Hu : uses o (surfaces r) ≠ 0%nat) by lia. unfold uses in Hu.
  apply map_size_ne_0_lookup_1 in Hu as (s&st&Hst). apply map_lookup_filter_Some in Hst as [Hs Hc].
  by exists s, st.
Qed.

(** ** Contents *)

(** Buffers keep their size, and none appears. *)
Definition same_sizes (r r' : registry) : Prop :=
  ∀ o b', buffers r' !! o = Some b' → ∃ b, buffers r !! o = Some b ∧
    BufferState.size b' = BufferState.size b ∧ BufferState.id b' = BufferState.id b.

Lemma same_sizes_trans r1 r2 r3 : same_sizes r1 r2 → same_sizes r2 r3 → same_sizes r1 r3.
Proof.
  intros H12 H23 o b3 Hb3. destruct (H23 o b3 Hb3) as (b2&Hb2&?&?).
  destruct (H12 o b2 Hb2) as (b1&?&?&?). exists b1. split_and!; congruence.
Qed.

Lemma alter_same_sizes (r : registry) f o :
  (∀ b, BufferState.size (f b) = BufferState.size b ∧ BufferState.id (f b) = BufferState.id b) →
  same_sizes r (set_buffers (alter f o (buffers r)) r).
Proof.
  intros Hf x b'. simpl. destruct (decide (x = o)) as [->|Hne].
  - rewrite lookup_alter_eq. destruct (buffers r !! o) as [b|]; [|done]. intros [= <-].
    exists b. by destruct (Hf b).
  - rewrite lookup_alter_ne by done. intros Hb. by exists b'.
Qed.

Lemma collect_same_sizes (r : registry) o : same_sizes r (collect_destroyed o r).1.
Proof.
  pose proof (collect_spec r o) as Hcol. destruct (collect_destroyed o r) as [r' id].
  destruct Hcol as (_&_&_&_&_&_&Hbuf). intros x b'. simpl. rewrite Hbuf.
  destruct (buffers r !! x) as [b|]; [|done]. case_decide; [case_match; [done|]|];
    intros [= <-]; by exists b.
Qed.

Lemma reattach_same_sizes (r : registry) old new : same_sizes r (reattach old new r).1.
Proof.
  unfold reattach.
  assert (H1 : same_sizes r (match old with Some o => detach_buffer o r | None => (r, []) end).1).
  { destruct old as [o|]; [|intros x b ?; by exists b]. unfold detach_buffer.
    set (r1 := set_buffers _ r). pose proof (collect_same_sizes r1 o) as Hc.
    apply same_sizes_trans with (r2 := r1); [by apply alter_same_sizes|].
    by destruct (collect_destroyed o r1) as [r2 [id|]]. }
  destruct (match old with Some o => _ | None => _ end) as [r1 released]. simpl in *.
  destruct new as [o|]; simpl; [|done]. eapply same_sizes_trans; [exact H1|].
  by apply alter_same_sizes.
Qed.

Lemma update_same_sizes (r : registry) s snapshot :
  same_sizes r (update_surface s snapshot r).1.
Proof.
  unfold update_surface. destruct (surfaces r !! s) as [st|]; [|intros x b ?; by exists b].
  set (r0 := set_surfaces _ r). set (next := next_attachment r0 st snapshot).
  destruct (negb _); [|intros x b ?; by exists b].
  pose proof (reattach_same_sizes r0 (current_object st) (AttachedBuffer.object <$> next)) as Hr.
  by destruct (reattach _ _ r0) as [r1 released].
Qed.

(** Contents of unaffected surfaces survive. *)
Lemma content_stable (r r' : registry) st :
  same_sizes r r' →
  (∀ a, SurfaceState.current st = Some a → is_Some (buffers r' !! AttachedBuffer.object a)) →
  content_of r' st = content_of r st.
Proof.
  intros Hs Hcur. unfold content_of. destruct (SurfaceState.current st) as [a|]; [|done].
  destruct (Hcur a eq_refl) as [b' Hb']. destruct (Hs _ _ Hb') as (b&Hb&E1&_). simpl.
  by rewrite Hb', Hb, E1.
Qed.

(** The fields that an unchanged commit leaves equal. *)
Lemma commit_unchanged (st : SurfaceState.t K C) next snapshot scale :
  commit_changed st next snapshot scale = false →
  SurfaceState.buffer_scale st = scale ∧
  SurfaceState.transform st = SurfaceCommit.transform snapshot ∧
  SurfaceState.source st = SurfaceCommit.source snapshot ∧
  SurfaceState.layer st = SurfaceCommit.layer snapshot ∧
  SurfaceState.alpha st = SurfaceCommit.alpha snapshot ∧
  SurfaceState.color st = SurfaceCommit.color snapshot ∧
  AttachedBuffer.id <$> SurfaceState.current st = AttachedBuffer.id <$> next.
Proof.
  unfold commit_changed. rewrite !orb_false_iff, !negb_false_iff, !bool_decide_eq_true, !Z.eqb_eq.
  tauto.
Qed.

Definition commit_size (snapshot : SurfaceCommit.t K C) (b : BufferState.t) : Size.t :=
  match SurfaceCommit.logical_size snapshot with
  | Some size =>
      if (0 <? Size.width size) && (0 <? Size.height size) then size else BufferState.size b
  | None => BufferState.size b
  end.

Lemma next_attachment_imported (r : registry) st snapshot o b :
  SurfaceCommit.buffer snapshot = Some o → buffers r !! o = Some b →
  BufferState.destroyed b = false →
  next_attachment r st snapshot = Some (AttachedBuffer.mk K o (BufferState.id b)
    (Rect.new (SurfaceCommit.local_offset snapshot).1 (SurfaceCommit.local_offset snapshot).2
       (Size.width (commit_size snapshot b)) (Size.height (commit_size snapshot b)))).
Proof. intros Eo Eb Ed. unfold next_attachment. rewrite Eo. simpl. by rewrite Eb; simpl; rewrite Ed. Qed.

(** a commit on a registered surface reports exactly what the surface
    shows afterwards and leaves every other surface as it was. A commit that
    changes nothing releases nothing and keeps the content with its revision;
    any other one advances the revision and shows the committed attributes
    and buffer: an imported buffer at the committed offset with the committed
    logical size, or the buffer's own size when none is given, and nothing
    when the commit has no buffer. *)
Theorem update_surface_reports_content (r : registry) s snapshot st :
  registry_ok r → surfaces r !! s = Some st →
  let '(r', u) := update_surface s snapshot r in
  registry_ok r' ∧ current_content s r' = SurfaceUpdate.content u ∧
  (∀ x, x ≠ s → current_content x r' = current_content x r) ∧
  (SurfaceUpdate.changed u = false →
     SurfaceUpdate.released_buffers u = [] ∧ current_content s r' = current_content s r) ∧
  (SurfaceUpdate.changed u = true →
     match SurfaceCommit.buffer snapshot with
     | None => SurfaceUpdate.content u = None
     | Some o => ∀ id size, imported_buffer o r = Some (id, size) → ∃ c,
         SurfaceUpdate.content u = Some c ∧
         SurfaceContent.surface_id c = SurfaceState.id st ∧ SurfaceContent.buffer_id c = id ∧
         SurfaceContent.revision c = ContentRevision.next (SurfaceState.revision st) ∧
         SurfaceContent.layer c = SurfaceCommit.layer snapshot ∧
         Rect.x (SurfaceContent.local_geometry c) = (SurfaceCommit.local_offset snapshot).1 ∧
         (∀ logical, SurfaceCommit.logical_size snapshot = Some logical →
            0 < Size.width logical → 0 < Size.height logical →
            Rect.size (SurfaceContent.local_geometry c) = logical) ∧
         (SurfaceCommit.logical_size snapshot = None →
            Rect.size (SurfaceContent.local_geometry c) = size)
     end).
Proof.
  intros Hok Hs. pose proof (update_surface_spec r s snapshot Hok) as Hup.
  pose proof (update_same_sizes r s snapshot) as Hsizes.
  destruct (update_surface s snapshot r) as [r' u]. simpl in Hsizes. rewrite Hs in Hup.
  destruct Hup as ([Hok' _ _]&_&_&Es&Ec&Ech&Hunch).
  assert (Hcc : current_content s r' = SurfaceUpdate.content u).
  { unfold current_content. by rewrite Es, lookup_insert_eq, Ec. }
  split; [done|]. split; [done|]. split; [|split].
  - intros x Hx. unfold current_content. rewrite Es, lookup_insert_ne by done.
    destruct (surfaces r !! x) as [sx|] eqn:Ex; [|done]. simpl. apply content_stable; [done|].
    intros a Ha. destruct (bal_current _ _ (proj1 Hok') x sx a) as (b&Hb&_); [|done|by eexists].
    by rewrite Es, lookup_insert_ne.
  - intros Hf. destruct (Hunch Hf) as [Hrel Hbuf]. split; [done|]. rewrite Hcc, Ec, Hf.
    unfold current_content. rewrite Hs. simpl. rewrite Hf in Ech. symmetry in Ech.
    apply commit_unchanged in Ech as (E1&E2&E3&E4&E5&E6&_).
    unfold content_of, committed. simpl. by rewrite Hbuf, <- E1, E2, E3, E4, E5, E6.
  - intros Ht. rewrite Ht in Ec. rewrite Ec. clear Ech Hunch.
    destruct (SurfaceCommit.buffer snapshot) as [o|] eqn:Eo.
    + intros id size Himp. unfold imported_buffer in Himp.
      destruct (buffers r !! o) as [b|] eqn:Eb; [|done].
      simpl in Himp. destruct (BufferState.destroyed b) eqn:Ed; [done|]. injection Himp as <- <-.
      rewrite (next_attachment_imported r st snapshot o b Eo Eb Ed). eexists. split; [done|]. simpl.
      do 5 (split; [done|]). unfold commit_size. split.
      * intros [w h] ->. simpl. intros Hw Hh.
        by rewrite (proj2 (Z.ltb_lt 0 w) Hw), (proj2 (Z.ltb_lt 0 h) Hh).
      * intros ->. by destruct (BufferState.size b).
    + unfold next_attachment. by rewrite Eo.
Qed.

End registry.

(** ** A concrete run *)

Definition demo_commit (buffer : option nat) (serial : Z) : SurfaceCommit.t nat Z :=
  SurfaceCommit.mk nat Z buffer (Some (Size.new 80 60)) (0, 0) serial 1
    SurfaceTransform.Normal None SurfaceLayer.View SurfaceAlpha.OPAQUE SurfaceColorState.dflt.

Definition demo_ops : list (RegistryOp (K := nat) (C := Z)) :=
  [RegisterViewRoot 1%nat; ImportBuffer 10%nat (Size.new 160 120);
   UpdateSurface 1%nat (demo_commit (Some 10%nat) 1); ImportBuffer 11%nat (Size.new 160 120);
   BufferDestroyed 10%nat].

(** The destroyed buffer is released by the commit that replaces it. *)
Example destroyed_buffer_outlives_its_use :
  (run demo_ops).2 = ([1; 2], []) ∧
  (run (demo_ops ++ [UpdateSurface 1%nat (demo_commit (Some 11%nat) 2)])).2 = ([1; 2], [1]).
Proof. by vm_compute. Qed.

Lemma update_surface_reports_content_witness :
  let '(r', u) := update_surface 1%nat (demo_commit (Some 11%nat) 2) (run demo_ops).1 in
  current_content 1%nat r' = SurfaceUpdate.content u ∧
  SurfaceUpdate.released_buffers u = [1].
Proof.
  assert (Hrel : SurfaceUpdate.released_buffers (update_surface 1%nat
    (demo_commit (Some 11%nat) 2) (run demo_ops).1).2 = [1]) by (vm_compute; reflexivity).
  assert (Hst : ∃ st, surfaces (run demo_ops).1 !! 1%nat = Some st)
    by (eexists; vm_compute; reflexivity).
  pose proof (ledger_run demo_ops) as Hok. revert Hok Hst Hrel.
  generalize (run demo_ops).1. intros r Hok [st Es] Hrel.
  pose proof (update_surface_reports_content r 1%nat (demo_commit (Some 11%nat) 2) st Hok Es) as Hup.
  destruct (update_surface 1%nat _ r) as [r' u]. destruct Hup as (_&Hc&_). by split.
Defined.
