(* ===== verification/Sync.v ===== *)
(** * Explicit synchronisation points

    [SurfaceSyncRegistry] of [crates/tensor-protocol/src/sync.rs]: the acquire
    and release points of the buffer each surface shows. Points [P] are
    opaque; the theorems say that none is lost or handed out twice. *)

From S2P Require Import Prelude.

Module SurfaceSync.

Record t {P : Type} := mk { buffer : Z; acquire : option P; release : P }.

Arguments t : clear implicits.

End SurfaceSync.

Module SurfaceSyncRegistry.

Section sync.

Context {P : Type}.

#[local] Abbreviation sync := (SurfaceSync.t P).

(** The registry is its map of active attachments. *)
#[local] Abbreviation t := (gmap Z sync).

Definition dflt : t := ∅.

Definition replace (surface buffer : Z) (acquire release : P) (active : t) : t * option sync :=
  (<[surface := SurfaceSync.mk P buffer (Some acquire) release]> active, active !! surface).

Definition remove (surface : Z) (active : t) : t * option sync :=
  (delete surface active, active !! surface).

Definition reconcile_implicit (surface : Z) (current_buffer : option Z) (active : t) :
    t * option sync :=
  let same_buffer :=
    match active !! surface with
    | Some s => bool_decide (Some (SurfaceSync.buffer s) = current_buffer)
    | None => false
    end in
  if negb same_buffer then remove surface active else (active, None).

Definition pending_acquire (surface buffer : Z) (active : t) : option P :=
  match active !! surface with
  | Some s => if SurfaceSync.buffer s =? buffer then SurfaceSync.acquire s else None
  | None => None
  end.

Definition mark_acquire_imported (surface : Z) (active : t) : t * bool :=
  match active !! surface with
  | Some s =>
      (<[surface := SurfaceSync.mk P (SurfaceSync.buffer s) None (SurfaceSync.release s)]> active,
       bool_decide (is_Some (SurfaceSync.acquire s)))
  | None => (active, false)
  end.

Definition active_buffer (surface : Z) (active : t) : option Z :=
  SurfaceSync.buffer <$> active !! surface.

Definition len (active : t) : nat := size active.

Definition is_empty (active : t) : bool := (len active =? 0)%nat.

Inductive call :=
| Replace (surface buffer : Z) (acquire release : P)
| ReconcileImplicit (surface : Z) (current_buffer : option Z)
| MarkAcquireImported (surface : Z)
| Remove (surface : Z).

Inductive answer :=
| Retired (s : option sync)
| Imported (b : bool).

Definition step (active : t) (c : call) : t * answer :=
  match c with
  | Replace s b a r => let '(m, o) := replace s b a r active in (m, Retired o)
  | ReconcileImplicit s b => let '(m, o) := reconcile_implicit s b active in (m, Retired o)
  | MarkAcquireImported s => let '(m, b) := mark_acquire_imported s active in (m, Imported b)
  | Remove s => let '(m, o) := remove s active in (m, Retired o)
  end.

(** ** Conservation of release points *)

(** The release points of the active attachments. *)
Definition held (m : t) : list P := (λ e, SurfaceSync.release e.2) <$> map_to_list m.

(** The release point a call brings in and the one an answer gives back. *)
Definition brought (c : call) : list P := match c with Replace _ _ _ r => [r] | _ => [] end.

Definition returned (a : answer) : list P :=
  match a with Retired (Some s) => [SurfaceSync.release s] | _ => [] end.

Lemma held_insert m k s :
  held (<[k := s]> m) ≡ₚ SurfaceSync.release s :: held (delete k m).
Proof.
  unfold held. rewrite <- insert_delete_eq.
  by rewrite map_to_list_insert by apply lookup_delete_eq.
Qed.

Lemma held_delete m k :
  held m ≡ₚ returned (Retired (m !! k)) ++ held (delete k m).
Proof.
  destruct (m !! k) as [s|] eqn:Ek; simpl; [|by rewrite delete_id].
  rewrite <- (insert_id m k s Ek) at 1. apply held_insert.
Qed.

Lemma step_held m c :
  brought c ++ held m ≡ₚ returned (step m c).2 ++ held (step m c).1.
Proof.
  destruct c as [s b a r|s b|s|s]; simpl.
  - rewrite held_insert. simpl. rewrite (held_delete m s) at 1.
    by rewrite Permutation_middle.
  - unfold reconcile_implicit. destruct (negb _); [apply held_delete|done].
  - unfold mark_acquire_imported. destruct (m !! s) as [x|] eqn:Es; [|done]. simpl.
    rewrite held_insert, (held_delete m s), Es. done.
  - apply held_delete.
Qed.

End sync.

Arguments call : clear implicits.
Arguments answer : clear implicits.

(** C40: Release points are conserved: over any sequence of calls the points
    that were registered are exactly those that were handed back plus those
    still held for an active attachment, so none is lost and none is
    signalled twice. *)
Theorem release_points_conserved {P : Type} (cs : list (call P)) :
  let run := run_calls step dflt cs in
  concat (brought <$> cs) ≡ₚ concat (returned <$> run.2) ++ held run.1.
Proof.
  simpl.
  assert (Hgen : ∀ m : gmap Z (SurfaceSync.t P),
    concat (brought <$> cs) ++ held m ≡ₚ
    concat (returned <$> (run_calls step m cs).2) ++ held (run_calls step m cs).1).
  { induction cs as [|c cs IH]; intros m; [done|]. rewrite run_calls_cons, !fmap_cons. simpl.
    rewrite <- !(assoc_L (++)), <- IH.
    rewrite (Permutation_app_comm (concat _) (held m)), (assoc_L (++)), step_held.
    rewrite <- (assoc_L (++)). by rewrite (Permutation_app_comm (held _) (concat _)). }
  specialize (Hgen dflt). unfold dflt, held at 1 in Hgen.
  by rewrite map_to_list_empty, app_nil_r in Hgen.
Qed.

(** An acquire point waits until the renderer imported it, and is consumed
    once. *)
Lemma acquire_consumed_once {P : Type} (m : gmap Z (SurfaceSync.t P)) s b a r :
  let m1 := (replace s b a r m).1 in
  pending_acquire s b m1 = Some a ∧
  (mark_acquire_imported s m1).2 = true ∧
  pending_acquire s b (mark_acquire_imported s m1).1 = None ∧
  (mark_acquire_imported s (mark_acquire_imported s m1).1).2 = false.
Proof.
  unfold pending_acquire, mark_acquire_imported, replace. simpl.
  rewrite !lookup_insert_eq. simpl. rewrite !lookup_insert_eq. simpl. rewrite Z.eqb_refl.
  by split_and!.
Qed.

End SurfaceSyncRegistry.
