(* ===== verification/Ring.v ===== *)
(** * Ring buffers

    Both queues of the event path ([PresentQueue] of [crates/tensor-present]
    and [PhaseRing] of [crates/tensor-event]) keep a fixed array of optional
    entries with a [head] index and a [len]. [holds buf head len l] says that
    the live window of such an array is the list [l]; the lemmas say what the
    array writes of the two queues do to that list. *)

From S2P Require Import Prelude.

Section ring.

Context {A : Type}.

Implicit Types (buf : list (option A)) (l : list A) (a : A).

(** The array index of the [k]-th live entry. *)
Definition slot (cap head k : nat) : nat := ((head + k) mod cap)%nat.

Record holds buf (head len : nat) l : Prop := {
  holds_head : (head < length buf)%nat;
  holds_fits : (len <= length buf)%nat;
  holds_len : length l = len;
  holds_at : ∀ k a, l !! k = Some a → buf !! slot (length buf) head k = Some (Some a) }.

Lemma slot_lt cap head k : (0 < cap)%nat → (slot cap head k < cap)%nat.
Proof. intros. unfold slot. apply Nat.mod_upper_bound. lia. Qed.

Lemma slot_0 cap head : (head < cap)%nat → slot cap head 0 = head.
Proof. intros. unfold slot. rewrite Nat.add_0_r. by apply Nat.mod_small. Qed.

(** Distinct live positions are distinct cells. *)
Lemma slot_inj cap head i j :
  (i < cap)%nat → (j < cap)%nat → slot cap head i = slot cap head j → i = j.
Proof.
  unfold slot. intros Hi Hj E.
  pose proof (Nat.div_mod_eq (head + i) cap). pose proof (Nat.div_mod_eq (head + j) cap).
  assert ((head + i) / cap = (head + j) / cap)%nat by nia. nia.
Qed.

Lemma slot_shift cap head k : (0 < cap)%nat → slot cap (slot cap head 1) k = slot cap head (S k).
Proof.
  intros. unfold slot. rewrite Nat.Div0.add_mod_idemp_l. f_equal. lia.
Qed.

Lemma holds_bound buf head len l k a :
  holds buf head len l → l !! k = Some a → (k < len)%nat.
Proof. intros [] Hk%lookup_lt_Some. lia. Qed.

Lemma holds_empty cap : (0 < cap)%nat → holds (replicate cap None) 0 0 [].
Proof. intros. split; rewrite ?length_replicate; simpl; [lia..|done]. Qed.

Lemma holds_nil buf head l : holds buf head 0 l → l = [].
Proof. intros []. by apply length_zero_iff_nil. Qed.

(** A write behind the live window appends. *)
Lemma holds_push buf head len l a :
  holds buf head len l → (len < length buf)%nat →
  holds (<[slot (length buf) head len := Some a]> buf) head (S len) (l ++ [a]).
Proof.
  intros [Hh Hf Hl Hat] Hlt. split; rewrite ?length_insert, ?length_app; simpl; [lia..|].
  intros k b Hk. pose proof (slot_lt (length buf) head len).
  destruct (decide (k = len)) as [->|Hne].
  - rewrite lookup_app_r in Hk by lia. rewrite Hl, Nat.sub_diag in Hk.
    injection Hk as ->. apply list_lookup_insert_eq. lia.
  - apply lookup_lt_Some in Hk as Hb. rewrite length_app in Hb. simpl in Hb.
    rewrite lookup_app_l in Hk by lia. rewrite list_lookup_insert_ne; [by apply Hat|].
    intros E. apply Hne. symmetry. apply (slot_inj (length buf) head); [lia..|done].
Qed.

(** Reading the head and clearing it removes the first entry. *)
Lemma holds_front buf head len a l :
  holds buf head len (a :: l) → buf !! head = Some (Some a).
Proof.
  intros [Hh Hf Hl Hat]. specialize (Hat 0%nat a eq_refl). by rewrite slot_0 in Hat.
Qed.

Lemma holds_pop buf head len a l :
  holds buf head (S len) (a :: l) →
  holds (<[head := None]> buf) (slot (length buf) head 1) len l.
Proof.
  intros [Hh Hf Hl Hat]. injection Hl as Hl.
  split; rewrite ?length_insert; [apply slot_lt; lia|lia|done|].
  intros k b Hk. apply lookup_lt_Some in Hk as Hb.
  rewrite slot_shift by lia. rewrite list_lookup_insert_ne; [by apply Hat|].
  intros E. rewrite <- (slot_0 (length buf) head Hh) in E at 1.
  apply slot_inj in E; lia.
Qed.

(** Overwriting a live cell replaces its entry in place. *)
Lemma holds_set buf head len l k a :
  holds buf head len l → (k < len)%nat →
  holds (<[slot (length buf) head k := Some a]> buf) head len (<[k := a]> l).
Proof.
  intros [Hh Hf Hl Hat] Hk. split; rewrite ?length_insert; [lia..|].
  intros j b Hj. pose proof (slot_lt (length buf) head k).
  destruct (decide (j = k)) as [->|Hne].
  - rewrite list_lookup_insert_eq in Hj by lia. injection Hj as ->.
    apply list_lookup_insert_eq. lia.
  - rewrite list_lookup_insert_ne in Hj by done. apply lookup_lt_Some in Hj as Hb.
    rewrite list_lookup_insert_ne; [by apply Hat|].
    intros E. apply Hne. symmetry. apply (slot_inj (length buf) head); [lia..|done].
Qed.

(** A fresh array that starts with the entries of [l]. *)
Lemma holds_fresh cap l :
  (0 < cap)%nat → (length l <= cap)%nat →
  holds ((Some <$> l) ++ replicate (cap - length l) None) 0 (length l) l.
Proof.
  intros Hc Hl.
  assert (Hlen : length ((Some <$> l) ++ replicate (cap - length l) (@None A)) = cap).
  { rewrite length_app, length_fmap, length_replicate. lia. }
  split; rewrite ?Hlen; [lia|lia|done|]. intros k a Hk.
  apply lookup_lt_Some in Hk as Hb. unfold slot. rewrite Nat.add_0_l, Nat.mod_small by lia.
  rewrite lookup_app_l by (rewrite length_fmap; lia). by rewrite list_lookup_fmap, Hk.
Qed.

End ring.
