(* ===== verification/Host.v ===== *)
(** * Host values: connectors, present intents, vblank batches

    The value types that [crates/tensor-host] shares between policy, the event
    bus and the DRM adapter: connector identities and their packing into bus
    identities, physical modes, present intents and the fixed batch of
    completed page flips. *)

From S2P Require Import Prelude.

(** [connector.rs]. The derived [Ord] compares the device first. *)
Module ConnectorId.

Record t := mk { device_id : Z; connector_id : Z }.

#[global] Instance t_eq_dec : EqDecision t.
Proof. solve_decision. Defined.

(** The ranges of [u64] and [u32]. *)
Definition ok (c : t) : Prop := U64.ok (device_id c) ∧ U32.ok (connector_id c).

(** [OutputId] of the event bus is a [u64]. *)
Definition as_output_id (c : t) : Z :=
  Z.lor (Z.shiftl (device_id c mod 2 ^ 32) 32) (connector_id c).

Definition from_output_id (raw : Z) : t :=
  mk (Z.shiftr raw 32) (raw mod 2 ^ 32).

Definition key (c : t) : Z * Z := (device_id c, connector_id c).

Lemma key_inj c d : key c = key d → c = d.
Proof. destruct c, d. unfold key. simpl. by intros [= -> ->]. Qed.

End ConnectorId.

Module ConnectorState.

Inductive t := Connected | Disconnected | Unknown.

#[global] Instance t_eq_dec : EqDecision t.
Proof. solve_decision. Defined.

Definition dflt : t := Unknown.

End ConnectorState.

(** [mode.rs]. *)
Module PhysicalMode.

Record t := mk { width : Z; height : Z; refresh_millihertz : Z }.

#[global] Instance t_eq_dec : EqDecision t.
Proof. solve_decision. Defined.

Definition size (m : t) : Z * Z := (width m, height m).

Definition is_usable (m : t) : bool :=
  (0 <? width m) && (0 <? height m) && (0 <? refresh_millihertz m).

End PhysicalMode.

(** [subpixel.rs]. *)
Module SubpixelLayout.

Inductive t := Unknown | None | HorizontalRgb | HorizontalBgr | VerticalRgb | VerticalBgr.

#[global] Instance t_eq_dec : EqDecision t.
Proof. solve_decision. Defined.

End SubpixelLayout.

(** [present.rs]. A [PresentSlot] is its index. *)
Module PresentState.

Inductive t := Idle | Queued | WaitingForVBlank | Presented | Faulted.

#[global] Instance t_eq_dec : EqDecision t.
Proof. solve_decision. Defined.

End PresentState.

Module PresentMode.

Inductive t := Vsync | Async.

#[global] Instance t_eq_dec : EqDecision t.
Proof. solve_decision. Defined.

End PresentMode.

Module PresentIntent.

Record t := mk {
  output : ConnectorId.t; slot : nat; serial : Z; timeline_value : Z;
  mode : PresentMode.t }.

#[global] Instance t_eq_dec : EqDecision t.
Proof. solve_decision. Defined.

Definition new (output : ConnectorId.t) (slot : nat) (serial timeline_value : Z) : t :=
  mk output slot serial timeline_value PresentMode.Vsync.

Definition with_mode (i : t) (mode : PresentMode.t) : t :=
  mk (output i) (slot i) (serial i) (timeline_value i) mode.

End PresentIntent.

(** [vblank.rs]. A [Duration] is its number of nanoseconds. *)
Module VblankClock.

Inductive t := Monotonic | Realtime.

End VblankClock.

Module VblankMetadata.

Record t := mk { timestamp : Z; sequence : Z; clock : VblankClock.t }.

End VblankMetadata.

Module VblankEvent.

Record t := mk { device_id : Z; crtc_id : Z; metadata : VblankMetadata.t }.

End VblankEvent.

Module VblankBatch.

Definition MAX_VBLANK_EVENTS_PER_READ : nat := 32.

Record t := mk { events : list (option VblankEvent.t); len : nat }.

Definition new : t := mk (replicate MAX_VBLANK_EVENTS_PER_READ None) 0.

Definition is_empty (b : t) : bool := Nat.eqb (len b) 0.

(** [get_mut] of an index behind the array gives back the event. *)
Definition push (event : VblankEvent.t) : Run t VblankEvent.t unit :=
  b ← get_state;
  match events b !! len b with
  | None => throw event
  | Some _ => modify (λ b, mk (<[len b := Some event]> (events b)) (S (len b)))
  end.

(** [event.take().expect(..)] on the cell the iterator is at. *)
Definition take_slot {E} (i : nat) : Run t E VblankEvent.t :=
  b ← get_state;
  event ← expect (mjoin (events b !! i));
  modify (λ b, mk (<[i := None]> (events b)) (len b));;
  mret event.

Fixpoint take_slots {E} (indices : list nat) : Run t E (list VblankEvent.t) :=
  match indices with
  | [] => mret []
  | i :: indices =>
      event ← take_slot i; rest ← take_slots indices; mret (event :: rest)
  end.

(** The drained iterator, from which the caller consumes [n] entries before
    it drops it. *)
Definition drain {E} (n : nat) : Run t E (list VblankEvent.t) :=
  b ← get_state;
  modify (λ b, mk (events b) 0);;
  take_slots (seq 0 (Nat.min n (len b))).

End VblankBatch.

(** ** Facts *)

(** A connector of a device whose identity fits 32 bits survives the packing;
    in general the high half of the device identity is lost. *)
Lemma from_as_output_id c :
  ConnectorId.ok c →
  ConnectorId.from_output_id (ConnectorId.as_output_id c) =
    ConnectorId.mk (ConnectorId.device_id c mod 2 ^ 32) (ConnectorId.connector_id c).
Proof.
  destruct c as [d c]. intros [Hd Hc]. simpl in *. ints.
  unfold ConnectorId.from_output_id, ConnectorId.as_output_id. simpl.
  change (2 ^ 32)%Z with 4294967296. set (x := d mod 4294967296).
  assert (Hx : 0 <= x < 4294967296) by (apply Z.mod_pos_bound; lia).
  assert (Hl : Z.lor (Z.shiftl x 32) c = x * 4294967296 + c).
  { pose proof (Z.add_lor_land (Z.shiftl x 32) c) as Hadd.
    rewrite !Z.shiftl_mul_pow2 in * by lia.
    assert (Z.land (x * 2 ^ 32) c = 0) as Hland; [|change (2 ^ 32) with 4294967296 in *; lia].
    apply Z.bits_inj'. intros n Hn. rewrite Z.land_spec, Z.bits_0.
    destruct (Z.ltb_spec n 32) as [Hlt|Hge].
    - by rewrite Z.mul_pow2_bits_low by lia.
    - rewrite (Z.bits_above_log2 c n); [by rewrite andb_false_r|lia|].
      destruct (Z.eq_dec c 0) as [->|]; [simpl; lia|].
      apply Z.log2_lt_pow2; [lia|]. apply Z.lt_le_trans with (2 ^ 32); [lia|].
      apply Z.pow_le_mono_r; lia. }
  rewrite Hl, Z.shiftr_div_pow2 by lia. change (2 ^ 32) with 4294967296.
  f_equal; div_lia.
Qed.

Lemma as_output_id_ok c : ConnectorId.ok c → U64.ok (ConnectorId.as_output_id c).
Proof.
  destruct c as [d c]. intros [_ Hc]. simpl in *. ints.
  unfold ConnectorId.as_output_id. simpl.
  assert (Hx : 0 <= d mod 2 ^ 32 < 2 ^ 32) by (apply Z.mod_pos_bound; lia).
  assert (Hn : 0 <= Z.lor (Z.shiftl (d mod 2 ^ 32) 32) c).
  { apply Z.lor_nonneg. split; [apply Z.shiftl_nonneg|]; lia. }
  split; [done|]. apply Z.lt_succ_r. change (Z.succ 18446744073709551615) with (2 ^ 64).
  apply Z.log2_lt_cancel. rewrite Z.log2_lor, Z.log2_pow2; [|lia|apply Z.shiftl_nonneg; lia|lia].
  apply Z.max_lub_lt.
  - destruct (Z.eq_dec (d mod 2 ^ 32) 0) as [->|]; [simpl; lia|].
    rewrite Z.log2_shiftl by lia.
    assert (Z.log2 (d mod 2 ^ 32) < 32) by (apply Z.log2_lt_pow2; lia). lia.
  - destruct (Z.eq_dec c 0) as [->|]; [simpl; lia|].
    assert (Z.log2 c < 32) by (apply Z.log2_lt_pow2; lia). lia.
Qed.
