(* ===== verification/Present.v ===== *)
(** * The present queue

    [crates/tensor-present]: the readiness table of the present slots of each
    output ([readiness.rs]) and the fixed ring of pending present intents
    ([schedule.rs]). A method with [&mut self] is a [Run] when it may fail;
    the queue reached before an error is kept. *)

From S2P Require Import Prelude Ring Host.

Module SlotReadiness.

Record t := mk { state : PresentState.t; serial : Z }.

#[global] Instance t_eq_dec : EqDecision t.
Proof. solve_decision. Defined.

Definition dflt : t := mk PresentState.Idle 0.

Definition with_state (s : PresentState.t) (r : t) : t := mk s (serial r).

End SlotReadiness.

Module OutputReadiness.

Definition SLOT_COUNT : nat := 3.

Record t := mk {
  output : ConnectorId.t; slots : list SlotReadiness.t; faulted : bool }.

#[global] Instance t_eq_dec : EqDecision t.
Proof. solve_decision. Defined.

Definition new (output : ConnectorId.t) : t :=
  mk output (replicate SLOT_COUNT SlotReadiness.dflt) false.

Definition slot (r : t) (i : nat) : option SlotReadiness.t := slots r !! i.

(** A write through [slot_mut]; nothing happens behind the array. *)
Definition slot_mut (r : t) (i : nat) (f : SlotReadiness.t → SlotReadiness.t) : t :=
  mk (output r) (alter f i (slots r)) (faulted r).

Definition ready_for (r : t) (i : nat) : bool :=
  if faulted r then false
  else match slot r i with
       | Some s => bool_decide (SlotReadiness.state s = PresentState.Idle) ||
                   bool_decide (SlotReadiness.state s = PresentState.Presented)
       | None => false
       end.

Definition mark_queued (r : t) (i : nat) (serial : Z) : t * bool :=
  if negb (ready_for r i) then (r, false)
  else match slot r i with
       | Some _ =>
           (slot_mut r i (λ _, SlotReadiness.mk PresentState.Queued serial), true)
       | None => (r, false)
       end.

Definition mark_waiting_vblank (r : t) (i : nat) : t :=
  slot_mut r i (λ s,
    if decide (SlotReadiness.state s = PresentState.Queued)
    then SlotReadiness.with_state PresentState.WaitingForVBlank s else s).

Definition mark_presented (r : t) (i : nat) : t :=
  slot_mut r i (SlotReadiness.with_state PresentState.Presented).

Definition mark_faulted (r : t) : t :=
  mk (output r) (SlotReadiness.with_state PresentState.Faulted <$> slots r) true.

Definition clear_fault (r : t) : t :=
  mk (output r) ((λ _, SlotReadiness.dflt) <$> slots r) false.

End OutputReadiness.

(** [Vec<OutputReadiness>] with the lookups by output of the queue. *)
Module ReadinessTable.

Abbreviation t := (list OutputReadiness.t).

Definition find (o : ConnectorId.t) (table : t) : option (nat * OutputReadiness.t) :=
  list_find (λ r, OutputReadiness.output r = o) table.

(** A use of the reference that [readiness_mut] returns. *)
Definition readiness_mut (o : ConnectorId.t)
    (f : OutputReadiness.t → OutputReadiness.t) (table : t) : t :=
  match find o table with
  | Some (i, r) => <[i := f r]> table
  | None => table
  end.

End ReadinessTable.

Module PresentQueue.

Inductive QueueError := Full | NotReady | UnknownOutput.

Module Stats.

Record t := mk { pushed : Z; dropped : Z; completed : Z }.

Definition dflt : t := mk 0 0 0.

(** [+= 1] on a [u64] in a release build. *)
Definition count_pushed (s : t) : t :=
  mk (U64.wrapping_succ (pushed s)) (dropped s) (completed s).

Definition count_dropped (s : t) : t :=
  mk (pushed s) (U64.wrapping_succ (dropped s)) (completed s).

Definition count_completed (s : t) : t :=
  mk (pushed s) (dropped s) (U64.wrapping_succ (completed s)).

End Stats.

Definition PRESENT_QUEUE_CAP : nat := 16.

Record t := mk {
  intents : list (option PresentIntent.t);
  head : nat;
  len : nat;
  readiness : ReadinessTable.t;
  stats : Stats.t }.

Definition with_readiness (r : ReadinessTable.t) (q : t) : t :=
  mk (intents q) (head q) (len q) r (stats q).

Definition with_stats (s : Stats.t) (q : t) : t :=
  mk (intents q) (head q) (len q) (readiness q) s.

Definition new : t := mk (replicate PRESENT_QUEUE_CAP None) 0 0 [] Stats.dflt.

Definition register_output (o : ConnectorId.t) (q : t) : t :=
  if existsb (λ r, bool_decide (OutputReadiness.output r = o)) (readiness q) then q
  else with_readiness (readiness q ++ [OutputReadiness.new o]) q.

(** The compaction loop of [unregister_output] over the remaining [n]
    entries; [kept] and its first free index [k] are the new array. *)
Fixpoint compact (o : ConnectorId.t) (n : nat) (buf : list (option PresentIntent.t))
    (head : nat) (kept : list (option PresentIntent.t)) (k : nat) :
    list (option PresentIntent.t) * nat :=
  match n with
  | O => (kept, k)
  | S n =>
      let head' := ((head + 1) mod PRESENT_QUEUE_CAP)%nat in
      match mjoin (buf !! head) with
      | Some intent =>
          let buf' := <[head := None]> buf in
          if decide (PresentIntent.output intent ≠ o)
          then compact o n buf' head' (<[k := Some intent]> kept) (S k)
          else compact o n buf' head' kept k
      | None => compact o n buf head' kept k
      end
  end.

Definition unregister_output (o : ConnectorId.t) (q : t) : t :=
  let '(kept, n) :=
    compact o (len q) (intents q) (head q) (replicate PRESENT_QUEUE_CAP None) 0 in
  mk kept 0 n (filter (λ r, OutputReadiness.output r ≠ o) (readiness q)) (stats q).

(** Find the output, then [mark_queued] on its slot. *)
Definition queue_slot (intent : PresentIntent.t) (table : ReadinessTable.t) :
    ReadinessTable.t * Outcome QueueError unit :=
  match ReadinessTable.find (PresentIntent.output intent) table with
  | None => (table, Err UnknownOutput)
  | Some (i, ready) =>
      let '(ready', marked) :=
        OutputReadiness.mark_queued ready (PresentIntent.slot intent)
          (PresentIntent.serial intent) in
      (<[i := ready']> table, if marked then Ok tt else Err NotReady)
  end.

(** The readiness part of the overflow branch: the slot is idle again. *)
Definition release_slot (intent : PresentIntent.t) (table : ReadinessTable.t) :
    ReadinessTable.t :=
  ReadinessTable.readiness_mut (PresentIntent.output intent)
    (λ r, OutputReadiness.slot_mut r (PresentIntent.slot intent)
            (SlotReadiness.with_state PresentState.Idle)) table.

Definition try_push (intent : PresentIntent.t) : Run t QueueError unit := λ q,
  let '(table, marked) := queue_slot intent (readiness q) in
  let q := with_readiness table q in
  match marked with
  | Ok _ =>
      if (PRESENT_QUEUE_CAP <=? len q)%nat then
        let q := with_stats (Stats.count_dropped (stats q)) q in
        (with_readiness (release_slot intent (readiness q)) q, Err Full)
      else
        let idx := ((head q + len q) mod PRESENT_QUEUE_CAP)%nat in
        (mk (<[idx := Some intent]> (intents q)) (head q) (S (len q)) (readiness q)
           (Stats.count_pushed (stats q)), Ok tt)
  | failed => (q, failed)
  end.

(** The loop of [try_pop], on [len]. *)
Fixpoint pop_loop (buf : list (option PresentIntent.t)) (head len : nat) :
    list (option PresentIntent.t) * nat * nat * option PresentIntent.t :=
  match len with
  | O => (buf, head, O, None)
  | S len =>
      let intent := mjoin (buf !! head) in
      let buf' := <[head := None]> buf in
      let head' := ((head + 1) mod PRESENT_QUEUE_CAP)%nat in
      match intent with
      | Some intent => (buf', head', len, Some intent)
      | None => pop_loop buf' head' len
      end
  end.

Definition try_pop (q : t) : t * option PresentIntent.t :=
  let '(buf, head, len, intent) := pop_loop (intents q) (head q) (len q) in
  let stats := match intent with
               | Some _ => Stats.count_completed (stats q)
               | None => stats q
               end in
  (mk buf head len (readiness q) stats, intent).

Definition is_empty (q : t) : bool := Nat.eqb (len q) 0.

(** A call of the compositor; [Touch] is any use of [readiness_mut]. *)
Inductive call :=
| Register (o : ConnectorId.t)
| Unregister (o : ConnectorId.t)
| Touch (o : ConnectorId.t) (f : OutputReadiness.t → OutputReadiness.t)
| Push (intent : PresentIntent.t)
| Pop
| Len.

Inductive answer :=
| Done
| Pushed (r : Outcome QueueError unit)
| Popped (i : option PresentIntent.t)
| Counted (n : nat).

Definition step (q : t) (c : call) : t * answer :=
  match c with
  | Register o => (register_output o q, Done)
  | Unregister o => (unregister_output o q, Done)
  | Touch o f => (with_readiness (ReadinessTable.readiness_mut o f (readiness q)) q, Done)
  | Push intent => let '(q, r) := try_push intent q in (q, Pushed r)
  | Pop => let '(q, i) := try_pop q in (q, Popped i)
  | Len => (q, Counted (len q))
  end.

End PresentQueue.

(** ** The contract: a bounded first-in first-out list *)

Module PresentFifo.

Import PresentQueue.

Record t := mk {
  pending : list PresentIntent.t; outputs : ReadinessTable.t; counts : Stats.t }.

Definition new : t := mk [] [] Stats.dflt.

Definition push (intent : PresentIntent.t) (s : t) : t * Outcome QueueError unit :=
  match queue_slot intent (outputs s) with
  | (table, Ok _) =>
      if (length (pending s) <? PRESENT_QUEUE_CAP)%nat
      then (mk (pending s ++ [intent]) table (Stats.count_pushed (counts s)), Ok tt)
      else (mk (pending s) (release_slot intent table) (Stats.count_dropped (counts s)),
            Err Full)
  | (table, failed) => (mk (pending s) table (counts s), failed)
  end.

Definition step (s : t) (c : call) : t * answer :=
  match c with
  | Register o =>
      (if decide (o ∈ (OutputReadiness.output <$> outputs s)) then s
       else mk (pending s) (outputs s ++ [OutputReadiness.new o]) (counts s), Done)
  | Unregister o =>
      (mk (filter (λ i, PresentIntent.output i ≠ o) (pending s))
          (filter (λ r, OutputReadiness.output r ≠ o) (outputs s)) (counts s), Done)
  | Touch o f =>
      (mk (pending s) (ReadinessTable.readiness_mut o f (outputs s)) (counts s), Done)
  | Push intent => let '(s, r) := push intent s in (s, Pushed r)
  | Pop =>
      match pending s with
      | [] => (s, Popped None)
      | i :: rest => (mk rest (outputs s) (Stats.count_completed (counts s)), Popped (Some i))
      end
  | Len => (s, Counted (length (pending s)))
  end.

End PresentFifo.
