(* ===== verification/PresentSpec.v ===== *)
(** * The present queue is a bounded first-in first-out list

    The ring of [PresentQueue] answers every sequence of calls as a plain list
    of at most sixteen intents does, and a rejected push changes neither the
    pending intents nor the readiness of any slot. *)

From S2P Require Import Prelude Ring Host Present.

Import PresentQueue.

(** ** The readiness table *)

Lemma find_spec o table :
  match ReadinessTable.find o table with
  | Some (i, r) => table !! i = Some r ∧ OutputReadiness.output r = o
  | None => o ∉ (OutputReadiness.output <$> table)
  end.
Proof.
  unfold ReadinessTable.find. destruct (list_find _ table) as [[i r]|] eqn:Ef.
  - apply list_find_Some in Ef as (?&?&_). done.
  - apply list_find_None in Ef. intros (r&->&Hr)%list_elem_of_fmap.
    by apply (Forall_forall _ _) with r in Ef.
Qed.

Lemma find_update o o' i r r' table :
  ReadinessTable.find o table = Some (i, r) → OutputReadiness.output r' = o →
  ReadinessTable.find o' (<[i := r']> table) =
    if decide (o' = o) then Some (i, r') else ReadinessTable.find o' table.
Proof.
  unfold ReadinessTable.find. intros Hf Hr'. apply list_find_Some in Hf as (Hi&Hr&Hfirst).
  revert i Hi Hfirst. induction table as [|x table IH]; intros [|i] Hi Hfirst; [done..| |].
  - injection Hi as ->. simpl. rewrite Hr', Hr. destruct (decide (o' = o)) as [->|].
    + by rewrite decide_True.
    + by rewrite !decide_False by congruence.
  - simpl in *. pose proof (Hfirst 0%nat x eq_refl ltac:(lia)) as Hx.
    specialize (IH i Hi ltac:(intros j y Hy Hj; apply (Hfirst (S j) y); [done|lia])).
    apply (f_equal (fmap (prod_map S id))) in IH.
    destruct (decide (OutputReadiness.output x = o')), (decide (o' = o));
      [congruence|done|exact IH..].
Qed.

(** Readiness of a slot of the table, as [present_slot_ready] reads it. *)
Definition slot_ready (table : ReadinessTable.t) (o : ConnectorId.t) (i : nat) : bool :=
  match ReadinessTable.find o table with
  | Some (_, r) => OutputReadiness.ready_for r i
  | None => false
  end.

Lemma mark_queued_result r i n :
  OutputReadiness.mark_queued r i n =
    (if OutputReadiness.ready_for r i
     then OutputReadiness.slot_mut r i (λ _, SlotReadiness.mk PresentState.Queued n) else r,
     OutputReadiness.ready_for r i).
Proof.
  unfold OutputReadiness.mark_queued.
  destruct (OutputReadiness.ready_for r i) eqn:Er; [|done]. simpl.
  unfold OutputReadiness.ready_for in Er. destruct (OutputReadiness.faulted r); [done|].
  by destruct (OutputReadiness.slot r i).
Qed.

Lemma ready_slot_mut r i j f :
  OutputReadiness.ready_for (OutputReadiness.slot_mut r i f) j =
    if decide (j = i)
    then match OutputReadiness.slot r i with
         | Some s => negb (OutputReadiness.faulted r) &&
             (bool_decide (SlotReadiness.state (f s) = PresentState.Idle) ||
              bool_decide (SlotReadiness.state (f s) = PresentState.Presented))
         | None => false
         end
    else OutputReadiness.ready_for r j.
Proof.
  unfold OutputReadiness.ready_for, OutputReadiness.slot, OutputReadiness.slot_mut. simpl.
  case_decide as Hd.
  - subst. rewrite list_lookup_alter_eq. destruct (OutputReadiness.slots r !! i); simpl;
      by destruct (OutputReadiness.faulted r).
  - by rewrite list_lookup_alter_ne by done.
Qed.

Lemma queue_slot_spec intent table :
  let o := PresentIntent.output intent in
  let '(table', res) := queue_slot intent table in
  match res with
  | Ok _ => slot_ready table o (PresentIntent.slot intent) = true ∧
      (∀ o' i, slot_ready table' o' i =
        if decide (o' = o ∧ i = PresentIntent.slot intent) then false
        else slot_ready table o' i) ∧
      (∀ o' i, slot_ready (release_slot intent table') o' i = slot_ready table o' i)
  | Err NotReady => table' = table ∧ o ∈ (OutputReadiness.output <$> table) ∧
      slot_ready table o (PresentIntent.slot intent) = false
  | Err UnknownOutput => table' = table ∧ o ∉ (OutputReadiness.output <$> table)
  | _ => False
  end.
Proof.
  unfold queue_slot, slot_ready. pose proof (find_spec (PresentIntent.output intent) table) as Hf.
  destruct (ReadinessTable.find _ table) as [[i r]|] eqn:Ef; [|done].
  destruct Hf as [Hi Hr]. rewrite mark_queued_result.
  destruct (OutputReadiness.ready_for r (PresentIntent.slot intent)) eqn:Erd; simpl.
  - split; [done|]. split.
    + intros o' j. rewrite (find_update _ _ _ _ _ _ Ef) by done.
      destruct (decide (o' = PresentIntent.output intent)) as [->|Ho].
      * rewrite ready_slot_mut, Ef. case_decide as Hj.
        -- subst. rewrite decide_True by done. destruct (OutputReadiness.slot _ _); [|done].
           simpl. by rewrite andb_false_r.
        -- by rewrite decide_False by tauto.
      * by rewrite decide_False by tauto.
    + intros o' j. unfold release_slot, ReadinessTable.readiness_mut.
      rewrite (find_update _ _ _ _ _ _ Ef), decide_True by done. cbn match beta.
      rewrite list_insert_insert_eq, (find_update _ _ _ _ _ _ Ef) by done.
      destruct (decide (o' = PresentIntent.output intent)) as [->|Ho]; [|done].
      rewrite Ef, !ready_slot_mut. case_decide as Hj; [|done]. subst j.
      unfold OutputReadiness.slot, OutputReadiness.slot_mut. simpl.
      rewrite list_lookup_alter_eq. unfold OutputReadiness.ready_for, OutputReadiness.slot in *.
      destruct (OutputReadiness.faulted r); [done|].
      by destruct (OutputReadiness.slots r !! PresentIntent.slot intent).
  - rewrite list_insert_id by done. split; [done|]. split; [|done].
    apply list_elem_of_fmap. exists r. split; [done|]. by eapply list_elem_of_lookup_2.
Qed.

(** ** The ring *)

(** The queue holds the list, under the same table and counters. *)
Record represents (q : t) (s : PresentFifo.t) : Prop := {
  rep_cap : length (intents q) = PRESENT_QUEUE_CAP;
  rep_ring : holds (intents q) (head q) (len q) (PresentFifo.pending s);
  rep_table : readiness q = PresentFifo.outputs s;
  rep_stats : stats q = PresentFifo.counts s }.

Lemma represents_len q s :
  represents q s → len q = length (PresentFifo.pending s) ∧ (len q <= PRESENT_QUEUE_CAP)%nat.
Proof. intros [Hc [] _ _]. rewrite Hc in *. by split. Qed.

Lemma represents_new : represents new PresentFifo.new.
Proof. split; try done. apply holds_empty. unfold PRESENT_QUEUE_CAP. lia. Qed.

Definition packed (l : list PresentIntent.t) : list (option PresentIntent.t) :=
  (Some <$> l) ++ replicate (PRESENT_QUEUE_CAP - length l) None.

Lemma packed_snoc l i :
  (length l < PRESENT_QUEUE_CAP)%nat →
  <[length l := Some i]> (packed l) = packed (l ++ [i]).
Proof.
  intros Hl. unfold packed. rewrite fmap_app, length_app, <- app_assoc. simpl.
  replace (PRESENT_QUEUE_CAP - length l)%nat
    with (S (PRESENT_QUEUE_CAP - (length l + 1)))%nat by lia.
  by rewrite insert_app_r_alt, length_fmap, Nat.sub_diag by (rewrite length_fmap; lia).
Qed.

(** The compaction loop keeps the entries of the other outputs in order. *)
Lemma compact_keeps o n buf head l kept :
  length buf = PRESENT_QUEUE_CAP → holds buf head n l →
  (length kept + n <= PRESENT_QUEUE_CAP)%nat →
  compact o n buf head (packed kept) (length kept) =
    (packed (kept ++ filter (λ i, PresentIntent.output i ≠ o) l),
     length (kept ++ filter (λ i, PresentIntent.output i ≠ o) l)).
Proof.
  revert buf head l kept. induction n as [|n IH]; intros buf head l kept Hc Hh Hk.
  - apply holds_nil in Hh as ->. simpl. by rewrite app_nil_r.
  - destruct l as [|i l]; [by destruct Hh|]. cbn [compact].
    rewrite (holds_front _ _ _ _ _ Hh). cbn [mjoin option_join].
    pose proof (holds_pop _ _ _ _ _ Hh) as Hp. unfold slot in Hp. rewrite Hc in Hp.
    assert (Hc' : length (<[head := None]> buf) = PRESENT_QUEUE_CAP) by by rewrite length_insert.
    rewrite filter_cons. case_decide as Hi.
    + rewrite packed_snoc by lia. replace (S (length kept)) with (length (kept ++ [i]))
        by (rewrite length_app; simpl; lia).
      rewrite (IH _ _ l) by (rewrite ?length_app; simpl; (done || lia)).
      by rewrite <- !app_assoc.
    + by rewrite (IH _ _ l) by (done || lia).
Qed.

(** A non-empty ring yields its first entry at once. *)
Lemma try_pop_spec q s :
  represents q s →
  match PresentFifo.pending s with
  | [] => try_pop q = (q, None)
  | i :: l => ∃ q', try_pop q = (q', Some i) ∧
      represents q' (PresentFifo.mk l (PresentFifo.outputs s)
                       (Stats.count_completed (PresentFifo.counts s)))
  end.
Proof.
  intros Hq. pose proof (represents_len _ _ Hq) as [Hl _]. destruct Hq as [Hc Hh Ht Hs].
  destruct q as [buf head n table st], s as [l table' st']; simpl in *. subst.
  unfold try_pop. simpl. destruct l as [|i l]; [done|]. simpl.
  rewrite (holds_front _ _ _ _ _ Hh). eexists. split; [done|].
  split; simpl; [by rewrite length_insert| |done..].
  pose proof (holds_pop _ _ _ _ _ Hh) as Hp. unfold slot in Hp. by rewrite Hc in Hp.
Qed.

Lemma try_push_spec intent q s :
  represents q s →
  (try_push intent q).2 = (PresentFifo.push intent s).2 ∧
  represents (try_push intent q).1 (PresentFifo.push intent s).1.
Proof.
  intros Hq. pose proof (represents_len _ _ Hq) as [Hl Hcap]. destruct Hq as [Hc Hh Ht Hs].
  unfold try_push, PresentFifo.push. rewrite Ht.
  destruct (queue_slot intent (PresentFifo.outputs s)) as [table [[]|e|]];
    [|by split; split..]. cbn -[Nat.leb Nat.ltb].
  rewrite Hl. destruct (Nat.ltb_spec (length (PresentFifo.pending s)) PRESENT_QUEUE_CAP) as [Hlt|Hge].
  - rewrite (proj2 (Nat.leb_gt _ _)) by lia. split; [done|]. split; simpl;
      [by rewrite length_insert| |done|by rewrite Hs].
    pose proof (holds_push _ _ _ _ intent Hh ltac:(lia)) as Hp.
    unfold slot in Hp. rewrite Hc in Hp. by rewrite <- Hl.
  - rewrite (proj2 (Nat.leb_le _ _)) by lia. split; [done|]. split; simpl; try done. by rewrite Hs.
Qed.

Lemma unregister_spec o q s :
  represents q s → represents (unregister_output o q) (PresentFifo.step s (Unregister o)).1.
Proof.
  intros Hq. pose proof (represents_len _ _ Hq) as [Hl Hcap]. destruct Hq as [Hc Hh Ht Hs].
  unfold unregister_output.
  pose proof (compact_keeps o (len q) _ _ _ [] Hc Hh ltac:(simpl; lia)) as Hk.
  change (packed []) with (replicate PRESENT_QUEUE_CAP (@None PresentIntent.t)) in Hk.
  simpl length in Hk. rewrite Hk. simpl.
  pose proof (length_filter (λ i, PresentIntent.output i ≠ o) (PresentFifo.pending s)).
  split; simpl; [| |by rewrite Ht|done].
  - unfold packed. rewrite length_app, length_fmap, length_replicate. lia.
  - apply holds_fresh; unfold PRESENT_QUEUE_CAP in *; lia.
Qed.

Lemma step_represents q s c :
  represents q s →
  (step q c).2 = (PresentFifo.step s c).2 ∧ represents (step q c).1 (PresentFifo.step s c).1.
Proof.
  intros Hq. destruct c as [o|o|o f|i| |].
  - split; [done|]. unfold step, register_output, PresentFifo.step. simpl.
    destruct Hq as [Hc Hh Ht Hs]. rewrite <- Ht. case_decide as Ho.
    + replace (existsb _ _) with true; [by split|]. symmetry. apply existsb_exists.
      apply list_elem_of_fmap in Ho as (r&->&Hr). exists r.
      split; [by apply list_elem_of_In|]. by apply bool_decide_true.
    + replace (existsb _ _) with false; [split; simpl; try done; by rewrite Ht|]. symmetry.
      apply not_true_iff_false. intros (r&Hr&Hd%bool_decide_eq_true)%existsb_exists.
      apply Ho, list_elem_of_fmap. exists r. split; [done|]. by apply list_elem_of_In.
  - split; [done|]. by apply unregister_spec.
  - split; [done|]. destruct Hq as [Hc Hh Ht Hs]. split; simpl; try done. by rewrite Ht.
  - pose proof (try_push_spec i q s Hq) as [E R]. simpl.
    destruct (try_push i q), (PresentFifo.push i s). simpl in *. by subst.
  - pose proof (try_pop_spec q s Hq) as Hp. simpl. destruct (PresentFifo.pending s) as [|i l].
    + by rewrite Hp.
    + destruct Hp as (q'&->&Hr). done.
  - split; [|done]. simpl. by rewrite (proj1 (represents_len _ _ Hq)).
Qed.

(** C33: The present queue answers every sequence of calls (registrations,
    readiness updates, pushes, pops, length queries) exactly as a first-in
    first-out list of at most sixteen intents would: same errors, same popped
    intents, same lengths, and the ring never holds more than its capacity. *)
Theorem present_queue_is_fifo (cs : list call) :
  (run_calls step new cs).2 = (run_calls PresentFifo.step PresentFifo.new cs).2 ∧
  (len (run_calls step new cs).1 <= PRESENT_QUEUE_CAP)%nat ∧
  len (run_calls step new cs).1 =
    length (PresentFifo.pending (run_calls PresentFifo.step PresentFifo.new cs).1).
Proof.
  destruct (run_calls_sim step PresentFifo.step represents) with
    (s := new) (t := PresentFifo.new) (cs := cs) as [? Hr].
  - intros q s c. apply step_represents.
  - apply represents_new.
  - apply represents_len in Hr as []. done.
Qed.

(** The outcome of a push at any reachable queue. It never panics; an
    unknown output or a busy slot leaves the queue as it was; a full queue
    keeps its pending intents and the readiness of every slot; an accepted
    intent goes to the back and takes exactly its own slot. *)
Theorem present_push_outcome (cs : list call) (intent : PresentIntent.t) :
  let q := (run_calls step new cs).1 in
  let o := PresentIntent.output intent in
  let '(q', r) := try_push intent q in
  match r with
  | Ok _ => slot_ready (readiness q) o (PresentIntent.slot intent) = true ∧
      (len q < PRESENT_QUEUE_CAP)%nat ∧
      (∀ o' i, slot_ready (readiness q') o' i =
         if decide (o' = o ∧ i = PresentIntent.slot intent) then false
         else slot_ready (readiness q) o' i) ∧
      (∀ l, holds (intents q) (head q) (len q) l →
            holds (intents q') (head q') (len q') (l ++ [intent]))
  | Err UnknownOutput => q' = q ∧ o ∉ (OutputReadiness.output <$> readiness q)
  | Err NotReady => q' = q ∧ o ∈ (OutputReadiness.output <$> readiness q) ∧
      slot_ready (readiness q) o (PresentIntent.slot intent) = false
  | Err Full => len q = PRESENT_QUEUE_CAP ∧
      intents q' = intents q ∧ head q' = head q ∧ len q' = len q ∧
      (∀ o' i, slot_ready (readiness q') o' i = slot_ready (readiness q) o' i)
  | Panic => False
  end.
Proof.
  simpl. destruct (run_calls_sim step PresentFifo.step represents step_represents
    new PresentFifo.new cs represents_new) as [_ Hr].
  set (q := (run_calls step new cs).1) in *. clearbody q.
  pose proof (represents_len _ _ Hr) as [Hl Hcap]. destruct Hr as [Hc _ _ _].
  unfold try_push. pose proof (queue_slot_spec intent (readiness q)) as Hs. simpl in Hs.
  destruct (queue_slot intent (readiness q)) as [table [[]|[]|]]; try done; cbn -[Nat.leb PRESENT_QUEUE_CAP].
  - destruct Hs as (Hrd&Hq'&Hrel). destruct (Nat.leb_spec PRESENT_QUEUE_CAP (len q)).
    + split_and!; [lia|done..].
    + split; [done|]. split; [done|]. split; [done|]. intros l Hh. simpl.
      pose proof (holds_push _ _ _ _ intent Hh ltac:(lia)) as Hp. unfold slot in Hp.
      by rewrite Hc in Hp.
  - destruct Hs as (->&?&?). simpl. split_and!; [by destruct q|done..].
  - destruct Hs as (->&?). simpl. split; [by destruct q|done].
Qed.
