(* ===== verification/Events.v ===== *)
(** * The event bus

    [crates/tensor-event]: value events and their phases ([event.rs],
    [phase.rs]), the coalescing counters ([coalesce.rs]) and the per-phase
    rings of [EventQueue] ([queue.rs]). An [f64] payload is its bit pattern;
    the bus never looks at it. Identities are their numbers. *)

From stdpp Require Import vector.
From S2P Require Import Prelude Ring.

Module Phase.

Inductive t :=
| Drain | Input | Protocol | Session | Scene | Gpu | Present | Control | Shutdown.

#[global] Instance t_eq_dec : EqDecision t.
Proof. solve_decision. Defined.

Definition COUNT : nat := 9.

Definition PHASES : list t :=
  [Drain; Input; Protocol; Session; Scene; Gpu; Present; Control; Shutdown].

(** The discriminant, an index of an array of [COUNT] entries. *)
Definition index (p : t) : fin COUNT :=
  match p with
  | Drain => 0 | Input => 1 | Protocol => 2 | Session => 3 | Scene => 4
  | Gpu => 5 | Present => 6 | Control => 7 | Shutdown => 8
  end%fin.

End Phase.

Module InputEvent.

Inductive t :=
| PointerMotion (x y : Z) (time_ns : Z)
| PointerButton (button : Z) (pressed : bool) (time_ns : Z)
| PointerAxis (horizontal vertical : Z) (time_ns : Z)
| Keyboard (key : Z) (pressed : bool) (time_ns : Z).

End InputEvent.

Module OutputEvent.

Inductive t :=
| Connected (output : Z)
| Changed (output : Z)
| Disconnected (output : Z)
| VBlank (output sequence : Z).

End OutputEvent.

Module GpuTimeline.

Record t := mk { output : Z; value : Z }.

End GpuTimeline.

Module LaunchOutcome.

Inductive t := Started (request pid : Z) | Failed (request : Z).

End LaunchOutcome.

Module Event.

Inductive t :=
| Input (e : InputEvent.t)
| Output (e : OutputEvent.t)
| SurfaceCommitted (surface : Z) (view : option Z)
| Gpu (g : GpuTimeline.t)
| Ipc (command : Z)
| Launch (o : LaunchOutcome.t)
| Timer (timer : Z)
| RedrawAll
| Shutdown.

Definition phase (e : t) : Phase.t :=
  match e with
  | Input _ => Phase.Input
  | SurfaceCommitted _ _ => Phase.Protocol
  | Output (OutputEvent.Connected _)
  | Output (OutputEvent.Changed _)
  | Output (OutputEvent.Disconnected _) => Phase.Session
  | Output (OutputEvent.VBlank _ _) => Phase.Present
  | Gpu _ => Phase.Gpu
  | RedrawAll => Phase.Scene
  | Ipc _ | Launch _ | Timer _ => Phase.Control
  | Shutdown => Phase.Shutdown
  end.

Definition coalesces_with (self newer : t) : bool :=
  match self, newer with
  | Input (InputEvent.PointerMotion _ _ _), Input (InputEvent.PointerMotion _ _ _) => true
  | Output (OutputEvent.VBlank a _), Output (OutputEvent.VBlank b _) => a =? b
  | Gpu g, Gpu h => GpuTimeline.output g =? GpuTimeline.output h
  | RedrawAll, RedrawAll => true
  | _, _ => false
  end.

End Event.

Module CoalesceStats.

Record t := mk {
  motion_merged : Z; vblank_merged : Z; gpu_merged : Z; redraw_merged : Z }.

Definition dflt : t := mk 0 0 0 0.

Definition record (previous : Event.t) (s : t) : t :=
  let up := λ v, U64.saturating_add v 1 in
  match previous with
  | Event.Input _ => mk (up (motion_merged s)) (vblank_merged s) (gpu_merged s) (redraw_merged s)
  | Event.Output _ => mk (motion_merged s) (up (vblank_merged s)) (gpu_merged s) (redraw_merged s)
  | Event.Gpu _ => mk (motion_merged s) (vblank_merged s) (up (gpu_merged s)) (redraw_merged s)
  | Event.RedrawAll => mk (motion_merged s) (vblank_merged s) (gpu_merged s) (up (redraw_merged s))
  | _ => s
  end.

End CoalesceStats.

Module QueueStats.

Record t := mk {
  pushed : Z; coalesced : Z; dropped : Z; drained : Z; coalesce : CoalesceStats.t }.

Definition dflt : t := mk 0 0 0 0 CoalesceStats.dflt.

Definition count_pushed (s : t) : t :=
  mk (U64.saturating_add (pushed s) 1) (coalesced s) (dropped s) (drained s) (coalesce s).

Definition count_coalesced (previous : Event.t) (s : t) : t :=
  mk (pushed s) (U64.saturating_add (coalesced s) 1) (dropped s) (drained s)
     (CoalesceStats.record previous (coalesce s)).

Definition count_dropped (s : t) : t :=
  mk (pushed s) (coalesced s) (U64.saturating_add (dropped s) 1) (drained s) (coalesce s).

Definition count_drained (s : t) : t :=
  mk (pushed s) (coalesced s) (dropped s) (U64.saturating_add (drained s) 1) (coalesce s).

End QueueStats.

Module PhaseRing.

Record t := mk { buf : list (option Event.t); head : nat; len : nat }.

Definition with_capacity (capacity : nat) : t :=
  mk (replicate (Nat.max capacity 1) None) 0 0.

Definition capacity (r : t) : nat := length (buf r).

Definition is_empty (r : t) : bool := (len r =? 0)%nat.

Definition is_full (r : t) : bool := (len r =? capacity r)%nat.

(** The scan of [try_coalesce]; [k] entries are left, the newest of them at
    [head + k - 1]. *)
Fixpoint coalesce_scan (event : Event.t) (r : t) (k : nat) : t * option Event.t :=
  match k with
  | O => (r, None)
  | S k =>
      let idx := ((head r + k) mod capacity r)%nat in
      match mjoin (buf r !! idx) with
      | Some existing =>
          if Event.coalesces_with existing event
          then (mk (<[idx := Some event]> (buf r)) (head r) (len r), Some existing)
          else coalesce_scan event r k
      | None => coalesce_scan event r k
      end
  end.

Definition try_coalesce (event : Event.t) (r : t) : t * option Event.t :=
  if (len r =? 0)%nat then (r, None) else coalesce_scan event r (len r).

Definition push_back (event : Event.t) (r : t) : t * bool :=
  if is_full r then (r, false)
  else
    let idx := ((head r + len r) mod capacity r)%nat in
    (mk (<[idx := Some event]> (buf r)) (head r) (S (len r)), true).

Definition pop_front (r : t) : t * option Event.t :=
  if (len r =? 0)%nat then (r, None)
  else
    let event := mjoin (buf r !! head r) in
    (mk (<[head r := None]> (buf r)) ((head r + 1) mod capacity r)%nat (len r - 1), event).

End PhaseRing.

Module EventQueue.

Inductive PushResult := Queued | Coalesced | Dropped.

Record t := mk { phases : vec PhaseRing.t Phase.COUNT; stats : QueueStats.t }.

Definition DEFAULT_PHASE_CAPACITY : nat := 256.

Definition with_phase_capacity (capacity : nat) : t :=
  mk (vreplicate Phase.COUNT (PhaseRing.with_capacity capacity)) QueueStats.dflt.

Definition new : t := with_phase_capacity DEFAULT_PHASE_CAPACITY.

Definition ring (p : Phase.t) (q : t) : PhaseRing.t := phases q !!! Phase.index p.

(** A write through [&mut self.phases[p.index()]]. *)
Definition set_ring (p : Phase.t) (r : PhaseRing.t) (q : t) : t :=
  mk (vinsert (Phase.index p) r (phases q)) (stats q).

Definition with_stats (f : QueueStats.t → QueueStats.t) (q : t) : t :=
  mk (phases q) (f (stats q)).

Definition is_empty (q : t) : bool := forallb PhaseRing.is_empty (vec_to_list (phases q)).

Definition len (q : t) : nat := sum_list (PhaseRing.len <$> vec_to_list (phases q)).

Definition push (event : Event.t) (q : t) : t * PushResult :=
  let phase := Event.phase event in
  match PhaseRing.try_coalesce event (ring phase q) with
  | (r, Some previous) =>
      (with_stats (QueueStats.count_coalesced previous) (set_ring phase r q), Coalesced)
  | (r, None) =>
      match PhaseRing.push_back event r with
      | (r, true) => (with_stats QueueStats.count_pushed (set_ring phase r q), Queued)
      | (r, false) => (with_stats QueueStats.count_dropped (set_ring phase r q), Dropped)
      end
  end.

(** The loop of [pop] over the phases. *)
Fixpoint pop_phases (ps : list Phase.t) (q : t) : t * option Event.t :=
  match ps with
  | [] => (q, None)
  | p :: ps =>
      match PhaseRing.pop_front (ring p q) with
      | (r, Some event) => (with_stats QueueStats.count_drained (set_ring p r q), Some event)
      | (r, None) => pop_phases ps (set_ring p r q)
      end
  end.

Definition pop (q : t) : t * option Event.t := pop_phases Phase.PHASES q.

(** [drain] with the events that its callback sees, in order; their number
    is the returned count. *)
Fixpoint drain (max : nat) (q : t) : t * list Event.t :=
  match max with
  | O => (q, [])
  | S max =>
      match pop q with
      | (q, Some event) => let '(q, events) := drain max q in (q, event :: events)
      | (q, None) => (q, [])
      end
  end.

Fixpoint drain_phase (p : Phase.t) (max : nat) (q : t) : t * list Event.t :=
  match max with
  | O => (q, [])
  | S max =>
      match PhaseRing.pop_front (ring p q) with
      | (r, Some event) =>
          let '(q, events) :=
            drain_phase p max (with_stats QueueStats.count_drained (set_ring p r q)) in
          (q, event :: events)
      | (r, None) => (set_ring p r q, [])
      end
  end.

Inductive call :=
| Push (event : Event.t)
| Pop
| DrainUpTo (max : nat)
| DrainPhase (p : Phase.t) (max : nat)
| Len
| IsEmpty
| Stats.

Inductive answer :=
| Pushed (r : PushResult)
| Popped (e : option Event.t)
| Drained (events : list Event.t)
| Counted (n : nat)
| Empty (b : bool)
| Report (s : QueueStats.t).

Definition step (q : t) (c : call) : t * answer :=
  match c with
  | Push e => let '(q, r) := push e q in (q, Pushed r)
  | Pop => let '(q, e) := pop q in (q, Popped e)
  | DrainUpTo max => let '(q, es) := drain max q in (q, Drained es)
  | DrainPhase p max => let '(q, es) := drain_phase p max q in (q, Drained es)
  | Len => (q, Counted (len q))
  | IsEmpty => (q, Empty (is_empty q))
  | Stats => (q, Report (stats q))
  end.

End EventQueue.

(** ** The reference: one queue kept sorted by phase *)

Module SortedQueue.

Import EventQueue.

Record t := mk { pending : list Event.t; counts : QueueStats.t }.

Definition new : t := mk [] QueueStats.dflt.

Definition order (e : Event.t) : nat := fin_to_nat (Phase.index (Event.phase e)).

(** The events of earlier phases, of phase [n], and of later phases. *)
Definition before (n : nat) (l : list Event.t) := filter (λ x, order x < n)%nat l.
Definition at_phase (n : nat) (l : list Event.t) := filter (λ x, order x = n) l.
Definition after (n : nat) (l : list Event.t) := filter (λ x, n < order x)%nat l.

(** A push replaces the pending event it coalesces with, wherever it is;
    otherwise the event goes behind its phase, which holds at most [cap]
    events. *)
Definition push (cap : nat) (e : Event.t) (s : t) : t * PushResult :=
  let l := pending s in
  let n := order e in
  if existsb (λ x, Event.coalesces_with x e) l then
    (mk ((λ x, if Event.coalesces_with x e then e else x) <$> l)
        (QueueStats.count_coalesced e (counts s)), Coalesced)
  else if (length (at_phase n l) <? cap)%nat then
    (mk (before n l ++ at_phase n l ++ [e] ++ after n l)
        (QueueStats.count_pushed (counts s)), Queued)
  else (mk l (QueueStats.count_dropped (counts s)), Dropped).

Definition drained (k : nat) (s : QueueStats.t) : QueueStats.t :=
  Nat.iter k QueueStats.count_drained s.

Definition drain (max : nat) (s : t) : t * list Event.t :=
  let out := take max (pending s) in
  (mk (drop max (pending s)) (drained (length out) (counts s)), out).

Definition drain_phase (p : Phase.t) (max : nat) (s : t) : t * list Event.t :=
  let n := fin_to_nat (Phase.index p) in
  let l := pending s in
  let out := take max (at_phase n l) in
  (mk (before n l ++ drop max (at_phase n l) ++ after n l)
      (drained (length out) (counts s)), out).

Definition step (cap : nat) (s : t) (c : call) : t * answer :=
  match c with
  | Push e => let '(s, r) := push cap e s in (s, Pushed r)
  | Pop => let '(s, es) := drain 1 s in (s, Popped (List.hd_error es))
  | DrainUpTo max => let '(s, es) := drain max s in (s, Drained es)
  | DrainPhase p max => let '(s, es) := drain_phase p max s in (s, Drained es)
  | Len => (s, Counted (length (pending s)))
  | IsEmpty => (s, Empty (bool_decide (pending s = [])))
  | Stats => (s, Report (counts s))
  end.

End SortedQueue.
