(* ===== verification/EventsSpec.v ===== *)
(** * The event bus is one queue sorted by phase

    The nine rings of [EventQueue] answer every sequence of calls as a single
    queue does that is kept sorted by phase and in which an event replaces the
    pending event it coalesces with. *)

From stdpp Require Import vector.
From S2P Require Import Prelude Ring Events.

Import EventQueue.

(** ** Coalescing classes *)

(** Two events coalesce when they have the same class. *)
Definition class (e : Event.t) : option (nat * Z) :=
  match e with
  | Event.Input (InputEvent.PointerMotion _ _ _) => Some (0%nat, 0)
  | Event.Output (OutputEvent.VBlank o _) => Some (1%nat, o)
  | Event.Gpu g => Some (2%nat, GpuTimeline.output g)
  | Event.RedrawAll => Some (3%nat, 0)
  | _ => None
  end.

Lemma coalesces_class a b :
  Event.coalesces_with a b = true ↔ ∃ c, class a = Some c ∧ class b = Some c.
Proof.
  split.
  - destruct a as [[]|[]| |[]| | | | |], b as [[]|[]| |[]| | | | |]; simpl; try done;
      try (intros ->%Z.eqb_eq); eauto.
  - intros (c&Ha&Hb).
    destruct a as [[]|[]| |[]| | | | |], b as [[]|[]| |[]| | | | |]; simpl in *; simplify_eq;
      try done; apply Z.eqb_refl.
Qed.

Lemma class_order a b c : class a = Some c → class b = Some c → SortedQueue.order a = SortedQueue.order b.
Proof.
  destruct a as [[]|[]| |[]| | | | |], b as [[]|[]| |[]| | | | |]; simpl; intros; by simplify_eq.
Qed.

Lemma class_record a b c s :
  class a = Some c → class b = Some c → CoalesceStats.record a s = CoalesceStats.record b s.
Proof.
  destruct a as [[]|[]| |[]| | | | |], b as [[]|[]| |[]| | | | |]; simpl; intros; by simplify_eq.
Qed.

(** No two pending events coalesce. *)
Definition uncoalesced (l : list Event.t) : Prop := NoDup (omap class l).

Definition replace (e x : Event.t) : Event.t := if Event.coalesces_with x e then e else x.

Lemma replace_class e x : class (replace e x) = class x.
Proof.
  unfold replace. destruct (Event.coalesces_with x e) eqn:Ec; [|done].
  apply coalesces_class in Ec as (c&->&->). done.
Qed.

Lemma omap_cons_class x (l : list Event.t) :
  omap class (x :: l) = match class x with Some c => c :: omap class l | None => omap class l end.
Proof. done. Qed.

Lemma replace_classes e (l : list Event.t) : omap class (replace e <$> l) = omap class l.
Proof.
  induction l as [|x l IH]; [done|].
  by rewrite fmap_cons, !omap_cons_class, replace_class, IH.
Qed.

Lemma replace_none e (l : list Event.t) :
  existsb (λ x, Event.coalesces_with x e) l = false → replace e <$> l = l.
Proof.
  induction l as [|x l IH]; [done|]. simpl existsb. rewrite orb_false_iff. intros [Hx Hl].
  rewrite fmap_cons, IH by done. unfold replace. by rewrite Hx.
Qed.

Lemma no_partner e c (l : list Event.t) :
  class e = Some c → c ∉ omap class l → existsb (λ x, Event.coalesces_with x e) l = false.
Proof.
  intros Hc Hn. apply not_true_iff_false. intros (x&Hx%list_elem_of_In&Hco)%existsb_exists.
  apply coalesces_class in Hco as (c'&Hxc&Hec). apply Hn, list_elem_of_omap. exists x.
  by rewrite Hxc, <- Hec, Hc.
Qed.

(** In such a list the partner of an event is unique. *)
Lemma replace_at e l j x :
  uncoalesced l → l !! j = Some x → Event.coalesces_with x e = true →
  <[j := e]> l = replace e <$> l.
Proof.
  intros Hu Hj Hx. apply coalesces_class in Hx as (c&Hxc&Hec).
  rewrite <- (take_drop_middle _ _ _ Hj) in Hu. unfold uncoalesced in Hu.
  rewrite omap_app, omap_cons_class, Hxc in Hu.
  apply NoDup_app in Hu as (_&H1&H2). apply NoDup_cons in H2 as [H2 _].
  apply lookup_lt_Some in Hj as Hlt. rewrite insert_take_drop by done.
  rewrite <- (take_drop_middle _ _ _ Hj) at 3. rewrite fmap_app, fmap_cons.
  rewrite !replace_none.
  - unfold replace. replace (Event.coalesces_with x e) with true; [done|]. symmetry.
    apply coalesces_class. eauto.
  - by apply (no_partner e c).
  - apply (no_partner e c); [done|]. intros Hc. apply (H1 c Hc). by left.
Qed.

(** ** Rings *)

Definition ring_holds (cap : nat) (r : PhaseRing.t) (l : list Event.t) : Prop :=
  length (PhaseRing.buf r) = cap ∧
  holds (PhaseRing.buf r) (PhaseRing.head r) (PhaseRing.len r) l.

Lemma ring_len cap r l : ring_holds cap r l → PhaseRing.len r = length l ∧ (length l <= cap)%nat.
Proof. intros [Hc []]. lia. Qed.

Lemma ring_new cap : ring_holds (Nat.max cap 1) (PhaseRing.with_capacity cap) [].
Proof. split; simpl; [apply length_replicate|]. apply holds_empty. lia. Qed.

Lemma coalesce_scan_spec cap e r l k :
  ring_holds cap r l → (k <= length l)%nat →
  (∃ j x, (j < k)%nat ∧ l !! j = Some x ∧ Event.coalesces_with x e = true ∧
     PhaseRing.coalesce_scan e r k =
       (PhaseRing.mk (<[slot cap (PhaseRing.head r) j := Some e]> (PhaseRing.buf r))
          (PhaseRing.head r) (PhaseRing.len r), Some x)) ∨
  ((∀ j x, (j < k)%nat → l !! j = Some x → Event.coalesces_with x e = false) ∧
   PhaseRing.coalesce_scan e r k = (r, None)).
Proof.
  intros [Hc Hh] Hk. induction k as [|k IH]; [right; split; [lia|done]|]. simpl.
  destruct (lookup_lt_is_Some_2 l k ltac:(lia)) as [x Hx].
  pose proof (holds_at _ _ _ _ Hh k x Hx) as Hb. unfold slot in Hb. unfold PhaseRing.capacity.
  rewrite Hb. simpl. rewrite Hc in *. destruct (Event.coalesces_with x e) eqn:Ex.
  - left. exists k, x. split_and!; [lia|done..].
  - destruct (IH ltac:(lia)) as [(j&y&?&?&?&E)|[Hn E]].
    + left. exists j, y. split_and!; [lia|done..].
    + right. split; [|done]. intros j y Hj Hy. destruct (decide (j = k)) as [->|]; [congruence|].
      apply (Hn j y); [lia|done].
Qed.

Lemma existsb_lookup e (l : list Event.t) :
  existsb (λ x, Event.coalesces_with x e) l = true ↔
  ∃ j x, l !! j = Some x ∧ Event.coalesces_with x e = true.
Proof.
  rewrite existsb_exists. split.
  - intros (x&[j Hj]%list_elem_of_In%list_elem_of_lookup&Hx). eauto.
  - intros (j&x&Hj&Hx). exists x. split; [|done]. by eapply list_elem_of_In, list_elem_of_lookup_2.
Qed.

Lemma try_coalesce_spec cap e r l :
  ring_holds cap r l → uncoalesced l →
  if existsb (λ x, Event.coalesces_with x e) l
  then ∃ r' x c, PhaseRing.try_coalesce e r = (r', Some x) ∧ ring_holds cap r' (replace e <$> l) ∧
       class x = Some c ∧ class e = Some c
  else PhaseRing.try_coalesce e r = (r, None).
Proof.
  intros Hr Hu. pose proof (ring_len _ _ _ Hr) as [Hlen _]. unfold PhaseRing.try_coalesce.
  destruct (Nat.eqb_spec (PhaseRing.len r) 0) as [H0|H0].
  { rewrite Hlen in H0. by apply length_zero_iff_nil in H0 as ->. }
  rewrite Hlen. destruct (coalesce_scan_spec cap e r l (length l) Hr ltac:(done))
    as [(j&x&Hj&Hx&Hco&E)|[Hn E]]; rewrite E.
  - rewrite (proj2 (existsb_lookup e l)) by eauto. apply coalesces_class in Hco as Hc.
    destruct Hc as (c&?&?). eexists _, x, c. split_and!; [done| |done..].
    destruct Hr as [Hc Hh]. split; simpl; [by rewrite length_insert|].
    rewrite <- (replace_at e l j x Hu Hx Hco), <- Hc. apply holds_set; [done|lia].
  - replace (existsb _ l) with false; [done|]. symmetry. apply not_true_iff_false.
    intros (j&x&Hx&Hco)%existsb_lookup.
    assert (Event.coalesces_with x e = false); [|congruence].
    apply (Hn j x); [by eapply lookup_lt_Some|done].
Qed.

Lemma push_back_spec cap e r l :
  ring_holds cap r l →
  if (length l <? cap)%nat
  then ∃ r', PhaseRing.push_back e r = (r', true) ∧ ring_holds cap r' (l ++ [e])
  else PhaseRing.push_back e r = (r, false).
Proof.
  intros Hr. pose proof (ring_len _ _ _ Hr) as [Hlen Hcap]. destruct Hr as [Hc Hh].
  unfold PhaseRing.push_back, PhaseRing.is_full, PhaseRing.capacity. rewrite Hc, Hlen.
  destruct (Nat.ltb_spec (length l) cap), (Nat.eqb_spec (length l) cap); try lia; [|done].
  eexists. split; [done|]. split; simpl; [by rewrite length_insert|].
  pose proof (holds_push _ _ _ _ e Hh ltac:(lia)) as Hp. by rewrite Hc, Hlen in Hp.
Qed.

Lemma pop_front_spec cap r l :
  ring_holds cap r l →
  match l with
  | [] => PhaseRing.pop_front r = (r, None)
  | e :: l => ∃ r', PhaseRing.pop_front r = (r', Some e) ∧ ring_holds cap r' l
  end.
Proof.
  intros Hr. pose proof (ring_len _ _ _ Hr) as [Hlen Hcap]. destruct Hr as [Hc Hh].
  unfold PhaseRing.pop_front, PhaseRing.capacity. rewrite Hlen. destruct l as [|e l]; [done|]. simpl.
  rewrite (holds_front _ _ _ _ _ Hh). eexists. split; [done|].
  split; simpl; [by rewrite length_insert|].
  rewrite Hlen in Hh. rewrite Nat.sub_0_r. by apply holds_pop in Hh.
Qed.

(** ** The flat list of the nine rings *)

(** Ring [i] holds the [i]-th list, whose events are of phase [i]. *)
Record layers (cap : nat) (q : t) (ls : vec (list Event.t) Phase.COUNT) : Prop := {
  layer_ring : ∀ i, ring_holds cap (phases q !!! i) (ls !!! i);
  layer_order : ∀ i, Forall (λ e, SortedQueue.order e = fin_to_nat i) (ls !!! i) }.

Definition flat (ls : vec (list Event.t) Phase.COUNT) : list Event.t := concat (vec_to_list ls).

Lemma layer_lookup cap q ls n l :
  layers cap q ls → vec_to_list ls !! n = Some l → Forall (λ e, SortedQueue.order e = n) l.
Proof.
  intros Hl Hn. apply lookup_lt_Some in Hn as Hlt. rewrite length_vec_to_list in Hlt.
  pose proof (layer_order _ _ _ Hl (nat_to_fin Hlt)) as Ho.
  rewrite fin_to_nat_to_fin in Ho. apply vlookup_lookup' in Hn as [Hlt' <-].
  by rewrite (proof_irrel Hlt' Hlt).
Qed.

Lemma flat_split ls (i : fin Phase.COUNT) :
  flat ls = concat (take i (vec_to_list ls)) ++ ls !!! i ++ concat (drop (S i) (vec_to_list ls)).
Proof.
  unfold flat. rewrite <- (take_drop_middle (vec_to_list ls) i (ls !!! i)) at 1
    by by apply vlookup_lookup. by rewrite concat_app.
Qed.

Lemma flat_insert ls (i : fin Phase.COUNT) l :
  flat (vinsert i l ls) =
    concat (take i (vec_to_list ls)) ++ l ++ concat (drop (S i) (vec_to_list ls)).
Proof.
  unfold flat. rewrite vec_to_list_insert, insert_take_drop by
    (rewrite length_vec_to_list; apply fin_to_nat_lt). by rewrite concat_app.
Qed.

Lemma Forall_concat_intro {A} (P : A → Prop) (ls : list (list A)) :
  (∀ n l, ls !! n = Some l → Forall P l) → Forall P (concat ls).
Proof.
  induction ls as [|l ls IH]; intros Hl; simpl; [constructor|]. apply Forall_app. split.
  - by apply (Hl 0%nat).
  - apply IH. intros n k. apply (Hl (S n)).
Qed.

Lemma layers_before cap q ls (i : fin Phase.COUNT) :
  layers cap q ls →
  Forall (λ e, SortedQueue.order e < fin_to_nat i)%nat (concat (take i (vec_to_list ls))).
Proof.
  intros Hl. apply Forall_concat_intro. intros n l [Hn Hlt]%lookup_take_Some.
  eapply Forall_impl; [by eapply layer_lookup|]. simpl. lia.
Qed.

Lemma layers_after cap q ls (i : fin Phase.COUNT) :
  layers cap q ls →
  Forall (λ e, fin_to_nat i < SortedQueue.order e)%nat (concat (drop (S i) (vec_to_list ls))).
Proof.
  intros Hl. apply Forall_concat_intro. intros n l Hn. rewrite lookup_drop in Hn.
  eapply Forall_impl; [by eapply layer_lookup|]. simpl. lia.
Qed.

(** The three parts of the flat list around ring [i]. *)
Lemma flat_parts cap q ls (i : fin Phase.COUNT) :
  layers cap q ls →
  SortedQueue.before i (flat ls) = concat (take i (vec_to_list ls)) ∧
  SortedQueue.at_phase i (flat ls) = ls !!! i ∧
  SortedQueue.after i (flat ls) = concat (drop (S i) (vec_to_list ls)).
Proof.
  intros Hl. pose proof (layers_before _ _ _ i Hl) as Hb.
  pose proof (layers_after _ _ _ i Hl) as Ha. pose proof (layer_order _ _ _ Hl i) as Hm.
  unfold SortedQueue.before, SortedQueue.at_phase, SortedQueue.after.
  rewrite (flat_split ls i), !filter_app. split_and!.
  - rewrite (filter_all _ _ Hb), !filter_none, !app_nil_r; [done|..];
      (eapply Forall_impl; [done|]; simpl; lia).
  - rewrite (filter_all _ _ Hm), !filter_none, app_nil_r; [done|..];
      (eapply Forall_impl; [done|]; simpl; lia).
  - rewrite (filter_all _ _ Ha), !filter_none; [done|..];
      (eapply Forall_impl; [done|]; simpl; lia).
Qed.

(** A write to one ring. *)
Lemma layers_insert cap q ls p r l :
  layers cap q ls → ring_holds cap r l →
  Forall (λ e, SortedQueue.order e = fin_to_nat (Phase.index p)) l →
  layers cap (set_ring p r q) (vinsert (Phase.index p) l ls).
Proof.
  intros [Hr Ho] Hrl Hl. split; intros i; simpl; destruct (decide (i = Phase.index p)) as [->|Hi];
    rewrite ?vlookup_insert; try done; by rewrite ?vlookup_insert_ne by done.
Qed.

Lemma layers_phases cap q q' ls : layers cap q ls → phases q' = phases q → layers cap q' ls.
Proof. intros [Hr Ho] E. split; [|done]. intros i. by rewrite E. Qed.

Lemma set_ring_same p q : set_ring p (ring p q) q = q.
Proof. destruct q. unfold set_ring, ring. simpl. by rewrite vlookup_insert_self. Qed.

(** ** Simulation *)

(** The rings hold the pending list of the reference. *)
Definition rep (cap : nat) (q : t) (s : SortedQueue.t) : Prop :=
  ∃ ls, layers cap q ls ∧ SortedQueue.pending s = flat ls ∧ stats q = SortedQueue.counts s ∧
        uncoalesced (SortedQueue.pending s).

Lemma rep_new cap : rep (Nat.max cap 1) (with_phase_capacity cap) SortedQueue.new.
Proof.
  exists (vreplicate Phase.COUNT []). split_and!; [split; intros i|done..|constructor].
  - cbn [with_phase_capacity phases]. rewrite !vlookup_replicate. apply ring_new.
  - rewrite vlookup_replicate. constructor.
Qed.

Lemma partner_free e l :
  Forall (λ x, SortedQueue.order x ≠ SortedQueue.order e) l →
  existsb (λ x, Event.coalesces_with x e) l = false.
Proof.
  rewrite Forall_forall. intros Hl. apply not_true_iff_false.
  intros (x&Hx%list_elem_of_In&Hco)%existsb_exists.
  apply coalesces_class in Hco as (c&?&?). apply (Hl x Hx). by eapply class_order.
Qed.

(** Only the ring of its phase holds a partner of an event. *)
Lemma flat_no_partner cap q ls e :
  layers cap q ls →
  let i := Phase.index (Event.phase e) in
  existsb (λ x, Event.coalesces_with x e) (concat (take i (vec_to_list ls))) = false ∧
  existsb (λ x, Event.coalesces_with x e) (concat (drop (S i) (vec_to_list ls))) = false.
Proof.
  intros Hl i. split; apply partner_free; eapply Forall_impl;
    [by eapply (layers_before _ _ _ i)| |by eapply (layers_after _ _ _ i)|];
    intros x Hx; change (SortedQueue.order e) with (fin_to_nat i); cbv beta in Hx; lia.
Qed.

Lemma uncoalesced_sublist k l : k `sublist_of` l → uncoalesced l → uncoalesced k.
Proof.
  intros Hs Hu. eapply sublist_NoDup; [exact Hu|]. clear Hu. induction Hs as [|x k l Hs IH|x k l Hs IH].
  - done.
  - rewrite !omap_cons_class. destruct (class x); [by constructor|done].
  - rewrite omap_cons_class. destruct (class x); [by constructor|done].
Qed.

Lemma uncoalesced_cons e l :
  existsb (λ x, Event.coalesces_with x e) l = false → uncoalesced l → uncoalesced (e :: l).
Proof.
  intros Hx Hl. unfold uncoalesced. rewrite omap_cons_class. destruct (class e) as [c|] eqn:Ec; [|done].
  apply NoDup_cons. split; [|done]. intros (x&Hx'&Hc)%list_elem_of_omap.
  apply not_true_iff_false in Hx. apply Hx, existsb_exists. exists x.
  split; [by apply list_elem_of_In|]. apply coalesces_class. eauto.
Qed.

Lemma uncoalesced_perm k l : k ≡ₚ l → uncoalesced l → uncoalesced k.
Proof.
  intros Hp. unfold uncoalesced. intros Hn. eapply (NoDup_Permutation_proper _ (omap class l)); [|done].
  by rewrite Hp.
Qed.

Lemma push_rep cap q s e :
  rep cap q s →
  (push e q).2 = (SortedQueue.push cap e s).2 ∧ rep cap (push e q).1 (SortedQueue.push cap e s).1.
Proof.
  intros (ls&Hl&Hp&Hs&Hu). unfold push, SortedQueue.push. set (p := Event.phase e).
  set (i := Phase.index p). change (SortedQueue.order e) with (fin_to_nat i).
  destruct (flat_parts _ _ _ i Hl) as (Eb&Em&Ea). destruct (flat_no_partner _ _ _ e Hl) as [Nb Na].
  fold p i in Nb, Na. rewrite Hp in *. rewrite Eb, Em, Ea.
  assert (Hui : uncoalesced (ls !!! i)).
  { eapply uncoalesced_sublist; [|exact Hu]. rewrite (flat_split ls i).
    by apply sublist_inserts_l, sublist_inserts_r. }
  assert (Hx : existsb (λ x, Event.coalesces_with x e) (flat ls) =
               existsb (λ x, Event.coalesces_with x e) (ls !!! i)).
  { rewrite (flat_split ls i), !existsb_app, Nb, Na. simpl. by rewrite orb_false_r. }
  pose proof (try_coalesce_spec cap e (ring p q) (ls !!! i) (layer_ring _ _ _ Hl i) Hui) as Ht.
  pose proof (layer_order _ _ _ Hl i) as Ho. rewrite Hx.
  destruct (existsb _ (ls !!! i)) eqn:Ex.
  - destruct Ht as (r'&x&c&->&Hr'&Hcx&Hce). split; [done|].
    exists (vinsert i (replace e <$> (ls !!! i)) ls). split_and!.
    + apply (layers_phases _ (set_ring p r' q)); [|done]. apply layers_insert; [done..|]. apply Forall_fmap. eapply Forall_impl; [exact Ho|].
      intros y Hy. simpl. unfold replace. by destruct (Event.coalesces_with y e).
    + simpl. rewrite flat_insert, (flat_split ls i), !fmap_app.
      change (λ x0, if Event.coalesces_with x0 e then e else x0) with (replace e).
      by rewrite (replace_none _ _ Nb), (replace_none _ _ Na).
    + simpl. rewrite Hs. unfold QueueStats.count_coalesced. by rewrite (class_record x e c).
    + exact (eq_ind_r (λ k, NoDup k) Hu (replace_classes e (flat ls))).
  - rewrite Ht. pose proof (push_back_spec cap e _ _ (layer_ring _ _ _ Hl i)) as Hb.
    change (phases q !!! i) with (ring p q) in Hb. destruct (length (ls !!! i) <? cap)%nat eqn:Elt.
    + destruct Hb as (r'&->&Hr'). split; [done|].
      exists (vinsert i ((ls !!! i) ++ [e]) ls). split_and!.
      * apply (layers_phases _ (set_ring p r' q)); [|done]. apply layers_insert; [done..|]. apply Forall_app. split; [done|]. by constructor.
      * simpl. by rewrite flat_insert, <- app_assoc.
      * simpl. by rewrite Hs.
      * simpl. eapply uncoalesced_perm; [|apply uncoalesced_cons; [by rewrite Hx|exact Hu]].
        rewrite (flat_split ls i). simpl app. by rewrite <- !Permutation_middle.
    + rewrite Hb. split; [done|]. exists ls. rewrite set_ring_same.
      split_and!; [by split; apply Hl|done|simpl; by rewrite Hs|done].
Qed.

(** Taking the first event of one ring. *)
Lemma take_rep cap q s ls p e l :
  layers cap q ls → SortedQueue.pending s = flat ls → stats q = SortedQueue.counts s →
  uncoalesced (flat ls) → ls !!! Phase.index p = e :: l →
  ∃ r, PhaseRing.pop_front (ring p q) = (r, Some e) ∧
    let q' := with_stats QueueStats.count_drained (set_ring p r q) in
    let ls' := vinsert (Phase.index p) l ls in
    layers cap q' ls' ∧ uncoalesced (flat ls') ∧
    stats q' = QueueStats.count_drained (SortedQueue.counts s).
Proof.
  intros Hl Hp Hs Hu He. pose proof (layer_ring _ _ _ Hl (Phase.index p)) as Hr.
  pose proof (layer_order _ _ _ Hl (Phase.index p)) as Ho. rewrite He in Hr, Ho.
  destruct (pop_front_spec _ _ _ Hr) as (r&E&Hr'). exists r. split; [done|]. split_and!.
  - apply (layers_phases _ (set_ring p r q)); [|done].
    apply layers_insert; [done..|by apply Forall_cons in Ho as [_ ?]].
  - eapply uncoalesced_sublist; [|exact Hu]. rewrite flat_insert, (flat_split ls (Phase.index p)), He.
    apply sublist_app; [done|]. by apply sublist_cons.
  - simpl. by rewrite Hs.
Qed.

Lemma PHASES_index k p : Phase.PHASES !! k = Some p → fin_to_nat (Phase.index p) = k.
Proof. do 9 (destruct k as [|k]; [by intros [= <-]|]). done. Qed.


(** The loop of [pop] behind a prefix of empty rings. *)
Lemma pop_phases_spec cap q s ls ps done_ps :
  layers cap q ls → SortedQueue.pending s = flat ls → stats q = SortedQueue.counts s →
  uncoalesced (flat ls) → Phase.PHASES = done_ps ++ ps →
  concat (take (length done_ps) (vec_to_list ls)) = [] →
  match flat ls with
  | [] => pop_phases ps q = (q, None)
  | e :: l => ∃ q', pop_phases ps q = (q', Some e) ∧
      rep cap q' (SortedQueue.mk l (QueueStats.count_drained (SortedQueue.counts s)))
  end.
Proof.
  intros Hl Hp Hs Hu. revert done_ps. induction ps as [|p ps IH]; intros done_ps Hps Hd.
  - rewrite app_nil_r in Hps. unfold flat. rewrite take_ge in Hd; [by rewrite Hd|].
    rewrite length_vec_to_list, <- Hps. done.
  - assert (Hi : fin_to_nat (Phase.index p) = length done_ps).
    { apply PHASES_index. by rewrite Hps, lookup_app_r, Nat.sub_diag by done. }
    pose proof (flat_split ls (Phase.index p)) as Hf. rewrite Hi, Hd in Hf. simpl in Hf.
    cbn [pop_phases]. destruct (ls !!! Phase.index p) as [|e l] eqn:El.
    + pose proof (layer_ring _ _ _ Hl (Phase.index p)) as Hr. rewrite El in Hr.
      pose proof (pop_front_spec _ _ _ Hr) as E. simpl in E.
      change (phases q !!! Phase.index p) with (ring p q) in E. rewrite E, set_ring_same.
      apply (IH (done_ps ++ [p])); [by rewrite <- app_assoc|].
      rewrite length_app, Nat.add_1_r, <- Hi.
      rewrite (take_S_r _ _ []) by by rewrite <- El; apply vlookup_lookup.
      by rewrite concat_app, Hi, Hd.
    + destruct (take_rep cap q s ls p e l Hl Hp Hs Hu El) as (r&E&Hl'&Hu'&Hs').
      rewrite E, Hf. eexists. split; [done|]. exists (vinsert (Phase.index p) l ls).
      assert (Hfl : flat (vinsert (Phase.index p) l ls) =
                    l ++ concat (drop (S (length done_ps)) (vec_to_list ls))).
      { by rewrite flat_insert, Hi, Hd. }
      split_and!; [done|by rewrite Hfl|done|]. simpl. by rewrite Hfl in Hu'.
Qed.

Lemma pop_rep cap q s :
  rep cap q s →
  match SortedQueue.pending s with
  | [] => pop q = (q, None)
  | e :: l => ∃ q', pop q = (q', Some e) ∧
      rep cap q' (SortedQueue.mk l (QueueStats.count_drained (SortedQueue.counts s)))
  end.
Proof.
  intros (ls&Hl&Hp&Hs&Hu). rewrite Hp in *. unfold pop.
  by apply (pop_phases_spec cap q s ls Phase.PHASES []).
Qed.

Lemma drain_rep cap max q s :
  rep cap q s →
  (drain max q).2 = (SortedQueue.drain max s).2 ∧
  rep cap (drain max q).1 (SortedQueue.drain max s).1.
Proof.
  revert q s. induction max as [|max IH]; intros q s Hq; simpl.
  { unfold SortedQueue.drain. rewrite take_0, drop_0. split; [done|].
    destruct Hq as (ls&?). by exists ls. }
  pose proof (pop_rep _ _ _ Hq) as Hpop. unfold SortedQueue.drain.
  destruct (SortedQueue.pending s) as [|e l] eqn:Ep.
  - rewrite Hpop. split; [done|]. destruct Hq as (ls&?&?&?&?). exists ls. by rewrite Ep in *.
  - destruct Hpop as (q'&->&Hq'). destruct (IH _ _ Hq') as [E R].
    destruct (drain max q') as [q'' es]. simpl in *. subst es. split; [done|].
    unfold SortedQueue.drained in *. simpl in *. by rewrite <- Nat.iter_succ, Nat.iter_succ_r.
Qed.

Lemma flat_parts_insert cap q ls (i : fin Phase.COUNT) l :
  layers cap q (vinsert i l ls) →
  let k := flat (vinsert i l ls) in
  SortedQueue.before i k = concat (take i (vec_to_list ls)) ∧
  SortedQueue.at_phase i k = l ∧
  SortedQueue.after i k = concat (drop (S i) (vec_to_list ls)).
Proof.
  intros Hl k. destruct (flat_parts _ _ _ i Hl) as (Eb&Em&Ea). fold k in Eb, Em, Ea.
  rewrite Eb, Em, Ea, vlookup_insert, vec_to_list_insert, take_insert_ge, drop_insert_lt by lia. done.
Qed.

Lemma drain_phase_rep cap p max q s :
  rep cap q s →
  (drain_phase p max q).2 = (SortedQueue.drain_phase p max s).2 ∧
  rep cap (drain_phase p max q).1 (SortedQueue.drain_phase p max s).1.
Proof.
  revert q s. induction max as [|max IH]; intros q s (ls&Hl&Hp&Hs&Hu).
  - destruct (flat_parts _ _ _ (Phase.index p) Hl) as (Eb&Em&Ea).
    unfold SortedQueue.drain_phase. rewrite Hp, Eb, Em, Ea. split; [done|].
    exists ls. cbn [fst SortedQueue.pending SortedQueue.counts]. rewrite take_0, drop_0.
    rewrite <- (flat_split ls (Phase.index p)), <- Hp. done.
  - destruct (flat_parts _ _ _ (Phase.index p) Hl) as (Eb&Em&Ea). rewrite Hp in Hu.
    cbn [drain_phase]. destruct (ls !!! Phase.index p) as [|e l] eqn:El.
    + pose proof (layer_ring _ _ _ Hl (Phase.index p)) as Hr. rewrite El in Hr.
      pose proof (pop_front_spec _ _ _ Hr) as E. simpl in E.
      change (phases q !!! Phase.index p) with (ring p q) in E. rewrite E, set_ring_same.
      unfold SortedQueue.drain_phase. rewrite Hp, Eb, Em, Ea. split; [done|].
      pose proof (flat_split ls (Phase.index p)) as Hf. rewrite El in Hf. simpl in Hf.
      exists ls. simpl. by rewrite <- Hf.
    + destruct (take_rep cap q s ls p e l Hl Hp Hs Hu El) as (r&E&Hl'&Hu'&Hs'). rewrite E.
      set (ls' := vinsert (Phase.index p) l ls) in *.
      set (s' := SortedQueue.mk (flat ls') (QueueStats.count_drained (SortedQueue.counts s))).
      destruct (IH (with_stats QueueStats.count_drained (set_ring p r q)) s') as [E' R'];
        [by exists ls'|].
      destruct (flat_parts_insert _ _ _ _ _ Hl') as (Eb'&Em'&Ea'). fold ls' in Eb', Em', Ea'.
      unfold SortedQueue.drain_phase in *. simpl in E', R'. rewrite Eb', Em', Ea' in *.
      rewrite Hp, Eb, Em, Ea.
      destruct (drain_phase p max _) as [q'' es]. simpl in *. subst es. split; [done|].
      unfold SortedQueue.drained in *. simpl in *. by rewrite <- Nat.iter_succ, Nat.iter_succ_r.
Qed.

Lemma len_rep cap q s : rep cap q s → len q = length (SortedQueue.pending s).
Proof.
  intros (ls&Hl&Hp&_). rewrite Hp. unfold len, flat.
  assert (Hlens : PhaseRing.len <$> vec_to_list (phases q) = length <$> vec_to_list ls).
  { apply list_eq. intros n. rewrite !list_lookup_fmap.
    destruct (decide (n < Phase.COUNT)%nat) as [Hn|Hn].
    - pose proof (layer_ring _ _ _ Hl (nat_to_fin Hn)) as Hr. apply ring_len in Hr as [Hr _].
      rewrite <- (fin_to_nat_to_fin n _ Hn).
      rewrite (proj1 (vlookup_lookup (phases q) (nat_to_fin Hn) _) eq_refl).
      rewrite (proj1 (vlookup_lookup ls (nat_to_fin Hn) _) eq_refl). simpl. by rewrite Hr.
    - rewrite !lookup_ge_None_2 by (rewrite length_vec_to_list; lia). done. }
  rewrite Hlens. clear. induction (vec_to_list ls) as [|l k IH]; simpl; [done|].
  by rewrite length_app, <- IH.
Qed.

Lemma is_empty_len q : is_empty q = (len q =? 0)%nat.
Proof.
  unfold is_empty, len. induction (vec_to_list (phases q)) as [|r rs IH]; [done|]. simpl.
  rewrite IH. unfold PhaseRing.is_empty. destruct (PhaseRing.len r); simpl; done.
Qed.

Lemma step_rep cap q s c :
  rep cap q s →
  (step q c).2 = (SortedQueue.step cap s c).2 ∧ rep cap (step q c).1 (SortedQueue.step cap s c).1.
Proof.
  intros Hq. destruct c as [e| |max|p max| | |]; cbn [step SortedQueue.step].
  - destruct (push_rep cap q s e Hq) as [E R].
    destruct (push e q), (SortedQueue.push cap e s). simpl in *. by subst.
  - pose proof (pop_rep _ _ _ Hq) as Hpop. unfold SortedQueue.drain.
    destruct (SortedQueue.pending s) as [|e l] eqn:Ep.
    + rewrite Hpop. split; [done|]. destruct Hq as (ls&?&?&?&?). exists ls. by rewrite Ep in *.
    + destruct Hpop as (q'&->&Hq'). simpl. rewrite drop_0. by destruct l.
  - destruct (drain_rep cap max q s Hq) as [E R].
    destruct (drain max q), (SortedQueue.drain max s). simpl in *. by subst.
  - destruct (drain_phase_rep cap p max q s Hq) as [E R].
    destruct (drain_phase p max q), (SortedQueue.drain_phase p max s). simpl in *. by subst.
  - split; [|exact Hq]. simpl. by rewrite (len_rep _ _ _ Hq).
  - split; [|exact Hq]. simpl. rewrite is_empty_len, (len_rep _ _ _ Hq).
    destruct (SortedQueue.pending s); [by rewrite bool_decide_true|by rewrite bool_decide_false].
  - destruct Hq as (ls&?&?&E&?). split; [simpl; by rewrite E|by exists ls].
Qed.

Lemma reachable_rep cap cs :
  rep (Nat.max cap 1) (run_calls step (with_phase_capacity cap) cs).1
    (run_calls (SortedQueue.step (Nat.max cap 1)) SortedQueue.new cs).1.
Proof. apply run_calls_sim; [intros q s c; apply step_rep|apply rep_new]. Qed.

(** C32: The nine per-phase rings behave as one queue that is kept sorted by
    phase: for every capacity and every sequence of pushes, pops, drains and
    queries the answers (including coalescing, drops and the counters) are
    those of a single list in which an event goes behind the pending events of
    its phase. *)
Theorem event_queue_is_sorted_queue (cap : nat) (cs : list call) :
  (run_calls step (with_phase_capacity cap) cs).2 =
  (run_calls (SortedQueue.step (Nat.max cap 1)) SortedQueue.new cs).2.
Proof. apply (run_calls_sim step _ (rep (Nat.max cap 1))); [intros q s c; apply step_rep|apply rep_new]. Qed.

Lemma flat_sorted cap q ls :
  layers cap q ls → StronglySorted (λ a b, SortedQueue.order a <= SortedQueue.order b)%nat (flat ls).
Proof.
  intros Hl. unfold flat.
  assert (Hk : ∀ k L, (∀ n l, L !! n = Some l → Forall (λ e, SortedQueue.order e = (k + n)%nat) l) →
    Forall (λ e, k <= SortedQueue.order e)%nat (concat L) ∧
    StronglySorted (λ a b, SortedQueue.order a <= SortedQueue.order b)%nat (concat L)).
  { intros k L. revert k. induction L as [|l L IH]; intros k HL; [repeat constructor|].
    pose proof (HL 0%nat l eq_refl) as H0. rewrite Nat.add_0_r in H0.
    destruct (IH (S k)) as [Hf Hs].
    { intros n m Hm. eapply Forall_impl; [by apply (HL (S n))|]. simpl. lia. }
    simpl. split.
    - apply Forall_app. split; (eapply Forall_impl; [done|]; simpl; lia).
    - clear IH HL. induction H0 as [|e l He Hl0 IH0]; [done|]. simpl. constructor; [done|].
      apply Forall_app. split; (eapply Forall_impl; [done|]; simpl; lia). }
  apply (Hk 0%nat). intros n l Hn. by eapply layer_lookup.
Qed.

(** Draining any reachable queue delivers every pending event and empties
    it: the events come in phase order, no two of them could have been
    coalesced, and their number is the reported length. *)
Theorem event_drain_complete (cap : nat) (cs : list call) :
  let q := (run_calls step (with_phase_capacity cap) cs).1 in
  let '(q', es) := drain (len q) q in
  length es = len q ∧ is_empty q' = true ∧
  StronglySorted (λ a b, SortedQueue.order a <= SortedQueue.order b)%nat es ∧
  (∀ i j a b, es !! i = Some a → es !! j = Some b → i ≠ j → Event.coalesces_with a b = false).
Proof.
  set (q := (run_calls step (with_phase_capacity cap) cs).1). cbv zeta.
  pose proof (reachable_rep cap cs) as Hq. fold q in Hq.
  set (s := (run_calls (SortedQueue.step _) _ cs).1) in Hq. clearbody q s.
  destruct (drain_rep _ (len q) q s Hq) as [E R].
  pose proof (len_rep _ _ _ Hq) as Hlen.
  assert (Es : (SortedQueue.drain (len q) s).2 = SortedQueue.pending s).
  { simpl. apply take_ge. lia. }
  rewrite Es in E. destruct (drain (len q) q) as [q' es]. simpl fst in R. simpl snd in E. subst es.
  destruct Hq as (ls&Hl&Hp&_&Hu). split_and!.
  - done.
  - rewrite is_empty_len, (len_rep _ _ _ R). simpl. rewrite length_drop, Hlen.
    by rewrite Nat.sub_diag.
  - rewrite Hp. by eapply flat_sorted.
  - intros i j a b Hi Hj Hne. apply not_true_iff_false. intros (c&Ha&Hb)%coalesces_class.
    apply Hne. clear - Hu Hi Hj Ha Hb. revert i j Hi Hj.
    induction (SortedQueue.pending s) as [|x l IH]; [done|].
    unfold uncoalesced in Hu. rewrite omap_cons_class in Hu.
    assert (Hl : uncoalesced l) by (destruct (class x); [by apply NoDup_cons in Hu as []|done]).
    assert (Hn : ∀ y n, l !! n = Some y → class y = Some c → class x = Some c → False).
    { intros y n Hy Hyc Hxc. rewrite Hxc in Hu. apply NoDup_cons in Hu as [Hu _].
      apply Hu, list_elem_of_omap. exists y. split; [by eapply list_elem_of_lookup_2|done]. }
    intros [|i] [|j] Hi Hj; simpl in *; simplify_eq; [done|exfalso; eauto..|f_equal; eauto].
Qed.
