(* ===== verification/Lease.v ===== *)
(** * DRM leases

    [LeaseRegistry] of [crates/tensor-drm/src/lease.rs]: which connectors a
    client may reserve, the reservations and the active kernel leases, and
    what has to be withdrawn and revoked when the topology or the session
    changes. Tokens and kernel identities are their numbers. *)

From stdpp Require Import strings.
From S2P Require Import Prelude Host.

Module LeaseConnector.

Record t := mk {
  id : ConnectorId.t; name : string; description : string; crtc_id : Z;
  primary_plane_id : Z }.

#[global] Instance t_eq_dec : EqDecision t.
Proof. solve_decision. Defined.

End LeaseConnector.

Module LeaseReservation.

Record t := mk { token : Z; connectors : list LeaseConnector.t }.

End LeaseReservation.

Module ActiveLease.

Record t := mk { token : Z; kernel_id : Z; connectors : list ConnectorId.t }.

End ActiveLease.

Module LeaseRevocation.

Record t := mk { token : Z; kernel_id : option Z }.

End LeaseRevocation.

Module LeaseOfferChanges.

Record t := mk {
  offered : list LeaseConnector.t; withdrawn : list ConnectorId.t;
  revoked : list LeaseRevocation.t }.

Definition dflt : t := mk [] [] [].

End LeaseOfferChanges.

Module LeasePhase.

Inductive t := Reserved | Active (kernel_id : Z).

#[global] Instance t_eq_dec : EqDecision t.
Proof. solve_decision. Defined.

(** The kernel identity a revocation reports. *)
Definition kernel_id (p : t) : option Z :=
  match p with Reserved => None | Active k => Some k end.

End LeasePhase.

Module ConnectorRecord.

Record t := mk { descriptor : LeaseConnector.t; owner : option Z }.

Definition id (c : t) : ConnectorId.t := LeaseConnector.id (descriptor c).

End ConnectorRecord.

Module LeaseRecord.

Record t := mk { token : Z; connectors : list ConnectorId.t; phase : LeasePhase.t }.

End LeaseRecord.

Module LeaseRegistry.

Definition MAX_LEASE_CONNECTORS : nat := 32.

Definition MAX_CONNECTORS_PER_LEASE : nat := 8.

Definition MAX_ACTIVE_LEASES : nat := 16.

Inductive LeaseError :=
| SessionInactive
| EmptyLease
| WrongDevice (c : ConnectorId.t)
| DuplicateConnector (c : ConnectorId.t)
| UnavailableConnector (c : ConnectorId.t)
| DuplicateCatalogConnector (c : ConnectorId.t)
| ConnectorCapacity (count max : nat)
| TooManyRequestedConnectors (count max : nat)
| LeaseCapacity
| UnknownLease (token : Z)
| AlreadyActivated (token : Z).

Record t := mk {
  session_active : bool;
  connectors : list ConnectorRecord.t;
  leases : list LeaseRecord.t;
  next_token : Z }.

Definition new : t := mk true [] [] 1.

Definition available (r : t) : list LeaseConnector.t :=
  ConnectorRecord.descriptor <$>
    filter (λ c, session_active r = true ∧ ConnectorRecord.owner c = None) (connectors r).

Definition catalog (r : t) : list LeaseConnector.t :=
  ConnectorRecord.descriptor <$> connectors r.

(** [owner = None] on the connectors of one lease. *)
Definition release_owner (token : Z) (c : ConnectorRecord.t) : ConnectorRecord.t :=
  if decide (ConnectorRecord.owner c = Some token)
  then ConnectorRecord.mk (ConnectorRecord.descriptor c) None else c.

Definition revoke (token : Z) (r : t) : t * option LeaseRevocation.t :=
  match list_find (λ l, LeaseRecord.token l = token) (leases r) with
  | None => (r, None)
  | Some (index, lease) =>
      (mk (session_active r) (release_owner token <$> connectors r)
          (swap_remove index (leases r)) (next_token r),
       Some (LeaseRevocation.mk token (LeasePhase.kernel_id (LeaseRecord.phase lease))))
  end.

(** The loops of [reconcile_connectors] and [set_session_active]. *)
Fixpoint revoke_all (tokens : list Z) (r : t) : t * list LeaseRevocation.t :=
  match tokens with
  | [] => (r, [])
  | token :: tokens =>
      let '(r, revocation) := revoke token r in
      let '(r, rest) := revoke_all tokens r in
      (r, match revocation with Some v => v :: rest | None => rest end)
  end.

(** The loop of [validate_connector_catalog]; [before] is the prefix. *)
Fixpoint duplicate_catalog (before connectors : list LeaseConnector.t) :
    option ConnectorId.t :=
  match connectors with
  | [] => None
  | c :: connectors =>
      if existsb (λ p, bool_decide (LeaseConnector.id p = LeaseConnector.id c)) before
      then Some (LeaseConnector.id c)
      else duplicate_catalog (before ++ [c]) connectors
  end.

Definition validate_connector_catalog (connectors : list LeaseConnector.t) :
    option LeaseError :=
  if (MAX_LEASE_CONNECTORS <? length connectors)%nat
  then Some (ConnectorCapacity (length connectors) MAX_LEASE_CONNECTORS)
  else match duplicate_catalog [] connectors with
       | Some id => Some (DuplicateCatalogConnector id)
       | None => None
       end.

(** Connectors of the registry that the new catalog lacks or describes
    differently. *)
Definition changed_or_removed (new : list LeaseConnector.t) (r : t) : list ConnectorId.t :=
  ConnectorRecord.id <$>
    filter (λ old, ConnectorRecord.descriptor old ∉ new) (connectors r).

Definition affected (changed : list ConnectorId.t) (r : t) : list Z :=
  LeaseRecord.token <$>
    filter (λ l, Exists (.∈ changed) (LeaseRecord.connectors l)) (leases r).

Definition old_owners (r : t) : list (ConnectorId.t * Z) :=
  omap (λ old, match ConnectorRecord.owner old with
               | Some owner => Some (ConnectorRecord.id old, owner)
               | None => None
               end) (connectors r).

Definition owner_of (id : ConnectorId.t) (owners : list (ConnectorId.t * Z)) : option Z :=
  match list_find (λ p, p.1 = id) owners with Some (_, p) => Some p.2 | None => None end.

Definition reconcile_connectors (new : list LeaseConnector.t) :
    Run t LeaseError LeaseOfferChanges.t := λ r,
  match validate_connector_catalog new with
  | Some e => (r, Err e)
  | None =>
      let new := sort_by_key (λ c, ConnectorId.key (LeaseConnector.id c)) new in
      let previously := available r in
      let '(r, revoked) := revoke_all (affected (changed_or_removed new r) r) r in
      let owners := old_owners r in
      let records :=
        (λ d, ConnectorRecord.mk d (owner_of (LeaseConnector.id d) owners)) <$> new in
      let r := mk (session_active r) records (leases r) (next_token r) in
      let currently := available r in
      (r, Ok (LeaseOfferChanges.mk
                (filter (λ c, c ∉ previously) currently)
                (LeaseConnector.id <$> filter (λ c, c ∉ currently) previously)
                revoked))
  end.

Definition set_session_active (active : bool) (r : t) : t * LeaseOfferChanges.t :=
  if Bool.eqb (session_active r) active then (r, LeaseOfferChanges.dflt)
  else
    let previously := available r in
    let r := mk active (connectors r) (leases r) (next_token r) in
    let tokens := if active then [] else LeaseRecord.token <$> leases r in
    let '(r, revoked) := revoke_all tokens r in
    (r, LeaseOfferChanges.mk (available r) (LeaseConnector.id <$> previously) revoked).

Definition find_connector (id : ConnectorId.t) (r : t) : option (nat * ConnectorRecord.t) :=
  list_find (λ c, ConnectorRecord.id c = id) (connectors r).

(** The checking loop of [reserve]; [before] is [requested[..index]]. *)
Fixpoint check_request (device_id : Z) (before requested : list ConnectorId.t) (r : t) :
    option LeaseError :=
  match requested with
  | [] => None
  | c :: requested =>
      if negb (ConnectorId.device_id c =? device_id) then Some (WrongDevice c)
      else if decide (c ∈ before) then Some (DuplicateConnector c)
      else match find_connector c r with
           | None => Some (UnavailableConnector c)
           | Some (_, record) =>
               match ConnectorRecord.owner record with
               | Some _ => Some (UnavailableConnector c)
               | None => check_request device_id (before ++ [c]) requested r
               end
           end
  end.

(** [NonZeroU64::new(next.wrapping_add(1)).unwrap_or(NonZeroU64::MIN)]. *)
Definition following_token (token : Z) : Z :=
  let next := U64.wrapping_succ token in if next =? 0 then 1 else next.

(** The reserving loop: the record of each requested connector gets the
    owner; a missing record is the failed [expect]. *)
Fixpoint claim (token : Z) (requested : list ConnectorId.t) :
    Run t LeaseError (list LeaseConnector.t) :=
  match requested with
  | [] => mret []
  | id :: requested =>
      r ← get_state;
      found ← expect (find_connector id r);
      modify (λ r, mk (session_active r)
        (<[found.1 := ConnectorRecord.mk (ConnectorRecord.descriptor found.2) (Some token)]>
           (connectors r))
        (leases r) (next_token r));;
      reserved ← claim token requested;
      mret (ConnectorRecord.descriptor found.2 :: reserved)
  end.

Definition reserve (device_id : Z) (requested : list ConnectorId.t) :
    Run t LeaseError LeaseReservation.t :=
  r ← get_state;
  if negb (session_active r) then throw SessionInactive
  else if bool_decide (requested = []) then throw EmptyLease
  else if (MAX_CONNECTORS_PER_LEASE <? length requested)%nat
  then throw (TooManyRequestedConnectors (length requested) MAX_CONNECTORS_PER_LEASE)
  else if (length (leases r) =? MAX_ACTIVE_LEASES)%nat then throw LeaseCapacity
  else match check_request device_id [] requested r with
       | Some e => throw e
       | None =>
           let token := next_token r in
           modify (λ r, mk (session_active r) (connectors r) (leases r) (following_token token));;
           reserved ← claim token requested;
           modify (λ r, mk (session_active r) (connectors r)
             (leases r ++ [LeaseRecord.mk token requested LeasePhase.Reserved])
             (next_token r));;
           mret (LeaseReservation.mk token reserved)
       end.

Definition activate (token kernel_id : Z) : Run t LeaseError ActiveLease.t :=
  r ← get_state;
  match list_find (λ l, LeaseRecord.token l = token) (leases r) with
  | None => throw (UnknownLease token)
  | Some (i, lease) =>
      if decide (LeaseRecord.phase lease ≠ LeasePhase.Reserved)
      then throw (AlreadyActivated token)
      else
        modify (λ r, mk (session_active r) (connectors r)
          (<[i := LeaseRecord.mk token (LeaseRecord.connectors lease)
                    (LeasePhase.Active kernel_id)]> (leases r))
          (next_token r));;
        mret (ActiveLease.mk token kernel_id (LeaseRecord.connectors lease))
  end.

(** A call of the compositor thread. *)
Inductive call :=
| Reconcile (new : list LeaseConnector.t)
| SetSessionActive (active : bool)
| Reserve (device_id : Z) (requested : list ConnectorId.t)
| Activate (token kernel_id : Z)
| Revoke (token : Z).

Inductive answer :=
| Reconciled (r : Outcome LeaseError LeaseOfferChanges.t)
| SessionChanged (c : LeaseOfferChanges.t)
| ReservedLease (r : Outcome LeaseError LeaseReservation.t)
| ActivatedLease (r : Outcome LeaseError ActiveLease.t)
| Revoked (r : option LeaseRevocation.t).

Definition step (r : t) (c : call) : t * answer :=
  match c with
  | Reconcile new => let '(r, o) := reconcile_connectors new r in (r, Reconciled o)
  | SetSessionActive a => let '(r, o) := set_session_active a r in (r, SessionChanged o)
  | Reserve d l => let '(r, o) := reserve d l r in (r, ReservedLease o)
  | Activate k i => let '(r, o) := activate k i r in (r, ActivatedLease o)
  | Revoke k => let '(r, o) := revoke k r in (r, Revoked o)
  end.

End LeaseRegistry.
