(* ===== verification/LeaseInv.v ===== *)
(** * The lease registry: invariant and preservation

    The invariant of [LeaseRegistry] and the lemmas on its operations: a
    connector has an owner exactly when a lease of that token holds it. *)

From S2P Require Import Prelude Host Lease.

Import LeaseRegistry.

(** [n] bounds the reservations made so far: the 64-bit token counter has not
    wrapped around. *)
Record wf (n : Z) (r : t) : Prop := {
  wf_ids : NoDup (ConnectorRecord.id <$> connectors r);
  wf_catalog : (length (connectors r) <= MAX_LEASE_CONNECTORS)%nat;
  wf_tokens : NoDup (LeaseRecord.token <$> leases r);
  wf_leases : (length (leases r) <= MAX_ACTIVE_LEASES)%nat;
  wf_lease : ∀ l, l ∈ leases r →
    LeaseRecord.connectors l ≠ [] ∧ NoDup (LeaseRecord.connectors l) ∧
    (length (LeaseRecord.connectors l) <= MAX_CONNECTORS_PER_LEASE)%nat ∧
    1 <= LeaseRecord.token l < next_token r;
  wf_owner : ∀ c k, c ∈ connectors r →
    ConnectorRecord.owner c = Some k ↔
    ∃ l, l ∈ leases r ∧ LeaseRecord.token l = k ∧
         ConnectorRecord.id c ∈ LeaseRecord.connectors l;
  wf_known : ∀ l i, l ∈ leases r → i ∈ LeaseRecord.connectors l →
    i ∈ (ConnectorRecord.id <$> connectors r);
  wf_next : 1 <= next_token r <= n + 1 }.

(** An inactive session holds no lease; between the switch and the
    revocations of [set_session_active] this is false. *)
Definition quiet (r : t) : Prop := session_active r = false → leases r = [].

Definition inv (n : Z) (r : t) : Prop := wf n r ∧ quiet r.

(** ** Lookups by identity *)

Lemma record_unique_ids r c d :
  NoDup (ConnectorRecord.id <$> connectors r) → c ∈ connectors r → d ∈ connectors r →
  ConnectorRecord.id c = ConnectorRecord.id d → c = d.
Proof.
  intros Hr [i Hi]%list_elem_of_lookup [j Hj]%list_elem_of_lookup E.
  assert (i = j) as ->; [|congruence].
  eapply (NoDup_lookup (ConnectorRecord.id <$> connectors r)); [apply Hr|..];
    rewrite list_lookup_fmap; [by rewrite Hi|by rewrite Hj, E].
Qed.

Lemma record_unique n r c d :
  wf n r → c ∈ connectors r → d ∈ connectors r →
  ConnectorRecord.id c = ConnectorRecord.id d → c = d.
Proof. intros Hr. apply record_unique_ids, Hr. Qed.

Lemma lease_unique n r l m :
  wf n r → l ∈ leases r → m ∈ leases r → LeaseRecord.token l = LeaseRecord.token m → l = m.
Proof.
  intros Hr [i Hi]%list_elem_of_lookup [j Hj]%list_elem_of_lookup E.
  assert (i = j) as ->; [|congruence].
  eapply (NoDup_lookup (LeaseRecord.token <$> leases r)); [apply Hr|..];
    rewrite list_lookup_fmap; [by rewrite Hi|by rewrite Hj, E].
Qed.

(** No connector is in two leases. *)
Lemma lease_exclusive n r l m i :
  wf n r → l ∈ leases r → m ∈ leases r →
  i ∈ LeaseRecord.connectors l → i ∈ LeaseRecord.connectors m → l = m.
Proof.
  intros Hr Hl Hm Hil Him. apply (lease_unique n r); [done..|].
  pose proof (wf_known _ _ Hr l i Hl Hil) as (c&->&Hc)%list_elem_of_fmap.
  assert (ConnectorRecord.owner c = Some (LeaseRecord.token l)) as E1
    by (apply (wf_owner _ _ Hr); [done|by exists l]).
  assert (ConnectorRecord.owner c = Some (LeaseRecord.token m)) as E2
    by (apply (wf_owner _ _ Hr); [done|by exists m]).
  congruence.
Qed.

Lemma available_elem r d :
  d ∈ available r ↔ session_active r = true ∧ ConnectorRecord.mk d None ∈ connectors r.
Proof.
  unfold available. rewrite list_elem_of_fmap. split.
  - intros (c&->&((?&Ho)&Hc)%list_elem_of_filter). split; [done|].
    destruct c. simpl in *. by subst.
  - intros [Ha Hc]. exists (ConnectorRecord.mk d None).
    split; [done|]. apply list_elem_of_filter. by split_and!.
Qed.

Lemma catalog_elem r d : d ∈ catalog r ↔ ∃ c, c ∈ connectors r ∧ ConnectorRecord.descriptor c = d.
Proof. unfold catalog. rewrite list_elem_of_fmap. naive_solver. Qed.

(** ** Revocation *)

Lemma release_owner_id k c : ConnectorRecord.id (release_owner k c) = ConnectorRecord.id c.
Proof. unfold release_owner. by case_decide. Qed.

Lemma release_owner_descriptor k c :
  ConnectorRecord.descriptor (release_owner k c) = ConnectorRecord.descriptor c.
Proof. unfold release_owner. by case_decide. Qed.

Lemma release_owner_owner k c k' :
  ConnectorRecord.owner (release_owner k c) = Some k' ↔
  ConnectorRecord.owner c = Some k' ∧ k' ≠ k.
Proof. unfold release_owner. case_decide; simpl; naive_solver. Qed.

Lemma released_ids k (l : list ConnectorRecord.t) :
  ConnectorRecord.id <$> (release_owner k <$> l) = ConnectorRecord.id <$> l.
Proof. rewrite <- list_fmap_compose. apply list_fmap_ext. intros. apply release_owner_id. Qed.

(** What [revoke] does: the lease of the token is gone, the rest stays. *)
Record revoked_one (k : Z) (r r' : t) (v : option LeaseRevocation.t) : Prop := {
  ro_active : session_active r' = session_active r;
  ro_catalog : catalog r' = catalog r;
  ro_leases : ∀ l, l ∈ leases r' ↔ l ∈ leases r ∧ LeaseRecord.token l ≠ k;
  ro_report : ∀ w, v = Some w ↔ ∃ l, l ∈ leases r ∧ LeaseRecord.token l = k ∧
    w = LeaseRevocation.mk k (LeasePhase.kernel_id (LeaseRecord.phase l)) }.

Lemma revoke_none k r : revoke k r = (r, None) → ∀ l, l ∈ leases r → LeaseRecord.token l ≠ k.
Proof.
  unfold revoke. destruct (list_find _ _) as [[i l]|] eqn:Ef; [done|]. intros _.
  apply list_find_None in Ef. by apply Forall_forall.
Qed.

Lemma revoke_wf n k r : wf n r → wf n (revoke k r).1.
Proof.
  intros Hr. unfold revoke. destruct (list_find _ _) as [[i l]|] eqn:Ef; [|done].
  apply list_find_Some in Ef as (Hi&Hl&_). simpl.
  pose proof (swap_remove_perm _ _ _ Hi) as Hp.
  assert (Hin : ∀ m, m ∈ swap_remove i (leases r) → m ∈ leases r ∧ LeaseRecord.token m ≠ k).
  { intros m Hm. split; [rewrite <- Hp; by right|]. intros Hmk.
    pose proof (wf_tokens _ _ Hr) as Hnd. rewrite <- Hp in Hnd.
    apply NoDup_cons in Hnd as [Hnd _]. apply Hnd, list_elem_of_fmap. exists m. by rewrite Hmk. }
  split; simpl; try apply Hr.
  - rewrite released_ids. apply Hr.
  - rewrite length_fmap. apply Hr.
  - pose proof (wf_tokens _ _ Hr) as Hnd. rewrite <- Hp in Hnd. by apply NoDup_cons in Hnd as [_ ?].
  - pose proof (wf_leases _ _ Hr) as Hlen. rewrite <- Hp in Hlen. simpl in Hlen. lia.
  - intros m [Hm _]%Hin. by apply Hr.
  - intros c k' (c0&->&Hc)%list_elem_of_fmap. rewrite release_owner_owner, release_owner_id.
    rewrite (wf_owner _ _ Hr) by done. split.
    + intros [(m&Hm&Hk&Hc') Hne]. exists m. split_and!; [|done..]. rewrite <- Hp in Hm.
      apply elem_of_cons in Hm as [->|]; [congruence|done].
    + intros (m&[Hm Hne]%Hin&<-&Hc'). split; [by exists m|done].
  - intros m j [Hm _]%Hin Hj. rewrite released_ids. by apply (wf_known _ _ Hr m).
Qed.

Lemma revoke_effect n k r : wf n r → revoked_one k r (revoke k r).1 (revoke k r).2.
Proof.
  intros Hr. unfold revoke. destruct (list_find _ _) as [[i l]|] eqn:Ef.
  - apply list_find_Some in Ef as (Hi&Hl&_). simpl.
    pose proof (swap_remove_perm _ _ _ Hi) as Hp.
    assert (Hlr : l ∈ leases r) by by eapply list_elem_of_lookup_2.
    split; simpl; [done|..].
    + unfold catalog. simpl. rewrite <- list_fmap_compose. apply list_fmap_ext.
      intros ? c _. apply release_owner_descriptor.
    + intros m. split.
      * intros Hm. assert (Hmr : m ∈ leases r) by (rewrite <- Hp; by right). split; [done|].
        intros Hmk. pose proof (wf_tokens _ _ Hr) as Hnd. rewrite <- Hp in Hnd.
        apply NoDup_cons in Hnd as [Hnd _]. apply Hnd, list_elem_of_fmap. exists m.
        by rewrite Hmk.
      * intros [Hm Hne]. rewrite <- Hp in Hm. apply elem_of_cons in Hm as [->|]; [congruence|done].
    + intros w. split; [intros [= <-]; by exists l|]. intros (m&Hm&Hk&->).
      assert (m = l) as -> by (apply (lease_unique n r); [done..|congruence]). done.
  - simpl. apply list_find_None in Ef. rewrite Forall_forall in Ef. split; try done.
    + naive_solver.
    + intros w. split; [done|]. intros (m&Hm&Hk&_). by destruct (Ef m Hm).
Qed.

(** The loop: exactly the leases with a listed token are gone. *)
Record revoked_all (ks : list Z) (r r' : t) (vs : list LeaseRevocation.t) : Prop := {
  ra_active : session_active r' = session_active r;
  ra_catalog : catalog r' = catalog r;
  ra_leases : ∀ l, l ∈ leases r' ↔ l ∈ leases r ∧ LeaseRecord.token l ∉ ks;
  ra_report : ∀ w, w ∈ vs ↔ ∃ l, l ∈ leases r ∧ LeaseRecord.token l ∈ ks ∧
    w = LeaseRevocation.mk (LeaseRecord.token l) (LeasePhase.kernel_id (LeaseRecord.phase l)) }.

Lemma revoke_all_spec n ks r :
  wf n r →
  wf n (revoke_all ks r).1 ∧ revoked_all ks r (revoke_all ks r).1 (revoke_all ks r).2.
Proof.
  revert r. induction ks as [|k ks IH]; intros r Hr; simpl.
  - split; [done|]. split; simpl; try done.
    + intros l. split; [intros; split; [done|apply not_elem_of_nil]|by intros []].
    + intros w. split; [by intros ?%elem_of_nil|]. by intros (l&_&?%elem_of_nil&_).
  - pose proof (revoke_wf n k r Hr) as Hr1. pose proof (revoke_effect n k r Hr) as [A1 C1 L1 V1].
    destruct (revoke k r) as [r1 v]. simpl in *.
    destruct (IH r1 Hr1) as [Hr2 [A2 C2 L2 V2]]. destruct (revoke_all ks r1) as [r2 vs].
    simpl in *. split; [done|]. split; simpl; [congruence..| |].
    + intros l. rewrite L2, L1, not_elem_of_cons. naive_solver.
    + intros w. assert (Hw : w ∈ match v with Some v => v :: vs | None => vs end ↔
          v = Some w ∨ w ∈ vs).
      { destruct v; rewrite ?elem_of_cons; naive_solver. }
      rewrite Hw, V1, V2. split.
      * intros [(l&?&<-&->)|(l&[??]%L1&?&->)]; exists l; rewrite elem_of_cons; naive_solver.
      * intros (l&Hl&[Hk|Hk]%elem_of_cons&->); [left; exists l; naive_solver|].
        destruct (decide (LeaseRecord.token l = k)); [left; exists l; naive_solver|].
        right. exists l. rewrite L1. done.
Qed.

(** ** The catalog *)

Lemma duplicate_catalog_None before l :
  duplicate_catalog before l = None → NoDup (LeaseConnector.id <$> before) →
  NoDup (LeaseConnector.id <$> before ++ l).
Proof.
  revert before. induction l as [|c l IH]; intros before Hd Hb; simpl in *;
    [by rewrite app_nil_r|].
  destruct (existsb _ before) eqn:Ex; [done|].
  replace (before ++ c :: l) with ((before ++ [c]) ++ l) by (by rewrite <- app_assoc).
  apply IH; [done|]. rewrite fmap_app. apply NoDup_app. split_and!; [done| |apply NoDup_singleton].
  intros i (p&->&Hp)%list_elem_of_fmap Hi%list_elem_of_singleton.
  apply not_true_iff_false in Ex. apply Ex, existsb_exists. exists p.
  split; [by apply list_elem_of_In|]. by apply bool_decide_true.
Qed.

Lemma validate_ok l :
  validate_connector_catalog l = None →
  (length l <= MAX_LEASE_CONNECTORS)%nat ∧ NoDup (LeaseConnector.id <$> l).
Proof.
  unfold validate_connector_catalog. destruct (Nat.ltb_spec MAX_LEASE_CONNECTORS (length l)); [done|].
  destruct (duplicate_catalog [] l) eqn:Ed; [done|]. intros _. split; [lia|].
  apply (duplicate_catalog_None [] l); [done|constructor].
Qed.

Lemma owner_of_spec l i k :
  NoDup (ConnectorRecord.id <$> l) →
  owner_of i (omap (λ old, match ConnectorRecord.owner old with
               | Some owner => Some (ConnectorRecord.id old, owner)
               | None => None
               end) l) = Some k ↔
  ∃ c, c ∈ l ∧ ConnectorRecord.id c = i ∧ ConnectorRecord.owner c = Some k.
Proof.
  unfold owner_of. induction l as [|c l IH]; intros Hnd.
  - simpl. split; [done|]. by intros (c&?%elem_of_nil&_).
  - apply NoDup_cons in Hnd as [Hc Hnd]. specialize (IH Hnd). simpl.
    destruct (ConnectorRecord.owner c) as [o|] eqn:Eo; simpl.
    + case_decide as Hi; simpl.
      * split; [intros [= ->]; exists c; split; [by left|done]|].
        intros (d&[->|Hd]%elem_of_cons&Hdi&Hdo); [congruence|]. exfalso. apply Hc.
        apply list_elem_of_fmap. exists d. split; [congruence|done].
      * destruct (list_find _ _) as [[j p]|] eqn:Ef; simpl in *; rewrite IH;
          setoid_rewrite elem_of_cons; naive_solver.
    + rewrite IH. setoid_rewrite elem_of_cons. naive_solver.
Qed.
