(* ===== verification/LeaseSpec.v ===== *)
(** * DRM leases are exclusive and offers are exact

    Every sequence of calls keeps the registry consistent; the reported
    offers, withdrawals and revocations are exactly the changes of the
    available connectors and of the leases; a reservation succeeds exactly
    when its request is valid. *)

From stdpp Require Import strings.
From S2P Require Import Prelude Host Lease LeaseInv.

Import LeaseRegistry.

(** ** Reconciliation *)

Lemma and_iff_under (P Q R : Prop) : (P → Q ↔ R) → (P ∧ Q ↔ P ∧ R).
Proof. tauto. Qed.

(** A lease survives when the new catalog describes its connectors as
    before. *)
Definition lease_kept (new : list LeaseConnector.t) (r : t) (l : LeaseRecord.t) : Prop :=
  ∀ i, i ∈ LeaseRecord.connectors l →
    ∃ d, d ∈ new ∧ d ∈ catalog r ∧ LeaseConnector.id d = i.

Lemma affected_elem n new r l :
  wf n r → l ∈ leases r →
  LeaseRecord.token l ∉ affected (changed_or_removed new r) r ↔ lease_kept new r l.
Proof.
  intros Hr Hl. unfold affected. rewrite list_elem_of_fmap. split.
  - intros Hn i Hi.
    pose proof (wf_known _ _ Hr l i Hl Hi) as (c&->&Hc)%list_elem_of_fmap.
    exists (ConnectorRecord.descriptor c). split_and!; [|apply catalog_elem; by exists c|done].
    destruct (decide (ConnectorRecord.descriptor c ∈ new)) as [|Hnew]; [done|].
    exfalso. apply Hn. exists l. split; [done|]. apply list_elem_of_filter. split; [|done].
    apply Exists_exists. exists (ConnectorRecord.id c). split; [done|].
    apply list_elem_of_fmap. exists c. split; [done|]. by apply list_elem_of_filter.
  - intros Hkept (m&Hk&(Hx&Hm)%list_elem_of_filter).
    assert (m = l) as -> by by apply (lease_unique n r).
    apply Exists_exists in Hx as (i&Hi&(c&->&(Hc&Hcr)%list_elem_of_filter)%list_elem_of_fmap).
    destruct (Hkept _ Hi) as (d&Hd&(c'&Hc'&<-)%catalog_elem&Hid). apply Hc.
    by rewrite (record_unique n r c c' Hr Hcr Hc' ltac:(done)).
Qed.

(** The offers of a change are the difference of the available connectors. *)
Record offers_exact (r r' : t) (c : LeaseOfferChanges.t) : Prop := {
  oe_tracks : ∀ d, d ∈ available r' ↔
    d ∈ LeaseOfferChanges.offered c ∨
    (d ∈ available r ∧ LeaseConnector.id d ∉ LeaseOfferChanges.withdrawn c);
  oe_offered : ∀ d, d ∈ LeaseOfferChanges.offered c → d ∉ available r;
  oe_withdrawn : ∀ i, i ∈ LeaseOfferChanges.withdrawn c →
    ∃ d, d ∈ available r ∧ d ∉ available r' ∧ LeaseConnector.id d = i }.

(** The revocations of a change are the leases that ended, each with the
    kernel lease it had. *)
Record revocations_exact (r r' : t) (c : LeaseOfferChanges.t) : Prop := {
  re_kept : ∀ l, l ∈ leases r' → l ∈ leases r;
  re_revoked : ∀ v, v ∈ LeaseOfferChanges.revoked c ↔
    ∃ l, l ∈ leases r ∧ l ∉ leases r' ∧
      v = LeaseRevocation.mk (LeaseRecord.token l) (LeasePhase.kernel_id (LeaseRecord.phase l)) }.

Lemma revocations_of_tokens ks r0 r r1 r' c :
  revoked_all ks r0 r1 (LeaseOfferChanges.revoked c) → leases r0 = leases r →
  leases r' = leases r1 → revocations_exact r r' c.
Proof.
  intros [_ _ L V] E0 El. rewrite E0 in *. split.
  - intros l. rewrite El, L. by intros [].
  - intros v. rewrite V. setoid_rewrite El. setoid_rewrite L. split.
    + intros (l&Hl&Hk&->). exists l. split_and!; [done|by intros []|done].
    + intros (l&Hl&Hn&->). exists l. split_and!; [done| |done].
      destruct (decide (LeaseRecord.token l ∈ ks)); [done|]. by destruct Hn.
Qed.

Lemma reconcile_spec n new r :
  wf n r →
  match reconcile_connectors new r with
  | (r', Ok c) => wf n r' ∧ catalog r' ≡ₚ new ∧ session_active r' = session_active r ∧
      offers_exact r r' c ∧ revocations_exact r r' c ∧
      (∀ l, l ∈ leases r' ↔ l ∈ leases r ∧ lease_kept new r l)
  | (r', Err e) => r' = r ∧ validate_connector_catalog new = Some e
  | (_, Panic) => False
  end.
Proof.
  intros Hr. unfold reconcile_connectors.
  destruct (validate_connector_catalog new) as [e|] eqn:Ev; [done|].
  apply validate_ok in Ev as [Hlen Hnd]. set (key := λ c, ConnectorId.key (LeaseConnector.id c)).
  set (new' := sort_by_key key new). assert (Hp : new' ≡ₚ new) by apply sort_by_key_perm.
  set (ks := affected (changed_or_removed new' r) r).
  pose proof (revoke_all_spec n ks r Hr) as [Hr1 Hra].
  destruct (revoke_all ks r) as [r1 revoked]. simpl in Hr1, Hra. cbv zeta.
  set (records := _ <$> new').
  assert (Hids : ConnectorRecord.id <$> records = LeaseConnector.id <$> new').
  { unfold records. rewrite <- list_fmap_compose. by apply list_fmap_ext. }
  assert (Hcat : ConnectorRecord.descriptor <$> records = new').
  { unfold records. rewrite <- list_fmap_compose. apply list_fmap_id. }
  assert (Hkept : ∀ l, l ∈ leases r1 ↔ l ∈ leases r ∧ lease_kept new r l).
  { intros l. rewrite (ra_leases _ _ _ _ Hra). apply and_iff_under. intros Hl.
    unfold ks. rewrite (affected_elem n new' r l Hr Hl). unfold lease_kept.
    split; intros Hk i (d&Hd&?)%Hk; exists d; [rewrite <- Hp|rewrite Hp]; done. }
  set (r' := mk (session_active r1) records (leases r1) (next_token r1)).
  assert (Hids1 : NoDup (ConnectorRecord.id <$> records)) by by rewrite Hids, Hp.
  split_and!.
  - split; simpl; try apply Hr1.
    + done.
    + unfold records. by rewrite length_fmap, Hp.
    + intros c k (d&->&Hd)%list_elem_of_fmap. simpl. unfold ConnectorRecord.id at 1. simpl.
      unfold old_owners. rewrite owner_of_spec by apply Hr1. split.
      * intros (c&Hc&Hid&Ho). apply (wf_owner _ _ Hr1) in Ho as (l&?&?&?); [|done].
        exists l. by rewrite <- Hid.
      * intros (l&Hl&<-&Hi). pose proof (wf_known _ _ Hr1 l _ Hl Hi) as (c&Hid&Hc)%list_elem_of_fmap.
        exists c. split_and!; [done..|]. apply (wf_owner _ _ Hr1); [done|]. exists l.
        by rewrite <- Hid.
    + intros l i Hl Hi. rewrite Hids. apply Hkept in Hl as [_ Hk].
      destruct (Hk i Hi) as (d&Hd&_&<-). apply list_elem_of_fmap. exists d. by rewrite Hp.
  - unfold catalog. simpl. by rewrite Hcat.
  - simpl. apply Hra.
  - assert (Hu : ∀ d e, d ∈ available r → e ∈ available r →
        LeaseConnector.id d = LeaseConnector.id e → d = e).
    { intros d e [_ Hd]%available_elem [_ He]%available_elem E.
      by pose proof (record_unique n r _ _ Hr Hd He E) as [= ->]. }
    split; simpl.
    + intros d. rewrite list_elem_of_filter, list_elem_of_fmap. fold r'. split.
      * intros Hd. destruct (decide (d ∈ available r)); [right|by left]. split; [done|].
        intros (x&Hx&(Hne&Hxr)%list_elem_of_filter). apply Hne. by rewrite <- (Hu d x).
      * intros [[]|[Hd Hn]]; [done|]. destruct (decide (d ∈ available r')); [done|].
        exfalso. apply Hn. exists d. split; [done|]. by apply list_elem_of_filter.
    + intros d (Hd&_)%list_elem_of_filter. done.
    + intros i (d&->&(Hn&Hd)%list_elem_of_filter)%list_elem_of_fmap. by exists d.
  - by apply (revocations_of_tokens ks r r r1).
  - done.
Qed.

(** ** Session changes *)

Lemma no_available r : session_active r = false → available r = [].
Proof. intros Hs. apply elem_of_nil_inv. intros d [Hd _]%available_elem. congruence. Qed.

Lemma exact_refl r : offers_exact r r LeaseOfferChanges.dflt ∧
  revocations_exact r r LeaseOfferChanges.dflt.
Proof.
  split; split; simpl; try done.
  - intros d. rewrite !elem_of_nil. tauto.
  - by intros d ?%elem_of_nil.
  - by intros i ?%elem_of_nil.
  - intros v. rewrite elem_of_nil. split; [done|]. by intros (l&?&[]&_).
Qed.

Lemma session_spec n a r :
  inv n r →
  let '(r', c) := set_session_active a r in
  inv n r' ∧ session_active r' = a ∧ catalog r' = catalog r ∧
  offers_exact r r' c ∧ revocations_exact r r' c ∧
  (∀ l, l ∈ leases r' ↔ l ∈ leases r ∧ a = true).
Proof.
  intros [Hr Hq]. unfold set_session_active. destruct (Bool.eqb (session_active r) a) eqn:Ea.
  { apply eqb_prop in Ea. destruct (exact_refl r). split_and!; try done.
    intros l. split; [|by intros []]. intros Hl. split; [done|]. subst.
    destruct (session_active r) eqn:Es; [done|]. rewrite (Hq Es) in Hl. by apply elem_of_nil in Hl. }
  apply eqb_false_iff in Ea. set (r0 := mk a (connectors r) (leases r) (next_token r)).
  assert (Hr0 : wf n r0) by (split; apply Hr).
  pose proof (revoke_all_spec n (if a then [] else LeaseRecord.token <$> leases r0) r0 Hr0)
    as [Hr1 Hra].
  destruct (revoke_all _ r0) as [r1 revoked]. simpl in Hr1, Hra.
  assert (Hl : ∀ l, l ∈ leases r1 ↔ l ∈ leases r ∧ a = true).
  { intros l. rewrite (ra_leases _ _ _ _ Hra). apply and_iff_under. intros Hl.
    destruct a; split; try done; [intros _; apply not_elem_of_nil|].
    intros Hn. exfalso. apply Hn, list_elem_of_fmap. by exists l. }
  assert (Ha : session_active r1 = a) by apply Hra.
  split_and!; [split; [done|]|done|apply Hra| | |done].
  - intros Hs. apply elem_of_nil_inv. intros l [_ Ht]%Hl. congruence.
  - split; simpl; try done.
    + intros d. split; [by left|]. intros [|[Hd Hw]]; [done|]. exfalso. apply Hw.
      apply list_elem_of_fmap. by exists d.
    + intros d Hd [Hs _]%available_elem. apply available_elem in Hd as [Hs' _]. congruence.
    + intros i (d&->&Hd)%list_elem_of_fmap. exists d. split_and!; [done| |done].
      intros [Hs _]%available_elem. apply available_elem in Hd as [Hs' _]. congruence.
  - by eapply (revocations_of_tokens _ r0 r r1).
Qed.

(** ** Reservation *)

Lemma find_connector_spec r i :
  match find_connector i r with
  | Some (j, c) => connectors r !! j = Some c ∧ ConnectorRecord.id c = i
  | None => i ∉ (ConnectorRecord.id <$> connectors r)
  end.
Proof.
  unfold find_connector. destruct (list_find _ _) as [[j c]|] eqn:Ef.
  - apply list_find_Some in Ef as (?&?&_). done.
  - apply list_find_None in Ef. rewrite Forall_forall in Ef.
    intros (c&->&Hc)%list_elem_of_fmap. by apply (Ef c).
Qed.

(** The connectors that a request may name. *)
Definition leasable (r : t) (i : ConnectorId.t) : Prop :=
  ∃ d, ConnectorRecord.mk d None ∈ connectors r ∧ LeaseConnector.id d = i.

Lemma leasable_find r i :
  NoDup (ConnectorRecord.id <$> connectors r) → leasable r i ↔
  ∃ j d, find_connector i r = Some (j, ConnectorRecord.mk d None).
Proof.
  intros Hr. pose proof (find_connector_spec r i) as Hf. split.
  - intros (d&Hd&<-). destruct (find_connector _ r) as [[j c]|].
    + destruct Hf as [Hj Hc]. exists j, d. f_equal. f_equal.
      apply (record_unique_ids r); [done|by eapply list_elem_of_lookup_2|done|done].
    + exfalso. apply Hf, list_elem_of_fmap. eexists. split; [|exact Hd]. done.
  - intros (j&d&Ef). rewrite Ef in Hf. destruct Hf as [Hj Hi]. exists d.
    split; [by eapply list_elem_of_lookup_2|done].
Qed.

Lemma check_request_None d before l r :
  NoDup (ConnectorRecord.id <$> connectors r) →
  check_request d before l r = None ↔
    Forall (λ i, ConnectorId.device_id i = d) l ∧ NoDup l ∧
    (∀ i, i ∈ l → i ∉ before) ∧ Forall (leasable r) l.
Proof.
  intros Hr. revert before. induction l as [|i l IH]; intros before; simpl.
  { split; [intros _; split_and!; try constructor; by intros i ?%elem_of_nil|done]. }
  rewrite !Forall_cons, NoDup_cons. destruct (Z.eqb_spec (ConnectorId.device_id i) d) as [Hd|Hd];
    simpl; [|split; [done|by intros ([]&_)]].
  case_decide as Hb; [split; [done|]; intros (_&_&Hn&_); by destruct (Hn i ltac:(by left))|].
  pose proof (leasable_find r i Hr) as Hlf.
  destruct (find_connector i r) as [[j [c [o|]]]|] eqn:Ef; simpl.
  - split; [done|]. intros (_&_&_&Hx&_). apply Hlf in Hx as (?&?&[=]).
  - rewrite IH. setoid_rewrite elem_of_app. setoid_rewrite list_elem_of_singleton.
    setoid_rewrite elem_of_cons. assert (leasable r i) by (apply Hlf; eauto).
    split; [|naive_solver]. intros (?&?&Hn&?). split_and!; try done; [|naive_solver].
    intros Hi. destruct (Hn i Hi). by right.
  - split; [done|]. intros (_&_&_&Hx&_). by apply Hlf in Hx as (?&?&[=]).
Qed.

(** The records after the claim. *)
Definition claimed (k : Z) (l : list ConnectorId.t) (c : ConnectorRecord.t) : ConnectorRecord.t :=
  if decide (ConnectorRecord.id c ∈ l)
  then ConnectorRecord.mk (ConnectorRecord.descriptor c) (Some k) else c.

Lemma claimed_id k l c : ConnectorRecord.id (claimed k l c) = ConnectorRecord.id c.
Proof. unfold claimed. by case_decide. Qed.

Lemma claimed_ids k l (cs : list ConnectorRecord.t) :
  ConnectorRecord.id <$> (claimed k l <$> cs) = ConnectorRecord.id <$> cs.
Proof. rewrite <- list_fmap_compose. apply list_fmap_ext. intros. apply claimed_id. Qed.

Lemma claim_one r i j c k :
  NoDup (ConnectorRecord.id <$> connectors r) → find_connector i r = Some (j, c) →
  <[j := ConnectorRecord.mk (ConnectorRecord.descriptor c) (Some k)]> (connectors r) =
    claimed k [i] <$> connectors r.
Proof.
  intros Hr Hf. pose proof (find_connector_spec r i) as Hs. rewrite Hf in Hs.
  destruct Hs as [Hj Hi]. apply list_eq. intros m. rewrite list_lookup_fmap.
  destruct (decide (m = j)) as [->|Hm].
  - rewrite list_lookup_insert_eq by by eapply lookup_lt_Some. rewrite Hj. simpl.
    unfold claimed. by rewrite decide_True by (rewrite Hi; by left).
  - rewrite list_lookup_insert_ne by done. destruct (connectors r !! m) as [d|] eqn:Em; [|done].
    simpl. unfold claimed. rewrite decide_False; [done|]. rewrite list_elem_of_singleton.
    intros Hd. apply Hm. eapply (NoDup_lookup (ConnectorRecord.id <$> connectors r)); [apply Hr|..];
      rewrite list_lookup_fmap; [by rewrite Em|by rewrite Hj; simpl; rewrite Hi, Hd].
Qed.

Lemma claimed_cons k i l c : claimed k l (claimed k [i] c) = claimed k (i :: l) c.
Proof.
  unfold claimed at 1. rewrite claimed_id. unfold claimed.
  destruct (decide (ConnectorRecord.id c ∈ l)) as [Hl|Hl],
    (decide (ConnectorRecord.id c ∈ [i])) as [Hi|Hi],
    (decide (ConnectorRecord.id c ∈ i :: l)) as [Hd|Hd]; simpl; try done; exfalso;
    rewrite elem_of_cons in Hd; rewrite list_elem_of_singleton in Hi; naive_solver.
Qed.

Lemma claim_spec k l r :
  NoDup (ConnectorRecord.id <$> connectors r) → NoDup l → Forall (leasable r) l →
  ∃ ds, claim k l r =
      (mk (session_active r) (claimed k l <$> connectors r) (leases r) (next_token r), Ok ds) ∧
    LeaseConnector.id <$> ds = l ∧ Forall (.∈ catalog r) ds.
Proof.
  revert r. induction l as [|i l IH]; intros r Hids Hnd Hl; simpl.
  { exists []. split_and!; [|done|constructor].
    replace (claimed k [] <$> connectors r) with (connectors r); [by destruct r|].
    symmetry. rewrite <- (list_fmap_id (connectors r)) at 2. apply list_fmap_ext. intros ? c _.
    unfold claimed. rewrite decide_False; [done|]. apply not_elem_of_nil. }
  apply NoDup_cons in Hnd as [Hi Hnd]. apply Forall_cons in Hl as [Hli Hl].
  apply (leasable_find r i Hids) in Hli as (j&d&Ef).
  pose proof (find_connector_spec r i) as Hs. rewrite Ef in Hs. destruct Hs as [Hj Hid].
  set (r1 := mk (session_active r) (claimed k [i] <$> connectors r) (leases r) (next_token r)).
  destruct (IH r1) as (ds&Ec&Eds&Hds); [unfold r1; simpl; by rewrite claimed_ids|done| |].
  { rewrite Forall_forall in *. intros j' Hj'. destruct (Hl j' Hj') as (d'&Hd'&<-). exists d'.
    split; [|done]. unfold r1. simpl. apply list_elem_of_fmap. eexists. split; [|exact Hd'].
    unfold claimed. rewrite decide_False; [done|]. rewrite list_elem_of_singleton. intros <-. done. }
  exists (d :: ds). split_and!; [|by rewrite fmap_cons, Eds, <- Hid|].
  - run_step run_get. rewrite Ef. run_step run_expect. run_step run_modify. cbv beta. simpl.
    pose proof (claim_one r i j _ k Hids Ef) as Eone. simpl in Eone. rewrite Eone. fold r1.
    etransitivity; [by eapply run_ok|]. unfold r1. simpl.
    rewrite <- list_fmap_compose. unfold mret, run_ret. do 2 f_equal. apply list_fmap_ext. intros ? c _. apply claimed_cons.
  - constructor; [apply catalog_elem; eexists; split; [by eapply list_elem_of_lookup_2|done]|].
    eapply Forall_impl; [done|]. intros e (c&(c'&->&Hc')%list_elem_of_fmap&<-)%catalog_elem.
    apply catalog_elem. exists c'. split; [done|]. unfold claimed. by case_decide.
Qed.

(** A request that [reserve] accepts. *)
Record reservable (d : Z) (l : list ConnectorId.t) (r : t) : Prop := {
  rv_active : session_active r = true;
  rv_some : l ≠ [];
  rv_few : (length l <= MAX_CONNECTORS_PER_LEASE)%nat;
  rv_room : (length (leases r) < MAX_ACTIVE_LEASES)%nat;
  rv_device : Forall (λ i, ConnectorId.device_id i = d) l;
  rv_distinct : NoDup l;
  rv_offered : Forall (λ i, i ∈ (LeaseConnector.id <$> available r)) l }.

Lemma leasable_available r i :
  session_active r = true → leasable r i ↔ i ∈ (LeaseConnector.id <$> available r).
Proof.
  intros Ha. rewrite list_elem_of_fmap. split.
  - intros (d&Hd&<-). exists d. split; [done|]. by apply available_elem.
  - intros (d&->&[_ Hd]%available_elem). by exists d.
Qed.

Lemma following_token_id k : 1 <= k < U64.MAX → following_token k = k + 1.
Proof.
  intros. unfold following_token, U64.wrapping_succ. ints. rewrite Z.mod_small by lia.
  by destruct (Z.eqb_spec (k + 1) 0); [lia|].
Qed.

(** The registry after a reservation. *)
Definition after_reserve (l : list ConnectorId.t) (r : t) : t :=
  mk (session_active r) (claimed (next_token r) l <$> connectors r)
    (leases r ++ [LeaseRecord.mk (next_token r) l LeasePhase.Reserved])
    (following_token (next_token r)).

Lemma reserve_cases n d l r :
  wf n r →
  (reservable d l r ∧ ∃ ds, LeaseConnector.id <$> ds = l ∧ Forall (.∈ catalog r) ds ∧
     reserve d l r = (after_reserve l r, Ok (LeaseReservation.mk (next_token r) ds))) ∨
  (¬ reservable d l r ∧ ∃ e, reserve d l r = (r, Err e)).
Proof.
  intros Hr. unfold reserve. rewrite run_get.
  destruct (session_active r) eqn:Ea; simpl; [|right; split; [intros []; congruence|by eexists]].
  destruct (bool_decide (l = [])) eqn:El.
  { apply bool_decide_eq_true in El. right. split; [by intros []|by eexists]. }
  apply bool_decide_eq_false in El. destruct (Nat.ltb_spec MAX_CONNECTORS_PER_LEASE (length l)).
  { right. split; [intros []; lia|by eexists]. }
  pose proof (wf_leases _ _ Hr) as Hmax.
  destruct (Nat.eqb_spec (length (leases r)) MAX_ACTIVE_LEASES).
  { right. split; [intros []; lia|by eexists]. }
  pose proof (check_request_None d [] l r (wf_ids _ _ Hr)) as Hc.
  destruct (check_request d [] l r) as [e|] eqn:Ec.
  { right. split; [|by eexists]. intros [_ _ _ _ Hd Hnd Ho]. assert (Some e = None); [|done].
    apply Hc. split_and!; [done..|intros; apply not_elem_of_nil|].
    eapply Forall_impl; [exact Ho|]. intros i Hi. by apply leasable_available. }
  destruct (proj1 Hc eq_refl) as (Hd&Hnd&_&Hl). left. split.
  { split; try done; [lia|]. eapply Forall_impl; [exact Hl|]. intros i Hi.
    by apply leasable_available. }
  set (r0 := mk (session_active r) (connectors r) (leases r) (following_token (next_token r))).
  destruct (claim_spec (next_token r) l r0 (wf_ids _ _ Hr) Hnd Hl) as (ds&Eclaim&Eds&Hds).
  exists ds. split_and!; [done..|]. rewrite run_modify. fold r0.
  etransitivity; [eapply run_ok, Eclaim|]. done.
Qed.

Lemma after_reserve_available l r d :
  d ∈ available (after_reserve l r) ↔ d ∈ available r ∧ LeaseConnector.id d ∉ l.
Proof.
  rewrite !available_elem. simpl. rewrite <- (assoc and). apply and_iff_under. intros _.
  rewrite list_elem_of_fmap. split.
  - intros (c&Ec&Hc). unfold claimed in Ec. case_decide as Hi; [done|]. by subst.
  - intros [Hc Hn]. eexists. split; [|exact Hc]. unfold claimed. by rewrite decide_False.
Qed.

Lemma after_reserve_inv n d l r :
  inv n r → reservable d l r → n < U64.MAX - 1 → inv (n + 1) (after_reserve l r).
Proof.
  intros [Hr Hq] [Ha Hs Hf Hroom Hd Hnd Ho] Hn. pose proof (wf_next _ _ Hr) as Hnext.
  assert (Hfree : ∀ i, i ∈ l → leasable r i).
  { rewrite Forall_forall in Ho. intros i Hi. by apply leasable_available, Ho. }
  assert (Hft : following_token (next_token r) = next_token r + 1)
    by (apply following_token_id; lia).
  split; [|by intros Hoff; simpl in Hoff; congruence].
  split; simpl; rewrite ?Hft, ?claimed_ids, ?length_fmap, ?fmap_app, ?length_app;
    simpl; try apply Hr; try lia.
  - apply NoDup_app. split_and!; [apply Hr| |apply NoDup_singleton].
    intros k (m&->&Hm)%list_elem_of_fmap Hk%list_elem_of_singleton.
    pose proof (wf_lease _ _ Hr m Hm). lia.
  - intros m [Hm| ->%list_elem_of_singleton]%elem_of_app; [|simpl; split_and!; done || lia].
    pose proof (wf_lease _ _ Hr m Hm) as (?&?&?&?). split_and!; done || lia.
  - intros c k (c0&->&Hc)%list_elem_of_fmap. rewrite claimed_id.
    setoid_rewrite elem_of_app. setoid_rewrite list_elem_of_singleton.
    unfold claimed. destruct (decide (ConnectorRecord.id c0 ∈ l)) as [Hi|Hi]; simpl.
    + split; [intros [= <-]; eexists; split; [by right|done]|].
      intros (m&[Hm| ->]&<-&Him); [|done]. exfalso. destruct (Hfree _ Hi) as (dd&Hdd&Hid).
      assert (c0 = ConnectorRecord.mk dd None) as -> by by apply (record_unique n r).
      by assert (None = Some (LeaseRecord.token m)) by (apply (wf_owner _ _ Hr _ _ Hdd); by exists m).
    + rewrite (wf_owner _ _ Hr) by done. split; [naive_solver|].
      intros (m&[Hm| ->]&<-&Him); [by exists m|done].
  - intros m i [Hm| ->%list_elem_of_singleton]%elem_of_app Hi; [by apply (wf_known _ _ Hr m)|].
    destruct (Hfree _ Hi) as (dd&Hdd&<-). apply list_elem_of_fmap. eexists. by split; [|exact Hdd].
Qed.

(** ** Activation *)

Lemma activate_cases n k i r :
  inv n r →
  (∃ j l, leases r !! j = Some l ∧ LeaseRecord.token l = k ∧
     LeaseRecord.phase l = LeasePhase.Reserved ∧
     activate k i r =
       (mk (session_active r) (connectors r)
          (<[j := LeaseRecord.mk k (LeaseRecord.connectors l) (LeasePhase.Active i)]> (leases r))
          (next_token r),
        Ok (ActiveLease.mk k i (LeaseRecord.connectors l)))) ∨
  (∃ e, activate k i r = (r, Err e)).
Proof.
  intros Hr. unfold activate. rewrite run_get. destruct (list_find _ _) as [[j l]|] eqn:Ef;
    [|right; by eexists].
  apply list_find_Some in Ef as (Hj&Hk&_). case_decide as Hp; [right; by eexists|].
  left. exists j, l. by split_and!.
Qed.

(** Only the phase of the lease changes. *)
Lemma activate_inv n k i r : inv n r → inv n (activate k i r).1.
Proof.
  intros Hr. destruct (activate_cases n k i r Hr) as [(j&l&Hj&Hk&Hp&->)|[e ->]]; [|done].
  destruct Hr as [Hr Hq]. simpl. set (l' := LeaseRecord.mk _ _ _).
  assert (Hlr : l ∈ leases r) by by eapply list_elem_of_lookup_2.
  assert (Hin : ∀ m, m ∈ <[j := l']> (leases r) → ∃ m', m' ∈ leases r ∧
      LeaseRecord.token m' = LeaseRecord.token m ∧
      LeaseRecord.connectors m' = LeaseRecord.connectors m).
  { intros m [x Hx]%list_elem_of_lookup. apply list_lookup_insert_Some in Hx as [(_&<-&_)|[_ Hx]];
      [by exists l|]. exists m. split; [by eapply list_elem_of_lookup_2|done]. }
  split.
  2: { intros Hs. simpl in Hs. rewrite (Hq Hs) in Hj. done. }
  split; simpl; rewrite ?length_insert; try apply Hr.
  - rewrite list_fmap_insert. simpl. rewrite list_insert_id; [apply Hr|].
    by rewrite list_lookup_fmap, Hj, <- Hk.
  - intros m (m'&Hm'&<-&<-)%Hin. by apply Hr.
  - intros c k' Hc. rewrite (wf_owner _ _ Hr) by done. split.
    + intros (m&[x Hx]%list_elem_of_lookup&<-&Hi). destruct (decide (x = j)) as [->|Hne].
      * exists l'. assert (m = l) as -> by congruence. split_and!; [|done..].
        apply list_elem_of_lookup_2 with j, list_lookup_insert_eq. by eapply lookup_lt_Some.
      * exists m. split_and!; [|done..]. apply list_elem_of_lookup_2 with x.
        by rewrite list_lookup_insert_ne.
    + intros (m&(m'&Hm'&Et&Ec)%Hin&<-&Hi). exists m'. by rewrite Ec.
  - intros m x (m'&Hm'&_&<-)%Hin. by apply (wf_known _ _ Hr).
Qed.

(** ** Sequences of calls *)

(** No call of the registry panics. *)
Definition answered (a : answer) : Prop :=
  match a with
  | Reconciled Panic | ReservedLease Panic | ActivatedLease Panic => False
  | _ => True
  end.

Lemma inv_mono n m r : inv n r → n <= m → inv m r.
Proof. intros [Hr Hq] Hm. split; [|done]. pose proof (wf_next _ _ Hr). split; try apply Hr. lia. Qed.

Lemma inv_new : inv 0 new.
Proof.
  split; [|done]. split; simpl; try (by constructor); unfold MAX_LEASE_CONNECTORS, MAX_ACTIVE_LEASES;
    try lia; by intros ? ? ?%elem_of_nil || by intros ? ?%elem_of_nil.
Qed.

Lemma step_inv n r c :
  inv n r → n < U64.MAX - 1 → inv (n + 1) (step r c).1 ∧ answered (step r c).2.
Proof.
  intros Hr Hn. destruct c as [new|a|d l|k i|k]; simpl.
  - pose proof (reconcile_spec n new r (proj1 Hr)) as Hs.
    destruct (reconcile_connectors new r) as [r' [c|e|]]; [| |done]; simpl; (split; [|done]).
    + destruct Hs as (Hr'&_&Ha&_&_&Hl). apply inv_mono with n; [|lia]. split; [done|].
      intros Hoff. apply elem_of_nil_inv. intros x [Hx _]%Hl. destruct Hr as [_ Hq].
      rewrite Ha in Hoff. rewrite (Hq Hoff) in Hx. by apply elem_of_nil in Hx.
    + destruct Hs as [-> _]. by apply inv_mono with n; [|lia].
  - pose proof (session_spec n a r Hr) as Hs. destruct (set_session_active a r) as [r' c].
    destruct Hs as (?&_). split; [|done]. by apply inv_mono with n; [|lia].
  - destruct (reserve_cases n d l r (proj1 Hr)) as [(Hv&ds&_&_&->)|(_&e&->)]; simpl;
      (split; [|done]); [by apply (after_reserve_inv n d)|by apply inv_mono with n; [|lia]].
  - pose proof (activate_inv n k i r Hr) as Ha.
    destruct (activate_cases n k i r Hr) as [(?&?&_&_&_&E)|[e E]]; rewrite E in *; simpl in *;
      (split; [|done]); apply inv_mono with n; (done || lia).
  - destruct Hr as [Hr Hq]. pose proof (revoke_wf n k r Hr). pose proof (revoke_effect n k r Hr) as [A _ L _].
    destruct (revoke k r) as [r' v]. simpl in *. split; [|done]. apply inv_mono with n; [|lia].
    split; [done|]. intros Hoff. apply elem_of_nil_inv. intros x [Hx _]%L.
    rewrite A in Hoff. rewrite (Hq Hoff) in Hx. by apply elem_of_nil in Hx.
Qed.

Lemma run_inv cs n r :
  inv n r → n + Z.of_nat (length cs) < U64.MAX →
  inv (n + Z.of_nat (length cs)) (run_calls step r cs).1 ∧
  Forall answered (run_calls step r cs).2.
Proof.
  revert n r. induction cs as [|c cs IH]; intros n r Hr Hn.
  - simpl. split; [|constructor]. by rewrite Z.add_0_r.
  - rewrite run_calls_cons. simpl length in *. rewrite Nat2Z.inj_succ in *.
    destruct (step_inv n r c Hr ltac:(lia)) as [Hr1 Ha]. simpl.
    destruct (IH (n + 1) _ Hr1 ltac:(lia)) as [? ?]. split; [|by constructor].
    by replace (n + Z.succ (Z.of_nat (length cs))) with (n + 1 + Z.of_nat (length cs)) by lia.
Qed.

(** What every client may rely on. *)
Record safe (r : t) : Prop := {
  safe_exclusive : ∀ l m i, l ∈ leases r → m ∈ leases r →
    i ∈ LeaseRecord.connectors l → i ∈ LeaseRecord.connectors m → l = m;
  safe_tokens : NoDup (LeaseRecord.token <$> leases r);
  safe_owner : ∀ c k, c ∈ connectors r →
    ConnectorRecord.owner c = Some k ↔
    ∃ l, l ∈ leases r ∧ LeaseRecord.token l = k ∧
         ConnectorRecord.id c ∈ LeaseRecord.connectors l;
  safe_leased : ∀ l, l ∈ leases r →
    LeaseRecord.connectors l ≠ [] ∧ NoDup (LeaseRecord.connectors l) ∧
    (length (LeaseRecord.connectors l) <= 8)%nat ∧
    ∀ i, i ∈ LeaseRecord.connectors l → i ∈ (LeaseConnector.id <$> catalog r);
  safe_catalog : NoDup (LeaseConnector.id <$> catalog r);
  safe_bounds : (length (catalog r) <= 32)%nat ∧ (length (leases r) <= 16)%nat;
  safe_inactive : session_active r = false → leases r = [] ∧ available r = [] }.

Lemma catalog_ids r : LeaseConnector.id <$> catalog r = ConnectorRecord.id <$> connectors r.
Proof. unfold catalog. by rewrite <- list_fmap_compose. Qed.

Lemma inv_safe n r : inv n r → safe r.
Proof.
  intros [Hr Hq]. split; rewrite ?catalog_ids.
  - intros l m i. by apply (lease_exclusive n).
  - apply Hr.
  - apply Hr.
  - intros l Hl. pose proof (wf_lease _ _ Hr l Hl) as (?&?&?&_). split_and!; [done..|].
    intros i. by apply (wf_known _ _ Hr).
  - apply Hr.
  - unfold catalog. rewrite length_fmap. split; apply Hr.
  - intros Hs. split; [by apply Hq|by apply no_available].
Qed.

Lemma reachable_inv cs :
  Z.of_nat (length cs) < U64.MAX → inv (Z.of_nat (length cs)) (run_calls step new cs).1.
Proof. intros Hn. by apply (run_inv cs 0 new inv_new). Qed.

(** ** Claims *)

(** C29: After any sequence of calls shorter than the 64-bit token space no call
    has panicked, no connector is in two leases, a connector has an owner
    exactly when the lease of that token holds it, every leased connector is in
    the catalog, the capacities hold, and an inactive session has neither
    leases nor offers. *)
Theorem lease_registry_safe (cs : list call) :
  Z.of_nat (length cs) < U64.MAX →
  safe (run_calls step new cs).1 ∧ Forall answered (run_calls step new cs).2.
Proof.
  intros Hn. destruct (run_inv cs 0 new inv_new Hn) as [Hr Ha]. split; [|done].
  eapply inv_safe, Hr.
Qed.

(** A change of the catalog or of the session reports exactly what a client
    must do: removing the withdrawn connectors and adding the offered ones
    gives the connectors that are available now, nothing is offered twice or
    withdrawn needlessly, and the revocations are exactly the leases that
    ended, each with the kernel lease it had. A lease survives a new catalog
    exactly when its connectors are described as before, and no lease survives
    the end of the session. A rejected catalog changes nothing. *)
Theorem lease_changes_exact (cs : list call) :
  Z.of_nat (length cs) < U64.MAX →
  let r := (run_calls step new cs).1 in
  (∀ catalog', match reconcile_connectors catalog' r with
   | (r', Ok c) => catalog r' ≡ₚ catalog' ∧ offers_exact r r' c ∧ revocations_exact r r' c ∧
       (∀ l, l ∈ leases r' ↔ l ∈ leases r ∧ lease_kept catalog' r l)
   | (r', Err e) => r' = r ∧ validate_connector_catalog catalog' = Some e
   | (_, Panic) => False
   end) ∧
  (∀ a, let '(r', c) := set_session_active a r in
     offers_exact r r' c ∧ revocations_exact r r' c ∧ catalog r' = catalog r ∧
     (∀ l, l ∈ leases r' ↔ l ∈ leases r ∧ a = true)).
Proof.
  intros Hn r. pose proof (reachable_inv cs Hn) as Hr. fold r in Hr. split.
  - intros l. pose proof (reconcile_spec _ l r (proj1 Hr)) as Hs.
    destruct (reconcile_connectors l r) as [r' [c|e|]]; [|done..].
    destruct Hs as (_&?&_&?&?&?). by split_and!.
  - intros a. pose proof (session_spec _ a r Hr) as Hs.
    destruct (set_session_active a r) as [r' c]. destruct Hs as (_&_&?&?&?&?). by split_and!.
Qed.

(** A reservation succeeds exactly when the session is active, the request
    names between one and eight distinct available connectors of the device
    and a lease is free. It then returns their descriptions in the order of
    the request under a token no lease has, and withdraws exactly them; in
    every other case it returns an error and changes nothing. It never fails
    its [expect]. *)
Theorem reserve_exact (cs : list call) (d : Z) (l : list ConnectorId.t) :
  Z.of_nat (length cs) < U64.MAX →
  let r := (run_calls step new cs).1 in
  match reserve d l r with
  | (r', Ok v) => reservable d l r ∧
      LeaseConnector.id <$> LeaseReservation.connectors v = l ∧
      Forall (.∈ catalog r) (LeaseReservation.connectors v) ∧
      LeaseReservation.token v ∉ (LeaseRecord.token <$> leases r) ∧
      leases r' = leases r ++
        [LeaseRecord.mk (LeaseReservation.token v) l LeasePhase.Reserved] ∧
      (∀ c, c ∈ available r' ↔ c ∈ available r ∧ LeaseConnector.id c ∉ l)
  | (r', Err _) => r' = r ∧ ¬ reservable d l r
  | (_, Panic) => False
  end.
Proof.
  intros Hn r. pose proof (reachable_inv cs Hn) as [Hr _]. fold r in Hr.
  destruct (reserve_cases _ d l r Hr) as [(Hv&ds&Hds&Hin&->)|(Hv&e&->)]; [|done].
  simpl. split_and!; try done.
  - intros (m&E&Hm)%list_elem_of_fmap. pose proof (wf_lease _ _ Hr m Hm). lia.
  - intros c. apply after_reserve_available.
Qed.

(** ** Witnesses *)

Definition demo_connector (i : Z) : LeaseConnector.t :=
  LeaseConnector.mk (ConnectorId.mk 1 i) EmptyString EmptyString (i + 100) (i + 200).

(** Two connectors; the first is leased and active. *)
Definition demo_calls : list call :=
  [Reconcile [demo_connector 2; demo_connector 1]; Reserve 1 [ConnectorId.mk 1 1]; Activate 1 9].

Lemma lease_registry_safe_witness :
  length (leases (run_calls step new demo_calls).1) = 1%nat ∧
  safe (run_calls step new demo_calls).1 ∧ Forall answered (run_calls step new demo_calls).2.
Proof.
  split; [vm_compute; reflexivity|]. apply (lease_registry_safe demo_calls). vm_compute. reflexivity.
Defined.

(** The pause of the demonstration revokes its kernel lease. *)
Lemma lease_changes_exact_witness :
  let r := (run_calls step new demo_calls).1 in
  LeaseOfferChanges.revoked (set_session_active false r).2 = [LeaseRevocation.mk 1 (Some 9)] ∧
  ∀ a, let '(r', c) := set_session_active a r in
     offers_exact r r' c ∧ revocations_exact r r' c ∧ catalog r' = catalog r ∧
     (∀ l, l ∈ leases r' ↔ l ∈ leases r ∧ a = true).
Proof.
  split; [vm_compute; reflexivity|]. apply (lease_changes_exact demo_calls). vm_compute. reflexivity.
Defined.

Lemma reserve_exact_witness :
  let r := (run_calls step new demo_calls).1 in
  (reserve 1 [ConnectorId.mk 1 1] r).2 = Err (UnavailableConnector (ConnectorId.mk 1 1)) ∧
  match reserve 1 [ConnectorId.mk 1 2] r with
  | (r', Ok v) => reservable 1 [ConnectorId.mk 1 2] r ∧
      LeaseConnector.id <$> LeaseReservation.connectors v = [ConnectorId.mk 1 2] ∧
      Forall (.∈ catalog r) (LeaseReservation.connectors v) ∧
      LeaseReservation.token v ∉ (LeaseRecord.token <$> leases r) ∧
      leases r' = leases r ++
        [LeaseRecord.mk (LeaseReservation.token v) [ConnectorId.mk 1 2] LeasePhase.Reserved] ∧
      (∀ c, c ∈ available r' ↔ c ∈ available r ∧ LeaseConnector.id c ∉ [ConnectorId.mk 1 2])
  | (r', Err _) => r' = r ∧ ¬ reservable 1 [ConnectorId.mk 1 2] r
  | (_, Panic) => False
  end.
Proof.
  split; [vm_compute; reflexivity|].
  apply (reserve_exact demo_calls 1 [ConnectorId.mk 1 2]). vm_compute. reflexivity.
Defined.
