(* ===== verification/Outputs.v ===== *)
(** * Output planning

    [crates/tensor-drm]: output rules and mode selection ([policy.rs]), the
    plan of the connectors to scan out and the difference of two plans
    ([plan.rs], [snapshot.rs]); and the format negotiation of
    [crates/tensor-host/src/format.rs]. A [BTreeMap] is a finite map that is
    iterated in key order. *)

From Stdlib Require Import Ascii.
From stdpp Require Import strings.
From S2P Require Import Prelude Geometry Host.

(** Identities of connectors as map keys. *)
#[export] Program Instance connector_countable : Countable ConnectorId.t :=
  inj_countable' ConnectorId.key (λ p, ConnectorId.mk p.1 p.2) _.
Next Obligation. by intros []. Qed.

#[export] Instance output_scale_eq_dec : EqDecision OutputScale.t.
Proof. solve_decision. Defined.

Module OutputModeRequest.

Record t := mk { width : Z; height : Z; refresh_millihertz : option Z }.

End OutputModeRequest.

Module OutputRule.

Record t := mk {
  scale : option OutputScale.t; mode : option OutputModeRequest.t;
  position : option (Z * Z); enabled : bool; max_refresh_millihertz : option Z }.

Definition dflt : t := mk None None None true None.

End OutputRule.

(** [OutputRuleTable] is its map. *)
Module OutputRuleTable.

Abbreviation t := (gmap string OutputRule.t).

Definition upsert (name : string) (rule : OutputRule.t) (table : t) : t :=
  <[name := rule]> table.

Definition get (name : string) (table : t) : option OutputRule.t := table !! name.

End OutputRuleTable.

(** [i32::try_from] of a [u32]. *)
Definition i32_try_from (v : Z) : option Z := if v <=? I32.MAX then Some v else None.

(** [u32::try_from] of an [i32]. *)
Definition u32_try_from (v : Z) : option Z := if 0 <=? v then Some v else None.

Definition select_requested_mode (modes : list PhysicalMode.t)
    (requested : OutputModeRequest.t) : option PhysicalMode.t :=
  width ← i32_try_from (OutputModeRequest.width requested);
  height ← i32_try_from (OutputModeRequest.height requested);
  let matching := filter (λ m, PhysicalMode.width m = width ∧ PhysicalMode.height m = height) modes in
  match OutputModeRequest.refresh_millihertz requested with
  | Some refresh =>
      refresh ← i32_try_from refresh;
      List.find (λ m, PhysicalMode.refresh_millihertz m =? refresh) matching
  | None => max_by_key PhysicalMode.refresh_millihertz matching
  end.

Definition highest_refresh_at_size (modes : list PhysicalMode.t) (size : Z * Z)
    (max_refresh_millihertz : option Z) : option PhysicalMode.t :=
  let max_refresh := max_refresh_millihertz ≫= i32_try_from in
  max_by_key PhysicalMode.refresh_millihertz
    (filter (λ m, match max_refresh with
                  | Some cap => PhysicalMode.refresh_millihertz m <=? cap
                  | None => true
                  end = true)
      (filter (λ m, PhysicalMode.size m = size) modes)).

Definition or_else {A} (o p : option A) : option A := match o with Some a => Some a | None => p end.

Definition select_mode (modes : list PhysicalMode.t) (preferred : PhysicalMode.t)
    (rule : option OutputRule.t) : option PhysicalMode.t :=
  match (rule ≫= OutputRule.mode) ≫= select_requested_mode modes with
  | Some mode => Some mode
  | None =>
      let selected :=
        or_else (highest_refresh_at_size modes (PhysicalMode.size preferred) None)
          (Some preferred) in
      match rule ≫= OutputRule.max_refresh_millihertz with
      | None => selected
      | Some cap =>
          or_else (highest_refresh_at_size modes (PhysicalMode.size preferred) (Some cap)) selected
      end
  end.

(** [snapshot.rs]. *)
Module ConnectorSnapshot.

Record t := mk {
  id : ConnectorId.t; name : string; state : ConnectorState.t; non_desktop : bool;
  physical_size_mm : Z * Z; subpixel : SubpixelLayout.t; modes : list PhysicalMode.t;
  preferred_mode : option PhysicalMode.t; mapped_crtc : option Z; has_native_format : bool }.

End ConnectorSnapshot.

Module OutputDescriptor.

Record t := mk {
  id : ConnectorId.t; name : string; physical_size_mm : Z * Z; subpixel : SubpixelLayout.t;
  modes : list PhysicalMode.t; mode : PhysicalMode.t; crtc : Z; scale : OutputScale.t;
  position : option (Z * Z); has_native_format : bool }.

#[global] Instance t_eq_dec : EqDecision t.
Proof. solve_decision. Defined.

End OutputDescriptor.

Module OutputPlan.

Abbreviation t := (gmap ConnectorId.t OutputDescriptor.t).

(** Iteration in key order. *)
Definition entries (m : t) : list (ConnectorId.t * OutputDescriptor.t) :=
  sort_by_key (λ e, ConnectorId.key e.1) (map_to_list m).

End OutputPlan.

Section plan.

(** [guess_monitor_scale] computes in [f64]; the plan only stores its result. *)
Context (guess_monitor_scale : Z * Z → Size.t → OutputScale.t).

Definition plan_one (rules : OutputRuleTable.t) (c : ConnectorSnapshot.t) :
    option OutputDescriptor.t :=
  if bool_decide (ConnectorSnapshot.state c ≠ ConnectorState.Connected) ||
     ConnectorSnapshot.non_desktop c
  then None
  else
    let rule := OutputRuleTable.get (ConnectorSnapshot.name c) rules in
    if match rule with Some r => negb (OutputRule.enabled r) | None => false end then None
    else if negb (ConnectorSnapshot.has_native_format c) then None
    else
      preferred ← ConnectorSnapshot.preferred_mode c;
      mode ← select_mode (ConnectorSnapshot.modes c) preferred rule;
      width ← u32_try_from (PhysicalMode.width mode);
      height ← u32_try_from (PhysicalMode.height mode);
      let scale := match rule ≫= OutputRule.scale with
                   | Some s => s
                   | None => guess_monitor_scale (ConnectorSnapshot.physical_size_mm c)
                               (Size.new width height)
                   end in
      crtc ← ConnectorSnapshot.mapped_crtc c;
      Some (OutputDescriptor.mk (ConnectorSnapshot.id c) (ConnectorSnapshot.name c)
        (ConnectorSnapshot.physical_size_mm c) (ConnectorSnapshot.subpixel c)
        (ConnectorSnapshot.modes c) mode crtc scale (rule ≫= OutputRule.position) true).

Definition plan_outputs (rules : OutputRuleTable.t) (connectors : list ConnectorSnapshot.t) :
    OutputPlan.t :=
  foldl (λ (plan : OutputPlan.t) c,
    match plan_one rules c with
    | Some d => <[OutputDescriptor.id d := d]> plan
    | None => plan
    end) ∅ connectors.

End plan.

Module PlanEvent.

Inductive t :=
| Connected (d : OutputDescriptor.t)
| Changed (d : OutputDescriptor.t)
| Disconnected (id : ConnectorId.t).

End PlanEvent.

(** [OutputPlanDiff] is its events. *)
Definition diff_plans (previous current : OutputPlan.t) : list PlanEvent.t :=
  (PlanEvent.Disconnected <$>
     filter (λ id, current !! id = None) (OutputPlan.entries previous).*1) ++
  omap (λ e : ConnectorId.t * OutputDescriptor.t,
    match previous !! e.1 with
    | None => Some (PlanEvent.Connected e.2)
    | Some old => if decide (old ≠ e.2) then Some (PlanEvent.Changed e.2) else None
    end) (OutputPlan.entries current).

(** ** Format negotiation *)

(** [u32::from_le_bytes] of the four characters. *)
Definition fourcc (a b c d : ascii) : Z :=
  Z.of_nat (Ascii.nat_of_ascii a) + 256 * (Z.of_nat (Ascii.nat_of_ascii b) +
  256 * (Z.of_nat (Ascii.nat_of_ascii c) + 256 * Z.of_nat (Ascii.nat_of_ascii d))).

Module Fourcc.

Local Open Scope char_scope.

Definition XRGB8888 : Z := fourcc "X" "R" "2" "4".
Definition ARGB8888 : Z := fourcc "A" "R" "2" "4".
Definition XBGR8888 : Z := fourcc "X" "B" "2" "4".
Definition ABGR8888 : Z := fourcc "A" "B" "2" "4".
Definition XRGB2101010 : Z := fourcc "X" "R" "3" "0".
Definition ARGB2101010 : Z := fourcc "A" "R" "3" "0".
Definition XBGR2101010 : Z := fourcc "X" "B" "3" "0".
Definition ABGR2101010 : Z := fourcc "A" "B" "3" "0".

End Fourcc.

Module Modifier.

Definition LINEAR : Z := 0.
Definition INVALID : Z := U64.MAX.

Definition is_linear (m : Z) : bool := m =? 0.
Definition is_invalid (m : Z) : bool := m =? U64.MAX.

End Modifier.

Module DrmFormat.

Record t := mk { code : Z; modifier : Z }.

#[global] Instance t_eq_dec : EqDecision t.
Proof. solve_decision. Defined.

End DrmFormat.

Module FormatCapability.

Record t := mk {
  format : DrmFormat.t; plane_count : Z; renderable : bool; importable : bool;
  exportable : bool }.

Definition supports_client_import (c : t) : bool := renderable c && importable c.

Definition supports_output_export (c : t) : bool := renderable c && exportable c.

End FormatCapability.

Module GbmCapability.

Record t := mk { format : DrmFormat.t; scanout : bool; plane_count : option Z }.

End GbmCapability.

Module OutputFormat.

Record t := mk { format : DrmFormat.t; plane_count : Z }.

#[global] Instance t_eq_dec : EqDecision t.
Proof. solve_decision. Defined.

End OutputFormat.

Inductive FormatError := NoCompatibleOutputFormat.

Definition output_format_rank (code : Z) : option Z :=
  if code =? Fourcc.XRGB8888 then Some 0
  else if code =? Fourcc.ARGB8888 then Some 1
  else if code =? Fourcc.XBGR8888 then Some 2
  else if code =? Fourcc.ABGR8888 then Some 3
  else if code =? Fourcc.XRGB2101010 then Some 4
  else if code =? Fourcc.ARGB2101010 then Some 5
  else if code =? Fourcc.XBGR2101010 then Some 6
  else if code =? Fourcc.ABGR2101010 then Some 7
  else None.

(** The key of the preference order, compared lexicographically. *)
Definition preference_key (f : DrmFormat.t) : Z * (Z * Z) :=
  let modifier_rank :=
    if Modifier.is_linear (DrmFormat.modifier f) then 1
    else if Modifier.is_invalid (DrmFormat.modifier f) then 2 else 0 in
  (default 255 (output_format_rank (DrmFormat.code f)), (modifier_rank, DrmFormat.modifier f)).

(** A capability that survives every filter. *)
Definition candidate (kms_scanout : list DrmFormat.t) (gbm : list GbmCapability.t)
    (c : FormatCapability.t) : bool :=
  FormatCapability.supports_output_export c &&
  (0 <? FormatCapability.plane_count c) &&
  negb (Modifier.is_invalid (DrmFormat.modifier (FormatCapability.format c))) &&
  bool_decide (is_Some (output_format_rank (DrmFormat.code (FormatCapability.format c)))) &&
  bool_decide (FormatCapability.format c ∈ kms_scanout) &&
  existsb (λ g, bool_decide (GbmCapability.format g = FormatCapability.format c) &&
    GbmCapability.scanout g &&
    bool_decide (GbmCapability.plane_count g = Some (FormatCapability.plane_count c))) gbm.

(** [dedup_by_key]: an element goes when its key is that of the element kept
    before it. *)
Fixpoint dedup_from {A B} `{EqDecision B} (key : A → B) (last : B) (l : list A) : list A :=
  match l with
  | [] => []
  | a :: l => if decide (key a = last) then dedup_from key last l
              else a :: dedup_from key (key a) l
  end.

Definition dedup_by_key {A B} `{EqDecision B} (key : A → B) (l : list A) : list A :=
  match l with [] => [] | a :: l => a :: dedup_from key (key a) l end.

Definition negotiate_output_formats (vulkan : list FormatCapability.t)
    (kms_scanout : list DrmFormat.t) (gbm : list GbmCapability.t) :
    Outcome FormatError (list OutputFormat.t) :=
  let candidates :=
    (λ c, OutputFormat.mk (FormatCapability.format c) (FormatCapability.plane_count c)) <$>
      filter (λ c, candidate kms_scanout gbm c = true) vulkan in
  let candidates := stable_sort_by_key (λ c, preference_key (OutputFormat.format c)) candidates in
  let candidates :=
    dedup_by_key (λ c, (DrmFormat.code (OutputFormat.format c),
                        DrmFormat.modifier (OutputFormat.format c))) candidates in
  match candidates with
  | [] => Err NoCompatibleOutputFormat
  | _ => Ok candidates
  end.
