(* ===== verification/OutputsSpec.v ===== *)
(** * Output plans and formats are exact

    Only usable connectors are planned, the difference of two plans turns one
    into the other, and the negotiated formats are the usable ones in
    preference order. *)

From stdpp Require Import strings.
From S2P Require Import Prelude Geometry Host Outputs.

(** ** Mode selection *)

Lemma max_by_key_elem {A K} `{KeyOrder K} (key : A → K) l a : max_by_key key l = Some a → a ∈ l.
Proof. intros E. pose proof (max_by_key_spec key l) as Hs. rewrite E in Hs. by destruct Hs. Qed.

Lemma highest_elem modes size cap m :
  highest_refresh_at_size modes size cap = Some m → m ∈ modes.
Proof. intros (_&(_&?)%list_elem_of_filter)%max_by_key_elem%list_elem_of_filter. done. Qed.

Lemma requested_elem modes r m : select_requested_mode modes r = Some m → m ∈ modes.
Proof.
  unfold select_requested_mode. intros (w&_&(h&_&E)%bind_Some)%bind_Some.
  destruct (OutputModeRequest.refresh_millihertz r).
  - apply bind_Some in E as (f&_&(Hm&_)%List.find_some). apply list_elem_of_In in Hm.
    by apply list_elem_of_filter in Hm as [_ ?].
  - by apply max_by_key_elem, list_elem_of_filter in E as [_ ?].
Qed.

(** The selected mode is one the connector reports. *)
Lemma select_mode_elem modes preferred rule m :
  select_mode modes preferred rule = Some m → m ∈ modes ∨ m = preferred.
Proof.
  assert (Hs : ∀ m, or_else (highest_refresh_at_size modes (PhysicalMode.size preferred) None)
      (Some preferred) = Some m → m ∈ modes ∨ m = preferred).
  { intros x. unfold or_else. destruct (highest_refresh_at_size _ _ _) eqn:Eh; intros [= <-];
      [left; by eapply highest_elem|by right]. }
  unfold select_mode. destruct (_ ≫= select_requested_mode modes) as [x|] eqn:Er.
  - intros [= <-]. apply bind_Some in Er as (?&_&?%requested_elem). by left.
  - destruct (rule ≫= OutputRule.max_refresh_millihertz) as [cap|]; [|apply Hs]. unfold or_else at 1.
    destruct (highest_refresh_at_size _ _ (Some _)) eqn:Eh; [|apply Hs].
    intros [= <-]. left. by eapply highest_elem.
Qed.

Section plan.

Context (guess : Z * Z → Size.t → OutputScale.t).

(** A connector that may be scanned out, with what is planned for it. *)
Record planned (rules : OutputRuleTable.t) (c : ConnectorSnapshot.t) (d : OutputDescriptor.t) :
    Prop := {
  pl_id : OutputDescriptor.id d = ConnectorSnapshot.id c;
  pl_connected : ConnectorSnapshot.state c = ConnectorState.Connected;
  pl_desktop : ConnectorSnapshot.non_desktop c = false;
  pl_enabled : ∀ r, OutputRuleTable.get (ConnectorSnapshot.name c) rules = Some r →
    OutputRule.enabled r = true;
  pl_format : ConnectorSnapshot.has_native_format c = true;
  pl_crtc : ConnectorSnapshot.mapped_crtc c = Some (OutputDescriptor.crtc d);
  pl_mode : OutputDescriptor.mode d ∈ ConnectorSnapshot.modes c ∨
    ConnectorSnapshot.preferred_mode c = Some (OutputDescriptor.mode d);
  pl_size : 0 <= PhysicalMode.width (OutputDescriptor.mode d) ∧
    0 <= PhysicalMode.height (OutputDescriptor.mode d) }.

Lemma plan_one_planned rules c d : plan_one guess rules c = Some d → planned rules c d.
Proof.
  unfold plan_one. destruct (bool_decide _) eqn:Es; [done|]. apply bool_decide_eq_false in Es.
  destruct (ConnectorSnapshot.non_desktop c) eqn:En; [done|]. simpl.
  destruct (match OutputRuleTable.get _ _ with Some r => _ | None => _ end) eqn:Ee; [done|].
  destruct (ConnectorSnapshot.has_native_format c) eqn:Ef; [simpl|done].
  intros (p&Hp&(m&Hm&(w&Hw&(h&Hh&(k&Hk&Hd)%bind_Some)%bind_Some)%bind_Some)%bind_Some)%bind_Some.
  simplify_eq. apply select_mode_elem in Hm. unfold u32_try_from in Hw, Hh.
  destruct (Z.leb_spec 0 (PhysicalMode.width m)), (Z.leb_spec 0 (PhysicalMode.height m)); try done.
  split; simpl; try done.
  - by apply dec_stable.
  - intros r Hr. rewrite Hr in Ee. by apply negb_false_iff.
  - destruct Hm as [| ->]; [by left|by right].
Qed.

(** Every entry is keyed by its own identity. *)
Definition keyed (m : OutputPlan.t) : Prop :=
  ∀ i d, m !! i = Some d → OutputDescriptor.id d = i.

Lemma plan_outputs_inv rules cs i d :
  plan_outputs guess rules cs !! i = Some d →
  OutputDescriptor.id d = i ∧ ∃ c, c ∈ cs ∧ plan_one guess rules c = Some d.
Proof.
  unfold plan_outputs. set (step := λ _ _, _).
  assert (Hgen : ∀ m, foldl step m cs !! i = Some d →
    m !! i = Some d ∨ OutputDescriptor.id d = i ∧ ∃ c, c ∈ cs ∧ plan_one guess rules c = Some d).
  { induction cs as [|c cs IH]; intros m Hm; simpl in Hm; [by left|].
    destruct (IH _ Hm) as [Hs|(?&x&?&?)]; [|right; split; [done|]; exists x; split; [by right|done]].
    unfold step in Hs. destruct (plan_one guess rules c) as [e|] eqn:Ee; [|by left].
    apply lookup_insert_Some in Hs as [[Hi ->]|[_ ?]]; [|by left].
    right. split; [done|]. exists c. split; [by left|done]. }
  intros Hm. destruct (Hgen ∅ Hm) as [He|]; [|done]. by rewrite lookup_empty in He.
Qed.

Lemma plan_keyed rules cs : keyed (plan_outputs guess rules cs).
Proof. intros i d Hd. by apply plan_outputs_inv in Hd as [? _]. Qed.

(** With distinct identities every usable connector is planned. *)
Lemma plan_outputs_complete rules cs c d :
  NoDup (ConnectorSnapshot.id <$> cs) → c ∈ cs → plan_one guess rules c = Some d →
  plan_outputs guess rules cs !! ConnectorSnapshot.id c = Some d.
Proof.
  unfold plan_outputs. set (step := λ _ _, _). intros Hnd Hc Hd.
  assert (Hskip : ∀ l m, ConnectorSnapshot.id c ∉ (ConnectorSnapshot.id <$> l) →
    foldl step m l !! ConnectorSnapshot.id c = m !! ConnectorSnapshot.id c).
  { intros l. induction l as [|x l IH]; intros m Hl; [done|]. simpl.
    rewrite fmap_cons, not_elem_of_cons in Hl. destruct Hl as [Hx Hl]. rewrite IH by done.
    unfold step. destruct (plan_one guess rules x) as [e|] eqn:Ee; [|done].
    rewrite lookup_insert_ne; [done|]. by rewrite (pl_id _ _ _ (plan_one_planned _ _ _ Ee)). }
  apply list_elem_of_split in Hc as (l1&l2&->). rewrite fmap_app, fmap_cons in Hnd.
  apply NoDup_app in Hnd as (_&_&[Hn _]%NoDup_cons). rewrite foldl_app. simpl.
  rewrite Hskip by done. unfold step. rewrite Hd.
  rewrite (pl_id _ _ _ (plan_one_planned _ _ _ Hd)). apply lookup_insert_eq.
Qed.

End plan.

(** ** Plan differences *)

Definition subject (e : PlanEvent.t) : ConnectorId.t :=
  match e with
  | PlanEvent.Connected d | PlanEvent.Changed d => OutputDescriptor.id d
  | PlanEvent.Disconnected i => i
  end.

(** What an event says of its connector. *)
Definition outcome (e : PlanEvent.t) : option OutputDescriptor.t :=
  match e with
  | PlanEvent.Connected d | PlanEvent.Changed d => Some d
  | PlanEvent.Disconnected _ => None
  end.

(** A client that follows the events. *)
Definition follow (m : OutputPlan.t) (e : PlanEvent.t) : OutputPlan.t :=
  match outcome e with
  | Some d => <[subject e := d]> m
  | None => delete (subject e) m
  end.

Lemma follow_lookup m e i :
  follow m e !! i = if decide (subject e = i) then outcome e else m !! i.
Proof.
  unfold follow. destruct (decide (subject e = i)) as [<-|Hne]; destruct (outcome e).
  - apply lookup_insert_eq.
  - apply lookup_delete_eq.
  - by apply lookup_insert_ne.
  - by apply lookup_delete_ne.
Qed.

(** Events that agree about a connector decide it. *)
Lemma follow_all es m i o :
  (∀ e, e ∈ es → subject e = i → outcome e = o) →
  m !! i = o ∨ (∃ e, e ∈ es ∧ subject e = i) →
  foldl follow m es !! i = o.
Proof.
  revert m. induction es as [|e es IH]; intros m Ho Hm; simpl.
  - destruct Hm as [|(e&?%elem_of_nil&_)]; done.
  - apply IH; [intros x Hx; apply Ho; by right|]. rewrite follow_lookup.
    destruct (decide (subject e = i)) as [Hi|Hi]; [left; apply Ho; [by left|done]|].
    destruct Hm as [|(x&[->|Hx]%elem_of_cons&?)]; [by left|done|right; eauto].
Qed.

Lemma entries_elem m e : e ∈ OutputPlan.entries m ↔ m !! e.1 = Some e.2.
Proof.
  unfold OutputPlan.entries. rewrite sort_by_key_elem. destruct e. apply elem_of_map_to_list.
Qed.

Lemma entries_keys m : NoDup (OutputPlan.entries m).*1.
Proof. unfold OutputPlan.entries. rewrite sort_by_key_perm. apply NoDup_fst_map_to_list. Qed.

Lemma keys_elem m i : i ∈ (OutputPlan.entries m).*1 ↔ is_Some (m !! i).
Proof.
  rewrite list_elem_of_fmap. split.
  - intros (e&->&He%entries_elem). eauto.
  - intros [d Hd]. exists (i, d). split; [done|]. by apply entries_elem.
Qed.

(** When an event is reported. *)
Lemma diff_elem p c e :
  e ∈ diff_plans p c ↔
  match e with
  | PlanEvent.Disconnected i => is_Some (p !! i) ∧ c !! i = None
  | PlanEvent.Connected d => ∃ i, c !! i = Some d ∧ p !! i = None
  | PlanEvent.Changed d => ∃ i old, c !! i = Some d ∧ p !! i = Some old ∧ old ≠ d
  end.
Proof.
  unfold diff_plans. rewrite elem_of_app, list_elem_of_fmap, list_elem_of_omap.
  setoid_rewrite list_elem_of_filter. setoid_rewrite keys_elem. setoid_rewrite entries_elem. split.
  - intros [(i&->&?&?)|([i d]&Hd&He)]; [done|]. simpl in *.
    destruct (p !! i) as [old|] eqn:Ep; [case_decide|]; simplify_eq; eauto.
  - destruct e as [d|d|i].
    + intros (i&Hc&Hp). right. exists (i, d). simpl. by rewrite Hp.
    + intros (i&old&Hc&Hp&Hne). right. exists (i, d). simpl. by rewrite Hp, decide_True.
    + intros [? ?]. left. eauto.
Qed.

Lemma diff_follow p c :
  keyed c → foldl follow p (diff_plans p c) = c.
Proof.
  intros Hc. apply map_eq. intros i. apply follow_all.
  - intros e He Hi. apply diff_elem in He. destruct e as [d|d|j]; simpl in *; subst.
    + destruct He as (j&Hj&_). by rewrite (Hc _ _ Hj).
    + destruct He as (j&?&Hj&_). by rewrite (Hc _ _ Hj).
    + by destruct He.
  - destruct (c !! i) as [d|] eqn:Ec, (p !! i) as [old|] eqn:Ep.
    + destruct (decide (old = d)) as [->|Hne]; [by left|]. right. exists (PlanEvent.Changed d).
      split; [apply diff_elem; eauto|]. simpl. by apply Hc.
    + right. exists (PlanEvent.Connected d). split; [apply diff_elem; eauto|]. by apply Hc.
    + right. exists (PlanEvent.Disconnected i). split; [apply diff_elem; eauto|done].
    + by left.
Qed.

(** The topology events lead from any plan to any later one: a client that
    follows them holds the new plan, there are none exactly when nothing
    changed, and disconnections come before activations. *)
Theorem plan_diff_roundtrip (guess : Z * Z → Size.t → OutputScale.t)
    (rules rules' : OutputRuleTable.t) (cs cs' : list ConnectorSnapshot.t) :
  let previous := plan_outputs guess rules cs in
  let current := plan_outputs guess rules' cs' in
  let events := diff_plans previous current in
  foldl follow previous events = current ∧
  (events = [] ↔ previous = current) ∧
  (∃ gone active, events = gone ++ active ∧
     Forall (λ e, outcome e = None) gone ∧ Forall (λ e, is_Some (outcome e)) active).
Proof.
  intros p c es. pose proof (diff_follow p c (plan_keyed guess rules' cs')) as Hf. fold es in Hf.
  split_and!; [done| |].
  - split; [intros E; by rewrite E in Hf|]. intros E. apply elem_of_nil_inv. intros e He.
    apply diff_elem in He. rewrite <- E in He. destruct e; simpl in He.
    + destruct He as (?&?&?). congruence.
    + destruct He as (?&?&?&?&?). congruence.
    + destruct He as [[] ?]. congruence.
  - unfold es, diff_plans. do 2 eexists. split; [reflexivity|]. split; apply Forall_forall.
    + by intros e (i&->&_)%list_elem_of_fmap.
    + intros e ([i d]&_&He)%list_elem_of_omap. simpl in He.
      destruct (p !! i); [case_decide|]; simplify_eq; eexists; done.
Qed.

(** A planned output is a connected, enabled desktop connector with a
    native format and a mapped controller, in a mode that the connector
    reports; every such connector is planned when their identities differ. *)
Theorem plan_outputs_exact (guess : Z * Z → Size.t → OutputScale.t)
    (rules : OutputRuleTable.t) (cs : list ConnectorSnapshot.t) :
  (∀ i d, plan_outputs guess rules cs !! i = Some d →
     ∃ c, c ∈ cs ∧ ConnectorSnapshot.id c = i ∧ planned rules c d) ∧
  (NoDup (ConnectorSnapshot.id <$> cs) → ∀ c d, c ∈ cs →
     plan_one guess rules c = Some d ↔
     plan_outputs guess rules cs !! ConnectorSnapshot.id c = Some d).
Proof.
  split.
  - intros i d (Hi&c&Hc&Hd)%plan_outputs_inv. apply plan_one_planned in Hd as Hp.
    exists c. split_and!; [done| |done]. by rewrite <- (pl_id _ _ _ Hp).
  - intros Hnd c d Hc. split; [by apply plan_outputs_complete|].
    intros (Hi&c'&Hc'&Hd)%plan_outputs_inv.
    assert (c' = c) as ->; [|done]. apply plan_one_planned in Hd as Hp.
    apply list_elem_of_lookup in Hc as [j Hj]. apply list_elem_of_lookup in Hc' as [k Hk].
    assert (k = j) as ->; [|congruence].
    eapply (NoDup_lookup (ConnectorSnapshot.id <$> cs)); [done|..]; rewrite list_lookup_fmap;
      [by rewrite Hk|rewrite Hj; simpl]. by rewrite <- (pl_id _ _ _ Hp), Hi.
Qed.

(** A panel with two modes of its size; the faster one is planned. *)
Definition demo_snapshot : ConnectorSnapshot.t :=
  ConnectorSnapshot.mk (ConnectorId.mk 1 2) "eDP-1" ConnectorState.Connected false (344, 194)
    SubpixelLayout.Unknown [PhysicalMode.mk 1920 1080 60000; PhysicalMode.mk 1920 1080 144000]
    (Some (PhysicalMode.mk 1920 1080 60000)) (Some 7) true.

Lemma plan_outputs_exact_witness :
  let plan := plan_outputs (λ _ _, OutputScale.ONE) ∅ [demo_snapshot] in
  (OutputDescriptor.mode <$> plan !! ConnectorId.mk 1 2) = Some (PhysicalMode.mk 1920 1080 144000) ∧
  ∃ d, plan !! ConnectorId.mk 1 2 = Some d ∧ planned ∅ demo_snapshot d.
Proof.
  split; [vm_compute; reflexivity|].
  assert (is_Some (plan_outputs (λ _ _, OutputScale.ONE) ∅ [demo_snapshot] !! ConnectorId.mk 1 2))
    as [d Hd] by (vm_compute; eauto).
  exists d. split; [exact Hd|].
  destruct (plan_outputs_exact (λ _ _, OutputScale.ONE) ∅ [demo_snapshot]) as [Hp _].
  destruct (Hp _ _ Hd) as (c&Hc&_&Hpl). apply list_elem_of_singleton in Hc as ->. exact Hpl.
Defined.

(** ** Format negotiation *)

(** The rank and the modifier determine an accepted format. *)
Lemma rank_inj c d :
  is_Some (output_format_rank c) → output_format_rank c = output_format_rank d → c = d.
Proof.
  unfold output_format_rank. intros [r Hr] E.
  repeat match goal with
  | H : context [if ?x =? ?y then _ else _] |- _ => destruct (Z.eqb_spec x y); simplify_eq
  end; done.
Qed.

Definition ranked (f : OutputFormat.t) : Prop :=
  is_Some (output_format_rank (DrmFormat.code (OutputFormat.format f))).

Definition preference (f : OutputFormat.t) : Z * (Z * Z) := preference_key (OutputFormat.format f).

Lemma rank_range c r : output_format_rank c = Some r → 0 <= r <= 7.
Proof. unfold output_format_rank. intros. repeat case_match; simplify_eq; lia. Qed.

Lemma preference_inj f g :
  ranked f → ranked g → preference f = preference g → OutputFormat.format f = OutputFormat.format g.
Proof.
  destruct f as [[c m] n], g as [[d k] l]. unfold ranked, preference, preference_key. simpl.
  intros Hf Hg [= Hr _ ->]. f_equal. apply rank_inj; [done|].
  destruct Hf as [x Hx], Hg as [y Hy]. rewrite Hx, Hy in *. simpl in Hr. by subst.
Qed.

(** The deduplication keys of the code are equality of formats. *)
Definition format_key (f : OutputFormat.t) : Z * Z :=
  (DrmFormat.code (OutputFormat.format f), DrmFormat.modifier (OutputFormat.format f)).

Lemma format_key_eq f g : format_key f = format_key g ↔ OutputFormat.format f = OutputFormat.format g.
Proof.
  destruct f as [[c m] n], g as [[d k] l]. unfold format_key. simpl. naive_solver.
Qed.

Abbreviation of_format k := (filter (λ f, format_key f = k)).

(** On a sorted list the deduplication keeps the first entry of each
    format. *)
Lemma dedup_from_first k last l :
  Forall ranked (last :: l) → StronglySorted (by_key preference) (last :: l) →
  of_format k (dedup_from format_key (format_key last) l) =
    if decide (k = format_key last) then [] else take 1 (of_format k l).
Proof.
  revert last. induction l as [|a l IH]; intros last Hr Hs; simpl; [by case_decide|].
  apply Forall_cons in Hr as [Hrl Hr]. apply StronglySorted_inv in Hs as [Hs Hle].
  apply Forall_cons in Hle as [Hla Hle].
  destruct (decide (format_key a = format_key last)) as [Ha|Ha].
  - rewrite <- Ha, filter_cons. rewrite (IH a) by done.
    destruct (decide (k = format_key a)) as [->|Hk]; [done|]. by rewrite decide_False by done.
  - rewrite !filter_cons. rewrite (IH a) by done.
    destruct (decide (format_key a = k)) as [<-|Hk].
    + rewrite decide_True, decide_False by done. simpl. done.
    + rewrite decide_False by done. case_decide as Hl; [|done]. subst k.
      rewrite filter_none; [done|]. apply StronglySorted_inv in Hs as [_ Hal].
      rewrite !Forall_forall in *. intros x Hx Hxl. apply Ha. apply format_key_eq in Hxl.
      assert (preference a = preference last) as E.
      { apply (anti_symm key_le); [|done]. unfold preference at 2. rewrite <- Hxl. by apply Hal. }
      apply format_key_eq. apply preference_inj; [by apply Hr; left|done|done].
Qed.

Lemma dedup_first k l :
  Forall ranked l → StronglySorted (by_key preference) l →
  of_format k (dedup_by_key format_key l) = take 1 (of_format k l).
Proof.
  destruct l as [|a l]; [done|]. intros Hr Hs. simpl dedup_by_key. rewrite !filter_cons.
  rewrite (dedup_from_first k a l) by done.
  destruct (decide (format_key a = k)) as [<-|Hk].
  - by rewrite decide_True.
  - by rewrite decide_False by congruence.
Qed.

Lemma dedup_from_sublist k (l : list OutputFormat.t) : dedup_from format_key k l `sublist_of` l.
Proof.
  revert k. induction l as [|a l IH]; intros k; simpl; [done|].
  case_decide; [by apply sublist_cons|by apply sublist_skip].
Qed.

Lemma dedup_sublist (l : list OutputFormat.t) : dedup_by_key format_key l `sublist_of` l.
Proof. destruct l as [|a l]; [done|]. apply sublist_skip, dedup_from_sublist. Qed.

Lemma sublist_sorted {A} (R : relation A) (k l : list A) :
  k `sublist_of` l → StronglySorted R l → StronglySorted R k.
Proof.
  induction 1 as [|a k l Hs IH|a k l Hs IH]; intros Hl; [done|..];
    apply StronglySorted_inv in Hl as [Hl Ha]; [constructor|]; auto.
  apply Forall_forall. intros x Hx. rewrite Forall_forall in Ha. apply Ha.
  by eapply elem_of_sublist.
Qed.

Definition offered_format (c : FormatCapability.t) : OutputFormat.t :=
  OutputFormat.mk (FormatCapability.format c) (FormatCapability.plane_count c).

(** Negotiation returns the formats that the renderer can export, the
    plane can scan out and the allocator can provide: each exactly once, with
    the plane count of the first capability that offers it, in preference
    order; it fails exactly when there is none. *)
Theorem negotiation_exact (vulkan : list FormatCapability.t) (kms : list DrmFormat.t)
    (gbm : list GbmCapability.t) :
  match negotiate_output_formats vulkan kms gbm with
  | Ok l => l ≠ [] ∧ StronglySorted (by_key preference) l ∧
      ∀ k, of_format k l =
        take 1 (of_format k (offered_format <$> filter (λ c, candidate kms gbm c = true) vulkan))
  | Err _ => ∀ c, c ∈ vulkan → candidate kms gbm c = false
  | Panic => False
  end.
Proof.
  unfold negotiate_output_formats. set (cands := filter _ vulkan).
  change (λ c, OutputFormat.mk (FormatCapability.format c) (FormatCapability.plane_count c))
    with offered_format.
  change (λ c, preference_key (OutputFormat.format c)) with preference.
  change (λ c, (DrmFormat.code (OutputFormat.format c), DrmFormat.modifier (OutputFormat.format c)))
    with format_key.
  set (sorted := stable_sort_by_key preference (offered_format <$> cands)).
  assert (Hs : StronglySorted (by_key preference) sorted) by apply stable_sort_sorted.
  assert (Hr : Forall ranked sorted).
  { apply Forall_forall. intros f Hf. unfold sorted in Hf. rewrite stable_sort_perm in Hf.
    apply list_elem_of_fmap in Hf as (c&->&(Hc&_)%list_elem_of_filter).
    unfold candidate in Hc. rewrite !andb_true_iff in Hc.
    destruct Hc as [[[_ Hc] _] _]. by apply bool_decide_eq_true in Hc. }
  assert (Hk : ∀ k, of_format k (dedup_by_key format_key sorted) =
                    take 1 (of_format k (offered_format <$> cands))).
  { intros k. rewrite dedup_first by done. f_equal. apply stable_sort_filter.
    intros x y Hx Hy. unfold preference. f_equal. apply format_key_eq. congruence. }
  destruct (dedup_by_key format_key sorted) as [|f l] eqn:Ed.
  - intros c Hc. apply not_true_iff_false. intros Hcand.
    specialize (Hk (format_key (offered_format c))). simpl in Hk.
    assert (Hin : offered_format c ∈
      of_format (format_key (offered_format c)) (offered_format <$> cands)).
    { apply list_elem_of_filter. split; [done|]. apply list_elem_of_fmap. exists c.
      split; [done|]. by apply list_elem_of_filter. }
    destruct (of_format (format_key (offered_format c)) (offered_format <$> cands));
      [by apply elem_of_nil in Hin|done].
  - split_and!; [done| |done]. eapply sublist_sorted; [|exact Hs].
    rewrite <- Ed. apply dedup_sublist.
Qed.
