(* ===== verification/Codec.v ===== *)
(** * The framing of the control protocol

    [crates/tensor-ipc/src/land/codec.rs]: length-prefixed frames of JSON and
    the incremental decoder. The JSON library is a parameter: [to_json] is
    [serde_json::to_writer] into an empty vector and [from_json] is
    [serde_json::from_slice], each with its error. *)

From Stdlib Require Import Strings.Byte.
From S2P Require Import Prelude.

(** ** [u32::to_le_bytes] and [u32::from_le_bytes] *)

Module LittleEndian.

Definition byte_of (v : Z) : byte :=
  match Byte.of_N (Z.to_N (v mod 256)) with Some b => b | None => Byte.x00 end.

Definition value (b : byte) : Z := Z.of_N (Byte.to_N b).

Fixpoint to_le_bytes (n : nat) (v : Z) : list byte :=
  match n with O => [] | S n => byte_of v :: to_le_bytes n (v / 256) end.

Fixpoint from_le_bytes (l : list byte) : Z :=
  match l with [] => 0 | b :: l => value b + 256 * from_le_bytes l end.

Lemma value_range b : 0 <= value b < 256.
Proof. unfold value. pose proof (Byte.to_N_bounded b). lia. Qed.

Lemma value_byte_of v : value (byte_of v) = v mod 256.
Proof.
  unfold byte_of, value. pose proof (Z.mod_pos_bound v 256).
  destruct (Byte.of_N _) as [b|] eqn:Eb.
  - apply Byte.to_of_N in Eb. rewrite Eb. lia.
  - apply Byte.of_N_None_iff in Eb. lia.
Qed.

Lemma length_to_le_bytes n v : length (to_le_bytes n v) = n.
Proof. revert v. induction n; intros; simpl; auto. Qed.

Lemma from_to_le_bytes n v : 0 <= v < 256 ^ Z.of_nat n → from_le_bytes (to_le_bytes n v) = v.
Proof.
  revert v. induction n as [|n IH]; intros v Hv; [simpl in *; lia|].
  rewrite Nat2Z.inj_succ, Z.pow_succ_r in Hv by lia. simpl. rewrite value_byte_of, IH.
  - pose proof (Z.div_mod v 256). lia.
  - split; [apply Z.div_pos; lia|]. apply Z.div_lt_upper_bound; lia.
Qed.

Lemma from_le_bytes_range l : 0 <= from_le_bytes l < 256 ^ Z.of_nat (length l).
Proof.
  induction l as [|b l IH]; [simpl; lia|]. simpl length. rewrite Nat2Z.inj_succ, Z.pow_succ_r by lia.
  simpl. pose proof (value_range b). lia.
Qed.

End LittleEndian.

Import LittleEndian.

Module CodecError.

Inductive t {SE DE : Type} := FrameTooLarge | Serialize (e : SE) | Deserialize (e : DE).

Arguments t : clear implicits.

End CodecError.

Definition MAX_FRAME_SIZE : Z := 1024 * 1024.

Definition FRAME_HEADER_SIZE : nat := 4.

Section codec.

Context {T SE DE : Type} (to_json : T → SE + list byte) (from_json : list byte → DE + T).

#[local] Abbreviation error := (CodecError.t SE DE).

(** [encode_into]: the frame buffer is empty after an error. *)
Definition encode_into (value : T) (frame : list byte) : list byte * Outcome error unit :=
  match to_json value with
  | inl e => ([], Err (CodecError.Serialize e))
  | inr payload =>
      let payload_len := length payload in
      if MAX_FRAME_SIZE <? Z.of_nat payload_len then ([], Err CodecError.FrameTooLarge)
      else
        if Z.of_nat payload_len <=? U32.MAX
        then (to_le_bytes FRAME_HEADER_SIZE (Z.of_nat payload_len) ++ payload, Ok tt)
        else (replicate FRAME_HEADER_SIZE Byte.x00 ++ payload, Err CodecError.FrameTooLarge)
  end.

Definition encode (value : T) : Outcome error (list byte) :=
  match encode_into value [] with
  | (frame, Ok _) => Ok frame
  | (_, Err e) => Err e
  | (_, Panic) => Panic
  end.

(** [FrameDecoder] is its buffer. *)
Definition decoder : Type := list byte.

Definition new : decoder := [].

Definition buffered_bytes (d : decoder) : nat := length d.

(** The loop of [push_into] on [&self.buffer[consumed..]]; the answer is the
    decoded values, the consumed bytes and the reason to stop, [Panic] when
    the fuel runs out. *)
Fixpoint decode_loop (fuel : nat) (remaining : list byte) :
    list T * nat * Outcome error unit :=
  match fuel with
  | O => ([], O, Panic)
  | S fuel =>
      if (length remaining <? FRAME_HEADER_SIZE)%nat then ([], O, Ok tt)
      else
        let header := from_le_bytes (take FRAME_HEADER_SIZE remaining) in
        if MAX_FRAME_SIZE <? header then ([], O, Err CodecError.FrameTooLarge)
        else
          let payload_len := Z.to_nat header in
          let frame_len := (FRAME_HEADER_SIZE + payload_len)%nat in
          if (length remaining <? frame_len)%nat then ([], O, Ok tt)
          else
            match from_json (take payload_len (drop FRAME_HEADER_SIZE remaining)) with
            | inl e => ([], O, Err (CodecError.Deserialize e))
            | inr value =>
                let '(values, consumed, stop) := decode_loop fuel (drop frame_len remaining) in
                (value :: values, (frame_len + consumed)%nat, stop)
            end
  end.

(** [push_into]: the values that were decoded, and the new buffer. An error
    leaves the completed frames in the buffer. *)
Definition push_into (bytes : list byte) (d : decoder) :
    decoder * list T * Outcome error unit :=
  let buffer := d ++ bytes in
  let '(values, consumed, stop) := decode_loop (S (length buffer)) buffer in
  match stop with
  | Ok _ => (drop consumed buffer, values, Ok tt)
  | failed => (buffer, values, failed)
  end.

Definition push (bytes : list byte) (d : decoder) : decoder * Outcome error (list T) :=
  match push_into bytes d with
  | (d, values, Ok _) => (d, Ok values)
  | (d, _, Err e) => (d, Err e)
  | (d, _, Panic) => (d, Panic)
  end.

(** A connection: the chunks that the socket delivers, until an error. *)
Fixpoint receive (chunks : list (list byte)) (d : decoder) :
    decoder * list T * Outcome error unit :=
  match chunks with
  | [] => (d, [], Ok tt)
  | chunk :: chunks =>
      match push chunk d with
      | (d, Ok values) =>
          let '(d, rest, stop) := receive chunks d in (d, values ++ rest, stop)
      | (d, Err e) => (d, [], Err e)
      | (d, Panic) => (d, [], Panic)
      end
  end.

End codec.
