(* ===== verification/CodecSpec.v ===== *)
(** * Frames arrive complete, in order and as soon as possible

    However the socket cuts the byte stream of encoded messages, the decoder
    delivers exactly the messages whose frames have arrived, in order; on
    arbitrary bytes it always returns and buffers less than one frame. *)

From Stdlib Require Import Strings.Byte.
From S2P Require Import Prelude Codec.

Import LittleEndian.

(** How many frames of [fs] are complete after [n] bytes. *)
Fixpoint complete (n : nat) (fs : list (list byte)) : nat :=
  match fs with
  | [] => 0
  | f :: fs => if (length f <=? n)%nat then S (complete (n - length f) fs) else 0
  end.

Lemma complete_all fs : complete (length (concat fs)) fs = length fs.
Proof.
  induction fs as [|f fs IH]; [done|]. simpl. rewrite length_app.
  rewrite (proj2 (Nat.leb_le _ _)) by lia. f_equal. rewrite <- IH. f_equal. lia.
Qed.

Lemma complete_fits n fs : (length (concat (take (complete n fs) fs)) <= n)%nat.
Proof.
  revert n. induction fs as [|f fs IH]; intros n; simpl; [lia|].
  destruct (Nat.leb_spec (length f) n); simpl; [|lia]. rewrite length_app.
  specialize (IH (n - length f)%nat). lia.
Qed.

(** More bytes complete the same frames and then further ones. *)
Lemma complete_add a b fs :
  complete (a + b) fs =
    (complete a fs +
     complete (a - length (concat (take (complete a fs) fs)) + b) (drop (complete a fs) fs))%nat.
Proof.
  revert a. induction fs as [|f fs IH]; intros a; [done|].
  cbn [complete]. destruct (Nat.leb_spec (length f) a) as [Hle|Hgt].
  - rewrite (proj2 (Nat.leb_le _ _)) by lia. cbn [take drop concat]. rewrite length_app.
    replace (a + b - length f)%nat with (a - length f + b)%nat by lia. rewrite IH. simpl.
    do 3 f_equal. lia.
  - cbn [take drop concat length Nat.add]. rewrite Nat.sub_0_r. reflexivity.
Qed.

Lemma complete_rest a fs :
  complete (a - length (concat (take (complete a fs) fs))) (drop (complete a fs) fs) = 0%nat.
Proof.
  pose proof (complete_add a 0 fs) as H. rewrite !Nat.add_0_r in H.
  replace (complete (a - _) _) with (complete a fs - complete a fs)%nat; lia.
Qed.

Section spec.

Context {T SE DE : Type} (to_json : T → SE + list byte) (from_json : list byte → DE + T).

#[local] Abbreviation error := (CodecError.t SE DE).
#[local] Abbreviation frame_of := (λ v f, encode (DE := DE) to_json v = Ok f).
#[local] Abbreviation loop := (decode_loop (SE := SE) from_json).

(** ** One frame *)

Lemma encode_shape v f :
  frame_of v f → ∃ p, to_json v = inr p ∧ Z.of_nat (length p) <= MAX_FRAME_SIZE ∧
    f = to_le_bytes FRAME_HEADER_SIZE (Z.of_nat (length p)) ++ p.
Proof.
  unfold encode, encode_into. destruct (to_json v) as [e|p]; [done|].
  destruct (Z.ltb_spec MAX_FRAME_SIZE (Z.of_nat (length p))); [done|].
  destruct (Z.of_nat (length p) <=? U32.MAX); [|done]. intros [= <-]. by exists p.
Qed.

Lemma frame_length p :
  length (to_le_bytes FRAME_HEADER_SIZE (Z.of_nat (length p)) ++ p) =
    (FRAME_HEADER_SIZE + length p)%nat.
Proof. by rewrite length_app, length_to_le_bytes. Qed.

Lemma header_of_frame p l :
  Z.of_nat (length p) <= MAX_FRAME_SIZE → (FRAME_HEADER_SIZE <= length l)%nat →
  l `prefix_of` to_le_bytes FRAME_HEADER_SIZE (Z.of_nat (length p)) ++ p ∨
  (∃ rest, l = (to_le_bytes FRAME_HEADER_SIZE (Z.of_nat (length p)) ++ p) ++ rest) →
  from_le_bytes (take FRAME_HEADER_SIZE l) = Z.of_nat (length p).
Proof.
  intros Hp Hl Hpre.
  assert (take FRAME_HEADER_SIZE l = to_le_bytes FRAME_HEADER_SIZE (Z.of_nat (length p))) as ->.
  { set (h := to_le_bytes _ _) in *.
    assert (Hh : take FRAME_HEADER_SIZE (h ++ p) = h)
      by (apply take_app_length'; unfold h; by rewrite length_to_le_bytes).
    destruct Hpre as [[k Hk]|[rest ->]].
    - by rewrite <- (take_app_le l k), <- Hk.
    - rewrite take_app_le; [done|]. unfold h. rewrite frame_length. lia. }
  rewrite from_to_le_bytes; [done|]. unfold MAX_FRAME_SIZE, FRAME_HEADER_SIZE in *.
  change (256 ^ Z.of_nat 4) with 4294967296. lia.
Qed.

Hypothesis json_roundtrip : ∀ v p, to_json v = inr p → from_json p = inr v.

Lemma loop_frame fuel v f rest :
  frame_of v f →
  loop (S fuel) (f ++ rest) =
    let '(vs, c, stop) := loop fuel rest in (v :: vs, (length f + c)%nat, stop).
Proof.
  intros (p&Hj&Hp&->)%encode_shape. rewrite frame_length. cbn [decode_loop].
  set (f := to_le_bytes _ _ ++ p).
  assert (Hlen : length (f ++ rest) = (FRAME_HEADER_SIZE + length p + length rest)%nat)
    by (unfold f; rewrite length_app, frame_length; lia).
  rewrite Hlen, (proj2 (Nat.ltb_ge _ _)) by lia.
  rewrite (header_of_frame p (f ++ rest)); [|done|lia|right; by exists rest].
  rewrite (proj2 (Z.ltb_ge MAX_FRAME_SIZE _)), Nat2Z.id by lia. rewrite (proj2 (Nat.ltb_ge _ _)) by lia.
  assert (take (length p) (drop FRAME_HEADER_SIZE (f ++ rest)) = p) as ->.
  { unfold f. rewrite <- app_assoc.
    rewrite <- (length_to_le_bytes FRAME_HEADER_SIZE (Z.of_nat (length p))) at 1.
    by rewrite drop_app_length, take_app_length. }
  rewrite (json_roundtrip _ _ Hj).
  assert (drop (FRAME_HEADER_SIZE + length p) (f ++ rest) = rest) as ->; [|done].
  rewrite <- frame_length. apply drop_app_length.
Qed.

Lemma loop_partial fuel v f l :
  frame_of v f → l `prefix_of` f → (length l < length f)%nat → loop (S fuel) l = ([], 0%nat, Ok tt).
Proof.
  intros (p&Hj&Hp&->)%encode_shape Hpre. rewrite frame_length. intros Hlt. cbn [decode_loop].
  destruct (Nat.ltb_spec (length l) FRAME_HEADER_SIZE); [done|].
  rewrite (header_of_frame p l); [|done|done|by left].
  rewrite (proj2 (Z.ltb_ge MAX_FRAME_SIZE _)), Nat2Z.id by lia. by rewrite (proj2 (Nat.ltb_lt _ _)) by lia.
Qed.

(** ** A prefix of a stream of frames *)

Lemma loop_stream vs fs l more fuel :
  Forall2 frame_of vs fs → concat fs = l ++ more → (length l < fuel)%nat →
  loop fuel l =
    (take (complete (length l) fs) vs, length (concat (take (complete (length l) fs) fs)), Ok tt).
Proof.
  intros Hvf. revert l fuel. induction Hvf as [|v f vs fs Hf Hvf IH]; intros l fuel Hc Hfuel.
  - destruct l; [|done]. simpl in Hfuel. destruct fuel; [lia|done].
  - destruct fuel as [|fuel]; [lia|]. simpl in Hc. cbn [complete].
    pose proof (encode_shape v f Hf) as (p&_&_&Hshape).
    assert (Hpos : (0 < length f)%nat) by (rewrite Hshape, frame_length; unfold FRAME_HEADER_SIZE; lia).
    destruct (Nat.leb_spec (length f) (length l)) as [Hle|Hgt].
    + assert (l = f ++ drop (length f) l) as Hl.
      { rewrite <- (take_drop (length f) l) at 1. f_equal.
        rewrite <- (take_app_le l more) by lia. rewrite <- Hc. by rewrite take_app_length. }
      assert (Hld : length (drop (length f) l) = (length l - length f)%nat) by apply length_drop.
      rewrite Hl at 1. rewrite (loop_frame fuel v f _ Hf), IH.
      * rewrite Hld. cbn [take concat]. by rewrite length_app.
      * rewrite Hl, <- app_assoc in Hc. by apply app_inv_head in Hc.
      * lia.
    + apply (loop_partial fuel v f); [done| |lia]. rewrite <- (take_app_length f (concat fs)), Hc.
      rewrite take_app_ge by lia. by eexists.
Qed.

(** The unread bytes after a push begin the next frame. *)
Lemma push_stream vs fs d chunk more :
  Forall2 frame_of vs fs → concat fs = d ++ chunk ++ more →
  let k := complete (length (d ++ chunk)) fs in
  push (SE := SE) from_json chunk d =
    (drop (length (concat (take k fs))) (d ++ chunk), Ok (take k vs)).
Proof.
  intros Hvf Hc k. rewrite app_assoc in Hc. unfold push, push_into.
  rewrite (loop_stream vs fs (d ++ chunk) more) by (done || lia). done.
Qed.

Lemma receive_stream chunks vs fs d more :
  Forall2 frame_of vs fs → complete (length d) fs = 0%nat →
  concat fs = d ++ concat chunks ++ more →
  let k := complete (length (d ++ concat chunks)) fs in
  receive (SE := SE) from_json chunks d =
    (drop (length (concat (take k fs))) (d ++ concat chunks), take k vs, Ok tt).
Proof.
  revert vs fs d. induction chunks as [|chunk chunks IH]; intros vs fs d Hvf H0 Hc k.
  - simpl in *. unfold k. by rewrite app_nil_r, H0.
  - simpl in *. rewrite <- app_assoc in Hc.
    rewrite (push_stream vs fs d chunk (concat chunks ++ more) Hvf Hc).
    set (k1 := complete (length (d ++ chunk)) fs).
    pose proof (complete_fits (length (d ++ chunk)) fs) as Hfit. fold k1 in Hfit.
    set (n1 := length (concat (take k1 fs))) in *. set (d1 := drop n1 (d ++ chunk)).
    assert (Hd1 : length d1 = (length (d ++ chunk) - n1)%nat) by apply length_drop.
    assert (Hpre : concat (take k1 fs) = take n1 (d ++ chunk)).
    { rewrite <- (take_app_le (d ++ chunk) (concat chunks ++ more)) by lia.
      rewrite <- app_assoc, <- Hc. rewrite <- (take_drop k1 fs) at 2.
      by rewrite concat_app, take_app_length'. }
    rewrite (IH (drop k1 vs) (drop k1 fs) d1).
    + assert (Hk : k = (k1 + complete (length (d1 ++ concat chunks)) (drop k1 fs))%nat).
      { unfold k. rewrite app_assoc, length_app, complete_add. fold k1. fold n1.
        by rewrite (length_app d1), Hd1. }
      set (k2 := complete (length (d1 ++ concat chunks)) (drop k1 fs)) in *.
      rewrite Hk, take_take_drop. f_equal. f_equal.
      assert (Hn : length (concat (take (k1 + k2) fs)) =
                   (n1 + length (concat (take k2 (drop k1 fs))))%nat).
      { by rewrite <- (take_take_drop fs k1 k2), concat_app, length_app. }
      rewrite Hn, app_assoc, <- drop_drop. f_equal. unfold d1. symmetry. by apply drop_app_le.
    + by apply Forall2_drop.
    + rewrite Hd1. apply complete_rest.
    + rewrite <- (take_drop k1 fs) in Hc at 1. rewrite concat_app, Hpre in Hc.
      rewrite (assoc_L (++) d chunk) in Hc. rewrite <- (take_drop n1 (d ++ chunk)) in Hc at 2.
      rewrite <- app_assoc in Hc. by apply app_inv_head in Hc.
Qed.

End spec.

(** C34: However the socket cuts a stream of encoded messages into chunks, after
    any prefix of the stream the decoder has delivered exactly the messages
    whose frames are complete, in order, without an error, and holds exactly
    the bytes behind them; after the whole stream every message has been
    delivered and nothing is left. The JSON library is only assumed to read
    back what it wrote. *)
Theorem decoder_delivers {T SE DE : Type}
    (to_json : T → SE + list byte) (from_json : list byte → DE + T)
    (json_roundtrip : ∀ v p, to_json v = inr p → from_json p = inr v)
    (vs : list T) (fs chunks : list (list byte)) (more : list byte)
    (Hframes : Forall2 (λ v f, encode (DE := DE) to_json v = Ok f) vs fs)
    (Hstream : concat fs = concat chunks ++ more) :
  let k := complete (length (concat chunks)) fs in
  receive (SE := SE) from_json chunks new =
    (drop (length (concat (take k fs))) (concat chunks), take k vs, Ok tt) ∧
  (more = [] → receive (SE := SE) from_json chunks new = ([], vs, Ok tt)).
Proof.
  assert (H0 : complete (length (@nil byte)) fs = 0%nat).
  { destruct Hframes as [|v f vs fs Hf _]; [done|].
    apply encode_shape in Hf as (p&_&_&->). cbn [complete]. by rewrite frame_length. }
  intros k. pose proof (receive_stream to_json from_json json_roundtrip chunks vs fs [] more
    Hframes H0 Hstream) as Hr. simpl in Hr. fold k in Hr.
  split; [exact Hr|]. intros ->. rewrite app_nil_r in Hstream.
  assert (Hk : k = length fs) by (unfold k; rewrite <- Hstream; apply complete_all).
  unfold new. rewrite Hr, Hk, firstn_all, Hstream, drop_all, take_ge; [done|].
  by rewrite (Forall2_length _ _ _ Hframes).
Qed.

(** The text of the demonstration: one letter per message. *)
Definition demo_json (v : bool) : unit + list byte := inr [if v then Byte.x74 else Byte.x66].

Definition demo_parse (l : list byte) : unit + bool :=
  match l with
  | [Byte.x74] => inr true
  | [Byte.x66] => inr false
  | _ => inl tt
  end.

(** Two messages, cut inside the header of the second. *)
Lemma decoder_delivers_witness :
  let fs := [[Byte.x01; Byte.x00; Byte.x00; Byte.x00; Byte.x74];
             [Byte.x01; Byte.x00; Byte.x00; Byte.x00; Byte.x66]] in
  let chunks := [take 3 (concat fs); take 4 (drop 3 (concat fs))] in
  receive (SE := unit) demo_parse chunks new =
    (drop (length (concat (take 1 fs))) (concat chunks), [true], Ok tt).
Proof.
  apply (decoder_delivers demo_json demo_parse ltac:(by intros [] ? [= <-]) [true; false]
    [[Byte.x01; Byte.x00; Byte.x00; Byte.x00; Byte.x74];
     [Byte.x01; Byte.x00; Byte.x00; Byte.x00; Byte.x66]]
    [[Byte.x01; Byte.x00; Byte.x00]; [Byte.x00; Byte.x74; Byte.x01; Byte.x00]]
    [Byte.x00; Byte.x00; Byte.x66]).
  - repeat constructor.
  - reflexivity.
Defined.

(** ** Arbitrary bytes *)

Section bounds.

Context {T SE DE : Type} (from_json : list byte → DE + T).

#[local] Abbreviation loop := (decode_loop (SE := SE) from_json).

(** The bytes do not begin with a complete frame. *)
Definition incomplete (l : list byte) : Prop :=
  (length l < FRAME_HEADER_SIZE)%nat ∨
  from_le_bytes (take FRAME_HEADER_SIZE l) <= MAX_FRAME_SIZE ∧
  Z.of_nat (length l) < Z.of_nat FRAME_HEADER_SIZE + from_le_bytes (take FRAME_HEADER_SIZE l).

Lemma incomplete_short l : incomplete l → Z.of_nat (length l) < Z.of_nat FRAME_HEADER_SIZE + MAX_FRAME_SIZE.
Proof. unfold incomplete, MAX_FRAME_SIZE. lia. Qed.

Lemma loop_total fuel l :
  (length l < fuel)%nat →
  let '(vs, c, stop) := loop fuel l in
  (c <= length l)%nat ∧
  match stop with
  | Ok _ => incomplete (drop c l)
  | Err CodecError.FrameTooLarge =>
      MAX_FRAME_SIZE < from_le_bytes (take FRAME_HEADER_SIZE (drop c l))
  | Err (CodecError.Deserialize e) => ∃ k, from_json (take k (drop FRAME_HEADER_SIZE (drop c l))) = inl e
  | Err (CodecError.Serialize _) | Panic => False
  end.
Proof.
  revert l. induction fuel as [|fuel IH]; intros l Hl; [lia|]. cbn [decode_loop].
  destruct (Nat.ltb_spec (length l) FRAME_HEADER_SIZE) as [Hs|Hs]; [split; [lia|by left]|].
  set (n := from_le_bytes (take FRAME_HEADER_SIZE l)).
  assert (Hn : 0 <= n) by apply from_le_bytes_range.
  destruct (Z.ltb_spec MAX_FRAME_SIZE n) as [Hbig|Hbig]; [split; [lia|done]|].
  destruct (Nat.ltb_spec (length l) (FRAME_HEADER_SIZE + Z.to_nat n)) as [Hf|Hf].
  { split; [lia|]. right. rewrite drop_0. fold n. lia. }
  destruct (from_json _) as [e|v] eqn:Ej; [split; [lia|by eexists]|].
  specialize (IH (drop (FRAME_HEADER_SIZE + Z.to_nat n) l)).
  rewrite length_drop in IH. specialize (IH ltac:(unfold FRAME_HEADER_SIZE in *; lia)).
  destruct (loop fuel _) as [[vs c] stop]. rewrite drop_drop in IH. destruct IH as [Hc IH].
  split; [lia|done].
Qed.

End bounds.

(** A push of arbitrary bytes always returns. When it succeeds the decoder
    keeps a suffix of the stream that is shorter than one maximal frame and
    begins with no complete one; it fails only for a header above the frame
    limit or a frame that is not JSON, and then keeps every byte. *)
Theorem decoder_total {T SE DE : Type} (from_json : list byte → DE + T)
    (bytes : list byte) (d : decoder) :
  let '(d', r) := push (SE := SE) from_json bytes d in
  match r with
  | Ok vs => incomplete d' ∧ d' `suffix_of` (d ++ bytes) ∧
      Z.of_nat (buffered_bytes d') < 4 + 1024 * 1024
  | Err CodecError.FrameTooLarge => d' = d ++ bytes ∧
      ∃ c, MAX_FRAME_SIZE < from_le_bytes (take FRAME_HEADER_SIZE (drop c d'))
  | Err (CodecError.Deserialize e) => d' = d ++ bytes ∧
      ∃ c k, from_json (take k (drop FRAME_HEADER_SIZE (drop c d'))) = inl e
  | Err (CodecError.Serialize _) | Panic => False
  end.
Proof.
  unfold push, push_into.
  pose proof (loop_total (SE := SE) from_json (S (length (d ++ bytes))) (d ++ bytes) ltac:(lia)) as Hl.
  destruct (decode_loop _ _ _) as [[vs c] [[]|[|e|e]|]]; destruct Hl as [Hc Hl]; try done.
  - split_and!; [done| |].
    + exists (take c (d ++ bytes)). by rewrite take_drop.
    + apply incomplete_short in Hl. unfold buffered_bytes, FRAME_HEADER_SIZE, MAX_FRAME_SIZE in *. lia.
  - split; [done|]. by exists c.
  - split; [done|]. exists c. done.
Qed.
