(* ===== verification/Suballoc.v ===== *)
(** * Suballocation of a memory block

    The [RangeAllocator] of [vulkan-renderer/src/allocator.rs]: the free list of
    one block of device memory, first-fit allocation of aligned ranges and
    coalescing release. The free list is canonical (non-empty ranges, sorted,
    separated by gaps), so it is determined by the set of offsets it covers;
    the lemmas state each operation as an operation on that set. *)

From S2P Require Import Prelude.

(** ** Half-open ranges of [u64] offsets *)
Module Range.

Record t := mk { start : Z; end_ : Z }.

#[global] Instance t_eq_dec : EqDecision t.
Proof. solve_decision. Defined.

(** [range.end - range.start]. *)
Definition length (r : t) : Z := end_ r - start r.

(** The offset [x] belongs to the range. *)
#[global] Instance elem_of_range : ElemOf Z t := λ x r, start r <= x < end_ r.

Definition disjoint_ranges (r s : t) : Prop := ∀ x, x ∈ r → x ∈ s → False.

End Range.

#[export] Instance range_disjoint : Disjoint Range.t := Range.disjoint_ranges.

#[export] Instance range_disjoint_sym : Symmetric (##@{Range.t}).
Proof. intros r s H x Hs Hr. by apply (H x). Qed.

(** ** Alignment *)

(** [value.is_power_of_two()]. *)
Definition is_power_of_two (v : Z) : bool := (0 <? v) && (2 ^ Z.log2 v =? v).

(** [a.checked_add(b)] on [u64]. *)
Definition checked_add (a b : Z) : option Z :=
  if a + b <=? U64.MAX then Some (a + b) else None.

(** [!v] on [u64]. *)
Definition bit_not (v : Z) : Z := Z.lxor U64.MAX v.

Definition align_up (value alignment : Z) : option Z :=
  if (alignment =? 0) || negb (is_power_of_two alignment) then None
  else (λ value, Z.land value (bit_not (alignment - 1))) <$> checked_add value (alignment - 1).

Definition align_down (value alignment : Z) : Z := Z.land value (bit_not (alignment - 1)).

(** ** The free list *)
Module RangeAllocator.

Record t := mk { size : Z; free : list Range.t }.

Definition new (size : Z) : t := mk size [Range.mk 0 size].

(** One step of the merging loop: [merged] ends with the [previous] range. *)
Definition merge_range (merged : list Range.t) (range : Range.t) : list Range.t :=
  match last merged with
  | Some previous =>
      if Range.start range <=? Range.end_ previous then
        take (length merged - 1) merged ++
          [Range.mk (Range.start previous) (Z.max (Range.end_ previous) (Range.end_ range))]
      else merged ++ [range]
  | None => merged ++ [range]
  end.

Definition normalize (free : list Range.t) : list Range.t :=
  foldl merge_range [] (stable_sort_by_key Range.start free).

(** The loop over the free list: [before] has been skipped. The result is the
    allocated range and the list before it is normalized. *)
Fixpoint allocate_loop (before rest : list Range.t) (size alignment : Z)
    : option (Range.t * list Range.t) :=
  match rest with
  | [] => None
  | free :: after =>
      start ← align_up (Range.start free) alignment;
      end_ ← checked_add start size;
      if Range.end_ free <? end_ then allocate_loop (before ++ [free]) after size alignment
      else Some (Range.mk start end_,
        (before ++ after)
        ++ (if Range.start free <? start then [Range.mk (Range.start free) start] else [])
        ++ (if end_ <? Range.end_ free then [Range.mk end_ (Range.end_ free)] else []))
  end.

Definition allocate (self : t) (sz alignment : Z) : t * option Range.t :=
  match allocate_loop [] (free self) sz alignment with
  | Some (range, free') => (mk (size self) (normalize free'), Some range)
  | None => (self, None)
  end.

Definition release (self : t) (range : Range.t) : t :=
  mk (size self) (normalize (free self ++ [range])).

Definition available (self : t) : Z := zsum (Range.length <$> free self).

(** The unit test [range_allocator_reuses_and_merges_suballocations]. *)
Example reuses_and_merges_suballocations :
  let a0 := new 1024 in
  let '(a1, first) := allocate a0 100 64 in
  let '(a2, second) := allocate a1 100 256 in
  let a3 := release (release a2 (Range.mk 0 100)) (Range.mk 256 356) in
  first = Some (Range.mk 0 100) ∧ second = Some (Range.mk 256 356) ∧
  available a3 = 1024 ∧ (allocate a3 1024 1).2 = Some (Range.mk 0 1024).
Proof. vm_compute. repeat split. Qed.

End RangeAllocator.

(** ** Alignment arithmetic *)

Lemma is_power_of_two_spec v :
  is_power_of_two v = true ↔ ∃ k, 0 <= k ∧ v = 2 ^ k.
Proof.
  unfold is_power_of_two. split.
  - intros (_&E%Z.eqb_eq)%andb_true_iff. exists (Z.log2 v). split; [apply Z.log2_nonneg|done].
  - intros (k&Hk&->). rewrite Z.log2_pow2, Z.eqb_refl by done.
    pose proof (Z.pow_pos_nonneg 2 k). rewrite andb_true_r. apply Z.ltb_lt. lia.
Qed.

(** Masking with the complement of [2^k - 1] clears the low bits. *)
Lemma land_bit_not v k :
  0 <= k → 2 ^ k <= U64.MAX → 0 <= v <= U64.MAX →
  Z.land v (bit_not (2 ^ k - 1)) = v - v mod 2 ^ k.
Proof.
  intros Hk Hk64 Hv. unfold bit_not.
  assert (Hm : U64.MAX = Z.ones 64) by done.
  assert (k < 64).
  { apply (Z.pow_lt_mono_r_iff 2); [lia..|]. change (2 ^ 64) with (U64.MAX + 1). lia. }
  replace (2 ^ k - 1) with (Z.ones k) by (rewrite Z.ones_equiv; lia).
  assert (E : Z.land v (Z.lxor U64.MAX (Z.ones k)) = Z.ldiff v (Z.ones k)).
  { apply Z.bits_inj'. intros i Hi.
    rewrite Z.land_spec, Z.ldiff_spec, Z.lxor_spec, Hm, !Z.testbit_ones_nonneg by lia.
    destruct (Z.ltb_spec i 64), (Z.ltb_spec i k); simpl; try lia;
      try (by rewrite ?andb_true_r, ?andb_false_r).
    rewrite andb_false_r, andb_true_r. symmetry.
    destruct (Z.eq_dec v 0) as [->|]; [apply Z.bits_0|].
    apply Z.bits_above_log2; [lia|]. apply Z.log2_lt_pow2; [lia|].
    apply Z.lt_le_trans with (2 ^ 64); [change (2 ^ 64) with (U64.MAX + 1); lia|].
    apply Z.pow_le_mono_r; lia. }
  rewrite E, Z.ldiff_ones_r, Z.shiftl_mul_pow2, Z.shiftr_div_pow2 by done.
  pose proof (Z.div_mod v (2 ^ k)). lia.
Qed.

(** What [align_up] computes: the least multiple of the alignment that is not
    below the value. *)
Definition aligned_up (value alignment result : Z) : Prop :=
  value <= result < value + alignment ∧ (alignment | result).

Lemma align_up_spec value alignment :
  0 <= value → alignment <= U64.MAX →
  match align_up value alignment with
  | Some result => aligned_up value alignment result ∧ result <= U64.MAX
  | None => is_power_of_two alignment = false ∨ U64.MAX < value + (alignment - 1)
  end.
Proof.
  intros Hv Ha. unfold align_up, checked_add.
  destruct (is_power_of_two alignment) eqn:Hp; simpl.
  2: { rewrite orb_true_r. by left. }
  pose proof Hp as (k&Hk&->)%is_power_of_two_spec.
  assert (Hpos : 0 < 2 ^ k) by (apply Z.pow_pos_nonneg; lia).
  destruct (Z.eqb_spec (2 ^ k) 0); [lia|]. simpl.
  destruct (Z.leb_spec (value + (2 ^ k - 1)) U64.MAX); simpl; [|by right].
  rewrite land_bit_not by lia.
  pose proof (Z.div_mod (value + (2 ^ k - 1)) (2 ^ k)).
  pose proof (Z.mod_pos_bound (value + (2 ^ k - 1)) (2 ^ k)).
  split; [split; [lia|]|lia].
  exists ((value + (2 ^ k - 1)) / 2 ^ k). lia.
Qed.

Lemma align_up_some value alignment result :
  0 <= value → alignment <= U64.MAX → align_up value alignment = Some result →
  aligned_up value alignment result ∧ result <= U64.MAX ∧ is_power_of_two alignment = true.
Proof.
  intros Hv Ha E. pose proof (align_up_spec value alignment Hv Ha) as H.
  rewrite E in H. split_and!; [apply H..|].
  unfold align_up in E. destruct (is_power_of_two alignment); [done|].
  by rewrite orb_true_r in E.
Qed.

Lemma align_down_spec value alignment :
  is_power_of_two alignment = true → 0 <= value <= U64.MAX → alignment <= U64.MAX →
  align_down value alignment <= value < align_down value alignment + alignment ∧
  (alignment | align_down value alignment).
Proof.
  intros (k&Hk&->)%is_power_of_two_spec Hv Ha. unfold align_down.
  assert (0 < 2 ^ k) by (apply Z.pow_pos_nonneg; lia).
  rewrite land_bit_not by lia.
  pose proof (Z.div_mod value (2 ^ k)). pose proof (Z.mod_pos_bound value (2 ^ k)).
  split; [lia|]. exists (value / 2 ^ k). lia.
Qed.

(** An aligned point above the value is above the aligned value. *)
Lemma aligned_up_least value alignment result s :
  aligned_up value alignment result → value <= s → (alignment | s) → result <= s.
Proof.
  intros [Hr [q ->]] Hs [p ->]. assert (0 < alignment) by lia.
  assert (q < p + 1) by (apply (Z.mul_lt_mono_pos_r alignment); lia).
  apply Z.mul_le_mono_nonneg_r; lia.
Qed.

(** ** Canonical free lists *)

(** The offsets covered by a list of ranges. *)
Definition covered (l : list Range.t) (x : Z) : Prop := ∃ r, r ∈ l ∧ x ∈ r.

Definition nonempty_range (r : Range.t) : Prop := Range.start r < Range.end_ r.

(** The next range starts after a gap. *)
Definition gap (r s : Range.t) : Prop := Range.end_ r < Range.start s.

Record canonical (l : list Range.t) : Prop := {
  canonical_nonempty : Forall nonempty_range l;
  canonical_gaps : StronglySorted gap l }.

Create HintDb ranges.

#[export] Hint Unfold covered nonempty_range gap Range.length : ranges.

(** Membership of ranges and lists of ranges as arithmetic. *)
Ltac in_ranges :=
  unfold elem_of, Range.elem_of_range, disjoint, range_disjoint, Range.disjoint_ranges,
    nonempty_range, gap in *; simpl in *.

Lemma covered_nil x : covered [] x ↔ False.
Proof. split; [by intros (?&?%elem_of_nil&_)|done]. Qed.

Lemma covered_cons r l x : covered (r :: l) x ↔ x ∈ r ∨ covered l x.
Proof.
  split.
  - intros (s&[->|]%elem_of_cons&?); [by left|right; by exists s].
  - intros [|(s&?&?)]; [exists r|exists s]; split; try done; [by left|by right].
Qed.

Lemma covered_app l k x : covered (l ++ k) x ↔ covered l x ∨ covered k x.
Proof.
  induction l as [|r l IH]; simpl; [rewrite covered_nil; tauto|].
  rewrite !covered_cons, IH. tauto.
Qed.

#[export] Instance covered_perm : Proper ((≡ₚ) ==> (=) ==> (↔)) covered.
Proof.
  intros l k Hlk x ? <-. unfold covered. split; intros (r&Hr&?); exists r; split; try done.
  - by rewrite <- Hlk.
  - by rewrite Hlk.
Qed.

#[export] Hint Rewrite covered_nil covered_cons covered_app : ranges.

Lemma canonical_nil : canonical [].
Proof. split; constructor. Qed.

Lemma canonical_snoc l r :
  canonical (l ++ [r]) ↔ canonical l ∧ nonempty_range r ∧ ∀ s, s ∈ l → gap s r.
Proof.
  split.
  - intros [[Hn Hr]%Forall_app Hg]. rewrite Forall_singleton in Hr.
    apply StronglySorted_app in Hg as (Hx&Hl&_).
    split_and!; [by split|done|]. intros s Hs. apply Hx; [done|by left].
  - intros ([Hn Hg]&Hr&Hs). split; [by rewrite Forall_app, Forall_singleton|].
    apply StronglySorted_app. split_and!; [|done|by repeat constructor].
    intros s t Hst ->%list_elem_of_singleton. by apply Hs.
Qed.

(** ** The merging loop *)

Lemma last_snoc_inv {A} (l : list A) x : last l = Some x → l = take (length l - 1) l ++ [x].
Proof.
  intros [k ->]%last_Some. rewrite length_app. simpl.
  replace (length k + 1 - 1)%nat with (length k) by lia. by rewrite take_app_length.
Qed.

(** A range that starts behind every merged range joins the canonical list. *)
Lemma merge_range_spec merged range :
  canonical merged → nonempty_range range →
  (∀ s, s ∈ merged → Range.start s <= Range.start range) →
  canonical (RangeAllocator.merge_range merged range) ∧
  (∀ x, covered (RangeAllocator.merge_range merged range) x ↔ covered merged x ∨ x ∈ range) ∧
  (∀ s, s ∈ RangeAllocator.merge_range merged range → Range.start s <= Range.start range).
Proof.
  intros Hc Hr Hs. unfold RangeAllocator.merge_range.
  destruct (last merged) as [p|] eqn:El.
  2: { apply last_None in El as ->. simpl. split_and!.
    - apply (canonical_snoc [] range). split_and!; [done|done|by intros s ?%elem_of_nil].
    - intros x. autorewrite with ranges. tauto.
    - intros s ->%list_elem_of_singleton. lia. }
  apply last_snoc_inv in El. set (init := take (length merged - 1) merged) in *.
  rewrite El in Hc, Hs. apply canonical_snoc in Hc as (Hi&Hp&Hg).
  assert (Range.start p <= Range.start range)
    by (apply Hs, elem_of_app; right; by left).
  destruct (Z.leb_spec (Range.start range) (Range.end_ p)).
  - split_and!.
    + apply canonical_snoc. split_and!; [done|in_ranges; lia|].
      intros s Hsi. specialize (Hg s Hsi). in_ranges. lia.
    + intros x. rewrite El. autorewrite with ranges.
      assert (x ∈ Range.mk (Range.start p) (Z.max (Range.end_ p) (Range.end_ range)) ↔
        x ∈ p ∨ x ∈ range) as -> by (in_ranges; lia). tauto.
    + intros s [Hsi| ->%list_elem_of_singleton]%elem_of_app; [|done].
      apply Hs, elem_of_app. by left.
  - rewrite El. split_and!.
    + apply canonical_snoc. split_and!; [by apply canonical_snoc|done|].
      intros s [Hsi| ->%list_elem_of_singleton]%elem_of_app; [|in_ranges; lia].
      specialize (Hg s Hsi). in_ranges. lia.
    + intros x. autorewrite with ranges. tauto.
    + intros s [Hsi| ->%list_elem_of_singleton]%elem_of_app; [by apply Hs|lia].
Qed.

Lemma merge_ranges_spec l merged :
  Forall nonempty_range l → StronglySorted (by_key Range.start) l → canonical merged →
  (∀ s r, s ∈ merged → r ∈ l → Range.start s <= Range.start r) →
  canonical (foldl RangeAllocator.merge_range merged l) ∧
  ∀ x, covered (foldl RangeAllocator.merge_range merged l) x ↔ covered merged x ∨ covered l x.
Proof.
  revert merged. induction l as [|r l IH]; intros merged Hn Hsort Hc Hle; simpl.
  { split; [done|]. intros x. rewrite covered_nil. tauto. }
  apply Forall_cons in Hn as [Hr Hn]. apply StronglySorted_cons in Hsort as [Hrl Hsort].
  destruct (merge_range_spec merged r Hc Hr) as (Hc'&Hcov&Hs').
  { intros s Hs. apply Hle; [done|by left]. }
  destruct (IH _ Hn Hsort Hc') as [Hcan Hx].
  { intros s t Hs Ht. specialize (Hs' s Hs). rewrite Forall_forall in Hrl.
    specialize (Hrl t Ht). unfold by_key in Hrl. simpl in Hrl. lia. }
  split; [done|]. intros x. rewrite Hx, Hcov, covered_cons. tauto.
Qed.

(** [normalize] returns the canonical list of the same offsets. *)
Lemma normalize_spec l :
  Forall nonempty_range l →
  canonical (RangeAllocator.normalize l) ∧
  ∀ x, covered (RangeAllocator.normalize l) x ↔ covered l x.
Proof.
  intros Hn. unfold RangeAllocator.normalize.
  destruct (merge_ranges_spec (stable_sort_by_key Range.start l) []) as [Hc Hx].
  - by rewrite stable_sort_perm.
  - apply stable_sort_sorted.
  - apply canonical_nil.
  - by intros s r ?%elem_of_nil.
  - split; [done|]. intros x. rewrite Hx, covered_nil, stable_sort_perm. tauto.
Qed.

(** Two ranges of a canonical list are the same one or separated by a gap. *)
Lemma canonical_apart l r s :
  canonical l → r ∈ l → s ∈ l → r = s ∨ gap r s ∨ gap s r.
Proof.
  intros [_ Hg]. revert r s. induction Hg as [|t l Hg IH Ht]; intros r s Hr Hs.
  { by apply elem_of_nil in Hr. }
  rewrite Forall_forall in Ht.
  apply elem_of_cons in Hr as [->|Hr], Hs as [->|Hs]; auto.
Qed.

(** An interval of covered offsets lies in one range. *)
Lemma canonical_interval l s e :
  canonical l → s < e → (∀ x, s <= x < e → covered l x) →
  ∃ r, r ∈ l ∧ Range.start r <= s ∧ e <= Range.end_ r.
Proof.
  intros Hc Hse Hcov. destruct (Hcov s) as (r&Hr&Hsr); [lia|].
  exists r. split; [done|]. in_ranges. split; [lia|].
  destruct (Z.le_gt_cases e (Range.end_ r)); [done|exfalso].
  destruct (Hcov (Range.end_ r)) as (t&Ht&Htr); [lia|].
  destruct (canonical_apart l r t Hc Hr Ht) as [->|[Hg|Hg]]; in_ranges; lia.
Qed.

(** The lengths add up to the whole interval exactly when everything in it is
    covered. *)
Lemma canonical_length l lo hi :
  canonical l → Forall (λ r, lo <= Range.start r ∧ Range.end_ r <= hi) l → lo <= hi →
  zsum (Range.length <$> l) <= hi - lo ∧
  (zsum (Range.length <$> l) = hi - lo ↔ ∀ x, lo <= x < hi → covered l x).
Proof.
  intros [Hn Hg]. revert lo. induction Hg as [|r l Hg IH Hr]; intros lo Hin Hlo.
  { simpl. split; [lia|]. split; [intros ? x ?; lia|]. intros H.
    destruct (Z.eq_dec lo hi); [lia|]. specialize (H lo ltac:(lia)). by apply covered_nil in H. }
  apply Forall_cons in Hn as [Hrn Hn]. apply Forall_cons in Hin as [[Hr1 Hr2] Hin].
  assert (Hin' : Forall (λ s, Range.end_ r <= Range.start s ∧ Range.end_ s <= hi) l).
  { rewrite Forall_forall in *. intros s Hs. specialize (Hr s Hs). specialize (Hin s Hs).
    in_ranges. lia. }
  destruct (IH Hn (Range.end_ r) Hin' ltac:(in_ranges; lia)) as [Hle Hiff].
  change (zsum (Range.length <$> r :: l)) with
    (Range.end_ r - Range.start r + zsum (Range.length <$> l)).
  set (len := zsum (Range.length <$> l)) in *. clearbody len.
  split; [in_ranges; lia|]. split.
  - intros E x Hx. rewrite covered_cons.
    destruct (Z.lt_ge_cases x (Range.end_ r)); [left|right; apply Hiff]; in_ranges; lia.
  - intros H. unfold nonempty_range in Hrn. assert (Range.start r = lo).
    { destruct (Z.eq_dec (Range.start r) lo); [done|]. specialize (H lo ltac:(lia)).
      apply covered_cons in H as [?|(s&Hs&?)]; [in_ranges; lia|].
      rewrite Forall_forall in Hin'. specialize (Hin' s Hs). in_ranges. lia. }
    assert (len = hi - Range.end_ r); [|lia].
    apply Hiff. intros x Hx. specialize (H x ltac:(lia)).
    apply covered_cons in H as [?|?]; [in_ranges; lia|done].
Qed.

(** ** The allocator and its live ranges

    [owns a live] relates an allocator to the ranges it has handed out and not
    taken back, by the resource that holds each of them: they are disjoint,
    inside the block, and the free list covers exactly the rest. *)

Definition live_at (live : gmap Z Range.t) (x : Z) : Prop :=
  ∃ k r, live !! k = Some r ∧ x ∈ r.

Record owns (a : RangeAllocator.t) (live : gmap Z Range.t) : Prop := {
  owns_size : 0 < RangeAllocator.size a <= U64.MAX;
  owns_canonical : canonical (RangeAllocator.free a);
  owns_free x : covered (RangeAllocator.free a) x ↔
    0 <= x < RangeAllocator.size a ∧ ¬ live_at live x;
  owns_inside k r : live !! k = Some r →
    0 <= Range.start r < Range.end_ r ∧ Range.end_ r <= RangeAllocator.size a;
  owns_disjoint j k r s :
    live !! j = Some r → live !! k = Some s → j ≠ k → r ## s }.

Lemma live_at_empty x : ¬ live_at ∅ x.
Proof. intros (k&r&E&_). by rewrite lookup_empty in E. Qed.

Lemma live_at_insert live k r x :
  live !! k = None → live_at (<[k := r]> live) x ↔ x ∈ r ∨ live_at live x.
Proof.
  intros Hk. unfold live_at. split.
  - intros (j&s&E&Hx). apply lookup_insert_Some in E as [[-> ->]|[? E]]; [by left|right; eauto].
  - intros [Hx|(j&s&E&Hx)].
    + exists k, r. by rewrite lookup_insert_eq.
    + exists j, s. rewrite lookup_insert_ne by congruence. done.
Qed.

Lemma live_at_delete live k r x :
  (∀ j s, live !! j = Some s → j ≠ k → r ## s) → live !! k = Some r →
  live_at (delete k live) x ↔ live_at live x ∧ x ∉ r.
Proof.
  intros Hd Hk. unfold live_at. split.
  - intros (j&s&[? E]%lookup_delete_Some&Hx). split; [by eauto|].
    intros Hr. by apply (Hd j s E ltac:(done) x).
  - intros [(j&s&E&Hx) Hr]. exists j, s. split; [|done]. rewrite lookup_delete_ne; [done|].
    intros ->. congruence.
Qed.

Lemma owns_new size : 0 < size <= U64.MAX → owns (RangeAllocator.new size) ∅.
Proof.
  intros Hs. split; simpl; [done|split; repeat constructor; in_ranges; lia| | |].
  - intros x. rewrite covered_cons, covered_nil. pose proof (live_at_empty x). in_ranges. tauto.
  - intros k r E. by rewrite lookup_empty in E.
  - intros j k r s E. by rewrite lookup_empty in E.
Qed.

(** The free ranges lie inside the block. *)
Lemma owns_free_inside a live r :
  owns a live → r ∈ RangeAllocator.free a →
  0 <= Range.start r < Range.end_ r ∧ Range.end_ r <= RangeAllocator.size a.
Proof.
  intros Ho Hr. pose proof (canonical_nonempty _ (owns_canonical _ _ Ho)) as Hn.
  rewrite Forall_forall in Hn. specialize (Hn r Hr).
  assert (H : ∀ x, x ∈ r → 0 <= x < RangeAllocator.size a).
  { intros x Hx. assert (Hc : covered (RangeAllocator.free a) x) by (by exists r).
    apply (owns_free _ _ Ho) in Hc. apply Hc. }
  pose proof (H (Range.start r)). pose proof (H (Range.end_ r - 1)). in_ranges. lia.
Qed.

(** The block is idle exactly when all of it is available. *)
Lemma available_full a live :
  owns a live → RangeAllocator.available a = RangeAllocator.size a ↔ live = ∅.
Proof.
  intros Ho. pose proof (owns_size _ _ Ho) as Hsz.
  destruct (canonical_length (RangeAllocator.free a) 0 (RangeAllocator.size a)) as [_ Hiff].
  - apply Ho.
  - rewrite Forall_forall. intros r Hr. pose proof (owns_free_inside a live r Ho Hr). lia.
  - lia.
  - unfold RangeAllocator.available.
    replace (RangeAllocator.size a - 0) with (RangeAllocator.size a) in Hiff by lia.
    rewrite Hiff. split.
    + intros H. apply map_empty. intros k. destruct (live !! k) as [r|] eqn:E; [exfalso|done].
      pose proof (owns_inside _ _ Ho k r E).
      specialize (H (Range.start r) ltac:(lia)). apply (owns_free _ _ Ho) in H as [_ H].
      apply H. exists k, r. split; [done|]. in_ranges. lia.
    + intros -> x Hx. apply (owns_free _ _ Ho). split; [done|apply live_at_empty].
Qed.

(** ** Allocation *)

(** The pieces of a free range that stay free. *)
Definition leftovers (free : Range.t) (s e : Z) : list Range.t :=
  (if Range.start free <? s then [Range.mk (Range.start free) s] else [])
  ++ (if e <? Range.end_ free then [Range.mk e (Range.end_ free)] else []).

Lemma leftovers_spec f s e :
  Range.start f <= s < e → e <= Range.end_ f →
  Forall nonempty_range (leftovers f s e) ∧
  ∀ x, covered (leftovers f s e) x ↔ x ∈ f ∧ x ∉ Range.mk s e.
Proof.
  intros Hs He. unfold leftovers. split.
  - apply Forall_app; split; zcases; repeat constructor; in_ranges; lia.
  - intros x. rewrite covered_app. zcases; rewrite ?covered_cons, ?covered_nil; in_ranges; lia.
Qed.

(** The allocation has no room in the free range [g]. *)
Definition no_room (sz alignment : Z) (g : Range.t) : Prop :=
  ∀ s, Range.start g <= s → (alignment | s) → s + sz <= Range.end_ g → False.

(** The search stops at the first range with room, or at an overflow. *)
Lemma allocate_loop_spec before rest sz alignment :
  0 < sz → alignment <= U64.MAX → Forall (λ r, 0 <= Range.start r) rest →
  match RangeAllocator.allocate_loop before rest sz alignment with
  | Some (range, free') => ∃ pre f post, rest = pre ++ f :: post ∧
      Forall (no_room sz alignment) pre ∧
      aligned_up (Range.start f) alignment (Range.start range) ∧
      Range.end_ range = Range.start range + sz ∧ Range.end_ range <= Range.end_ f ∧
      free' = (before ++ pre ++ post) ++ leftovers f (Range.start range) (Range.end_ range)
  | None => Forall (no_room sz alignment) rest ∨ is_power_of_two alignment = false ∨
      ∃ f, f ∈ rest ∧ U64.MAX < Range.start f + alignment + sz
  end.
Proof.
  intros Hsz Hal. revert before. induction rest as [|f rest IH]; intros before H0; simpl.
  { left. constructor. }
  apply Forall_cons in H0 as [Hf H0].
  pose proof (align_up_spec (Range.start f) alignment Hf Hal) as Hup.
  destruct (align_up (Range.start f) alignment) as [s|]; simpl.
  2: { destruct Hup as [?|?]; [by right; left|right; right]. exists f. split; [by left|lia]. }
  destruct Hup as [Hup Hs]. unfold checked_add at 1.
  destruct (Z.leb_spec (s + sz) U64.MAX); simpl.
  2: { right. right. exists f. split; [by left|]. destruct Hup. lia. }
  destruct (Z.ltb_spec (Range.end_ f) (s + sz)) as [Hlt|Hge].
  - assert (Hno : no_room sz alignment f).
    { intros t Ht Hd Hte. pose proof (aligned_up_least _ _ _ t Hup Ht Hd). lia. }
    specialize (IH (before ++ [f]) H0).
    destruct (RangeAllocator.allocate_loop (before ++ [f]) rest sz alignment) as [[range free']|].
    + destruct IH as (pre&g&post&->&Hpre&Ha&Hend&Hfit&->). exists (f :: pre), g, post.
      split; [done|]. split; [by constructor|]. split; [done|]. split; [done|]. split; [done|].
      by rewrite <- !app_assoc.
    + destruct IH as [?|[?|(g&?&?)]]; [left; by constructor|by right; left|right; right].
      exists g. split; [by right|done].
  - exists [], f, rest. split; [done|]. split; [constructor|]. simpl.
    split; [done|]. split; [done|]. split; [done|]. unfold leftovers. simpl. by rewrite <- !app_assoc.
Qed.

Section allocation.

Context (a : RangeAllocator.t) (live : gmap Z Range.t) (Ho : owns a live).

Lemma owns_free_starts : Forall (λ r, 0 <= Range.start r) (RangeAllocator.free a).
Proof. rewrite Forall_forall. intros r Hr. pose proof (owns_free_inside a live r Ho Hr). lia. Qed.

(** A range cut out of one free range becomes live. *)
Lemma owns_insert pre f post k range :
  RangeAllocator.free a = pre ++ f :: post → live !! k = None → nonempty_range range →
  Range.start f <= Range.start range → Range.end_ range <= Range.end_ f →
  owns (RangeAllocator.mk (RangeAllocator.size a) (RangeAllocator.normalize
    ((pre ++ post) ++ leftovers f (Range.start range) (Range.end_ range))))
    (<[k := range]> live).
Proof.
  intros Ef Hk Hr Hs He. pose proof (owns_canonical _ _ Ho) as Hc.
  assert (Hff : f ∈ RangeAllocator.free a) by (rewrite Ef; apply elem_of_app; right; by left).
  pose proof (owns_free_inside a live f Ho Hff) as Hf.
  destruct (leftovers_spec f (Range.start range) (Range.end_ range)) as [Hln Hlc]; [in_ranges; lia|done|].
  assert (Hn : Forall nonempty_range (pre ++ post)).
  { pose proof (canonical_nonempty _ Hc) as Hn. rewrite Ef in Hn.
    rewrite Forall_app, Forall_cons in Hn. apply Forall_app. tauto. }
  destruct (normalize_spec _ (proj2 (Forall_app _ _ _) (conj Hn Hln))) as [Hcan Hcov].
  assert (Hout : ∀ x, covered (pre ++ post) x → x ∉ range).
  { intros x (g&Hg&Hxg) Hx.
    assert (Hgf : g ≠ f ∧ g ∈ RangeAllocator.free a).
    { rewrite Ef. split; [|set_solver]. intros ->. destruct Hc as [_ Hgaps]. rewrite Ef in Hgaps.
      apply StronglySorted_app in Hgaps as (Hx1&_&[Hfp Hx2]%StronglySorted_cons).
      apply elem_of_app in Hg as [Hg|Hg].
      - specialize (Hx1 f f Hg ltac:(by left)). in_ranges. lia.
      - rewrite Forall_forall in Hfp. specialize (Hfp f Hg). in_ranges. lia. }
    destruct (canonical_apart _ g f Hc) as [->|[?|?]]; [by apply Hgf|done|by apply Hgf|..];
      in_ranges; lia. }
  assert (Hlive : ∀ x, x ∈ range → ¬ live_at live x).
  { intros x Hx. assert (Hcx : covered (RangeAllocator.free a) x).
    { exists f. split; [done|]. in_ranges. lia. }
    apply (owns_free _ _ Ho) in Hcx. apply Hcx. }
  split; simpl.
  - apply Ho.
  - done.
  - intros x. rewrite Hcov, covered_app, Hlc, live_at_insert by done.
    assert (Hfree : (covered (pre ++ post) x ∨ x ∈ f) ↔ covered (RangeAllocator.free a) x).
    { rewrite Ef, !covered_app, covered_cons. tauto. }
    rewrite (owns_free _ _ Ho) in Hfree. pose proof (Hout x). tauto.
  - intros j s [[-> ->]|[? E]]%lookup_insert_Some; [in_ranges; lia|by apply (owns_inside _ _ Ho j)].
  - intros i j r s [[-> ->]|[? Ei]]%lookup_insert_Some [[-> ->]|[? Ej]]%lookup_insert_Some Hij.
    + done.
    + intros x Hx Hxs. apply (Hlive x Hx). by exists j, s.
    + intros x Hx Hxs. apply (Hlive x Hxs). by exists i, r.
    + by apply (owns_disjoint _ _ Ho i j).
Qed.

(** A successful allocation: an aligned range of the requested size that was
    free, handed to the resource [k]. *)
Lemma allocate_some sz alignment k a' range :
  0 < sz → alignment <= U64.MAX → live !! k = None →
  RangeAllocator.allocate a sz alignment = (a', Some range) →
  owns a' (<[k := range]> live) ∧ RangeAllocator.size a' = RangeAllocator.size a ∧
  (alignment | Range.start range) ∧ Range.end_ range = Range.start range + sz.
Proof.
  intros Hsz Hal Hk E. unfold RangeAllocator.allocate in E.
  pose proof (allocate_loop_spec [] (RangeAllocator.free a) sz alignment Hsz Hal
    owns_free_starts) as Hl.
  destruct (RangeAllocator.allocate_loop _ _ _ _) as [[r free']|]; [|done].
  injection E as <- <-. destruct Hl as (pre&f&post&Ef&_&[Hup Hd]&Hend&Hef&->).
  split_and!; [|done|done|done]. simpl. apply owns_insert; try done; in_ranges; lia.
Qed.

End allocation.

(** Room for an allocation at the offset [s]: aligned, inside the block and
    disjoint from every live range. *)
Definition room_at (a : RangeAllocator.t) (live : gmap Z Range.t) (sz alignment s : Z) : Prop :=
  (alignment | s) ∧ 0 <= s ∧ s + sz <= RangeAllocator.size a ∧
  ∀ x, s <= x < s + sz → ¬ live_at live x.

(** Room for an allocation is room in one free range. *)
Lemma room_in_free a live sz alignment s :
  owns a live → 0 < sz → room_at a live sz alignment s →
  ∃ g, g ∈ RangeAllocator.free a ∧ Range.start g <= s ∧ s + sz <= Range.end_ g.
Proof.
  intros Ho Hsz (_&Hs&He&Hl). apply canonical_interval; [apply Ho|lia|].
  intros x Hx. apply (owns_free _ _ Ho). split; [lia|by apply Hl].
Qed.

(** Releasing the live range of [k]. *)
Lemma release_owns a live k r :
  owns a live → live !! k = Some r → owns (RangeAllocator.release a r) (delete k live).
Proof.
  intros Ho Hk. pose proof (owns_inside _ _ Ho k r Hk) as Hr.
  pose proof (canonical_nonempty _ (owns_canonical _ _ Ho)) as Hn.
  destruct (normalize_spec (RangeAllocator.free a ++ [r])) as [Hcan Hcov].
  { apply Forall_app. split; [done|]. repeat constructor. in_ranges. lia. }
  assert (Hd : ∀ j s, live !! j = Some s → j ≠ k → r ## s).
  { intros j s Hj ?. symmetry. by apply (owns_disjoint _ _ Ho j k). }
  split; simpl.
  - apply Ho.
  - done.
  - intros x. rewrite Hcov, covered_app, covered_cons, covered_nil, (live_at_delete _ k r) by done.
    rewrite (owns_free _ _ Ho).
    assert (x ∈ r → 0 <= x < RangeAllocator.size a) by (in_ranges; lia).
    assert (x ∈ r ∨ x ∉ r) by (in_ranges; lia). tauto.
  - intros j s [? E]%lookup_delete_Some. by apply (owns_inside _ _ Ho j).
  - intros i j s t [? Ei]%lookup_delete_Some [? Ej]%lookup_delete_Some.
    by apply (owns_disjoint _ _ Ho).
Qed.

(** A failed allocation had no room, as long as no sum overflows. *)
Lemma allocate_none a live sz alignment a' :
  owns a live → 0 < sz → is_power_of_two alignment = true →
  RangeAllocator.size a + alignment + sz <= U64.MAX →
  RangeAllocator.allocate a sz alignment = (a', None) →
  a' = a ∧ ∀ s, ¬ room_at a live sz alignment s.
Proof.
  intros Ho Hsz Hp Hov E. pose proof (owns_size _ _ Ho) as Hsize.
  pose proof (allocate_loop_spec [] (RangeAllocator.free a) sz alignment Hsz ltac:(lia)
    (owns_free_starts a live Ho)) as Hl.
  unfold RangeAllocator.allocate in E.
  destruct (RangeAllocator.allocate_loop _ _ _ _) as [[r free']|]; [done|].
  injection E as <-. split; [done|]. intros s Hroom.
  destruct (room_in_free a live sz alignment s Ho Hsz Hroom) as (g&Hg&Hgs&Hge).
  destruct Hl as [Hno|[?|(f&Hf&?)]]; [|congruence|].
  - rewrite Forall_forall in Hno. by apply (Hno g Hg s Hgs ltac:(apply Hroom)).
  - pose proof (owns_free_inside a live f Ho Hf). lia.
Qed.

(** A successful allocation is at the lowest offset with room. *)
Lemma allocate_lowest a live sz alignment a' range :
  owns a live → 0 < sz → alignment <= U64.MAX →
  RangeAllocator.allocate a sz alignment = (a', Some range) →
  room_at a live sz alignment (Range.start range) ∧
  ∀ s, room_at a live sz alignment s → Range.start range <= s.
Proof.
  intros Ho Hsz Hal E.
  pose proof (allocate_loop_spec [] (RangeAllocator.free a) sz alignment Hsz Hal
    (owns_free_starts a live Ho)) as Hl.
  unfold RangeAllocator.allocate in E.
  destruct (RangeAllocator.allocate_loop _ _ _ _) as [[r free']|]; [|done].
  injection E as <- <-. destruct Hl as (pre&f&post&Ef&Hpre&Hup&Hend&Hef&_).
  assert (Hff : f ∈ RangeAllocator.free a) by (rewrite Ef; apply elem_of_app; right; by left).
  pose proof (owns_free_inside a live f Ho Hff) as Hf. split.
  - destruct Hup as [Hup Hd]. split_and!; [done|lia|lia|]. intros x Hx.
    assert (Hc : covered (RangeAllocator.free a) x) by (exists f; split; [done|in_ranges; lia]).
    apply (owns_free _ _ Ho) in Hc. apply Hc.
  - intros s Hroom. destruct (room_in_free a live sz alignment s Ho Hsz Hroom) as (g&Hg&Hgs&Hge).
    rewrite Ef in Hg. apply elem_of_app in Hg as [Hg|[->|Hg]%elem_of_cons].
    + rewrite Forall_forall in Hpre. exfalso. by apply (Hpre g Hg s Hgs ltac:(apply Hroom)).
    + apply (aligned_up_least _ _ _ s Hup Hgs). apply Hroom.
    + destruct (owns_canonical _ _ Ho) as [_ Hgaps]. rewrite Ef in Hgaps.
      apply StronglySorted_app in Hgaps as (_&_&[Hfp _]%StronglySorted_cons).
      rewrite Forall_forall in Hfp. specialize (Hfp g Hg). in_ranges. lia.
Qed.

(** ** Claims *)

(** C23: the suballocator of a memory block implements exact first-fit
    allocation. In every state that accounts for the live ranges, an allocation
    returns an aligned range of the requested size at the lowest offset with
    room, disjoint from every live range, and fails only when there is no room
    at all; releasing a live range makes room of exactly that range; and all of
    the block is available exactly when nothing is live. Fragmentation is never
    left behind, because the free list is coalesced by every operation. *)
Theorem suballocator_exact a live sz alignment k :
  owns a live → 0 < sz → is_power_of_two alignment = true →
  RangeAllocator.size a + alignment + sz <= U64.MAX → live !! k = None →
  match RangeAllocator.allocate a sz alignment with
  | (a', Some range) => owns a' (<[k := range]> live) ∧
      Range.end_ range = Range.start range + sz ∧
      room_at a live sz alignment (Range.start range) ∧
      (∀ s, room_at a live sz alignment s → Range.start range <= s)
  | (a', None) => a' = a ∧ ∀ s, ¬ room_at a live sz alignment s
  end ∧
  (∀ j r, live !! j = Some r → owns (RangeAllocator.release a r) (delete j live)) ∧
  (RangeAllocator.available a = RangeAllocator.size a ↔ live = ∅).
Proof.
  intros Ho Hsz Hp Hov Hk. pose proof (owns_size _ _ Ho). split_and!.
  - destruct (RangeAllocator.allocate a sz alignment) as [a' [range|]] eqn:E.
    + destruct (allocate_some a live Ho sz alignment k a' range Hsz ltac:(lia) Hk E)
        as (Ho'&_&_&Hend).
      split; [done|]. split; [done|]. apply (allocate_lowest a live sz alignment a'); [done|done|lia|done].
    + by apply allocate_none.
  - intros j r. by apply release_owns.
  - by apply available_full.
Qed.

(** A block of 1024 bytes with a live range in its middle. *)
Lemma suballocator_exact_witness :
  let a := RangeAllocator.mk 1024 [Range.mk 0 256; Range.mk 512 1024] in
  let live := {[1 := Range.mk 256 512]} : gmap Z Range.t in
  owns a live ∧
  ∃ a', RangeAllocator.allocate a 300 64 = (a', Some (Range.mk 512 812)) ∧
    owns a' (<[2 := Range.mk 512 812]> live).
Proof.
  cbv zeta.
  assert (Ho : owns (RangeAllocator.mk 1024 [Range.mk 0 256; Range.mk 512 1024])
    ({[1 := Range.mk 256 512]} : gmap Z Range.t)).
  { split; simpl.
    - vm_compute; split; congruence.
    - split; repeat constructor; in_ranges; lia.
    - intros x. autorewrite with ranges. unfold live_at. split.
      + intros Hx. split; [in_ranges; lia|]. intros (k&r&[<- <-]%lookup_singleton_Some&Hr).
        in_ranges. lia.
      + intros [Hx Hl]. assert (x ∉ Range.mk 256 512).
        { intros Hm. apply Hl. exists 1, (Range.mk 256 512). split; [by simplify_map_eq|done]. }
        in_ranges. lia.
    - intros k r [<- <-]%lookup_singleton_Some. simpl. lia.
    - intros j k r s [<- <-]%lookup_singleton_Some [<- <-]%lookup_singleton_Some. done. }
  split; [done|]. eexists. assert (E : RangeAllocator.allocate
    (RangeAllocator.mk 1024 [Range.mk 0 256; Range.mk 512 1024]) 300 64 =
    (RangeAllocator.mk 1024 [Range.mk 0 256; Range.mk 812 1024], Some (Range.mk 512 812)))
    by (vm_compute; reflexivity).
  split; [exact E|].
  destruct (suballocator_exact _ _ 300 64 2 Ho) as [H _];
    [lia|reflexivity|vm_compute; congruence|reflexivity|].
  rewrite E in H. destruct H as [H _]. exact H.
Defined.
