(* ===== verification/Memory.v ===== *)
(** * Device memory

    The memory types of [vulkan-renderer/src/memory.rs] and the block allocator
    of [vulkan-renderer/src/allocator.rs] and [allocator/image.rs]: buffers and
    images of one class, location and memory type share blocks of device
    memory, each with the free list of [Suballoc]; large and dedicated resources
    get a block of their own.

    What Vulkan answers during an operation (handles, requirements, results of
    allocating, mapping and binding) is an argument of the operation, so the
    theorems hold for every answer. An [Arc] is an identifier: the arena holds
    the blocks whose reference count is not zero. *)

From S2P Require Import Prelude Suballoc.

(** ** Memory types *)

Inductive MemoryLocation := Device | Upload | Readback.

#[export] Instance MemoryLocation_eq_dec : EqDecision MemoryLocation.
Proof. solve_decision. Defined.

(** [vk::MemoryPropertyFlags], by the flags the code asks for. *)
Module MemoryPropertyFlags.

Record t := mk {
  DEVICE_LOCAL : bool;
  HOST_VISIBLE : bool;
  HOST_COHERENT : bool;
  HOST_CACHED : bool;
  LAZILY_ALLOCATED : bool }.

End MemoryPropertyFlags.

Module MemoryTypeInfo.

Record t := mk {
  index : Z;
  heap_index : Z;
  properties : MemoryPropertyFlags.t;
  heap_size : Z }.

End MemoryTypeInfo.

Module AllocationRequirements.

Record t := mk {
  size : Z;
  alignment : Z;
  memory_type_bits : Z;
  non_coherent_atom_size : Z }.

End AllocationRequirements.

Module MemoryPlan.

Record t := mk {
  memory_type_index : Z;
  heap_index : Z;
  properties : MemoryPropertyFlags.t;
  allocation_size : Z;
  alignment : Z;
  flush_atom_size : option Z;
  invalidate_atom_size : option Z }.

Definition host_visible (self : t) : bool := MemoryPropertyFlags.HOST_VISIBLE (properties self).

Definition host_coherent (self : t) : bool := MemoryPropertyFlags.HOST_COHERENT (properties self).

End MemoryPlan.

Inductive MemoryPlanError :=
| ZeroSize
| InvalidAlignment (alignment : Z)
| SizeOverflow
| NoCompatibleMemoryType (memory_type_bits : Z) (location : MemoryLocation).

(** The scores are compared lexicographically. *)
Definition lex4_le (p q : Z * (Z * (Z * Z))) : Prop :=
  p.1 < q.1 ∨ (p.1 = q.1 ∧ lex3_le p.2 q.2).

#[export] Instance lex4_le_dec : RelDecision lex4_le.
Proof. intros p q. unfold lex4_le. apply _. Defined.

#[export] Program Instance score_order : KeyOrder (Z * (Z * (Z * Z))) := {| key_le := lex4_le |}.
Next Obligation.
  split; [split; [split|]|].
  - intros [w [x [y z]]]. unfold lex4_le, lex3_le, lex_le; simpl. lia.
  - intros [a [a2 []]] [b [b2 []]] [c [c2 []]]. unfold lex4_le, lex3_le, lex_le; simpl. lia.
  - intros [a [a2 []]] [b [b2 []]]. unfold lex4_le, lex3_le, lex_le; simpl.
    intros. repeat f_equal; lia.
  - intros [a p] [b q]. unfold strict, lex4_le; simpl.
    destruct (Z.lt_trichotomy a b) as [?|[->|?]]; [left; lia| |right; right; lia].
    destruct (trichotomy (strict (@key_le _ ZZZ_key_order)) p q) as [[? Hn]|[->|[? Hn]]];
      [left|by right; left|right; right]; simpl in *; intuition lia.
Qed.

(** [min_by_key]: the first element with the least key. *)
Definition min_by_key {A K} `{KeyOrder K} (key : A → K) (l : list A) : option A :=
  foldl (λ best x,
    match best with
    | None => Some x
    | Some b => if decide (key_le (key b) (key x)) then best else Some x
    end) None l.

Lemma min_by_key_spec {A K} `{KeyOrder K} (key : A → K) l :
  match min_by_key key l with
  | None => l = []
  | Some m => m ∈ l ∧ ∀ x, x ∈ l → key_le (key m) (key x)
  end.
Proof.
  unfold min_by_key. induction l as [|a l IH] using rev_ind; [done|].
  rewrite foldl_app. simpl. destruct (foldl _ None l) as [m|].
  - destruct IH as [Hm Hl]. case_decide as Hd.
    + split; [set_solver|]. intros x [Hx| ->%list_elem_of_singleton]%elem_of_app; [by apply Hl|done].
    + assert (Ham : key_le (key a) (key m)) by (by destruct (total key_le (key m) (key a))).
      split; [set_solver|]. intros x [Hx| ->%list_elem_of_singleton]%elem_of_app; [|reflexivity].
      etransitivity; [done|by apply Hl].
  - subst. split; [set_solver|]. by intros x ->%list_elem_of_singleton.
Qed.

Module MemoryTypeSelector.

(** [align_up] of [memory.rs], which does not ask for a power of two. *)
Definition align_up (value alignment : Z) : option Z :=
  mask ← (if 1 <=? alignment then Some (alignment - 1) else None);
  (λ value, Z.land value (bit_not mask)) <$> checked_add value mask.

Definition memory_score (memory : MemoryTypeInfo.t) (location : MemoryLocation)
    : Z * (Z * (Z * Z)) :=
  let flags := MemoryTypeInfo.properties memory in
  let coherent := MemoryPropertyFlags.HOST_COHERENT flags in
  let cached := MemoryPropertyFlags.HOST_CACHED flags in
  let device_local := MemoryPropertyFlags.DEVICE_LOCAL flags in
  match location with
  | Device =>
      (Z.b2z (MemoryPropertyFlags.HOST_VISIBLE flags),
        (Z.b2z (negb device_local), (0, MemoryTypeInfo.index memory)))
  | Upload =>
      (Z.b2z (negb coherent),
        (Z.b2z (negb device_local), (Z.b2z cached, MemoryTypeInfo.index memory)))
  | Readback =>
      (Z.b2z (negb cached),
        (Z.b2z (negb coherent), (Z.b2z (negb device_local), MemoryTypeInfo.index memory)))
  end.

(** The property that the location requires. *)
Definition required (location : MemoryLocation) (flags : MemoryPropertyFlags.t) : bool :=
  match location with
  | Device => MemoryPropertyFlags.DEVICE_LOCAL flags
  | Upload | Readback => MemoryPropertyFlags.HOST_VISIBLE flags
  end.

(** [memory_type_bits & (1 << memory.index) != 0] on [u32]. *)
Definition type_bit (bits index : Z) : bool :=
  negb (Z.land bits (Z.shiftl 1 (index mod 32)) =? 0).

(** The four filters of the selection. *)
Definition candidate (requirements : AllocationRequirements.t) (location : MemoryLocation)
    (allocation_size : Z) (memory : MemoryTypeInfo.t) : bool :=
  type_bit (AllocationRequirements.memory_type_bits requirements) (MemoryTypeInfo.index memory)
  && required location (MemoryTypeInfo.properties memory)
  && negb (MemoryPropertyFlags.LAZILY_ALLOCATED (MemoryTypeInfo.properties memory))
  && (allocation_size <=? MemoryTypeInfo.heap_size memory).

Definition plan_of (selected : MemoryTypeInfo.t) (requirements : AllocationRequirements.t)
    (allocation_size : Z) : MemoryPlan.t :=
  let flags := MemoryTypeInfo.properties selected in
  let non_coherent := MemoryPropertyFlags.HOST_VISIBLE flags
    && negb (MemoryPropertyFlags.HOST_COHERENT flags) in
  let atom := if non_coherent
    then Some (Z.max (AllocationRequirements.non_coherent_atom_size requirements) 1) else None in
  MemoryPlan.mk (MemoryTypeInfo.index selected) (MemoryTypeInfo.heap_index selected) flags
    allocation_size (AllocationRequirements.alignment requirements) atom atom.

Definition select (types : list MemoryTypeInfo.t) (requirements : AllocationRequirements.t)
    (location : MemoryLocation) : Outcome MemoryPlanError MemoryPlan.t :=
  let size := AllocationRequirements.size requirements in
  let alignment := AllocationRequirements.alignment requirements in
  if size =? 0 then Err ZeroSize
  else if (alignment =? 0) || negb (is_power_of_two alignment) then Err (InvalidAlignment alignment)
  else match align_up size alignment with
  | None => Err SizeOverflow
  | Some allocation_size =>
      match min_by_key (λ memory, memory_score memory location)
          (filter (λ m, candidate requirements location allocation_size m = true) types) with
      | None => Err (NoCompatibleMemoryType
          (AllocationRequirements.memory_type_bits requirements) location)
      | Some selected => Ok (plan_of selected requirements allocation_size)
      end
  end.

End MemoryTypeSelector.

(** ** Blocks *)

Inductive MemoryClass := Buffer | LinearImage | OptimalImage.

#[export] Instance MemoryClass_eq_dec : EqDecision MemoryClass.
Proof. solve_decision. Defined.

Inductive ResourceDescriptorError :=
| ZeroBufferSize | EmptyBufferUsage
| ZeroImageExtent | ZeroMipLevels | ZeroArrayLayers | InvalidSampleCount | EmptyImageUsage
| HostVisibleOptimalImage.

(** The errors of the allocator, one constructor per site. *)
Inductive AllocatorError :=
| Descriptor (e : ResourceDescriptorError)
| CreateResource                    (** [vkCreateBuffer], [vkCreateImage] *)
| Plan (e : MemoryPlanError)
| BlockSizeOverflows
| MemoryTypeDisappeared
| MinimumSizeOverflows
| AllocateMemory                    (** [vkAllocateMemory] *)
| MapMemory                         (** [vkMapMemory2] *)
| NewBlockCannotSatisfy
| BindMemory                        (** [vkBindBufferMemory2], [vkBindImageMemory2] *)
| ZeroDeviceAddress
| WrongLocation
| RangeOverflows
| ExceedsBuffer
| NotHostVisible
| ExceedsBlock.

Module MemoryBlock.

Record t := mk {
  memory : Z;
  size : Z;
  class : MemoryClass;
  location : MemoryLocation;
  memory_type_index : Z;
  host_coherent : bool;
  non_coherent_atom_size : Z;
  mapped_address : option Z;
  dedicated : bool;
  ranges : RangeAllocator.t }.

Definition with_ranges (self : t) (r : RangeAllocator.t) : t :=
  mk (memory self) (size self) (class self) (location self) (memory_type_index self)
    (host_coherent self) (non_coherent_atom_size self) (mapped_address self)
    (dedicated self) r.

(** [memory] and [address] are the answers of [vkAllocateMemory] and
    [vkMapMemory2]. *)
Definition new (class : MemoryClass) (location : MemoryLocation) (plan : MemoryPlan.t)
    (size : Z) (dedicated : bool) (memory address : option Z) : Outcome AllocatorError t :=
  match memory with
  | None => Err AllocateMemory
  | Some memory =>
      let built mapped_address := mk memory size class location
        (MemoryPlan.memory_type_index plan) (MemoryPlan.host_coherent plan)
        (default 1 (MemoryPlan.flush_atom_size plan)) mapped_address dedicated
        (RangeAllocator.new size) in
      if MemoryPlan.host_visible plan then
        match address with None => Err MapMemory | Some p => Ok (built (Some p)) end
      else Ok (built None)
  end.

Definition compatible (self : t) (c : MemoryClass) (l : MemoryLocation) (index : Z) : bool :=
  negb (dedicated self) && bool_decide (class self = c) && bool_decide (location self = l)
  && (memory_type_index self =? index).

Definition allocate (self : t) (sz alignment : Z) : t * option Range.t :=
  let '(r, range) := RangeAllocator.allocate (ranges self) sz alignment in
  (with_ranges self r, range).

Definition release (self : t) (range : Range.t) : t :=
  with_ranges self (RangeAllocator.release (ranges self) range).

Definition is_empty (self : t) : bool := RangeAllocator.available (ranges self) =? size self.

(** The address of a mapped range; [usize] has 64 bits. *)
Definition mapped_range (self : t) (offset sz : Z) : Outcome AllocatorError Z :=
  match mapped_address self with
  | None => Err NotHostVisible
  | Some base =>
      match checked_add offset sz with
      | None => Err RangeOverflows
      | Some end_ =>
          if size self <? end_ then Err ExceedsBlock
          else Ok ((base + offset) mod 18446744073709551616)
      end
  end.

(** The range of [flush_or_invalidate]: its start, and its length or the rest
    of the memory ([None], [VK_WHOLE_SIZE]). *)
Definition flush_or_invalidate (self : t) (offset sz : Z) : Outcome AllocatorError (Z * option Z) :=
  let atom := non_coherent_atom_size self in
  let start := align_down offset atom in
  match checked_add offset sz ≫= (λ end_, align_up end_ atom) with
  | None => Err RangeOverflows
  | Some end_ => Ok (start, if end_ <=? size self then Some (end_ - start) else None)
  end.

(** [flush] and [invalidate]; [None] when coherent memory needs neither. *)
Definition synchronize (self : t) (offset sz : Z)
    : Outcome AllocatorError (option (Z * option Z)) :=
  if host_coherent self then Ok None
  else match flush_or_invalidate self offset sz with
  | Ok r => Ok (Some r)
  | Err e => Err e
  | Panic => Panic
  end.

End MemoryBlock.

(** ** Descriptors *)

Module BufferUsages.

Definition SHADER_DEVICE_ADDRESS : Z := 128.

Definition is_empty (usage : Z) : bool := usage =? 0.

Definition contains (usage required : Z) : bool := Z.land usage required =? required.

End BufferUsages.

Module BufferDescriptor.

Record t := mk { size : Z; usage : Z; memory : MemoryLocation }.

Definition validate (self : t) : Outcome ResourceDescriptorError unit :=
  if size self =? 0 then Err ZeroBufferSize
  else if BufferUsages.is_empty (usage self) then Err EmptyBufferUsage
  else Ok tt.

End BufferDescriptor.

Inductive ImageTiling := Optimal | Linear.

#[export] Instance ImageTiling_eq_dec : EqDecision ImageTiling.
Proof. solve_decision. Defined.

Module Extent3D.

Record t := mk { width : Z; height : Z; depth_or_layers : Z }.

Definition is_empty (self : t) : bool :=
  (width self =? 0) || (height self =? 0) || (depth_or_layers self =? 0).

End Extent3D.

(** The dimension, format and sample count of an image only reach Vulkan. *)
Module ImageDescriptor.

Record t := mk {
  extent : Extent3D.t;
  mip_levels : Z;
  array_layers : Z;
  tiling : ImageTiling;
  usage : Z;
  memory : MemoryLocation }.

Definition validate (self : t) : Outcome ResourceDescriptorError unit :=
  if Extent3D.is_empty (extent self) then Err ZeroImageExtent
  else if mip_levels self =? 0 then Err ZeroMipLevels
  else if array_layers self =? 0 then Err ZeroArrayLayers
  else if usage self =? 0 then Err EmptyImageUsage
  else if negb (bool_decide (memory self = Device)) && bool_decide (tiling self = Optimal)
    then Err HostVisibleOptimalImage
  else Ok tt.

End ImageDescriptor.

(** ** The allocator *)

Module MemoryAllocatorConfig.

Record t := mk {
  device_block_size : Z;
  image_block_size : Z;
  upload_block_size : Z;
  readback_block_size : Z;
  dedicated_threshold : Z }.

Definition default : t := mk 67108864 134217728 16777216 16777216 33554432.

End MemoryAllocatorConfig.

(** What Vulkan answers while a resource is created. *)
Module Replies.

Record t := mk {
  create : bool;
  size : Z;
  alignment : Z;
  memory_type_bits : Z;
  prefers_dedicated : bool;
  requires_dedicated : bool;
  allocate_memory : option Z;
  map_memory : option Z;
  bind : bool;
  device_address : Z }.

(** The numbers are [u64] values. *)
Definition ok (vk : t) : Prop :=
  0 <= size vk <= U64.MAX ∧ 0 <= alignment vk <= U64.MAX.

End Replies.

(** [BufferInner] and [ImageInner]: a buffer keeps its size, an image does not
    need one. The range is taken when the resource is dropped. *)
Module Resource.

Record t := mk {
  block : Z;
  range : option Range.t;
  class : MemoryClass;
  size : Z;
  memory : MemoryLocation;
  device_address : option Z }.

End Resource.

(** The bytes of a mapped access and the range that is flushed or
    invalidated. *)
Module Access.

Record t := mk {
  address : Z;
  offset : Z;
  length : Z;
  synchronized : option (Z * option Z) }.

End Access.

Module MemoryAllocator.

Record t := mk {
  config : MemoryAllocatorConfig.t;
  memory_types : list MemoryTypeInfo.t;
  non_coherent_atom_size : Z;
  arena : gmap Z MemoryBlock.t;
  blocks : list Z;
  resources : gmap Z Resource.t;
  next : Z }.

Abbreviation Alloc := (Run t AllocatorError).

Definition set_arena (a : gmap Z MemoryBlock.t) (self : t) : t :=
  mk (config self) (memory_types self) (non_coherent_atom_size self) a (blocks self)
    (resources self) (next self).

Definition set_blocks (b : list Z) (self : t) : t :=
  mk (config self) (memory_types self) (non_coherent_atom_size self) (arena self) b
    (resources self) (next self).

Definition set_resources (r : gmap Z Resource.t) (self : t) : t :=
  mk (config self) (memory_types self) (non_coherent_atom_size self) (arena self)
    (blocks self) r (next self).

(** The identity of the next [Arc]. *)
Definition fresh : Alloc Z := λ self,
  (mk (config self) (memory_types self) (non_coherent_atom_size self) (arena self)
    (blocks self) (resources self) (next self + 1), Ok (next self)).

(** [create_memory_allocator]. *)
Definition new (config : MemoryAllocatorConfig.t) (memory_types : list MemoryTypeInfo.t)
    (non_coherent_atom_size : Z) : option t :=
  if (MemoryAllocatorConfig.device_block_size config =? 0)
    || (MemoryAllocatorConfig.image_block_size config =? 0)
    || (MemoryAllocatorConfig.upload_block_size config =? 0)
    || (MemoryAllocatorConfig.readback_block_size config =? 0)
    || (MemoryAllocatorConfig.dedicated_threshold config =? 0)
  then None
  else Some (mk config memory_types (Z.max non_coherent_atom_size 1) ∅ [] ∅ 0).

Definition lift {E A} (f : E → AllocatorError) (o : Outcome E A) : Alloc A :=
  match o with Ok a => mret a | Err e => throw (f e) | Panic => panic end.

Definition ok_or {A} (e : AllocatorError) (o : option A) : Alloc A :=
  match o with Some a => mret a | None => throw e end.

(** Access to a shared block; the reference is live, so it never panics. *)
Definition block_at (id : Z) : Alloc MemoryBlock.t :=
  self ← get_state; expect (arena self !! id).

(** [block.allocate(..)] and [block.release(..)] through the [Arc]. *)
Definition allocate_in (id sz alignment : Z) : Alloc (option Range.t) :=
  block ← block_at id;
  let '(block, range) := MemoryBlock.allocate block sz alignment in
  _ ← modify (λ self, set_arena (<[id := block]> (arena self)) self);
  mret range.

Definition release_in (id : Z) (range : Range.t) : Alloc unit :=
  block ← block_at id;
  modify (λ self, set_arena (<[id := MemoryBlock.release block range]> (arena self)) self).

(** The loop over the shared blocks. *)
Fixpoint find_block (class : MemoryClass) (location : MemoryLocation)
    (memory_type_index sz alignment : Z) (ids : list Z) : Alloc (option (Z * Range.t)) :=
  match ids with
  | [] => mret None
  | id :: ids =>
      block ← block_at id;
      let next := find_block class location memory_type_index sz alignment ids in
      if MemoryBlock.compatible block class location memory_type_index then
        found ← allocate_in id sz alignment;
        match found with Some range => mret (Some (id, range)) | None => next end
      else next
  end.

(** [bind_buffer] and [bind_image] up to the configured block size and to what
    happens to the range that was found. *)
Definition bind_resource {A} (vk : Replies.t) (class : MemoryClass) (location : MemoryLocation)
    (configured : Z) (finish : Z → Range.t → Alloc A) : Alloc A :=
  let sz := Replies.size vk in
  let alignment := Replies.alignment vk in
  self ← get_state;
  selection ← lift Plan (MemoryTypeSelector.select (memory_types self)
    (AllocationRequirements.mk sz alignment (Replies.memory_type_bits vk)
      (non_coherent_atom_size self)) location);
  let dedicated := (MemoryAllocatorConfig.dedicated_threshold (config self) <=? sz)
    || Replies.prefers_dedicated vk || Replies.requires_dedicated vk in
  let index := MemoryPlan.memory_type_index selection in
  found ← (if dedicated then mret None
    else find_block class location index sz alignment (blocks self));
  match found with
  | Some (id, range) => finish id range
  | None =>
      desired ← ok_or BlockSizeOverflows
        (align_up (if dedicated then sz else Z.max configured sz) alignment);
      heap_size ← ok_or MemoryTypeDisappeared
        (MemoryTypeInfo.heap_size <$>
          head (filter (λ m, MemoryTypeInfo.index m = index) (memory_types self)));
      block_size ← (if desired <=? heap_size then mret desired
        else ok_or MinimumSizeOverflows (align_up sz alignment));
      block ← lift id (MemoryBlock.new class location selection block_size dedicated
        (Replies.allocate_memory vk) (Replies.map_memory vk));
      let '(block, range) := MemoryBlock.allocate block sz alignment in
      range ← ok_or NewBlockCannotSatisfy range;
      id ← fresh;
      _ ← modify (λ self, set_blocks (blocks self ++ [id])
        (set_arena (<[id := block]> (arena self)) self));
      finish id range
  end.

(** The new resource, owned by its first handle. *)
Definition insert_resource (r : Resource.t) : Alloc Z :=
  id ← fresh;
  _ ← modify (λ self, set_resources (<[id := r]> (resources self)) self);
  mret id.

Definition finish_buffer (vk : Replies.t) (descriptor : BufferDescriptor.t) (id : Z)
    (range : Range.t) : Alloc Z :=
  if negb (Replies.bind vk) then release_in id range;; throw BindMemory
  else if BufferUsages.contains (BufferDescriptor.usage descriptor)
      BufferUsages.SHADER_DEVICE_ADDRESS then
    if Replies.device_address vk =? 0 then release_in id range;; throw ZeroDeviceAddress
    else insert_resource (Resource.mk id (Some range) Buffer (BufferDescriptor.size descriptor)
      (BufferDescriptor.memory descriptor) (Some (Replies.device_address vk)))
  else insert_resource (Resource.mk id (Some range) Buffer (BufferDescriptor.size descriptor)
    (BufferDescriptor.memory descriptor) None).

Definition bind_buffer (vk : Replies.t) (descriptor : BufferDescriptor.t) : Alloc Z :=
  self ← get_state;
  let configured :=
    match BufferDescriptor.memory descriptor with
    | Device => MemoryAllocatorConfig.device_block_size (config self)
    | Upload => MemoryAllocatorConfig.upload_block_size (config self)
    | Readback => MemoryAllocatorConfig.readback_block_size (config self)
    end in
  bind_resource vk Buffer (BufferDescriptor.memory descriptor) configured
    (finish_buffer vk descriptor).

Definition create_buffer (vk : Replies.t) (descriptor : BufferDescriptor.t) : Alloc Z :=
  _ ← lift Descriptor (BufferDescriptor.validate descriptor);
  if Replies.create vk then bind_buffer vk descriptor else throw CreateResource.

Definition finish_image (vk : Replies.t) (descriptor : ImageDescriptor.t) (class : MemoryClass)
    (id : Z) (range : Range.t) : Alloc Z :=
  if negb (Replies.bind vk) then release_in id range;; throw BindMemory
  else insert_resource (Resource.mk id (Some range) class 0
    (ImageDescriptor.memory descriptor) None).

Definition bind_image (vk : Replies.t) (descriptor : ImageDescriptor.t) : Alloc Z :=
  self ← get_state;
  let class := match ImageDescriptor.tiling descriptor with
    | Linear => LinearImage
    | Optimal => OptimalImage
    end in
  let configured :=
    match ImageDescriptor.memory descriptor with
    | Device => MemoryAllocatorConfig.image_block_size (config self)
    | Upload => MemoryAllocatorConfig.upload_block_size (config self)
    | Readback => MemoryAllocatorConfig.readback_block_size (config self)
    end in
  bind_resource vk class (ImageDescriptor.memory descriptor) configured
    (finish_image vk descriptor class).

Definition create_image (vk : Replies.t) (descriptor : ImageDescriptor.t) : Alloc Z :=
  _ ← lift Descriptor (ImageDescriptor.validate descriptor);
  if Replies.create vk then bind_image vk descriptor else throw CreateResource.

(** ** Dropping resources *)

(** [Arc::strong_count]: the list of blocks and every resource hold one. *)
Definition strong_count (self : t) (id : Z) : Z :=
  Z.of_nat (length (filter (λ b, b = id) (blocks self)))
  + Z.of_nat (size (filter (λ kr : Z * Resource.t, Resource.block kr.2 = id) (resources self))).

(** A block is dropped with its last reference. *)
Definition collect (id : Z) (self : t) : t :=
  if strong_count self id =? 0 then set_arena (delete id (arena self)) self else self.

(** The last handle of a resource is dropped in two steps, because another
    thread may run between them: [Drop] of the inner value takes and releases
    the range, and then its reference to the block goes. *)
Definition drop_inner (id : Z) : Alloc unit :=
  self ← get_state;
  match resources self !! id with
  | None => mret tt
  | Some r =>
      match Resource.range r with
      | None => mret tt
      | Some range =>
          _ ← modify (set_resources (<[id := Resource.mk (Resource.block r) None
            (Resource.class r) (Resource.size r) (Resource.memory r)
            (Resource.device_address r)]> (resources self)));
          release_in (Resource.block r) range
      end
  end.

Definition drop_block_reference (id : Z) : Alloc unit :=
  self ← get_state;
  match resources self !! id with
  | None => mret tt
  | Some r =>
      match Resource.range r with
      | Some _ => mret tt
      | None =>
          modify (λ self, collect (Resource.block r)
            (set_resources (delete id (resources self)) self))
      end
  end.

(** ** Trimming *)

Definition block_key (block : MemoryBlock.t) : MemoryClass * MemoryLocation * Z :=
  (MemoryBlock.class block, MemoryBlock.location block, MemoryBlock.memory_type_index block).

(** The closure of [retain]: whether the block stays, and the keys of the empty
    blocks that stay so far. *)
Fixpoint retain_blocks (self : t) (retained_empty : list (MemoryClass * MemoryLocation * Z))
    (ids : list Z) : list Z :=
  match ids with
  | [] => []
  | id :: ids =>
      match arena self !! id with
      | None => retain_blocks self retained_empty ids
      | Some block =>
          if negb (strong_count self id =? 1) || negb (MemoryBlock.is_empty block) then
            id :: retain_blocks self retained_empty ids
          else if MemoryBlock.dedicated block
              || bool_decide (block_key block ∈ retained_empty) then
            retain_blocks self retained_empty ids
          else id :: retain_blocks self (retained_empty ++ [block_key block]) ids
      end
  end.

Definition trim (self : t) : t * Z :=
  let kept := retain_blocks self [] (blocks self) in
  (foldr collect (set_blocks kept self) (blocks self),
    Z.of_nat (length (blocks self)) - Z.of_nat (length kept)).

Definition block_count (self : t) : Z := Z.of_nat (length (blocks self)).

(** ** Access to the memory of a buffer *)

Definition allocation_size (r : Resource.t) : Z :=
  match Resource.range r with Some range => Range.length range | None => 0 end.

(** The guards that [write_with] and [read] share. *)
Definition checked_end (r : Resource.t) (location : MemoryLocation) (offset sz : Z)
    : Outcome AllocatorError unit :=
  if negb (bool_decide (Resource.memory r = location)) then Err WrongLocation
  else match checked_add offset sz with
  | None => Err RangeOverflows
  | Some end_ => if Resource.size r <? end_ then Err ExceedsBuffer else Ok tt
  end.

(** [write_with]: [None] for an empty write. The callback runs between the
    mapping and the flush. *)
Definition write_with (self : t) (r : Resource.t) (offset sz : Z)
    : Outcome AllocatorError (option Access.t) :=
  match checked_end r Upload offset sz with
  | Ok _ =>
      if sz =? 0 then Ok None
      else match Resource.range r, arena self !! Resource.block r with
      | Some range, Some block =>
          let allocation_offset := Range.start range + offset in
          match MemoryBlock.mapped_range block allocation_offset sz with
          | Ok destination =>
              match MemoryBlock.synchronize block allocation_offset sz with
              | Ok flushed => Ok (Some (Access.mk destination allocation_offset sz flushed))
              | Err e => Err e
              | Panic => Panic
              end
          | Err e => Err e
          | Panic => Panic
          end
      | _, _ => Panic
      end
  | Err e => Err e
  | Panic => Panic
  end.

(** [read]: the range is invalidated before it is mapped. *)
Definition read (self : t) (r : Resource.t) (offset sz : Z) : Outcome AllocatorError Access.t :=
  match checked_end r Readback offset sz with
  | Ok _ =>
      match Resource.range r, arena self !! Resource.block r with
      | Some range, Some block =>
          let allocation_offset := Range.start range + offset in
          match MemoryBlock.synchronize block allocation_offset sz with
          | Ok invalidated =>
              match MemoryBlock.mapped_range block allocation_offset sz with
              | Ok source => Ok (Access.mk source allocation_offset sz invalidated)
              | Err e => Err e
              | Panic => Panic
              end
          | Err e => Err e
          | Panic => Panic
          end
      | _, _ => Panic
      end
  | Err e => Err e
  | Panic => Panic
  end.

End MemoryAllocator.
