(* ===== verification/MemoryInv.v ===== *)
(** * The invariant of the memory allocator

    [wf]: every live resource lies in a block that is still allocated, of its
    class and location; the free list of every block accounts for the ranges of
    its resources; a dedicated block has one resource at most. The lemmas show
    that every operation of [Memory] keeps it. *)

From S2P Require Import Prelude Suballoc Memory.

Import MemoryAllocator.

(** ** The invariant *)

(** The ranges that resources hold in the block [id]. *)
Definition live_in (res : gmap Z Resource.t) (id : Z) : gmap Z Range.t :=
  omap (λ r, if decide (Resource.block r = id) then Resource.range r else None) res.

Record block_ok (b : MemoryBlock.t) : Prop := {
  block_size_ok : RangeAllocator.size (MemoryBlock.ranges b) = MemoryBlock.size b;
  block_mapped : MemoryBlock.location b ≠ Device → is_Some (MemoryBlock.mapped_address b);
  block_atom : is_power_of_two (MemoryBlock.non_coherent_atom_size b) = true;
  block_atom_max : MemoryBlock.non_coherent_atom_size b <= U64.MAX }.

Record wf (self : t) : Prop := {
  wf_atom : is_power_of_two (non_coherent_atom_size self) = true ∧
    non_coherent_atom_size self <= U64.MAX;
  wf_arena_next id b : arena self !! id = Some b → id < next self;
  wf_resources_next k r : resources self !! k = Some r → k < next self;
  wf_blocks_nodup : NoDup (blocks self);
  wf_blocks id : id ∈ blocks self → is_Some (arena self !! id);
  wf_referenced id b : arena self !! id = Some b →
    id ∈ blocks self ∨ ∃ k r, resources self !! k = Some r ∧ Resource.block r = id;
  wf_resources k r : resources self !! k = Some r → ∃ b,
    arena self !! Resource.block r = Some b ∧
    MemoryBlock.class b = Resource.class r ∧ MemoryBlock.location b = Resource.memory r;
  wf_block_ok id b : arena self !! id = Some b → block_ok b;
  wf_owns id b : arena self !! id = Some b →
    owns (MemoryBlock.ranges b) (live_in (resources self) id);
  wf_dedicated id b j k r s : arena self !! id = Some b → MemoryBlock.dedicated b = true →
    resources self !! j = Some r → resources self !! k = Some s →
    Resource.block r = id → Resource.block s = id → j = k;
  wf_sizes k r range : resources self !! k = Some r → Resource.range r = Some range →
    Resource.class r = Buffer → 0 < Resource.size r <= Range.length range }.

Lemma live_in_lookup res id k range :
  live_in res id !! k = Some range ↔
  ∃ r, res !! k = Some r ∧ Resource.block r = id ∧ Resource.range r = Some range.
Proof.
  unfold live_in. rewrite lookup_omap_Some. split.
  - intros (r&E&Hr). case_decide; [by exists r|done].
  - intros (r&E&Hb&Hr). exists r. by rewrite decide_True.
Qed.

Lemma live_in_insert res id k r :
  res !! k = None →
  live_in (<[k := r]> res) id =
    if decide (Resource.block r = id) then
      match Resource.range r with
      | Some range => <[k := range]> (live_in res id)
      | None => live_in res id
      end
    else live_in res id.
Proof.
  intros Hk. assert (Hn : live_in res id !! k = None).
  { unfold live_in. by rewrite lookup_omap, Hk. }
  apply map_eq. intros j. unfold live_in at 1. rewrite lookup_omap.
  destruct (decide (j = k)) as [->|Hj].
  - rewrite lookup_insert_eq. simpl. case_decide; [|done].
    destruct (Resource.range r); [by rewrite lookup_insert_eq|done].
  - rewrite lookup_insert_ne by congruence.
    assert (E : live_in res id !! j = res !! j ≫=
      (λ r, if decide (Resource.block r = id) then Resource.range r else None))
      by (unfold live_in; by rewrite lookup_omap).
    rewrite <- E. case_decide; [|done].
    destruct (Resource.range r); [by rewrite lookup_insert_ne by congruence|done].
Qed.

Lemma live_in_delete res id k :
  live_in (delete k res) id = delete k (live_in res id).
Proof. unfold live_in. apply omap_delete. Qed.

Lemma live_in_fresh res id k : res !! k = None → live_in res id !! k = None.
Proof. intros Hk. unfold live_in. by rewrite lookup_omap, Hk. Qed.

(** A block no resource refers to holds nothing. *)
Lemma live_in_unreferenced res id :
  (∀ k r, res !! k = Some r → Resource.block r ≠ id) → live_in res id = ∅.
Proof.
  intros H. apply map_empty. intros k. destruct (live_in res id !! k) eqn:E; [|done].
  apply live_in_lookup in E as (r&Hr&Hb&_). by destruct (H k r Hr).
Qed.

(** The range of one resource is dropped: it is released, or kept by nobody. *)
Lemma live_in_take res id k r r' :
  res !! k = Some r → Resource.block r' = Resource.block r → Resource.range r' = None →
  live_in (<[k := r']> res) id =
    if decide (Resource.block r = id) then delete k (live_in res id) else live_in res id.
Proof.
  intros Hk Hb Hr. rewrite <- (insert_delete_id res k r Hk) at 1. rewrite insert_insert_eq.
  rewrite live_in_insert by (apply lookup_delete_eq). rewrite Hb, Hr, live_in_delete.
  destruct (decide (Resource.block r = id)) as [|Hne]; [done|].
  apply delete_id. unfold live_in. rewrite lookup_omap, Hk. simpl. by rewrite decide_False.
Qed.

Lemma strong_count_pos self id :
  strong_count self id = 0 ↔
  id ∉ blocks self ∧ ∀ k r, resources self !! k = Some r → Resource.block r ≠ id.
Proof.
  unfold strong_count. split.
  - intros E.
    assert (E1 : filter (λ b, b = id) (blocks self) = []) by (apply length_zero_iff_nil; lia).
    assert (E2 : filter (λ kr : Z * Resource.t, Resource.block kr.2 = id) (resources self) = ∅)
      by (apply map_size_empty_inv; lia).
    split.
    + intros Hid. assert (H : id ∈ filter (λ b, b = id) (blocks self)) by (by apply list_elem_of_filter).
      rewrite E1 in H. by apply elem_of_nil in H.
    + intros k r Hk Hb. rewrite map_empty_filter in E2. by apply (E2 k r Hk).
  - intros [Hid Href].
    rewrite (filter_none _ (blocks self)) by (apply Forall_forall; by intros b Hb ->).
    assert (filter (λ kr : Z * Resource.t, Resource.block kr.2 = id) (resources self) = ∅) as ->.
    { apply map_empty_filter. intros k r Hk. by apply Href with k. }
    by rewrite map_size_empty.
Qed.

(** ** Replacing the free list of a block *)

Lemma with_ranges_same b : MemoryBlock.with_ranges b (MemoryBlock.ranges b) = b.
Proof. by destruct b. Qed.

Lemma set_arena_same self : set_arena (arena self) self = self.
Proof. by destruct self. Qed.

(** A block whose free list accounts for some live ranges, and a state whose
    other fields are unchanged. *)
Lemma wf_update self id b ranges' resources' :
  wf self → arena self !! id = Some b →
  RangeAllocator.size ranges' = RangeAllocator.size (MemoryBlock.ranges b) →
  (∀ k r, resources' !! k = Some r → k < next self) →
  (∀ k r, resources' !! k = Some r → ∃ b,
    arena self !! Resource.block r = Some b ∧
    MemoryBlock.class b = Resource.class r ∧ MemoryBlock.location b = Resource.memory r) →
  (∀ id b, arena self !! id = Some b →
    id ∈ blocks self ∨ ∃ k r, resources' !! k = Some r ∧ Resource.block r = id) →
  (∀ j, j ≠ id → live_in resources' j = live_in (resources self) j) →
  owns ranges' (live_in resources' id) →
  (∀ i b j k r s, arena self !! i = Some b → MemoryBlock.dedicated b = true →
    resources' !! j = Some r → resources' !! k = Some s →
    Resource.block r = i → Resource.block s = i → j = k) →
  (∀ k r range, resources' !! k = Some r → Resource.range r = Some range →
    Resource.class r = Buffer → 0 < Resource.size r <= Range.length range) →
  wf (set_resources resources'
    (set_arena (<[id := MemoryBlock.with_ranges b ranges']> (arena self)) self)).
Proof.
  intros Hwf Hb Hsz Hnext Hres Href Hlive Howns Hded Hsizes.
  assert (Hin : ∀ i c, <[id := MemoryBlock.with_ranges b ranges']> (arena self) !! i = Some c →
    (i = id ∧ c = MemoryBlock.with_ranges b ranges') ∨ (i ≠ id ∧ arena self !! i = Some c)).
  { intros i c [[-> ->]|[? ?]]%lookup_insert_Some; [by left|right; by split]. }
  assert (Hout : ∀ i c, arena self !! i = Some c → ∃ c',
    <[id := MemoryBlock.with_ranges b ranges']> (arena self) !! i = Some c' ∧
    MemoryBlock.class c' = MemoryBlock.class c ∧ MemoryBlock.location c' = MemoryBlock.location c ∧
    MemoryBlock.dedicated c' = MemoryBlock.dedicated c).
  { intros i c Hc. destruct (decide (i = id)) as [->|Hne].
    - rewrite lookup_insert_eq. simplify_eq. by eexists.
    - rewrite lookup_insert_ne by congruence. by exists c. }
  destruct Hwf. split; simpl; try done.
  - intros i c [[-> ->]|[? Hc]]%Hin; by eapply wf_arena_next0.
  - intros i Hi. destruct (wf_blocks0 i Hi) as [c Hc]. destruct (Hout i c Hc) as (c'&->&_). done.
  - intros i c [[-> ->]|[? Hc]]%Hin; by eapply Href.
  - intros k r Hk. destruct (Hres k r Hk) as (c&Hc&Hcl&Hlo).
    destruct (Hout _ c Hc) as (c'&Hc'&E1&E2&_). exists c'. by rewrite E1, E2.
  - intros i c [[-> ->]|[? Hc]]%Hin; [|by eapply wf_block_ok0].
    destruct (wf_block_ok0 id b Hb). split; simpl; [congruence|done..].
  - intros i c [[-> ->]|[? Hc]]%Hin; simpl; [done|]. rewrite Hlive by done. by apply wf_owns0.
  - intros i c j k r s [[-> ->]|[? Hc]]%Hin.
    + by apply (Hded id b j k r s).
    + by apply (Hded i c j k r s).
Qed.

(** The counter of identities may only grow. *)
Lemma wf_next self n :
  wf self → next self <= n →
  wf (mk (config self) (memory_types self) (non_coherent_atom_size self) (arena self)
    (blocks self) (resources self) n).
Proof.
  intros [] Hn. split; simpl; try done.
  - intros id b Hb. specialize (wf_arena_next0 id b Hb). lia.
  - intros k r Hk. specialize (wf_resources_next0 k r Hk). lia.
Qed.

(** ** A range on its way to a resource

    [pending]: the state is a well-formed one in which a range was just
    allocated in one block, and nobody holds it yet. *)

Record pending (base self : t) (id : Z) (b : MemoryBlock.t) (r : RangeAllocator.t)
    (range : Range.t) (sz alignment : Z) : Prop := {
  pending_wf : wf base;
  pending_block : arena base !! id = Some b;
  pending_allocate : RangeAllocator.allocate (MemoryBlock.ranges b) sz alignment = (r, Some range);
  pending_state : self = set_arena (<[id := MemoryBlock.with_ranges b r]> (arena base)) base;
  pending_size : 0 < sz ∧ alignment <= U64.MAX;
  pending_dedicated : MemoryBlock.dedicated b = true →
    ∀ k s, resources base !! k = Some s → Resource.block s ≠ id }.

Lemma resources_next_fresh self : wf self → resources self !! next self = None.
Proof.
  intros Hwf. destruct (resources self !! next self) as [r|] eqn:E; [|done].
  pose proof (wf_resources_next _ Hwf _ _ E). lia.
Qed.

(** What the free list of the pending block accounts for. *)
Lemma pending_owns base self id b r range sz alignment k :
  pending base self id b r range sz alignment → resources base !! k = None →
  owns r (<[k := range]> (live_in (resources base) id)) ∧
  RangeAllocator.size r = RangeAllocator.size (MemoryBlock.ranges b) ∧
  (alignment | Range.start range) ∧ Range.end_ range = Range.start range + sz.
Proof.
  intros [Hwf Hb Ha _ [Hsz Hal] _] Hk.
  apply (allocate_some (MemoryBlock.ranges b) _ (wf_owns _ Hwf id b Hb) sz alignment k r range
    Hsz Hal); [by apply live_in_fresh|done].
Qed.

(** Releasing the pending range restores the invariant. *)
Lemma pending_release base self id b r range sz alignment :
  pending base self id b r range sz alignment →
  ∃ s', release_in id range self = (s', Ok tt) ∧ wf s' ∧ resources s' = resources base ∧
    blocks s' = blocks base.
Proof.
  intros Hp. pose proof Hp as [Hwf Hb Ha -> [Hsz Hal] _].
  pose proof (resources_next_fresh _ Hwf) as Hfresh.
  destruct (pending_owns _ _ _ _ _ _ _ _ (next base) Hp Hfresh) as (Ho&Hs&_).
  unfold release_in, block_at. eexists. split.
  { simpl. unfold mbind, run_bind, get_state, expect. simpl. by rewrite lookup_insert_eq. }
  unfold MemoryBlock.release. simpl. rewrite insert_insert_eq. split; [|done].
  apply (wf_update base id b (RangeAllocator.release r range) (resources base)); try done.
  - by apply wf_resources_next.
  - by apply wf_resources.
  - by apply wf_referenced.
  - assert (E : live_in (resources base) id =
      delete (next base) (<[next base := range]> (live_in (resources base) id))).
    { rewrite delete_insert_id; [done|]. by apply live_in_fresh. }
    rewrite E. apply release_owns; [done|apply lookup_insert_eq].
  - by apply wf_dedicated.
  - by apply wf_sizes.
Qed.

(** Handing the pending range to a new resource restores the invariant. *)
Lemma pending_insert base self id b r range sz alignment class size address :
  pending base self id b r range sz alignment →
  MemoryBlock.class b = class → (class = Buffer → 0 < size <= sz) →
  let resource := Resource.mk id (Some range) class size (MemoryBlock.location b) address in
  ∃ s', insert_resource resource self = (s', Ok (next base)) ∧ wf s' ∧
    resources s' = <[next base := resource]> (resources base) ∧ blocks s' = blocks base.
Proof.
  intros Hp Hcl Hsize resource. pose proof Hp as [Hwf Hb Ha -> [Hsz Hal] Hded].
  pose proof (resources_next_fresh _ Hwf) as Hfresh.
  destruct (pending_owns _ _ _ _ _ _ _ _ (next base) Hp Hfresh) as (Ho&Hs&_&Hend).
  eexists. split; [reflexivity|]. split; [|done].
  pose proof (wf_next base (next base + 1) Hwf ltac:(lia)) as Hwf'.
  apply (wf_update _ id b r (<[next base := resource]> (resources base)) Hwf'); simpl; try done.
  - intros k s [[-> ->]|[? Hk]]%lookup_insert_Some; [lia|].
    pose proof (wf_resources_next _ Hwf k s Hk). lia.
  - intros k s [[<- <-]|[? Hk]]%lookup_insert_Some; [by exists b|by apply (wf_resources _ Hwf k)].
  - intros i c Hc. destruct (wf_referenced _ Hwf i c Hc) as [?|(k&s&Hk&?)]; [by left|right].
    exists k, s. rewrite lookup_insert_ne; [done|]. intros <-. congruence.
  - intros j Hj. rewrite live_in_insert by done. by rewrite decide_False.
  - rewrite live_in_insert by done. simpl. by rewrite decide_True.
  - intros i c j k s t Hc Hd.
    intros [[<- <-]|[? Hj]]%lookup_insert_Some [[<- <-]|[? Hk]]%lookup_insert_Some; simpl.
    + done.
    + intros <- Ht. simplify_eq. by destruct (Hded Hd k t Hk).
    + intros Hs' <-. simplify_eq. by destruct (Hded Hd j s Hj).
    + by apply (wf_dedicated _ Hwf i c j k s t).
  - intros k s rg [[<- <-]|[? Hk]]%lookup_insert_Some; simpl.
    + intros [= <-] Hbuf. unfold Range.length. specialize (Hsize Hbuf). lia.
    + by apply (wf_sizes _ Hwf k).
Qed.

(** ** Finding room *)

(** One step of the search. *)
Lemma find_block_cons self class location index sz alignment id ids b :
  arena self !! id = Some b →
  find_block class location index sz alignment (id :: ids) self =
    if MemoryBlock.compatible b class location index then
      match RangeAllocator.allocate (MemoryBlock.ranges b) sz alignment with
      | (r, Some range) =>
          (set_arena (<[id := MemoryBlock.with_ranges b r]> (arena self)) self,
            Ok (Some (id, range)))
      | (_, None) => find_block class location index sz alignment ids self
      end
    else find_block class location index sz alignment ids self.
Proof.
  intros Hb. simpl. unfold allocate_in, block_at, mbind, run_bind, get_state. simpl. rewrite Hb.
  simpl. destruct (MemoryBlock.compatible b class location index); [|done]. rewrite Hb. simpl.
  unfold MemoryBlock.allocate.
  destruct (RangeAllocator.allocate (MemoryBlock.ranges b) sz alignment) as [r [range|]] eqn:Ea;
    [done|]. simpl.
  assert (r = MemoryBlock.ranges b) as ->.
  { unfold RangeAllocator.allocate in Ea.
    destruct (RangeAllocator.allocate_loop _ _ _ _) as [[]|]; congruence. }
  by rewrite with_ranges_same, insert_id, set_arena_same.
Qed.

(** The search for a shared block leaves the state alone or makes a range
    pending in a compatible block of the list. *)
Lemma find_block_spec self class location index sz alignment ids :
  wf self → (∀ id, id ∈ ids → id ∈ blocks self) → 0 < sz → alignment <= U64.MAX →
  find_block class location index sz alignment ids self = (self, Ok None) ∨
  ∃ self' id b r range,
    find_block class location index sz alignment ids self = (self', Ok (Some (id, range))) ∧
    pending self self' id b r range sz alignment ∧
    MemoryBlock.compatible b class location index = true.
Proof.
  intros Hwf Hids Hsz Hal. induction ids as [|id ids IH]; [by left|].
  destruct (wf_blocks _ Hwf id) as [b Hb]; [apply Hids; by left|].
  specialize (IH ltac:(intros; apply Hids; by right)).
  rewrite (find_block_cons _ _ _ _ _ _ _ _ b Hb).
  destruct (MemoryBlock.compatible b class location index) eqn:Hc; [|done].
  destruct (RangeAllocator.allocate (MemoryBlock.ranges b) sz alignment) as [r [range|]] eqn:Ea;
    [|done].
  right. eexists _, id, b, r, range. split; [reflexivity|]. split; [|done].
  split; try done. intros Hd. exfalso. unfold MemoryBlock.compatible in Hc. by rewrite Hd in Hc.
Qed.

(** A block pushed to the list of blocks, with nothing in it yet. *)
Lemma wf_push self b :
  wf self → block_ok b → 0 < MemoryBlock.size b <= U64.MAX →
  MemoryBlock.ranges b = RangeAllocator.new (MemoryBlock.size b) →
  wf (mk (config self) (memory_types self) (non_coherent_atom_size self)
    (<[next self := b]> (arena self)) (blocks self ++ [next self]) (resources self)
    (next self + 1)).
Proof.
  intros Hwf Hbok Hsz Hr.
  assert (Hnone : arena self !! next self = None).
  { destruct (arena self !! next self) as [c|] eqn:E; [|done].
    pose proof (wf_arena_next _ Hwf _ _ E). lia. }
  assert (Hun : ∀ k r, resources self !! k = Some r → Resource.block r ≠ next self).
  { intros k r Hk E. destruct (wf_resources _ Hwf k r Hk) as (c&Hc&_). congruence. }
  pose proof Hwf as []. split; simpl; try done.
  - intros id c [[<- <-]|[? Hc]]%lookup_insert_Some; [lia|]. specialize (wf_arena_next0 id c Hc). lia.
  - intros k r Hk. specialize (wf_resources_next0 k r Hk). lia.
  - apply NoDup_app. split_and!; [done| |apply NoDup_singleton].
    intros id Hid ->%list_elem_of_singleton. destruct (wf_blocks0 _ Hid) as [c Hc]. congruence.
  - intros id [Hid| ->%list_elem_of_singleton]%elem_of_app.
    + destruct (wf_blocks0 _ Hid) as [c Hc]. exists c. rewrite lookup_insert_ne; [done|congruence].
    + rewrite lookup_insert_eq. done.
  - intros id c [[<- <-]|[? Hc]]%lookup_insert_Some; [left; set_solver|].
    destruct (wf_referenced0 id c Hc); [left; set_solver|by right].
  - intros k r Hk. destruct (wf_resources0 k r Hk) as (c&Hc&?). exists c.
    rewrite lookup_insert_ne; [done|]. intros E. by apply (Hun k r Hk).
  - intros id c [[<- <-]|[? Hc]]%lookup_insert_Some; [done|by apply (wf_block_ok0 id)].
  - intros id c [[<- <-]|[? Hc]]%lookup_insert_Some; [|by apply wf_owns0].
    rewrite Hr, live_in_unreferenced by done. by apply owns_new.
  - intros id c j k r s [[<- <-]|[? Hc]]%lookup_insert_Some Hd Hj Hk Hjb Hkb.
    + by destruct (Hun j r Hj).
    + by apply (wf_dedicated0 id c j k r s).
Qed.

(** ** Selecting a memory type *)

Lemma plan_align_up value alignment :
  is_power_of_two alignment = true →
  MemoryTypeSelector.align_up value alignment = align_up value alignment.
Proof.
  intros Hp. pose proof Hp as (k&Hk&E)%is_power_of_two_spec.
  assert (0 < 2 ^ k) by (apply Z.pow_pos_nonneg; lia).
  unfold MemoryTypeSelector.align_up, align_up. rewrite Hp.
  destruct (Z.leb_spec 1 alignment), (Z.eqb_spec alignment 0); simpl; try lia. done.
Qed.

Lemma select_ok types requirements location plan :
  MemoryTypeSelector.select types requirements location = Ok plan →
  AllocationRequirements.size requirements ≠ 0 ∧
  is_power_of_two (AllocationRequirements.alignment requirements) = true ∧
  ∃ allocation_size m,
    align_up (AllocationRequirements.size requirements)
      (AllocationRequirements.alignment requirements) = Some allocation_size ∧
    m ∈ types ∧
    MemoryTypeSelector.candidate requirements location allocation_size m = true ∧
    plan = MemoryTypeSelector.plan_of m requirements allocation_size ∧
    ∀ m', m' ∈ types →
      MemoryTypeSelector.candidate requirements location allocation_size m' = true →
      key_le (MemoryTypeSelector.memory_score m location)
        (MemoryTypeSelector.memory_score m' location).
Proof.
  unfold MemoryTypeSelector.select.
  destruct (Z.eqb_spec (AllocationRequirements.size requirements) 0); [done|].
  destruct (is_power_of_two (AllocationRequirements.alignment requirements)) eqn:Hp;
    simpl; [|by rewrite orb_true_r].
  rewrite orb_false_r.
  destruct (AllocationRequirements.alignment requirements =? 0); [done|].
  rewrite plan_align_up by done.
  destruct (align_up _ _) as [sz|]; [|done].
  set (P := λ m, MemoryTypeSelector.candidate requirements location sz m = true).
  pose proof (min_by_key_spec (λ m, MemoryTypeSelector.memory_score m location)
    (filter P types)) as Hmin.
  destruct (min_by_key _ (filter P types)) as [m|]; [|done]. intros [= <-].
  destruct Hmin as [[Hc Hm]%list_elem_of_filter Hmin].
  split; [done|]. split; [done|]. exists sz, m. split_and!; try done.
  intros m' Hm' Hc'. by apply Hmin, list_elem_of_filter.
Qed.

Lemma align_up_ge value alignment result :
  0 <= value → alignment <= U64.MAX → align_up value alignment = Some result →
  value <= result <= U64.MAX.
Proof.
  intros Hv Ha E. destruct (align_up_some _ _ _ Hv Ha E) as ([? _]&?&_). lia.
Qed.

(** A new block has room for the resource it was made for. *)
Lemma allocate_new size sz alignment :
  0 < sz <= size → size <= U64.MAX → is_power_of_two alignment = true → alignment <= U64.MAX →
  ∃ r, RangeAllocator.allocate (RangeAllocator.new size) sz alignment =
    (r, Some (Range.mk 0 sz)).
Proof.
  intros Hsz Hmax Hp Ha. unfold RangeAllocator.allocate. simpl.
  pose proof (align_up_spec 0 alignment ltac:(lia) Ha) as Hup.
  destruct (align_up 0 alignment) as [s|].
  2: { destruct Hup; [congruence|lia]. }
  destruct Hup as [[Hs [q Hq]] _]. assert (s = 0) as ->.
  { assert (q < 1) by (apply (Z.mul_lt_mono_pos_r alignment); lia).
    assert (-1 < q) by (apply (Z.mul_lt_mono_pos_r alignment); lia). nia. }
  simpl.
  unfold checked_add. rewrite Z.add_0_l. destruct (Z.leb_spec sz U64.MAX); [|lia]. simpl.
  destruct (Z.ltb_spec size sz); [lia|]. by eexists.
Qed.

(** The block made for a plan. *)
Lemma block_new_ok self class location requirements types plan size dedicated memory address b :
  wf self → AllocationRequirements.non_coherent_atom_size requirements =
    non_coherent_atom_size self →
  MemoryTypeSelector.select types requirements location = Ok plan →
  MemoryBlock.new class location plan size dedicated memory address = Ok b →
  block_ok b ∧ MemoryBlock.size b = size ∧ MemoryBlock.class b = class ∧
  MemoryBlock.location b = location ∧ MemoryBlock.ranges b = RangeAllocator.new size.
Proof.
  intros Hwf Hatom Hsel E.
  destruct (select_ok _ _ _ _ Hsel) as (_&_&sz&m&_&_&Hc&->&_).
  destruct (wf_atom _ Hwf) as [Hp Hmax]. pose proof Hp as (k&Hk&Ek)%is_power_of_two_spec.
  assert (0 < 2 ^ k) by (apply Z.pow_pos_nonneg; lia).
  unfold MemoryBlock.new in E. destruct memory as [handle|]; [|done].
  assert (Hreq : location ≠ Device → MemoryPropertyFlags.HOST_VISIBLE
    (MemoryTypeInfo.properties m) = true).
  { intros Hl. unfold MemoryTypeSelector.candidate in Hc.
    apply andb_true_iff in Hc as [[[_ Hr]%andb_true_iff _]%andb_true_iff _].
    by destruct location. }
  assert (Hat : ∀ o, o = MemoryPlan.flush_atom_size (MemoryTypeSelector.plan_of m requirements sz) →
    is_power_of_two (default 1 o) = true ∧ default 1 o <= U64.MAX).
  { intros o ->. simpl. rewrite Hatom. destruct (_ && _); simpl; [|done].
    rewrite Z.max_l by lia. done. }
  specialize (Hat _ eq_refl). unfold MemoryPlan.host_visible in E. simpl in E, Hat.
  destruct (MemoryPropertyFlags.HOST_VISIBLE (MemoryTypeInfo.properties m)) eqn:Hv.
  - destruct address as [p|]; [|done]. injection E as <-.
    split; [|done]. split; simpl; [done|done| |]; apply Hat.
  - injection E as <-. split; [|done]. split; simpl; [done| | |]; try apply Hat.
    intros Hl. by specialize (Hreq Hl).
Qed.

(** ** Binding *)

(** The part of [bind_resource] that makes a new block. *)
Definition bind_new {A} (vk : Replies.t) (class : MemoryClass) (location : MemoryLocation)
    (configured : Z) (finish : Z → Range.t → Alloc A) (dedicated : bool) (plan : MemoryPlan.t)
    (self : t) : t * Outcome AllocatorError A :=
  let sz := Replies.size vk in
  let alignment := Replies.alignment vk in
  (desired ← ok_or BlockSizeOverflows
    (align_up (if dedicated then sz else Z.max configured sz) alignment);
  heap_size ← ok_or MemoryTypeDisappeared
    (MemoryTypeInfo.heap_size <$>
      head (filter (λ m, MemoryTypeInfo.index m = MemoryPlan.memory_type_index plan)
        (memory_types self)));
  block_size ← (if desired <=? heap_size then mret desired
    else ok_or MinimumSizeOverflows (align_up sz alignment));
  block ← lift id (MemoryBlock.new class location plan block_size dedicated
    (Replies.allocate_memory vk) (Replies.map_memory vk));
  let '(block, range) := MemoryBlock.allocate block sz alignment in
  range ← ok_or NewBlockCannotSatisfy range;
  id ← fresh;
  _ ← modify (λ self, set_blocks (blocks self ++ [id])
    (set_arena (<[id := block]> (arena self)) self));
  finish id range) self.

Lemma head_filter_some {B} (P : B → Prop) `{!∀ x, Decision (P x)} (l : list B) x :
  x ∈ l → P x → ∃ y, head (filter P l) = Some y.
Proof.
  intros Hx HP. destruct (filter P l) as [|y k] eqn:E; [|by exists y].
  assert (Hxf : x ∈ filter P l) by (by apply list_elem_of_filter).
  rewrite E in Hxf. by apply elem_of_nil in Hxf.
Qed.

Lemma bind_new_spec {A} vk class location configured (finish : Z → Range.t → Alloc A) dedicated
    plan self :
  wf self → Replies.ok vk →
  MemoryTypeSelector.select (memory_types self)
    (AllocationRequirements.mk (Replies.size vk) (Replies.alignment vk)
      (Replies.memory_type_bits vk) (non_coherent_atom_size self)) location = Ok plan →
  (∃ e, bind_new vk class location configured finish dedicated plan self = (self, Err e) ∧
    match e with
    | BlockSizeOverflows => U64.MAX < Z.max configured (Replies.size vk) + Replies.alignment vk
    | AllocateMemory => Replies.allocate_memory vk = None
    | MapMemory => Replies.map_memory vk = None
    | _ => False
    end) ∨
  (∃ base self' id b r range,
    bind_new vk class location configured finish dedicated plan self = finish id range self' ∧
    pending base self' id b r range (Replies.size vk) (Replies.alignment vk) ∧
    MemoryBlock.class b = class ∧ MemoryBlock.location b = location ∧
    resources base = resources self).
Proof.
  intros Hwf [Hsz Hal] Hsel.
  destruct (select_ok _ _ _ _ Hsel) as (Hnz&Hp&asz&m&Hup&Hm&_&Hplan&_). simpl in Hnz, Hp, Hup.
  unfold bind_new. cbv zeta. set (value := if dedicated then _ else _).
  assert (Hval : Replies.size vk <= value <= Z.max configured (Replies.size vk))
    by (unfold value; destruct dedicated; lia).
  pose proof (align_up_spec value (Replies.alignment vk) ltac:(lia) ltac:(lia)) as Hdes.
  destruct (align_up value (Replies.alignment vk)) as [desired|]; cbn [ok_or].
  2: { left. exists BlockSizeOverflows. split; [done|]. destruct Hdes; [congruence|lia]. }
  rewrite run_ret_bind.
  destruct (head_filter_some (λ m, MemoryTypeInfo.index m = MemoryPlan.memory_type_index plan)
    (memory_types self) m Hm) as [y Hy]; [by subst plan|].
  rewrite Hy. cbn [fmap option_fmap option_map ok_or]. rewrite run_ret_bind.
  pose proof (align_up_ge (Replies.size vk) (Replies.alignment vk) asz ltac:(lia) ltac:(lia) Hup) as Hasz.
  assert (Hbs : ∃ block_size, Replies.size vk <= block_size <= U64.MAX ∧
    (if desired <=? MemoryTypeInfo.heap_size y then mret desired
      else ok_or MinimumSizeOverflows (align_up (Replies.size vk) (Replies.alignment vk)) : Alloc Z)
    = mret block_size).
  { destruct Hdes as [[? _] ?]. case_match; [exists desired; split; [lia|done]|].
    exists asz. rewrite Hup. split; [lia|done]. }
  destruct Hbs as (block_size&Hbs&->). rewrite run_ret_bind.
  destruct (MemoryBlock.new class location plan block_size dedicated (Replies.allocate_memory vk)
    (Replies.map_memory vk)) as [b|e|] eqn:Hnew; cbn [lift].
  2: { left. exists e. split; [done|]. unfold MemoryBlock.new in Hnew.
    destruct (Replies.allocate_memory vk); [|by simplify_eq].
    destruct (MemoryPlan.host_visible plan); [|done].
    destruct (Replies.map_memory vk); by simplify_eq. }
  2: { exfalso. unfold MemoryBlock.new in Hnew. repeat case_match; done. }
  rewrite run_ret_bind.
  destruct (block_new_ok self class location (AllocationRequirements.mk (Replies.size vk)
    (Replies.alignment vk) (Replies.memory_type_bits vk) (non_coherent_atom_size self)) _ plan
    block_size dedicated _ _ b Hwf eq_refl Hsel Hnew) as (Hbok&Hbsz&Hcl&Hlo&Hr).
  destruct (allocate_new block_size (Replies.size vk) (Replies.alignment vk)) as [r Hr0];
    [lia|lia|done|lia|].
  unfold MemoryBlock.allocate. rewrite Hr, Hr0. cbn [ok_or]. rewrite run_ret_bind.
  pose proof (wf_push self b Hwf Hbok ltac:(lia) ltac:(congruence)) as Hpush.
  right. eexists (mk (config self) (memory_types self) (non_coherent_atom_size self)
    (<[next self := b]> (arena self)) (blocks self ++ [next self]) (resources self)
    (next self + 1)), _, (next self), b, r, (Range.mk 0 (Replies.size vk)).
  split; [unfold fresh, modify, mbind, run_bind; reflexivity|].
  split; [|done]. split; simpl; try done; try lia.
  - apply lookup_insert_eq.
  - by rewrite Hr.
  - unfold set_blocks, set_arena. simpl. by rewrite insert_insert_eq.
  - intros _ k s Hk E. destruct (wf_resources _ Hwf k s Hk) as (c&Hc&_).
    pose proof (wf_arena_next _ Hwf _ _ Hc). lia.
Qed.

(** Either the binding fails before a range is found, which leaves the
    resources as they are, or it reaches [finish] with a pending range of a
    block of the class and location. *)
Lemma bind_resource_spec {A} vk class location configured (finish : Z → Range.t → Alloc A) self :
  wf self → Replies.ok vk →
  (∃ e, bind_resource vk class location configured finish self = (self, Err e) ∧
    match e with
    | Plan pe => MemoryTypeSelector.select (memory_types self)
        (AllocationRequirements.mk (Replies.size vk) (Replies.alignment vk)
          (Replies.memory_type_bits vk) (non_coherent_atom_size self)) location = Err pe
    | BlockSizeOverflows => U64.MAX < Z.max configured (Replies.size vk) + Replies.alignment vk
    | AllocateMemory => Replies.allocate_memory vk = None
    | MapMemory => Replies.map_memory vk = None
    | _ => False
    end) ∨
  (∃ base self' id b r range,
    bind_resource vk class location configured finish self = finish id range self' ∧
    pending base self' id b r range (Replies.size vk) (Replies.alignment vk) ∧
    MemoryBlock.class b = class ∧ MemoryBlock.location b = location ∧
    resources base = resources self).
Proof.
  intros Hwf [Hsz Hal]. set (req := AllocationRequirements.mk (Replies.size vk)
    (Replies.alignment vk) (Replies.memory_type_bits vk) (non_coherent_atom_size self)).
  unfold bind_resource. rewrite run_get. fold req.
  destruct (MemoryTypeSelector.select (memory_types self) req location) as [plan|pe|] eqn:Hsel.
  2: { left. exists (Plan pe). done. }
  2: { exfalso. unfold MemoryTypeSelector.select in Hsel. repeat case_match; done. }
  destruct (select_ok _ _ _ _ Hsel) as (Hnz&Hp&asz&m&Hup&Hm&Hc&Hplan&_). simpl in Hnz, Hp, Hup.
  cbn [lift]. rewrite run_ret_bind. cbv zeta.
  set (dedicated := _ || _ || _).
  assert (Hfind : ∀ found, (found = if dedicated then mret None else
      find_block class location (MemoryPlan.memory_type_index plan) (Replies.size vk)
        (Replies.alignment vk) (blocks self)) →
    found self = (self, Ok None) ∨ ∃ self' id b r range, found self = (self', Ok (Some (id, range))) ∧
      pending self self' id b r range (Replies.size vk) (Replies.alignment vk) ∧
      MemoryBlock.compatible b class location (MemoryPlan.memory_type_index plan) = true).
  { intros found ->. destruct dedicated; [by left|]. apply find_block_spec; [done|done|lia|lia]. }
  destruct (Hfind _ eq_refl) as [E|(self'&id&b&r&range&E&Hpend&Hcomp)].
  2: { right. exists self, self', id, b, r, range.
    split; [by rewrite (run_ok _ _ _ _ _ E)|]. split; [done|].
    unfold MemoryBlock.compatible in Hcomp.
    apply andb_true_iff in Hcomp as [[[_ ?%bool_decide_eq_true]%andb_true_iff
      ?%bool_decide_eq_true]%andb_true_iff _]. done. }
  rewrite (run_ok _ _ _ _ _ E). clear E Hfind.
  destruct (bind_new_spec vk class location configured finish dedicated plan self Hwf
    (conj Hsz Hal) Hsel) as [(e&E&He)|H]; [left|right; exact H].
  exists e. split; [exact E|]. by destruct e.
Qed.

(** ** Collecting blocks *)

(** Collecting drops exactly the listed blocks whose count is zero. *)
Lemma collect_all ids self :
  foldr collect self ids =
  set_arena (filter (λ ib : Z * MemoryBlock.t,
    ¬ (ib.1 ∈ ids ∧ strong_count self ib.1 = 0)) (arena self)) self.
Proof.
  induction ids as [|id ids IH]; simpl.
  - rewrite map_filter_id; [by rewrite set_arena_same|].
    intros i b _ [H _]. by apply elem_of_nil in H.
  - rewrite IH. unfold collect.
    assert (E : ∀ a, strong_count (set_arena a self) id = strong_count self id) by done.
    rewrite E. destruct (Z.eqb_spec (strong_count self id) 0) as [Hz|Hz].
    + unfold set_arena. simpl. f_equal. apply map_eq. intros i. apply option_eq. intros b.
      rewrite lookup_delete_Some, !map_lookup_filter_Some. simpl. rewrite elem_of_cons.
      split; [intros (?&?&?)|intros [? Hn]]; [split; [done|]|split_and!; [|done|]].
      * intros [[->|?] ?]; [done|tauto].
      * intros ->. apply Hn. split; [by left|done].
      * tauto.
    + f_equal. apply map_eq. intros i. apply option_eq. intros b.
      rewrite !map_lookup_filter_Some. simpl. rewrite elem_of_cons.
      split; intros [? Hn]; (split; [done|]); [|tauto]. intros [[->|?] ?]; tauto.
Qed.

(** Dropping references and then collecting every block that lost one. *)
Lemma wf_prune self blocks' resources' ids :
  wf self → NoDup blocks' → (∀ id, id ∈ blocks' → id ∈ blocks self) →
  resources' ⊆ resources self →
  (∀ id, live_in resources' id = live_in (resources self) id) →
  (∀ id, id ∈ blocks self → id ∉ blocks' → id ∈ ids) →
  (∀ k r, resources self !! k = Some r → resources' !! k = None → Resource.block r ∈ ids) →
  wf (foldr collect (set_blocks blocks' (set_resources resources' self)) ids).
Proof.
  intros Hwf Hnd Hb Hr Hl Hbi Hri. rewrite collect_all.
  set (s := set_blocks blocks' (set_resources resources' self)).
  assert (Hsub : ∀ k r, resources' !! k = Some r → resources self !! k = Some r)
    by (intros; by eapply lookup_weaken).
  assert (Hkeep : ∀ id b, arena self !! id = Some b → strong_count s id ≠ 0 →
    filter (λ ib : Z * MemoryBlock.t, ¬ (ib.1 ∈ ids ∧ strong_count s ib.1 = 0)) (arena s) !! id
      = Some b).
  { intros id b Hid Hc. apply map_lookup_filter_Some. simpl. split; [done|tauto]. }
  pose proof Hwf as []. split; simpl; try done.
  - intros id b [Hid _]%map_lookup_filter_Some. by apply (wf_arena_next0 id b).
  - intros k r Hk. by apply (wf_resources_next0 k r), Hsub.
  - intros id Hid. destruct (wf_blocks0 id (Hb id Hid)) as [b Hib]. exists b.
    apply Hkeep; [done|]. intros [Hn _]%strong_count_pos. done.
  - intros id b [Hid Hn]%map_lookup_filter_Some. simpl in Hn.
    destruct (decide (strong_count s id = 0)) as [Hz|Hz].
    + assert (Hni : id ∉ ids) by tauto. destruct (wf_referenced0 id b Hid) as [Hin|(k&r&Hk&<-)].
      * left. destruct (decide (id ∈ blocks')); [done|]. by destruct Hni; apply Hbi.
      * right. exists k, r. split; [|done].
        destruct (resources' !! k) as [r'|] eqn:E; [|by destruct Hni; apply (Hri k)].
        apply Hsub in E as E'. congruence.
    + destruct (decide (id ∈ blocks')); [by left|right].
      destruct (decide (map_Forall (λ _ r, Resource.block r ≠ id) resources')) as [Hf|Hf].
      * destruct Hz. apply strong_count_pos. split; [done|]. intros k r Hk. by apply (Hf k r).
      * apply map_not_Forall in Hf as (k&r&Hk&Hnn); [|apply _].
        exists k, r. split; [done|]. by destruct (decide (Resource.block r = id)).
  - intros k r Hk. apply Hsub in Hk as Hk'. destruct (wf_resources0 k r Hk') as (b&Hib&?).
    exists b. split; [|done]. apply Hkeep; [done|].
    intros [_ Hn]%strong_count_pos. by apply (Hn k r).
  - intros id b [Hid _]%map_lookup_filter_Some. by apply (wf_block_ok0 id).
  - intros id b [Hid _]%map_lookup_filter_Some. rewrite Hl. by apply wf_owns0.
  - intros id b j k r t [Hid _]%map_lookup_filter_Some Hd Hj Hk. 
    apply (wf_dedicated0 id b j k r t Hid Hd); by apply Hsub.
  - intros k r range Hk. apply (wf_sizes0 k). by apply Hsub.
Qed.

(** ** Dropping resources *)

Definition emptied (r : Resource.t) : Resource.t :=
  Resource.mk (Resource.block r) None (Resource.class r) (Resource.size r) (Resource.memory r)
    (Resource.device_address r).

Lemma drop_inner_spec self k :
  wf self → ∃ s', drop_inner k self = (s', Ok tt) ∧ wf s' ∧
    resources s' = (match resources self !! k with
      | Some r => <[k := emptied r]> (resources self)
      | None => resources self
      end).
Proof.
  intros Hwf. unfold drop_inner. rewrite run_get.
  destruct (resources self !! k) as [r|] eqn:Hk; [|by exists self].
  destruct (Resource.range r) as [range|] eqn:Hr.
  2: { exists self. split; [done|]. split; [done|]. rewrite insert_id; [done|].
    rewrite Hk. destruct r. simpl in Hr. by subst. }
  rewrite run_modify. fold (emptied r).
  destruct (wf_resources _ Hwf k r Hk) as (b&Hb&Hcl&Hlo).
  unfold release_in, block_at. eexists. split.
  { unfold mbind, run_bind, get_state, expect. simpl. rewrite Hb. reflexivity. }
  split; [|done]. unfold MemoryBlock.release.
  assert (Hlive : live_in (resources self) (Resource.block r) !! k = Some range).
  { apply live_in_lookup. by exists r. }
  assert (Hin : ∀ j s, <[k := emptied r]> (resources self) !! j = Some s → ∃ s0,
    resources self !! j = Some s0 ∧ Resource.block s = Resource.block s0 ∧
    Resource.class s = Resource.class s0 ∧ Resource.memory s = Resource.memory s0 ∧
    (j = k ∨ s = s0)).
  { intros j s [[<- <-]|[? Hj]]%lookup_insert_Some; [exists r|exists s]; split_and!; auto. }
  apply (wf_update self (Resource.block r) b _ (<[k := emptied r]> (resources self)) Hwf Hb).
  - done.
  - intros j s (s0&Hj&_)%Hin. by apply (wf_resources_next _ Hwf j s0).
  - intros j s (s0&Hj&->&->&->&_)%Hin. by apply (wf_resources _ Hwf j).
  - intros id c Hc. destruct (wf_referenced _ Hwf id c Hc) as [?|(j&s&Hj&<-)]; [by left|right].
    destruct (decide (j = k)) as [->|Hne].
    + simplify_eq. exists k, (emptied r). by rewrite lookup_insert_eq.
    + exists j, s. rewrite lookup_insert_ne by congruence. done.
  - intros j Hj. rewrite (live_in_take _ _ k r) by done. by rewrite decide_False by congruence.
  - rewrite (live_in_take _ _ k r) by done. rewrite decide_True by done.
    apply release_owns; [by apply (wf_owns _ Hwf)|done].
  - intros i c j l s t Hc Hd (s0&Hj&Ej&_)%Hin (t0&Hl&El&_)%Hin Hsj Htl.
    apply (wf_dedicated _ Hwf i c j l s0 t0); congruence.
  - intros j s rg [[<- <-]|[? Hj]]%lookup_insert_Some; [done|by apply (wf_sizes _ Hwf j)].
Qed.

Lemma drop_block_reference_spec self k :
  wf self → ∃ s', drop_block_reference k self = (s', Ok tt) ∧ wf s' ∧
    resources s' = (match resources self !! k with
      | Some r => match Resource.range r with
        | None => delete k (resources self)
        | Some _ => resources self
        end
      | None => resources self
      end).
Proof.
  intros Hwf. unfold drop_block_reference. rewrite run_get.
  destruct (resources self !! k) as [r|] eqn:Hk; [|by exists self].
  destruct (Resource.range r) as [range|] eqn:Hr; [by exists self|].
  eexists. split; [reflexivity|].
  pose proof (wf_prune self (blocks self) (delete k (resources self)) [Resource.block r] Hwf) as Hp.
  assert (E : foldr collect (set_blocks (blocks self) (set_resources (delete k (resources self)) self))
    [Resource.block r] = collect (Resource.block r) (set_resources (delete k (resources self)) self))
    by done.
  rewrite E in Hp. split.
  - apply Hp.
    + apply Hwf.
    + done.
    + apply delete_subseteq.
    + intros id. rewrite live_in_delete. apply delete_id.
      destruct (live_in (resources self) id !! k) as [x|] eqn:El; [|done].
      apply live_in_lookup in El as (r'&?&_&?). congruence.
    + done.
    + intros j s Hj Hn. destruct (decide (j = k)) as [->|Hne].
      * simplify_eq. by left.
      * rewrite lookup_delete_ne in Hn by congruence. congruence.
  - unfold collect. by case_match.
Qed.
