(* ===== verification/MemorySpec.v ===== *)
(** * What the memory allocator promises

    Creating a resource, every error of it; trimming; exclusive access to the
    memory of a buffer; and the safety of the allocator over every sequence of
    operations, whatever Vulkan answers. *)

From S2P Require Import Prelude Suballoc Memory MemoryInv.

Import MemoryAllocator.

(** ** Creating resources *)

(** What each error of a creation says about the descriptor, the memory types
    and the answers of Vulkan; the other errors do not occur. *)
Definition create_error (self : t) (vk : Replies.t) (location : MemoryLocation) (configured : Z)
    (validated : Outcome ResourceDescriptorError unit) (addressed : bool)
    (e : AllocatorError) : Prop :=
  match e with
  | Descriptor de => validated = Err de
  | CreateResource => Replies.create vk = false
  | Plan pe => MemoryTypeSelector.select (memory_types self)
      (AllocationRequirements.mk (Replies.size vk) (Replies.alignment vk)
        (Replies.memory_type_bits vk) (non_coherent_atom_size self)) location = Err pe
  | BlockSizeOverflows => U64.MAX < Z.max configured (Replies.size vk) + Replies.alignment vk
  | AllocateMemory => Replies.allocate_memory vk = None
  | MapMemory => Replies.map_memory vk = None
  | BindMemory => Replies.bind vk = false
  | ZeroDeviceAddress => addressed = true ∧ Replies.device_address vk = 0
  | _ => False
  end.

(** The new resource: its range has the size and the alignment that Vulkan
    asked for, and everything else is as before. *)
Definition created (self s' : t) (vk : Replies.t) (class : MemoryClass) (size : Z)
    (memory : MemoryLocation) (addressed : bool) (k : Z) : Prop :=
  resources self !! k = None ∧
  ∃ id range address,
    resources s' = <[k := Resource.mk id (Some range) class size memory address]> (resources self) ∧
    (Replies.alignment vk | Range.start range) ∧ Range.length range = Replies.size vk ∧
    (address = if addressed then Some (Replies.device_address vk) else None) ∧
    (addressed = true → Replies.device_address vk ≠ 0).

Definition create_outcome (self s' : t) (vk : Replies.t) (class : MemoryClass) (size : Z)
    (memory : MemoryLocation) (configured : Z) (validated : Outcome ResourceDescriptorError unit)
    (addressed : bool) (o : Outcome AllocatorError Z) : Prop :=
  wf s' ∧
  match o with
  | Ok k => created self s' vk class size memory addressed k
  | Err e => resources s' = resources self ∧
      create_error self vk memory configured validated addressed e
  | Panic => False
  end.

(** A resource inserted for a pending range is a created one. *)
Lemma created_pending self base self' id b r range vk class size addressed :
  pending base self' id b r range (Replies.size vk) (Replies.alignment vk) →
  MemoryBlock.class b = class → resources base = resources self →
  (class = Buffer → 0 < size <= Replies.size vk) →
  (addressed = true → Replies.device_address vk ≠ 0) →
  ∃ s' k, insert_resource (Resource.mk id (Some range) class size (MemoryBlock.location b)
      (if addressed then Some (Replies.device_address vk) else None)) self' = (s', Ok k) ∧
    wf s' ∧ created self s' vk class size (MemoryBlock.location b) addressed k.
Proof.
  intros Hp Hcl Hres Hsize Haddr.
  pose proof (resources_next_fresh _ (pending_wf _ _ _ _ _ _ _ _ Hp)) as Hfresh.
  destruct (pending_owns _ _ _ _ _ _ _ _ (next base) Hp Hfresh) as (_&_&Hd&Hend).
  destruct (pending_insert _ _ _ _ _ _ _ _ class size
    (if addressed then Some (Replies.device_address vk) else None) Hp Hcl Hsize)
    as (s'&E&Hwf&Hr&_).
  exists s', (next base). split; [done|]. split; [done|]. split; [congruence|].
  exists id, range, (if addressed then Some (Replies.device_address vk) else None).
  split_and!; [congruence|done|unfold Range.length; lia|done|done].
Qed.

(** A failed finish releases the range. *)
Lemma released_pending {A} self base self' id b r range sz alignment (e : AllocatorError) :
  pending base self' id b r range sz alignment → resources base = resources self →
  ∃ s', (release_in id range ;; throw e : Alloc A) self' = (s', Err e) ∧ wf s' ∧
    resources s' = resources self.
Proof.
  intros Hp Hres. destruct (pending_release _ _ _ _ _ _ _ _ Hp) as (s'&E&Hwf&Hr&_).
  exists s'. split; [by rewrite (run_ok _ _ _ _ _ E)|]. split; [done|congruence].
Qed.

Definition buffer_block_size (self : t) (memory : MemoryLocation) : Z :=
  match memory with
  | Device => MemoryAllocatorConfig.device_block_size (config self)
  | Upload => MemoryAllocatorConfig.upload_block_size (config self)
  | Readback => MemoryAllocatorConfig.readback_block_size (config self)
  end.

Definition image_block_size (self : t) (memory : MemoryLocation) : Z :=
  match memory with
  | Device => MemoryAllocatorConfig.image_block_size (config self)
  | Upload => MemoryAllocatorConfig.upload_block_size (config self)
  | Readback => MemoryAllocatorConfig.readback_block_size (config self)
  end.

Definition addressed (descriptor : BufferDescriptor.t) : bool :=
  BufferUsages.contains (BufferDescriptor.usage descriptor) BufferUsages.SHADER_DEVICE_ADDRESS.

(** [vkGetBufferMemoryRequirements2] asks for the size of the buffer at least. *)
Definition buffer_replies_ok (vk : Replies.t) (descriptor : BufferDescriptor.t) : Prop :=
  Replies.ok vk ∧ BufferDescriptor.size descriptor <= Replies.size vk ∧
  0 <= BufferDescriptor.size descriptor.

Lemma create_buffer_outcome self vk d :
  wf self → buffer_replies_ok vk d →
  ∃ s' o, create_buffer vk d self = (s', o) ∧
    create_outcome self s' vk Buffer (BufferDescriptor.size d) (BufferDescriptor.memory d)
      (buffer_block_size self (BufferDescriptor.memory d)) (BufferDescriptor.validate d)
      (addressed d) o.
Proof.
  intros Hwf (Hok&Hle&H0). unfold create_buffer.
  destruct (BufferDescriptor.validate d) as [[]|de|] eqn:Hv; cbn [lift].
  2: { exists self, (Err (Descriptor de)). done. }
  2: { unfold BufferDescriptor.validate in Hv. repeat case_match; done. }
  assert (Hpos : 0 < BufferDescriptor.size d).
  { unfold BufferDescriptor.validate in Hv.
    destruct (Z.eqb_spec (BufferDescriptor.size d) 0); [done|lia]. }
  rewrite run_ret_bind. destruct (Replies.create vk) eqn:Hc.
  2: { exists self, (Err CreateResource). done. }
  unfold bind_buffer. rewrite run_get. fold (buffer_block_size self (BufferDescriptor.memory d)).
  destruct (bind_resource_spec vk Buffer (BufferDescriptor.memory d)
    (buffer_block_size self (BufferDescriptor.memory d)) (finish_buffer vk d) self Hwf Hok)
    as [(e&->&He)|(base&self'&id&b&r&range&->&Hp&Hcl&Hlo&Hres)].
  { exists self, (Err e). split; [done|]. split; [done|]. split; [done|]. by destruct e. }
  unfold finish_buffer. fold (addressed d).
  destruct (Replies.bind vk) eqn:Hb; simpl.
  2: { destruct (released_pending (A := Z) self _ _ _ _ _ _ _ _ BindMemory Hp Hres) as (s'&->&?&?).
    by exists s', (Err BindMemory). }
  destruct (addressed d) eqn:Ha; [destruct (Z.eqb_spec (Replies.device_address vk) 0)|].
  - destruct (released_pending (A := Z) self _ _ _ _ _ _ _ _ ZeroDeviceAddress Hp Hres)
      as (s'&->&?&?). by exists s', (Err ZeroDeviceAddress).
  - destruct (created_pending self base self' id b r range vk Buffer (BufferDescriptor.size d)
      true Hp Hcl Hres) as (s'&k&E&?&?); [lia|done|].
    rewrite Hlo in *. exists s', (Ok k). done.
  - destruct (created_pending self base self' id b r range vk Buffer (BufferDescriptor.size d)
      false Hp Hcl Hres) as (s'&k&E&?&?); [lia|done|].
    rewrite Hlo in *. exists s', (Ok k). done.
Qed.

Definition image_class (d : ImageDescriptor.t) : MemoryClass :=
  match ImageDescriptor.tiling d with Linear => LinearImage | Optimal => OptimalImage end.

Lemma create_image_outcome self vk d :
  wf self → Replies.ok vk →
  ∃ s' o, create_image vk d self = (s', o) ∧
    create_outcome self s' vk (image_class d) 0 (ImageDescriptor.memory d)
      (image_block_size self (ImageDescriptor.memory d)) (ImageDescriptor.validate d) false o.
Proof.
  intros Hwf Hok. unfold create_image.
  destruct (ImageDescriptor.validate d) as [[]|de|] eqn:Hv; cbn [lift].
  2: { exists self, (Err (Descriptor de)). done. }
  2: { unfold ImageDescriptor.validate in Hv. repeat case_match; done. }
  rewrite run_ret_bind. destruct (Replies.create vk) eqn:Hc.
  2: { exists self, (Err CreateResource). done. }
  unfold bind_image. rewrite run_get. fold (image_block_size self (ImageDescriptor.memory d)).
  fold (image_class d).
  destruct (bind_resource_spec vk (image_class d) (ImageDescriptor.memory d)
    (image_block_size self (ImageDescriptor.memory d)) (finish_image vk d (image_class d)) self
    Hwf Hok) as [(e&->&He)|(base&self'&id&b&r&range&->&Hp&Hcl&Hlo&Hres)].
  { exists self, (Err e). split; [done|]. split; [done|]. split; [done|]. by destruct e. }
  unfold finish_image. destruct (Replies.bind vk) eqn:Hb; simpl.
  2: { destruct (released_pending (A := Z) self _ _ _ _ _ _ _ _ BindMemory Hp Hres) as (s'&->&?&?).
    by exists s', (Err BindMemory). }
  destruct (created_pending self base self' id b r range vk (image_class d) 0 false Hp Hcl Hres)
    as (s'&k&E&?&?); [by unfold image_class; destruct (ImageDescriptor.tiling d)|done|].
  rewrite Hlo in *. exists s', (Ok k). done.
Qed.

(** ** Trimming *)

(** A resource still refers to the block. *)
Definition used (self : t) (id : Z) : Prop :=
  ∃ k r, resources self !! k = Some r ∧ Resource.block r = id.

(** An unused shared block with the given key. *)
Definition pooled (self : t) (id : Z) (key : MemoryClass * MemoryLocation * Z) : Prop :=
  ¬ used self id ∧
  ∃ b, arena self !! id = Some b ∧ MemoryBlock.dedicated b = false ∧ block_key b = key.

(** Among [ids], the block stays: it is used, or it is the first pooled one of
    a key that is not retained yet. *)
Definition stays (self : t) (retained : list (MemoryClass * MemoryLocation * Z)) (ids : list Z)
    (id : Z) : Prop :=
  used self id ∨
  ∃ key, pooled self id key ∧ key ∉ retained ∧
    ∀ pre post, ids = pre ++ id :: post → ∀ j, j ∈ pre → ¬ pooled self j key.

(** The test of the loop: only a block that is not used passes it. *)
Lemma idle_test self id b :
  wf self → arena self !! id = Some b → id ∈ blocks self →
  negb (strong_count self id =? 1) || negb (MemoryBlock.is_empty b) = false ↔ ¬ used self id.
Proof.
  intros Hwf Hb Hid.
  assert (Hc1 : Z.of_nat (length (filter (λ b, b = id) (blocks self))) = 1).
  { apply list_elem_of_split in Hid as (l1&l2&E). pose proof (wf_blocks_nodup _ Hwf) as Hnd.
    rewrite E in Hnd |- *. apply NoDup_app in Hnd as (_&Hd&[Hni _]%NoDup_cons).
    rewrite filter_app, filter_cons_True by done. rewrite !filter_none; [done|..].
    - apply Forall_forall. by intros x Hx ->.
    - apply Forall_forall. intros x Hx ->. apply (Hd _ Hx). by left. }
  split.
  - intros [Hs%negb_false_iff%Z.eqb_eq _]%orb_false_iff (k&r&Hk&Hr).
    unfold strong_count in Hs.
    assert (Hz : filter (λ kr : Z * Resource.t, Resource.block kr.2 = id) (resources self) = ∅).
    { apply map_size_empty_inv. lia. }
    rewrite map_empty_filter in Hz. by apply (Hz k r Hk).
  - intros Hu. apply orb_false_iff. split; apply negb_false_iff.
    + apply Z.eqb_eq. unfold strong_count.
      assert (filter (λ kr : Z * Resource.t, Resource.block kr.2 = id) (resources self) = ∅) as ->.
      { apply map_empty_filter. intros k r Hk Hr. apply Hu. by exists k, r. }
      rewrite map_size_empty. lia.
    + apply Z.eqb_eq. rewrite <- (block_size_ok b) by (by apply (wf_block_ok _ Hwf id)).
      apply (available_full _ _ (wf_owns _ Hwf id b Hb)). apply live_in_unreferenced.
      intros k r Hk Hr. apply Hu. by exists k, r.
Qed.

Lemma stays_cons_ne self retained i ids id :
  i ≠ id → (∀ key, key ∉ retained → pooled self id key → ¬ pooled self i key) →
  stays self retained (i :: ids) id ↔ stays self retained ids id.
Proof.
  intros Hne Hi. unfold stays. split; (intros [?|(key&Hp&Hr&Hf)]; [by left|right]);
    exists key; (split; [done|]); (split; [done|]).
  - intros pre post -> j Hj. apply (Hf (i :: pre) post); [done|]. by right.
  - intros pre post E j Hj. destruct pre as [|a pre]; simplify_eq/=.
    apply elem_of_cons in Hj as [->|Hj]; [by apply Hi|by apply (Hf pre post)].
Qed.

Lemma stays_retained self retained k i ids id :
  i ≠ id → id ∈ ids → pooled self i k →
  stays self retained (i :: ids) id ↔ stays self (retained ++ [k]) ids id.
Proof.
  intros Hne Hid Hi. unfold stays. split; (intros [?|(key&Hp&Hr&Hf)]; [by left|right]); exists key.
  - split; [done|]. split.
    + intros [?| ->%list_elem_of_singleton]%elem_of_app; [done|].
      apply list_elem_of_split in Hid as (pre&post&->).
      by apply (Hf (i :: pre) post eq_refl i ltac:(by left)).
    + intros pre post -> j Hj. apply (Hf (i :: pre) post); [done|]. by right.
  - split; [done|]. split; [set_solver|].
    intros pre post E j Hj. destruct pre as [|a pre]; simplify_eq/=.
    apply elem_of_cons in Hj as [->|Hj]; [|by apply (Hf pre post)].
    intros Hik. assert (key = k) as ->; [|set_solver].
    destruct Hi as [_ (b&Hb&_&<-)], Hik as [_ (c&Hc&_&<-)]. congruence.
Qed.

Lemma stays_head self retained i ids key :
  NoDup (i :: ids) → pooled self i key → key ∉ retained → stays self retained (i :: ids) i.
Proof.
  intros [Hni _]%NoDup_cons Hp Hr. right. exists key. split; [done|]. split; [done|].
  intros pre post E j Hj. destruct pre as [|a pre]; [by apply elem_of_nil in Hj|].
  simplify_eq/=. exfalso. apply Hni, elem_of_app. right. by left.
Qed.

(** The blocks that the loop keeps. *)
Lemma retain_blocks_spec self retained ids :
  wf self → NoDup ids → (∀ id, id ∈ ids → id ∈ blocks self) →
  retain_blocks self retained ids `sublist_of` ids ∧
  ∀ id, id ∈ ids → id ∈ retain_blocks self retained ids ↔ stays self retained ids id.
Proof.
  intros Hwf. revert retained. induction ids as [|i ids IH]; intros retained Hnd Hids; simpl.
  { split; [done|]. by intros id ?%elem_of_nil. }
  pose proof Hnd as [Hni Hnd']%NoDup_cons.
  assert (Hi : i ∈ blocks self) by (apply Hids; by left).
  destruct (wf_blocks _ Hwf i Hi) as [b Hb]. rewrite Hb.
  assert (Hids' : ∀ id, id ∈ ids → id ∈ blocks self) by (intros; apply Hids; by right).
  pose proof (idle_test self i b Hwf Hb Hi) as Htest.
  assert (Hne : ∀ id, id ∈ ids → i ≠ id) by (by intros id Hid ->).
  assert (Hrest : ∀ id k, id ∈ retain_blocks self k ids → id ≠ i).
  { intros id k Hid ->. destruct (IH k Hnd' Hids') as [Hsub _]. apply Hni.
    by eapply elem_of_sublist. }
  assert (Hkey : ∀ key, pooled self i key → block_key b = key ∧ MemoryBlock.dedicated b = false).
  { intros key (_&c&Hc&?&?). by simplify_eq. }
  destruct (negb (strong_count self i =? 1) || negb (MemoryBlock.is_empty b)).
  - assert (Hu : used self i).
    { destruct (decide (map_Forall (λ _ r, Resource.block r ≠ i) (resources self))) as [Hf|Hf].
      - exfalso. assert (true = false); [|done]. apply Htest. intros (k&r&Hk&Hr).
        by apply (Hf k r).
      - apply map_not_Forall in Hf as (k&r&Hk&Hnn); [|apply _].
        exists k, r. split; [done|]. by destruct (decide (Resource.block r = i)). }
    destruct (IH retained Hnd' Hids') as [Hsub Hiff]. split; [by constructor|].
    intros id [->|Hid]%elem_of_cons.
    + split; [by left|]. intros _. by left.
    + rewrite elem_of_cons, stays_cons_ne, Hiff; [|done|by apply Hne|by intros ? _ _ []].
      split; [|by right]. intros [->|?]; [|done]. by destruct (Hne i Hid).
  - assert (Hu : ¬ used self i) by (by apply Htest). clear Htest.
    destruct (MemoryBlock.dedicated b) eqn:Hd; simpl; [|case_bool_decide as Hin].
    + destruct (IH retained Hnd' Hids') as [Hsub Hiff]. split; [by constructor|].
      intros id [->|Hid]%elem_of_cons.
      * split; [by intros ?%Hrest|]. intros [?|(key&Hp&_)]; [done|]. by apply Hkey in Hp as [_ ?].
      * rewrite stays_cons_ne; [by apply Hiff|by apply Hne|].
        intros key _ _ Hp. by apply Hkey in Hp as [_ ?].
    + destruct (IH retained Hnd' Hids') as [Hsub Hiff]. split; [by constructor|].
      intros id [->|Hid]%elem_of_cons.
      * split; [by intros ?%Hrest|]. intros [?|(key&Hp&?&_)]; [done|].
        apply Hkey in Hp as [<- _]. done.
      * rewrite stays_cons_ne; [by apply Hiff|by apply Hne|].
        intros key Hr _ Hp. apply Hkey in Hp as [<- _]. done.
    + assert (Hp : pooled self i (block_key b)) by (split; [done|by exists b]).
      destruct (IH (retained ++ [block_key b]) Hnd' Hids') as [Hsub Hiff].
      split; [by constructor|]. intros id [->|Hid]%elem_of_cons.
      * split; [intros _; by apply stays_head with (block_key b)|by left].
      * rewrite elem_of_cons, (stays_retained self retained (block_key b)), Hiff;
          [|done|by apply Hne|done|done].
        split; [|by right]. intros [->|?]; [|done]. by destruct (Hne i Hid).
Qed.

Lemma trim_outcome self :
  wf self →
  let '(s', n) := trim self in
  wf s' ∧ resources s' = resources self ∧
  n = Z.of_nat (length (blocks self)) - Z.of_nat (length (blocks s')) ∧
  blocks s' `sublist_of` blocks self ∧
  (∀ id, id ∈ blocks self → id ∈ blocks s' ↔ stays self [] (blocks self) id) ∧
  (∀ id b, arena s' !! id = Some b ↔
    arena self !! id = Some b ∧ (id ∈ blocks self → stays self [] (blocks self) id)).
Proof.
  intros Hwf. unfold trim.
  destruct (retain_blocks_spec self [] (blocks self) Hwf (wf_blocks_nodup _ Hwf) ltac:(done))
    as [Hsub Hiff].
  set (kept := retain_blocks self [] (blocks self)) in *.
  assert (Hin : ∀ id, id ∈ kept → id ∈ blocks self) by (intros; by eapply elem_of_sublist).
  assert (Hsame : set_blocks kept self = set_blocks kept (set_resources (resources self) self)) by done.
  split.
  { rewrite Hsame. apply wf_prune; try done.
    - eapply sublist_NoDup; [by apply wf_blocks_nodup|done].
    - intros k r Hk Hn. congruence. }
  rewrite collect_all. simpl. split; [done|]. split; [done|]. split; [done|]. split; [done|].
  intros id b. rewrite map_lookup_filter_Some. simpl.
  rewrite (strong_count_pos (set_blocks kept self) id). simpl. split.
  - intros [Hb Hn]. split; [done|]. intros Hid. apply Hiff; [done|].
    destruct (decide (id ∈ kept)) as [|Hk]; [done|]. apply Hiff; [done|].
    destruct (decide (map_Forall (λ _ r, Resource.block r ≠ id) (resources self))) as [Hf|Hf].
    + exfalso. apply Hn. split; [done|]. by split.
    + left. apply map_not_Forall in Hf as (k&r&Hr&Hnn); [|apply _].
      exists k, r. split; [done|]. by destruct (decide (Resource.block r = id)).
  - intros [Hb Hs]. split; [done|]. intros (Hid&Hk&_). by apply Hk, Hiff, Hs.
Qed.

(** ** Access to the memory of a buffer *)

(** An access stays in the range of its buffer, and the flushed or invalidated
    range covers it. *)
Definition confined (b : MemoryBlock.t) (range : Range.t) (offset sz : Z) (a : Access.t) : Prop :=
  Access.offset a = Range.start range + offset ∧ Access.length a = sz ∧
  Range.start range <= Access.offset a ∧
  Access.offset a + Access.length a <= Range.end_ range ∧
  (∃ base, MemoryBlock.mapped_address b = Some base ∧
    Access.address a = (base + Access.offset a) mod 18446744073709551616) ∧
  match Access.synchronized a with
  | None => MemoryBlock.host_coherent b = true
  | Some (start, length) => start <= Access.offset a ∧
      (MemoryBlock.non_coherent_atom_size b | start) ∧
      match length with
      | Some length => Access.offset a + Access.length a <= start + length <= MemoryBlock.size b
      | None => True
      end
  end.

Definition access_error (b : MemoryBlock.t) (r : Resource.t) (range : Range.t)
    (location : MemoryLocation) (offset sz : Z) (e : AllocatorError) : Prop :=
  match e with
  | WrongLocation => Resource.memory r ≠ location
  | RangeOverflows => U64.MAX < offset + sz ∨
      U64.MAX < Range.start range + offset + sz + MemoryBlock.non_coherent_atom_size b
  | ExceedsBuffer => Resource.size r < offset + sz
  | _ => False
  end.

Section access.

Context (self : t) (k : Z) (r : Resource.t) (range : Range.t) (b : MemoryBlock.t) (offset sz : Z).

Context (Hwf : wf self) (Hk : resources self !! k = Some r)
  (Hr : Resource.range r = Some range) (Hc : Resource.class r = Buffer)
  (Hb : arena self !! Resource.block r = Some b) (Hoff : 0 <= offset) (Hsz : 0 <= sz).

Lemma range_inside :
  0 <= Range.start range < Range.end_ range ∧ Range.end_ range <= MemoryBlock.size b ∧
  MemoryBlock.size b <= U64.MAX.
Proof.
  pose proof (wf_owns _ Hwf _ b Hb) as Ho. pose proof (owns_size _ _ Ho).
  rewrite (block_size_ok b) in * by (by apply (wf_block_ok _ Hwf (Resource.block r))).
  assert (Hl : live_in (resources self) (Resource.block r) !! k = Some range)
    by (apply live_in_lookup; by exists r).
  pose proof (owns_inside _ _ Ho k range Hl).
  rewrite (block_size_ok b) in * by (by apply (wf_block_ok _ Hwf (Resource.block r))). lia.
Qed.

(** The guards leave an access inside the range. *)
Lemma checked_end_spec location :
  match checked_end r location offset sz with
  | Ok _ => Resource.memory r = location ∧
      Range.start range + offset + sz <= Range.end_ range
  | Err e => access_error b r range location offset sz e
  | Panic => False
  end.
Proof.
  unfold checked_end. case_bool_decide as Hl; simpl; [|done].
  unfold checked_add. destruct (Z.leb_spec (offset + sz) U64.MAX); simpl; [|lia].
  destruct (Z.ltb_spec (Resource.size r) (offset + sz)); [done|]. split; [done|].
  pose proof (wf_sizes _ Hwf k r range Hk Hr Hc) as Hs. unfold Range.length in Hs. lia.
Qed.

Lemma mapped_range_inside :
  Range.start range + offset + sz <= Range.end_ range → MemoryBlock.location b ≠ Device →
  ∃ base, MemoryBlock.mapped_address b = Some base ∧
    MemoryBlock.mapped_range b (Range.start range + offset) sz =
      Ok ((base + (Range.start range + offset)) mod 18446744073709551616).
Proof.
  intros Hfit Hl. pose proof range_inside.
  destruct (block_mapped b (wf_block_ok _ Hwf _ b Hb) Hl) as [base Hbase].
  exists base. split; [done|]. unfold MemoryBlock.mapped_range, checked_add. rewrite Hbase.
  destruct (Z.leb_spec (Range.start range + offset + sz) U64.MAX); [|lia].
  destruct (Z.ltb_spec (MemoryBlock.size b) (Range.start range + offset + sz)); [lia|done].
Qed.

Lemma synchronize_covers :
  Range.start range + offset + sz <= Range.end_ range →
  match MemoryBlock.synchronize b (Range.start range + offset) sz with
  | Ok None => MemoryBlock.host_coherent b = true
  | Ok (Some (start, length)) => start <= Range.start range + offset ∧
      (MemoryBlock.non_coherent_atom_size b | start) ∧
      match length with
      | Some length =>
          Range.start range + offset + sz <= start + length <= MemoryBlock.size b
      | None => True
      end
  | Err e => e = RangeOverflows ∧
      U64.MAX < Range.start range + offset + sz + MemoryBlock.non_coherent_atom_size b
  | Panic => False
  end.
Proof.
  intros Hfit. pose proof range_inside.
  destruct (wf_block_ok _ Hwf _ b Hb) as [_ _ Hp Ha].
  unfold MemoryBlock.synchronize. destruct (MemoryBlock.host_coherent b); [done|].
  unfold MemoryBlock.flush_or_invalidate, checked_add.
  destruct (Z.leb_spec (Range.start range + offset + sz) U64.MAX); [|lia]. simpl.
  pose proof (align_up_spec (Range.start range + offset + sz)
    (MemoryBlock.non_coherent_atom_size b) ltac:(lia) Ha) as Hup.
  pose proof (align_down_spec (Range.start range + offset)
    (MemoryBlock.non_coherent_atom_size b) Hp ltac:(lia) Ha) as [Hdown Hdiv].
  destruct (align_up _ _) as [e|]; [|destruct Hup; [congruence|split; [done|lia]]].
  destruct Hup as [[Hup _] _]. split; [lia|]. split; [done|].
  destruct (Z.leb_spec e (MemoryBlock.size b)); [lia|done].
Qed.

Lemma mappable location : Resource.memory r = location → location ≠ Device →
  MemoryBlock.location b ≠ Device.
Proof.
  intros El Hne. destruct (wf_resources _ Hwf k r Hk) as (c&Hcb&_&Hl). simplify_eq. congruence.
Qed.

Lemma write_with_outcome :
  match write_with self r offset sz with
  | Ok (Some a) => sz ≠ 0 ∧ confined b range offset sz a
  | Ok None => sz = 0
  | Err e => access_error b r range Upload offset sz e
  | Panic => False
  end.
Proof.
  unfold write_with. pose proof (checked_end_spec Upload) as Hend.
  destruct (checked_end r Upload offset sz); [|done|done]. destruct Hend as [Hl Hfit].
  destruct (Z.eqb_spec sz 0); [done|]. rewrite Hr, Hb.
  destruct (mapped_range_inside Hfit (mappable Upload Hl ltac:(done))) as (base&Hbase&->).
  pose proof (synchronize_covers Hfit) as Hs.
  destruct (MemoryBlock.synchronize b (Range.start range + offset) sz) as [s|e|]; [|..].
  - split; [done|]. unfold confined. simpl. split_and!; try done; try lia. by exists base.
  - destruct Hs as [-> ?]. simpl. by right.
  - done.
Qed.

Lemma read_outcome :
  match read self r offset sz with
  | Ok a => confined b range offset sz a
  | Err e => access_error b r range Readback offset sz e
  | Panic => False
  end.
Proof.
  unfold read. pose proof (checked_end_spec Readback) as Hend.
  destruct (checked_end r Readback offset sz); [|done|done]. destruct Hend as [Hl Hfit].
  rewrite Hr, Hb. pose proof (synchronize_covers Hfit) as Hs.
  destruct (MemoryBlock.synchronize b (Range.start range + offset) sz) as [s|e|].
  - destruct (mapped_range_inside Hfit (mappable Readback Hl ltac:(done))) as (base&Hbase&->).
    unfold confined. simpl. split_and!; try done; try lia. by exists base.
  - destruct Hs as [-> ?]. simpl. by right.
  - done.
Qed.

End access.

(** ** Sequences of operations *)

Inductive Call :=
| CreateBuffer (vk : Replies.t) (descriptor : BufferDescriptor.t)
| CreateImage (vk : Replies.t) (descriptor : ImageDescriptor.t)
| DropInner (id : Z)
| DropBlockReference (id : Z)
| Trim.

Definition step (self : t) (c : Call) : t * Outcome AllocatorError Z :=
  match c with
  | CreateBuffer vk d => create_buffer vk d self
  | CreateImage vk d => create_image vk d self
  | DropInner id => (drop_inner id;; mret 0) self
  | DropBlockReference id => (drop_block_reference id;; mret 0) self
  | Trim => let '(s, n) := trim self in (s, Ok n)
  end.

Definition call_ok (c : Call) : Prop :=
  match c with
  | CreateBuffer vk d => buffer_replies_ok vk d
  | CreateImage vk _ => Replies.ok vk
  | _ => True
  end.

Lemma step_wf self c :
  wf self → call_ok c → wf (step self c).1 ∧ (step self c).2 ≠ Panic.
Proof.
  intros Hwf Hc. destruct c as [vk d|vk d|id|id|]; cbn [step call_ok] in *.
  - destruct (create_buffer_outcome self vk d Hwf Hc) as (s'&o&->&Hs&Ho).
    split; [done|]. by destruct o.
  - destruct (create_image_outcome self vk d Hwf Hc) as (s'&o&->&Hs&Ho).
    split; [done|]. by destruct o.
  - destruct (drop_inner_spec self id Hwf) as (s'&E&Hs&_). by rewrite (run_ok _ _ _ _ _ E).
  - destruct (drop_block_reference_spec self id Hwf) as (s'&E&Hs&_).
    by rewrite (run_ok _ _ _ _ _ E).
  - pose proof (trim_outcome self Hwf) as Ht. destruct (trim self) as [s' n].
    simpl. split; [apply Ht|done].
Qed.

Lemma run_wf self cs :
  wf self → Forall call_ok cs →
  wf (run_calls step self cs).1 ∧ Forall (λ o, o ≠ Panic) (run_calls step self cs).2.
Proof.
  intros Hwf Hcs. revert self Hwf. induction Hcs as [|c cs Hc Hcs IH]; intros self Hwf; [done|].
  rewrite run_calls_cons. simpl. destruct (step_wf self c Hwf Hc) as [Hwf' Ho].
  destruct (IH _ Hwf') as [??]. split; [done|by constructor].
Qed.

Lemma wf_new config types atom self :
  MemoryAllocator.new config types atom = Some self →
  is_power_of_two (Z.max atom 1) = true → Z.max atom 1 <= U64.MAX → wf self.
Proof.
  unfold MemoryAllocator.new. intros E Hp Ha. case_match; [done|]. injection E as <-.
  split; simpl; try done; try (intros; by rewrite lookup_empty in *).
  - constructor.
  - by intros id ?%elem_of_nil.
Qed.

(** ** A concrete allocator

    One device-local and one mappable, non-coherent type; a shared block with a
    buffer of each kind of access and an image of its own class. *)

Definition test_types : list MemoryTypeInfo.t :=
  [ MemoryTypeInfo.mk 0 0 (MemoryPropertyFlags.mk true false false false false) 1073741824;
    MemoryTypeInfo.mk 1 1 (MemoryPropertyFlags.mk false true false true false) 268435456 ].

Definition test_config : MemoryAllocatorConfig.t :=
  MemoryAllocatorConfig.mk 4096 8192 1024 1024 65536.

Definition test_self : t :=
  mk test_config test_types 64 ∅ [] ∅ 0.

Definition test_replies (size alignment : Z) : Replies.t :=
  Replies.mk true size alignment 3 false false (Some 1) (Some 4096) true 0.

Definition test_calls : list Call :=
  [ CreateBuffer (test_replies 100 16) (BufferDescriptor.mk 100 2 Upload);
    CreateBuffer (test_replies 50 16) (BufferDescriptor.mk 50 2 Upload);
    CreateImage (test_replies 512 256)
      (ImageDescriptor.mk (Extent3D.mk 4 4 1) 1 1 Optimal 4 Device);
    DropInner 1; Trim; DropBlockReference 1; DropInner 4; DropBlockReference 4 ].

Lemma test_calls_ok : Forall call_ok test_calls.
Proof. repeat constructor; vm_compute; congruence. Qed.

Lemma test_wf n : wf (run_calls step test_self (take n test_calls)).1.
Proof.
  apply run_wf; [|apply Forall_take, test_calls_ok].
  apply (wf_new test_config test_types 64); [reflexivity|reflexivity|vm_compute; congruence].
Qed.

(** The second buffer shares the block of the first. *)
Example buffers_share_a_block :
  (λ r, (Resource.block r, Resource.range r)) <$>
    resources (run_calls step test_self (take 3 test_calls)).1 !! 2 =
  Some (0, Some (Range.mk 112 162)).
Proof. vm_compute. reflexivity. Qed.

Definition test_buffer : Resource.t :=
  Resource.mk 0 (Some (Range.mk 112 162)) Buffer 50 Upload None.

Definition test_block : MemoryBlock.t :=
  MemoryBlock.mk 1 1024 Buffer Upload 1 false 64 (Some 4096) false
    (RangeAllocator.mk 1024 [Range.mk 100 112; Range.mk 162 1024]).

(** ** Claims *)

(** C18: the memory allocator is safe over every sequence of creations, drops
    (in two steps, as other threads see them) and trims, whatever Vulkan answers
    and whatever fails: nothing panics; no two live resources overlap in memory;
    the memory of a live resource is never freed, it lies inside its block, and
    buffers, linear images and optimal images never share one; a dedicated block
    has one resource; and no block is leaked. *)
Theorem memory_allocator_safe config types atom s0 cs :
  MemoryAllocator.new config types atom = Some s0 →
  is_power_of_two (Z.max atom 1) = true → Z.max atom 1 <= U64.MAX → Forall call_ok cs →
  let '(s, outcomes) := run_calls step s0 cs in
  Forall (λ o, o ≠ Panic) outcomes ∧
  (∀ j k q r range range', resources s !! j = Some q → resources s !! k = Some r → j ≠ k →
    Resource.block q = Resource.block r → Resource.range q = Some range →
    Resource.range r = Some range' → range ## range') ∧
  (∀ k r, resources s !! k = Some r → ∃ b, arena s !! Resource.block r = Some b ∧
    MemoryBlock.class b = Resource.class r ∧ MemoryBlock.location b = Resource.memory r ∧
    (∀ range, Resource.range r = Some range → 0 <= Range.start range < Range.end_ range ∧
      Range.end_ range <= MemoryBlock.size b) ∧
    (MemoryBlock.dedicated b = true → ∀ j q, resources s !! j = Some q →
      Resource.block q = Resource.block r → j = k)) ∧
  (∀ id b, arena s !! id = Some b → id ∈ blocks s ∨ used s id).
Proof.
  intros Hnew Hp Ha Hcs. pose proof (run_wf s0 cs (wf_new _ _ _ _ Hnew Hp Ha) Hcs) as [Hwf Ho].
  destruct (run_calls step s0 cs) as [s outcomes]. simpl in *. split; [done|]. split_and!.
  - intros j k q r range range' Hj Hk Hne Hb Hq Hr.
    destruct (wf_resources _ Hwf k r Hk) as (b&Hbk&_).
    apply (owns_disjoint _ _ (wf_owns _ Hwf _ b Hbk) j k); [..|done]; apply live_in_lookup;
      [by exists q|by exists r].
  - intros k r Hk. destruct (wf_resources _ Hwf k r Hk) as (b&Hb&Hcl&Hlo).
    exists b. split_and!; try done.
    + intros range Hr. pose proof (range_inside s k r range b Hwf Hk Hr Hb). lia.
    + intros Hd j q Hj Hq. by apply (wf_dedicated _ Hwf (Resource.block r) b j k q r).
  - apply (wf_referenced _ Hwf).
Qed.

Lemma memory_allocator_safe_witness :
  MemoryAllocator.new test_config test_types 64 = Some test_self ∧
  Forall (λ o, o ≠ Panic) (run_calls step test_self test_calls).2.
Proof.
  split; [reflexivity|].
  pose proof (memory_allocator_safe test_config test_types 64 test_self test_calls eq_refl eq_refl
    ltac:(vm_compute; congruence) test_calls_ok) as H.
  destruct (run_calls step test_self test_calls) as [s outcomes]. exact (proj1 H).
Defined.

(** creating a buffer or an image never panics. It returns a new resource
    with a range of the size and alignment that Vulkan asked for and leaves every
    other resource alone, or it changes no resource and its error names a cause
    that is present; a new block always has room, so no other error exists. *)
Theorem create_resource_exact self vk :
  wf self →
  (∀ d, buffer_replies_ok vk d → ∃ s' o, create_buffer vk d self = (s', o) ∧
    create_outcome self s' vk Buffer (BufferDescriptor.size d) (BufferDescriptor.memory d)
      (buffer_block_size self (BufferDescriptor.memory d)) (BufferDescriptor.validate d)
      (addressed d) o) ∧
  (∀ d, Replies.ok vk → ∃ s' o, create_image vk d self = (s', o) ∧
    create_outcome self s' vk (image_class d) 0 (ImageDescriptor.memory d)
      (image_block_size self (ImageDescriptor.memory d)) (ImageDescriptor.validate d) false o).
Proof.
  intros Hwf. split; intros d Hok.
  - by apply create_buffer_outcome.
  - by apply create_image_outcome.
Qed.

Lemma create_resource_exact_witness :
  wf (run_calls step test_self (take 2 test_calls)).1 ∧
  ∃ s' o, create_image (test_replies 512 256)
      (ImageDescriptor.mk (Extent3D.mk 4 4 1) 1 1 Optimal 4 Device)
      (run_calls step test_self (take 2 test_calls)).1 = (s', o) ∧ wf s'.
Proof.
  split; [apply test_wf|].
  destruct (create_resource_exact _ (test_replies 512 256) (test_wf 2)) as [_ H].
  destruct (H (ImageDescriptor.mk (Extent3D.mk 4 4 1) 1 1 Optimal 4 Device)) as (s'&o&E&Hs&_).
  - vm_compute. repeat split; congruence.
  - exists s', o. split; [exact E|exact Hs].
Defined.

(** C36: reading and writing a live buffer is confined to it. A write or read
    that passes the guards touches exactly the requested bytes inside the
    buffer's own range of mapped memory, and flushes or invalidates an atom-
    aligned range that covers them; the guards reject the wrong location, a range
    past the end and overflows, and nothing else fails. The mapped address is
    there because the memory type was selected for it. *)
Theorem buffer_access_confined self k r range b offset sz :
  wf self → resources self !! k = Some r → Resource.range r = Some range →
  Resource.class r = Buffer → arena self !! Resource.block r = Some b →
  0 <= offset → 0 <= sz →
  match write_with self r offset sz with
  | Ok (Some a) => sz ≠ 0 ∧ confined b range offset sz a
  | Ok None => sz = 0
  | Err e => access_error b r range Upload offset sz e
  | Panic => False
  end ∧
  match read self r offset sz with
  | Ok a => confined b range offset sz a
  | Err e => access_error b r range Readback offset sz e
  | Panic => False
  end.
Proof.
  intros. split; [by apply (write_with_outcome self k)|by apply (read_outcome self k)].
Qed.

Lemma buffer_access_confined_witness :
  let self := (run_calls step test_self (take 2 test_calls)).1 in
  resources self !! 2 = Some test_buffer ∧ arena self !! 0 = Some test_block ∧
  write_with self test_buffer 10 20 =
    Ok (Some (Access.mk 4218 122 20 (Some (64, Some 128)))) ∧
  confined test_block (Range.mk 112 162) 10 20 (Access.mk 4218 122 20 (Some (64, Some 128))).
Proof.
  cbv zeta. set (self := (run_calls step test_self (take 2 test_calls)).1).
  assert (Hwf : wf self) by apply test_wf.
  assert (Er : resources self !! 2 = Some test_buffer) by (vm_compute; reflexivity).
  assert (Eb : arena self !! 0 = Some test_block) by (vm_compute; reflexivity).
  assert (Ew : write_with self test_buffer 10 20 =
    Ok (Some (Access.mk 4218 122 20 (Some (64, Some 128))))) by (vm_compute; reflexivity).
  split; [exact Er|]. split; [exact Eb|]. split; [exact Ew|].
  assert (H10 : 0 <= 10) by lia. assert (H20 : 0 <= 20) by lia.
  destruct (buffer_access_confined self 2 test_buffer (Range.mk 112 162) test_block 10 20
    Hwf Er eq_refl eq_refl Eb H10 H20) as [H _].
  rewrite Ew in H. exact (proj2 H).
Defined.

(** trimming drops exactly the blocks that nobody needs. A block stays in
    the list when a resource refers to it or when it is the first unused shared
    block of its class, location and memory type; every other block is freed, no
    resource changes, and the count of dropped blocks is returned. *)
Theorem trim_exact self :
  wf self →
  let '(s', n) := trim self in
  wf s' ∧ resources s' = resources self ∧
  n = Z.of_nat (length (blocks self)) - Z.of_nat (length (blocks s')) ∧
  blocks s' `sublist_of` blocks self ∧
  (∀ id, id ∈ blocks self → id ∈ blocks s' ↔ stays self [] (blocks self) id) ∧
  (∀ id b, arena s' !! id = Some b ↔
    arena self !! id = Some b ∧ (id ∈ blocks self → stays self [] (blocks self) id)).
Proof. apply trim_outcome. Qed.

Lemma trim_exact_witness :
  let self := (run_calls step test_self test_calls).1 in
  wf self ∧ wf (trim self).1 ∧ (trim self).2 = 0 ∧ block_count self = 2.
Proof.
  cbv zeta. split; [apply (test_wf 8)|].
  pose proof (trim_exact _ (test_wf 8)) as H.
  split; [|split; vm_compute; reflexivity].
  change (run_calls step test_self (take 8 test_calls)) with
    (run_calls step test_self test_calls) in H.
  destruct (trim (run_calls step test_self test_calls).1) as [s' n]. exact (proj1 H).
Defined.

(** the selection of a memory type is optimal. A plan is for a type that
    the requirements allow, that has the required property, is not lazily
    allocated and whose heap holds the aligned size, and no such type has a lower
    score; each error has exactly its cause. *)
Theorem select_exact types requirements location :
  let size := AllocationRequirements.size requirements in
  let alignment := AllocationRequirements.alignment requirements in
  0 <= size → alignment <= U64.MAX →
  match MemoryTypeSelector.select types requirements location with
  | Ok plan => ∃ allocation_size m,
      aligned_up size alignment allocation_size ∧ allocation_size <= U64.MAX ∧ m ∈ types ∧
      MemoryTypeSelector.candidate requirements location allocation_size m = true ∧
      plan = MemoryTypeSelector.plan_of m requirements allocation_size ∧
      ∀ m', m' ∈ types →
        MemoryTypeSelector.candidate requirements location allocation_size m' = true →
        key_le (MemoryTypeSelector.memory_score m location)
          (MemoryTypeSelector.memory_score m' location)
  | Err ZeroSize => size = 0
  | Err (InvalidAlignment a) => a = alignment ∧ is_power_of_two alignment = false
  | Err SizeOverflow => U64.MAX < size + (alignment - 1)
  | Err (NoCompatibleMemoryType bits l) =>
      bits = AllocationRequirements.memory_type_bits requirements ∧ l = location ∧
      ∀ m allocation_size, m ∈ types → align_up size alignment = Some allocation_size →
        MemoryTypeSelector.candidate requirements location allocation_size m = false
  | Panic => False
  end.
Proof.
  intros size alignment Hs Ha.
  pose proof (select_ok types requirements location) as Hok.
  pose proof (align_up_spec size alignment Hs Ha) as Hup.
  destruct (MemoryTypeSelector.select types requirements location) as [plan|e|] eqn:E.
  - destruct (Hok plan eq_refl) as (_&_&asz&m&Ea&?&?&?&?). exists asz, m.
    fold size alignment in Ea. rewrite Ea in Hup. by destruct Hup.
  - unfold MemoryTypeSelector.select in E. fold size alignment in E.
    destruct (Z.eqb_spec size 0); [by simplify_eq|].
    destruct (is_power_of_two alignment) eqn:Hp.
    2: { rewrite orb_true_r in E. by simplify_eq. }
    assert (Hne : alignment ≠ 0) by (intros H0; by rewrite H0 in Hp).
    apply Z.eqb_neq in Hne. rewrite Hne in E. simpl in E. rewrite plan_align_up in E by done.
    destruct (align_up size alignment) as [asz|]; [|by destruct Hup; simplify_eq].
    pose proof (min_by_key_spec (λ m, MemoryTypeSelector.memory_score m location)
      (filter (λ m, MemoryTypeSelector.candidate requirements location asz m = true) types)) as Hm.
    destruct (min_by_key _ _); [done|]. simplify_eq. split; [done|]. split; [done|].
    intros m asz' Hin [= <-]. apply not_true_is_false. intros Hc.
    assert (H0 : m ∈ filter (λ m, MemoryTypeSelector.candidate requirements location asz m = true)
      types) by (by apply list_elem_of_filter).
    rewrite Hm in H0. by apply elem_of_nil in H0.
  - unfold MemoryTypeSelector.select in E. repeat case_match; done.
Qed.

Lemma select_exact_witness :
  ∃ plan m, MemoryTypeSelector.select test_types
      (AllocationRequirements.mk 100 64 3 64) Upload = Ok plan ∧
    plan = MemoryTypeSelector.plan_of m (AllocationRequirements.mk 100 64 3 64) 128 ∧
    ∀ m', m' ∈ test_types →
      MemoryTypeSelector.candidate (AllocationRequirements.mk 100 64 3 64) Upload 128 m' = true →
      key_le (MemoryTypeSelector.memory_score m Upload)
        (MemoryTypeSelector.memory_score m' Upload).
Proof.
  assert (Hs : 0 <= 100) by lia. assert (Ha : 64 <= U64.MAX) by (vm_compute; congruence).
  pose proof (select_exact test_types (AllocationRequirements.mk 100 64 3 64) Upload Hs Ha) as H.
  destruct (MemoryTypeSelector.select test_types (AllocationRequirements.mk 100 64 3 64) Upload)
    as [plan|e|] eqn:E; [|vm_compute in E; discriminate..].
  destruct H as (size&m&_&_&_&_&Hp&Hm).
  assert (size = 128) as -> by (rewrite Hp in E; vm_compute in E; congruence).
  exists plan, m. split_and!; [done|exact Hp|exact Hm].
Defined.
