(* ===== verification/Graph.v ===== *)
(** * The render graph

    [vulkan-renderer/src/render_graph.rs]: passes declare which resources they
    use in which state; compiling derives the dependencies between them, the
    barriers that move resources from state to state, and an order. A [BTreeMap]
    is a map whose iteration is sorted by the key; pass indices are [nat]. *)

From S2P Require Import Prelude.

(** ** Results *)

#[export] Instance outcome_ret {E} : MRet (Outcome E) := λ A a, Ok a.

#[export] Instance outcome_bind {E} : MBind (Outcome E) := λ A B k m,
  match m with Ok a => k a | Err e => Err e | Panic => Panic end.

Lemma outcome_bind_ok {E A B} (m : Outcome E A) (k : A → Outcome E B) b :
  m ≫= k = Ok b → ∃ a, m = Ok a ∧ k a = Ok b.
Proof. destruct m as [a| |]; [by exists a|done|done]. Qed.

(** A loop that stops at the first error. *)
Fixpoint fold_outcome {E A S} (f : S → A → Outcome E S) (s : S) (l : list A) : Outcome E S :=
  match l with
  | [] => Ok s
  | a :: l => s ← f s a; fold_outcome f s l
  end.

(** An invariant of a loop that never panics: the steps keep a property of the
    elements seen so far. *)
Lemma fold_outcome_spec {E A S} (f : S → A → Outcome E S) (P : list A → S → Prop) s l :
  P [] s →
  (∀ k a rest s, l = k ++ a :: rest → P k s →
    match f s a with Ok s' => P (k ++ [a]) s' | Err _ => True | Panic => False end) →
  match fold_outcome f s l with Ok s' => P l s' | Err _ => True | Panic => False end.
Proof.
  intros H0 Hstep.
  assert (Hgen : ∀ rest k s, l = k ++ rest → P k s →
    match fold_outcome f s rest with Ok s' => P l s' | Err _ => True | Panic => False end).
  { induction rest as [|a rest IH]; intros k t Hl Hk; simpl.
    - rewrite Hl. by rewrite app_nil_r.
    - specialize (Hstep k a rest t Hl Hk). unfold mbind, outcome_bind.
      destruct (f t a) as [t'| |]; [|done|done].
      apply (IH (k ++ [a])); [|done]. by rewrite <- app_assoc. }
  by apply (Hgen l []).
Qed.

(** ** Resource states *)

Module ResourceKind.

Inductive t := Buffer | Image.

#[global] Instance t_eq_dec : EqDecision t.
Proof. solve_decision. Defined.

End ResourceKind.

Module AccessKind.

Inductive t := Read | Write | ReadWrite.

#[global] Instance t_eq_dec : EqDecision t.
Proof. solve_decision. Defined.

Definition writes (self : t) : bool :=
  match self with Write | ReadWrite => true | Read => false end.

End AccessKind.

Module BufferState.

Inductive t :=
| Undefined | TransferSource | TransferDestination | VertexRead | IndexRead | UniformRead
| StorageReadWrite | ComputeStorageReadWrite | IndirectRead.

#[global] Instance t_eq_dec : EqDecision t.
Proof. solve_decision. Defined.

End BufferState.

Module RenderGraphImageState.

Inductive t :=
| Undefined | ColorAttachmentWrite | AttachmentWrite | ColorAttachmentReadWrite
| RenderingLocalRead | FragmentSampledRead | FragmentSampledReadGeneral | ComputeSampledRead
| CopySource | CopyDestination | ClearDestination | BlitSource | BlitDestination
| TransferSource | TransferDestination | StorageReadWrite | Present.

#[global] Instance t_eq_dec : EqDecision t.
Proof. solve_decision. Defined.

End RenderGraphImageState.

Module ForeignImageState.

Inductive t := Undefined | General.

#[global] Instance t_eq_dec : EqDecision t.
Proof. solve_decision. Defined.

End ForeignImageState.

Module ResourceState.

Inductive t :=
| Buffer (state : BufferState.t) (queue_family : Z)
| Image (state : RenderGraphImageState.t) (queue_family : Z)
| ForeignImage (state : ForeignImageState.t).

#[global] Instance t_eq_dec : EqDecision t.
Proof. solve_decision. Defined.

Definition resource_kind (self : t) : ResourceKind.t :=
  match self with
  | Buffer _ _ => ResourceKind.Buffer
  | Image _ _ | ForeignImage _ => ResourceKind.Image
  end.

End ResourceState.

Module ResourceUse.

Record t := mk {
  resource : Z;
  kind : ResourceKind.t;
  access : AccessKind.t;
  state : ResourceState.t }.

End ResourceUse.

Module RenderPass.

Record t := mk {
  id : Z;
  depends_on : list Z;
  resources : list ResourceUse.t }.

End RenderPass.

Module Barrier.

Record t := mk {
  resource : Z;
  kind : ResourceKind.t;
  before : option Z;
  after : Z;
  source : ResourceState.t;
  destination : ResourceState.t }.

End Barrier.

Module CompiledGraph.

Record t := mk { ordered_passes : list Z; barriers : list Barrier.t }.

End CompiledGraph.

Inductive RenderGraphError :=
| DuplicatePass (pass : Z)
| UnknownDependency (pass dependency : Z)
| DuplicateResourceUse (pass resource : Z)
| ResourceKindChanged (resource : Z)
| ResourceStateKindMismatch (resource : Z) (kind state_kind : ResourceKind.t)
| Cycle.

(** ** Ordering the passes *)

Module Topological.

(** The successors and the number of predecessors of every pass. *)
Definition add_edge (s : list (list nat) * list nat) (edge : nat * nat)
    : Outcome RenderGraphError (list (list nat) * list nat) :=
  let '(successors, indegrees) := s in
  let '(before, after) := edge in
  if decide (before = after) then Err Cycle
  else match successors !! before, indegrees !! after with
  | Some l, Some d => Ok (<[before := l ++ [after]]> successors, <[after := S d]> indegrees)
  | _, _ => Panic
  end.

(** The loop over the successors of a pass that was ordered. *)
Definition relax (s : list nat * gset nat) (successor : nat)
    : Outcome RenderGraphError (list nat * gset nat) :=
  let '(indegrees, ready) := s in
  match indegrees !! successor with
  | Some (S d) => Ok (<[successor := d]> indegrees,
      if decide (d = O) then {[successor]} ∪ ready else ready)
  | _ => Panic
  end.

(** [pop_first]: the least element. *)
Definition pop_first (ready : gset nat) : option (nat * gset nat) :=
  match merge_sort le (elements ready) with
  | [] => None
  | index :: _ => Some (index, ready ∖ {[index]})
  end.

(** The main loop; [None] when the fuel runs out. *)
Fixpoint order_loop (fuel : nat) (successors : list (list nat)) (indegrees : list nat)
    (ready : gset nat) (ordered : list nat) : option (Outcome RenderGraphError (list nat)) :=
  match pop_first ready with
  | None => Some (Ok ordered)
  | Some (index, ready) =>
      match fuel with
      | O => None
      | S fuel =>
          match successors !! index with
          | None => Some Panic
          | Some l =>
              match fold_outcome relax (indegrees, ready) l with
              | Ok (indegrees, ready) =>
                  order_loop fuel successors indegrees ready (ordered ++ [index])
              | Err e => Some (Err e)
              | Panic => Some Panic
              end
          end
      end
  end.

(** Every iteration orders another pass, so [pass_count] is enough fuel. *)
Definition topological_order (pass_count : nat) (edges : gset (nat * nat))
    : option (Outcome RenderGraphError (list nat)) :=
  match fold_outcome add_edge (replicate pass_count [], replicate pass_count O)
      (sort_by_key (λ e : nat * nat, (Z.of_nat e.1, Z.of_nat e.2)) (elements edges)) with
  | Ok (successors, indegrees) =>
      let ready := list_to_set (filter (λ i, indegrees !! i = Some O) (seq 0 pass_count)) in
      match order_loop pass_count successors indegrees ready [] with
      | Some (Ok ordered) =>
          Some (if decide (length ordered = pass_count) then Ok ordered else Err Cycle)
      | r => r
      end
  | Err e => Some (Err e)
  | Panic => Some Panic
  end.

End Topological.

(** ** Compiling *)

Module RenderGraph.

Record t := mk {
  passes : list RenderPass.t;
  initial_states : gmap Z (ResourceKind.t * ResourceState.t) }.

Definition default : t := mk [] ∅.

Definition add_pass (self : t) (pass : RenderPass.t) : t :=
  mk (passes self ++ [pass]) (initial_states self).

Definition set_initial_state (self : t) (resource : Z) (kind : ResourceKind.t)
    (state : ResourceState.t) : t * option (ResourceKind.t * ResourceState.t) :=
  (mk (passes self) (<[resource := (kind, state)]> (initial_states self)),
    initial_states self !! resource).

(** [passes.iter().enumerate()]. *)
Definition enumerate (passes : list RenderPass.t) : list (nat * RenderPass.t) :=
  zip (seq 0 (length passes)) passes.

Definition check_initial (_ : unit) (entry : Z * (ResourceKind.t * ResourceState.t))
    : Outcome RenderGraphError unit :=
  let '(resource, (kind, state)) := entry in
  if decide (kind = ResourceState.resource_kind state) then Ok tt
  else Err (ResourceStateKindMismatch resource kind (ResourceState.resource_kind state)).

Definition index_pass (index_by_id : gmap Z nat) (entry : nat * RenderPass.t)
    : Outcome RenderGraphError (gmap Z nat) :=
  let '(index, pass) := entry in
  match index_by_id !! RenderPass.id pass with
  | Some _ => Err (DuplicatePass (RenderPass.id pass))
  | None => Ok (<[RenderPass.id pass := index]> index_by_id)
  end.

Definition add_dependency (index_by_id : gmap Z nat) (after : nat) (pass : RenderPass.t)
    (edges : gset (nat * nat)) (dependency : Z) : Outcome RenderGraphError (gset (nat * nat)) :=
  match index_by_id !! dependency with
  | None => Err (UnknownDependency (RenderPass.id pass) dependency)
  | Some before => Ok ({[(before, after)]} ∪ edges)
  end.

Definition add_dependencies (index_by_id : gmap Z nat) (edges : gset (nat * nat))
    (entry : nat * RenderPass.t) : Outcome RenderGraphError (gset (nat * nat)) :=
  let '(after, pass) := entry in
  fold_outcome (add_dependency index_by_id after pass) edges (RenderPass.depends_on pass).

(** The state of the second loop: the last use of every resource, the edges and
    the barriers. *)
Module Derived.

Record t := mk {
  previous : gmap Z (option nat * ResourceUse.t);
  edges : gset (nat * nat);
  barriers : list Barrier.t }.

End Derived.

Definition initial_previous (self : t) : gmap Z (option nat * ResourceUse.t) :=
  map_imap (λ resource ks, Some (None, ResourceUse.mk resource ks.1 AccessKind.Read ks.2))
    (initial_states self).

(** The barrier and the edge between the last use and this one, if any. *)
Definition transition (before : option nat) (prior usage : ResourceUse.t) : bool :=
  AccessKind.writes (ResourceUse.access prior) || AccessKind.writes (ResourceUse.access usage)
  || negb (bool_decide (ResourceUse.state prior = ResourceUse.state usage)).

Definition use_resource (self : t) (after : nat) (pass : RenderPass.t)
    (s : gset Z * Derived.t) (usage : ResourceUse.t)
    : Outcome RenderGraphError (gset Z * Derived.t) :=
  let '(in_pass, d) := s in
  let resource := ResourceUse.resource usage in
  let state_kind := ResourceState.resource_kind (ResourceUse.state usage) in
  if negb (bool_decide (ResourceUse.kind usage = state_kind)) then
    Err (ResourceStateKindMismatch resource (ResourceUse.kind usage) state_kind)
  else if bool_decide (resource ∈ in_pass) then
    Err (DuplicateResourceUse (RenderPass.id pass) resource)
  else
    let finish edges barriers :=
      Ok ({[resource]} ∪ in_pass,
        Derived.mk (<[resource := (Some after, usage)]> (Derived.previous d)) edges barriers) in
    match Derived.previous d !! resource with
    | None => finish (Derived.edges d) (Derived.barriers d)
    | Some (before, prior) =>
        if negb (bool_decide (ResourceUse.kind prior = ResourceUse.kind usage)) then
          Err (ResourceKindChanged resource)
        else if transition before prior usage then
          let barrier id := Barrier.mk resource (ResourceUse.kind usage) id (RenderPass.id pass)
            (ResourceUse.state prior) (ResourceUse.state usage) in
          match before with
          | None => finish (Derived.edges d) (Derived.barriers d ++ [barrier None])
          | Some index =>
              match passes self !! index with
              | None => Panic
              | Some p => finish ({[(index, after)]} ∪ Derived.edges d)
                  (Derived.barriers d ++ [barrier (Some (RenderPass.id p))])
              end
          end
        else finish (Derived.edges d) (Derived.barriers d)
    end.

Definition use_resources (self : t) (d : Derived.t) (entry : nat * RenderPass.t)
    : Outcome RenderGraphError Derived.t :=
  let '(after, pass) := entry in
  s ← fold_outcome (use_resource self after pass) (∅, d) (RenderPass.resources pass);
  Ok s.2.

(** The index of every ordered pass is an index of [passes]. *)
Definition pass_ids (self : t) (order : list nat) : Outcome RenderGraphError (list Z) :=
  match mapM (λ index, RenderPass.id <$> passes self !! index) order with
  | Some ids => Ok ids
  | None => Panic
  end.

(** [None] would be a run out of fuel. *)
Definition compile (self : t) : option (Outcome RenderGraphError CompiledGraph.t) :=
  let derived :=
    _ ← fold_outcome check_initial tt (sort_by_key fst (map_to_list (initial_states self)));
    index_by_id ← fold_outcome index_pass ∅ (enumerate (passes self));
    edges ← fold_outcome (add_dependencies index_by_id) ∅ (enumerate (passes self));
    fold_outcome (use_resources self) (Derived.mk (initial_previous self) edges [])
      (enumerate (passes self)) in
  match derived with
  | Ok d =>
      match Topological.topological_order (length (passes self)) (Derived.edges d) with
      | Some (Ok order) =>
          Some (ids ← pass_ids self order; Ok (CompiledGraph.mk ids (Derived.barriers d)))
      | Some (Err e) => Some (Err e)
      | Some Panic => Some Panic
      | None => None
      end
  | Err e => Some (Err e)
  | Panic => Some Panic
  end.

End RenderGraph.

(** ** Recording the barriers

    [vulkan-renderer/src/sync.rs]. A lowered barrier keeps the handle of its
    binding and its two states; the Vulkan flags of a state are not modelled. *)

Inductive RenderGraphSyncError :=
| MissingBinding (resource : Z)
| KindMismatch (resource : Z) (graph binding : ResourceKind.t)
| InvalidImageTransition (binding source destination : ResourceKind.t).

Module ResourceBinding.

Inductive t := Buffer (handle : Z) | Image (handle : Z).

Definition kind (self : t) : ResourceKind.t :=
  match self with Buffer _ => ResourceKind.Buffer | Image _ => ResourceKind.Image end.

End ResourceBinding.

Module BarrierBatch.

Definition lowered : Type := Z * ResourceState.t * ResourceState.t.

Record t := mk { buffer_barriers : list lowered; image_barriers : list lowered }.

Definition clear (self : t) : t := mk [] [].

Definition lower_image_transition (binding : ResourceBinding.t) (source destination : ResourceState.t)
    : Outcome RenderGraphSyncError lowered :=
  let source_kind := ResourceState.resource_kind source in
  let destination_kind := ResourceState.resource_kind destination in
  match binding with
  | ResourceBinding.Buffer _ =>
      Err (InvalidImageTransition (ResourceBinding.kind binding) source_kind destination_kind)
  | ResourceBinding.Image image =>
      if negb (bool_decide (source_kind = ResourceKind.Image))
        || negb (bool_decide (destination_kind = ResourceKind.Image))
      then Err (InvalidImageTransition ResourceKind.Image source_kind destination_kind)
      else Ok (image, source, destination)
  end.

(** One iteration of [fill_barrier_batch_before_with]. *)
Definition add_barrier (resolve : Z → option ResourceBinding.t) (batch : t) (barrier : Barrier.t)
    : Outcome RenderGraphSyncError t :=
  match resolve (Barrier.resource barrier) with
  | None => Err (MissingBinding (Barrier.resource barrier))
  | Some binding =>
      if negb (bool_decide (ResourceBinding.kind binding = Barrier.kind barrier)) then
        Err (KindMismatch (Barrier.resource barrier) (Barrier.kind barrier)
          (ResourceBinding.kind binding))
      else match binding with
      | ResourceBinding.Buffer buffer =>
          Ok (mk (buffer_barriers batch ++
            [(buffer, Barrier.source barrier, Barrier.destination barrier)]) (image_barriers batch))
      | ResourceBinding.Image _ =>
          lowered ← lower_image_transition binding (Barrier.source barrier)
            (Barrier.destination barrier);
          Ok (mk (buffer_barriers batch) (image_barriers batch ++ [lowered]))
      end
  end.

End BarrierBatch.

(** The barriers that execute immediately before a pass. *)
Definition barriers_before (self : CompiledGraph.t) (pass : Z) : list Barrier.t :=
  filter (λ barrier, Barrier.after barrier = pass) (CompiledGraph.barriers self).

Definition fill_barrier_batch_before_with (self : CompiledGraph.t) (pass : Z)
    (resolve : Z → option ResourceBinding.t) (batch : BarrierBatch.t)
    : Outcome RenderGraphSyncError BarrierBatch.t :=
  fold_outcome (BarrierBatch.add_barrier resolve) (BarrierBatch.clear batch)
    (barriers_before self pass).

(** ** The unit tests of the source *)

Module Tests.

Definition image_use (resource : Z) (access : AccessKind.t) (state : RenderGraphImageState.t)
    : ResourceUse.t :=
  ResourceUse.mk resource ResourceKind.Image access (ResourceState.Image state 0).

Definition graph (passes : list RenderPass.t) : RenderGraph.t :=
  foldl RenderGraph.add_pass RenderGraph.default passes.

Example write_then_sample_derives_dependency_and_layout_barrier :
  RenderGraph.compile (graph
    [ RenderPass.mk 10 [] [image_use 7 AccessKind.Write RenderGraphImageState.ColorAttachmentWrite];
      RenderPass.mk 20 [] [image_use 7 AccessKind.Read RenderGraphImageState.FragmentSampledRead] ]) =
  Some (Ok (CompiledGraph.mk [10; 20]
    [Barrier.mk 7 ResourceKind.Image (Some 10) 20
      (ResourceState.Image RenderGraphImageState.ColorAttachmentWrite 0)
      (ResourceState.Image RenderGraphImageState.FragmentSampledRead 0)])).
Proof. vm_compute. reflexivity. Qed.

Example initial_image_state_transitions_before_the_first_pass :
  let '(g, _) := RenderGraph.set_initial_state RenderGraph.default 3 ResourceKind.Image
    (ResourceState.Image RenderGraphImageState.Undefined 0) in
  RenderGraph.compile (RenderGraph.add_pass g
    (RenderPass.mk 1 [] [image_use 3 AccessKind.Read RenderGraphImageState.FragmentSampledRead])) =
  Some (Ok (CompiledGraph.mk [1]
    [Barrier.mk 3 ResourceKind.Image None 1
      (ResourceState.Image RenderGraphImageState.Undefined 0)
      (ResourceState.Image RenderGraphImageState.FragmentSampledRead 0)])).
Proof. vm_compute. reflexivity. Qed.

Example state_kind_mismatch_is_rejected_before_barrier_lowering :
  RenderGraph.compile (graph
    [ RenderPass.mk 1 [] [ResourceUse.mk 1 ResourceKind.Buffer AccessKind.Read
        (ResourceState.Image RenderGraphImageState.FragmentSampledRead 0)] ]) =
  Some (Err (ResourceStateKindMismatch 1 ResourceKind.Buffer ResourceKind.Image)).
Proof. vm_compute. reflexivity. Qed.

Example explicit_cycle_is_rejected :
  RenderGraph.compile (graph [RenderPass.mk 1 [2] []; RenderPass.mk 2 [1] []]) = Some (Err Cycle).
Proof. vm_compute. reflexivity. Qed.

End Tests.
