(* ===== verification/GraphSpec.v ===== *)
(** * What compiling a render graph promises

    The order is a greedy topological order of the edges, found exactly when one
    exists; explicit dependencies and barriers are ordered; and a graph whose
    explicit dependencies point backwards is replayed by its barriers. *)

From S2P Require Import Prelude Graph.

Import Topological.

Open Scope nat_scope.

(** ** Orders *)

(** [u] occurs before [v]. *)
Definition precedes {A} (l : list A) (u v : A) : Prop :=
  ∃ l1 l2, l = l1 ++ v :: l2 ∧ u ∈ l1.

(** A linear order of [n] passes that respects the edges. *)
Definition valid_order (n : nat) (edges : gset (nat * nat)) (order : list nat) : Prop :=
  order ≡ₚ seq 0 n ∧ ∀ u v, (u, v) ∈ edges → precedes order u v.

(** Every step takes the least pass whose predecessors are all ordered. *)
Definition greedy (n : nat) (edges : gset (nat * nat)) (order : list nat) : Prop :=
  ∀ l1 v l2, order = l1 ++ v :: l2 →
    ∀ w, w < n → w ∉ l1 → (∀ u, (u, w) ∈ edges → u ∈ l1) → v <= w.

Definition edges_within (n : nat) (edges : gset (nat * nat)) : Prop :=
  ∀ u v, (u, v) ∈ edges → u < n ∧ v < n.

(** ** Building the adjacency *)

Section adjacency.

Context (n : nat).

(** The adjacency of a list of edges: successors in the order of the list and
    the number of predecessors. *)
Definition succs (l : list (nat * nat)) (u : nat) : list nat :=
  omap (λ e : nat * nat, if decide (e.1 = u) then Some e.2 else None) l.

Definition preds (l : list (nat * nat)) (v : nat) : nat :=
  length (filter (λ e : nat * nat, e.2 = v) l).

Definition adjacency (l : list (nat * nat)) (s : list (list nat) * list nat) : Prop :=
  length s.1 = n ∧ length s.2 = n ∧ (∀ e, e ∈ l → e.1 ≠ e.2) ∧
  ∀ u, u < n → s.1 !! u = Some (succs l u) ∧ s.2 !! u = Some (preds l u).

Lemma adjacency_nil : adjacency [] (replicate n [], replicate n O).
Proof.
  split_and!; simpl; [by rewrite length_replicate..|by intros e ?%elem_of_nil|].
  intros u Hu. by rewrite !lookup_replicate_2.
Qed.

Lemma adjacency_snoc l e s s' :
  adjacency l s → add_edge s e = Ok s' → adjacency (l ++ [e]) s'.
Proof.
  intros (Hl1&Hl2&Hne&Hs) E. destruct s as [su ind], e as [u v]. simpl in *.
  destruct (decide (u = v)) as [|Huv]; [done|].
  destruct (su !! u) as [a|] eqn:Eu; [|done]. destruct (ind !! v) as [d|] eqn:Ev; [|done].
  injection E as <-. apply lookup_lt_Some in Eu as Hu. apply lookup_lt_Some in Ev as Hv.
  split_and!; simpl; [by rewrite length_insert..| |].
  - intros e [He| ->%list_elem_of_singleton]%elem_of_app; [by apply Hne|done].
  - intros w Hw. destruct (Hs w Hw) as [Hws Hwp]. unfold succs, preds.
    rewrite omap_app, filter_app, length_app. simpl. split.
    + destruct (decide (u = w)) as [->|Hn].
      * rewrite list_lookup_insert_eq by lia. by simplify_eq.
      * rewrite list_lookup_insert_ne by done. by rewrite app_nil_r.
    + rewrite filter_cons. simpl. destruct (decide (v = w)) as [->|Hn]; simpl.
      * rewrite list_lookup_insert_eq by lia. rewrite Ev in Hwp. injection Hwp as ->.
        unfold preds. f_equal. lia.
      * rewrite list_lookup_insert_ne by done. rewrite Nat.add_0_r. done.
Qed.

(** Edges between different passes in range are all added. *)
Lemma add_edges_ok l k s :
  adjacency k s → (∀ e, e ∈ l → e.1 < n ∧ e.2 < n) →
  match fold_outcome add_edge s l with
  | Ok s' => adjacency (k ++ l) s'
  | Err e => e = Cycle ∧ ∃ e, e ∈ l ∧ e.1 = e.2
  | Panic => False
  end.
Proof.
  revert k s. induction l as [|e l IH]; intros k s Hk Hin; simpl; [by rewrite app_nil_r|].
  destruct (Hin e) as [H1 H2]; [by left|].
  assert (Hstep : add_edge s e = Err Cycle ∧ e.1 = e.2 ∨ ∃ s', add_edge s e = Ok s').
  { destruct Hk as (_&_&_&Hs), s as [su ind], e as [u v]. simpl in *.
    destruct (decide (u = v)); [by left|right].
    destruct (Hs u H1) as [-> _], (Hs v H2) as [_ ->]. by eexists. }
  destruct Hstep as [[-> Heq]|[s' Es]].
  - simpl. split; [done|]. exists e. split; [by left|done].
  - rewrite Es. simpl. pose proof (adjacency_snoc k e s s' Hk Es) as Hk'.
    specialize (IH (k ++ [e]) s' Hk' ltac:(intros; apply Hin; by right)).
    destruct (fold_outcome add_edge s' l) as [s''|er|].
    + by rewrite <- app_assoc in IH.
    + destruct IH as (?&e'&?&?). split; [done|]. exists e'. split; [by right|done].
    + done.
Qed.

Lemma succs_elem l u v : v ∈ succs l u ↔ (u, v) ∈ l.
Proof.
  unfold succs. rewrite list_elem_of_omap. split.
  - intros ([a b]&He&E). simpl in E. case_decide; by simplify_eq.
  - intros He. exists (u, v). split; [done|]. simpl. by rewrite decide_True.
Qed.

Lemma succs_nodup l u : NoDup l → NoDup (succs l u).
Proof.
  unfold succs. induction 1 as [|[a b] l Hn Hnd IH]; simpl; [constructor|].
  case_decide; simplify_eq/=; [|done]. constructor; [|done].
  intros He. apply Hn. by apply succs_elem.
Qed.

End adjacency.

(** ** The main loop *)

(** The predecessors of [v] that are not ordered yet. *)
Definition missing (l : list (nat * nat)) (ordered : list nat) (v : nat) : nat :=
  length (filter (λ e : nat * nat, e.2 = v ∧ e.1 ∉ ordered) l).

Lemma missing_zero l ordered v :
  missing l ordered v = 0 ↔ ∀ u, (u, v) ∈ l → u ∈ ordered.
Proof.
  unfold missing. rewrite length_zero_iff_nil. split.
  - intros E u Hu. destruct (decide (u ∈ ordered)) as [|Hn]; [done|exfalso].
    assert (H : (u, v) ∈ filter (λ e : nat * nat, e.2 = v ∧ e.1 ∉ ordered) l)
      by (by apply list_elem_of_filter).
    rewrite E in H. by apply elem_of_nil in H.
  - intros H. apply filter_none, Forall_forall. intros [u w] He [E Hn]. simpl in *. subst.
    by apply Hn, H.
Qed.

Lemma missing_snoc l ordered i v :
  NoDup l → i ∉ ordered →
  missing l ordered v =
    missing l (ordered ++ [i]) v + (if decide ((i, v) ∈ l) then 1 else 0).
Proof.
  intros Hnd Hi. unfold missing. induction Hnd as [|[a b] l Hn Hnd IH].
  { rewrite decide_False by apply not_elem_of_nil. done. }
  rewrite !filter_cons. simpl.
  assert (Hiff : (i, v) ∈ (a, b) :: l ↔ (a = i ∧ b = v) ∨ (i, v) ∈ l).
  { rewrite elem_of_cons. split; [intros [?|?]; [left; by simplify_eq|by right]|].
    intros [[-> ->]|?]; [by left|by right]. }
  rewrite (decide_ext _ _ _ _ Hiff). clear Hiff.
  assert (Hmem : a ∉ ordered ++ [i] ↔ a ∉ ordered ∧ a ≠ i).
  { rewrite not_elem_of_app, list_elem_of_singleton. done. }
  destruct (decide (b = v ∧ a ∉ ordered)) as [[-> Ha]|Hba].
  - destruct (decide (a = i)) as [->|Hai].
    + rewrite (decide_False (P := v = v ∧ i ∉ ordered ++ [i])) by (rewrite Hmem; tauto).
      rewrite (decide_True (P := i = i ∧ v = v ∨ (i, v) ∈ l)) by (by left).
      rewrite (decide_False (P := (i, v) ∈ l)) in IH by done. simpl. lia.
    + rewrite (decide_True (P := v = v ∧ a ∉ ordered ++ [i])) by (rewrite Hmem; done).
      rewrite (decide_ext (a = i ∧ v = v ∨ (i, v) ∈ l) ((i, v) ∈ l)) by tauto. simpl. lia.
  - rewrite (decide_False (P := b = v ∧ a ∉ ordered ++ [i])) by (rewrite Hmem; tauto).
    rewrite (decide_ext (a = i ∧ b = v ∨ (i, v) ∈ l) ((i, v) ∈ l)); [done|].
    split; [|by right]. intros [[-> ->]|?]; [by destruct Hba|done].
Qed.

(** Relaxing a list of different successors takes one predecessor from each. *)
Lemma relax_spec s ind ready :
  NoDup s → (∀ v, v ∈ s → ∃ d, ind !! v = Some (S d)) →
  ∃ ind' ready', fold_outcome relax (ind, ready) s = Ok (ind', ready') ∧
    length ind' = length ind ∧
    (∀ v, ind' !! v = if decide (v ∈ s) then pred <$> ind !! v else ind !! v) ∧
    (∀ v, v ∈ ready' ↔ v ∈ ready ∨ (v ∈ s ∧ ind !! v = Some 1)).
Proof.
  intros Hnd. revert ind ready. induction Hnd as [|a s Hn Hnd IH]; intros ind ready Hs.
  { exists ind, ready. split; [done|]. split; [done|]. split.
    - intros v. by rewrite decide_False by apply not_elem_of_nil.
    - intros v. split; [by left|]. intros [?|[?%elem_of_nil _]]; done. }
  destruct (Hs a) as [d Ha]; [by left|]. simpl. rewrite Ha. simpl.
  apply lookup_lt_Some in Ha as Hlt.
  destruct (IH (<[a := d]> ind) (if decide (d = 0) then {[a]} ∪ ready else ready))
    as (ind'&ready'&E&Hlen&Hind&Hready).
  { intros v Hv. rewrite list_lookup_insert_ne by (by intros ->). apply Hs. by right. }
  exists ind', ready'. split; [done|]. split; [by rewrite Hlen, length_insert|]. split.
  - intros v. rewrite Hind. destruct (decide (v = a)) as [->|Hva].
    + rewrite decide_False by done. rewrite decide_True by (by left).
      by rewrite list_lookup_insert_eq, Ha by done.
    + rewrite list_lookup_insert_ne by done.
      by rewrite (decide_ext (v ∈ a :: s) (v ∈ s)) by (rewrite elem_of_cons; naive_solver).
  - intros v. rewrite Hready. destruct (decide (v = a)) as [->|Hva].
    + rewrite elem_of_cons. destruct (decide (d = 0)) as [->|Hd].
      * split; [intros _; right; split; [by left|done]|]. intros _. left. set_solver.
      * split; [|intros [?|[_ ?]]; [by left|by simplify_eq]].
        intros [?|[? _]]; [by left|done].
    + rewrite list_lookup_insert_ne by done. rewrite elem_of_cons.
      assert (v ∈ (if decide (d = 0) then {[a]} ∪ ready else ready) ↔ v ∈ ready) as ->
        by (case_decide; set_solver).
      naive_solver.
Qed.

Lemma pop_first_none ready : pop_first ready = None ↔ ready = ∅.
Proof.
  unfold pop_first. destruct (merge_sort le (elements ready)) as [|i l] eqn:E.
  - split; [intros _|done]. apply leibniz_equiv, elements_empty_iff.
    apply Permutation_nil_r. rewrite <- E. symmetry. apply merge_sort_Permutation.
  - split; [done|]. intros ->. by rewrite elements_empty in E.
Qed.

Lemma pop_first_some ready i ready' :
  pop_first ready = Some (i, ready') →
  i ∈ ready ∧ ready' = ready ∖ {[i]} ∧ ∀ j, j ∈ ready → i <= j.
Proof.
  unfold pop_first. destruct (merge_sort le (elements ready)) as [|i' l] eqn:E; [done|].
  intros [= -> <-]. pose proof (merge_sort_Permutation le (elements ready)) as Hp.
  assert (Hin : ∀ j, j ∈ ready ↔ j ∈ i :: l)
    by (intros j; rewrite <- elem_of_elements, <- E, Hp; done).
  split; [apply Hin; by left|]. split; [done|]. intros j Hj.
  pose proof (StronglySorted_merge_sort le (elements ready)) as Hs. rewrite E in Hs.
  apply StronglySorted_cons in Hs as [Hall _]. rewrite Forall_forall in Hall.
  apply Hin in Hj. apply elem_of_cons in Hj as [->|Hj]; [done|by apply Hall].
Qed.

Section ordering.

Context (n : nat) (l : list (nat * nat)).

Context (Hnd : NoDup l) (Hin : ∀ u v, (u, v) ∈ l → u < n ∧ v < n)
  (Hirr : ∀ u v, (u, v) ∈ l → u ≠ v).

(** What an iteration knows. *)
Record ordering (indegrees : list nat) (ready : gset nat) (ordered : list nat) : Prop := {
  ordering_length : length indegrees = n;
  ordering_missing v : v < n → v ∉ ordered → indegrees !! v = Some (missing l ordered v);
  ordering_ready v : v ∈ ready ↔ v < n ∧ v ∉ ordered ∧ missing l ordered v = 0;
  ordering_nodup : NoDup ordered;
  ordering_bound v : v ∈ ordered → v < n;
  ordering_before l1 v l2 u : ordered = l1 ++ v :: l2 → (u, v) ∈ l → u ∈ l1;
  ordering_greedy l1 v l2 w : ordered = l1 ++ v :: l2 → w < n → w ∉ l1 →
    (∀ u, (u, w) ∈ l → u ∈ l1) → v <= w }.

Lemma app_snoc_split {A} (k : list A) i l1 v l2 :
  k ++ [i] = l1 ++ v :: l2 →
  (l2 = [] ∧ v = i ∧ k = l1) ∨ ∃ l2', l2 = l2' ++ [i] ∧ k = l1 ++ v :: l2'.
Proof.
  destruct l2 as [|x l2 _] using rev_ind; intros E.
  - left. apply app_inj_2 in E as [-> E]; [by simplify_eq|done].
  - right. exists l2. rewrite app_comm_cons, app_assoc in E.
    apply app_inj_2 in E as [-> E]; [|done]. by simplify_eq.
Qed.

Lemma ordering_step indegrees ready ordered i :
  ordering indegrees ready ordered → i ∈ ready → (∀ j, j ∈ ready → i <= j) →
  ∃ indegrees' ready',
    fold_outcome relax (indegrees, ready ∖ {[i]}) (succs l i) = Ok (indegrees', ready') ∧
    ordering indegrees' ready' (ordered ++ [i]).
Proof.
  intros [Hlen Hmis Hrdy Hno Hbd Hbef Hgr] Hi Hmin.
  apply Hrdy in Hi as (Hin_n&Hio&Hi0).
  assert (Hsucc : ∀ v, v ∈ succs l i → v < n ∧ v ∉ ordered ∧
    missing l ordered v = S (missing l (ordered ++ [i]) v)).
  { intros v Hv%succs_elem. destruct (Hin i v Hv). split; [done|].
    pose proof (missing_snoc l ordered i v Hnd Hio) as E. rewrite decide_True in E by done.
    split; [|lia]. intros Hvo. apply list_elem_of_split in Hvo as (l1&l2&->).
    apply Hio. apply elem_of_app. left. by apply (Hbef l1 v l2). }
  destruct (relax_spec (succs l i) indegrees (ready ∖ {[i]})) as (ind'&ready'&E&Hl'&Hi'&Hr').
  { by apply succs_nodup. }
  { intros v Hv. destruct (Hsucc v Hv) as (Hvn&Hvo&Em). exists (missing l (ordered ++ [i]) v).
    by rewrite Hmis, Em. }
  exists ind', ready'. split; [done|]. split.
  - congruence.
  - intros v Hv [Hvo Hvi]%not_elem_of_app. rewrite Hi'.
    pose proof (missing_snoc l ordered i v Hnd Hio) as Em.
    destruct (decide (v ∈ succs l i)) as [Hs|Hs].
    + destruct (Hsucc v Hs) as (_&_&Es). rewrite Hmis, Es by done. done.
    + rewrite Hmis by done. rewrite decide_False in Em by (by rewrite <- succs_elem).
      f_equal. lia.
  - intros v. rewrite Hr', elem_of_difference, elem_of_singleton, Hrdy.
    pose proof (missing_snoc l ordered i v Hnd Hio) as Em.
    rewrite not_elem_of_app, list_elem_of_singleton. rewrite succs_elem. split.
    + intros [[(?&?&?) ?]|[Hs E1]].
      * split_and!; [done|done|done|lia].
      * pose proof (Hsucc v ltac:(by apply succs_elem)) as (?&?&Es).
        rewrite Hmis in E1 by done. injection E1 as E1.
        split_and!; [done|done| |lia]. intros ->. by apply (Hirr i i).
    + intros (Hvn&[Hvo Hvi]&E0). destruct (decide ((i, v) ∈ l)) as [Hs|Hs].
      * right. split; [done|]. rewrite Hmis by done. f_equal. lia.
      * left. split; [|done]. split_and!; [done|done|lia].
  - apply NoDup_app. split_and!; [done| |apply NoDup_singleton].
    intros v Hv ->%list_elem_of_singleton. done.
  - intros v [Hv| ->%list_elem_of_singleton]%elem_of_app; [by apply Hbd|done].
  - intros l1 v l2 u [(->&->&->)|(l2'&->&->)]%app_snoc_split Hu; [|by apply (Hbef l1 v l2')].
    pose proof (proj1 (missing_zero l l1 i) Hi0). auto.
  - intros l1 v l2 w [(->&->&->)|(l2'&->&->)]%app_snoc_split Hw Hwl Hpre;
      [|by apply (Hgr l1 v l2')].
    apply Hmin, Hrdy. split_and!; [done|done|]. by apply missing_zero.
Qed.

(** The loop ends with an empty set of ready passes. *)
Lemma order_loop_spec fuel successors indegrees ready ordered :
  length successors = n → (∀ u, u < n → successors !! u = Some (succs l u)) →
  ordering indegrees ready ordered → n <= length ordered + fuel →
  ∃ indegrees' ordered', order_loop fuel successors indegrees ready ordered = Some (Ok ordered') ∧
    ordering indegrees' ∅ ordered'.
Proof.
  intros Hsl Hs. revert indegrees ready ordered.
  induction fuel as [|fuel IH]; intros indegrees ready ordered Ho Hf; simpl.
  - destruct (pop_first ready) as [[i r]|] eqn:E.
    + exfalso. apply pop_first_some in E as (Hi&_&_). apply (ordering_ready _ _ _ Ho) in Hi as (Hi&Hni&_).
      assert (Hle : length (i :: ordered) <= length (seq 0 n)).
      { apply submseteq_length, NoDup_submseteq.
        - apply NoDup_cons. split; [done|]. apply Ho.
        - intros x [->|Hx]%elem_of_cons; apply elem_of_seq; [lia|].
          pose proof (ordering_bound _ _ _ Ho x Hx). lia. }
      rewrite length_seq in Hle. simpl in Hle. lia.
    + apply pop_first_none in E as ->. by exists indegrees, ordered.
  - destruct (pop_first ready) as [[i r]|] eqn:E.
    2: { apply pop_first_none in E as ->. by exists indegrees, ordered. }
    apply pop_first_some in E as (Hi&->&Hmin).
    pose proof (proj1 (ordering_ready _ _ _ Ho i) Hi) as (Hin'&_).
    rewrite Hs by done.
    destruct (ordering_step indegrees ready ordered i Ho Hi Hmin) as (ind'&r'&->&Ho').
    apply (IH ind' r' (ordered ++ [i]) Ho'). rewrite length_app. simpl. lia.
Qed.

End ordering.

(** ** The order of the edges *)

Section result.

Context (n : nat) (edges : gset (nat * nat)) (l : list (nat * nat)).

Context (Hw : edges_within n edges) (Hl : ∀ e, e ∈ l ↔ e ∈ edges).

Lemma missing_nil v : missing l [] v = preds l v.
Proof.
  unfold preds, missing. f_equal. apply list_filter_iff. intros e. split; [by intros []|].
  intros ?. split; [done|apply not_elem_of_nil].
Qed.

(** Before the first iteration. *)
Lemma ordering_initial s :
  adjacency n l s →
  ordering n l s.2 (list_to_set (filter (λ i, s.2 !! i = Some 0) (seq 0 n))) [].
Proof.
  intros (Hl1&Hl2&Hirr&Hadj). split; try done.
  - intros v Hv _. rewrite missing_nil. by apply Hadj.
  - intros v. rewrite elem_of_list_to_set, list_elem_of_filter, elem_of_seq, missing_nil. split.
    + intros [E ?]. destruct (Hadj v ltac:(lia)) as [_ E']. rewrite E' in E.
      split_and!; [lia|apply not_elem_of_nil|congruence].
    + intros (Hv&_&E). destruct (Hadj v Hv) as [_ ->]. split; [by rewrite E|lia].
  - constructor.
  - by intros v ?%elem_of_nil.
  - intros l1 v l2 u E. by destruct l1.
  - intros l1 v l2 w E. by destruct l1.
Qed.

Context (indegrees ordered : list nat) (Ho : ordering n l indegrees ∅ ordered).

Lemma ordered_submseteq : ordered ⊆+ seq 0 n.
Proof.
  apply NoDup_submseteq; [apply Ho|]. intros v Hv. apply elem_of_seq.
  pose proof (ordering_bound _ _ _ _ _ Ho v Hv). lia.
Qed.

(** All passes are ordered. *)
Lemma ordered_valid :
  length ordered = n → valid_order n edges ordered ∧ greedy n edges ordered.
Proof.
  intros Hlen. assert (Hp : ordered ≡ₚ seq 0 n).
  { apply submseteq_length_Permutation; [apply ordered_submseteq|]. rewrite length_seq. lia. }
  split; [split; [done|]|].
  - intros u v He. assert (Hv : v ∈ ordered).
    { rewrite Hp. apply elem_of_seq. specialize (Hw u v He). lia. }
    apply list_elem_of_split in Hv as (l1&l2&E). exists l1, l2. split; [done|].
    apply (ordering_before _ _ _ _ _ Ho l1 v l2); [done|by apply Hl].
  - intros l1 v l2 E w Hwn Hwl1 Hpre.
    apply (ordering_greedy _ _ _ _ _ Ho l1 v l2 w E Hwn Hwl1). intros u ?%Hl. by apply Hpre.
Qed.

(** When no pass is ready, every valid order would consist of ordered passes. *)
Lemma valid_order_ordered order k :
  valid_order n edges order → k <= n → ∀ v, v ∈ take k order → v ∈ ordered.
Proof.
  intros [Hp Hord]. induction k as [|k IH]; intros Hk v Hv; [by apply elem_of_nil in Hv|].
  assert (Hlo : length order = n) by (by rewrite Hp, length_seq).
  destruct (lookup_lt_is_Some_2 order k) as [x Ek]; [lia|].
  rewrite (take_S_r _ _ _ Ek) in Hv.
  apply elem_of_app in Hv as [Hv| ->%list_elem_of_singleton]; [apply IH; [lia|done]|].
  destruct (decide (x ∈ ordered)) as [|Hx]; [done|exfalso].
  assert (Hxn : x < n).
  { assert (Hxo : x ∈ order) by (by eapply list_elem_of_lookup_2).
    rewrite Hp in Hxo. apply elem_of_seq in Hxo. lia. }
  assert (Hr : x ∈ (∅ : gset nat)); [|by apply elem_of_empty in Hr].
  apply (ordering_ready _ _ _ _ _ Ho). split_and!; [done|done|].
  apply missing_zero. intros u Hu%Hl. apply IH; [lia|].
  destruct (Hord u x Hu) as (l1&l2&E&Hul).
  assert (length l1 = k) as <-; [|by rewrite E, take_app_length].
  apply (NoDup_lookup order (length l1) k x); [|by rewrite E; apply list_lookup_middle|done].
  rewrite Hp. apply NoDup_seq.
Qed.

Lemma stuck_no_order : length ordered ≠ n → ∀ order, ¬ valid_order n edges order.
Proof.
  intros Hlen order Hv. apply Hlen. pose proof Hv as [Hp _].
  assert (Hsub : seq 0 n ⊆+ ordered).
  { rewrite <- Hp. apply NoDup_submseteq; [rewrite Hp; apply NoDup_seq|].
    intros v Hvo. apply (valid_order_ordered order n Hv ltac:(lia)). rewrite take_ge; [done|].
    rewrite Hp, length_seq. lia. }
  pose proof ordered_submseteq as Hsub'. apply submseteq_length in Hsub, Hsub'.
  rewrite length_seq in *. lia.
Qed.

End result.

(** A pass that precedes itself cannot be ordered. *)
Lemma loop_no_order n edges v order : (v, v) ∈ edges → ¬ valid_order n edges order.
Proof.
  intros He [Hp Hord]. destruct (Hord v v He) as (l1&l2&->&Hv).
  assert (Hno : NoDup (l1 ++ v :: l2)) by (rewrite Hp; apply NoDup_seq).
  apply NoDup_app in Hno as (_&Hno&_). apply (Hno v Hv). by left.
Qed.

Lemma topological_order_spec n edges :
  edges_within n edges →
  match topological_order n edges with
  | Some (Ok order) => valid_order n edges order ∧ greedy n edges order
  | Some (Err e) => e = Cycle ∧ ∀ order, ¬ valid_order n edges order
  | _ => False
  end.
Proof.
  intros Hw. unfold topological_order. set (l := sort_by_key _ (elements edges)).
  assert (Hl : ∀ e, e ∈ l ↔ e ∈ edges)
    by (intros e; unfold l; by rewrite sort_by_key_elem, elem_of_elements).
  assert (Hwl : ∀ u v, (u, v) ∈ l → u < n ∧ v < n) by (intros u v ?%Hl; by apply Hw).
  pose proof (add_edges_ok n l [] _ (adjacency_nil n) ltac:(intros []; apply Hwl)) as Hadd.
  destruct (fold_outcome add_edge _ l) as [[successors indegrees]|e|]; [| |done].
  2: { destruct Hadd as (->&[u v]&He%Hl&Heq). simpl in Heq. subst.
    split; [done|]. intros order. by apply (loop_no_order n edges v). }
  pose proof (ordering_initial n l _ Hadd) as Hinit.
  destruct Hadd as (Hl1&_&Hirr&Hadj). simpl in *.
  destruct (order_loop_spec n l ltac:(unfold l; rewrite sort_by_key_perm; apply NoDup_elements)
    Hwl ltac:(intros u v He; apply (Hirr (u, v) He)) n successors indegrees _ [] Hl1
    (λ u Hu, proj1 (Hadj u Hu)) Hinit) as (ind'&ordered&->&Ho); [simpl; lia|].
  case_decide as Hlen.
  - by apply (ordered_valid n edges l Hw Hl ind').
  - split; [done|]. by apply (stuck_no_order n edges l Hl ind' ordered).
Qed.

(** ** Replaying a compiled graph

    A resource is in one state at a time. Before a pass, its barriers are
    executed; each one expects its source state. Then the pass uses its
    resources, each in the state it asks for; a resource that was not declared
    enters in the state of its first use. *)

Abbreviation states := (gmap Z ResourceState.t).

Definition execute_barrier (s : states) (b : Barrier.t) : option states :=
  st ← s !! Barrier.resource b;
  if decide (st = Barrier.source b) then Some (<[Barrier.resource b := Barrier.destination b]> s)
  else None.

Definition execute_use (s : states) (u : ResourceUse.t) : option states :=
  match s !! ResourceUse.resource u with
  | Some st => if decide (st = ResourceUse.state u) then Some s else None
  | None => Some (<[ResourceUse.resource u := ResourceUse.state u]> s)
  end.

Fixpoint execute {A} (f : states → A → option states) (s : states) (l : list A) : option states :=
  match l with
  | [] => Some s
  | a :: l => s ← f s a; execute f s l
  end.

Definition execute_pass (barriers : list Barrier.t) (s : states) (p : RenderPass.t)
    : option states :=
  s ← execute execute_barrier s
    (filter (λ b, Barrier.after b = RenderPass.id p) barriers);
  execute execute_use s (RenderPass.resources p).

Definition initial_state (g : RenderGraph.t) : states := snd <$> RenderGraph.initial_states g.

Lemma execute_app {A} (f : states → A → option states) s l k :
  execute f s (l ++ k) = execute f s l ≫= λ s, execute f s k.
Proof.
  revert s. induction l as [|a l IH]; intros s; simpl; [done|]. destruct (f s a); simpl; [apply IH|done].
Qed.

(** Using different resources that are in their states or not declared. *)
Lemma execute_uses l s :
  NoDup (ResourceUse.resource <$> l) →
  (∀ u, u ∈ l → s !! ResourceUse.resource u = None ∨
    s !! ResourceUse.resource u = Some (ResourceUse.state u)) →
  ∃ s', execute execute_use s l = Some s' ∧
    (∀ u, u ∈ l → s' !! ResourceUse.resource u = Some (ResourceUse.state u)) ∧
    (∀ r, r ∉ ResourceUse.resource <$> l → s' !! r = s !! r).
Proof.
  revert s. induction l as [|u l IH]; intros s Hnd Hs; simpl in *.
  { exists s. split; [done|]. split; [by intros u ?%elem_of_nil|done]. }
  apply NoDup_cons in Hnd as [Hu Hnd].
  assert (Hstep : ∃ s1, execute_use s u = Some s1 ∧
    s1 !! ResourceUse.resource u = Some (ResourceUse.state u) ∧
    ∀ r, r ≠ ResourceUse.resource u → s1 !! r = s !! r).
  { unfold execute_use. destruct (Hs u) as [E|E]; [by left|..]; rewrite E.
    - eexists. split; [done|]. split; [by rewrite lookup_insert_eq|].
      intros r Hr. by rewrite lookup_insert_ne by done.
    - rewrite decide_True by done. by exists s. }
  destruct Hstep as (s1&->&Es1&Hne). simpl.
  assert (Hin : ∀ v, v ∈ l → ResourceUse.resource v ≠ ResourceUse.resource u).
  { intros v Hv E. apply Hu. rewrite <- E. by apply list_elem_of_fmap_2. }
  destruct (IH s1 Hnd) as (s'&E&Hs'&Hout).
  { intros v Hv. rewrite Hne by (by apply Hin). apply Hs. by right. }
  exists s'. split; [done|]. split.
  - intros v [->|Hv]%elem_of_cons; [by rewrite Hout|by apply Hs'].
  - intros r [Hr1 Hr2]%not_elem_of_cons. by rewrite Hout, Hne.
Qed.

(** ** The derived edges *)

Section compiling.

Context (g : RenderGraph.t).

Abbreviation passes := (RenderGraph.passes g).

Lemma enumerate_lookup ps i :
  RenderGraph.enumerate ps !! i = (λ p, (i, p)) <$> ps !! i.
Proof.
  unfold RenderGraph.enumerate. rewrite lookup_zip_with.
  destruct (ps !! i) as [p|] eqn:E; simpl.
  - apply lookup_lt_Some in E. by rewrite lookup_seq_lt by lia.
  - apply lookup_ge_None in E. by rewrite lookup_seq_ge by lia.
Qed.

Lemma enumerate_elem ps i p : (i, p) ∈ RenderGraph.enumerate ps ↔ ps !! i = Some p.
Proof.
  rewrite list_elem_of_lookup. split.
  - intros [j E]. rewrite enumerate_lookup in E. destruct (ps !! j) eqn:Ej; simpl in E; by simplify_eq.
  - intros E. exists i. by rewrite enumerate_lookup, E.
Qed.

Lemma enumerate_snd ps : (RenderGraph.enumerate ps).*2 = ps.
Proof. apply list_eq. intros i. rewrite list_lookup_fmap, enumerate_lookup. by destruct (ps !! i). Qed.

(** The entry after a prefix: its index is the length of the prefix. *)
Lemma enumerate_split ps k i p rest :
  RenderGraph.enumerate ps = k ++ (i, p) :: rest →
  i = length k ∧ ps !! i = Some p ∧ k.*2 = take i ps ∧ ∀ j q, (j, q) ∈ k → j < i ∧ ps !! j = Some q.
Proof.
  intros E. assert (Ei : RenderGraph.enumerate ps !! length k = Some (i, p))
    by (rewrite E; by apply list_lookup_middle).
  rewrite enumerate_lookup in Ei. destruct (ps !! length k) as [q|] eqn:Eq; [|done].
  simpl in Ei. simplify_eq. split; [done|]. split; [done|]. split.
  - rewrite <- (enumerate_snd ps), E, fmap_app, take_app_le by (by rewrite length_fmap).
    by rewrite take_ge by (by rewrite length_fmap).
  - intros j q [m Hm]%list_elem_of_lookup. apply lookup_lt_Some in Hm as Hlt.
    assert (Em : RenderGraph.enumerate ps !! m = Some (j, q)) by (rewrite E; by rewrite lookup_app_l).
    rewrite enumerate_lookup in Em. destruct (ps !! m) eqn:Epm; simpl in Em; by simplify_eq.
Qed.

(** The index of every pass by its identifier. *)
Definition indexed (k : list (nat * RenderPass.t)) (m : gmap Z nat) : Prop :=
  ∀ id i, m !! id = Some i ↔ ∃ p, (i, p) ∈ k ∧ RenderPass.id p = id.

Lemma index_passes_spec :
  match fold_outcome RenderGraph.index_pass ∅ (RenderGraph.enumerate passes) with
  | Ok m => indexed (RenderGraph.enumerate passes) m
  | Err _ => True
  | Panic => False
  end.
Proof.
  apply (fold_outcome_spec _ indexed).
  - intros id i. rewrite lookup_empty. split; [done|]. by intros (p&?%elem_of_nil&_).
  - intros k [i p] rest m _ Hm. simpl. destruct (m !! RenderPass.id p) eqn:E; [done|].
    intros id j. rewrite lookup_insert_Some, (Hm id j). split.
    + intros [[<- <-]|[_ (q&Hq&?)]]; [exists p|exists q]; (split; [set_solver|done]).
    + intros (q&[Hq|Hq%list_elem_of_singleton]%elem_of_app&<-); [right|left; by simplify_eq].
      split; [|by exists q]. intros Eid.
      assert (Hs : m !! RenderPass.id p = Some j) by (apply Hm; by exists q). congruence.
Qed.

(** The explicit dependencies as edges. *)
Definition depends (m : gmap Z nat) (k : list (nat * RenderPass.t)) (u v : nat) : Prop :=
  ∃ p d, (v, p) ∈ k ∧ d ∈ RenderPass.depends_on p ∧ m !! d = Some u.

Lemma add_dependency_spec m i p edges :
  match fold_outcome (RenderGraph.add_dependency m i p) edges (RenderPass.depends_on p) with
  | Ok e => (∀ u v, (u, v) ∈ e ↔
      (u, v) ∈ edges ∨ (v = i ∧ ∃ d, d ∈ RenderPass.depends_on p ∧ m !! d = Some u)) ∧
      ∀ d, d ∈ RenderPass.depends_on p → is_Some (m !! d)
  | Err _ => True
  | Panic => False
  end.
Proof.
  apply (fold_outcome_spec _ (λ ds (e : gset (nat * nat)), (∀ u v, (u, v) ∈ e ↔
    (u, v) ∈ edges ∨ (v = i ∧ ∃ d, d ∈ ds ∧ m !! d = Some u)) ∧
    ∀ d, d ∈ ds → is_Some (m !! d))).
  - split; [|by intros d ?%elem_of_nil]. intros a b. split; [by left|].
    intros [?|(_&d&?%elem_of_nil&_)]; done.
  - intros ds d rest e _ [He Hds]. unfold RenderGraph.add_dependency.
    destruct (m !! d) as [w|] eqn:Ed; [|done]. split.
    + intros a b. rewrite elem_of_union, elem_of_singleton, He. setoid_rewrite elem_of_app.
      setoid_rewrite list_elem_of_singleton. naive_solver.
    + intros d' [?| ->%list_elem_of_singleton]%elem_of_app; [by apply Hds|done].
Qed.

Lemma add_dependencies_spec m :
  match fold_outcome (RenderGraph.add_dependencies m) ∅ (RenderGraph.enumerate passes) with
  | Ok edges => (∀ u v, (u, v) ∈ edges ↔ depends m (RenderGraph.enumerate passes) u v) ∧
      ∀ v p d, (v, p) ∈ RenderGraph.enumerate passes → d ∈ RenderPass.depends_on p →
        is_Some (m !! d)
  | Err _ => True
  | Panic => False
  end.
Proof.
  apply (fold_outcome_spec _ (λ k (edges : gset (nat * nat)),
    (∀ u v, (u, v) ∈ edges ↔ depends m k u v) ∧
    ∀ v p d, (v, p) ∈ k → d ∈ RenderPass.depends_on p → is_Some (m !! d))).
  - split; [|by intros v p d ?%elem_of_nil].
    intros u v. split; [set_solver|]. by intros (p&d&?%elem_of_nil&_).
  - intros k [i p] rest edges _ [Hk Hres]. simpl.
    pose proof (add_dependency_spec m i p edges) as Hin.
    destruct (fold_outcome _ edges _) as [e| |]; [|done|done]. destruct Hin as [Hin Hsome]. split.
    + intros u v. rewrite Hin, Hk. unfold depends. split.
      * intros [(q&d&?&?&?)|(->&d&?&?)]; [exists q, d|exists p, d]; split_and!; try done; set_solver.
      * intros (q&d&[Hq|Hq%list_elem_of_singleton]%elem_of_app&?&?); [left; by exists q, d|right].
        simplify_eq. split; [done|]. by exists d.
    + intros v q d [?|Hq%list_elem_of_singleton]%elem_of_app Hd; [by apply (Hres v q)|].
      simplify_eq. by apply Hsome.
Qed.

(** ** The uses of one pass *)

(** What the loops know of the derived state after the passes below [n]. *)
Record derived_ok (E0 : gset (nat * nat)) (n : nat) (d : RenderGraph.Derived.t) : Prop := {
  derived_edges u v : (u, v) ∈ RenderGraph.Derived.edges d → (u, v) ∈ E0 ∨ (u < v ∧ v < n);
  derived_explicit : E0 ⊆ RenderGraph.Derived.edges d;
  derived_previous r before use : RenderGraph.Derived.previous d !! r = Some (before, use) →
    ResourceUse.kind use = ResourceState.resource_kind (ResourceUse.state use) ∧
    ∀ u, before = Some u → u < n;
  derived_barriers b : b ∈ RenderGraph.Derived.barriers d →
    Barrier.kind b = ResourceState.resource_kind (Barrier.source b) ∧
    Barrier.kind b = ResourceState.resource_kind (Barrier.destination b) ∧
    ∃ v q, v < n ∧ passes !! v = Some q ∧ Barrier.after b = RenderPass.id q ∧
      ∀ x, Barrier.before b = Some x → ∃ u q', passes !! u = Some q' ∧ RenderPass.id q' = x ∧
        (u, v) ∈ RenderGraph.Derived.edges d }.

(** The states that the last uses leave the resources in. *)
Definition tracks (d : RenderGraph.Derived.t) (s : states) : Prop :=
  ∀ r, s !! r = ResourceUse.state ∘ snd <$> RenderGraph.Derived.previous d !! r.

Section uses.

Context (E0 : gset (nat * nat)) (i : nat) (p : RenderPass.t) (d0 : RenderGraph.Derived.t)
  (s0 : states).

Context (Hp : passes !! i = Some p) (Hd0 : derived_ok E0 i d0) (Ht : tracks d0 s0).

Record in_use (ks : list ResourceUse.t) (s : gset Z * RenderGraph.Derived.t) : Prop := {
  using_ok : derived_ok E0 (S i) s.2;
  using_in r : r ∈ s.1 ↔ r ∈ ResourceUse.resource <$> ks;
  using_nodup : NoDup (ResourceUse.resource <$> ks);
  using_done u : u ∈ ks →
    RenderGraph.Derived.previous s.2 !! ResourceUse.resource u = Some (Some i, u);
  using_rest r : r ∉ s.1 →
    RenderGraph.Derived.previous s.2 !! r = RenderGraph.Derived.previous d0 !! r;
  using_barriers : ∃ new s', RenderGraph.Derived.barriers s.2 =
      RenderGraph.Derived.barriers d0 ++ new ∧
    Forall (λ b, Barrier.after b = RenderPass.id p) new ∧
    execute execute_barrier s0 new = Some s' ∧
    (∀ u, u ∈ ks → s' !! ResourceUse.resource u = None ∨
      s' !! ResourceUse.resource u = Some (ResourceUse.state u)) ∧
    (∀ r, r ∉ s.1 → s' !! r = s0 !! r) }.

Lemma using_initial : in_use [] (∅, d0).
Proof.
  split; simpl; try done.
  - destruct Hd0 as [He Hx Hpr Hb]. split.
    + intros u v [?|[? ?]]%He; [by left|right; lia].
    + done.
    + intros r before use E. destruct (Hpr r before use E) as [? Hlt].
      split; [done|]. intros u Hu. specialize (Hlt u Hu). lia.
    + intros b Hbin. destruct (Hb b Hbin) as (?&?&v&q&?&?). split; [done|]. split; [done|].
      exists v, q. split; [lia|done].
  - intros r. set_solver.
  - constructor.
  - by intros u ?%elem_of_nil.
  - exists [], s0. rewrite app_nil_r. split; [done|]. split; [constructor|]. split; [done|].
    split; [by intros u ?%elem_of_nil|done].
Qed.

(** The state after a use: the new edge, barrier and last use. *)
Lemma derived_ok_use d (edge : option nat) (new : list Barrier.t) u :
  derived_ok E0 (S i) d →
  ResourceUse.kind u = ResourceState.resource_kind (ResourceUse.state u) →
  (∀ j, edge = Some j → j < i) →
  (∀ b, b ∈ new → Barrier.kind b = ResourceState.resource_kind (Barrier.source b) ∧
    Barrier.kind b = ResourceState.resource_kind (Barrier.destination b) ∧
    Barrier.after b = RenderPass.id p ∧
    ∀ x, Barrier.before b = Some x → ∃ j q, edge = Some j ∧ passes !! j = Some q ∧
      RenderPass.id q = x) →
  derived_ok E0 (S i) (RenderGraph.Derived.mk
    (<[ResourceUse.resource u := (Some i, u)]> (RenderGraph.Derived.previous d))
    (match edge with
     | Some j => {[(j, i)]} ∪ RenderGraph.Derived.edges d
     | None => RenderGraph.Derived.edges d
     end)
    (RenderGraph.Derived.barriers d ++ new)).
Proof.
  intros [He Hx Hpr Hb] Hk Hedge Hnew.
  assert (Hsub : RenderGraph.Derived.edges d ⊆ match edge with
     | Some j => {[(j, i)]} ∪ RenderGraph.Derived.edges d
     | None => RenderGraph.Derived.edges d
     end) by (destruct edge; set_solver).
  split; simpl.
  - intros a b Hab. destruct edge as [j|]; [|by apply He].
    apply elem_of_union in Hab as [[= -> ->]%elem_of_singleton|?]; [right|by apply He].
    specialize (Hedge j eq_refl). lia.
  - set_solver.
  - intros r before use [[<- [= <- <-]]|[_ E]]%lookup_insert_Some; [|by apply (Hpr r)].
    split; [done|]. intros a [= <-]. lia.
  - intros b [Hbin|Hbin]%elem_of_app.
    + destruct (Hb b Hbin) as (?&?&v&q&?&?&?&Hx'). split; [done|]. split; [done|].
      exists v, q. split; [done|]. split; [done|]. split; [done|].
      intros x Hbx. destruct (Hx' x Hbx) as (a&q'&?&?&?). exists a, q'. set_solver.
    + destruct (Hnew b Hbin) as (?&?&?&Hx'). split; [done|]. split; [done|].
      exists i, p. split; [lia|]. split; [done|]. split; [done|].
      intros x Hbx. destruct (Hx' x Hbx) as (j&q&->&?&?). exists j, q. set_solver.
Qed.

(** One more use: the barriers so far, and the new one, still execute. *)
Lemma using_finish ks inp d u (edge : option nat) new :
  in_use ks (inp, d) → ResourceUse.resource u ∉ inp →
  derived_ok E0 (S i) (RenderGraph.Derived.mk
    (<[ResourceUse.resource u := (Some i, u)]> (RenderGraph.Derived.previous d))
    (match edge with
     | Some j => {[(j, i)]} ∪ RenderGraph.Derived.edges d
     | None => RenderGraph.Derived.edges d
     end)
    (RenderGraph.Derived.barriers d ++ new)) →
  Forall (λ b, Barrier.after b = RenderPass.id p) new →
  (∀ s', s' !! ResourceUse.resource u = s0 !! ResourceUse.resource u → ∃ s'',
    execute execute_barrier s' new = Some s'' ∧
    (s'' !! ResourceUse.resource u = None ∨
      s'' !! ResourceUse.resource u = Some (ResourceUse.state u)) ∧
    ∀ r, r ≠ ResourceUse.resource u → s'' !! r = s' !! r) →
  in_use (ks ++ [u]) ({[ResourceUse.resource u]} ∪ inp, RenderGraph.Derived.mk
    (<[ResourceUse.resource u := (Some i, u)]> (RenderGraph.Derived.previous d))
    (match edge with
     | Some j => {[(j, i)]} ∪ RenderGraph.Derived.edges d
     | None => RenderGraph.Derived.edges d
     end)
    (RenderGraph.Derived.barriers d ++ new)).
Proof.
  intros [Hok Hin Hnd Hdone Hrest (old&s'&Eb&Hold&Es&Huse&Hs')] Hu Hok' Hnew Hx. simpl in *.
  assert (Hne : ∀ w, w ∈ ks → ResourceUse.resource w ≠ ResourceUse.resource u).
  { intros w Hw E. apply Hu. rewrite <- E. by apply Hin, list_elem_of_fmap_2. }
  destruct (Hx s') as (s''&Es''&Hsu&Hsr); [by apply Hs'|].
  split; simpl; try done.
  - intros r. rewrite fmap_app, elem_of_app, elem_of_union, elem_of_singleton, Hin. simpl.
    rewrite list_elem_of_singleton. tauto.
  - rewrite fmap_app. apply NoDup_app. split_and!; [done| |apply NoDup_singleton].
    intros r Hr ->%list_elem_of_singleton. by apply Hu, Hin.
  - intros w [Hw| ->%list_elem_of_singleton]%elem_of_app; [|by rewrite lookup_insert_eq].
    rewrite lookup_insert_ne by (symmetry; by apply Hne). by apply Hdone.
  - intros r Hr. rewrite lookup_insert_ne by set_solver. apply Hrest. set_solver.
  - exists (old ++ new), s''. split; [by rewrite Eb, app_assoc|]. split; [by apply Forall_app|].
    split; [by rewrite execute_app, Es|]. split.
    + intros w [Hw| ->%list_elem_of_singleton]%elem_of_app; [|done].
      rewrite Hsr by (by apply Hne). by apply Huse.
    + intros r Hr. rewrite Hsr by set_solver. apply Hs'. set_solver.
Qed.

Lemma use_resource_step ks s u :
  in_use ks s →
  match RenderGraph.use_resource g i p s u with
  | Ok s' => in_use (ks ++ [u]) s'
  | Err _ => True
  | Panic => False
  end.
Proof.
  intros Hs. destruct s as [inp d]. unfold RenderGraph.use_resource.
  case_bool_decide as Hk; simpl; [|done]. case_bool_decide as Hu; [done|].
  pose proof (using_rest _ _ Hs _ Hu) as Hpre. simpl in Hpre.
  pose proof (using_ok _ _ Hs) as Hok. simpl in Hok. rewrite Hpre.
  pose proof (Ht (ResourceUse.resource u)) as Hst.
  destruct (RenderGraph.Derived.previous d0 !! ResourceUse.resource u) as [[before prior]|] eqn:E.
  2: { rewrite <- (app_nil_r (RenderGraph.Derived.barriers d)).
    apply (using_finish ks inp d u None []); [done|done| |constructor|].
    - apply (derived_ok_use d None [] u); [done|done|done|]. by intros b ?%elem_of_nil.
    - intros s' Es'. exists s'. split; [done|]. split; [|done]. left. by rewrite Es', Hst. }
  simpl in Hst. destruct (derived_previous _ _ _ Hd0 _ _ _ E) as [Hpk Hlt].
  case_bool_decide as Hkk; simpl; [|done].
  destruct (RenderGraph.transition before prior u) eqn:Htr.
  2: { rewrite <- (app_nil_r (RenderGraph.Derived.barriers d)).
    apply (using_finish ks inp d u None []); [done|done| |constructor|].
    - apply (derived_ok_use d None [] u); [done|done|done|]. by intros b ?%elem_of_nil.
    - intros s' Es'. exists s'. split; [done|]. split; [|done]. right. rewrite Es', Hst.
      unfold RenderGraph.transition in Htr. apply orb_false_iff in Htr as [_ Heq].
      apply negb_false_iff, bool_decide_eq_true in Heq. by rewrite Heq. }
  set (barrier id := Barrier.mk (ResourceUse.resource u) (ResourceUse.kind u) id
    (RenderPass.id p) (ResourceUse.state prior) (ResourceUse.state u)).
  assert (Hexec : ∀ id s', s' !! ResourceUse.resource u = s0 !! ResourceUse.resource u → ∃ s'',
    execute execute_barrier s' [barrier id] = Some s'' ∧
    (s'' !! ResourceUse.resource u = None ∨
      s'' !! ResourceUse.resource u = Some (ResourceUse.state u)) ∧
    ∀ r, r ≠ ResourceUse.resource u → s'' !! r = s' !! r).
  { intros id s' Es'. simpl. unfold execute_barrier. simpl. rewrite Es', Hst. simpl.
    rewrite decide_True by done. simpl. eexists. split; [done|]. split.
    - right. by rewrite lookup_insert_eq.
    - intros r Hr. by rewrite lookup_insert_ne by done. }
  destruct before as [j|].
  - specialize (Hlt j eq_refl).
    destruct (lookup_lt_is_Some_2 passes j) as [q Hq]; [apply lookup_lt_Some in Hp; lia|].
    rewrite Hq. apply (using_finish ks inp d u (Some j) [barrier (Some (RenderPass.id q))]);
      [done|done| |by repeat constructor|by apply Hexec].
    apply (derived_ok_use d (Some j) [barrier (Some (RenderPass.id q))] u);
      [done|done|by intros ? [= <-]|].
    intros b ->%list_elem_of_singleton. simpl. split; [congruence|]. split; [done|]. split; [done|].
    intros x [= <-]. by exists j, q.
  - apply (using_finish ks inp d u None [barrier None]);
      [done|done| |by repeat constructor|by apply Hexec].
    apply (derived_ok_use d None [barrier None] u); [done|done|done|].
    intros b ->%list_elem_of_singleton. simpl. split; [congruence|]. done.
Qed.

End uses.

(** ** All passes *)

Context (Hids : NoDup (RenderPass.id <$> passes)).

Lemma pass_ids_inj j k p q :
  passes !! j = Some p → passes !! k = Some q → RenderPass.id p = RenderPass.id q → j = k.
Proof.
  intros Hp Hq E. apply (NoDup_lookup _ j k (RenderPass.id p) Hids); rewrite list_lookup_fmap.
  - by rewrite Hp.
  - by rewrite Hq, E.
Qed.

Lemma execute_ext {A} (f h : states → A → option states) s l :
  (∀ a t, a ∈ l → f t a = h t a) → execute f s l = execute h s l.
Proof.
  intros H. revert s. induction l as [|a l IH]; intros s; simpl; [done|].
  rewrite H by (by left). destruct (h s a); simpl; [|done]. apply IH. intros; apply H. by right.
Qed.

(** After the passes of [k]: the derived state is well-formed, and its barriers
    replay them. *)
Definition replayed (E0 : gset (nat * nat)) (k : list (nat * RenderPass.t))
    (d : RenderGraph.Derived.t) : Prop :=
  derived_ok E0 (length k) d ∧
  ∃ s, execute (execute_pass (RenderGraph.Derived.barriers d)) (initial_state g) k.*2 = Some s ∧
    tracks d s.

(** The barriers of a pass are those that its loop appended. *)
Lemma execute_pass_new E0 i p d d' s s' s'' new :
  passes !! i = Some p → derived_ok E0 i d →
  RenderGraph.Derived.barriers d' = RenderGraph.Derived.barriers d ++ new →
  Forall (λ b, Barrier.after b = RenderPass.id p) new →
  execute execute_barrier s new = Some s' →
  execute execute_use s' (RenderPass.resources p) = Some s'' →
  execute_pass (RenderGraph.Derived.barriers d') s p = Some s''.
Proof.
  intros Hp Hd -> Hnew Es Es'. unfold execute_pass. rewrite filter_app.
  rewrite filter_none, (filter_all _ new); [simpl; by rewrite Es|done|].
  apply Forall_forall. intros b Hb E.
  destruct (derived_barriers _ _ _ Hd b Hb) as (_&_&v&q&Hv&Hq&Ea&_).
  assert (v = i) as ->; [|lia]. apply (pass_ids_inj v i q p); [done|done|congruence].
Qed.

(** The barriers of the earlier passes stay the same. *)
Lemma execute_earlier i p d d' s k new :
  passes !! i = Some p → (∀ j q, (j, q) ∈ k → j < i ∧ passes !! j = Some q) →
  RenderGraph.Derived.barriers d' = RenderGraph.Derived.barriers d ++ new →
  Forall (λ b, Barrier.after b = RenderPass.id p) new →
  execute (execute_pass (RenderGraph.Derived.barriers d')) s k.*2 =
  execute (execute_pass (RenderGraph.Derived.barriers d)) s k.*2.
Proof.
  intros Hp Hk -> Hnew. apply execute_ext. intros q t Hq.
  apply list_elem_of_fmap in Hq as ([j q']&->&Hjq). simpl. destruct (Hk j q' Hjq) as [Hj Hq].
  unfold execute_pass. rewrite filter_app, (filter_none _ new), app_nil_r; [done|].
  eapply Forall_impl; [exact Hnew|]. intros b Ha E. simpl in *.
  assert (j = i); [|lia]. apply (pass_ids_inj j i q' p); [done|done|congruence].
Qed.

Lemma use_resources_step E0 k i p rest d :
  RenderGraph.enumerate passes = k ++ (i, p) :: rest → replayed E0 k d →
  match RenderGraph.use_resources g d (i, p) with
  | Ok d' => replayed E0 (k ++ [(i, p)]) d'
  | Err _ => True
  | Panic => False
  end.
Proof.
  intros E (Hd&s&Es&Ht). destruct (enumerate_split _ _ _ _ _ E) as (->&Hp&_&Hk).
  unfold RenderGraph.use_resources.
  pose proof (fold_outcome_spec (RenderGraph.use_resource g (length k) p)
    (in_use E0 (length k) p d s) (∅, d) (RenderPass.resources p)
    (using_initial E0 (length k) p d s Hp Hd Ht)
    (λ k' a _ t _ Hu, use_resource_step E0 (length k) p d s Hp Hd Ht k' t a Hu)) as Hfold.
  destruct (fold_outcome _ _ _) as [[inp d']| |]; [|done|done]. simpl.
  destruct Hfold as [Hok Hin Hnd Hdone Hrest (new&s'&Eb&Hnew&Es'&Huse&Hout)]. simpl in *.
  destruct (execute_uses (RenderPass.resources p) s' Hnd Huse) as (s''&Es''&Hs1&Hs2).
  split; [rewrite length_app; simpl; by rewrite Nat.add_1_r|].
  exists s''. split.
  - rewrite fmap_app, execute_app, (execute_earlier (length k) p d d' _ k new) by done.
    rewrite Es. simpl.
    by rewrite (execute_pass_new E0 (length k) p d d' s s' s'' new).
  - intros r. destruct (decide (r ∈ inp)) as [Hr|Hr].
    + apply Hin, list_elem_of_fmap in Hr as (u&->&Hu). by rewrite Hs1, Hdone.
    + rewrite Hs2 by (by rewrite <- Hin). rewrite Hout, Hrest by done. apply Ht.
Qed.

Lemma use_all_resources E0 d :
  replayed E0 [] d →
  match fold_outcome (RenderGraph.use_resources g) d (RenderGraph.enumerate passes) with
  | Ok d' => replayed E0 (RenderGraph.enumerate passes) d'
  | Err _ => True
  | Panic => False
  end.
Proof.
  intros H0. apply (fold_outcome_spec _ (replayed E0)); [done|].
  intros k [i p] rest d' E Hk. by apply (use_resources_step E0 k i p rest).
Qed.

End compiling.

(** ** The whole compilation *)

(** When every edge points forward, the greedy order is the insertion order. *)
Lemma greedy_insertion n edges order :
  valid_order n edges order → greedy n edges order → (∀ u v, (u, v) ∈ edges → u < v) →
  order = seq 0 n.
Proof.
  intros [Hp _] Hg Hfw. assert (Hlen : length order = n) by (by rewrite Hp, length_seq).
  assert (Hnd : NoDup order) by (rewrite Hp; apply NoDup_seq).
  assert (Htake : ∀ k, k <= n → take k order = seq 0 k).
  { intros k. induction k as [|k IH]; intros Hk; [done|].
    destruct (lookup_lt_is_Some_2 order k) as [x Ek]; [lia|].
    specialize (IH ltac:(lia)). rewrite (take_S_r _ _ _ Ek), IH, seq_S. simpl.
    assert (x = k) as ->; [|done].
    assert (Hxn : x < n).
    { assert (Hxo : x ∈ order) by (by eapply list_elem_of_lookup_2).
      rewrite Hp in Hxo. apply elem_of_seq in Hxo. lia. }
    pose proof (take_drop_middle order k x Ek) as E. rewrite IH in E. symmetry in E.
    assert (k <= x).
    { destruct (le_lt_dec k x) as [|Hlt]; [done|exfalso]. rewrite E in Hnd.
      apply NoDup_app in Hnd as (_&Hd&_). apply (Hd x); [apply elem_of_seq; lia|by left]. }
    assert (x <= k); [|lia].
    apply (Hg (seq 0 k) x (drop (S k) order) E k); [lia| |].
    - intros ?%elem_of_seq. lia.
    - intros u Hu%Hfw. apply elem_of_seq. lia. }
  rewrite <- (Htake n), take_ge; [done|lia|lia].
Qed.

Lemma check_initial_spec l :
  match fold_outcome RenderGraph.check_initial tt l with
  | Ok _ => Forall (λ e : Z * (ResourceKind.t * ResourceState.t),
      e.2.1 = ResourceState.resource_kind e.2.2) l
  | Err _ => True
  | Panic => False
  end.
Proof.
  apply (fold_outcome_spec _ (λ l _, Forall (λ e : Z * (ResourceKind.t * ResourceState.t),
    e.2.1 = ResourceState.resource_kind e.2.2) l)); [constructor|].
  intros k [r [kd st]] rest [] _ Hk. simpl. case_decide; [|done].
  apply Forall_app. split; [done|by repeat constructor].
Qed.

Lemma pass_ids_spec g order :
  (∀ i, i ∈ order → i < length (RenderGraph.passes g)) →
  ∃ ids, RenderGraph.pass_ids g order = Ok ids ∧
    Forall2 (λ i id, ∃ p, RenderGraph.passes g !! i = Some p ∧ RenderPass.id p = id) order ids.
Proof.
  intros Hin. unfold RenderGraph.pass_ids.
  destruct (mapM (λ i, RenderPass.id <$> RenderGraph.passes g !! i) order) as [ids|] eqn:E.
  - exists ids. split; [done|]. apply mapM_Some in E. eapply Forall2_impl; [done|].
    intros i id Hi. simpl in Hi. by apply fmap_Some in Hi as (p&?&->); exists p.
  - exfalso. apply mapM_None in E. apply Exists_exists in E as (i&Hi&E).
    destruct (lookup_lt_is_Some_2 (RenderGraph.passes g) i (Hin i Hi)) as [p Hp].
    by rewrite Hp in E.
Qed.

Section result.

Context (g : RenderGraph.t).

Abbreviation passes := (RenderGraph.passes g).

Abbreviation n := (length passes).

(** What a successful compilation went through. *)
Record compilation (c : CompiledGraph.t) : Prop := {
  compilation_ids : NoDup (RenderPass.id <$> passes);
  compilation_derived : ∃ m E0 d order,
    indexed (RenderGraph.enumerate passes) m ∧
    (∀ u v, (u, v) ∈ E0 ↔ depends m (RenderGraph.enumerate passes) u v) ∧
    (∀ v p dep, (v, p) ∈ RenderGraph.enumerate passes → dep ∈ RenderPass.depends_on p →
      is_Some (m !! dep)) ∧
    replayed g E0 (RenderGraph.enumerate passes) d ∧
    valid_order n (RenderGraph.Derived.edges d) order ∧
    greedy n (RenderGraph.Derived.edges d) order ∧
    Forall2 (λ i id, ∃ p, passes !! i = Some p ∧ RenderPass.id p = id) order
      (CompiledGraph.ordered_passes c) ∧
    CompiledGraph.barriers c = RenderGraph.Derived.barriers d }.

Lemma indexed_ids m : indexed (RenderGraph.enumerate passes) m → NoDup (RenderPass.id <$> passes).
Proof.
  intros Hm. apply NoDup_alt. intros i j id Hi Hj. rewrite list_lookup_fmap in Hi, Hj.
  apply fmap_Some in Hi as (p&Hp&->), Hj as (q&Hq&E).
  assert (Ei : m !! RenderPass.id p = Some i) by (apply Hm; exists p; by rewrite enumerate_elem).
  assert (Ej : m !! RenderPass.id p = Some j).
  { apply Hm. exists q. by rewrite enumerate_elem. }
  congruence.
Qed.

Lemma replayed_initial E0 m :
  indexed (RenderGraph.enumerate passes) m → 
  (∀ u v, (u, v) ∈ E0 ↔ depends m (RenderGraph.enumerate passes) u v) →
  (∀ r k st, RenderGraph.initial_states g !! r = Some (k, st) →
    k = ResourceState.resource_kind st) →
  replayed g E0 [] (RenderGraph.Derived.mk (RenderGraph.initial_previous g) E0 []).
Proof.
  intros Hm HE Hk.
  assert (Hprev : ∀ r, RenderGraph.initial_previous g !! r =
    (λ ks : ResourceKind.t * ResourceState.t,
      (None, ResourceUse.mk r ks.1 AccessKind.Read ks.2)) <$> RenderGraph.initial_states g !! r).
  { intros r. unfold RenderGraph.initial_previous. rewrite map_lookup_imap.
    by destruct (RenderGraph.initial_states g !! r). }
  split; [split|].
  - intros u v ?. by left.
  - done.
  - intros r before use E. simpl in E. rewrite Hprev in E.
    apply fmap_Some in E as ([k st]&E&[= -> ->]). simpl. split; [by apply (Hk r)|done].
  - by intros b ?%elem_of_nil.
  - exists (initial_state g). split; [done|]. intros r. simpl. rewrite Hprev.
    unfold initial_state. rewrite lookup_fmap.
    by destruct (RenderGraph.initial_states g !! r).
Qed.

(** The derived edges are edges between passes. *)
Lemma derived_within E0 m d :
  indexed (RenderGraph.enumerate passes) m →
  (∀ u v, (u, v) ∈ E0 ↔ depends m (RenderGraph.enumerate passes) u v) →
  derived_ok g E0 n d → edges_within n (RenderGraph.Derived.edges d).
Proof.
  intros Hm HE Hd u v Hu. destruct (derived_edges _ _ _ _ Hd u v Hu) as [H0|]; [|lia].
  apply HE in H0 as (p&dep&Hp%enumerate_elem&_&E).
  apply Hm in E as (q&Hq%enumerate_elem&_). apply lookup_lt_Some in Hp, Hq. done.
Qed.

Lemma length_enumerate : length (RenderGraph.enumerate passes) = n.
Proof. rewrite <- (length_fmap snd). by rewrite enumerate_snd. Qed.

Lemma compile_spec :
  match RenderGraph.compile g with
  | Some (Ok c) => compilation c
  | Some (Err _) => True
  | _ => False
  end.
Proof.
  unfold RenderGraph.compile.
  pose proof (check_initial_spec (sort_by_key fst (map_to_list (RenderGraph.initial_states g)))) as Hi.
  destruct (fold_outcome RenderGraph.check_initial tt _) as [[]| |]; [|done|done].
  pose proof (index_passes_spec g) as Hm. simpl.
  destruct (fold_outcome RenderGraph.index_pass ∅ _) as [m| |]; [|done|done].
  pose proof (add_dependencies_spec g m) as HE. simpl.
  destruct (fold_outcome (RenderGraph.add_dependencies m) ∅ _) as [E0| |]; [|done|done].
  destruct HE as [HE Hres]. pose proof (indexed_ids m Hm) as Hids. simpl.
  assert (Hk : ∀ r k st, RenderGraph.initial_states g !! r = Some (k, st) →
    k = ResourceState.resource_kind st).
  { intros r k st Er. rewrite Forall_forall in Hi. apply (Hi (r, (k, st))).
    apply sort_by_key_elem. by apply elem_of_map_to_list. }
  pose proof (use_all_resources g Hids E0 _ (replayed_initial E0 m Hm HE Hk)) as Hd.
  destruct (fold_outcome (RenderGraph.use_resources g) _ _) as [d| |]; [|done|done].
  pose proof Hd as [Hok _]. rewrite length_enumerate in Hok.
  pose proof (topological_order_spec n _ (derived_within E0 m d Hm HE Hok)) as Ho.
  destruct (Topological.topological_order n (RenderGraph.Derived.edges d)) as [[order|e|]|];
    [|done|done|done]. destruct Ho as [Hv Hg].
  destruct (pass_ids_spec g order) as (ids&->&Hf).
  { intros i Hin. destruct Hv as [Hp _]. rewrite Hp in Hin. apply elem_of_seq in Hin. lia. }
  simpl. split; [done|]. exists m, E0, d, order. done.
Qed.

End result.

(** ** Consequences *)

Section consequences.

Context (g : RenderGraph.t) (c : CompiledGraph.t) (Hc : compilation g c).

Abbreviation passes := (RenderGraph.passes g).

Lemma ordered_precedes order ids u v p q :
  Forall2 (λ i id, ∃ p, passes !! i = Some p ∧ RenderPass.id p = id) order ids →
  passes !! u = Some p → passes !! v = Some q → precedes order u v →
  precedes ids (RenderPass.id p) (RenderPass.id q).
Proof.
  intros Hf Hp Hq (l1&l2&->&Hu). apply Forall2_app_inv_l in Hf as (k1&k2&Hf1&Hf2&->).
  apply Forall2_cons_inv_l in Hf2 as (x&k3&(q'&Hq'&<-)&_&->).
  simplify_eq. exists k1, k3. split; [done|].
  apply list_elem_of_lookup in Hu as [j Hj].
  destruct (Forall2_lookup_l _ _ _ _ _ Hf1 Hj) as (y&Hy&p'&Hp'&<-).
  simplify_eq. by eapply list_elem_of_lookup_2.
Qed.

Lemma ordered_ids order ids :
  Forall2 (λ i id, ∃ p, passes !! i = Some p ∧ RenderPass.id p = id) order ids →
  ids = omap (λ i, RenderPass.id <$> passes !! i) order.
Proof.
  induction 1 as [|i id order ids (p&Hp&<-) _ IH]; simpl; [done|]. by rewrite Hp, IH.
Qed.

Lemma omap_seq : omap (λ i, RenderPass.id <$> passes !! i) (seq 0 (length passes)) =
  RenderPass.id <$> passes.
Proof.
  symmetry. apply ordered_ids, Forall2_same_length_lookup. split.
  - by rewrite length_seq, length_fmap.
  - intros i x y Hx%lookup_seq Hy. rewrite list_lookup_fmap in Hy.
    apply fmap_Some in Hy as (p&Hp&->). destruct Hx as [-> _]. by exists p.
Qed.

Lemma compilation_permutation : CompiledGraph.ordered_passes c ≡ₚ RenderPass.id <$> passes.
Proof.
  destruct (compilation_derived _ _ Hc) as (m&E0&d&order&_&_&_&_&[Hp _]&_&Hf&_).
  rewrite (ordered_ids _ _ Hf), <- omap_seq. by rewrite Hp.
Qed.

Lemma compilation_dependencies p dep :
  p ∈ passes → dep ∈ RenderPass.depends_on p →
  precedes (CompiledGraph.ordered_passes c) dep (RenderPass.id p).
Proof.
  destruct (compilation_derived _ _ Hc) as (m&E0&d&order&Hm&HE&Hres&[Hd _]&[_ Hv]&_&Hf&_).
  intros [v Hp]%list_elem_of_lookup Hdep.
  destruct (Hres v p dep) as [u Hu]; [by apply enumerate_elem|done|].
  apply Hm in Hu as Hq. destruct Hq as (q&Hq%enumerate_elem&<-).
  apply (ordered_precedes order _ u v q p Hf Hq Hp), Hv, (derived_explicit _ _ _ _ Hd), HE.
  exists p, (RenderPass.id q). by rewrite enumerate_elem.
Qed.

Lemma compilation_barrier b :
  b ∈ CompiledGraph.barriers c →
  Barrier.kind b = ResourceState.resource_kind (Barrier.source b) ∧
  Barrier.kind b = ResourceState.resource_kind (Barrier.destination b) ∧
  ∀ x, Barrier.before b = Some x →
    precedes (CompiledGraph.ordered_passes c) x (Barrier.after b).
Proof.
  destruct (compilation_derived _ _ Hc) as (m&E0&d&order&_&_&_&[Hd _]&[_ Hv]&_&Hf&->).
  intros Hb. destruct (derived_barriers _ _ _ _ Hd b Hb) as (?&?&v&q&_&Hq&->&Hx).
  split; [done|]. split; [done|]. intros x Ex. destruct (Hx x Ex) as (u&q'&Hq'&<-&Huv).
  by apply (ordered_precedes order _ u v q' q Hf Hq' Hq), Hv.
Qed.

(** Every explicit dependency is on a pass that was added before. *)
Definition backward : Prop :=
  ∀ i p dep, passes !! i = Some p → dep ∈ RenderPass.depends_on p →
    ∃ j q, j < i ∧ passes !! j = Some q ∧ RenderPass.id q = dep.

Lemma compilation_replay :
  backward →
  CompiledGraph.ordered_passes c = RenderPass.id <$> passes ∧
  ∃ s, execute (execute_pass (CompiledGraph.barriers c)) (initial_state g) passes = Some s.
Proof.
  intros Hback. pose proof (compilation_ids _ _ Hc) as Hids.
  destruct (compilation_derived _ _ Hc) as (m&E0&d&order&Hm&HE&Hres&[Hd Hr]&Hv&Hg&Hf&->). split.
  - rewrite (greedy_insertion _ _ order Hv Hg) in Hf; [by rewrite (ordered_ids _ _ Hf), omap_seq|].
    intros u v Huv. destruct (derived_edges _ _ _ _ Hd u v Huv) as [H0|[? _]]; [|done].
    apply HE in H0 as (p&dep&Hp%enumerate_elem&Hdep&Eu).
    destruct (Hback v p dep Hp Hdep) as (j&q&Hj&Hq&Eq).
    assert (Ej : m !! dep = Some j) by (apply Hm; exists q; by rewrite enumerate_elem).
    by simplify_eq.
  - destruct Hr as (s&Es&_). rewrite enumerate_snd in Es. by exists s.
Qed.

(** Bindings of the right kinds are lowered. *)
Lemma compilation_batch pass resolve batch :
  (∀ b, b ∈ CompiledGraph.barriers c → ∃ binding,
    resolve (Barrier.resource b) = Some binding ∧ ResourceBinding.kind binding = Barrier.kind b) →
  ∃ batch', fill_barrier_batch_before_with c pass resolve batch = Ok batch' ∧
    length (BarrierBatch.buffer_barriers batch') + length (BarrierBatch.image_barriers batch') =
      length (barriers_before c pass).
Proof.
  intros Hb. unfold fill_barrier_batch_before_with.
  assert (Hgen : ∀ l b0, (∀ b, b ∈ l → b ∈ CompiledGraph.barriers c) → ∃ b1,
    fold_outcome (BarrierBatch.add_barrier resolve) b0 l = Ok b1 ∧
    length (BarrierBatch.buffer_barriers b1) + length (BarrierBatch.image_barriers b1) =
      length (BarrierBatch.buffer_barriers b0) + length (BarrierBatch.image_barriers b0) + length l).
  { intros l. induction l as [|b l IH]; intros b0 Hl; simpl; [exists b0; split; [done|lia]|].
    assert (Hbin : b ∈ CompiledGraph.barriers c) by (apply Hl; by left).
    destruct (Hb b Hbin) as (binding&Hr&Hk). destruct (compilation_barrier b Hbin) as (Hs&Hd&_).
    unfold BarrierBatch.add_barrier. rewrite Hr, bool_decide_eq_true_2 by done. simpl.
    destruct binding as [h|h]; simpl in Hk.
    - destruct (IH (BarrierBatch.mk (BarrierBatch.buffer_barriers b0 ++
        [(h, Barrier.source b, Barrier.destination b)]) (BarrierBatch.image_barriers b0)))
        as (b1&E&El); [intros; apply Hl; by right|].
      exists b1. split; [done|]. simpl in El. rewrite length_app in El. simpl in El. lia.
    - unfold BarrierBatch.lower_image_transition.
      rewrite bool_decide_eq_true_2, bool_decide_eq_true_2 by congruence. simpl.
      destruct (IH (BarrierBatch.mk (BarrierBatch.buffer_barriers b0)
        (BarrierBatch.image_barriers b0 ++ [(h, Barrier.source b, Barrier.destination b)])))
        as (b1&E&El); [intros; apply Hl; by right|].
      exists b1. split; [done|]. simpl in El. rewrite length_app in El. simpl in El. lia. }
  destruct (Hgen (barriers_before c pass) (BarrierBatch.clear batch)) as (b1&E&El); [|by exists b1].
  intros b [_ Hin]%list_elem_of_filter. done.
Qed.

End consequences.

(** ** Concrete graphs *)

Definition image_use (resource : Z) (access : AccessKind.t) (state : RenderGraphImageState.t)
    : ResourceUse.t :=
  ResourceUse.mk resource ResourceKind.Image access (ResourceState.Image state 0).

(** Two passes draw and blur an image that the third one shows. *)
Definition frame_graph : RenderGraph.t :=
  RenderGraph.mk
    [ RenderPass.mk 10 [] [image_use 1 AccessKind.Write RenderGraphImageState.AttachmentWrite];
      RenderPass.mk 20 [10%Z] [image_use 1 AccessKind.Read RenderGraphImageState.FragmentSampledRead;
        image_use 2 AccessKind.Write RenderGraphImageState.AttachmentWrite];
      RenderPass.mk 30 [] [image_use 1 AccessKind.Read RenderGraphImageState.FragmentSampledRead;
        image_use 2 AccessKind.Read RenderGraphImageState.FragmentSampledRead] ]
    {[ 1%Z := (ResourceKind.Image, ResourceState.Image RenderGraphImageState.Undefined 0) ]}.

Lemma frame_graph_backward : backward frame_graph.
Proof.
  intros [|[|[|i]]] p dep Hp Hdep; simplify_eq/=; try (by apply elem_of_nil in Hdep).
  apply list_elem_of_singleton in Hdep as ->. exists 0. eexists.
  split; [lia|]. split; reflexivity.
Qed.

(** Only the last use of a resource is remembered: a second reader in the same
    state depends on nothing. Here the writer waits for a pass that was added
    last, and the second reader is ordered before the writer. *)
Definition two_readers : RenderGraph.t :=
  RenderGraph.mk
    [ RenderPass.mk 0 [3%Z] [image_use 7 AccessKind.Write RenderGraphImageState.AttachmentWrite];
      RenderPass.mk 1 [] [image_use 7 AccessKind.Read RenderGraphImageState.FragmentSampledRead];
      RenderPass.mk 2 [] [image_use 7 AccessKind.Read RenderGraphImageState.FragmentSampledRead];
      RenderPass.mk 3 [] [] ] ∅.

(** The compiled order runs the second reader before the writer it was added
    after, although nothing asks for it, and without a barrier for it. *)
Lemma second_reader_unordered :
  ∃ c, RenderGraph.compile two_readers = Some (Ok c) ∧
    precedes (CompiledGraph.ordered_passes c) 2%Z 0%Z ∧
    barriers_before c 2 = [].
Proof.
  eexists. split; [vm_compute; reflexivity|]. split; [|vm_compute; reflexivity].
  exists [2%Z; 3%Z], [1%Z]. split; [reflexivity|by left].
Qed.

(** ** Claims *)

(** ordering the passes is a greedy topological sort. For every set of edges
    between the passes it terminates within its fuel without a panic; it returns
    an order of all passes that respects every edge and in which every pass is
    the least one whose predecessors are done; and it reports a cycle exactly
    when no order respects the edges. *)
Theorem topological_order_exact n edges :
  edges_within n edges →
  match topological_order n edges with
  | Some (Ok order) => valid_order n edges order ∧ greedy n edges order
  | Some (Err e) => e = Cycle ∧ ∀ order, ¬ valid_order n edges order
  | _ => False
  end.
Proof. apply topological_order_spec. Qed.

Lemma topological_order_exact_witness :
  topological_order 3 {[(2, 0); (0, 1)]} = Some (Ok [2; 0; 1]) ∧
  valid_order 3 {[(2, 0); (0, 1)]} [2; 0; 1].
Proof.
  assert (Hw : edges_within 3 {[(2, 0); (0, 1)]}).
  { intros u v [[= -> ->]%elem_of_singleton|[= -> ->]%elem_of_singleton]%elem_of_union; lia. }
  assert (E : topological_order 3 {[(2, 0); (0, 1)]} = Some (Ok [2; 0; 1]))
    by (vm_compute; reflexivity).
  split; [exact E|]. pose proof (topological_order_exact 3 _ Hw) as H. rewrite E in H. apply H.
Defined.

(** C37: compiling a render graph returns a graph or an error, within its fuel and
    without a panic, and the compiled graph orders what it must. It runs every
    pass once; every explicit dependency runs before the pass that asks for it;
    and the pass that a barrier waits for runs before the pass that the barrier
    is for. *)
Theorem compile_orders g :
  match RenderGraph.compile g with
  | Some (Ok c) =>
      CompiledGraph.ordered_passes c ≡ₚ RenderPass.id <$> RenderGraph.passes g ∧
      NoDup (CompiledGraph.ordered_passes c) ∧
      (∀ p dep, p ∈ RenderGraph.passes g → dep ∈ RenderPass.depends_on p →
        precedes (CompiledGraph.ordered_passes c) dep (RenderPass.id p)) ∧
      (∀ b x, b ∈ CompiledGraph.barriers c → Barrier.before b = Some x →
        precedes (CompiledGraph.ordered_passes c) x (Barrier.after b))
  | Some (Err _) => True
  | _ => False
  end.
Proof.
  pose proof (compile_spec g) as H. destruct (RenderGraph.compile g) as [[c| |]|]; try done.
  pose proof (compilation_permutation g c H) as Hp. split; [done|]. split.
  - rewrite Hp. apply H.
  - split.
    + intros p dep. by apply compilation_dependencies.
    + intros b x Hb. by apply (compilation_barrier g c H b Hb).
Qed.

(** C30: the barriers of a compiled graph replay it. When every explicit
    dependency is on a pass that was added before, the passes run in insertion
    order; executing the barriers of each pass before it finds every barrier's
    resource in the barrier's source state, and every pass finds every resource
    it uses in the state it asked for. *)
Theorem compile_replays g c :
  RenderGraph.compile g = Some (Ok c) → backward g →
  CompiledGraph.ordered_passes c = RenderPass.id <$> RenderGraph.passes g ∧
  ∃ s, execute (execute_pass (CompiledGraph.barriers c)) (initial_state g)
    (RenderGraph.passes g) = Some s.
Proof.
  intros E Hb. pose proof (compile_spec g) as H. rewrite E in H.
  by apply compilation_replay.
Qed.

Lemma compile_replays_witness :
  backward frame_graph ∧
  ∃ c, RenderGraph.compile frame_graph = Some (Ok c) ∧
    CompiledGraph.ordered_passes c = [10; 20; 30]%Z ∧ length (CompiledGraph.barriers c) = 3.
Proof.
  split; [apply frame_graph_backward|]. eexists. 
  assert (E : RenderGraph.compile frame_graph = Some (Ok (default (CompiledGraph.mk [] [])
    (match RenderGraph.compile frame_graph with Some (Ok c) => Some c | _ => None end))))
    by (vm_compute; reflexivity).
  split; [exact E|]. split; [|vm_compute; reflexivity].
  destruct (compile_replays frame_graph _ E frame_graph_backward) as [H _]. exact H.
Defined.

(** compiled barriers are well typed. The kind of every barrier is the kind
    of its source and of its destination state, so lowering the barriers of a
    pass succeeds for every table that binds their resources to bindings of
    their kinds, and lowers every one of them. *)
Theorem compiled_barriers_typed g c :
  RenderGraph.compile g = Some (Ok c) →
  (∀ b, b ∈ CompiledGraph.barriers c →
    Barrier.kind b = ResourceState.resource_kind (Barrier.source b) ∧
    Barrier.kind b = ResourceState.resource_kind (Barrier.destination b)) ∧
  ∀ pass resolve batch,
    (∀ b, b ∈ CompiledGraph.barriers c → ∃ binding,
      resolve (Barrier.resource b) = Some binding ∧
      ResourceBinding.kind binding = Barrier.kind b) →
    ∃ batch', fill_barrier_batch_before_with c pass resolve batch = Ok batch' ∧
      length (BarrierBatch.buffer_barriers batch') +
        length (BarrierBatch.image_barriers batch') = length (barriers_before c pass).
Proof.
  intros E. pose proof (compile_spec g) as H. rewrite E in H. split.
  - intros b Hb. by destruct (compilation_barrier g c H b Hb) as (?&?&_).
  - intros pass resolve batch. by apply (compilation_batch g c H).
Qed.

Lemma compiled_barriers_typed_witness :
  ∃ c batch', RenderGraph.compile frame_graph = Some (Ok c) ∧
    fill_barrier_batch_before_with c 20 (λ r, Some (ResourceBinding.Image (100 + r)))
      (BarrierBatch.mk [] []) = Ok batch' ∧
    length (BarrierBatch.image_barriers batch') = 1.
Proof.
  set (c := default (CompiledGraph.mk [] [])
    (match RenderGraph.compile frame_graph with Some (Ok c) => Some c | _ => None end)).
  assert (E : RenderGraph.compile frame_graph = Some (Ok c)) by (vm_compute; reflexivity).
  destruct (compiled_barriers_typed frame_graph c E) as [Hk Hb].
  destruct (Hb 20%Z (λ r, Some (ResourceBinding.Image (100 + r))) (BarrierBatch.mk [] []))
    as (batch'&Hf&_).
  { intros b Hbin. exists (ResourceBinding.Image (100 + Barrier.resource b)). split; [done|].
    assert (Hall : Forall (λ b, Barrier.kind b = ResourceKind.Image) (CompiledGraph.barriers c))
      by (vm_compute; repeat constructor).
    rewrite Forall_forall in Hall. by rewrite Hall. }
  exists c, batch'. split; [exact E|]. split; [exact Hf|].
  assert (Ec : fill_barrier_batch_before_with c 20
    (λ r, Some (ResourceBinding.Image (100 + r))) (BarrierBatch.mk [] []) =
    Ok (BarrierBatch.mk [] [(101%Z, ResourceState.Image RenderGraphImageState.AttachmentWrite 0,
      ResourceState.Image RenderGraphImageState.FragmentSampledRead 0)]))
    by (vm_compute; reflexivity).
  rewrite Ec in Hf. injection Hf as <-. reflexivity.
Defined.
