(* ===== verification/Bytes.v ===== *)
(** * Bytes and text

    What the message bus ([crates/tensor-dbus]) uses of the standard library on
    byte strings: slices, prefixes and splits, ASCII classes, UTF-8 validity,
    decimal and hexadecimal numbers, 32-bit integers of either byte order. A
    [&str] is the list of its bytes; positions and lengths are [Z] in the range
    of [usize]. *)

From Stdlib Require Import Strings.String Strings.Byte.
From S2P Require Import Prelude Codec.
From S2P Require Suballoc.

Export LittleEndian.

#[export] Instance byte_eq_dec : EqDecision byte := Byte.byte_eq_dec.

(** A string literal as bytes. *)
Definition text (s : String.string) : list byte := String.list_byte_of_string s.

Arguments text s%_string.

Definition len {A} (l : list A) : Z := Z.of_nat (length l).

(** [&l[a..b]] for a range inside [l]. *)
Definition slice {A} (l : list A) (a b : Z) : list A :=
  take (Z.to_nat (b - a)) (drop (Z.to_nat a) l).

(** [l.strip_prefix(p)]. *)
Fixpoint strip_prefix (p l : list byte) : option (list byte) :=
  match p, l with
  | [], _ => Some l
  | a :: p, b :: l => if decide (a = b) then strip_prefix p l else None
  | _ :: _, [] => None
  end.

(** [l.starts_with(p)]. *)
Definition starts_with (l p : list byte) : bool := bool_decide (is_Some (strip_prefix p l)).

(** [l.split(|b| b == sep)]. *)
Fixpoint split_on (sep : byte) (l : list byte) : list (list byte) :=
  match l with
  | [] => [[]]
  | b :: l =>
      if decide (b = sep) then [] :: split_on sep l
      else match split_on sep l with
           | element :: elements => (b :: element) :: elements
           | [] => [[b]]
           end
  end.

(** ** ASCII classes and UTF-8 *)

Definition in_range (lo hi : Z) (b : byte) : bool := (lo <=? value b) && (value b <=? hi).

Definition is_ascii_digit (b : byte) : bool := in_range 48 57 b.

Definition is_ascii_alphabetic (b : byte) : bool := in_range 65 90 b || in_range 97 122 b.

Definition is_ascii_alphanumeric (b : byte) : bool := is_ascii_alphabetic b || is_ascii_digit b.

Definition is_ascii (b : byte) : bool := value b <? 128.

Definition continuation (b : byte) : bool := in_range 128 191 b.

(** The first two bytes of a three-byte sequence: no overlong form and no
    surrogate. *)
Definition three_byte_start (a b : byte) : bool :=
  ((value a =? 224) && in_range 160 191 b)
  || ((in_range 225 236 a || in_range 238 239 a) && continuation b)
  || ((value a =? 237) && in_range 128 159 b).

(** The first two bytes of a four-byte sequence: no overlong form, and at most
    U+10FFFF. *)
Definition four_byte_start (a b : byte) : bool :=
  ((value a =? 240) && in_range 144 191 b)
  || (in_range 241 243 a && continuation b)
  || ((value a =? 244) && in_range 128 143 b).

(** [std::str::from_utf8(l).is_ok()]. *)
Fixpoint is_utf8 (l : list byte) : bool :=
  match l with
  | [] => true
  | a :: l =>
      if is_ascii a then is_utf8 l
      else match l with
           | [] => false
           | b :: l =>
               if in_range 194 223 a then continuation b && is_utf8 l
               else match l with
                    | [] => false
                    | c :: l =>
                        if three_byte_start a b then continuation c && is_utf8 l
                        else match l with
                             | [] => false
                             | d :: l =>
                                 four_byte_start a b && continuation c && continuation d
                                 && is_utf8 l
                             end
                    end
           end
  end.

(** ** Numbers *)

(** [text.parse::<u32>()]: decimal digits after an optional plus sign. *)
Fixpoint parse_digits (acc : Z) (l : list byte) : option Z :=
  match l with
  | [] => Some acc
  | b :: l =>
      if is_ascii_digit b then
        let acc := acc * 10 + (value b - 48) in
        if acc <=? U32.MAX then parse_digits acc l else None
      else None
  end.

Definition parse_u32 (l : list byte) : option Z :=
  match l with
  | [] => None
  | b :: rest =>
      if decide (b = "+"%byte)
      then match rest with [] => None | _ => parse_digits 0 rest end
      else parse_digits 0 l
  end.

(** [v.to_string()] of a [u32], which has at most ten digits. *)
Fixpoint push_digits (fuel : nat) (v : Z) (acc : list byte) : list byte :=
  match fuel with
  | O => acc
  | S fuel =>
      let acc := byte_of (48 + v mod 10) :: acc in
      if v / 10 =? 0 then acc else push_digits fuel (v / 10) acc
  end.

Definition decimal (v : Z) : list byte := push_digits 10 v [].

(** The value of a hexadecimal digit, in either case. *)
Definition hex (b : byte) : option Z :=
  if is_ascii_digit b then Some (value b - 48)
  else if in_range 97 102 b then Some (value b - 97 + 10)
  else if in_range 65 70 b then Some (value b - 65 + 10)
  else None.

(** Pairs of hexadecimal digits as bytes: the loops over [chunks_exact(2)]. *)
Fixpoint hex_pairs (l : list byte) : option (list byte) :=
  match l with
  | [] => Some []
  | a :: b :: l =>
      high ← hex a; low ← hex b; rest ← hex_pairs l;
      Some (byte_of (Z.lor (Z.shiftl high 4) low) :: rest)
  | [_] => Some []
  end.

(** Two hexadecimal digits for every byte. *)
Fixpoint print_hex (digit : Z → byte) (l : list byte) : list byte :=
  match l with
  | [] => []
  | b :: l =>
      digit (Z.shiftr (value b) 4) :: digit (Z.land (value b) 15) :: print_hex digit l
  end.

(** ** Byte order *)

Inductive Endian := Little | Big.

#[export] Instance endian_eq_dec : EqDecision Endian.
Proof. solve_decision. Defined.

Definition from_bytes (endian : Endian) (l : list byte) : Z :=
  match endian with Little => from_le_bytes l | Big => from_le_bytes (rev l) end.

(** [to_le_bytes] and [to_be_bytes] of a [u32]. *)
Definition to_bytes (endian : Endian) (v : Z) : list byte :=
  match endian with Little => to_le_bytes 4 v | Big => rev (to_le_bytes 4 v) end.

Arguments to_bytes : simpl never.
Arguments from_bytes : simpl never.

(** [(value + alignment - 1) & !(alignment - 1)] on [usize]. *)
Definition align (value alignment : Z) : Z :=
  Z.land (value + alignment - 1) (Suballoc.bit_not (alignment - 1)).

(** ** Lemmas *)

Create HintDb bytes.

Lemma len_app {A} (l k : list A) : len (l ++ k) = len l + len k.
Proof. unfold len. rewrite length_app. lia. Qed.

Lemma len_cons {A} (a : A) l : len (a :: l) = 1 + len l.
Proof. unfold len. simpl. lia. Qed.

Lemma len_nil {A} : len (@nil A) = 0.
Proof. done. Qed.

Lemma len_nonneg {A} (l : list A) : 0 <= len l.
Proof. unfold len. lia. Qed.

Lemma len_zero {A} (l : list A) : len l = 0 → l = [].
Proof. unfold len. destruct l; simpl; [done|lia]. Qed.

Lemma len_replicate {A} n (a : A) : 0 <= n → len (replicate (Z.to_nat n) a) = n.
Proof. intros. unfold len. rewrite length_replicate. lia. Qed.

#[export] Hint Rewrite @len_app @len_cons @len_nil : bytes.

Ltac len_simpl := autorewrite with bytes in *.

Lemma len_drop {A} (l : list A) i : 0 <= i <= len l → len (drop (Z.to_nat i) l) = len l - i.
Proof. unfold len. intros. rewrite length_drop. lia. Qed.

Lemma len_take {A} (l : list A) i : 0 <= i <= len l → len (take (Z.to_nat i) l) = i.
Proof. unfold len. intros. rewrite length_take. lia. Qed.

Lemma slice_len {A} (l : list A) a b :
  0 <= a → a <= b → b <= len l → len (slice l a b) = b - a.
Proof.
  intros Ha Hab Hb. unfold slice, len in *. rewrite length_take, length_drop. lia.
Qed.

Lemma slice_mid {A} (l m r : list A) a b :
  a = len l → b = len l + len m → slice (l ++ m ++ r) a b = m.
Proof.
  intros -> ->. unfold slice, len. rewrite Nat2Z.id, drop_app_length.
  replace (Z.to_nat _) with (length m) by lia. apply take_app_length.
Qed.

Lemma slice_empty {A} (l : list A) a : slice l a a = [].
Proof. unfold slice. by rewrite Z.sub_diag. Qed.

Lemma slice_split {A} (l : list A) a b c :
  0 <= a <= b → b <= c → slice l a c = slice l a b ++ slice l b c.
Proof.
  intros Hab Hbc. unfold slice.
  replace (Z.to_nat (c - a)) with (Z.to_nat (b - a) + Z.to_nat (c - b))%nat by lia.
  rewrite <- (take_take_drop (drop (Z.to_nat a) l)). f_equal. rewrite drop_drop. do 2 f_equal. lia.
Qed.

Lemma byte_value_inj a b : value a = value b → a = b.
Proof.
  unfold value. intros E. apply N2Z.inj in E. pose proof (Byte.of_to_N a) as Ha.
  rewrite E, Byte.of_to_N in Ha. by injection Ha.
Qed.

Lemma byte_of_value b : byte_of (value b) = b.
Proof.
  apply byte_value_inj. rewrite value_byte_of, Z.mod_small; [done|apply value_range].
Qed.

Lemma value_of_small v : 0 <= v < 256 → value (byte_of v) = v.
Proof. intros. by rewrite value_byte_of, Z.mod_small. Qed.

Lemma strip_prefix_app p l : strip_prefix p (p ++ l) = Some l.
Proof. induction p as [|a p IH]; simpl; [by destruct l|]. by rewrite decide_True. Qed.

Lemma strip_prefix_some p l r : strip_prefix p l = Some r → l = p ++ r.
Proof.
  revert l. induction p as [|a p IH]; intros [|b l] E; simpl in *; try done; try congruence.
  case_decide as Hab; [|done]. subst. f_equal. by apply IH.
Qed.

(** Splitting and joining with the separator are inverse. *)
Lemma split_on_cons sep l : ∃ e es, split_on sep l = e :: es.
Proof.
  destruct l as [|b l]; simpl; [by eauto|]. case_decide; [by eauto|].
  destruct (split_on sep l); eauto.
Qed.

Lemma split_on_none sep l e : split_on sep l = [e] ↔ l = e ∧ sep ∉ l.
Proof.
  revert e. induction l as [|b l IH]; intros e; simpl.
  - split; [intros [= <-]; split; [done|apply not_elem_of_nil]|by intros [<- _]].
  - destruct (split_on_cons sep l) as (f&fs&E). case_decide as Hb.
    + subst. rewrite E. split; [done|]. intros [_ H]. destruct H. by left.
    + rewrite E. split.
      * intros [= <- ->]. destruct (proj1 (IH f) E) as [-> ?]. split; [done|].
        by apply not_elem_of_cons.
      * intros [<- [_ Hl]%not_elem_of_cons]. pose proof (proj2 (IH l) (conj eq_refl Hl)) as E'.
        rewrite E in E'. by injection E' as -> ->.
Qed.

Lemma forallb_iff {A} (p : A → bool) l : forallb p l = true ↔ Forall (λ a, p a = true) l.
Proof.
  induction l as [|a l IH]; simpl; [by split|]. by rewrite andb_true_iff, IH, Forall_cons.
Qed.

Lemma is_utf8_ascii l : forallb is_ascii l = true → is_utf8 l = true.
Proof.
  induction l as [|a l IH]; simpl; [done|]. intros [-> ?]%andb_true_iff. by apply IH.
Qed.

Lemma alphanumeric_ascii b : is_ascii_alphanumeric b = true → is_ascii b = true.
Proof.
  unfold is_ascii_alphanumeric, is_ascii_alphabetic, is_ascii_digit, in_range, is_ascii. lia.
Qed.

(** *** Numbers *)

Lemma digit_value v : 0 <= v < 10 →
  value (byte_of (48 + v)) = 48 + v ∧ is_ascii_digit (byte_of (48 + v)) = true.
Proof.
  intros Hv. assert (E : value (byte_of (48 + v)) = 48 + v) by (apply value_of_small; lia).
  split; [done|]. unfold is_ascii_digit, in_range. lia.
Qed.

Lemma parse_push_digits fuel v acc :
  0 <= v < 10 ^ Z.of_nat fuel →
  ∃ n, 0 <= n ∧ ∀ k, 0 <= k → k * 10 ^ n + v <= U32.MAX →
    parse_digits k (push_digits fuel v acc) = parse_digits (k * 10 ^ n + v) acc.
Proof.
  revert v acc. induction fuel as [|fuel IH]; intros v acc Hv.
  - exists 0. split; [done|]. intros k Hk Hm. simpl in *. f_equal. lia.
  - rewrite Nat2Z.inj_succ, Z.pow_succ_r in Hv by lia.
    pose proof (Z.mod_pos_bound v 10 ltac:(lia)) as Hd. pose proof (Z.div_mod v 10) as Hdm.
    destruct (digit_value (v mod 10) Hd) as [Ev Ed]. cbn [push_digits].
    assert (Hq : 0 <= v / 10 < 10 ^ Z.of_nat fuel)
      by (split; [apply Z.div_pos; lia|apply Z.div_lt_upper_bound; lia]).
    destruct (Z.eqb_spec (v / 10) 0) as [E0|_].
    + exists 1. split; [lia|]. intros k Hk Hm. cbn [parse_digits]. rewrite Ed, Ev.
      replace (k * 10 + (48 + v mod 10 - 48)) with (k * 10 ^ 1 + v) by lia.
      by rewrite (proj2 (Z.leb_le _ _) Hm).
    + destruct (IH (v / 10) (byte_of (48 + v mod 10) :: acc) Hq) as (n&Hn&Hp).
      exists (n + 1). split; [lia|]. intros k Hk Hm.
      assert (0 <= k * 10 ^ n) by (pose proof (Z.pow_nonneg 10 n); nia).
      rewrite Z.pow_add_r in * by lia. rewrite Hp by lia. cbn [parse_digits]. rewrite Ed, Ev.
      replace ((k * 10 ^ n + v / 10) * 10 + (48 + v mod 10 - 48))
        with (k * (10 ^ n * 10 ^ 1) + v) by lia.
      by rewrite (proj2 (Z.leb_le _ _) Hm).
Qed.

Lemma push_digits_shape fuel v acc :
  (0 < fuel)%nat → forallb is_ascii_digit acc = true →
  forallb is_ascii_digit (push_digits fuel v acc) = true ∧ push_digits fuel v acc ≠ [].
Proof.
  revert v acc. induction fuel as [|fuel IH]; intros v acc Hf Hacc; [lia|]. cbn [push_digits].
  assert (Ha : forallb is_ascii_digit (byte_of (48 + v mod 10) :: acc) = true).
  { simpl. by rewrite (proj2 (digit_value _ (Z.mod_pos_bound v 10 ltac:(lia)))). }
  destruct (v / 10 =? 0); [done|]. destruct fuel; [done|]. by apply IH; [lia|].
Qed.

Lemma decimal_shape v : forallb is_ascii_digit (decimal v) = true ∧ decimal v ≠ [].
Proof. apply push_digits_shape; [lia|done]. Qed.

(** Parsing inverts printing. *)
Lemma parse_decimal v : U32.ok v → parse_u32 (decimal v) = Some v.
Proof.
  unfold U32.ok. intros Hv.
  destruct (parse_push_digits 10 v []) as (n&Hn&Hp); [unfold U32.MAX in *; simpl; lia|].
  specialize (Hp 0 ltac:(lia) ltac:(lia)). destruct (decimal_shape v) as [Hd Hne].
  unfold decimal in *. destruct (push_digits 10 v []) as [|b l]; [done|].
  unfold parse_u32. rewrite decide_False; [by rewrite Hp|].
  by intros ->.
Qed.

(** *** Hexadecimal digits *)

Lemma hex_range b v : hex b = Some v → 0 <= v < 16.
Proof.
  unfold hex, is_ascii_digit, in_range. intros E. repeat case_match; simplify_eq; lia.
Qed.

Lemma nibbles v : 0 <= v → Z.lor (Z.shiftl (Z.shiftr v 4) 4) (Z.land v 15) = v.
Proof.
  intros Hv. apply Z.bits_inj'. intros i Hi. change 15 with (Z.ones 4).
  rewrite Z.lor_spec, Z.shiftl_spec, Z.land_spec, Z.testbit_ones_nonneg by lia.
  destruct (Z.ltb_spec i 4).
  - rewrite Z.testbit_neg_r by lia. by rewrite andb_true_r.
  - rewrite Z.shiftr_spec by lia. rewrite andb_false_r, orb_false_r. f_equal. lia.
Qed.

Lemma land_15_range v : 0 <= Z.land v 15 < 16.
Proof. change 15 with (Z.ones 4). rewrite Z.land_ones by lia. apply Z.mod_pos_bound. lia. Qed.

Lemma shiftr_4_range v : 0 <= v < 256 → 0 <= Z.shiftr v 4 < 16.
Proof.
  intros. rewrite Z.shiftr_div_pow2 by lia. split; [apply Z.div_pos; lia|].
  apply Z.div_lt_upper_bound; lia.
Qed.

(** [digit] prints the nibbles in a way that [hex] reads. *)
Definition prints_hex (digit : Z → byte) : Prop := ∀ v, 0 <= v < 16 → hex (digit v) = Some v.

Lemma hex_pairs_print digit l :
  prints_hex digit →
  hex_pairs (print_hex digit l) = Some l.
Proof.
  intros Hd. induction l as [|b l IH]; [done|]. cbn. pose proof (value_range b).
  rewrite (Hd (Z.shiftr _ _)), (Hd (Z.land _ _)) by auto using land_15_range, shiftr_4_range.
  simpl. rewrite IH. simpl. by rewrite nibbles, byte_of_value by lia.
Qed.

(** *** Byte order and alignment *)

Lemma from_to_bytes endian v : U32.ok v → from_bytes endian (to_bytes endian v) = v.
Proof.
  unfold U32.ok, U32.MAX. intros. unfold from_bytes, to_bytes. destruct endian;
    rewrite ?rev_involutive; apply from_to_le_bytes; change (256 ^ Z.of_nat 4) with 4294967296; lia.
Qed.

Lemma len_to_bytes endian v : len (to_bytes endian v) = 4.
Proof.
  unfold to_bytes, len. destruct endian; rewrite ?length_rev, ?length_to_le_bytes; done.
Qed.

Lemma from_bytes_range endian l : len l = 4 → U32.ok (from_bytes endian l).
Proof.
  unfold len, U32.ok, U32.MAX. intros Hl.
  assert (H : ∀ k : list byte, length k = 4%nat → 0 <= from_le_bytes k <= 4294967295).
  { intros k Hk. pose proof (from_le_bytes_range k) as Hr. rewrite Hk in Hr.
    change (256 ^ Z.of_nat 4) with 4294967296 in Hr. lia. }
  destruct endian; apply H; rewrite ?length_rev; lia.
Qed.

Lemma align_spec v k :
  0 <= k → 0 <= v → v + 2 ^ k <= U64.MAX → align v (2 ^ k) = v + (- v) mod 2 ^ k.
Proof.
  intros Hk Hv Hm. pose proof (Z.pow_pos_nonneg 2 k ltac:(lia) Hk) as Hp. unfold align.
  rewrite Suballoc.land_bit_not by lia.
  pose proof (Z.mod_pos_bound (- v) (2 ^ k) Hp).
  assert (E : (v + 2 ^ k - 1) mod 2 ^ k = 2 ^ k - 1 - (- v) mod 2 ^ k).
  { symmetry. apply (Z.mod_unique_pos _ _ (v / 2 ^ k + (- (- v / 2 ^ k)) - v / 2 ^ k));
      [lia|]. pose proof (Z.div_mod (- v) (2 ^ k)). nia. }
  rewrite E. lia.
Qed.

Lemma align_8 v : 0 <= v → v + 8 <= U64.MAX → align v 8 = v + (- v) mod 8.
Proof. intros. by apply (align_spec v 3). Qed.

Lemma align_4 v : 0 <= v → v + 4 <= U64.MAX → align v 4 = v + (- v) mod 4.
Proof. intros. by apply (align_spec v 2). Qed.
