(* ===== verification/Names.v ===== *)
(** * Names and flags of the message bus

    [tensor-dbus/src/name.rs], [flags.rs] and the errors of [error.rs] that the
    modelled parts return. Free texts of errors are left out. The grammar of
    names (dotted elements, their first and other bytes, 255 bytes at most) is
    what the validators decide. *)

From Stdlib Require Import Strings.String Strings.Byte.
From S2P Require Import Prelude Bytes.

(** ** [Error] *)
Module BusError.

Inductive t :=
| InvalidMatchRule
| InvalidGuid (value : list byte)
| Io
| ConnectionUnusable
| BusOperationOnPeer
| Authentication
| InvalidMessage
| MessageTooLarge (limit : Z)
| SerialExhausted
| InvalidCallFlags
| PendingQueueFull (limit : Z)
| PendingBytesFull (limit : Z)
| AbandonedReplyQueueFull (limit : Z)
| UnixFdUnsupported
| UnixFdLimit (count limit : Z)
| AncillaryTruncated
| InvalidAncillary
| InvalidName (kind value : list byte)
| Body
| Method (name message : list byte).

#[global] Instance t_eq_dec : EqDecision t.
Proof. solve_decision. Defined.

End BusError.

(** [Result<A>], with the panics of the code that computes it. *)
Notation Result := (Outcome BusError.t).

#[export] Instance result_ret : MRet Result := λ A a, Ok a.

#[export] Instance result_bind : MBind Result := λ A B k m,
  match m with Ok a => k a | Err e => Err e | Panic => Panic end.

Lemma result_bind_ok {A B} (m : Result A) (k : A → Result B) b :
  m ≫= k = Ok b → ∃ a, m = Ok a ∧ k a = Ok b.
Proof. destruct m; simpl; [eauto|done..]. Qed.

Lemma result_bind_total {A B} (m : Result A) (k : A → Result B) :
  m ≠ Panic → (∀ a, m = Ok a → k a ≠ Panic) → m ≫= k ≠ Panic.
Proof. destruct m; simpl; [intros _ H; by apply H|done..]. Qed.

(** [if condition { return Err(e) }]. *)
Definition ensure (condition : bool) (e : BusError.t) : Result unit :=
  if condition then Ok tt else Err e.

Lemma ensure_ok c e u : ensure c e = Ok u → c = true.
Proof. by destruct c. Qed.

Lemma ensure_total c e : ensure c e ≠ Panic.
Proof. by destruct c. Qed.

(** ** Names *)

Definition MAX_NAME_LEN : Z := 255.

Definition is_alpha_or_underscore (byte : byte) : bool :=
  is_ascii_alphabetic byte || Byte.eqb byte "_".

Definition is_well_known_start (byte : byte) : bool :=
  is_alpha_or_underscore byte || Byte.eqb byte "-".

Definition is_bus_name_byte (byte : byte) : bool :=
  is_ascii_alphanumeric byte || Byte.eqb byte "_" || Byte.eqb byte "-".

(** The bytes of interface elements and members after the first. *)
Definition is_name_byte (byte : byte) : bool :=
  is_ascii_alphanumeric byte || Byte.eqb byte "_".

(** One element: a first byte and others. *)
Definition valid_element (valid_start valid_byte : byte → bool) (element : list byte) : bool :=
  match element with
  | [] => false
  | first :: others => valid_start first && forallb valid_byte others
  end.

Definition validate_dotted (bytes : list byte) (valid_start valid_byte : byte → bool) : bool :=
  bool_decide ("."%byte ∈ bytes)
  && forallb (valid_element valid_start valid_byte) (split_on "." bytes).

Definition is_unique_name (value : list byte) : bool :=
  bool_decide (value = text "org.freedesktop.DBus")
  || ((len value <=? MAX_NAME_LEN)
      && match strip_prefix (text ":") value with
         | Some name => validate_dotted name is_bus_name_byte is_bus_name_byte
         | None => false
         end).

Definition is_well_known_name (value : list byte) : bool :=
  (len value <=? MAX_NAME_LEN) && validate_dotted value is_well_known_start is_bus_name_byte.

Definition is_interface_name (value : list byte) : bool :=
  (len value <=? MAX_NAME_LEN) && validate_dotted value is_alpha_or_underscore is_name_byte.

Definition is_member_name (value : list byte) : bool :=
  (len value <=? MAX_NAME_LEN) && valid_element is_alpha_or_underscore is_name_byte value.

Definition validate_bus_name (value kind : list byte) : Result unit :=
  ensure (is_unique_name value || is_well_known_name value) (BusError.InvalidName kind value).

Definition validate_unique_name (value kind : list byte) : Result unit :=
  ensure (is_unique_name value) (BusError.InvalidName kind value).

Definition validate_well_known_name (value kind : list byte) : Result unit :=
  ensure (is_well_known_name value) (BusError.InvalidName kind value).

Definition validate_interface_name (value kind : list byte) : Result unit :=
  ensure (is_interface_name value) (BusError.InvalidName kind value).

Definition validate_error_name (value kind : list byte) : Result unit :=
  validate_interface_name value kind.

Definition validate_member_name (value kind : list byte) : Result unit :=
  ensure (is_member_name value) (BusError.InvalidName kind value).

(** The unit tests of [name.rs]. *)
Example bus_names_follow_well_known_and_unique_rules :
  forallb (λ v, is_unique_name v || is_well_known_name v)
    [text "org.tensor.Service-for_you"; text "_org.-service"; text ":1.42";
     text ":org.tensor.Service-for_you"; text "org.freedesktop.DBus"] = true ∧
  existsb (λ v, is_unique_name v || is_well_known_name v)
    [text ""; text "no-dots"; text ".leading.dot"; text "trailing.dot."; text "double..dots";
     text "1st.element"; text "org.2nd"; text ":no-dots"; text ":double..dots"] = false.
Proof. vm_compute. split; reflexivity. Qed.

Example interface_error_and_member_names_are_stricter_than_bus_names :
  forallb is_interface_name [text "org.tensor.Interface_1"; text "_org.tensor"] = true ∧
  existsb is_interface_name [text "org.tensor-with-dash"; text "org.2nd"; text "no_dot"] = false ∧
  forallb is_member_name [text "Ping"; text "_private_1"] = true ∧
  existsb is_member_name [text ""; text "1Ping"; text "has.dot"; text "has-dash"] = false.
Proof. vm_compute. repeat split. Qed.

(** ** Flags *)

Module MethodCallFlags.

(** The bits, a [u8]. *)
Definition t : Type := Z.

Definition KNOWN_BITS : Z := 7.

Definition default : t := 0.

Definition NO_REPLY_EXPECTED : t := 1.

Definition NO_AUTO_START : t := 2.

Definition ALLOW_INTERACTIVE_AUTH : t := 4.

Definition bits (self : t) : Z := self.

Definition contains (self flag : t) : bool := Z.land self flag =? flag.

Definition without (self flag : t) : t := Z.land self (Z.lxor 255 flag).

Definition from_bits_truncate (bits : Z) : t := Z.land bits KNOWN_BITS.

Definition bitor (self rhs : t) : t := Z.lor self rhs.

Example method_call_flags_compose_without_unknown_bits :
  let flags := bitor NO_AUTO_START ALLOW_INTERACTIVE_AUTH in
  bits flags = 6 ∧ contains flags NO_AUTO_START = true ∧
  contains flags NO_REPLY_EXPECTED = false ∧ bits (from_bits_truncate 255) = 7.
Proof. vm_compute. repeat split. Qed.

End MethodCallFlags.

Module RequestNameFlags.

Definition t : Type := Z.

Definition ALLOW_REPLACEMENT : t := 1.

Definition REPLACE_EXISTING : t := 2.

Definition DO_NOT_QUEUE : t := 4.

Definition bitor (self rhs : t) : t := Z.lor self rhs.

End RequestNameFlags.

Module RequestNameReply.

Inductive t := PrimaryOwner | InQueue | Exists | AlreadyOwner.

Definition try_from (value : Z) : Result t :=
  if value =? 1 then Ok PrimaryOwner
  else if value =? 2 then Ok InQueue
  else if value =? 3 then Ok Exists
  else if value =? 4 then Ok AlreadyOwner
  else Err BusError.InvalidMessage.

End RequestNameReply.

Module ReleaseNameReply.

Inductive t := Released | NonExistent | NotOwner.

Definition try_from (value : Z) : Result t :=
  if value =? 1 then Ok Released
  else if value =? 2 then Ok NonExistent
  else if value =? 3 then Ok NotOwner
  else Err BusError.InvalidMessage.

End ReleaseNameReply.

(** ** The grammar of names *)

(** Elements joined by dots. *)
Fixpoint dotted (elements : list (list byte)) : list byte :=
  match elements with
  | [] => []
  | [element] => element
  | element :: elements => element ++ "."%byte :: dotted elements
  end.

Lemma split_on_app_sep (sep : byte) e l :
  sep ∉ e → split_on sep (e ++ sep :: l) = e :: split_on sep l.
Proof.
  induction e as [|b e IH]; simpl; [by rewrite decide_True|].
  intros [Hb He]%not_elem_of_cons. rewrite decide_False by done. by rewrite IH.
Qed.

Lemma split_on_no_sep sep e : sep ∉ e → split_on sep e = [e].
Proof. intros. by apply split_on_none. Qed.

Lemma split_dotted es :
  es ≠ [] → Forall (λ e, "."%byte ∉ e) es → split_on "." (dotted es) = es.
Proof.
  intros Hne Hes. induction Hes as [|e es He Hes IH]; [done|].
  destruct es as [|e' es]; [by apply split_on_no_sep|].
  change (dotted (e :: e' :: es)) with (e ++ "."%byte :: dotted (e' :: es)).
  by rewrite split_on_app_sep, IH.
Qed.

Lemma dotted_split l : dotted (split_on "." l) = l.
Proof.
  induction l as [|b l IH]; [done|]. simpl. case_decide as Hb.
  - destruct (split_on_cons "." l) as (e&es&E). rewrite E in *. subst b. simpl. f_equal. done.
  - destruct (split_on "." l) as [|e es]; [by simpl in IH; subst|]. rewrite <- IH.
    by destruct es.
Qed.

Lemma split_no_sep l : Forall (λ e, "."%byte ∉ e) (split_on "." l).
Proof.
  induction l as [|b l IH]; simpl; [by repeat constructor; apply not_elem_of_nil|].
  case_decide as Hb; [constructor; [apply not_elem_of_nil|done]|].
  destruct (split_on "." l) as [|e es]; inversion_clear IH; constructor.
  - by apply not_elem_of_cons; split; [|apply not_elem_of_nil].
  - constructor.
  - by apply not_elem_of_cons.
  - done.
Qed.

(** The element predicate excludes the dot, so a name is its elements. *)
Definition excludes_dot (p : byte → bool) : Prop := p "."%byte = false.

Lemma valid_element_no_dot vs vb e :
  excludes_dot vs → excludes_dot vb → valid_element vs vb e = true → "."%byte ∉ e.
Proof.
  unfold excludes_dot. intros Hs Hb. destruct e as [|b e]; [done|]. simpl.
  intros [Hf He%forallb_iff]%andb_true_iff. intros [<-|Hin]%elem_of_cons; [congruence|].
  rewrite Forall_forall in He. apply He in Hin. congruence.
Qed.

Lemma validate_dotted_iff vs vb l :
  excludes_dot vs → excludes_dot vb →
  validate_dotted l vs vb = true ↔
  ∃ es, (2 <= length es)%nat ∧ Forall (λ e, valid_element vs vb e = true) es ∧ l = dotted es.
Proof.
  intros Hs Hb. unfold validate_dotted. rewrite andb_true_iff, bool_decide_eq_true. split.
  - intros [Hd He]. exists (split_on "." l). split_and!; [|by apply forallb_iff|].
    + destruct (split_on_cons "." l) as (e&es&E). destruct es; [|rewrite E; simpl; lia].
      by apply split_on_none in E as [_ ?].
    + by rewrite dotted_split.
  - intros (es&Hlen&Hes&->). destruct es as [|e [|e' es]]; [simpl in Hlen; lia..|].
    split.
    + change (dotted (e :: e' :: es)) with (e ++ "."%byte :: dotted (e' :: es)).
      apply elem_of_app. right. by left.
    + rewrite split_dotted; [by apply forallb_iff|done|].
      eapply Forall_impl; [exact Hes|]. intros x. by apply valid_element_no_dot.
Qed.

(** *** Valid names are ASCII *)

Lemma name_byte_ascii b : is_name_byte b = true → is_ascii b = true.
Proof.
  unfold is_name_byte. intros [H|H]%orb_true_iff; [by apply alphanumeric_ascii|].
  apply Byte.byte_dec_bl in H as ->. done.
Qed.

Lemma bus_name_byte_ascii b : is_bus_name_byte b = true → is_ascii b = true.
Proof.
  unfold is_bus_name_byte. intros [H|H]%orb_true_iff; [by apply name_byte_ascii|].
  apply Byte.byte_dec_bl in H as ->. done.
Qed.

Lemma alpha_name_byte b : is_alpha_or_underscore b = true → is_name_byte b = true.
Proof.
  unfold is_alpha_or_underscore, is_name_byte, is_ascii_alphanumeric. intros H.
  apply orb_true_iff in H as [->| ->]; [done|]. apply orb_true_r.
Qed.

Lemma well_known_start_bus b : is_well_known_start b = true → is_bus_name_byte b = true.
Proof.
  unfold is_well_known_start, is_bus_name_byte. intros [H|H]%orb_true_iff.
  - apply alpha_name_byte in H. unfold is_name_byte in H. by rewrite H.
  - rewrite H. apply orb_true_r.
Qed.

Lemma valid_element_ascii vs vb e :
  (∀ b, vs b = true → is_ascii b = true) → (∀ b, vb b = true → is_ascii b = true) →
  valid_element vs vb e = true → Forall (λ b, is_ascii b = true) e.
Proof.
  intros Hs Hb. destruct e as [|b e]; [done|]. simpl. intros [? He%forallb_iff]%andb_true_iff.
  constructor; [by apply Hs|]. eapply Forall_impl; [exact He|]. exact Hb.
Qed.

Lemma dotted_ascii es :
  Forall (Forall (λ b, is_ascii b = true)) es → Forall (λ b, is_ascii b = true) (dotted es).
Proof.
  induction 1 as [|e es He Hes IH]; [done|]. destruct es as [|e' es]; [done|].
  change (dotted (e :: e' :: es)) with (e ++ "."%byte :: dotted (e' :: es)).
  apply Forall_app. split; [done|]. by constructor.
Qed.

Lemma validate_dotted_ascii vs vb l :
  (∀ b, vs b = true → is_ascii b = true) → (∀ b, vb b = true → is_ascii b = true) →
  validate_dotted l vs vb = true → Forall (λ b, is_ascii b = true) l.
Proof.
  unfold validate_dotted. intros Hs Hb [_ He%forallb_iff]%andb_true_iff.
  rewrite <- (dotted_split l). apply dotted_ascii. eapply Forall_impl; [exact He|].
  intros e. by apply valid_element_ascii.
Qed.

Definition is_bus_name (value : list byte) : bool :=
  is_unique_name value || is_well_known_name value.

(** ** The claim *)

Definition interface_element := valid_element is_alpha_or_underscore is_name_byte.

Definition well_known_element := valid_element is_well_known_start is_bus_name_byte.

Definition unique_element := valid_element is_bus_name_byte is_bus_name_byte.

(** [name] is two or more elements joined by dots. *)
Definition of_elements (element : list byte → bool) (name : list byte) : Prop :=
  ∃ es, (2 <= length es)%nat ∧ Forall (λ e, element e = true) es ∧ name = dotted es.

Lemma interface_ascii v : is_interface_name v = true → Forall (λ b, is_ascii b = true) v.
Proof.
  unfold is_interface_name. intros [_ H]%andb_true_iff.
  eapply validate_dotted_ascii; [| |exact H]; auto using alpha_name_byte, name_byte_ascii.
Qed.

Lemma member_ascii v : is_member_name v = true → Forall (λ b, is_ascii b = true) v.
Proof.
  unfold is_member_name. intros [_ H]%andb_true_iff.
  eapply valid_element_ascii; [| |exact H]; auto using alpha_name_byte, name_byte_ascii.
Qed.

Lemma bus_name_ascii v : is_bus_name v = true → Forall (λ b, is_ascii b = true) v.
Proof.
  unfold is_bus_name, is_unique_name, is_well_known_name.
  intros [[H%bool_decide_eq_true|[_ H]%andb_true_iff]%orb_true_iff|[_ H]%andb_true_iff]%orb_true_iff.
  - subst. by apply forallb_iff.
  - destruct (strip_prefix _ v) as [name|] eqn:E; [|done]. apply strip_prefix_some in E as ->.
    apply Forall_app. split; [by apply forallb_iff|].
    eapply validate_dotted_ascii; [| |exact H]; auto using bus_name_byte_ascii.
  - eapply validate_dotted_ascii; [| |exact H]; auto using well_known_start_bus, bus_name_byte_ascii.
Qed.

(** the validators decide the grammar of the bus. Interface (and error)
    names are two or more dotted elements of letters, digits and underscores
    that start with no digit, well-known names allow dashes as well, unique
    names follow a colon and may start with digits, the bus driver is both; a
    member is one element; every name has at most 255 bytes and is ASCII. *)
Theorem names_follow_grammar value :
  (is_interface_name value = true ↔
    len value <= 255 ∧ of_elements interface_element value) ∧
  (is_member_name value = true ↔ len value <= 255 ∧ interface_element value = true) ∧
  (is_well_known_name value = true ↔
    len value <= 255 ∧ of_elements well_known_element value) ∧
  (is_unique_name value = true ↔
    value = text "org.freedesktop.DBus" ∨
    len value <= 255 ∧ ∃ name, value = ":"%byte :: name ∧ of_elements unique_element name) ∧
  (is_interface_name value || is_member_name value || is_unique_name value
    || is_well_known_name value = true → forallb is_ascii value = true).
Proof.
  unfold of_elements, interface_element, well_known_element, unique_element. split_and!.
  - unfold is_interface_name, MAX_NAME_LEN.
    by rewrite andb_true_iff, Z.leb_le, validate_dotted_iff.
  - unfold is_member_name, MAX_NAME_LEN. by rewrite andb_true_iff, Z.leb_le.
  - unfold is_well_known_name, MAX_NAME_LEN.
    by rewrite andb_true_iff, Z.leb_le, validate_dotted_iff.
  - unfold is_unique_name, MAX_NAME_LEN.
    rewrite orb_true_iff, bool_decide_eq_true, andb_true_iff, Z.leb_le.
    split; (intros [?|[Hl H]]; [by left|right; split; [done|]]).
    + destruct (strip_prefix _ value) as [name|] eqn:E; [|done].
      apply strip_prefix_some in E. exists name. split; [done|]. by apply validate_dotted_iff.
    + destruct H as (name&->&H). change (":"%byte :: name) with (text ":" ++ name).
      rewrite strip_prefix_app. by apply validate_dotted_iff.
  - rewrite forallb_iff, <- orb_assoc. intros [[H|H]%orb_true_iff|H]%orb_true_iff.
    + by apply interface_ascii.
    + by apply member_ascii.
    + by apply bus_name_ascii.
Qed.
