(* ===== verification/Wire.v ===== *)
(** * The wire format of the message bus

    [tensor-dbus/src/wire.rs] and [wire/message.rs]: the encoder of outgoing
    messages, the frame length, the decoder with all its checks, and the
    accessors of a decoded message. Both byte orders are decoded. The library
    that serialises bodies (zvariant) is the class [Zvariant]; a value that the
    library counts in [usize] is an [N]. *)

From Stdlib Require Import Strings.String Strings.Byte.
From S2P Require Import Prelude Bytes Names.

(** What the code uses of zvariant. [Body] are the values that are sent (a type
    and a value of it), [deserialize_value] is [Data::deserialize] of one
    variant and answers the number of bytes it consumed. *)
Class Zvariant := {
  Signature : Type;
  signature_try_from : list byte → option Signature;
  to_string : Signature → list byte;
  to_string_no_parens : Signature → list byte;
  object_path_try_from : list byte → bool;
  Fd : Type;
  Body : Type;
  body_signature : Body → Signature;
  serialized_size : Z → Body → option (N * N);
  to_writer : Z → Body → option (list byte * list Fd);
  deserialize_value : Endian → Z → list byte → list Fd → option N;
}.

Definition FIXED_HEADER_LEN : Z := 16.

Definition MAX_MESSAGE_SIZE : Z := 16 * 1024 * 1024.

Definition MAX_UNIX_FDS : Z := 64.

Definition too_large {A} : Result A := Err (BusError.MessageTooLarge MAX_MESSAGE_SIZE).

Definition invalid {A} : Result A := Err BusError.InvalidMessage.

(** [a.checked_add(b)] on [usize]. *)
Definition checked_add (a b : Z) : option Z :=
  if a + b <=? U64.MAX then Some (a + b) else None.

Arguments checked_add : simpl never.

(** [o.ok_or(e)?]. *)
Definition ok_or {A} (o : option A) (e : BusError.t) : Result A :=
  match o with Some a => Ok a | None => Err e end.

Module MessageKind.

Inductive t := MethodCall | MethodReturn | Error | Signal.

#[global] Instance t_eq_dec : EqDecision t.
Proof. solve_decision. Defined.

(** [kind as u8]. *)
Definition to_u8 (self : t) : Z :=
  match self with MethodCall => 1 | MethodReturn => 2 | Error => 3 | Signal => 4 end.

Definition try_from (value : Z) : Result t :=
  if value =? 1 then Ok MethodCall
  else if value =? 2 then Ok MethodReturn
  else if value =? 3 then Ok Error
  else if value =? 4 then Ok Signal
  else invalid.

End MessageKind.

(** A string field of a message is the range of its bytes in the frame. *)
Definition Range : Type := Z * Z.

(** [&l[range]]. *)
Definition index {A} (l : list A) (range : Range) : Result (list A) :=
  if (0 <=? range.1) && (range.1 <=? range.2) && (range.2 <=? len l)
  then Ok (slice l range.1 range.2) else Panic.

Arguments index : simpl never.

Module Outgoing.

Record t := mk {
  kind : MessageKind.t;
  flags : Z;
  serial : Z;
  reply_serial : option Z;
  path : option (list byte);
  interface : option (list byte);
  member : option (list byte);
  error_name : option (list byte);
  destination : option (list byte);
}.

End Outgoing.

Module MethodCall.

Record t := mk {
  serial : Z;
  flags : MethodCallFlags.t;
  destination : option (list byte);
  path : list byte;
  interface : option (list byte);
  member : list byte;
}.

End MethodCall.

(** ** The encoder *)

(** [bytes.resize(n, 0)]. *)
Definition resize (bytes : list byte) (n : Z) : list byte :=
  take (Z.to_nat n) bytes ++ replicate (Z.to_nat n - length bytes) "000"%byte.

Definition align_vec (bytes : list byte) (base alignment : Z) : list byte :=
  resize bytes (align (base + len bytes) alignment - base).

Definition push_u32_field_at (fields : list byte) (base code v : Z) : list byte :=
  let fields := align_vec fields base 8 in
  let fields := fields ++ [byte_of code] ++ ["001"; "u"; "000"]%byte in
  let fields := align_vec fields base 4 in
  fields ++ to_bytes Little v.

Definition push_string_field_at (fields : list byte) (base code : Z) (signature : byte)
    (v : list byte) : Result (list byte) :=
  if MAX_MESSAGE_SIZE <? U64.saturating_add (U64.saturating_add (len fields) (len v)) 16
  then too_large
  else
    let fields := align_vec fields base 8 in
    let fields := fields ++ [byte_of code] ++ ["001"%byte; signature; "000"%byte] in
    let fields := align_vec fields base 4 in
    if len v <=? U32.MAX then Ok (fields ++ to_bytes Little (len v) ++ v ++ ["000"%byte])
    else too_large.

Definition push_signature_field_at (fields : list byte) (base : Z) (v : list byte)
    : Result (list byte) :=
  if len v <=? 255 then
    let fields := align_vec fields base 8 in
    Ok (fields ++ ["008"%byte] ++ ["001"; "g"; "000"]%byte ++ [byte_of (len v)] ++ v ++ ["000"%byte])
  else invalid.

(** [if let Some(value) = field { push_string_field_at(...)?; }]. *)
Definition push_optional (fields : list byte) (code : Z) (signature : byte)
    (field : option (list byte)) : Result (list byte) :=
  match field with
  | Some v => push_string_field_at fields 0 code signature v
  | None => Ok fields
  end.

Module EncodedMessage.

Record t `{Zvariant} := mk { bytes : list byte; unix_fds : list Fd }.

Arguments mk {_}.

End EncodedMessage.

Section encoder.

Context `{Zvariant}.

(** The header fields that come before the size of the body is known. *)
Definition push_fields (outgoing : Outgoing.t) (signature message : list byte)
    : Result (list byte) :=
  message ← push_optional message 1 "o" (Outgoing.path outgoing);
  message ← push_optional message 2 "s" (Outgoing.interface outgoing);
  message ← push_optional message 3 "s" (Outgoing.member outgoing);
  message ← push_optional message 4 "s" (Outgoing.error_name outgoing);
  message ← Ok match Outgoing.reply_serial outgoing with
               | Some v => push_u32_field_at message 0 5 v
               | None => message
               end;
  message ← push_optional message 6 "s" (Outgoing.destination outgoing);
  match signature with
  | [] => Ok message
  | _ => push_signature_field_at message 0 signature
  end.

(** The four writes into the fixed header. *)
Definition fixed_header (outgoing : Outgoing.t) (body_len fields_len : Z) : list byte :=
  ["l"%byte; byte_of (MessageKind.to_u8 (Outgoing.kind outgoing));
   byte_of (Outgoing.flags outgoing); "001"%byte]
  ++ to_bytes Little body_len
  ++ to_bytes Little (Outgoing.serial outgoing)
  ++ to_bytes Little fields_len.

Definition encode_outgoing (outgoing : Outgoing.t) (body : Body) : Result EncodedMessage.t :=
  let signature := to_string_no_parens (body_signature body) in
  let message := resize [] FIXED_HEADER_LEN in
  message ← push_fields outgoing signature message;
  preliminary_size ← ok_or (serialized_size 0 body) BusError.Body;
  let unix_fd_count := Z.of_N preliminary_size.2 in
  if MAX_UNIX_FDS <? unix_fd_count
  then Err (BusError.UnixFdLimit unix_fd_count MAX_UNIX_FDS)
  else
  let message := if unix_fd_count =? 0 then message
                 else push_u32_field_at message 0 9 unix_fd_count in
  let fields_len := len message - FIXED_HEADER_LEN in
  let header_len := align (len message) 8 in
  body_size ← ok_or (serialized_size header_len body) BusError.Body;
  let body_len := Z.of_N body_size.1 in
  total ← ok_or (checked_add header_len body_len) (BusError.MessageTooLarge MAX_MESSAGE_SIZE);
  if MAX_MESSAGE_SIZE <? total then too_large
  else
    let message := fixed_header outgoing body_len fields_len
                   ++ drop (Z.to_nat FIXED_HEADER_LEN) message in
    let message := resize message header_len in
    written ← ok_or (to_writer header_len body) BusError.Body;
    if negb (len written.2 =? unix_fd_count) || negb (len message + len written.1 =? total)
    then invalid
    else Ok (EncodedMessage.mk (message ++ written.1) written.2).

Definition encode_method_call (call : MethodCall.t) (body : Body) : Result EncodedMessage.t :=
  encode_outgoing
    (Outgoing.mk MessageKind.MethodCall (MethodCallFlags.bits (MethodCall.flags call))
       (MethodCall.serial call) None (Some (MethodCall.path call)) (MethodCall.interface call)
       (Some (MethodCall.member call)) None (MethodCall.destination call))
    body.

End encoder.

(** ** Reading bytes *)

Definition parse_endian (b : byte) : Result Endian :=
  if Byte.eqb b "l" then Ok Little else if Byte.eqb b "B" then Ok Big else invalid.

(** [bytes.try_into().unwrap()] panics unless there are four bytes. *)
Definition read_u32 (bytes : list byte) (endian : Endian) : Result Z :=
  if len bytes =? 4 then Ok (from_bytes endian bytes) else Panic.

(** [fixed[i]]. *)
Definition byte_at (bytes : list byte) (i : nat) : Result byte :=
  match bytes !! i with Some b => Ok b | None => Panic end.

(** [take] and its relatives return the bytes and the advanced position. *)
Definition take_bytes (bytes : list byte) (position length end_ : Z)
    : Result (list byte * Z) :=
  next ← ok_or (checked_add position length) BusError.InvalidMessage;
  if (end_ <? next) || (len bytes <? next) then invalid
  else value ← index bytes (position, next); Ok (value, next).

Definition take_u8 (bytes : list byte) (position end_ : Z) : Result (byte * Z) :=
  '(value, position) ← take_bytes bytes position 1 end_;
  b ← byte_at value 0;
  Ok (b, position).

Definition take_u32 (bytes : list byte) (position end_ : Z) (endian : Endian)
    : Result (Z * Z) :=
  '(value, position) ← take_bytes bytes position 4 end_;
  v ← read_u32 value endian;
  Ok (v, position).

Definition take_string_range (bytes : list byte) (position length end_ : Z)
    : Result (Range * Z) :=
  let start := position in
  '(value, position) ← take_bytes bytes position length end_;
  '(terminator, position) ← take_u8 bytes position end_;
  if negb (Byte.eqb terminator "000") then invalid
  else if negb (is_utf8 value) then invalid
  else Ok ((start, start + length), position).

Definition validate_zero_padding (bytes : list byte) : Result unit :=
  if existsb (λ b, negb (Byte.eqb b "000")) bytes then invalid else Ok tt.

Definition align_field_position (bytes : list byte) (position end_ alignment : Z) : Result Z :=
  let aligned := align position alignment in
  '(padding, position) ← take_bytes bytes position (aligned - position) end_;
  _ ← validate_zero_padding padding;
  Ok position.

Definition frame_len (fixed : list byte) : Result Z :=
  b0 ← byte_at fixed 0;
  endian ← parse_endian b0;
  b3 ← byte_at fixed 3;
  if negb (Byte.eqb b3 "001") then invalid
  else
  b1 ← byte_at fixed 1;
  _ ← MessageKind.try_from (value b1);
  body_len ← (slice4 ← index fixed (4, 8); read_u32 slice4 endian);
  fields_len ← (slice4 ← index fixed (12, 16); read_u32 slice4 endian);
  header_end ← ok_or (checked_add FIXED_HEADER_LEN fields_len)
                     (BusError.MessageTooLarge MAX_MESSAGE_SIZE);
  let header_len := align header_end 8 in
  total ← ok_or (checked_add header_len body_len) (BusError.MessageTooLarge MAX_MESSAGE_SIZE);
  if MAX_MESSAGE_SIZE <? total then too_large else Ok total.

(** ** Decoded messages *)

Module Message.

Section message.

Context `{Zvariant}.

(** [frame] and [unix_fds] are shared, the ranges point into [frame]. *)
Record t := mk {
  kind : MessageKind.t;
  flags : Z;
  serial : Z;
  reply_serial : option Z;
  path : option Range;
  interface : option Range;
  member : option Range;
  error_name : option Range;
  destination : option Range;
  sender : option Range;
  declared_unix_fds : option Z;
  signature : option Range;
  frame : list byte;
  body_range : Range;
  unix_fds : list Fd;
  body_position : Z;
  endian : Endian;
}.

(** The header fields as they are assigned while the fields are parsed. *)
Definition with_fields (self : t) reply_serial path interface member error_name destination
    sender declared_unix_fds signature : t :=
  mk (kind self) (flags self) (serial self) reply_serial path interface member error_name
    destination sender declared_unix_fds signature (frame self) (body_range self) (unix_fds self)
    (body_position self) (endian self).

Definition set_reply_serial (self : t) v : t :=
  with_fields self (Some v) (path self) (interface self) (member self) (error_name self)
    (destination self) (sender self) (declared_unix_fds self) (signature self).

Definition set_declared_unix_fds (self : t) v : t :=
  with_fields self (reply_serial self) (path self) (interface self) (member self)
    (error_name self) (destination self) (sender self) (Some v) (signature self).

Definition set_signature (self : t) v : t :=
  with_fields self (reply_serial self) (path self) (interface self) (member self)
    (error_name self) (destination self) (sender self) (declared_unix_fds self) (Some v).

Definition assign_string_field (self : t) (code : Z) (v : Range) : t :=
  let '(path, interface, member, error_name, destination, sender) :=
    (path self, interface self, member self, error_name self, destination self, sender self) in
  let assign path interface member error_name destination sender :=
    with_fields self (reply_serial self) path interface member error_name destination sender
      (declared_unix_fds self) (signature self) in
  if code =? 1 then assign (Some v) interface member error_name destination sender
  else if code =? 2 then assign path (Some v) member error_name destination sender
  else if code =? 3 then assign path interface (Some v) error_name destination sender
  else if code =? 4 then assign path interface member (Some v) destination sender
  else if code =? 6 then assign path interface member error_name (Some v) sender
  else if code =? 7 then assign path interface member error_name destination (Some v)
  else self.

(** [header]: the text of a field; [expect] and the slice panic when the range
    is not what the decoder validated. *)
Definition header (self : t) (range : option Range) : Result (option (list byte)) :=
  match range with
  | None => Ok None
  | Some range =>
      bytes ← index (frame self) range;
      if is_utf8 bytes then Ok (Some bytes) else Panic
  end.

Definition path_str (self : t) := header self (path self).

Definition interface_str (self : t) := header self (interface self).

Definition member_str (self : t) := header self (member self).

Definition sender_str (self : t) := header self (sender self).

Definition error_name_str (self : t) := header self (error_name self).

Definition destination_str (self : t) := header self (destination self).

Definition signature_str (self : t) : Result (list byte) :=
  text ← header self (signature self); Ok (default [] text).

Definition unix_fd_count (self : t) : Z := len (unix_fds self).

Definition wire_len (self : t) : Z := len (frame self).

Definition expects_reply (self : t) : bool :=
  bool_decide (kind self = MessageKind.MethodCall) && (Z.land (flags self) 1 =? 0).

Definition method_call_flags (self : t) : option MethodCallFlags.t :=
  if decide (kind self = MessageKind.MethodCall)
  then Some (MethodCallFlags.from_bits_truncate (flags self)) else None.

Definition body_bytes (self : t) : Result (list byte) := index (frame self) (body_range self).

(** [error_message]: the first string of the body, read without the library. *)
Definition error_message (self : t) : Result (option (list byte)) :=
  signature ← signature_str self;
  if negb (starts_with signature (text "s")) then Ok None
  else
    body ← body_bytes self;
    if len body <? 4 then Ok None
    else
      length ← read_u32 (slice body 0 4) (endian self);
      let end_ := 4 + length in
      if len body <? end_ then Ok None
      else if negb (bool_decide (body !! Z.to_nat end_ = Some "000"%byte)) then Ok None
      else
        let value := slice body 4 end_ in
        Ok (if is_utf8 value then Some value else None).

Definition method_error (self : t) : Result BusError.t :=
  name ← error_name_str self;
  message ← error_message self;
  Ok (BusError.Method (default (text "org.freedesktop.DBus.Error.Failed") name)
                      (default [] message)).

(** [body::<R>]: [expected] is [R::SIGNATURE], [deserialize] the library's
    decoder of [R] ([None] for the signature of a value without bytes), which
    answers the value and the number of bytes it consumed. *)
Definition body {R} (expected : Signature)
    (deserialize : option (list byte) → Endian → Z → list byte → list Fd → option (R * N))
    (self : t) : Result R :=
  signature ← signature_str self;
  if negb (bool_decide (to_string_no_parens expected = signature)) then invalid
  else
    data ← body_bytes self;
    result ← ok_or (deserialize (match signature with [] => None | _ => Some signature end)
                      (endian self) (body_position self) data (unix_fds self)) BusError.Body;
    let '(value, consumed) := result in
    if negb (Z.of_N consumed =? len data) then invalid else Ok value.

End message.

End Message.

(** [message.kind()] on a parsed frame begins with empty fields. *)
Definition empty_message `{Zvariant} (kind : MessageKind.t) (flags serial : Z)
    (frame : list byte) (body_range : Range) (unix_fds : list Fd) (endian : Endian) : Message.t :=
  Message.mk kind flags serial None None None None None None None None None
    frame body_range unix_fds body_range.1 endian.

(** ** The decoder *)

(** The signature that a known field must have. *)
Definition known_field_signature (code : Z) : option (list byte) :=
  if code =? 1 then Some (text "o")
  else if (code =? 2) || (code =? 3) || (code =? 4) || (code =? 6) || (code =? 7)
  then Some (text "s")
  else if (code =? 5) || (code =? 9) then Some (text "u")
  else if code =? 8 then Some (text "g")
  else None.

Section decoder.

Context `{Zvariant}.

Definition skip_unknown_field (bytes : list byte) (variant_position fields_end : Z)
    (endian : Endian) (signature_bytes : list byte) (message : Message.t) : Result Z :=
  if negb (is_utf8 signature_bytes) then invalid
  else
  signature ← ok_or (signature_try_from signature_bytes) BusError.InvalidMessage;
  if bool_decide (signature_bytes = []) || negb (bool_decide (to_string signature = signature_bytes))
  then invalid
  else
  data ← index bytes (variant_position, fields_end);
  consumed ← ok_or (deserialize_value endian variant_position data (Message.unix_fds message))
                   BusError.InvalidMessage;
  position ← ok_or (checked_add variant_position (Z.of_N consumed)) BusError.InvalidMessage;
  if fields_end <? position then invalid else Ok position.

(** The duplicate and signature checks of a known field; the new mask. *)
Definition check_known_field (known_fields code : Z) (signature : list byte) : Result Z :=
  match known_field_signature code with
  | Some expected =>
      let bit := Z.shiftl 1 code in
      if negb (Z.land known_fields bit =? 0) then invalid
      else if negb (bool_decide (signature = expected)) then invalid
      else Ok (Z.lor known_fields bit)
  | None => Ok known_fields
  end.

(** The [match] on the signature of a field: the new position and message. *)
Definition parse_field_value (bytes : list byte) (position variant_position fields_end : Z)
    (endian : Endian) (code : Z) (signature : list byte) (message : Message.t)
    : Result (Z * Message.t) :=
  if bool_decide (signature = text "s") || bool_decide (signature = text "o") then
    position ← align_field_position bytes position fields_end 4;
    '(length, position) ← take_u32 bytes position fields_end endian;
    '(range, position) ← take_string_range bytes position length fields_end;
    Ok (position, Message.assign_string_field message code range)
  else if bool_decide (signature = text "g") then
    '(length, position) ← take_u8 bytes position fields_end;
    '(range, position) ← take_string_range bytes position (value length) fields_end;
    Ok (position, if code =? 8 then Message.set_signature message range else message)
  else if bool_decide (signature = text "u") then
    position ← align_field_position bytes position fields_end 4;
    '(v, position) ← take_u32 bytes position fields_end endian;
    Ok (position,
        if code =? 5 then Message.set_reply_serial message v
        else if code =? 9 then Message.set_declared_unix_fds message v
        else message)
  else
    position ← skip_unknown_field bytes variant_position fields_end endian signature message;
    Ok (position, message).

(** One field after its padding: the new position, mask and message. *)
Definition parse_field (bytes : list byte) (position fields_end : Z) (endian : Endian)
    (known_fields : Z) (message : Message.t) : Result (Z * Z * Message.t) :=
  '(code, position) ← take_u8 bytes position fields_end;
  let code := value code in
  if code =? 0 then invalid
  else
  let variant_position := position in
  '(signature_len, position) ← take_u8 bytes position fields_end;
  '(signature, position) ← take_bytes bytes position (value signature_len) fields_end;
  '(terminator, position) ← take_u8 bytes position fields_end;
  if negb (Byte.eqb terminator "000") then invalid
  else
  known_fields ← check_known_field known_fields code signature;
  '(position, message) ←
    parse_field_value bytes position variant_position fields_end endian code signature message;
  Ok (position, known_fields, message).

(** The loop; [Panic] when the fuel runs out. *)
Fixpoint parse_fields_loop (fuel : nat) (bytes : list byte) (position fields_end : Z)
    (endian : Endian) (known_fields : Z) (message : Message.t) : Result Message.t :=
  match fuel with
  | O => Panic
  | S fuel =>
      if position <? fields_end then
        position ← align_field_position bytes position fields_end 8;
        if position =? fields_end then Ok message
        else
          '(position, known_fields, message) ←
            parse_field bytes position fields_end endian known_fields message;
          parse_fields_loop fuel bytes position fields_end endian known_fields message
      else Ok message
  end.

(** Every field takes at least one byte. *)
Definition parse_fields (bytes : list byte) (fields_end : Z) (endian : Endian)
    (message : Message.t) : Result Message.t :=
  parse_fields_loop (S (Z.to_nat (fields_end - FIXED_HEADER_LEN))) bytes FIXED_HEADER_LEN
    fields_end endian 0 message.

Definition validate_unix_fds (message : Message.t) : Result unit :=
  let declared := default 0 (Message.declared_unix_fds message) in
  if MAX_UNIX_FDS <? declared then Err (BusError.UnixFdLimit declared MAX_UNIX_FDS)
  else if negb (declared =? len (Message.unix_fds message)) then invalid
  else Ok tt.

(** Whether a required field is missing. *)
Definition missing_field (message : Message.t) : bool :=
  match Message.kind message with
  | MessageKind.MethodCall =>
      bool_decide (Message.path message = None) || bool_decide (Message.member message = None)
  | MessageKind.MethodReturn => bool_decide (Message.reply_serial message = None)
  | MessageKind.Error =>
      bool_decide (Message.reply_serial message = None)
      || bool_decide (Message.error_name message = None)
  | MessageKind.Signal =>
      bool_decide (Message.path message = None) || bool_decide (Message.interface message = None)
      || bool_decide (Message.member message = None)
  end.

Definition validate_required_fields (message : Message.t) : Result unit :=
  if missing_field message then invalid else Ok tt.

(** Whether a field is present that the kind of message may not have. *)
Definition unexpected_field (message : Message.t) : bool :=
  match Message.kind message with
  | MessageKind.MethodCall | MessageKind.Signal =>
      bool_decide (is_Some (Message.reply_serial message))
      || bool_decide (is_Some (Message.error_name message))
  | MessageKind.MethodReturn =>
      bool_decide (is_Some (Message.path message))
      || bool_decide (is_Some (Message.interface message))
      || bool_decide (is_Some (Message.member message))
      || bool_decide (is_Some (Message.error_name message))
  | MessageKind.Error =>
      bool_decide (is_Some (Message.path message))
      || bool_decide (is_Some (Message.interface message))
      || bool_decide (is_Some (Message.member message))
  end.

Definition validate_field_semantics (message : Message.t) : Result unit :=
  if unexpected_field message then invalid else Ok tt.

(** [map_invalid_name(validate(value))] for a field that is present. *)
Definition validate_optional (field : Result (option (list byte)))
    (valid : list byte → bool) : Result unit :=
  field ← field;
  match field with
  | Some v => ensure (valid v) BusError.InvalidMessage
  | None => Ok tt
  end.

Definition validate_field_values (message : Message.t) : Result unit :=
  _ ← validate_optional (Message.path_str message) object_path_try_from;
  _ ← validate_optional (Message.interface_str message) is_interface_name;
  _ ← validate_optional (Message.member_str message) is_member_name;
  _ ← validate_optional (Message.error_name_str message) is_interface_name;
  _ ← validate_optional (Message.destination_str message) is_bus_name;
  _ ← validate_optional (Message.sender_str message) is_unique_name;
  if bool_decide (Message.reply_serial message = Some 0) then invalid else Ok tt.

Definition validate_body_signature (message : Message.t) : Result unit :=
  signature ← Message.signature_str message;
  _ ← ok_or (signature_try_from signature) BusError.InvalidMessage;
  body ← Message.body_bytes message;
  if negb (Bool.eqb (bool_decide (body = [])) (bool_decide (signature = []))) then invalid
  else Ok tt.

Definition decode_message (bytes : list byte) (unix_fds : list Fd) : Result Message.t :=
  if len bytes <? FIXED_HEADER_LEN then invalid
  else
  let fixed := slice bytes 0 FIXED_HEADER_LEN in
  total ← frame_len fixed;
  if negb (len bytes =? total) then invalid
  else
  b0 ← byte_at fixed 0; endian ← parse_endian b0;
  b1 ← byte_at fixed 1; kind ← MessageKind.try_from (value b1);
  flags ← byte_at fixed 2;
  serial ← (slice4 ← index fixed (8, 12); read_u32 slice4 endian);
  if serial =? 0 then invalid
  else
  fields_len ← (slice4 ← index fixed (12, 16); read_u32 slice4 endian);
  let fields_end := FIXED_HEADER_LEN + fields_len in
  let body_position := align fields_end 8 in
  body_len ← (slice4 ← index fixed (4, 8); read_u32 slice4 endian);
  let frame := bytes in
  let message := empty_message kind (value flags) serial frame
                   (body_position, body_position + body_len) unix_fds endian in
  message ← parse_fields frame fields_end endian message;
  padding ← index frame (fields_end, body_position);
  _ ← validate_zero_padding padding;
  _ ← validate_unix_fds message;
  _ ← validate_required_fields message;
  _ ← validate_field_semantics message;
  _ ← validate_field_values message;
  _ ← validate_body_signature message;
  Ok message.

End decoder.
