(* ===== verification/WireSpec.v ===== *)
(** * What the wire format promises

    A message that the encoder produced is framed and decoded as it was sent,
    or rejected exactly when it breaks a rule of the bus; the decoder returns on
    arbitrary bytes, and what it accepts obeys every rule, so that the accessors
    of a message never panic. *)

From Stdlib Require Import Strings.String Strings.Byte.
From S2P Require Import Prelude Bytes Names Wire.

(** ** Bytes at a position of a frame *)

Definition located (frame : list byte) (p : Z) (l : list byte) : Prop :=
  ∃ before after, frame = before ++ l ++ after ∧ p = len before.

Lemma located_app frame p l k :
  located frame p (l ++ k) → located frame p l ∧ located frame (p + len l) k.
Proof.
  intros (b&a&->&->). split.
  - exists b, (k ++ a). by rewrite <- app_assoc.
  - exists (b ++ l), a. by rewrite <- !app_assoc, len_app.
Qed.

Lemma located_cons frame p x l :
  located frame p (x :: l) → located frame p [x] ∧ located frame (p + 1) l.
Proof. apply (located_app frame p [x] l). Qed.

Lemma located_intro a l b p : p = len a → located (a ++ l ++ b) p l.
Proof. intros ->. by exists a, b. Qed.

Lemma located_range frame p l : located frame p l → 0 <= p ∧ p + len l <= len frame.
Proof. intros (b&a&->&->). len_simpl. pose proof (len_nonneg a). pose proof (len_nonneg b). lia. Qed.

Lemma located_slice frame p l : located frame p l → slice frame p (p + len l) = l.
Proof. intros (b&a&->&->). by apply slice_mid. Qed.

Lemma index_ok {A} (l : list A) a b :
  0 <= a → a <= b → b <= len l → index l (a, b) = Ok (slice l a b).
Proof.
  intros. unfold index. simpl. by rewrite !(proj2 (Z.leb_le _ _)) by lia.
Qed.

Lemma index_inv {A} (l : list A) r k :
  index l r = Ok k → 0 <= r.1 ∧ r.1 <= r.2 ∧ r.2 <= len l ∧ k = slice l r.1 r.2.
Proof. unfold index. case_match; [|done]. intros [= <-]. split_and!; [lia..|done]. Qed.

Lemma located_index frame p l : located frame p l → index frame (p, p + len l) = Ok l.
Proof.
  intros Hl. pose proof (located_range _ _ _ Hl). pose proof (len_nonneg l).
  rewrite index_ok by lia. by rewrite located_slice.
Qed.

Lemma located_byte frame (n : nat) b :
  located frame (Z.of_nat n) [b] → byte_at frame n = Ok b.
Proof.
  intros (l&a&->&E). unfold len in E. apply Nat2Z.inj in E as ->. unfold byte_at.
  change ([b] ++ a) with (b :: a). by rewrite list_lookup_middle.
Qed.

(** Frames are far below the range of [usize]. *)
Definition addressable (frame : list byte) : Prop := len frame <= MAX_MESSAGE_SIZE + 65536.

Section take.

Context (frame : list byte) (end_ : Z).

Hypothesis frame_addressable : addressable frame.
Hypothesis end_inside : end_ <= len frame.

#[local] Abbreviation at_ := (located frame).

Lemma checked_add_ok a b : a + b <= U64.MAX → checked_add a b = Some (a + b).
Proof. unfold checked_add. by intros ->%Z.leb_le. Qed.

Lemma checked_add_inv a b c : checked_add a b = Some c → c = a + b.
Proof. unfold checked_add. case_match; [|done]. by intros [= <-]. Qed.

Lemma take_located p l :
  at_ p l → p + len l <= end_ → take_bytes frame p (len l) end_ = Ok (l, p + len l).
Proof.
  intros Hl He. unfold addressable, MAX_MESSAGE_SIZE in *. unfold take_bytes.
  rewrite checked_add_ok by (unfold U64.MAX; lia). cbn.
  rewrite (proj2 (Z.ltb_ge _ _)), (proj2 (Z.ltb_ge _ _)) by lia. simpl.
  by rewrite (located_index _ _ _ Hl).
Qed.

Lemma take_u8_located p b : at_ p [b] → p + 1 <= end_ → take_u8 frame p end_ = Ok (b, p + 1).
Proof.
  intros Hl He. pose proof (take_located p [b] Hl He) as Ht.
  change (len [b]) with 1 in Ht. unfold take_u8. by rewrite Ht.
Qed.

Lemma take_u32_located p endian v :
  at_ p (to_bytes endian v) → p + 4 <= end_ → U32.ok v →
  take_u32 frame p end_ endian = Ok (v, p + 4).
Proof.
  intros Hl He Hv. unfold take_u32. rewrite <- (len_to_bytes endian v) in He.
  pose proof (take_located p _ Hl He) as Ht. rewrite len_to_bytes in Ht. rewrite Ht. cbn.
  unfold read_u32. rewrite len_to_bytes. simpl. by rewrite from_to_bytes.
Qed.

Lemma take_string_located p v :
  at_ p (v ++ ["000"%byte]) → p + len v + 1 <= end_ → is_utf8 v = true →
  take_string_range frame p (len v) end_ = Ok ((p, p + len v), p + len v + 1).
Proof.
  intros [Hv H0]%located_app He Hu. unfold take_string_range.
  rewrite (take_located p v Hv) by lia. cbn. rewrite (take_u8_located _ _ H0) by lia. cbn.
  by rewrite Hu.
Qed.

(** Zero bytes up to the next multiple of eight. *)
Definition padding (p : Z) : list byte := replicate (Z.to_nat ((- p) mod 8)) "000"%byte.

Lemma len_padding p : len (padding p) = (- p) mod 8.
Proof. apply len_replicate. apply Z.mod_pos_bound. lia. Qed.

Lemma padding_range p : 0 <= len (padding p) < 8.
Proof. rewrite len_padding. apply Z.mod_pos_bound. lia. Qed.

Lemma validate_zeros n : validate_zero_padding (replicate n "000"%byte) = Ok tt.
Proof.
  unfold validate_zero_padding. assert (existsb (λ b, negb (Byte.eqb b "000")) (replicate n "000"%byte) = false) as ->; [|done].
  by induction n.
Qed.

Lemma align_8_padding p : 0 <= p → p <= len frame → align p 8 = p + len (padding p).
Proof.
  intros. unfold addressable, MAX_MESSAGE_SIZE in *. rewrite len_padding.
  apply align_8; unfold U64.MAX; lia.
Qed.

Lemma align_field_located p :
  at_ p (padding p) → p + len (padding p) <= end_ →
  align_field_position frame p end_ 8 = Ok (p + len (padding p)).
Proof.
  intros Hl He. pose proof (located_range _ _ _ Hl). pose proof (len_nonneg (padding p)).
  unfold align_field_position. rewrite align_8_padding by lia.
  replace (p + len (padding p) - p) with (len (padding p)) by lia.
  rewrite (take_located p _ Hl He). cbn. by rewrite (validate_zeros _ : validate_zero_padding (padding p) = Ok tt).
Qed.

(** No padding is needed at a multiple of four. *)
Lemma align_field_4 p :
  p mod 4 = 0 → 0 <= p → p <= end_ → align_field_position frame p end_ 4 = Ok p.
Proof.
  intros Hm Hp He. unfold addressable, MAX_MESSAGE_SIZE in *. unfold align_field_position.
  rewrite align_4 by (unfold U64.MAX; lia).
  assert ((- p) mod 4 = 0) as -> by (rewrite Z.mod_opp_l_z; lia).
  replace (p + 0 - p) with 0 by lia.
  assert (Hl : at_ p []).
  { exists (take (Z.to_nat p) frame), (drop (Z.to_nat p) frame). split; [by simpl; rewrite take_drop|].
    unfold len in *. rewrite length_take. lia. }
  pose proof (take_located p [] Hl) as Ht. change (len (@nil byte)) with 0 in Ht.
  rewrite Z.add_0_r in Ht. rewrite Ht by lia. done.
Qed.

End take.

(** ** Header fields *)

(** The known fields: strings (and object paths), numbers and the signature. *)
Inductive Field :=
| StringField (code : Z) (signature : byte) (v : list byte)
| U32Field (code : Z) (v : Z)
| SignatureField (v : list byte).

Module Field.

Definition code (f : Field) : Z :=
  match f with StringField code _ _ | U32Field code _ => code | SignatureField _ => 8 end.

Definition signature (f : Field) : byte :=
  match f with StringField _ s _ => s | U32Field _ _ => "u" | SignatureField _ => "g" end.

Definition payload (endian : Endian) (f : Field) : list byte :=
  match f with
  | StringField _ _ v => to_bytes endian (len v) ++ v ++ ["000"%byte]
  | U32Field _ v => to_bytes endian v
  | SignatureField v => byte_of (len v) :: v ++ ["000"%byte]
  end.

(** The field at position [p]. *)
Definition encode (endian : Endian) (p : Z) (f : Field) : list byte :=
  padding p ++ [byte_of (code f); "001"%byte; signature f; "000"%byte] ++ payload endian f.

Fixpoint encode_all (endian : Endian) (p : Z) (fs : list Field) : list byte :=
  match fs with
  | [] => []
  | f :: fs => encode endian p f ++ encode_all endian (p + len (encode endian p f)) fs
  end.

(** A field the decoder knows, with a value of its type. *)
Definition ok (f : Field) : Prop :=
  match f with
  | StringField code s v =>
      code ∈ [1; 2; 3; 4; 6; 7] ∧ known_field_signature code = Some [s] ∧
      len v <= U32.MAX ∧ is_utf8 v = true
  | U32Field code v => code ∈ [5; 9] ∧ U32.ok v
  | SignatureField v => len v <= 255 ∧ is_utf8 v = true
  end.

Lemma encode_all_app endian p fs gs :
  encode_all endian p (fs ++ gs) =
    encode_all endian p fs ++ encode_all endian (p + len (encode_all endian p fs)) gs.
Proof.
  revert p. induction fs as [|f fs IH]; intros p; simpl; [by rewrite Z.add_0_r|].
  rewrite IH, <- app_assoc, len_app. do 3 f_equal. lia.
Qed.

Lemma len_encode endian p f :
  len (encode endian p f) = len (padding p) + 4 + len (payload endian f).
Proof. unfold encode. len_simpl. lia. Qed.

Lemma ok_code f : ok f → 1 <= code f <= 9.
Proof.
  destruct f as [c s v|c v|v]; simpl; [intros [H _]|intros [H _]|lia];
    rewrite ?elem_of_cons, elem_of_nil in H; lia.
Qed.

Lemma ok_known f : ok f → known_field_signature (code f) = Some [signature f].
Proof.
  destruct f as [c s v|c v|v]; simpl; [by intros (_&?&_)| |done].
  intros [H _]. rewrite !elem_of_cons, elem_of_nil in H. by destruct H as [->|[->|[]]].
Qed.

Section message.

Context `{Zvariant}.

(** What the decoder records for a field at position [p]. *)
Definition apply (p : Z) (f : Field) (m : Message.t) : Message.t :=
  let start := p + len (padding p) + 4 in
  match f with
  | StringField code _ v => Message.assign_string_field m code (start + 4, start + 4 + len v)
  | U32Field code v =>
      if code =? 5 then Message.set_reply_serial m v else Message.set_declared_unix_fds m v
  | SignatureField v => Message.set_signature m (start + 1, start + 1 + len v)
  end.

Fixpoint apply_all (endian : Endian) (p : Z) (fs : list Field) (m : Message.t) : Message.t :=
  match fs with
  | [] => m
  | f :: fs => apply_all endian (p + len (encode endian p f)) fs (apply p f m)
  end.

End message.

End Field.

Section parse.

Context `{Zvariant} (frame : list byte) (end_ : Z) (endian : Endian).

Hypothesis frame_addressable : addressable frame.
Hypothesis end_inside : end_ <= len frame.

#[local] Abbreviation at_ := (located frame).

Lemma string_codes code s v :
  Field.ok (StringField code s v) → [s] = text "s" ∨ [s] = text "o".
Proof.
  intros Hok. pose proof (Field.ok_known _ Hok) as E. simpl in E. destruct Hok as [Hc _].
  rewrite !elem_of_cons, elem_of_nil in Hc. unfold known_field_signature in E.
  repeat (destruct Hc as [->|Hc]; [simpl in E; injection E as <-; by (left + right)|]). done.
Qed.

Lemma parse_value_located p f vp m :
  let start := p + len (padding p) + 4 in
  at_ start (Field.payload endian f) → 0 <= p → start + len (Field.payload endian f) <= end_ →
  Field.ok f →
  parse_field_value frame start vp end_ endian (Field.code f) [Field.signature f] m =
    Ok (start + len (Field.payload endian f), Field.apply p f m).
Proof.
  intros start Hl Hp He Hok.
  assert (Hs : start mod 4 = 0).
  { unfold start. rewrite len_padding. pose proof (Z.div_mod p 8). pose proof (Z.div_mod (- p) 8).
    apply Z.mod_divide; [lia|]. exists (2 * (- (- p / 8)) + 1). lia. }
  pose proof (padding_range p) as Hpad. pose proof (len_nonneg (Field.payload endian f)).
  unfold parse_field_value. destruct f as [code s v|code v|v]; cbn [Field.payload] in *.
  - pose proof (string_codes _ _ _ Hok) as Hs'. destruct Hok as (_&_&Hlen&Hu).
    cbn [Field.signature Field.code].
    assert (bool_decide ([s] = text "s") || bool_decide ([s] = text "o") = true) as ->.
    { rewrite orb_true_iff, !bool_decide_eq_true. done. }
    apply located_app in Hl as [Hlen4 Hv]. len_simpl. rewrite len_to_bytes in *.
    rewrite align_field_4 by (try done; lia). cbn.
    pose proof (len_nonneg v). assert (Hu32 : U32.ok (len v)) by (split; lia).
    rewrite (take_u32_located frame end_ frame_addressable end_inside start endian (len v))
      by (done || lia).
    cbn. rewrite (take_string_located frame end_ frame_addressable end_inside (start + 4) v)
      by (done || lia).
    cbn. f_equal; f_equal; len_simpl; lia.
  - destruct Hok as [Hc Hv]. rewrite len_to_bytes in *. cbn [Field.signature Field.code].
    change (["u"%byte]) with (text "u").
    rewrite !bool_decide_eq_false_2, bool_decide_eq_true_2 by (try done). cbn.
    rewrite align_field_4 by (try done; lia). cbn.
    rewrite (take_u32_located frame end_ frame_addressable end_inside start endian v) by (done || lia). cbn.
    rewrite !elem_of_cons, elem_of_nil in Hc. by destruct Hc as [->|[->|[]]].
  - destruct Hok as [Hlen Hu]. pose proof (len_nonneg v). cbn [Field.signature Field.code].
    change (["g"%byte]) with (text "g").
    rewrite !bool_decide_eq_false_2, bool_decide_eq_true_2 by (try done). cbn.
    apply located_cons in Hl as [Hb Hv]. len_simpl.
    rewrite (take_u8_located frame end_ frame_addressable end_inside start _ Hb) by lia. cbn.
    rewrite value_of_small by (pose proof (len_nonneg v); lia).
    rewrite (take_string_located frame end_ frame_addressable end_inside (start + 1) v)
      by (done || lia).
    cbn. f_equal; f_equal; len_simpl; lia.
Qed.

(** The mask of the known fields that were seen. *)
Lemma check_known_ok f mask :
  Field.ok f → Z.testbit mask (Field.code f) = false →
  check_known_field mask (Field.code f) [Field.signature f] =
    Ok (Z.lor mask (Z.shiftl 1 (Field.code f))).
Proof.
  intros Hok Hm. unfold check_known_field. rewrite (Field.ok_known f Hok).
  pose proof (Field.ok_code f Hok) as Hc.
  assert (Z.land mask (Z.shiftl 1 (Field.code f)) = 0) as ->.
  { apply Z.bits_inj'. intros i Hi. rewrite Z.land_spec, Z.bits_0, Z.shiftl_1_l.
    rewrite Z.pow2_bits_eqb by lia. destruct (Z.eqb_spec (Field.code f) i) as [<-|]; [by rewrite Hm|].
    apply andb_false_r. }
  by rewrite Z.eqb_refl, bool_decide_eq_true_2.
Qed.

Lemma mask_spec mask c d :
  1 <= c → 0 <= d → Z.testbit (Z.lor mask (Z.shiftl 1 c)) d = Z.testbit mask d || (c =? d).
Proof. intros. by rewrite Z.lor_spec, Z.shiftl_1_l, Z.pow2_bits_eqb by lia. Qed.

Lemma parse_field_located p f mask m :
  let q := p + len (padding p) in
  at_ p (Field.encode endian p f) → 0 <= p → p + len (Field.encode endian p f) <= end_ →
  Field.ok f → Z.testbit mask (Field.code f) = false →
  align_field_position frame p end_ 8 = Ok q ∧ q < end_ ∧
  parse_field frame q end_ endian mask m =
    Ok (p + len (Field.encode endian p f), Z.lor mask (Z.shiftl 1 (Field.code f)),
        Field.apply p f m).
Proof.
  intros q Hl Hp He Hok Hm. rewrite Field.len_encode in *. unfold Field.encode in Hl.
  apply located_app in Hl as [Hpad Hl]. fold q in Hl.
  pose proof (len_nonneg (Field.payload endian f)).
  split; [apply align_field_located; try done; lia|]. split; [lia|].
  apply located_cons in Hl as [Hb0 Hl]. apply located_cons in Hl as [Hb1 Hl].
  apply located_cons in Hl as [Hb2 Hl]. apply located_cons in Hl as [Hb3 Hl].
  unfold parse_field. pose proof (Field.ok_code f Hok).
  rewrite (take_u8_located frame end_ frame_addressable end_inside q _ Hb0) by lia. cbn.
  rewrite value_of_small, (proj2 (Z.eqb_neq (Field.code f) 0)) by lia.
  rewrite (take_u8_located frame end_ frame_addressable end_inside _ _ Hb1) by lia. cbn.
  pose proof (take_located frame end_ frame_addressable end_inside _ _ Hb2) as Ht.
  change (len [Field.signature f]) with 1 in Ht. change (value "001"%byte) with 1.
  rewrite Ht by lia. cbn.
  rewrite (take_u8_located frame end_ frame_addressable end_inside _ _ Hb3) by lia. cbn.
  rewrite check_known_ok by done. cbn.
  replace (q + 1 + 1 + 1 + 1) with (p + len (padding p) + 4) in * by lia.
  rewrite (parse_value_located p f) by (done || lia). cbn. do 3 f_equal. lia.
Qed.

Lemma parse_loop_located fs fuel p mask m :
  at_ p (Field.encode_all endian p fs) → 0 <= p →
  p + len (Field.encode_all endian p fs) = end_ →
  Forall Field.ok fs → NoDup (Field.code <$> fs) →
  Forall (λ f, Z.testbit mask (Field.code f) = false) fs →
  end_ - p < Z.of_nat fuel →
  parse_fields_loop fuel frame p end_ endian mask m = Ok (Field.apply_all endian p fs m).
Proof.
  revert fuel p mask m. induction fs as [|f fs IH]; intros fuel p mask m Hl Hp He Hok Hnd Hm Hf.
  - destruct fuel as [|fuel]; [simpl in *; unfold len in *; simpl in *; lia|]. simpl in *. len_simpl.
    by rewrite (proj2 (Z.ltb_ge _ _)) by lia.
  - cbn [Field.encode_all Field.apply_all] in *. apply located_app in Hl as [Hl Hls].
    apply Forall_cons in Hok as [Hok Hoks]. apply Forall_cons in Hm as [Hm Hms].
    apply NoDup_cons in Hnd as [Hni Hnd]. rewrite len_app in He.
    pose proof (len_nonneg (Field.encode_all endian (p + len (Field.encode endian p f)) fs)).
    destruct (parse_field_located p f mask m Hl Hp ltac:(lia) Hok Hm) as (Ea&Hq&Ef).
    pose proof (Field.len_encode endian p f) as Hlen. pose proof (padding_range p).
    pose proof (len_nonneg (Field.payload endian f)).
    destruct fuel as [|fuel]; [lia|]. cbn [parse_fields_loop].
    rewrite (proj2 (Z.ltb_lt p _)), Ea by lia. cbn. rewrite (proj2 (Z.eqb_neq _ _)) by lia.
    rewrite Ef. cbn. apply IH; try done; try lia.
    apply Forall_forall. intros g Hg. rewrite Forall_forall in Hms, Hoks.
    pose proof (Field.ok_code f Hok). pose proof (Field.ok_code g (Hoks g Hg)).
    rewrite mask_spec, Hms by (done || lia). simpl. apply Z.eqb_neq. intros Heq.
    apply Hni. rewrite Heq. by apply list_elem_of_fmap_2.
Qed.

End parse.

(** ** What the fields leave in the message *)

Section apply.

Context `{Zvariant}.

Implicit Types m : Message.t.

(** The range and number recorded for a field code. *)
Definition string_range m (code : Z) : option Range :=
  if code =? 1 then Message.path m
  else if code =? 2 then Message.interface m
  else if code =? 3 then Message.member m
  else if code =? 4 then Message.error_name m
  else if code =? 6 then Message.destination m
  else if code =? 7 then Message.sender m
  else if code =? 8 then Message.signature m
  else None.

Definition number m (code : Z) : option Z :=
  if code =? 5 then Message.reply_serial m
  else if code =? 9 then Message.declared_unix_fds m
  else None.

(** Everything that no field changes. *)
Definition fixed_part m :=
  (Message.kind m, Message.flags m, Message.serial m, Message.frame m, Message.body_range m,
   Message.unix_fds m, Message.body_position m, Message.endian m).

(** The last text and number of a code in a list of fields. *)
Fixpoint lookup_text (fs : list Field) (c : Z) : option (list byte) :=
  match fs with
  | [] => None
  | f :: fs =>
      match lookup_text fs c, f with
      | Some v, _ => Some v
      | None, StringField code _ v => if code =? c then Some v else None
      | None, SignatureField v => if 8 =? c then Some v else None
      | None, U32Field _ _ => None
      end
  end.

Fixpoint lookup_number (fs : list Field) (c : Z) : option Z :=
  match fs with
  | [] => None
  | f :: fs =>
      match lookup_number fs c, f with
      | Some v, _ => Some v
      | None, U32Field code v => if code =? c then Some v else None
      | None, _ => None
      end
  end.

(** Compare the code [c] with the constants of the goal. *)
Local Ltac code_cases c :=
  repeat match goal with
  | |- context [?k =? c] => destruct (Z.eqb_spec k c); [by subst|]
  | |- context [c =? ?k] => destruct (Z.eqb_spec c k); [by subst|]
  end.

Lemma string_range_assign m code r c :
  code ∈ [1; 2; 3; 4; 6; 7] →
  string_range (Message.assign_string_field m code r) c =
    (if code =? c then Some r else string_range m c) ∧
  number (Message.assign_string_field m code r) c = number m c ∧
  fixed_part (Message.assign_string_field m code r) = fixed_part m.
Proof.
  rewrite !elem_of_cons, elem_of_nil. intros Hc.
  assert (number (Message.assign_string_field m code r) c = number m c ∧
    fixed_part (Message.assign_string_field m code r) = fixed_part m) as Hrest
    by (by destruct Hc as [->|[->|[->|[->|[->|[->|[]]]]]]]).
  split; [|done]. clear Hrest. unfold string_range.
  destruct Hc as [->|[->|[->|[->|[->|[->|[]]]]]]]; code_cases c; done.
Qed.

Lemma fixed_apply p f m : Field.ok f → fixed_part (Field.apply p f m) = fixed_part m.
Proof.
  destruct f as [code s v|code v|v]; simpl; [|by case_match|done].
  intros [Hc _]. by apply (string_range_assign m code _ 0).
Qed.

Lemma fixed_apply_all endian p fs m :
  Forall Field.ok fs → fixed_part (Field.apply_all endian p fs m) = fixed_part m.
Proof.
  intros Hok. revert p m. induction Hok as [|f fs Hf _ IH]; intros p m; simpl; [done|].
  by rewrite IH, fixed_apply.
Qed.

Lemma number_apply p f m c :
  Field.ok f → number (Field.apply p f m) c =
    match f with
    | U32Field code v => if code =? c then Some v else number m c
    | _ => number m c
    end.
Proof.
  destruct f as [code s v|code v|v]; simpl; [|intros [Hc _]|done].
  - intros [Hc _]. by apply (string_range_assign m code _ c).
  - rewrite !elem_of_cons, elem_of_nil in Hc. unfold number.
    destruct Hc as [->|[->|[]]]; code_cases c; done.
Qed.

Lemma number_apply_all endian p fs m c :
  Forall Field.ok fs →
  number (Field.apply_all endian p fs m) c =
    match lookup_number fs c with Some v => Some v | None => number m c end.
Proof.
  intros Hok. revert p m. induction Hok as [|f fs Hf _ IH]; intros p m; simpl; [done|].
  rewrite IH. destruct (lookup_number fs c); [done|]. rewrite number_apply by done.
  destruct f; [done|by case_match|done].
Qed.

Definition text_at m (c : Z) : Result (option (list byte)) := Message.header m (string_range m c).

Lemma header_located m p v :
  located (Message.frame m) p v → is_utf8 v = true →
  Message.header m (Some (p, p + len v)) = Ok (Some v).
Proof. intros Hl Hu. unfold Message.header. by rewrite (located_index _ _ _ Hl); cbn; rewrite Hu. Qed.

Lemma text_apply endian p f m c :
  Field.ok f → located (Message.frame m) p (Field.encode endian p f) →
  text_at (Field.apply p f m) c =
    match f with
    | StringField code _ v => if code =? c then Ok (Some v) else text_at m c
    | U32Field _ _ => text_at m c
    | SignatureField v => if 8 =? c then Ok (Some v) else text_at m c
    end.
Proof.
  intros Hok Hl. pose proof (fixed_apply p f m Hok) as Hfix.
  assert (Hframe : Message.frame (Field.apply p f m) = Message.frame m)
    by (unfold fixed_part in Hfix; congruence).
  assert (Hheader : ∀ r, Message.header (Field.apply p f m) r = Message.header m r)
    by (intros r; unfold Message.header; by rewrite Hframe).
  unfold text_at. rewrite Hheader.
  unfold Field.encode in Hl. apply located_app in Hl as [_ Hl]. apply located_app in Hl as [_ Hl].
  change (len [_; _; _; _]) with 4 in Hl.
  destruct f as [code s v|code v|v]; cbn [Field.apply Field.payload] in *.
  - destruct Hok as (Hc&_&_&Hu). rewrite (proj1 (string_range_assign _ _ _ _ Hc)).
    case_match; [|done]. apply header_located; [|done].
    apply located_app in Hl as [_ [Hl _]%located_app]. by rewrite len_to_bytes in Hl.
  - f_equal. unfold string_range. by destruct (code =? 5).
  - destruct Hok as (_&Hu). destruct (Z.eqb_spec 8 c) as [<-|Hne].
    + apply header_located; [|done]. by apply located_cons in Hl as [_ [Hl _]%located_app].
    + f_equal. unfold string_range. code_cases c. done.
Qed.

Lemma text_apply_all endian p fs m c :
  Forall Field.ok fs → located (Message.frame m) p (Field.encode_all endian p fs) →
  text_at (Field.apply_all endian p fs m) c =
    match lookup_text fs c with Some v => Ok (Some v) | None => text_at m c end.
Proof.
  intros Hok. revert p m. induction Hok as [|f fs Hf _ IH]; intros p m Hl; [done|].
  cbn [lookup_text Field.apply_all Field.encode_all] in *. apply located_app in Hl as [Hl Hls].
  pose proof (fixed_apply p f m Hf) as Hfix.
  rewrite IH by (replace (Message.frame (Field.apply p f m)) with (Message.frame m);
                 [done|unfold fixed_part in Hfix; congruence]).
  destruct (lookup_text fs c); [done|]. rewrite (text_apply endian) by done.
  destruct f as [code s v|code v|v]; [destruct (code =? c)| |destruct (8 =? c)]; done.
Qed.

End apply.

(** ** The encoder writes the fields *)

Definition opt_field (code : Z) (s : byte) (v : option (list byte)) : list Field :=
  match v with Some v => [StringField code s v] | None => [] end.

(** The fields of an outgoing message, in the order of the encoder. *)
Definition fields_of (o : Outgoing.t) (signature : list byte) (unix_fds : Z) : list Field :=
  opt_field 1 "o" (Outgoing.path o) ++ opt_field 2 "s" (Outgoing.interface o)
  ++ opt_field 3 "s" (Outgoing.member o) ++ opt_field 4 "s" (Outgoing.error_name o)
  ++ match Outgoing.reply_serial o with Some v => [U32Field 5 v] | None => [] end
  ++ opt_field 6 "s" (Outgoing.destination o)
  ++ match signature with [] => [] | _ => [SignatureField signature] end
  ++ if unix_fds =? 0 then [] else [U32Field 9 unix_fds].

(** [fs] was pushed after [message], which stays short. *)
Definition pushed (message result : list byte) (fs : list Field) : Prop :=
  result = message ++ Field.encode_all Little (len message) fs ∧
  len result <= Z.max (len message) MAX_MESSAGE_SIZE + 300 * len fs.

Lemma pushed_nil message : pushed message message [].
Proof. split; [by rewrite app_nil_r|]. len_simpl. lia. Qed.

Section push.

Context (message : list byte).

Hypothesis message_short : len message <= MAX_MESSAGE_SIZE + 8192.

Lemma resize_grow l n : len l <= n → resize l n = l ++ replicate (Z.to_nat (n - len l)) "000"%byte.
Proof.
  unfold resize, len. intros. rewrite take_ge by lia. do 2 f_equal. lia.
Qed.

Lemma align_vec_8 : align_vec message 0 8 = message ++ padding (len message).
Proof.
  unfold align_vec, MAX_MESSAGE_SIZE in *. pose proof (len_nonneg message).
  rewrite Z.add_0_l, align_8 by (unfold U64.MAX; lia).
  pose proof (padding_range (len message)) as Hp. rewrite len_padding in Hp. rewrite resize_grow by lia. unfold padding. do 3 f_equal. lia.
Qed.

(** The four bytes in front of a value end at a multiple of four. *)
Lemma align_vec_4 (tag : list byte) :
  len tag = 4 →
  align_vec ((message ++ padding (len message)) ++ tag) 0 4 =
    (message ++ padding (len message)) ++ tag.
Proof.
  intros Ht. unfold align_vec, MAX_MESSAGE_SIZE in *. pose proof (len_nonneg message).
  pose proof (padding_range (len message)) as Hp. len_simpl. rewrite Ht.
  rewrite Z.add_0_l, align_4 by (unfold U64.MAX; lia). rewrite len_padding in *.
  assert (Hm : (- ((len message + (- len message) mod 8 + 4))) mod 4 = 0).
  { apply Z.mod_divide; [lia|]. pose proof (Z.div_mod (- len message) 8).
    exists (2 * (- len message / 8) - 1). lia. }
  rewrite Hm, resize_grow by (len_simpl; rewrite len_padding; lia).
  len_simpl. rewrite Ht, len_padding. replace (Z.to_nat _) with O by lia. apply app_nil_r.
Qed.

Lemma push_u32_pushed code v :
  pushed message (push_u32_field_at message 0 code v) [U32Field code v].
Proof.
  assert (E : push_u32_field_at message 0 code v =
    message ++ Field.encode Little (len message) (U32Field code v)).
  { unfold push_u32_field_at. rewrite align_vec_8, align_vec_4 by done.
    unfold Field.encode. simpl. by rewrite <- !app_assoc. }
  split; [cbn [Field.encode_all]; by rewrite E, app_nil_r|].
  rewrite E, len_app, Field.len_encode. cbn [Field.payload]. rewrite len_to_bytes.
  pose proof (padding_range (len message)). change (len [_]) with 1. lia.
Qed.

Lemma push_string_pushed code s v result :
  push_string_field_at message 0 code s v = Ok result →
  pushed message result [StringField code s v] ∧ len v <= U32.MAX ∧
  len result <= MAX_MESSAGE_SIZE.
Proof.
  unfold push_string_field_at. destruct (Z.ltb_spec MAX_MESSAGE_SIZE
    (U64.saturating_add (U64.saturating_add (len message) (len v)) 16)) as [?|Hmax]; [done|].
  rewrite align_vec_8, align_vec_4 by done.
  destruct (Z.leb_spec (len v) U32.MAX) as [Hv|?]; [|done]. intros [= <-].
  pose proof (len_nonneg v). pose proof (len_nonneg message).
  assert (Hsum : len message + len v + 16 <= MAX_MESSAGE_SIZE).
  { unfold U64.saturating_add, U64.sat, U64.MAX, MAX_MESSAGE_SIZE in *. lia. }
  pose proof (padding_range (len message)).
  split_and!; [split|done|].
  - cbn [Field.encode_all]. unfold Field.encode. rewrite app_nil_r. simpl.
    by rewrite <- !app_assoc.
  - len_simpl. rewrite ?len_to_bytes. lia.
  - len_simpl. rewrite ?len_to_bytes. lia.
Qed.

Lemma push_signature_pushed v result :
  push_signature_field_at message 0 v = Ok result →
  pushed message result [SignatureField v] ∧ len v <= 255.
Proof.
  unfold push_signature_field_at. destruct (Z.leb_spec (len v) 255) as [Hv|?]; [|done].
  rewrite align_vec_8. intros [= <-]. pose proof (padding_range (len message)).
  split; [split|done].
  - cbn [Field.encode_all]. unfold Field.encode. rewrite app_nil_r. simpl.
    by rewrite <- !app_assoc.
  - len_simpl. lia.
Qed.

End push.

Lemma pushed_app a b c fs gs : pushed a b fs → pushed b c gs → pushed a c (fs ++ gs).
Proof.
  intros [-> Hb] [-> Hc]. split.
  - by rewrite Field.encode_all_app, <- app_assoc, len_app.
  - pose proof (len_nonneg fs). rewrite (len_app fs). lia.
Qed.

(** What the types of an outgoing message guarantee: [&str], [u8] and [u32]. *)
Record typed (o : Outgoing.t) : Prop := {
  typed_flags : 0 <= Outgoing.flags o < 256;
  typed_serial : U32.ok (Outgoing.serial o);
  typed_reply : from_option U32.ok True (Outgoing.reply_serial o);
  typed_path : from_option is_utf8 true (Outgoing.path o) = true;
  typed_interface : from_option is_utf8 true (Outgoing.interface o) = true;
  typed_member : from_option is_utf8 true (Outgoing.member o) = true;
  typed_error_name : from_option is_utf8 true (Outgoing.error_name o) = true;
  typed_destination : from_option is_utf8 true (Outgoing.destination o) = true;
}.

(** One step of the encoder: [fs] are pushed and valid. *)
Definition pushes (message : list byte) (r : Result (list byte)) (fs : list Field) : Prop :=
  match r with
  | Ok result => pushed message result fs ∧ Forall Field.ok fs
  | Err _ => True
  | Panic => False
  end.

Lemma push_optional_pushes message code s v :
  len message <= MAX_MESSAGE_SIZE + 8192 → code ∈ [1; 2; 3; 4; 6; 7] →
  known_field_signature code = Some [s] → from_option is_utf8 true v = true →
  pushes message (push_optional message code s v) (opt_field code s v).
Proof.
  intros Hm Hc Hs Hu. destruct v as [v|]; simpl; [|by split; [apply pushed_nil|]].
  destruct (push_string_field_at message 0 code s v) as [r|e|] eqn:E; [|done|].
  - apply push_string_pushed in E as (?&?&_); [|done]. split; [done|]. by apply Forall_singleton.
  - unfold push_string_field_at in E. repeat case_match; done.
Qed.

Lemma pushes_bind message r fs k gs :
  pushes message r fs →
  (∀ result, pushed message result fs → pushes result (k result) gs) →
  pushes message (r ≫= k) (fs ++ gs).
Proof.
  destruct r as [result|e|]; simpl; [|done..]. intros [Hp Hok] Hk. specialize (Hk result Hp).
  destruct (k result); [|done..]. destruct Hk as [Hk Hoks].
  split; [by eapply pushed_app|by apply Forall_app].
Qed.

Lemma opt_field_len code s v : len (opt_field code s v) <= 1.
Proof. by destruct v. Qed.

Lemma fields_of_len o signature n : len (fields_of o signature n) <= 8.
Proof.
  unfold fields_of. rewrite !len_app.
  pose proof (opt_field_len 1 "o" (Outgoing.path o)).
  pose proof (opt_field_len 2 "s" (Outgoing.interface o)).
  pose proof (opt_field_len 3 "s" (Outgoing.member o)).
  pose proof (opt_field_len 4 "s" (Outgoing.error_name o)).
  pose proof (opt_field_len 6 "s" (Outgoing.destination o)).
  destruct (Outgoing.reply_serial o), signature, (n =? 0); len_simpl; lia.
Qed.

Lemma push_fields_pushes o signature message :
  typed o → len message <= MAX_MESSAGE_SIZE → is_utf8 signature = true →
  pushes message (push_fields o signature message) (fields_of o signature 0).
Proof.
  intros Ht Hm Hsig. unfold push_fields, fields_of.
  pose proof (opt_field_len 1 "o" (Outgoing.path o)).
  pose proof (opt_field_len 2 "s" (Outgoing.interface o)).
  pose proof (opt_field_len 3 "s" (Outgoing.member o)).
  pose proof (opt_field_len 4 "s" (Outgoing.error_name o)).
  pose proof (opt_field_len 6 "s" (Outgoing.destination o)).
  assert (Hin : ∀ c, c ∈ [1; 2; 3; 4; 6] → c ∈ [1; 2; 3; 4; 6; 7])
    by (intros c; rewrite !elem_of_cons, !elem_of_nil; tauto).
  apply pushes_bind.
  { apply push_optional_pushes; [lia|by left|done|apply Ht]. }
  intros m1 [_ Hm1]. apply pushes_bind.
  { apply push_optional_pushes; [lia|by right; left|done|apply Ht]. }
  intros m2 [_ Hm2]. apply pushes_bind.
  { apply push_optional_pushes; [lia|by do 2 right; left|done|apply Ht]. }
  intros m3 [_ Hm3]. apply pushes_bind.
  { apply push_optional_pushes; [lia|by do 3 right; left|done|apply Ht]. }
  intros m4 [_ Hm4].
  apply pushes_bind.
  { pose proof (typed_reply o Ht) as Hr. destruct (Outgoing.reply_serial o) as [v|]; simpl.
    - split; [apply push_u32_pushed; lia|].
      apply Forall_singleton. split; [by left|apply Hr].
    - split; [apply pushed_nil|done]. }
  intros m5 [_ Hm5]. apply pushes_bind.
  { apply push_optional_pushes; [|by do 4 right; left|done|apply Ht].
    destruct (Outgoing.reply_serial o); len_simpl; lia. }
  intros m6 [_ Hm6]. rewrite Z.eqb_refl, app_nil_r. destruct signature as [|b signature].
  - split; [apply pushed_nil|done].
  - destruct (push_signature_field_at m6 0 (b :: signature)) as [r|e|] eqn:E; [|done|].
    + apply push_signature_pushed in E as [? ?]; [by split; [|apply Forall_singleton]|].
      destruct (Outgoing.reply_serial o); len_simpl; lia.
    + unfold push_signature_field_at in E. by case_match.
Qed.

(** ** The rules of the bus *)

(** The fields that a kind of message must and must not have. *)
Definition fields_of_kind (kind : MessageKind.t) (reply_serial : option Z)
    (path interface member error_name : option (list byte)) : Prop :=
  match kind with
  | MessageKind.MethodCall =>
      is_Some path ∧ is_Some member ∧ reply_serial = None ∧ error_name = None
  | MessageKind.MethodReturn =>
      is_Some reply_serial ∧ path = None ∧ interface = None ∧ member = None ∧ error_name = None
  | MessageKind.Error =>
      is_Some reply_serial ∧ is_Some error_name ∧ path = None ∧ interface = None ∧ member = None
  | MessageKind.Signal =>
      is_Some path ∧ is_Some interface ∧ is_Some member ∧ reply_serial = None ∧ error_name = None
  end.

Definition holds_for (valid : list byte → bool) (v : option (list byte)) : Prop :=
  from_option valid true v = true.

Record rules `{Zvariant} (kind : MessageKind.t) (serial : Z) (reply_serial : option Z)
    (path interface member error_name destination sender : option (list byte)) : Prop := {
  rules_serial : serial ≠ 0;
  rules_fields : fields_of_kind kind reply_serial path interface member error_name;
  rules_path : holds_for object_path_try_from path;
  rules_interface : holds_for is_interface_name interface;
  rules_member : holds_for is_member_name member;
  rules_error_name : holds_for is_interface_name error_name;
  rules_destination : holds_for is_bus_name destination;
  rules_sender : holds_for is_unique_name sender;
  rules_reply : reply_serial ≠ Some 0;
}.

Section checks.

Context `{Zvariant}.

(** The texts of a message, when its ranges are valid. *)
Record texts (m : Message.t)
    (path interface member error_name destination sender signature : option (list byte)) : Prop := {
  texts_path : text_at m 1 = Ok path;
  texts_interface : text_at m 2 = Ok interface;
  texts_member : text_at m 3 = Ok member;
  texts_error_name : text_at m 4 = Ok error_name;
  texts_destination : text_at m 6 = Ok destination;
  texts_sender : text_at m 7 = Ok sender;
  texts_signature : text_at m 8 = Ok signature;
}.

Definition checks (m : Message.t) : Result unit :=
  _ ← validate_unix_fds m;
  _ ← validate_required_fields m;
  _ ← validate_field_semantics m;
  _ ← validate_field_values m;
  validate_body_signature m.

Lemma and_then (a b : Result unit) : (_ ← a; b) = Ok tt ↔ a = Ok tt ∧ b = Ok tt.
Proof. destruct a as [[]|e|]; simpl; naive_solver. Qed.

Lemma and_then_total (a b : Result unit) : a ≠ Panic → b ≠ Panic → (_ ← a; b) ≠ Panic.
Proof. destruct a; simpl; done. Qed.

Lemma header_is_some m r t : Message.header m r = Ok t → (is_Some r ↔ is_Some t).
Proof.
  unfold Message.header. destruct r as [r|]; [|intros [= <-]; done].
  destruct (index _ r); simpl; [|done..]. case_match; [|done]. intros [= <-]. split; eauto.
Qed.

Lemma header_none m r t : Message.header m r = Ok t → (r = None ↔ t = None).
Proof. intros Ht%header_is_some. rewrite !eq_None_not_Some. by rewrite Ht. Qed.

Context (m : Message.t) (path interface member error_name destination sender signature : option (list byte)).

Hypothesis m_texts : texts m path interface member error_name destination sender signature.

Lemma fields_checks :
  missing_field m = false ∧ unexpected_field m = false ↔
  fields_of_kind (Message.kind m) (Message.reply_serial m) path interface member error_name.
Proof.
  destruct m_texts as [Hp Hi Hme He _ _ _].
  pose proof (header_is_some _ _ _ Hp) as Hps. pose proof (header_is_some _ _ _ Hi) as His.
  pose proof (header_is_some _ _ _ Hme) as Hms. pose proof (header_is_some _ _ _ He) as Hes.
  unfold string_range in *. simpl in *. unfold missing_field, unexpected_field, fields_of_kind.
  destruct (Message.kind m); rewrite ?orb_false_iff, ?bool_decide_eq_false, <- ?eq_None_not_Some,
    ?(header_none _ _ _ Hp), ?(header_none _ _ _ Hi), ?(header_none _ _ _ Hme),
    ?(header_none _ _ _ He), <- ?not_eq_None_Some; tauto.
Qed.

Lemma optional_check (f : Result (option (list byte))) valid t :
  f = Ok t → (validate_optional f valid = Ok tt ↔ holds_for valid t) ∧ validate_optional f valid ≠ Panic.
Proof.
  intros ->. unfold validate_optional, holds_for, ensure.
  destruct t as [v|]; simpl; [|done]. by destruct (valid v).
Qed.

Lemma values_check :
  (validate_field_values m = Ok tt ↔
    holds_for object_path_try_from path ∧ holds_for is_interface_name interface ∧
    holds_for is_member_name member ∧ holds_for is_interface_name error_name ∧
    holds_for is_bus_name destination ∧ holds_for is_unique_name sender ∧
    Message.reply_serial m ≠ Some 0) ∧
  validate_field_values m ≠ Panic.
Proof.
  destruct m_texts as [Hp Hi Hme He Hd Hs _]. unfold validate_field_values.
  destruct (optional_check _ object_path_try_from _ Hp) as [Ep Np].
  destruct (optional_check _ is_interface_name _ Hi) as [Ei Ni].
  destruct (optional_check _ is_member_name _ Hme) as [Em Nm].
  destruct (optional_check _ is_interface_name _ He) as [Ee Ne].
  destruct (optional_check _ is_bus_name _ Hd) as [Ed Nd].
  destruct (optional_check _ is_unique_name _ Hs) as [Es Ns]. split.
  - rewrite !and_then. unfold text_at in *.
    change (Message.path_str m) with (Message.header m (string_range m 1)).
    rewrite <- Ep, <- Ei, <- Em, <- Ee, <- Ed, <- Es.
    case_bool_decide; naive_solver.
  - repeat (apply and_then_total; [done|]). by case_match.
Qed.

End checks.

Section checks_all.

Context `{Zvariant} (m : Message.t).
Context (path interface member error_name destination sender signature : option (list byte)).
Context (body : list byte).

Hypothesis m_texts : texts m path interface member error_name destination sender signature.
Hypothesis m_body : Message.body_bytes m = Ok body.
Hypothesis m_serial : Message.serial m ≠ 0.

(** What is checked besides the rules. *)
Definition fds_and_body : Prop :=
  default 0 (Message.declared_unix_fds m) = len (Message.unix_fds m) ∧
  len (Message.unix_fds m) <= MAX_UNIX_FDS ∧
  is_Some (signature_try_from (default [] signature)) ∧
  (body = [] ↔ default [] signature = []).

Lemma body_check :
  (validate_body_signature m = Ok tt ↔
    is_Some (signature_try_from (default [] signature)) ∧ (body = [] ↔ default [] signature = [])) ∧
  validate_body_signature m ≠ Panic.
Proof.
  pose proof (texts_signature _ _ _ _ _ _ _ _ m_texts) as Hs.
  unfold validate_body_signature, Message.signature_str.
  change (Message.header m (Message.signature m)) with (text_at m 8). rewrite Hs, m_body. cbn.
  destruct (signature_try_from (default [] signature)) as [sig|]; cbn.
  - destruct (decide (body = [])) as [Hb|Hb], (decide (default [] signature = [])) as [Hd|Hd];
      rewrite ?(bool_decide_eq_true_2 (body = []) Hb), ?(bool_decide_eq_false_2 (body = []) Hb),
        ?(bool_decide_eq_true_2 (default [] signature = []) Hd),
        ?(bool_decide_eq_false_2 (default [] signature = []) Hd); simpl;
      (split; [|done]); split; try done; naive_solver.
  - split; [|done]. split; [done|]. by intros [[? ?] _].
Qed.

Lemma fds_check :
  (validate_unix_fds m = Ok tt ↔
    default 0 (Message.declared_unix_fds m) = len (Message.unix_fds m) ∧
    len (Message.unix_fds m) <= MAX_UNIX_FDS) ∧
  validate_unix_fds m ≠ Panic.
Proof.
  unfold validate_unix_fds. destruct (Z.ltb_spec MAX_UNIX_FDS (default 0 (Message.declared_unix_fds m))).
  - split; [|done]. split; [done|lia].
  - destruct (Z.eqb_spec (default 0 (Message.declared_unix_fds m)) (len (Message.unix_fds m)));
      simpl; (split; [|done]); split; try done; lia.
Qed.

Lemma checks_iff :
  (checks m = Ok tt ↔
    rules (Message.kind m) (Message.serial m) (Message.reply_serial m) path interface member
      error_name destination sender ∧ fds_and_body) ∧
  checks m ≠ Panic.
Proof.
  destruct fds_check as [Ef Nf]. destruct body_check as [Eb Nb].
  destruct (values_check m _ _ _ _ _ _ _ m_texts) as [Ev Nv].
  pose proof (fields_checks m _ _ _ _ _ _ _ m_texts) as Ek. split.
  - unfold checks. rewrite !and_then, Ef, Eb, Ev.
    assert (validate_required_fields m = Ok tt ↔ missing_field m = false) as ->
      by (unfold validate_required_fields; by destruct (missing_field m)).
    assert (validate_field_semantics m = Ok tt ↔ unexpected_field m = false) as ->
      by (unfold validate_field_semantics; by destruct (unexpected_field m)).
    unfold fds_and_body. split.
    + intros ([? ?]&?&?&(?&?&?&?&?&?&?)&?&?). split; [|tauto]. split; try done. by apply Ek.
    + intros [[] ?]. destruct (proj2 Ek) as [? ?]; [done|]. tauto.
  - unfold checks. repeat (apply and_then_total; [done || by unfold validate_required_fields,
      validate_field_semantics; case_match|]). done.
Qed.

End checks_all.

(** ** Decoding what was encoded *)

(** What the library guarantees for a body: its signature can be read back, and
    exactly the values without a signature take no bytes. *)
Record lawful `{Zvariant} (body : Body) : Prop := {
  lawful_text : is_utf8 (to_string_no_parens (body_signature body)) = true;
  lawful_signature : is_Some (signature_try_from (to_string_no_parens (body_signature body)));
  lawful_empty : ∀ position bytes fds, to_writer position body = Some (bytes, fds) →
    (bytes = [] ↔ to_string_no_parens (body_signature body) = []);
}.

(** [m] is the outgoing message [o] with its body. *)
Record sent_as `{Zvariant} (o : Outgoing.t) (body : Body) (frame : list byte) (fds : list Fd)
    (m : Message.t) : Prop := {
  sent_kind : Message.kind m = Outgoing.kind o;
  sent_flags : Message.flags m = Outgoing.flags o;
  sent_serial : Message.serial m = Outgoing.serial o;
  sent_reply_serial : Message.reply_serial m = Outgoing.reply_serial o;
  sent_path : Message.path_str m = Ok (Outgoing.path o);
  sent_interface : Message.interface_str m = Ok (Outgoing.interface o);
  sent_member : Message.member_str m = Ok (Outgoing.member o);
  sent_error_name : Message.error_name_str m = Ok (Outgoing.error_name o);
  sent_destination : Message.destination_str m = Ok (Outgoing.destination o);
  sent_sender : Message.sender_str m = Ok None;
  sent_signature : Message.signature_str m = Ok (to_string_no_parens (body_signature body));
  sent_fds : Message.unix_fds m = fds;
  sent_frame : Message.frame m = frame;
  sent_endian : Message.endian m = Little;
  sent_body : ∃ bytes, Message.body_bytes m = Ok bytes ∧
    to_writer (Message.body_position m) body = Some (bytes, fds);
}.

(** One step of the code behind an answer that is known. *)
Ltac step := cbn [mbind result_bind ok_or fst snd mret result_ret negb orb].

Section encoded.

Context `{Zvariant} (o : Outgoing.t).

Hypothesis o_typed : typed o.

Lemma len_fixed_header a b : len (fixed_header o a b) = 16.
Proof. unfold fixed_header. len_simpl. rewrite !len_to_bytes. lia. Qed.

(** The positions of the fixed header. *)
Lemma fixed_located a b rest :
  let frame := fixed_header o a b ++ rest in
  located frame 0 ["l"%byte] ∧
  located frame 1 [byte_of (MessageKind.to_u8 (Outgoing.kind o))] ∧
  located frame 2 [byte_of (Outgoing.flags o)] ∧
  located frame 3 ["001"%byte] ∧
  located frame 4 (to_bytes Little a) ∧
  located frame 8 (to_bytes Little (Outgoing.serial o)) ∧
  located frame 12 (to_bytes Little b) ∧
  located frame 16 rest.
Proof.
  intros frame. assert (Hl : located frame 0 (fixed_header o a b ++ rest))
    by (exists [], []; by rewrite app_nil_r).
  apply located_app in Hl as [Hl Hr]. rewrite len_fixed_header in Hr. unfold fixed_header in Hl.
  apply located_app in Hl as [Hm Hl]. change (0 + len _) with 4 in Hl.
  apply located_app in Hl as [H4 Hl]. rewrite len_to_bytes in Hl.
  apply located_app in Hl as [H8 H12]. rewrite len_to_bytes in H12.
  apply located_cons in Hm as [H0 Hm]. apply located_cons in Hm as [H1 Hm].
  apply located_cons in Hm as [H2 H3]. done.
Qed.

Lemma read_located frame p q v :
  located frame p (to_bytes Little v) → U32.ok v → q = p + 4 →
  (slice4 ← index frame (p, q); read_u32 slice4 Little) = Ok v.
Proof.
  intros Hl Hv ->. pose proof (located_index _ _ _ Hl) as E. rewrite len_to_bytes in E.
  rewrite E. cbn. unfold read_u32. rewrite len_to_bytes. simpl. f_equal. by apply (from_to_bytes Little).
Qed.

Lemma kind_roundtrip :
  MessageKind.try_from (value (byte_of (MessageKind.to_u8 (Outgoing.kind o)))) =
    Ok (Outgoing.kind o).
Proof. by destruct (Outgoing.kind o). Qed.

Lemma frame_len_fixed a b rest :
  0 <= a → 0 <= b → align (16 + b) 8 + a <= MAX_MESSAGE_SIZE → b <= MAX_MESSAGE_SIZE →
  frame_len (fixed_header o a b ++ rest) = Ok (align (16 + b) 8 + a).
Proof.
  intros Ha Hb Ht Hb'. unfold MAX_MESSAGE_SIZE in *.
  rewrite align_8 in * by (unfold U64.MAX; lia). pose proof (Z.mod_pos_bound (- (16 + b)) 8).
  assert (U32.ok a ∧ U32.ok b) as [Ha32 Hb32] by (unfold U32.ok, U32.MAX; lia).
  destruct (fixed_located a b rest) as (Hl0&Hl1&Hl2&Hl3&Hl4&Hl8&Hl12&_).
  generalize dependent (fixed_header o a b ++ rest). intros frame Hl0 Hl1 Hl2 Hl3 Hl4 Hl8 Hl12.
  unfold frame_len. rewrite (located_byte _ 0 _ Hl0). cbn.
  rewrite (located_byte _ 3 _ Hl3). cbn. rewrite (located_byte _ 1 _ Hl1). cbn.
  rewrite kind_roundtrip. cbn.
  rewrite (read_located _ 4 8 _ Hl4 Ha32 eq_refl), (read_located _ 12 16 _ Hl12 Hb32 eq_refl). cbn.
  unfold FIXED_HEADER_LEN. rewrite checked_add_ok by (unfold U64.MAX; lia). cbn.
  rewrite align_8 by (unfold U64.MAX; lia).
  rewrite checked_add_ok by (unfold U64.MAX; lia). cbn.
  by rewrite (proj2 (Z.ltb_ge _ _)) by (unfold MAX_MESSAGE_SIZE; lia).
Qed.

(** The four parts of an encoded message. *)
Lemma encoded_parts body enc :
  is_utf8 (to_string_no_parens (body_signature body)) = true →
  encode_outgoing o body = Ok enc →
  ∃ fs w fds,
    let fields := Field.encode_all Little 16 fs in
    let header_len := 16 + len fields + len (padding (16 + len fields)) in
    enc = EncodedMessage.mk
      (fixed_header o (len w) (len fields) ++ fields ++ padding (16 + len fields) ++ w) fds ∧
    fs = fields_of o (to_string_no_parens (body_signature body)) (len fds) ∧
    Forall Field.ok fs ∧ len fds <= MAX_UNIX_FDS ∧
    to_writer header_len body = Some (w, fds) ∧ header_len + len w <= MAX_MESSAGE_SIZE.
Proof.
  intros Hsig. set (sig := to_string_no_parens (body_signature body)) in *.
  unfold encode_outgoing. fold sig.
  assert (Hr : resize [] FIXED_HEADER_LEN = replicate 16 "000"%byte) by done. rewrite Hr.
  set (zeros := replicate 16 "000"%byte).
  assert (Hz : len zeros = 16) by done.
  pose proof (push_fields_pushes o sig zeros o_typed ltac:(done) Hsig) as Hp.
  destruct (push_fields o sig zeros) as [m1| |]; [|done..]. destruct Hp as [Hp1 Hok1]. step.
  destruct (serialized_size 0 body) as [[size0 nfds]|]; [|done]. step.
  destruct (Z.ltb_spec MAX_UNIX_FDS (Z.of_N nfds)) as [?|Hnf]; [done|].
  set (m2 := if _ =? 0 then _ else _).
  assert (Hp2 : pushed zeros m2 (fields_of o sig (Z.of_N nfds)) ∧
    Forall Field.ok (fields_of o sig (Z.of_N nfds))).
  { unfold m2. replace (fields_of o sig (Z.of_N nfds)) with (fields_of o sig 0 ++
      if Z.of_N nfds =? 0 then [] else [U32Field 9 (Z.of_N nfds)]).
    2: { unfold fields_of. rewrite Z.eqb_refl, app_nil_r, <- !app_assoc. done. }
    destruct (Z.eqb_spec (Z.of_N nfds) 0); [by rewrite app_nil_r|]. split.
    - eapply pushed_app; [done|]. apply push_u32_pushed. destruct Hp1 as [_ Hb].
      pose proof (fields_of_len o sig 0). unfold MAX_MESSAGE_SIZE in *. lia.
    - apply Forall_app. split; [done|]. apply Forall_singleton.
      split; [by right; left|]. unfold U32.ok, U32.MAX, MAX_UNIX_FDS in *. lia. }
  clearbody m2. destruct Hp2 as [[E2 Hb2] Hok2]. rewrite Hz in *.
  set (fs := fields_of o sig (Z.of_N nfds)) in *. set (F := Field.encode_all Little 16 fs) in *.
  pose proof (len_nonneg F) as HF. pose proof (padding_range (16 + len F)) as Hpad.
  assert (Hm2 : len m2 = 16 + len F) by (rewrite E2, len_app; lia).
  pose proof (fields_of_len o sig (Z.of_N nfds)) as Hfs. fold fs in Hfs.
  assert (Hal : align (len m2) 8 = 16 + len F + len (padding (16 + len F))).
  { rewrite Hm2, len_padding. unfold MAX_MESSAGE_SIZE in *.
    apply align_8; unfold U64.MAX; lia. }
  rewrite Hal. set (header_len := 16 + len F + len (padding (16 + len F))) in *.
  destruct (serialized_size header_len body) as [[size nfds']|]; [|done]. step.
  destruct (checked_add header_len (Z.of_N size)) as [total|] eqn:Et; [|done]. step.
  apply checked_add_inv in Et as ->.
  destruct (Z.ltb_spec MAX_MESSAGE_SIZE (header_len + Z.of_N size)) as [?|Hmax]; [done|].
  destruct (to_writer header_len body) as [[w fds]|] eqn:Ew; [|done]. step.
  set (fixed := fixed_header o (Z.of_N size) (len m2 - FIXED_HEADER_LEN)). assert (Hfix : len fixed = 16) by apply len_fixed_header.
  assert (Er : resize (fixed ++ drop (Z.to_nat FIXED_HEADER_LEN) m2) header_len =
    fixed ++ F ++ padding (16 + len F)).
  { rewrite E2. change (Z.to_nat FIXED_HEADER_LEN) with (length zeros). rewrite drop_app_length.
    rewrite resize_grow by (rewrite len_app; unfold header_len; lia).
    rewrite <- app_assoc. do 2 f_equal. unfold padding. do 2 f_equal.
    rewrite len_app. unfold header_len. rewrite len_padding. lia. }
  rewrite Er. destruct (Z.eqb_spec (len fds) (Z.of_N nfds)) as [Hfds|]; [|done].
  destruct (Z.eqb_spec (len (fixed ++ F ++ padding (16 + len F)) + len w)
    (header_len + Z.of_N size)) as [Hw|]; [|done].
  step. intros [= <-]. rewrite !len_app, Hfix in Hw.
  assert (Hsize : Z.of_N size = len w) by (unfold header_len in Hw; lia).
  exists fs, w, fds. unfold header_len, fixed in *. split_and!; try done; try lia.
  - rewrite Hsize, Hm2. unfold FIXED_HEADER_LEN.
    replace (16 + len F - 16) with (len F) by lia. by rewrite <- !app_assoc.
  - unfold fs. by rewrite Hfds.
  - fold F. lia.
Qed.

Lemma lookups signature n :
  let fs := fields_of o signature n in
  lookup_text fs 1 = Outgoing.path o ∧ lookup_text fs 2 = Outgoing.interface o ∧
  lookup_text fs 3 = Outgoing.member o ∧ lookup_text fs 4 = Outgoing.error_name o ∧
  lookup_text fs 6 = Outgoing.destination o ∧ lookup_text fs 7 = None ∧
  default [] (lookup_text fs 8) = signature ∧
  lookup_number fs 5 = Outgoing.reply_serial o ∧ default 0 (lookup_number fs 9) = n.
Proof.
  unfold fields_of. destruct (Z.eqb_spec n 0) as [->|]; destruct signature,
    (Outgoing.path o), (Outgoing.interface o), (Outgoing.member o), (Outgoing.error_name o),
    (Outgoing.reply_serial o), (Outgoing.destination o); done.
Qed.

Lemma fields_distinct signature n : NoDup (Field.code <$> fields_of o signature n).
Proof.
  assert (H' : Field.code <$> fields_of o signature n `sublist_of` [1; 2; 3; 4; 5; 6; 8; 9]).
  { unfold fields_of. destruct (n =? 0), signature, (Outgoing.path o), (Outgoing.interface o),
      (Outgoing.member o), (Outgoing.error_name o), (Outgoing.reply_serial o),
      (Outgoing.destination o); simpl; repeat (constructor || apply sublist_nil_l). }
  eapply sublist_NoDup; [|exact H']. by apply (bool_decide_unpack _).
Qed.

Lemma checks_tail (m : Message.t) :
  (_ ← validate_unix_fds m; _ ← validate_required_fields m; _ ← validate_field_semantics m;
   _ ← validate_field_values m; _ ← validate_body_signature m; Ok m) = (_ ← checks m; Ok m).
Proof.
  unfold checks. destruct (validate_unix_fds m); [|done..]. step.
  destruct (validate_required_fields m); [|done..]. step.
  destruct (validate_field_semantics m); [|done..]. step.
  by destruct (validate_field_values m).
Qed.

(** The decoder on an encoded message: the fields are those that were pushed,
    and the answer depends only on the checks. *)
Lemma decode_encoded w fs (fds : list Fd) :
  let fields := Field.encode_all Little 16 fs in
  let body_position := 16 + len fields + len (padding (16 + len fields)) in
  let frame := fixed_header o (len w) (len fields) ++ fields ++ padding (16 + len fields) ++ w in
  Forall Field.ok fs → NoDup (Field.code <$> fs) → body_position + len w <= MAX_MESSAGE_SIZE →
  frame_len (slice frame 0 16) = Ok (len frame) ∧
  decode_message frame fds =
    if Outgoing.serial o =? 0 then invalid
    else
      let m := Field.apply_all Little 16 fs
        (empty_message (Outgoing.kind o) (Outgoing.flags o) (Outgoing.serial o) frame
           (body_position, body_position + len w) fds Little) in
      _ ← checks m; Ok m.
Proof.
  intros fields body_position frame Hok Hnd Hmax.
  pose proof (len_nonneg w) as Hw0. pose proof (len_nonneg fields) as Hf0.
  pose proof (padding_range (16 + len fields)) as Hpad.
  assert (Hframe : len frame = body_position + len w)
    by (unfold frame; rewrite !len_app, len_fixed_header; unfold body_position; lia).
  assert (Hbp : align (16 + len fields) 8 = body_position).
  { unfold body_position, MAX_MESSAGE_SIZE in *. rewrite len_padding.
    apply align_8; unfold U64.MAX; lia. }
  set (fixed := fixed_header o (len w) (len fields)).
  assert (Hfix : slice frame 0 16 = fixed).
  { apply (slice_mid [] fixed); [done|]. unfold fixed. by rewrite len_fixed_header. }
  assert (Hlen : frame_len fixed = Ok (len frame)).
  { rewrite <- (app_nil_r fixed). unfold fixed. rewrite frame_len_fixed; [by rewrite Hbp, Hframe|lia..]. }
  rewrite Hfix. split; [done|]. unfold decode_message.
  destruct (fixed_located (len w) (len fields) []) as (Hl0&Hl1&Hl2&_&Hl4&Hl8&Hl12&_).
  destruct (fixed_located (len w) (len fields) (fields ++ padding (16 + len fields) ++ w))
    as (_&_&_&_&_&_&_&Hrest).
  fold fixed in Hl0, Hl1, Hl2, Hl4, Hl8, Hl12. rewrite app_nil_r in *.
  change (located frame 16 (fields ++ padding (16 + len fields) ++ w)) in Hrest.
  apply located_app in Hrest as [Hfields Hrest]. apply located_app in Hrest as [Hpadding _].
  rewrite (proj2 (Z.ltb_ge _ _)) by (unfold FIXED_HEADER_LEN; lia).
  change FIXED_HEADER_LEN with 16. rewrite Hfix, Hlen. step. rewrite Z.eqb_refl. step.
  clearbody fixed. unfold MAX_MESSAGE_SIZE in *.
  assert (U32.ok (len w) ∧ U32.ok (len fields)) as [Hw32 Hf32] by (unfold U32.ok, U32.MAX; lia).
  rewrite (located_byte fixed 0 _ Hl0). step.
  change (parse_endian "l") with (@Ok BusError.t Endian Little). step.
  rewrite (located_byte fixed 1 _ Hl1). step. rewrite kind_roundtrip. step.
  rewrite (located_byte fixed 2 _ Hl2). step. rewrite value_of_small by apply o_typed.
  rewrite (read_located _ 8 12 _ Hl8 (typed_serial _ o_typed) eq_refl). step.
  destruct (Outgoing.serial o =? 0); [done|].
  rewrite (read_located _ 12 16 _ Hl12 Hf32 eq_refl). step. rewrite Hbp.
  rewrite (read_located _ 4 8 _ Hl4 Hw32 eq_refl). step.
  set (m0 := empty_message _ _ _ _ _ _ _).
  assert (Hp : parse_fields frame (16 + len fields) Little m0 =
    Ok (Field.apply_all Little 16 fs m0)).
  { apply parse_loop_located; try done; try lia.
    - unfold addressable, MAX_MESSAGE_SIZE. lia.
    - apply Forall_forall. intros f _. apply Z.testbit_0_l.
    - unfold FIXED_HEADER_LEN. lia. }
  rewrite Hp. step. unfold body_position at 1.
  rewrite (located_index _ _ _ Hpadding). step.
  rewrite (validate_zeros _ : validate_zero_padding (padding (16 + len fields)) = Ok tt). step.
  apply checks_tail.
Qed.

End encoded.

Section sent.

Context `{Zvariant} (o : Outgoing.t) (body : Body) (w : list byte) (fds : list Fd).

#[local] Abbreviation signature := (to_string_no_parens (body_signature body)).

Let fs := fields_of o signature (len fds).

Hypothesis fs_ok : Forall Field.ok fs.

Let fields := Field.encode_all Little 16 fs.
Let body_position := 16 + len fields + len (padding (16 + len fields)).
Let frame := fixed_header o (len w) (len fields) ++ fields ++ padding (16 + len fields) ++ w.

Hypothesis written : to_writer body_position body = Some (w, fds).

Let m := Field.apply_all Little 16 fs
  (empty_message (Outgoing.kind o) (Outgoing.flags o) (Outgoing.serial o) frame
     (body_position, body_position + len w) fds Little).

Lemma sent_fixed :
  fixed_part m = (Outgoing.kind o, Outgoing.flags o, Outgoing.serial o, frame,
    (body_position, body_position + len w), fds, body_position, Little).
Proof. unfold m. by rewrite fixed_apply_all. Qed.

Lemma sent_texts :
  texts m (Outgoing.path o) (Outgoing.interface o) (Outgoing.member o) (Outgoing.error_name o)
    (Outgoing.destination o) None (lookup_text fs 8).
Proof.
  assert (Hl : located frame 16 fields).
  { unfold frame. apply located_intro. by rewrite len_fixed_header. }
  assert (E : ∀ c, text_at m c = match lookup_text fs c with Some v => Ok (Some v) | None => Ok None end).
  { intros c. unfold m. rewrite text_apply_all by done. destruct (lookup_text fs c); [done|].
    unfold text_at, string_range. simpl. by repeat case_match. }
  destruct (lookups o signature (len fds)) as (E1&E2&E3&E4&E6&E7&_). fold fs in E1, E2, E3, E4, E6, E7.
  split; rewrite E, ?E1, ?E2, ?E3, ?E4, ?E6, ?E7; by try case_match.
Qed.

Lemma sent_message : sent_as o body frame fds m.
Proof.
  pose proof sent_fixed as Hf. pose proof sent_texts as [Hp Hi Hme He Hd Hs Hsig].
  destruct (lookups o signature (len fds)) as (_&_&_&_&_&_&E8&E5&_). fold fs in E8, E5.
  unfold fixed_part in Hf. split; try done; try congruence.
  - change (Message.reply_serial m) with (number m 5). unfold m. rewrite number_apply_all by done.
    rewrite E5. by destruct (Outgoing.reply_serial o).
  - unfold Message.signature_str. change (Message.header m (Message.signature m)) with (text_at m 8).
    rewrite Hsig. step. by rewrite E8.
  - exists w. replace (Message.body_position m) with body_position by congruence.
    split; [|done]. unfold Message.body_bytes.
    replace (Message.frame m) with frame by congruence.
    replace (Message.body_range m) with (body_position, body_position + len w) by congruence.
    apply located_index. exists (fixed_header o (len w) (len fields) ++ fields ++ padding (16 + len fields)), [].
    rewrite app_nil_r, <- !app_assoc. split; [done|]. rewrite !len_app, len_fixed_header.
    unfold body_position. lia.
Qed.

Lemma sent_checks :
  lawful body → len fds <= MAX_UNIX_FDS → Outgoing.serial o ≠ 0 →
  (checks m = Ok tt ↔
    rules (Outgoing.kind o) (Outgoing.serial o) (Outgoing.reply_serial o) (Outgoing.path o)
      (Outgoing.interface o) (Outgoing.member o) (Outgoing.error_name o)
      (Outgoing.destination o) None) ∧
  checks m ≠ Panic.
Proof.
  intros [_ Hlsig Hempty] Hfds Hserial. pose proof sent_message as Hsent.
  destruct (sent_body _ _ _ _ _ Hsent) as (w'&Hw'&Hwr).
  destruct (lookups o signature (len fds)) as (_&_&_&_&_&_&E8&_&E9). fold fs in E8, E9.
  destruct (checks_iff m _ _ _ _ _ _ _ w' sent_texts Hw') as [Hc Hp].
  { by rewrite (sent_serial _ _ _ _ _ Hsent). }
  split; [|done]. rewrite Hc, (sent_kind _ _ _ _ _ Hsent), (sent_serial _ _ _ _ _ Hsent),
    (sent_reply_serial _ _ _ _ _ Hsent).
  assert (fds_and_body m (lookup_text fs 8) w') as Hrest; [|tauto].
  unfold fds_and_body. rewrite E8, (sent_fds _ _ _ _ _ Hsent). split_and!; try done.
  - change (Message.declared_unix_fds m) with (number m 9). unfold m.
    rewrite number_apply_all by done. by destruct (lookup_number fs 9).
  - by apply Hempty in Hwr.
Qed.

End sent.

(** What the rules allow of an outgoing message. *)
Definition allowed `{Zvariant} (o : Outgoing.t) : Prop :=
  rules (Outgoing.kind o) (Outgoing.serial o) (Outgoing.reply_serial o) (Outgoing.path o)
    (Outgoing.interface o) (Outgoing.member o) (Outgoing.error_name o) (Outgoing.destination o) None.

Lemma encoded_framed `{Zvariant} o body enc :
  typed o → lawful body → encode_outgoing o body = Ok enc →
  frame_len (slice (EncodedMessage.bytes enc) 0 16) = Ok (len (EncodedMessage.bytes enc)) ∧
  16 <= len (EncodedMessage.bytes enc) <= MAX_MESSAGE_SIZE ∧
  len (EncodedMessage.unix_fds enc) <= MAX_UNIX_FDS.
Proof.
  intros Ht Hlaw Henc. pose proof (lawful_text _ Hlaw) as Hutf.
  destruct (encoded_parts o Ht body enc Hutf Henc) as (fs&w&fds&->&->&Hok&Hfds&Hw&Hmax).
  destruct (decode_encoded o Ht w _ fds Hok (fields_distinct _ _ _) Hmax) as [Hlen _].
  cbn [EncodedMessage.bytes EncodedMessage.unix_fds].
  set (n := len (Field.encode_all _ _ _)) in *. pose proof (padding_range (16 + n)).
  pose proof (len_nonneg w). pose proof (len_nonneg (Field.encode_all Little 16
    (fields_of o (to_string_no_parens (body_signature body)) (len fds)))).
  split_and!; [done|rewrite !len_app, len_fixed_header..|done]; lia.
Qed.

Lemma encoded_decodes `{Zvariant} o body enc :
  typed o → lawful body → encode_outgoing o body = Ok enc →
  let frame := EncodedMessage.bytes enc in
  let fds := EncodedMessage.unix_fds enc in
  match decode_message frame fds with
  | Ok m => allowed o ∧ sent_as o body frame fds m
  | Err _ => ¬ allowed o
  | Panic => False
  end.
Proof.
  intros Ht Hlaw Henc. pose proof (lawful_text _ Hlaw) as Hutf.
  destruct (encoded_parts o Ht body enc Hutf Henc) as (fs&w&fds&->&->&Hok&Hfds&Hw&Hmax).
  destruct (decode_encoded o Ht w _ fds Hok (fields_distinct _ _ _) Hmax) as [_ Hdec].
  pose proof (sent_message o body w fds Hok Hw) as Hsent.
  pose proof (sent_checks o body w fds Hok Hw Hlaw Hfds) as Hchecks.
  cbn zeta in *. cbn [EncodedMessage.bytes EncodedMessage.unix_fds]. rewrite Hdec.
  destruct (Z.eqb_spec (Outgoing.serial o) 0) as [E0|Hs]; [by intros [? _ _ _ _ _ _ _ _]|].
  destruct (Hchecks Hs) as [Hiff Hnp]. unfold allowed.
  destruct (checks _) as [[]|e|]; step; [|naive_solver|done]. split; [by apply Hiff|done].
Qed.

Lemma allowed_decodes `{Zvariant} o body enc :
  typed o → lawful body → encode_outgoing o body = Ok enc → allowed o →
  ∃ m, decode_message (EncodedMessage.bytes enc) (EncodedMessage.unix_fds enc) = Ok m ∧
    sent_as o body (EncodedMessage.bytes enc) (EncodedMessage.unix_fds enc) m.
Proof.
  intros Ht Hlaw Henc Ha. pose proof (encoded_decodes o body enc Ht Hlaw Henc) as Hd.
  cbv zeta in Hd. destruct (decode_message _ _) as [m|e|]; [|done..]. destruct Hd. eauto.
Qed.

(** C24: what was encoded is framed and decoded as it was sent. For every
    outgoing message and body the encoded bytes have the length that their own
    fixed header announces, within the limit; decoding them with their file
    descriptors returns a message with the same kind, flags, serials, texts,
    body bytes and descriptors, unless the message breaks a rule of the bus (a
    missing or unexpected field, an invalid name, a zero serial), and exactly
    then the decoder rejects it. *)
Theorem wire_roundtrip `{Zvariant} o body enc :
  typed o → lawful body → encode_outgoing o body = Ok enc →
  let frame := EncodedMessage.bytes enc in
  let fds := EncodedMessage.unix_fds enc in
  frame_len (slice frame 0 16) = Ok (len frame) ∧ len frame <= MAX_MESSAGE_SIZE ∧
  match decode_message frame fds with
  | Ok m => allowed o ∧ sent_as o body frame fds m
  | Err _ => ¬ allowed o
  | Panic => False
  end.
Proof.
  intros Ht Hlaw Henc. destruct (encoded_framed o body enc Ht Hlaw Henc) as (Hlen&[_ Hmax]&_).
  split; [done|]. split; [done|]. exact (encoded_decodes o body enc Ht Hlaw Henc).
Qed.

Definition is_ok {A} (r : Result A) : bool := match r with Ok _ => true | _ => false end.

(** ** A concrete library: strings and bytes that carry their signature *)

Definition demo_zvariant : Zvariant := {|
  Signature := list byte;
  signature_try_from l := if forallb is_ascii_alphabetic l then Some l else None;
  to_string l := l;
  to_string_no_parens l := l;
  object_path_try_from l := starts_with l (text "/");
  Fd := nat;
  Body := list byte * list byte * list nat;
  body_signature := λ '(signature, _, _), signature;
  serialized_size _ := λ '(_, bytes, fds), Some (N.of_nat (length bytes), N.of_nat (length fds));
  to_writer _ := λ '(_, bytes, fds), Some (bytes, fds);
  deserialize_value _ _ _ _ := None;
|}.

Definition demo_signal : Outgoing.t :=
  Outgoing.mk MessageKind.Signal 0 7 None (Some (text "/org/tensor/Test"))
    (Some (text "org.tensor.Test")) (Some (text "Changed")) None (Some (text ":1.42")).

Definition demo_body : @Body demo_zvariant :=
  (text "sh", to_bytes Little 2 ++ text "ok" ++ ["000"%byte], [5%nat]).

Lemma demo_signal_typed : typed demo_signal.
Proof. split; vm_compute; try done; by split. Qed.

Lemma demo_body_lawful : lawful (H := demo_zvariant) demo_body.
Proof. split; [done|by eexists|]. intros p bytes fds [= <- <-]. split; done. Qed.

Lemma demo_decodes :
  match encode_outgoing (H := demo_zvariant) demo_signal demo_body with
  | Ok enc => is_ok (decode_message (EncodedMessage.bytes enc) (EncodedMessage.unix_fds enc))
  | _ => false
  end = true.
Proof. vm_compute. reflexivity. Qed.

Lemma wire_roundtrip_witness :
  ∃ enc m,
    encode_outgoing (H := demo_zvariant) demo_signal demo_body = Ok enc ∧
    decode_message (EncodedMessage.bytes enc) (EncodedMessage.unix_fds enc) = Ok m ∧
    sent_as demo_signal demo_body (EncodedMessage.bytes enc) (EncodedMessage.unix_fds enc) m.
Proof.
  pose proof demo_decodes as E.
  destruct (encode_outgoing demo_signal demo_body) as [enc|e|] eqn:He; [|discriminate E..].
  pose proof (wire_roundtrip demo_signal demo_body enc demo_signal_typed demo_body_lawful He) as H.
  cbv zeta in H. destruct H as (_&_&H).
  destruct (decode_message _ _) as [m|e|] eqn:Ed; [|discriminate E..].
  exists enc, m. split_and!; [reflexivity|exact Ed|exact (proj2 H)].
Defined.
