(* ===== verification/WireSafe.v ===== *)
(** * The decoder on arbitrary bytes

    Whatever arrives, [decode_message] returns; what it accepts has ranges inside
    the frame and valid texts, obeys the rules of the bus, and its body ends the
    frame. The body library may answer anything. *)

From Stdlib Require Import Strings.String Strings.Byte.
From S2P Require Import Prelude Bytes Names Wire WireSpec.

(** The code behind [r] returns, and a success satisfies [P]. *)
Definition returns {A} (r : Result A) (P : A → Prop) : Prop :=
  match r with Ok a => P a | Err _ => True | Panic => False end.

Lemma returns_bind {A B} (m : Result A) (k : A → Result B) P Q :
  returns m P → (∀ a, P a → returns (k a) Q) → returns (m ≫= k) Q.
Proof. destruct m; simpl; [intros HP Hk; by apply Hk|done..]. Qed.

Lemma returns_impl {A} (r : Result A) (P Q : A → Prop) :
  returns r P → (∀ a, P a → Q a) → returns r Q.
Proof. destruct r; simpl; auto. Qed.

Lemma returns_ok_or {A} (o : option A) e P : (∀ a, o = Some a → P a) → returns (ok_or o e) P.
Proof. destruct o; simpl; auto. Qed.

(** [returns] through a pattern-matching bind. *)
Ltac bind_as lem := eapply returns_bind; [eapply lem; try done; try lia|].

Section take.

Context (bytes : list byte) (end_ : Z).

Hypothesis bytes_addressable : addressable bytes.
Hypothesis end_inside : end_ <= len bytes.

(** Taking [n] bytes at [p] advances by [n] and stays before the end. *)
Lemma take_returns p n :
  0 <= p → 0 <= n →
  returns (take_bytes bytes p n end_) (λ '(v, q),
    q = p + n ∧ q <= end_ ∧ len v = n ∧ index bytes (p, q) = Ok v).
Proof.
  intros Hp Hn. unfold take_bytes. eapply returns_bind.
  { apply returns_ok_or. intros q Hq%checked_add_inv. exact Hq. }
  intros q ->. destruct (Z.ltb_spec end_ (p + n)), (Z.ltb_spec (len bytes) (p + n)); try done.
  simpl. rewrite index_ok by lia. simpl. rewrite index_ok by lia.
  split_and!; [done|done| |done]. rewrite slice_len; lia.
Qed.

Lemma take_u8_returns p :
  0 <= p → returns (take_u8 bytes p end_) (λ '(b, q), q = p + 1 ∧ q <= end_).
Proof.
  intros Hp. unfold take_u8. bind_as take_returns. intros [v q] (->&?&Hv&_).
  destruct v as [|b v]; [done|]. simpl. done.
Qed.

Lemma take_u32_returns p endian :
  0 <= p → returns (take_u32 bytes p end_ endian)
    (λ '(v, q), q = p + 4 ∧ q <= end_ ∧ U32.ok v).
Proof.
  intros Hp. unfold take_u32. bind_as take_returns. intros [v q] (->&?&Hv&_).
  unfold read_u32. rewrite Hv. simpl. split_and!; [done|done|by apply from_bytes_range].
Qed.

Lemma align_returns p a :
  a = 4 ∨ a = 8 → 0 <= p → p <= end_ →
  returns (align_field_position bytes p end_ a) (λ q, p <= q ∧ q <= end_).
Proof.
  intros Ha Hp He. unfold addressable, MAX_MESSAGE_SIZE in *. unfold align_field_position.
  assert (Hal : p <= align p a).
  { destruct Ha as [->| ->]; [rewrite align_4|rewrite align_8]; try (unfold U64.MAX; lia);
      [pose proof (Z.mod_pos_bound (- p) 4)|pose proof (Z.mod_pos_bound (- p) 8)]; lia. }
  bind_as take_returns. intros [v q] (->&?&_&_). unfold validate_zero_padding.
  case_match; simpl; [done|lia].
Qed.

(** A range of the frame that holds a valid text. *)
Definition text_range (r : Range) : Prop :=
  ∃ v, index bytes r = Ok v ∧ is_utf8 v = true.

Lemma take_string_returns p n :
  0 <= p → 0 <= n → returns (take_string_range bytes p n end_)
    (λ '(r, q), p <= q ∧ q <= end_ ∧ text_range r).
Proof.
  intros Hp Hn. unfold take_string_range. bind_as take_returns. intros [v q] (->&?&_&Hv).
  bind_as take_u8_returns. intros [b q] (->&?).
  destruct (Byte.eqb b "000"); [|done]. simpl. destruct (is_utf8 v) eqn:Hu; [|done]. simpl.
  split_and!; [lia|done|by exists v].
Qed.

End take.

Section parse.

Context `{Zvariant} (bytes : list byte) (end_ : Z) (endian : Endian).

Hypothesis bytes_addressable : addressable bytes.
Hypothesis end_inside : end_ <= len bytes.

(** The message grows on [bytes]: the fixed part stays, ranges are valid. *)
Definition valid_ranges (m : Message.t) : Prop :=
  Message.frame m = bytes ∧ ∀ c r, string_range m c = Some r → text_range bytes r.

Definition extends (m m' : Message.t) : Prop := valid_ranges m' ∧ fixed_part m' = fixed_part m.

Lemma extends_refl m : valid_ranges m → extends m m.
Proof. by split. Qed.

Lemma extends_frame m m' : valid_ranges m → fixed_part m' = fixed_part m → Message.frame m' = bytes.
Proof. intros [Hf _] E. unfold fixed_part in E. congruence. Qed.

Lemma assign_unknown m code r :
  code ∉ [1; 2; 3; 4; 6; 7] → Message.assign_string_field m code r = m.
Proof.
  rewrite !not_elem_of_cons. intros (?&?&?&?&?&?&_). unfold Message.assign_string_field.
  by rewrite !(proj2 (Z.eqb_neq _ _)).
Qed.

Lemma extends_assign m code r :
  valid_ranges m → text_range bytes r → extends m (Message.assign_string_field m code r).
Proof.
  intros Hm Hr. destruct (decide (code ∈ [1; 2; 3; 4; 6; 7])) as [Hc|Hc].
  2: { rewrite assign_unknown by done. by apply extends_refl. }
  assert (Hfix := proj2 (proj2 (string_range_assign m code r 0 Hc))).
  split; [|done]. split; [by eapply extends_frame|]. intros c r'.
  rewrite (proj1 (string_range_assign m code r c Hc)). case_match; [by intros [= <-]|]. by apply Hm.
Qed.

Lemma extends_signature m r :
  valid_ranges m → text_range bytes r → extends m (Message.set_signature m r).
Proof.
  intros [Hf Hm] Hr. split; [|done]. split; [done|]. intros c r'.
  destruct (decide (c = 8)) as [->|Hc]; [by intros [= <-]|]. intros Hc'. apply (Hm c). revert Hc'.
  unfold string_range. destruct (c =? 1), (c =? 2), (c =? 3), (c =? 4), (c =? 6), (c =? 7); try done.
  by rewrite (proj2 (Z.eqb_neq c 8)).
Qed.

Lemma skip_returns p vp signature m :
  0 <= vp → vp <= end_ → p <= vp →
  returns (skip_unknown_field bytes vp end_ endian signature m) (λ q, p <= q ∧ q <= end_).
Proof.
  intros Hvp He Hp. unfold skip_unknown_field. destruct (is_utf8 signature); [|done]. simpl.
  eapply returns_bind; [by apply (returns_ok_or _ _ (λ _, True))|]. intros sig _.
  case_match; [done|]. rewrite index_ok by lia. simpl.
  eapply returns_bind; [by apply (returns_ok_or _ _ (λ _, True))|]. intros n _.
  eapply returns_bind; [apply returns_ok_or; intros q Hq%checked_add_inv; exact Hq|].
  intros q ->. destruct (Z.ltb_spec end_ (vp + Z.of_N n)); simpl; [done|lia].
Qed.

Lemma parse_value_returns p vp code signature m :
  0 <= vp → vp <= p → p <= end_ → valid_ranges m →
  returns (parse_field_value bytes p vp end_ endian code signature m)
    (λ '(q, m'), vp <= q ∧ q <= end_ ∧ extends m m').
Proof.
  intros Hvp Hp He Hm. unfold parse_field_value. case_match.
  { eapply returns_bind; [apply (align_returns bytes end_); auto; lia|]. intros q [? ?].
    eapply returns_bind; [apply (take_u32_returns bytes end_); auto; lia|].
    intros [n q1] (->&?&[? ?]).
    eapply returns_bind; [apply (take_string_returns bytes end_); auto; lia|].
    intros [r q2] (?&?&Hr). simpl. split_and!; [lia|lia|]. by apply extends_assign. }
  case_match.
  { eapply returns_bind; [apply (take_u8_returns bytes end_); auto; lia|]. intros [n q1] (->&?).
    pose proof (value_range n).
    eapply returns_bind; [apply (take_string_returns bytes end_); auto; lia|].
    intros [r q2] (?&?&Hr). simpl. split_and!; [lia|lia|].
    case_match; [by apply extends_signature|by apply extends_refl]. }
  case_match.
  { eapply returns_bind; [apply (align_returns bytes end_); auto; lia|]. intros q [? ?].
    eapply returns_bind; [apply (take_u32_returns bytes end_); auto; lia|].
    intros [n q1] (->&?&_). simpl. split_and!; [lia|lia|].
    repeat case_match; (split; [exact Hm|done]). }
  eapply returns_bind; [apply (skip_returns vp); lia|]. intros q [? ?]. simpl.
  split_and!; [done|done|by apply extends_refl].
Qed.

Lemma parse_field_returns p known m :
  0 <= p → p <= end_ → valid_ranges m →
  returns (parse_field bytes p end_ endian known m)
    (λ '(q, known', m'), p < q ∧ q <= end_ ∧ extends m m').
Proof.
  intros Hp He Hm. unfold parse_field.
  eapply returns_bind; [apply (take_u8_returns bytes end_); auto; lia|]. intros [code q0] (->&?).
  case_match; [done|].
  eapply returns_bind; [apply (take_u8_returns bytes end_); auto; lia|]. intros [n q1] (->&?).
  pose proof (value_range n).
  eapply returns_bind; [apply (take_returns bytes end_); auto; lia|]. intros [sig q2] (->&?&_&_).
  eapply returns_bind; [apply (take_u8_returns bytes end_); auto; lia|]. intros [t q3] (->&?).
  case_match; [done|]. eapply returns_bind.
  { instantiate (1 := λ _, True). unfold check_known_field. by repeat case_match. }
  intros known' _. eapply returns_bind; [apply parse_value_returns; [lia..|done]|].
  intros [q m'] (?&?&?). simpl. split_and!; [lia|done..].
Qed.

Lemma parse_loop_returns fuel p known m :
  0 <= p → p <= end_ → valid_ranges m → end_ - p < Z.of_nat fuel →
  returns (parse_fields_loop fuel bytes p end_ endian known m) (extends m).
Proof.
  revert p known m. induction fuel as [|fuel IH]; intros p known m Hp He Hm Hf; [lia|].
  cbn [parse_fields_loop]. destruct (Z.ltb_spec p end_); [|by apply extends_refl].
  eapply returns_bind; [apply (align_returns bytes end_); auto; lia|]. intros q [? ?].
  case_match; [by apply extends_refl|].
  eapply returns_bind; [apply parse_field_returns; [lia..|done]|].
  intros [[q' known'] m'] (?&?&[Hm' Hfix]).
  eapply returns_impl; [apply IH; [lia..|done|lia]|]. intros m'' [? E]. split; [done|by rewrite E].
Qed.

End parse.

Section frame.

Context (fixed : list byte).

Hypothesis fixed_len : len fixed = 16.

Lemma byte_at_some n : (n < 16)%nat → ∃ b, byte_at fixed n = Ok b.
Proof.
  intros Hn. unfold byte_at. destruct (lookup_lt_is_Some_2 fixed n) as [b ->]; [|eauto].
  unfold len in *. lia.
Qed.

Lemma read_some p q endian :
  0 <= p → q = p + 4 → q <= 16 →
  ∃ v, (slice4 ← index fixed (p, q); read_u32 slice4 endian) = Ok v ∧ U32.ok v.
Proof.
  intros Hp -> Hq. rewrite index_ok by lia. step. unfold read_u32.
  assert (E : len (slice fixed p (p + 4)) = 4) by (rewrite slice_len; lia). rewrite E.
  eexists. split; [done|]. by apply from_bytes_range.
Qed.

(** The frame length is read from the endian marker and the two lengths. *)
Lemma frame_len_returns :
  returns (frame_len fixed) (λ total, ∃ b0 endian b1 kind a b,
    byte_at fixed 0 = Ok b0 ∧ parse_endian b0 = Ok endian ∧
    byte_at fixed 1 = Ok b1 ∧ MessageKind.try_from (value b1) = Ok kind ∧
    (slice4 ← index fixed (4, 8); read_u32 slice4 endian) = Ok a ∧
    (slice4 ← index fixed (12, 16); read_u32 slice4 endian) = Ok b ∧
    0 <= a ∧ 0 <= b ∧ total = align (16 + b) 8 + a ∧ total <= MAX_MESSAGE_SIZE ∧
    16 + b <= align (16 + b) 8 ∧ align (16 + b) 8 mod 8 = 0).
Proof.
  unfold frame_len. destruct (byte_at_some 0) as [b0 E0]; [lia|]. rewrite E0. step.
  destruct (parse_endian b0) as [endian|e|] eqn:Ee; step; [|done|].
  2: { unfold parse_endian in Ee. by repeat case_match. }
  destruct (byte_at_some 3) as [b3 E3]; [lia|]. rewrite E3. step. destruct (Byte.eqb b3 "001"); [|done].
  step. destruct (byte_at_some 1) as [b1 E1]; [lia|]. rewrite E1. step.
  destruct (MessageKind.try_from (value b1)) as [kind|e|] eqn:Ek; step; [|done|].
  2: { unfold MessageKind.try_from in Ek. by repeat case_match. }
  destruct (read_some 4 8 endian) as (a&Ea&Ha); [lia..|]. rewrite Ea. step.
  destruct (read_some 12 16 endian) as (b&Eb&Hb); [lia..|]. rewrite Eb. step.
  unfold U32.ok, U32.MAX, FIXED_HEADER_LEN in *.
  rewrite checked_add_ok by (unfold U64.MAX; lia). step.
  assert (Hal := align_8 (16 + b) ltac:(lia) ltac:(unfold U64.MAX; lia)).
  pose proof (Z.mod_pos_bound (- (16 + b)) 8).
  rewrite checked_add_ok by (unfold U64.MAX; lia). step.
  destruct (Z.ltb_spec MAX_MESSAGE_SIZE (align (16 + b) 8 + a)); [done|].
  exists b0, endian, b1, kind, a, b. split_and!; try done; try lia.
  rewrite Hal. pose proof (Z.div_mod (- (16 + b)) 8). apply Z.mod_divide; [lia|].
  exists (- (- (16 + b) / 8)). lia.
Qed.

End frame.

Section decode.

Context `{Zvariant}.

(** A message whose ranges are valid has its texts. *)
Lemma valid_texts bytes m :
  valid_ranges bytes m → ∃ path interface member error_name destination sender signature,
    texts m path interface member error_name destination sender signature.
Proof.
  intros [Hf Hr]. assert (E : ∀ c, ∃ t, text_at m c = Ok t).
  { intros c. unfold text_at, Message.header. destruct (string_range m c) as [r|] eqn:Ec; [|eauto].
    destruct (Hr _ _ Ec) as (v&Hv&Hu). rewrite Hf, Hv. step. rewrite Hu. eauto. }
  destruct (E 1) as [t1 E1], (E 2) as [t2 E2], (E 3) as [t3 E3], (E 4) as [t4 E4],
    (E 6) as [t6 E6], (E 7) as [t7 E7], (E 8) as [t8 E8].
  by exists t1, t2, t3, t4, t6, t7, t8.
Qed.

(** What an accepted message promises. *)
Record accepted (bytes : list byte) (fds : list Fd) (m : Message.t) : Prop := {
  accepted_frame : Message.frame m = bytes;
  accepted_size : frame_len (slice bytes 0 16) = Ok (len bytes);
  accepted_limit : len bytes <= MAX_MESSAGE_SIZE;
  accepted_fds : Message.unix_fds m = fds;
  accepted_fd_count : len fds <= MAX_UNIX_FDS;
  accepted_rules : ∃ path interface member error_name destination sender signature,
    texts m path interface member error_name destination sender signature ∧
    rules (Message.kind m) (Message.serial m) (Message.reply_serial m) path interface member
      error_name destination sender;
  accepted_body : ∃ body signature,
    Message.body_bytes m = Ok body ∧ Message.signature_str m = Ok signature ∧
    body `suffix_of` bytes ∧ (body = [] ↔ signature = []) ∧
    is_Some (signature_try_from signature) ∧
    Message.body_position m mod 8 = 0 ∧ len bytes = Message.body_position m + len body;
  accepted_serial : U32.ok (Message.serial m);
}.

Lemma decode_returns bytes (fds : list Fd) :
  returns (decode_message bytes fds) (accepted bytes fds).
Proof.
  unfold decode_message.
  destruct (Z.ltb_spec (len bytes) FIXED_HEADER_LEN) as [?|Hlen]; [done|].
  unfold FIXED_HEADER_LEN in *. set (fixed := slice bytes 0 16).
  assert (Hfix : len fixed = 16) by (unfold fixed; rewrite slice_len; lia).
  pose proof (frame_len_returns fixed Hfix) as Hfl.
  destruct (frame_len fixed) as [total|e|] eqn:Et; [|done..].
  destruct Hfl as (b0&endian&b1&kind&a&b&E0&Ee&E1&Ek&Ea&Eb&Ha&Hb&->&Hmax&Hal&Hmod). step.
  destruct (Z.eqb_spec (len bytes) (align (16 + b) 8 + a)) as [Htotal|]; [|done]. step.
  rewrite E0. step. rewrite Ee. step. rewrite E1. step. rewrite Ek. step.
  destruct (byte_at_some fixed Hfix 2) as [b2 E2]; [lia|]. rewrite E2. step.
  destruct (read_some fixed Hfix 8 12 endian) as (serial&Es&Hserial); [lia..|]. rewrite Es. step.
  destruct (Z.eqb_spec serial 0) as [?|Hs]; [done|]. rewrite Eb. step. rewrite Ea. step.
  set (pos := align (16 + b) 8) in *. set (m0 := empty_message _ _ _ _ _ _ _).
  assert (Haddr : addressable bytes) by (unfold addressable; lia).
  eapply returns_bind.
  { apply (parse_loop_returns bytes (16 + b) endian); [done|lia|unfold FIXED_HEADER_LEN; lia..| |].
    - split; [done|]. intros c r. unfold string_range. by repeat case_match.
    - unfold FIXED_HEADER_LEN. lia. }
  intros m [Hranges Hfixed]. rewrite index_ok by lia. step.
  destruct (validate_zero_padding _) as [[]|e|] eqn:Ez; step; [|done|].
  2: { unfold validate_zero_padding in Ez. by case_match. }
  rewrite checks_tail.
  destruct (valid_texts _ _ Hranges) as (t1&t2&t3&t4&t6&t7&t8&Ht).
  unfold fixed_part in Hfixed. simpl in Hfixed.
  assert (Hbody : Message.body_bytes m = Ok (slice bytes pos (pos + a))).
  { unfold Message.body_bytes. replace (Message.frame m) with bytes by congruence.
    replace (Message.body_range m) with (pos, pos + a) by congruence. apply index_ok; lia. }
  destruct (checks_iff m _ _ _ _ _ _ _ _ Ht Hbody) as [Hiff Hnp]; [congruence|].
  destruct (checks m) as [[]|e|]; step; [|done..].
  destruct (proj1 Hiff eq_refl) as [Hrules (Hfd&Hfdn&Hsig&Hempty)].
  assert (Hunix : Message.unix_fds m = fds) by congruence.
  assert (Hpos : Message.body_position m = pos) by congruence.
  assert (Hser : U32.ok (Message.serial m))
    by (replace (Message.serial m) with serial by congruence; exact Hserial).
  simpl. split; try done; try congruence; try lia.
  - fold fixed. by rewrite Htotal.
  - by exists t1, t2, t3, t4, t6, t7, t8.
  - exists (slice bytes pos (pos + a)), (default [] t8). split_and!; try done.
    + unfold Message.signature_str. change (Message.header m (Message.signature m)) with (text_at m 8).
      by rewrite (texts_signature _ _ _ _ _ _ _ _ Ht).
    + exists (take (Z.to_nat pos) bytes). etransitivity; [symmetry; apply (take_drop (Z.to_nat pos))|].
      f_equal. unfold slice. rewrite take_ge; [done|]. rewrite length_drop. unfold len in *. lia.
    + by rewrite Hpos.
    + rewrite Hpos, slice_len; lia.
Qed.

(** C25: the decoder is total and sound. On any bytes, any descriptors and
    whatever the body library answers, it returns; the message it accepts owns
    exactly these bytes and descriptors, its texts are valid UTF-8 inside the
    frame, it has the fields of its kind, valid names and a nonzero serial of 32
    bits, and its body is the 8-aligned rest of the frame, empty exactly without
    a signature. So no accessor of an accepted message panics. *)
Theorem decode_sound bytes (fds : list Fd) :
  match decode_message bytes fds with
  | Ok m => accepted bytes fds m
  | Err _ => True
  | Panic => False
  end.
Proof. exact (decode_returns bytes fds). Qed.

End decode.
