(* ===== verification/Auth.v ===== *)
(** * The authentication handshake of the message bus

    [tensor-dbus/src/guid.rs] and [auth.rs]: the line reader on a socket, the
    client that claims a user id and the server that compares it with the
    credentials of the kernel. The socket is what it delivers and what was
    written to it; how the kernel cuts the incoming bytes is arbitrary. *)

From Stdlib Require Import Strings.String Strings.Byte.
From S2P Require Import Prelude Bytes Names.
From S2P Require Wire.

Definition CRLF : list byte := ["013"; "010"]%byte.

(** ** [Guid] *)
Module Guid.

(** Sixteen bytes. *)
Definition t : Type := list byte.

Definition parse_bytes (value : list byte) : option t :=
  if negb (len value =? 32) then None else hex_pairs value.

(** [{byte:02x}]. *)
Definition lower_digit (v : Z) : byte := byte_of (if v <? 10 then 48 + v else 87 + v).

Definition to_string (self : t) : list byte := print_hex lower_digit self.

Definition from_str (value : list byte) : Result t :=
  match parse_bytes value with
  | Some guid => Ok guid
  | None => Err (BusError.InvalidGuid value)
  end.

Example guid_round_trips_and_normalizes_hex :
  (to_string <$> parse_bytes (text "0123456789abcdef0123456789ABCDEF")) =
    Some (text "0123456789abcdef0123456789abcdef") ∧
  parse_bytes (text "short") = None ∧
  parse_bytes (text "0123456789abcdef0123456789abcdeg") = None.
Proof. vm_compute. repeat split. Qed.

End Guid.

(** ** The socket *)
Module Socket.

Section socket.

Context {Fd : Type}.

(** What one receive may return: bytes with the descriptors that arrive with
    the first of them, or an error. *)
Inductive Segment := Bytes (bytes : list byte) (fds : list Fd) | Failed.

(** [writes] is the number of writes that succeed before the socket fails. *)
Record t := mk { incoming : list Segment; outgoing : list byte; writes : nat }.

Definition flatten (incoming : list Segment) : list byte :=
  incoming ≫= λ s, match s with Bytes bytes _ => bytes | Failed => [] end.

(** One [RecvMsg] into a buffer of [capacity] bytes; no bytes at the end of the
    stream. *)
Definition recv (capacity : nat) : Run t BusError.t (list byte * list Fd) := λ self,
  match incoming self with
  | [] => (self, Ok ([], []))
  | Failed :: rest => (mk rest (outgoing self) (writes self), Err BusError.Io)
  | Bytes bytes fds :: rest =>
      let rest := match drop capacity bytes with
                  | [] => rest
                  | remaining => Bytes remaining [] :: rest
                  end in
      (mk rest (outgoing self) (writes self), Ok (take capacity bytes, fds))
  end.

Definition write_all (buffer : list byte) : Run t BusError.t unit := λ self,
  match writes self with
  | O => (self, Err BusError.Io)
  | S writes => (mk (incoming self) (outgoing self ++ buffer) writes, Ok tt)
  end.

(** The end of [unix_fd::decode]: received descriptors join the others up to
    the limit. *)
Definition append_fds (fds received : list Fd) : Result (list Fd) :=
  let count := len fds + len received in
  if Wire.MAX_UNIX_FDS <? count then Err (BusError.UnixFdLimit count Wire.MAX_UNIX_FDS)
  else Ok (fds ++ received).

End socket.

Arguments Segment : clear implicits.
Arguments t : clear implicits.

End Socket.

Definition MAX_AUTH_LINE : Z := 4096.

Definition MAX_AUTH_COMMANDS : nat := 16.

(** ** [LineReader] *)
Module LineReader.

Section reader.

Context {Fd : Type}.

Record t := mk { buffered : list byte; unix_fds : list Fd; chunk_capacity : nat }.

Definition new (chunk_capacity : nat) : t := mk [] [] chunk_capacity.

(** [self.buffered.windows(2).position(|bytes| bytes == b"\r\n")]. *)
Fixpoint find_crlf (l : list byte) : option nat :=
  match l with
  | a :: (b :: _) as l' =>
      if decide ([a; b] = CRLF) then Some O else S <$> find_crlf l'
  | _ => None
  end.

Definition take_line (self : t) : t * Result (option (list byte)) :=
  match find_crlf (buffered self) with
  | None => (self, Ok None)
  | Some end_ =>
      if MAX_AUTH_LINE <? Z.of_nat end_ then (self, Err BusError.Authentication)
      else (mk (drop (end_ + 2) (buffered self)) (unix_fds self) (chunk_capacity self),
            Ok (Some (take end_ (buffered self))))
  end.

End reader.

Arguments t : clear implicits.

End LineReader.

(** The socket and the reader of a handshake. *)
Module Handshake.

Record t (Fd : Type) := mk { socket : Socket.t Fd; reader : LineReader.t Fd }.

Arguments mk {Fd}.
Arguments socket {Fd}.
Arguments reader {Fd}.

End Handshake.

Module Authenticated.

Record t (Fd : Type) := mk {
  unix_fd : bool;
  server_guid : Guid.t;
  buffered : list byte;
  unix_fds : list Fd;
}.

Arguments mk {Fd}.
Arguments unix_fd {Fd}.
Arguments server_guid {Fd}.
Arguments buffered {Fd}.
Arguments unix_fds {Fd}.

End Authenticated.

Section auth.

Context {Fd : Type}.

#[local] Abbreviation Auth := (Run (Handshake.t Fd) BusError.t).

(** An operation on the socket of the handshake. *)
Definition on_socket {A} (m : Run (Socket.t Fd) BusError.t A) : Auth A := λ s,
  let '(socket, r) := m (Handshake.socket s) in (Handshake.mk socket (Handshake.reader s), r).

Definition write_all (buffer : list byte) : Auth unit := on_socket (Socket.write_all buffer).

(** The receive of [LineReader::read]: the number of bytes that arrived. *)
Definition read_chunk : Auth nat := λ s,
  let reader := Handshake.reader s in
  match Socket.recv (LineReader.chunk_capacity reader) (Handshake.socket s) with
  | (socket, Ok (bytes, fds)) =>
      let buffered := LineReader.buffered reader ++ bytes in
      match Socket.append_fds (LineReader.unix_fds reader) fds with
      | Ok unix_fds =>
          (Handshake.mk socket (LineReader.mk buffered unix_fds (LineReader.chunk_capacity reader)),
           Ok (length bytes))
      | Err e =>
          (Handshake.mk socket
             (LineReader.mk buffered (LineReader.unix_fds reader) (LineReader.chunk_capacity reader)),
           Err e)
      | Panic => (s, Panic)
      end
  | (socket, Err e) => (Handshake.mk socket reader, Err e)
  | (socket, Panic) => (Handshake.mk socket reader, Panic)
  end.

Definition take_line : Auth (option (list byte)) := λ s,
  let '(reader, r) := LineReader.take_line (Handshake.reader s) in
  (Handshake.mk (Handshake.socket s) reader, r).

(** [LineReader::read]; [Panic] when the fuel runs out. *)
Fixpoint read_loop (fuel : nat) : Auth (list byte) :=
  match fuel with
  | O => panic
  | S fuel =>
      line ← take_line;
      match line with
      | Some line => mret line
      | None =>
          s ← get_state;
          if MAX_AUTH_LINE <? len (LineReader.buffered (Handshake.reader s))
          then throw BusError.Authentication
          else
            read ← read_chunk;
            if (read =? 0)%nat then throw BusError.Authentication else read_loop fuel
      end
  end.

(** Every receive adds a byte, and a line that does not end fails after 4096. *)
Definition read_line : Auth (list byte) := read_loop (Z.to_nat MAX_AUTH_LINE + 3).

Definition finish (unix_fd : bool) (server_guid : Guid.t) : Auth (Authenticated.t Fd) := λ s,
  let reader := Handshake.reader s in
  (s, Ok (Authenticated.mk unix_fd server_guid (LineReader.buffered reader)
            (LineReader.unix_fds reader))).

(** ** Identities *)

Definition HEX : list byte := text "0123456789ABCDEF".

(** [HEX[v]]. *)
Definition hex_digit (v : Z) : byte := nth (Z.to_nat v) HEX "000"%byte.

Definition push_hex (output bytes : list byte) : list byte := output ++ print_hex hex_digit bytes.

Definition external_uid (argument : list byte) : option Z :=
  if bool_decide (argument = []) || negb (len argument mod 2 =? 0) then None
  else
    decoded ← hex_pairs argument;
    if is_utf8 decoded then parse_u32 decoded else None.

Definition ok_server_guid (response : list byte) : option Guid.t :=
  guid ← strip_prefix (text "OK ") response; Guid.parse_bytes guid.

(** ** The client *)

Definition client_request (uid : Z) : list byte :=
  push_hex ("000"%byte :: text "AUTH EXTERNAL ") (decimal uid) ++ CRLF.

Definition authenticate_client (uid : Z) (expected_guid : option Guid.t)
    : Auth (Authenticated.t Fd) :=
  write_all (client_request uid);;
  response ← read_line;
  match ok_server_guid response with
  | None => throw BusError.Authentication
  | Some server_guid =>
      if negb (from_option (λ expected : list byte, bool_decide (expected = server_guid)) true
                 expected_guid)
      then throw BusError.Authentication
      else
        write_all (text "NEGOTIATE_UNIX_FD" ++ CRLF);;
        response ← read_line;
        unix_fd ← (if bool_decide (response = text "AGREE_UNIX_FD") then mret true
                   else if starts_with response (text "ERROR") then mret false
                   else throw BusError.Authentication);
        write_all (text "BEGIN" ++ CRLF);;
        finish unix_fd server_guid
  end.

(** ** The server *)

(** The errors of the first read of a command are authentication errors. *)
Definition map_err {A} (m : Auth A) : Auth A := λ s,
  match m s with (s, Err _) => (s, Err BusError.Authentication) | r => r end.

Definition accept (server_guid : Guid.t) : Auth bool :=
  write_all (text "OK " ++ Guid.to_string server_guid ++ CRLF);; mret true.

Definition reject : Auth bool := write_all (text "REJECTED EXTERNAL" ++ CRLF);; mret false.

(** A command before authentication: whether the peer is authenticated now. *)
Definition unauthenticated_command (server_guid : Guid.t) (peer_uid : Z) (line : list byte)
    : Auth bool :=
  match strip_prefix (text "AUTH EXTERNAL ") line with
  | Some argument =>
      if bool_decide (external_uid argument = Some peer_uid) then accept server_guid else reject
  | None =>
      if bool_decide (line = text "AUTH EXTERNAL") then
        write_all (text "DATA" ++ CRLF);;
        response ← read_line;
        let argument := default [] (strip_prefix (text "DATA ") response) in
        if bool_decide (argument = []) || bool_decide (external_uid argument = Some peer_uid)
        then accept server_guid else reject
      else reject
  end.

(** The first line begins with a zero byte, which is removed. *)
Definition remove_nul (first : bool) (line : list byte) : Auth (list byte) :=
  if first then
    match line with
    | b :: line => if Byte.eqb b "000" then mret line else throw BusError.Authentication
    | [] => throw BusError.Authentication
    end
  else mret line.

(** The body of the loop behind the read; [continue] is the next iteration. *)
Definition server_command (continue : bool → bool → Auth (Authenticated.t Fd))
    (server_guid : Guid.t) (peer_uid : Z) (authenticated unix_fd : bool) (line : list byte)
    : Auth (Authenticated.t Fd) :=
  if negb authenticated then
    authenticated ← unauthenticated_command server_guid peer_uid line;
    continue authenticated unix_fd
  else if bool_decide (line = text "NEGOTIATE_UNIX_FD") then
    write_all (text "AGREE_UNIX_FD" ++ CRLF);; continue authenticated true
  else if bool_decide (line = text "BEGIN") then finish unix_fd server_guid
  else if bool_decide (line = text "CANCEL") then
    write_all (text "REJECTED EXTERNAL" ++ CRLF);; continue false false
  else
    write_all (text "ERROR Unsupported command" ++ CRLF);; continue authenticated unix_fd.

Fixpoint server_loop (commands : nat) (server_guid : Guid.t) (peer_uid : Z)
    (first authenticated unix_fd : bool) : Auth (Authenticated.t Fd) :=
  match commands with
  | O => throw BusError.Authentication
  | S commands =>
      line ← map_err read_line;
      line ← remove_nul first line;
      server_command (server_loop commands server_guid peer_uid false)
        server_guid peer_uid authenticated unix_fd line
  end.

Definition authenticate_server (server_guid : Guid.t) (peer_uid : Z)
    : Auth (Authenticated.t Fd) :=
  server_loop MAX_AUTH_COMMANDS server_guid peer_uid true false false.

End auth.

(** A handshake that begins on a socket: the client reads chunks of 256 bytes,
    the server one byte at a time. *)
Definition client_start {Fd} (socket : Socket.t Fd) : Handshake.t Fd :=
  Handshake.mk socket (LineReader.new 256).

Definition server_start {Fd} (socket : Socket.t Fd) : Handshake.t Fd :=
  Handshake.mk socket (LineReader.new 1).

(** ** The unit tests of [auth.rs] *)

Example external_identity_is_hex_encoded_decimal_uid :
  external_uid (text "31303030") = Some 1000 ∧ external_uid (text "30") = Some 0 ∧
  external_uid (text "") = None ∧ external_uid (text "zz") = None.
Proof. vm_compute. repeat split. Qed.

Definition test_guid : Guid.t := replicate 16 "171"%byte.

Definition test_server (lines : list byte) : Socket.t nat * Result (Authenticated.t nat) :=
  let '(s, r) := authenticate_server test_guid 1000
                   (server_start (Socket.mk [Socket.Bytes lines []] [] 32)) in
  (Handshake.socket s, r).

Definition test_argument (uid : Z) : list byte := push_hex [] (decimal uid).

Example server_keeps_a_pipelined_first_message_after_begin :
  let '(socket, r) := test_server ("000"%byte :: text "AUTH EXTERNAL " ++ test_argument 1000 ++ CRLF
    ++ text "NEGOTIATE_UNIX_FD" ++ CRLF ++ text "BEGIN" ++ CRLF ++ text "first-frame") in
  r = Ok (Authenticated.mk true test_guid [] []) ∧
  Socket.flatten (Socket.incoming socket) = text "first-frame".
Proof. vm_compute. split; reflexivity. Qed.

Example server_accepts_external_data_challenge_form :
  let '(_, r) := test_server ("000"%byte :: text "AUTH EXTERNAL" ++ CRLF ++ text "DATA "
    ++ test_argument 1000 ++ CRLF ++ text "BEGIN" ++ CRLF) in
  r = Ok (Authenticated.mk false test_guid [] []).
Proof. vm_compute. reflexivity. Qed.

Example server_rejects_a_forged_external_uid :
  let '(_, r) := test_server ("000"%byte :: text "AUTH EXTERNAL " ++ test_argument 1001 ++ CRLF) in
  r = Err BusError.Authentication.
Proof. vm_compute. reflexivity. Qed.

Example server_bounds_authentication_commands :
  let '(_, r) := test_server ("000"%byte ::
    concat (replicate MAX_AUTH_COMMANDS (text "AUTH unsupported" ++ CRLF))) in
  r = Err BusError.Authentication.
Proof. vm_compute. reflexivity. Qed.
