(* ===== verification/AuthSpec.v ===== *)
(** * What the handshake promises

    A peer is admitted only with the user id that the kernel reports for it, and
    the server consumes exactly its commands; the client and the server of this
    library complete the handshake with each other, however the bytes are cut,
    and no byte behind it is lost. *)

From Stdlib Require Import Strings.String Strings.Byte.
From S2P Require Import Prelude Bytes Names Auth.

(** ** Finding the end of a line *)

#[local] Abbreviation find_crlf := LineReader.find_crlf.

Lemma find_crlf_cons a b l :
  find_crlf (a :: b :: l) = if decide ([a; b] = CRLF) then Some O else S <$> find_crlf (b :: l).
Proof. done. Qed.

Lemma find_crlf_one a : find_crlf [a] = None.
Proof. done. Qed.

#[local] Arguments LineReader.find_crlf : simpl never.

Lemma find_crlf_some l n : find_crlf l = Some n → l = take n l ++ CRLF ++ drop (n + 2) l.
Proof.
  revert n. induction l as [|a [|b l] IH]; intros n; [done..|]. rewrite find_crlf_cons.
  case_decide as Hab.
  - intros [= <-]. unfold CRLF in *. by injection Hab as -> ->.
  - destruct (find_crlf (b :: l)) as [k|]; [|done]. intros [= <-].
    cbn [Nat.add take drop app]. f_equal. by apply IH.
Qed.

Lemma find_crlf_bound l n : find_crlf l = Some n → (n + 2 <= length l)%nat.
Proof.
  intros E%find_crlf_some. apply (f_equal length) in E. rewrite !length_app in E.
  rewrite length_drop, length_take in E. unfold CRLF in E. simpl in E. lia.
Qed.

Lemma find_crlf_app l k n : find_crlf l = Some n → find_crlf (l ++ k) = Some n.
Proof.
  revert n. induction l as [|a [|b l] IH]; intros n; [done..|].
  change ((a :: b :: l) ++ k) with (a :: b :: l ++ k). rewrite !find_crlf_cons.
  case_decide; [done|]. destruct (find_crlf (b :: l)) as [m|]; [|done].
  change (b :: l ++ k) with ((b :: l) ++ k). by rewrite (IH m).
Qed.

(** A line that is not complete in a prefix ends behind it. *)
Lemma find_crlf_none l k n :
  find_crlf l = None → find_crlf (l ++ k) = Some n → (length l < n + 2)%nat.
Proof.
  revert n. induction l as [|a [|b l] IH]; intros n; [simpl; lia..|].
  change ((a :: b :: l) ++ k) with (a :: b :: l ++ k). rewrite !find_crlf_cons.
  case_decide; [done|]. destruct (find_crlf (b :: l)) as [m|]; [done|]. intros _.
  change (b :: l ++ k) with ((b :: l) ++ k).
  destruct (find_crlf ((b :: l) ++ k)) as [m|]; [|done]. intros [= <-].
  specialize (IH m eq_refl eq_refl). simpl in *. lia.
Qed.

(** The first line feed of the stream ends the line. *)
Lemma find_crlf_line line rest :
  "010"%byte ∉ line → find_crlf (line ++ CRLF ++ rest) = Some (length line).
Proof.
  induction line as [|a line IH]; [done|]. intros [Ha Hl]%not_elem_of_cons.
  specialize (IH Hl). destruct line as [|b line].
  - change (find_crlf (a :: "013"%byte :: "010"%byte :: rest) = Some 1%nat).
    change (find_crlf ("013"%byte :: "010"%byte :: rest) = Some 0%nat) in IH.
    rewrite find_crlf_cons, IH. by case_decide as E.
  - change ((a :: b :: line) ++ CRLF ++ rest) with (a :: b :: line ++ CRLF ++ rest).
    rewrite find_crlf_cons. change (b :: line ++ CRLF ++ rest) with ((b :: line) ++ CRLF ++ rest).
    rewrite IH. case_decide as E; [|done]. injection E as -> ->.
    apply not_elem_of_cons in Hl as [? _]. done.
Qed.

(** ** Reading from the socket *)

Section read.

Context {Fd : Type}.

Implicit Types s : Handshake.t Fd.

#[local] Abbreviation incoming s := (Socket.incoming (Handshake.socket s)).
#[local] Abbreviation outgoing s := (Socket.outgoing (Handshake.socket s)).
#[local] Abbreviation writes s := (Socket.writes (Handshake.socket s)).
#[local] Abbreviation buffered s := (LineReader.buffered (Handshake.reader s)).
#[local] Abbreviation capacity s := (LineReader.chunk_capacity (Handshake.reader s)).

(** The bytes that were not consumed, and the descriptors that were not lost. *)
Definition pending s : list byte := buffered s ++ Socket.flatten (incoming s).

Definition descriptors s : list Fd :=
  LineReader.unix_fds (Handshake.reader s) ++
  (incoming s ≫= λ seg, match seg with Socket.Bytes _ fds => fds | Socket.Failed => [] end).

(** Nothing but the consumed bytes changes. *)
Definition same_output s s' : Prop :=
  outgoing s' = outgoing s ∧ writes s' = writes s ∧ capacity s' = capacity s ∧
  descriptors s' = descriptors s.

Lemma same_output_refl s : same_output s s.
Proof. done. Qed.

Lemma same_output_trans s s' s'' : same_output s s' → same_output s' s'' → same_output s s''.
Proof. unfold same_output. intros (?&?&?&?) (?&?&?&?). split_and!; congruence. Qed.

Lemma recv_inv cap (socket socket' : Socket.t Fd) bytes fds :
  Socket.recv cap socket = (socket', Ok (bytes, fds)) →
  Socket.flatten (Socket.incoming socket) = bytes ++ Socket.flatten (Socket.incoming socket') ∧
  (Socket.incoming socket ≫= λ seg, match seg with Socket.Bytes _ fds => fds | _ => [] end) =
    fds ++ (Socket.incoming socket' ≫= λ seg, match seg with Socket.Bytes _ fds => fds | _ => [] end) ∧
  Socket.outgoing socket' = Socket.outgoing socket ∧ Socket.writes socket' = Socket.writes socket ∧
  (length bytes <= cap)%nat.
Proof.
  destruct socket as [[|[b f|] rest] out w]; unfold Socket.recv; simpl; intros E; try done.
  - injection E as <- <- <-. split_and!; try done. simpl. lia.
  - injection E as <- <- <-. simpl.
    assert (Hl : (length (take cap b) <= cap)%nat) by (rewrite length_take; lia).
    pose proof (take_drop cap b) as Htd. destruct (drop cap b) as [|x r] eqn:Ed; simpl.
    + rewrite app_nil_r in Htd. rewrite Htd in *. done.
    + split_and!; try done. rewrite <- Htd at 1. by rewrite <- app_assoc.
Qed.

(** One receive moves bytes into the buffer and keeps everything. *)
Lemma read_chunk_inv s s' n :
  read_chunk s = (s', Ok n) →
  pending s' = pending s ∧ same_output s s' ∧ (n <= capacity s)%nat ∧
  ∃ bytes, buffered s' = buffered s ++ bytes ∧ length bytes = n.
Proof.
  unfold read_chunk. destruct (Socket.recv _ _) as [socket [[bytes fds]|e|]] eqn:E; [|done..].
  apply recv_inv in E as (Hb&Hf&Ho&Hw&Hc). destruct (Socket.append_fds _ _) as [all|e|] eqn:Ea; [|done..].
  intros [= <- <-]. unfold Socket.append_fds in Ea. case_match; [done|]. injection Ea as <-.
  unfold pending, same_output, descriptors. simpl. split_and!; try done.
  - by rewrite Hb, <- app_assoc.
  - by rewrite Hf, <- app_assoc.
  - by exists bytes.
Qed.

Lemma take_line_inv s s' line :
  take_line s = (s', Ok (Some line)) →
  ∃ n, find_crlf (buffered s) = Some n ∧ line = take n (buffered s) ∧
    buffered s' = drop (n + 2) (buffered s) ∧ Z.of_nat n <= MAX_AUTH_LINE ∧
    incoming s' = incoming s ∧ same_output s s'.
Proof.
  unfold take_line, LineReader.take_line. destruct (find_crlf _) as [n|] eqn:E; [|done].
  destruct (Z.ltb_spec MAX_AUTH_LINE (Z.of_nat n)); [done|]. intros [= <- <-]. by exists n.
Qed.

Lemma take_line_none s s' : take_line s = (s', Ok None) → s' = s ∧ find_crlf (buffered s) = None.
Proof.
  unfold take_line, LineReader.take_line. destruct (find_crlf _) as [n|].
  - by destruct (MAX_AUTH_LINE <? Z.of_nat n).
  - intros [= <-]. by destruct s.
Qed.

Lemma read_step fuel s :
  read_loop (S fuel) s =
    match take_line s with
    | (s', Ok (Some line)) => (s', Ok line)
    | (s', Ok None) =>
        if MAX_AUTH_LINE <? len (buffered s') then (s', Err BusError.Authentication)
        else match read_chunk s' with
             | (s'', Ok n) =>
                 if (n =? 0)%nat then (s'', Err BusError.Authentication) else read_loop fuel s''
             | (s'', Err e) => (s'', Err e)
             | (s'', Panic) => (s'', Panic)
             end
    | (s', Err e) => (s', Err e)
    | (s', Panic) => (s', Panic)
    end.
Proof.
  cbn [read_loop]. unfold mbind, run_bind. destruct (take_line s) as [s' [[line|]|e|]]; try done.
  unfold get_state. case_match; [done|]. destruct (read_chunk s') as [s'' [n|e|]]; try done.
  by case_match.
Qed.

(** A line that was read was received with its end; a reader of single bytes
    holds nothing back. *)
Lemma read_loop_inv fuel s s' line :
  read_loop fuel s = (s', Ok line) →
  pending s = line ++ CRLF ++ pending s' ∧ same_output s s' ∧
  (capacity s = 1%nat → find_crlf (removelast (buffered s)) = None → buffered s' = []).
Proof.
  revert s. induction fuel as [|fuel IH]; intros s; [done|]. rewrite read_step.
  destruct (take_line s) as [s1 [[line'|]|e|]] eqn:Et; try done.
  - intros [= -> ->]. apply take_line_inv in Et as (n&En&->&Hb&_&Hi&Hout).
    pose proof (find_crlf_some _ _ En) as Hl. unfold pending. rewrite Hb, Hi. split_and!; [|done|].
    + rewrite Hl at 1. by rewrite <- !app_assoc.
    + intros _ Hnone. pose proof (find_crlf_bound _ _ En) as Hn.
      destruct (buffered s) as [|x l] eqn:Eb; [done|].
      pose proof (app_removelast_last x (l := x :: l) ltac:(done)) as Hlast.
      rewrite Hlast in En. apply find_crlf_none in En; [|done].
      apply (f_equal length) in Hlast. rewrite length_app in Hlast.
      change (length [_]) with 1%nat in Hlast. apply drop_ge. lia.
  - apply take_line_none in Et as [-> Enone]. case_match; [done|].
    destruct (read_chunk s) as [s2 [n|e|]] eqn:Er; try done. case_match eqn:En; [done|].
    intros Hrec. apply IH in Hrec as (Hp&Hout&Hempty).
    apply read_chunk_inv in Er as (Hp2&Hout2&Hn&bytes&Hb&Hlen). split_and!.
    + by rewrite <- Hp2.
    + by eapply same_output_trans.
    + intros Hcap _. apply Hempty; [by destruct Hout2 as (_&_&->&_)|].
      rewrite Hb. destruct bytes as [|x [|y bytes]]; simpl in *; [apply Nat.eqb_neq in En; lia| |lia].
      by rewrite removelast_last.
Qed.

(** ** Reading always ends *)

(** A method that returns, with whatever result. *)
Definition ends {A} (m : Run (Handshake.t Fd) BusError.t A) s : Prop :=
  runs m s (λ _ _, True) (λ _ _, True).

Lemma ends_bind {A B} (m : Run (Handshake.t Fd) BusError.t A) (k : A → Run (Handshake.t Fd) BusError.t B) s :
  ends m s → (∀ a s', ends (k a) s') → ends (m ≫= k) s.
Proof. intros Hm Hk. eapply runs_step; [exact Hm|by intros; apply Hk|done]. Qed.

Lemma chunk_ends s : ends read_chunk s.
Proof.
  unfold ends, runs, read_chunk. destruct s as [[inc out w] [buf fds cap]].
  unfold Socket.recv, Socket.append_fds. simpl.
  destruct inc as [|[b f|] rest]; simpl; [..|done]; by destruct (_ <? _).
Qed.

Lemma read_loop_ends fuel s :
  MAX_AUTH_LINE + 1 - len (buffered s) < Z.of_nat fuel → 0 < Z.of_nat fuel → ends (read_loop fuel) s.
Proof.
  revert s. induction fuel as [|fuel IH]; intros s Hf H0; [lia|]. unfold ends, runs. rewrite read_step.
  destruct (take_line s) as [s1 [[line|]|e|]] eqn:Et; [done| |done|].
  2: { unfold take_line, LineReader.take_line in Et. destruct (find_crlf _); [by destruct (_ <? _)|done]. }
  apply take_line_none in Et as [-> _]. destruct (Z.ltb_spec MAX_AUTH_LINE (len (buffered s))); [done|].
  pose proof (chunk_ends s) as Hc. unfold ends, runs in Hc.
  destruct (read_chunk s) as [s2 [n|e|]] eqn:Er; [|done..]. destruct (Nat.eqb_spec n 0) as [->|Hn]; [done|].
  apply read_chunk_inv in Er as (_&_&_&bytes&Hb&Hl).
  apply IH; rewrite ?Hb, ?len_app; unfold len in *; lia.
Qed.

Lemma read_line_ends s : ends read_line s.
Proof. apply read_loop_ends; pose proof (len_nonneg (buffered s)); unfold MAX_AUTH_LINE; lia. Qed.

Lemma write_ends buffer s : ends (write_all buffer) s.
Proof. unfold ends, runs, write_all, on_socket, Socket.write_all. by destruct (writes s). Qed.

(** ** A line that is there is read *)

(** The kernel delivers bytes until the end of the stream and no more
    descriptors than a message may carry. *)
Definition clean s : Prop :=
  Forall (λ seg, match seg with Socket.Bytes bytes _ => bytes ≠ [] | Socket.Failed => False end)
    (incoming s) ∧
  (1 <= capacity s)%nat ∧ len (descriptors s) <= Wire.MAX_UNIX_FDS.

Lemma read_chunk_clean s :
  clean s → Socket.flatten (incoming s) ≠ [] →
  ∃ s' n, read_chunk s = (s', Ok n) ∧ (0 < n)%nat ∧ clean s'.
Proof.
  intros (Hc&Hcap&Hfd) Hne. unfold read_chunk. destruct s as [[inc out w] [buf fds cap]]. simpl in *.
  unfold descriptors in Hfd. simpl in Hfd.
  destruct inc as [|[b f|] rest]; [done| |by inversion Hc]. inversion_clear Hc as [|? ? Hb Hrest].
  unfold Socket.recv. simpl. unfold Socket.append_fds. csimpl in *. len_simpl.
  pose proof (len_nonneg (rest ≫= λ seg, match seg with Socket.Bytes _ fds => fds | _ => [] end)).
  rewrite (proj2 (Z.ltb_ge _ _)) by lia.
  eexists _, _. split; [reflexivity|]. split.
  - rewrite length_take. destruct b; [done|]. simpl. lia.
  - unfold clean, descriptors. csimpl. destruct (drop cap b) as [|x r] eqn:Ed; csimpl.
    + split_and!; [done|done|]. len_simpl. lia.
    + split_and!; [by constructor|done|]. len_simpl. lia.
Qed.

Lemma read_loop_line fuel s line rest :
  clean s → "010"%byte ∉ line → pending s = line ++ CRLF ++ rest →
  Z.of_nat (length line) < MAX_AUTH_LINE →
  MAX_AUTH_LINE + 1 - len (buffered s) < Z.of_nat fuel →
  0 < Z.of_nat fuel →
  ∃ s', read_loop fuel s = (s', Ok line) ∧ clean s'.
Proof.
  intros Hc Hline Hp Hlen. revert s Hc Hp.
  induction fuel as [|fuel IH]; intros s Hc Hp Hf Hf0; [lia|]. rewrite read_step.
  pose proof (find_crlf_line line rest Hline) as Hfind. rewrite <- Hp in Hfind.
  unfold take_line, LineReader.take_line.
  destruct (find_crlf (buffered s)) as [n|] eqn:En.
  - unfold pending in Hfind. rewrite (find_crlf_app _ _ _ En) in Hfind. injection Hfind as ->.
    rewrite (proj2 (Z.ltb_ge _ _)) by (unfold MAX_AUTH_LINE in *; lia).
    assert (Htake : take (length line) (buffered s) = line).
    { apply (f_equal (take (length line))) in Hp. unfold pending in Hp.
      rewrite take_app_length, take_app_le in Hp; [done|]. apply find_crlf_bound in En. lia. }
    rewrite Htake. eexists. split; [reflexivity|exact Hc].
  - pose proof (find_crlf_none _ _ _ En Hfind) as Hshort.
    replace (Handshake.mk (Handshake.socket s) (Handshake.reader s)) with s by by destruct s.
    rewrite (proj2 (Z.ltb_ge _ _)) by (unfold len; lia).
    destruct (read_chunk_clean s Hc) as (s'&n&Er&Hn&Hc').
    { intros E. unfold pending in Hfind. rewrite E, app_nil_r in Hfind. congruence. }
    rewrite Er. destruct (Nat.eqb_spec n 0) as [->|_]; [lia|].
    apply read_chunk_inv in Er as (Hp'&_&_&bytes&Hb&Hbl).
    apply IH; [done|by rewrite Hp'| |]; rewrite ?Hb, ?len_app; unfold len in *; lia.
Qed.

(** Without the end of a line, the reader takes everything and waits; at the
    end of the stream it fails. *)
Lemma read_loop_waits fuel s :
  clean s → find_crlf (pending s) = None → len (pending s) <= MAX_AUTH_LINE →
  MAX_AUTH_LINE + 1 - len (buffered s) < Z.of_nat fuel → 0 < Z.of_nat fuel →
  ∃ s', read_loop fuel s = (s', Err BusError.Authentication) ∧ outgoing s' = outgoing s.
Proof.
  revert s. induction fuel as [|fuel IH]; intros s Hc Hp Hl Hf H0; [lia|]. rewrite read_step.
  assert (Hb : find_crlf (buffered s) = None).
  { destruct (find_crlf (buffered s)) as [n|] eqn:E; [|done].
    unfold pending in Hp. by rewrite (find_crlf_app _ _ _ E) in Hp. }
  unfold take_line, LineReader.take_line. rewrite Hb.
  replace (Handshake.mk (Handshake.socket s) (Handshake.reader s)) with s by by destruct s.
  rewrite (proj2 (Z.ltb_ge _ _))
    by (unfold pending in Hl; rewrite len_app in Hl; pose proof (len_nonneg (Socket.flatten (incoming s))); lia).
  destruct (decide (Socket.flatten (incoming s) = [])) as [E|E].
  - destruct Hc as (Hc&Hcap&Hfd). destruct s as [[inc out w] [buf fds cap]]. simpl in *.
    assert (inc = []) as ->.
    { destruct inc as [|[b f|] rest]; [done| |by inversion Hc]. inversion_clear Hc as [|? ? Hb' _].
      unfold Socket.flatten in E. csimpl in E. by apply app_eq_nil in E as [? _]. }
    unfold read_chunk, Socket.recv, Socket.append_fds. simpl.
    unfold descriptors in Hfd. simpl in Hfd. rewrite app_nil_r in Hfd. rewrite (proj2 (Z.ltb_ge _ _)) by (unfold len in *; simpl; lia).
    by eexists.
  - destruct (read_chunk_clean s Hc E) as (s'&n&Er&Hn&Hc'). rewrite Er.
    destruct (Nat.eqb_spec n 0) as [->|_]; [lia|].
    apply read_chunk_inv in Er as (Hp'&(Ho&_)&_&bytes&Hb'&Hbl).
    destruct (IH s') as (s2&E2&Ho2); [done|by rewrite Hp'|by rewrite Hp'| | |].
    + rewrite Hb', len_app. unfold len in *. lia.
    + unfold pending in Hl. rewrite len_app in Hl. pose proof (len_nonneg (Socket.flatten (incoming s))). lia.
    + exists s2. split; [done|congruence].
Qed.

Lemma read_line_ok s line rest :
  clean s → "010"%byte ∉ line → pending s = line ++ CRLF ++ rest →
  Z.of_nat (length line) < MAX_AUTH_LINE →
  ∃ s', read_line s = (s', Ok line) ∧ clean s' ∧ pending s' = rest ∧ same_output s s' ∧
    (capacity s = 1%nat → buffered s = [] → buffered s' = []).
Proof.
  intros Hc Hl Hp Hlen. pose proof (len_nonneg (buffered s)).
  destruct (read_loop_line (Z.to_nat MAX_AUTH_LINE + 3) s line rest) as (s'&E&Hc');
    try done; try (unfold MAX_AUTH_LINE in *; lia).
  destruct (read_loop_inv _ _ _ _ E) as (Hp'&Hout&Hempty).
  exists s'. split_and!; try done.
  - rewrite Hp in Hp'. apply app_inv_head in Hp'. by apply app_inv_head in Hp'.
  - intros Hcap Hb. apply Hempty; [done|]. by rewrite Hb.
Qed.

End read.

(** ** Who is admitted *)

(** Lines as they travel. *)
Definition wire (lines : list (list byte)) : list byte := lines ≫= λ line, line ++ CRLF.

(** The argument of a response to the challenge, empty unless it is data. *)
Definition data_argument (response : list byte) : list byte :=
  default [] (strip_prefix (text "DATA ") response).

(** A claim of the user id [uid]: in the command, or after a challenge in a
    response that names no other user. *)
Inductive claims (uid : Z) : list (list byte) → Prop :=
| claims_command argument :
    external_uid argument = Some uid → claims uid [text "AUTH EXTERNAL " ++ argument]
| claims_response response :
    data_argument response = [] ∨ external_uid (data_argument response) = Some uid →
    claims uid [text "AUTH EXTERNAL"; response].

(** After a claim, commands other than a cancellation and then [BEGIN]. *)
Definition begins (fd : bool) (lines : list (list byte)) (unix_fd : bool) : Prop :=
  ∃ after, lines = after ++ [text "BEGIN"] ∧ text "CANCEL" ∉ after ∧
    unix_fd = fd || bool_decide (text "NEGOTIATE_UNIX_FD" ∈ after).

(** The commands of an admitted peer: the last claim is for [uid]. *)
Definition admitted (uid : Z) (lines : list (list byte)) (unix_fd : bool) : Prop :=
  ∃ before claim rest, lines = before ++ claim ++ rest ∧ claims uid claim ∧ begins false rest unix_fd.

Lemma admitted_app uid before lines fd : admitted uid lines fd → admitted uid (before ++ lines) fd.
Proof.
  intros (b&c&r&->&Hc&Hr). exists (before ++ b), c, r. by rewrite <- app_assoc.
Qed.

Lemma begins_cons fd line lines unix_fd :
  line ≠ text "CANCEL" → line ≠ text "NEGOTIATE_UNIX_FD" →
  begins fd lines unix_fd → begins fd (line :: lines) unix_fd.
Proof.
  intros Hc Hn (after&->&Hnc&->). exists (line :: after). split_and!; [done| |].
  - by apply not_elem_of_cons.
  - f_equal. apply bool_decide_ext. rewrite elem_of_cons. naive_solver.
Qed.

Lemma begins_negotiate fd lines unix_fd :
  begins true lines unix_fd → begins fd (text "NEGOTIATE_UNIX_FD" :: lines) unix_fd.
Proof.
  intros (after&->&Hnc&->). exists (text "NEGOTIATE_UNIX_FD" :: after). split_and!; [done| |].
  - by apply not_elem_of_cons.
  - rewrite (bool_decide_eq_true_2 (_ ∈ _ :: _)) by left. by destruct fd.
Qed.

Section server.

Context {Fd : Type} (guid : Guid.t) (uid : Z).

Implicit Types s : Handshake.t Fd.

#[local] Abbreviation input s := (Socket.flatten (Socket.incoming (Handshake.socket s))).

(** The server between two commands: nothing is buffered. *)
Definition ready s : Prop :=
  LineReader.buffered (Handshake.reader s) = [] ∧
  LineReader.chunk_capacity (Handshake.reader s) = 1%nat.

Lemma bind_inv {A B} (m : Run (Handshake.t Fd) BusError.t A) k s s' (b : B) :
  (m ≫= k) s = (s', Ok b) → ∃ s1 a, m s = (s1, Ok a) ∧ k a s1 = (s', Ok b).
Proof.
  unfold mbind, run_bind. destruct (m s) as [s1 [a|e|]]; [|done..]. eauto.
Qed.

Lemma read_line_ready s s' line :
  ready s → read_line s = (s', Ok line) → ready s' ∧ input s = line ++ CRLF ++ input s'.
Proof.
  intros [Hb Hc]. unfold read_line. generalize (Z.to_nat MAX_AUTH_LINE + 3)%nat. intros fuel E.
  apply read_loop_inv in E as (Hp&(_&_&Hcap&_)&Hempty).
  rewrite Hb in Hempty. specialize (Hempty Hc eq_refl). unfold pending in Hp.
  rewrite Hb, Hempty in Hp. split; [by split; [|rewrite Hcap]|done].
Qed.

Lemma write_ready buffer s s' :
  ready s → write_all buffer s = (s', Ok tt) → ready s' ∧ input s' = input s.
Proof.
  unfold write_all, on_socket, Socket.write_all. intros Hr.
  destruct (Socket.writes (Handshake.socket s)); [done|]. by intros [= <-].
Qed.

Lemma accept_inv s s' a :
  ready s → accept guid s = (s', Ok a) → a = true ∧ ready s' ∧ input s' = input s.
Proof.
  intros Hr E. apply bind_inv in E as (s1&[]&E&[= <- <-]). split; [done|]. by eapply write_ready.
Qed.

Lemma reject_inv s s' a :
  ready s → reject s = (s', Ok a) → a = false ∧ ready s' ∧ input s' = input s.
Proof.
  intros Hr E. apply bind_inv in E as (s1&[]&E&[= <- <-]). split; [done|]. by eapply write_ready.
Qed.

(** A command before authentication takes the line and at most one response,
    and authenticates only on a claim. *)
Lemma unauthenticated_inv line s s' a :
  ready s → unauthenticated_command guid uid line s = (s', Ok a) →
  ready s' ∧ ∃ responses, input s = wire responses ++ input s' ∧ (length responses <= 1)%nat ∧
    (a = true → claims uid (line :: responses)).
Proof.
  intros Hr. unfold unauthenticated_command.
  destruct (strip_prefix _ line) as [argument|] eqn:Ea.
  { apply strip_prefix_some in Ea as ->. case_bool_decide as Hu; intros E.
    - apply accept_inv in E as (->&?&Ei); [|done]. split; [done|]. exists []. split_and!; [done|simpl; lia|].
      intros _. by constructor.
    - apply reject_inv in E as (->&?&Ei); [|done]. split; [done|].
      exists []. split_and!; [done|simpl; lia|done]. }
  case_bool_decide as Hl; intros E.
  - subst line. apply bind_inv in E as (s1&[]&Ew&E). apply write_ready in Ew as [Hr1 Ei1]; [|done].
    apply bind_inv in E as (s2&response&El&E). apply read_line_ready in El as [Hr2 Ei2]; [|done].
    fold (data_argument response) in E. destruct (_ || _) eqn:Hd in E.
    + apply accept_inv in E as (->&?&Ei); [|done]. split; [done|]. exists [response].
      split_and!; [|simpl; lia|].
      * unfold wire. csimpl. rewrite Ei, <- Ei1, Ei2, app_nil_r. by rewrite <- app_assoc.
      * intros _. constructor. apply orb_true_iff in Hd as [Hd|Hd]; [left|right];
          by apply bool_decide_eq_true in Hd.
    + apply reject_inv in E as (->&?&Ei); [|done]. split; [done|]. exists [response].
      split_and!; [|simpl; lia|done]. unfold wire. csimpl. rewrite Ei, <- Ei1, Ei2, app_nil_r. by rewrite <- app_assoc.
  - apply reject_inv in E as (->&?&Ei); [|done]. split; [done|].
    exists []. split_and!; [done|simpl; lia|done].
Qed.

Lemma remove_nul_inv first line s s' line' :
  remove_nul first line s = (s', Ok line') →
  s' = s ∧ line = (if first then ["000"%byte] else []) ++ line'.
Proof.
  unfold remove_nul. destruct first; [|by intros [= <- <-]].
  destruct line as [|b line]; [done|]. destruct (Byte.eqb b "000") eqn:E; [|done].
  apply Byte.byte_dec_bl in E as ->. by intros [= <- <-].
Qed.

Lemma map_err_inv {A} (m : Run (Handshake.t Fd) BusError.t A) s s' a :
  map_err m s = (s', Ok a) → m s = (s', Ok a).
Proof. unfold map_err. by destruct (m s) as [? []]. Qed.

Lemma wire_cons line lines rest : wire (line :: lines) ++ rest = line ++ CRLF ++ wire lines ++ rest.
Proof. unfold wire. csimpl. by rewrite <- !app_assoc. Qed.

Lemma wire_app l k rest : wire (l ++ k) ++ rest = wire l ++ wire k ++ rest.
Proof. unfold wire. by rewrite bind_app, <- app_assoc. Qed.

(** The loop: the lines it takes and, from an authenticated state, how they
    lead to [BEGIN]. *)
Lemma server_loop_step n first authenticated fd s s' (auth : Authenticated.t Fd) :
  server_loop (S n) guid uid first authenticated fd s = (s', Ok auth) →
  ∃ s1 s2 raw line, read_line s = (s1, Ok raw) ∧ remove_nul first raw s1 = (s2, Ok line) ∧
    server_command (server_loop n guid uid false) guid uid authenticated fd line s2 = (s', Ok auth).
Proof.
  cbn [server_loop]. generalize (@read_line Fd). intros read E.
  apply bind_inv in E as (s1&raw&El&E). apply map_err_inv in El.
  apply bind_inv in E as (s2&line&En&E). by exists s1, s2, raw, line.
Qed.

Lemma server_loop_run n first authenticated fd s s1 raw line :
  read_line s = (s1, Ok raw) → remove_nul first raw s1 = (s1, Ok line) →
  server_loop (S n) guid uid first authenticated fd s =
    server_command (server_loop n guid uid false) guid uid authenticated fd line s1.
Proof.
  cbn [server_loop]. generalize (@read_line Fd). intros read E1 E2.
  rewrite (run_ok _ _ s s1 raw) by (unfold map_err; by rewrite E1).
  by rewrite (run_ok _ _ s1 s1 line).
Qed.

Lemma server_loop_inv n first authenticated fd s s' auth :
  ready s → (authenticated = false → fd = false) →
  server_loop n guid uid first authenticated fd s = (s', Ok auth) →
  Authenticated.server_guid auth = guid ∧ Authenticated.buffered auth = [] ∧
  ∃ lines, input s = (if first then ["000"%byte] else []) ++ wire lines ++ input s' ∧
    (length lines <= 2 * n)%nat ∧
    (admitted uid lines (Authenticated.unix_fd auth) ∨
     authenticated = true ∧ begins fd lines (Authenticated.unix_fd auth)).
Proof.
  revert first authenticated fd s. induction n as [|n IH]; intros first authenticated fd s Hr Hfd E;
    [done|].
  apply server_loop_step in E as (s1&s2&raw&line&El&En&E).
  apply read_line_ready in El as [Hr1 Ei1]; [|done]. apply remove_nul_inv in En as [-> ->].
  rewrite <- app_assoc in Ei1.
  unfold server_command in E. destruct authenticated; simpl in E.
  - case_bool_decide as Hneg.
    { apply bind_inv in E as (s3&[]&Ew&E). apply write_ready in Ew as [Hr3 Ei3]; [|done].
      apply IH in E as (?&?&lines&Ei&Hn&Hl); [|done..]. split_and!; [done..|].
      exists (line :: lines). rewrite wire_cons, Ei1, <- Ei3, Ei. split_and!; [done|simpl; lia|].
      subst line. destruct Hl as [Hl|[_ Hl]]; [left; by apply (admitted_app uid [_])|right].
      split; [done|]. by apply begins_negotiate. }
    case_bool_decide as Hbegin.
    { injection E as <- <-. simpl. destruct Hr1 as [Hb1 Hc1]. split_and!; [done..|].
      exists [line]. rewrite wire_cons. split_and!; [done|simpl; lia|]. right. split; [done|].
      subst line. exists []. split_and!; [done|apply not_elem_of_nil|].
      rewrite bool_decide_eq_false_2 by apply not_elem_of_nil. by rewrite orb_false_r. }
    case_bool_decide as Hcancel.
    { apply bind_inv in E as (s3&[]&Ew&E). apply write_ready in Ew as [Hr3 Ei3]; [|done].
      apply IH in E as (?&?&lines&Ei&Hn&Hl); [|done..]. split_and!; [done..|].
      exists (line :: lines). rewrite wire_cons, Ei1, <- Ei3, Ei. split_and!; [done|simpl; lia|].
      left. destruct Hl as [Hl|[? _]]; [|done]. by apply (admitted_app uid [_]). }
    apply bind_inv in E as (s3&[]&Ew&E). apply write_ready in Ew as [Hr3 Ei3]; [|done].
    apply IH in E as (?&?&lines&Ei&Hn&Hl); [|done..]. split_and!; [done..|].
    exists (line :: lines). rewrite wire_cons, Ei1, <- Ei3, Ei. split_and!; [done|simpl; lia|].
    destruct Hl as [Hl|[_ Hl]]; [left; by apply (admitted_app uid [_])|right].
    split; [done|]. by apply begins_cons.
  - apply bind_inv in E as (s3&a&Eu&E).
    apply unauthenticated_inv in Eu as [Hr3 (responses&Ei3&Hlen&Hclaim)]; [|done].
    apply IH in E as (?&?&lines&Ei&Hn&Hl); [|done|intros; by apply Hfd].
    split_and!; [done..|]. exists (line :: responses ++ lines). rewrite wire_cons, wire_app, Ei1, Ei3, Ei.
    split_and!; [done|simpl; rewrite length_app; lia|]. left.
    rewrite (app_comm_cons responses lines line).
    destruct Hl as [Hl|[-> Hl]]; [by apply admitted_app|].
    exists [], (line :: responses), lines. split_and!; [done|by apply Hclaim|].
    by rewrite Hfd in Hl.
Qed.

(** *** The server always returns *)

Lemma accept_ends s : ends (accept guid) s.
Proof. apply ends_bind; [apply write_ends|done]. Qed.

Lemma reject_ends s : ends reject s.
Proof. apply ends_bind; [apply write_ends|done]. Qed.

Lemma unauthenticated_ends line s : ends (unauthenticated_command guid uid line) s.
Proof.
  unfold unauthenticated_command. destruct (strip_prefix _ line).
  { case_bool_decide; [apply accept_ends|apply reject_ends]. }
  case_bool_decide; [|apply reject_ends]. apply ends_bind; [apply write_ends|]. intros _ s1.
  apply ends_bind; [apply read_line_ends|]. intros response s2. cbv zeta.
  destruct (_ || _); [apply accept_ends|apply reject_ends].
Qed.

Lemma server_loop_ends n first authenticated fd s :
  ends (server_loop n guid uid first authenticated fd) s.
Proof.
  revert first authenticated fd s. induction n as [|n IH]; intros first authenticated fd s; [done|].
  cbn [server_loop]. apply ends_bind.
  { pose proof (read_line_ends s) as Hr. revert Hr. unfold ends, runs, map_err. by destruct (read_line s) as [? []]. }
  intros raw s1. apply ends_bind.
  { unfold remove_nul. destruct first; [|done]. destruct raw as [|b l]; [done|]. by destruct (Byte.eqb b _). }
  intros line s2. unfold server_command.
  destruct (negb authenticated); [apply ends_bind; [apply unauthenticated_ends|done]|].
  case_bool_decide; [apply ends_bind; [apply write_ends|done]|]. case_bool_decide; [done|].
  case_bool_decide; (apply ends_bind; [apply write_ends|done]).
Qed.

End server.

(** C26: only the user that the kernel reports is admitted. Whatever a peer
    sends, however the bytes and descriptors arrive and whenever the socket
    fails, the server returns, with a result or an error; and if it completes the
    handshake it has consumed a zero byte and at most 32 command lines of which
    the last claim is for the reported user id (or names none after a challenge),
    is followed by no cancellation and is ended by BEGIN; descriptors may be
    passed exactly when they were negotiated after that claim; the bytes behind
    BEGIN are still on the socket. *)
Theorem server_admits_only_peer {Fd} guid uid (socket : Socket.t Fd) :
  let '(s', r) := authenticate_server guid uid (server_start socket) in
  r ≠ Panic ∧
  ∀ auth, r = Ok auth → ∃ lines,
    Socket.flatten (Socket.incoming socket) =
      "000"%byte :: wire lines ++ Socket.flatten (Socket.incoming (Handshake.socket s')) ∧
    (length lines <= 32)%nat ∧ admitted uid lines (Authenticated.unix_fd auth) ∧
    Authenticated.server_guid auth = guid ∧ Authenticated.buffered auth = [].
Proof.
  unfold authenticate_server, MAX_AUTH_COMMANDS. generalize (eq_refl 16%nat).
  generalize 16%nat at 1 3. intros n Hn16.
  pose proof (server_loop_ends guid uid n true false false (server_start socket)) as Hends.
  unfold ends, runs in Hends. destruct (server_loop _ _ _ _ _ _ _) as [s' r] eqn:E.
  split; [by destruct r|]. intros auth ->.
  destruct (server_loop_inv guid uid n _ _ _ (server_start socket) _ _ (conj eq_refl eq_refl) (λ _, eq_refl) E)
    as (Hg&Hb&lines&Hi&Hn&Hl). rewrite Hn16 in Hn.
  exists lines. split_and!; try done. by destruct Hl as [?|[? _]].
Qed.

(** ** Both sides together *)

(** What the client writes, and what the server answers. *)
Definition client_commands (uid : Z) : list byte :=
  client_request uid ++ (text "NEGOTIATE_UNIX_FD" ++ CRLF) ++ (text "BEGIN" ++ CRLF).

Definition server_replies (guid : Guid.t) : list byte :=
  (text "OK " ++ Guid.to_string guid ++ CRLF) ++ (text "AGREE_UNIX_FD" ++ CRLF).

Lemma hex_digit_prints : prints_hex hex_digit.
Proof.
  intros v Hv. assert (Hc : Forall (λ n, hex (hex_digit (Z.of_nat n)) = Some (Z.of_nat n)) (seq 0 16))
    by (apply (bool_decide_unpack _); vm_compute; done).
  rewrite Forall_forall in Hc. specialize (Hc (Z.to_nat v)).
  rewrite Z2Nat.id in Hc by lia. apply Hc, elem_of_seq. lia.
Qed.

Lemma lower_digit_prints : prints_hex Guid.lower_digit.
Proof.
  intros v Hv. assert (Hc : Forall (λ n, hex (Guid.lower_digit (Z.of_nat n)) = Some (Z.of_nat n)) (seq 0 16))
    by (apply (bool_decide_unpack _); vm_compute; done).
  rewrite Forall_forall in Hc. specialize (Hc (Z.to_nat v)).
  rewrite Z2Nat.id in Hc by lia. apply Hc, elem_of_seq. lia.
Qed.

Lemma print_hex_no_lf digit l : prints_hex digit → "010"%byte ∉ print_hex digit l.
Proof.
  intros Hd. induction l as [|b l IH]; simpl; [apply not_elem_of_nil|].
  pose proof (Hd _ (shiftr_4_range _ (value_range b))) as H1.
  pose proof (Hd _ (land_15_range (value b))) as H2.
  rewrite !not_elem_of_cons. split_and!; [intros E; by rewrite <- E in H1|
    intros E; by rewrite <- E in H2|done].
Qed.

Lemma length_print_hex digit l : length (print_hex digit l) = (2 * length l)%nat.
Proof. induction l; simpl; lia. Qed.

Lemma length_push_digits fuel v acc :
  (length (push_digits fuel v acc) <= fuel + length acc)%nat.
Proof.
  revert v acc. induction fuel as [|fuel IH]; intros v acc; simpl; [lia|].
  case_match; simpl; [lia|]. specialize (IH (v / 10) (byte_of (48 + v mod 10) :: acc)).
  simpl in IH. lia.
Qed.

Lemma external_uid_hex uid :
  U32.ok uid → external_uid (print_hex hex_digit (decimal uid)) = Some uid.
Proof.
  intros Hu. unfold external_uid. destruct (decimal_shape uid) as [Hd Hne].
  assert (len (print_hex hex_digit (decimal uid)) mod 2 = 0) as ->.
  { unfold len. rewrite length_print_hex, Nat2Z.inj_mul, Z.mul_comm. apply Z.mod_mul. lia. }
  rewrite bool_decide_eq_false_2 by (by destruct (decimal uid)).
  rewrite hex_pairs_print by apply hex_digit_prints. simpl.
  rewrite is_utf8_ascii; [by apply parse_decimal|]. apply forallb_iff. apply forallb_iff in Hd.
  eapply Forall_impl; [exact Hd|]. intros b. unfold is_ascii_digit, in_range, is_ascii. lia.
Qed.

Lemma guid_roundtrip guid :
  length guid = 16%nat → Guid.parse_bytes (Guid.to_string guid) = Some guid.
Proof.
  intros Hl. unfold Guid.parse_bytes, Guid.to_string.
  assert (len (print_hex Guid.lower_digit guid) = 32) as ->
    by (unfold len; rewrite length_print_hex, Hl; done).
  apply hex_pairs_print, lower_digit_prints.
Qed.

Lemma keep_line {Fd} line (s : Handshake.t Fd) : remove_nul false line s = (s, Ok line).
Proof. done. Qed.

Section agree.

Context {Fd : Type}.

Implicit Types s : Handshake.t Fd.

#[local] Abbreviation out s := (Socket.outgoing (Handshake.socket s)).
#[local] Abbreviation left s := (Socket.writes (Handshake.socket s)).
#[local] Abbreviation cap s := (LineReader.chunk_capacity (Handshake.reader s)).
#[local] Abbreviation buf s := (LineReader.buffered (Handshake.reader s)).

(** A handshake that waits for [input], may write [w] times and has written
    [o]; a reader of single bytes has an empty buffer. *)
Definition at_ s (input : list byte) (w : nat) (o : list byte) (c : nat) : Prop :=
  clean s ∧ pending s = input ∧ left s = w ∧ out s = o ∧ cap s = c ∧ (c = 1%nat → buf s = []).

Lemma at_read s line rest w o c :
  at_ s (line ++ CRLF ++ rest) w o c → "010"%byte ∉ line → (length line < 4000)%nat →
  ∃ s', read_line s = (s', Ok line) ∧ at_ s' rest w o c.
Proof.
  intros (Hc&Hp&Hw&Ho&Hcap&Hb) Hl Hlen.
  destruct (read_line_ok s line rest) as (s'&E&Hc'&Hp'&(Eo&Ew&Ecap&_)&He);
    [done..|unfold MAX_AUTH_LINE; lia|].
  exists s'. split; [done|]. split_and!; try done; try congruence.
  intros ->. apply He; [done|]. by apply Hb.
Qed.

Lemma at_write s b input w o c :
  at_ s input (S w) o c → ∃ s', write_all b s = (s', Ok tt) ∧ at_ s' input w (o ++ b) c.
Proof.
  intros (Hc&Hp&Hw&Ho&Hcap&Hb). unfold write_all, on_socket, Socket.write_all. rewrite Hw.
  eexists. split; [reflexivity|]. split_and!; try done. simpl. by rewrite Ho.
Qed.

Lemma at_finish s input w o c fd guid :
  at_ s input w o c →
  ∃ s' a, finish fd guid s = (s', Ok a) ∧ at_ s' input w o c ∧
    Authenticated.unix_fd a = fd ∧ Authenticated.server_guid a = guid ∧
    Authenticated.buffered a = buf s'.
Proof. intros Hs. by eexists s, _. Qed.

(** A part of a line: the reader waits for the rest. *)
Lemma at_wait s i more line w o c :
  at_ s i w o c → i ++ more = line ++ CRLF → more ≠ [] → "010"%byte ∉ line → (length line < 4000)%nat →
  ∃ s', read_line s = (s', Err BusError.Authentication) ∧ out s' = o.
Proof.
  intros (Hc&Hp&Hw&Ho&Hcap&Hb) E Hmore Hl Hlen.
  assert (Hli : (length i < length line + 2)%nat).
  { apply (f_equal length) in E. rewrite !length_app in E. change (length CRLF) with 2%nat in E.
    destruct more; [done|]. simpl in E. lia. }
  assert (Hnone : LineReader.find_crlf i = None).
  { destruct (LineReader.find_crlf i) as [n|] eqn:En; [|done]. pose proof (find_crlf_bound _ _ En).
    apply (find_crlf_app _ more) in En. rewrite E in En. pose proof (find_crlf_line line [] Hl) as Hf.
    rewrite app_nil_r in Hf. rewrite Hf in En. injection En as <-. lia. }
  destruct (read_loop_waits (Z.to_nat MAX_AUTH_LINE + 3) s) as (s'&E'&Ho'); [done|by rewrite Hp| | |lia|].
  - rewrite Hp. unfold len, MAX_AUTH_LINE. lia.
  - pose proof (len_nonneg (LineReader.buffered (Handshake.reader s))). unfold MAX_AUTH_LINE. lia.
  - exists s'. split; [done|congruence].
Qed.

(** *** The server, command by command *)

Definition claim_line (uid : Z) : list byte :=
  "000"%byte :: text "AUTH EXTERNAL " ++ print_hex hex_digit (decimal uid).

Lemma client_request_line uid : client_request uid = claim_line uid ++ CRLF.
Proof. done. Qed.

Lemma claim_line_ok uid : "010"%byte ∉ claim_line uid ∧ (length (claim_line uid) < 4000)%nat.
Proof.
  split.
  - apply not_elem_of_cons. split; [done|]. apply not_elem_of_app. split; [by apply (bool_decide_unpack _)|].
    apply print_hex_no_lf, hex_digit_prints.
  - unfold claim_line. rewrite length_cons, length_app, length_print_hex.
    change (length (text "AUTH EXTERNAL ")) with 14%nat. pose proof (length_push_digits 10 uid []).
    unfold decimal. simpl in *. lia.
Qed.

Definition ok_line (guid : Guid.t) : list byte := text "OK " ++ Guid.to_string guid.

Lemma ok_line_ok guid : length guid = 16%nat → "010"%byte ∉ ok_line guid ∧ (length (ok_line guid) < 4000)%nat.
Proof.
  intros Hg. split.
  - apply not_elem_of_app. split; [by apply (bool_decide_unpack _)|]. apply print_hex_no_lf, lower_digit_prints.
  - unfold ok_line, Guid.to_string. rewrite length_app, length_print_hex, Hg. simpl. lia.
Qed.

Lemma server_hello guid uid s rest n :
  U32.ok uid → at_ s (client_request uid ++ rest) 2 [] 1 →
  ∃ s', server_loop (S n) guid uid true false false s = server_loop n guid uid false true false s' ∧
    at_ s' rest 1 (ok_line guid ++ CRLF) 1.
Proof.
  intros Hu Hs. rewrite client_request_line, <- app_assoc in Hs. destruct (claim_line_ok uid) as [Hl Hn].
  destruct (at_read _ _ _ _ _ _ Hs Hl Hn) as (s1&E1&H1).
  destruct (at_write _ (text "OK " ++ Guid.to_string guid ++ CRLF) _ _ _ _ H1) as (s2&E2&H2).
  exists s2. split.
  2: { unfold ok_line. by rewrite <- app_assoc. }
  assert (Hnul : remove_nul true (claim_line uid) s1 =
    (s1, Ok (text "AUTH EXTERNAL " ++ print_hex hex_digit (decimal uid)))) by done.
  rewrite (server_loop_run _ _ _ _ _ _ _ _ _ _ E1 Hnul). unfold server_command at 1. cbv [negb].
  unfold unauthenticated_command. rewrite strip_prefix_app, bool_decide_eq_true_2
    by (by apply external_uid_hex). cbv iota.
  by rewrite (run_ok _ _ _ s2 true) by (unfold accept; by rewrite (run_ok _ _ _ _ _ E2)).
Qed.

Lemma server_negotiates guid uid s rest o fd n :
  at_ s ((text "NEGOTIATE_UNIX_FD" ++ CRLF) ++ rest) 1 o 1 →
  ∃ s', server_loop (S n) guid uid false true fd s = server_loop n guid uid false true true s' ∧
    at_ s' rest 0 (o ++ text "AGREE_UNIX_FD" ++ CRLF) 1.
Proof.
  intros Hs. rewrite <- app_assoc in Hs.
  destruct (at_read _ _ _ _ _ _ Hs) as (s1&E1&H1); [by apply (bool_decide_unpack _)|simpl; lia|].
  destruct (at_write _ (text "AGREE_UNIX_FD" ++ CRLF) _ _ _ _ H1) as (s2&E2&H2). exists s2. split; [|done].
  rewrite (server_loop_run _ _ _ _ _ _ _ _ _ _ E1 (keep_line _ _)). unfold server_command at 1. cbv [negb].
  rewrite bool_decide_eq_true_2 by done. cbv iota. by rewrite (run_ok _ _ _ _ _ E2).
Qed.

Lemma server_begins guid uid s rest w o n :
  at_ s ((text "BEGIN" ++ CRLF) ++ rest) w o 1 →
  ∃ s' a, server_loop (S n) guid uid false true true s = (s', Ok a) ∧ at_ s' rest w o 1 ∧
    Authenticated.unix_fd a = true ∧ Authenticated.server_guid a = guid ∧ Authenticated.buffered a = buf s'.
Proof.
  intros Hs. rewrite <- app_assoc in Hs.
  destruct (at_read _ _ _ _ _ _ Hs) as (s1&E1&H1); [by apply (bool_decide_unpack _)|simpl; lia|].
  destruct (at_finish _ _ _ _ _ true guid H1) as (s2&a&E2&H2&Ha). exists s2, a. split; [|done].
  rewrite (server_loop_run _ _ _ _ _ _ _ _ _ _ E1 (keep_line _ _)). unfold server_command at 1. cbv [negb].
  rewrite bool_decide_eq_false_2, bool_decide_eq_true_2 by done. cbv iota. exact E2.
Qed.

(** The server waits inside a command. *)
Lemma server_waits guid uid s i more line w o n first authenticated fd :
  at_ s i w o 1 → i ++ more = line ++ CRLF → more ≠ [] → "010"%byte ∉ line → (length line < 4000)%nat →
  ∃ s', server_loop (S n) guid uid first authenticated fd s = (s', Err BusError.Authentication) ∧ out s' = o.
Proof.
  intros Hs E Hm Hl Hn. destruct (at_wait _ _ _ _ _ _ _ Hs E Hm Hl Hn) as (s1&E1&Ho). exists s1. split; [|done].
  cbn [server_loop]. revert E1. generalize (@read_line Fd). intros read E1. apply run_err. unfold map_err.
  by rewrite E1.
Qed.

(** *** The client, reply by reply *)

Definition client_negotiation (guid : Guid.t) : Run (Handshake.t Fd) BusError.t (Authenticated.t Fd) :=
  response ← read_line;
  unix_fd ← (if bool_decide (response = text "AGREE_UNIX_FD") then mret true
             else if starts_with response (text "ERROR") then mret false
             else throw BusError.Authentication);
  write_all (text "BEGIN" ++ CRLF);;
  finish unix_fd guid.

Lemma client_hello guid uid expected s rest :
  length guid = 16%nat → expected = None ∨ expected = Some guid →
  at_ s ((ok_line guid ++ CRLF) ++ rest) 3 [] 256 →
  ∃ s', authenticate_client uid expected s = client_negotiation guid s' ∧
    at_ s' rest 1 (client_request uid ++ text "NEGOTIATE_UNIX_FD" ++ CRLF) 256.
Proof.
  intros Hg Hexp Hs. destruct (at_write _ (client_request uid) _ _ _ _ Hs) as (s1&E1&H1).
  rewrite <- app_assoc in H1. destruct (ok_line_ok guid Hg) as [Hl Hn].
  destruct (at_read _ _ _ _ _ _ H1 Hl Hn) as (s2&E2&H2).
  destruct (at_write _ (text "NEGOTIATE_UNIX_FD" ++ CRLF) _ _ _ _ H2) as (s3&E3&H3).
  exists s3. split; [|done]. unfold authenticate_client. rewrite (run_ok _ _ _ _ _ E1).
  rewrite (run_ok _ _ _ _ _ E2). unfold ok_server_guid, ok_line. rewrite strip_prefix_app. simpl.
  rewrite guid_roundtrip by done.
  assert (from_option (λ e : list byte, bool_decide (e = guid)) true expected = true) as ->.
  { destruct Hexp as [->| ->]; [done|]. by apply bool_decide_eq_true. }
  cbv iota beta. cbv [negb]. rewrite (run_ok _ _ _ _ _ E3). unfold client_negotiation. reflexivity.
Qed.

Lemma client_finishes guid s rest o :
  at_ s ((text "AGREE_UNIX_FD" ++ CRLF) ++ rest) 1 o 256 →
  ∃ s' a, client_negotiation guid s = (s', Ok a) ∧ at_ s' rest 0 (o ++ text "BEGIN" ++ CRLF) 256 ∧
    Authenticated.unix_fd a = true ∧ Authenticated.server_guid a = guid ∧ Authenticated.buffered a = buf s'.
Proof.
  intros Hs. rewrite <- app_assoc in Hs.
  destruct (at_read _ _ _ _ _ _ Hs) as (s1&E1&H1); [by apply (bool_decide_unpack _)|simpl; lia|].
  destruct (at_write _ (text "BEGIN" ++ CRLF) _ _ _ _ H1) as (s2&E2&H2).
  destruct (at_finish _ _ _ _ _ true guid H2) as (s3&a&E3&H3&Ha). exists s3, a. split; [|done].
  unfold client_negotiation. rewrite (run_ok _ _ _ _ _ E1). rewrite bool_decide_eq_true_2 by done. cbv iota.
  by rewrite run_ret_bind, (run_ok _ _ _ _ _ E2).
Qed.

End agree.

(** ** The conversation

    The two sides run against each other: what one of them has written, and
    nothing else, can be delivered to the other, in pieces that the kernel
    chooses. A side that has heard some bytes has done what its method does on
    them up to the read that finds no more; there it waits. *)

Record Talk (Fd : Type) := mk_talk {
  server_heard : list (Socket.Segment Fd);
  client_heard : list (Socket.Segment Fd) }.

Arguments mk_talk {Fd}.
Arguments server_heard {Fd}.
Arguments client_heard {Fd}.

Definition heard_fds {Fd} (segs : list (Socket.Segment Fd)) : list Fd :=
  segs ≫= λ seg, match seg with Socket.Bytes _ fds => fds | Socket.Failed => [] end.

Section conversation.

Context {Fd : Type} (uid : Z) (guid : Guid.t) (expected : option Guid.t).

(** The messages that the sides send once their handshake is complete. *)
Context (to_server to_client : list byte).

Implicit Types (talk : Talk Fd) (heard : list (Socket.Segment Fd)).

Definition client_run heard : Handshake.t Fd * Result (Authenticated.t Fd) :=
  authenticate_client uid expected (client_start (Socket.mk heard [] 3)).

Definition server_run heard : Handshake.t Fd * Result (Authenticated.t Fd) :=
  authenticate_server guid uid (server_start (Socket.mk heard [] 2)).

(** What a side has written so far, with its messages behind the handshake. *)
Definition said (run : Handshake.t Fd * Result (Authenticated.t Fd)) (messages : list byte) : list byte :=
  Socket.outgoing (Handshake.socket run.1) ++ match run.2 with Ok _ => messages | _ => [] end.

Inductive deliver : Talk Fd → Talk Fd → Prop :=
| deliver_to_server talk bytes fds rest :
    bytes ≠ [] → len (heard_fds (server_heard talk) ++ fds) <= Wire.MAX_UNIX_FDS →
    said (client_run (client_heard talk)) to_server =
      Socket.flatten (server_heard talk) ++ bytes ++ rest →
    deliver talk (mk_talk (server_heard talk ++ [Socket.Bytes bytes fds]) (client_heard talk))
| deliver_to_client talk bytes fds rest :
    bytes ≠ [] → len (heard_fds (client_heard talk) ++ fds) <= Wire.MAX_UNIX_FDS →
    said (server_run (server_heard talk)) to_client =
      Socket.flatten (client_heard talk) ++ bytes ++ rest →
    deliver talk (mk_talk (server_heard talk) (client_heard talk ++ [Socket.Bytes bytes fds])).

(** Both sides are done and agree; what was sent behind the handshake is kept. *)
Definition agreed talk : Prop :=
  ∃ c a s b,
    client_run (client_heard talk) = (c, Ok a) ∧ server_run (server_heard talk) = (s, Ok b) ∧
    Authenticated.server_guid a = guid ∧ Authenticated.server_guid b = guid ∧
    Authenticated.unix_fd a = true ∧ Authenticated.unix_fd b = true ∧
    Authenticated.buffered a ++ Socket.flatten (Socket.incoming (Handshake.socket c)) = to_client ∧
    Authenticated.buffered b = [] ∧
    Socket.flatten (Socket.incoming (Handshake.socket s)) = to_server.

(** *** What each side says *)

Definition negotiate_line : list byte := text "NEGOTIATE_UNIX_FD" ++ CRLF.
Definition begin_line : list byte := text "BEGIN" ++ CRLF.
Definition agree_line : list byte := text "AGREE_UNIX_FD" ++ CRLF.
Definition admit_line : list byte := ok_line guid ++ CRLF.

Definition client_says (heard : list byte) : list byte :=
  if decide ((admit_line ++ agree_line) `prefix_of` heard) then client_commands uid ++ to_server
  else if decide (admit_line `prefix_of` heard) then client_request uid ++ negotiate_line
  else client_request uid.

Definition server_says (heard : list byte) : list byte :=
  if decide (client_commands uid `prefix_of` heard) then server_replies guid ++ to_client
  else if decide ((client_request uid ++ negotiate_line) `prefix_of` heard) then admit_line ++ agree_line
  else if decide (client_request uid `prefix_of` heard) then admit_line
  else [].

(** A part of a text ends inside its first piece, or goes on behind it. *)
Lemma prefix_split (i a b : list byte) :
  i `prefix_of` a ++ b →
  (∃ i', i = a ++ i' ∧ i' `prefix_of` b) ∨ (∃ more, more ≠ [] ∧ i ++ more = a ∧ ¬ a `prefix_of` i).
Proof.
  intros [k Hk]. symmetry in Hk. apply app_eq_inv in Hk as [(l&->&->)|(l&->&_)].
  - left. exists l. split; [done|]. by exists k.
  - destruct l as [|x l].
    + left. exists []. rewrite !app_nil_r. split; [done|apply prefix_nil].
    + right. exists (x :: l). split_and!; [done|done|]. intros [m Hm].
      apply (f_equal length) in Hm. rewrite !length_app in Hm. simpl in Hm. lia.
Qed.

Definition hearing heard : Prop :=
  Forall (λ seg, match seg with Socket.Bytes bytes _ => bytes ≠ [] | Socket.Failed => False end) heard ∧
  len (heard_fds heard) <= Wire.MAX_UNIX_FDS.

Context (Hu : U32.ok uid) (Hg : length guid = 16%nat) (Hexp : expected = None ∨ expected = Some guid).

Lemma server_said heard :
  hearing heard → Socket.flatten heard `prefix_of` client_commands uid ++ to_server →
  said (server_run heard) to_client = server_says (Socket.flatten heard).
Proof.
  intros [Hh Hf] Hp. set (i := Socket.flatten heard) in *. unfold server_run, authenticate_server.
  assert (Hs : at_ (server_start (Socket.mk heard [] 2)) i 2 [] 1) by (split_and!; try split_and!; done).
  set (s0 := server_start _) in *. clearbody s0. unfold MAX_AUTH_COMMANDS, server_says.
  unfold client_commands in Hp |- *. fold negotiate_line begin_line in *. rewrite <- !app_assoc in Hp.
  destruct (claim_line_ok uid) as [Hcl Hcn].
  apply prefix_split in Hp as [(i1&E1&Hp)|(more&Hm&E1&Hn)].
  2: { rewrite client_request_line in E1.
       destruct (server_waits guid uid s0 i more _ _ _ 15 true false false Hs E1 Hm Hcl Hcn) as (s1&->&Ho).
       repeat (destruct (decide _) as [Hd|_];
         [exfalso; apply Hn; etransitivity; [|exact Hd]; first [reflexivity | by apply prefix_app_r]|]).
       unfold said. simpl. by rewrite Ho. }
  rewrite E1 in *. rewrite (decide_True (P := client_request uid `prefix_of` _)) by by apply prefix_app_r.
  destruct (server_hello guid uid s0 i1 15 Hu Hs) as (s1&->&H1).
  apply prefix_split in Hp as [(i2&E2&Hp)|(more&Hm&E2&Hn)].
  2: { destruct (server_waits guid uid s1 i1 more _ _ _ 14 false true false H1 E2 Hm) as (s2&->&Ho);
         [by apply (bool_decide_unpack _)|simpl; lia|].
       repeat (destruct (decide _) as [Hd|_];
         [exfalso; apply Hn; apply prefix_app_inv in Hd; etransitivity; [|exact Hd];
          first [reflexivity | by apply prefix_app_r]|]).
       unfold said. simpl. by rewrite Ho, app_nil_r. }
  rewrite E2 in *.
  rewrite (decide_True (P := (client_request uid ++ negotiate_line) `prefix_of` _))
    by (apply prefix_app; by apply prefix_app_r).
  destruct (server_negotiates guid uid s1 i2 _ false 14 H1) as (s2&->&H2).
  apply prefix_split in Hp as [(i3&E3&Hp)|(more&Hm&E3&Hn)].
  2: { destruct (server_waits guid uid s2 i2 more _ _ _ 13 false true true H2 E3 Hm) as (s3&->&Ho);
         [by apply (bool_decide_unpack _)|simpl; lia|].
       destruct (decide _) as [Hd|_]; [exfalso; apply Hn; by do 2 apply prefix_app_inv in Hd|].
       unfold said. simpl. by rewrite Ho, app_nil_r. }
  rewrite E3 in *. rewrite decide_True by (do 2 apply prefix_app; by apply prefix_app_r).
  destruct (server_begins guid uid s2 i3 _ _ 13 H2) as (s3&a&->&(_&_&_&Ho&_)&_).
  unfold said. cbn [fst snd]. by rewrite Ho.
Qed.

Lemma client_said heard :
  hearing heard → Socket.flatten heard `prefix_of` server_replies guid ++ to_client →
  said (client_run heard) to_server = client_says (Socket.flatten heard).
Proof.
  intros [Hh Hf] Hp. set (i := Socket.flatten heard) in *. unfold client_run.
  assert (Hs : at_ (client_start (Socket.mk heard [] 3)) i 3 [] 256).
  { split_and!; try split_and!; simpl; try done. lia. }
  set (s0 := client_start _) in *. clearbody s0. unfold client_says.
  change (server_replies guid) with ((text "OK " ++ Guid.to_string guid ++ CRLF) ++ agree_line) in Hp.
  assert (Ea : text "OK " ++ Guid.to_string guid ++ CRLF = admit_line)
    by (unfold admit_line, ok_line; by rewrite <- app_assoc).
  rewrite Ea, <- app_assoc in Hp. destruct (ok_line_ok guid Hg) as [Hl Hn].
  apply prefix_split in Hp as [(i1&E1&Hp)|(more&Hm&E1&Hd)].
  2: { destruct (at_write _ (client_request uid) _ _ _ _ Hs) as (s1&W1&H1).
       destruct (at_wait _ _ _ _ _ _ _ H1 E1 Hm Hl Hn) as (s2&E2&Ho).
       assert (authenticate_client uid expected s0 = (s2, Err BusError.Authentication)) as ->.
       { unfold authenticate_client. by rewrite (run_ok _ _ _ _ _ W1), (run_err _ _ _ _ _ E2). }
       repeat (destruct (decide _) as [Hp|_];
         [exfalso; apply Hd; etransitivity; [|exact Hp]; first [reflexivity | by apply prefix_app_r]|]).
       unfold said. simpl. by rewrite Ho, app_nil_r. }
  rewrite E1 in *. rewrite (decide_True (P := admit_line `prefix_of` _)) by by apply prefix_app_r.
  destruct (client_hello guid uid expected s0 i1 Hg Hexp Hs) as (s1&->&H1).
  apply prefix_split in Hp as [(i2&E2&Hp)|(more&Hm&E2&Hd)].
  2: { assert (Hlf : "010"%byte ∉ text "AGREE_UNIX_FD") by (by apply (bool_decide_unpack _)).
       destruct (at_wait _ _ _ _ _ _ _ H1 E2 Hm Hlf) as (s2&W2&Ho); [simpl; lia|].
       assert (client_negotiation guid s1 = (s2, Err BusError.Authentication)) as ->
         by exact (run_err _ _ _ _ _ W2).
       destruct (decide _) as [Hp|_]; [exfalso; apply Hd; by apply prefix_app_inv in Hp|].
       unfold said. simpl. by rewrite Ho, app_nil_r. }
  rewrite E2 in *. rewrite decide_True by (apply prefix_app; by apply prefix_app_r).
  destruct (client_finishes guid s1 i2 _ H1) as (s2&a&->&(_&_&_&Ho&_)&_).
  unfold said. cbn [fst snd]. rewrite Ho. unfold client_commands. by rewrite !app_assoc.
Qed.

(** A side that hears more says more. *)
Lemma server_says_mono i j : i `prefix_of` j → server_says i `prefix_of` server_says j.
Proof.
  intros Hij. unfold server_says.
  assert (Hr : server_replies guid = admit_line ++ agree_line).
  { unfold server_replies, admit_line, ok_line. by rewrite <- !app_assoc. }
  destruct (decide (client_commands uid `prefix_of` i)) as [H1|_].
  { rewrite decide_True by (by etransitivity). done. }
  destruct (decide (_ `prefix_of` i)) as [H2|_].
  { destruct (decide _); [rewrite Hr; by apply prefix_app_r|]. by rewrite decide_True by (by etransitivity). }
  destruct (decide (_ `prefix_of` i)) as [H3|_]; [|apply prefix_nil].
  destruct (decide _); [rewrite Hr, <- app_assoc; by apply prefix_app_r|].
  destruct (decide _); [by apply prefix_app_r|]. by rewrite decide_True by (by etransitivity).
Qed.

Lemma commands_start : (client_request uid ++ negotiate_line) `prefix_of` client_commands uid ++ to_server.
Proof.
  exists (begin_line ++ to_server).
  change (client_commands uid) with (client_request uid ++ negotiate_line ++ begin_line).
  by rewrite <- (app_assoc (client_request uid) negotiate_line), <- (app_assoc (client_request uid)),
    <- (app_assoc negotiate_line).
Qed.

Lemma request_start : client_request uid `prefix_of` client_commands uid ++ to_server.
Proof. etransitivity; [|apply commands_start]. by apply prefix_app_r. Qed.

Lemma client_says_mono i j : i `prefix_of` j → client_says i `prefix_of` client_says j.
Proof.
  intros Hij. unfold client_says.
  destruct (decide ((admit_line ++ agree_line) `prefix_of` i)) as [H1|_].
  { rewrite decide_True by (by etransitivity). done. }
  destruct (decide (_ `prefix_of` i)) as [H2|_].
  { destruct (decide _); [apply commands_start|]. by rewrite decide_True by (by etransitivity). }
  destruct (decide _); [apply request_start|]. destruct (decide _); [by apply prefix_app_r|done].
Qed.

(** *** Runs *)

Record in_step talk : Prop := {
  step_server : hearing (server_heard talk);
  step_client : hearing (client_heard talk);
  step_to_server : Socket.flatten (server_heard talk) `prefix_of` client_says (Socket.flatten (client_heard talk));
  step_to_client : Socket.flatten (client_heard talk) `prefix_of` server_says (Socket.flatten (server_heard talk)) }.

Lemma client_says_all i : client_says i `prefix_of` client_commands uid ++ to_server.
Proof.
  unfold client_says. destruct (decide _); [done|].
  destruct (decide _); [apply commands_start|apply request_start].
Qed.

Lemma server_says_all i : server_says i `prefix_of` server_replies guid ++ to_client.
Proof.
  assert (Hr : server_replies guid = admit_line ++ agree_line).
  { unfold server_replies, admit_line, ok_line. by rewrite <- !app_assoc. }
  unfold server_says. destruct (decide _); [done|]. rewrite Hr, <- app_assoc.
  destruct (decide _); [apply prefix_app; by eexists|]. destruct (decide _); [by eexists|apply prefix_nil].
Qed.

Lemma flatten_snoc heard bytes (fds : list Fd) :
  Socket.flatten (heard ++ [Socket.Bytes bytes fds]) = Socket.flatten heard ++ bytes.
Proof. unfold Socket.flatten. rewrite bind_app. csimpl. by rewrite app_nil_r. Qed.

Lemma hearing_snoc heard bytes (fds : list Fd) :
  hearing heard → bytes ≠ [] → len (heard_fds heard ++ fds) <= Wire.MAX_UNIX_FDS →
  hearing (heard ++ [Socket.Bytes bytes fds]).
Proof.
  intros [Hh _] Hb Hf. split; [apply Forall_app; split; [done|by repeat constructor]|].
  unfold heard_fds in *. rewrite bind_app. csimpl. by rewrite app_nil_r.
Qed.

Lemma in_step_deliver talk talk' : in_step talk → deliver talk talk' → in_step talk'.
Proof.
  intros [Hs Hc Ts Tc] Hd. destruct Hd as [talk bytes fds rest Hb Hf E|talk bytes fds rest Hb Hf E].
  - rewrite client_said in E; [|done|etransitivity; [exact Tc|apply server_says_all]].
    split; simpl; [by apply hearing_snoc|done|..]; rewrite flatten_snoc.
    + rewrite E, app_assoc. by eexists.
    + etransitivity; [exact Tc|]. apply server_says_mono. by eexists.
  - rewrite server_said in E; [|done|etransitivity; [exact Ts|apply client_says_all]].
    split; simpl; [done|by apply hearing_snoc|..]; rewrite flatten_snoc.
    + etransitivity; [exact Ts|]. apply client_says_mono. by eexists.
    + rewrite E, app_assoc. by eexists.
Qed.

(** A talk in which everything that was said is heard is over. *)
Lemma all_heard i j :
  j = client_says i → i = server_says j →
  i = server_replies guid ++ to_client ∧ j = client_commands uid ++ to_server.
Proof.
  assert (Hr : server_replies guid = admit_line ++ agree_line).
  { unfold server_replies, admit_line, ok_line. by rewrite <- !app_assoc. }
  assert (Hlong : ∀ a b c : list byte, b ≠ [] → a ++ b ++ c `prefix_of` a → False).
  { intros a b c Hb [k Hk]. apply (f_equal length) in Hk. rewrite !length_app in Hk. destruct b; [done|]. simpl in Hk. lia. }
  unfold client_says at 1. destruct (decide _) as [H1|H1].
  { intros -> ->. unfold server_says. rewrite decide_True by (by apply prefix_app_r). done. }
  destruct (decide (admit_line `prefix_of` i)) as [H2|H2]; intros -> Hi; exfalso.
  - apply H1. rewrite Hi. unfold server_says.
    destruct (decide _); [rewrite Hr; by apply prefix_app_r|]. by rewrite decide_True.
  - apply H2. rewrite Hi. unfold server_says.
    destruct (decide _); [rewrite Hr, <- app_assoc; by apply prefix_app_r|].
    destruct (decide _); [by apply prefix_app_r|]. by rewrite decide_True.
Qed.

Lemma agreed_end talk :
  hearing (server_heard talk) → hearing (client_heard talk) →
  Socket.flatten (client_heard talk) = server_replies guid ++ to_client →
  Socket.flatten (server_heard talk) = client_commands uid ++ to_server → agreed talk.
Proof.
  intros [Hsh Hsf] [Hch Hcf] Ec Es.
  assert (Hs : at_ (server_start (Socket.mk (server_heard talk) [] 2)) (client_commands uid ++ to_server) 2 [] 1)
    by (split_and!; try split_and!; done).
  assert (Hc : at_ (client_start (Socket.mk (client_heard talk) [] 3)) (server_replies guid ++ to_client) 3 [] 256).
  { split_and!; try split_and!; simpl; try done. lia. }
  unfold client_commands in Hs. rewrite <- !(app_assoc (client_request uid)), <- (app_assoc (_ ++ CRLF)) in Hs.
  destruct (server_hello guid uid _ _ 15 Hu Hs) as (s1&Es1&H1).
  destruct (server_negotiates guid uid s1 _ _ false 14 H1) as (s2&Es2&H2).
  destruct (server_begins guid uid s2 _ _ _ 13 H2) as (s&b&Es3&(_&Hps&_&_&_&Hbs)&Hb1&Hb2&Hb3).
  assert (Hr : server_replies guid ++ to_client = (ok_line guid ++ CRLF) ++ (text "AGREE_UNIX_FD" ++ CRLF) ++ to_client).
  { unfold server_replies, ok_line. by rewrite <- !app_assoc. }
  rewrite Hr in Hc. destruct (client_hello guid uid expected _ _ Hg Hexp Hc) as (c1&Ec1&Hc1).
  destruct (client_finishes guid c1 _ _ Hc1) as (c&a&Ec2&(_&Hpc&_)&Ha1&Ha2&Ha3).
  specialize (Hbs eq_refl). unfold pending in *. rewrite Hbs in Hps, Hb3.
  exists c, a, s, b. split; [unfold client_run; by rewrite Ec1|].
  split; [unfold server_run, authenticate_server, MAX_AUTH_COMMANDS; by rewrite Es1, Es2|].
  rewrite Ha3. done.
Qed.

Lemma undelivered heard (said : list byte) :
  Socket.flatten heard `prefix_of` said → said ≠ Socket.flatten heard →
  ∃ bytes, bytes ≠ [] ∧ said = Socket.flatten heard ++ bytes ++ [].
Proof.
  intros [k ->] Hn. exists k. rewrite app_nil_r. split; [|done]. intros ->. by rewrite app_nil_r in Hn.
Qed.

Lemma in_step_goes_on talk : in_step talk → (∃ talk', deliver talk talk') ∨ agreed talk.
Proof.
  intros [Hs Hc Ts Tc].
  pose proof (client_said _ Hc (transitivity Tc (server_says_all _))) as Ec.
  pose proof (server_said _ Hs (transitivity Ts (client_says_all _))) as Es.
  destruct (decide (client_says (Socket.flatten (client_heard talk)) = Socket.flatten (server_heard talk))) as [Ej|Ej].
  2: { left. destruct (undelivered _ _ Ts Ej) as (bytes&Hb&E). eexists.
       apply (deliver_to_server talk bytes [] []); [done|rewrite app_nil_r; apply Hs|by rewrite Ec]. }
  destruct (decide (server_says (Socket.flatten (server_heard talk)) = Socket.flatten (client_heard talk))) as [Ei|Ei].
  2: { left. destruct (undelivered _ _ Tc Ei) as (bytes&Hb&E). eexists.
       apply (deliver_to_client talk bytes [] []); [done|rewrite app_nil_r; apply Hc|by rewrite Es]. }
  right. destruct (all_heard _ _ (eq_sym Ej) (eq_sym Ei)) as [E1 E2]. by apply agreed_end.
Qed.

Definition heard_bytes talk : nat :=
  length (Socket.flatten (server_heard talk)) + length (Socket.flatten (client_heard talk)).

Lemma deliver_more talk talk' : deliver talk talk' → (heard_bytes talk < heard_bytes talk')%nat.
Proof.
  unfold heard_bytes. intros [t b f r Hb _ _|t b f r Hb _ _]; simpl; rewrite flatten_snoc, length_app;
    (destruct b; [done|simpl; lia]).
Qed.

Lemma deliveries talk talk' n :
  in_step talk → nsteps deliver n talk talk' → in_step talk' ∧ (heard_bytes talk + n <= heard_bytes talk')%nat.
Proof.
  intros Hi Hn. revert Hi. induction Hn as [talk|n talk t1 t2 Hd Hn IH]; intros Hi; [split; [done|lia]|].
  destruct (IH (in_step_deliver _ _ Hi Hd)) as [Hi' Hb]. split; [done|]. pose proof (deliver_more _ _ Hd). lia.
Qed.

End conversation.

(** C27: the handshake completes. Let the client and the server run against each
    other, where each hears only what the other has written by then, in pieces
    that the kernel cuts as it likes and with descriptors up to the limit, and
    each sends messages once it is done. At any moment of any such run either
    something can still be delivered - neither waits for the other for ever - or
    both have completed, agree on the server's identity and on descriptor
    passing, and every byte behind the handshake is kept for the message reader;
    and no run has more deliveries than there are bytes. *)
Theorem handshake_agrees {Fd} uid guid expected to_server to_client n (talk : Talk Fd) :
  U32.ok uid → length guid = 16%nat → expected = None ∨ expected = Some guid →
  nsteps (deliver uid guid expected to_server to_client) n (mk_talk [] []) talk →
  ((∃ talk', deliver uid guid expected to_server to_client talk talk') ∨
   agreed uid guid expected to_server to_client talk) ∧
  Socket.flatten (server_heard talk) `prefix_of` client_commands uid ++ to_server ∧
  Socket.flatten (client_heard talk) `prefix_of` server_replies guid ++ to_client ∧
  (n <= length (client_commands uid ++ to_server) + length (server_replies guid ++ to_client))%nat.
Proof.
  intros Hu Hg Hexp Hn.
  assert (Hi : in_step uid guid to_server to_client (mk_talk (Fd := Fd) [] [])).
  { split; simpl; [by split; [constructor|vm_compute]|by split; [constructor|vm_compute]|apply prefix_nil..]. }
  destruct (deliveries uid guid expected to_server to_client Hu Hg Hexp _ _ _ Hi Hn) as [Hi' Hb].
  assert (Hs : Socket.flatten (server_heard talk) `prefix_of` client_commands uid ++ to_server).
  { etransitivity; [apply Hi'|apply client_says_all]. }
  assert (Hc : Socket.flatten (client_heard talk) `prefix_of` server_replies guid ++ to_client).
  { etransitivity; [apply Hi'|apply server_says_all]. }
  split; [by apply in_step_goes_on|]. split; [exact Hs|]. split; [exact Hc|].
  apply prefix_length in Hs, Hc. unfold heard_bytes in Hb. simpl in Hb. lia.
Qed.

(** ** Concrete runs *)

Definition demo_guid : Guid.t := replicate 16 "171"%byte.

Definition demo_server : Socket.t nat :=
  Socket.mk [Socket.Bytes (client_commands 1000 ++ text "hello") [4%nat]] [] 2.

Lemma demo_admits :
  (authenticate_server demo_guid 1000 (server_start demo_server)).2 =
    Ok (Authenticated.mk true demo_guid [] [4%nat]).
Proof. vm_compute. reflexivity. Qed.

(** The client's first command arrives in two pieces. *)
Definition demo_talk : Talk nat :=
  mk_talk [Socket.Bytes (take 7 (client_request 1000)) []; Socket.Bytes (drop 7 (client_request 1000)) []] [].

(** The server has answered, and its answer is still to be delivered. *)
Lemma handshake_agrees_witness :
  nsteps (deliver 1000 demo_guid None (text "hello") []) 2 (mk_talk [] []) demo_talk ∧
  ((∃ talk', deliver 1000 demo_guid None (text "hello") [] demo_talk talk') ∨
   agreed 1000 demo_guid None (text "hello") [] demo_talk).
Proof.
  assert (Hn : nsteps (deliver 1000 demo_guid None (text "hello") []) 2 (mk_talk [] []) demo_talk).
  { apply (nsteps_l _ _ _ (mk_talk [Socket.Bytes (take 7 (client_request 1000)) []] [])).
    - apply (deliver_to_server _ _ _ _ _ (mk_talk [] []) (take 7 (client_request 1000)) []
        (drop 7 (client_request 1000))); [discriminate|vm_compute; discriminate|vm_compute; reflexivity].
    - eapply nsteps_l; [|apply nsteps_O].
      apply (deliver_to_server _ _ _ _ _ (mk_talk [Socket.Bytes (take 7 (client_request 1000)) []] [])
        (drop 7 (client_request 1000)) [] []); [discriminate|vm_compute; discriminate|vm_compute; reflexivity]. }
  assert (Hu : U32.ok 1000) by (vm_compute; split; congruence).
  split; [exact Hn|].
  exact (proj1 (handshake_agrees 1000 demo_guid None (text "hello") [] 2 demo_talk Hu eq_refl (or_introl eq_refl) Hn)).
Defined.

Lemma server_admits_only_peer_witness :
  ∃ s auth lines,
    authenticate_server demo_guid 1000 (server_start demo_server) = (s, Ok auth) ∧
    Socket.flatten (Socket.incoming demo_server) =
      "000"%byte :: wire lines ++ Socket.flatten (Socket.incoming (Handshake.socket s)) ∧
    admitted 1000 lines (Authenticated.unix_fd auth).
Proof.
  pose proof demo_admits as Hr.
  pose proof (server_admits_only_peer demo_guid 1000 demo_server) as Ht.
  destruct (authenticate_server demo_guid 1000 (server_start demo_server)) as [s r].
  cbn [snd] in Hr. subst r. destruct (proj2 Ht _ eq_refl) as (lines&Hi&_&Ha&_).
  eexists s, _, lines. split_and!; [reflexivity|exact Hi|exact Ha].
Defined.

(** A response to the challenge that is no data at all, here a cancellation,
    authenticates the peer as the user that the kernel reports. *)
Example cancelled_challenge_is_accepted :
  let socket := Socket.mk [Socket.Bytes ("000"%byte :: text "AUTH EXTERNAL" ++ CRLF
    ++ text "CANCEL" ++ CRLF ++ text "BEGIN" ++ CRLF) []] [] 9 in
  (authenticate_server (Fd := nat) demo_guid 1000 (server_start socket)).2 =
    Ok (Authenticated.mk false demo_guid [] []).
Proof. vm_compute. reflexivity. Qed.
