(* ===== verification/Reader.v ===== *)
(** * Reading messages from the socket

    [tensor-dbus/src/connection/reader.rs]: a frame is read behind what the
    handshake left over, first its fixed header and then exactly the length that
    the header announces. A dropped future keeps its operation, so a read is one
    step here. *)

From Stdlib Require Import Strings.String Strings.Byte.
From S2P Require Import Prelude Bytes Names Wire WireSpec WireSafe Auth.

Module MessageReader.

Section reader.

Context `{Zvariant}.

Record t := mk {
  stream : Socket.t Fd;
  buffered : list byte;
  unix_fds : list Fd;
  unix_fd : bool;
  failed : bool;
}.

Definition new (stream : Socket.t Fd) (unix_fd : bool) (buffered : list byte) (unix_fds : list Fd)
    : t := mk stream buffered unix_fds unix_fd false.

Definition validate_received_unix_fds (negotiated : bool) (unix_fds : list Fd) : Result unit :=
  if negb negotiated && negb (bool_decide (unix_fds = [])) then Err BusError.UnixFdUnsupported
  else Ok tt.

(** [read_chunk]: bytes up to the position [end_], with their descriptors. *)
Definition read_chunk (bytes : list byte) (end_ : Z) (fds : list Fd)
    : Run (Socket.t Fd) BusError.t (list byte * list Fd) := λ stream,
  match Socket.recv (Z.to_nat (end_ - len bytes)) stream with
  | (stream, Ok (received, received_fds)) =>
      match Socket.append_fds fds received_fds with
      | Ok fds =>
          if bool_decide (received = []) then (stream, Err BusError.Io)
          else (stream, Ok (bytes ++ received, fds))
      | Err e => (stream, Err e)
      | Panic => (stream, Panic)
      end
  | (stream, Err e) => (stream, Err e)
  | (stream, Panic) => (stream, Panic)
  end.

(** [while bytes.len() < end { read_chunk }]; [Panic] when the fuel runs out. *)
Fixpoint read_until (fuel : nat) (bytes : list byte) (end_ : Z) (fds : list Fd)
    : Run (Socket.t Fd) BusError.t (list byte * list Fd) :=
  if len bytes <? end_ then
    match fuel with
    | O => panic
    | S fuel => r ← read_chunk bytes end_ fds; read_until fuel r.1 end_ r.2
    end
  else mret (bytes, fds).

(** A [Result] inside the reading function. *)
Definition lift {A} (r : Result A) : Run (Socket.t Fd) BusError.t A := λ stream, (stream, r).

(** Every chunk has at least one byte. The conversion of the fixed header
    panics unless there are exactly sixteen bytes. *)
Definition read_message_from (unix_fd_negotiated : bool) (bytes : list byte) (unix_fds : list Fd)
    : Run (Socket.t Fd) BusError.t Message.t :=
  r ← read_until (Z.to_nat FIXED_HEADER_LEN) bytes FIXED_HEADER_LEN unix_fds;
  let '(bytes, unix_fds) := r in
  lift (validate_received_unix_fds unix_fd_negotiated unix_fds);;
  (if negb (len bytes =? FIXED_HEADER_LEN) then panic else mret tt);;
  total ← lift (frame_len bytes);
  r ← read_until (Z.to_nat (total - FIXED_HEADER_LEN)) bytes total unix_fds;
  let '(bytes, unix_fds) := r in
  lift (validate_received_unix_fds unix_fd_negotiated unix_fds);;
  lift (decode_message bytes unix_fds).

Definition read : Run t BusError.t Message.t := λ self,
  if failed self then (self, Err BusError.ConnectionUnusable)
  else
    match read_message_from (unix_fd self) (buffered self) (unix_fds self) (stream self) with
    | (stream, Ok message) => (mk stream [] [] (unix_fd self) false, Ok message)
    | (stream, Err e) => (mk stream [] [] (unix_fd self) true, Err e)
    | (stream, Panic) => (mk stream [] [] (unix_fd self) true, Panic)
    end.

End reader.

End MessageReader.
