(* ===== verification/ReaderSpec.v ===== *)
(** * Messages arrive whole and in order

    The reader takes exactly one frame per message from the socket, however the
    kernel cuts the stream; a sequence of encoded messages is received as it was
    sent. It returns on any bytes as long as the handshake left at most one fixed
    header behind. *)

From Stdlib Require Import Strings.String Strings.Byte.
From S2P Require Import Prelude Bytes Names Wire WireSpec WireSafe Auth Reader.

Section read.

Context `{Zvariant}.

Implicit Types stream : Socket.t Fd.

(** The descriptors that are still to come. *)
Definition incoming_fds stream : list Fd :=
  Socket.incoming stream ≫= λ seg,
    match seg with Socket.Bytes _ fds => fds | Socket.Failed => [] end.

(** The kernel delivers bytes until the end of the stream. *)
Definition flowing stream : Prop :=
  Forall (λ seg, match seg with Socket.Bytes bytes _ => bytes ≠ [] | Socket.Failed => False end)
    (Socket.incoming stream).

#[local] Abbreviation input stream := (Socket.flatten (Socket.incoming stream)).

(** *** Consuming a prefix of the stream *)

(** What remains after [n] bytes, and the descriptors that came with them. *)
Fixpoint advance (n : nat) (segs : list (Socket.Segment Fd)) : list (Socket.Segment Fd) :=
  match segs with
  | Socket.Bytes b f :: rest =>
      if (n =? 0)%nat then segs
      else if (length b <=? n)%nat then advance (n - length b) rest
      else Socket.Bytes (drop n b) [] :: rest
  | _ => segs
  end.

Fixpoint taken (n : nat) (segs : list (Socket.Segment Fd)) : list Fd :=
  match segs with
  | Socket.Bytes b f :: rest =>
      if (n =? 0)%nat then [] else if (length b <=? n)%nat then f ++ taken (n - length b) rest else f
  | _ => []
  end.

Definition nonempty (segs : list (Socket.Segment Fd)) : Prop :=
  Forall (λ seg, match seg with Socket.Bytes b _ => b ≠ [] | Socket.Failed => False end) segs.

Lemma advance_0 segs : advance 0 segs = segs ∧ taken 0 segs = [].
Proof. by destruct segs as [|[]]. Qed.

Lemma advance_add a b segs :
  nonempty segs →
  advance (a + b) segs = advance b (advance a segs) ∧
  taken (a + b) segs = taken a segs ++ taken b (advance a segs).
Proof.
  intros Hs. revert a b. induction Hs as [|[bytes f|] rest Hb Hrest IH]; intros a b; [done| |done].
  assert (Hl : (0 < length bytes)%nat) by (destruct bytes; [done|simpl; lia]).
  cbn [advance taken]. destruct (Nat.eqb_spec a 0) as [->|Ha]; [done|].
  rewrite (proj2 (Nat.eqb_neq (a + b) 0)) by lia.
  destruct (Nat.leb_spec (length bytes) a) as [Hle|Hgt].
  - rewrite (proj2 (Nat.leb_le _ (a + b))) by lia.
    replace (a + b - length bytes)%nat with (a - length bytes + b)%nat by lia.
    destruct (IH (a - length bytes)%nat b) as [-> ->]. by rewrite app_assoc.
  - cbn [advance taken]. rewrite length_drop.
    destruct (Nat.eqb_spec b 0) as [->|Hbz].
    { rewrite Nat.add_0_r, (proj2 (Nat.leb_gt _ _)) by lia. by rewrite app_nil_r. }
    destruct (Nat.leb_spec (length bytes) (a + b)), (Nat.leb_spec (length bytes - a) b); try lia.
    + replace (b - (length bytes - a))%nat with (a + b - length bytes)%nat by lia. done.
    + rewrite drop_drop, app_nil_r. done.
Qed.

Lemma advance_nonempty n segs : nonempty segs → nonempty (advance n segs).
Proof.
  intros Hs. revert n. induction Hs as [|[b f|] rest Hb Hrest IH]; intros n; [by constructor| |done].
  cbn [advance]. case_match; [by constructor|]. destruct (Nat.leb_spec (length b) n); [done|].
  constructor; [|done]. intros E. apply (f_equal length) in E. rewrite length_drop in E. simpl in E. lia.
Qed.

Lemma advance_flatten n segs :
  nonempty segs → Socket.flatten (advance n segs) = drop n (Socket.flatten segs).
Proof.
  intros Hs. revert n. induction Hs as [|[b f|] rest Hb Hrest IH]; intros n; [by destruct n| |done].
  cbn [advance]. destruct (Nat.eqb_spec n 0) as [->|Hn]; [done|].
  unfold Socket.flatten in *. destruct (Nat.leb_spec (length b) n) as [Hle|Hgt]; csimpl.
  - rewrite IH, drop_app_ge by done. done.
  - by rewrite drop_app_le by lia.
Qed.

(** Exactly the segments of a prefix. *)
Lemma advance_app segs rest :
  nonempty segs →
  advance (length (Socket.flatten segs)) (segs ++ rest) = rest ∧
  taken (length (Socket.flatten segs)) (segs ++ rest) =
    segs ≫= λ seg, match seg with Socket.Bytes _ fds => fds | Socket.Failed => [] end.
Proof.
  unfold Socket.flatten. induction 1 as [|[b f|] segs Hb Hsegs IH]; csimpl; [apply advance_0| |done].
  assert (0 < length b)%nat by (destruct b; [done|simpl; lia]). rewrite length_app.
  rewrite (proj2 (Nat.eqb_neq _ 0)) by lia. rewrite (proj2 (Nat.leb_le _ _)) by lia.
  replace (length b + _ - length b)%nat with
    (length (segs ≫= λ s, match s with Socket.Bytes bytes _ => bytes | Socket.Failed => [] end)) by lia.
  destruct IH as [-> ->]. done.
Qed.

Lemma taken_fds n segs :
  nonempty segs →
  taken n segs ++ (advance n segs ≫= λ seg,
    match seg with Socket.Bytes _ fds => fds | Socket.Failed => [] end) =
  segs ≫= λ seg, match seg with Socket.Bytes _ fds => fds | Socket.Failed => [] end.
Proof.
  intros Hs. revert n. induction Hs as [|[b f|] rest Hb Hrest IH]; intros n; [done| |done].
  cbn [advance taken]. destruct (n =? 0)%nat; [done|]. destruct (length b <=? n)%nat; csimpl; [|done].
  by rewrite <- app_assoc, IH.
Qed.

(** *** Reading up to a position *)

(** One chunk, when there are bytes to come and room for the descriptors. *)
Lemma chunk_flows stream bytes end_ fds :
  flowing stream → input stream ≠ [] → len bytes < end_ →
  len (fds ++ taken (Z.to_nat (end_ - len bytes)) (Socket.incoming stream)) <= MAX_UNIX_FDS →
  ∃ stream' received,
    let n := length received in
    MessageReader.read_chunk bytes end_ fds stream =
      (stream', Ok (bytes ++ received, fds ++ taken n (Socket.incoming stream))) ∧
    (0 < n)%nat ∧ Z.of_nat n <= end_ - len bytes ∧
    Socket.incoming stream' = advance n (Socket.incoming stream) ∧
    received = take n (input stream).
Proof.
  intros Hf Hne He Hfds. unfold MessageReader.read_chunk. unfold flowing in *.
  destruct stream as [[|[b f|] rest] out w]; csimpl in *; [done| |by inversion Hf].
  apply Forall_cons in Hf as [Hb Hrest]. set (cap := Z.to_nat (end_ - len bytes)).
  assert (Hcap : (1 <= cap)%nat) by (unfold cap; lia).
  assert (Hf : len fds + len f <= MAX_UNIX_FDS).
  { fold cap in Hfds. rewrite (proj2 (Nat.eqb_neq cap 0)) in Hfds by lia.
    case_match; rewrite !len_app in Hfds; [|lia].
    pose proof (len_nonneg (taken (cap - length b) rest)). lia. }
  unfold Socket.recv. csimpl. unfold Socket.append_fds.
  rewrite (proj2 (Z.ltb_ge _ _)) by (change Wire.MAX_UNIX_FDS with MAX_UNIX_FDS; lia).
  assert (Hbl : (1 <= length b)%nat) by (destruct b; [done|simpl; lia]).
  assert (Hlen : length (take cap b) = Nat.min cap (length b)) by apply length_take.
  assert (Htake : take cap b ≠ []) by (intros E; rewrite E in Hlen; simpl in Hlen; lia).
  rewrite bool_decide_eq_false_2 by done.
  eexists _, (take cap b). rewrite Hlen. rewrite (proj2 (Nat.eqb_neq _ 0)) by lia.
  pose proof (take_drop cap b) as Htd. pose proof (length_drop b cap) as Hld.
  destruct (Nat.leb_spec (length b) (Nat.min cap (length b))) as [Hle|Hgt].
  - replace (Nat.min cap (length b) - length b)%nat with O by lia.
    destruct (advance_0 rest) as [-> ->]. rewrite app_nil_r. split_and!; [done|lia|unfold cap; lia| |].
    + simpl. by rewrite drop_ge by lia.
    + unfold Socket.flatten. csimpl. by rewrite take_app_le, !take_ge by lia.
  - assert (Hcl : (cap < length b)%nat) by lia. split_and!; [done|lia|unfold cap; lia| |].
    + simpl. replace (Nat.min cap (length b)) with cap by lia.
      destruct (drop cap b) eqn:Ed; [simpl in Hld; lia|done].
    + unfold Socket.flatten. csimpl. rewrite take_app_le by lia. f_equal. lia.
Qed.

Lemma until_flows fuel stream bytes end_ fds want rest :
  flowing stream → input stream = want ++ rest → len bytes + len want = end_ →
  len want <= Z.of_nat fuel →
  len (fds ++ taken (length want) (Socket.incoming stream)) <= MAX_UNIX_FDS →
  ∃ stream',
    MessageReader.read_until fuel bytes end_ fds stream =
      (stream', Ok (bytes ++ want, fds ++ taken (length want) (Socket.incoming stream))) ∧
    Socket.incoming stream' = advance (length want) (Socket.incoming stream).
Proof.
  revert stream bytes fds want. induction fuel as [|fuel IH]; intros stream bytes fds want Hf Hi He Hn Hfds.
  - pose proof (len_nonneg want). assert (want = []) as -> by (apply len_zero; lia).
    rewrite len_nil in He. cbn [MessageReader.read_until length]. rewrite (proj2 (Z.ltb_ge _ _)) by lia.
    destruct (advance_0 (Socket.incoming stream)) as [-> ->]. exists stream. by rewrite !app_nil_r.
  - cbn [MessageReader.read_until]. destruct (Z.ltb_spec (len bytes) end_).
    2: { pose proof (len_nonneg want). assert (want = []) as -> by (apply len_zero; lia).
         cbn [length]. destruct (advance_0 (Socket.incoming stream)) as [-> ->]. exists stream.
         by rewrite !app_nil_r. }
    destruct (chunk_flows stream bytes end_ fds) as (s1&received&E1&Hr&Hlr&Hi1&Hrec); try done.
    { rewrite Hi. intros [-> _]%app_eq_nil. rewrite len_nil in He. lia. }
    { replace (Z.to_nat (end_ - len bytes)) with (length want) by (unfold len in *; lia). done. }
    cbv zeta in *. rewrite (run_ok _ _ _ _ _ E1). cbn [fst snd].
    assert (Hle : (length received <= length want)%nat) by (unfold len in *; lia).
    assert (∃ want', want = received ++ want') as [want' ->].
    { exists (drop (length received) want). rewrite Hrec at 1. rewrite Hi, take_app_le by done.
      by rewrite take_drop. }
    destruct (advance_add (length received) (length want') (Socket.incoming stream) Hf) as [Ha Ht].
    rewrite length_app in Hfds. rewrite Ht, app_assoc in Hfds.
    destruct (IH s1 (bytes ++ received) (fds ++ taken (length received) (Socket.incoming stream)) want')
      as (s2&E2&Hi2).
    + unfold flowing. rewrite Hi1. by apply advance_nonempty.
    + rewrite Hi1, advance_flatten, Hi, <- app_assoc by done. by rewrite drop_app_length.
    + rewrite len_app. rewrite len_app in He. lia.
    + unfold len in *. rewrite length_app in Hn. lia.
    + by rewrite Hi1.
    + exists s2. by rewrite E2, Hi2, Hi1, length_app, <- !app_assoc, Ha, Ht.
Qed.

(** *** Reading one message *)

Lemma validate_received fds : MessageReader.validate_received_unix_fds true fds = Ok tt.
Proof. done. Qed.

Lemma read_frame stream negotiated bytes fds frame rest :
  flowing stream → len bytes <= 16 → bytes ++ input stream = frame ++ rest →
  frame_len (slice frame 0 16) = Ok (len frame) → 16 <= len frame →
  let n := (length frame - length bytes)%nat in
  len (fds ++ taken n (Socket.incoming stream)) <= MAX_UNIX_FDS →
  negotiated = true ∨ fds ++ taken n (Socket.incoming stream) = [] →
  ∃ stream',
    MessageReader.read_message_from negotiated bytes fds stream =
      (stream', decode_message frame (fds ++ taken n (Socket.incoming stream))) ∧
    Socket.incoming stream' = advance n (Socket.incoming stream).
Proof.
  intros Hf Hb Hi Hlen H16 n Hfds Hneg. unfold MessageReader.read_message_from.
  set (head := slice frame 0 16). set (tail := drop 16 frame).
  assert (Hframe : frame = head ++ tail).
  { unfold head, tail, slice. rewrite drop_0. change (Z.to_nat (16 - 0)) with 16%nat.
    by rewrite take_drop. }
  assert (Hhead : len head = 16) by (unfold head; rewrite slice_len; lia).
  assert (∃ want, head = bytes ++ want ∧ input stream = want ++ tail ++ rest) as (want&Hw&Hi').
  { rewrite Hframe, <- app_assoc in Hi. apply app_eq_inv in Hi as [(k&Ek&Hk)|(k&Ek&Hk)].
    - assert (k = []) as ->.
      { apply len_zero. rewrite Ek, len_app, Hhead in Hb. pose proof (len_nonneg k). lia. }
      rewrite app_nil_r in Ek. exists []. rewrite app_nil_r. split; [done|]. simpl in *. by rewrite Hk.
    - by exists k. }
  pose proof (len_nonneg bytes). pose proof (f_equal len Hw) as Hwl. rewrite len_app in Hwl.
  change FIXED_HEADER_LEN with 16.
  assert (Hn : n = (length want + length tail)%nat)
    by (unfold n; rewrite Hframe, Hw, !length_app; lia).
  destruct (advance_add (length want) (length tail) (Socket.incoming stream) Hf) as [Ha Ht].
  rewrite <- Hn in Ha, Ht. rewrite Ht, app_assoc in Hfds, Hneg.
  assert (Hvalid : ∀ k l, fds ++ taken (length want) (Socket.incoming stream) = k ∨
    (fds ++ taken (length want) (Socket.incoming stream)) ++ l = k ∧
    l = taken (length tail) (advance (length want) (Socket.incoming stream)) →
    MessageReader.validate_received_unix_fds negotiated k = Ok tt).
  { intros k l Hk. unfold MessageReader.validate_received_unix_fds. destruct Hneg as [->|Hnil]; [done|].
    assert (k = []) as ->; [|by rewrite andb_false_r].
    destruct Hk as [<-|[<- ->]]; [by apply app_eq_nil in Hnil as [-> _]|done]. }
  destruct (until_flows (Z.to_nat 16) stream bytes 16 fds want (tail ++ rest))
    as (s1&E1&Hi1); [done|done|lia|lia| |].
  { rewrite len_app in Hfds. pose proof (len_nonneg (taken (length tail) (advance (length want) (Socket.incoming stream)))). lia. }
  rewrite (run_ok _ _ _ _ _ E1), <- Hw. cbv iota beta.
  rewrite (run_ok _ _ s1 s1 tt)
    by (unfold MessageReader.lift; rewrite (Hvalid _ []); [done|by left]).
  rewrite Hhead, Z.eqb_refl. cbn [negb]. rewrite run_ret_bind.
  rewrite (run_ok _ _ s1 s1 (len frame))
    by (unfold MessageReader.lift; by rewrite (Hlen : frame_len head = _)).
  assert (Htail : len frame - 16 = len tail) by (rewrite Hframe at 1; rewrite len_app; lia).
  destruct (until_flows (Z.to_nat (len frame - 16)) s1 head (len frame)
    (fds ++ taken (length want) (Socket.incoming stream)) tail rest) as (s2&E2&Hi2).
  - unfold flowing. rewrite Hi1. by apply advance_nonempty.
  - by rewrite Hi1, advance_flatten, Hi', drop_app_length by done.
  - lia.
  - lia.
  - by rewrite Hi1.
  - rewrite (run_ok _ _ _ _ _ E2), <- Hframe. cbv iota beta. rewrite Hi1.
    rewrite (run_ok _ _ s2 s2 tt)
      by (unfold MessageReader.lift; erewrite Hvalid; [done|by right]).
    exists s2. rewrite Ht, app_assoc. split; [done|]. by rewrite Hi2, Hi1, Ha.
Qed.

(** *** On any bytes *)

Lemma recv_returns cap stream :
  returns (Socket.recv cap stream).2 (λ '(bytes, _), (length bytes <= cap)%nat).
Proof.
  destruct stream as [[|[b f|] rest] out w]; unfold Socket.recv; simpl; [lia| |done].
  rewrite length_take. lia.
Qed.

Lemma until_done fuel bytes end_ fds stream :
  end_ <= len bytes →
  MessageReader.read_until fuel bytes end_ fds stream = (stream, Ok (bytes, fds)).
Proof.
  intros He. destruct fuel; cbn [MessageReader.read_until]; by rewrite (proj2 (Z.ltb_ge _ _)) by lia.
Qed.

Lemma until_returns fuel bytes end_ fds stream :
  end_ - len bytes <= Z.of_nat fuel → len bytes <= end_ →
  returns (MessageReader.read_until fuel bytes end_ fds stream).2 (λ r, len r.1 = end_).
Proof.
  revert bytes fds stream. induction fuel as [|fuel IH]; intros bytes fds stream Hf He;
    cbn [MessageReader.read_until]; (destruct (Z.ltb_spec (len bytes) end_); [|simpl; lia]); [lia|].
  unfold mbind, run_bind, MessageReader.read_chunk.
  pose proof (recv_returns (Z.to_nat (end_ - len bytes)) stream) as Hr.
  destruct (Socket.recv _ stream) as [s1 [[b f]|e|]]; simpl in Hr; [|done..].
  unfold Socket.append_fds. destruct (_ <? _); [done|]. case_bool_decide as Hb; [done|].
  assert (0 < len b) by (destruct b; [done|unfold len; simpl; lia]).
  apply IH; cbn [fst]; rewrite len_app; unfold len in *; lia.
Qed.

Lemma run_returns {S A B} (m : Run S BusError.t A) (k : A → Run S BusError.t B) s P Q :
  returns (m s).2 P → (∀ a s', P a → returns (k a s').2 Q) → returns ((m ≫= k) s).2 Q.
Proof.
  unfold mbind, run_bind. destruct (m s) as [s' [a|e|]]; simpl; [|done..]. intros HP Hk. by apply Hk.
Qed.

Lemma lift_returns {A} (r : Result A) stream P :
  returns r P → returns (MessageReader.lift r stream).2 P.
Proof. done. Qed.

Lemma read_from_returns negotiated bytes fds stream :
  len bytes <= 16 →
  returns (MessageReader.read_message_from negotiated bytes fds stream).2
    (λ m, accepted (Message.frame m) (Message.unix_fds m) m).
Proof.
  intros Hb. unfold MessageReader.read_message_from. change FIXED_HEADER_LEN with 16.
  pose proof (len_nonneg bytes).
  eapply run_returns; [apply (until_returns _ bytes 16); lia|]. intros [head fds1] s1 Hh.
  cbn [fst] in Hh. eapply run_returns.
  { apply (lift_returns _ _ (λ _, True)). unfold MessageReader.validate_received_unix_fds. by case_match. }
  intros _ s2 _. rewrite Hh, Z.eqb_refl. cbn [negb]. rewrite run_ret_bind.
  eapply run_returns; [apply lift_returns, (frame_len_returns head Hh)|].
  intros total s3 (b0&endian&b1&kind&a&b&_&_&_&_&_&_&Ha&Hb0&->&_&Hal&_).
  eapply run_returns; [apply (until_returns _ head); lia|]. intros [frame fds2] s4 _.
  eapply run_returns.
  { apply (lift_returns _ _ (λ _, True)). unfold MessageReader.validate_received_unix_fds. by case_match. }
  intros _ s5 _. apply lift_returns. eapply returns_impl; [apply decode_returns|].
  intros m Hm. by rewrite (accepted_frame _ _ _ Hm), (accepted_fds _ _ _ Hm).
Qed.

(** *** A sequence of messages *)

Fixpoint read_n (n : nat) : Run MessageReader.t BusError.t (list Message.t) :=
  match n with
  | O => mret []
  | S n => m ← MessageReader.read; ms ← read_n n; mret (m :: ms)
  end.

(** An outgoing message with its body, and the segments its bytes and
    descriptors travel in. *)
Record Transmission := {
  outgoing : Outgoing.t;
  body : Body;
  segments : list (Socket.Segment Fd);
}.

Definition segment_fds (segs : list (Socket.Segment Fd)) : list Fd :=
  segs ≫= λ seg, match seg with Socket.Bytes _ fds => fds | Socket.Failed => [] end.

Definition transmitted (t : Transmission) : Prop :=
  typed (outgoing t) ∧ lawful (body t) ∧ allowed (outgoing t) ∧ nonempty (segments t) ∧
  ∃ enc, encode_outgoing (outgoing t) (body t) = Ok enc ∧
    Socket.flatten (segments t) = EncodedMessage.bytes enc ∧
    segment_fds (segments t) = EncodedMessage.unix_fds enc.

Definition received (t : Transmission) (m : Message.t) : Prop :=
  sent_as (outgoing t) (body t) (Socket.flatten (segments t)) (segment_fds (segments t)) m.

Lemma transmitted_nonempty sent : Forall transmitted sent → nonempty (sent ≫= segments).
Proof.
  induction 1 as [|t sent Ht Hs IH]; csimpl; [by constructor|].
  destruct Ht as (_&_&_&Hne&_). by apply Forall_app.
Qed.

Lemma read_transmitted t stream rest :
  transmitted t → nonempty rest → Socket.incoming stream = segments t ++ rest →
  ∃ stream' m,
    MessageReader.read (MessageReader.mk stream [] [] true false) =
      (MessageReader.mk stream' [] [] true false, Ok m) ∧
    Socket.incoming stream' = rest ∧ received t m.
Proof.
  intros (Ht&Hlaw&Hallow&Hseg&enc&Henc&Hb&Hfd) Hrest Hi. unfold received.
  destruct (encoded_framed _ _ _ Ht Hlaw Henc) as (Hlen&[H16 _]&Hfds).
  destruct (allowed_decodes _ _ _ Ht Hlaw Henc Hallow) as (m&Hdec&Hsent).
  rewrite <- Hb, <- Hfd in *.
  destruct (advance_app (segments t) rest Hseg) as [Ha Htk].
  destruct (read_frame stream true [] [] (Socket.flatten (segments t)) (Socket.flatten rest))
    as (stream'&E&Hi').
  - unfold flowing. rewrite Hi. by apply Forall_app.
  - unfold len. simpl. lia.
  - rewrite Hi. unfold Socket.flatten. by rewrite bind_app.
  - done.
  - done.
  - cbn [length app]. rewrite Nat.sub_0_r, Hi, Htk. exact Hfds.
  - by left.
  - cbn [length app] in E, Hi'. rewrite Nat.sub_0_r, Hi in E, Hi'. rewrite Htk in E.
    fold (segment_fds (segments t)) in E. rewrite Hdec in E.
    exists stream', m. split; [|by rewrite Hi', Ha].
    unfold MessageReader.read. simpl. by rewrite E.
Qed.

(** *** A stream that is cut anywhere *)

(** A message that the rules allow, and what it is encoded to. *)
Record Letter := {
  letter_outgoing : Outgoing.t;
  letter_body : Body;
  letter_encoded : EncodedMessage.t;
}.

Definition written (l : Letter) : Prop :=
  typed (letter_outgoing l) ∧ lawful (letter_body l) ∧ allowed (letter_outgoing l) ∧
  encode_outgoing (letter_outgoing l) (letter_body l) = Ok (letter_encoded l).

Definition letter_bytes (l : Letter) : list byte := EncodedMessage.bytes (letter_encoded l).

Definition letter_fds (l : Letter) : list Fd := EncodedMessage.unix_fds (letter_encoded l).

(** The descriptors of a message arrive with bytes of that message. *)
Fixpoint fds_travel (sent : list Letter) (segs : list (Socket.Segment Fd)) : Prop :=
  match sent with
  | [] => True
  | l :: sent =>
      taken (length (letter_bytes l)) segs = letter_fds l ∧
      fds_travel sent (advance (length (letter_bytes l)) segs)
  end.

Definition read_as (l : Letter) (m : Message.t) : Prop :=
  sent_as (letter_outgoing l) (letter_body l) (letter_bytes l) (letter_fds l) m.

Lemma read_letter l stream rest :
  written l → nonempty (Socket.incoming stream) →
  Socket.flatten (Socket.incoming stream) = letter_bytes l ++ rest →
  taken (length (letter_bytes l)) (Socket.incoming stream) = letter_fds l →
  ∃ stream' m,
    MessageReader.read (MessageReader.mk stream [] [] true false) =
      (MessageReader.mk stream' [] [] true false, Ok m) ∧
    Socket.incoming stream' = advance (length (letter_bytes l)) (Socket.incoming stream) ∧ read_as l m.
Proof.
  intros (Ht&Hlaw&Hallow&Henc) Hseg Hi Htk. unfold read_as, letter_bytes, letter_fds in *.
  destruct (encoded_framed _ _ _ Ht Hlaw Henc) as (Hlen&[H16 _]&Hfds).
  destruct (allowed_decodes _ _ _ Ht Hlaw Henc Hallow) as (m&Hdec&Hsent).
  destruct (read_frame stream true [] [] (EncodedMessage.bytes (letter_encoded l)) rest)
    as (stream'&E&Hi'); [done|unfold len; simpl; lia|done|done|done| |by left|].
  - cbn [length app]. rewrite Nat.sub_0_r, Htk. exact Hfds.
  - cbn [length app] in E, Hi'. rewrite Nat.sub_0_r in E, Hi'. rewrite Htk, Hdec in E.
    exists stream', m. split; [|done]. unfold MessageReader.read. simpl. by rewrite E.
Qed.

End read.

(** C28: what one side sends, the other receives. Messages that the rules allow
    are encoded and sent one behind the other, and anything follows. However the
    kernel cuts these bytes into pieces - inside a message, across the end of one
    and the beginning of the next, or across the end of the last - and as long as
    the descriptors of a message come with bytes of that message, they are read
    back one by one in the same order, each with its own header, body bytes and
    descriptors; every byte behind them and every descriptor that did not belong
    to them is still on the socket. *)
Theorem messages_arrive `{Zvariant} (sent : list Letter) stream rest :
  Forall written sent → nonempty (Socket.incoming stream) →
  Socket.flatten (Socket.incoming stream) = (sent ≫= letter_bytes) ++ rest →
  fds_travel sent (Socket.incoming stream) →
  ∃ stream' ms,
    read_n (length sent) (MessageReader.new stream true [] []) =
      (MessageReader.new stream' true [] [], Ok ms) ∧
    Forall2 read_as sent ms ∧
    Socket.flatten (Socket.incoming stream') = rest ∧
    segment_fds (Socket.incoming stream) = (sent ≫= letter_fds) ++ segment_fds (Socket.incoming stream').
Proof.
  intros Hs. revert stream. induction Hs as [|l sent Hl Hs IH]; intros stream Hne Hi Hfd.
  { by exists stream, []. }
  csimpl in *. destruct Hfd as [Hfd Hmore]. rewrite <- app_assoc in Hi. unfold MessageReader.new in *.
  destruct (read_letter l stream _ Hl Hne Hi Hfd) as (s1&m&E&Hi1&Hm).
  destruct (IH s1) as (s2&ms&E2&Hms&Hi2&Hf2).
  - rewrite Hi1. by apply advance_nonempty.
  - rewrite Hi1, advance_flatten, Hi by done. by rewrite drop_app_length.
  - by rewrite Hi1.
  - exists s2, (m :: ms). split; [by rewrite (run_ok _ _ _ _ _ E), (run_ok _ _ _ _ _ E2)|].
    split; [by constructor|]. split; [done|].
    pose proof (taken_fds (length (letter_bytes l)) (Socket.incoming stream) Hne) as Ht.
    rewrite Hfd, <- Hi1 in Ht. unfold segment_fds in *. by rewrite <- Ht, Hf2, app_assoc.
Qed.

(** the reader returns on every stream, as long as the handshake left at
    most one fixed header behind, and from then on holds nothing back, so it
    never panics again; what it accepts obeys the rules. With more bytes than a
    fixed header left over by the handshake, it panics on every stream. *)
Theorem reader_total `{Zvariant} (self : MessageReader.t) :
  MessageReader.failed self = false →
  let '(self', r) := MessageReader.read self in
  (len (MessageReader.buffered self) <= 16 →
    returns r (λ m, accepted (Message.frame m) (Message.unix_fds m) m) ∧
    len (MessageReader.buffered self') <= 16) ∧
  (16 < len (MessageReader.buffered self) →
    MessageReader.validate_received_unix_fds (MessageReader.unix_fd self)
      (MessageReader.unix_fds self) = Ok tt → r = Panic).
Proof.
  intros Hf. unfold MessageReader.read. rewrite Hf.
  destruct (MessageReader.read_message_from _ _ _ _) as [s r] eqn:E.
  enough ((len (MessageReader.buffered self) <= 16 →
      returns r (λ m, accepted (Message.frame m) (Message.unix_fds m) m)) ∧
    (16 < len (MessageReader.buffered self) →
      MessageReader.validate_received_unix_fds (MessageReader.unix_fd self)
        (MessageReader.unix_fds self) = Ok tt → r = Panic)) as [Hok Hbad].
  { destruct r; split; try (intros Hb; split; [by apply Hok|done]); exact Hbad. }
  split.
  - intros Hb. pose proof (read_from_returns (MessageReader.unix_fd self) _
      (MessageReader.unix_fds self) (MessageReader.stream self) Hb) as Hr.
    by rewrite E in Hr.
  - intros Hb Hv. unfold MessageReader.read_message_from in E.
    assert (Hu : MessageReader.read_until (Z.to_nat FIXED_HEADER_LEN) (MessageReader.buffered self)
      FIXED_HEADER_LEN (MessageReader.unix_fds self) (MessageReader.stream self) =
      (MessageReader.stream self, Ok (MessageReader.buffered self, MessageReader.unix_fds self))).
    { apply until_done. change FIXED_HEADER_LEN with 16. lia. }
    rewrite (run_ok _ _ _ _ _ Hu) in E. cbv iota beta in E.
    rewrite (run_ok _ _ _ (MessageReader.stream self) tt) in E
      by (unfold MessageReader.lift; by rewrite Hv).
    change FIXED_HEADER_LEN with 16 in E. rewrite (proj2 (Z.eqb_neq _ _)) in E by lia.
    by injection E as <- <-.
Qed.

(** ** The theorems on a concrete stream *)

Definition demo_signal_bytes : list byte :=
  match encode_outgoing (H := demo_zvariant) demo_signal demo_body with
  | Ok enc => EncodedMessage.bytes enc
  | _ => []
  end.

(** Cut inside the fixed header and inside the body; the descriptor travels with
    the second part. *)
Definition demo_transmission : Transmission (H := demo_zvariant) := {|
  outgoing := demo_signal;
  body := demo_body;
  segments := [Socket.Bytes (take 5 demo_signal_bytes) []; Socket.Bytes (drop 5 demo_signal_bytes) [5%nat]];
|}.

Lemma demo_transmitted : transmitted demo_transmission.
Proof.
  assert (Ha : allowed (H := demo_zvariant) demo_signal).
  { destruct (encode_outgoing (H := demo_zvariant) demo_signal demo_body) as [enc|e|] eqn:He.
    - pose proof (encoded_decodes demo_signal demo_body enc demo_signal_typed demo_body_lawful He) as Hd.
      pose proof demo_decodes as E. rewrite He in E. cbv zeta in Hd.
      destruct (decode_message _ _); [apply Hd|done..].
    - pose proof demo_decodes as E. by rewrite He in E.
    - pose proof demo_decodes as E. by rewrite He in E. }
  split; [exact demo_signal_typed|]. split; [exact demo_body_lawful|]. split; [exact Ha|].
  split; [repeat constructor; by vm_compute|].
  eexists. split; [vm_compute; reflexivity|]. split; vm_compute; reflexivity.
Qed.

Definition demo_rest : list (Socket.Segment (@Fd demo_zvariant)) := [Socket.Bytes ["000"%byte] [6%nat]].

Definition demo_stream : Socket.t (@Fd demo_zvariant) :=
  Socket.mk (([demo_transmission; demo_transmission] ≫= segments) ++ demo_rest) [] 0.

(** The same message twice and a byte behind it; one piece holds the end of the
    first message and the beginning of the second, another the end of the second
    and the byte. *)
Definition demo_letter (enc : EncodedMessage.t (H := demo_zvariant)) : Letter (H := demo_zvariant) := {|
  letter_outgoing := demo_signal;
  letter_body := demo_body;
  letter_encoded := enc;
|}.

Definition demo_cut_stream : Socket.t (@Fd demo_zvariant) :=
  Socket.mk [Socket.Bytes (take 5 demo_signal_bytes) [5%nat];
    Socket.Bytes (drop 5 demo_signal_bytes ++ take 3 demo_signal_bytes) [];
    Socket.Bytes (drop 3 demo_signal_bytes ++ ["000"%byte]) [5%nat];
    Socket.Bytes ["001"%byte] [6%nat]] [] 0.

Lemma messages_arrive_witness :
  ∃ enc stream ms,
    encode_outgoing (H := demo_zvariant) demo_signal demo_body = Ok enc ∧
    read_n (H := demo_zvariant) 2 (MessageReader.new demo_cut_stream true [] []) =
      (MessageReader.new stream true [] [], Ok ms) ∧
    Forall2 read_as [demo_letter enc; demo_letter enc] ms ∧
    Socket.flatten (Socket.incoming stream) = ["000"; "001"]%byte.
Proof.
  destruct demo_transmitted as (Ht&Hlaw&Ha&_&enc&Henc&_).
  change (encode_outgoing (H := demo_zvariant) demo_signal demo_body = Ok enc) in Henc.
  assert (Hb : EncodedMessage.bytes enc = demo_signal_bytes) by (unfold demo_signal_bytes; by rewrite Henc).
  assert (Hf : EncodedMessage.unix_fds enc = [5%nat]).
  { assert (E : match encode_outgoing (H := demo_zvariant) demo_signal demo_body with
      | Ok enc => EncodedMessage.unix_fds enc | _ => [] end = [5%nat]) by (vm_compute; reflexivity).
    by rewrite Henc in E. }
  assert (Hw : written (demo_letter enc)) by (by split_and!).
  destruct (messages_arrive (H := demo_zvariant) [demo_letter enc; demo_letter enc] demo_cut_stream
    ["000"; "001"]%byte) as (stream&ms&E&Hms&Hrest&_).
  - apply Forall_cons. split; [exact Hw|]. by apply Forall_singleton.
  - unfold nonempty. cbn [Socket.incoming demo_cut_stream].
    repeat (apply Forall_cons; split; [by vm_compute|]). apply Forall_nil_2.
  - change ([demo_letter enc; demo_letter enc] ≫= letter_bytes)
      with (EncodedMessage.bytes enc ++ EncodedMessage.bytes enc ++ []).
    rewrite Hb. vm_compute. reflexivity.
  - cbn [fds_travel]. change (letter_bytes (demo_letter enc)) with (EncodedMessage.bytes enc).
    change (letter_fds (demo_letter enc)) with (EncodedMessage.unix_fds enc).
    rewrite Hb, Hf. split; [|split; [|exact I]]; vm_compute; reflexivity.
  - exists enc, stream, ms. split_and!; assumption.
Defined.

Lemma reader_total_witness :
  (MessageReader.read (H := demo_zvariant)
    (MessageReader.new demo_stream true (repeat "l"%byte 17) [])).2 = Panic.
Proof.
  pose proof (reader_total (H := demo_zvariant)
    (MessageReader.new demo_stream true (repeat "l"%byte 17) []) eq_refl) as Hr.
  destruct (MessageReader.read _) as [self r]. apply Hr; [reflexivity|reflexivity].
Defined.
