(* ===== verification/Routing.v ===== *)
(** * The connection and its routing state

    [tensor-dbus/src/connection.rs], [connection/writer.rs] and [pending.rs]:
    serials, calls and replies, the queue of messages that arrived while another
    one was waited for, abandoned replies, and the writer that finishes a message
    whose caller went away. *)

From Stdlib Require Import Strings.String Strings.Byte.
From S2P Require Import Prelude Bytes Names Wire WireSpec WireSafe Auth Reader.

(** ** The sending half of the socket *)
Module Sink.

Section sink.

Context {Fd : Type}.

(** [sent] is what the kernel took; an answer is the number of bytes that one
    call takes and whether it succeeds. *)
Record t := mk { sent : list (Socket.Segment Fd); answers : list (Z * bool) }.

(** Descriptors travel with the first byte of their segment. *)
Definition emit (bytes : list byte) (fds : list Fd) (self : t) (answers : list (Z * bool)) : t :=
  mk (match bytes with [] => sent self | _ => sent self ++ [Socket.Bytes bytes fds] end) answers.

(** [write_all] writes on until everything is taken, unless a call fails. *)
Definition write_all (bytes : list byte) : Run t BusError.t unit := λ self,
  match answers self with
  | (_, true) :: answers => (emit bytes [] self answers, Ok tt)
  | (n, false) :: answers => (emit (take (Z.to_nat n) bytes) [] self answers, Err BusError.Io)
  | [] => (self, Err BusError.Io)
  end.

Definition write_with_ancillary (bytes : list byte) (fds : list Fd) : Run t BusError.t Z :=
  λ self,
  match answers self with
  | (n, true) :: answers =>
      let written := take (Z.to_nat n) bytes in (emit written fds self answers, Ok (len written))
  | (_, false) :: answers => (mk (sent self) answers, Err BusError.Io)
  | [] => (self, Err BusError.Io)
  end.

End sink.

Arguments t : clear implicits.

End Sink.

(** ** [MessageWriter] *)
Module MessageWriter.

Section writer.

Context `{Zvariant}.

(** [operation] is a message whose write has begun. *)
Record t := mk {
  stream : Sink.t Fd;
  operation : option EncodedMessage.t;
  unix_fd : bool;
  failed : bool;
}.

Definition new (stream : Sink.t Fd) (unix_fd : bool) : t := mk stream None unix_fd false.

Definition write_with_fds (bytes : list byte) (unix_fds : list Fd) : Run (Sink.t Fd) BusError.t unit :=
  (if MAX_UNIX_FDS <? len unix_fds then throw (BusError.UnixFdLimit (len unix_fds) MAX_UNIX_FDS)
   else mret tt);;
  let total := len bytes in
  written ← Sink.write_with_ancillary bytes unix_fds;
  if written =? 0 then throw BusError.Io
  else if written <? total then Sink.write_all (drop (Z.to_nat written) bytes)
  else mret tt.

Definition write_message (encoded : EncodedMessage.t) : Run (Sink.t Fd) BusError.t unit :=
  let '(EncodedMessage.mk bytes unix_fds) := encoded in
  match unix_fds with
  | [] => Sink.write_all bytes
  | _ => write_with_fds bytes unix_fds
  end.

Definition finish_active : Run t BusError.t unit := λ self,
  match operation self with
  | None => (self, Ok tt)
  | Some operation =>
      let '(stream, result) := write_message operation (stream self) in
      let failed := match result with Err _ => true | _ => failed self end in
      (mk stream None (unix_fd self) failed, result)
  end.

Definition flush : Run t BusError.t unit := λ self,
  if failed self then (self, Err BusError.ConnectionUnusable) else finish_active self.

(** [write] up to the await of the new operation. *)
Definition begin_write (encoded : EncodedMessage.t) : Run t BusError.t unit :=
  self ← get_state;
  (if failed self then throw BusError.ConnectionUnusable else mret tt);;
  flush;;
  (if negb (unix_fd self) && negb (bool_decide (EncodedMessage.unix_fds encoded = []))
   then throw BusError.UnixFdUnsupported else mret tt);;
  modify (λ self, mk (stream self) (Some encoded) (unix_fd self) (failed self)).

Definition write (encoded : EncodedMessage.t) : Run t BusError.t unit :=
  begin_write encoded;; finish_active.

(** The retained write is finished before the socket is closed. *)
Definition close : Run t BusError.t unit := finish_active.

End writer.

End MessageWriter.

(** ** [PendingReply]: the serial of a call *)
Module PendingReply.

Section pending_reply.

Context `{Zvariant}.

Definition t : Type := Z.

Definition serial (self : t) : Z := self.

Definition matches (self : t) (message : Message.t) : bool :=
  match Message.kind message with
  | MessageKind.MethodReturn | MessageKind.Error => bool_decide (Message.reply_serial message = Some self)
  | _ => false
  end.

Definition decode {R} (body : Message.t → Result R) (self : t) (message : Message.t) : Result R :=
  if negb (matches self message) then invalid
  else match Message.kind message with
       | MessageKind.MethodReturn => body message
       | MessageKind.Error => e ← Message.method_error message; Err e
       | _ => invalid
       end.

End pending_reply.

End PendingReply.

(** ** [AbandonedReplies] *)
Module AbandonedReplies.

Definition MAX_ABANDONED_REPLIES : Z := 256.

Definition t : Type := gset Z.

(** A serial that is registered twice fails only in debug builds. *)
Definition register (self : t) (serial : Z) : Result t :=
  if Z.of_nat (size self) =? MAX_ABANDONED_REPLIES
  then Err (BusError.AbandonedReplyQueueFull MAX_ABANDONED_REPLIES)
  else if decide (serial ∈ self) then Panic
  else Ok ({[ serial ]} ∪ self).

Definition take (self : t) (serial : Z) : t * bool :=
  if decide (serial ∈ self) then (self ∖ {[ serial ]}, true) else (self, false).

End AbandonedReplies.

Module ConnectionMode.

Inductive t := Bus | Peer.

#[global] Instance t_eq_dec : EqDecision t.
Proof. solve_decision. Defined.

End ConnectionMode.

Module PeerCredentials.

Record t := mk { process_id : Z; user_id : Z; group_id : Z }.

End PeerCredentials.

(** ** [Connection] *)
Module Connection.

Definition MAX_PENDING_MESSAGES : Z := 256.

Definition MAX_PENDING_BYTES : Z := 32 * 1024 * 1024.

Section connection.

Context `{Zvariant}.

Record t := mk {
  reader : MessageReader.t;
  writer : MessageWriter.t;
  next_serial : Z;
  pending : list Message.t;
  pending_bytes : Z;
  abandoned_replies : AbandonedReplies.t;
  routing_failed : bool;
  mode : ConnectionMode.t;
  peer_credentials : option PeerCredentials.t;
  server_guid : Guid.t;
  unique_name : option (list byte);
  unix_fd : bool;
}.

(** A method that returns a [Result]. *)
#[local] Notation Method := (Run t BusError.t).

Definition from_authenticated (stream : Socket.t Fd) (sink : Sink.t Fd) (mode : ConnectionMode.t)
    (peer_credentials : option PeerCredentials.t) (authenticated : Authenticated.t Fd) : t :=
  let '(Authenticated.mk unix_fd server_guid buffered unix_fds) := authenticated in
  mk (MessageReader.new stream unix_fd buffered unix_fds) (MessageWriter.new sink unix_fd)
    1 [] 0 ∅ false mode peer_credentials server_guid None unix_fd.

(** The fields that sending, receiving and routing change. *)
Definition set_reader (self : t) v : t :=
  mk v (writer self) (next_serial self) (pending self) (pending_bytes self) (abandoned_replies self)
    (routing_failed self) (mode self) (peer_credentials self) (server_guid self) (unique_name self)
    (unix_fd self).

Definition set_writer (self : t) v : t :=
  mk (reader self) v (next_serial self) (pending self) (pending_bytes self) (abandoned_replies self)
    (routing_failed self) (mode self) (peer_credentials self) (server_guid self) (unique_name self)
    (unix_fd self).

Definition set_next_serial (self : t) v : t :=
  mk (reader self) (writer self) v (pending self) (pending_bytes self) (abandoned_replies self)
    (routing_failed self) (mode self) (peer_credentials self) (server_guid self) (unique_name self)
    (unix_fd self).

Definition set_pending (self : t) v bytes : t :=
  mk (reader self) (writer self) (next_serial self) v bytes (abandoned_replies self)
    (routing_failed self) (mode self) (peer_credentials self) (server_guid self) (unique_name self)
    (unix_fd self).

Definition set_abandoned (self : t) v : t :=
  mk (reader self) (writer self) (next_serial self) (pending self) (pending_bytes self) v
    (routing_failed self) (mode self) (peer_credentials self) (server_guid self) (unique_name self)
    (unix_fd self).

Definition fail_routing (self : t) : t :=
  mk (reader self) (writer self) (next_serial self) (pending self) (pending_bytes self)
    (abandoned_replies self) true (mode self) (peer_credentials self) (server_guid self)
    (unique_name self) (unix_fd self).

Definition set_unique_name (self : t) v : t :=
  mk (reader self) (writer self) (next_serial self) (pending self) (pending_bytes self)
    (abandoned_replies self) (routing_failed self) (mode self) (peer_credentials self)
    (server_guid self) v (unix_fd self).

Definition on_reader {A} (m : Run MessageReader.t BusError.t A) : Method A := λ self,
  let '(reader, r) := m (reader self) in (set_reader self reader, r).

Definition on_writer {A} (m : Run MessageWriter.t BusError.t A) : Method A := λ self,
  let '(writer, r) := m (writer self) in (set_writer self writer, r).

(** A [Result] inside a method. *)
Definition lift {A} (r : Result A) : Method A := λ self, (self, r).

Definition is_usable (self : t) : bool :=
  negb (routing_failed self) && negb (MessageReader.failed (reader self))
    && negb (MessageWriter.failed (writer self)).

Definition ensure_usable : Method unit :=
  self ← get_state; lift (ensure (is_usable self) BusError.ConnectionUnusable).

Definition ensure_bus : Method unit :=
  self ← get_state;
  lift (ensure (bool_decide (mode self = ConnectionMode.Bus)) BusError.BusOperationOnPeer).

Definition flush : Method unit := ensure_usable;; on_writer MessageWriter.flush.

Definition close : Method unit := on_writer MessageWriter.close.

(** *** The queue *)

Definition queue_pending (message : Message.t) : Method unit := λ self,
  if Z.of_nat (length (pending self)) =? MAX_PENDING_MESSAGES
  then (fail_routing self, Err (BusError.PendingQueueFull MAX_PENDING_MESSAGES))
  else
    match checked_add (pending_bytes self) (Message.wire_len message) with
    | None => (fail_routing self, Err (BusError.PendingBytesFull MAX_PENDING_BYTES))
    | Some bytes =>
        if MAX_PENDING_BYTES <? bytes
        then (fail_routing self, Err (BusError.PendingBytesFull MAX_PENDING_BYTES))
        else (set_pending self (pending self ++ [message]) bytes, Ok tt)
    end.

(** [self.pending_bytes -= message.wire_len()] with the rest of the queue. *)
Definition dequeue (message : Message.t) (rest : list Message.t) : Method Message.t := λ self,
  if pending_bytes self <? Message.wire_len message then (self, Panic)
  else (set_pending self rest (pending_bytes self - Message.wire_len message), Ok message).

Definition pop_pending : Method (option Message.t) := λ self,
  match pending self with
  | [] => (self, Ok None)
  | message :: rest => (m ← dequeue message rest; mret (Some m)) self
  end.

Definition remove_pending (index : nat) : Method Message.t := λ self,
  match pending self !! index with
  | Some message => dequeue message (delete index (pending self)) self
  | None => (self, Panic)
  end.

Definition discard_if_abandoned_reply (message : Message.t) : Method bool := λ self,
  match Message.reply_serial message with
  | Some serial =>
      let '(abandoned, taken) := AbandonedReplies.take (abandoned_replies self) serial in
      (set_abandoned self abandoned, Ok taken)
  | None => (self, Ok false)
  end.

(** [while index < self.pending.len()]; [Panic] when the fuel runs out. *)
Fixpoint discard_loop (fuel index : nat) : Method unit := λ self,
  match pending self !! index with
  | None => (self, Ok tt)
  | Some message =>
      match fuel with
      | O => (self, Panic)
      | S fuel =>
          (taken ← discard_if_abandoned_reply message;
           if (taken : bool) then remove_pending index;; discard_loop fuel index
           else discard_loop fuel (S index)) self
      end
  end.

Definition discard_abandoned_pending : Method unit := λ self,
  if decide (abandoned_replies self = ∅) then (self, Ok tt)
  else discard_loop (length (pending self)) 0 self.

(** [self.pending.iter().position(predicate)]. *)
Definition position (predicate : Message.t → bool) (messages : list Message.t) : option nat :=
  fst <$> list_find (λ m, predicate m = true) messages.

Definition abandon_reply (reply : PendingReply.t) : Method unit :=
  ensure_usable;;
  self ← get_state;
  match position (PendingReply.matches reply) (pending self) with
  | Some index => remove_pending index;; mret tt
  | None =>
      match AbandonedReplies.register (abandoned_replies self) (PendingReply.serial reply) with
      | Ok abandoned => modify (λ self, set_abandoned self abandoned)
      | Err e => modify fail_routing;; throw e
      | Panic => panic
      end
  end.

(** *** Receiving *)

Definition read_message : Method Message.t := ensure_usable;; on_reader MessageReader.read.

(** Every round but the last removes a queued message or reads one of at least
    sixteen bytes. *)
Definition rounds (self : t) : nat :=
  S (length (pending self) + length (MessageReader.buffered (reader self))
     + length (Socket.flatten (Socket.incoming (MessageReader.stream (reader self))))).

Fixpoint receive_loop (fuel : nat) : Method Message.t :=
  match fuel with
  | O => panic
  | S fuel =>
      next ← pop_pending;
      message ← match next with Some message => mret message | None => read_message end;
      discarded ← discard_if_abandoned_reply message;
      if (discarded : bool) then receive_loop fuel else mret message
  end.

Definition receive : Method Message.t :=
  ensure_usable;; self ← get_state; receive_loop (rounds self).

Fixpoint next_loop (fuel : nat) (predicate : Message.t → bool) : Method Message.t :=
  match fuel with
  | O => panic
  | S fuel =>
      discard_abandoned_pending;;
      self ← get_state;
      match position predicate (pending self) with
      | Some index => remove_pending index
      | None =>
          message ← read_message;
          discarded ← discard_if_abandoned_reply message;
          if (discarded : bool) then next_loop fuel predicate
          else if predicate message then mret message
          else queue_pending message;; next_loop fuel predicate
      end
  end.

Definition next_matching (predicate : Message.t → bool) : Method Message.t :=
  ensure_usable;; self ← get_state; next_loop (rounds self) predicate.

Definition wait_message (reply : PendingReply.t) : Method Message.t :=
  next_matching (PendingReply.matches reply).

Definition wait {R} (body : Message.t → Result R) (reply : PendingReply.t) : Method R :=
  message ← wait_message reply; lift (PendingReply.decode body reply message).

(** *** Sending *)

Definition allocate_serial : Method Z := λ self,
  let serial := next_serial self in
  if serial =? 0 then (self, Err BusError.SerialExhausted)
  else (set_next_serial self (if serial =? U32.MAX then 0 else serial + 1), Ok serial).

Definition validate_path (path kind : list byte) : Result unit :=
  ensure (object_path_try_from path) (BusError.InvalidName kind path).

Definition validate_signal (path interface member : list byte) : Result unit :=
  validate_path path (text "object path");;
  validate_interface_name interface (text "interface name");;
  validate_member_name member (text "member name").

Definition validate_target (destination : option (list byte)) (path : list byte)
    (interface : option (list byte)) : Result unit :=
  match destination with Some v => validate_bus_name v (text "bus name") | None => mret tt end;;
  validate_path path (text "object path");;
  match interface with Some v => validate_interface_name v (text "interface name") | None => mret tt end.

Definition validate_member (member : list byte) : Result unit :=
  validate_member_name member (text "member name").

Definition validate_incoming_call (call : Message.t) : Method unit :=
  self ← get_state;
  lift (ensure (bool_decide (Message.kind call = MessageKind.MethodCall)) BusError.InvalidMessage);;
  if decide (mode self = ConnectionMode.Bus)
  then sender ← lift (Message.sender_str call);
       lift (ensure (negb (bool_decide (sender = None))) BusError.InvalidMessage)
  else mret tt.

End connection.

(** How far the caller drives the future of a send: to its end, until its write
    has begun, or only until an earlier write is finished. *)
Inductive Await := Finished | DroppedWriting | DroppedFlushing.

#[global] Instance await_eq_dec : EqDecision Await.
Proof. solve_decision. Defined.

Section send.

Context `{Zvariant} (await : Await).

#[local] Notation Method := (Run t BusError.t).

(** The body of an error reply: [&str]. *)
Variable str_body : list byte → Body.

Definition write_message (encoded : EncodedMessage.t) : Method unit :=
  ensure_usable;;
  match await with
  | Finished => on_writer (MessageWriter.write encoded)
  | DroppedWriting => on_writer (MessageWriter.begin_write encoded)
  | DroppedFlushing => mret tt
  end.

Definition send_outgoing (outgoing : Outgoing.t) (body : Body) : Method unit :=
  encoded ← lift (encode_outgoing outgoing body); write_message encoded.

Definition send_call_validated_target (destination : option (list byte)) (path : list byte)
    (interface : option (list byte)) (member : list byte) (flags : MethodCallFlags.t) (body : Body)
    : Method PendingReply.t :=
  lift (validate_member member);;
  serial ← allocate_serial;
  encoded ← lift (encode_method_call
    (MethodCall.mk serial flags destination path interface member) body);
  write_message encoded;;
  mret serial.

Definition send_call_with_flags (destination : option (list byte)) (path : list byte)
    (interface : option (list byte)) (member : list byte) (flags : MethodCallFlags.t) (body : Body)
    : Method PendingReply.t :=
  (if MethodCallFlags.contains flags MethodCallFlags.NO_REPLY_EXPECTED
   then throw BusError.InvalidCallFlags else mret tt);;
  lift (validate_target destination path interface);;
  send_call_validated_target destination path interface member flags body.

Definition send_call (destination : option (list byte)) (path : list byte)
    (interface : option (list byte)) (member : list byte) (body : Body) : Method PendingReply.t :=
  send_call_with_flags destination path interface member MethodCallFlags.default body.

Definition send_no_reply_with_flags (destination : option (list byte)) (path : list byte)
    (interface : option (list byte)) (member : list byte) (flags : MethodCallFlags.t) (body : Body)
    : Method unit :=
  lift (validate_target destination path interface);;
  lift (validate_member member);;
  serial ← allocate_serial;
  let flags := MethodCallFlags.bitor
    (MethodCallFlags.without flags MethodCallFlags.NO_REPLY_EXPECTED)
    MethodCallFlags.NO_REPLY_EXPECTED in
  encoded ← lift (encode_method_call
    (MethodCall.mk serial flags destination path interface member) body);
  write_message encoded.

Definition send_no_reply (destination : option (list byte)) (path : list byte)
    (interface : option (list byte)) (member : list byte) (body : Body) : Method unit :=
  send_no_reply_with_flags destination path interface member MethodCallFlags.default body.

Definition reply (call : Message.t) (body : Body) : Method unit :=
  validate_incoming_call call;;
  if negb (Message.expects_reply call) then mret tt
  else
    serial ← allocate_serial;
    sender ← lift (Message.sender_str call);
    send_outgoing
      (Outgoing.mk MessageKind.MethodReturn 0 serial (Some (Message.serial call)) None None None
         None sender)
      body.

Definition reply_error (call : Message.t) (error_name message : list byte) : Method unit :=
  validate_incoming_call call;;
  lift (validate_error_name error_name (text "error name"));;
  if negb (Message.expects_reply call) then mret tt
  else
    serial ← allocate_serial;
    sender ← lift (Message.sender_str call);
    send_outgoing
      (Outgoing.mk MessageKind.Error 0 serial (Some (Message.serial call)) None None None
         (Some error_name) sender)
      (str_body message).

Definition emit_signal_inner (destination : option (list byte)) (path interface member : list byte)
    (body : Body) : Method unit :=
  lift (validate_signal path interface member);;
  serial ← allocate_serial;
  send_outgoing
    (Outgoing.mk MessageKind.Signal 0 serial None (Some path) (Some interface) (Some member) None
       destination)
    body.

Definition emit_signal (path interface member : list byte) (body : Body) : Method unit :=
  emit_signal_inner None path interface member body.

Definition emit_signal_to (destination path interface member : list byte) (body : Body)
    : Method unit :=
  lift (validate_bus_name destination (text "destination bus name"));;
  emit_signal_inner (Some destination) path interface member body.

End send.

(** ** Calls and connecting *)
Section call.

Context `{Zvariant} {R : Type}.

#[local] Notation Method := (Run t BusError.t).

(** [Message::body::<R>]. *)
Variable decode_body : Message.t → Result R.

Definition call (destination : option (list byte)) (path : list byte)
    (interface : option (list byte)) (member : list byte) (body : Body) : Method R :=
  pending ← send_call Finished destination path interface member body; wait decode_body pending.

Definition call_with_flags (destination : option (list byte)) (path : list byte)
    (interface : option (list byte)) (member : list byte) (flags : MethodCallFlags.t) (body : Body)
    : Method R :=
  pending ← send_call_with_flags Finished destination path interface member flags body;
  wait decode_body pending.

End call.

Section connect.

Context `{Zvariant}.

(** The answer of the kernel for its own user, the empty body, and the decoder
    of a string body. *)
Variable (uid : Z) (unit_body : Body) (string_body : Message.t → Result (list byte)).

Definition connect_peer (stream : Socket.t Fd) (sink : Sink.t Fd) (expected_guid : option Guid.t)
    : Result t :=
  match authenticate_client uid expected_guid (client_start stream) with
  | (handshake, Ok authenticated) =>
      Ok (from_authenticated (Handshake.socket handshake) sink ConnectionMode.Peer None authenticated)
  | (_, Err e) => Err e
  | (_, Panic) => Panic
  end.

Definition accept_peer_with_credentials (stream : Socket.t Fd) (sink : Sink.t Fd)
    (server_guid : Guid.t) (peer_credentials : PeerCredentials.t) : Result t :=
  match authenticate_server server_guid (PeerCredentials.user_id peer_credentials)
          (server_start stream) with
  | (handshake, Ok authenticated) =>
      Ok (from_authenticated (Handshake.socket handshake) sink ConnectionMode.Peer
            (Some peer_credentials) authenticated)
  | (_, Err e) => Err e
  | (_, Panic) => Panic
  end.

Definition connect_bus_endpoint (stream : Socket.t Fd) (sink : Sink.t Fd) (guid : option Guid.t)
    : Result t :=
  match authenticate_client uid guid (client_start stream) with
  | (handshake, Ok authenticated) =>
      let connection :=
        from_authenticated (Handshake.socket handshake) sink ConnectionMode.Bus None authenticated in
      let dbus := text "org.freedesktop.DBus" in
      match (unique_name ← call string_body (Some dbus) (text "/org/freedesktop/DBus") (Some dbus)
         (text "Hello") unit_body;
       lift (validate_unique_name unique_name (text "unique bus name"));;
       modify (λ self, set_unique_name self (Some unique_name))) connection with
      | (connection, Ok _) => Ok connection
      | (_, Err e) => Err e
      | (_, Panic) => Panic
      end
  | (_, Err e) => Err e
  | (_, Panic) => Panic
  end.

End connect.

End Connection.
