(* ===== verification/RoutingInv.v ===== *)
(** * Receiving keeps the routing state in order

    What one read takes from the socket, the messages that a reader will still
    deliver, and the invariant of the
    connection under every operation that routes messages. *)

From Stdlib Require Import Strings.String Strings.Byte.
From S2P Require Import Prelude Bytes Names Wire WireSpec WireSafe Auth Reader ReaderSpec Routing.

(** ** One read *)

Section reading.

Context `{Zvariant}.

Implicit Types r : MessageReader.t.
Implicit Types m : Message.t.

(** A message as the decoder accepts it. *)
Definition sound m : Prop := accepted (Message.frame m) (Message.unix_fds m) m.

(** The bytes a reader has not handed out. *)
Definition unread r : list byte :=
  MessageReader.buffered r ++ Socket.flatten (Socket.incoming (MessageReader.stream r)).

Lemma recv_content cap stream s' b f :
  Socket.recv (Fd := Fd) cap stream = (s', Ok (b, f)) →
  Socket.flatten (Socket.incoming stream) = b ++ Socket.flatten (Socket.incoming s').
Proof.
  destruct stream as [[|[bytes fds|] rest] out w]; unfold Socket.recv, Socket.flatten; csimpl;
    intros [= <- <- <-]; csimpl; [done|].
  rewrite <- (take_drop cap bytes) at 1. rewrite <- app_assoc. f_equal. by destruct (drop cap bytes).
Qed.

Lemma until_content fuel bytes end_ fds stream s' b f :
  MessageReader.read_until fuel bytes end_ fds stream = (s', Ok (b, f)) →
  ∃ more, b = bytes ++ more ∧
    Socket.flatten (Socket.incoming stream) = more ++ Socket.flatten (Socket.incoming s').
Proof.
  revert bytes fds stream. induction fuel as [|fuel IH]; intros bytes fds stream;
    cbn [MessageReader.read_until]; (case_match; [|intros [= <- <- <-]; exists []; by rewrite app_nil_r]);
    [done|].
  unfold mbind, run_bind, MessageReader.read_chunk.
  destruct (Socket.recv _ stream) as [s1 [[b1 f1]|e|]] eqn:Er; [|done..].
  destruct (Socket.append_fds fds f1) as [fds1|e|]; [|done..]. case_bool_decide; [done|].
  cbn [fst snd]. intros (more&->&Hc)%IH. apply recv_content in Er.
  exists (b1 ++ more). by rewrite Er, Hc, !app_assoc.
Qed.

Lemma read_from_content negotiated bytes fds stream s' m :
  MessageReader.read_message_from negotiated bytes fds stream = (s', Ok m) →
  bytes ++ Socket.flatten (Socket.incoming stream) =
    Message.frame m ++ Socket.flatten (Socket.incoming s') ∧ 16 <= len (Message.frame m).
Proof.
  unfold MessageReader.read_message_from, mbind, run_bind.
  destruct (MessageReader.read_until _ bytes _ fds stream) as [s1 [[h f1]|e|]] eqn:E1; [|done..].
  unfold MessageReader.lift. destruct (MessageReader.validate_received_unix_fds _ f1); [|done..].
  destruct (Z.eqb_spec (len h) FIXED_HEADER_LEN) as [Hh|]; [|done]. cbn [negb mret run_ret].
  destruct (frame_len h) as [total|e|]; [|done..].
  destruct (MessageReader.read_until _ h _ f1 s1) as [s2 [[b f2]|e|]] eqn:E2; [|done..].
  destruct (MessageReader.validate_received_unix_fds _ f2); [|done..].
  intros [= -> Hd]. pose proof (decode_returns b f2) as Hr. rewrite Hd in Hr.
  apply until_content in E1 as (m1&->&H1). apply until_content in E2 as (m2&->&H2).
  rewrite (accepted_frame _ _ _ Hr), H1, H2. split; [by rewrite !app_assoc|].
  rewrite len_app. pose proof (len_nonneg m2). unfold FIXED_HEADER_LEN in Hh. lia.
Qed.

(** A usable reader between two messages. *)
Definition ready r : Prop := MessageReader.failed r = false ∧ len (MessageReader.buffered r) <= 16.

Lemma read_runs r :
  ready r →
  runs MessageReader.read r
    (λ m r', sound m ∧ ready r' ∧ unread r = Message.frame m ++ unread r' ∧
       (length (unread r') < length (unread r))%nat)
    (λ _ r', MessageReader.failed r' = true).
Proof.
  intros [Hf Hb]. unfold runs, MessageReader.read. rewrite Hf.
  pose proof (read_from_returns (MessageReader.unix_fd r) _ (MessageReader.unix_fds r)
    (MessageReader.stream r) Hb) as Hr.
  destruct (MessageReader.read_message_from _ _ _ _) as [s' [m|e|]] eqn:E; [|done..].
  apply read_from_content in E as [Hc Hl]. split; [done|]. split; [split; [done|unfold len; simpl; lia]|].
  split; [done|]. unfold unread. rewrite Hc, !length_app. unfold len in Hl. simpl. lia.
Qed.

(** ** The messages that will arrive *)

Fixpoint arrivals_loop (fuel : nat) r : list Message.t :=
  match fuel with
  | O => []
  | S fuel =>
      match MessageReader.read r with
      | (r', Ok m) => m :: arrivals_loop fuel r'
      | _ => []
      end
  end.

Definition arrivals r : list Message.t := arrivals_loop (S (length (unread r))) r.

Lemma arrivals_fuel fuel fuel' r :
  ready r → (length (unread r) < fuel)%nat → (length (unread r) < fuel')%nat →
  arrivals_loop fuel r = arrivals_loop fuel' r.
Proof.
  revert fuel' r. induction fuel as [|fuel IH]; intros [|fuel'] r Hr Hf Hf'; try lia.
  cbn [arrivals_loop]. pose proof (read_runs r Hr) as Hread. unfold runs in Hread.
  destruct (MessageReader.read r) as [r' [m|e|]]; [|done..].
  destruct Hread as (_&Hr'&_&Hlt). f_equal. apply IH; [done|lia..].
Qed.

Lemma arrivals_next r r' m :
  ready r → MessageReader.read r = (r', Ok m) → arrivals r = m :: arrivals r'.
Proof.
  intros Hr E. transitivity (m :: arrivals_loop (length (unread r)) r').
  { unfold arrivals. cbn [arrivals_loop]. by rewrite E. }
  f_equal. pose proof (read_runs r Hr) as Hread. unfold runs in Hread. rewrite E in Hread.
  destruct Hread as (_&Hr'&_&Hlt). apply (arrivals_fuel _ (S _)); [done|lia..].
Qed.

Lemma arrivals_end r r' e : MessageReader.read r = (r', Err e) → arrivals r = [].
Proof. intros E. unfold arrivals. cbn [arrivals_loop]. by rewrite E. Qed.

Lemma arrivals_sound r : ready r → Forall sound (arrivals r).
Proof.
  unfold arrivals. generalize (S (length (unread r))) as fuel. intros fuel. revert r.
  induction fuel as [|fuel IH]; intros r Hr; [constructor|]. cbn [arrivals_loop].
  pose proof (read_runs r Hr) as Hread. unfold runs in Hread.
  destruct (MessageReader.read r) as [r' [m|e|]]; [|by constructor..].
  destruct Hread as (Hm&Hr'&_). constructor; [done|by apply IH].
Qed.

End reading.

(** ** The mailbox

    What the connection is to its callers: the messages that are still to be
    delivered, in the order in which the peer sent them, and the serials whose
    replies nobody waits for. *)

Section mailbox.

Context `{Zvariant}.

Implicit Types m : Message.t.

Definition Mailbox : Type := list Message.t * gset Z.

(** Nobody waits for the message. *)
Definition dead (serials : gset Z) m : Prop :=
  ∃ serial, Message.reply_serial m = Some serial ∧ serial ∈ serials.

#[global] Instance dead_dec serials m : Decision (dead serials m).
Proof.
  destruct (Message.reply_serial m) as [s|] eqn:E.
  - destruct (decide (s ∈ serials)); [left; by exists s|right; intros (s'&E'&?); congruence].
  - right. by intros (s&E'&_); congruence.
Defined.

(** Dead replies leave the mailbox; each serial counts once. *)
Inductive drops : Mailbox → list Message.t → Mailbox → Prop :=
| drops_none box : drops box [] box
| drops_reply l m r serials serial dropped box :
    Message.reply_serial m = Some serial → serial ∈ serials →
    drops (l ++ r, serials ∖ {[ serial ]}) dropped box →
    drops (l ++ m :: r, serials) (m :: dropped) box.

Lemma drops_trans a ds b es c : drops a ds b → drops b es c → drops a (ds ++ es) c.
Proof. induction 1; [done|]. intros Hbc. cbn [app]. econstructor; eauto. Qed.

Lemma drops_serials a ds b : drops a ds b → b.2 ⊆ a.2.
Proof. induction 1; simpl in *; set_solver. Qed.

Lemma drops_live a ds b m : drops a ds b → ¬ dead a.2 m → ¬ dead b.2 m.
Proof. intros Hd%drops_serials Hm (s&E&Hs). apply Hm. exists s. split; [done|set_solver]. Qed.

End mailbox.

(** ** The invariant of the connection *)

Section routing.

Context `{Zvariant}.

Implicit Types c : Connection.t.
Implicit Types m : Message.t.

Import Connection.

Record routed c : Prop := {
  routed_reader : len (MessageReader.buffered (reader c)) <= 16;
  routed_sum : pending_bytes c = zsum (Message.wire_len <$> pending c);
  routed_count : Z.of_nat (length (pending c)) <= MAX_PENDING_MESSAGES;
  routed_limit : pending_bytes c <= MAX_PENDING_BYTES;
  routed_sound : Forall sound (pending c);
  routed_abandoned : Z.of_nat (size (abandoned_replies c)) <= AbandonedReplies.MAX_ABANDONED_REPLIES;
}.

(** Receiving leaves the sending state alone. *)
Definition keeps_sending c c' : Prop :=
  writer c' = writer c ∧ next_serial c' = next_serial c ∧ mode c' = mode c ∧
  unique_name c' = unique_name c.

Definition box c : Mailbox := (pending c ++ arrivals (reader c), abandoned_replies c).

Lemma keeps_refl c : keeps_sending c c.
Proof. done. Qed.

Lemma keeps_trans a b c : keeps_sending a b → keeps_sending b c → keeps_sending a c.
Proof. unfold keeps_sending. intros (->&->&->&->) (->&->&->&->). done. Qed.

Lemma wire_len_nonneg m : 0 <= Message.wire_len m.
Proof. apply len_nonneg. Qed.

Lemma zsum_perm (l k : list Z) : l ≡ₚ k → zsum l = zsum k.
Proof. unfold zsum. induction 1; simpl; lia. Qed.

Lemma wire_sum_nonneg (l : list Message.t) : 0 <= zsum (Message.wire_len <$> l).
Proof.
  apply zsum_nonneg, Forall_fmap, Forall_forall. intros m _. apply wire_len_nonneg.
Qed.

(** A connection without one of its queued messages. *)
Lemma routed_without c m rest :
  routed c → m :: rest ≡ₚ pending c →
  Message.wire_len m <= pending_bytes c ∧
  routed (set_pending c rest (pending_bytes c - Message.wire_len m)).
Proof.
  intros [Hr Hs Hc Hl Hm Ha] Hp.
  pose proof (zsum_perm _ _ (fmap_Permutation Message.wire_len _ _ Hp)) as Hz. cbn [fmap list_fmap zsum foldr] in Hz.
  fold (zsum (Message.wire_len <$> rest)) in Hz. pose proof (wire_sum_nonneg rest).
  pose proof (wire_len_nonneg m). pose proof (Permutation_length Hp) as Hlen. cbn [length] in Hlen.
  rewrite <- Hp in Hm. apply Forall_cons in Hm as [_ Hm].
  split; [lia|]. split; cbn [set_pending reader pending pending_bytes abandoned_replies]; try done; lia.
Qed.

Lemma dequeue_runs c m rest :
  routed c → m :: rest ≡ₚ pending c →
  runs (dequeue m rest) c
    (λ m' c', m' = m ∧ c' = set_pending c rest (pending_bytes c - Message.wire_len m) ∧ routed c')
    (λ _ _, False).
Proof.
  intros Hc Hp. destruct (routed_without c m rest Hc Hp) as [Hle Hr]. unfold runs, dequeue.
  rewrite (proj2 (Z.ltb_ge _ _)) by lia. done.
Qed.

Lemma remove_pending_runs c i m :
  routed c → pending c !! i = Some m →
  runs (remove_pending i) c
    (λ m' c', m' = m ∧ routed c' ∧
       c' = set_pending c (delete i (pending c)) (pending_bytes c - Message.wire_len m))
    (λ _ _, False).
Proof.
  intros Hc Hi. unfold runs, remove_pending. rewrite Hi.
  eapply (runs_mono (dequeue m (delete i (pending c)))); [apply dequeue_runs; [done|]|naive_solver|done].
  symmetry. by apply delete_Permutation.
Qed.

Lemma set_abandoned_routed c a :
  routed c → a ⊆ abandoned_replies c → routed (set_abandoned c a).
Proof.
  intros [Hr Hs Hc Hl Hm Ha] Hsub. split; try done. cbn [set_abandoned abandoned_replies].
  apply subseteq_size in Hsub. lia.
Qed.

(** Taking one abandoned serial. *)
Lemma discard_if_runs c m :
  routed c →
  runs (discard_if_abandoned_reply m) c
    (λ b c', routed c' ∧
       if (b : bool) then ∃ serial, Message.reply_serial m = Some serial ∧
         serial ∈ abandoned_replies c ∧ c' = set_abandoned c (abandoned_replies c ∖ {[ serial ]})
       else c' = c ∧ ¬ dead (abandoned_replies c) m)
    (λ _ _, False).
Proof.
  intros Hc. unfold runs, discard_if_abandoned_reply, AbandonedReplies.take.
  destruct (Message.reply_serial m) as [serial|] eqn:E.
  - destruct (decide (serial ∈ abandoned_replies c)).
    + split; [|by exists serial]. apply set_abandoned_routed; [done|set_solver].
    + assert (Heq : set_abandoned c (abandoned_replies c) = c) by (by destruct c).
      rewrite Heq. split; [done|]. split; [done|]. intros (s&E'&?). congruence.
  - split; [done|]. split; [done|]. intros (s&E'&?). congruence.
Qed.


(** Only the queue and the abandoned serials change. *)
Definition same_rest c c' : Prop :=
  keeps_sending c c' ∧ reader c' = reader c ∧ routing_failed c' = routing_failed c.

Lemma same_trans a b c : same_rest a b → same_rest b c → same_rest a c.
Proof.
  intros (K1&E1&F1) (K2&E2&F2). split; [by eapply keeps_trans|]. split; congruence.
Qed.

Lemma usable_same c c' : same_rest c c' → is_usable c' = is_usable c.
Proof. intros ((Hw&_)&Hr&Hf). unfold is_usable. by rewrite Hw, Hr, Hf. Qed.

Lemma discard_loop_runs fuel i c tail :
  routed c → (length (pending c) <= fuel + i)%nat →
  Forall (λ m, ¬ dead (abandoned_replies c) m) (take i (pending c)) →
  runs (discard_loop fuel i) c
    (λ _ c', routed c' ∧ same_rest c c' ∧
       (∃ dropped, drops (pending c ++ tail, abandoned_replies c) dropped
          (pending c' ++ tail, abandoned_replies c')) ∧
       Forall (λ m, ¬ dead (abandoned_replies c') m) (pending c'))
    (λ _ _, False).
Proof.
  revert i c. induction fuel as [|fuel IH]; intros i c Hc Hf Hlive.
  - unfold runs. cbn [discard_loop]. rewrite lookup_ge_None_2 by lia.
    rewrite take_ge in Hlive by lia. split_and!; [done..| |done]. by exists []; constructor.
  - unfold runs. cbn [discard_loop]. destruct (pending c !! i) as [m|] eqn:Hi.
    2: { apply lookup_ge_None in Hi. rewrite take_ge in Hlive by lia.
         split_and!; [done..| |done]. by exists []; constructor. }
    eapply (runs_step (discard_if_abandoned_reply m)); [by apply discard_if_runs| |done].
    intros [] c1 [Hc1 Hd].
    + destruct Hd as (serial&E&Hs&->). apply lookup_lt_Some in Hi as Hlt.
      eapply (runs_step (remove_pending i)); [by apply remove_pending_runs|..|done].
      intros m' c2 (->&Hc2&->). cbn [set_abandoned set_pending pending] in *.
      assert (Hp : pending c = take i (pending c) ++ m :: drop (S i) (pending c)) by (by rewrite take_drop_middle).
      eapply runs_mono; [apply (IH i); [done|..]|..|done].
      * cbn [pending set_pending]. rewrite delete_take_drop, length_app, length_take, length_drop. lia.
      * cbn [pending set_pending abandoned_replies set_abandoned]. rewrite delete_take_drop.
        rewrite take_app_le by (rewrite length_take; lia). rewrite take_take, Nat.min_id.
        eapply Forall_impl; [exact Hlive|]. intros x Hx (s&Es&Hin). apply Hx. exists s. set_solver.
      * intros _ c3 (Hc3&Hsame&(dropped&Hdrop)&Hall). split; [done|]. split; [done|]. split; [|done].
        exists (m :: dropped). rewrite Hp at 1. rewrite <- app_assoc. cbn [app].
        eapply drops_reply; [done..|]. cbn [pending set_pending abandoned_replies set_abandoned] in Hdrop.
        by rewrite delete_take_drop, <- app_assoc in Hdrop.
    + destruct Hd as [-> Hd]. apply (IH (S i)); [done|lia|].
      rewrite (take_S_r _ _ _ Hi). apply Forall_app. split; [done|by apply Forall_singleton].
Qed.

Lemma discard_pending_runs c tail :
  routed c →
  runs discard_abandoned_pending c
    (λ _ c', routed c' ∧ same_rest c c' ∧
       (∃ dropped, drops (pending c ++ tail, abandoned_replies c) dropped
          (pending c' ++ tail, abandoned_replies c')) ∧
       Forall (λ m, ¬ dead (abandoned_replies c') m) (pending c'))
    (λ _ _, False).
Proof.
  intros Hc. unfold discard_abandoned_pending. unfold runs at 1.
  destruct (decide (abandoned_replies c = ∅)) as [E|].
  - split_and!; [done..| |]; [by exists []; constructor|].
    apply Forall_forall. intros m _ (s&_&Hs). rewrite E in Hs. set_solver.
  - apply (discard_loop_runs _ 0 c tail); [done|lia|constructor].
Qed.

(** *** Reading from the socket *)

Lemma usable_ready c : routed c → is_usable c = true → ready (reader c).
Proof.
  intros Hc Hu. unfold is_usable in Hu. apply andb_prop in Hu as [Hu _]. apply andb_prop in Hu as [_ Hu].
  split; [by destruct (MessageReader.failed _)|apply Hc].
Qed.

Lemma set_reader_routed c r :
  routed c → len (MessageReader.buffered r) <= 16 → routed (set_reader c r).
Proof. by intros [Hr Hs Hc Hl Hm Ha] Hb. Qed.

Lemma arrivals_failed r : MessageReader.failed r = true → arrivals r = [].
Proof. intros Hf. unfold arrivals. cbn [arrivals_loop]. unfold MessageReader.read. by rewrite Hf. Qed.

Lemma read_buffered r : MessageReader.failed r = false → MessageReader.buffered (MessageReader.read r).1 = [].
Proof.
  intros Hf. unfold MessageReader.read. rewrite Hf. by destruct (MessageReader.read_message_from _ _ _ _) as [s' []].
Qed.

Lemma ensure_usable_ok c : is_usable c = true → ensure_usable c = (c, Ok tt).
Proof. intros Hu. unfold ensure_usable. rewrite run_get. unfold lift. by rewrite Hu. Qed.

Lemma ensure_usable_err c :
  is_usable c = false → ensure_usable c = (c, Err BusError.ConnectionUnusable).
Proof. intros Hu. unfold ensure_usable. rewrite run_get. unfold lift. by rewrite Hu. Qed.

Lemma read_message_runs c :
  routed c → is_usable c = true →
  runs read_message c
    (λ m c', routed c' ∧ c' = set_reader c (reader c') ∧ is_usable c' = true ∧ sound m ∧
       arrivals (reader c) = m :: arrivals (reader c') ∧
       (length (unread (reader c')) < length (unread (reader c)))%nat)
    (λ _ c', routed c' ∧ c' = set_reader c (reader c') ∧ is_usable c' = false ∧
       MessageReader.failed (reader c') = true ∧ arrivals (reader c) = []).
Proof.
  intros Hc Hu. pose proof (usable_ready c Hc Hu) as Hr. pose proof (read_runs _ Hr) as Hread.
  unfold runs, read_message in *. rewrite (run_ok _ _ _ _ _ (ensure_usable_ok c Hu)). unfold on_reader.
  pose proof (read_buffered _ (proj1 Hr)) as Hb.
  destruct (MessageReader.read (reader c)) as [r' [m|e|]] eqn:E; cbn [fst] in Hb; [| |done].
  - destruct Hread as (Hm&Hr'&_&Hlt). split; [by apply set_reader_routed; [|apply Hr']|].
    split; [done|]. split_and!; [|done|by apply arrivals_next|done].
    unfold is_usable in *. cbn [set_reader reader routing_failed writer]. rewrite (proj1 Hr').
    apply andb_prop in Hu as [Hu ->]. apply andb_prop in Hu as [-> _]. done.
  - split; [apply set_reader_routed; [done|rewrite Hb; unfold len; simpl; lia]|].
    split; [done|]. split; [|split; [done|by eapply arrivals_end]].
    unfold is_usable. cbn [set_reader reader]. rewrite Hread. by rewrite andb_false_r.
Qed.

End routing.
