(* ===== verification/RoutingSpec.v ===== *)
(** * Messages reach their callers once

    Receiving, waiting for a reply and abandoning one refine the mailbox of
    [RoutingInv.v]: what is delivered is the earliest message that fits and that
    somebody waits for. *)

From Stdlib Require Import Strings.String Strings.Byte.
From S2P Require Import Prelude Bytes Names Wire WireSpec WireSafe Auth Reader ReaderSpec Routing.
From S2P Require Import RoutingInv.

Section routing.

Context `{Zvariant}.

Import Connection.

Implicit Types c : Connection.t.
Implicit Types m : Message.t.
Implicit Types p : Message.t → bool.

(** The earliest message that satisfies [p], once the dead replies that come
    before its delivery are gone. *)
Definition takes (a : Mailbox) p m (b : Mailbox) : Prop :=
  ∃ dropped before after serials,
    drops a dropped (before ++ m :: after, serials) ∧
    Forall (λ m', p m' = false) before ∧ p m = true ∧ ¬ dead serials m ∧
    b = (before ++ after, serials).

(** No message that somebody waits for satisfies [p]. *)
Definition lacks (a : Mailbox) p (b : Mailbox) : Prop :=
  ∃ dropped, drops a dropped b ∧ Forall (λ m, p m = false ∧ ¬ dead b.2 m) b.1.

(** *** Searching *)

Lemma position_some p l i :
  position p l = Some i →
  ∃ m, l !! i = Some m ∧ p m = true ∧ Forall (λ m', p m' = false) (take i l).
Proof.
  unfold position. destruct (list_find _ l) as [[j m]|] eqn:E; [|done]. intros [= ->].
  apply list_find_Some in E as (Hi&Hp&Hb). exists m. split; [done|]. split; [done|].
  apply Forall_lookup. intros k m' Hk. apply lookup_take_Some in Hk as [Hk Hlt].
  apply not_true_is_false. by apply (Hb k).
Qed.

Lemma position_none p l : position p l = None → Forall (λ m, p m = false) l.
Proof.
  unfold position. destruct (list_find _ l) as [[j m]|] eqn:E; [done|]. intros _.
  apply list_find_None in E. eapply Forall_impl; [exact E|]. intros m Hm. by apply not_true_is_false.
Qed.

(** A message that does not satisfy [p] is lost; those before it stay. *)
Definition loses (a : Mailbox) p m (b : Mailbox) : Prop :=
  ∃ dropped before after serials,
    drops a dropped (before ++ m :: after, serials) ∧
    Forall (λ m', p m' = false) before ∧ p m = false ∧ ¬ dead serials m ∧
    b = (before ++ after, serials).

(** What ends a search: the queue is full, or the stream is over. *)
Inductive gives_up c p c' : BusError.t → Prop :=
| full_messages m : loses (box c) p m (box c') →
    Z.of_nat (length (pending c')) = MAX_PENDING_MESSAGES →
    gives_up c p c' (BusError.PendingQueueFull MAX_PENDING_MESSAGES)
| full_bytes m : loses (box c) p m (box c') →
    MAX_PENDING_BYTES < pending_bytes c' + Message.wire_len m →
    gives_up c p c' (BusError.PendingBytesFull MAX_PENDING_BYTES)
| stream_ends e : MessageReader.failed (reader c') = true → lacks (box c) p (box c') →
    gives_up c p c' e.

Lemma queue_runs c m :
  routed c → sound m →
  runs (queue_pending m) c
    (λ _ c', routed c' ∧ c' = set_pending c (pending c ++ [m]) (pending_bytes c'))
    (λ e c', c' = fail_routing c ∧
       (e = BusError.PendingQueueFull MAX_PENDING_MESSAGES ∧
          Z.of_nat (length (pending c)) = MAX_PENDING_MESSAGES ∨
        e = BusError.PendingBytesFull MAX_PENDING_BYTES ∧
          MAX_PENDING_BYTES < pending_bytes c + Message.wire_len m)).
Proof.
  intros [Hr Hs Hc Hl Hm Ha] Hsound. unfold runs, queue_pending.
  destruct (Z.eqb_spec (Z.of_nat (length (pending c))) MAX_PENDING_MESSAGES); [auto|].
  assert (Hw : Message.wire_len m <= MAX_MESSAGE_SIZE) by apply (accepted_limit _ _ _ Hsound).
  unfold checked_add, U64.MAX, MAX_PENDING_BYTES, MAX_PENDING_MESSAGES, MAX_MESSAGE_SIZE in *.
  rewrite (proj2 (Z.leb_le _ _)) by lia.
  destruct (Z.ltb_spec (32 * 1024 * 1024) (pending_bytes c + Message.wire_len m)); [auto|].
  split; [|done]. split; cbn [set_pending reader pending pending_bytes abandoned_replies]; try done.
  - rewrite fmap_app, zsum_app. cbn. lia.
  - rewrite length_app. unfold MAX_PENDING_MESSAGES. cbn [length]. lia.
  - apply Forall_app. split; [done|by apply Forall_singleton].
Qed.

Lemma fail_routing_routed c : routed c → routed (fail_routing c).
Proof. by intros []. Qed.

Lemma fail_routing_unusable c : is_usable (fail_routing c) = false.
Proof. done. Qed.

Lemma takes_drops a ds b p m d : drops a ds b → takes b p m d → takes a p m d.
Proof.
  intros Hd (ds'&l&r&s&Hd'&?). exists (ds ++ ds'), l, r, s. split; [by eapply drops_trans|done].
Qed.

Lemma loses_drops a ds b p m d : drops a ds b → loses b p m d → loses a p m d.
Proof.
  intros Hd (ds'&l&r&s&Hd'&?). exists (ds ++ ds'), l, r, s. split; [by eapply drops_trans|done].
Qed.

Lemma lacks_drops a ds b p d : drops a ds b → lacks b p d → lacks a p d.
Proof. intros Hd (ds'&Hd'&?). exists (ds ++ ds'). split; [by eapply drops_trans|done]. Qed.

(** The outcomes of a search from [c]. *)
Definition found c p m c' : Prop :=
  routed c' ∧ keeps_sending c c' ∧ is_usable c' = true ∧ takes (box c) p m (box c').

Definition not_found c p e c' : Prop :=
  routed c' ∧ keeps_sending c c' ∧ is_usable c' = false ∧ gives_up c p c' e.

Lemma found_from a b p m c ds :
  keeps_sending a b → drops (box a) ds (box b) → found b p m c → found a p m c.
Proof.
  intros Hk Hd (Hc&Hk'&Hu&Ht). split; [done|]. split; [by eapply keeps_trans|]. split; [done|].
  by eapply takes_drops.
Qed.

Lemma not_found_from a b p e c ds :
  keeps_sending a b → drops (box a) ds (box b) → not_found b p e c → not_found a p e c.
Proof.
  intros Hk Hd (Hc&Hk'&Hu&Hg). split; [done|]. split; [by eapply keeps_trans|]. split; [done|].
  destruct Hg; [eapply full_messages|eapply full_bytes|apply stream_ends]; try done.
  - by eapply loses_drops.
  - by eapply loses_drops.
  - by eapply lacks_drops.
Qed.

(** The search goes on from a state whose mailbox has only lost dead replies. *)
Lemma search_from a b p (k : Run Connection.t BusError.t Message.t) ds :
  keeps_sending a b → drops (box a) ds (box b) →
  runs k b (found b p) (not_found b p) → runs k b (found a p) (not_found a p).
Proof.
  intros Hk Hd Hr. eapply runs_mono; [exact Hr|..].
  - intros m c. by eapply found_from.
  - intros e c. by eapply not_found_from.
Qed.


(** A message read while the queue has nothing to offer. *)
Lemma box_read c c' m :
  c' = set_reader c (reader c') → arrivals (reader c) = m :: arrivals (reader c') →
  box c = (pending c ++ m :: arrivals (reader c'), abandoned_replies c').
Proof. intros -> E. unfold box. by rewrite E. Qed.

Lemma keeps_reader c c' : c' = set_reader c (reader c') → keeps_sending c c'.
Proof. by intros ->. Qed.

Lemma next_loop_runs fuel p c :
  routed c → is_usable c = true → (length (unread (reader c)) < fuel)%nat →
  runs (next_loop fuel p) c (found c p) (not_found c p).
Proof.
  revert c. induction fuel as [|fuel IH]; intros c Hc Hu Hf; [lia|]. cbn [next_loop].
  eapply runs_step; [by apply (discard_pending_runs c (arrivals (reader c)))| |done].
  intros _ c1 (Hc1&Hsame&(ds&Hds)&Hlive). rewrite <- (usable_same _ _ Hsame) in Hu.
  destruct Hsame as (Hk&Hr&_). rewrite <- Hr in Hf, Hds at 2.
  apply (search_from c c1 p _ ds Hk Hds). clear c Hc Hds Hk Hr ds. rename c1 into c, Hc1 into Hc.
  unfold runs. rewrite run_get. destruct (position p (pending c)) as [i|] eqn:Ep.
  - apply position_some in Ep as (m&Hi&Hp&Hb). apply (runs_mono (remove_pending i) c _ _ _ _ (remove_pending_runs c i m Hc Hi)); [|done].
    intros m' c' (->&Hc'&->). split; [done|]. split; [done|]. split; [done|].
    exists [], (take i (pending c)), (drop (S i) (pending c) ++ arrivals (reader c)), (abandoned_replies c).
    split_and!; [|done|done| |].
    + rewrite app_comm_cons, app_assoc, take_drop_middle by done. constructor.
    + rewrite Forall_lookup in Hlive. by eapply Hlive.
    + unfold box. cbn [set_pending pending reader abandoned_replies]. by rewrite delete_take_drop, app_assoc.
  - apply position_none in Ep.
    eapply (runs_step read_message); [by apply read_message_runs|..].
    2: { intros e c' (Hc'&Eq&Hu'&Hfail&Ha). split; [done|]. split; [by apply keeps_reader|].
         split; [done|]. apply stream_ends; [done|]. exists []. rewrite Eq. unfold box.
         cbn [set_reader pending reader abandoned_replies]. rewrite Ha, (arrivals_failed _ Hfail), !app_nil_r.
         split; [constructor|]. apply Forall_and. done. }
    intros m c1 (Hc1&Eq&Hu1&Hm&Ha&Hlt).
    pose proof (box_read _ _ _ Eq Ha) as Hbox. pose proof (keeps_reader _ _ Eq) as Hk1.
    assert (Hp1 : pending c1 = pending c) by (by rewrite Eq).
    eapply (runs_step (discard_if_abandoned_reply m)); [by apply discard_if_runs| |done].
    intros [] c2 [Hc2 Hd].
    + destruct Hd as (serial&E&Hs&->). eapply (search_from c _ p _ [m]); [done| |].
      * rewrite Hbox. eapply drops_reply; [done..|]. rewrite <- Hp1. constructor.
      * apply IH; [done..|]. cbn [set_abandoned reader]. lia.
    + destruct Hd as [-> Hd]. destruct (p m) eqn:Epm.
      * apply runs_ret. split; [done|]. split; [done|]. split; [done|].
        exists [], (pending c), (arrivals (reader c1)), (abandoned_replies c1). rewrite Hbox.
        split_and!; [constructor|done..|]. unfold box. by rewrite Hp1.
      * eapply (runs_step (queue_pending m)); [by apply queue_runs|..].
        -- intros _ c3 [Hc3 Eq3]. eapply (search_from c c3 p _ []).
           ++ rewrite Eq3. done.
           ++ rewrite Hbox, Eq3. unfold box. cbn [set_pending pending reader abandoned_replies].
              rewrite Hp1, <- app_assoc. constructor.
           ++ apply IH; [done|by rewrite Eq3|]. rewrite Eq3. cbn [set_pending reader]. lia.
        -- intros e c3 [-> Hcause]. split; [by apply fail_routing_routed|]. split; [done|].
           split; [done|]. assert (Hlose : loses (box c) p m (box (fail_routing c1))).
           { exists [], (pending c), (arrivals (reader c1)), (abandoned_replies c1). rewrite Hbox.
             split_and!; [constructor|done..|]. unfold box. cbn [fail_routing pending reader abandoned_replies].
             by rewrite Hp1. }
           destruct Hcause as [[-> ?]|[-> ?]]; [by eapply full_messages|by eapply full_bytes].
Qed.

Lemma rounds_unread c : rounds c = S (length (pending c) + length (unread (reader c))).
Proof. unfold rounds, unread. rewrite length_app. lia. Qed.

Lemma next_matching_runs p c :
  routed c →
  runs (next_matching p) c (found c p)
    (λ e c', not_found c p e c' ∨ is_usable c = false ∧ c' = c ∧ e = BusError.ConnectionUnusable).
Proof.
  intros Hc. unfold runs, next_matching. destruct (is_usable c) eqn:Hu.
  - rewrite (run_ok _ _ _ _ _ (ensure_usable_ok c Hu)), run_get.
    eapply (runs_mono (next_loop (rounds c) p)); [apply next_loop_runs; [done..|]|done|auto].
    rewrite rounds_unread. lia.
  - rewrite (run_err _ _ _ _ _ (ensure_usable_err c Hu)). auto.
Qed.

(** *** Receiving the next message *)

Definition any (m : Message.t) : bool := true.

Lemma receive_loop_runs fuel c :
  routed c → is_usable c = true →
  (length (pending c) + length (unread (reader c)) < fuel)%nat →
  runs (receive_loop fuel) c (found c any) (not_found c any).
Proof.
  revert c. induction fuel as [|fuel IH]; intros c Hc Hu Hf; [lia|]. cbn [receive_loop].
  assert (Hstep : ∀ c1 m, routed c1 → is_usable c1 = true → keeps_sending c c1 →
    box c = (m :: pending c1 ++ arrivals (reader c1), abandoned_replies c1) →
    (length (pending c1) + length (unread (reader c1)) < fuel)%nat →
    runs (discarded ← discard_if_abandoned_reply m;
          if (discarded : bool) then receive_loop fuel else mret m) c1 (found c any) (not_found c any)).
  { intros c1 m Hc1 Hu1 Hk Hbox Hlt.
    eapply (runs_step (discard_if_abandoned_reply m)); [by apply discard_if_runs| |done].
    intros [] c2 [Hc2 Hd].
    - destruct Hd as (serial&E&Hs&->). eapply (search_from c _ any _ [m]); [done| |by apply IH].
      rewrite Hbox. apply (drops_reply [] m _ _ serial); [done..|constructor].
    - destruct Hd as [-> Hd]. apply runs_ret. split; [done|]. split; [done|]. split; [done|].
      exists [], [], (pending c1 ++ arrivals (reader c1)), (abandoned_replies c1).
      rewrite Hbox. split_and!; [constructor|constructor|done..]. }
  unfold pop_pending. unfold runs at 1. destruct (pending c) as [|m rest] eqn:Ep.
  - rewrite (run_ok _ _ c c None) by (by rewrite Ep).
    eapply (runs_step read_message); [by apply read_message_runs|..].
    + intros m c1 (Hc1&Eq&Hu1&Hm&Ha&Hlt). pose proof (box_read _ _ _ Eq Ha) as Hbox.
      assert (Hp1 : pending c1 = []) by (by rewrite Eq).
      apply Hstep; [done|done|by apply keeps_reader| |].
      * by rewrite Hbox, Ep, Hp1.
      * rewrite Hp1. simpl in *. lia.
    + intros e c' (Hc'&Eq&Hu'&Hfail&Ha). split; [done|]. split; [by apply keeps_reader|].
      split; [done|]. apply stream_ends; [done|]. exists []. unfold box.
      assert (Hp1 : pending c' = []) by (by rewrite Eq). rewrite Hp1, Ep, Ha, (arrivals_failed _ Hfail).
      split; [rewrite Eq; constructor|constructor].
  - destruct (dequeue m rest c) as [c1 r] eqn:Ed.
    pose proof (dequeue_runs c m rest Hc ltac:(by rewrite Ep)) as Hd. unfold runs in Hd. rewrite Ed in Hd.
    destruct r as [m'|e|]; [|done..]. destruct Hd as (->&Eq&Hc1).
    rewrite (run_ok _ _ c c1 (Some m)) by (rewrite Ep; by rewrite (run_ok _ _ _ _ _ Ed)).
    rewrite run_ret_bind. apply Hstep; [done|by rewrite Eq|by rewrite Eq| |].
    + rewrite Eq. unfold box. by rewrite Ep.
    + rewrite Eq. cbn [set_pending pending reader]. simpl in Hf. lia.
Qed.

Lemma receive_runs c :
  routed c →
  runs receive c (found c any)
    (λ e c', not_found c any e c' ∨ is_usable c = false ∧ c' = c ∧ e = BusError.ConnectionUnusable).
Proof.
  intros Hc. unfold runs, receive. destruct (is_usable c) eqn:Hu.
  - rewrite (run_ok _ _ _ _ _ (ensure_usable_ok c Hu)), run_get.
    eapply (runs_mono (receive_loop (rounds c))); [apply receive_loop_runs; [done..|]|done|auto].
    rewrite rounds_unread. lia.
  - rewrite (run_err _ _ _ _ _ (ensure_usable_err c Hu)). auto.
Qed.


(** *** Abandoning a reply *)

Lemma abandon_runs c s :
  routed c → s ∉ abandoned_replies c →
  runs (abandon_reply s) c
    (λ _ c', routed c' ∧ keeps_sending c c' ∧
       ∃ dropped, drops (pending c ++ arrivals (reader c), {[ s ]} ∪ abandoned_replies c) dropped (box c'))
    (λ e c', routed c' ∧ keeps_sending c c' ∧ is_usable c' = false ∧ box c' = box c).
Proof.
  intros Hc Hs. unfold runs, abandon_reply. destruct (is_usable c) eqn:Hu.
  2: { rewrite (run_err _ _ _ _ _ (ensure_usable_err c Hu)). done. }
  rewrite (run_ok _ _ _ _ _ (ensure_usable_ok c Hu)), run_get.
  destruct (position _ (pending c)) as [i|] eqn:Ep.
  - apply position_some in Ep as (m&Hi&Hm&_).
    eapply (runs_step (remove_pending i)); [by apply remove_pending_runs| |done].
    intros ? c' (->&Hc'&->). apply runs_ret. split; [done|]. split; [done|]. exists [m].
    assert (Hr : Message.reply_serial m = Some s).
    { unfold PendingReply.matches in Hm. destruct (Message.kind m); try done; by apply bool_decide_eq_true in Hm. }
    rewrite <- (take_drop_middle (pending c) i m Hi) at 1. rewrite <- app_assoc. cbn [app].
    eapply drops_reply; [exact Hr|set_solver|]. unfold box.
    cbn [set_pending pending reader abandoned_replies]. rewrite delete_take_drop, <- app_assoc.
    replace (({[s]} ∪ abandoned_replies c) ∖ {[s]}) with (abandoned_replies c) by set_solver.
    constructor.
  - unfold AbandonedReplies.register, PendingReply.serial.
    destruct (Z.eqb_spec (Z.of_nat (size (abandoned_replies c))) AbandonedReplies.MAX_ABANDONED_REPLIES) as [?|Hn].
    + split; [by apply fail_routing_routed|]. done.
    + rewrite decide_False by done. cbn [modify]. split; [|split; [done|exists []; constructor]].
      destruct Hc as [Hr Hsum Hc Hl Hm Ha]. split; try done. cbn [set_abandoned abandoned_replies].
      rewrite size_union, size_singleton by set_solver. lia.
Qed.

End routing.
