(* ===== verification/RoutingSend.v ===== *)
(** * What a connection writes

    Every operation that sends hands the writer one whole message, with a serial
    of its own and a form that the peer's decoder accepts; the writer puts whole
    messages on the socket, one behind the other, even when callers go away. *)

From Stdlib Require Import Strings.String Strings.Byte.
From S2P Require Import Prelude Bytes Names Wire WireSpec WireSafe Auth Reader ReaderSpec Routing.
From S2P Require Import RoutingInv.

Section writer.

Context `{Zvariant}.

Implicit Types w : MessageWriter.t.
Implicit Types enc : EncodedMessage.t.
Implicit Types segs : list (Socket.Segment Fd).

(** A message as it travels: its bytes in one or two segments, its descriptors
    with the first of them. *)
Definition carries enc segs : Prop :=
  nonempty segs ∧ Socket.flatten segs = EncodedMessage.bytes enc ∧
  segment_fds segs = EncodedMessage.unix_fds enc.

(** What the writer holds and has written: whole messages, one behind the
    other, and a begun one that waits or that failed in the middle. *)
Inductive wrote w : list EncodedMessage.t → Prop :=
| wrote_all encs groups :
    MessageWriter.failed w = false →
    Forall2 carries encs groups → Sink.sent (MessageWriter.stream w) = mjoin groups →
    wrote w (encs ++ option_list (MessageWriter.operation w))
| wrote_part encs groups enc part :
    MessageWriter.failed w = true → MessageWriter.operation w = None →
    Forall2 carries encs groups → Sink.sent (MessageWriter.stream w) = mjoin groups ++ part →
    nonempty part → Socket.flatten part `prefix_of` EncodedMessage.bytes enc →
    wrote w (encs ++ [enc]).

(** A message that a connection may send. *)
Definition sendable enc : Prop :=
  EncodedMessage.bytes enc ≠ [] ∧ len (EncodedMessage.unix_fds enc) <= MAX_UNIX_FDS.

Lemma emit_sent bytes (fds : list Fd) sink answers :
  Sink.sent (Sink.emit bytes fds sink answers) =
    Sink.sent sink ++ match bytes with [] => [] | _ => [Socket.Bytes bytes fds] end.
Proof. destruct bytes; simpl; by rewrite ?app_nil_r. Qed.

Lemma flatten_app segs segs' : Socket.flatten (segs ++ segs') = Socket.flatten segs ++ Socket.flatten segs'.
Proof. apply bind_app. Qed.

(** One segment of [bytes], or none. *)
Definition segment (bytes : list byte) (fds : list Fd) : list (Socket.Segment Fd) :=
  match bytes with [] => [] | _ => [Socket.Bytes bytes fds] end.

Lemma segment_nonempty bytes fds : nonempty (segment bytes fds).
Proof. destruct bytes; repeat constructor. done. Qed.

Lemma segment_flatten bytes fds : Socket.flatten (segment bytes fds) = bytes.
Proof. destruct bytes; [done|]. unfold Socket.flatten. csimpl. by rewrite app_nil_r. Qed.

Lemma segment_no_fds bytes : segment_fds (segment bytes []) = [].
Proof. by destruct bytes. Qed.

Lemma write_all_runs bytes (sink : Sink.t Fd) :
  runs (Sink.write_all bytes) sink
    (λ _ sink', Sink.sent sink' = Sink.sent sink ++ segment bytes [])
    (λ _ sink', ∃ part, part `prefix_of` bytes ∧ Sink.sent sink' = Sink.sent sink ++ segment part []).
Proof.
  unfold runs, Sink.write_all. destruct (Sink.answers sink) as [|[n []] answers].
  - exists []. split; [apply prefix_nil|by rewrite app_nil_r].
  - apply emit_sent.
  - exists (take (Z.to_nat n) bytes). split; [apply prefix_take|apply emit_sent].
Qed.

Lemma write_message_runs enc (sink : Sink.t Fd) :
  sendable enc →
  runs (MessageWriter.write_message enc) sink
    (λ _ sink', ∃ group, carries enc group ∧ Sink.sent sink' = Sink.sent sink ++ group)
    (λ _ sink', ∃ part, nonempty part ∧ Socket.flatten part `prefix_of` EncodedMessage.bytes enc ∧
       Sink.sent sink' = Sink.sent sink ++ part).
Proof.
  destruct enc as [bytes [|fd fds]]; intros [Hb Hfd]; cbn [EncodedMessage.bytes EncodedMessage.unix_fds] in *;
    cbn [MessageWriter.write_message].
  - eapply runs_mono; [apply write_all_runs|..].
    + intros ? sink' E. exists (segment bytes []). split; [|done]. split_and!;
        [apply segment_nonempty|apply segment_flatten|apply segment_no_fds].
    + intros ? sink' (part&Hp&E). exists (segment part []). rewrite segment_flatten.
      split; [apply segment_nonempty|done].
  - unfold MessageWriter.write_with_fds. rewrite (proj2 (Z.ltb_ge _ _)) by lia.
    unfold runs. rewrite run_ret_bind. unfold Sink.write_with_ancillary, mbind, run_bind.
    destruct (Sink.answers sink) as [|[n []] answers].
    { exists []. split; [constructor|]. split; [apply prefix_nil|by rewrite app_nil_r]. }
    2: { exists []. split; [constructor|]. split; [apply prefix_nil|by rewrite app_nil_r]. }
    pose proof (emit_sent (take (Z.to_nat n) bytes) (fd :: fds) sink answers) as He.
    pose proof (prefix_take bytes (Z.to_nat n)) as Hpre.
    set (written := take (Z.to_nat n) bytes) in *. clearbody written. fold (segment written (fd :: fds)) in He.
    destruct (Z.eqb_spec (len written) 0) as [E0|Hn0].
    { apply len_zero in E0. exists []. split; [constructor|]. split; [apply prefix_nil|].
      rewrite He, E0. done. }
    assert (Hw : segment written (fd :: fds) = [Socket.Bytes written (fd :: fds)])
      by (destruct written; [done|done]).
    destruct (Z.ltb_spec (len written) (len bytes)) as [Hlt|Hge].
    + set (rest := drop (Z.to_nat (len written)) bytes).
      assert (Hsplit : bytes = written ++ rest).
      { destruct Hpre as [k Hk]. unfold rest. rewrite Hk. f_equal. unfold len. rewrite Nat2Z.id.
        by rewrite drop_app_length. }
      pose proof (write_all_runs rest (Sink.emit written (fd :: fds) sink answers)) as Hr. unfold runs in Hr.
      destruct (Sink.write_all rest _) as [sink' [[]|e|]]; [| |done].
      * exists (segment written (fd :: fds) ++ segment rest []). split; [|by rewrite Hr, He, app_assoc].
        split_and!.
        -- apply Forall_app. split; apply segment_nonempty.
        -- rewrite flatten_app, !segment_flatten. done.
        -- rewrite Hw. unfold segment_fds. destruct rest; csimpl; by rewrite ?app_nil_r.
      * destruct Hr as (part&Hp&Hs). exists (segment written (fd :: fds) ++ segment part []).
        split; [apply Forall_app; split; apply segment_nonempty|]. split; [|by rewrite Hs, He, app_assoc].
        rewrite flatten_app, !segment_flatten. rewrite Hsplit. by apply prefix_app.
    + assert (Heq : written = bytes).
      { destruct Hpre as [k ->]. rewrite len_app in Hge. pose proof (len_nonneg k).
        assert (k = []) as -> by (apply len_zero; lia). by rewrite app_nil_r. }
      exists (segment written (fd :: fds)). split; [|exact He]. split_and!.
      * apply segment_nonempty.
      * by rewrite segment_flatten.
      * rewrite Hw. unfold segment_fds. csimpl. by rewrite app_nil_r.
Qed.

Lemma mjoin_snoc {A} (groups : list (list A)) g : mjoin (groups ++ [g]) = mjoin groups ++ g.
Proof. induction groups as [|x groups IH]; csimpl; [by rewrite app_nil_r|]. by rewrite IH, app_assoc. Qed.

Lemma carries_snoc encs groups enc group :
  Forall2 carries encs groups → carries enc group → Forall2 carries (encs ++ [enc]) (groups ++ [group]).
Proof. intros Hs Hc. apply Forall2_app; [done|]. by constructor. Qed.

(** Finishing what has begun. *)
Lemma finish_runs w encs :
  wrote w encs → Forall sendable encs →
  runs MessageWriter.finish_active w
    (λ _ w', wrote w' encs ∧ MessageWriter.operation w' = None ∧
       MessageWriter.failed w' = MessageWriter.failed w ∧ MessageWriter.unix_fd w' = MessageWriter.unix_fd w)
    (λ _ w', wrote w' encs ∧ MessageWriter.operation w' = None ∧ MessageWriter.failed w' = true).
Proof.
  intros Hw Hs. unfold runs, MessageWriter.finish_active.
  destruct (MessageWriter.operation w) as [enc|] eqn:Eop; [|done].
  destruct Hw as [encs groups Hf Hg Hsent|]; [|congruence]. rewrite Eop in *. change (option_list (Some enc)) with [enc] in *.
  apply Forall_app in Hs as [_ Hs]. rewrite Forall_singleton in Hs.
  pose proof (write_message_runs enc (MessageWriter.stream w) Hs) as Hr. unfold runs in Hr.
  destruct (MessageWriter.write_message enc _) as [sink [[]|e|]]; [| |done].
  - destruct Hr as (group&Hc&E). split; [|done].
    eassert (wrote _ ((encs ++ [enc]) ++ [])) as Hw; [|by rewrite app_nil_r in Hw].
    apply (wrote_all (MessageWriter.mk sink None _ _) (encs ++ [enc]) (groups ++ [group]));
      [done|by apply carries_snoc|]. cbn [MessageWriter.stream]. by rewrite mjoin_snoc, E, Hsent.
  - destruct Hr as (part&Hp&Hpre&E). split; [|done].
    apply (wrote_part (MessageWriter.mk sink None _ _) encs groups enc part); try done.
    cbn [MessageWriter.stream]. by rewrite E, Hsent.
Qed.

Lemma begin_runs w encs enc :
  wrote w encs → Forall sendable encs →
  runs (MessageWriter.begin_write enc) w
    (λ _ w', wrote w' (encs ++ [enc]))
    (λ _ w', wrote w' encs).
Proof.
  intros Hw Hs. unfold runs, MessageWriter.begin_write. rewrite run_get.
  destruct (MessageWriter.failed w) eqn:Hf; [done|]. rewrite run_ret_bind.
  eapply (runs_step MessageWriter.flush).
  { unfold MessageWriter.flush, runs at 1. rewrite Hf. by apply finish_runs. }
  2: { by intros e w' (?&_). }
  intros ? w' (Hw'&Hop&Hf'&Hu). rewrite Hf in Hf'.
  destruct (negb _ && _); [done|]. unfold runs. rewrite run_ret_bind. cbn [modify].
  destruct Hw' as [encs groups _ Hg Hsent|]; [|congruence].
  rewrite Hop, app_nil_r.
  apply (wrote_all (MessageWriter.mk _ (Some enc) _ _) encs groups); done.
Qed.

Lemma write_runs w encs enc :
  wrote w encs → Forall sendable encs → sendable enc →
  runs (MessageWriter.write enc) w
    (λ _ w', wrote w' (encs ++ [enc]) ∧ MessageWriter.operation w' = None)
    (λ _ w', wrote w' encs ∨ wrote w' (encs ++ [enc])).
Proof.
  intros Hw Hs He. unfold MessageWriter.write.
  eapply (runs_step (MessageWriter.begin_write enc)); [by apply begin_runs| |by intros; left].
  intros ? w' Hw'. eapply runs_mono; [apply finish_runs; [exact Hw'|]|..].
  - apply Forall_app. split; [done|by apply Forall_singleton].
  - naive_solver.
  - naive_solver.
Qed.

End writer.

(** ** What the operations send *)

Section sends.

Context `{Zvariant}.

Import Connection.

Implicit Types c : Connection.t.
Implicit Types m : Message.t.

(** A message with its body, before it is encoded. *)
Definition Post : Type := Outgoing.t * Body.

(** The peer's decoder accepts it. *)
Definition valid_post (post : Post) (enc : EncodedMessage.t) : Prop :=
  typed post.1 ∧ lawful post.2 ∧ allowed post.1 ∧ encode_outgoing post.1 post.2 = Ok enc.

(** Serials that are in use when [next] is the next one. *)
Definition serials (next : Z) (l : list Z) : Prop :=
  U32.ok next ∧ StronglySorted Z.lt l ∧ Forall (λ s, 0 < s <= U32.MAX) l ∧
  (next ≠ 0 → Forall (λ s, s < next) l).

(** [posts] is what [c] has handed to its writer. *)
Definition sending c (posts : list Post) : Prop :=
  serials (next_serial c) ((λ post, Outgoing.serial post.1) <$> posts) ∧
  ∃ encs, Forall2 valid_post posts encs ∧ wrote (writer c) encs.

Definition same_routing c c' : Prop :=
  reader c' = reader c ∧ pending c' = pending c ∧ pending_bytes c' = pending_bytes c ∧
  abandoned_replies c' = abandoned_replies c ∧ routing_failed c' = routing_failed c ∧
  mode c' = mode c.

Lemma same_routing_trans a b c : same_routing a b → same_routing b c → same_routing a c.
Proof. unfold same_routing. intros (?&?&?&?&?&?) (?&?&?&?&?&?). split_and!; congruence. Qed.

Lemma same_routed c c' : same_routing c c' → routed c → routed c' ∧ box c' = box c.
Proof.
  intros (E1&E2&E3&E4&E5&E6) [Hr Hs Hc Hl Hm Ha]. split; [by split; rewrite ?E1, ?E2, ?E3, ?E4|].
  unfold box. by rewrite E1, E2, E4.
Qed.

Lemma valid_sendable post enc : valid_post post enc → sendable enc.
Proof.
  intros (Ht&Hl&_&He). destruct (encoded_framed _ _ _ Ht Hl He) as (_&[H16 _]&Hfd).
  split; [|done]. intros E. rewrite E in H16. unfold len in H16. simpl in H16. lia.
Qed.

Lemma valid_all_sendable posts encs : Forall2 valid_post posts encs → Forall sendable encs.
Proof. induction 1; constructor; eauto using valid_sendable. Qed.

(** What an operation whose message is [post] leaves behind. *)
Definition sent_by (await : Await) (post : option Post) c (posts : list Post) c' : Prop :=
  same_routing c c' ∧
  match post with
  | None => sending c' posts
  | Some post => sending c' (posts ++ [post]) ∨ await ≠ Finished ∧ sending c' posts
  end.

(** It fails before or while its message is written. *)
Definition not_sent (post : option Post) c (posts : list Post) c' : Prop :=
  same_routing c c' ∧ (sending c' posts ∨ ∃ p, post = Some p ∧ sending c' (posts ++ [p])).

Lemma lift_runs {A} (r : Result A) c (Q : A → Prop) :
  returns r Q → runs (lift r) c (λ a c', Q a ∧ c' = c) (λ _ c', c' = c).
Proof. unfold runs, lift, returns. by destruct r. Qed.

Lemma ensure_returns b e : returns (ensure b e) (λ _, b = true).
Proof. by destruct b. Qed.

Lemma allocate_runs c l :
  serials (next_serial c) l →
  runs allocate_serial c
    (λ s c', s = next_serial c ∧ same_routing c c' ∧ writer c' = writer c ∧
       serials (next_serial c') l ∧ serials (next_serial c') (l ++ [s]) ∧ 0 < s <= U32.MAX)
    (λ e c', c' = c ∧ e = BusError.SerialExhausted ∧ next_serial c = 0).
Proof.
  intros (Hok&Hsort&Hall&Hlt). unfold runs, allocate_serial.
  destruct (Z.eqb_spec (next_serial c) 0) as [?|Hn]; [done|]. specialize (Hlt Hn).
  set (next' := if next_serial c =? U32.MAX then 0 else next_serial c + 1).
  assert (Hnext : U32.ok next' ∧ (next' ≠ 0 → next' = next_serial c + 1)).
  { unfold next', U32.ok, U32.MAX in *. destruct (Z.eqb_spec (next_serial c) 4294967295); lia. }
  destruct Hnext as [Hok' Hnext]. unfold U32.ok in Hok.
  split; [done|]. split; [done|]. split; [done|]. cbn [set_next_serial next_serial]. split; [|split; [|lia]].
  - split_and!; [done..|]. intros Hz. rewrite (Hnext Hz). eapply Forall_impl; [exact Hlt|]. simpl. lia.
  - split_and!; [done| | |].
    + apply StronglySorted_app_2; [|done|repeat constructor].
      intros x y Hx [->|[]%not_elem_of_nil]%elem_of_cons. rewrite Forall_forall in Hlt. by apply Hlt.
    + apply Forall_app. split; [done|apply Forall_singleton; lia].
    + intros Hz. rewrite (Hnext Hz). apply Forall_app. split.
      * eapply Forall_impl; [exact Hlt|]. simpl. lia.
      * apply Forall_singleton. lia.
Qed.

Lemma on_writer_runs {A} (f : Run MessageWriter.t BusError.t A) c Q X :
  runs f (writer c) Q X →
  runs (on_writer f) c
    (λ a c', Q a (writer c') ∧ same_routing c c' ∧ next_serial c' = next_serial c)
    (λ e c', X e (writer c') ∧ same_routing c c' ∧ next_serial c' = next_serial c).
Proof. unfold runs, on_writer. by destruct (f (writer c)) as [w [a|e|]]. Qed.

(** A message whose serial has been allocated. *)
Lemma write_message_sends await enc post posts c :
  sending c posts → valid_post post enc →
  serials (next_serial c) (((λ post, Outgoing.serial post.1) <$> posts) ++ [Outgoing.serial post.1]) →
  runs (write_message await enc) c
    (λ _ c', sent_by await (Some post) c posts c') (λ _ c', not_sent (Some post) c posts c').
Proof.
  intros (Hser&encs&Hencs&Hw) Hv Hser'. pose proof (valid_all_sendable _ _ Hencs) as Hall.
  pose proof (valid_sendable _ _ Hv) as He.
  assert (Hold : ∀ c', next_serial c' = next_serial c → wrote (writer c') encs → sending c' posts).
  { intros c' Hn Hw'. split; [by rewrite Hn|by exists encs]. }
  assert (Hnew : ∀ c', next_serial c' = next_serial c → wrote (writer c') (encs ++ [enc]) →
    sending c' (posts ++ [post])).
  { intros c' Hn Hw'. split; [by rewrite Hn, fmap_app|]. exists (encs ++ [enc]). split; [|done].
    apply Forall2_app; [done|by constructor]. }
  unfold runs, write_message. destruct (is_usable c) eqn:Hu.
  2: { rewrite (run_err _ _ _ _ _ (ensure_usable_err c Hu)). split; [done|left; by apply Hold]. }
  rewrite (run_ok _ _ _ _ _ (ensure_usable_ok c Hu)). destruct await.
  - eapply runs_mono; [apply on_writer_runs, write_runs; [exact Hw|done|done]|..].
    + intros ? c' ([Hw' _]&Hsame&Hn). split; [done|]. left. by apply Hnew.
    + intros ? c' ([Hw'|Hw']&Hsame&Hn); (split; [done|]); [left; by apply Hold|right].
      exists post. split; [done|by apply Hnew].
  - eapply runs_mono; [apply on_writer_runs, begin_runs; [exact Hw|done]|..].
    + intros ? c' (Hw'&Hsame&Hn). split; [done|]. left. by apply Hnew.
    + intros ? c' (Hw'&Hsame&Hn). split; [done|]. left. by apply Hold.
  - split; [done|]. right. split; [done|]. by apply Hold.
Qed.

Lemma ok_or_total {A} (v : option A) e : ok_or v e ≠ Panic.
Proof. by destruct v. Qed.

Lemma encode_returns (o : Outgoing.t) (body : Body) : encode_outgoing o body ≠ Panic.
Proof.
  unfold encode_outgoing, push_fields, push_optional, push_string_field_at, push_signature_field_at, too_large, invalid.
  repeat first [done | apply ok_or_total | apply result_bind_total; [|intros ? _] | case_match].
Qed.

(** Allocating a serial, encoding and writing. *)
Definition post_message (await : Await) (outgoing : Z → Outgoing.t) (body : Body)
    : Run Connection.t BusError.t Z :=
  serial ← allocate_serial;
  encoded ← lift (encode_outgoing (outgoing serial) body);
  write_message await encoded;;
  mret serial.

Lemma post_runs await (outgoing : Z → Outgoing.t) (body : Body) posts c :
  sending c posts → lawful body →
  (∀ s, 0 < s <= U32.MAX → Outgoing.serial (outgoing s) = s ∧ typed (outgoing s) ∧ allowed (outgoing s)) →
  let post := (outgoing (next_serial c), body) in
  runs (post_message await outgoing body) c
    (λ s c', s = next_serial c ∧ sent_by await (Some post) c posts c')
    (λ _ c', not_sent (Some post) c posts c').
Proof.
  intros Hs Hlaw Ho post. destruct (Hs) as (Hser&encs&Hencs&Hw). unfold post_message.
  eapply (runs_step allocate_serial); [by apply allocate_runs|..].
  2: { intros e c' (->&_). split; [done|]. by left. }
  intros s c1 (->&Hsame&Hwr&Hser1&Hser2&Hpos). destruct (Ho _ Hpos) as (Eser&Ht&Hall).
  assert (Hs1 : sending c1 posts) by (split; [done|]; exists encs; by rewrite Hwr).
  eapply (runs_step (lift (encode_outgoing (outgoing (next_serial c)) body))).
  { apply (lift_runs _ _ (λ enc, encode_outgoing (outgoing (next_serial c)) body = Ok enc)).
    pose proof (encode_returns (outgoing (next_serial c)) body).
    by destruct (encode_outgoing _ body). }
  2: { intros e c' ->. split; [done|]. by left. }
  intros enc c2 [Henc ->].
  eapply (runs_step (write_message await enc)).
  { apply (write_message_sends await enc post posts c1); [done|done|].
    change (Outgoing.serial post.1) with (Outgoing.serial (outgoing (next_serial c))). by rewrite Eser. }
  - intros ? c3 [Hsame3 H3]. apply runs_ret. split; [done|]. split; [by eapply same_routing_trans|done].
  - intros ? c3 [Hsame3 H3]. split; [by eapply same_routing_trans|done].
Qed.

(** A send without a result is such a post. *)
Lemma post_unit await outgoing (body : Body) (k : Z → Run Connection.t BusError.t unit) c Q X :
  (∀ s c1, k s c1 = send_outgoing await (outgoing s) body c1) →
  runs (post_message await outgoing body) c (λ _ c', Q tt c') X →
  runs (serial ← allocate_serial; k serial) c Q X.
Proof.
  intros Hk. unfold runs, post_message, send_outgoing, mbind, run_bind in *.
  destruct (allocate_serial c) as [c1 [s|e|]]; [|done..]. rewrite Hk.
  unfold mbind, run_bind. destruct (lift _ c1) as [c2 [enc|e|]]; [|done..].
  by destruct (write_message await enc c2) as [c3 [[]|e|]].
Qed.

(** *** Texts that validation accepts *)

Lemma interface_text v : is_interface_name v = true → is_utf8 v = true.
Proof. intros Hv. by apply is_utf8_ascii, forallb_iff, interface_ascii. Qed.

Lemma member_text v : is_member_name v = true → is_utf8 v = true.
Proof. intros Hv. by apply is_utf8_ascii, forallb_iff, member_ascii. Qed.

Lemma bus_name_text v : is_bus_name v = true → is_utf8 v = true.
Proof. intros Hv. by apply is_utf8_ascii, forallb_iff, bus_name_ascii. Qed.

Lemma holds_text (valid : list byte → bool) v :
  (∀ x, valid x = true → is_utf8 x = true) → holds_for valid v → from_option is_utf8 true v = true.
Proof. intros Hv. destruct v as [x|]; [exact (Hv x)|done]. Qed.

(** An outgoing message whose fields have been validated. *)
Lemma outgoing_valid kind flags serial reply path interface member error_name destination :
  0 <= flags < 256 → 0 < serial <= U32.MAX →
  from_option (λ r, 0 < r <= U32.MAX) True reply →
  fields_of_kind kind reply path interface member error_name →
  holds_for object_path_try_from path → from_option is_utf8 true path = true →
  holds_for is_interface_name interface → holds_for is_member_name member →
  holds_for is_interface_name error_name → holds_for is_bus_name destination →
  let o := Outgoing.mk kind flags serial reply path interface member error_name destination in
  typed o ∧ allowed o.
Proof.
  intros Hf Hs Hr Hk Hp Hpt Hi Hm He Hd o. split.
  - split; cbn [o Outgoing.flags Outgoing.serial Outgoing.reply_serial Outgoing.path
      Outgoing.interface Outgoing.member Outgoing.error_name Outgoing.destination]; try done.
    + unfold U32.ok. lia.
    + destruct reply; [|done]. simpl in *. unfold U32.ok. lia.
    + by eapply holds_text; [apply interface_text|].
    + by eapply holds_text; [apply member_text|].
    + by eapply holds_text; [apply interface_text|].
    + by eapply holds_text; [apply bus_name_text|].
  - split; cbn [o Outgoing.kind Outgoing.serial Outgoing.reply_serial Outgoing.path
      Outgoing.interface Outgoing.member Outgoing.error_name Outgoing.destination]; try done; [lia|].
    destruct reply; [|done]. simpl in *. intros [= ->]. lia.
Qed.


(** *** Validation *)

Lemma bus_name_returns v kind : returns (validate_bus_name v kind) (λ _, is_bus_name v = true).
Proof. unfold validate_bus_name. apply ensure_returns. Qed.

Lemma interface_returns v kind : returns (validate_interface_name v kind) (λ _, is_interface_name v = true).
Proof. unfold validate_interface_name. apply ensure_returns. Qed.

Lemma member_returns v kind : returns (validate_member_name v kind) (λ _, is_member_name v = true).
Proof. unfold validate_member_name. apply ensure_returns. Qed.

Lemma optional_returns (valid : list byte → bool) (check : list byte → Result unit) v :
  (∀ x, returns (check x) (λ _, valid x = true)) →
  returns (match v with Some x => check x | None => mret tt end) (λ _, holds_for valid v).
Proof. intros Hc. destruct v; [apply Hc|done]. Qed.

Lemma target_returns destination path interface :
  returns (validate_target destination path interface)
    (λ _, holds_for is_bus_name destination ∧ object_path_try_from path = true ∧
          holds_for is_interface_name interface).
Proof.
  unfold validate_target. eapply returns_bind.
  { apply (optional_returns is_bus_name). intros x. apply bus_name_returns. }
  intros ? Hd. eapply returns_bind; [apply ensure_returns|]. intros ? Hp.
  eapply returns_impl; [apply (optional_returns is_interface_name); intros x; apply interface_returns|].
  intros ? Hi. done.
Qed.

Lemma signal_returns path interface member :
  returns (validate_signal path interface member)
    (λ _, object_path_try_from path = true ∧ is_interface_name interface = true ∧
          is_member_name member = true).
Proof.
  unfold validate_signal. eapply returns_bind; [apply ensure_returns|]. intros ? Hp.
  eapply returns_bind; [apply interface_returns|]. intros ? Hi.
  eapply returns_impl; [apply member_returns|]. intros ? Hm. done.
Qed.

Lemma not_sent_same c posts post : sending c posts → not_sent post c posts c.
Proof. intros Hs. split; [done|by left]. Qed.

(** A check in front of a send. *)
Lemma check_runs {A} (r : Result unit) P (k : Run Connection.t BusError.t A) c posts post Q :
  sending c posts → returns r P →
  (P tt → runs k c Q (λ _ c', not_sent post c posts c')) →
  runs (lift r;; k) c Q (λ _ c', not_sent post c posts c').
Proof.
  intros Hs Hr Hk. eapply (runs_step (lift r)); [by apply (lift_runs _ _ (λ _, P tt));
    (eapply returns_impl; [exact Hr|by intros []])|..].
  - intros ? c' [HP ->]. by apply Hk.
  - intros ? c' ->. by apply not_sent_same.
Qed.

(** *** Calls *)

Definition call_message (destination : option (list byte)) (path : list byte)
    (interface : option (list byte)) (member : list byte) (flags : Z) (s : Z) : Outgoing.t :=
  Outgoing.mk MessageKind.MethodCall flags s None (Some path) interface (Some member) None destination.

Lemma call_valid destination path interface member flags s :
  0 <= flags < 256 → is_utf8 path = true → 0 < s <= U32.MAX →
  holds_for is_bus_name destination → object_path_try_from path = true →
  holds_for is_interface_name interface → is_member_name member = true →
  let o := call_message destination path interface member flags s in
  Outgoing.serial o = s ∧ typed o ∧ allowed o.
Proof. intros. split; [done|]. by apply outgoing_valid. Qed.

Lemma send_call_sends await destination path interface member flags (body : Body) posts c :
  sending c posts → lawful body → 0 <= flags < 256 → is_utf8 path = true →
  let post := (call_message destination path interface member flags (next_serial c), body) in
  runs (send_call_with_flags await destination path interface member flags body) c
    (λ s c', s = next_serial c ∧ sent_by await (Some post) c posts c')
    (λ _ c', not_sent (Some post) c posts c').
Proof.
  intros Hs Hlaw Hfl Hpt post. unfold send_call_with_flags.
  eapply (runs_step (if MethodCallFlags.contains _ _ then _ else _)
    _ _ (λ _ c', c' = c) (λ _ c', c' = c)); [unfold runs; by destruct (MethodCallFlags.contains _ _)| |intros ? ? ->; by apply not_sent_same].
  intros ? ? ->. eapply check_runs; [done|apply target_returns|]. intros (Hd&Hp&Hi).
  unfold send_call_validated_target. eapply check_runs; [done|apply member_returns|]. intros Hm.
  apply (post_runs await (call_message destination path interface member flags) body posts c); [done|done|].
  intros s Hpos. by apply call_valid.
Qed.

Definition no_reply (flags : MethodCallFlags.t) : MethodCallFlags.t :=
  MethodCallFlags.bitor (MethodCallFlags.without flags MethodCallFlags.NO_REPLY_EXPECTED)
    MethodCallFlags.NO_REPLY_EXPECTED.

Lemma no_reply_all :
  forallb (λ n, let f := no_reply (Z.of_nat n) in (0 <=? f) && (f <? 256)) (seq 0 256) = true.
Proof. vm_compute. reflexivity. Qed.

Lemma no_reply_range flags : 0 <= flags < 256 → 0 <= no_reply flags < 256.
Proof.
  intros Hf. pose proof (proj1 (forallb_forall _ _) no_reply_all (Z.to_nat flags)) as Hall.
  cbv beta zeta in Hall. rewrite Z2Nat.id in Hall by lia.
  apply andb_prop in Hall as [H0 H1]; [lia|]. apply in_seq. lia.
Qed.

Lemma send_no_reply_sends await destination path interface member flags (body : Body) posts c :
  sending c posts → lawful body → 0 <= flags < 256 → is_utf8 path = true →
  let post := (call_message destination path interface member (no_reply flags) (next_serial c), body) in
  runs (send_no_reply_with_flags await destination path interface member flags body) c
    (λ _ c', sent_by await (Some post) c posts c') (λ _ c', not_sent (Some post) c posts c').
Proof.
  intros Hs Hlaw Hfl Hpt post. unfold send_no_reply_with_flags.
  eapply check_runs; [done|apply target_returns|]. intros (Hd&Hp&Hi).
  eapply check_runs; [done|apply member_returns|]. intros Hm.
  apply (post_unit await (call_message destination path interface member (no_reply flags)) body); [done|].
  eapply runs_mono; [apply post_runs; [exact Hs|exact Hlaw|]|by intros ? ? [_ ?]|done].
  intros s Hpos. apply call_valid; try done. by apply no_reply_range.
Qed.

(** *** Signals *)

Definition signal_message (destination : option (list byte)) (path interface member : list byte)
    (s : Z) : Outgoing.t :=
  Outgoing.mk MessageKind.Signal 0 s None (Some path) (Some interface) (Some member) None destination.

Lemma emit_sends await destination path interface member (body : Body) posts c :
  sending c posts → lawful body → is_utf8 path = true → holds_for is_bus_name destination →
  let post := (signal_message destination path interface member (next_serial c), body) in
  runs (emit_signal_inner await destination path interface member body) c
    (λ _ c', sent_by await (Some post) c posts c') (λ _ c', not_sent (Some post) c posts c').
Proof.
  intros Hs Hlaw Hpt Hd post. unfold emit_signal_inner.
  eapply check_runs; [done|apply signal_returns|]. intros (Hp&Hi&Hm).
  apply (post_unit await (signal_message destination path interface member) body); [done|].
  eapply runs_mono; [apply post_runs; [exact Hs|exact Hlaw|]|by intros ? ? [_ ?]|done].
  intros s Hpos. split; [done|]. apply outgoing_valid; try done; lia.
Qed.


(** *** Replies *)

Lemma unique_bus_name v : holds_for is_unique_name v → holds_for is_bus_name v.
Proof. destruct v as [v|]; [|done]. unfold holds_for, is_bus_name. simpl. by intros ->. Qed.

(** The sender of an accepted message, and its serial. *)
Lemma sound_call m :
  sound m →
  ∃ sender, Message.sender_str m = Ok sender ∧ holds_for is_bus_name sender ∧
    0 < Message.serial m <= U32.MAX.
Proof.
  intros Hm. destruct (accepted_rules _ _ _ Hm) as (t1&t2&t3&t4&t6&t7&t8&Ht&Hr).
  pose proof (accepted_serial _ _ _ Hm) as Hs. pose proof (rules_serial _ _ _ _ _ _ _ _ _ Hr).
  exists t7. split; [exact (texts_sender _ _ _ _ _ _ _ _ Ht)|]. split; [|unfold U32.ok in Hs; lia].
  apply unique_bus_name. exact (rules_sender _ _ _ _ _ _ _ _ _ Hr).
Qed.

Lemma incoming_call_runs c call posts post :
  sound call → sending c posts →
  runs (validate_incoming_call call) c
    (λ _ c', c' = c ∧ Message.kind call = MessageKind.MethodCall) (λ _ c', not_sent post c posts c').
Proof.
  intros Hcall Hs. destruct (sound_call call Hcall) as (sender&Esender&_).
  unfold runs, validate_incoming_call. rewrite run_get.
  eapply (check_runs _ (λ _, Message.kind call = MessageKind.MethodCall)); [done| |].
  { eapply returns_impl; [apply ensure_returns|]. intros ? Hk. by apply bool_decide_eq_true in Hk. }
  intros Hk. unfold runs. destruct (decide _); [|done].
  rewrite (run_ok _ _ c c sender) by (unfold lift; by rewrite Esender).
  unfold lift, ensure. destruct (negb _); [done|by apply not_sent_same].
Qed.

Definition return_message (sender : option (list byte)) (reply : Z) (s : Z) : Outgoing.t :=
  Outgoing.mk MessageKind.MethodReturn 0 s (Some reply) None None None None sender.

Definition error_reply (sender : option (list byte)) (reply : Z) (name : list byte) (s : Z) : Outgoing.t :=
  Outgoing.mk MessageKind.Error 0 s (Some reply) None None None (Some name) sender.

(** A reply is sent to the caller, if it waits for one. *)
Definition reply_post (call : Message.t) (outgoing : option (list byte) → Z → Z → Outgoing.t)
    (body : Body) (serial : Z) : option Post :=
  match Message.sender_str call with
  | Ok sender =>
      if Message.expects_reply call
      then Some (outgoing sender (Message.serial call) serial, body) else None
  | _ => None
  end.

Lemma reply_sends await call (body : Body) posts c :
  sending c posts → lawful body → sound call →
  let post := reply_post call return_message body (next_serial c) in
  runs (reply await call body) c
    (λ _ c', sent_by await post c posts c') (λ _ c', not_sent post c posts c').
Proof.
  intros Hs Hlaw Hcall post. destruct (sound_call call Hcall) as (sender&Esender&Hd&Hser).
  unfold reply. eapply (runs_step (validate_incoming_call call)); [exact (incoming_call_runs c call posts post Hcall Hs)| |by intros].
  intros ? ? [-> Hk]. unfold post, reply_post. rewrite Esender.
  destruct (Message.expects_reply call); [|by apply runs_ret]. cbn [negb].
  apply (post_unit await (return_message sender (Message.serial call)) body).
  { done. }
  eapply runs_mono; [apply post_runs; [exact Hs|exact Hlaw|]|by intros ? ? [_ ?]|done].
  intros s Hpos. split; [done|]. by apply outgoing_valid.
Qed.

Lemma reply_error_sends await str_body call name message posts c :
  sending c posts → lawful (str_body message) → sound call →
  let post := reply_post call (λ sender reply, error_reply sender reply name) (str_body message)
    (next_serial c) in
  runs (reply_error await str_body call name message) c
    (λ _ c', sent_by await post c posts c') (λ _ c', not_sent post c posts c').
Proof.
  intros Hs Hlaw Hcall post. destruct (sound_call call Hcall) as (sender&Esender&Hd&Hser).
  unfold reply_error. eapply (runs_step (validate_incoming_call call)); [exact (incoming_call_runs c call posts post Hcall Hs)| |by intros].
  intros ? ? [-> Hk]. eapply check_runs; [done|apply interface_returns|]. intros Hn.
  unfold post, reply_post. rewrite Esender.
  destruct (Message.expects_reply call); [|by apply runs_ret]. cbn [negb].
  apply (post_unit await (error_reply sender (Message.serial call) name) (str_body message)).
  { done. }
  eapply runs_mono; [apply post_runs; [exact Hs|exact Hlaw|]|by intros ? ? [_ ?]|done].
  intros s Hpos. split; [done|]. by apply outgoing_valid.
Qed.

Lemma flush_writer_runs (w : MessageWriter.t) encs :
  wrote w encs → Forall sendable encs →
  runs MessageWriter.flush w (λ _ w', wrote w' encs) (λ _ w', wrote w' encs).
Proof.
  intros Hw Hs. unfold runs at 1, MessageWriter.flush.
  destruct (MessageWriter.failed w) eqn:Hf; [exact Hw|].
  apply (runs_mono MessageWriter.finish_active w _ _ _ _ (finish_runs w encs Hw Hs)).
  - by intros ? w' (Hw'&_).
  - by intros ? w' (Hw'&_).
Qed.

(** Flushing sends nothing new. *)
Lemma flush_sends c posts :
  sending c posts →
  runs flush c (λ _ c', same_routing c c' ∧ sending c' posts) (λ _ c', same_routing c c' ∧ sending c' posts).
Proof.
  intros Hs. destruct (Hs) as (Hser&encs&Hencs&Hw). unfold runs, flush.
  destruct (is_usable c) eqn:Hu; [|rewrite (run_err _ _ _ _ _ (ensure_usable_err c Hu)); done].
  rewrite (run_ok _ _ _ _ _ (ensure_usable_ok c Hu)).
  assert (Hold : ∀ c', next_serial c' = next_serial c → wrote (writer c') encs → sending c' posts).
  { intros c' Hn Hw'. split; [by rewrite Hn|by exists encs]. }
  apply (runs_mono (on_writer MessageWriter.flush) c _ _ _ _
    (on_writer_runs _ c _ _ (flush_writer_runs _ _ Hw (valid_all_sendable _ _ Hencs)))).
  - intros ? c' (Hw'&Hsame&Hn). split; [done|by apply Hold].
  - intros ? c' (Hw'&Hsame&Hn). split; [done|by apply Hold].
Qed.

End sends.
