(* ===== verification/RoutingRun.v ===== *)
(** * A connection in use

    Runs of a connection under every operation of its callers: nothing panics
    and the routing limits hold, each message of the peer is delivered once, and
    what is sent arrives at the peer. *)

From Stdlib Require Import Strings.String Strings.Byte.
From S2P Require Import Prelude Bytes Names Wire WireSpec WireSafe Auth AuthSpec Reader.
From S2P Require Import ReaderSpec Routing RoutingInv RoutingSpec RoutingSend.

(** ** Operations *)

Section run.

Context `{Zvariant}.

(** How an error text becomes a body. *)
Variable str_body : list byte → Body.

Inductive Op :=
| Call (await : Connection.Await) (destination : option (list byte)) (path : list byte)
    (interface : option (list byte)) (member : list byte) (flags : MethodCallFlags.t) (body : Body)
| CallNoReply (await : Connection.Await) (destination : option (list byte)) (path : list byte)
    (interface : option (list byte)) (member : list byte) (flags : MethodCallFlags.t) (body : Body)
| Reply (await : Connection.Await) (call : Message.t) (body : Body)
| ReplyError (await : Connection.Await) (call : Message.t) (error_name message : list byte)
| EmitSignal (await : Connection.Await) (destination : option (list byte))
    (path interface member : list byte) (body : Body)
| Flush
| Receive
| NextMatching (predicate : Message.t → bool)
| WaitMessage (reply : PendingReply.t)
| Abandon (reply : PendingReply.t).

(** The connection with the tokens of the calls whose replies are not abandoned. *)
Record Caller := { connection : Connection.t; tokens : gset Z }.

Definition Answer : Type := Result (option Message.t).

(** An operation without a message. *)
Definition quietly {A} (m : Run Connection.t BusError.t A) : Run Connection.t BusError.t (option Message.t) :=
  m;; mret None.

Definition loudly (m : Run Connection.t BusError.t Message.t) : Run Connection.t BusError.t (option Message.t) :=
  message ← m; mret (Some message).

Definition on_connection (m : Run Connection.t BusError.t (option Message.t)) (self : Caller)
    : Caller * Answer :=
  let '(c, r) := m (connection self) in (Build_Caller c (tokens self), r).

Definition exec (op : Op) (self : Caller) : Caller * Answer :=
  match op with
  | Call await destination path interface member flags body =>
      match Connection.send_call_with_flags await destination path interface member flags body
              (connection self) with
      | (c, Ok serial) =>
          (Build_Caller c (match await with Connection.Finished => {[ serial ]} ∪ tokens self | _ => tokens self end),
           Ok None)
      | (c, Err e) => (Build_Caller c (tokens self), Err e)
      | (c, Panic) => (Build_Caller c (tokens self), Panic)
      end
  | CallNoReply await destination path interface member flags body =>
      on_connection (quietly (Connection.send_no_reply_with_flags await destination path interface member flags body)) self
  | Reply await call body => on_connection (quietly (Connection.reply await call body)) self
  | ReplyError await call error_name message =>
      on_connection (quietly (Connection.reply_error await str_body call error_name message)) self
  | EmitSignal await (Some destination) path interface member body =>
      on_connection (quietly (Connection.emit_signal_to await destination path interface member body)) self
  | EmitSignal await None path interface member body =>
      on_connection (quietly (Connection.emit_signal await path interface member body)) self
  | Flush => on_connection (quietly Connection.flush) self
  | Receive => on_connection (loudly Connection.receive) self
  | NextMatching predicate => on_connection (loudly (Connection.next_matching predicate)) self
  | WaitMessage reply => on_connection (loudly (Connection.wait_message reply)) self
  | Abandon reply =>
      let '(c, r) := quietly (Connection.abandon_reply reply) (connection self) in
      (Build_Caller c (tokens self ∖ {[ reply ]}), r)
  end.

(** Only a caller that holds a token can use it; abandoning consumes it. *)
Definition enabled (op : Op) (self : Caller) : Prop :=
  match op with WaitMessage reply | Abandon reply => reply ∈ tokens self | _ => True end.

(** What the types promise: texts are UTF-8, flags are bytes, bodies obey the
    library and messages come from the decoder. *)
Definition typed_op (op : Op) : Prop :=
  match op with
  | Call _ _ path _ _ flags body | CallNoReply _ _ path _ _ flags body =>
      is_utf8 path = true ∧ 0 <= flags < 256 ∧ lawful body
  | Reply _ call body => sound call ∧ lawful body
  | ReplyError _ call _ message => sound call ∧ lawful (str_body message)
  | EmitSignal _ _ path _ _ body => is_utf8 path = true ∧ lawful body
  | _ => True
  end.

Inductive runs_to : Caller → list Op → list Answer → Caller → Prop :=
| runs_nil self : runs_to self [] [] self
| runs_cons self op self1 r ops rs self' :
    enabled op self → exec op self = (self1, r) → runs_to self1 ops rs self' →
    runs_to self (op :: ops) (r :: rs) self'.

(** ** What an operation sends *)

Definition op_post (op : Op) (serial : Z) : option Post :=
  match op with
  | Call _ destination path interface member flags body =>
      Some (call_message destination path interface member flags serial, body)
  | CallNoReply _ destination path interface member flags body =>
      Some (call_message destination path interface member (no_reply flags) serial, body)
  | Reply _ call body => reply_post call return_message body serial
  | ReplyError _ call error_name message =>
      reply_post call (λ sender reply, error_reply sender reply error_name) (str_body message) serial
  | EmitSignal _ destination path interface member body =>
      Some (signal_message destination path interface member serial, body)
  | _ => None
  end.

Definition op_await (op : Op) : Connection.Await :=
  match op with
  | Call await _ _ _ _ _ _ | CallNoReply await _ _ _ _ _ _ | Reply await _ _
  | ReplyError await _ _ _ | EmitSignal await _ _ _ _ _ => await
  | _ => Connection.Finished
  end.

(** One operation adds at most its own message, and adds it when it was driven
    to its end and succeeded. *)
Inductive contributes (op : Op) (r : Answer) : list Post → Prop :=
| contributes_post serial post : op_post op serial = Some post → contributes op r [post]
| contributes_nothing :
    (op_await op = Connection.Finished → r = Ok None → ∀ serial, op_post op serial = None) →
    contributes op r [].

(** ** What an operation does to the mailbox *)

Definition wants (op : Op) : option (Message.t → bool) :=
  match op with
  | Receive => Some any
  | NextMatching predicate => Some predicate
  | WaitMessage reply => Some (PendingReply.matches reply)
  | _ => None
  end.

Inductive mailbox_step (a : Mailbox) (op : Op) : Answer → Mailbox → Prop :=
| step_delivers p m b : wants op = Some p → takes a p m b → mailbox_step a op (Ok (Some m)) b
| step_loses p m b e :
    e = BusError.PendingQueueFull Connection.MAX_PENDING_MESSAGES ∨
    e = BusError.PendingBytesFull Connection.MAX_PENDING_BYTES →
    wants op = Some p → loses a p m b → mailbox_step a op (Err e) b
| step_ends p b e : wants op = Some p → lacks a p b → mailbox_step a op (Err e) b
| step_abandons s dropped b :
    op = Abandon s → s ∉ a.2 → drops (a.1, {[ s ]} ∪ a.2) dropped b → mailbox_step a op (Ok None) b
| step_fails e : mailbox_step a op (Err e) a
| step_sends : wants op = None → (∀ s, op ≠ Abandon s) → mailbox_step a op (Ok None) a.

Inductive mailbox_run : Mailbox → list Op → list Answer → Mailbox → Prop :=
| mailbox_nil a : mailbox_run a [] [] a
| mailbox_cons a op r b ops rs c :
    mailbox_step a op r b → mailbox_run b ops rs c → mailbox_run a (op :: ops) (r :: rs) c.

(** ** The invariant of a run *)

(** Tokens and abandoned serials belong to messages that were sent, and a token
    in somebody's hand is not abandoned. *)
Record in_use (self : Caller) (posts : list Post) : Prop := {
  in_use_routed : routed (connection self);
  in_use_sending : sending (connection self) posts;
  in_use_tokens : ∀ s, s ∈ tokens self ∪ Connection.abandoned_replies (connection self) →
    s ∈ (λ post, Outgoing.serial post.1) <$> posts;
  in_use_apart : tokens self ## Connection.abandoned_replies (connection self);
}.

Lemma quietly_runs {A} (m : Run Connection.t BusError.t A) c (Q : A → _ → Prop) (X : _ → _ → Prop) Q' :
  runs m c Q X → (∀ a c', Q a c' → Q' c') → runs (quietly m) c (λ r c', r = None ∧ Q' c') X.
Proof.
  intros Hm HQ. eapply (runs_step m); [exact Hm| |auto]. intros a c' Ha. apply runs_ret. eauto.
Qed.

Lemma loudly_runs (m : Run Connection.t BusError.t Message.t) c (Q : Message.t → _ → Prop) (X : _ → _ → Prop) :
  runs m c Q X → runs (loudly m) c (λ r c', ∃ msg, r = Some msg ∧ Q msg c') X.
Proof.
  intros Hm. eapply (runs_step m); [exact Hm| |auto]. intros a c' Ha. apply runs_ret. eauto.
Qed.

(** Sending leaves everything else alone. *)
Lemma in_use_sent self c posts more :
  in_use self posts → same_routing (connection self) c → sending c (posts ++ more) →
  in_use (Build_Caller c (tokens self)) (posts ++ more) ∧ box c = box (connection self).
Proof.
  intros [Hr Hs Ht Ha] Hsame Hsend. destruct (same_routed _ _ Hsame Hr) as [Hr' Hbox].
  destruct Hsame as (_&_&_&E&_). split; [|done].
  split; cbn [connection tokens]; [done|done| |by rewrite E].
  intros s Hin. rewrite E in Hin. rewrite fmap_app. apply elem_of_app. left. by apply Ht.
Qed.

(** Receiving leaves what was sent alone. *)
Lemma in_use_received self c posts :
  in_use self posts → keeps_sending (connection self) c → routed c →
  Connection.abandoned_replies c ⊆ Connection.abandoned_replies (connection self) →
  in_use (Build_Caller c (tokens self)) posts.
Proof.
  intros [Hr Hs Ht Ha] (Ew&En&_) Hr' Hsub. split; cbn [connection tokens]; [done| | |].
  - destruct Hs as (Hser&encs&Hencs&Hw). split; [by rewrite En|]. exists encs. by rewrite Ew.
  - intros s Hin. apply Ht. set_solver.
  - set_solver.
Qed.


Lemma op_post_none op s s' : op_post op s = None → op_post op s' = None.
Proof. destruct op; try done; cbn [op_post]; unfold reply_post; repeat case_match; done. Qed.

Definition step_ok (op : Op) (self : Caller) (posts : list Post) (self' : Caller) (r : Answer) : Prop :=
  r ≠ Panic ∧ ∃ more, contributes op r more ∧ in_use self' (posts ++ more) ∧
  mailbox_step (box (connection self)) op r (box (connection self')).

(** An operation that sends. *)
Lemma send_step op self posts (m : Run Connection.t BusError.t (option Message.t)) :
  in_use self posts → wants op = None → (∀ s, op ≠ Abandon s) →
  runs m (connection self)
    (λ r c', r = None ∧
       sent_by (op_await op) (op_post op (Connection.next_serial (connection self))) (connection self) posts c')
    (λ _ c', not_sent (op_post op (Connection.next_serial (connection self))) (connection self) posts c') →
  let '(self', r) := on_connection m self in step_ok op self posts self' r.
Proof.
  intros Hin Hw Ha Hm. unfold runs, on_connection in *. destruct (m (connection self)) as [c [r|e|]]; [| |done].
  - destruct Hm as [-> [Hsame Hpost]]. split; [done|].
    assert (∃ more, contributes op (Ok None) more ∧ sending c (posts ++ more)) as (more&Hmore&Hsend).
    { destruct (op_post op _) as [post|] eqn:E.
      - destruct Hpost as [Hpost|[Hne Hpost]]; [exists [post]; split; [by eapply contributes_post|done]|].
        exists []. rewrite app_nil_r. split; [by apply contributes_nothing|done].
      - exists []. rewrite app_nil_r. split; [|done]. apply contributes_nothing.
        intros _ _ s. by eapply op_post_none. }
    exists more. split; [done|]. destruct (in_use_sent self c posts more Hin Hsame Hsend) as [Hin' Hbox].
    split; [done|]. cbn [connection]. rewrite Hbox. by apply step_sends.
  - destruct Hm as [Hsame Hpost]. split; [done|].
    assert (∃ more, contributes op (Err e) more ∧ sending c (posts ++ more)) as (more&Hmore&Hsend).
    { destruct Hpost as [Hpost|(post&E&Hpost)].
      - exists []. rewrite app_nil_r. split; [by apply contributes_nothing|done].
      - exists [post]. split; [by eapply contributes_post|done]. }
    exists more. split; [done|]. destruct (in_use_sent self c posts more Hin Hsame Hsend) as [Hin' Hbox].
    split; [done|]. cbn [connection]. rewrite Hbox. apply step_fails.
Qed.

(** An operation that receives. *)
Lemma receive_step op p self posts (m : Run Connection.t BusError.t Message.t) :
  in_use self posts → wants op = Some p → op_post op = (λ _, None) →
  runs m (connection self) (found (connection self) p)
    (λ e c', not_found (connection self) p e c' ∨
       Connection.is_usable (connection self) = false ∧ c' = connection self ∧ e = BusError.ConnectionUnusable) →
  let '(self', r) := on_connection (loudly m) self in step_ok op self posts self' r.
Proof.
  intros Hin Hw Hpost Hm. pose proof (loudly_runs _ _ _ _ Hm) as Hl. unfold runs, on_connection in *.
  destruct (loudly m (connection self)) as [c [r|e|]]; [| |done].
  - destruct Hl as (msg&->&Hc&Hk&_&Ht). split; [done|]. exists []. rewrite app_nil_r.
    split; [by apply contributes_nothing|]. split; [|by eapply step_delivers].
    apply in_use_received; [done..|]. destruct Ht as (ds&l&r&s&Hd&_&_&_&Eb).
    apply drops_serials in Hd. injection Eb as _ ->. exact Hd.
  - split; [done|]. exists []. rewrite app_nil_r. split; [by apply contributes_nothing|].
    destruct Hl as [(Hc&Hk&_&Hg)|(_&->&->)].
    + destruct Hg as [msg Hl _|msg Hl _|e _ Hl]; cbn [connection].
      * split; [|eapply step_loses; eauto]. apply in_use_received; [done..|].
        destruct Hl as (ds&l&r&s&Hd&_&_&_&Eb). apply drops_serials in Hd. injection Eb as _ ->. exact Hd.
      * split; [|eapply step_loses; eauto]. apply in_use_received; [done..|].
        destruct Hl as (ds&l&r&s&Hd&_&_&_&Eb). apply drops_serials in Hd. injection Eb as _ ->. exact Hd.
      * split; [|by eapply step_ends]. apply in_use_received; [done..|].
        destruct Hl as (ds&Hd&_). by apply drops_serials in Hd.
    + split; [|apply step_fails]. by destruct self.
Qed.

(** The serial of the message sent last is not one of the earlier. *)
Lemma fresh_serial next l s : serials next (l ++ [s]) → s ∉ l.
Proof.
  intros (_&Hsort&_) Hin. apply StronglySorted_app in Hsort as (Hlt&_&_).
  specialize (Hlt s s Hin ltac:(set_solver)). lia.
Qed.

Lemma call_step await destination path interface member flags body self posts :
  in_use self posts → is_utf8 path = true → 0 <= flags < 256 → lawful body →
  let op := Call await destination path interface member flags body in
  let '(self', r) := exec op self in step_ok op self posts self' r.
Proof.
  intros Hin Hp Hf Hl op. cbn [exec op].
  pose proof (send_call_sends await destination path interface member flags body posts _
    (in_use_sending _ _ Hin) Hl Hf Hp) as Hm. cbv zeta in Hm.
  set (post := (call_message destination path interface member flags
    (Connection.next_serial (connection self)), body)) in *.
  assert (Hpost : ∀ r, contributes op r [post]) by (intros r; by eapply contributes_post).
  unfold runs in Hm. destruct (Connection.send_call_with_flags _ _ _ _ _ _ _ _) as [c [s|e|]]; [| |done].
  - destruct Hm as (Es&Hsame&Hsend). split; [done|].
    destruct (decide (await = Connection.Finished)) as [->|Hne].
    + destruct Hsend as [Hsend|[? _]]; [|done]. exists [post]. split; [apply Hpost|].
      destruct (in_use_sent self c posts [post] Hin Hsame Hsend) as [Hin' Hbox].
      assert (Hfresh : s ∉ (λ post, Outgoing.serial post.1) <$> posts).
      { destruct Hsend as [Hser _]. rewrite fmap_app in Hser. apply fresh_serial in Hser.
        by rewrite Es. }
      split; [|cbn [connection]; rewrite Hbox; by apply step_sends].
      destruct Hin' as [Hr' Hs' Ht' Ha']. cbn [connection tokens] in *.
      split; cbn [connection tokens]; [done|done| |].
      * intros x Hx. destruct (decide (x = s)) as [->|]; [|apply Ht'; set_solver].
        rewrite fmap_app. apply elem_of_app. right. rewrite Es. cbn. by apply list_elem_of_singleton.
      * assert (s ∉ Connection.abandoned_replies c); [|set_solver]. intros Hx. apply Hfresh.
        destruct Hsame as (_&_&_&E&_). rewrite E in Hx. apply (in_use_tokens _ _ Hin). set_solver.
    + assert (∃ more, contributes op (Ok None) more ∧ sending c (posts ++ more)) as (more&Hmore&Hsend').
      { destruct Hsend as [Hsend|[_ Hsend]]; [by exists [post]|]. exists []. rewrite app_nil_r.
        split; [by apply contributes_nothing|done]. }
      destruct (in_use_sent self c posts more Hin Hsame Hsend') as [Hin' Hbox].
      exists more. split; [done|]. split; [by destruct await|]. cbn [connection]. rewrite Hbox. by apply step_sends.
  - destruct Hm as [Hsame Hsend]. split; [done|].
    assert (∃ more, contributes op (Err e) more ∧ sending c (posts ++ more)) as (more&Hmore&Hsend').
    { destruct Hsend as [Hsend|(x&[= <-]&Hsend)].
      - exists []. rewrite app_nil_r. split; [by apply contributes_nothing|done].
      - by exists [post]. }
    destruct (in_use_sent self c posts more Hin Hsame Hsend') as [Hin' Hbox].
    exists more. split; [done|]. split; [done|]. cbn [connection]. rewrite Hbox. apply step_fails.
Qed.

Lemma abandon_step s self posts :
  in_use self posts → s ∈ tokens self →
  let '(self', r) := exec (Abandon s) self in step_ok (Abandon s) self posts self' r.
Proof.
  intros Hin Hs. cbn [exec]. destruct (Hin) as [Hr Hse Ht Ha].
  assert (Hdead : s ∉ Connection.abandoned_replies (connection self)) by set_solver.
  pose proof (abandon_runs (connection self) s Hr Hdead) as Hm.
  assert (Hin' : ∀ c, routed c → keeps_sending (connection self) c →
    Connection.abandoned_replies c ⊆ {[ s ]} ∪ Connection.abandoned_replies (connection self) →
    in_use (Build_Caller c (tokens self ∖ {[ s ]})) posts).
  { intros c Hr' (Ew&En&_) Hsub. split; cbn [connection tokens]; [done| | |set_solver].
    - destruct Hse as (Hser&encs&Hencs&Hw). split; [by rewrite En|]. exists encs. by rewrite Ew.
    - intros x Hx. apply Ht. set_solver. }
  unfold quietly, mbind, run_bind, runs in *.
  destruct (Connection.abandon_reply s (connection self)) as [c [[]|e|]]; [| |done].
  - destruct Hm as (Hr'&Hk&ds&Hd). split; [done|]. exists []. rewrite app_nil_r.
    split; [by apply contributes_nothing|]. split; [|by eapply step_abandons].
    apply Hin'; [done|done|]. by apply drops_serials in Hd.
  - destruct Hm as (Hr'&Hk&_&Hbox). split; [done|]. exists []. rewrite app_nil_r.
    split; [by apply contributes_nothing|]. cbn [connection]. rewrite Hbox. split; [|apply step_fails].
    apply Hin'; [done|done|]. injection Hbox as _ ->. set_solver.
Qed.

Lemma exec_ok op self posts :
  in_use self posts → typed_op op → enabled op self →
  let '(self', r) := exec op self in step_ok op self posts self' r.
Proof.
  intros Hin Ht He. pose proof (in_use_routed _ _ Hin) as Hc. pose proof (in_use_sending _ _ Hin) as Hs.
  destruct op as [await destination path interface member flags body
    |await destination path interface member flags body|await call body|await call name message
    |await [destination|] path interface member body| | |p|s|s]; cbn [typed_op enabled] in Ht, He.
  - destruct Ht as (Hp&Hf&Hl). by apply call_step.
  - destruct Ht as (Hp&Hf&Hl). eapply send_step; [done..|].
    eapply quietly_runs; [by apply send_no_reply_sends|done].
  - destruct Ht as (Hm&Hl). eapply send_step; [done..|].
    eapply quietly_runs; [by apply reply_sends|done].
  - destruct Ht as (Hm&Hl). eapply send_step; [done..|].
    eapply quietly_runs; [by apply reply_error_sends|done].
  - destruct Ht as (Hp&Hl). eapply send_step; [done..|].
    eapply quietly_runs; [|intros ? ? HQ; exact HQ]. unfold Connection.emit_signal_to.
    eapply check_runs; [done|apply bus_name_returns|]. intros Hd. by apply emit_sends.
  - destruct Ht as (Hp&Hl). eapply send_step; [done..|].
    eapply quietly_runs; [by apply emit_sends|done].
  - eapply send_step; [done..|]. eapply quietly_runs.
    + eapply runs_mono; [by apply flush_sends|..].
      * intros ? c' Hq. exact Hq.
      * intros ? c' [? ?]. split; [done|by left].
    + done.
  - eapply receive_step; [done..|]. by apply receive_runs.
  - eapply receive_step; [done..|]. by apply next_matching_runs.
  - eapply receive_step; [done..|]. by apply next_matching_runs.
  - by apply abandon_step.
Qed.


Lemma run_ok_all self ops rs self' posts :
  in_use self posts → Forall typed_op ops → runs_to self ops rs self' →
  Forall (λ r, r ≠ Panic) rs ∧
  ∃ contributions, Forall3 contributes ops rs contributions ∧
    in_use self' (posts ++ mjoin contributions) ∧
    mailbox_run (box (connection self)) ops rs (box (connection self')).
Proof.
  intros Hin Ht Hrun. revert posts Hin. induction Hrun as [self|self op self1 r ops rs self' He Ex Hrun IH]; intros posts Hin.
  - split; [constructor|]. exists []. split; [constructor|]. csimpl. rewrite app_nil_r.
    split; [done|constructor].
  - apply Forall_cons in Ht as [Hop Hops]. pose proof (exec_ok op self posts Hin Hop He) as Hstep.
    rewrite Ex in Hstep. destruct Hstep as (Hr&more&Hmore&Hin1&Hbox).
    destruct (IH Hops _ Hin1) as (Hrs&contributions&Hcs&Hin'&Hboxes).
    split; [by constructor|]. exists (more :: contributions). split; [by constructor|]. csimpl.
    rewrite app_assoc. split; [done|by econstructor].
Qed.

(** A connection after its handshake: the handshake left at most one fixed
    header behind and the socket has taken no message yet. *)
Definition started c : Prop :=
  ∃ stream sink mode credentials auth,
    c = Connection.from_authenticated stream sink mode credentials auth ∧
    len (Authenticated.buffered auth) <= 16 ∧ Sink.sent sink = [].

Definition start c : Caller := Build_Caller c ∅.

Lemma started_in_use c : started c → in_use (start c) [].
Proof.
  intros (stream&sink&mode&credentials&[unix_fd guid buffered fds]&->&Hb&Hs).
  split; cbn [start connection tokens Connection.from_authenticated].
  - split; try done; by vm_compute.
  - split; [split_and!; [by vm_compute|constructor..]|]. exists []. split; [constructor|].
    eassert (wrote _ ([] ++ option_list None)) as Hw; [|exact Hw].
    by apply (wrote_all (MessageWriter.new sink unix_fd) [] []); [|constructor|].
  - set_solver.
  - set_solver.
Qed.

(** The server's handshake leaves nothing behind, so accepting a peer starts a
    connection. *)
Lemma accepted_started stream sink guid credentials c :
  Connection.accept_peer_with_credentials stream sink guid credentials = Ok c →
  Sink.sent sink = [] → started c.
Proof.
  unfold Connection.accept_peer_with_credentials.
  destruct (authenticate_server guid _ (server_start stream)) as [s [auth|e|]] eqn:E; [|done..].
  intros [= <-] Hs. exists (Handshake.socket s), sink, ConnectionMode.Peer, (Some credentials), auth.
  split; [done|]. split; [|done].
  revert E. unfold authenticate_server. generalize MAX_AUTH_COMMANDS. intros n E.
  destruct (server_loop_inv guid (PeerCredentials.user_id credentials) n _ _ _ (server_start stream) _ _
    (conj eq_refl eq_refl) (λ _, eq_refl) E) as (_&Hb&_). rewrite Hb. unfold len. simpl. lia.
Qed.

(** *** Mail is conserved *)

(** The messages that the callers got. *)
Definition delivered (rs : list Answer) : list Message.t :=
  omap (λ r, match r with Ok m => m | _ => None end) rs.

(** The serials whose replies were given up. *)
Definition abandoned (ops : list Op) (rs : list Answer) : list Z :=
  omap (λ '(op, r), match op, r with Abandon s, Ok _ => Some s | _, _ => None end) (zip ops rs).

Definition is_overflow (r : Answer) : bool :=
  match r with
  | Err (BusError.PendingQueueFull _) | Err (BusError.PendingBytesFull _) => true
  | _ => false
  end.

(** How often the queue was full. *)
Definition overflows (rs : list Answer) : nat := length (filter (λ r, is_overflow r = true) rs).

Lemma drops_conserve a ds b :
  drops a ds b →
  a.1 ≡ₚ ds ++ b.1 ∧ b.1 `sublist_of` a.1 ∧
  ∃ ss, Message.reply_serial <$> ds = Some <$> ss ∧ elements a.2 ≡ₚ ss ++ elements b.2.
Proof.
  induction 1 as [box|l m r serials s ds box Es Hs Hd (Hp&Hsub&ss&Hss&He)]; cbn [fst snd] in *.
  { split; [done|]. split; [done|]. by exists []. }
  split; [|split].
  - cbn [app]. rewrite <- Permutation_middle. by constructor.
  - etransitivity; [exact Hsub|]. apply sublist_app; [done|by apply sublist_cons].
  - exists (s :: ss). split; [csimpl; by rewrite Es, Hss|]. cbn [app]. rewrite <- He.
    rewrite <- elements_union_singleton by set_solver. f_equiv.
    by rewrite <- union_difference_singleton_L.
Qed.

Lemma conserve_shuffle {A} (d ds l D DS L c : list A) :
  d ++ ds ++ l ++ D ++ DS ++ L ++ c ≡ₚ (d ++ D) ++ (ds ++ DS) ++ (l ++ L) ++ c.
Proof.
  rewrite <- !app_assoc. apply Permutation_app_head.
  rewrite (Permutation_app_swap_app l D), (Permutation_app_swap_app ds D). apply Permutation_app_head.
  apply Permutation_app_head. apply Permutation_app_swap_app.
Qed.

(** What one step, or a run, does to the mail. *)
Definition conserved (a : Mailbox) (ops : list Op) (rs : list Answer) (b : Mailbox) : Prop :=
  ∃ dropped lost ss,
    a.1 ≡ₚ delivered rs ++ dropped ++ lost ++ b.1 ∧ b.1 `sublist_of` a.1 ∧
    Message.reply_serial <$> dropped = Some <$> ss ∧
    elements a.2 ++ abandoned ops rs ≡ₚ ss ++ elements b.2 ∧
    (length lost <= overflows rs)%nat.

Lemma step_conserves a op r b : mailbox_step a op r b → conserved a [op] [r] b.
Proof.
  intros Hstep. destruct Hstep as [p m b Hw Ht|p m b e He Hw Hl|p b e Hw Hl|s ds b -> Hs Hd|e|Hw Ha].
  - destruct Ht as (ds&l&r&serials&Hd&_&_&_&->).
    destruct (drops_conserve _ _ _ Hd) as (Hp&Hsub&ss&Hss&He). cbn [fst snd] in *.
    exists ds, [], ss. split_and!; [| |done| |simpl; lia].
    + csimpl. rewrite Hp, <- Permutation_middle, <- Permutation_middle. done.
    + etransitivity; [|exact Hsub]. apply sublist_app; [done|by apply sublist_cons].
    + unfold abandoned. simpl. destruct op; simpl; rewrite ?app_nil_r; done.
  - destruct Hl as (ds&l&r&serials&Hd&_&_&_&->).
    destruct (drops_conserve _ _ _ Hd) as (Hp&Hsub&ss&Hss&He'). cbn [fst snd] in *.
    exists ds, [m], ss. split_and!; [| |done| |].
    + csimpl. rewrite Hp, <- Permutation_middle. done.
    + etransitivity; [|exact Hsub]. apply sublist_app; [done|by apply sublist_cons].
    + unfold abandoned. simpl. destruct op; simpl; rewrite ?app_nil_r; done.
    + by destruct He as [-> | ->].
  - destruct Hl as (ds&Hd&_). destruct (drops_conserve _ _ _ Hd) as (Hp&Hsub&ss&Hss&He').
    exists ds, [], ss. split_and!; [done|done|done| |simpl; lia].
    unfold abandoned. simpl. destruct op; simpl; rewrite ?app_nil_r; done.
  - destruct (drops_conserve _ _ _ Hd) as (Hp&Hsub&ss&Hss&He'). cbn [fst snd] in *.
    exists ds, [], ss. split_and!; [done|done|done| |simpl; lia].
    rewrite <- He'. rewrite elements_union_singleton by done. unfold abandoned. simpl.
    symmetry. apply Permutation_cons_append.
  - exists [], [], []. split_and!; [done|done|done| |simpl; lia].
    unfold abandoned. simpl. destruct op; simpl; rewrite ?app_nil_r; done.
  - exists [], [], []. split_and!; [done|done|done| |simpl; lia].
    unfold abandoned. simpl. destruct op; simpl; rewrite ?app_nil_r; try done. by destruct (Ha reply).
Qed.

Lemma mailbox_conserves a ops rs b : mailbox_run a ops rs b → conserved a ops rs b.
Proof.
  induction 1 as [a|a op r b ops rs c Hstep Hrun (D&L&SS&Hp&Hsub&Hss&He&Hl)].
  { exists [], [], []. split_and!; try done. by rewrite app_nil_r. }
  destruct (step_conserves _ _ _ _ Hstep) as (D1&L1&SS1&Hp1&Hsub1&Hss1&He1&Hl1).
  exists (D1 ++ D), (L1 ++ L), (SS1 ++ SS).
  change (op :: ops) with ([op] ++ ops). change (r :: rs) with ([r] ++ rs).
  unfold delivered, abandoned, overflows in *.
  split_and!.
  - rewrite Hp1, Hp, omap_app. apply conserve_shuffle.
  - by etransitivity.
  - by rewrite !fmap_app, Hss1, Hss.
  - rewrite zip_with_app by done. rewrite omap_app, app_assoc, He1, <- app_assoc, He. by rewrite app_assoc.
  - rewrite filter_app, !length_app. lia.
Qed.


(** *** Executing a run *)

Fixpoint run (self : Caller) (ops : list Op) : Caller * list Answer :=
  match ops with
  | [] => (self, [])
  | op :: ops => let '(self, r) := exec op self in let '(self, rs) := run self ops in (self, r :: rs)
  end.

#[global] Instance enabled_dec op self : Decision (enabled op self).
Proof. destruct op; cbn [enabled]; unfold PendingReply.t in *; apply _. Defined.

Fixpoint all_enabled (self : Caller) (ops : list Op) : bool :=
  match ops with
  | [] => true
  | op :: ops => bool_decide (enabled op self) && all_enabled (exec op self).1 ops
  end.

Lemma run_runs_to self ops :
  all_enabled self ops = true → runs_to self ops (run self ops).2 (run self ops).1.
Proof.
  revert self. induction ops as [|op ops IH]; intros self; cbn [run all_enabled]; [constructor|].
  intros [He Hops]%andb_prop. apply bool_decide_eq_true in He.
  destruct (exec op self) as [self1 r] eqn:E. apply IH in Hops. cbn [fst] in Hops.
  destruct (run self1 ops) as [self' rs]. by econstructor.
Qed.

End run.

(** C22: a connection never panics and keeps its routing state within bounds.
    The handshake must have left at most one fixed header, sixteen bytes, behind
    it: the server's leaves none, and after a client's that left more the first
    read panics. Then, whatever the peer sends, however the socket behaves and
    whichever operations the callers run and drop, every operation returns; at most
    256 messages and 32 MiB are queued, the byte count is exact and never
    underflows, at most 256 replies are abandoned, and no caller holds the token
    of a reply that is. *)
Theorem connection_safe `{Zvariant} str_body c ops rs self :
  started c → Forall (typed_op str_body) ops → runs_to str_body (start c) ops rs self →
  Forall (λ r, r ≠ Panic) rs ∧ routed (connection self) ∧
  tokens self ## Connection.abandoned_replies (connection self).
Proof.
  intros Hc Ht Hrun. destruct (run_ok_all str_body _ _ _ _ [] (started_in_use str_body c Hc) Ht Hrun)
    as (Hrs&cs&_&Hin&_). split; [done|]. split; apply Hin.
Qed.

(** C19: every message of the peer reaches one caller. Over any run the
    messages that the socket holds are, up to order, those that were delivered,
    those that answered an abandoned call, those that the full queue refused (at
    most one for each such error) and those that still wait, which are in the
    order in which they came; each abandoned serial drops at most one reply; and
    step by step the connection is a mailbox: a receiver gets the earliest
    message that fits and that somebody waits for, and fails at the end of the
    stream only when there is none. *)
Theorem mail_delivered_once `{Zvariant} str_body c ops rs self :
  started c → Forall (typed_op str_body) ops → runs_to str_body (start c) ops rs self →
  let waiting :=
    Connection.pending (connection self) ++ arrivals (Connection.reader (connection self)) in
  mailbox_run (arrivals (Connection.reader c), ∅) ops rs
    (waiting, Connection.abandoned_replies (connection self)) ∧
  ∃ dropped lost ss,
    arrivals (Connection.reader c) ≡ₚ delivered rs ++ dropped ++ lost ++ waiting ∧
    waiting `sublist_of` arrivals (Connection.reader c) ∧
    Message.reply_serial <$> dropped = Some <$> ss ∧
    abandoned ops rs ≡ₚ ss ++ elements (Connection.abandoned_replies (connection self)) ∧
    (length lost <= overflows rs)%nat.
Proof.
  intros Hc Ht Hrun waiting. destruct (run_ok_all str_body _ _ _ _ [] (started_in_use str_body c Hc) Ht Hrun)
    as (_&cs&_&_&Hbox).
  assert (Hb : box (connection (start c)) = (arrivals (Connection.reader c), ∅)).
  { by destruct Hc as (stream&sink&mode&credentials&[]&->&_). }
  rewrite Hb in Hbox. split; [exact Hbox|].
  destruct (mailbox_conserves _ _ _ _ Hbox) as (dropped&lost&ss&Hp&Hsub&Hss&He&Hl).
  cbn [fst snd] in *. rewrite elements_empty in He. by exists dropped, lost, ss.
Qed.

(** C20: what callers send leaves the connection whole, once and in order. Over
    any run each operation hands over at most its own message, and does so when
    it was driven to its end and succeeded; the messages have the serials of
    their calls, distinct, increasing and never zero, and are such that the
    peer's decoder accepts them; on the socket they follow each other whole with
    their own descriptors, except for a last one that waits to be written or in
    the middle of which the socket failed. *)
Theorem mail_sent_whole `{Zvariant} str_body c ops rs self :
  started c → Forall (typed_op str_body) ops → runs_to str_body (start c) ops rs self →
  ∃ contributions encs,
    Forall3 (contributes str_body) ops rs contributions ∧
    Forall2 valid_post (mjoin contributions) encs ∧
    wrote (Connection.writer (connection self)) encs ∧
    serials (Connection.next_serial (connection self))
      ((λ post, Outgoing.serial post.1) <$> mjoin contributions).
Proof.
  intros Hc Ht Hrun. destruct (run_ok_all str_body _ _ _ _ [] (started_in_use str_body c Hc) Ht Hrun)
    as (_&contributions&Hcs&Hin&_).
  destruct (in_use_sending _ _ Hin) as (Hser&encs&Hencs&Hw). by exists contributions, encs.
Qed.

(** ** A run on a concrete socket *)

Definition demo_str_body (message : list byte) : @Body demo_zvariant := demo_body.

(** Two signals arrive; the socket takes the first seven bytes of a write with
    descriptors, then the rest, and then fails. *)
Definition demo_connection : Connection.t (H := demo_zvariant) :=
  Connection.from_authenticated (Socket.mk ([demo_transmission; demo_transmission] ≫= segments) [] 0)
    (Sink.mk [] [(7, true); (0, true); (9, false)]) ConnectionMode.Peer None
    (Authenticated.mk true (replicate 16 "171"%byte) [] []).

Definition demo_call (await : Connection.Await) : Op (H := demo_zvariant) :=
  Call await (Some (text ":1.42")) (text "/org/tensor/Test") (Some (text "org.tensor.Test"))
    (text "Change") MethodCallFlags.default demo_body.

Definition demo_ops : list (Op (H := demo_zvariant)) :=
  [demo_call Connection.Finished; NextMatching any; Abandon 1; demo_call Connection.DroppedWriting;
   Flush; Receive].

Lemma demo_started : started demo_connection.
Proof. repeat eexists. discriminate. Qed.

Lemma demo_typed : Forall (typed_op demo_str_body) demo_ops.
Proof.
  assert (Hc : ∀ await, typed_op demo_str_body (demo_call await)).
  { intros await. split; [by vm_compute|]. split; [by vm_compute|exact demo_body_lawful]. }
  unfold demo_ops. repeat (apply Forall_cons; split; [first [apply Hc|done]|]). constructor.
Qed.

Lemma demo_enabled : all_enabled demo_str_body (start demo_connection) demo_ops = true.
Proof. vm_compute. reflexivity. Qed.

Lemma demo_run :
  runs_to demo_str_body (start demo_connection) demo_ops
    (run demo_str_body (start demo_connection) demo_ops).2
    (run demo_str_body (start demo_connection) demo_ops).1.
Proof. apply run_runs_to, demo_enabled. Qed.

Lemma connection_safe_witness :
  let '(self, rs) := run demo_str_body (start demo_connection) demo_ops in
  Forall (λ r, r ≠ Panic) rs ∧ routed (connection self) ∧
  tokens self ## Connection.abandoned_replies (connection self).
Proof.
  pose proof (connection_safe demo_str_body _ _ _ _ demo_started demo_typed demo_run) as H.
  destruct (run _ _ _) as [self rs]. exact H.
Defined.

Lemma mail_delivered_once_witness :
  let '(self, rs) := run demo_str_body (start demo_connection) demo_ops in
  mailbox_run (arrivals (Connection.reader demo_connection), ∅) demo_ops rs
    (Connection.pending (connection self) ++ arrivals (Connection.reader (connection self)),
     Connection.abandoned_replies (connection self)).
Proof.
  pose proof (mail_delivered_once demo_str_body _ _ _ _ demo_started demo_typed demo_run) as H.
  destruct (run _ _ _) as [self rs]. exact (proj1 H).
Defined.

Lemma mail_sent_whole_witness :
  let '(self, rs) := run demo_str_body (start demo_connection) demo_ops in
  ∃ contributions encs,
    Forall3 (contributes demo_str_body) demo_ops rs contributions ∧
    Forall2 valid_post (mjoin contributions) encs ∧
    wrote (Connection.writer (connection self)) encs.
Proof.
  pose proof (mail_sent_whole demo_str_body _ _ _ _ demo_started demo_typed demo_run) as H.
  destruct (run _ _ _) as [self rs]. destruct H as (contributions&encs&H1&H2&H3&_).
  exists contributions, encs. exact (conj H1 (conj H2 H3)).
Defined.

(** What happens in it: the call is written, a signal is read, the reply is
    given up, the write of the second call fails and the connection with it. *)
Example demo_answers :
  match (run demo_str_body (start demo_connection) demo_ops).2 with
  | [Ok None; Ok (Some _); Ok None; Ok None; Err BusError.Io; Err BusError.ConnectionUnusable] => true
  | _ => false
  end = true.
Proof. vm_compute. reflexivity. Qed.
