(* ===== verification/RoutingCall.v ===== *)
(** * A call is answered

    Two connections together: what a client calls, the server receives as it was
    sent, and the reply to it reaches the client's waiting future, behind any
    other messages that fit into the queue. *)

From Stdlib Require Import Strings.String Strings.Byte.
From S2P Require Import Prelude Bytes Names Wire WireSpec WireSafe Auth Reader ReaderSpec Routing.
From S2P Require Import RoutingInv RoutingSpec RoutingSend RoutingRun.

Section exchange.

Context `{Zvariant}.

Implicit Types c : Connection.t.
Implicit Types m : Message.t.

(** A reader that is connected to a socket which delivers [segs] and ends. *)
Definition reader_of (segs : list (Socket.Segment Fd)) : MessageReader.t :=
  MessageReader.new (Socket.mk segs [] 0) true [] [].

Lemma arrivals_transmitted sent stream :
  Forall transmitted sent → Socket.incoming stream = sent ≫= segments →
  Forall2 received sent (arrivals (MessageReader.new stream true [] [])).
Proof.
  intros Hs. revert stream. induction Hs as [|t sent Ht Hs IH]; intros stream Hi; csimpl in *.
  - destruct stream as [segs out w]. cbn [Socket.incoming] in Hi. subst segs.
    assert (E : ∃ r', MessageReader.read (MessageReader.new (Socket.mk [] out w) true [] []) = (r', Err BusError.Io))
      by (eexists; vm_compute; reflexivity).
    destruct E as [r' E]. rewrite (arrivals_end _ _ _ E). constructor.
  - destruct (read_transmitted t stream (sent ≫= segments) Ht) as (s1&m&E&Hi1&Hm);
      [by apply transmitted_nonempty|done|].
    rewrite (arrivals_next (MessageReader.new stream true [] []) (MessageReader.new s1 true [] []) m);
      [constructor; [done|by apply IH]| |exact E].
    split; [done|]. unfold len. simpl. lia.
Qed.

(** A message that a connection wrote, as it travels. *)
Lemma carried_transmitted post enc group :
  valid_post post enc → carries enc group →
  transmitted (Build_Transmission post.1 post.2 group).
Proof.
  intros (Ht&Hl&Ha&He) (Hn&Hb&Hf). split; [done|]. split; [done|]. split; [done|]. split; [done|].
  by exists enc.
Qed.

(** *** One live message among others *)

Lemma drops_keep a ds b m : drops a ds b → m ∈ a.1 → ¬ dead a.2 m → m ∈ b.1.
Proof.
  induction 1 as [box|l x r serials s ds box Es Hs Hd IH]; cbn [fst snd] in *; [done|].
  intros Hin Hlive. apply IH.
  - apply elem_of_app in Hin as [?|[->|?]%elem_of_cons]; [set_solver| |set_solver].
    destruct Hlive. by exists s.
  - intros (s'&E'&Hs'). apply Hlive. exists s'. set_solver.
Qed.

Lemma drops_sub a ds b : drops a ds b → b.1 `sublist_of` a.1.
Proof. by intros (_&?&_)%drops_conserve. Qed.

Lemma takes_only a p m m' b :
  takes a p m' b → (∀ x, x ∈ a.1 → p x = true → x = m) → m' = m.
Proof.
  intros (ds&l&r&serials&Hd&_&Hp&_&_) Hall. apply Hall; [|done].
  apply drops_sub, sublist_submseteq in Hd. eapply elem_of_submseteq; [|exact Hd]. set_solver.
Qed.

Lemma lacks_not a p m b : lacks a p b → m ∈ a.1 → ¬ dead a.2 m → p m = true → False.
Proof.
  intros (ds&Hd&Hall) Hin Hlive Hp. pose proof (drops_keep _ _ _ _ Hd Hin Hlive) as Hb.
  rewrite Forall_forall in Hall. destruct (Hall m Hb) as [? _]. congruence.
Qed.

(** What a lost message leaves. *)
Lemma loses_rest a p m b :
  loses a p m b → ∃ ds, a.1 ≡ₚ m :: ds ++ b.1.
Proof.
  intros (ds&l&r&serials&Hd&_&_&_&->). apply drops_conserve in Hd as (Hp&_&_). exists ds.
  cbn [fst] in *. rewrite Hp. rewrite <- Permutation_middle. symmetry. apply Permutation_middle.
Qed.

Lemma wire_sum_app (l k : list Message.t) :
  zsum (Message.wire_len <$> l ++ k) = zsum (Message.wire_len <$> l) + zsum (Message.wire_len <$> k).
Proof. by rewrite fmap_app, zsum_app. Qed.

Lemma wire_sum_cons m (l : list Message.t) :
  zsum (Message.wire_len <$> m :: l) = Message.wire_len m + zsum (Message.wire_len <$> l).
Proof. done. Qed.

(** A search finds the only live message that fits, unless the others are too
    many or too large for the queue. *)
Lemma search_finds c p m :
  routed c → Connection.is_usable c = true →
  m ∈ (box c).1 → p m = true → ¬ dead (box c).2 m → (∀ x, x ∈ (box c).1 → p x = true → x = m) →
  Z.of_nat (length (box c).1) <= Connection.MAX_PENDING_MESSAGES →
  zsum (Message.wire_len <$> (box c).1) <= Connection.MAX_PENDING_BYTES →
  ∃ c', Connection.next_matching p c = (c', Ok m) ∧ found c p m c'.
Proof.
  intros Hc Hu Hin Hp Hlive Honly Hcount Hsize. pose proof (next_matching_runs p c Hc) as Hn.
  unfold runs in Hn. destruct (Connection.next_matching p c) as [c' [m'|e|]]; [| |done].
  - exists c'. assert (m' = m) as ->; [|done]. by eapply takes_only; [apply Hn|].
  - exfalso. destruct Hn as [(Hc'&_&_&Hg)|(?&_&_)]; [|congruence].
    assert (Hbox : (box c').1 = Connection.pending c' ++ arrivals (Connection.reader c')) by done.
    destruct Hg as [x Hl Hfull|x Hl Hfull|e _ Hl].
    + apply loses_rest in Hl as [ds Hperm]. apply Permutation_length in Hperm.
      rewrite Hbox in Hperm. cbn [length] in Hperm. rewrite !length_app in Hperm. lia.
    + apply loses_rest in Hl as [ds Hperm].
      pose proof (zsum_perm _ _ (fmap_Permutation Message.wire_len _ _ Hperm)) as Hz.
      rewrite wire_sum_cons, Hbox, !wire_sum_app in Hz.
      rewrite (routed_sum _ Hc') in Hfull.
      pose proof (wire_sum_nonneg ds). pose proof (wire_sum_nonneg (arrivals (Connection.reader c'))). lia.
    + by eapply lacks_not.
Qed.


(** *** Both ends *)

(** A usable connection with an empty queue whose socket delivers [segs]. *)
Record hears c (segs : list (Socket.Segment Fd)) : Prop := {
  hears_reader : Connection.reader c = reader_of segs;
  hears_pending : Connection.pending c = [];
  hears_usable : Connection.is_usable c = true;
}.

Lemma hears_box c sent :
  hears c (sent ≫= segments) → Forall transmitted sent →
  Forall2 received sent (box c).1 ∧ Forall sound (box c).1.
Proof.
  intros [Hr Hp Hu] Hs. unfold box. rewrite Hp, Hr. cbn [fst app].
  split; [by apply arrivals_transmitted|]. apply arrivals_sound.
  split; [done|]. unfold len. simpl. lia.
Qed.

Lemma received_wire_len t m : received t m → Message.wire_len m = len (Socket.flatten (segments t)).
Proof. intros Hm. unfold Message.wire_len. by rewrite (sent_frame _ _ _ _ _ Hm). Qed.

Lemma received_size sent ms :
  Forall2 received sent ms →
  zsum (Message.wire_len <$> ms) = len (Socket.flatten (sent ≫= segments)).
Proof.
  induction 1 as [|t m sent ms Hm Hms IH]; [done|].
  rewrite wire_sum_cons, IH, bind_cons, flatten_app, len_app.
  by rewrite (received_wire_len _ _ Hm).
Qed.

(** A mailbox with one message that is no reply. *)
Lemma receive_single c m :
  routed c → Connection.is_usable c = true → (box c).1 = [m] → Message.reply_serial m = None →
  ∃ c', Connection.receive c = (c', Ok m) ∧ found c any m c'.
Proof.
  intros Hc Hu Hbox Hr. pose proof (receive_runs c Hc) as Hn.
  assert (Hlive : ¬ dead (box c).2 m) by (intros (s&E&_); congruence).
  unfold runs in Hn. destruct (Connection.receive c) as [c' [m'|e|]]; [| |done].
  - exists c'. assert (m' = m) as ->; [|done]. eapply takes_only; [apply Hn|].
    rewrite Hbox. intros x Hx _. set_solver.
  - exfalso. destruct Hn as [(_&_&_&Hg)|(?&_&_)]; [|congruence].
    assert (Hany : ∀ x b, ¬ loses (box c) any x b) by (intros x b (?&?&?&?&_&_&Hx&_); done).
    destruct Hg as [x Hl _|x Hl _|e _ Hl]; [by eapply Hany|by eapply Hany|].
    eapply (lacks_not _ _ m); [exact Hl|rewrite Hbox; set_solver|done|done].
Qed.

Lemma flags_expect_reply flags :
  0 <= flags → MethodCallFlags.contains flags MethodCallFlags.NO_REPLY_EXPECTED = false →
  Z.land flags 1 = 0.
Proof.
  intros Hf. unfold MethodCallFlags.contains, MethodCallFlags.NO_REPLY_EXPECTED.
  change 1 with (Z.ones 1). rewrite Z.land_ones by lia. change (2 ^ 1) with 2. change (Z.ones 1) with 1.
  pose proof (Z.mod_pos_bound flags 2). intros E%Z.eqb_neq. lia.
Qed.

(** A sent call expects a reply. *)
Lemma sent_call_expects await destination path interface member flags (body : Body) c c' s :
  Connection.send_call_with_flags await destination path interface member flags body c = (c', Ok s) →
  MethodCallFlags.contains flags MethodCallFlags.NO_REPLY_EXPECTED = false.
Proof.
  unfold Connection.send_call_with_flags, mbind, run_bind.
  by destruct (MethodCallFlags.contains _ _).
Qed.

(** A finished send has handed its message to the writer. *)
Lemma finished_post post c posts c' :
  sent_by Connection.Finished (Some post) c posts c' →
  ∃ encs enc, valid_post post enc ∧ wrote (Connection.writer c') (encs ++ [enc]).
Proof.
  intros [_ [(_&all&Hall&Hw)|[? _]]]; [|done].
  apply Forall2_app_inv_l in Hall as (encs&last&_&Hlast&->).
  apply Forall2_cons_inv_l in Hlast as (enc&nil&Hv&Hnil&->). apply Forall2_nil_inv_l in Hnil as ->.
  by exists encs, enc.
Qed.


(** The first message that a connection hears. *)
Lemma hears_request c (post : Post) enc group :
  routed c → hears c group → valid_post post enc → carries enc group →
  Outgoing.reply_serial post.1 = None →
  ∃ c' m, Connection.receive c = (c', Ok m) ∧
    sent_as post.1 post.2 (Socket.flatten group) (segment_fds group) m ∧ sound m ∧ found c any m c'.
Proof.
  intros Hc Hh Hv Hg Hnone. set (t := Build_Transmission post.1 post.2 group).
  assert (Ht : transmitted t) by (by eapply carried_transmitted).
  assert (Eg : group = [t] ≫= segments) by (csimpl; by rewrite app_nil_r).
  rewrite Eg in Hh. destruct (hears_box c _ Hh) as [Hms Hsound]; [by apply Forall_singleton|].
  apply Forall2_cons_inv_l in Hms as (m&nil&Hrec&Hnil&Hbox). apply Forall2_nil_inv_l in Hnil as ->.
  rewrite Hbox, Forall_singleton in Hsound.
  destruct (receive_single c m Hc (hears_usable _ _ Hh) Hbox) as (c'&E&Hf).
  { rewrite (sent_reply_serial _ _ _ _ _ Hrec). exact Hnone. }
  by exists c', m.
Qed.

(** The reply to a call, behind other messages. *)
Lemma hears_reply c s (post : Post) enc group others :
  routed c → s ∉ Connection.abandoned_replies c →
  hears c ((others ≫= segments) ++ group) → valid_post post enc → carries enc group →
  Outgoing.kind post.1 = MessageKind.MethodReturn → Outgoing.reply_serial post.1 = Some s →
  Forall transmitted others →
  Forall (λ t, Outgoing.reply_serial (outgoing t) ≠ Some s) others →
  Z.of_nat (length others) < Connection.MAX_PENDING_MESSAGES →
  len (Socket.flatten ((others ≫= segments) ++ group)) <= Connection.MAX_PENDING_BYTES →
  ∃ c' m, Connection.wait_message s c = (c', Ok m) ∧
    sent_as post.1 post.2 (Socket.flatten group) (segment_fds group) m.
Proof.
  intros Hc Hs Hh Hv Hg Hkind Hserial Hothers Hno Hcount Hsize.
  set (t := Build_Transmission post.1 post.2 group).
  assert (Ht : transmitted t) by (by eapply carried_transmitted).
  assert (Eg : (others ≫= segments) ++ group = (others ++ [t]) ≫= segments)
    by (rewrite bind_app; csimpl; by rewrite app_nil_r).
  rewrite Eg in Hh, Hsize. destruct (hears_box c _ Hh) as [Hms _].
  { apply Forall_app. split; [done|by apply Forall_singleton]. }
  pose proof (received_size _ _ Hms) as Hz. pose proof (Forall2_length _ _ _ Hms) as Hl.
  rewrite length_app in Hl. cbn [length] in Hl.
  apply Forall2_app_inv_l in Hms as (ms&last&Hms&Hlast&Hbox).
  apply Forall2_cons_inv_l in Hlast as (m&nil&Hrec&Hnil&->). apply Forall2_nil_inv_l in Hnil as ->.
  assert (Hm : PendingReply.matches s m = true).
  { unfold PendingReply.matches. rewrite (sent_kind _ _ _ _ _ Hrec). cbn [outgoing t]. rewrite Hkind.
    apply bool_decide_eq_true. rewrite (sent_reply_serial _ _ _ _ _ Hrec). exact Hserial. }
  destruct (search_finds c (PendingReply.matches s) m Hc (hears_usable _ _ Hh)) as (c'&E&_).
  - rewrite Hbox. set_solver.
  - done.
  - intros (s'&E&Hin). rewrite (sent_reply_serial _ _ _ _ _ Hrec) in E. cbn [outgoing t] in E.
    rewrite Hserial in E. by injection E as <-.
  - rewrite Hbox. intros x [Hx|Hx]%elem_of_app Hp; [|set_solver]. exfalso.
    apply list_elem_of_lookup in Hx as [i Hi]. destruct (Forall2_lookup_r _ _ _ _ _ Hms Hi) as (t'&Ht'&Hrx).
    rewrite Forall_lookup in Hno. apply (Hno i t' Ht').
    rewrite <- (sent_reply_serial _ _ _ _ _ Hrx). unfold PendingReply.matches in Hp.
    destruct (Message.kind x); try done; by apply bool_decide_eq_true in Hp.
  - unfold Connection.MAX_PENDING_MESSAGES in *. lia.
  - lia.
  - exists c', m. split; [exact E|exact Hrec].
Qed.

(** What the server sends back. *)
Lemma reply_to_call c call posts (answer : Body) o (body : Body) frame fds c' :
  sending c posts → sound call → lawful answer →
  sent_as o body frame fds call → Outgoing.kind o = MessageKind.MethodCall →
  Z.land (Outgoing.flags o) 1 = 0 →
  Connection.reply Connection.Finished call answer c = (c', Ok tt) →
  ∃ encs enc, valid_post (return_message None (Outgoing.serial o) (Connection.next_serial c), answer) enc ∧
    wrote (Connection.writer c') (encs ++ [enc]).
Proof.
  intros Hs Hcall Hanswer Hsent Hk Hf E.
  pose proof (reply_sends Connection.Finished call answer posts c Hs Hanswer Hcall) as Hr.
  cbv zeta in Hr. unfold runs in Hr. rewrite E in Hr.
  assert (Hpost : reply_post call return_message answer (Connection.next_serial c) =
    Some (return_message None (Outgoing.serial o) (Connection.next_serial c), answer)).
  { unfold reply_post, Message.expects_reply. rewrite (sent_sender _ _ _ _ _ Hsent), (sent_kind _ _ _ _ _ Hsent),
      (sent_flags _ _ _ _ _ Hsent), (sent_serial _ _ _ _ _ Hsent), Hk, Hf. done. }
  rewrite Hpost in Hr. by eapply finished_post.
Qed.

End exchange.

(** C21: a call is answered. When the client's call has been sent, a server that
    hears it receives exactly this call, with its header, body and descriptors;
    when the server's reply to it has been sent and the client hears it, behind
    any other messages that fit into the queue and are no replies to the call,
    the client's waiting future returns exactly this reply. *)
Theorem call_answered `{Zvariant} client posts server sposts destination path interface member flags
    body answer c1 serial enc request :
  in_use client posts → in_use server sposts →
  is_utf8 path = true → 0 <= flags < 256 → lawful body → lawful answer →
  Connection.send_call_with_flags Connection.Finished destination path interface member flags body
    (connection client) = (c1, Ok serial) →
  encode_outgoing (call_message destination path interface member flags serial) body = Ok enc →
  carries enc request → hears (connection server) request →
  ∃ s1 call,
    Connection.receive (connection server) = (s1, Ok call) ∧
    sent_as (call_message destination path interface member flags serial) body
      (Socket.flatten request) (segment_fds request) call ∧
    ∀ s2, Connection.reply Connection.Finished call answer s1 = (s2, Ok tt) →
    let reply := return_message None serial (Connection.next_serial s1) in
    ∃ enc', encode_outgoing reply answer = Ok enc' ∧
      (∃ encs, wrote (Connection.writer s2) (encs ++ [enc'])) ∧
      ∀ others response c2,
        carries enc' response → Forall transmitted others →
        Forall (λ t, Outgoing.reply_serial (outgoing t) ≠ Some serial) others →
        Z.of_nat (length others) < Connection.MAX_PENDING_MESSAGES →
        len (Socket.flatten ((others ≫= segments) ++ response)) <= Connection.MAX_PENDING_BYTES →
        c2 = Connection.set_reader c1 (reader_of ((others ≫= segments) ++ response)) →
        hears c2 ((others ≫= segments) ++ response) →
        ∃ c3 r, Connection.wait_message serial c2 = (c3, Ok r) ∧
          sent_as reply answer (Socket.flatten response) (segment_fds response) r.
Proof.
  intros Hclient Hserver Hpath Hflags Hbody Hanswer Ecall Henc Hreq Hhears.
  (* the call is valid and carries the client's next serial *)
  pose proof (send_call_sends Connection.Finished destination path interface member flags body posts _
    (in_use_sending _ _ Hclient) Hbody Hflags Hpath) as Hcall.
  cbv zeta in Hcall. unfold runs in Hcall. rewrite Ecall in Hcall. destruct Hcall as [Eserial Hsent].
  rewrite <- Eserial in Hsent. pose proof (finished_post _ _ _ _ Hsent) as (encs&enc0&Hvalid&_).
  assert (Hposted : valid_post (call_message destination path interface member flags serial, body) enc)
    by (destruct Hvalid as (?&?&?&_); done).
  destruct (hears_request (connection server) _ _ _ (in_use_routed _ _ Hserver) Hhears Hposted Hreq eq_refl)
    as (s1&call&Es1&Hrec&Hsound&Hfound).
  exists s1, call. split; [exact Es1|]. split; [exact Hrec|]. intros s2 Ereply reply.
  (* the server replies *)
  assert (Hsend1 : sending s1 sposts).
  { destruct Hfound as (_&(Ew&En&_)&_). destruct (in_use_sending _ _ Hserver) as (Hser&all&Hall&Hw).
    split; [by rewrite En|]. exists all. by rewrite Ew. }
  destruct (reply_to_call s1 call sposts answer _ _ _ _ s2 Hsend1 Hsound Hanswer Hrec eq_refl
    (flags_expect_reply flags (proj1 Hflags) (sent_call_expects _ _ _ _ _ _ _ _ _ _ Ecall)) Ereply)
    as (all&enc'&Hvalid'&Hwrote).
  exists enc'. split; [apply Hvalid'|]. split; [by exists all|].
  (* the client hears the reply *)
  intros others response c2 Hresp Hothers Hno Hcount Hsize Ec2 Hh2.
  destruct (same_routed _ _ (proj1 Hsent) (in_use_routed _ _ Hclient)) as [Hr1 Hbox1].
  apply (hears_reply c2 serial (reply, answer) enc' response others); try done.
  - rewrite Ec2. apply set_reader_routed; [done|]. unfold len. simpl. lia.
  - rewrite Ec2. cbn [Connection.set_reader Connection.abandoned_replies]. injection Hbox1 as _ ->.
    intros Hin. destruct Hsent as [_ [[Hser _]|[? _]]]; [|done]. rewrite fmap_app in Hser.
    apply (fresh_serial _ _ _ Hser). apply (in_use_tokens _ _ Hclient). set_solver.
Qed.

(** ** An exchange between two concrete connections *)

Definition demo_peer (segs : list (Socket.Segment (@Fd demo_zvariant))) : Connection.t (H := demo_zvariant) :=
  Connection.from_authenticated (Socket.mk segs [] 0) (Sink.mk [] [(7, true); (0, true)])
    ConnectionMode.Peer None (Authenticated.mk true (replicate 16 "171"%byte) [] []).

Lemma demo_peer_in_use segs : in_use (start (demo_peer segs)) [].
Proof. apply (started_in_use demo_str_body). repeat eexists. discriminate. Qed.

Definition demo_sent : Connection.t (H := demo_zvariant) * Result PendingReply.t :=
  Connection.send_call_with_flags Connection.Finished (Some (text ":1.42")) (text "/org/tensor/Test")
    (Some (text "org.tensor.Test")) (text "Change") MethodCallFlags.default demo_body (demo_peer []).

Definition demo_encoded (o : Outgoing.t) : EncodedMessage.t (H := demo_zvariant) :=
  match encode_outgoing o demo_body with Ok enc => enc | _ => EncodedMessage.mk [] [] end.

Definition demo_request : EncodedMessage.t (H := demo_zvariant) :=
  demo_encoded (call_message (Some (text ":1.42")) (text "/org/tensor/Test")
    (Some (text "org.tensor.Test")) (text "Change") MethodCallFlags.default 1).

Definition demo_response : EncodedMessage.t (H := demo_zvariant) :=
  demo_encoded (return_message None 1 1).

(** The bytes cut after the sixth, the descriptors with the first part. *)
Definition demo_cut (enc : EncodedMessage.t (H := demo_zvariant)) : list (Socket.Segment (@Fd demo_zvariant)) :=
  [Socket.Bytes (take 6 (EncodedMessage.bytes enc)) (EncodedMessage.unix_fds enc);
   Socket.Bytes (drop 6 (EncodedMessage.bytes enc)) []].

(** The server's reply to what it receives, and the client with it and a signal
    before it on its socket. *)
Definition demo_server : Connection.t (H := demo_zvariant) := demo_peer (demo_cut demo_request).

Definition demo_client : Connection.t (H := demo_zvariant) :=
  Connection.set_reader demo_sent.1 (reader_of (segments demo_transmission ++ demo_cut demo_response)).

Lemma demo_sent_ok : demo_sent = (demo_sent.1, Ok 1).
Proof. vm_compute. reflexivity. Qed.

Lemma demo_request_ok :
  encode_outgoing (H := demo_zvariant) (call_message (Some (text ":1.42")) (text "/org/tensor/Test")
    (Some (text "org.tensor.Test")) (text "Change") MethodCallFlags.default 1) demo_body = Ok demo_request.
Proof. vm_compute. reflexivity. Qed.

Lemma demo_response_ok :
  encode_outgoing (H := demo_zvariant) (return_message None 1 1) demo_body = Ok demo_response.
Proof. vm_compute. reflexivity. Qed.

Lemma answer_unique {A} (r : Result A) (a b : A) : r = Ok a → r = Ok b → a = b.
Proof. intros -> [= ->]. done. Qed.

Lemma demo_cut_request : carries demo_request (demo_cut demo_request).
Proof.
  split; [|split; vm_compute; reflexivity].
  unfold demo_cut. apply Forall_cons. split; [by vm_compute|]. apply Forall_singleton. by vm_compute.
Qed.

Lemma demo_cut_response : carries demo_response (demo_cut demo_response).
Proof.
  split; [|split; vm_compute; reflexivity].
  unfold demo_cut. apply Forall_cons. split; [by vm_compute|]. apply Forall_singleton. by vm_compute.
Qed.

Lemma demo_server_answers :
  match Connection.receive demo_server with
  | (s1, Ok call) =>
      match Connection.reply Connection.Finished call demo_body s1 with
      | (_, Ok _) => Connection.next_serial s1 =? 1
      | _ => false
      end
  | _ => false
  end = true.
Proof. vm_compute. reflexivity. Qed.

Lemma demo_client_hears :
  hears demo_client (([demo_transmission] ≫= segments) ++ demo_cut demo_response).
Proof. split; vm_compute; reflexivity. Qed.

Lemma call_answered_witness :
  ∃ client r,
    Connection.wait_message 1 demo_client = (client, Ok r) ∧
    sent_as (return_message None 1 1) demo_body (Socket.flatten (demo_cut demo_response))
      (segment_fds (demo_cut demo_response)) r.
Proof.
  destruct (call_answered (start (demo_peer [])) [] (start demo_server) [] (Some (text ":1.42"))
    (text "/org/tensor/Test") (Some (text "org.tensor.Test")) (text "Change") MethodCallFlags.default
    demo_body demo_body demo_sent.1 1 demo_request (demo_cut demo_request)
    (demo_peer_in_use _) (demo_peer_in_use _) eq_refl ltac:(split; [discriminate|reflexivity])
    demo_body_lawful demo_body_lawful demo_sent_ok demo_request_ok demo_cut_request)
    as (s1&call&Ereceive&_&Hreply); [split; reflexivity|].
  pose proof demo_server_answers as E. cbn [start connection] in Ereceive. rewrite Ereceive in E.
  destruct (Connection.reply Connection.Finished call demo_body s1) as [s2 [[]|e|]] eqn:Es2;
    [|discriminate E..].
  apply Z.eqb_eq in E. destruct (Hreply s2 eq_refl) as (enc'&Eenc&_&Hwait). rewrite E in Eenc, Hwait.
  pose proof (answer_unique _ _ _ demo_response_ok Eenc) as Eq. subst enc'.
  apply (Hwait [demo_transmission] (demo_cut demo_response) demo_client demo_cut_response).
  - apply Forall_singleton, demo_transmitted.
  - apply Forall_singleton. discriminate.
  - reflexivity.
  - vm_compute. discriminate.
  - reflexivity.
  - exact demo_client_hears.
Defined.
