(* ===== verification/Cached.v ===== *)
(** * Double-buffered surface state

    [tensor-wm/src/protocol/globals/compositor/cache.rs] and the states kept in
    it: those of the core surface ([compositor.rs], [compositor/wire.rs]), of
    FIFO barriers, explicit synchronisation, presentation feedback, the viewport
    and Xwayland. A surface state has a pending version that requests write, a
    queue of updates that were committed and not yet applied, and the current
    version. Wire objects (buffers, callbacks, points) are their identifiers;
    what the operations tell them is a log. *)

From Stdlib Require Import Floats.SpecFloat.
From S2P Require Import Prelude Geometry Surface.

(** ** Typed append-only lists

    [AppendList<Box<dyn Any>>]: entries of different types, found by their type.
    Entries are never removed, but they are cells that can be written. *)
Module AnyList.

Section any.

Context {K : Type} `{EqDecision K} (T : K → Type).

Definition t : Type := list {k : K & T k}.

Definition downcast_ref (k : K) (entry : {k : K & T k}) : option (T k) :=
  match decide (projT1 entry = k) with
  | left E => Some (eq_rect _ T (projT2 entry) _ E)
  | right _ => None
  end.

(** The first entry of the type. *)
Fixpoint get (k : K) (self : t) : option (T k) :=
  match self with
  | [] => None
  | entry :: rest =>
      match downcast_ref k entry with Some v => Some v | None => get k rest end
  end.

Definition push {k : K} (v : T k) (self : t) : t := self ++ [existT k v].

(** Writes the first entry of the type. *)
Fixpoint set {k : K} (v : T k) (self : t) : t :=
  match self with
  | [] => []
  | entry :: rest =>
      if decide (projT1 entry = k) then existT k v :: rest else entry :: set v rest
  end.

Definition find_or_insert (k : K) (default : T k) (self : t) : t :=
  match get k self with Some _ => self | None => push default self end.

Lemma downcast_same k (v : T k) : downcast_ref k (existT k v) = Some v.
Proof.
  unfold downcast_ref. simpl. destruct (decide (k = k)) as [E|]; [|done].
  by rewrite (proof_irrel E eq_refl).
Qed.

Lemma downcast_other k k' (v : T k') : k' ≠ k → downcast_ref k (existT k' v) = None.
Proof.
  intros Hk. unfold downcast_ref. simpl. destruct (decide (k' = k)) as [E|]; [|done].
  by destruct Hk.
Qed.

Lemma get_app k l l' :
  get k (l ++ l') = match get k l with Some v => Some v | None => get k l' end.
Proof. induction l as [|e l IH]; simpl; [done|]. by destruct (downcast_ref k e). Qed.

Lemma get_set_same k (v : T k) l : is_Some (get k l) → get k (set v l) = Some v.
Proof.
  induction l as [|[k' v'] l IH]; simpl; [by intros [? ?]|].
  destruct (decide (k' = k)) as [->|]; simpl.
  - intros _. by rewrite downcast_same.
  - by rewrite !downcast_other.
Qed.

Lemma get_set_other k k' (v : T k) l : k' ≠ k → get k' (set v l) = get k' l.
Proof.
  intros Hk. induction l as [|[k0 v0] l IH]; simpl; [done|].
  destruct (decide (k0 = k)) as [->|]; simpl; [by rewrite !downcast_other|].
  by rewrite IH.
Qed.

Lemma get_inserted k default l :
  get k (find_or_insert k default l) = Some (match get k l with Some v => v | None => default end).
Proof.
  unfold find_or_insert, push. destruct (get k l) eqn:E; [done|].
  rewrite get_app, E. simpl. by rewrite downcast_same.
Qed.

Lemma get_insert_other k k' default l : k' ≠ k → get k' (find_or_insert k default l) = get k' l.
Proof.
  intros. unfold find_or_insert, push. destruct (get k l); [done|].
  rewrite get_app. simpl. rewrite downcast_other by done. by destruct (get k' l).
Qed.

End any.

End AnyList.

(** ** What commits do to other objects *)
Module Effect.

Inductive t :=
| Release (buffer : Z)
| Signal (point : Z)
| Discarded (callback : Z).

End Effect.

(** A [Barrier] is a shared flag: the cells of all barriers, and what buffers,
    points and callbacks were told. *)
Module Env.

Record t := mk { log : list Effect.t; barriers : gmap Z bool }.

Definition emit (effects : list Effect.t) (env : t) : t :=
  mk (log env ++ effects) (barriers env).

Definition is_signaled (barrier : Z) (env : t) : bool :=
  default false (barriers env !! barrier).

Definition signal (barrier : Z) (env : t) : t :=
  mk (log env) (<[barrier := true]> (barriers env)).

(** How often a buffer was released. *)
Definition released (buffer : Z) (env : t) : nat :=
  sum_list_with (λ e, match e with
                      | Effect.Release b => if b =? buffer then 1%nat else 0%nat
                      | _ => 0%nat
                      end) (log env).

End Env.

(** ** [Cacheable] *)

(** [commit] returns the update and what stays pending; [merge_into] takes the
    update, the current state and the environment. *)
Class Cacheable (T : Type) := {
  cache_default : T;
  cache_commit : T → T * T;
  cache_merge_into : T → T → Env.t → T * Env.t;
}.

(** ** [CachedState] *)
Module CachedState.

Section cached.

Context {T : Type} `{Cacheable T}.

Record t := mk { pending : T; cache : list (Z * T); current : T }.

Definition new : t := mk cache_default [] cache_default.

Fixpoint merge_all (updates : list (Z * T)) (current : T) (env : Env.t) : T * Env.t :=
  match updates with
  | [] => (current, env)
  | (_, state) :: rest =>
      let '(current, env) := cache_merge_into state current env in
      merge_all rest current env
  end.

Definition commit (commit : option Z) (self : t) (env : Env.t) : t * Env.t :=
  let '(update, pending) := cache_commit (pending self) in
  match commit with
  | Some commit =>
      match last (cache self) with
      | Some (id, state) =>
          if id =? commit then
            let '(state, env) := cache_merge_into update state env in
            (mk pending (removelast (cache self) ++ [(id, state)]) (current self), env)
          else (mk pending (cache self ++ [(commit, update)]) (current self), env)
      | None => (mk pending (cache self ++ [(commit, update)]) (current self), env)
      end
  | None =>
      let '(current, env) := merge_all (cache self) (current self) env in
      let '(current, env) := cache_merge_into update current env in
      (mk pending [] current, env)
  end.

Fixpoint apply_loop (commit : Z) (cache : list (Z * T)) (current : T) (env : Env.t) :
    list (Z * T) * T * Env.t :=
  match cache with
  | [] => ([], current, env)
  | (queued, state) :: rest =>
      if queued <=? commit then
        let '(current, env) := cache_merge_into state current env in
        apply_loop commit rest current env
      else (cache, current, env)
  end.

Definition apply (commit : Z) (self : t) (env : Env.t) : t * Env.t :=
  let '(cache, current, env) := apply_loop commit (cache self) (current self) env in
  (mk (pending self) cache current, env).

End cached.

Arguments t : clear implicits.

End CachedState.

(** ** Regions *)
Module RectangleKind.

Inductive t := Add | Subtract.

End RectangleKind.

Module RegionAttributes.

Record t := mk { rects : list (RectangleKind.t * Rect.t) }.

Definition default : t := mk [].

Definition inside (point : Z * Z) (rect : Rect.t) : bool :=
  (Rect.x rect <=? point.1) && (Rect.y rect <=? point.2)
  && (point.1 <? Rect.right rect) && (point.2 <? Rect.bottom rect).

Definition contains (self : t) (point : Z * Z) : bool :=
  foldl (λ contains '(kind, rect),
    if inside point rect then
      match kind with RectangleKind.Add => true | RectangleKind.Subtract => false end
    else contains) false (rects self).

(** The region that a list of additions and subtractions describes: the last
    rectangle around a point decides. *)
Lemma contains_last l kind rect l' point :
  inside point rect = true →
  Forall (λ r, inside point r.2 = false) l' →
  contains (mk (l ++ (kind, rect) :: l')) point =
    match kind with RectangleKind.Add => true | RectangleKind.Subtract => false end.
Proof.
  intros Hin Hout. unfold contains. simpl. rewrite foldl_app. simpl. rewrite Hin.
  generalize (match kind with RectangleKind.Add => true | RectangleKind.Subtract => false end).
  induction Hout as [|[k r] l' Hr _ IH]; intros c; simpl in *; [done|]. by rewrite Hr.
Qed.

End RegionAttributes.

(** ** [SurfaceAttributes] *)
Module WlDamage.

Inductive t := Surface (rect : Rect.t) | Buffer (rect : Rect.t).

End WlDamage.

Module BufferAssignment.

Inductive t := Removed | NewBuffer (buffer : Z).

Definition buffer (self : t) : option Z :=
  match self with Removed => None | NewBuffer buffer => Some buffer end.

End BufferAssignment.

Module SurfaceAttributes.

(** A transform is its value in the protocol; [client_scale] is an [f64]. *)
Record t := mk {
  buffer : option BufferAssignment.t;
  buffer_delta : option Point.t;
  buffer_scale : Z;
  buffer_transform : Z;
  opaque_region : option RegionAttributes.t;
  input_region : option RegionAttributes.t;
  damage : list WlDamage.t;
  frame_callbacks : list Z;
  client_scale : spec_float;
}.

Definition NORMAL : Z := 0.

Definition default : t := mk None None 1 NORMAL None None [] [] (F64.of_int 1).

(** The update takes the buffer, the offset, the damage and the callbacks; the
    other fields stay pending as they are. *)
Definition commit (self : t) : t * t :=
  (self,
   mk None None (buffer_scale self) (buffer_transform self) (opaque_region self)
      (input_region self) [] [] (client_scale self)).

(** [previous] is released unless the update attaches it again. *)
Definition replaced (update : option BufferAssignment.t) (current : option BufferAssignment.t) :
    list Effect.t :=
  match update, current with
  | Some assignment, Some (BufferAssignment.NewBuffer previous) =>
      if decide (BufferAssignment.buffer assignment = Some previous) then []
      else [Effect.Release previous]
  | _, _ => []
  end.

Definition merge_into (self current : t) (env : Env.t) : t * Env.t :=
  (mk (match buffer self with Some _ => buffer self | None => buffer current end)
      (buffer_delta self) (buffer_scale self) (buffer_transform self)
      (opaque_region self) (input_region self)
      (damage current ++ damage self) (frame_callbacks current ++ frame_callbacks self)
      (client_scale self),
   Env.emit (replaced (buffer self) (buffer current)) env).

End SurfaceAttributes.

#[export] Instance surface_attributes_cacheable : Cacheable SurfaceAttributes.t := {
  cache_default := SurfaceAttributes.default;
  cache_commit := SurfaceAttributes.commit;
  cache_merge_into := SurfaceAttributes.merge_into;
}.

Module SubsurfaceCachedState.

Record t := mk { location : Point.t }.

Definition default : t := mk (Point.new 0 0).

Definition commit (self : t) : t * t := (self, self).

Definition merge_into (self current : t) (env : Env.t) : t * Env.t := (self, env).

End SubsurfaceCachedState.

#[export] Instance subsurface_cacheable : Cacheable SubsurfaceCachedState.t := {
  cache_default := SubsurfaceCachedState.default;
  cache_commit := SubsurfaceCachedState.commit;
  cache_merge_into := SubsurfaceCachedState.merge_into;
}.

(** ** The states of other protocols *)
Module FifoCommitCachedState.

Record t := mk { set_barrier : bool; wait_barrier : bool }.

Definition default : t := mk false false.

Definition commit (self : t) : t * t := (self, default).

Definition merge_into (self current : t) (env : Env.t) : t * Env.t := (self, env).

End FifoCommitCachedState.

#[export] Instance fifo_commit_cacheable : Cacheable FifoCommitCachedState.t := {
  cache_default := FifoCommitCachedState.default;
  cache_commit := FifoCommitCachedState.commit;
  cache_merge_into := FifoCommitCachedState.merge_into;
}.

Module FifoBarrierCachedState.

Record t := mk { barrier : option Z }.

Definition default : t := mk None.

Definition commit (self : t) : t * t := (self, self).

(** The barrier that is replaced is signalled. *)
Definition merge_into (self current : t) (env : Env.t) : t * Env.t :=
  match barrier self with
  | None => (current, env)
  | Some b =>
      if bool_decide (barrier current = Some b) || Env.is_signaled b env then (current, env)
      else (mk (Some b),
            match barrier current with
            | Some previous => Env.signal previous env
            | None => env
            end)
  end.

End FifoBarrierCachedState.

#[export] Instance fifo_barrier_cacheable : Cacheable FifoBarrierCachedState.t := {
  cache_default := FifoBarrierCachedState.default;
  cache_commit := FifoBarrierCachedState.commit;
  cache_merge_into := FifoBarrierCachedState.merge_into;
}.

Module DrmSyncobjCachedState.

Record t := mk { acquire_point : option Z; release_point : option Z }.

Definition default : t := mk None None.

Definition commit (self : t) : t * t := (self, default).

(** The release point that is superseded is signalled. *)
Definition merge_into (self current : t) (env : Env.t) : t * Env.t :=
  match acquire_point self, release_point self with
  | Some _, Some _ =>
      (self,
       match release_point current with
       | Some release => Env.emit [Effect.Signal release] env
       | None => env
       end)
  | _, _ => (current, env)
  end.

End DrmSyncobjCachedState.

#[export] Instance drm_syncobj_cacheable : Cacheable DrmSyncobjCachedState.t := {
  cache_default := DrmSyncobjCachedState.default;
  cache_commit := DrmSyncobjCachedState.commit;
  cache_merge_into := DrmSyncobjCachedState.merge_into;
}.

Module PresentationFeedbackCachedState.

Record t := mk { callbacks : list Z }.

Definition default : t := mk [].

Definition commit (self : t) : t * t := (self, default).

(** The feedback of content that was never presented is discarded. *)
Definition merge_into (self into : t) (env : Env.t) : t * Env.t :=
  match callbacks self with
  | [] => (into, env)
  | _ => (self, Env.emit (Effect.Discarded <$> callbacks into) env)
  end.

End PresentationFeedbackCachedState.

#[export] Instance presentation_feedback_cacheable : Cacheable PresentationFeedbackCachedState.t := {
  cache_default := PresentationFeedbackCachedState.default;
  cache_commit := PresentationFeedbackCachedState.commit;
  cache_merge_into := PresentationFeedbackCachedState.merge_into;
}.

Module ViewportCachedState.

Record t := mk { source : option SurfaceSourceRect.t; destination : option (Z * Z) }.

Definition default : t := mk None None.

Definition commit (self : t) : t * t := (self, self).

Definition merge_into (self current : t) (env : Env.t) : t * Env.t := (self, env).

End ViewportCachedState.

#[export] Instance viewport_cacheable : Cacheable ViewportCachedState.t := {
  cache_default := ViewportCachedState.default;
  cache_commit := ViewportCachedState.commit;
  cache_merge_into := ViewportCachedState.merge_into;
}.

Module XWaylandSurfaceCachedState.

Record t := mk { serial : option Z }.

Definition default : t := mk None.

Definition commit (self : t) : t * t := (self, default).

Definition merge_into (self current : t) (env : Env.t) : t * Env.t := (self, env).

End XWaylandSurfaceCachedState.

#[export] Instance xwayland_cacheable : Cacheable XWaylandSurfaceCachedState.t := {
  cache_default := XWaylandSurfaceCachedState.default;
  cache_commit := XWaylandSurfaceCachedState.commit;
  cache_merge_into := XWaylandSurfaceCachedState.merge_into;
}.

(** ** [MultiCache] *)
Module CacheKind.

(** The types that implement [Cacheable]. *)
Inductive t :=
  Attributes | Subsurface | FifoCommit | FifoBarrier | Syncobj | Feedback | Viewport | Xwayland.

#[global] Instance t_eq_dec : EqDecision t.
Proof. solve_decision. Defined.

Definition state (kind : t) : Type :=
  match kind with
  | Attributes => SurfaceAttributes.t
  | Subsurface => SubsurfaceCachedState.t
  | FifoCommit => FifoCommitCachedState.t
  | FifoBarrier => FifoBarrierCachedState.t
  | Syncobj => DrmSyncobjCachedState.t
  | Feedback => PresentationFeedbackCachedState.t
  | Viewport => ViewportCachedState.t
  | Xwayland => XWaylandSurfaceCachedState.t
  end.

#[global] Instance cacheable (kind : t) : Cacheable (state kind) :=
  match kind with
  | Attributes => surface_attributes_cacheable
  | Subsurface => subsurface_cacheable
  | FifoCommit => fifo_commit_cacheable
  | FifoBarrier => fifo_barrier_cacheable
  | Syncobj => drm_syncobj_cacheable
  | Feedback => presentation_feedback_cacheable
  | Viewport => viewport_cacheable
  | Xwayland => xwayland_cacheable
  end.

End CacheKind.

Module MultiCache.

Definition entry (kind : CacheKind.t) : Type := CachedState.t (CacheKind.state kind).

Definition t : Type := AnyList.t entry.

Definition new : t := [].

Definition find_or_insert (kind : CacheKind.t) (self : t) : t :=
  AnyList.find_or_insert entry kind CachedState.new self.

(** [get] creates the state; what it returns is read here and written back by
    [update]. *)
Definition get (kind : CacheKind.t) (self : t) : entry kind :=
  default CachedState.new (AnyList.get entry kind self).

Definition update (kind : CacheKind.t) (f : entry kind → entry kind) (self : t) : t :=
  let self := find_or_insert kind self in AnyList.set entry (f (get kind self)) self.

Definition has (kind : CacheKind.t) (self : t) : bool :=
  bool_decide (is_Some (AnyList.get entry kind self)).

(** Every state of the surface, in the order they were created. *)
Fixpoint for_caches (f : ∀ kind, entry kind → Env.t → entry kind * Env.t) (self : t)
    (env : Env.t) : t * Env.t :=
  match self with
  | [] => ([], env)
  | existT kind cache :: rest =>
      let '(cache, env) := f kind cache env in
      let '(rest, env) := for_caches f rest env in
      (existT kind cache :: rest, env)
  end.

Definition commit (id : option Z) : t → Env.t → t * Env.t :=
  for_caches (λ kind, CachedState.commit id).

Definition apply (id : Z) : t → Env.t → t * Env.t :=
  for_caches (λ kind, CachedState.apply id).

End MultiCache.

(** ** [SurfaceDataMap] *)
Module SubsurfaceState.

(** An atomic flag, so the entry of the data map is written in place. *)
Record t := mk { sync : bool }.

Definition default : t := mk true.

End SubsurfaceState.

Module SuggestedSurfaceState.

Record t := mk { scale : Z; transform : Z }.

Definition default : t := mk 1 SurfaceAttributes.NORMAL.

End SuggestedSurfaceState.

Module DataKind.

(** The entries that the surface tree itself keeps. *)
Inductive t := Subsurface | Suggested.

#[global] Instance t_eq_dec : EqDecision t.
Proof. solve_decision. Defined.

Definition state (kind : t) : Type :=
  match kind with
  | Subsurface => SubsurfaceState.t
  | Suggested => SuggestedSurfaceState.t
  end.

End DataKind.

Module SurfaceDataMap.

Definition t : Type := AnyList.t DataKind.state.

Definition default : t := [].

Definition get (kind : DataKind.t) (self : t) : option (DataKind.state kind) :=
  AnyList.get DataKind.state kind self.

Definition insert_if_missing {kind : DataKind.t} (create : DataKind.state kind) (self : t) :
    t * bool :=
  match get kind self with
  | Some _ => (self, false)
  | None => (AnyList.push DataKind.state create self, true)
  end.

Definition get_or_insert {kind : DataKind.t} (create : DataKind.state kind) (self : t) : t :=
  AnyList.find_or_insert DataKind.state kind create self.

End SurfaceDataMap.
