(* ===== verification/CachedSpec.v ===== *)
(** * Double-buffered state applies its updates in order

    Facts about [Cached]: a state with its queue is the list of all updates that
    were committed together with the number of them that were applied, and what
    committing and applying do to every state of a surface, and to buffers. *)

From S2P Require Import Prelude Geometry Surface Cached.

(** ** One state *)

(** The result of a merge does not look at barriers or logs; [FifoBarrier] is
    the exception. *)
Class MergeValue (T : Type) `{Cacheable T} :=
  merge_value : ∀ (update current : T) env env',
    (cache_merge_into update current env).1 = (cache_merge_into update current env').1.

#[export] Instance attributes_value : MergeValue SurfaceAttributes.t.
Proof. done. Qed.

#[export] Instance subsurface_value : MergeValue SubsurfaceCachedState.t.
Proof. done. Qed.

#[export] Instance fifo_commit_value : MergeValue FifoCommitCachedState.t.
Proof. done. Qed.

#[export] Instance syncobj_value : MergeValue DrmSyncobjCachedState.t.
Proof.
  intros [a r] c env env'. simpl. unfold DrmSyncobjCachedState.merge_into. simpl.
  by destruct a, r.
Qed.

#[export] Instance feedback_value : MergeValue PresentationFeedbackCachedState.t.
Proof.
  intros [l] c env env'. simpl. unfold PresentationFeedbackCachedState.merge_into. simpl.
  by destruct l.
Qed.

#[export] Instance viewport_value : MergeValue ViewportCachedState.t.
Proof. done. Qed.

#[export] Instance xwayland_value : MergeValue XWaylandSurfaceCachedState.t.
Proof. done. Qed.

Section cached.

Context {T : Type} `{Cacheable T}.

Implicit Types (self : CachedState.t T) (env : Env.t).

Lemma merge_all_app l l' cur env :
  CachedState.merge_all (l ++ l') cur env =
    let '(cur, env) := CachedState.merge_all l cur env in CachedState.merge_all l' cur env.
Proof.
  revert cur env. induction l as [|[id u] l IH]; intros cur env; simpl; [done|].
  destruct (cache_merge_into u cur env) as [c e]. apply IH.
Qed.

(** [apply] merges the updates in front whose id is not later. *)
Lemma apply_loop_split commit cache cur env :
  ∃ front back, cache = front ++ back ∧ Forall (λ p, p.1 <= commit) front ∧
    match back with [] => True | p :: _ => commit < p.1 end ∧
    CachedState.apply_loop commit cache cur env =
      (back, (CachedState.merge_all front cur env).1, (CachedState.merge_all front cur env).2).
Proof.
  revert cur env. induction cache as [|[id u] cache IH]; intros cur env; simpl.
  { exists [], []. repeat split. constructor. }
  destruct (Z.leb_spec id commit) as [Hle|Hlt].
  - destruct (cache_merge_into u cur env) as [c e] eqn:E.
    destruct (IH c e) as (front&back&->&Hf&Hb&->).
    exists ((id, u) :: front), back. split; [done|]. split; [by constructor|]. split; [done|].
    simpl. by rewrite E.
  - exists [], ((id, u) :: cache). repeat split; [constructor|done].
Qed.

(** ** The updates that were committed *)

(** Calls on a state: a request writes the pending version, a commit queues or
    flushes, an id is applied, and others change what barriers and logs say. *)
Inductive Call :=
| Pending (f : T → T)
| Commit (id : option Z)
| Apply (id : Z)
| Elsewhere (f : Env.t → Env.t).

Definition call (c : Call) (s : CachedState.t T * Env.t) : CachedState.t T * Env.t :=
  let '(self, env) := s in
  match c with
  | Pending f =>
      (CachedState.mk (f (CachedState.pending self)) (CachedState.cache self)
                      (CachedState.current self), env)
  | Commit id => CachedState.commit id self env
  | Apply id => CachedState.apply id self env
  | Elsewhere f => (self, f env)
  end.

Definition calls (cs : list Call) (s : CachedState.t T * Env.t) : CachedState.t T * Env.t :=
  foldl (λ s c, call c s) s cs.

(** The abstract state: the pending version, all updates with their ids, and
    how many of them are applied. *)
Record History := { written : T; updates : list (Z * T); applied : nat }.

Definition history_new : History :=
  {| written := cache_default; updates := []; applied := 0 |}.

Definition record (c : Call) (h : History) : History :=
  match c with
  | Pending f => {| written := f (written h); updates := updates h; applied := applied h |}
  | Commit (Some id) =>
      {| written := (cache_commit (written h)).2;
         updates := updates h ++ [(id, (cache_commit (written h)).1)];
         applied := applied h |}
  | Commit None =>
      {| written := (cache_commit (written h)).2;
         updates := updates h ++ [(0, (cache_commit (written h)).1)];
         applied := S (length (updates h)) |}
  | Apply id =>
      {| written := written h; updates := updates h;
         applied := applied h +
           length (filter (λ p, p.1 <= id) (drop (applied h) (updates h))) |}
  | Elsewhere _ => h
  end.

Definition history (cs : list Call) : History := foldl (λ h c, record c h) history_new cs.

(** Ids are handed out in increasing order. *)
Fixpoint increasing (last : Z) (cs : list Call) : Prop :=
  match cs with
  | [] => True
  | Commit (Some id) :: cs => last < id ∧ increasing id cs
  | _ :: cs => increasing last cs
  end.

(** The current version after a list of updates. *)
Definition merged (l : list (Z * T)) : T :=
  foldl (λ current p, (cache_merge_into p.2 current (Env.mk [] ∅)).1) cache_default l.

Context `{!MergeValue T}.

Lemma merge_all_value l cur env :
  (CachedState.merge_all l cur env).1 =
    foldl (λ current p, (cache_merge_into p.2 current (Env.mk [] ∅)).1) cur l.
Proof.
  revert cur env. induction l as [|[id u] l IH]; intros cur env; simpl; [done|].
  destruct (cache_merge_into u cur env) as [c e] eqn:E. rewrite IH. f_equal.
  by rewrite <- (merge_value u cur env), E.
Qed.

Lemma merge_all_merged l l' env :
  (CachedState.merge_all l (merged l') env).1 = merged (l' ++ l).
Proof. rewrite merge_all_value. unfold merged. by rewrite foldl_app. Qed.

Record matches (last_id : Z) (self : CachedState.t T) (h : History) : Prop := {
  matches_pending : CachedState.pending self = written h;
  matches_applied : (applied h <= length (updates h))%nat;
  matches_cache : CachedState.cache self = drop (applied h) (updates h);
  matches_current : CachedState.current self = merged (take (applied h) (updates h));
  matches_sorted : StronglySorted Z.lt (CachedState.cache self).*1;
  matches_last : Forall (λ id, id <= last_id) (CachedState.cache self).*1;
}.

Lemma matches_commit last_id self h id env :
  matches last_id self h → last_id < id →
  matches id (CachedState.commit (Some id) self env).1 (record (Commit (Some id)) h).
Proof.
  intros [Hp Ha Hc Hu Hs Hl] Hid. unfold CachedState.commit. rewrite Hp.
  destruct (cache_commit (written h)) as [u p] eqn:E.
  assert (Hnew : matches id
    (CachedState.mk p (CachedState.cache self ++ [(id, u)]) (CachedState.current self))
    (record (Commit (Some id)) h)).
  { split; simpl; rewrite ?E; simpl; [done|rewrite length_app; lia| | | |].
    - by rewrite drop_app_le, Hc.
    - by rewrite take_app_le.
    - rewrite fmap_app. apply StronglySorted_app. split; [|split; [done|repeat constructor]].
      intros x y Hx ->%list_elem_of_singleton. simpl.
      rewrite Forall_forall in Hl. specialize (Hl x Hx). lia.
    - rewrite fmap_app. apply Forall_app. split; [|repeat constructor; simpl; lia].
      eapply Forall_impl; [exact Hl|]. simpl. intros x ?. lia. }
  destruct (last (CachedState.cache self)) as [[i st]|] eqn:El; [|done].
  assert (Hi : i ∈ (CachedState.cache self).*1).
  { apply last_Some in El as [l' ->]. rewrite fmap_app. apply elem_of_app. right. by left. }
  rewrite Forall_forall in Hl. specialize (Hl i Hi).
  by destruct (Z.eqb_spec i id); [lia|].
Qed.

Lemma matches_flush last_id self h env :
  matches last_id self h →
  matches last_id (CachedState.commit None self env).1 (record (Commit None) h).
Proof.
  intros [Hp Ha Hc Hu Hs Hl]. unfold CachedState.commit. rewrite Hp.
  destruct (cache_commit (written h)) as [u p] eqn:E.
  destruct (CachedState.merge_all _ _ env) as [cur env1] eqn:Em.
  destruct (cache_merge_into u cur env1) as [cur' env'] eqn:E2. simpl.
  assert (Hcur : cur = merged (updates h)).
  { apply (f_equal fst) in Em. rewrite Hu, merge_all_merged, Hc, take_drop in Em. done. }
  split; simpl; rewrite ?E; simpl; try done.
  - rewrite length_app. simpl. lia.
  - by rewrite drop_ge by (rewrite length_app; simpl; lia).
  - rewrite take_ge by (rewrite length_app; simpl; lia). unfold merged.
    rewrite foldl_app. simpl. fold (merged (updates h)). rewrite <- Hcur.
    rewrite (merge_value u cur _ env1). by rewrite E2.
  - constructor.
Qed.

(** In a sorted queue the updates in front are all that the id covers. *)
Lemma sorted_filter_front (front back : list (Z * T)) id :
  StronglySorted Z.lt (front ++ back).*1 → Forall (λ p, p.1 <= id) front →
  match back with [] => True | p :: _ => id < p.1 end →
  filter (λ p, p.1 <= id) (front ++ back) = front.
Proof.
  intros Hs Hf Hb. rewrite filter_app, filter_all by done.
  rewrite filter_none; [by rewrite app_nil_r|].
  rewrite fmap_app in Hs. apply StronglySorted_app in Hs as (_&_&Hs).
  destruct back as [|[i u] back]; [constructor|].
  constructor; [simpl in *; lia|]. inversion Hs as [|? ? Hs' Ha]; subst.
  apply Forall_forall. intros p Hp. rewrite Forall_forall in Ha.
  specialize (Ha p.1 (list_elem_of_fmap_2 _ _ _ Hp)). simpl in *. lia.
Qed.

Lemma matches_apply last_id self h id env :
  matches last_id self h →
  matches last_id (CachedState.apply id self env).1 (record (Apply id) h).
Proof.
  intros [Hp Ha Hc Hu Hs Hl]. unfold CachedState.apply.
  destruct (apply_loop_split id (CachedState.cache self) (CachedState.current self) env)
    as (front&back&Hq&Hf&Hb&->).
  assert (Hfr : filter (λ p, p.1 <= id) (drop (applied h) (updates h)) = front).
  { rewrite <- Hc, Hq. apply sorted_filter_front; [by rewrite <- Hq|done..]. }
  assert (Hd : drop (applied h) (updates h) = front ++ back) by congruence.
  assert (Hsplit : updates h = take (applied h) (updates h) ++ front ++ back)
    by (by rewrite <- Hd, take_drop).
  assert (Hlen : length (take (applied h) (updates h)) = applied h) by (rewrite length_take; lia).
  simpl. rewrite Hq, fmap_app in Hs, Hl.
  split; simpl; rewrite ?Hfr; [done| | | | |].
  - rewrite Hsplit at 1. rewrite !length_app. lia.
  - rewrite <- drop_drop, Hd. by rewrite drop_app_length.
  - rewrite Hu, merge_all_merged. f_equal. rewrite Hsplit at 2.
    rewrite take_app, Hlen.
    rewrite (take_ge (take (applied h) (updates h))) by lia. f_equal.
    replace (applied h + length front - applied h)%nat with (length front) by lia.
    by rewrite take_app_length.
  - by apply StronglySorted_app in Hs as (_&_&?).
  - by apply Forall_app in Hl as [_ ?].
Qed.

Lemma matches_calls cs last_id self env h :
  matches last_id self h → increasing last_id cs →
  ∃ last_id', matches last_id' (calls cs (self, env)).1 (foldl (λ h c, record c h) h cs).
Proof.
  revert last_id self env h. induction cs as [|c cs IH]; intros last_id self env h Hm Hi; [eauto|].
  unfold calls. simpl. destruct c as [f|[id|]|id|f]; simpl in Hi.
  - apply (IH last_id); [|done]. destruct Hm as [Hp Ha Hc Hu Hs Hl].
    by split; simpl; [rewrite Hp|..].
  - destruct Hi as [Hid Hi]. pose proof (matches_commit last_id self h id env Hm Hid) as Hm'.
    simpl. destruct (CachedState.commit (Some id) self env) as [s e]. by apply (IH id).
  - pose proof (matches_flush last_id self h env Hm) as Hm'.
    simpl. destruct (CachedState.commit None self env) as [s e]. by apply (IH last_id).
  - pose proof (matches_apply last_id self h id env Hm) as Hm'.
    simpl. destruct (CachedState.apply id self env) as [s e]. by apply (IH last_id).
  - by apply (IH last_id).
Qed.

Lemma matches_new : matches (-1) CachedState.new history_new.
Proof. split; simpl; [done|lia|done|done|constructor|constructor]. Qed.

End cached.

Arguments Call T : clear implicits.
Arguments History T : clear implicits.

(** C5: A double-buffered state is its list of updates: after any sequence of
    requests, commits with increasing ids, immediate commits and applications,
    the current version is the merge of exactly the updates that were applied, in
    the order they were committed, and the queue holds the others; an immediate
    commit applies everything, and applying an id applies the updates up to it. *)
Theorem cache_applies_in_order {T} `{Cacheable T} `{!MergeValue T} (cs : list (Call T))
    (env : Env.t) :
  increasing (-1) cs →
  let self := (calls cs (CachedState.new, env)).1 in
  let h := history cs in
  (applied h <= length (updates h))%nat ∧
  CachedState.pending self = written h ∧
  CachedState.current self = merged (take (applied h) (updates h)) ∧
  CachedState.cache self = drop (applied h) (updates h).
Proof.
  intros Hi self h.
  destruct (matches_calls cs (-1) CachedState.new env history_new matches_new Hi)
    as [last_id [Hp Ha Hc Hu _ _]].
  done.
Qed.

(** Two queued offsets of a subsurface, the first of them applied. *)
Lemma cache_applies_in_order_witness :
  let move x := Pending (λ _, SubsurfaceCachedState.mk (Point.new x 0)) in
  let cs := [move 1; Commit (Some 0); move 2; Commit (Some 1); Apply 0] in
  CachedState.current (calls cs (CachedState.new, Env.mk [] ∅)).1
    = SubsurfaceCachedState.mk (Point.new 1 0) ∧
  CachedState.cache (calls cs (CachedState.new, Env.mk [] ∅)).1
    = [(1, SubsurfaceCachedState.mk (Point.new 2 0))].
Proof.
  intros move cs.
  destruct (cache_applies_in_order cs (Env.mk [] ∅)) as (_&_&Hcur&Hq); [by repeat split|].
  split; [rewrite Hcur|rewrite Hq]; vm_compute; reflexivity.
Defined.

(** ** All states of a surface *)

Section multi.

Implicit Types (self : MultiCache.t) (env : Env.t) (kind : CacheKind.t).

Definition found kind self : option (MultiCache.entry kind) :=
  AnyList.get MultiCache.entry kind self.

Lemma for_caches_found f self env kind :
  match found kind self with
  | Some c => ∃ env', found kind (MultiCache.for_caches f self env).1 = Some (f kind c env').1
  | None => found kind (MultiCache.for_caches f self env).1 = None
  end.
Proof.
  unfold found. revert env. induction self as [|[k c] self IH]; intros env; simpl; [done|].
  destruct (f k c env) as [c1 env1] eqn:Ef.
  destruct (MultiCache.for_caches f self env1) as [rest env2] eqn:Er. simpl.
  specialize (IH env1). rewrite Er in IH.
  destruct (decide (k = kind)) as [->|Hk].
  - rewrite !AnyList.downcast_same. exists env. by rewrite Ef.
  - by rewrite !AnyList.downcast_other.
Qed.

Lemma get_found kind self :
  MultiCache.get kind self = default CachedState.new (found kind self).
Proof. done. Qed.

(** What holds of every cached state before and after, given that it holds of
    the default one. *)
Lemma for_caches_get (P : ∀ kind, MultiCache.entry kind → MultiCache.entry kind → Prop) f self env :
  (∀ kind c env, P kind c (f kind c env).1) →
  (∀ kind, P kind CachedState.new CachedState.new) →
  ∀ kind, P kind (MultiCache.get kind self)
                 (MultiCache.get kind (MultiCache.for_caches f self env).1).
Proof.
  intros Hf Hn kind. rewrite !get_found. pose proof (for_caches_found f self env kind) as Hc.
  destruct (found kind self) as [c|]; [destruct Hc as [env' ->]; apply Hf|rewrite Hc; apply Hn].
Qed.

Lemma get_update kind f self :
  MultiCache.get kind (MultiCache.update kind f self) = f (MultiCache.get kind self).
Proof.
  rewrite !get_found. unfold found, MultiCache.update, MultiCache.get, MultiCache.find_or_insert.
  rewrite AnyList.get_set_same; [|rewrite AnyList.get_inserted; by eexists].
  rewrite AnyList.get_inserted. simpl. by destruct (AnyList.get _ kind self).
Qed.

Lemma get_update_other kind kind' f self :
  kind' ≠ kind →
  MultiCache.get kind' (MultiCache.update kind f self) = MultiCache.get kind' self.
Proof.
  intros. rewrite !get_found. unfold found, MultiCache.update, MultiCache.find_or_insert.
  by rewrite AnyList.get_set_other, AnyList.get_insert_other.
Qed.

Definition current_of kind self : CacheKind.state kind :=
  CachedState.current (MultiCache.get kind self).

Definition queue_of kind self : list (Z * CacheKind.state kind) :=
  CachedState.cache (MultiCache.get kind self).

(** A commit with an id only queues. *)
Lemma commit_id_current id self env kind :
  current_of kind (MultiCache.commit (Some id) self env).1 = current_of kind self.
Proof.
  symmetry. apply (for_caches_get (λ _ c c', CachedState.current c = CachedState.current c')); [|done].
  intros k c e. unfold CachedState.commit.
  destruct (cache_commit (CachedState.pending c)) as [u p].
  destruct (last (CachedState.cache c)) as [[i st]|]; [|done].
  destruct (i =? id); [|done]. by destruct (cache_merge_into u st e).
Qed.

(** The ids of a surface are handed out in order: those in its queues are
    below the next one. *)
Definition ids_below (id : Z) self : Prop :=
  Forall (λ e, Forall (λ i, i < id) (CachedState.cache (projT2 e)).*1) self.

(** The pending state of one kind moves to the end of its queue. *)
Definition queue_pending (id : Z) (e : {kind & MultiCache.entry kind}) : {kind & MultiCache.entry kind} :=
  let c := projT2 e in
  existT (projT1 e)
    (CachedState.mk (cache_commit (CachedState.pending c)).2
       (CachedState.cache c ++ [(id, (cache_commit (CachedState.pending c)).1)]) (CachedState.current c)).

(** A commit with the next id queues every pending state and does nothing else. *)
Lemma commit_queues id self env :
  ids_below id self → MultiCache.commit (Some id) self env = (queue_pending id <$> self, env).
Proof.
  unfold MultiCache.commit. induction 1 as [|[k c] self Hc _ IH]; [done|]. simpl in *.
  assert (E : CachedState.commit (Some id) c env = (projT2 (queue_pending id (existT k c)), env)).
  { unfold CachedState.commit, queue_pending. simpl.
    destruct (cache_commit (CachedState.pending c)) as [u p].
    destruct (last (CachedState.cache c)) as [[i st]|] eqn:El; [|done].
    assert (Hi : i < id).
    { rewrite Forall_forall in Hc. apply Hc. apply last_Some in El as [l' ->]. rewrite fmap_app.
      apply elem_of_app. right. by left. }
    by destruct (Z.eqb_spec i id); [lia|]. }
  rewrite E, IH. done.
Qed.

(** The next id is above all of them again, and nothing else adds an id. *)
Lemma ids_below_commit id self : ids_below id self → ids_below (id + 1) (queue_pending id <$> self).
Proof.
  induction 1 as [|[k c] self Hc _ IH]; simpl; constructor; [|done]. simpl. rewrite fmap_app. apply Forall_app.
  split; [|repeat constructor; simpl; lia]. eapply Forall_impl; [exact Hc|]. simpl. intros i ?. lia.
Qed.

Lemma ids_below_apply id commit self env : ids_below id self → ids_below id (MultiCache.apply commit self env).1.
Proof.
  intros H. revert env. unfold MultiCache.apply. induction H as [|[k c] self Hc _ IH]; intros env; simpl; [constructor|].
  destruct (CachedState.apply commit c env) as [c' env'] eqn:E.
  specialize (IH env'). destruct (MultiCache.for_caches _ self env') as [rest env2]. simpl. constructor; [|done].
  simpl in *. unfold CachedState.apply in E.
  destruct (apply_loop_split commit (CachedState.cache c) (CachedState.current c) env)
    as (front&back&Hq&_&_&Hl). rewrite Hl in E. injection E as <- _. simpl.
  rewrite Hq, fmap_app in Hc. by apply Forall_app in Hc as [_ ?].
Qed.

Lemma ids_below_update id kind f self :
  (∀ c, CachedState.cache (f c) = CachedState.cache c) → ids_below id self →
  ids_below id (MultiCache.update kind f self).
Proof.
  intros Hf H. unfold MultiCache.update. set (ins := MultiCache.find_or_insert kind self).
  assert (Hins : ids_below id ins).
  { unfold ins, MultiCache.find_or_insert, AnyList.find_or_insert, AnyList.push.
    destruct (AnyList.get _ kind self); [done|]. apply Forall_app. split; [done|]. by repeat constructor. }
  assert (Hget : Forall (λ i, i < id) (CachedState.cache (MultiCache.get kind ins)).*1).
  { unfold MultiCache.get. clear -Hins. induction Hins as [|[k c] l Hc _ IH]; simpl; [constructor|].
    destruct (decide (k = kind)) as [->|Hk]; [by rewrite AnyList.downcast_same|].
    by rewrite AnyList.downcast_other. }
  revert Hget. generalize (MultiCache.get kind ins). intros g Hg. clear -Hf Hins Hg.
  induction Hins as [|[k c] l Hc Hl IH]; simpl; [constructor|].
  destruct (decide (k = kind)) as [->|Hk]; constructor; simpl; try done. by rewrite Hf.
Qed.

(** An immediate commit leaves nothing in the queue. *)
Lemma commit_none_queue self env kind : queue_of kind (MultiCache.commit None self env).1 = [].
Proof.
  apply (for_caches_get (λ _ _ c', CachedState.cache c' = [])); [|done].
  intros k c e. unfold CachedState.commit.
  destruct (cache_commit (CachedState.pending c)) as [u p].
  destruct (CachedState.merge_all _ _ e) as [cur e']. by destruct (cache_merge_into u cur e').
Qed.

(** Applying an id leaves what comes behind the first later update. *)
Lemma apply_queue id self env kind :
  ∃ front, queue_of kind self = front ++ queue_of kind (MultiCache.apply id self env).1 ∧
    Forall (λ p, p.1 <= id) front ∧
    match queue_of kind (MultiCache.apply id self env).1 with [] => True | p :: _ => id < p.1 end.
Proof.
  apply (for_caches_get (λ _ c c', ∃ front,
    CachedState.cache c = front ++ CachedState.cache c' ∧ Forall (λ p, p.1 <= id) front ∧
    match CachedState.cache c' with [] => True | p :: _ => id < p.1 end)).
  - intros k c e. unfold CachedState.apply.
    destruct (apply_loop_split id (CachedState.cache c) (CachedState.current c) e)
      as (front&back&Hq&Hf&Hb&->). by exists front.
  - intros k. exists []. by repeat split.
Qed.

End multi.

(** ** Buffers *)

Section buffers.

Context (buffer : Z).

Definition assigned (assignment : option BufferAssignment.t) : nat :=
  match assignment with
  | Some (BufferAssignment.NewBuffer b) => if b =? buffer then 1 else 0
  | _ => 0
  end.

Definition state_holds (kind : CacheKind.t) : CacheKind.state kind → nat :=
  match kind with
  | CacheKind.Attributes => λ a, assigned (SurfaceAttributes.buffer a)
  | _ => λ _, 0%nat
  end.

Definition cached_holds {kind : CacheKind.t} (c : MultiCache.entry kind) : nat :=
  state_holds kind (CachedState.pending c) +
  sum_list_with (λ p, state_holds kind p.2) (CachedState.cache c) +
  state_holds kind (CachedState.current c).

(** How many versions of a surface have the buffer attached. *)
Definition holds (self : MultiCache.t) : nat :=
  sum_list_with (λ e, cached_holds (projT2 e)) self.

Lemma released_emit effects env :
  Env.released buffer (Env.emit effects env) =
    (Env.released buffer env + Env.released buffer (Env.mk effects ∅))%nat.
Proof. unfold Env.released. simpl. apply sum_list_with_app. Qed.

Lemma released_signal barrier env :
  Env.released buffer (Env.signal barrier env) = Env.released buffer env.
Proof. done. Qed.

Lemma released_points l :
  Env.released buffer (Env.mk (Effect.Discarded <$> l) ∅) = 0%nat.
Proof. unfold Env.released. simpl. by induction l. Qed.

(** A merge releases what it replaces, at most. *)
Lemma merge_balance kind (update current : CacheKind.state kind) env :
  let '(current', env') := cache_merge_into update current env in
  (state_holds kind current' + Env.released buffer env' <=
   state_holds kind update + state_holds kind current + Env.released buffer env)%nat.
Proof.
  destruct kind; simpl; try done; try lia.
  - unfold SurfaceAttributes.replaced. rewrite released_emit.
    destruct (SurfaceAttributes.buffer update) as [u|]; simpl; [|unfold Env.released at 2; simpl; lia].
    destruct (SurfaceAttributes.buffer current) as [[|prev]|]; simpl;
      try (unfold Env.released at 2; simpl; lia).
    case_decide; unfold Env.released at 2; simpl; destruct (prev =? buffer); simpl; lia.
  - unfold FifoBarrierCachedState.merge_into.
    destruct (FifoBarrierCachedState.barrier update) as [b|]; [|lia].
    destruct (_ || _); [lia|]. destruct (FifoBarrierCachedState.barrier current); simpl; [|lia].
    by rewrite released_signal.
  - unfold DrmSyncobjCachedState.merge_into.
    destruct (DrmSyncobjCachedState.acquire_point update), (DrmSyncobjCachedState.release_point update);
      try lia.
    destruct (DrmSyncobjCachedState.release_point current); [|lia]. rewrite released_emit.
    unfold Env.released at 2. simpl. lia.
  - unfold PresentationFeedbackCachedState.merge_into.
    destruct (PresentationFeedbackCachedState.callbacks update); [lia|].
    rewrite released_emit, released_points. lia.
Qed.

Lemma commit_balance kind (pending : CacheKind.state kind) :
  (state_holds kind (cache_commit pending).1 + state_holds kind (cache_commit pending).2
    = state_holds kind pending)%nat.
Proof. destruct kind; simpl; try done; lia. Qed.

Lemma merge_all_balance kind (l : list (Z * CacheKind.state kind)) cur env :
  let '(cur', env') := CachedState.merge_all l cur env in
  (state_holds kind cur' + Env.released buffer env' <=
   sum_list_with (λ p, state_holds kind p.2) l + state_holds kind cur
     + Env.released buffer env)%nat.
Proof.
  revert cur env. induction l as [|[i u] l IH]; intros cur env; simpl; [lia|].
  pose proof (merge_balance kind u cur env) as Hm.
  destruct (cache_merge_into u cur env) as [c e]. specialize (IH c e).
  destruct (CachedState.merge_all l c e) as [c' e']. lia.
Qed.

Lemma cached_commit_balance id kind (c : MultiCache.entry kind) env :
  let '(c', env') := CachedState.commit id c env in
  (cached_holds c' + Env.released buffer env' <= cached_holds c + Env.released buffer env)%nat.
Proof.
  unfold CachedState.commit, cached_holds.
  pose proof (commit_balance kind (CachedState.pending c)) as Hc.
  destruct (cache_commit (CachedState.pending c)) as [u p]. simpl in Hc.
  destruct id as [id|].
  - destruct (last (CachedState.cache c)) as [[i st]|] eqn:El;
      [destruct (i =? id)|]; try (simpl; rewrite sum_list_with_app; simpl; lia).
    apply last_Some in El as [l' El]. rewrite El, removelast_last.
    pose proof (merge_balance kind u st env) as Hm.
    destruct (cache_merge_into u st env) as [st' e'].
    simpl. rewrite !sum_list_with_app. simpl. lia.
  - pose proof (merge_all_balance kind (CachedState.cache c) (CachedState.current c) env) as Ha.
    destruct (CachedState.merge_all _ _ env) as [cur e1].
    pose proof (merge_balance kind u cur e1) as Hm.
    destruct (cache_merge_into u cur e1) as [cur' e2]. simpl. lia.
Qed.

Lemma cached_apply_balance id kind (c : MultiCache.entry kind) env :
  let '(c', env') := CachedState.apply id c env in
  (cached_holds c' + Env.released buffer env' <= cached_holds c + Env.released buffer env)%nat.
Proof.
  unfold CachedState.apply, cached_holds.
  destruct (apply_loop_split id (CachedState.cache c) (CachedState.current c) env)
    as (front&back&Hq&_&_&->). rewrite Hq, sum_list_with_app. simpl.
  pose proof (merge_all_balance kind front (CachedState.current c) env) as Ha.
  destruct (CachedState.merge_all _ _ env) as [cur e1]. simpl. lia.
Qed.

Lemma for_caches_balance f self env :
  (∀ kind (c : MultiCache.entry kind) env,
     let '(c', env') := f kind c env in
     cached_holds c' + Env.released buffer env' <= cached_holds c + Env.released buffer env)%nat →
  let '(self', env') := MultiCache.for_caches f self env in
  (holds self' + Env.released buffer env' <= holds self + Env.released buffer env)%nat.
Proof.
  intros Hf. unfold holds. revert env. induction self as [|[k c] self IH]; intros env; simpl; [lia|].
  specialize (Hf k c env). destruct (f k c env) as [c1 env1]. specialize (IH env1).
  destruct (MultiCache.for_caches f self env1) as [rest env2]. simpl. lia.
Qed.

Lemma multi_commit_balance id self env :
  let '(self', env') := MultiCache.commit id self env in
  (holds self' + Env.released buffer env' <= holds self + Env.released buffer env)%nat.
Proof. apply for_caches_balance. intros. apply cached_commit_balance. Qed.

Lemma multi_apply_balance id self env :
  let '(self', env') := MultiCache.apply id self env in
  (holds self' + Env.released buffer env' <= holds self + Env.released buffer env)%nat.
Proof. apply for_caches_balance. intros. apply cached_apply_balance. Qed.

Lemma holds_new kind : cached_holds (kind := kind) CachedState.new = 0%nat.
Proof. by destruct kind. Qed.

(** Writing one state changes the count by what changes in it. *)
Lemma cached_holds_set kind (v : MultiCache.entry kind) self :
  is_Some (found kind self) →
  (holds (AnyList.set MultiCache.entry v self) + cached_holds (MultiCache.get kind self)
    = holds self + cached_holds v)%nat.
Proof.
  rewrite get_found. unfold holds, found. induction self as [|[k c] self IH]; simpl; [by intros [? ?]|].
  destruct (decide (k = kind)) as [->|Hk]; simpl.
  - rewrite AnyList.downcast_same. simpl. lia.
  - rewrite AnyList.downcast_other by done. intros Hs. specialize (IH Hs). lia.
Qed.

Lemma holds_insert kind self : holds (MultiCache.find_or_insert kind self) = holds self.
Proof.
  unfold MultiCache.find_or_insert, AnyList.find_or_insert, AnyList.push, holds.
  destruct (AnyList.get _ kind self); [done|].
  rewrite sum_list_with_app. simpl. rewrite holds_new. lia.
Qed.

Lemma holds_update kind f self :
  (holds (MultiCache.update kind f self) + cached_holds (MultiCache.get kind self)
    = holds self + cached_holds (f (MultiCache.get kind self)))%nat.
Proof.
  unfold MultiCache.update. set (ins := MultiCache.find_or_insert kind self).
  assert (Hg : MultiCache.get kind ins = MultiCache.get kind self).
  { unfold ins, MultiCache.get, MultiCache.find_or_insert. rewrite AnyList.get_inserted.
    by destruct (AnyList.get _ kind self). }
  rewrite <- Hg. rewrite cached_holds_set.
  - unfold ins. by rewrite holds_insert.
  - unfold found, ins, MultiCache.find_or_insert. rewrite AnyList.get_inserted. by eexists.
Qed.

End buffers.
