(* ===== verification/Transaction.v ===== *)
(** * Commit transactions

    [tensor-wm/src/protocol/globals/compositor/transaction.rs]: the surfaces
    that must be applied together, the blockers they wait for, the shared cells
    that pending transactions live in, and the queue of a client. A surface
    handle is its object id; [alive] answers whether a weak handle can be
    upgraded and [protocol_id] is the number of an object on the wire. *)

From S2P Require Import Prelude Geometry Surface Cached.

(** ** Blockers *)
Module BlockerState.

Inductive t := Pending | Released | Cancelled.

#[global] Instance t_eq_dec : EqDecision t.
Proof. solve_decision. Defined.

End BlockerState.

Class Blocker (B : Type) := { blocker_state : B → Env.t → BlockerState.t }.

Module Barrier.

(** A shared flag: two handles are equal when they share it. *)
Record t := mk { flag : Z }.

#[global] Instance t_eq_dec : EqDecision t.
Proof. solve_decision. Defined.

Definition is_signaled (self : t) (env : Env.t) : bool := Env.is_signaled (flag self) env.

Definition signal (self : t) (env : Env.t) : Env.t := Env.signal (flag self) env.

(** A new flag, which nobody else has. *)
Definition new (signaled : bool) (env : Env.t) : t * Env.t :=
  let flag := fresh (dom (Env.barriers env)) in
  (mk flag, Env.mk (Env.log env) (<[flag := signaled]> (Env.barriers env))).

Definition state (self : t) (env : Env.t) : BlockerState.t :=
  if is_signaled self env then BlockerState.Released else BlockerState.Pending.

End Barrier.

#[export] Instance barrier_blocker : Blocker Barrier.t := { blocker_state := Barrier.state }.

Section transactions.

Context {B : Type} `{Blocker B}.

(** ** [TransactionState] *)

Record TransactionState := {
  ts_surfaces : list (Z * Z);
  ts_blockers : list B;
}.

Definition ts_default : TransactionState := {| ts_surfaces := []; ts_blockers := [] |}.

(** The commit of a surface that is already in the list becomes the later of
    the two. *)
Fixpoint insert_surface (surface commit : Z) (surfaces : list (Z * Z)) : list (Z * Z) :=
  match surfaces with
  | [] => [(surface, commit)]
  | (known, c) :: rest =>
      if known =? surface then (known, Z.max c commit) :: rest
      else (known, c) :: insert_surface surface commit rest
  end.

Definition ts_insert (surface commit : Z) (self : TransactionState) : TransactionState :=
  {| ts_surfaces := insert_surface surface commit (ts_surfaces self);
     ts_blockers := ts_blockers self |}.

Definition ts_push_blocker (blocker : B) (self : TransactionState) : TransactionState :=
  {| ts_surfaces := ts_surfaces self; ts_blockers := ts_blockers self ++ [blocker] |}.

(** ** [TransactionInner] and the cells that share it *)

Inductive TransactionInner :=
| Data (state : TransactionState)
| Fused (next : Z).

(** An [Arc<Mutex<TransactionInner>>] is an address; [strong] counts the
    handles. The guards are dropped before another cell is locked. *)
Record ArcCell := { strong : nat; inner : TransactionInner }.

#[local] Notation Heap := (gmap Z ArcCell).

Definition arc_new (contents : TransactionInner) (heap : Heap) : Z * Heap :=
  let address := fresh (dom heap) in
  (address, <[address := {| strong := 1; inner := contents |}]> heap).

Definition arc_clone (address : Z) (heap : Heap) : Heap :=
  alter (λ cell, {| strong := S (strong cell); inner := inner cell |}) address heap.

(** Dropping the last handle of a cell drops what it holds. *)
Fixpoint arc_drop_loop (fuel : nat) (address : Z) (heap : Heap) : Heap :=
  match fuel with
  | O => heap
  | S fuel =>
      match heap !! address with
      | None => heap
      | Some cell =>
          match strong cell with
          | S (S n) => <[address := {| strong := S n; inner := inner cell |}]> heap
          | _ =>
              let heap := delete address heap in
              match inner cell with
              | Data _ => heap
              | Fused next => arc_drop_loop fuel next heap
              end
          end
      end
  end.

Definition arc_drop (address : Z) (heap : Heap) : Heap :=
  arc_drop_loop (S (size heap)) address heap.

Definition set_inner (address : Z) (contents : TransactionInner) (heap : Heap) : Heap :=
  alter (λ cell, {| strong := strong cell; inner := contents |}) address heap.

(** ** [PendingTransaction]

    A pending transaction is the address in its [inner] field. The walk along
    [Fused] cells holds one extra handle at a time and returns it. *)

Definition pending_default (heap : Heap) : Z * Heap := arc_new (Data ts_default) heap.

Fixpoint find_data (fuel : nat) (current : Z) (heap : Heap) : option (Z * TransactionState) :=
  match fuel with
  | O => None
  | S fuel =>
      match heap !! current with
      | None => None
      | Some cell =>
          match inner cell with
          | Data state => Some (current, state)
          | Fused next => find_data fuel next heap
          end
      end
  end.

(** The cell with the data, and the data; a walk over more cells than there are
    would never end. *)
Definition with_state (self : Z) (heap : Heap) : option (Z * TransactionState) :=
  find_data (S (size heap)) self heap.

Definition update_state (self : Z) (f : TransactionState → TransactionState) (heap : Heap) :
    option Heap :=
  '(address, state) ← with_state self heap;
  Some (set_inner address (Data (f state)) heap).

Definition is_empty (self : Z) (heap : Heap) : option bool :=
  '(_, state) ← with_state self heap;
  Some (bool_decide (ts_surfaces state = []) && match ts_blockers state with [] => true | _ => false end).

Definition insert (self surface commit : Z) (heap : Heap) : option Heap :=
  update_state self (ts_insert surface commit) heap.

Definition add_blocker (self : Z) (blocker : B) (heap : Heap) : option Heap :=
  update_state self (ts_push_blocker blocker) heap.

Definition is_same_as (self other : Z) (heap : Heap) : option bool :=
  '(own, _) ← with_state self heap;
  '(theirs, _) ← with_state other heap;
  Some (own =? theirs).

(** What a merge adds to the target: the surfaces that still exist, with their
    commits, and the blockers. *)
Definition absorb (alive : Z → bool) (state target : TransactionState) : TransactionState :=
  let merged := foldl (λ target '(surface, commit),
    if alive surface then ts_insert surface commit target else target) target (ts_surfaces state) in
  {| ts_surfaces := ts_surfaces merged; ts_blockers := ts_blockers merged ++ ts_blockers state |}.

Definition merge_into (alive : Z → bool) (self target : Z) (heap : Heap) : option Heap :=
  same ← is_same_as self target heap;
  if (same : bool) then Some heap
  else
    '(address, state) ← with_state self heap;
    let heap := set_inner address (Fused target) (arc_clone target heap) in
    update_state target (absorb alive state) heap.

(** ** [Transaction] *)

Record Transaction := {
  tx_surfaces : list (Z * Z);
  tx_blockers : list B;
}.

(** [Arc::try_unwrap] fails when there are other handles; [None] is the panic. *)
Fixpoint finalize_loop (fuel : nat) (self : Z) (heap : Heap) : option (Transaction * Heap) :=
  match fuel with
  | O => None
  | S fuel =>
      cell ← heap !! self;
      if bool_decide (strong cell = 1%nat) then
        let heap := delete self heap in
        match inner cell with
        | Data state =>
            Some ({| tx_surfaces := ts_surfaces state; tx_blockers := ts_blockers state |}, heap)
        | Fused next => finalize_loop fuel next heap
        end
      else None
  end.

Definition finalize (self : Z) (heap : Heap) : option (Transaction * Heap) :=
  finalize_loop (S (size heap)) self heap.

Section queue.

Context (alive : Z → bool) (protocol_id : Z → Z) (env : Env.t).

Definition combine (state : BlockerState.t) (blocker : B) : BlockerState.t :=
  match state, blocker_state blocker env with
  | BlockerState.Cancelled, _ | _, BlockerState.Cancelled => BlockerState.Cancelled
  | BlockerState.Pending, _ | _, BlockerState.Pending => BlockerState.Pending
  | BlockerState.Released, BlockerState.Released => BlockerState.Released
  end.

Definition tx_state (self : Transaction) : BlockerState.t :=
  if existsb (λ '(surface, _), alive surface) (tx_surfaces self) then
    foldl combine BlockerState.Released (tx_blockers self)
  else BlockerState.Cancelled.

(** ** [TransactionQueue] *)

(** The ids of the surfaces that still exist. *)
Definition alive_ids (tx : Transaction) : list Z :=
  protocol_id <$> filter (λ s, alive s = true) (tx_surfaces tx).*1.

(** The loop of [take_ready] from some index on: what is ready, what stays and
    the surfaces seen. *)
Fixpoint take_ready_loop (transactions : list Transaction) (seen_surfaces : gset Z) :
    list Transaction * list Transaction * gset Z :=
  match transactions with
  | [] => ([], [], seen_surfaces)
  | tx :: rest =>
      match tx_state tx with
      | BlockerState.Cancelled => take_ready_loop rest seen_surfaces
      | state =>
          let blocked :=
            match state with
            | BlockerState.Pending => true
            | _ => existsb (λ id, bool_decide (id ∈ seen_surfaces)) (alive_ids tx)
            end in
          if blocked then
            let '(ready, kept, seen) :=
              take_ready_loop rest (list_to_set (alive_ids tx) ∪ seen_surfaces) in
            (ready, tx :: kept, seen)
          else
            let '(ready, kept, seen) := take_ready_loop rest seen_surfaces in
            (tx :: ready, kept, seen)
      end
  end.

End queue.

Record TransactionQueue := {
  transactions : list Transaction;
  seen_surfaces : gset Z;
}.

Definition queue_default : TransactionQueue := {| transactions := []; seen_surfaces := ∅ |}.

Definition queue_push (tx : Transaction) (self : TransactionQueue) : TransactionQueue :=
  {| transactions := transactions self ++ [tx]; seen_surfaces := seen_surfaces self |}.

Definition take_ready (alive : Z → bool) (protocol_id : Z → Z) (env : Env.t)
    (self : TransactionQueue) : list Transaction * TransactionQueue :=
  let '(ready, kept, seen) := take_ready_loop alive protocol_id env (transactions self) ∅ in
  (ready, {| transactions := kept; seen_surfaces := seen |}).

End transactions.

Arguments TransactionState B : clear implicits.
Arguments TransactionInner B : clear implicits.
Arguments ArcCell B : clear implicits.
Arguments Transaction B : clear implicits.
Arguments TransactionQueue B : clear implicits.

Notation Heap B := (gmap Z (ArcCell B)).
