(* ===== verification/TransactionSpec.v ===== *)
(** * Transactions are released in order

    Facts about [Transaction]: which transactions of a queue are ready, and what
    merging does to cells that nobody else shares. *)

From S2P Require Import Prelude Geometry Surface Cached Transaction.

(** ** The queue of a client *)

Section queue.

Context {B : Type} `{Blocker B} (alive : Z → bool) (protocol_id : Z → Z) (env : Env.t).

Implicit Types (txs : list (Transaction B)) (tx : Transaction B).

#[local] Notation state := (tx_state alive env).

(** Two transactions that would change the same surface. *)
Definition shares tx tx' : Prop :=
  ∃ surface, alive surface = true ∧
    surface ∈ (tx_surfaces tx).*1 ∧ surface ∈ (tx_surfaces tx').*1.

(** A transaction waits when a blocker holds it, or when it would overtake one
    that waits. *)
Inductive waits txs : nat → Prop :=
| waits_pending i tx :
    txs !! i = Some tx → state tx = BlockerState.Pending → waits txs i
| waits_behind i j tx tx' :
    (j < i)%nat → txs !! i = Some tx → txs !! j = Some tx' →
    state tx = BlockerState.Released → waits txs j → shares tx tx' → waits txs i.

(** The ids of live objects are unique. *)
Definition unique_ids txs : Prop :=
  ∀ a b, a ∈ (mjoin (tx_surfaces <$> txs)).*1 → b ∈ (mjoin (tx_surfaces <$> txs)).*1 →
    alive a = true → alive b = true → protocol_id a = protocol_id b → a = b.

Definition is_blocked tx (seen : gset Z) : bool :=
  match state tx with
  | BlockerState.Cancelled => false
  | BlockerState.Pending => true
  | BlockerState.Released =>
      existsb (λ id, bool_decide (id ∈ seen)) (alive_ids alive protocol_id tx)
  end.

(** Which entries the loop keeps. *)
Fixpoint waiting txs (seen : gset Z) : list bool :=
  match txs with
  | [] => []
  | tx :: rest =>
      let blocked := is_blocked tx seen in
      blocked :: waiting rest
        (if blocked then list_to_set (alive_ids alive protocol_id tx) ∪ seen else seen)
  end.

(** The elements that a list of flags marks. *)
Fixpoint marked {A} (flags : list bool) (l : list A) : list A :=
  match flags, l with
  | flag :: flags, a :: l => if (flag : bool) then a :: marked flags l else marked flags l
  | _, _ => []
  end.

Definition is_ready tx (waits : bool) : bool :=
  bool_decide (state tx = BlockerState.Released) && negb waits.

Lemma take_ready_waiting txs seen :
  let flags := waiting txs seen in
  ∃ seen', take_ready_loop alive protocol_id env txs seen =
    (marked (zip_with is_ready txs flags) txs, marked flags txs, seen').
Proof.
  revert seen. induction txs as [|tx txs IH]; intros seen; simpl; [by eexists|].
  unfold is_ready at 1, is_blocked.
  destruct (state tx) eqn:E; simpl.
  - destruct (IH (list_to_set (alive_ids alive protocol_id tx) ∪ seen)) as [s' ->]. by eexists.
  - destruct (existsb _ _); simpl.
    + destruct (IH (list_to_set (alive_ids alive protocol_id tx) ∪ seen)) as [s' ->]. by eexists.
    + destruct (IH seen) as [s' ->]. by eexists.
  - apply IH.
Qed.

Lemma is_blocked_iff tx seen :
  is_blocked tx seen = true ↔
    state tx = BlockerState.Pending ∨
    (state tx = BlockerState.Released ∧
     ∃ id, id ∈ alive_ids alive protocol_id tx ∧ id ∈ seen).
Proof.
  unfold is_blocked. destruct (state tx); [naive_solver| |naive_solver].
  rewrite existsb_exists. setoid_rewrite <- list_elem_of_In. setoid_rewrite bool_decide_eq_true.
  naive_solver.
Qed.

Lemma waiting_iff txs seen i :
  waiting txs seen !! i = Some true ↔
    ∃ tx, txs !! i = Some tx ∧
      (state tx = BlockerState.Pending ∨
       (state tx = BlockerState.Released ∧
        ∃ id, id ∈ alive_ids alive protocol_id tx ∧
          (id ∈ seen ∨ ∃ j tx', (j < i)%nat ∧ waiting txs seen !! j = Some true ∧
             txs !! j = Some tx' ∧ id ∈ alive_ids alive protocol_id tx'))).
Proof.
  revert seen i. induction txs as [|t txs IH]; intros seen i; [naive_solver|].
  cbn [waiting]. destruct i as [|i]; simpl.
  - split.
    + intros [= Hb%is_blocked_iff]. exists t. split; [done|]. naive_solver.
    + intros (tx&[= <-]&Hs). f_equal. apply is_blocked_iff.
      destruct Hs as [?|(?&id&?&[?|(j&?&?&_)])]; [by left|right; eauto|lia].
  - rewrite IH. clear IH. set (b := is_blocked t seen).
    split; intros (tx&Htx&Hs); exists tx; (split; [done|]); destruct Hs as [?|(Hr&id&Hid&Hs)];
      [by left| |by left|]; right; (split; [done|]); exists id; (split; [done|]).
    + destruct Hs as [Hs|(j&tx'&?&?&?&?)].
      * destruct b eqn:Eb; [|by left]. apply elem_of_union in Hs as [Hs|Hs]; [|by left].
        right. exists 0%nat, t. apply elem_of_list_to_set in Hs. split; [lia|]. by simpl.
      * right. exists (S j), tx'. split; [lia|]. by simpl.
    + destruct Hs as [Hs|([|j]&tx'&?&?&?&?)]; simpl in *.
      * left. destruct b; set_solver.
      * left. assert (b = true) as -> by congruence. simplify_eq. set_solver.
      * right. exists j, tx'. split; [lia|done].
Qed.

Lemma alive_ids_elem tx id :
  id ∈ alive_ids alive protocol_id tx ↔
    ∃ s, s ∈ (tx_surfaces tx).*1 ∧ alive s = true ∧ id = protocol_id s.
Proof.
  unfold alive_ids. rewrite list_elem_of_fmap. setoid_rewrite list_elem_of_filter. naive_solver.
Qed.

Lemma joined_elem txs i tx s :
  txs !! i = Some tx → s ∈ (tx_surfaces tx).*1 → s ∈ (mjoin (tx_surfaces <$> txs)).*1.
Proof.
  intros Hi (p&->&Hp)%list_elem_of_fmap. apply list_elem_of_fmap. exists p. split; [done|].
  apply list_elem_of_join. exists (tx_surfaces tx). split; [done|].
  apply list_elem_of_fmap. exists tx. split; [done|]. by eapply list_elem_of_lookup_2.
Qed.

Lemma waiting_waits txs i :
  unique_ids txs → waiting txs ∅ !! i = Some true ↔ waits txs i.
Proof.
  intros Hu. induction i as [i IH] using lt_wf_ind. rewrite waiting_iff. split.
  - intros (tx&Htx&[Hp|(Hr&id&Hid&[Hs|(j&tx'&Hj&Hw&Htx'&Hid')])]).
    + by eapply waits_pending.
    + set_solver.
    + apply alive_ids_elem in Hid as (s&Hs&Ha&->).
      apply alive_ids_elem in Hid' as (s'&Hs'&Ha'&Heq).
      assert (s' = s) as -> by (eapply Hu; eauto using joined_elem).
      eapply waits_behind; [done..|by apply IH|by exists s].
  - intros Hw. destruct Hw as [i tx Htx Hp|i j tx tx' Hj Htx Htx' Hr Hw (s&Ha&Hs&Hs')].
    + exists tx. split; [done|]. by left.
    + exists tx. split; [done|]. right. split; [done|]. exists (protocol_id s).
      split; [apply alive_ids_elem; eauto|]. right. exists j, tx'.
      split; [done|]. split; [by apply IH|]. split; [done|]. apply alive_ids_elem. eauto.
Qed.

Lemma waiting_length txs seen : length (waiting txs seen) = length txs.
Proof. revert seen. induction txs as [|t txs IH]; intros seen; simpl; [done|]. by rewrite IH. Qed.

End queue.

Section ready.

Context {B : Type} `{Blocker B} (alive : Z → bool) (protocol_id : Z → Z) (env : Env.t).

Implicit Types (txs : list (Transaction B)) (tx : Transaction B).

(** What was kept would be kept again. *)
Lemma waiting_kept txs seen :
  Forall (λ w, w = true)
    (waiting alive protocol_id env (marked (waiting alive protocol_id env txs seen) txs) seen).
Proof.
  revert seen. induction txs as [|t txs IH]; intros seen; simpl; [constructor|].
  destruct (is_blocked alive protocol_id env t seen) eqn:Eb; [|apply IH].
  simpl. rewrite Eb. constructor; [done|apply IH].
Qed.

Lemma marked_ready_none txs flags :
  Forall (λ w, w = true) flags → marked (zip_with (is_ready alive env) txs flags) txs = [].
Proof.
  revert txs. induction flags as [|w flags IH]; intros [|t txs] Hf; simpl; try done.
  inversion Hf as [|? ? -> Hf']; subst. unfold is_ready at 1. rewrite andb_false_r. by apply IH.
Qed.

End ready.

(** C6: The transaction queue applies commits in order: a transaction is kept
    exactly when one of its blockers is pending or when it shares a living
    surface with an earlier one that is kept; every other one is handed out, in
    the order of the queue, unless it is cancelled, and dropped then; nothing is
    ready right afterwards. *)
Theorem take_ready_exact {B : Type} `{Blocker B} (alive : Z → bool) (protocol_id : Z → Z)
    (env : Env.t) (self : TransactionQueue B) :
  unique_ids alive protocol_id (transactions self) →
  let '(ready, self') := take_ready alive protocol_id env self in
  ∃ flags : list bool, length flags = length (transactions self) ∧
    (∀ i, flags !! i = Some true ↔ waits alive env (transactions self) i) ∧
    transactions self' = marked flags (transactions self) ∧
    ready = marked (zip_with (is_ready alive env) (transactions self) flags) (transactions self) ∧
    (take_ready alive protocol_id env self').1 = [].
Proof.
  intros Hu. unfold take_ready.
  destruct (take_ready_waiting alive protocol_id env (transactions self) ∅) as [seen' ->].
  exists (waiting alive protocol_id env (transactions self) ∅).
  split; [apply waiting_length|]. split; [intros i; by apply waiting_waits|].
  do 2 (split; [done|]). simpl. set (kept := marked _ _).
  destruct (take_ready_waiting alive protocol_id env kept ∅) as [seen2 ->].
  apply marked_ready_none, waiting_kept.
Qed.

(** The first transaction waits for its barrier, the second one for the first
    and the third one for nothing. *)
Lemma take_ready_exact_witness :
  let tx s b := {| tx_surfaces := [(s, 0)]; tx_blockers := b |} in
  let self := {| transactions := [tx 1 [Barrier.mk 7]; tx 1 []; tx 2 []]; seen_surfaces := ∅ |} in
  let env := Env.mk [] (<[7 := false]> ∅) in
  (take_ready (λ _, true) id env self).1 = [tx 2 []] ∧
  waits (λ _, true) env (transactions self) 1 ∧
  (take_ready (λ _, true) id env (take_ready (λ _, true) id env self).2).1 = [].
Proof.
  intros tx self env.
  assert (Hu : unique_ids (λ _, true) id (transactions self)) by (intros a b _ _ _ _ E; exact E).
  pose proof (take_ready_exact (λ _, true) id env self Hu) as Ht.
  split; [vm_compute; reflexivity|]. split.
  - eapply (waits_behind _ _ _ 1 0 (tx 1 []) (tx 1 [Barrier.mk 7])); try reflexivity; [lia| |].
    + eapply waits_pending; reflexivity.
    + exists 1. split; [done|]. split; simpl; by left.
  - destruct (take_ready (λ _, true) id env self) as [ready self'].
    destruct Ht as (flags&_&_&_&_&Hn). exact Hn.
Defined.

(** ** Cells that nobody else shares *)

Section cells.

Context {B : Type} `{Blocker B}.

Implicit Types (heap : Heap B).

Definition owned heap (address : Z) (state : TransactionState B) : Prop :=
  heap !! address = Some {| strong := 1; inner := Data state |}.

Lemma with_state_data heap a n st :
  heap !! a = Some {| strong := n; inner := Data st |} → with_state a heap = Some (a, st).
Proof. intros Ha. unfold with_state. simpl. by rewrite Ha. Qed.

Lemma update_state_data heap a n st f :
  heap !! a = Some {| strong := n; inner := Data st |} →
  update_state a f heap = Some (<[a := {| strong := n; inner := Data (f st) |}]> heap).
Proof.
  intros Ha. unfold update_state. rewrite (with_state_data _ _ _ _ Ha). simpl. f_equal.
  unfold set_inner. apply (map_eq (M := gmap Z)). intros x. destruct (decide (x = a)) as [->|].
  - by rewrite lookup_alter_eq, Ha, lookup_insert_eq.
  - by rewrite lookup_alter_ne, lookup_insert_ne.
Qed.

Lemma is_empty_data heap a n st :
  heap !! a = Some {| strong := n; inner := Data st |} →
  is_empty a heap =
    Some (bool_decide (ts_surfaces st = []) && match ts_blockers st with [] => true | _ => false end).
Proof. intros Ha. unfold is_empty. by rewrite (with_state_data _ _ _ _ Ha). Qed.

Lemma arc_new_owned st heap :
  heap !! (arc_new (Data st) heap).1 = None ∧
  owned (arc_new (Data st) heap).2 (arc_new (Data st) heap).1 st ∧
  ∀ x, x ≠ (arc_new (Data st) heap).1 → (arc_new (Data st) heap).2 !! x = heap !! x.
Proof.
  unfold arc_new, owned. simpl. split; [apply not_elem_of_dom, is_fresh|].
  split; [by rewrite lookup_insert_eq|]. intros x Hx. by rewrite lookup_insert_ne.
Qed.

(** Merging moves the state into the target and leaves a cell that the next drop
    deletes. *)
Lemma merge_drop alive heap a b sa sb :
  a ≠ b → owned heap a sa → owned heap b sb →
  ∃ heap1 heap2, merge_into alive a b heap = Some heap1 ∧ arc_drop a heap1 = heap2 ∧
    owned heap2 b (absorb alive sa sb) ∧
    heap2 !! a = None ∧ ∀ x, x ≠ a → x ≠ b → heap2 !! x = heap !! x.
Proof.
  intros Hab Ha Hb. unfold merge_into, is_same_as.
  rewrite (with_state_data _ _ _ _ Ha), (with_state_data _ _ _ _ Hb). simpl.
  rewrite (proj2 (Z.eqb_neq a b)) by done. simpl.
  set (h1 := set_inner a (Fused b) (arc_clone b heap)).
  assert (Hb1 : h1 !! b = Some {| strong := 2; inner := Data sb |}).
  { unfold h1, set_inner, arc_clone. by rewrite lookup_alter_ne, lookup_alter_eq, Hb. }
  rewrite (update_state_data _ _ _ _ _ Hb1). set (h2 := <[b := _]> h1).
  exists h2, (arc_drop a h2). split; [done|]. split; [done|].
  assert (Ha2 : h2 !! a = Some {| strong := 1; inner := Fused b |}).
  { unfold h2, h1, set_inner, arc_clone.
    by rewrite lookup_insert_ne, lookup_alter_eq, lookup_alter_ne, Ha. }
  assert (Hb2 : delete a h2 !! b = Some {| strong := 2; inner := Data (absorb alive sa sb) |})
    by (unfold h2; by rewrite lookup_delete_ne, lookup_insert_eq).
  assert (Hd : arc_drop a h2 =
    <[b := {| strong := 1; inner := Data (absorb alive sa sb) |}]> (delete a h2)).
  { unfold arc_drop. assert (size h2 ≠ 0%nat) as Hsz.
    { intros E%map_size_empty_inv. rewrite E in Ha2. by rewrite lookup_empty in Ha2. }
    destruct (size h2) as [|k]; [done|]. cbn [arc_drop_loop]. rewrite Ha2. simpl.
    by rewrite Hb2. }
  rewrite Hd. unfold owned.
  split; [by rewrite lookup_insert_eq|].
  split; [by rewrite lookup_insert_ne, lookup_delete_eq|].
  intros x Hxa Hxb. unfold h2, h1, set_inner, arc_clone.
  by rewrite lookup_insert_ne, lookup_delete_ne, lookup_insert_ne, !lookup_alter_ne by done.
Qed.

(** The commits in a state only become later. *)
Lemma insert_surface_elem s c l x k :
  (x, k) ∈ l → ∃ k', k <= k' ∧ (x, k') ∈ insert_surface s c l.
Proof.
  induction l as [|[y j] l IH]; simpl; [by intros ?%elem_of_nil|].
  intros [[= <- <-]|Hx]%elem_of_cons.
  - destruct (x =? s); [exists (Z.max k c)|exists k]; (split; [lia|by left]).
  - destruct (IH Hx) as (k'&?&?). destruct (y =? s).
    + exists k. split; [lia|by right].
    + exists k'. split; [lia|by right].
Qed.

Lemma insert_surface_here s c l : ∃ k, c <= k ∧ (s, k) ∈ insert_surface s c l.
Proof.
  induction l as [|[y j] l (k&?&?)]; simpl; [exists c; split; [lia|by left]|].
  destruct (Z.eqb_spec y s) as [->|].
  - exists (Z.max j c). split; [lia|by left].
  - exists k. split; [done|by right].
Qed.

(** [st] commits [s] up to [c]. *)
Definition commits_at (st : list (Z * Z)) (s c : Z) : Prop := ∃ k, c <= k ∧ (s, k) ∈ st.

Lemma insert_surface_commits s c l x k :
  commits_at l x k → commits_at (insert_surface s c l) x k.
Proof.
  intros (j&Hj&Hx). destruct (insert_surface_elem s c l x j Hx) as (i&?&?).
  exists i. split; [lia|done].
Qed.

Lemma absorb_loop (alive : Z → bool) (l : list (Z * Z)) (target : TransactionState B) :
  let merged := foldl (λ (target : TransactionState B) '(surface, commit),
    if alive surface then ts_insert surface commit target else target) target l in
  ts_blockers merged = ts_blockers target ∧
  (∀ x k, commits_at (ts_surfaces target) x k → commits_at (ts_surfaces merged) x k) ∧
  (∀ x k, (x, k) ∈ l → alive x = true → commits_at (ts_surfaces merged) x k).
Proof.
  revert target. induction l as [|[s c] l IH]; intros target; simpl.
  { split; [done|]. split; [done|]. by intros x k ?%elem_of_nil. }
  destruct (alive s) eqn:Es.
  - destruct (IH (ts_insert s c target)) as (Hb&Ht&Hl). split; [done|]. split.
    + intros x k Hx. apply Ht. by apply insert_surface_commits.
    + intros x k [[= -> ->]|Hx]%elem_of_cons Ha; [|by apply Hl].
      apply Ht, insert_surface_here.
  - destruct (IH target) as (Hb&Ht&Hl). split; [done|]. split; [done|].
    intros x k [[= -> ->]|Hx]%elem_of_cons Ha; [congruence|by apply Hl].
Qed.

Lemma absorb_blockers alive (state target : TransactionState B) :
  ts_blockers (absorb alive state target) = ts_blockers target ++ ts_blockers state.
Proof. unfold absorb. simpl. by rewrite (proj1 (absorb_loop alive (ts_surfaces state) target)). Qed.

Lemma absorb_target alive (state target : TransactionState B) x k :
  commits_at (ts_surfaces target) x k → commits_at (ts_surfaces (absorb alive state target)) x k.
Proof. apply (absorb_loop alive (ts_surfaces state) target). Qed.

Lemma absorb_state alive (state target : TransactionState B) x k :
  commits_at (ts_surfaces state) x k → alive x = true →
  commits_at (ts_surfaces (absorb alive state target)) x k.
Proof.
  intros (j&Hj&Hx) Ha.
  destruct (absorb_loop alive (ts_surfaces state) target) as (_&_&Hl).
  destruct (Hl x j Hx Ha) as (i&?&?). exists i. split; [lia|done].
Qed.

Lemma finalize_owned heap a st :
  owned heap a st →
  finalize a heap =
    Some ({| tx_surfaces := ts_surfaces st; tx_blockers := ts_blockers st |}, delete a heap).
Proof. intros Ha. unfold finalize. simpl. by rewrite Ha. Qed.

End cells.
