(* ===== verification/SurfaceTree.v ===== *)
(** * The surface tree

    [tensor-wm/src/protocol/globals/compositor.rs], [compositor/tree.rs] and
    [compositor/wire.rs]: surfaces with their parents, children and roles,
    commits of synchronised and unsynchronised surfaces, the transactions of a
    client, and the requests of the core compositor protocol.

    All surfaces live in one store, behind a mutex each: [locked] is the set of
    mutexes that are held, and locking one of them again is a deadlock, which is
    the [Panic] of a method as a failed [expect] is. What the rest of the
    compositor does when it is called back is a parameter ([Handlers]). *)

From Stdlib Require Import Floats.SpecFloat Strings.String.
From S2P Require Import Prelude Geometry Surface Cached Transaction.

(** ** Data *)
Module Hook.

(** [callback] names a closure. *)
Record t := mk { id : Z; callback : Z }.

End Hook.

Module SurfaceData.

Record t := mk {
  role : option string;
  data_map : SurfaceDataMap.t;
  cached_state : MultiCache.t;
}.

Definition set_role (role : option string) (self : t) : t :=
  mk role (data_map self) (cached_state self).

Definition set_data_map (data_map : SurfaceDataMap.t) (self : t) : t :=
  mk (role self) data_map (cached_state self).

Definition set_cached_state (cached_state : MultiCache.t) (self : t) : t :=
  mk (role self) (data_map self) cached_state.

End SurfaceData.

Module PrivateSurfaceData.

(** [pending_transaction] is the address of its cell. *)
Record t := mk {
  parent : option Z;
  children : list Z;
  public : SurfaceData.t;
  pending_transaction : Z;
  current_commit : Z;
  pre_commit_hooks : list Hook.t;
  post_commit_hooks : list Hook.t;
  destruction_hooks : list Hook.t;
}.

Definition set_parent (parent : option Z) (d : t) : t :=
  mk parent (children d) (public d) (pending_transaction d) (current_commit d)
     (pre_commit_hooks d) (post_commit_hooks d) (destruction_hooks d).

Definition set_children (children : list Z) (d : t) : t :=
  mk (parent d) children (public d) (pending_transaction d) (current_commit d)
     (pre_commit_hooks d) (post_commit_hooks d) (destruction_hooks d).

Definition set_public (public : SurfaceData.t) (d : t) : t :=
  mk (parent d) (children d) public (pending_transaction d) (current_commit d)
     (pre_commit_hooks d) (post_commit_hooks d) (destruction_hooks d).

Definition set_pending_transaction (pending_transaction : Z) (d : t) : t :=
  mk (parent d) (children d) (public d) pending_transaction (current_commit d)
     (pre_commit_hooks d) (post_commit_hooks d) (destruction_hooks d).

Definition set_current_commit (current_commit : Z) (d : t) : t :=
  mk (parent d) (children d) (public d) (pending_transaction d) current_commit
     (pre_commit_hooks d) (post_commit_hooks d) (destruction_hooks d).

Definition set_hooks (pre post destruction : list Hook.t) (d : t) : t :=
  mk (parent d) (children d) (public d) (pending_transaction d) (current_commit d)
     pre post destruction.

Definition new (pending_transaction : Z) : t :=
  mk None [] (SurfaceData.mk None SurfaceDataMap.default MultiCache.new) pending_transaction 0
     [] [] [].

End PrivateSurfaceData.

Module SurfaceUserData.

(** [client_state] is the address of the client's shared state. *)
Record t := mk { inner : PrivateSurfaceData.t; client : Z; client_state : Z }.

End SurfaceUserData.

Module CompositorClientState.

Record t := mk { queue : option (TransactionQueue Barrier.t); client_scale : spec_float }.

Definition default : t := mk None (F64.of_int 1).

Definition is_positive (scale : spec_float) : bool :=
  match scale with S754_finite false _ _ => true | _ => false end.

Definition set_client_scale (scale : spec_float) (self : t) : t :=
  mk (queue self) (if is_positive scale then scale else F64.of_int 1).

End CompositorClientState.

Module ClientEntry.

Record t := mk { state : Z; surfaces : Z }.

End ClientEntry.

Module Location.

Inductive t := Before | After.

End Location.

Module TraversalAction.

Inductive t (T : Type) := DoChildren (state : T) | SkipChildren | Break.

Arguments DoChildren {T} state.
Arguments SkipChildren {T}.
Arguments Break {T}.

End TraversalAction.

Module WireEvent.

Inductive Error :=
| InvalidOffset | InvalidTransform | InvalidScale | BadSurface.

Inductive t :=
| PostError (resource : Z) (error : Error)
| PreferredBufferScale (surface scale : Z)
| PreferredBufferTransform (surface transform : Z).

End WireEvent.

(** [AlreadyHasRole] and the unit error of [reorder]. *)
Module TreeError.

Inductive t := AlreadyHasRole | NotSibling.

End TreeError.

Definition SUBSURFACE_ROLE : string := "subsurface".

(** ** The state of the compositor *)
Module World.

Section world.

Context {R : Type}.

(** [alive] are the surfaces whose wire object exists; [subsurfaces] maps a
    wl_subsurface object to its surface and [regions] a wl_region object to its
    attributes. [heap] and [client_states] hold what is shared behind [Arc]s,
    [rest] is the state of the rest of the compositor. *)
Record t := mk {
  surfaces : gmap Z SurfaceUserData.t;
  locked : gset Z;
  alive : gset Z;
  heap : Heap Barrier.t;
  client_states : gmap Z CompositorClientState.t;
  clients : gmap Z ClientEntry.t;
  regions : gmap Z RegionAttributes.t;
  subsurfaces : gmap Z Z;
  next_hook_id : Z;
  env : Env.t;
  events : list WireEvent.t;
  rest : R;
}.

Definition set_surfaces v (w : t) : t :=
  mk v (locked w) (alive w) (heap w) (client_states w) (clients w) (regions w) (subsurfaces w)
     (next_hook_id w) (env w) (events w) (rest w).

Definition set_locked v (w : t) : t :=
  mk (surfaces w) v (alive w) (heap w) (client_states w) (clients w) (regions w) (subsurfaces w)
     (next_hook_id w) (env w) (events w) (rest w).

Definition set_alive v (w : t) : t :=
  mk (surfaces w) (locked w) v (heap w) (client_states w) (clients w) (regions w) (subsurfaces w)
     (next_hook_id w) (env w) (events w) (rest w).

Definition set_heap v (w : t) : t :=
  mk (surfaces w) (locked w) (alive w) v (client_states w) (clients w) (regions w) (subsurfaces w)
     (next_hook_id w) (env w) (events w) (rest w).

Definition set_client_states v (w : t) : t :=
  mk (surfaces w) (locked w) (alive w) (heap w) v (clients w) (regions w) (subsurfaces w)
     (next_hook_id w) (env w) (events w) (rest w).

Definition set_clients v (w : t) : t :=
  mk (surfaces w) (locked w) (alive w) (heap w) (client_states w) v (regions w) (subsurfaces w)
     (next_hook_id w) (env w) (events w) (rest w).

Definition set_regions v (w : t) : t :=
  mk (surfaces w) (locked w) (alive w) (heap w) (client_states w) (clients w) v (subsurfaces w)
     (next_hook_id w) (env w) (events w) (rest w).

Definition set_subsurfaces v (w : t) : t :=
  mk (surfaces w) (locked w) (alive w) (heap w) (client_states w) (clients w) (regions w) v
     (next_hook_id w) (env w) (events w) (rest w).

Definition set_next_hook_id v (w : t) : t :=
  mk (surfaces w) (locked w) (alive w) (heap w) (client_states w) (clients w) (regions w)
     (subsurfaces w) v (env w) (events w) (rest w).

Definition set_env v (w : t) : t :=
  mk (surfaces w) (locked w) (alive w) (heap w) (client_states w) (clients w) (regions w)
     (subsurfaces w) (next_hook_id w) v (events w) (rest w).

Definition set_events v (w : t) : t :=
  mk (surfaces w) (locked w) (alive w) (heap w) (client_states w) (clients w) (regions w)
     (subsurfaces w) (next_hook_id w) (env w) v (rest w).

Definition set_rest v (w : t) : t :=
  mk (surfaces w) (locked w) (alive w) (heap w) (client_states w) (clients w) (regions w)
     (subsurfaces w) (next_hook_id w) (env w) (events w) v.

Definition new (rest : R) : t :=
  mk ∅ ∅ ∅ ∅ ∅ ∅ ∅ ∅ 1 (Env.mk [] ∅) [] rest.

Definition is_alive (w : t) (surface : Z) : bool := bool_decide (surface ∈ alive w).

Definition data (w : t) (surface : Z) : option PrivateSurfaceData.t :=
  SurfaceUserData.inner <$> surfaces w !! surface.

Definition write (surface : Z) (d : PrivateSurfaceData.t) (w : t) : t :=
  set_surfaces (alter (λ u, SurfaceUserData.mk d (SurfaceUserData.client u)
    (SurfaceUserData.client_state u)) surface (surfaces w)) w.

End world.

Arguments t : clear implicits.

End World.

(** What the Wayland library knows of an object. *)
Class Objects := { version : Z → Z; protocol_id : Z → Z }.

(** What the other parts of the compositor do when they are called back: the
    closures that were registered as hooks, and [handlers.rs]. *)
Class Handlers (R : Type) := {
  commit_hook : Z → Z → Run (World.t R) TreeError.t unit;
  destruction_hook : Z → Z → Run (World.t R) TreeError.t unit;
  surface_commit_applied : Z → Run (World.t R) TreeError.t unit;
  surface_destroyed_applied : Z → Run (World.t R) TreeError.t unit;
}.

Section tree.

Context {R : Type} `{Objects} `{!Handlers R}.

#[local] Notation Method := (Run (World.t R) TreeError.t).

(** [r.is_err()] and the like: an error is a value, a panic goes on. *)
Definition attempt {A} (m : Method A) : Method (option A) := λ w,
  match m w with
  | (w, Ok a) => (w, Ok (Some a))
  | (w, Err _) => (w, Ok None)
  | (w, Panic) => (w, Panic)
  end.

(** ** Locks *)

Definition acquire (surface : Z) : Method PrivateSurfaceData.t :=
  w ← get_state;
  d ← expect (World.data w surface);
  if decide (surface ∈ World.locked w) then panic
  else modify (World.set_locked ({[surface]} ∪ World.locked w));; mret d.

Definition release (surface : Z) : Method unit :=
  modify (λ w, World.set_locked (World.locked w ∖ {[surface]}) w).

(** What the guard of a locked surface reads and writes. *)
Definition guarded (surface : Z) : Method PrivateSurfaceData.t :=
  w ← get_state; expect (World.data w surface).

Definition write (surface : Z) (f : PrivateSurfaceData.t → PrivateSurfaceData.t) : Method unit :=
  d ← guarded surface; modify (World.write surface (f d)).

(** A guard that is dropped at the end of the statement. *)
Definition with_lock {A} (surface : Z)
    (f : PrivateSurfaceData.t → A * PrivateSurfaceData.t) : Method A :=
  d ← acquire surface;
  let '(a, d) := f d in
  modify (World.write surface d);;
  release surface;;
  mret a.

Definition reading {A} (surface : Z) (f : PrivateSurfaceData.t → A) : Method A :=
  with_lock surface (λ d, (f d, d)).

Definition writing (surface : Z) (f : PrivateSurfaceData.t → PrivateSurfaceData.t) : Method unit :=
  with_lock surface (λ d, (tt, f d)).

Definition with_states {A} (surface : Z) (apply : SurfaceData.t → A * SurfaceData.t) : Method A :=
  with_lock surface (λ d,
    let '(a, public) := apply (PrivateSurfaceData.public d) in
    (a, PrivateSurfaceData.set_public public d)).

(** [states.cached_state.get::<T>()], written in place. *)
Definition update_cache (surface : Z) (kind : CacheKind.t)
    (f : MultiCache.entry kind → MultiCache.entry kind) : Method unit :=
  with_states surface (λ states,
    (tt, SurfaceData.set_cached_state
           (MultiCache.update kind f (SurfaceData.cached_state states)) states)).

Definition update_pending (surface : Z) (f : SurfaceAttributes.t → SurfaceAttributes.t) :
    Method unit :=
  update_cache surface CacheKind.Attributes (λ cached,
    CachedState.mk (f (CachedState.pending cached)) (CachedState.cache cached)
                   (CachedState.current cached)).

(** ** Shared cells *)

Definition on_heap {A} (f : Heap Barrier.t → option (A * Heap Barrier.t)) : Method A :=
  w ← get_state;
  match f (World.heap w) with
  | Some (a, heap) => modify (World.set_heap heap);; mret a
  | None => panic
  end.

Definition heap_update (f : Heap Barrier.t → option (Heap Barrier.t)) : Method unit :=
  on_heap (λ heap, pair tt <$> f heap).

(** [std::mem::take] leaves a default transaction behind. *)
Definition new_transaction : Method Z := on_heap (λ heap, Some (pending_default heap)).

Definition merge (transaction target : Z) : Method unit :=
  w ← get_state; heap_update (merge_into (World.is_alive w) transaction target).

Definition drop_transaction (transaction : Z) : Method unit :=
  heap_update (λ heap, Some (arc_drop transaction heap)).

(** ** Creation and destruction *)

Definition init (surface : Z) : Method unit :=
  writing surface (λ d,
    PrivateSurfaceData.set_children (PrivateSurfaceData.children d ++ [surface]) d).

Definition retain_children (surface : Z) (d : PrivateSurfaceData.t) : PrivateSurfaceData.t :=
  PrivateSurfaceData.set_children
    (filter (λ child, child ≠ surface) (PrivateSurfaceData.children d)) d.

Definition take_parent (surface : Z) : Method (option Z) :=
  with_lock surface (λ d,
    (PrivateSurfaceData.parent d, PrivateSurfaceData.set_parent None d)).

Definition release_assignment (assignment : option BufferAssignment.t) : Method unit :=
  match assignment with
  | Some (BufferAssignment.NewBuffer buffer) =>
      modify (λ w, World.set_env (Env.emit [Effect.Release buffer] (World.env w)) w)
  | _ => mret tt
  end.

Definition without_buffer (a : SurfaceAttributes.t) : SurfaceAttributes.t :=
  SurfaceAttributes.mk None (SurfaceAttributes.buffer_delta a) (SurfaceAttributes.buffer_scale a)
    (SurfaceAttributes.buffer_transform a) (SurfaceAttributes.opaque_region a)
    (SurfaceAttributes.input_region a) (SurfaceAttributes.damage a)
    (SurfaceAttributes.frame_callbacks a) (SurfaceAttributes.client_scale a).

Definition without_buffers (cached : CachedState.t SurfaceAttributes.t) :
    CachedState.t SurfaceAttributes.t :=
  CachedState.mk (without_buffer (CachedState.pending cached)) (CachedState.cache cached)
                 (without_buffer (CachedState.current cached)).

Definition cleanup (surface : Z) : Method unit :=
  old_parent ← take_parent surface;
  (match old_parent with
   | Some parent =>
       w ← get_state;
       match World.data w parent with
       | Some _ => writing parent (retain_children surface)
       | None => mret tt
       end
   | None => mret tt
   end);;
  d ← acquire surface;
  write surface (PrivateSurfaceData.set_children []);;
  for_each (λ child,
    w ← get_state;
    match World.data w child with
    | None => mret tt
    | Some _ =>
        if decide (child = surface) then mret tt
        else writing child (PrivateSurfaceData.set_parent None)
    end) (PrivateSurfaceData.children d);;
  let public := PrivateSurfaceData.public d in
  let attributes := MultiCache.get CacheKind.Attributes (SurfaceData.cached_state public) in
  write surface (λ d,
    PrivateSurfaceData.set_public (SurfaceData.set_cached_state
      (MultiCache.update CacheKind.Attributes without_buffers
        (SurfaceData.cached_state (PrivateSurfaceData.public d)))
      (PrivateSurfaceData.public d)) d);;
  release_assignment (SurfaceAttributes.buffer (CachedState.current attributes));;
  release_assignment (SurfaceAttributes.buffer (CachedState.pending attributes));;
  release surface;;
  for_each (λ hook, destruction_hook (Hook.callback hook) surface)
    (PrivateSurfaceData.destruction_hooks d).

(** ** Roles, blockers and hooks *)

Definition set_role (surface : Z) (role : string) : Method unit :=
  refused ← with_lock surface (λ d,
    let public := PrivateSurfaceData.public d in
    match SurfaceData.role public with
    | Some known =>
        if String.eqb known role then (false, d) else (true, d)
    | None =>
        (false, PrivateSurfaceData.set_public (SurfaceData.set_role (Some role) public) d)
    end);
  if (refused : bool) then throw TreeError.AlreadyHasRole else mret tt.

Definition get_role (surface : Z) : Method (option string) :=
  reading surface (λ d, SurfaceData.role (PrivateSurfaceData.public d)).

Definition add_surface_blocker (surface : Z) (blocker : Barrier.t) : Method unit :=
  d ← acquire surface;
  heap_update (add_blocker (PrivateSurfaceData.pending_transaction d) blocker);;
  release surface.

(** The counter of hook ids starts at 1. *)
Definition new_hook (callback : Z) : Method Hook.t :=
  w ← get_state;
  modify (World.set_next_hook_id (U64.wrapping_succ (World.next_hook_id w)));;
  mret (Hook.mk (World.next_hook_id w) callback).

Definition add_pre_commit_hook (surface callback : Z) : Method Z :=
  hook ← new_hook callback;
  writing surface (λ d, PrivateSurfaceData.set_hooks
    (PrivateSurfaceData.pre_commit_hooks d ++ [hook]) (PrivateSurfaceData.post_commit_hooks d)
    (PrivateSurfaceData.destruction_hooks d) d);;
  mret (Hook.id hook).

Definition add_post_commit_hook (surface callback : Z) : Method Z :=
  hook ← new_hook callback;
  writing surface (λ d, PrivateSurfaceData.set_hooks
    (PrivateSurfaceData.pre_commit_hooks d) (PrivateSurfaceData.post_commit_hooks d ++ [hook])
    (PrivateSurfaceData.destruction_hooks d) d);;
  mret (Hook.id hook).

Definition add_destruction_hook (surface callback : Z) : Method Z :=
  hook ← new_hook callback;
  writing surface (λ d, PrivateSurfaceData.set_hooks
    (PrivateSurfaceData.pre_commit_hooks d) (PrivateSurfaceData.post_commit_hooks d)
    (PrivateSurfaceData.destruction_hooks d ++ [hook]) d);;
  mret (Hook.id hook).

Definition other_hooks (hook : Z) (hooks : list Hook.t) : list Hook.t :=
  filter (λ candidate, Hook.id candidate ≠ hook) hooks.

Definition remove_pre_commit_hook (surface hook : Z) : Method unit :=
  writing surface (λ d, PrivateSurfaceData.set_hooks
    (other_hooks hook (PrivateSurfaceData.pre_commit_hooks d))
    (PrivateSurfaceData.post_commit_hooks d) (PrivateSurfaceData.destruction_hooks d) d).

Definition remove_post_commit_hook (surface hook : Z) : Method unit :=
  writing surface (λ d, PrivateSurfaceData.set_hooks (PrivateSurfaceData.pre_commit_hooks d)
    (other_hooks hook (PrivateSurfaceData.post_commit_hooks d))
    (PrivateSurfaceData.destruction_hooks d) d).

Definition remove_destruction_hook (surface hook : Z) : Method unit :=
  writing surface (λ d, PrivateSurfaceData.set_hooks (PrivateSurfaceData.pre_commit_hooks d)
    (PrivateSurfaceData.post_commit_hooks d)
    (other_hooks hook (PrivateSurfaceData.destruction_hooks d)) d).

Definition invoke_pre_commit_hooks (surface : Z) : Method unit :=
  hooks ← reading surface PrivateSurfaceData.pre_commit_hooks;
  for_each (λ hook, commit_hook (Hook.callback hook) surface) hooks.

Definition invoke_post_commit_hooks (surface : Z) : Method unit :=
  hooks ← reading surface PrivateSurfaceData.post_commit_hooks;
  for_each (λ hook, commit_hook (Hook.callback hook) surface) hooks.

(** ** Synchronisation *)

Definition sync_flag (d : PrivateSurfaceData.t) : bool :=
  match SurfaceDataMap.get DataKind.Subsurface
          (SurfaceData.data_map (PrivateSurfaceData.public d)) with
  | Some state => SubsurfaceState.sync state
  | None => false
  end.

Definition direct_sync (surface : Z) : Method bool := reading surface sync_flag.

Definition get_parent (surface : Z) : Method (option Z) :=
  reading surface PrivateSurfaceData.parent.

(** The walk looks at 256 surfaces. *)
Definition DEPTH : nat := 256.

Fixpoint effectively_sync_loop (steps : nat) (current : Z) : Method bool :=
  match steps with
  | O => mret true
  | S steps =>
      direct ← direct_sync current;
      if (direct : bool) then mret true
      else
        parent ← get_parent current;
        match parent with
        | None => mret false
        | Some parent => effectively_sync_loop steps parent
        end
  end.

Definition effectively_sync (surface : Z) : Method bool := effectively_sync_loop DEPTH surface.

Fixpoint is_ancestor_loop (steps : nat) (ancestor current : Z) : Method bool :=
  match steps with
  | O => mret true
  | S steps =>
      parent ← get_parent current;
      match parent with
      | None => mret false
      | Some parent =>
          if parent =? ancestor then mret true else is_ancestor_loop steps ancestor parent
      end
  end.

Definition is_ancestor (ancestor surface : Z) : Method bool :=
  is_ancestor_loop DEPTH ancestor surface.

(** ** Commit *)

(** [cached_state.commit(commit, display)] under the lock of the surface. *)
Definition commit_cache (surface : Z) (commit : option Z) : Method unit :=
  d ← guarded surface;
  w ← get_state;
  let public := PrivateSurfaceData.public d in
  let '(cached_state, env) :=
    MultiCache.commit commit (SurfaceData.cached_state public) (World.env w) in
  modify (World.set_env env);;
  write surface (PrivateSurfaceData.set_public (SurfaceData.set_cached_state cached_state public)).

Definition advance_commit (surface : Z) : Method unit :=
  write surface (λ d, PrivateSurfaceData.set_current_commit
    (U64.wrapping_succ (PrivateSurfaceData.current_commit d)) d).

(** The transaction of a locked surface, with a default one in its place. *)
Definition take_transaction (surface : Z) : Method Z :=
  d ← guarded surface;
  fresh ← new_transaction;
  write surface (PrivateSurfaceData.set_pending_transaction fresh);;
  mret (PrivateSurfaceData.pending_transaction d).

Definition insert_commit (surface : Z) : Method unit :=
  d ← guarded surface;
  heap_update (insert (PrivateSurfaceData.pending_transaction d) surface
                      (PrivateSurfaceData.current_commit d)).

(** The second half of [commit_sync_tree]: the locked surface itself. *)
Definition own_commit (surface parent_transaction : Z) : Method unit :=
  d ← guarded surface;
  commit_cache surface (Some (PrivateSurfaceData.current_commit d));;
  insert_commit surface;;
  transaction ← take_transaction surface;
  (merge transaction parent_transaction;; drop_transaction transaction);;
  advance_commit surface.

(** The recursion has one unit of fuel per level of the tree. *)
Fixpoint commit_sync_tree (fuel : nat) (surface parent_transaction : Z) : Method unit :=
  match fuel with
  | O => panic
  | S fuel =>
      d ← acquire surface;
      for_each (λ child,
        if decide (child = surface) then mret tt
        else commit_sync_tree fuel child (PrivateSurfaceData.pending_transaction d))
        (PrivateSurfaceData.children d);;
      own_commit surface parent_transaction;;
      release surface
  end.

(** One child of a surface that is committed and locked. *)
Definition commit_child (fuel : nat) (surface transaction : Z) (synchronized : bool) (child : Z) :
    Method unit :=
  if decide (child = surface) then mret tt
  else
    child_data ← acquire child;
    let child_sync := sync_flag child_data in
    if negb synchronized && child_sync then
      release child;;
      commit_sync_tree fuel child transaction
    else if synchronized || child_sync then
      advance_commit child;;
      taken ← take_transaction child;
      release child;;
      merge taken transaction;;
      drop_transaction taken
    else release child.

(** ** Applying transactions *)

Definition apply_cache (surface commit : Z) : Method unit :=
  d ← acquire surface;
  w ← get_state;
  let public := PrivateSurfaceData.public d in
  let '(cached_state, env) :=
    MultiCache.apply commit (SurfaceData.cached_state public) (World.env w) in
  modify (World.set_env env);;
  write surface (PrivateSurfaceData.set_public (SurfaceData.set_cached_state cached_state public));;
  release surface.

Definition apply_transaction (transaction : Transaction Barrier.t) : Method unit :=
  for_each (λ '(surface, commit),
    w ← get_state;
    if World.is_alive w surface then
      apply_cache surface commit;;
      invoke_post_commit_hooks surface;;
      surface_commit_applied surface
    else mret tt) (tx_surfaces transaction).

(** The queue of a client, taken from its shared state. *)
Definition take_ready_of (client_state : Z)
    (prepare : option (TransactionQueue Barrier.t) → option (TransactionQueue Barrier.t)) :
    Method (list (Transaction Barrier.t)) :=
  w ← get_state;
  state ← expect (World.client_states w !! client_state);
  match prepare (CompositorClientState.queue state) with
  | None => mret []
  | Some queue =>
      let '(ready, queue) := take_ready (World.is_alive w) protocol_id (World.env w) queue in
      modify (World.set_client_states
        (<[client_state := CompositorClientState.mk (Some queue)
             (CompositorClientState.client_scale state)]> (World.client_states w)));;
      mret ready
  end.

Definition finalize_transaction (transaction : Z) : Method (Transaction Barrier.t) :=
  on_heap (finalize transaction).

Definition tree_fuel (w : World.t R) : nat := S (size (World.surfaces w)).

(** The end of an unsynchronised commit: the transaction of the locked surface
    is queued, and what is ready is applied. *)
Definition queue_transaction (surface client_state : Z) : Method unit :=
  taken ← take_transaction surface;
  transaction ← finalize_transaction taken;
  release surface;;
  ready ← take_ready_of client_state (λ queue,
    Some (queue_push transaction (default queue_default queue)));
  for_each apply_transaction ready.

(** The second half of [commit], after the loop over the children. *)
Definition commit_locked (surface client_state : Z) (synchronized : bool) : Method unit :=
  data ← guarded surface;
  empty ← on_heap (λ heap, (λ b, (b, heap)) <$>
    is_empty (PrivateSurfaceData.pending_transaction data) heap);
  if negb synchronized && (empty : bool) then
    commit_cache surface None;;
    release surface;;
    invoke_post_commit_hooks surface;;
    surface_commit_applied surface
  else
    commit_cache surface (Some (PrivateSurfaceData.current_commit data));;
    insert_commit surface;;
    advance_commit surface;;
    if (synchronized : bool) then release surface
    else queue_transaction surface client_state.

Definition commit (surface : Z) : Method unit :=
  synchronized ← effectively_sync surface;
  w ← get_state;
  surface_data ← expect (World.surfaces w !! surface);
  data ← acquire surface;
  for_each (commit_child (tree_fuel w) surface (PrivateSurfaceData.pending_transaction data)
              synchronized) (PrivateSurfaceData.children data);;
  commit_locked surface (SurfaceUserData.client_state surface_data) synchronized.

(** ** Parents and children *)

Definition set_parent (child parent : Z) : Method unit :=
  if child =? parent then throw TreeError.AlreadyHasRole
  else
    ancestor ← is_ancestor child parent;
    if (ancestor : bool) then throw TreeError.AlreadyHasRole
    else
      refused ← with_lock child (λ d,
        let public := PrivateSurfaceData.public d in
        match SurfaceData.role public, PrivateSurfaceData.parent d with
        | Some role, None =>
            if String.eqb role SUBSURFACE_ROLE
            then (false, PrivateSurfaceData.set_parent (Some parent) d) else (true, d)
        | None, None =>
            (false, PrivateSurfaceData.set_parent (Some parent)
                      (PrivateSurfaceData.set_public
                        (SurfaceData.set_role (Some SUBSURFACE_ROLE) public) d))
        | _, Some _ => (true, d)
        end);
      if (refused : bool) then throw TreeError.AlreadyHasRole
      else writing parent (λ d,
             PrivateSurfaceData.set_children (PrivateSurfaceData.children d ++ [child]) d).

Definition unset_parent (child : Z) : Method unit :=
  parent ← take_parent child;
  match parent with
  | Some parent => writing parent (retain_children child)
  | None => mret tt
  end.

(** [iter().position(..)]. *)
Fixpoint position (surface : Z) (children : list Z) : option nat :=
  match children with
  | [] => None
  | child :: rest => if child =? surface then Some O else S <$> position surface rest
  end.

(** [Vec::insert] panics past the end. *)
Definition vec_insert (index : nat) (v : Z) (l : list Z) : option (list Z) :=
  if decide (index <= length l)%nat then Some (take index l ++ v :: drop index l) else None.

Inductive Reordered := NotFound | OutOfBounds | Moved (children : list Z).

Definition reorder_children (surface : Z) (location : Location.t) (relative_to : Z)
    (children : list Z) : Reordered :=
  match position surface children with
  | None => NotFound
  | Some current =>
      match position relative_to children with
      | None => NotFound
      | Some relative =>
          let children := delete current children in
          let relative := if decide (current < relative)%nat then pred relative else relative in
          let target :=
            match location with Location.Before => relative | Location.After => S relative end in
          match vec_insert target surface children with
          | Some children => Moved children
          | None => OutOfBounds
          end
      end
  end.

Definition reorder (surface : Z) (location : Location.t) (relative_to : Z) : Method unit :=
  parent ← get_parent surface;
  match parent with
  | None => throw TreeError.NotSibling
  | Some parent =>
      d ← acquire parent;
      match reorder_children surface location relative_to (PrivateSurfaceData.children d) with
      | NotFound => release parent;; throw TreeError.NotSibling
      | OutOfBounds => panic
      | Moved children =>
          write parent (PrivateSurfaceData.set_children children);;
          release parent
      end
  end.

(** ** Traversal *)

Section traversal.

(** The closures share a state [S]; [T] is what a surface hands to its
    children. *)
Context {S T : Type}.
Context (filter : Z → SurfaceData.t → T → S → TraversalAction.t T * S).
Context (processor : Z → SurfaceData.t → T → S → S).
Context (post_filter : Z → SurfaceData.t → T → S → bool * S).

Fixpoint map_children (visit : Z → S → Method (bool * S)) (children : list Z) (s : S) :
    Method (bool * S) :=
  match children with
  | [] => mret (true, s)
  | child :: rest =>
      '(go_on, s) ← visit child s;
      if (go_on : bool) then map_children visit rest s else mret (false, s)
  end.

Fixpoint map (fuel : nat) (reverse : bool) (surface : Z) (initial : T) (s : S) :
    Method (bool * S) :=
  match fuel with
  | O => panic
  | Datatypes.S fuel =>
      d ← acquire surface;
      let public := PrivateSurfaceData.public d in
      let '(action, s) := filter surface public initial s in
      result ← match action with
        | TraversalAction.DoChildren child_state =>
            let children := PrivateSurfaceData.children d in
            '(go_on, s) ← map_children (λ child s,
              if decide (child = surface) then
                mret (true, processor surface public initial s)
              else map fuel reverse child child_state s)
              (if reverse then rev children else children) s;
            if (go_on : bool) then mret (post_filter surface public initial s)
            else mret (false, s)
        | TraversalAction.SkipChildren => mret (true, processor surface public initial s)
        | TraversalAction.Break => mret (false, s)
        end;
      release surface;;
      mret result
  end.

Definition with_surface_tree_upward (surface : Z) (initial : T) (s : S) : Method S :=
  w ← get_state; '(_, s) ← map (tree_fuel w) false surface initial s; mret s.

Definition with_surface_tree_downward (surface : Z) (initial : T) (s : S) : Method S :=
  w ← get_state; '(_, s) ← map (tree_fuel w) true surface initial s; mret s.

End traversal.

(** ** Clients *)

Definition track_surface (client : Z) : Method Z :=
  w ← get_state;
  match World.clients w !! client with
  | Some entry =>
      modify (World.set_clients (<[client := ClientEntry.mk (ClientEntry.state entry)
        (U64.saturating_add (ClientEntry.surfaces entry) 1)]> (World.clients w)));;
      mret (ClientEntry.state entry)
  | None =>
      let state := fresh (dom (World.client_states w)) in
      modify (World.set_client_states
        (<[state := CompositorClientState.default]> (World.client_states w)));;
      modify (World.set_clients (<[client := ClientEntry.mk state 1]> (World.clients w)));;
      mret state
  end.

Definition untrack_surface (client : Z) : Method unit :=
  modify (λ w,
    match World.clients w !! client with
    | None => w
    | Some entry =>
        let surfaces := U64.saturating_sub (ClientEntry.surfaces entry) 1 in
        if surfaces =? 0 then World.set_clients (delete client (World.clients w)) w
        else World.set_clients
               (<[client := ClientEntry.mk (ClientEntry.state entry) surfaces]>
                  (World.clients w)) w
    end).

Definition scale_of (client : Z) (w : World.t R) : spec_float :=
  match World.clients w !! client with
  | None => F64.of_int 1
  | Some entry =>
      match World.client_states w !! ClientEntry.state entry with
      | Some state => CompositorClientState.client_scale state
      | None => F64.of_int 1
      end
  end.

Definition set_client_scale (client : Z) (scale : spec_float) : Method unit :=
  modify (λ w,
    match World.clients w !! client with
    | None => w
    | Some entry => World.set_client_states
        (alter (CompositorClientState.set_client_scale scale) (ClientEntry.state entry)
               (World.client_states w)) w
    end).

Definition compositor_blocker_cleared (client : Z) : Method unit :=
  w ← get_state;
  match World.clients w !! client with
  | None => mret tt
  | Some entry =>
      ready ← take_ready_of (ClientEntry.state entry) id;
      for_each apply_transaction ready
  end.

(** [Barrier::signal] by whoever holds the barrier. *)
Definition signal_barrier (barrier : Barrier.t) : Method unit :=
  modify (λ w, World.set_env (Barrier.signal barrier (World.env w)) w).

Definition post_event (event : WireEvent.t) : Method unit :=
  modify (λ w, World.set_events (World.events w ++ [event]) w).

Definition send_surface_state (surface scale transform : Z) : Method unit :=
  if version surface <? 6 then mret tt
  else
    known ← with_states surface (λ states,
      let map := SurfaceDataMap.get_or_insert (kind := DataKind.Suggested)
        SuggestedSurfaceState.default (SurfaceData.data_map states) in
      (default SuggestedSurfaceState.default (SurfaceDataMap.get DataKind.Suggested map),
       SurfaceData.set_data_map (AnyList.set DataKind.state (k := DataKind.Suggested)
         (SuggestedSurfaceState.mk scale transform) map) states));
    (if SuggestedSurfaceState.scale known =? scale then mret tt
     else post_event (WireEvent.PreferredBufferScale surface scale));;
    if SuggestedSurfaceState.transform known =? transform then mret tt
    else post_event (WireEvent.PreferredBufferTransform surface transform).

(** ** Client coordinates *)

(** [round] of a finite number, half away from zero. *)
Definition round_magnitude (m : positive) (e : Z) : Z :=
  if 0 <=? e then Z.shiftl (Z.pos m) e
  else Z.shiftr (Z.pos m + Z.shiftl 1 (- e - 1)) (- e).

(** [(f64::from(value) / scale).round().clamp(..) as i32]. *)
Definition scale_axis (value : Z) (scale : spec_float) : Z :=
  match F64.div (F64.of_int value) scale with
  | S754_zero _ | S754_nan => 0
  | S754_infinity negative => if (negative : bool) then I32.MIN else I32.MAX
  | S754_finite negative m e =>
      I32.sat (if (negative : bool) then - round_magnitude m e else round_magnitude m e)
  end.

Definition scale_extent (value : Z) (scale : spec_float) : option Z :=
  if value <=? 0 then None
  else
    match F64.div (F64.of_int value) scale with
    | S754_nan => Some 0
    | S754_zero _ => Some 1
    | S754_infinity negative => Some (if (negative : bool) then 1 else U32.MAX)
    | S754_finite negative m e =>
        Some (zclamp 1 U32.MAX (if (negative : bool) then - round_magnitude m e
                                else round_magnitude m e))
    end.

Definition scale_point (x y : Z) (scale : spec_float) : Point.t :=
  Point.new (scale_axis x scale) (scale_axis y scale).

Definition scale_rect (x y width height : Z) (scale : spec_float) : option Rect.t :=
  width ← scale_extent width scale;
  height ← scale_extent height scale;
  Some (Rect.new (scale_axis x scale) (scale_axis y scale) width height).

(** [u32::try_from(v).ok().filter(|v| *v > 0)] of two [i32]s. *)
Definition wire_rect (x y width height : Z) : option Rect.t :=
  if (0 <? width) && (0 <? height) then Some (Rect.new x y width height) else None.

(** ** Requests *)

Inductive WEnum := Value (v : Z) | Unknown (v : Z).

Inductive SurfaceRequest :=
| Attach (buffer : option Z) (x y : Z)
| DamageSurface (x y width height : Z)
| Frame (callback : Z)
| SetOpaqueRegion (region : option Z)
| SetInputRegion (region : option Z)
| Commit
| SetBufferTransform (transform : WEnum)
| SetBufferScale (scale : Z)
| DamageBuffer (x y width height : Z)
| Offset (x y : Z).

Definition set_buffer (buffer : option BufferAssignment.t) (delta : option Point.t)
    (a : SurfaceAttributes.t) : SurfaceAttributes.t :=
  SurfaceAttributes.mk buffer delta (SurfaceAttributes.buffer_scale a)
    (SurfaceAttributes.buffer_transform a) (SurfaceAttributes.opaque_region a)
    (SurfaceAttributes.input_region a) (SurfaceAttributes.damage a)
    (SurfaceAttributes.frame_callbacks a) (SurfaceAttributes.client_scale a).

Definition set_scale (scale transform : Z) (client_scale : spec_float)
    (a : SurfaceAttributes.t) : SurfaceAttributes.t :=
  SurfaceAttributes.mk (SurfaceAttributes.buffer a) (SurfaceAttributes.buffer_delta a) scale
    transform (SurfaceAttributes.opaque_region a) (SurfaceAttributes.input_region a)
    (SurfaceAttributes.damage a) (SurfaceAttributes.frame_callbacks a) client_scale.

Definition set_region (opaque input : option RegionAttributes.t) (a : SurfaceAttributes.t) :
    SurfaceAttributes.t :=
  SurfaceAttributes.mk (SurfaceAttributes.buffer a) (SurfaceAttributes.buffer_delta a)
    (SurfaceAttributes.buffer_scale a) (SurfaceAttributes.buffer_transform a) opaque input
    (SurfaceAttributes.damage a) (SurfaceAttributes.frame_callbacks a)
    (SurfaceAttributes.client_scale a).

Definition push_damage (damage : list WlDamage.t) (callbacks : list Z) (a : SurfaceAttributes.t) :
    SurfaceAttributes.t :=
  SurfaceAttributes.mk (SurfaceAttributes.buffer a) (SurfaceAttributes.buffer_delta a)
    (SurfaceAttributes.buffer_scale a) (SurfaceAttributes.buffer_transform a)
    (SurfaceAttributes.opaque_region a) (SurfaceAttributes.input_region a)
    (SurfaceAttributes.damage a ++ damage) (SurfaceAttributes.frame_callbacks a ++ callbacks)
    (SurfaceAttributes.client_scale a).

(** [self.client_state.client_scale()]. *)
Definition surface_scale (surface : Z) : Method spec_float :=
  w ← get_state;
  surface_data ← expect (World.surfaces w !! surface);
  state ← expect (World.client_states w !! SurfaceUserData.client_state surface_data);
  mret (CompositorClientState.client_scale state).

(** The attributes of a wl_region, copied. *)
Definition get_region_attributes (region : Z) : Method RegionAttributes.t :=
  w ← get_state; expect (World.regions w !! region).

Definition optional_region (region : option Z) : Method (option RegionAttributes.t) :=
  match region with
  | None => mret None
  | Some region => attributes ← get_region_attributes region; mret (Some attributes)
  end.

Definition surface_request (surface : Z) (request : SurfaceRequest) : Method unit :=
  match request with
  | Attach buffer x y =>
      let offset := if (x =? 0) && (y =? 0) then None else Some (x, y) in
      offset ← (if version surface <? 5 then
                  scale ← surface_scale surface;
                  mret ((λ '(x, y), scale_point x y scale) <$> offset)
                else
                  (match offset with
                   | Some _ => post_event (WireEvent.PostError surface WireEvent.InvalidOffset)
                   | None => mret tt
                   end);;
                  mret None);
      update_pending surface (λ a, set_buffer
        (Some (match buffer with
               | Some buffer => BufferAssignment.NewBuffer buffer
               | None => BufferAssignment.Removed
               end))
        (match offset with Some _ => offset | None => SurfaceAttributes.buffer_delta a end) a)
  | DamageSurface x y width height =>
      scale ← surface_scale surface;
      match scale_rect x y width height scale with
      | Some rect => update_pending surface (push_damage [WlDamage.Surface rect] [])
      | None => mret tt
      end
  | Frame callback => update_pending surface (push_damage [] [callback])
  | SetOpaqueRegion region =>
      region ← optional_region region;
      update_pending surface (λ a, set_region region (SurfaceAttributes.input_region a) a)
  | SetInputRegion region =>
      region ← optional_region region;
      update_pending surface (λ a, set_region (SurfaceAttributes.opaque_region a) region a)
  | Commit =>
      scale ← surface_scale surface;
      update_pending surface (λ a, set_scale (SurfaceAttributes.buffer_scale a)
        (SurfaceAttributes.buffer_transform a) scale a);;
      invoke_pre_commit_hooks surface;;
      commit surface
  | SetBufferTransform (Value transform) =>
      update_pending surface (λ a, set_scale (SurfaceAttributes.buffer_scale a) transform
        (SurfaceAttributes.client_scale a) a)
  | SetBufferTransform (Unknown _) =>
      post_event (WireEvent.PostError surface WireEvent.InvalidTransform)
  | SetBufferScale scale =>
      if scale <? 1 then post_event (WireEvent.PostError surface WireEvent.InvalidScale)
      else update_pending surface (λ a, set_scale scale (SurfaceAttributes.buffer_transform a)
             (SurfaceAttributes.client_scale a) a)
  | DamageBuffer x y width height =>
      match wire_rect x y width height with
      | Some rect => update_pending surface (push_damage [WlDamage.Buffer rect] [])
      | None => mret tt
      end
  | Offset x y =>
      scale ← surface_scale surface;
      update_pending surface (λ a, set_buffer (SurfaceAttributes.buffer a)
        (Some (scale_point x y scale)) a)
  end.

(** [destroyed] of a surface, whose wire object is gone. *)
Definition surface_destroyed (surface : Z) : Method unit :=
  w ← get_state;
  surface_data ← expect (World.surfaces w !! surface);
  surface_destroyed_applied surface;;
  cleanup surface;;
  untrack_surface (SurfaceUserData.client surface_data).

Definition create_surface (client surface : Z) : Method unit :=
  client_state ← track_surface client;
  transaction ← new_transaction;
  modify (λ w, World.set_alive ({[surface]} ∪ World.alive w) (World.set_surfaces
    (<[surface := SurfaceUserData.mk (PrivateSurfaceData.new transaction) client client_state]>
       (World.surfaces w)) w));;
  init surface.

Definition create_region (region : Z) : Method unit :=
  modify (λ w, World.set_regions
    (<[region := RegionAttributes.default]> (World.regions w)) w).

Definition region_request (client region : Z) (kind : RectangleKind.t) (x y width height : Z) :
    Method unit :=
  w ← get_state;
  match scale_rect x y width height (scale_of client w) with
  | None => mret tt
  | Some rect =>
      modify (World.set_regions (alter (λ attributes, RegionAttributes.mk
        (RegionAttributes.rects attributes ++ [(kind, rect)])) region (World.regions w)))
  end.

Definition get_subsurface (subcompositor id surface parent : Z) : Method unit :=
  accepted ← attempt (set_parent surface parent);
  match accepted with
  | None => post_event (WireEvent.PostError subcompositor WireEvent.BadSurface)
  | Some _ =>
      modify (λ w, World.set_subsurfaces (<[id := surface]> (World.subsurfaces w)) w);;
      with_states surface (λ states,
        (tt, SurfaceData.set_data_map
               (SurfaceDataMap.insert_if_missing (kind := DataKind.Subsurface)
                  SubsurfaceState.default (SurfaceData.data_map states)).1 states))
  end.

Inductive SubsurfaceRequest :=
| SetPosition (x y : Z)
| PlaceAbove (sibling : Z)
| PlaceBelow (sibling : Z)
| SetSync
| SetDesync.

(** [.get::<SubsurfaceState>().unwrap().sync.store(..)] under the lock. *)
Definition store_sync (surface : Z) (sync : bool) : Method unit :=
  present ← with_states surface (λ states,
    match SurfaceDataMap.get DataKind.Subsurface (SurfaceData.data_map states) with
    | Some _ =>
        (true, SurfaceData.set_data_map (AnyList.set DataKind.state (k := DataKind.Subsurface)
          (SubsurfaceState.mk sync) (SurfaceData.data_map states)) states)
    | None => (false, states)
    end);
  if (present : bool) then mret tt else panic.

Definition place (resource surface : Z) (location : Location.t) (sibling : Z) : Method unit :=
  moved ← attempt (reorder surface location sibling);
  match moved with
  | Some _ => mret tt
  | None => post_event (WireEvent.PostError resource WireEvent.BadSurface)
  end.

Definition subsurface_request (client resource : Z) (request : SubsurfaceRequest) : Method unit :=
  w ← get_state;
  surface ← expect (World.subsurfaces w !! resource);
  match request with
  | SetPosition x y =>
      update_cache surface CacheKind.Subsurface (λ cached,
        CachedState.mk (SubsurfaceCachedState.mk (scale_point x y (scale_of client w)))
          (CachedState.cache cached) (CachedState.current cached))
  | PlaceAbove sibling => place resource surface Location.After sibling
  | PlaceBelow sibling => place resource surface Location.Before sibling
  | SetSync => store_sync surface true
  | SetDesync => store_sync surface false
  end.

Definition subsurface_destroyed (resource : Z) : Method unit :=
  w ← get_state;
  surface ← expect (World.subsurfaces w !! resource);
  modify (World.set_subsurfaces (delete resource (World.subsurfaces w)));;
  unset_parent surface;;
  store_sync surface true;;
  update_cache surface CacheKind.Subsurface (λ cached,
    CachedState.mk SubsurfaceCachedState.default (CachedState.cache cached)
      SubsurfaceCachedState.default).

End tree.
