(* ===== verification/SurfaceTreeInv.v ===== *)
(** * The invariant of the surface tree

    What holds of the store of surfaces between two requests: parents and
    children agree and have no cycles, every surface owns its pending
    transaction, the shared state of every client exists, and no mutex is held.
    [Forest] gives the facts about ownership without cycles. *)

From Stdlib Require Import Floats.SpecFloat Strings.String.
From S2P Require Import Prelude Forest Geometry Surface Cached CachedSpec Transaction TransactionSpec SurfaceTree.

(** ** Parents and children *)

(** The parent and the children of every surface. *)
Notation shapes := (gmap Z (option Z * list Z)).

Definition owner (m : shapes) (s : Z) : option Z := m !! s ≫= fst.

(** Every surface is among its own children until it is cleaned up, which is its
    place in the stacking order of its subsurfaces; [linked] are these surfaces. *)
Record forest_ok (linked : gset Z) (m : shapes) : Prop := {
  forest_known : ∀ s, s ∈ linked → is_Some (m !! s);
  forest_self : ∀ s p k, m !! s = Some (p, k) → (s ∈ k ↔ s ∈ linked);
  forest_child : ∀ s p k c, m !! s = Some (p, k) → c ∈ k → c ≠ s → owner m c = Some s;
  forest_parent : ∀ c s, owner m c = Some s → s ≠ c ∧ ∃ p k, m !! s = Some (p, k) ∧ c ∈ k;
  forest_nodup : ∀ s p k, m !! s = Some (p, k) → NoDup k;
  forest_acyclic : acyclic (owner m);
  forest_dead : ∀ s p k, m !! s = Some (p, k) → s ∉ linked → p = None ∧ k = [];
}.

Section forest.

Context (linked : gset Z) (m : shapes).

Lemma owner_Some c s : owner m c = Some s ↔ ∃ k, m !! c = Some (Some s, k).
Proof.
  unfold owner. destruct (m !! c) as [[p k]|]; simpl; [|naive_solver].
  split; [intros ->; by exists k|by intros [? [= -> ->]]].
Qed.

Lemma owner_insert s p k x :
  owner (<[s := (p, k)]> m) x = if decide (x = s) then p else owner m x.
Proof.
  unfold owner. destruct (decide (x = s)) as [->|]; [by rewrite lookup_insert_eq|].
  by rewrite lookup_insert_ne.
Qed.

Context (Hok : forest_ok linked m).

Lemma forest_closed v o : owner m v = Some o → v ∈ dom m ∧ o ∈ dom m.
Proof.
  intros Ho. destruct (forest_parent _ _ Hok _ _ Ho) as (_&p&k&Hp&_).
  apply owner_Some in Ho as [k' Hv]. split; apply elem_of_dom; by eexists.
Qed.

Lemma child_linked s p k c : m !! s = Some (p, k) → c ∈ k → c ∈ linked ∧ s ∈ linked.
Proof.
  intros Hs Hc. split.
  - destruct (decide (c = s)) as [->|Hne]; [by apply (forest_self _ _ Hok _ _ _ Hs)|].
    pose proof (forest_child _ _ Hok _ _ _ _ Hs Hc Hne) as (k'&Hk')%owner_Some.
    destruct (decide (c ∈ linked)) as [|Hd]; [done|].
    by destruct (forest_dead _ _ Hok _ _ _ Hk' Hd).
  - destruct (decide (s ∈ linked)) as [|Hd]; [done|].
    destruct (forest_dead _ _ Hok _ _ _ Hs Hd) as [_ ->]. by apply elem_of_nil in Hc.
Qed.

(** A new surface. *)
Lemma forest_create s :
  m !! s = None → forest_ok ({[s]} ∪ linked) (<[s := (None, [s])]> m).
Proof.
  intros Hs. destruct Hok as [Hk Hself Hch Hpar Hnd Hac Hdead].
  assert (Hdown : ∀ c o, owner (<[s := (None, [s])]> m) c = Some o ↔ owner m c = Some o).
  { intros c o. rewrite owner_insert. case_decide as E; [|done]. subst.
    unfold owner. by rewrite Hs. }
  assert (Hne : ∀ x v, m !! x = Some v → x ≠ s) by (intros x v Hx ->; congruence).
  split.
  - intros x Hx. rewrite lookup_insert_is_Some. destruct (decide (s = x)); [by left|].
    right. split; [done|]. apply Hk. set_solver.
  - intros x p k. rewrite lookup_insert_Some. intros [[<- [= <- <-]]|[Hn Hx]]; [set_solver|].
    rewrite (Hself _ _ _ Hx). set_solver.
  - intros x p k c. rewrite lookup_insert_Some. intros [[<- [= <- <-]]|[Hn Hx]] Hc Hcs.
    + by apply list_elem_of_singleton in Hc.
    + apply Hdown. by eapply Hch.
  - intros c o Ho%Hdown. destruct (Hpar c o Ho) as (Hn&p&k&Hp&Hc). split; [done|].
    exists p, k. by rewrite lookup_insert_ne by (symmetry; eauto).
  - intros x p k. rewrite lookup_insert_Some. intros [[<- [= <- <-]]|[Hn Hx]]; [|eauto].
    apply NoDup_singleton.
  - apply (acyclic_sub (owner m)); [done|]. intros v o. apply Hdown.
  - intros x p k. rewrite lookup_insert_Some. intros [[<- _]|[Hn Hx]] Hd; [set_solver|].
    eapply Hdead; [done|set_solver].
Qed.

(** A child without a parent is added at the end of the children of another
    surface that does not descend from it. *)
Lemma forest_attach c kc s p k :
  m !! c = Some (None, kc) → m !! s = Some (p, k) → c ∈ linked → s ∈ linked →
  c ≠ s → ¬ descends (owner m) s c →
  forest_ok linked (<[s := (p, k ++ [c])]> (<[c := (Some s, kc)]> m)).
Proof.
  intros Hc Hs Hca Hsa Hcs Hno. destruct Hok as [Hk Hself Hch Hpar Hnd Hac Hdead].
  set (m' := <[s := _]> _).
  assert (Hm' : ∀ x, m' !! x =
    if decide (x = s) then Some (p, k ++ [c]) else if decide (x = c) then Some (Some s, kc) else m !! x).
  { intros x. unfold m'. rewrite !lookup_insert. repeat case_decide; congruence. }
  assert (Hown : ∀ x, owner m' x = if decide (x = c) then Some s else owner m x).
  { intros x. unfold owner at 1. rewrite Hm'. repeat case_decide; simplify_eq; simpl; try done.
    unfold owner. by rewrite Hs. }
  assert (Hck : c ∉ k).
  { intros Hin. pose proof (Hch _ _ _ _ Hs Hin Hcs) as Ho. unfold owner in Ho. by rewrite Hc in Ho. }
  split.
  - intros x Hx. rewrite Hm'. repeat case_decide; try by eexists. by apply Hk.
  - intros x px kx. rewrite Hm'. repeat case_decide; intros Hx; simplify_eq.
    + rewrite elem_of_app, list_elem_of_singleton. rewrite (Hself _ _ _ Hs). naive_solver.
    + by rewrite (Hself _ _ _ Hc).
    + by apply (Hself _ _ _ Hx).
  - intros x px kx y. rewrite Hm', Hown. intros Hx Hy Hyx.
    destruct (decide (y = c)) as [->|Hyc].
    + case_decide; [congruence|]. case_decide; [congruence|]. exfalso.
      pose proof (Hch _ _ _ _ Hx Hy Hyx) as Ho. unfold owner in Ho. by rewrite Hc in Ho.
    + repeat case_decide; simplify_eq.
      * apply elem_of_app in Hy as [Hy|Hy%list_elem_of_singleton]; [|done]. by eapply Hch.
      * by eapply Hch.
      * by eapply Hch.
  - intros x y. rewrite Hown. setoid_rewrite Hm'. case_decide as Hxc; [intros [= <-]; subst x|].
    + split; [done|]. exists p, (k ++ [c]). rewrite decide_True by done.
      split; [done|]. apply elem_of_app. right. by left.
    + intros Hy. destruct (Hpar _ _ Hy) as (Hn&py&ky&Hpy&Hin). split; [done|].
      repeat case_decide; simplify_eq; eauto. exists p, (k ++ [c]). split; [done|].
      apply elem_of_app. by left.
  - intros x px kx. rewrite Hm'. repeat case_decide; intros Hx; simplify_eq; eauto.
    apply NoDup_app. split; [eauto|]. split; [|apply NoDup_singleton].
    intros y Hy ->%list_elem_of_singleton. done.
  - apply (acyclic_insert (owner m) (owner m') c s); [done|done| |].
    + rewrite Hown. by rewrite decide_True.
    + intros x Hx. rewrite Hown. by rewrite decide_False.
  - intros x px kx. rewrite Hm'. repeat case_decide; intros Hx; simplify_eq; eauto; done.
Qed.

(** Removing one child. *)
Lemma forest_detach c kc s p k :
  m !! c = Some (Some s, kc) → m !! s = Some (p, k) → c ≠ s →
  forest_ok linked (<[s := (p, filter (λ x, x ≠ c) k)]> (<[c := (None, kc)]> m)).
Proof.
  intros Hc Hs Hcs. destruct Hok as [Hk Hself Hch Hpar Hnd Hac Hdead].
  set (m' := <[s := _]> _).
  assert (Hm' : ∀ x, m' !! x =
    if decide (x = s) then Some (p, filter (λ x, x ≠ c) k)
    else if decide (x = c) then Some (None, kc) else m !! x).
  { intros x. unfold m'. rewrite !lookup_insert. repeat case_decide; congruence. }
  assert (Hown : ∀ x, owner m' x = if decide (x = c) then None else owner m x).
  { intros x. unfold owner at 1. rewrite Hm'. repeat case_decide; simplify_eq; simpl; try done.
    unfold owner. by rewrite Hs. }
  split.
  - intros x Hx. rewrite Hm'. repeat case_decide; try by eexists. by apply Hk.
  - intros x px kx. rewrite Hm'. repeat case_decide; intros Hx; simplify_eq.
    + rewrite list_elem_of_filter, (Hself _ _ _ Hs). naive_solver.
    + by rewrite (Hself _ _ _ Hc).
    + by apply (Hself _ _ _ Hx).
  - intros x px kx y. rewrite Hm', Hown. intros Hx Hy Hyx.
    destruct (decide (y = c)) as [->|Hyc].
    + exfalso. repeat case_decide; simplify_eq.
      * by apply list_elem_of_filter in Hy as [? _].
      * pose proof (Hch _ _ _ _ Hx Hy Hyx) as Ho. unfold owner in Ho. rewrite Hc in Ho.
        by simplify_eq/=.
    + repeat case_decide; simplify_eq.
      * apply list_elem_of_filter in Hy as [_ Hy]. by eapply Hch.
      * by eapply Hch.
      * by eapply Hch.
  - intros x y. rewrite Hown. setoid_rewrite Hm'. case_decide as Hxc; [done|].
    intros Hy. destruct (Hpar _ _ Hy) as (Hn&py&ky&Hpy&Hin). split; [done|].
    repeat case_decide; simplify_eq; eauto. eexists _, _. split; [done|].
    by apply list_elem_of_filter.
  - intros x px kx. rewrite Hm'. repeat case_decide; intros Hx; simplify_eq; eauto.
    apply NoDup_filter. eauto.
  - apply (acyclic_sub (owner m)); [done|]. intros v o. rewrite Hown. by case_decide.
  - intros x px kx. rewrite Hm'. repeat case_decide; intros Hx Hd; simplify_eq; eauto.
    + destruct (Hdead _ _ _ Hs Hd) as [-> ->]. done.
    + by destruct (Hdead _ _ _ Hc Hd).
Qed.

(** Reordering the children of a surface. *)
Lemma forest_permute s p k k' :
  m !! s = Some (p, k) → k' ≡ₚ k → forest_ok linked (<[s := (p, k')]> m).
Proof.
  intros Hs Hperm. destruct Hok as [Hk Hself Hch Hpar Hnd Hac Hdead].
  assert (Hown : ∀ x, owner (<[s := (p, k')]> m) x = owner m x).
  { intros x. rewrite owner_insert. case_decide; [subst|done]. unfold owner. by rewrite Hs. }
  split.
  - intros x Hx. rewrite lookup_insert_is_Some. destruct (decide (s = x)); [by left|]. right. eauto.
  - intros x px kx. rewrite lookup_insert_Some. intros [[<- [= <- <-]]|[Hn Hx]]; [|eauto].
    rewrite Hperm. eauto.
  - intros x px kx c. rewrite Hown, lookup_insert_Some. intros [[<- [= <- <-]]|[Hn Hx]]; [|eauto].
    rewrite Hperm. eauto.
  - intros c x. rewrite Hown. intros Ho. destruct (Hpar _ _ Ho) as (Hn&px&kx&Hx&Hin).
    split; [done|]. destruct (decide (x = s)) as [->|].
    + exists p, k'. rewrite lookup_insert_eq. split; [done|]. rewrite Hperm. by simplify_eq.
    + exists px, kx. by rewrite lookup_insert_ne.
  - intros x px kx. rewrite lookup_insert_Some. intros [[<- [= <- <-]]|[Hn Hx]]; [|eauto].
    rewrite Hperm. eauto.
  - apply (acyclic_sub (owner m)); [done|]. intros v o. by rewrite Hown.
  - intros x px kx. rewrite lookup_insert_Some. intros [[<- [= <- <-]]|[Hn Hx]] Hd; [|eauto].
    destruct (Hdead _ _ _ Hs Hd) as [-> ->]. split; [done|]. by apply Permutation_nil_r.
Qed.

(** What [cleanup] makes of a surface without a parent: it has no children, and
    they have no parent. *)
Definition cleared (s : Z) (k : list Z) (m' : shapes) : Prop :=
  ∀ x, m' !! x =
    if decide (x = s) then Some (None, [])
    else if decide (x ∈ k) then (λ '(_, kx), (None, kx)) <$> m !! x else m !! x.

Lemma forest_clear s k m' :
  m !! s = Some (None, k) → cleared s k m' → forest_ok (linked ∖ {[s]}) m'.
Proof.
  intros Hs Hm'. destruct Hok as [Hk Hself Hch Hpar Hnd Hac Hdead].
  assert (Hown : ∀ x, owner m' x = if decide (owner m x = Some s) then None else owner m x).
  { intros x. unfold owner at 1. rewrite Hm'.
    destruct (decide (x = s)) as [->|Hxs].
    { simpl. assert (owner m s = None) as -> by (unfold owner; by rewrite Hs). done. }
    destruct (decide (x ∈ k)) as [Hx|Hx].
    - rewrite (Hch _ _ _ _ Hs Hx Hxs). rewrite decide_True by done.
      destruct (m !! x) as [[]|]; done.
    - case_decide as E; [|done]. destruct (Hpar _ _ E) as (_&?&?&?&?). by simplify_eq. }
  assert (Hkids : ∀ x p kx, m' !! x = Some (p, kx) → x ≠ s → ∃ p', m !! x = Some (p', kx) ∧ (p = None ∨ p = p')).
  { intros x p kx. rewrite Hm'. intros Hx Hxs. rewrite decide_False in Hx by done.
    case_decide; [|by eauto]. destruct (m !! x) as [[p' k']|]; simplify_eq/=. eauto. }
  split.
  - intros x Hx. rewrite Hm'. case_decide; [by eexists|].
    destruct (Hk x) as [[? ?] ->]; [set_solver|]. case_decide; by eexists.
  - intros x p kx Hx. destruct (decide (x = s)) as [->|Hxs].
    + rewrite Hm', decide_True in Hx by done. simplify_eq. set_solver.
    + destruct (Hkids _ _ _ Hx Hxs) as (p'&Hx'&_). rewrite (Hself _ _ _ Hx'). set_solver.
  - intros x p kx c Hx Hc Hcx. destruct (decide (x = s)) as [->|Hxs].
    + rewrite Hm', decide_True in Hx by done. simplify_eq. by apply elem_of_nil in Hc.
    + destruct (Hkids _ _ _ Hx Hxs) as (p'&Hx'&_). rewrite Hown.
      rewrite (Hch _ _ _ _ Hx' Hc Hcx). rewrite decide_False; [done|congruence].
  - intros c x. rewrite Hown. case_decide as E; [done|]. intros Hx.
    destruct (Hpar _ _ Hx) as (Hn&p&kx&Hpx&Hin). split; [done|].
    assert (x ≠ s) by congruence. rewrite Hm', decide_False by done.
    case_decide; rewrite Hpx; simpl; eauto.
  - intros x p kx Hx. destruct (decide (x = s)) as [->|Hxs].
    + rewrite Hm', decide_True in Hx by done. simplify_eq. constructor.
    + destruct (Hkids _ _ _ Hx Hxs) as (p'&Hx'&_). eauto.
  - apply (acyclic_sub (owner m)); [done|]. intros v o. rewrite Hown. by case_decide.
  - intros x p kx Hx Hd. destruct (decide (x = s)) as [->|Hxs].
    + rewrite Hm', decide_True in Hx by done. by simplify_eq.
    + destruct (Hkids _ _ _ Hx Hxs) as (p'&Hx'&Hp).
      destruct (Hdead _ _ _ Hx') as [-> ->]; [set_solver|]. naive_solver.
Qed.

End forest.

(** ** The store *)

Create HintDb surfaces.

Section store.

Context {R : Type}.

Implicit Types (w : World.t R) (d : PrivateSurfaceData.t).

Definition shape w : shapes :=
  (λ u, (PrivateSurfaceData.parent (SurfaceUserData.inner u),
         PrivateSurfaceData.children (SurfaceUserData.inner u))) <$> World.surfaces w.

Lemma shape_data w s :
  shape w !! s = (λ d, (PrivateSurfaceData.parent d, PrivateSurfaceData.children d))
                   <$> World.data w s.
Proof. unfold shape, World.data. rewrite lookup_fmap. by destruct (World.surfaces w !! s). Qed.

Lemma data_write w s d x :
  World.data (World.write s d w) x =
    if decide (x = s) then (λ _, d) <$> World.data w s else World.data w x.
Proof.
  unfold World.data, World.write. simpl. destruct (decide (x = s)) as [->|].
  - rewrite lookup_alter_eq. by destruct (World.surfaces w !! s).
  - by rewrite lookup_alter_ne.
Qed.

Lemma data_write_same w s d d' :
  World.data w s = Some d → World.data (World.write s d' w) s = Some d'.
Proof. intros Hd. by rewrite data_write, decide_True, Hd. Qed.

Lemma data_write_other w s d x : x ≠ s → World.data (World.write s d w) x = World.data w x.
Proof. intros. by rewrite data_write, decide_False. Qed.

Lemma shape_write w s d d' :
  World.data w s = Some d →
  shape (World.write s d' w) =
    <[s := (PrivateSurfaceData.parent d', PrivateSurfaceData.children d')]> (shape w).
Proof.
  intros Hd. apply map_eq. intros x. rewrite shape_data, data_write.
  destruct (decide (x = s)) as [->|].
  - by rewrite Hd, lookup_insert_eq.
  - by rewrite lookup_insert_ne, shape_data.
Qed.

Lemma shape_same w s d d' :
  World.data w s = Some d → PrivateSurfaceData.parent d' = PrivateSurfaceData.parent d →
  PrivateSurfaceData.children d' = PrivateSurfaceData.children d →
  shape (World.write s d' w) = shape w.
Proof.
  intros Hd Hp Hc. rewrite (shape_write _ _ _ _ Hd), Hp, Hc. apply insert_id.
  by rewrite shape_data, Hd.
Qed.

(** ** The invariant *)

(** The flag of a subsurface exists. *)
Definition has_sync d : Prop :=
  is_Some (SurfaceDataMap.get DataKind.Subsurface
             (SurfaceData.data_map (PrivateSurfaceData.public d))).

(** Nobody shares the cell of a pending transaction. *)
Record cells_ok w : Prop := {
  cells_owned : ∀ s d, World.data w s = Some d →
    ∃ st, owned (World.heap w) (PrivateSurfaceData.pending_transaction d) st;
  cells_apart : ∀ s s' d d', World.data w s = Some d → World.data w s' = Some d' →
    PrivateSurfaceData.pending_transaction d = PrivateSurfaceData.pending_transaction d' → s = s';
}.

Record clients_ok w : Prop := {
  clients_surface : ∀ s u, World.surfaces w !! s = Some u →
    is_Some (World.client_states w !! SurfaceUserData.client_state u);
  clients_entry : ∀ c e, World.clients w !! c = Some e →
    is_Some (World.client_states w !! ClientEntry.state e);
}.

(** A subsurface object belongs to a surface with the flag. *)
Definition subsurfaces_ok w : Prop :=
  ∀ r s, World.subsurfaces w !! r = Some s → ∃ d, World.data w s = Some d ∧ has_sync d.

(** The invariant while the mutexes of [held] are locked. *)
Record ok (held : gset Z) w : Prop := {
  ok_forest : ∃ linked, World.alive w ⊆ linked ∧ forest_ok linked (shape w);
  ok_cells : cells_ok w;
  ok_clients : clients_ok w;
  ok_subsurfaces : subsurfaces_ok w;
  ok_locked : World.locked w = held;
}.

(** What calls keep: surfaces stay known, with their client and their flag, and
    none comes back to life. *)
Record extends w w' : Prop := {
  extends_surfaces : ∀ s u, World.surfaces w !! s = Some u →
    ∃ u', World.surfaces w' !! s = Some u' ∧
      SurfaceUserData.client u' = SurfaceUserData.client u ∧
      SurfaceUserData.client_state u' = SurfaceUserData.client_state u ∧
      (has_sync (SurfaceUserData.inner u) → has_sync (SurfaceUserData.inner u'));
  extends_alive : ∀ s, is_Some (World.surfaces w !! s) → s ∈ World.alive w' → s ∈ World.alive w;
  extends_clients : ∀ a, is_Some (World.client_states w !! a) → is_Some (World.client_states w' !! a);
}.

Lemma world_extends_refl w : extends w w.
Proof. split; [|done..]. intros s u Hs. exists u. by repeat split. Qed.

Lemma extends_trans w1 w2 w3 : extends w1 w2 → extends w2 w3 → extends w1 w3.
Proof.
  intros [S1 A1 C1] [S2 A2 C2]. split.
  - intros s u Hs. destruct (S1 _ _ Hs) as (u1&H1&?&?&?).
    destruct (S2 _ _ H1) as (u2&?&?&?&?). exists u2.
    split; [done|]. split; [congruence|]. split; [congruence|]. auto.
  - intros s Hs Ha. apply A1; [done|]. apply A2; [|done].
    destruct Hs as [u Hs]. destruct (S1 _ _ Hs) as (u1&?&_). by eexists.
  - auto.
Qed.

Lemma extends_data w w' s d :
  extends w w' → World.data w s = Some d →
  ∃ d', World.data w' s = Some d' ∧ (has_sync d → has_sync d').
Proof.
  intros [S _ _] Hd. unfold World.data in *.
  destruct (World.surfaces w !! s) as [u|] eqn:Eu; [|done]. simplify_eq/=.
  destruct (S _ _ Eu) as (u'&->&_&_&?). simpl. eauto.
Qed.

(** How many versions of a surface have a buffer attached. *)
Definition surface_holds (buffer : Z) d : nat :=
  holds buffer (SurfaceData.cached_state (PrivateSurfaceData.public d)).

(** A surface that is written without touching what the invariant is about, and
    without attaching a buffer. *)
Definition similar d d' : Prop :=
  PrivateSurfaceData.parent d' = PrivateSurfaceData.parent d ∧
  PrivateSurfaceData.children d' = PrivateSurfaceData.children d ∧
  PrivateSurfaceData.pending_transaction d' = PrivateSurfaceData.pending_transaction d ∧
  (has_sync d → has_sync d').

Lemma similar_refl d : similar d d.
Proof. by repeat split. Qed.

Lemma data_surfaces w s d :
  World.data w s = Some d → ∃ u, World.surfaces w !! s = Some u ∧ SurfaceUserData.inner u = d.
Proof.
  unfold World.data. destruct (World.surfaces w !! s) as [u|]; [|done].
  intros [= <-]. by exists u.
Qed.

Lemma surfaces_write w s d x :
  World.surfaces (World.write s d w) !! x =
    if decide (x = s)
    then (λ u, SurfaceUserData.mk d (SurfaceUserData.client u) (SurfaceUserData.client_state u))
           <$> World.surfaces w !! s
    else World.surfaces w !! x.
Proof.
  unfold World.write. simpl. destruct (decide (x = s)) as [->|].
  - by rewrite lookup_alter_eq.
  - by rewrite lookup_alter_ne.
Qed.

Lemma write_extends w s d d' :
  World.data w s = Some d → (has_sync d → has_sync d') → extends w (World.write s d' w).
Proof.
  intros Hd Hs. split; [|done..]. intros x u Hx. rewrite surfaces_write.
  destruct (decide (x = s)) as [->|]; [|by exists u; repeat split].
  rewrite Hx. eexists. split; [done|]. simpl. do 2 (split; [done|]).
  unfold World.data in Hd. rewrite Hx in Hd. by simplify_eq/=.
Qed.

Lemma clients_write w s d : clients_ok w → clients_ok (World.write s d w).
Proof.
  intros [Hs He]. split; [|done]. intros x u. rewrite surfaces_write.
  case_decide as E; [subst|apply Hs].
  destruct (World.surfaces w !! s) as [u0|] eqn:Eu; [|done]. intros [= <-].
  exact (Hs s u0 Eu).
Qed.

Lemma subsurfaces_write w s d d' :
  World.data w s = Some d → (has_sync d → has_sync d') → subsurfaces_ok w →
  subsurfaces_ok (World.write s d' w).
Proof.
  intros Hd Hs Hok r x Hx. destruct (Hok r x Hx) as (dx&Hdx&Hsx).
  destruct (decide (x = s)) as [->|].
  - exists d'. rewrite (data_write_same _ _ _ _ Hd). split; [done|]. apply Hs. by simplify_eq.
  - exists dx. by rewrite data_write_other.
Qed.

Lemma cells_write w s d d' :
  World.data w s = Some d →
  PrivateSurfaceData.pending_transaction d' = PrivateSurfaceData.pending_transaction d →
  cells_ok w → cells_ok (World.write s d' w).
Proof.
  intros Hd Hp [Ho Ha]. split.
  - intros x dx. rewrite data_write. case_decide; [subst|apply Ho]. rewrite Hd. intros [= <-].
    rewrite Hp. by apply (Ho s).
  - intros x y dx dy. rewrite !data_write. repeat case_decide; subst; rewrite ?Hd; simpl.
    + done.
    + intros [= <-] Hy. rewrite Hp. by apply Ha.
    + intros Hx [= <-]. rewrite Hp. by apply Ha.
    + apply Ha.
Qed.

Lemma write_ok held w s d d' :
  World.data w s = Some d → similar d d' → ok held w → ok held (World.write s d' w).
Proof.
  intros Hd (Hp&Hc&Ht&Hs) [(linked&Ha&Hf) Hcells Hcl Hsub Hl]. split; [|..|done].
  - exists linked. split; [done|]. by rewrite (shape_same _ _ _ _ Hd Hp Hc).
  - by eapply cells_write.
  - by apply clients_write.
  - by eapply subsurfaces_write.
Qed.

(** The parts of the world that the invariant does not look at. *)
Lemma set_env_ok held w env : ok held w → ok held (World.set_env env w).
Proof. intros [Hf [Ho Ha] [Hs He] Hsub Hl]. by split; [|split|split|..]. Qed.

Lemma set_events_ok held w events : ok held w → ok held (World.set_events events w).
Proof. intros [Hf [Ho Ha] [Hs He] Hsub Hl]. by split; [|split|split|..]. Qed.

Lemma set_regions_ok held w regions : ok held w → ok held (World.set_regions regions w).
Proof. intros [Hf [Ho Ha] [Hs He] Hsub Hl]. by split; [|split|split|..]. Qed.

Lemma set_next_hook_id_ok held w n : ok held w → ok held (World.set_next_hook_id n w).
Proof. intros [Hf [Ho Ha] [Hs He] Hsub Hl]. by split; [|split|split|..]. Qed.

Lemma set_locked_ok held held' w : ok held w → ok held' (World.set_locked held' w).
Proof. intros [Hf [Ho Ha] [Hs He] Hsub Hl]. by split; [|split|split|..]. Qed.

Lemma same_surfaces_extends w w' :
  World.surfaces w' = World.surfaces w → World.alive w' = World.alive w →
  World.client_states w' = World.client_states w → extends w w'.
Proof.
  intros Hs Ha Hc. split; [intros s u|intros s|intros a]; rewrite ?Hs, ?Ha, ?Hc; [|done..].
  intros Hu. exists u. by repeat split.
Qed.

(** ** Buffers of all surfaces *)

Definition surfaces_hold (buffer : Z) (m : gmap Z SurfaceUserData.t) : nat :=
  map_fold (λ _ u n, (surface_holds buffer (SurfaceUserData.inner u) + n)%nat) 0%nat m.

Lemma surfaces_hold_delete buffer m s u :
  m !! s = Some u →
  surfaces_hold buffer m =
    (surface_holds buffer (SurfaceUserData.inner u) + surfaces_hold buffer (delete s m))%nat.
Proof.
  intros Hs. unfold surfaces_hold. rewrite (map_fold_delete_L _ _ s u m); [done| |done]. intros. lia.
Qed.

Lemma surfaces_hold_insert buffer m s u :
  m !! s = None →
  surfaces_hold buffer (<[s := u]> m) =
    (surface_holds buffer (SurfaceUserData.inner u) + surfaces_hold buffer m)%nat.
Proof.
  intros Hs. unfold surfaces_hold. rewrite map_fold_insert_L; [done| |done]. intros. lia.
Qed.

Lemma surfaces_hold_write buffer w s d d' :
  World.data w s = Some d →
  (surfaces_hold buffer (World.surfaces (World.write s d' w)) + surface_holds buffer d =
   surfaces_hold buffer (World.surfaces w) + surface_holds buffer d')%nat.
Proof.
  intros Hd. destruct (data_surfaces _ _ _ Hd) as (u&Hu&<-).
  unfold World.write. simpl. set (f := λ u, _).
  assert (Ha : alter f s (World.surfaces w) !! s = Some (f u)) by (by rewrite lookup_alter_eq, Hu).
  rewrite (surfaces_hold_delete _ _ _ _ Ha), (surfaces_hold_delete _ _ _ _ Hu), delete_alter_eq.
  simpl. lia.
Qed.

(** What the rest of the compositor holds: it takes the buffers of current
    versions and releases them itself. *)
Class Holder := { rest_holds : R → Z → nat }.

Context `{Holder}.

(** All attachments of a buffer that are not answered yet, and its releases. *)
Definition ledger (buffer : Z) w : nat :=
  surfaces_hold buffer (World.surfaces w) + Env.released buffer (World.env w)
  + rest_holds (World.rest w) buffer.

Definition frugal w w' : Prop := ∀ buffer, (ledger buffer w' <= ledger buffer w)%nat.

Lemma frugal_refl w : frugal w w.
Proof. intros b. lia. Qed.

Lemma frugal_trans w1 w2 w3 : frugal w1 w2 → frugal w2 w3 → frugal w1 w3.
Proof. intros H1 H2 b. specialize (H1 b). specialize (H2 b). lia. Qed.

Lemma same_frugal w w' :
  World.surfaces w' = World.surfaces w → World.env w' = World.env w →
  World.rest w' = World.rest w → frugal w w'.
Proof. intros Hs He Hr b. unfold ledger. rewrite Hs, He, Hr. lia. Qed.

(** Calls that end well: the invariant holds again, nothing known is lost, and
    no buffer is released more often than it was attached. *)
Record stable (held : gset Z) w w' : Prop := {
  stable_ok : ok held w';
  stable_extends : extends w w';
  stable_frugal : frugal w w';
}.

Lemma stable_refl held w : ok held w → stable held w w.
Proof. split; [done|apply world_extends_refl|apply frugal_refl]. Qed.

Lemma stable_trans held held' w1 w2 w3 :
  stable held w1 w2 → stable held' w2 w3 → stable held' w1 w3.
Proof.
  intros [_ E1 F1] [O2 E2 F2].
  split; [done|by eapply extends_trans|by eapply frugal_trans].
Qed.

(** Writing a surface together with the environment. *)
Lemma write_env_stable held w s d d' env :
  ok held w → World.data w s = Some d → similar d d' →
  (∀ b, surface_holds b d' + Env.released b env <=
        surface_holds b d + Env.released b (World.env w))%nat →
  stable held w (World.write s d' (World.set_env env w)).
Proof.
  intros Hok Hd Hs Hb. split.
  - eapply write_ok; [exact Hd|done|by apply set_env_ok].
  - eapply extends_trans; [by apply (same_surfaces_extends w (World.set_env env w))|].
    eapply write_extends; [exact Hd|]. apply Hs.
  - intros b. specialize (Hb b).
    pose proof (surfaces_hold_write b (World.set_env env w) s d d' Hd) as Hw.
    unfold ledger. simpl in *. lia.
Qed.

Lemma write_stable held w s d d' :
  ok held w → World.data w s = Some d → similar d d' →
  (∀ b, surface_holds b d' <= surface_holds b d)%nat →
  stable held w (World.write s d' w).
Proof.
  intros Hok Hd Hs Hb. pose proof (write_env_stable held w s d d' (World.env w) Hok Hd Hs) as Hw.
  replace (World.set_env (World.env w) w) with w in Hw by (by destruct w).
  apply Hw. intros b. specialize (Hb b). lia.
Qed.

Lemma set_events_stable held w events : ok held w → stable held w (World.set_events events w).
Proof. split; [by apply set_events_ok|by apply same_surfaces_extends|by apply same_frugal]. Qed.

End store.

Arguments Holder R : clear implicits.

#[export] Hint Resolve world_extends_refl similar_refl set_env_ok set_events_ok set_regions_ok
  set_next_hook_id_ok set_locked_ok : surfaces.
