(* ===== verification/SurfaceTreeOps.v ===== *)
(** * Operations of the surface tree keep its invariant

    How locks, caches, cells, walks along parents and changes of the tree behave
    on a store that satisfies the invariant of [SurfaceTreeInv]. *)

From Stdlib Require Import Floats.SpecFloat Strings.String.
From S2P Require Import Prelude Forest Geometry Surface Cached CachedSpec Transaction TransactionSpec SurfaceTree SurfaceTreeInv.

(** ** Locks *)

Section locks.

Context {R : Type}.

Implicit Types (w : World.t R) (d : PrivateSurfaceData.t) (held : gset Z).

Lemma set_locked_id w : World.set_locked (World.locked w) w = w.
Proof. by destruct w. Qed.

Lemma set_locked_twice l l' w : World.set_locked l (World.set_locked l' w) = World.set_locked l w.
Proof. done. Qed.

Lemma data_set_locked l w s : World.data (World.set_locked l w) s = World.data w s.
Proof. done. Qed.

Lemma write_set_locked l w s d :
  World.write s d (World.set_locked l w) = World.set_locked l (World.write s d w).
Proof. done. Qed.

Lemma write_id w s d : World.data w s = Some d → World.write s d w = w.
Proof.
  intros Hd. unfold World.write, World.set_surfaces, World.data in *. destruct w; simpl in *. f_equal.
  apply map_eq. intros x. destruct (decide (x = s)) as [->|].
  - rewrite lookup_alter_eq. destruct (surfaces !! s) as [[? ? ?]|]; by simplify_eq/=.
  - by rewrite lookup_alter_ne.
Qed.

Lemma write_set_heap h w s d :
  World.write s d (World.set_heap h w) = World.set_heap h (World.write s d w).
Proof. done. Qed.

Lemma set_heap_twice h h' w : World.set_heap h (World.set_heap h' w) = World.set_heap h w.
Proof. done. Qed.

Lemma write_twice w s d d' : World.write s d (World.write s d' w) = World.write s d w.
Proof.
  unfold World.write, World.set_surfaces. simpl. f_equal. apply (map_eq (M := gmap Z)). intros x.
  destruct (decide (x = s)) as [->|].
  - rewrite !lookup_alter_eq. by destruct (World.surfaces w !! s).
  - by rewrite !lookup_alter_ne.
Qed.

Lemma unlock_again held s : s ∉ held → ({[s]} ∪ held) ∖ {[s]} = held.
Proof. intros. apply leibniz_equiv. set_solver. Qed.

Lemma acquire_eq w s d :
  World.data w s = Some d → s ∉ World.locked w →
  acquire s w = (World.set_locked ({[s]} ∪ World.locked w) w, Ok d).
Proof.
  intros Hd Hs. unfold acquire, mbind, run_bind, get_state, expect. rewrite Hd. simpl.
  by destruct (decide (s ∈ World.locked w)).
Qed.

Lemma with_lock_eq {A} w s d (f : PrivateSurfaceData.t → A * PrivateSurfaceData.t) :
  World.data w s = Some d → s ∉ World.locked w →
  with_lock s f w = (World.write s (f d).2 w, Ok (f d).1).
Proof.
  intros Hd Hs. unfold with_lock. rewrite (run_ok _ _ _ _ _ (acquire_eq w s d Hd Hs)).
  destruct (f d) as [a d']. unfold mbind, run_bind, modify, release. simpl.
  by rewrite unlock_again.
Qed.

Lemma reading_eq {A} w s d (f : PrivateSurfaceData.t → A) :
  World.data w s = Some d → s ∉ World.locked w → reading s f w = (w, Ok (f d)).
Proof.
  intros Hd Hs. unfold reading. rewrite (with_lock_eq w s d) by done. simpl.
  by rewrite write_id.
Qed.

Lemma writing_eq w s d f :
  World.data w s = Some d → s ∉ World.locked w →
  writing s f w = (World.write s (f d) w, Ok tt).
Proof. intros Hd Hs. unfold writing. by rewrite (with_lock_eq w s d). Qed.

Lemma guarded_eq w s d : World.data w s = Some d → guarded s w = (w, Ok d).
Proof. intros Hd. unfold guarded, mbind, run_bind, get_state, expect. by rewrite Hd. Qed.

Lemma write_eq w s d f :
  World.data w s = Some d → write s f w = (World.write s (f d) w, Ok tt).
Proof. intros Hd. unfold write. by rewrite (run_ok _ _ _ _ _ (guarded_eq w s d Hd)). Qed.

Lemma release_eq w s : release s w = (World.set_locked (World.locked w ∖ {[s]}) w, Ok tt).
Proof. done. Qed.

Context `{!Holder R}.

(** A method that returns and keeps the invariant. *)
Definition safe {A} held w (m : Run (World.t R) TreeError.t A) : Prop :=
  runs m w (λ _ w', stable held w w') (λ _ _, False).

Lemma safe_bind {A B} held w (m : Run (World.t R) TreeError.t A) (k : A → Run (World.t R) TreeError.t B) :
  safe held w m → (∀ a w', stable held w w' → safe held w' (k a)) → safe held w (m ≫= k).
Proof.
  intros Hm Hk. eapply runs_step; [exact Hm| |done]. intros a w' Hs. simpl in Hs.
  eapply runs_mono; [by apply (Hk a w')| |done]. intros b w2 Hs2. by eapply stable_trans.
Qed.

(** A block of statements as one call. *)
Lemma safe_assoc {A B C} held w (m : Run (World.t R) TreeError.t A)
    (k : A → Run (World.t R) TreeError.t B) (l : B → Run (World.t R) TreeError.t C) :
  safe held w ((m ≫= k) ≫= l) → safe held w (m ≫= λ a, k a ≫= l).
Proof. unfold safe, runs, mbind, run_bind. by destruct (m w) as [w' []]. Qed.

Lemma safe_ret {A} held w (a : A) : ok held w → safe held w (mret a).
Proof. intros. by apply stable_refl. Qed.

(** A loop whose steps keep a property that survives every step. *)
Lemma safe_for_each {A} held (P : A → World.t R → Prop) (f : A → Run (World.t R) TreeError.t unit) l w :
  ok held w → Forall (λ a, P a w) l →
  (∀ a w w', stable held w w' → P a w → P a w') →
  (∀ a w, a ∈ l → ok held w → P a w → safe held w (f a)) →
  safe held w (for_each f l).
Proof.
  intros Hok Hl Hmono Hf. revert w Hok Hl. induction l as [|a l IH]; intros w Hok Hl; simpl.
  { by apply safe_ret. }
  inversion Hl as [|? ? Ha Hl']; subst. eapply safe_bind; [apply Hf; [by left|done..]|].
  intros [] w' Hs. apply IH; [|apply Hs|].
  - intros b w1 Hb. apply Hf. by right.
  - eapply Forall_impl; [exact Hl'|]. intros b. by apply Hmono.
Qed.

Lemma safe_with_lock {A} held w s d (f : PrivateSurfaceData.t → A * PrivateSurfaceData.t) :
  ok held w → World.data w s = Some d → s ∉ held → similar d (f d).2 →
  (∀ b, surface_holds b (f d).2 <= surface_holds b d)%nat →
  safe held w (with_lock s f).
Proof.
  intros Hok Hd Hs Hsim Hb. unfold safe, runs.
  rewrite (with_lock_eq w s d) by (try rewrite (ok_locked _ _ Hok); done).
  by eapply write_stable.
Qed.

(** Changes of the public part that keep the flag of a subsurface. *)
Lemma similar_public d public :
  (is_Some (SurfaceDataMap.get DataKind.Subsurface
     (SurfaceData.data_map (PrivateSurfaceData.public d))) →
   is_Some (SurfaceDataMap.get DataKind.Subsurface (SurfaceData.data_map public))) →
  similar d (PrivateSurfaceData.set_public public d).
Proof. intros Hs. by repeat split. Qed.

(** Writing a cached state that attaches no buffer. *)
Lemma safe_update_cache held w s d kind f :
  ok held w → World.data w s = Some d → s ∉ held →
  (∀ b c, cached_holds b (f c) <= cached_holds b c)%nat →
  safe held w (update_cache s kind f).
Proof.
  intros Hok Hd Hs Hf. unfold update_cache, with_states.
  eapply safe_with_lock; [done..| |]; simpl; [by apply similar_public|].
  intros b. unfold surface_holds. simpl.
  pose proof (holds_update b kind f (SurfaceData.cached_state (PrivateSurfaceData.public d))).
  specialize (Hf b (MultiCache.get kind (SurfaceData.cached_state (PrivateSurfaceData.public d)))). lia.
Qed.

End locks.

(** ** Walks towards the root *)

Section walks.

Context {R : Type}.

Implicit Types (w : World.t R) (d : PrivateSurfaceData.t).

Lemma owner_data w s :
  owner (shape w) s = World.data w s ≫= PrivateSurfaceData.parent.
Proof. unfold owner. rewrite shape_data. by destruct (World.data w s). Qed.

Lemma owner_known held w c s : ok held w → owner (shape w) c = Some s → ∃ d, World.data w s = Some d.
Proof.
  intros [(linked&_&Hf) _ _ _ _] Ho. destruct (forest_parent _ _ Hf _ _ Ho) as (_&p&k&Hs&_).
  rewrite shape_data in Hs. destruct (World.data w s) as [d|]; [by exists d|done].
Qed.

(** The first [steps] surfaces of a chain of parents. *)
Fixpoint chain (steps : nat) w (s : Z) : list Z :=
  match steps with
  | O => []
  | S steps =>
      s :: match owner (shape w) s with Some p => chain steps w p | None => [] end
  end.

Definition flagged w (s : Z) : bool :=
  match World.data w s with Some d => sync_flag d | None => false end.

(** A surface is synchronised when one of the surfaces of its chain is, or when
    the chain is longer than the walk. *)
Definition synchronized (steps : nat) w (s : Z) : bool :=
  existsb (flagged w) (chain steps w s) || (steps <? length (chain (S steps) w s))%nat.

Definition above (steps : nat) w (ancestor s : Z) : bool :=
  bool_decide (ancestor ∈ tail (chain (S steps) w s))
  || (S steps <=? length (chain (S steps) w s))%nat.

Lemma effectively_sync_eq steps w s :
  ok ∅ w → is_Some (World.data w s) →
  effectively_sync_loop steps s w = (w, Ok (synchronized steps w s)).
Proof.
  intros Hok. revert s. induction steps as [|steps IH]; intros s [d Hd]; [done|].
  cbn [effectively_sync_loop]. unfold direct_sync, get_parent.
  assert (Hl : s ∉ World.locked w) by (rewrite (ok_locked _ _ Hok); set_solver).
  rewrite (run_ok _ _ _ _ _ (reading_eq w s d sync_flag Hd Hl)).
  unfold synchronized. remember (S steps) as n. cbn [chain length]. subst n. cbn [chain existsb].
  unfold flagged at 1. rewrite Hd. destruct (sync_flag d); [done|].
  rewrite (run_ok _ _ _ _ _ (reading_eq w s d _ Hd Hl)). rewrite owner_data, Hd. simpl.
  destruct (PrivateSurfaceData.parent d) as [p|] eqn:Ep; [|done].
  rewrite IH; [done|]. destruct (owner_known ∅ w s p Hok) as [dp ->]; [|by eexists].
  by rewrite owner_data, Hd.
Qed.

Lemma is_ancestor_eq steps w a s :
  ok ∅ w → is_Some (World.data w s) →
  is_ancestor_loop steps a s w = (w, Ok (above steps w a s)).
Proof.
  intros Hok. revert s. induction steps as [|steps IH]; intros s [d Hd].
  { unfold above. simpl. by rewrite orb_true_r. }
  assert (Hl : s ∉ World.locked w) by (rewrite (ok_locked _ _ Hok); set_solver).
  cbn [is_ancestor_loop]. unfold get_parent.
  rewrite (run_ok _ _ _ _ _ (reading_eq w s d _ Hd Hl)).
  unfold above. remember (S steps) as n. cbn [chain tail length]. subst n.
  rewrite owner_data, Hd. simpl.
  destruct (PrivateSurfaceData.parent d) as [p|] eqn:Ep; [|done].
  assert (Hp : owner (shape w) s = Some p) by (by rewrite owner_data, Hd).
  destruct (owner_known ∅ w s p Hok Hp) as [dp Hdp].
  cbn [chain]. destruct (Z.eqb_spec p a) as [->|Hne].
  - rewrite bool_decide_eq_true_2 by (by left). done.
  - rewrite IH by (by rewrite Hdp). unfold above. do 2 f_equal. cbn [chain tail length].
    f_equal. apply bool_decide_ext. rewrite elem_of_cons. naive_solver.
Qed.

Lemma chain_descends steps w s x : x ∈ chain steps w s → descends (owner (shape w)) s x.
Proof.
  revert s. induction steps as [|steps IH]; intros s; simpl; [by intros ?%elem_of_nil|].
  intros [->|Hx]%elem_of_cons; [apply rtc_refl|].
  destruct (owner (shape w) s) as [p|] eqn:Ep; [|by apply elem_of_nil in Hx].
  eapply rtc_l; [exact Ep|]. by apply IH.
Qed.

Lemma chain_complete steps w s x :
  (length (chain steps w s) < steps)%nat → descends (owner (shape w)) s x → x ∈ chain steps w s.
Proof.
  intros Hlen Hx. revert steps Hlen. induction Hx as [s|s p x Hp Hx IH]; intros [|steps] Hlen;
    simpl in *; try lia; [by left|].
  right. unfold parent in Hp. rewrite Hp in *. apply IH. simpl in Hlen. lia.
Qed.

(** A walk that does not find the surface proves that it is no ancestor. *)
Lemma above_false steps w a s :
  above steps w a s = false → a ≠ s → ¬ descends (owner (shape w)) s a.
Proof.
  unfold above. intros [Ha Hl]%orb_false_iff Hne Hd. apply bool_decide_eq_false in Ha. apply Ha.
  apply Nat.leb_gt in Hl. pose proof (chain_complete _ _ _ _ Hl Hd) as Hin.
  cbn [chain] in *. cbn [tail]. by apply elem_of_cons in Hin as [->|].
Qed.

End walks.
