(* ===== verification/SurfaceTreeCommit.v ===== *)
(** * Committing a subtree

    What [commit_sync_tree] and the loop over the children of a committed surface
    do: which surfaces change and how, and what the transaction of the parent
    gathers. *)

From Stdlib Require Import Floats.SpecFloat Strings.String.
From S2P Require Import Prelude Forest Geometry Surface Cached CachedSpec Transaction TransactionSpec SurfaceTree SurfaceTreeInv SurfaceTreeOps.

Section commit.

Context {R : Type} `{!Holder R}.

Implicit Types (w : World.t R) (d : PrivateSurfaceData.t) (S : Z → Prop).

(** ** What changes *)

(** Everything but the surfaces, the cells and the environment stays. *)
Record same_frame w w' : Prop := {
  frame_locked : World.locked w' = World.locked w;
  frame_alive : World.alive w' = World.alive w;
  frame_client_states : World.client_states w' = World.client_states w;
  frame_clients : World.clients w' = World.clients w;
  frame_regions : World.regions w' = World.regions w;
  frame_subsurfaces : World.subsurfaces w' = World.subsurfaces w;
  frame_hooks : World.next_hook_id w' = World.next_hook_id w;
  frame_events : World.events w' = World.events w;
  frame_rest : World.rest w' = World.rest w;
}.

Lemma same_frame_refl w : same_frame w w.
Proof. by split. Qed.

Lemma same_frame_trans w1 w2 w3 : same_frame w1 w2 → same_frame w2 w3 → same_frame w1 w3.
Proof. intros [] []. split; congruence. Qed.

(** A surface whose pending state was queued under its commit id ([full]), or
    whose transaction was only taken. *)
Record committed (full : bool) d d' : Prop := {
  committed_parent : PrivateSurfaceData.parent d' = PrivateSurfaceData.parent d;
  committed_children : PrivateSurfaceData.children d' = PrivateSurfaceData.children d;
  committed_role : SurfaceData.role (PrivateSurfaceData.public d')
    = SurfaceData.role (PrivateSurfaceData.public d);
  committed_data_map : SurfaceData.data_map (PrivateSurfaceData.public d')
    = SurfaceData.data_map (PrivateSurfaceData.public d);
  committed_pre : PrivateSurfaceData.pre_commit_hooks d' = PrivateSurfaceData.pre_commit_hooks d;
  committed_post : PrivateSurfaceData.post_commit_hooks d' = PrivateSurfaceData.post_commit_hooks d;
  committed_destruction :
    PrivateSurfaceData.destruction_hooks d' = PrivateSurfaceData.destruction_hooks d;
  committed_id : PrivateSurfaceData.current_commit d'
    = U64.wrapping_succ (PrivateSurfaceData.current_commit d);
  committed_cache :
    if full then ∃ env, SurfaceData.cached_state (PrivateSurfaceData.public d') =
      (MultiCache.commit (Some (PrivateSurfaceData.current_commit d))
         (SurfaceData.cached_state (PrivateSurfaceData.public d)) env).1
    else SurfaceData.cached_state (PrivateSurfaceData.public d')
      = SurfaceData.cached_state (PrivateSurfaceData.public d);
}.

(** What the transaction [sb] becomes when the surfaces of [S] are gathered. *)
Record gathered (full : bool) w S (sb sb' : TransactionState Barrier.t) : Prop := {
  gathered_target : ∀ x k, commits_at (ts_surfaces sb) x k → commits_at (ts_surfaces sb') x k;
  gathered_commits : full = true → ∀ x d, World.data w x = Some d → S x → x ∈ World.alive w →
    commits_at (ts_surfaces sb') x (PrivateSurfaceData.current_commit d);
  gathered_pending : ∀ x d st y k, World.data w x = Some d → S x →
    owned (World.heap w) (PrivateSurfaceData.pending_transaction d) st →
    commits_at (ts_surfaces st) y k → y ∈ World.alive w → commits_at (ts_surfaces sb') y k;
  gathered_blockers : ∀ b, b ∈ ts_blockers sb' ↔ b ∈ ts_blockers sb ∨
    ∃ x d st, World.data w x = Some d ∧ S x ∧
      owned (World.heap w) (PrivateSurfaceData.pending_transaction d) st ∧ b ∈ ts_blockers st;
}.

(** No surface of [S] has the cell. *)
Definition foreign w S (address : Z) : Prop :=
  ∀ x d, World.data w x = Some d → S x → PrivateSurfaceData.pending_transaction d ≠ address.

(** From [w] to [w'] the surfaces of [S] are committed into the cell [target]. *)
Record gathers (full : bool) S (target : Z) w w' : Prop := {
  gathers_frame : same_frame w w';
  gathers_inside : ∀ x u, World.surfaces w !! x = Some u → S x →
    ∃ u', World.surfaces w' !! x = Some u' ∧ SurfaceUserData.client u' = SurfaceUserData.client u ∧
      SurfaceUserData.client_state u' = SurfaceUserData.client_state u ∧
      committed full (SurfaceUserData.inner u) (SurfaceUserData.inner u');
  gathers_outside : ∀ x, ¬ S x → World.surfaces w' !! x = World.surfaces w !! x;
  gathers_unknown : ∀ x, World.surfaces w !! x = None → World.surfaces w' !! x = None;
  gathers_cells : cells_ok w';
  gathers_others : ∀ a, is_Some (World.heap w !! a) → a ≠ target → foreign w S a →
    World.heap w' !! a = World.heap w !! a;
  gathers_target : ∀ sb, owned (World.heap w) target sb →
    ∃ sb', owned (World.heap w') target sb' ∧ gathered full w S sb sb';
  gathers_frugal : frugal w w';
  gathers_quiet : full = false → World.env w' = World.env w;
}.

(** A cell that nobody of [S] has stays without owner in [S]. *)
Lemma gathers_data_outside full S target w w' x :
  gathers full S target w w' → ¬ S x → World.data w' x = World.data w x.
Proof. intros Hg Hx. unfold World.data. by rewrite (gathers_outside _ _ _ _ _ Hg). Qed.

Lemma gathers_data_inside full S target w w' x d :
  gathers full S target w w' → World.data w x = Some d → S x →
  ∃ d', World.data w' x = Some d' ∧ committed full d d'.
Proof.
  intros Hg Hd Hx. destruct (data_surfaces _ _ _ Hd) as (u&Hu&<-).
  destruct (gathers_inside _ _ _ _ _ Hg _ _ Hu Hx) as (u'&Hu'&_&_&Hc).
  exists (SurfaceUserData.inner u'). split; [|done]. unfold World.data. by rewrite Hu'.
Qed.

Lemma gathers_shape full S target w w' :
  (∀ x, Decision (S x)) → gathers full S target w w' → shape w' = shape w.
Proof.
  intros HS Hg. apply map_eq. intros x. rewrite !shape_data.
  destruct (HS x) as [Hx|Hx].
  - destruct (World.data w x) as [d|] eqn:Ed.
    + destruct (gathers_data_inside _ _ _ _ _ _ _ Hg Ed Hx) as (d'&->&Hc).
      simpl. by rewrite (committed_parent _ _ _ Hc), (committed_children _ _ _ Hc).
    + unfold World.data in *. destruct (World.surfaces w !! x) eqn:E; [done|].
      by rewrite (gathers_unknown _ _ _ _ _ Hg _ E).
  - by rewrite (gathers_data_outside _ _ _ _ _ _ Hg Hx).
Qed.

Lemma gathers_refl full target w :
  cells_ok w → gathers full (λ _, False) target w w.
Proof.
  intros Hc. split; try done.
  - intros sb Hsb. exists sb. split; [done|]. split; [done|done| |].
    + by intros x d st y k _ [].
    + intros b. split; [by left|]. intros [?|(?&?&?&_&[]&_)]. done.
  - apply frugal_refl.
Qed.

(** Two groups of surfaces after each other. *)
Lemma gathers_app full S1 S2 target w w1 w2 :
  (∀ x, Decision (S1 x)) → (∀ x, S1 x → ¬ S2 x) → foreign w S1 target → foreign w S2 target →
  is_Some (World.heap w !! target) → cells_ok w →
  gathers full S1 target w w1 → gathers full S2 target w1 w2 →
  gathers full (λ x, S1 x ∨ S2 x) target w w2.
Proof.
  intros Hdec Hdis HfP1 HfP2 HP Hcells G1 G2.
  (* the cells of the second group are untouched by the first *)
  assert (Hpend2 : ∀ x d, World.data w x = Some d → S2 x →
    World.data w1 x = Some d ∧
    World.heap w1 !! PrivateSurfaceData.pending_transaction d =
      World.heap w !! PrivateSurfaceData.pending_transaction d).
  { intros x d Hd Hx. assert (Hn : ¬ S1 x) by (intros ?; by eapply Hdis).
    split; [by rewrite (gathers_data_outside _ _ _ _ _ _ G1 Hn)|].
    destruct (cells_owned _ Hcells _ _ Hd) as [st Hst].
    apply (gathers_others _ _ _ _ _ G1); [by rewrite Hst|by eapply HfP2|].
    intros y dy Hy Hy1 Heq. pose proof (cells_apart _ Hcells _ _ _ _ Hy Hd Heq) as ->. done. }
  split.
  - eapply same_frame_trans; [apply G1|apply G2].
  - intros x u Hu HS. destruct (Hdec x) as [Hx|Hx].
    + destruct (gathers_inside _ _ _ _ _ G1 _ _ Hu Hx) as (u'&Hu'&Hrest). exists u'.
      rewrite (gathers_outside _ _ _ _ _ G2) by (by apply Hdis). done.
    + destruct HS as [?|HS]; [done|]. apply (gathers_inside _ _ _ _ _ G2); [|done].
      by rewrite (gathers_outside _ _ _ _ _ G1).
  - intros x Hx. rewrite (gathers_outside _ _ _ _ _ G2) by tauto.
    apply (gathers_outside _ _ _ _ _ G1). tauto.
  - intros x Hx. by apply (gathers_unknown _ _ _ _ _ G2), (gathers_unknown _ _ _ _ _ G1).
  - apply G2.
  - intros a Ha HaP Hf.
    assert (World.heap w1 !! a = World.heap w !! a) as Ha1.
    { apply (gathers_others _ _ _ _ _ G1); [done..|]. intros x d Hd Hx. apply (Hf x d Hd). by left. }
    rewrite <- Ha1. apply (gathers_others _ _ _ _ _ G2); [by rewrite Ha1|done|].
    intros x d Hd Hx. destruct (decide (S1 x)) as [Hx1|Hx1]; [by destruct (Hdis x)|].
    rewrite (gathers_data_outside _ _ _ _ _ _ G1 Hx1) in Hd. apply (Hf x d Hd). by right.
  - intros sb Hsb. destruct (gathers_target _ _ _ _ _ G1 sb Hsb) as (sb1&Hsb1&[A1 B1 C1 D1]).
    destruct (gathers_target _ _ _ _ _ G2 sb1 Hsb1) as (sb2&Hsb2&[A2 B2 C2 D2]).
    exists sb2. split; [done|].
    pose proof (frame_alive _ _ (gathers_frame _ _ _ _ _ G1)) as Hal. split.
    + auto.
    + intros Hfull x d Hd HS Ha. destruct (Hdec x) as [Hx|Hx]; [apply A2; by eapply B1|].
      destruct HS as [?|HS]; [done|]. apply (B2 Hfull x d); [by apply Hpend2|done|by rewrite Hal].
    + intros x d st y k Hd HS Hst Hy Ha. destruct (Hdec x) as [Hx|Hx]; [apply A2; by eapply C1|].
      destruct HS as [?|HS]; [done|]. destruct (Hpend2 x d Hd HS) as [Hd1 Hh].
      apply (C2 x d st); [done|done|by unfold owned; rewrite Hh|done|by rewrite Hal].
    + intros b. rewrite D2, D1. split.
      * intros [[?|(x&d&st&?&?&?&?)]|(x&d&st&Hd&Hx&Hst&Hb)]; [by left|right; exists x, d, st; tauto|].
        right. exists x, d, st.
        assert (Hn : ¬ S1 x) by (intros ?; by eapply Hdis).
        rewrite (gathers_data_outside _ _ _ _ _ _ G1 Hn) in Hd.
        destruct (Hpend2 x d Hd Hx) as [_ Hh]. unfold owned in Hst. rewrite Hh in Hst. tauto.
      * intros [?|(x&d&st&Hd&[Hx|Hx]&Hst&Hb)]; [tauto|left; right; by exists x, d, st|].
        right. exists x, d, st. destruct (Hpend2 x d Hd Hx) as [Hd1 Hh].
        unfold owned. by rewrite Hh.
  - eapply frugal_trans; [apply G1|apply G2].
  - intros Hfull. by rewrite (gathers_quiet _ _ _ _ _ G2), (gathers_quiet _ _ _ _ _ G1).
Qed.

(** The children of a surface are gathered into its own cell, and then the
    surface into the target. *)
Lemma gathers_nest S s d target w w1 w2 :
  (∀ x, Decision (S x)) → ¬ S s → World.data w s = Some d →
  let own := PrivateSurfaceData.pending_transaction d in
  own ≠ target → foreign w S target → is_Some (World.heap w !! target) → cells_ok w →
  gathers true S own w w1 → gathers true (λ x, x = s) target w1 w2 →
  gathers true (λ x, S x ∨ x = s) target w w2.
Proof.
  intros Hdec Hs Hd own Hown Hf HP Hcells G1 G2.
  assert (Hd1 : World.data w1 s = Some d) by (by rewrite (gathers_data_outside _ _ _ _ _ _ G1 Hs)).
  assert (HPh : World.heap w1 !! target = World.heap w !! target).
  { by apply (gathers_others _ _ _ _ _ G1). }
  destruct (cells_owned _ Hcells _ _ Hd) as [st0 Hst0]. fold own in Hst0.
  destruct (gathers_target _ _ _ _ _ G1 st0 Hst0) as (st1&Hst1&[A1 B1 C1 D1]).
  pose proof (frame_alive _ _ (gathers_frame _ _ _ _ _ G1)) as Hal.
  split.
  - eapply same_frame_trans; [apply G1|apply G2].
  - intros x u Hu HS. destruct (decide (x = s)) as [->|Hx].
    + apply (gathers_inside _ _ _ _ _ G2); [|done]. by rewrite (gathers_outside _ _ _ _ _ G1).
    + destruct HS as [HS|?]; [|done].
      destruct (gathers_inside _ _ _ _ _ G1 _ _ Hu HS) as (u'&Hu'&Hrest). exists u'.
      by rewrite (gathers_outside _ _ _ _ _ G2).
  - intros x Hx. rewrite (gathers_outside _ _ _ _ _ G2) by tauto.
    apply (gathers_outside _ _ _ _ _ G1). tauto.
  - intros x Hx. by apply (gathers_unknown _ _ _ _ _ G2), (gathers_unknown _ _ _ _ _ G1).
  - apply G2.
  - intros a Ha HaP Hfa.
    assert (Hao : a ≠ own) by (intros ->; by apply (Hfa s d Hd (or_intror eq_refl))).
    assert (World.heap w1 !! a = World.heap w !! a) as Ha1.
    { apply (gathers_others _ _ _ _ _ G1); [done..|]. intros x dx Hdx Hx.
      apply (Hfa x dx Hdx). by left. }
    rewrite <- Ha1. apply (gathers_others _ _ _ _ _ G2); [by rewrite Ha1|done|].
    intros x dx Hdx ->. rewrite Hd1 in Hdx. by simplify_eq.
  - intros sb Hsb. destruct (gathers_target _ _ _ _ _ G2 sb) as (sb2&Hsb2&[A2 B2 C2 D2]).
    { unfold owned. by rewrite HPh. }
    exists sb2. split; [done|]. split.
    + done.
    + intros _ x dx Hdx HS Ha. destruct (decide (x = s)) as [->|Hx].
      * rewrite Hd in Hdx. simplify_eq. by apply (B2 eq_refl s); [..|by rewrite Hal].
      * destruct HS as [HS|?]; [|done].
        apply (C2 s d st1); [done..| |by rewrite Hal]. by eapply B1.
    + intros x dx st y k Hdx HS Hst Hy Ha. apply (C2 s d st1); [done..| |by rewrite Hal].
      destruct (decide (x = s)) as [->|Hx].
      * rewrite Hd in Hdx. simplify_eq. unfold owned in *. fold own in Hst. rewrite Hst0 in Hst.
        simplify_eq. by apply A1.
      * destruct HS as [HS|?]; [|done]. by eapply C1.
    + intros b. rewrite D2. split.
      * intros [?|(x&dx&st&Hdx&->&Hst&Hb)]; [by left|]. rewrite Hd1 in Hdx. simplify_eq.
        unfold owned in *. fold own in Hst. rewrite Hst1 in Hst. simplify_eq.
        apply D1 in Hb as [Hb|(x&dy&sy&?&?&?&?)].
        -- right. exists s, dx, st0. split; [done|]. split; [by right|]. done.
        -- right. exists x, dy, sy. split; [done|]. split; [by left|]. done.
      * intros [?|(x&dx&st&Hdx&HS&Hst&Hb)]; [by left|]. right. exists s, d, st1.
        do 3 (split; [done|]). apply D1. destruct (decide (x = s)) as [->|Hx].
        -- rewrite Hd in Hdx. simplify_eq. unfold owned in *. fold own in Hst. rewrite Hst0 in Hst.
           simplify_eq. by left.
        -- destruct HS as [HS|?]; [|done]. right. by exists x, dx, st.
  - eapply frugal_trans; [apply G1|apply G2].
  - intros Hfull. by rewrite (gathers_quiet _ _ _ _ _ G2), (gathers_quiet _ _ _ _ _ G1).
Qed.

Lemma gathers_ext full S S' target w w' :
  (∀ x, S x ↔ S' x) → gathers full S target w w' → gathers full S' target w w'.
Proof.
  intros HS [F I O U C H T L]. split; try done.
  - intros x u Hu Hx. apply (I x u Hu). by apply HS.
  - intros x Hx. apply O. by rewrite HS.
  - intros a Ha HaT Hf. apply H; [done..|]. intros x d Hd Hx. apply (Hf x d Hd). by apply HS.
  - intros sb Hsb. destruct (T sb Hsb) as (sb'&Hsb'&[A B P D]). exists sb'. split; [done|]. split.
    + done.
    + intros Hfull x d Hd Hx. apply (B Hfull x d Hd). by apply HS.
    + intros x d st y k Hd Hx. apply (P x d st y k Hd). by apply HS.
    + intros b. rewrite D. by setoid_rewrite HS.
Qed.

(** The invariant survives. *)
Lemma gathers_ok full S target held w w' :
  (∀ x, Decision (S x)) → ok held w → gathers full S target w w' → stable held w w'.
Proof.
  intros Hdec [(linked&Ha&Hf) Hcells [Hcs Hce] Hsub Hl] G.
  pose proof (gathers_frame _ _ _ _ _ G) as [Fl Fa Fs Fc Fr Fu Fh Fe Ft].
  assert (Hboth : ∀ x u, World.surfaces w !! x = Some u → ∃ u', World.surfaces w' !! x = Some u' ∧
    SurfaceUserData.client u' = SurfaceUserData.client u ∧
    SurfaceUserData.client_state u' = SurfaceUserData.client_state u ∧
    (has_sync (SurfaceUserData.inner u) → has_sync (SurfaceUserData.inner u'))).
  { intros x u Hu. destruct (Hdec x) as [Hx|Hx].
    - destruct (gathers_inside _ _ _ _ _ G _ _ Hu Hx) as (u'&?&?&?&Hc). exists u'.
      do 3 (split; [done|]). unfold has_sync. by rewrite (committed_data_map _ _ _ Hc).
    - exists u. by rewrite (gathers_outside _ _ _ _ _ G). }
  split; [split| |apply G].
  - exists linked. rewrite Fa. split; [done|]. by rewrite (gathers_shape _ _ _ _ _ Hdec G).
  - apply G.
  - split; [|by rewrite Fc, Fs]. intros x u' Hu'. rewrite Fs.
    destruct (World.surfaces w !! x) as [u|] eqn:Eu.
    + destruct (Hboth _ _ Eu) as (u2&Hu2&_&Hcl&_). simplify_eq. rewrite Hcl. by eapply Hcs.
    + by rewrite (gathers_unknown _ _ _ _ _ G _ Eu) in Hu'.
  - intros r x Hx. rewrite Fu in Hx. destruct (Hsub r x Hx) as (d&Hd&Hs).
    destruct (data_surfaces _ _ _ Hd) as (u&Hu&<-). destruct (Hboth _ _ Hu) as (u'&Hu'&_&_&Hi).
    exists (SurfaceUserData.inner u'). unfold World.data. rewrite Hu'. by split; [|apply Hi].
  - by rewrite Fl.
  - split; [done| |by rewrite Fs]. intros x _. by rewrite Fa.
Qed.

(** ** Cells of the store *)

Lemma on_heap_eq {A} w (f : Heap Barrier.t → option (A * Heap Barrier.t)) a h :
  f (World.heap w) = Some (a, h) → on_heap f w = (World.set_heap h w, Ok a).
Proof.
  intros Hf. unfold on_heap, mbind, run_bind, get_state, modify. by rewrite Hf.
Qed.

Lemma heap_update_eq w (f : Heap Barrier.t → option (Heap Barrier.t)) h :
  f (World.heap w) = Some h → heap_update f w = (World.set_heap h w, Ok tt).
Proof. intros Hf. unfold heap_update. apply on_heap_eq. by rewrite Hf. Qed.

(** A default transaction takes the place of the old one. *)
Lemma take_transaction_eq w s d :
  World.data w s = Some d →
  ∃ f h, World.heap w !! f = None ∧ owned h f ts_default ∧
    (∀ a, a ≠ f → h !! a = World.heap w !! a) ∧
    take_transaction s w =
      (World.write s (PrivateSurfaceData.set_pending_transaction f d) (World.set_heap h w),
       Ok (PrivateSurfaceData.pending_transaction d)).
Proof.
  intros Hd. destruct (arc_new_owned (B := Barrier.t) ts_default (World.heap w)) as (Hn&Ho&Hx).
  exists (pending_default (World.heap w)).1, (pending_default (World.heap w)).2.
  do 3 (split; [done|]). unfold take_transaction.
  rewrite (run_ok _ _ _ _ _ (guarded_eq w s d Hd)).
  unfold new_transaction. rewrite (run_ok _ _ _ _ _ (on_heap_eq w _ _ _ (f_equal Some
    (surjective_pairing (pending_default (World.heap w)))))).
  rewrite (run_ok _ _ _ _ _ (write_eq (World.set_heap _ w) s d _ Hd)). done.
Qed.

(** What is taken is merged into another cell, and dropped. *)
Lemma merge_drop_eq w a target sa sb :
  a ≠ target → owned (World.heap w) a sa → owned (World.heap w) target sb →
  ∃ h, (merge a target;; drop_transaction a) w = (World.set_heap h w, Ok tt) ∧
    owned h target (absorb (World.is_alive w) sa sb) ∧ h !! a = None ∧
    ∀ x, x ≠ a → x ≠ target → h !! x = World.heap w !! x.
Proof.
  intros Hat Ha Hb.
  destruct (merge_drop (World.is_alive w) _ _ _ _ _ Hat Ha Hb) as (h1&h2&Hm&Hd&Ho&Hn&Hx).
  exists h2. split; [|done]. unfold merge, drop_transaction.
  assert (Hmerge : merge a target w = (World.set_heap h1 w, Ok tt)) by (by apply heap_update_eq).
  unfold merge in Hmerge. rewrite (run_ok _ _ _ _ _ Hmerge).
  apply (heap_update_eq (World.set_heap h1 w)). simpl. by rewrite Hd.
Qed.

Lemma is_alive_true w s : s ∈ World.alive w → World.is_alive w s = true.
Proof. intros. by apply bool_decide_eq_true. Qed.

(** ** The surface itself *)

(** The queue of a surface after a commit. *)
Definition queued d env : PrivateSurfaceData.t :=
  PrivateSurfaceData.set_public (SurfaceData.set_cached_state
    (MultiCache.commit (Some (PrivateSurfaceData.current_commit d))
       (SurfaceData.cached_state (PrivateSurfaceData.public d)) env).1
    (PrivateSurfaceData.public d)) d.

Definition queued_env d env : Env.t :=
  (MultiCache.commit (Some (PrivateSurfaceData.current_commit d))
     (SurfaceData.cached_state (PrivateSurfaceData.public d)) env).2.

Lemma commit_cache_eq w s d :
  World.data w s = Some d →
  commit_cache s (Some (PrivateSurfaceData.current_commit d)) w =
    (World.write s (queued d (World.env w)) (World.set_env (queued_env d (World.env w)) w), Ok tt).
Proof.
  intros Hd. unfold commit_cache. rewrite (run_ok _ _ _ _ _ (guarded_eq w s d Hd)), run_get.
  unfold queued, queued_env. destruct (MultiCache.commit _ _ _) as [c env] eqn:E. simpl.
  rewrite run_modify. by rewrite (write_eq (World.set_env env w) s d).
Qed.

Lemma queued_balance d env b :
  (surface_holds b (queued d env) + Env.released b (queued_env d env)
    <= surface_holds b d + Env.released b env)%nat.
Proof.
  unfold surface_holds, queued, queued_env. simpl.
  pose proof (multi_commit_balance b (Some (PrivateSurfaceData.current_commit d))
    (SurfaceData.cached_state (PrivateSurfaceData.public d)) env) as Hb.
  by destruct (MultiCache.commit _ _ _).
Qed.

Lemma insert_commit_eq w s d st :
  World.data w s = Some d → owned (World.heap w) (PrivateSurfaceData.pending_transaction d) st →
  insert_commit s w =
    (World.set_heap (<[PrivateSurfaceData.pending_transaction d :=
       {| strong := 1; inner := Data (ts_insert s (PrivateSurfaceData.current_commit d) st) |}]>
       (World.heap w)) w, Ok tt).
Proof.
  intros Hd Hst. unfold insert_commit. rewrite (run_ok _ _ _ _ _ (guarded_eq w s d Hd)).
  apply heap_update_eq. unfold insert. by apply (update_state_data _ _ 1).
Qed.

(** The surface as the commit leaves it, with its new cell. *)
Definition advanced f d : PrivateSurfaceData.t :=
  PrivateSurfaceData.set_current_commit (U64.wrapping_succ (PrivateSurfaceData.current_commit d))
    (PrivateSurfaceData.set_pending_transaction f d).

Lemma own_commit_steps w s target :
  own_commit s target w =
    (d ← guarded s;
     commit_cache s (Some (PrivateSurfaceData.current_commit d));;
     insert_commit s;;
     transaction ← take_transaction s;
     (merge transaction target;; drop_transaction transaction);;
     advance_commit s) w.
Proof. reflexivity. Qed.

Lemma own_commit_eq w s d target st sb :
  World.data w s = Some d → owned (World.heap w) (PrivateSurfaceData.pending_transaction d) st →
  owned (World.heap w) target sb → PrivateSurfaceData.pending_transaction d ≠ target →
  ∃ f h, World.heap w !! f = None ∧ owned h f ts_default ∧
    owned h target (absorb (World.is_alive w)
      (ts_insert s (PrivateSurfaceData.current_commit d) st) sb) ∧
    (∀ a, a ≠ f → a ≠ target → a ≠ PrivateSurfaceData.pending_transaction d →
       h !! a = World.heap w !! a) ∧
    own_commit s target w =
      (World.write s (advanced f (queued d (World.env w)))
         (World.set_heap h (World.set_env (queued_env d (World.env w)) w)), Ok tt).
Proof.
  intros Hd Hst Hsb Hne. rewrite own_commit_steps.
  rewrite (run_ok _ _ _ _ _ (guarded_eq w s d Hd)).
  rewrite (run_ok _ _ _ _ _ (commit_cache_eq w s d Hd)).
  set (d1 := queued d (World.env w)). set (w1 := World.write s d1 _).
  assert (Hd1 : World.data w1 s = Some d1).
  { by apply (data_write_same (World.set_env _ w) _ d). }
  rewrite (run_ok _ _ _ _ _ (insert_commit_eq w1 s d1 st Hd1 Hst)).
  set (h2 := <[_ := _]> (World.heap w1)).
  destruct (take_transaction_eq (World.set_heap h2 w1) s d1 Hd1) as (f&h3&Hf&Hof&Hx3&Ht).
  rewrite (run_ok _ _ _ _ _ Ht).
  set (w3 := World.write s _ _).
  assert (Hf0 : World.heap w !! f = None ∧ f ≠ PrivateSurfaceData.pending_transaction d).
  { simpl in Hf. unfold h2 in Hf. apply lookup_insert_None in Hf as [? ?]. done. }
  destruct Hf0 as [Hf0 Hfd].
  assert (Hft : f ≠ target) by (intros ->; unfold owned in Hsb; congruence).
  destruct (merge_drop_eq w3 (PrivateSurfaceData.pending_transaction d) target
    (ts_insert s (PrivateSurfaceData.current_commit d) st) sb) as (h4&Hm&Ho4&Hn4&Hx4); [done|..].
  { unfold owned. simpl. rewrite Hx3 by done. simpl. unfold h2. by rewrite lookup_insert_eq. }
  { unfold owned. simpl. rewrite Hx3 by done. simpl. unfold h2. by rewrite lookup_insert_ne. }
  rewrite (run_ok _ _ _ _ _ Hm).
  exists f, h4. split; [done|]. split; [|split; [|split]].
  - unfold owned. rewrite Hx4 by done. done.
  - done.
  - intros a Haf Hat Had. rewrite Hx4 by done. simpl. rewrite Hx3 by done. simpl.
    unfold h2. by rewrite lookup_insert_ne.
  - unfold advance_commit.
    assert (Hd3 : World.data (World.set_heap h4 w3) s =
      Some (PrivateSurfaceData.set_pending_transaction f d1)).
    { by apply (data_write_same (World.set_heap h3 (World.set_heap h2 w1)) _ d1). }
    rewrite (write_eq _ _ _ _ Hd3). unfold w3.
    rewrite !write_set_heap, !set_heap_twice, write_twice. unfold w1. by rewrite write_twice.
Qed.

(** A surface gets a cell of its own in a store where it had one. *)
Lemma cells_replace w w' s d d' f :
  cells_ok w → World.data w s = Some d → World.data w' s = Some d' →
  PrivateSurfaceData.pending_transaction d' = f → owned (World.heap w') f ts_default →
  World.heap w !! f = None →
  (∀ x, x ≠ s → World.data w' x = World.data w x) →
  (∀ a st, owned (World.heap w) a st → a ≠ PrivateSurfaceData.pending_transaction d →
     ∃ st', owned (World.heap w') a st') →
  cells_ok w'.
Proof.
  intros [Ho Ha] Hd Hd' Hf Hof Hn Hx Hown.
  assert (Hold : ∀ x dx, x ≠ s → World.data w x = Some dx →
    PrivateSurfaceData.pending_transaction dx ≠ f ∧
    PrivateSurfaceData.pending_transaction dx ≠ PrivateSurfaceData.pending_transaction d).
  { intros x dx Hxs Hdx. split.
    - intros E. destruct (Ho _ _ Hdx) as [st Hst]. unfold owned in Hst. congruence.
    - intros E. by apply Hxs, (Ha x s dx d). }
  split.
  - intros x dx Hdx. destruct (decide (x = s)) as [->|Hxs].
    + simplify_eq. by exists ts_default.
    + rewrite Hx in Hdx by done. destruct (Ho _ _ Hdx) as [st Hst].
      apply (Hown _ st Hst). by apply (Hold x dx).
  - intros x y dx dy Hdx Hdy E.
    destruct (decide (x = s)) as [->|Hxs], (decide (y = s)) as [->|Hys]; [done| | |].
    + rewrite Hx in Hdy by done. simplify_eq. by destruct (Hold y dy).
    + rewrite Hx in Hdx by done. simplify_eq. by destruct (Hold x dx).
    + rewrite Hx in Hdx, Hdy by done. by apply (Ha x y dx dy).
Qed.

(** One surface is written, gets a new cell, and its old transaction [st'] went
    into the target. *)
Lemma replace_gathers full w s d d' f h env target st st' sb :
  World.data w s = Some d → cells_ok w →
  owned (World.heap w) (PrivateSurfaceData.pending_transaction d) st →
  owned (World.heap w) target sb → PrivateSurfaceData.pending_transaction d ≠ target →
  World.heap w !! f = None → owned h f ts_default →
  owned h target (absorb (World.is_alive w) st' sb) →
  (∀ a, a ≠ f → a ≠ target → a ≠ PrivateSurfaceData.pending_transaction d →
     h !! a = World.heap w !! a) →
  committed full d d' → PrivateSurfaceData.pending_transaction d' = f →
  (∀ b, surface_holds b d' + Env.released b env <=
        surface_holds b d + Env.released b (World.env w))%nat →
  (∀ x k, commits_at (ts_surfaces st) x k → commits_at (ts_surfaces st') x k) →
  (full = true → commits_at (ts_surfaces st') s (PrivateSurfaceData.current_commit d)) →
  ts_blockers st' = ts_blockers st → (full = false → env = World.env w) →
  gathers full (λ x, x = s) target w (World.write s d' (World.set_heap h (World.set_env env w))).
Proof.
  intros Hd Hcells Hst Hsb Hne Hf Hof Hot Hx Hcom Hpf Hbal Hold Hfull Hbl Henv.
  set (w1 := World.set_heap h _).
  assert (Hd' : World.data (World.write s d' w1) s = Some d') by (by apply (data_write_same w1 _ d)).
  assert (Hft : f ≠ target) by (intros ->; unfold owned in Hsb; congruence).
  split.
  - by split.
  - intros x u Hu ->. rewrite surfaces_write, decide_True by done. simpl. rewrite Hu.
    eexists. split; [done|]. do 2 (split; [done|]). simpl.
    unfold World.data in Hd. rewrite Hu in Hd. by simplify_eq/=.
  - intros x Hxs. by rewrite surfaces_write, decide_False.
  - intros x Hn. rewrite surfaces_write. destruct (decide (x = s)) as [->|]; [simpl|done].
    by rewrite Hn.
  - eapply (cells_replace w _ s d d' f); try done.
    + intros x Hxs. by rewrite data_write_other.
    + intros a sa Ha Had. destruct (decide (a = target)) as [->|]; [by eexists|].
      exists sa. unfold owned in *. simpl. rewrite Hx; [done| |done|done]. intros ->. congruence.
  - intros a [c Hc] Hat Hfor. simpl. apply Hx; [intros ->; congruence|done|].
    intros ->. by apply (Hfor s d Hd eq_refl).
  - intros sb' Hsb'. assert (sb' = sb) as -> by (unfold owned in *; congruence).
    eexists. split; [exact Hot|]. split.
    + intros x k. apply absorb_target.
    + intros Hfl x dx Hdx -> Ha. simplify_eq. apply absorb_state; [by apply Hfull|].
      by apply is_alive_true.
    + intros x dx sx y k Hdx -> Hsx Hy Ha. simplify_eq.
      assert (sx = st) as -> by (unfold owned in *; congruence).
      apply absorb_state; [by apply Hold|by apply is_alive_true].
    + intros b. rewrite absorb_blockers, elem_of_app, Hbl. split.
      * intros [?|?]; [by left|right]. by exists s, d, st.
      * intros [?|(x&dx&sx&Hdx&->&Hsx&?)]; [by left|right]. simplify_eq.
        assert (sx = st) as -> by (unfold owned in *; congruence). done.
  - intros b. pose proof (surfaces_hold_write b w1 s d d' Hd) as Hw.
    specialize (Hbal b). unfold ledger. simpl in *. lia.
  - exact Henv.
Qed.

Lemma own_commit_gathers w s d target sb :
  World.data w s = Some d → cells_ok w → owned (World.heap w) target sb →
  PrivateSurfaceData.pending_transaction d ≠ target →
  ∃ w', own_commit s target w = (w', Ok tt) ∧ gathers true (λ x, x = s) target w w'.
Proof.
  intros Hd Hcells Hsb Hne. destruct (cells_owned _ Hcells _ _ Hd) as [st Hst].
  destruct (own_commit_eq w s d target st sb Hd Hst Hsb Hne) as (f&h&Hf&Hof&Hot&Hx&Heq).
  eexists. split; [exact Heq|].
  eapply replace_gathers; try done.
  - split; try done. by exists (World.env w).
  - intros b. apply queued_balance.
  - intros x k. apply insert_surface_commits.
  - intros _. apply insert_surface_here.
Qed.

(** Taking the transaction of a child without committing it. *)
Lemma take_child_gathers w c d target sb :
  World.data w c = Some d → cells_ok w → c ∉ World.locked w → owned (World.heap w) target sb →
  PrivateSurfaceData.pending_transaction d ≠ target →
  ∃ w', (advance_commit c;; taken ← take_transaction c; release c;;
         merge taken target;; drop_transaction taken)
        (World.set_locked ({[c]} ∪ World.locked w) w) = (w', Ok tt) ∧
    gathers false (λ x, x = c) target w w'.
Proof.
  intros Hd Hcells Hc Hsb Hne. destruct (cells_owned _ Hcells _ _ Hd) as [st Hst].
  set (wl := World.set_locked _ w). unfold advance_commit.
  rewrite (run_ok _ _ _ _ _ (write_eq wl c d _ Hd)).
  set (d1 := PrivateSurfaceData.set_current_commit _ d). set (w1 := World.write c d1 wl).
  assert (Hd1 : World.data w1 c = Some d1) by (by apply (data_write_same wl _ d)).
  destruct (take_transaction_eq w1 c d1 Hd1) as (f&h3&Hf&Hof&Hx3&Ht).
  rewrite (run_ok _ _ _ _ _ Ht), (run_ok _ _ _ _ _ (release_eq _ c)).
  assert (Hfd : f ≠ PrivateSurfaceData.pending_transaction d)
    by (intros ->; unfold owned in Hst; simpl in Hf; congruence).
  assert (Hft : f ≠ target) by (intros ->; unfold owned in Hsb; simpl in Hf; congruence).
  set (w3 := World.set_locked _ _).
  assert (Hw3 : w3 = World.set_heap h3 (World.write c (advanced f d) w)).
  { unfold w3, w1. rewrite !write_set_heap, write_twice. unfold wl. simpl.
    rewrite unlock_again by done. by destruct w. }
  destruct (merge_drop_eq w3 (PrivateSurfaceData.pending_transaction d) target st sb)
    as (h4&Hm&Ho4&Hn4&Hx4); [done|..].
  { unfold owned. rewrite Hw3. simpl. by rewrite Hx3. }
  { unfold owned. rewrite Hw3. simpl. by rewrite Hx3. }
  eexists. split; [exact Hm|]. rewrite Hw3 in *.
  rewrite set_heap_twice, <- write_set_heap.
  replace (World.set_heap h4 w) with (World.set_heap h4 (World.set_env (World.env w) w))
    by (by destruct w).
  eapply (replace_gathers false w c d (advanced f d) f h4 (World.env w) target st st sb); try done.
  - unfold owned. by rewrite Hx4.
  - intros a Haf Hat Had. rewrite Hx4 by done. simpl. by rewrite Hx3.
Qed.

(** ** The recursion *)

Definition below w (s x : Z) : Prop := descends (owner (shape w)) x s.

(** The children of [l] with everything below them. *)
Definition below_children w (s : Z) (l : list Z) (x : Z) : Prop :=
  ∃ c, c ∈ l ∧ c ≠ s ∧ below w c x.

Lemma owner_domain held w v o :
  ok held w → owner (shape w) v = Some o → v ∈ dom (shape w) ∧ o ∈ dom (shape w).
Proof. intros [(linked&_&Hf) _ _ _ _]. by apply (forest_closed linked). Qed.

Lemma ok_acyclic held w : ok held w → acyclic (owner (shape w)).
Proof. intros [(linked&_&Hf) _ _ _ _]. apply Hf. Qed.

Lemma chain_nsteps steps w s k :
  (k < length (chain steps w s))%nat → ∃ y, nsteps (parent (owner (shape w))) k s y.
Proof.
  revert s k. induction steps as [|steps IH]; intros s k; simpl; [lia|].
  destruct k as [|k]; [by exists s; constructor|].
  destruct (owner (shape w) s) as [p|] eqn:Ep; simpl; [|lia].
  intros Hk. destruct (IH p k) as [y Hy]; [lia|]. exists y. by econstructor.
Qed.

Lemma nsteps_bound held w k x s :
  ok held w → nsteps (parent (owner (shape w))) k x s → (k <= size (World.surfaces w))%nat.
Proof.
  intros Hok Hk. destruct k as [|k]; [lia|].
  assert (x ∈ dom (shape w)) as Hx.
  { inversion Hk as [|? ? y ? Hy]; subst. by apply (owner_domain held w x y). }
  pose proof (chain_bound (owner (shape w)) (dom (shape w))
    (λ v o, owner_domain held w v o Hok) (ok_acyclic _ _ Hok) _ _ _ Hx Hk) as Hb.
  rewrite size_dom in Hb. unfold shape in Hb. rewrite map_size_fmap in Hb. lia.
Qed.

Lemma below_chain held w s x :
  ok held w → below w s x ↔ s ∈ chain (S (S (size (World.surfaces w)))) w x.
Proof.
  intros Hok. split; [|apply chain_descends]. apply chain_complete.
  destruct (decide (length (chain (S (S (size (World.surfaces w)))) w x)
    < S (S (size (World.surfaces w))))%nat) as [|Hge]; [done|exfalso].
  destruct (chain_nsteps (S (S (size (World.surfaces w)))) w x (S (size (World.surfaces w))))
    as [y Hy]; [lia|]. apply (nsteps_bound held) in Hy; [lia|done].
Qed.

Lemma below_dec held w s x : ok held w → Decision (below w s x).
Proof.
  intros Hok. destruct (decide (s ∈ chain (S (S (size (World.surfaces w)))) w x)) as [Hin|Hin].
  - left. by eapply below_chain.
  - right. by rewrite (below_chain held).
Qed.

Lemma below_children_dec held w s l x : ok held w → Decision (below_children w s l x).
Proof.
  intros Hok. unfold below_children.
  destruct (decide (Exists (λ c, c ≠ s ∧ c ∈ chain (S (S (size (World.surfaces w)))) w x) l)) as [He|He].
  - left. apply Exists_exists in He as (c&Hc&Hcs&Hx). exists c. do 2 (split; [done|]).
    by eapply below_chain.
  - right. intros (c&Hc&Hcs&Hx). apply He, Exists_exists. exists c. do 2 (split; [done|]).
    by eapply below_chain.
Qed.

Lemma below_iff w s x k p :
  shape w !! s = Some (p, k) → (∃ linked, forest_ok linked (shape w)) →
  below w s x ↔ x = s ∨ below_children w s k x.
Proof.
  intros Hs [linked Hf]. unfold below, below_children. split.
  - intros Hx. induction Hx as [|x y s Hxy Hy IH]; [by left|]. right.
    destruct (IH Hs) as [->|(c&Hc&Hcs&Hyc)].
    + destruct (forest_parent _ _ Hf _ _ Hxy) as (Hn&p'&k'&Hk'&Hin). simplify_eq.
      exists x. split; [done|]. split; [done|apply rtc_refl].
    + exists c. do 2 (split; [done|]). by eapply rtc_l.
  - intros [->|(c&Hc&Hcs&Hx)]; [apply rtc_refl|]. eapply rtc_r; [exact Hx|].
    by apply (forest_child _ _ Hf _ _ _ _ Hs).
Qed.

Lemma below_irrefl held w s c : ok held w → owner (shape w) c = Some s → ¬ below w c s.
Proof.
  intros Hok Hc Hs. apply (acyclic_irrefl _ c (ok_acyclic _ _ Hok)).
  eapply tc_rtc_r; [by apply tc_once|done].
Qed.

(** Two children have nothing below them in common. *)
Lemma below_apart held w s c c' x :
  ok held w → owner (shape w) c = Some s → owner (shape w) c' = Some s → c ≠ c' →
  below w c x → ¬ below w c' x.
Proof.
  intros Hok Hc Hc' Hne Hx Hx'.
  assert (∀ a b, owner (shape w) a = Some s → owner (shape w) b = Some s → a ≠ b →
    ¬ descends (owner (shape w)) a b) as Hno.
  { intros a b Ha Hb Hab Hd. inversion Hd as [|? y ? Hy Hyb]; subst; [done|].
    assert (y = s) as -> by (unfold parent in Hy; congruence).
    by apply (below_irrefl held w s b). }
  destruct (descends_linear _ _ _ _ Hx Hx') as [Hd|Hd]; [by apply (Hno c c')|by apply (Hno c' c)].
Qed.

Lemma frugal_set_locked w l : frugal w (World.set_locked l w).
Proof. by apply same_frugal. Qed.

(** Locking and unlocking around a call. *)
Lemma gathers_unlock full S target w l w' :
  gathers full S target (World.set_locked l w) w' →
  gathers full S target w (World.set_locked (World.locked w) w').
Proof.
  intros [[Fl Fa Fs Fc Fr Fu Fh Fe Ft] I O U C H T L]. split; try done.
  - destruct C as [Ho Ha]. by split.
  - intros sb Hsb. destruct (T sb Hsb) as (sb'&Hsb'&[A B P D]). exists sb'. split; [done|].
    by split.
Qed.

Lemma below_set_locked l w s x : below (World.set_locked l w) s x ↔ below w s x.
Proof. done. Qed.

(** ** A loop over children *)

(** Which surfaces a step of the loop reaches from a child: everything below
    it, everything below it if it is flagged as synchronised, or only itself. *)
Inductive Reach := Whole | Flagged | Single.

Definition reached (mode : Reach) w (c x : Z) : Prop :=
  match mode with
  | Whole => below w c x
  | Flagged => flagged w c = true ∧ below w c x
  | Single => x = c
  end.

Definition reached_children (mode : Reach) w (s : Z) (l : list Z) (x : Z) : Prop :=
  ∃ c, c ∈ l ∧ c ≠ s ∧ reached mode w c x.

Lemma reached_below mode w c x : reached mode w c x → below w c x.
Proof. destruct mode; [done|by intros [_ ?]|]. intros ->. apply rtc_refl. Qed.

Lemma reached_children_below mode w s l x :
  reached_children mode w s l x → below_children w s l x.
Proof. intros (c&?&?&?%reached_below). by exists c. Qed.

Lemma reached_dec mode held w c x : ok held w → Decision (reached mode w c x).
Proof.
  intros Hok. pose proof (below_dec held w c x Hok).
  destruct mode; unfold reached; [done| |]; apply _.
Qed.

Lemma reached_children_dec mode held w s l x :
  ok held w → Decision (reached_children mode w s l x).
Proof.
  intros Hok. unfold reached_children.
  assert (Hdec : ∀ c, Decision (c ≠ s ∧ reached mode w c x)).
  { intros c. pose proof (reached_dec mode held w c x Hok). apply _. }
  destruct (decide (Exists (λ c, c ≠ s ∧ reached mode w c x) l)) as [He|He].
  - left. by apply Exists_exists in He as (c&?&?&?); exists c.
  - right. intros (c&?&?&?). apply He, Exists_exists. by exists c.
Qed.

Lemma gathers_flagged full S target w w' x :
  (∀ x, Decision (S x)) → gathers full S target w w' → flagged w' x = flagged w x.
Proof.
  intros HS G. unfold flagged. destruct (HS x) as [Hx|Hx].
  - destruct (World.data w x) as [d|] eqn:Ed.
    + destruct (gathers_data_inside _ _ _ _ _ _ _ G Ed Hx) as (d'&->&Hc).
      unfold sync_flag. by rewrite (committed_data_map _ _ _ Hc).
    + unfold World.data in *. destruct (World.surfaces w !! x) eqn:E; [done|].
      by rewrite (gathers_unknown _ _ _ _ _ G _ E).
  - by rewrite (gathers_data_outside _ _ _ _ _ _ G Hx).
Qed.

Lemma gathers_reached full S target w w' mode c x :
  (∀ x, Decision (S x)) → gathers full S target w w' → reached mode w' c x ↔ reached mode w c x.
Proof.
  intros HS G. unfold reached, below.
  by rewrite (gathers_shape _ _ _ _ _ HS G), (gathers_flagged _ _ _ _ _ c HS G).
Qed.

Section loop.

Context (full : bool) (mode : Reach) (s own : Z) (held : gset Z).
Context (step : Z → Run (World.t R) TreeError.t unit).
Context (Q : shapes → Prop).
Context (step_self : ∀ w, step s w = (w, Ok tt)).
Context (step_child : ∀ c w sb,
  ok held w → c ≠ s → owner (shape w) c = Some s → Q (shape w) →
  (∀ x, below w c x → x ∉ held) → foreign w (reached mode w c) own → owned (World.heap w) own sb →
  ∃ w', step c w = (w', Ok tt) ∧ gathers full (reached mode w c) own w w').

Lemma children_gathers l w sb :
  ok held w → NoDup l → (∀ c, c ∈ l → c ≠ s → owner (shape w) c = Some s) → Q (shape w) →
  (∀ x, below_children w s l x → x ∉ held) →
  foreign w (reached_children mode w s l) own → owned (World.heap w) own sb →
  ∃ w', for_each step l w = (w', Ok tt) ∧ gathers full (reached_children mode w s l) own w w'.
Proof.
  revert w sb. induction l as [|c l IHl]; intros w sb Hok Hnd Hch HQ Hfree Hfor Hsb.
  { exists w. split; [done|]. eapply gathers_ext; [|by apply gathers_refl, Hok].
    intros x. split; [done|]. by intros (c&Hc%elem_of_nil&_). }
  apply NoDup_cons in Hnd as [Hcl Hnd]. simpl.
  assert (Hrest : ∀ x, reached_children mode w s l x → reached_children mode w s (c :: l) x).
  { intros x (c'&Hc'&?). exists c'. split; [by right|done]. }
  assert (Hfree' : ∀ x, below_children w s l x → x ∉ held).
  { intros x (c'&Hc'&?). apply Hfree. exists c'. split; [by right|done]. }
  destruct (decide (c = s)) as [->|Hcs].
  { rewrite (run_ok _ _ _ _ _ (step_self w)).
    destruct (IHl w sb) as (w'&Hw'&G); [done..| |done|done| |done|].
    - intros c Hc. apply Hch. by right.
    - intros x d Hd Hx. by apply (Hfor x d), Hrest.
    - exists w'. split; [done|]. eapply gathers_ext; [|exact G]. intros x. split; [apply Hrest|].
      intros (c&[->|Hc]%elem_of_cons&Hn&Hx); [done|]. by exists c. }
  pose proof (Hch c (list_elem_of_here _ _) Hcs) as Hown.
  assert (Hbc : ∀ x, reached mode w c x → reached_children mode w s (c :: l) x).
  { intros x Hx. exists c. split; [by left|done]. }
  destruct (step_child c w sb) as (w1&Hw1&G1); [done..| | |done|].
  { intros x Hx. apply Hfree. exists c. split; [by left|done]. }
  { intros x d Hd Hx. by apply (Hfor x d), Hbc. }
  rewrite (run_ok _ _ _ _ _ Hw1).
  assert (Hdec : ∀ x, Decision (reached mode w c x)) by (intros x; by eapply reached_dec).
  pose proof (gathers_shape _ _ _ _ _ Hdec G1) as Hsh.
  pose proof (gathers_ok _ _ _ _ _ _ Hdec Hok G1) as [Hok1 _ _].
  assert (Hdis : ∀ x, reached mode w c x → ¬ reached_children mode w s l x).
  { intros x Hx%reached_below (c'&Hc'&Hcs'&Hx'%reached_below).
    apply (below_apart held w s c c' x); try done.
    - apply Hch; [by right|done].
    - intros ->. done. }
  destruct (gathers_target _ _ _ _ _ G1 sb Hsb) as (sb1&Hsb1&_).
  assert (Hbeq : ∀ x, reached_children mode w1 s l x ↔ reached_children mode w s l x).
  { intros x. unfold reached_children. by setoid_rewrite (gathers_reached _ _ _ _ _ mode _ x Hdec G1). }
  destruct (IHl w1 sb1) as (w2&Hw2&G2); [done|done| | | | |done|].
  { intros c' Hc' Hn. rewrite Hsh. apply Hch; [by right|done]. }
  { by rewrite Hsh. }
  { intros x Hx. apply Hfree'. unfold below_children, below in *. by rewrite Hsh in Hx. }
  { intros x d Hd Hx%Hbeq. apply (Hfor x d); [|by apply Hrest].
    rewrite (gathers_data_outside _ _ _ _ _ _ G1) in Hd; [done|]. intros ?. by eapply Hdis. }
  exists w2. split; [done|].
  eapply (gathers_ext _ (λ x, reached mode w c x ∨ reached_children mode w s l x)).
  { intros x. split.
    - intros [?|?]; [by apply Hbc|by apply Hrest].
    - intros (c'&[->|Hc']%elem_of_cons&Hn&Hx); [by left|right; by exists c']. }
  eapply gathers_app; [done|done| | |by rewrite Hsb|apply Hok|done|].
  - intros x d Hd Hx. by apply (Hfor x d), Hbc.
  - intros x d Hd Hx. by apply (Hfor x d), Hrest.
  - eapply gathers_ext; [|exact G2]. done.
Qed.

End loop.

(** What is below a surface has at most so many levels. *)
Definition height (s : Z) (fuel : nat) (m : shapes) : Prop :=
  ∀ k x, nsteps (parent (owner m)) k x s → (k < fuel)%nat.

Lemma height_child s c fuel m : height s (S fuel) m → owner m c = Some s → height c fuel m.
Proof.
  intros Hh Hc k x Hk. apply Nat.succ_lt_mono, (Hh (S k) x). by eapply nsteps_r.
Qed.

Lemma commit_sync_tree_gathers fuel s target held w sb :
  ok held w → is_Some (World.data w s) → (∀ x, below w s x → x ∉ held) →
  foreign w (below w s) target → owned (World.heap w) target sb → height s fuel (shape w) →
  ∃ w', commit_sync_tree fuel s target w = (w', Ok tt) ∧
    gathers true (below w s) target w w'.
Proof.
  revert s target held w sb. induction fuel as [|fuel IH]; intros s target held w sb Hok [d Hd]
    Hfree Hfor Hsb Hfuel.
  { specialize (Hfuel 0%nat s). assert (0 < 0)%nat by (apply Hfuel; constructor). lia. }
  cbn [commit_sync_tree].
  assert (Hs : s ∉ World.locked w) by (rewrite (ok_locked _ _ Hok); apply Hfree, rtc_refl).
  rewrite (run_ok _ _ _ _ _ (acquire_eq w s d Hd Hs)).
  set (w0 := World.set_locked _ w). set (own := PrivateSurfaceData.pending_transaction d).
  assert (Hok0 : ok ({[s]} ∪ World.locked w) w0) by (by apply (set_locked_ok held)).
  destruct (ok_forest _ _ Hok) as (linked&Hal&Hf).
  assert (Hshape : shape w !! s = Some (PrivateSurfaceData.parent d, PrivateSurfaceData.children d))
    by (by rewrite shape_data, Hd).
  assert (Hch : ∀ c, c ∈ PrivateSurfaceData.children d → c ≠ s → owner (shape w0) c = Some s).
  { intros c Hc Hn. by apply (forest_child _ _ Hf _ _ _ _ Hshape). }
  pose proof (below_iff w s) as Hbelow.
  assert (Hin : ∀ x, below_children w0 s (PrivateSurfaceData.children d) x → below w s x ∧ x ≠ s).
  { intros x Hx. split; [eapply Hbelow; eauto|]. intros ->.
    destruct Hx as (c&Hc&Hn&Hx). by apply (below_irrefl _ w0 s c Hok0 (Hch c Hc Hn)). }
  destruct (ok_cells _ _ Hok) as [Hco Hca]. destruct (Hco s d Hd) as [st Hst].
  destruct (children_gathers true Whole s own ({[s]} ∪ World.locked w)
    (λ child, if decide (child = s) then mret tt else commit_sync_tree fuel child own)
    (height s (S fuel))) with (l := PrivateSurfaceData.children d) (w := w0) (sb := st)
    as (w1&Hw1&G1); [| |done| |done|exact Hfuel| | |done|].
  { intros w2. by rewrite decide_True. }
  { intros c w2 sb2 Hok2 Hn Hc Hh Hfr Hfo Hsb2. rewrite decide_False by done.
    eapply (IH c own ({[s]} ∪ World.locked w)); [done| |done..|by eapply height_child].
    rewrite owner_data in Hc. destruct (World.data w2 c); [by eexists|done]. }
  { by eapply (forest_nodup _ _ Hf). }
  { intros x Hx. destruct (Hin x Hx) as [Hb Hn]. rewrite (ok_locked _ _ Hok).
    apply Hfree in Hb. set_solver. }
  { intros x dx Hdx Hx E. destruct (Hin x Hx) as [_ Hn]. by apply Hn, (Hca x s dx d). }
  rewrite (run_ok _ _ _ _ _ Hw1).
  assert (Hdec : ∀ x, Decision (below_children w0 s (PrivateSurfaceData.children d) x))
    by (intros x; by eapply below_children_dec).
  pose proof (gathers_ok _ _ _ _ _ _ Hdec Hok0 G1) as [Hok1 _ _].
  assert (Hd1 : World.data w1 s = Some d).
  { rewrite (gathers_data_outside _ _ _ _ _ _ G1); [done|]. intros Hx. by destruct (Hin s Hx). }
  assert (Hne : own ≠ target) by (apply (Hfor s d Hd), rtc_refl).
  assert (HfP : foreign w0 (below_children w0 s (PrivateSurfaceData.children d)) target).
  { intros x dx Hdx Hx. apply (Hfor x dx Hdx). by apply Hin. }
  assert (Hsb1 : owned (World.heap w1) target sb).
  { unfold owned. rewrite (gathers_others _ _ _ _ _ G1); [done|by eexists|done|done]. }
  destruct (own_commit_gathers w1 s d target sb Hd1 (ok_cells _ _ Hok1) Hsb1 Hne) as (w2&Hw2&G2).
  rewrite (run_ok _ _ _ _ _ Hw2), release_eq.
  eexists. split; [done|].
  assert (Hl2 : World.locked w2 ∖ {[s]} = World.locked w).
  { rewrite (frame_locked _ _ (gathers_frame _ _ _ _ _ G2)),
      (frame_locked _ _ (gathers_frame _ _ _ _ _ G1)). simpl. by apply unlock_again. }
  rewrite Hl2. apply (gathers_unlock _ _ _ _ ({[s]} ∪ World.locked w)).
  eapply (gathers_ext _ (λ x, below_children w0 s (PrivateSurfaceData.children d) x ∨ x = s)).
  { intros x. rewrite (Hbelow x _ _ Hshape) by eauto. tauto. }
  eapply (gathers_nest _ s d); [done| |done|done|done|by eexists|apply Hok0|done|done].
  intros Hx. by destruct (Hin s Hx).
Qed.

End commit.
