(* ===== verification/SurfaceTreeApply.v ===== *)
(** * Commits and the application of transactions

    The whole [commit]: the loop over the children, the immediate application,
    the queue of the client and the transactions that become ready. *)

From Stdlib Require Import Floats.SpecFloat Strings.String.
From S2P Require Import Prelude Forest Geometry Surface Cached CachedSpec Transaction TransactionSpec SurfaceTree SurfaceTreeInv SurfaceTreeOps SurfaceTreeCommit.

(** What the other parts of the compositor promise when they are called: they
    return, they keep the invariant, and they release only buffers that they took
    from the surfaces. *)
Class HandlersOk (R : Type) `{Handlers R, !Holder R} := {
  commit_hook_safe : ∀ callback s (w : World.t R),
    ok ∅ w → is_Some (World.data w s) → safe ∅ w (commit_hook callback s);
  destruction_hook_safe : ∀ callback s (w : World.t R),
    ok ∅ w → is_Some (World.data w s) → safe ∅ w (destruction_hook callback s);
  surface_commit_applied_safe : ∀ s (w : World.t R),
    ok ∅ w → is_Some (World.data w s) → safe ∅ w (surface_commit_applied s);
  surface_destroyed_applied_safe : ∀ s (w : World.t R),
    ok ∅ w → is_Some (World.data w s) → safe ∅ w (surface_destroyed_applied s);
}.

Section apply.

Context {R : Type} `{Objects} `{!Handlers R} `{!Holder R} `{!HandlersOk R}.

Implicit Types (w : World.t R) (d : PrivateSurfaceData.t).

Lemma stable_known held w w' s :
  stable held w w' → is_Some (World.data w s) → is_Some (World.data w' s).
Proof.
  intros [_ E _] [d Hd]. destruct (extends_data _ _ _ _ E Hd) as (d'&?&_). by exists d'.
Qed.

(** ** Hooks *)

Lemma safe_invoke w s (select : PrivateSurfaceData.t → list Hook.t) :
  ok ∅ w → is_Some (World.data w s) →
  safe ∅ w (hooks ← reading s select;
            for_each (λ hook, commit_hook (Hook.callback hook) s) hooks).
Proof.
  intros Hok [d Hd]. assert (Hl : s ∉ World.locked w) by (rewrite (ok_locked _ _ Hok); set_solver).
  unfold safe, runs. rewrite (run_ok _ _ _ _ _ (reading_eq w s d select Hd Hl)).
  apply (safe_for_each ∅ (λ _ w, is_Some (World.data w s))); [done| | |].
  - apply Forall_forall. intros h _. by exists d.
  - intros h w1 w2 Hs. by eapply stable_known.
  - intros h w1 _ Hok1 Hk. by apply commit_hook_safe.
Qed.

(** ** Applying *)

Definition applied (commit : Z) d env : PrivateSurfaceData.t :=
  PrivateSurfaceData.set_public (SurfaceData.set_cached_state
    (MultiCache.apply commit (SurfaceData.cached_state (PrivateSurfaceData.public d)) env).1
    (PrivateSurfaceData.public d)) d.

Definition applied_env (commit : Z) d env : Env.t :=
  (MultiCache.apply commit (SurfaceData.cached_state (PrivateSurfaceData.public d)) env).2.

Lemma apply_cache_eq w s d commit :
  World.data w s = Some d → s ∉ World.locked w →
  apply_cache s commit w =
    (World.write s (applied commit d (World.env w))
       (World.set_env (applied_env commit d (World.env w)) w), Ok tt).
Proof.
  intros Hd Hs. unfold apply_cache, applied, applied_env.
  rewrite (run_ok _ _ _ _ _ (acquire_eq w s d Hd Hs)), run_get. simpl.
  destruct (MultiCache.apply _ _ _) as [c env] eqn:E. simpl. rewrite run_modify.
  set (w1 := World.set_env _ _).
  assert (Hd1 : World.data w1 s = Some d) by done.
  rewrite (run_ok _ _ _ _ _ (write_eq w1 s d _ Hd1)), release_eq. simpl.
  by rewrite unlock_again.
Qed.

Lemma safe_apply_cache w s commit :
  ok ∅ w → is_Some (World.data w s) → safe ∅ w (apply_cache s commit).
Proof.
  intros Hok [d Hd]. assert (Hl : s ∉ World.locked w) by (rewrite (ok_locked _ _ Hok); set_solver).
  unfold safe, runs. rewrite (apply_cache_eq w s d) by done.
  eapply write_env_stable; [done|done|by apply similar_public|].
  intros b. unfold surface_holds, applied, applied_env. simpl.
  pose proof (multi_apply_balance b commit (SurfaceData.cached_state (PrivateSurfaceData.public d))
    (World.env w)) as Hb. by destruct (MultiCache.apply _ _ _).
Qed.

Lemma alive_known held w s : ok held w → s ∈ World.alive w → is_Some (World.data w s).
Proof.
  intros [(linked&Ha&Hf) _ _ _ _] Hs. destruct (forest_known _ _ Hf s) as [p Hp]; [set_solver|].
  rewrite shape_data in Hp. destruct (World.data w s); [by eexists|done].
Qed.

Lemma safe_apply_transaction w tx : ok ∅ w → safe ∅ w (apply_transaction tx).
Proof.
  intros Hok. unfold apply_transaction.
  apply (safe_for_each ∅ (λ _ _, True)); [done|by apply Forall_forall|done|].
  intros [s c] w1 _ Hok1 _. unfold safe, runs. rewrite run_get.
  destruct (World.is_alive w1 s) eqn:Ea; [|by apply safe_ret].
  apply bool_decide_eq_true, (alive_known ∅) in Ea; [|done].
  eapply safe_bind; [by apply safe_apply_cache|]. intros _ w2 Hs2.
  pose proof (stable_known _ _ _ _ Hs2 Ea) as Hk2.
  eapply safe_bind; [apply safe_invoke; [apply Hs2|done]|]. intros _ w3 Hs3.
  apply surface_commit_applied_safe; [apply Hs3|]. by eapply stable_known.
Qed.

(** ** The queue of a client *)

Lemma set_client_states_ok held w states :
  (∀ a, is_Some (World.client_states w !! a) → is_Some (states !! a)) →
  ok held w → ok held (World.set_client_states states w).
Proof.
  intros Hmono [Hf [Ho Ha] [Hs He] Hsub Hl]. split; [done|by split| |done|done]. split; simpl.
  - intros s u Hu. by apply Hmono, (Hs s).
  - intros c e Hc. by apply Hmono, (He c).
Qed.

Lemma set_client_states_stable held w states :
  (∀ a, is_Some (World.client_states w !! a) → is_Some (states !! a)) →
  ok held w → stable held w (World.set_client_states states w).
Proof.
  intros Hmono Hok. split; [by apply set_client_states_ok| |by apply same_frugal].
  split; [|done|done]. intros s u Hs. exists u. by repeat split.
Qed.

Lemma safe_take_ready w cs prepare :
  ok ∅ w → is_Some (World.client_states w !! cs) → safe ∅ w (take_ready_of cs prepare).
Proof.
  intros Hok [state Hcs]. unfold safe, runs, take_ready_of. rewrite run_get.
  rewrite (run_expect _ _ _ _ Hcs). destruct (prepare _) as [q|]; [|by apply stable_refl].
  destruct (take_ready _ _ _ q) as [ready q']. rewrite run_modify. simpl.
  apply set_client_states_stable; [|done]. intros a Ha.
  destruct (decide (a = cs)) as [->|]; [by rewrite lookup_insert_eq|].
  by rewrite lookup_insert_ne.
Qed.

Lemma safe_release_ready w cs prepare :
  ok ∅ w → is_Some (World.client_states w !! cs) →
  safe ∅ w (ready ← take_ready_of cs prepare; for_each apply_transaction ready).
Proof.
  intros Hok Hcs. eapply safe_bind; [by apply safe_take_ready|]. intros ready w1 Hs1.
  apply (safe_for_each ∅ (λ _ _, True)); [apply Hs1|by apply Forall_forall|done|].
  intros tx w2 _ Hok2 _. by apply safe_apply_transaction.
Qed.

Lemma safe_blocker_cleared w client : ok ∅ w → safe ∅ w (compositor_blocker_cleared client).
Proof.
  intros Hok. unfold safe, runs, compositor_blocker_cleared. rewrite run_get.
  destruct (World.clients w !! client) as [e|] eqn:Ee; [|by apply stable_refl].
  apply safe_release_ready; [done|]. by apply (clients_entry _ (ok_clients _ _ Hok) client).
Qed.

(** ** The children of a committed surface *)

Definition mode_of (sync : bool) : Reach := if sync then Single else Flagged.

Lemma gathers_nothing full w target :
  cells_ok w → gathers full (λ _, False) target w w.
Proof. apply gathers_refl. Qed.

Lemma commit_child_gathers fuel s own sync held c w sb :
  ok held w → c ≠ s → owner (shape w) c = Some s → height c fuel (shape w) →
  (∀ x, below w c x → x ∉ held) → foreign w (reached (mode_of sync) w c) own →
  owned (World.heap w) own sb →
  ∃ w', commit_child fuel s own sync c w = (w', Ok tt) ∧
    gathers (negb sync) (reached (mode_of sync) w c) own w w'.
Proof.
  intros Hok Hcs Hc Hh Hfree Hfor Hsb. unfold commit_child. rewrite decide_False by done.
  assert (Hd : ∃ d, World.data w c = Some d).
  { rewrite owner_data in Hc. destruct (World.data w c) as [d|]; [by exists d|done]. }
  destruct Hd as [d Hd].
  assert (Hl : c ∉ World.locked w) by (rewrite (ok_locked _ _ Hok); apply Hfree, rtc_refl).
  rewrite (run_ok _ _ _ _ _ (acquire_eq w c d Hd Hl)).
  assert (Hflag : sync_flag d = flagged w c) by (unfold flagged; by rewrite Hd).
  assert (Hback : release c (World.set_locked ({[c]} ∪ World.locked w) w) = (w, Ok tt)).
  { rewrite release_eq. simpl. rewrite unlock_again by done. by destruct w. }
  rewrite Hflag. destruct sync; simpl.
  - apply (take_child_gathers w c d own sb); [done|apply Hok|done|done|].
    by apply (Hfor c d Hd).
  - destruct (flagged w c) eqn:Ef; simpl.
    + rewrite (run_ok _ _ _ _ _ Hback).
      destruct (commit_sync_tree_gathers fuel c own held w sb) as (w'&Hw'&G); [done|by eexists|done| |done|done|].
      { intros x dx Hdx Hx. by apply (Hfor x dx Hdx). }
      exists w'. split; [done|]. eapply gathers_ext; [|exact G].
      intros x. cbn. rewrite Ef. tauto.
    + rewrite Hback. exists w. split; [done|].
      eapply gathers_ext; [|apply gathers_refl, Hok].
      intros x. cbn. rewrite Ef. split; [done|]. by intros [? _].
Qed.

(** The surfaces that a commit of [s] reaches, besides [s]. *)
Definition gathered_children (sync : bool) w (s : Z) (d : PrivateSurfaceData.t) : Z → Prop :=
  reached_children (mode_of sync) w s (PrivateSurfaceData.children d).

Lemma commit_children_gathers w s d sync st :
  ok ∅ w → World.data w s = Some d →
  owned (World.heap w) (PrivateSurfaceData.pending_transaction d) st →
  let w0 := World.set_locked {[s]} w in
  ∃ w1, for_each (commit_child (tree_fuel w) s (PrivateSurfaceData.pending_transaction d) sync)
          (PrivateSurfaceData.children d) w0 = (w1, Ok tt) ∧
    gathers (negb sync) (gathered_children sync w s d)
      (PrivateSurfaceData.pending_transaction d) w0 w1 ∧
    ok {[s]} w1 ∧ World.data w1 s = Some d ∧ ¬ gathered_children sync w s d s.
Proof.
  intros Hok Hd Hst w0. assert (Hok0 : ok {[s]} w0) by (by apply (set_locked_ok ∅)).
  destruct (ok_forest _ _ Hok) as (linked&_&Hf).
  assert (Hshape : shape w !! s = Some (PrivateSurfaceData.parent d, PrivateSurfaceData.children d))
    by (by rewrite shape_data, Hd).
  assert (Hch : ∀ c, c ∈ PrivateSurfaceData.children d → c ≠ s → owner (shape w0) c = Some s).
  { intros c Hc Hn. by apply (forest_child _ _ Hf _ _ _ _ Hshape). }
  assert (Hno : ∀ x, below_children w0 s (PrivateSurfaceData.children d) x → x ≠ s).
  { intros x (c&Hc&Hn&Hx) ->. by apply (below_irrefl _ w0 s c Hok0 (Hch c Hc Hn)). }
  destruct (children_gathers (negb sync) (mode_of sync) s
    (PrivateSurfaceData.pending_transaction d) {[s]}
    (commit_child (tree_fuel w) s (PrivateSurfaceData.pending_transaction d) sync)
    (λ m, ∀ c, height c (tree_fuel w) m)) with (l := PrivateSurfaceData.children d) (w := w0)
    (sb := st) as (w1&Hw1&G); [| |done| |done| | | |done|].
  - intros w1. unfold commit_child. by rewrite decide_True.
  - intros c w1 sb. intros. by eapply commit_child_gathers; eauto.
  - by eapply (forest_nodup _ _ Hf).
  - intros c k x Hk. unfold tree_fuel. apply (nsteps_bound ∅ w) in Hk; [lia|done].
  - intros x Hx%Hno. set_solver.
  - intros x dx Hdx Hx%reached_children_below%Hno E. apply Hx.
    by apply (cells_apart _ (ok_cells _ _ Hok) x s dx d).
  - exists w1. split; [done|]. split; [done|].
    assert (Hdec : ∀ x, Decision (gathered_children sync w s d x))
      by (intros x; by eapply reached_children_dec).
    assert (Hns : ¬ gathered_children sync w s d s).
    { intros Hx%reached_children_below%Hno. done. }
    split; [by apply (gathers_ok _ _ _ _ _ _ Hdec Hok0 G)|]. split; [|done].
    by rewrite (gathers_data_outside _ _ _ _ _ _ G).
Qed.

(** ** The surface itself *)

(** The surface after an immediate commit. *)
Definition flushed d env : PrivateSurfaceData.t :=
  PrivateSurfaceData.set_public (SurfaceData.set_cached_state
    (MultiCache.commit None (SurfaceData.cached_state (PrivateSurfaceData.public d)) env).1
    (PrivateSurfaceData.public d)) d.

Definition flushed_env d env : Env.t :=
  (MultiCache.commit None (SurfaceData.cached_state (PrivateSurfaceData.public d)) env).2.

Lemma flush_eq w s d :
  World.data w s = Some d →
  commit_cache s None w =
    (World.write s (flushed d (World.env w)) (World.set_env (flushed_env d (World.env w)) w), Ok tt).
Proof.
  intros Hd. unfold commit_cache. rewrite (run_ok _ _ _ _ _ (guarded_eq w s d Hd)), run_get.
  unfold flushed, flushed_env. destruct (MultiCache.commit _ _ _) as [c env] eqn:E. simpl.
  rewrite run_modify. by rewrite (write_eq (World.set_env env w) s d).
Qed.

Lemma flushed_balance d env b :
  (surface_holds b (flushed d env) + Env.released b (flushed_env d env)
    <= surface_holds b d + Env.released b env)%nat.
Proof.
  unfold surface_holds, flushed, flushed_env. simpl.
  pose proof (multi_commit_balance b None
    (SurfaceData.cached_state (PrivateSurfaceData.public d)) env) as Hb.
  by destruct (MultiCache.commit _ _ _).
Qed.

(** The world after the pending state was queued, the commit entered the
    transaction, and the id advanced. *)
Definition entered d : PrivateSurfaceData.t :=
  PrivateSurfaceData.set_current_commit (U64.wrapping_succ (PrivateSurfaceData.current_commit d)) d.

Definition kept_world w s d st : World.t R :=
  World.write s (entered (queued d (World.env w)))
    (World.set_heap (<[PrivateSurfaceData.pending_transaction d :=
       {| strong := 1; inner := Data (ts_insert s (PrivateSurfaceData.current_commit d) st) |}]>
       (World.heap w))
    (World.set_env (queued_env d (World.env w)) w)).

Lemma keep_eq {A} w s d st (k : Run (World.t R) TreeError.t A) :
  World.data w s = Some d → owned (World.heap w) (PrivateSurfaceData.pending_transaction d) st →
  (commit_cache s (Some (PrivateSurfaceData.current_commit d));;
   insert_commit s;; advance_commit s;; k) w = k (kept_world w s d st).
Proof.
  intros Hd Hst. rewrite (run_ok _ _ _ _ _ (commit_cache_eq w s d Hd)).
  set (d1 := queued d (World.env w)). set (w1 := World.write s d1 _).
  assert (Hd1 : World.data w1 s = Some d1) by (by apply (data_write_same (World.set_env _ w) _ d)).
  rewrite (run_ok _ _ _ _ _ (insert_commit_eq w1 s d1 st Hd1 Hst)).
  set (w2 := World.set_heap _ w1). assert (Hd2 : World.data w2 s = Some d1) by done.
  unfold advance_commit. rewrite (run_ok _ _ _ _ _ (write_eq w2 s d1 _ Hd2)).
  f_equal. unfold w2. rewrite write_set_heap. unfold w1. rewrite write_twice.
  unfold kept_world. by rewrite write_set_heap.
Qed.

Lemma set_heap_stable held w h :
  ok held w → (∀ a st, owned (World.heap w) a st → ∃ st', owned h a st') →
  stable held w (World.set_heap h w).
Proof.
  intros Hok Hh. split; [|by apply same_surfaces_extends|by apply same_frugal].
  destruct Hok as [Hf [Ho Ha] [Hs He] Hsub Hl]. split; [done| |by split|done|done].
  split; [|done]. intros s d Hd. destruct (Ho s d Hd) as [st Hst]. by apply (Hh _ st).
Qed.

Lemma kept_stable held w s d st :
  ok held w → World.data w s = Some d →
  owned (World.heap w) (PrivateSurfaceData.pending_transaction d) st →
  stable held w (kept_world w s d st).
Proof.
  intros Hok Hd Hst. unfold kept_world. rewrite write_set_heap.
  assert (Hw : stable held w (World.write s (entered (queued d (World.env w)))
    (World.set_env (queued_env d (World.env w)) w))).
  { apply (write_env_stable _ _ _ d); [done|done|by repeat split|].
    intros b. apply queued_balance. }
  eapply stable_trans; [exact Hw|]. apply set_heap_stable; [apply Hw|].
  intros a sa Ha. destruct (decide (a = PrivateSurfaceData.pending_transaction d)) as [->|Hne].
  - eexists. unfold owned. by rewrite lookup_insert_eq.
  - exists sa. unfold owned. by rewrite lookup_insert_ne.
Qed.

Lemma kept_data w s d st :
  World.data w s = Some d →
  World.data (kept_world w s d st) s = Some (entered (queued d (World.env w))).
Proof. intros Hd. by apply (data_write_same (World.set_heap _ (World.set_env _ w)) _ d). Qed.

Lemma kept_other w s d st x :
  x ≠ s → World.data (kept_world w s d st) x = World.data w x.
Proof. intros Hx. by apply (data_write_other (World.set_heap _ (World.set_env _ w))). Qed.

Lemma kept_cell w s d st :
  owned (World.heap (kept_world w s d st)) (PrivateSurfaceData.pending_transaction d)
    (ts_insert s (PrivateSurfaceData.current_commit d) st).
Proof. unfold owned, kept_world. simpl. by rewrite lookup_insert_eq. Qed.

(** The transaction leaves its cell. *)
Lemma take_finalize_eq {A} w s d st held (k : Transaction Barrier.t → Run (World.t R) TreeError.t A) :
  ok held w → World.data w s = Some d →
  owned (World.heap w) (PrivateSurfaceData.pending_transaction d) st →
  ∃ w', (taken ← take_transaction s; transaction ← finalize_transaction taken; k transaction) w =
      k {| tx_surfaces := ts_surfaces st; tx_blockers := ts_blockers st |} w' ∧
    stable held w w' ∧
    ∃ f, World.data w' s = Some (PrivateSurfaceData.set_pending_transaction f d) ∧
    (∀ x, x ≠ s → World.data w' x = World.data w x) ∧
    World.client_states w' = World.client_states w ∧ World.alive w' = World.alive w ∧
    World.env w' = World.env w ∧ World.clients w' = World.clients w ∧ World.rest w' = World.rest w.
Proof.
  intros Hok Hd Hst. destruct (take_transaction_eq w s d Hd) as (f&h&Hf&Hof&Hx&Ht).
  rewrite (run_ok _ _ _ _ _ Ht). set (w1 := World.write s _ _).
  assert (Hfd : f ≠ PrivateSurfaceData.pending_transaction d)
    by (intros ->; unfold owned in Hst; congruence).
  assert (Hst1 : owned (World.heap w1) (PrivateSurfaceData.pending_transaction d) st).
  { unfold owned. simpl. by rewrite Hx. }
  unfold finalize_transaction.
  rewrite (run_ok _ _ _ _ _ (on_heap_eq w1 _ _ _ (finalize_owned _ _ _ Hst1))).
  set (w2 := World.set_heap _ w1). exists w2. split; [done|].
  assert (Hd2 : World.data w2 s = Some (PrivateSurfaceData.set_pending_transaction f d)).
  { by apply (data_write_same (World.set_heap h w) _ d). }
  assert (Hother : ∀ x, x ≠ s → World.data w2 x = World.data w x).
  { intros x Hxs. by apply (data_write_other (World.set_heap h w)). }
  split; [|by exists f].
  destruct Hok as [(linked&Ha&Hfo) Hcells Hcl Hsub Hl]. split; [split| |].
  - exists linked. split; [done|].
    assert (shape w2 = shape w) as ->; [|done].
    by apply (shape_same (World.set_heap h w) s d).
  - eapply (cells_replace w w2 s d _ f); try done.
    + unfold owned, w2. simpl. by rewrite lookup_delete_ne.
    + intros a sa Hsa Had. exists sa. unfold owned, w2 in *. simpl.
      rewrite lookup_delete_ne by done. rewrite Hx; [done|]. intros ->. congruence.
  - destruct (clients_write (World.set_heap h w) s
      (PrivateSurfaceData.set_pending_transaction f d)) as [C1 C2]; [by destruct Hcl|by split].
  - by apply (subsurfaces_write (World.set_heap h w) s d
      (PrivateSurfaceData.set_pending_transaction f d)).
  - done.
  - eapply extends_trans; [by apply (same_surfaces_extends w (World.set_heap h w))|].
    eapply extends_trans; [by apply (write_extends _ s d (PrivateSurfaceData.set_pending_transaction f d))|].
    by apply same_surfaces_extends.
  - intros b. pose proof (surfaces_hold_write b (World.set_heap h w) s d
      (PrivateSurfaceData.set_pending_transaction f d) Hd) as Hw.
    unfold ledger, surface_holds in *. simpl in *. lia.
Qed.

(** ** The whole commit *)

(** A safe call after a stable one. *)
Lemma stable_after {A} held held' w w1 (m : Run (World.t R) TreeError.t A) :
  stable held' w w1 → safe held w1 m → runs m w1 (λ _ w', stable held w w') (λ _ _, False).
Proof.
  intros Hs Hm. eapply runs_mono; [exact Hm| |done]. intros a w' Hs'. by eapply stable_trans.
Qed.

Lemma unlock_stable w w' s :
  stable {[s]} w w' → stable ∅ w (World.set_locked (World.locked w' ∖ {[s]}) w').
Proof.
  intros [Ho [E1 E2 E3] F]. split; [|by split|done].
  rewrite (ok_locked _ _ Ho), difference_diag_L. by eapply set_locked_ok.
Qed.

Lemma gathers_stable_unlocked full S target w s w1 :
  (∀ x, Decision (S x)) → ok ∅ w → gathers full S target (World.set_locked {[s]} w) w1 →
  stable {[s]} w w1.
Proof.
  intros HS Hok G. eapply stable_trans; [|eapply gathers_ok; [done|by eapply set_locked_ok|exact G]].
  split; [by eapply set_locked_ok|by apply same_surfaces_extends|by apply frugal_set_locked].
Qed.

Lemma commit_split w s u :
  ok ∅ w → World.surfaces w !! s = Some u →
  let d := SurfaceUserData.inner u in
  let sync := synchronized DEPTH w s in
  ∃ w1 st1, commit s w = commit_locked s (SurfaceUserData.client_state u) sync w1 ∧
    gathers (negb sync) (gathered_children sync w s d)
      (PrivateSurfaceData.pending_transaction d) (World.set_locked {[s]} w) w1 ∧
    stable {[s]} w w1 ∧ World.data w1 s = Some d ∧ ¬ gathered_children sync w s d s ∧
    owned (World.heap w1) (PrivateSurfaceData.pending_transaction d) st1.
Proof.
  intros Hok Hu d sync.
  assert (Hd : World.data w s = Some d) by (unfold World.data; by rewrite Hu).
  destruct (cells_owned _ (ok_cells _ _ Hok) s d Hd) as [st Hst].
  destruct (commit_children_gathers w s d sync st Hok Hd Hst) as (w1&Hw1&G&Hok1&Hd1&Hns).
  destruct (gathers_target _ _ _ _ _ G st Hst) as (st1&Hst1&_).
  exists w1, st1. split; [|split; [done|]; split; [|done]].
  - unfold commit, effectively_sync.
    rewrite (run_ok _ _ _ _ _ (effectively_sync_eq DEPTH w s Hok (ex_intro _ d Hd))).
    rewrite run_get, (run_expect _ _ _ _ Hu).
    assert (Hl : s ∉ World.locked w) by (rewrite (ok_locked _ _ Hok); set_solver).
    rewrite (run_ok _ _ _ _ _ (acquire_eq w s d Hd Hl)).
    rewrite (ok_locked _ _ Hok), union_empty_r_L. fold sync.
    by rewrite (run_ok _ _ _ _ _ Hw1).
  - eapply gathers_stable_unlocked; [|done|exact G].
    intros x. by eapply reached_children_dec.
Qed.

Definition nothing_pending (st : TransactionState Barrier.t) : bool :=
  bool_decide (ts_surfaces st = []) && match ts_blockers st with [] => true | _ => false end.

Lemma commit_locked_eq w s cs sync d st :
  World.data w s = Some d → owned (World.heap w) (PrivateSurfaceData.pending_transaction d) st →
  commit_locked s cs sync w =
    if negb sync && nothing_pending st then
      (commit_cache s None;; release s;; invoke_post_commit_hooks s;; surface_commit_applied s) w
    else if sync then release s (kept_world w s d st)
    else queue_transaction s cs (kept_world w s d st).
Proof.
  intros Hd Hst. unfold commit_locked. rewrite (run_ok _ _ _ _ _ (guarded_eq w s d Hd)).
  set (empty := λ heap : Heap Barrier.t, (λ b, (b, heap)) <$> _ : option (bool * _)).
  assert (He : empty (World.heap w) = Some (nothing_pending st, World.heap w)).
  { unfold empty. by rewrite (is_empty_data _ _ 1 st Hst). }
  rewrite (run_ok _ _ _ _ _ (on_heap_eq w empty _ _ He)).
  replace (World.set_heap (World.heap w) w) with w by (by destruct w).
  destruct (negb sync && nothing_pending st); [done|].
  rewrite (keep_eq w s d st) by done. by destruct sync.
Qed.

(** The immediate application. *)
Lemma safe_flush w s d :
  ok {[s]} w → World.data w s = Some d →
  runs (commit_cache s None;; release s;; invoke_post_commit_hooks s;; surface_commit_applied s) w
    (λ _ w', stable ∅ w w') (λ _ _, False).
Proof.
  intros Hok Hd. unfold runs. rewrite (run_ok _ _ _ _ _ (flush_eq w s d Hd)).
  set (w1 := World.write s _ _). rewrite (run_ok _ _ _ _ _ (release_eq w1 s)).
  assert (Hs1 : stable {[s]} w w1).
  { apply (write_env_stable _ _ _ d); [done|done|by apply similar_public|].
    intros b. apply flushed_balance. }
  apply unlock_stable in Hs1. set (w2 := World.set_locked _ w1) in *.
  assert (Hk : is_Some (World.data w2 s)) by (eapply (stable_known _ w); [done|by eexists]).
  assert (Hs2 : safe ∅ w2 (invoke_post_commit_hooks s;; surface_commit_applied s)).
  { eapply safe_bind; [apply safe_invoke; [apply Hs1|done]|]. intros _ w3 Hs3.
    apply surface_commit_applied_safe; [apply Hs3|]. by eapply stable_known. }
  exact (stable_after _ _ _ _ _ Hs1 Hs2).
Qed.

Lemma safe_queue w s d cs :
  ok {[s]} w → World.data w s = Some d → is_Some (World.client_states w !! cs) →
  runs (queue_transaction s cs) w (λ _ w', stable ∅ w w') (λ _ _, False).
Proof.
  intros Hok Hd Hcs. destruct (cells_owned _ (ok_cells _ _ Hok) s d Hd) as [st Hst].
  unfold runs, queue_transaction.
  destruct (take_finalize_eq w s d st {[s]} (λ transaction,
    release s;;
    ready ← take_ready_of cs (λ queue, Some (queue_push transaction (default queue_default queue)));
    for_each apply_transaction ready) Hok Hd Hst) as (w1&->&Hs1&_).
  rewrite (run_ok _ _ _ _ _ (release_eq w1 s)). apply unlock_stable in Hs1.
  set (w2 := World.set_locked _ w1) in *.
  set (prepare := λ queue, Some _).
  assert (Hs2 : safe ∅ w2 (ready ← take_ready_of cs prepare; for_each apply_transaction ready)).
  { apply safe_release_ready; [apply Hs1|]. by apply (extends_clients _ _ (stable_extends _ _ _ Hs1)). }
  exact (stable_after _ _ _ _ _ Hs1 Hs2).
Qed.

Lemma safe_commit w s : ok ∅ w → is_Some (World.data w s) → safe ∅ w (commit s).
Proof.
  intros Hok [d0 Hd0]. destruct (data_surfaces _ _ _ Hd0) as (u&Hu&_).
  destruct (commit_split w s u Hok Hu) as (w1&st1&Hc&_&Hs1&Hd1&_&Hst1).
  set (d := SurfaceUserData.inner u) in *. set (sync := synchronized DEPTH w s) in *.
  unfold safe, runs. rewrite Hc, (commit_locked_eq w1 s _ sync d st1 Hd1 Hst1).
  assert (Hcs : is_Some (World.client_states w1 !! SurfaceUserData.client_state u)).
  { apply (extends_clients _ _ (stable_extends _ _ _ Hs1)).
    by apply (clients_surface _ (ok_clients _ _ Hok) s). }
  pose proof (kept_stable {[s]} w1 s d st1 (stable_ok _ _ _ Hs1) Hd1 Hst1) as Hs2.
  destruct (negb sync && nothing_pending st1) eqn:Eb; [|destruct sync].
  - eapply (runs_mono _ w1); [exact (safe_flush w1 s d (stable_ok _ _ _ Hs1) Hd1)| |done].
    intros a w' Hs'. by eapply stable_trans.
  - rewrite release_eq. apply unlock_stable. by eapply stable_trans.
  - eapply (runs_mono _ (kept_world w1 s d st1));
      [exact (safe_queue _ s _ _ (stable_ok _ _ _ Hs2) (kept_data w1 s d st1 Hd1) Hcs)| |done].
    intros a w' Hs'. eapply stable_trans; [exact Hs1|]. by eapply stable_trans.
Qed.

End apply.
