(* ===== verification/SurfaceTreeRequests.v ===== *)
(** * Requests of the surface tree

    The stacking order first: facts about [reorder_children]: where a subsurface goes when it is placed
    above or below another one, and when the insertion is out of bounds; and the
    traversal of a surface tree from bottom to top and from top to bottom. Then
    one lemma per request: it keeps the invariant of the store. *)

From Stdlib Require Import Floats.SpecFloat Strings.String.
From S2P Require Import Prelude Forest Geometry Surface Cached CachedSpec Transaction TransactionSpec SurfaceTree SurfaceTreeInv SurfaceTreeOps SurfaceTreeCommit SurfaceTreeApply.

Section order.

Implicit Types (s r : Z) (l : list Z).

Lemma position_app s l l' :
  s ∉ l → position s (l ++ s :: l') = Some (length l).
Proof.
  induction l as [|c l IH]; intros Hs; simpl; [by rewrite Z.eqb_refl|].
  apply not_elem_of_cons in Hs as [? Hs]. rewrite (proj2 (Z.eqb_neq c s)) by done.
  by rewrite IH.
Qed.

Lemma split_unique s a b a' b' :
  s ∉ a → s ∉ a' → a ++ s :: b = a' ++ s :: b' → a = a' ∧ b = b'.
Proof.
  intros Ha Ha' Heq. assert (Hl : length a = length a').
  { apply (inj Some). by rewrite <- (position_app s a b), Heq, position_app. }
  apply app_inj_1 in Heq as [? [= ?]]; done.
Qed.

Lemma position_None s l : position s l = None ↔ s ∉ l.
Proof.
  induction l as [|c l IH]; simpl; [split; [intros _; apply not_elem_of_nil|done]|].
  rewrite not_elem_of_cons. destruct (Z.eqb_spec c s) as [->|Hn]; [naive_solver|].
  rewrite fmap_None, IH. naive_solver.
Qed.

Lemma vec_insert_at v l l' : vec_insert (length l) v (l ++ l') = Some (l ++ v :: l').
Proof.
  unfold vec_insert. rewrite decide_True by (rewrite length_app; lia).
  by rewrite take_app_length, drop_app_length.
Qed.

Lemma delete_at s l l' : delete (length l) (l ++ s :: l') = l ++ l'.
Proof. induction l as [|c l IH]; simpl; [done|]. by rewrite IH. Qed.

Lemma without_split s l l' :
  s ∉ l → s ∉ l' → filter (λ c, c ≠ s) (l ++ s :: l') = l ++ l'.
Proof.
  intros Hl Hl'. rewrite filter_app, filter_cons_False by tauto.
  rewrite !filter_all; [done|apply Forall_forall; congruence..].
Qed.

(** The new order of [s] next to [r], where [rest] are the others. *)
Definition placed (location : Location.t) s r (rest l' : list Z) : Prop :=
  ∃ a b, rest = a ++ r :: b ∧
    l' = match location with
         | Location.Before => a ++ s :: r :: b
         | Location.After => a ++ r :: s :: b
         end.

Lemma insert_placed location s r a b :
  vec_insert (match location with Location.Before => length a | Location.After => S (length a) end)
    s (a ++ r :: b) =
  Some (match location with
        | Location.Before => a ++ s :: r :: b
        | Location.After => a ++ r :: s :: b
        end).
Proof.
  destruct location; [apply vec_insert_at|].
  replace (S (length a)) with (length (a ++ [r])) by (rewrite length_app; simpl; lia).
  replace (a ++ r :: b) with ((a ++ [r]) ++ b) by (by rewrite <- app_assoc).
  rewrite vec_insert_at. by rewrite <- app_assoc.
Qed.

(** Placing a subsurface next to another surface of the list. *)
Lemma reorder_other location s r l :
  NoDup l → s ∈ l → r ∈ l → s ≠ r →
  ∃ l', reorder_children s location r l = Moved l' ∧
    placed location s r (filter (λ c, c ≠ s) l) l'.
Proof.
  intros Hnd Hs Hr Hne. apply list_elem_of_split in Hs as (l1&l2&->).
  apply NoDup_app in Hnd as (Hnd1&Hcross&Hnd2). apply NoDup_cons in Hnd2 as [Hs2 Hnd2].
  assert (Hs1 : s ∉ l1) by (intros Hin; apply (Hcross s Hin); by left).
  unfold reorder_children. rewrite position_app by done. rewrite without_split by done.
  apply elem_of_app in Hr as [Hr|[?|Hr]%elem_of_cons]; [|done|].
  - apply list_elem_of_split in Hr as (a&b&->).
    apply NoDup_app in Hnd1 as (_&Ha&_).
    assert (r ∉ a) by (intros Hin; apply (Ha r Hin); by left).
    rewrite <- app_assoc. simpl. rewrite position_app by done.
    rewrite decide_False by (rewrite length_app; simpl; lia).
    replace (a ++ r :: b ++ s :: l2) with ((a ++ r :: b) ++ s :: l2) by (by rewrite <- app_assoc).
    rewrite delete_at, <- app_assoc. simpl. rewrite insert_placed.
    eexists. split; [done|]. by exists a, (b ++ l2).
  - apply list_elem_of_split in Hr as (a&b&->).
    assert (r ∉ l1) by (intros Hin; apply (Hcross r Hin); right; apply elem_of_app; right; by left).
    apply NoDup_app in Hnd2 as (_&Ha&_).
    assert (r ∉ a) by (intros Hin; apply (Ha r Hin); by left).
    assert (position r (l1 ++ s :: a ++ r :: b) = Some (length (l1 ++ s :: a))) as ->.
    { rewrite <- (position_app r (l1 ++ s :: a) b).
      - by rewrite <- app_assoc.
      - rewrite not_elem_of_app, not_elem_of_cons. naive_solver. }
    rewrite decide_True by (rewrite length_app; simpl; lia).
    rewrite delete_at. replace (pred (length (l1 ++ s :: a))) with (length (l1 ++ a))
      by (rewrite !length_app; simpl; lia).
    replace (l1 ++ a ++ r :: b) with ((l1 ++ a) ++ r :: b) by (by rewrite <- app_assoc).
    rewrite insert_placed. eexists. split; [done|]. by exists (l1 ++ a), b.
Qed.

(** Placing a subsurface next to itself. *)
Lemma reorder_self location s l1 l2 :
  s ∉ l1 →
  reorder_children s location s (l1 ++ s :: l2) =
    match location, l2 with
    | Location.Before, _ => Moved (l1 ++ s :: l2)
    | Location.After, [] => OutOfBounds
    | Location.After, n :: l2 => Moved (l1 ++ n :: s :: l2)
    end.
Proof.
  intros Hs. unfold reorder_children. rewrite position_app by done.
  rewrite decide_False by lia. rewrite delete_at. destruct location.
  - by rewrite vec_insert_at.
  - destruct l2 as [|n l2].
    + unfold vec_insert. rewrite decide_False; [done|]. rewrite app_nil_r. lia.
    + replace (l1 ++ n :: l2) with ((l1 ++ [n]) ++ l2) by (by rewrite <- app_assoc).
      replace (S (length l1)) with (length (l1 ++ [n])) by (rewrite length_app; simpl; lia).
      rewrite vec_insert_at. by rewrite <- app_assoc.
Qed.

Lemma reorder_missing location s r l :
  s ∉ l ∨ r ∉ l → reorder_children s location r l = NotFound.
Proof.
  unfold reorder_children. intros [Hs|Hr].
  - by rewrite (proj2 (position_None s l)).
  - rewrite (proj2 (position_None r l)) by done. by destruct (position s l).
Qed.

Lemma moved_perm location s r l l' :
  NoDup l → reorder_children s location r l = Moved l' → l' ≡ₚ l.
Proof.
  intros Hnd Hm. destruct (decide (s ∈ l)) as [Hs|Hs];
    [|by rewrite reorder_missing in Hm by (by left)].
  destruct (decide (r ∈ l)) as [Hr|Hr]; [|by rewrite reorder_missing in Hm by (by right)].
  apply list_elem_of_split in Hs as (l1&l2&->).
  apply NoDup_app in Hnd as Hn. destruct Hn as (_&Hcross&Hnd2). apply NoDup_cons in Hnd2 as [Hs2 _].
  assert (Hs1 : s ∉ l1) by (intros Hin; apply (Hcross s Hin); by left).
  destruct (decide (s = r)) as [<-|Hne].
  - rewrite reorder_self in Hm by done. destruct location, l2 as [|n l2]; simplify_eq; [done..|].
    by rewrite (Permutation_swap s n).
  - destruct (reorder_other location s r (l1 ++ s :: l2)) as (k&Hk&(a&b&Hab&Hk')); [done|..|done|].
    + apply elem_of_app. right. by left.
    + done.
    + rewrite Hk in Hm. simplify_eq. rewrite without_split in Hab by done.
      transitivity (s :: a ++ r :: b); [|rewrite <- Hab; apply Permutation_middle].
      destruct location; [symmetry; apply Permutation_middle|].
      replace (a ++ r :: s :: b) with ((a ++ [r]) ++ s :: b) by (by rewrite <- app_assoc).
      symmetry. etransitivity; [|apply Permutation_middle]. by rewrite <- app_assoc.
Qed.

End order.

(** ** One lemma per request *)

Section requests.

Context {R : Type} `{Objects} `{!Handlers R} `{!Holder R} `{!HandlersOk R}.

Implicit Types (w : World.t R) (d : PrivateSurfaceData.t).

Lemma ok_unlocked w s : ok ∅ w → s ∉ World.locked w.
Proof. intros Hok. rewrite (ok_locked _ _ Hok). set_solver. Qed.

Lemma safe_eq {A} w w' (m : Run (World.t R) TreeError.t A) a :
  m w = (w', Ok a) → stable ∅ w w' → safe ∅ w m.
Proof. intros Hm Hs. unfold safe, runs. by rewrite Hm. Qed.

Lemma safe_get {A} w (k : World.t R → Run (World.t R) TreeError.t A) :
  safe ∅ w (k w) → safe ∅ w (get_state ≫= k).
Proof. done. Qed.

(** ** Simple calls *)

Lemma safe_post_event w event : ok ∅ w → safe ∅ w (post_event event).
Proof. intros Hok. by apply set_events_stable. Qed.

Lemma safe_signal w barrier : ok ∅ w → safe ∅ w (signal_barrier barrier).
Proof.
  intros Hok. unfold safe, runs, signal_barrier, modify.
  split; [by apply set_env_ok|by apply same_surfaces_extends|].
  intros b. unfold ledger, Barrier.signal. simpl. rewrite released_signal. lia.
Qed.

Lemma safe_set_regions w regions : ok ∅ w → stable ∅ w (World.set_regions regions w).
Proof. split; [by apply set_regions_ok|by apply same_surfaces_extends|by apply same_frugal]. Qed.

Lemma safe_writing w s f :
  ok ∅ w → is_Some (World.data w s) →
  (∀ d, similar d (f d) ∧ ∀ b, (surface_holds b (f d) <= surface_holds b d)%nat) →
  safe ∅ w (writing s f).
Proof.
  intros Hok [d Hd] Hf. destruct (Hf d). eapply safe_with_lock; [done|done|set_solver|done|done].
Qed.

Lemma safe_new_hook {A} w callback (k : Hook.t → Run (World.t R) TreeError.t A) :
  ok ∅ w → (∀ h w', stable ∅ w w' → safe ∅ w' (k h)) → safe ∅ w (new_hook callback ≫= k).
Proof.
  intros Hok Hk. eapply safe_bind; [|exact Hk].
  split; [by apply set_next_hook_id_ok|by apply same_surfaces_extends|by apply same_frugal].
Qed.

(** Adding or removing hooks. *)
Lemma safe_hooks w s (f : PrivateSurfaceData.t → list Hook.t * list Hook.t * list Hook.t) :
  ok ∅ w → is_Some (World.data w s) →
  safe ∅ w (writing s (λ d, PrivateSurfaceData.set_hooks (f d).1.1 (f d).1.2 (f d).2 d)).
Proof. intros Hok Hs. by apply safe_writing. Qed.

Lemma safe_add_pre_commit_hook w s callback :
  ok ∅ w → is_Some (World.data w s) → safe ∅ w (add_pre_commit_hook s callback).
Proof.
  intros Hok Hs. apply safe_new_hook; [done|]. intros h w' Hs'.
  pose proof (stable_known _ _ _ _ Hs' Hs) as Hk.
  eapply safe_bind; [by apply safe_writing; [apply Hs'|..]|]. intros _ w2 Hs2.
  apply safe_ret, Hs2.
Qed.

Lemma safe_add_post_commit_hook w s callback :
  ok ∅ w → is_Some (World.data w s) → safe ∅ w (add_post_commit_hook s callback).
Proof.
  intros Hok Hs. apply safe_new_hook; [done|]. intros h w' Hs'.
  pose proof (stable_known _ _ _ _ Hs' Hs) as Hk.
  eapply safe_bind; [by apply safe_writing; [apply Hs'|..]|]. intros _ w2 Hs2.
  apply safe_ret, Hs2.
Qed.

Lemma safe_add_destruction_hook w s callback :
  ok ∅ w → is_Some (World.data w s) → safe ∅ w (add_destruction_hook s callback).
Proof.
  intros Hok Hs. apply safe_new_hook; [done|]. intros h w' Hs'.
  pose proof (stable_known _ _ _ _ Hs' Hs) as Hk.
  eapply safe_bind; [by apply safe_writing; [apply Hs'|..]|]. intros _ w2 Hs2.
  apply safe_ret, Hs2.
Qed.

Lemma safe_add_blocker w s blocker :
  ok ∅ w → is_Some (World.data w s) → safe ∅ w (add_surface_blocker s blocker).
Proof.
  intros Hok [d Hd]. pose proof (ok_unlocked w s Hok) as Hl.
  destruct (cells_owned _ (ok_cells _ _ Hok) s d Hd) as [st Hst].
  unfold safe, runs, add_surface_blocker. rewrite (run_ok _ _ _ _ _ (acquire_eq w s d Hd Hl)).
  set (w1 := World.set_locked _ w).
  assert (Hb : add_blocker (PrivateSurfaceData.pending_transaction d) blocker (World.heap w1) =
    Some (<[PrivateSurfaceData.pending_transaction d :=
      {| strong := 1; inner := Data (ts_push_blocker blocker st) |}]> (World.heap w)))
    by (by apply (update_state_data _ _ 1)).
  rewrite (run_ok _ _ _ _ _ (heap_update_eq w1 _ _ Hb)), release_eq.
  set (h := <[_ := _]> _). simpl. rewrite unlock_again by done.
  change (stable ∅ w (World.set_heap h (World.set_locked (World.locked w) w))).
  rewrite set_locked_id. apply set_heap_stable; [done|].
  intros a sa Ha. unfold h, owned in *.
  destruct (decide (a = PrivateSurfaceData.pending_transaction d)) as [->|].
  - eexists. by rewrite lookup_insert_eq.
  - exists sa. by rewrite lookup_insert_ne.
Qed.

(** A method that may fail, without an effect then. *)
Lemma safe_attempt {A} w (m : Run (World.t R) TreeError.t A) :
  runs m w (λ _ w', stable ∅ w w') (λ _ w', stable ∅ w w') → safe ∅ w (attempt m).
Proof.
  unfold safe, runs, attempt. by destruct (m w) as [w' [a|e|]].
Qed.

Lemma safe_set_role w s role :
  ok ∅ w → is_Some (World.data w s) → safe ∅ w (attempt (set_role s role)).
Proof.
  intros Hok [d Hd]. apply safe_attempt. unfold runs, set_role.
  rewrite (run_ok _ _ _ _ _ (with_lock_eq w s d _ Hd (ok_unlocked w s Hok))).
  destruct (SurfaceData.role (PrivateSurfaceData.public d)) as [known|]; simpl.
  - destruct (String.eqb known role); simpl;
      (eapply write_stable; [done|done|apply similar_refl|done]).
  - eapply write_stable; [done|done|by apply similar_public|done].
Qed.

Lemma safe_store_sync w s sync :
  ok ∅ w → (∃ d, World.data w s = Some d ∧ has_sync d) → safe ∅ w (store_sync s sync).
Proof.
  intros Hok (d&Hd&[v Hv]). unfold safe, runs, store_sync, with_states.
  rewrite (run_ok _ _ _ _ _ (with_lock_eq w s d _ Hd (ok_unlocked w s Hok))).
  rewrite Hv. simpl. eapply write_stable; [done|done| |done]. apply similar_public.
  intros _. simpl. unfold SurfaceDataMap.get. rewrite AnyList.get_set_same; [by eexists|].
  by exists v.
Qed.

Lemma safe_send_surface_state w s scale transform :
  ok ∅ w → is_Some (World.data w s) → safe ∅ w (send_surface_state s scale transform).
Proof.
  intros Hok [d Hd]. unfold send_surface_state.
  destruct (version s <? 6); [by apply safe_ret|].
  eapply safe_bind.
  - unfold with_states. eapply safe_with_lock; [done|done|set_solver| |done]. simpl.
    apply similar_public. intros Hs. simpl. unfold SurfaceDataMap.get, SurfaceDataMap.get_or_insert.
    by rewrite AnyList.get_set_other, AnyList.get_insert_other.
  - intros known w1 Hs1. eapply safe_bind.
    + destruct (_ =? scale); [by apply safe_ret, Hs1|by apply safe_post_event, Hs1].
    + intros _ w2 Hs2. destruct (_ =? transform); [by apply safe_ret, Hs2|].
      by apply safe_post_event, Hs2.
Qed.

(** ** Requests on the pending state *)

(** The pending attributes may be written in any way but attaching a buffer. *)
Lemma safe_update_pending w s f :
  ok ∅ w → is_Some (World.data w s) →
  (∀ a, SurfaceAttributes.buffer (f a) = SurfaceAttributes.buffer a) →
  safe ∅ w (update_pending s f).
Proof.
  intros Hok [d Hd] Hf. eapply safe_update_cache; [done|done|set_solver|].
  intros b c. unfold cached_holds. simpl. rewrite Hf. lia.
Qed.

(** Attaching adds one attachment at most. *)
Lemma attach_update w s buffer delta :
  ok ∅ w → is_Some (World.data w s) →
  runs (update_pending s (λ a, set_buffer (Some buffer) (delta a) a)) w
    (λ _ w', ok ∅ w' ∧ extends w w' ∧ ∀ b,
      (ledger b w' <= ledger b w + assigned b (Some buffer))%nat) (λ _ _, False).
Proof.
  intros Hok [d Hd]. unfold runs, update_pending, update_cache, with_states.
  rewrite (with_lock_eq w s d _ Hd (ok_unlocked w s Hok)). simpl.
  set (f := λ cached, _). set (d' := PrivateSurfaceData.set_public _ d).
  assert (Hsim : similar d d') by (by apply similar_public).
  split; [by eapply write_ok|]. split; [by eapply write_extends; [|apply Hsim]|].
  intros b. pose proof (surfaces_hold_write b w s d d' Hd) as Hw.
  assert (surface_holds b d' <= surface_holds b d + assigned b (Some buffer))%nat.
  { unfold surface_holds, d'. simpl.
    pose proof (holds_update b CacheKind.Attributes f
      (SurfaceData.cached_state (PrivateSurfaceData.public d))) as Hu.
    set (c := MultiCache.get _ _) in *. unfold cached_holds in Hu. simpl in *. lia. }
  unfold ledger. simpl in *. lia.
Qed.

Lemma surface_scale_eq w s :
  ok ∅ w → is_Some (World.data w s) → ∃ scale, surface_scale s w = (w, Ok scale).
Proof.
  intros Hok [d Hd]. destruct (data_surfaces _ _ _ Hd) as (u&Hu&_).
  destruct (clients_surface _ (ok_clients _ _ Hok) s u Hu) as [cs Hcs].
  eexists. unfold surface_scale. rewrite run_get, (run_expect _ _ _ _ Hu).
  by rewrite (run_expect _ _ _ _ Hcs).
Qed.

(** The regions that a request names exist. *)
Definition known_regions w (request : SurfaceRequest) : Prop :=
  match request with
  | SetOpaqueRegion (Some r) | SetInputRegion (Some r) => is_Some (World.regions w !! r)
  | _ => True
  end.

Lemma optional_region_eq w region :
  (∀ r, region = Some r → is_Some (World.regions w !! r)) →
  ∃ v, optional_region region w = (w, Ok v).
Proof.
  intros Hr. destruct region as [r|]; [|by eexists]. destruct (Hr r eq_refl) as [v Hv].
  eexists. unfold optional_region, get_region_attributes.
  by rewrite (run_ok _ _ w w v) by (rewrite run_get; unfold expect; by rewrite Hv).
Qed.

Definition attach_offset (s x y : Z) : Run (World.t R) TreeError.t (option Point.t) :=
  let offset := if (x =? 0) && (y =? 0) then None else Some (x, y) in
  if version s <? 5 then
    scale ← surface_scale s;
    mret ((λ '(x, y), scale_point x y scale) <$> offset)
  else
    (match offset with
     | Some _ => post_event (WireEvent.PostError s WireEvent.InvalidOffset)
     | None => mret tt
     end);;
    mret None.

Lemma safe_attach_offset w s x y :
  ok ∅ w → is_Some (World.data w s) → safe ∅ w (attach_offset s x y).
Proof.
  intros Hok Hs. unfold attach_offset. destruct (version s <? 5).
  - destruct (surface_scale_eq w s Hok Hs) as [scale Hsc]. unfold safe, runs.
    rewrite (run_ok _ _ _ _ _ Hsc). by apply stable_refl.
  - eapply safe_bind; [|intros _ w' Hs'; apply safe_ret, Hs'].
    destruct ((x =? 0) && (y =? 0)); [by apply safe_ret|by apply safe_post_event].
Qed.

(** What a request adds to the ledger. *)
Definition attaches (request : SurfaceRequest) (b : Z) : nat :=
  match request with
  | Attach (Some buffer) _ _ => if buffer =? b then 1 else 0
  | _ => 0
  end.

Definition good w w' (attached : Z → nat) : Prop :=
  ok ∅ w' ∧ extends w w' ∧ ∀ b, (ledger b w' <= ledger b w + attached b)%nat.

Lemma stable_good w w' attached : stable ∅ w w' → good w w' attached.
Proof. intros [O E F]. split; [done|]. split; [done|]. intros b. specialize (F b). lia. Qed.

Lemma safe_good {A} w (m : Run (World.t R) TreeError.t A) attached :
  safe ∅ w m → runs m w (λ _ w', good w w' attached) (λ _ _, False).
Proof. intros Hm. eapply runs_mono; [exact Hm| |done]. intros a w'. apply stable_good. Qed.

Lemma attach_good w s buffer x y :
  ok ∅ w → is_Some (World.data w s) →
  runs (surface_request s (Attach buffer x y)) w
    (λ _ w', good w w' (attaches (Attach buffer x y))) (λ _ _, False).
Proof.
  intros Hok Hs. change (surface_request s (Attach buffer x y)) with
    (offset ← attach_offset s x y;
     update_pending s (λ a, set_buffer
        (Some (match buffer with
               | Some buffer => BufferAssignment.NewBuffer buffer
               | None => BufferAssignment.Removed
               end))
        (match offset with Some _ => offset | None => SurfaceAttributes.buffer_delta a end) a)).
  eapply runs_step; [by apply safe_attach_offset| |done]. intros offset w1 Hs1. simpl in Hs1.
  eapply runs_mono; [apply attach_update; [apply Hs1|by eapply stable_known]| |done].
  intros _ w2 (O2&E2&F2). split; [done|]. split; [eapply extends_trans; [apply Hs1|done]|].
  intros b. specialize (F2 b). pose proof (stable_frugal _ _ _ Hs1 b) as F1.
  destruct buffer as [b'|]; simpl in *; lia.
Qed.

Lemma safe_commit_request w s :
  ok ∅ w → is_Some (World.data w s) → safe ∅ w (surface_request s Commit).
Proof.
  intros Hok Hs. destruct (surface_scale_eq w s Hok Hs) as [scale Hsc].
  unfold safe, runs. cbn [surface_request]. rewrite (run_ok _ _ _ _ _ Hsc).
  apply (safe_bind ∅ w); [by apply safe_update_pending|]. intros _ w1 Hs1.
  pose proof (stable_known _ _ _ _ Hs1 Hs) as Hk1.
  eapply safe_bind; [apply safe_invoke; [apply Hs1|done]|]. intros _ w2 Hs2.
  apply safe_commit; [apply Hs2|]. by eapply stable_known.
Qed.

Lemma surface_request_good w s request :
  ok ∅ w → is_Some (World.data w s) → known_regions w request →
  runs (surface_request s request) w (λ _ w', good w w' (attaches request)) (λ _ _, False).
Proof.
  intros Hok Hs Hreg. destruct (surface_scale_eq w s Hok Hs) as [scale Hsc].
  destruct request as [b x y|x y wd h|cb|r|r| |[t|t]|sc|x y wd h|x y];
    [by apply attach_good|apply safe_good..]; cbn [surface_request].
  - unfold safe, runs. rewrite (run_ok _ _ _ _ _ Hsc).
    destruct (scale_rect x y wd h scale); [by apply safe_update_pending|by apply stable_refl].
  - by apply safe_update_pending.
  - destruct (optional_region_eq w r) as [v Hv].
    { intros r' ->. exact Hreg. }
    unfold safe, runs. rewrite (run_ok _ _ _ _ _ Hv). by apply safe_update_pending.
  - destruct (optional_region_eq w r) as [v Hv].
    { intros r' ->. exact Hreg. }
    unfold safe, runs. rewrite (run_ok _ _ _ _ _ Hv). by apply safe_update_pending.
  - by apply safe_commit_request.
  - by apply safe_update_pending.
  - by apply safe_post_event.
  - destruct (sc <? 1); [by apply safe_post_event|by apply safe_update_pending].
  - destruct (wire_rect x y wd h); [by apply safe_update_pending|by apply safe_ret].
  - unfold safe, runs. rewrite (run_ok _ _ _ _ _ Hsc). by apply safe_update_pending.
Qed.

(** ** Changing links *)

(** The invariant but for parents and children. *)
Record nearly (held : gset Z) w : Prop := {
  nearly_cells : cells_ok w;
  nearly_clients : clients_ok w;
  nearly_subsurfaces : subsurfaces_ok w;
  nearly_locked : World.locked w = held;
}.

Record relinked (held : gset Z) w w' : Prop := {
  relinked_nearly : nearly held w';
  relinked_extends : extends w w';
  relinked_frugal : frugal w w';
}.

Lemma relinked_refl held w : nearly held w → relinked held w w.
Proof. split; [done|apply world_extends_refl|apply frugal_refl]. Qed.

Lemma relinked_trans held held' w1 w2 w3 :
  relinked held w1 w2 → relinked held' w2 w3 → relinked held' w1 w3.
Proof.
  intros [_ E1 F1] [N E2 F2]. split; [done|by eapply extends_trans|by eapply frugal_trans].
Qed.

Lemma relinked_stable held w w' :
  relinked held w w' → (∃ linked, World.alive w' ⊆ linked ∧ forest_ok linked (shape w')) →
  stable held w w'.
Proof. intros [[] E F] Hf. by split; [split|..]. Qed.

Lemma ok_nearly held w : ok held w → nearly held w.
Proof. intros []. by split. Qed.

Lemma relinked_write held w s d d' :
  nearly held w → World.data w s = Some d →
  PrivateSurfaceData.pending_transaction d' = PrivateSurfaceData.pending_transaction d →
  (has_sync d → has_sync d') → (∀ b, (surface_holds b d' <= surface_holds b d)%nat) →
  relinked held w (World.write s d' w).
Proof.
  intros [Hc Hcl Hsub Hl] Hd Hp Hs Hb. split; [split| |].
  - by eapply cells_write.
  - by apply clients_write.
  - by eapply subsurfaces_write.
  - done.
  - by eapply write_extends.
  - intros b. specialize (Hb b). pose proof (surfaces_hold_write b w s d d' Hd) as Hw.
    unfold ledger. simpl in *. lia.
Qed.

Lemma set_parent_data d parent role :
  PrivateSurfaceData.pending_transaction (PrivateSurfaceData.set_parent parent
    (PrivateSurfaceData.set_public (SurfaceData.set_role role (PrivateSurfaceData.public d)) d)) =
  PrivateSurfaceData.pending_transaction d.
Proof. done. Qed.

(** A child that may get a parent. *)
Definition adopted (parent : Z) d : option PrivateSurfaceData.t :=
  let public := PrivateSurfaceData.public d in
  match SurfaceData.role public, PrivateSurfaceData.parent d with
  | Some role, None =>
      if String.eqb role SUBSURFACE_ROLE then Some (PrivateSurfaceData.set_parent (Some parent) d)
      else None
  | None, None =>
      Some (PrivateSurfaceData.set_parent (Some parent)
             (PrivateSurfaceData.set_public (SurfaceData.set_role (Some SUBSURFACE_ROLE) public) d))
  | _, Some _ => None
  end.

Lemma set_parent_eq w c p d :
  ok ∅ w → World.data w c = Some d → is_Some (World.data w p) → c ≠ p →
  above DEPTH w c p = false →
  set_parent c p w =
    match adopted p d with
    | None => (w, Err TreeError.AlreadyHasRole)
    | Some d' =>
        match World.data w p with
        | Some dp => (World.write p (PrivateSurfaceData.set_children
                       (PrivateSurfaceData.children dp ++ [c]) dp) (World.write c d' w), Ok tt)
        | None => (w, Err TreeError.AlreadyHasRole)
        end
    end.
Proof.
  intros Hok Hd [dp Hdp] Hcp Hab. unfold set_parent. rewrite (proj2 (Z.eqb_neq c p)) by done.
  unfold is_ancestor.
  rewrite (run_ok _ _ _ _ _ (is_ancestor_eq DEPTH w c p Hok (ex_intro _ dp Hdp))), Hab.
  rewrite (run_ok _ _ _ _ _ (with_lock_eq w c d _ Hd (ok_unlocked w c Hok))). rewrite Hdp.
  assert (Hdone : ∀ d', writing p (λ d, PrivateSurfaceData.set_children
      (PrivateSurfaceData.children d ++ [c]) d) (World.write c d' w) =
    (World.write p (PrivateSurfaceData.set_children (PrivateSurfaceData.children dp ++ [c]) dp)
       (World.write c d' w), Ok tt)).
  { intros d'. rewrite (writing_eq _ p dp); [done| |by apply (ok_unlocked w)].
    by rewrite data_write_other. }
  unfold adopted. destruct (SurfaceData.role _) as [role|], (PrivateSurfaceData.parent d) as [q|];
    simpl; rewrite ?(write_id w c d Hd); try done; try apply Hdone.
  destruct (String.eqb role SUBSURFACE_ROLE); simpl; rewrite ?(write_id w c d Hd); [apply Hdone|done].
Qed.

Lemma set_parent_refused w c p d :
  ok ∅ w → World.data w c = Some d → is_Some (World.data w p) →
  c = p ∨ above DEPTH w c p = true → set_parent c p w = (w, Err TreeError.AlreadyHasRole).
Proof.
  intros Hok Hd Hp Hr. unfold set_parent. destruct (Z.eqb_spec c p) as [|Hne]; [done|].
  destruct Hr as [?|Hab]; [done|]. unfold is_ancestor.
  by rewrite (run_ok _ _ _ _ _ (is_ancestor_eq DEPTH w c p Hok Hp)), Hab.
Qed.

Lemma adopted_data p d d' :
  adopted p d = Some d' →
  PrivateSurfaceData.parent d = None ∧ PrivateSurfaceData.parent d' = Some p ∧
  PrivateSurfaceData.children d' = PrivateSurfaceData.children d ∧
  PrivateSurfaceData.pending_transaction d' = PrivateSurfaceData.pending_transaction d ∧
  (has_sync d → has_sync d') ∧ ∀ b, surface_holds b d' = surface_holds b d.
Proof.
  unfold adopted. destruct (SurfaceData.role _) as [role|], (PrivateSurfaceData.parent d); try done;
    [destruct (String.eqb role SUBSURFACE_ROLE); [|done]|]; intros [= <-]; by repeat split.
Qed.

Lemma set_parent_runs w c p :
  ok ∅ w → c ∈ World.alive w → p ∈ World.alive w →
  runs (set_parent c p) w (λ _ w', stable ∅ w w' ∧ World.alive w' = World.alive w)
    (λ _ w', w' = w).
Proof.
  intros Hok Hc Hp. destruct (alive_known ∅ w c Hok Hc) as [d Hd].
  pose proof (alive_known ∅ w p Hok Hp) as Hdp. unfold runs.
  destruct (decide (c = p)) as [Heq|Hcp];
    [by rewrite (set_parent_refused w c p d) by (try done; by left)|].
  destruct (above DEPTH w c p) eqn:Hab;
    [by rewrite (set_parent_refused w c p d) by (try done; by right)|].
  rewrite (set_parent_eq w c p d) by done. destruct (adopted p d) as [d'|] eqn:Ead; [|done].
  destruct Hdp as [dp Hdp]. rewrite Hdp. split; [|done].
  destruct (adopted_data p d d' Ead) as (Hpn&Hpd&Hch&Hpt&Hsy&Hho).
  set (w1 := World.write c d' w).
  assert (R1 : relinked ∅ w w1).
  { apply (relinked_write ∅ w c d); [by apply ok_nearly|done..|]. intros b. by rewrite Hho. }
  assert (Hdp1 : World.data w1 p = Some dp) by (unfold w1; by rewrite data_write_other).
  set (dp' := PrivateSurfaceData.set_children _ dp).
  assert (R2 : relinked ∅ w1 (World.write p dp' w1)).
  { apply (relinked_write ∅ w1 p dp); [apply R1|done..]. }
  apply relinked_stable; [by eapply relinked_trans|].
  destruct (ok_forest _ _ Hok) as (linked&Hal&Hf). exists linked. split; [done|].
  rewrite (shape_write w1 p dp dp' Hdp1). unfold w1. rewrite (shape_write w c d d' Hd), Hpd, Hch.
  simpl. apply forest_attach; [done| | |set_solver|set_solver|done|].
  - by rewrite shape_data, Hd, <- Hpn.
  - by rewrite shape_data, Hdp.
  - by apply (above_false DEPTH).
Qed.

Lemma get_subsurface_safe w subcompositor id c p :
  ok ∅ w → c ∈ World.alive w → p ∈ World.alive w →
  safe ∅ w (get_subsurface subcompositor id c p).
Proof.
  intros Hok Hc Hp. unfold get_subsurface, safe, runs, mbind, run_bind, attempt.
  pose proof (set_parent_runs w c p Hok Hc Hp) as Hr. unfold runs in Hr.
  destruct (set_parent c p w) as [w1 [[]|e|]]; [|subst; by apply safe_post_event|done].
  destruct Hr as [Hs1 Hal]. unfold modify. set (w2 := World.set_subsurfaces _ w1).
  assert (Hk : is_Some (World.data w1 c)) by (eapply stable_known; [done|by eapply alive_known]).
  destruct Hk as [d Hd].
  assert (Hl : c ∉ World.locked w2) by (by apply (ok_unlocked w1), Hs1).
  unfold with_states. rewrite (with_lock_eq w2 c d _ Hd Hl). simpl.
  set (d' := PrivateSurfaceData.set_public _ d).
  assert (Hsy : has_sync d').
  { unfold has_sync, d'. simpl. unfold SurfaceDataMap.insert_if_missing, SurfaceDataMap.get,
      AnyList.push. set (map := SurfaceData.data_map _).
    destruct (AnyList.get DataKind.state DataKind.Subsurface map) eqn:E; simpl; [by rewrite E|].
    rewrite AnyList.get_app, E. simpl. by eexists. }
  assert (Hsim : similar d d') by (by repeat split).
  assert (Hs3 : stable ∅ w1 (World.write c d' w1)) by (by eapply write_stable; [apply Hs1|..]).
  eapply stable_trans; [exact Hs1|]. destruct Hs3 as [[Hf [Ho Ha] [Hcs Hce] Hsub Hlo] [X1 X2 X3] F].
  split; [split; [done|by split|by split| |done]|by split|done].
  intros r s Hr. unfold w2, World.write in Hr. simpl in Hr.
  apply lookup_insert_Some in Hr as [[<- <-]|[Hn Hr]].
  - exists d'. split; [|done]. by apply (data_write_same w2 _ d).
  - destruct (Hsub r s Hr) as (ds&Hds&?). by exists ds.
Qed.

(** Leaving a parent. *)
Lemma take_parent_eq w c d :
  ok ∅ w → World.data w c = Some d →
  take_parent c w = (World.write c (PrivateSurfaceData.set_parent None d) w,
                     Ok (PrivateSurfaceData.parent d)).
Proof.
  intros Hok Hd. unfold take_parent.
  by rewrite (with_lock_eq w c d _ Hd (ok_unlocked w c Hok)).
Qed.

Lemma detached_stable w c d p dp :
  ok ∅ w → World.data w c = Some d → PrivateSurfaceData.parent d = Some p →
  World.data w p = Some dp →
  stable ∅ w (World.write p (retain_children c dp)
    (World.write c (PrivateSurfaceData.set_parent None d) w)) ∧ c ≠ p.
Proof.
  intros Hok Hd Hpd Hdp. destruct (ok_forest _ _ Hok) as (linked&Hal&Hf).
  assert (Hcp : c ≠ p).
  { intros ->. destruct (forest_parent _ _ Hf p p) as [Hn _]; [|done].
    by rewrite owner_data, Hd. }
  split; [|done]. set (w1 := World.write c _ w).
  assert (R1 : relinked ∅ w w1).
  { apply (relinked_write ∅ w c d); [by apply ok_nearly|done..]. }
  assert (Hdp1 : World.data w1 p = Some dp) by (unfold w1; by rewrite data_write_other).
  assert (R2 : relinked ∅ w1 (World.write p (retain_children c dp) w1)).
  { apply (relinked_write ∅ w1 p dp); [apply R1|done..]. }
  apply relinked_stable; [by eapply relinked_trans|]. exists linked. split; [done|].
  rewrite (shape_write w1 p dp _ Hdp1). unfold w1. rewrite (shape_write w c d _ Hd). simpl.
  apply forest_detach; [done| | |done].
  - by rewrite shape_data, Hd, <- Hpd.
  - by rewrite shape_data, Hdp.
Qed.

Lemma unset_parent_safe w c : ok ∅ w → is_Some (World.data w c) → safe ∅ w (unset_parent c).
Proof.
  intros Hok [d Hd]. unfold safe, runs, unset_parent.
  rewrite (run_ok _ _ _ _ _ (take_parent_eq w c d Hok Hd)).
  destruct (PrivateSurfaceData.parent d) as [p|] eqn:Ep.
  - destruct (owner_known ∅ w c p Hok) as [dp Hdp]; [by rewrite owner_data, Hd|].
    destruct (detached_stable w c d p dp Hok Hd Ep Hdp) as [Hs Hcp].
    rewrite (writing_eq _ p dp); [done| |by apply (ok_unlocked w)].
    by rewrite data_write_other.
  - simpl. eapply write_stable; [done|done| |done]. by repeat split; simpl.
Qed.

Lemma subsurface_destroyed_safe w r :
  ok ∅ w → is_Some (World.subsurfaces w !! r) → safe ∅ w (subsurface_destroyed r).
Proof.
  intros Hok [s Hr]. destruct (ok_subsurfaces _ _ Hok r s Hr) as (d&Hd&Hsy).
  unfold safe, runs, subsurface_destroyed. rewrite run_get, (run_expect _ _ _ _ Hr), run_modify.
  set (w1 := World.set_subsurfaces _ w).
  assert (Hs1 : stable ∅ w w1).
  { destruct Hok as [Hf [Ho Ha] [Hcs Hce] Hsub Hlo].
    split; [split; [done|by split|by split| |done]|by apply same_surfaces_extends|by apply same_frugal].
    intros r' s' Hr'. unfold w1 in Hr'. simpl in Hr'. apply lookup_delete_Some in Hr' as [_ Hr'].
    by apply (Hsub r'). }
  assert (Hd1 : World.data w1 s = Some d) by done.
  apply (stable_after ∅ ∅ w w1); [done|].
  eapply safe_bind; [apply unset_parent_safe; [apply Hs1|by eexists]|]. intros _ w2 Hs2.
  destruct (extends_data _ _ _ _ (stable_extends _ _ _ Hs2) Hd1) as (d2&Hd2&Hsy2).
  eapply safe_bind; [apply safe_store_sync; [apply Hs2|exists d2; auto]|]. intros _ w3 Hs3.
  destruct (extends_data _ _ _ _ (stable_extends _ _ _ Hs3) Hd2) as (d3&Hd3&_).
  eapply safe_update_cache; [apply Hs3|done|set_solver|]. intros b c. unfold cached_holds. simpl. lia.
Qed.

(** ** Reordering *)

Lemma reorder_eq w s location r d :
  ok ∅ w → World.data w s = Some d →
  reorder s location r w =
    match PrivateSurfaceData.parent d with
    | None => (w, Err TreeError.NotSibling)
    | Some p =>
        match World.data w p with
        | None => (w, Panic)
        | Some dp =>
            match reorder_children s location r (PrivateSurfaceData.children dp) with
            | NotFound => (w, Err TreeError.NotSibling)
            | OutOfBounds => (World.set_locked {[p]} w, Panic)
            | Moved children => (World.write p (PrivateSurfaceData.set_children children dp) w, Ok tt)
            end
        end
    end.
Proof.
  intros Hok Hd. unfold reorder, get_parent.
  rewrite (run_ok _ _ _ _ _ (reading_eq w s d _ Hd (ok_unlocked w s Hok))).
  destruct (PrivateSurfaceData.parent d) as [p|] eqn:Ep; [|done].
  destruct (World.data w p) as [dp|] eqn:Ed.
  - rewrite (run_ok _ _ _ _ _ (acquire_eq w p dp Ed (ok_unlocked w p Hok))).
    assert (Hl : World.locked w = ∅) by apply Hok.
    assert (Hback : World.set_locked (({[p]} ∪ World.locked w) ∖ {[p]}) w = w).
    { rewrite unlock_again by (rewrite Hl; set_solver). by destruct w. }
    destruct (reorder_children _ _ _ _) as [| |k].
    + rewrite (run_ok _ _ _ _ _ (release_eq _ p)). cbn [World.locked World.set_locked].
      rewrite set_locked_twice, Hback. done.
    + by rewrite Hl, union_empty_r_L.
    + set (w1 := World.set_locked _ w). assert (Hd1 : World.data w1 p = Some dp) by done.
      rewrite (run_ok _ _ _ _ _ (write_eq w1 p dp _ Hd1)), release_eq. unfold w1.
      rewrite write_set_locked. cbn [World.locked World.set_locked].
      rewrite set_locked_twice, <- write_set_locked, Hback. done.
  - exfalso. destruct (owner_known ∅ w s p Hok) as [dp Hdp]; [by rewrite owner_data, Hd|congruence].
Qed.

(** The only request that panics: a subsurface that is the topmost child is
    placed above itself. *)
Definition crashes w (s : Z) (location : Location.t) (r : Z) : bool :=
  match owner (shape w) s ≫= (λ p, World.data w p) with
  | Some dp =>
      match reorder_children s location r (PrivateSurfaceData.children dp) with
      | OutOfBounds => true
      | _ => false
      end
  | None => false
  end.

Lemma place_runs w resource s location r :
  ok ∅ w → is_Some (World.data w s) →
  if crashes w s location r then (place resource s location r w).2 = Panic
  else safe ∅ w (place resource s location r).
Proof.
  intros Hok [d Hd]. unfold crashes. rewrite owner_data, Hd. simpl.
  pose proof (reorder_eq w s location r d Hok Hd) as Heq. unfold place, safe, runs.
  unfold mbind at 2 3, run_bind, attempt. rewrite Heq. clear Heq.
  destruct (PrivateSurfaceData.parent d) as [p|] eqn:Ep; simpl; [|by apply safe_post_event].
  destruct (owner_known ∅ w s p Hok) as [dp Hdp]; [by rewrite owner_data, Hd|]. rewrite Hdp.
  destruct (reorder_children _ _ _ _) as [| |k] eqn:Ek; [by apply safe_post_event|done|].
  apply relinked_stable.
  - by eapply relinked_write; [apply ok_nearly| | | |].
  - destruct (ok_forest _ _ Hok) as (linked&Hal&Hf). exists linked. split; [done|].
    assert (Hshape : shape w !! p = Some (PrivateSurfaceData.parent dp, PrivateSurfaceData.children dp))
      by (by rewrite shape_data, Hdp).
    rewrite (shape_write _ _ dp) by done. simpl. eapply forest_permute; [done|done|].
    eapply moved_perm; [|done]. by eapply (forest_nodup _ _ Hf).
Qed.

Lemma subsurface_request_runs w client resource s request :
  ok ∅ w → World.subsurfaces w !! resource = Some s →
  let crash := match request with
    | PlaceAbove r => crashes w s Location.After r
    | PlaceBelow r => crashes w s Location.Before r
    | _ => false
    end in
  if crash then (subsurface_request client resource request w).2 = Panic
  else safe ∅ w (subsurface_request client resource request).
Proof.
  intros Hok Hr crash. destruct (ok_subsurfaces _ _ Hok _ _ Hr) as (d&Hd&Hsy).
  assert (Heq : ∀ k, (w ← get_state; surface ← expect (World.subsurfaces w !! resource); k w surface) w
    = k w s w :> _ * Outcome TreeError.t unit).
  { intros k. by rewrite run_get, (run_expect _ _ _ _ Hr). }
  unfold safe, runs, subsurface_request. rewrite Heq.
  destruct request as [x y|r|r| |]; unfold crash.
  - eapply safe_update_cache; [done|done|set_solver|]. intros b c. unfold cached_holds. simpl. lia.
  - apply (place_runs w resource s Location.After r Hok (ex_intro _ d Hd)).
  - apply (place_runs w resource s Location.Before r Hok (ex_intro _ d Hd)).
  - apply safe_store_sync; [done|by exists d].
  - apply safe_store_sync; [done|by exists d].
Qed.

(** ** Creation *)

Lemma track_surface_runs w client :
  ok ∅ w →
  runs (track_surface client) w (λ a w', stable ∅ w w' ∧ is_Some (World.client_states w' !! a) ∧
    World.surfaces w' = World.surfaces w ∧ World.alive w' = World.alive w) (λ _ _, False).
Proof.
  intros Hok. unfold runs, track_surface. rewrite run_get.
  destruct Hok as [Hf [Ho Ha] [Hcs Hce] Hsub Hl].
  destruct (World.clients w !! client) as [e|] eqn:Ee.
  - rewrite run_modify. simpl. split; [|split; [by apply (Hce client)|done]].
    split; [split; [done|by split| |done|done]|by apply same_surfaces_extends|by apply same_frugal].
    split; [done|]. intros c e'. simpl. intros [[<- <-]|[_ Hc]]%lookup_insert_Some; simpl;
      [by apply (Hce client)|by apply (Hce c)].
  - set (a := fresh _).
    assert (Hn : World.client_states w !! a = None) by (apply not_elem_of_dom, is_fresh).
    assert (Hmono : ∀ b, is_Some (World.client_states w !! b) →
      is_Some (<[a := CompositorClientState.default]> (World.client_states w) !! b)).
    { intros b Hb. destruct (decide (b = a)) as [->|]; [by rewrite lookup_insert_eq|].
      by rewrite lookup_insert_ne. }
    rewrite !run_modify. simpl. split; [|split; [by rewrite lookup_insert_eq|done]].
    split; [split; [done|by split| |done|done]| |by apply same_frugal].
    + split; simpl.
      * intros s u Hu. by apply Hmono, (Hcs s).
      * intros c e. intros [[<- <-]|[_ Hc]]%lookup_insert_Some; simpl;
          [by rewrite lookup_insert_eq|by apply Hmono, (Hce c)].
    + split; [|done|done]. intros s u Hs. exists u. by repeat split.
Qed.

Lemma create_surface_safe w client s :
  ok ∅ w → World.surfaces w !! s = None → safe ∅ w (create_surface client s).
Proof.
  intros Hok Hs. unfold safe, create_surface.
  eapply runs_step; [by apply track_surface_runs| |done]. intros a w1 ([Hok1 E1 F1]&Hcs&Hsu&Hal).
  destruct (arc_new_owned (B := Barrier.t) ts_default (World.heap w1)) as (Hn&Hof&Hx).
  change (arc_new _ _) with (pending_default (World.heap w1)) in Hn, Hof, Hx.
  unfold runs, new_transaction.
  rewrite (run_ok _ _ _ _ _ (on_heap_eq w1 _ _ _ (f_equal Some
    (surjective_pairing (pending_default (World.heap w1)))))).
  set (f := (pending_default (World.heap w1)).1) in *.
  set (h := (pending_default (World.heap w1)).2) in *. rewrite run_modify.
  set (u := SurfaceUserData.mk (PrivateSurfaceData.new f) client a). set (w2 := World.set_alive _ _).
  assert (Hd2 : World.data w2 s = Some (PrivateSurfaceData.new f)).
  { unfold World.data, w2. simpl. by rewrite lookup_insert_eq. }
  assert (Hl2 : s ∉ World.locked w2) by (by apply (ok_unlocked w1)).
  unfold init. rewrite (writing_eq w2 s _ _ Hd2 Hl2). set (d := PrivateSurfaceData.set_children _ _).
  assert (Hs1 : World.surfaces w1 !! s = None) by (by rewrite Hsu).
  destruct Hok1 as [(linked&Hli&Hfo) [Ho Ha] [Hc1 Hc2] Hsub Hl].
  assert (Hdata : ∀ x, x ≠ s → World.data (World.write s d w2) x = World.data w1 x).
  { intros x Hxs. rewrite data_write_other by done. unfold World.data, w2. simpl.
    by rewrite lookup_insert_ne. }
  assert (Hnew : World.data (World.write s d w2) s = Some d) by (by eapply data_write_same).
  split; [split| |].
  - exists ({[s]} ∪ linked). split; [simpl; set_solver|].
    rewrite (shape_write w2 s _ d Hd2). simpl.
    assert (shape w2 = <[s := (None, [])]> (shape w1)) as ->.
    { unfold shape, w2. simpl. by rewrite fmap_insert. }
    rewrite insert_insert_eq. apply forest_create; [done|].
    rewrite shape_data. unfold World.data. by rewrite Hs1.
  - split.
    + intros x dx Hdx. destruct (decide (x = s)) as [->|Hxs].
      * rewrite Hnew in Hdx. simplify_eq. by exists ts_default.
      * rewrite Hdata in Hdx by done. destruct (Ho x dx Hdx) as [st Hst]. exists st.
        unfold owned in *. simpl. rewrite Hx; [done|]. intros E. congruence.
    + assert (Hfresh : ∀ x dx, World.data w1 x = Some dx → PrivateSurfaceData.pending_transaction dx ≠ f).
      { intros x dx Hdx E. destruct (Ho x dx Hdx) as [st Hst]. unfold owned in Hst. congruence. }
      intros x y dx dy Hdx Hdy E.
      destruct (decide (x = s)) as [->|Hxs], (decide (y = s)) as [->|Hys]; [done| | |].
      * rewrite Hdata in Hdy by done. rewrite Hnew in Hdx. simplify_eq. by destruct (Hfresh y dy).
      * rewrite Hdata in Hdx by done. rewrite Hnew in Hdy. simplify_eq. by destruct (Hfresh x dx).
      * rewrite Hdata in Hdx, Hdy by done. by apply (Ha x y dx dy).
  - apply clients_write. split; simpl; [|done]. intros x ux [[<- <-]|[_ Hu]]%lookup_insert_Some;
      [done|by apply (Hc1 x)].
  - intros r x Hr. destruct (Hsub r x Hr) as (dx&Hdx&?). exists dx. split; [|done].
    rewrite Hdata; [done|]. intros ->. unfold World.data in Hdx. by rewrite Hs1 in Hdx.
  - done.
  - eapply extends_trans; [exact E1|]. split; [| |done].
    + intros x ux Hux. assert (x ≠ s) by (intros ->; congruence). exists ux. simpl.
      rewrite lookup_alter_ne, lookup_insert_ne by done. by repeat split.
    + intros x [ux Hux] Hxa. simpl in Hxa. assert (x ≠ s) by (intros ->; congruence). set_solver.
  - intros b. specialize (F1 b). unfold ledger in *.
    pose proof (surfaces_hold_write b w2 s _ d Hd2) as Hw. simpl in *.
    rewrite (surfaces_hold_insert b _ s u Hs1) in Hw. unfold surface_holds in *. simpl in *. lia.
Qed.

End requests.
