(* ===== verification/SurfaceTreeDestroy.v ===== *)
(** * A surface that is destroyed leaves the tree in order

    The cleanup of a surface whose object is gone: its parent forgets it, its
    children lose their parent, and the buffers of its current and pending state
    are released. *)

From Stdlib Require Import Floats.SpecFloat Strings.String.
From S2P Require Import Prelude Forest Geometry Surface Cached CachedSpec Transaction TransactionSpec SurfaceTree SurfaceTreeInv SurfaceTreeOps SurfaceTreeCommit SurfaceTreeApply SurfaceTreeRequests.

Section destroy.

Context {R : Type} `{Objects} `{!Handlers R} `{!Holder R} `{!HandlersOk R}.

Implicit Types (w : World.t R) (d : PrivateSurfaceData.t).

Lemma untrack_stable w client : ok ∅ w → safe ∅ w (untrack_surface client).
Proof.
  intros Hok. unfold safe, runs, untrack_surface, modify. simpl.
  destruct (World.clients w !! client) as [e|] eqn:Ee; [|by apply stable_refl].
  destruct Hok as [Hf [Ho Ha] [Hcs Hce] Hsub Hl].
  assert (Hclients : ∀ m, (∀ c e, m !! c = Some e → is_Some (World.client_states w !! ClientEntry.state e)) →
    stable ∅ w (World.set_clients m w)).
  { intros m Hm. split; [split; [done|by split|by split|done|done]
      |by apply same_surfaces_extends|by apply same_frugal]. }
  destruct (_ =? 0); apply Hclients; intros c e'.
  - intros [_ Hc]%lookup_delete_Some. by apply (Hce c).
  - intros [[<- <-]|[_ Hc]]%lookup_insert_Some; simpl;
      [by apply (Hce client)|by apply (Hce c)].
Qed.

(** Every child of a list loses its parent. *)
Definition orphan_step (s child : Z) : Run (World.t R) TreeError.t unit :=
  w ← get_state;
  match World.data w child with
  | None => mret tt
  | Some _ => if decide (child = s) then mret tt
              else writing child (PrivateSurfaceData.set_parent None)
  end.

Lemma orphan_runs s l w :
  nearly {[s]} w → 
  ∃ w', for_each (orphan_step s) l w = (w', Ok tt) ∧ relinked {[s]} w w' ∧
    World.alive w' = World.alive w ∧
    ∀ x, World.data w' x =
      if decide (x ∈ l ∧ x ≠ s) then PrivateSurfaceData.set_parent None <$> World.data w x
      else World.data w x.
Proof.
  revert w. induction l as [|c l IH]; intros w Hn.
  { exists w. split; [done|]. split; [by apply relinked_refl|]. split; [done|].
    intros x. destruct (decide _) as [[?%elem_of_nil _]|_]; done. }
  cbn [for_each].
  assert (Hskip : (World.data w c = None ∨ c = s) → orphan_step s c w = (w, Ok tt)).
  { unfold orphan_step. rewrite run_get. intros [->| ->]; [done|].
    destruct (World.data w s); [by rewrite decide_True|done]. }
  destruct (World.data w c) as [d|] eqn:Ed; [destruct (decide (c = s)) as [->|Hcs]|].
  - rewrite (run_ok _ _ _ _ _ (Hskip (or_intror eq_refl))).
    destruct (IH w Hn) as (w'&Hw'&Hr&Ha&Hx). exists w'. do 3 (split; [done|]). intros x. rewrite Hx.
    apply decide_ext. rewrite elem_of_cons. naive_solver.
  - assert (Hstep : orphan_step s c w =
      (World.write c (PrivateSurfaceData.set_parent None d) w, Ok tt)).
    { unfold orphan_step. rewrite run_get, Ed, decide_False by done. apply writing_eq; [done|].
      rewrite (nearly_locked _ _ Hn). set_solver. }
    rewrite (run_ok _ _ _ _ _ Hstep). set (w1 := World.write c _ w).
    assert (R1 : relinked {[s]} w w1) by (by apply (relinked_write _ w c d)).
    destruct (IH w1) as (w'&Hw'&Hr&Ha&Hx); [apply R1|]. exists w'. split; [done|].
    split; [by eapply relinked_trans|]. split; [done|]. intros x. rewrite Hx.
    unfold w1. rewrite data_write. destruct (decide (x = c)) as [->|Hxc].
    + rewrite Ed. simpl. rewrite (decide_True _ _ (P := c ∈ c :: l ∧ c ≠ s)) by (split; [by left|done]).
      by destruct (decide _).
    + apply decide_ext. rewrite elem_of_cons. naive_solver.
  - rewrite (run_ok _ _ _ _ _ (Hskip (or_introl eq_refl))).
    destruct (IH w Hn) as (w'&Hw'&Hr&Ha&Hx). exists w'. do 3 (split; [done|]). intros x. rewrite Hx.
    destruct (decide (x = c)) as [->|Hxc].
    + rewrite Ed. by repeat case_decide.
    + apply decide_ext. rewrite elem_of_cons. naive_solver.
Qed.

Definition assignment_effects (assignment : option BufferAssignment.t) : list Effect.t :=
  match assignment with
  | Some (BufferAssignment.NewBuffer buffer) => [Effect.Release buffer]
  | _ => []
  end.

Lemma release_assignment_eq w assignment :
  release_assignment assignment w =
    (World.set_env (Env.emit (assignment_effects assignment) (World.env w)) w, Ok tt).
Proof.
  destruct assignment as [[|b]|]; [|done|]; unfold release_assignment, Env.emit; simpl;
    rewrite app_nil_r; destruct w as [? ? ? ? ? ? ? ? ? [? ?] ? ?]; done.
Qed.

Lemma released_assignment b assignment env :
  Env.released b (Env.emit (assignment_effects assignment) env) =
    (Env.released b env + assigned b assignment)%nat.
Proof.
  rewrite released_emit. f_equal. unfold Env.released. simpl.
  destruct assignment as [[|b']|]; simpl; [done| |done]. lia.
Qed.

(** The attributes without their buffers. *)
Definition emptied d : PrivateSurfaceData.t :=
  PrivateSurfaceData.set_public (SurfaceData.set_cached_state
    (MultiCache.update CacheKind.Attributes without_buffers
      (SurfaceData.cached_state (PrivateSurfaceData.public d)))
    (PrivateSurfaceData.public d)) d.

Definition attributes_of d : CachedState.t SurfaceAttributes.t :=
  MultiCache.get CacheKind.Attributes (SurfaceData.cached_state (PrivateSurfaceData.public d)).

Lemma emptied_balance b d :
  (surface_holds b (emptied d)
   + assigned b (SurfaceAttributes.buffer (CachedState.current (attributes_of d)))
   + assigned b (SurfaceAttributes.buffer (CachedState.pending (attributes_of d)))
   = surface_holds b d)%nat.
Proof.
  unfold surface_holds, emptied, attributes_of. simpl.
  pose proof (holds_update b CacheKind.Attributes without_buffers
    (SurfaceData.cached_state (PrivateSurfaceData.public d))) as Hu.
  set (c := MultiCache.get _ _) in *. unfold cached_holds in Hu. simpl in *. lia.
Qed.

(** The parent of a surface forgets it. *)
Lemma unlink_runs w s d :
  ok ∅ w → World.data w s = Some d →
  runs (old_parent ← take_parent s;
        match old_parent with
        | Some parent =>
            w ← get_state;
            match World.data w parent with
            | Some _ => writing parent (retain_children s)
            | None => mret tt
            end
        | None => mret tt
        end) w
    (λ _ w', stable ∅ w w' ∧ World.data w' s = Some (PrivateSurfaceData.set_parent None d)) (λ _ _, False).
Proof.
  intros Hok Hd. unfold runs. rewrite (run_ok _ _ _ _ _ (take_parent_eq w s d Hok Hd)).
  destruct (PrivateSurfaceData.parent d) as [p|] eqn:Ep.
  - destruct (owner_known ∅ w s p Hok) as [dp Hdp]; [by rewrite owner_data, Hd|].
    destruct (detached_stable w s d p dp Hok Hd Ep Hdp) as [Hs Hsp]. rewrite run_get.
    assert (Hdp1 : World.data (World.write s (PrivateSurfaceData.set_parent None d) w) p = Some dp)
      by (by rewrite data_write_other).
    rewrite Hdp1, (writing_eq _ p dp _ Hdp1) by (by apply (ok_unlocked w)).
    split; [done|]. rewrite data_write_other by done. by eapply data_write_same.
  - split; [|by eapply data_write_same]. eapply write_stable; [done|done| |done]. by repeat split.
Qed.

(** A surface without a parent loses its children. *)
Lemma childless_runs w s d :
  ok {[s]} w → World.data w s = Some d → PrivateSurfaceData.parent d = None →
  s ∉ World.alive w →
  runs (write s (PrivateSurfaceData.set_children []);;
        for_each (orphan_step s) (PrivateSurfaceData.children d)) w
    (λ _ w', stable {[s]} w w' ∧ World.data w' s = Some (PrivateSurfaceData.set_children [] d))
    (λ _ _, False).
Proof.
  intros Hok Hd Hp Ha. unfold runs. rewrite (run_ok _ _ _ _ _ (write_eq w s d _ Hd)).
  set (w1 := World.write s _ w).
  assert (R1 : relinked {[s]} w w1).
  { apply (relinked_write _ w s d); [by apply ok_nearly|done..]. }
  destruct (orphan_runs s (PrivateSurfaceData.children d) w1) as (w2&Hw2&R2&Ha2&Hx2); [apply R1|].
  rewrite Hw2. assert (Hd2 : World.data w2 s = Some (PrivateSurfaceData.set_children [] d)).
  { rewrite Hx2, decide_False by (by intros [_ ?]). by eapply data_write_same. }
  split; [|done]. apply relinked_stable; [by eapply relinked_trans|].
  destruct (ok_forest _ _ Hok) as (linked&Hal&Hf). exists (linked ∖ {[s]}).
  split; [rewrite Ha2; simpl; set_solver|].
  apply (forest_clear linked (shape w) Hf s (PrivateSurfaceData.children d)).
  { by rewrite shape_data, Hd, <- Hp. }
  intros x. rewrite !shape_data. destruct (decide (x = s)) as [->|Hxs].
  { rewrite Hd2. simpl. by rewrite Hp. }
  rewrite Hx2. unfold w1. rewrite data_write_other by done.
  destruct (decide (x ∈ _)) as [Hin|Hin].
  - rewrite decide_True by done. by destruct (World.data w x).
  - rewrite decide_False by naive_solver. done.
Qed.

Lemma released_eq w s d f assignment :
  World.data w s = Some d →
  (write s f;; release_assignment assignment) w =
    (World.set_env (Env.emit (assignment_effects assignment) (World.env w)) (World.write s (f d) w),
     Ok tt).
Proof.
  intros Hd. by rewrite (run_ok _ _ _ _ _ (write_eq w s d f Hd)), release_assignment_eq.
Qed.

(** The buffers of the current and the pending state are released. *)
Lemma release_buffers_safe w s d :
  ok {[s]} w → World.data w s = Some d →
  safe {[s]} w
    ((write s (λ d, emptied d);;
      release_assignment (SurfaceAttributes.buffer (CachedState.current (attributes_of d))));;
     release_assignment (SurfaceAttributes.buffer (CachedState.pending (attributes_of d)))).
Proof.
  intros Hok Hd. unfold safe, runs. rewrite (run_ok _ _ _ _ _ (released_eq w s d _ _ Hd)).
  rewrite release_assignment_eq.
  set (a1 := SurfaceAttributes.buffer (CachedState.current (attributes_of d))).
  set (a2 := SurfaceAttributes.buffer (CachedState.pending (attributes_of d))).
  set (e1 := Env.emit (assignment_effects a1) (World.env w)).
  change (stable {[s]} w (World.write s (emptied d)
    (World.set_env (Env.emit (assignment_effects a2) e1) w))).
  eapply write_env_stable; [done|done|by repeat split|]. intros b.
  rewrite released_assignment. unfold e1. rewrite released_assignment.
  unfold a1, a2. pose proof (emptied_balance b d). lia.
Qed.

(** [cleanup] of a surface whose object is gone. *)
Lemma cleanup_safe w s :
  ok ∅ w → is_Some (World.data w s) → s ∉ World.alive w → safe ∅ w (cleanup s).
Proof.
  intros Hok [d Hd] Ha. apply safe_assoc. eapply runs_step; [by apply unlink_runs| |done].
  intros [] w1 [S1 Hd1]. set (d1 := PrivateSurfaceData.set_parent None d) in *.
  pose proof (stable_ok _ _ _ S1) as Ok1.
  assert (Ha1 : s ∉ World.alive w1).
  { intros Hin. apply Ha, (extends_alive _ _ (stable_extends _ _ _ S1)); [|done].
    destruct (data_surfaces w s d Hd) as (u&Hu&_). by exists u. }
  unfold runs. rewrite (run_ok _ _ _ _ _ (acquire_eq w1 s d1 Hd1 (ok_unlocked w1 s Ok1))).
  set (w2 := World.set_locked _ w1).
  assert (S2 : stable {[s]} w1 w2).
  { unfold w2. rewrite (ok_locked _ _ Ok1), union_empty_r_L.
    split; [by eapply set_locked_ok|by apply same_surfaces_extends|by apply same_frugal]. }
  assert (Ok2 : ok {[s]} w2) by apply S2. assert (Hd2 : World.data w2 s = Some d1) by done.
  apply (stable_after ∅ {[s]} w w2); [by eapply stable_trans|]. apply safe_assoc.
  eapply runs_step; [by apply (childless_runs w2 s d1)| |done]. intros [] w3 [S3 Hd3].
  apply (stable_after ∅ {[s]} w2 w3); [done|]. do 2 apply safe_assoc.
  eapply runs_step; [by apply (release_buffers_safe w3 s _ (stable_ok _ _ _ S3) Hd3)| |done].
  intros [] w4 S4. unfold runs. rewrite (run_ok _ _ _ _ _ (release_eq w4 s)).
  assert (S5 : stable ∅ w3 (World.set_locked (World.locked w4 ∖ {[s]}) w4)).
  { by apply unlock_stable. }
  eapply (stable_after ∅ ∅); [done|].
  apply (safe_for_each ∅ (λ _ w, is_Some (World.data w s))); [apply S5| | |].
  - apply Forall_forall. intros h _. by apply (stable_known _ _ _ _ S5).
  - intros h x1 x2 Hs. by eapply stable_known.
  - intros h x _ Hx Hk. by apply destruction_hook_safe.
Qed.

Lemma surface_destroyed_safe w s :
  ok ∅ w → is_Some (World.data w s) → s ∉ World.alive w → safe ∅ w (surface_destroyed s).
Proof.
  intros Hok Hd Ha. unfold safe, runs, surface_destroyed. rewrite run_get.
  destruct Hd as [d Hd]. destruct (data_surfaces w s d Hd) as (u&Hu&_).
  rewrite (run_expect _ _ _ _ Hu).
  eapply safe_bind; [apply surface_destroyed_applied_safe; [done|by exists d]|].
  intros _ w1 S1. eapply safe_bind; [apply cleanup_safe; [apply S1| |]|].
  - apply (stable_known _ _ _ _ S1). by exists d.
  - intros Hin. apply Ha, (extends_alive _ _ (stable_extends _ _ _ S1)); [|done]. by exists u.
  - intros _ w2 S2. apply untrack_stable, S2.
Qed.

End destroy.
