(* ===== verification/SurfaceTreeSpec.v ===== *)
(** * What the surface tree promises

    The calls that the compositor makes on the surface tree, as one type of
    operations: the requests of the clients, the end of objects, and what the
    other protocols do with surfaces. Runs of operations from the empty store
    keep the invariant, return but for one request, and release no buffer more
    often than it was attached. *)

From Stdlib Require Import Floats.SpecFloat Strings.String.
From S2P Require Import Prelude Forest Geometry Surface Cached CachedSpec Transaction TransactionSpec SurfaceTree SurfaceTreeInv SurfaceTreeOps SurfaceTreeCommit SurfaceTreeApply SurfaceTreeRequests SurfaceTreeDestroy.

(** The lists of hooks of a surface. *)
Inductive HookKind := PreCommit | PostCommit | Destruction.

Inductive Op : Type :=
| CreateSurface (client surface : Z)
| Request (surface : Z) (request : SurfaceRequest)
| ObjectGone (surface : Z)
| Destroyed (surface : Z)
| CreateRegion (region : Z)
| AddRectangle (client region : Z) (kind : RectangleKind.t) (x y width height : Z)
| GetSubsurface (subcompositor id surface parent : Z)
| Subsurface (client resource : Z) (request : SubsurfaceRequest)
| SubsurfaceDestroyed (resource : Z)
| GiveRole (surface : Z) (role : string)
| AddBlocker (surface : Z) (blocker : Barrier.t)
| SignalBarrier (barrier : Barrier.t)
| BlockerCleared (client : Z)
| AddHook (kind : HookKind) (surface callback : Z)
| RemoveHook (kind : HookKind) (surface hook : Z)
| Stage (surface : Z) (kind : CacheKind.t) (update : CachedState.t (CacheKind.state kind) → CachedState.t (CacheKind.state kind))
| SendState (surface scale transform : Z)
| SetClientScale (client : Z) (scale : spec_float).

Section spec.

Context {R : Type} `{Objects} `{!Handlers R}.

Implicit Types (w : World.t R) (d : PrivateSurfaceData.t).

(** The compositor's call for an operation. The library that keeps the objects
    drops one on [ObjectGone]; its callback comes later. *)
Definition exec (op : Op) : Run (World.t R) TreeError.t unit :=
  match op with
  | CreateSurface client surface => create_surface client surface
  | Request surface request => surface_request surface request
  | ObjectGone surface => modify (λ w, World.set_alive (World.alive w ∖ {[surface]}) w)
  | Destroyed surface => surface_destroyed surface
  | CreateRegion region => create_region region
  | AddRectangle client region kind x y width height =>
      region_request client region kind x y width height
  | GetSubsurface subcompositor id surface parent => get_subsurface subcompositor id surface parent
  | Subsurface client resource request => subsurface_request client resource request
  | SubsurfaceDestroyed resource => subsurface_destroyed resource
  | GiveRole surface role => attempt (set_role surface role);; mret tt
  | AddBlocker surface blocker => add_surface_blocker surface blocker
  | SignalBarrier barrier => signal_barrier barrier
  | BlockerCleared client => compositor_blocker_cleared client
  | AddHook PreCommit surface callback => add_pre_commit_hook surface callback;; mret tt
  | AddHook PostCommit surface callback => add_post_commit_hook surface callback;; mret tt
  | AddHook Destruction surface callback => add_destruction_hook surface callback;; mret tt
  | RemoveHook PreCommit surface hook => remove_pre_commit_hook surface hook
  | RemoveHook PostCommit surface hook => remove_post_commit_hook surface hook
  | RemoveHook Destruction surface hook => remove_destruction_hook surface hook
  | Stage surface kind update => update_cache surface kind update
  | SendState surface scale transform => send_surface_state surface scale transform
  | SetClientScale client scale => set_client_scale client scale
  end.

(** What the callers guarantee: requests come from objects that are alive,
    callbacks of dead objects come once the object is gone, and only the core
    protocol attaches buffers. *)
Definition valid w (op : Op) : Prop :=
  match op with
  | CreateSurface _ surface => World.surfaces w !! surface = None
  | Request surface request => surface ∈ World.alive w ∧ known_regions w request
  | Destroyed surface => is_Some (World.data w surface) ∧ surface ∉ World.alive w
  | GetSubsurface _ _ surface parent => surface ∈ World.alive w ∧ parent ∈ World.alive w
  | Subsurface _ resource _ | SubsurfaceDestroyed resource =>
      is_Some (World.subsurfaces w !! resource)
  | GiveRole surface _ | AddBlocker surface _ | AddHook _ surface _ | RemoveHook _ surface _
  | SendState surface _ _ => is_Some (World.data w surface)
  | Stage surface kind _ => is_Some (World.data w surface) ∧ kind ≠ CacheKind.Attributes
  | _ => True
  end.

(** The one request that brings the compositor down: a subsurface that is the
    topmost child of its parent is placed above itself. *)
Definition fatal w (op : Op) : bool :=
  match op with
  | Subsurface _ resource (PlaceAbove sibling) =>
      match World.subsurfaces w !! resource with
      | Some s => crashes w s Location.After sibling
      | None => false
      end
  | Subsurface _ resource (PlaceBelow sibling) =>
      match World.subsurfaces w !! resource with
      | Some s => crashes w s Location.Before sibling
      | None => false
      end
  | _ => false
  end.

(** The attachments of a buffer by an operation. *)
Definition attached (op : Op) (buffer : Z) : nat :=
  match op with
  | Request _ request => attaches request buffer
  | _ => 0
  end.

(** Runs of operations whose callers keep their side. *)
Inductive execution : World.t R → list Op → World.t R → Prop :=
| execution_nil w : execution w [] w
| execution_cons w op w1 ops w2 :
    valid w op → exec op w = (w1, Ok tt) → execution w1 ops w2 → execution w (op :: ops) w2.

#[export] Instance valid_dec w op : Decision (valid w op).
Proof. destruct op; simpl; try apply _. destruct request as [| | |[]|[]| | | | |]; simpl; apply _. Defined.

(** Runs are found by running. *)
Fixpoint run_ops w (ops : list Op) : option (World.t R) :=
  match ops with
  | [] => Some w
  | op :: ops =>
      if decide (valid w op) then
        match exec op w with
        | (w1, Ok tt) => run_ops w1 ops
        | _ => None
        end
      else None
  end.

Lemma run_ops_execution w ops w' : run_ops w ops = Some w' → execution w ops w'.
Proof.
  revert w. induction ops as [|op ops IH]; intros w; simpl; [intros [= ->]; constructor|].
  destruct (decide _) as [Hv|]; [|done].
  destruct (exec op w) as [w1 [[]| |]] eqn:Eop; [|done..]. intros Hrun.
  eapply execution_cons; [done|exact Eop|by apply IH].
Qed.

Context `{!Holder R, !HandlersOk R}.

(** ** Operations return and keep the invariant *)

Lemma stage_holds kind (c : CachedState.t (CacheKind.state kind)) b :
  kind ≠ CacheKind.Attributes → cached_holds b c = 0%nat.
Proof.
  intros Hk. unfold cached_holds.
  assert (Hz : ∀ v, state_holds b kind v = 0%nat) by (by destruct kind). rewrite !Hz.
  induction (CachedState.cache c) as [|e l IH]; simpl; [done|]. rewrite Hz. lia.
Qed.

Lemma safe_unit {A} w (m : Run (World.t R) TreeError.t A) :
  ok ∅ w → safe ∅ w m → safe ∅ w (m;; mret tt).
Proof. intros Hok Hm. eapply safe_bind; [done|]. intros a w' Hs. apply safe_ret, Hs. Qed.

Lemma object_gone_safe w s : ok ∅ w → safe ∅ w (exec (ObjectGone s)).
Proof.
  intros [Hf [Ho Ha] [Hcs Hce] Hsub Hl]. unfold safe, runs, exec, modify.
  split; [split; [|by split|by split|done|done]| |by apply same_frugal].
  - destruct Hf as (linked&Hal&Hf). exists linked. split; [simpl; set_solver|done].
  - split; [|simpl; set_solver|done]. intros x u Hx. exists u. by repeat split.
Qed.

Lemma region_request_safe w client region kind x y width height :
  ok ∅ w → safe ∅ w (region_request client region kind x y width height).
Proof.
  intros Hok. unfold region_request. apply safe_get.
  destruct (scale_rect _ _ _ _ _); [|by apply safe_ret]. by apply safe_set_regions.
Qed.

Lemma set_client_scale_safe w client scale : ok ∅ w → safe ∅ w (set_client_scale client scale).
Proof.
  intros Hok. unfold safe, runs, set_client_scale, modify.
  destruct (World.clients w !! client) as [e|]; [|by apply stable_refl].
  apply set_client_states_stable; [|done]. intros a Ha.
  by rewrite lookup_alter_is_Some.
Qed.

(** Every operation of a caller that keeps its side returns with the invariant,
    except for the fatal ones, and adds to the ledger what it attaches. *)
Lemma exec_good w op :
  ok ∅ w → valid w op →
  if fatal w op then (exec op w).2 = Panic
  else runs (exec op) w (λ _ w', good w w' (attached op)) (λ _ _, False).
Proof.
  intros Hok Hv. destruct op as [| | | | | |sc id c p|client r request|r|s role|s b| | |kind s cb|kind s h|s kind f| |];
    simpl in Hv; cbn [fatal].
  2: { destruct Hv as [Hs Hreg]. apply surface_request_good; [done| |done]. by eapply alive_known. }
  all: try (apply safe_good; cbn [exec]).
  - by apply create_surface_safe.
  - by apply object_gone_safe.
  - destruct Hv. by apply surface_destroyed_safe.
  - by apply safe_set_regions.
  - by apply region_request_safe.
  - destruct Hv. by apply get_subsurface_safe.
  - destruct Hv as [s Hs]. rewrite Hs.
    pose proof (subsurface_request_runs w client r s request Hok Hs) as Hrun. simpl in Hrun.
    destruct request; try case_match; try done; by apply safe_good.
  - by apply subsurface_destroyed_safe.
  - by apply safe_unit, safe_set_role.
  - by apply safe_add_blocker.
  - by apply safe_signal.
  - by apply safe_blocker_cleared.
  - destruct kind; apply safe_unit; [done|by apply safe_add_pre_commit_hook|done
      |by apply safe_add_post_commit_hook|done|by apply safe_add_destruction_hook].
  - destruct kind; by apply safe_writing.
  - destruct Hv as [[d Hd] Hk]. eapply safe_update_cache; [done|done|set_solver|].
    intros b c. by rewrite !stage_holds.
  - by apply safe_send_surface_state.
  - by apply set_client_scale_safe.
Qed.

Definition attached_by (ops : list Op) (buffer : Z) : nat :=
  sum_list_with (λ op, attached op buffer) ops.

Lemma execution_good w ops w' :
  ok ∅ w → execution w ops w' → good w w' (attached_by ops).
Proof.
  intros Hok Hex. induction Hex as [w|w op w1 ops w2 Hv Hop Hex IH].
  - apply stable_good. by apply stable_refl.
  - pose proof (exec_good w op Hok Hv) as Hg. unfold runs in Hg. rewrite Hop in Hg.
    destruct (fatal w op); [done|]. destruct Hg as (O1&E1&F1).
    destruct (IH O1) as (O2&E2&F2). split; [done|]. split; [by eapply extends_trans|].
    intros b. specialize (F1 b). specialize (F2 b). unfold attached_by in *. simpl. lia.
Qed.

Lemma store_new_ok rest : ok ∅ (World.new rest : World.t R).
Proof.
  split; [|by split|by split|done|done]. exists ∅. split; [done|].
  assert (Hn : ∀ s, shape (World.new rest : World.t R) !! s = None) by (intros s; unfold shape; by rewrite lookup_fmap).
  assert (Hown : ∀ s, owner (shape (World.new rest : World.t R)) s = None) by (intros s; unfold owner; by rewrite Hn).
  split; try (by intros ? ? ? Hs; rewrite Hn in Hs).
  - intros s. set_solver.
  - intros ? ? ? ? Hs. by rewrite Hn in Hs.
  - intros c s. by rewrite Hown.
  - intros v. constructor. intros o Ho. unfold flip, parent in Ho. by rewrite Hown in Ho.
Qed.

(** C1: every run of valid operations from an empty store keeps the surface tree
    well formed - parents and children agree, no surface is above itself, no
    surface appears twice among its siblings, no two surfaces share a pending
    transaction, and no mutex stays locked - and the next valid operation always
    returns without an error, whatever it is, unless it is the fatal one, which
    panics. *)
Theorem surface_tree_safe rest ops w :
  execution (World.new rest) ops w →
  ok ∅ w ∧
  ∀ op, valid w op →
    if fatal w op then (exec op w).2 = Panic else ∃ w', exec op w = (w', Ok tt).
Proof.
  intros Hex. destruct (execution_good _ _ _ (store_new_ok rest) Hex) as [Hok _].
  split; [done|]. intros op Hv. pose proof (exec_good w op Hok Hv) as Hg.
  destruct (fatal w op); [done|]. unfold runs in Hg.
  destruct (exec op w) as [w' [[]|e|]]; [by eexists|done|done].
Qed.

(** C9: in no run of operations is a buffer released more often than clients
    attached it. *)
Theorem surface_buffers_released_once rest ops w buffer :
  rest_holds rest buffer = 0%nat → execution (World.new rest) ops w →
  (Env.released buffer (World.env w) <= attached_by ops buffer)%nat.
Proof.
  intros Hrest Hex. destruct (execution_good _ _ _ (store_new_ok rest) Hex) as (_&_&Hl).
  specialize (Hl buffer). unfold ledger in Hl. simpl in Hl. unfold surfaces_hold in Hl. rewrite map_fold_empty in Hl.
  change (Env.released buffer (Env.mk [] ∅)) with 0%nat in Hl. lia.
Qed.

(** C7: [place_above] and [place_below] of a subsurface with respect to a sibling
    or the parent put it right next to it and keep the order of the others; a
    surface outside the family is refused; with respect to itself,
    [place_below] changes nothing, and [place_above] moves the subsurface up by
    one - or, when it is the topmost already, panics with the lock of the parent
    held. *)
Theorem place_exact w s d p dp location sibling :
  ok ∅ w → World.data w s = Some d → PrivateSurfaceData.parent d = Some p →
  World.data w p = Some dp →
  ∃ below above, PrivateSurfaceData.children dp = below ++ s :: above ∧ s ∉ below ++ above ∧
    let reordered children := World.write p (PrivateSurfaceData.set_children children dp) w in
    (sibling ∉ PrivateSurfaceData.children dp →
       reorder s location sibling w = (w, Err TreeError.NotSibling)) ∧
    (∀ a b, below ++ above = a ++ sibling :: b →
       reorder s location sibling w =
         (reordered (match location with
                     | Location.Before => a ++ s :: sibling :: b
                     | Location.After => a ++ sibling :: s :: b
                     end), Ok tt)) ∧
    (sibling = s →
       reorder s location sibling w =
         match location, above with
         | Location.Before, _ => (w, Ok tt)
         | Location.After, [] => (World.set_locked {[p]} w, Panic)
         | Location.After, next :: above => (reordered (below ++ next :: s :: above), Ok tt)
         end).
Proof.
  intros Hok Hd Hp Hdp. destruct (ok_forest _ _ Hok) as (linked&_&Hf).
  assert (Hshape : shape w !! p = Some (PrivateSurfaceData.parent dp, PrivateSurfaceData.children dp))
    by (by rewrite shape_data, Hdp).
  assert (Hin : s ∈ PrivateSurfaceData.children dp).
  { destruct (forest_parent _ _ Hf s p) as (_&p'&k&Hk&Hin); [by rewrite owner_data, Hd|]. by simplify_eq. }
  pose proof (forest_nodup _ _ Hf _ _ _ Hshape) as Hnd.
  pose proof (reorder_eq w s location sibling d Hok Hd) as Heq. rewrite Hp, Hdp in Heq.
  destruct (list_elem_of_split _ _ Hin) as (below&above&Hk). exists below, above.
  rewrite Hk in *. assert (Hs : s ∉ below ++ above).
  { rewrite <- Permutation_middle in Hnd. by apply NoDup_cons in Hnd as [? _]. }
  split; [done|]. split; [done|]. rewrite Heq. split; [|split].
  - intros Hno. by rewrite reorder_missing by (by right).
  - intros a b Hab.
    assert (Hsib : sibling ∈ below ++ above) by (rewrite Hab; set_solver).
    assert (Hnd' : NoDup (below ++ above)) by (rewrite <- Permutation_middle in Hnd; by apply NoDup_cons in Hnd as [_ ?]).
    destruct (reorder_other location s sibling (below ++ s :: above)) as (k&->&a'&b'&Hab'&->);
      [done|done|set_solver|by intros ->|].
    rewrite without_split, Hab in Hab' by set_solver. rewrite Hab in Hnd'.
    destruct (split_unique sibling a b a' b') as [-> ->]; [| |done|done].
    + rewrite <- Permutation_middle in Hnd'. apply NoDup_cons in Hnd' as [? _]. set_solver.
    + rewrite Hab', <- Permutation_middle in Hnd'. apply NoDup_cons in Hnd' as [? _]. set_solver.
  - intros ->. rewrite reorder_self by set_solver. destruct location; [|by destruct above].
    rewrite <- Hk, write_id; [done|]. by destruct dp.
Qed.

End spec.

(** ** Concrete runs *)

Module Concrete.

#[export] Instance objects6 : Objects := {| version := λ _, 6; protocol_id := id |}.

(** Handlers that note which commits were applied. *)
#[export] Instance notes : Handlers (list Z) := {|
  commit_hook := λ callback s, mret tt;
  destruction_hook := λ callback s, mret tt;
  surface_commit_applied := λ s, modify (λ w, World.set_rest (World.rest w ++ [s]) w);
  surface_destroyed_applied := λ s, mret tt;
|}.

#[export] Instance holds_nothing : Holder (list Z) := {| rest_holds := λ _ _, 0%nat |}.

#[export] Instance notes_ok : HandlersOk (list Z).
Proof.
  split; intros; try by apply safe_ret.
  unfold safe, runs. cbn.
  destruct H as [Hf [Ho Ha] [Hcs Hce] Hsub Hl].
  split; [split; [done|by split|by split|done|done]| |]; [by apply same_surfaces_extends|].
  intros b. unfold ledger. simpl. lia.
Qed.

(** A client with a window, a subsurface of it and another window. *)
Definition family : list Op :=
  [CreateSurface 9 1; CreateSurface 9 2; CreateSurface 9 3; GetSubsurface 5 50 2 1].

Definition store_after (ops : list Op) : World.t (list Z) :=
  default (World.new []) (run_ops (World.new []) ops).

Definition runs_through (ops : list Op) : bool :=
  match run_ops (World.new []) ops with Some _ => true | None => false end.

Lemma store_execution ops : runs_through ops = true → execution (World.new []) ops (store_after ops).
Proof.
  unfold runs_through, store_after. intros Hrun. apply run_ops_execution.
  by destruct (run_ops (World.new []) ops).
Qed.

Lemma store_ok ops : runs_through ops = true → ok ∅ (store_after ops).
Proof. intros Hrun%store_execution. exact (proj1 (execution_good _ _ _ (store_new_ok []) Hrun)). Qed.

Lemma surface_tree_safe_witness :
  let w := store_after family in
  valid w (Subsurface 9 50 (PlaceAbove 2)) ∧ (exec (Subsurface 9 50 (PlaceAbove 2)) w).2 = Panic ∧
  ∃ w', exec (Request 2 Commit) w = (w', Ok tt).
Proof.
  assert (Hex : execution (World.new []) family (store_after family)).
  { apply store_execution. vm_compute. reflexivity. }
  destruct (surface_tree_safe [] family _ Hex) as [_ Hop].
  assert (Hv : valid (store_after family) (Subsurface 9 50 (PlaceAbove 2))).
  { eapply bool_decide_eq_true_1. vm_compute. reflexivity. }
  assert (Hv2 : valid (store_after family) (Request 2 Commit)).
  { eapply bool_decide_eq_true_1. vm_compute. reflexivity. }
  pose proof (Hop _ Hv) as Hp. pose proof (Hop _ Hv2) as Hc.
  split; [exact Hv|]. split; [|exact Hc].
  assert (Hf : fatal (store_after family) (Subsurface 9 50 (PlaceAbove 2)) = true)
    by (vm_compute; reflexivity).
  rewrite Hf in Hp. exact Hp.
Defined.

(** A buffer is attached twice, and replaced once it was applied. *)
Definition replacing : list Op :=
  [CreateSurface 9 1; Request 1 (Attach (Some 70) 0 0); Request 1 Commit;
   Request 1 (Attach (Some 71) 0 0); Request 1 Commit].

Lemma surface_buffers_released_once_witness :
  Env.released 70 (World.env (store_after replacing)) = 1%nat ∧
  (Env.released 70 (World.env (store_after replacing)) <= attached_by replacing 70)%nat.
Proof.
  split; [vm_compute; reflexivity|].
  apply (surface_buffers_released_once [] replacing (store_after replacing) 70); [reflexivity|].
  apply store_execution. vm_compute. reflexivity.
Defined.

(** Two subsurfaces of one window. *)
Definition siblings : list Op := family ++ [GetSubsurface 5 51 3 1].

Lemma place_exact_witness :
  let w := store_after siblings in
  reorder 2 Location.After 7 w = (w, Err TreeError.NotSibling) ∧
  reorder 2 Location.Before 2 w = (w, Ok tt).
Proof.
  assert (Hok : ok ∅ (store_after siblings)).
  { apply store_ok. vm_compute. reflexivity. }
  destruct (World.data (store_after siblings) 2) as [d|] eqn:Ed; [|vm_compute in Ed; discriminate].
  destruct (World.data (store_after siblings) 1) as [dp|] eqn:Edp; [|vm_compute in Edp; discriminate].
  assert (Hp : PrivateSurfaceData.parent d = Some 1).
  { vm_compute in Ed. injection Ed as <-. reflexivity. }
  assert (Hn : 7 ∉ PrivateSurfaceData.children dp).
  { vm_compute in Edp. injection Edp as <-. eapply bool_decide_eq_true_1. vm_compute. reflexivity. }
  destruct (place_exact _ 2 d 1 dp Location.After 7 Hok Ed Hp Edp) as (?&?&_&_&Hmissing&_).
  destruct (place_exact _ 2 d 1 dp Location.Before 2 Hok Ed Hp Edp) as (?&?&_&_&_&_&Hself).
  split; [exact (Hmissing Hn)|exact (Hself eq_refl)].
Defined.

End Concrete.
