(* ===== verification/SurfaceTreeSync.v ===== *)
(** * What a commit shows

    A commit of a synchronised surface is only remembered; a commit of any other
    surface gathers what its synchronised subtree remembers into one transaction,
    or is applied at once when there is nothing to wait for. *)

From Stdlib Require Import Floats.SpecFloat Strings.String.
From S2P Require Import Prelude Forest Geometry Surface Cached CachedSpec Transaction TransactionSpec SurfaceTree SurfaceTreeInv SurfaceTreeOps SurfaceTreeCommit SurfaceTreeApply SurfaceTreeSpec.

Section sync.

Context {R : Type} `{Objects} `{!Handlers R} `{!Holder R} `{!HandlersOk R}.

Implicit Types (w : World.t R) (d : PrivateSurfaceData.t).

Definition cache_of d : MultiCache.t := SurfaceData.cached_state (PrivateSurfaceData.public d).

(** Everything that is shown of the surfaces is the same. *)
Definition same_current w w' : Prop :=
  ∀ x d, World.data w x = Some d →
    ∃ d', World.data w' x = Some d' ∧
      ∀ kind, current_of kind (cache_of d') = current_of kind (cache_of d).

Lemma same_current_trans w1 w2 w3 : same_current w1 w2 → same_current w2 w3 → same_current w1 w3.
Proof.
  intros H1 H2 x d Hd. destruct (H1 x d Hd) as (d'&Hd'&E1). destruct (H2 x d' Hd') as (d2&Hd2&E2).
  exists d2. split; [done|]. intros kind. by rewrite E2.
Qed.

Lemma committed_current full d d' kind :
  committed full d d' → current_of kind (cache_of d') = current_of kind (cache_of d).
Proof.
  intros Hc. pose proof (committed_cache _ _ _ Hc) as Hcache. unfold cache_of. destruct full.
  - destruct Hcache as [env ->]. apply commit_id_current.
  - by rewrite Hcache.
Qed.

Lemma gathers_current full S target w w' :
  (∀ x, Decision (S x)) → gathers full S target w w' → same_current w w'.
Proof.
  intros HS G x d Hd. destruct (HS x) as [Hx|Hx].
  - destruct (gathers_data_inside _ _ _ _ _ _ _ G Hd Hx) as (d'&Hd'&Hc).
    exists d'. split; [done|]. intros kind. by eapply committed_current.
  - exists d. split; [|done]. by rewrite (gathers_data_outside _ _ _ _ _ _ G Hx).
Qed.

Lemma kept_current w s d st :
  World.data w s = Some d → same_current w (kept_world w s d st).
Proof.
  intros Hd x dx Hdx. destruct (decide (x = s)) as [->|Hx].
  - rewrite Hd in Hdx. injection Hdx as <-. exists (entered (queued d (World.env w))).
    split; [by apply kept_data|]. intros kind. apply commit_id_current.
  - exists dx. by rewrite kept_other.
Qed.

Lemma kept_frame w s d st : same_frame w (kept_world w s d st).
Proof. by split. Qed.

(** The next commit id of a surface is above those of its queued updates; a
    commit keeps that until the counter of 64 bits wraps around. *)
Definition next_id_fresh d : Prop := ids_below (PrivateSurfaceData.current_commit d) (cache_of d).

Lemma queued_fresh d env :
  next_id_fresh d →
  cache_of (queued d env) = queue_pending (PrivateSurfaceData.current_commit d) <$> cache_of d ∧
  queued_env d env = env.
Proof. intros Hd. unfold queued, queued_env, cache_of in *. simpl. by rewrite commit_queues. Qed.

Lemma entered_fresh d env :
  next_id_fresh d → 0 <= PrivateSurfaceData.current_commit d < U64.MAX →
  next_id_fresh (entered (queued d env)).
Proof.
  intros Hd Hn. unfold next_id_fresh. change (cache_of (entered (queued d env))) with (cache_of (queued d env)).
  rewrite (proj1 (queued_fresh d env Hd)). simpl.
  replace (U64.wrapping_succ (PrivateSurfaceData.current_commit d)) with (PrivateSurfaceData.current_commit d + 1).
  - by apply ids_below_commit.
  - unfold U64.wrapping_succ. ints. rewrite Z.mod_small; lia.
Qed.

(** C3: a commit of a synchronised surface calls nobody, changes the current
    state of no surface and, as long as its commit ids have not wrapped around,
    sends nothing: no buffer is released, no point signalled, no feedback
    discarded and no barrier changed. Every pending state of the surface goes to
    the end of its queue under the commit id, what stays pending is what a commit
    leaves, and the commit is noted in the surface's pending transaction. *)
Theorem synchronized_commit_hidden w s d :
  ok ∅ w → World.data w s = Some d → synchronized DEPTH w s = true → next_id_fresh d →
  ∃ w', commit s w = (w', Ok tt) ∧ same_frame w w' ∧ same_current w w' ∧
    World.env w' = World.env w ∧
    ∃ d' st, World.data w' s = Some d' ∧
      cache_of d' = queue_pending (PrivateSurfaceData.current_commit d) <$> cache_of d ∧
      (0 <= PrivateSurfaceData.current_commit d < U64.MAX → next_id_fresh d') ∧
      owned (World.heap w') (PrivateSurfaceData.pending_transaction d') st ∧
      commits_at (ts_surfaces st) s (PrivateSurfaceData.current_commit d).
Proof.
  intros Hok Hd Hsync Hfresh. destruct (data_surfaces _ _ _ Hd) as (u&Hu&<-).
  destruct (commit_split w s u Hok Hu) as (w1&st1&Hc&G&_&Hd1&_&Hst1).
  rewrite Hsync in *. set (d := SurfaceUserData.inner u) in *.
  rewrite Hc, (commit_locked_eq w1 s _ true d st1 Hd1 Hst1). simpl.
  eexists. split; [apply release_eq|]. set (w2 := kept_world w1 s d st1).
  assert (Hl : World.locked w2 = {[s]}) by apply (frame_locked _ _ (gathers_frame _ _ _ _ _ G)).
  rewrite Hl, difference_diag_L. split; [|split; [|split]].
  - destruct (gathers_frame _ _ _ _ _ G). split; try done. by rewrite (ok_locked _ _ Hok).
  - intros x dx Hdx.
    assert (Hcur : same_current (World.set_locked {[s]} w) w2).
    { eapply same_current_trans; [|by apply kept_current]. eapply gathers_current; [|exact G].
      intros y. eapply reached_children_dec, Hok. }
    exact (Hcur x dx Hdx).
  - transitivity (queued_env d (World.env w1)); [done|]. rewrite (proj2 (queued_fresh _ _ Hfresh)).
    by apply (gathers_quiet _ _ _ _ _ G).
  - eexists _, _. split; [exact (kept_data w1 s d st1 Hd1)|].
    split; [exact (proj1 (queued_fresh d (World.env w1) Hfresh))|]. split; [by apply entered_fresh|].
    split; [exact (kept_cell w1 s d st1)|]. apply insert_surface_here.
Qed.

(** Children that are not synchronised stay out of a commit. *)
Lemma idle_children fuel s own l w :
  s ∈ World.locked w →
  (∀ c, c ∈ l → c ≠ s → c ∉ World.locked w ∧ flagged w c = false ∧ is_Some (World.data w c)) →
  for_each (commit_child fuel s own false) l w = (w, Ok tt).
Proof.
  intros Hs. induction l as [|c l IH]; intros Hl; cbn [for_each]; [done|].
  assert (Hc : commit_child fuel s own false c w = (w, Ok tt)).
  { unfold commit_child. destruct (decide (c = s)) as [->|Hn]; [done|].
    destruct (Hl c) as (Hf&Hflag&[d Hd]); [by left|done|].
    rewrite (run_ok _ _ _ _ _ (acquire_eq w c d Hd Hf)).
    assert (Hsd : sync_flag d = false) by (revert Hflag; unfold flagged; by rewrite Hd).
    rewrite Hsd. simpl. rewrite release_eq. simpl. rewrite unlock_again by done. by destruct w. }
  rewrite (run_ok _ _ _ _ _ Hc). apply IH. intros c' Hc'. apply Hl. by right.
Qed.

Lemma commit_idle w s u :
  ok ∅ w → World.surfaces w !! s = Some u → let d := SurfaceUserData.inner u in
  synchronized DEPTH w s = false →
  (∀ c, c ∈ PrivateSurfaceData.children d → c ≠ s → flagged w c = false) →
  commit s w = commit_locked s (SurfaceUserData.client_state u) false (World.set_locked {[s]} w).
Proof.
  intros Hok Hu d Hsync Hflags.
  assert (Hd : World.data w s = Some d) by (unfold World.data; by rewrite Hu).
  unfold commit, effectively_sync.
  rewrite (run_ok _ _ _ _ _ (effectively_sync_eq DEPTH w s Hok (ex_intro _ d Hd))).
  rewrite run_get, (run_expect _ _ _ _ Hu).
  assert (Hl : s ∉ World.locked w) by (rewrite (ok_locked _ _ Hok); set_solver).
  rewrite (run_ok _ _ _ _ _ (acquire_eq w s d Hd Hl)), Hsync.
  rewrite (ok_locked _ _ Hok), union_empty_r_L.
  rewrite (run_ok _ _ (World.set_locked {[s]} w) (World.set_locked {[s]} w) tt); [done|].
  apply idle_children; [simpl; set_solver|]. intros c Hc Hn. split; [simpl; set_solver|].
  split; [by apply Hflags|]. destruct (ok_forest _ _ Hok) as (linked&_&Hf).
  assert (Hin : c ∈ linked).
  { eapply (child_linked linked (shape w) Hf s); [|done]. by rewrite shape_data, Hd. }
  destruct (forest_known _ _ Hf c Hin) as [v Hv]. rewrite shape_data in Hv.
  simpl. unfold World.data in *. simpl. by destruct (World.surfaces w !! c).
Qed.

(** C4: a commit of a surface that is not synchronised, whose own transaction and
    synchronised children have nothing to wait for, is applied at once: all
    updates of the surface that still wait in earlier transactions, blocked or
    not, are merged into the current state together with the new one. *)
Theorem lone_commit_applies w s u st :
  ok ∅ w → World.surfaces w !! s = Some u → let d := SurfaceUserData.inner u in
  synchronized DEPTH w s = false →
  (∀ c, c ∈ PrivateSurfaceData.children d → c ≠ s → flagged w c = false) →
  owned (World.heap w) (PrivateSurfaceData.pending_transaction d) st → nothing_pending st = true →
  ∃ w', commit s w = (invoke_post_commit_hooks s;; surface_commit_applied s) w' ∧
    World.data w' s = Some (flushed d (World.env w)) ∧
    (∀ kind, queue_of kind (cache_of (flushed d (World.env w))) = []) ∧
    (∀ x, x ≠ s → World.data w' x = World.data w x) ∧
    World.client_states w' = World.client_states w.
Proof.
  intros Hok Hu d Hsync Hflags Hst Hnone.
  assert (Hd : World.data w s = Some d) by (unfold World.data; by rewrite Hu).
  pose proof (commit_idle w s u Hok Hu Hsync Hflags) as ->.
  rewrite (commit_locked_eq (World.set_locked {[s]} w) s _ false d st Hd Hst), Hnone. simpl.
  set (w0 := World.set_locked {[s]} w).
  rewrite (run_ok _ _ _ _ _ (flush_eq w0 s d Hd)), (run_ok _ _ _ _ _ (release_eq _ s)).
  eexists. split; [reflexivity|]. split; [by eapply (data_write_same (World.set_env _ w0))|].
  split; [intros kind; apply commit_none_queue|]. split; [|done].
  intros x Hx. by apply (data_write_other (World.set_env _ w0)).
Qed.

Lemma commits_pending (l : TransactionState Barrier.t) x k :
  commits_at (ts_surfaces l) x k → nothing_pending l = false.
Proof.
  intros (j&_&Hj). unfold nothing_pending. rewrite bool_decide_false; [done|].
  intros Hnil. rewrite Hnil in Hj. by apply elem_of_nil in Hj.
Qed.

(** What was pending stays pending, and a gathered commit is pending. *)
Lemma gathered_pending_more w S st st' :
  gathered true w S st st' →
  nothing_pending st = false ∨ (∃ x d, S x ∧ World.data w x = Some d ∧ x ∈ World.alive w) →
  nothing_pending st' = false.
Proof.
  intros G [Hst|(x&d&Hx&Hd&Ha)].
  - destruct (ts_surfaces st) as [|[x k] l] eqn:Es.
    + unfold nothing_pending in *. rewrite Es in Hst. simpl in Hst.
      destruct (ts_blockers st) as [|b bs] eqn:Eb; [done|].
      assert (Hb : b ∈ ts_blockers st') by (apply (gathered_blockers _ _ _ _ _ G); rewrite Eb; do 2 left).
      destruct (ts_blockers st'); [by apply elem_of_nil in Hb|]. apply andb_false_r.
    + apply (commits_pending _ x k), (gathered_target _ _ _ _ _ G). exists k.
      split; [lia|]. rewrite Es. by left.
  - eapply commits_pending, (gathered_commits _ _ _ _ _ G eq_refl); done.
Qed.

(** The transaction of a locked surface goes to the queue of its client. *)
Lemma queue_transaction_eq w s d cs st :
  ok {[s]} w → World.data w s = Some d →
  owned (World.heap w) (PrivateSurfaceData.pending_transaction d) st →
  ∃ w', queue_transaction s cs w =
      (ready ← take_ready_of cs (λ queue, Some (queue_push
         {| tx_surfaces := ts_surfaces st; tx_blockers := ts_blockers st |}
         (default queue_default queue)));
       for_each apply_transaction ready) w' ∧
    same_current w w' ∧ (∀ x, x ≠ s → World.data w' x = World.data w x) ∧
    World.client_states w' = World.client_states w ∧
    ∃ f, World.data w' s = Some (PrivateSurfaceData.set_pending_transaction f d).
Proof.
  intros Hok Hd Hst. unfold queue_transaction.
  destruct (take_finalize_eq w s d st {[s]} (λ transaction,
    release s;;
    ready ← take_ready_of cs (λ queue, Some (queue_push transaction (default queue_default queue)));
    for_each apply_transaction ready) Hok Hd Hst) as (w1&->&_&f&Hds&Hother&Hcs&_).
  rewrite (run_ok _ _ _ _ _ (release_eq w1 s)). eexists. split; [reflexivity|].
  split; [|by split_and!; [..|exists f]]. intros x dx Hdx. destruct (decide (x = s)) as [->|Hx].
  - exists (PrivateSurfaceData.set_pending_transaction f d). split; [done|].
    by assert (dx = d) as -> by congruence.
  - exists dx. split; [|done]. by rewrite <- Hdx, <- Hother.
Qed.

(** The surface was committed under its id: its pending state is queued. *)
Definition queued_in w' x dx : Prop :=
  ∃ dx' env, World.data w' x = Some dx' ∧
    cache_of dx' = (MultiCache.commit (Some (PrivateSurfaceData.current_commit dx)) (cache_of dx) env).1 ∧
    (next_id_fresh dx →
       cache_of dx' = queue_pending (PrivateSurfaceData.current_commit dx) <$> cache_of dx).

Lemma queued_in_commit w' x dx dx' env :
  World.data w' x = Some dx' →
  cache_of dx' = (MultiCache.commit (Some (PrivateSurfaceData.current_commit dx)) (cache_of dx) env).1 →
  queued_in w' x dx.
Proof. intros Hdx' E. exists dx', env. do 2 (split; [done|]). intros Hf. by rewrite E, commit_queues. Qed.

(** C2: any other commit of a surface that is not synchronised - one whose own
    transaction has something pending, or with a living surface in its
    synchronised subtree - gathers one transaction: the surface itself, and every
    living surface below one of its synchronised children. Of each of them,
    committed by its client or not, the state that is pending at that moment goes
    to the queue under its commit id; the transaction names these ids and waits
    for exactly the blockers of all of them, and nothing is shown before it is
    ready. *)
Theorem commit_gathers_subtree w s u st :
  ok ∅ w → World.surfaces w !! s = Some u → let d := SurfaceUserData.inner u in
  synchronized DEPTH w s = false →
  owned (World.heap w) (PrivateSurfaceData.pending_transaction d) st →
  let subtree := gathered_children false w s d in
  nothing_pending st = false ∨ (∃ x dx, subtree x ∧ World.data w x = Some dx ∧ x ∈ World.alive w) →
  ∃ transaction w',
    commit s w =
      (ready ← take_ready_of (SurfaceUserData.client_state u)
         (λ queue, Some (queue_push transaction (default queue_default queue)));
       for_each apply_transaction ready) w' ∧
    same_current w w' ∧ World.client_states w' = World.client_states w ∧
    queued_in w' s d ∧
    commits_at (tx_surfaces transaction) s (PrivateSurfaceData.current_commit d) ∧
    (∀ x dx, subtree x → World.data w x = Some dx →
       queued_in w' x dx ∧
       (x ∈ World.alive w →
          commits_at (tx_surfaces transaction) x (PrivateSurfaceData.current_commit dx))) ∧
    (∀ b, b ∈ tx_blockers transaction ↔ b ∈ ts_blockers st ∨
       ∃ x dx sx, subtree x ∧ World.data w x = Some dx ∧
         owned (World.heap w) (PrivateSurfaceData.pending_transaction dx) sx ∧ b ∈ ts_blockers sx).
Proof.
  intros Hok Hu d Hsync Hst subtree Hmore.
  destruct (commit_split w s u Hok Hu) as (w1&st1&Hc&G&S1&Hd1&Hns&Hst1).
  rewrite Hsync in *. simpl in G. fold d in Hc, G, Hd1, Hst1, Hns. fold subtree in G, Hns.
  destruct (gathers_target _ _ _ _ _ G st Hst) as (st1'&Hst1'&Hg).
  assert (st1' = st1) as -> by (unfold owned in *; congruence).
  rewrite Hc, (commit_locked_eq w1 s _ false d st1 Hd1 Hst1).
  rewrite (gathered_pending_more _ _ _ _ Hg Hmore). cbn [negb andb].
  set (w2 := kept_world w1 s d st1).
  pose proof (kept_data w1 s d st1 Hd1) as Hd2. pose proof (kept_cell w1 s d st1) as Hst2.
  assert (Ok2 : ok {[s]} w2) by (by eapply stable_ok, kept_stable; [apply S1|..]).
  destruct (queue_transaction_eq w2 s _ (SurfaceUserData.client_state u) _ Ok2 Hd2 Hst2)
    as (w3&->&Hcur&Hother&Hcs&f&Hself).
  assert (Hc1 : same_current w w1).
  { intros x dx Hdx. eapply (gathers_current true subtree _ (World.set_locked {[s]} w)); [|done|done].
    intros y. eapply reached_children_dec, Hok. }
  eexists _, w3. split; [reflexivity|]. split; [|split; [|split; [|split; [|split]]]].
  - eapply same_current_trans; [exact Hc1|]. eapply same_current_trans; [by apply kept_current|done].
  - rewrite Hcs. apply (frame_client_states _ _ (gathers_frame _ _ _ _ _ G)).
  - eapply (queued_in_commit _ _ _ _ (World.env w1)); [exact Hself|reflexivity].
  - apply insert_surface_here.
  - intros x dx Hx Hdx. split.
    + destruct (gathers_data_inside _ _ _ _ _ x dx G Hdx Hx) as (dx'&Hdx'&Hcom).
      assert (Hxs : x ≠ s) by (by intros ->).
      destruct (committed_cache _ _ _ Hcom) as [env Henv].
      eapply (queued_in_commit _ _ _ dx' env); [|done]. rewrite Hother by done. unfold w2.
      by rewrite kept_other.
    + intros Ha. apply insert_surface_commits. by apply (gathered_commits _ _ _ _ _ Hg eq_refl x dx).
  - intros b. rewrite (gathered_blockers _ _ _ _ _ Hg b). naive_solver.
Qed.

End sync.

(** ** Concrete commits *)

Import Concrete.

Definition shown (w : World.t (list Z)) (s : Z) : option (option BufferAssignment.t) :=
  (λ d, SurfaceAttributes.buffer (current_of CacheKind.Attributes (cache_of d))) <$> World.data w s.

Lemma synchronized_commit_hidden_witness :
  let w := store_after (family ++ [Request 2 (Attach (Some 70) 0 0)]) in
  ∃ w', commit 2 w = (w', Ok tt) ∧ same_current w w' ∧ World.rest w' = World.rest w ∧
    World.env w' = World.env w.
Proof.
  set (w := store_after _). assert (Hok : ok ∅ w) by (apply store_ok; vm_compute; reflexivity).
  destruct (World.data w 2) as [d|] eqn:Ed; [|vm_compute in Ed; discriminate].
  assert (Hs : synchronized DEPTH w 2 = true) by (vm_compute; reflexivity).
  assert (Hf : next_id_fresh d).
  { vm_compute in Ed. injection Ed as <-. repeat constructor. }
  destruct (synchronized_commit_hidden w 2 d Hok Ed Hs Hf) as (w'&Hw&Hframe&Hcur&Henv&_).
  exists w'. split; [exact Hw|]. split; [exact Hcur|]. split; [exact (frame_rest _ _ Hframe)|exact Henv].
Defined.

(** A buffer that is committed behind a barrier, by a surface of its own. *)
Definition blocked : list Op :=
  [CreateSurface 9 3; Request 3 (Attach (Some 70) 0 0); AddBlocker 3 (Barrier.mk 0); Request 3 Commit].

(** The next commit shows the buffer, although the barrier still blocks. *)
Lemma lone_commit_applies_witness :
  let w := store_after blocked in
  shown w 3 = Some None ∧
  ∃ w', commit 3 w = (invoke_post_commit_hooks 3;; surface_commit_applied 3) w' ∧
    shown w' 3 = Some (Some (BufferAssignment.NewBuffer 70)) ∧
    World.client_states w' = World.client_states w.
Proof.
  set (w := store_after _). assert (Hok : ok ∅ w) by (apply store_ok; vm_compute; reflexivity).
  destruct (World.surfaces w !! 3) as [u|] eqn:Eu; [|vm_compute in Eu; discriminate].
  assert (Hs : synchronized DEPTH w 3 = false) by (vm_compute; reflexivity).
  assert (Hst : ∃ st, owned (World.heap w) (PrivateSurfaceData.pending_transaction
    (SurfaceUserData.inner u)) st ∧ nothing_pending st = true).
  { vm_compute in Eu. injection Eu as <-. eexists. split; vm_compute; reflexivity. }
  destruct Hst as (st&Hst&Hn).
  assert (Hc : ∀ c, c ∈ PrivateSurfaceData.children (SurfaceUserData.inner u) → c ≠ 3 →
    flagged w c = false).
  { intros c Hc Hc3. vm_compute in Eu. injection Eu as <-. apply list_elem_of_singleton in Hc.
    destruct (Hc3 Hc). }
  destruct (lone_commit_applies w 3 u st Hok Eu Hs Hc Hst Hn) as (w'&Hw&Hd&_&_&Hcs).
  split; [vm_compute; reflexivity|]. exists w'. split; [exact Hw|]. split; [|exact Hcs].
  unfold shown. rewrite Hd. vm_compute in Eu. injection Eu as <-. vm_compute. reflexivity.
Defined.

(** The subsurface has committed nothing, and is committed with its parent. *)
Lemma commit_gathers_subtree_witness :
  let w := store_after (family ++ [Request 2 (Attach (Some 70) 0 0)]) in
  ∃ (transaction : Transaction Barrier.t) w', same_current w w' ∧
    (∃ d, World.data w 1 = Some d ∧ queued_in w' 1 d) ∧
    commits_at (tx_surfaces transaction) 1 0 ∧
    commits_at (tx_surfaces transaction) 2 0.
Proof.
  set (w := store_after _). assert (Hok : ok ∅ w) by (apply store_ok; vm_compute; reflexivity).
  destruct (World.surfaces w !! 1) as [u|] eqn:Eu; [|vm_compute in Eu; discriminate].
  destruct (World.data w 2) as [d|] eqn:Ed; [|vm_compute in Ed; discriminate].
  assert (Hs : synchronized DEPTH w 1 = false) by (vm_compute; reflexivity).
  assert (Hst : ∃ st, owned (World.heap w) (PrivateSurfaceData.pending_transaction
    (SurfaceUserData.inner u)) st).
  { vm_compute in Eu. injection Eu as <-. eexists. vm_compute. reflexivity. }
  destruct Hst as (st&Hst).
  assert (Hin : gathered_children false w 1 (SurfaceUserData.inner u) 2).
  { vm_compute in Eu. injection Eu as <-. exists 2. split; [right; left|].
    split; [discriminate|]. split; [vm_compute; reflexivity|apply rtc_refl]. }
  assert (Ha : 2 ∈ World.alive w) by (eapply bool_decide_eq_true_1; vm_compute; reflexivity).
  destruct (commit_gathers_subtree w 1 u st Hok Eu Hs Hst) as (tx&w'&_&Hcur&_&Hqueued&Hself&Hsub&_).
  { right. exact (ex_intro _ 2 (ex_intro _ d (conj Hin (conj Ed Ha)))). }
  exists tx, w'. split; [exact Hcur|]. split; [|split].
  - exists (SurfaceUserData.inner u). split; [unfold World.data; by rewrite Eu|exact Hqueued].
  - replace 0 with (PrivateSurfaceData.current_commit (SurfaceUserData.inner u)); [exact Hself|].
    vm_compute in Eu. injection Eu as <-. reflexivity.
  - replace 0 with (PrivateSurfaceData.current_commit d); [exact (proj2 (Hsub 2 d Hin Ed) Ha)|].
    vm_compute in Ed. injection Ed as <-. reflexivity.
Defined.
