(* ===== verification/SurfaceTreeTraversal.v ===== *)
(** * Walking a surface tree

    The walks over a surface and everything below it, for closures that visit
    every surface: they return, they leave no mutex locked, they visit every
    surface of the subtree once, and the downward walk is the upward walk
    backwards. *)

From Stdlib Require Import Floats.SpecFloat Strings.String.
From S2P Require Import Prelude Forest Geometry Surface Cached CachedSpec Transaction TransactionSpec SurfaceTree SurfaceTreeInv SurfaceTreeOps SurfaceTreeCommit SurfaceTreeApply SurfaceTreeSpec.

(** A list in one direction or the other. *)
Definition order {A} (reverse : bool) (l : list A) : list A := if reverse then rev l else l.

Lemma order_bind {A B} reverse (f : A → list B) l :
  order reverse (l ≫= f) = order reverse l ≫= λ a, order reverse (f a).
Proof.
  destruct reverse; [|done]. simpl. induction l as [|a l IH]; [done|].
  change ((a :: l) ≫= f) with (f a ++ (l ≫= f)). rewrite rev_app_distr, IH. simpl.
  rewrite bind_app. simpl. by rewrite app_nil_r.
Qed.

Lemma order_elem {A} reverse (l : list A) a : a ∈ order reverse l ↔ a ∈ l.
Proof. destruct reverse; [|done]. simpl. by rewrite !list_elem_of_In, <- in_rev. Qed.

Section traversal.

Context {R : Type} {S T : Type}.

(** What a surface hands to its children, and what a visit does. *)
Context (hand : Z → SurfaceData.t → T → T).
Context (visit : Z → SurfaceData.t → T → S → S).

Implicit Types (w : World.t R) (d : PrivateSurfaceData.t).

Notation Walk := (map (R := R)
  (λ s public t acc, (TraversalAction.DoChildren (hand s public t), acc))
  visit (λ _ _ _ acc, (true, acc))).

(** The surfaces of a subtree from the bottom to the top, each with its data and
    what was handed to it. *)
Fixpoint visits (fuel : nat) w (s : Z) (t : T) : list (Z * SurfaceData.t * T) :=
  match fuel with
  | O => []
  | Datatypes.S fuel =>
      match World.data w s with
      | None => []
      | Some d =>
          PrivateSurfaceData.children d ≫= λ c,
            if decide (c = s) then [(s, PrivateSurfaceData.public d, t)]
            else visits fuel w c (hand s (PrivateSurfaceData.public d) t)
      end
  end.

Definition visit_all (acc : S) (l : list (Z * SurfaceData.t * T)) : S :=
  foldl (λ acc '(s, public, t), visit s public t acc) acc l.

Lemma visits_locked fuel l w s t : visits fuel (World.set_locked l w) s t = visits fuel w s t.
Proof.
  revert s t. induction fuel as [|fuel IH]; intros s t; [done|]. simpl.
  rewrite data_set_locked. destruct (World.data w s) as [d|]; [|done].
  apply list_bind_ext; [|done]. intros c. destruct (decide (c = s)); [done|apply IH].
Qed.

Lemma map_children_eq (step : Z → S → Run (World.t R) TreeError.t (bool * S)) part l acc w :
  (∀ c acc, c ∈ l → step c acc w = (w, Ok (true, visit_all acc (part c)))) →
  map_children step l acc w = (w, Ok (true, visit_all acc (l ≫= part))).
Proof.
  revert acc. induction l as [|c l IH]; intros acc Hstep; [done|]. cbn [map_children].
  rewrite (run_ok _ _ _ _ _ (Hstep c acc (list_elem_of_here c l))). cbv beta iota.
  rewrite IH by (intros c' acc' Hc'; apply Hstep; by right).
  change ((c :: l) ≫= part) with (part c ++ (l ≫= part)). unfold visit_all. by rewrite foldl_app.
Qed.

Lemma walk_eq fuel reverse s t acc held w :
  ok held w → is_Some (World.data w s) → height s fuel (shape w) →
  (∀ x, below w s x → x ∉ held) →
  Walk fuel reverse s t acc w =
    (w, Ok (true, visit_all acc (order reverse (visits fuel w s t)))).
Proof.
  revert s t acc held w. induction fuel as [|fuel IH]; intros s t acc held w Hok [d Hd] Hh Hfree.
  { specialize (Hh 0%nat s). assert (0 < 0)%nat by (apply Hh; constructor). lia. }
  cbn [map visits]. rewrite Hd.
  assert (Hs : s ∉ World.locked w) by (rewrite (ok_locked _ _ Hok); apply Hfree, rtc_refl).
  rewrite (run_ok _ _ _ _ _ (acquire_eq w s d Hd Hs)). cbv beta iota zeta.
  set (w0 := World.set_locked _ w).
  assert (Hok0 : ok ({[s]} ∪ World.locked w) w0) by (by apply (set_locked_ok held)).
  destruct (ok_forest _ _ Hok) as (linked&_&Hf).
  assert (Hshape : shape w !! s = Some (PrivateSurfaceData.parent d, PrivateSurfaceData.children d))
    by (by rewrite shape_data, Hd).
  rewrite order_bind.
  match goal with |- context [map_children ?step ?l acc] =>
    assert (Hloop : map_children step l acc w0 = (w0, Ok (true, visit_all acc
      (order reverse (PrivateSurfaceData.children d) ≫= λ c, order reverse
        (if decide (c = s) then [(s, PrivateSurfaceData.public d, t)]
         else visits fuel w c (hand s (PrivateSurfaceData.public d) t)))))) end.
  { apply map_children_eq. intros c acc' Hc%order_elem. destruct (decide (c = s)) as [->|Hn].
    { by destruct reverse. }
    assert (Hcs : owner (shape w) c = Some s) by (by apply (forest_child _ _ Hf _ _ _ _ Hshape)).
    rewrite <- (visits_locked fuel ({[s]} ∪ World.locked w) w).
    eapply (IH c _ acc' _ w0); [exact Hok0| |by eapply height_child|].
    - destruct (owner_domain held w c s Hok Hcs) as [Hcd _]. apply elem_of_dom in Hcd as [v Hv].
      rewrite shape_data in Hv. unfold w0. rewrite data_set_locked. by destruct (World.data w c).
    - intros x Hx. rewrite (ok_locked _ _ Hok). apply not_elem_of_union. split.
      + intros ->%elem_of_singleton. by apply (below_irrefl _ w0 s c Hok0 Hcs).
      + apply Hfree. eapply rtc_r; [exact Hx|done]. }
  match goal with |- ((map_children ?step ?l acc ≫= ?k) ≫= ?k') w0 = _ =>
    rewrite (run_ok (map_children step l acc ≫= k) k' w0 w0
      (true, visit_all acc (order reverse (PrivateSurfaceData.children d) ≫= λ c, order reverse
        (if decide (c = s) then [(s, PrivateSurfaceData.public d, t)]
         else visits fuel w c (hand s (PrivateSurfaceData.public d) t))))) end.
  - rewrite (run_ok _ _ _ _ _ (release_eq w0 s)). cbn [World.locked World.set_locked w0].
    unfold w0. rewrite set_locked_twice, (unlock_again _ _ Hs), set_locked_id. done.
  - by rewrite (run_ok _ _ _ _ _ Hloop).
Qed.

(** ** Every surface once *)

(** The surfaces of a subtree, from the bottom to the top. *)
Fixpoint stack (fuel : nat) w (s : Z) : list Z :=
  match fuel with
  | O => []
  | Datatypes.S fuel =>
      match World.data w s with
      | None => []
      | Some d =>
          PrivateSurfaceData.children d ≫= λ c, if decide (c = s) then [s] else stack fuel w c
      end
  end.

Lemma visits_stack fuel w s t : (λ v, v.1.1) <$> visits fuel w s t = stack fuel w s.
Proof.
  revert s t. induction fuel as [|fuel IH]; intros s t; [done|]. cbn [visits stack].
  destruct (World.data w s) as [d|]; [|done].
  induction (PrivateSurfaceData.children d) as [|c l IHl]; [done|].
  rewrite !bind_cons, fmap_app, IHl. f_equal. destruct (decide (c = s)); [done|apply IH].
Qed.

Definition placed_in w (x : Z) : Prop :=
  ∃ d, World.data w x = Some d ∧ x ∈ PrivateSurfaceData.children d.

Section stack.

Context (held : gset Z) w (Hok : ok held w).

Lemma child_owned s d c :
  World.data w s = Some d → c ∈ PrivateSurfaceData.children d → c ≠ s →
  owner (shape w) c = Some s ∧ is_Some (World.data w c).
Proof.
  intros Hd Hc Hn. destruct (ok_forest _ _ Hok) as (linked&_&Hf).
  assert (Hcs : owner (shape w) c = Some s).
  { eapply (forest_child _ _ Hf); [|exact Hc|done]. by rewrite shape_data, Hd. }
  split; [done|]. destruct (owner_domain held w c s Hok Hcs) as [Hcd _].
  apply elem_of_dom in Hcd as [v Hv]. rewrite shape_data in Hv. by destruct (World.data w c).
Qed.

Lemma stack_elem fuel s x :
  is_Some (World.data w s) → height s fuel (shape w) →
  x ∈ stack fuel w s ↔ below w s x ∧ placed_in w x.
Proof.
  destruct (ok_forest _ _ Hok) as (linked&_&Hf).
  revert s. induction fuel as [|fuel IH]; intros s [d Hd] Hh.
  { specialize (Hh 0%nat s). assert (0 < 0)%nat by (apply Hh; constructor). lia. }
  cbn [stack]. rewrite Hd.
  assert (Hshape : shape w !! s = Some (PrivateSurfaceData.parent d, PrivateSurfaceData.children d))
    by (by rewrite shape_data, Hd).
  rewrite (below_iff w s x _ _ Hshape (ex_intro _ linked Hf)), list_elem_of_bind. split.
  - intros (c&Hx&Hc). destruct (decide (c = s)) as [->|Hn].
    + apply list_elem_of_singleton in Hx as ->. split; [by left|]. by exists d.
    + destruct (child_owned s d c Hd Hc Hn) as [Hcs Hk].
      apply IH in Hx as [Hx Hp]; [|done|by eapply height_child]. split; [|done]. right. by exists c.
  - intros [[->|(c&Hc&Hn&Hx)] Hp].
    + destruct Hp as (d'&Hd'&Hs). simplify_eq. exists s. rewrite decide_True by done.
      split; [by left|done].
    + exists c. rewrite decide_False by done. split; [|done].
      destruct (child_owned s d c Hd Hc Hn) as [Hcs Hk].
      apply IH; [done|by eapply height_child|done].
Qed.

Lemma stack_NoDup fuel s :
  is_Some (World.data w s) → height s fuel (shape w) → NoDup (stack fuel w s).
Proof.
  destruct (ok_forest _ _ Hok) as (linked&_&Hf).
  revert s. induction fuel as [|fuel IH]; intros s [d Hd] Hh; [constructor|].
  cbn [stack]. rewrite Hd. apply NoDup_bind.
  - intros c c' x Hc Hc' Hx Hx'. destruct (decide (c = c')) as [|Hne]; [done|exfalso].
    assert (Hb : ∀ c, c ∈ PrivateSurfaceData.children d → c ≠ s → x ∈ stack fuel w c →
      owner (shape w) c = Some s ∧ below w c x).
    { intros a Ha Hn Hxa. destruct (child_owned s d a Hd Ha Hn) as [Has Hk]. split; [done|].
      apply stack_elem in Hxa as [? _]; [done|done|by eapply height_child]. }
    destruct (decide (c = s)) as [->|Hn], (decide (c' = s)) as [->|Hn']; [done| | |].
    + apply list_elem_of_singleton in Hx as ->. destruct (Hb c' Hc' Hn' Hx') as [Ho Hbe].
      by apply (below_irrefl held w s c').
    + apply list_elem_of_singleton in Hx' as ->. destruct (Hb c Hc Hn Hx) as [Ho Hbe].
      by apply (below_irrefl held w s c).
    + destruct (Hb c Hc Hn Hx) as [Ho Hbe]. destruct (Hb c' Hc' Hn' Hx') as [Ho' Hbe'].
      by apply (below_apart held w s c c' x).
  - intros c Hc. destruct (decide (c = s)) as [->|Hn]; [apply NoDup_singleton|].
    destruct (child_owned s d c Hd Hc Hn) as [Hcs Hk]. apply IH; [done|by eapply height_child].
  - eapply (forest_nodup _ _ Hf). by rewrite shape_data, Hd.
Qed.

End stack.

Lemma fuel_height held w s : ok held w → height s (tree_fuel w) (shape w).
Proof. intros Hok k x Hk. unfold tree_fuel. apply (nsteps_bound held w) in Hk; [lia|done]. Qed.

(** C8: a walk whose closures always go on returns and leaves the store and all
    mutexes as they were; it visits the surface and every surface below it that
    has not been cleaned up, each exactly once, each after what it gets from its
    parent; and the downward walk visits in the reverse order of the upward
    walk. *)
Theorem walks_visit_once w s t acc :
  ok ∅ w → is_Some (World.data w s) →
  let l := visits (tree_fuel w) w s t in
  with_surface_tree_upward (λ s public t acc, (TraversalAction.DoChildren (hand s public t), acc))
    visit (λ _ _ _ acc, (true, acc)) s t acc w = (w, Ok (visit_all acc l)) ∧
  with_surface_tree_downward (λ s public t acc, (TraversalAction.DoChildren (hand s public t), acc))
    visit (λ _ _ _ acc, (true, acc)) s t acc w = (w, Ok (visit_all acc (rev l))) ∧
  NoDup ((λ v, v.1.1) <$> l) ∧
  (∀ x, x ∈ (λ v, v.1.1) <$> l ↔ below w s x ∧ placed_in w x).
Proof.
  intros Hok Hs l. pose proof (fuel_height ∅ w s Hok) as Hh.
  unfold with_surface_tree_upward, with_surface_tree_downward.
  rewrite !run_get. rewrite !(run_ok _ _ _ _ _ (walk_eq _ _ s t acc ∅ w Hok Hs Hh (λ x _, not_elem_of_empty x))).
  unfold l. rewrite visits_stack. split; [done|]. split; [done|]. split.
  - by eapply stack_NoDup.
  - intros x. by apply (stack_elem ∅).
Qed.

End traversal.

(** ** A concrete walk *)

Import Concrete.

Lemma walks_visit_once_witness :
  let w := store_after siblings in
  let note (s : Z) (_ : SurfaceData.t) (_ : unit) (acc : list Z) := acc ++ [s] in
  let go (s : Z) (_ : SurfaceData.t) (t : unit) (acc : list Z) := (TraversalAction.DoChildren t, acc) in
  let on (_ : Z) (_ : SurfaceData.t) (_ : unit) (acc : list Z) := (true, acc) in
  with_surface_tree_upward go note on 1 tt [] w = (w, Ok [1; 2; 3]) ∧
  with_surface_tree_downward go note on 1 tt [] w = (w, Ok [3; 2; 1]).
Proof.
  intros w note go on. assert (Hok : ok ∅ w) by (apply store_ok; vm_compute; reflexivity).
  destruct (World.data w 1) as [d|] eqn:Ed; [|vm_compute in Ed; discriminate].
  destruct (walks_visit_once (λ _ _ t, t) note w 1 tt [] Hok (ex_intro _ d Ed)) as (Hup&Hdown&_).
  split.
  - etransitivity; [exact Hup|]. vm_compute. reflexivity.
  - etransitivity; [exact Hdown|]. vm_compute. reflexivity.
Defined.
