(* ===== verification/KdlSwar.v ===== *)
(** * Byte scans of the KDL reader

    [crates/tensor-kdl/src/parse/swar.rs] and [parse/simd.rs]: eight bytes at a
    time as a 64-bit word. The quote scans are exact. The whitespace skip also
    takes the byte after a blank that is one more than a space ([!]) or one
    less than a tab, because the subtraction borrows from the next lane. *)

From Stdlib Require Import Strings.String Strings.Byte.
From S2P Require Import Prelude Codec Suballoc Bytes.

(** ** Words of eight lanes *)

Module Swar.

(** [0x0101_0101_0101_0101_u64.wrapping_mul(byte as u64)]. *)
Definition repeat_byte (c : Z) : Z := (72340172838076673 * c) mod 2 ^ 64.

Definition load_u64_unaligned (bytes : list byte) : Z :=
  let n := Nat.min (length bytes) 8 in
  from_le_bytes (take n bytes ++ replicate (8 - n) Byte.x00).

Definition wrapping_sub (a b : Z) : Z := (a - b) mod 2 ^ 64.

Definition has_byte (chunk c : Z) : Z :=
  let x := Z.lxor chunk (repeat_byte c) in
  Z.land (Z.land (wrapping_sub x (repeat_byte 1)) (bit_not x)) (repeat_byte 128).

Definition QUOTE : Z := 34.

Definition BACKSLASH : Z := 92.

Definition SPACE : Z := 32.

Definition TAB : Z := 9.

Definition has_ascii_horizontal_ws (chunk : Z) : Z :=
  Z.lor (has_byte chunk SPACE) (has_byte chunk TAB).

Fixpoint pos_trailing_zeros (p : positive) : Z :=
  match p with xO p => 1 + pos_trailing_zeros p | _ => 0 end.

(** [mask.trailing_zeros()] of a [u64]. *)
Definition trailing_zeros (mask : Z) : Z :=
  match mask with Zpos p => pos_trailing_zeros p | _ => 64 end.

Definition first_lane (mask : Z) : Z := Z.shiftr (trailing_zeros mask) 3.

(** [&input[index..index + 8]] as a word. *)
Definition chunk_at (input : list byte) (index : Z) : Z :=
  load_u64_unaligned (slice input index (index + 8)).

Definition ALL_WS : Z := 9259542123273814144.

(** The byte loops at the end of the scans: up to the first byte of [stop]. *)
Fixpoint scan_bytes (stop : byte → bool) (fuel : nat) (input : list byte) (index end_ : Z) : Z :=
  match fuel with
  | O => index
  | S fuel =>
      if index <? end_ then
        match input !! Z.to_nat index with
        | Some b => if stop b then index else scan_bytes stop fuel input (index + 1) end_
        | None => index
        end
      else index
  end.

(** A word loop either answers or leaves the rest to the byte loop. *)
Inductive Progress := Return (at_ : Z) | Break (index : Z).

Fixpoint skip_ws_words (fuel : nat) (input : list byte) (index end_ : Z) : Progress :=
  match fuel with
  | O => Break index
  | S fuel =>
      if index <? end_ then
        if index + 8 <=? len input then
          let chunk := chunk_at input index in
          let ws := has_ascii_horizontal_ws chunk in
          if (index + 8 <=? end_) && (ws =? ALL_WS)
          then skip_ws_words fuel input (index + 8) end_
          else
            let non_ws := Z.land ALL_WS (bit_not ws) in
            if negb (non_ws =? 0) then Return (Z.min (index + first_lane non_ws) end_)
            else if end_ <? index + 8 then Return end_
            else skip_ws_words fuel input (index + 8) end_
        else Break index
      else Break index
  end.

Definition is_blank (b : byte) : bool := (value b =? SPACE) || (value b =? TAB).

Definition skip_ascii_horizontal_ws (input : list byte) (index end_ : Z) : Z :=
  let end_ := Z.min end_ (len input) in
  match skip_ws_words (length input) input index end_ with
  | Return at_ => at_
  | Break index => scan_bytes (λ b, negb (is_blank b)) (length input) input index end_
  end.

(** The word loop of [find_quote] and [find_quote_or_escape], with the mask of
    the bytes that are looked for. *)
Fixpoint find_words (hits : Z → Z) (fuel : nat) (input : list byte) (index end_ : Z) : Progress :=
  match fuel with
  | O => Break index
  | S fuel =>
      if index <? end_ then
        if index + 8 <=? len input then
          let hit := hits (chunk_at input index) in
          if negb (hit =? 0) then Return (Z.min (index + first_lane hit) end_)
          else if end_ <? index + 8 then Break index
          else find_words hits fuel input (index + 8) end_
        else Break index
      else Break index
  end.

(** The byte loops of the searches answer [end] when nothing is found. *)
Definition find_in (hits : Z → Z) (stop : byte → bool) (input : list byte) (index end_ : Z) : Z :=
  let end_ := Z.min end_ (len input) in
  match find_words hits (length input) input index end_ with
  | Return at_ => at_
  | Break index =>
      let at_ := scan_bytes stop (length input) input index end_ in
      if at_ <? end_ then at_ else end_
  end.

Definition is_quote (b : byte) : bool := value b =? QUOTE.

Definition is_quote_or_escape (b : byte) : bool := (value b =? QUOTE) || (value b =? BACKSLASH).

Definition quote_or_escape_hits (chunk : Z) : Z :=
  Z.lor (has_byte chunk QUOTE) (has_byte chunk BACKSLASH).

Definition quote_hits (chunk : Z) : Z := has_byte chunk QUOTE.

Definition find_quote_or_escape : list byte → Z → Z → Z :=
  find_in quote_or_escape_hits is_quote_or_escape.

Definition find_quote : list byte → Z → Z → Z := find_in quote_hits is_quote.

(** ** The wider scans of the feature [simd] *)

(** The loop over pairs of words; the slices of a range past the end of the
    input, which no caller has, would panic. *)
Fixpoint find_word_pairs (hits : Z → Z) (fuel : nat) (input : list byte) (index end_ : Z) : Progress :=
  match fuel with
  | O => Break index
  | S fuel =>
      if index + 16 <=? end_ then
        let h0 := hits (chunk_at input index) in
        let h1 := hits (chunk_at input (index + 8)) in
        if negb (h0 =? 0) then Return (index + first_lane h0)
        else if negb (h1 =? 0) then Return (index + 8 + first_lane h1)
        else find_word_pairs hits fuel input (index + 16) end_
      else Break index
  end.

Definition find_quote_or_escape_sse2 (input : list byte) (index end_ : Z) : Z :=
  match find_word_pairs quote_or_escape_hits (length input) input index end_ with
  | Return at_ => at_
  | Break index => find_quote_or_escape input index end_
  end.

Definition find_quote_sse2 (input : list byte) (index end_ : Z) : Z :=
  match find_word_pairs quote_hits (length input) input index end_ with
  | Return at_ => at_
  | Break index => find_quote input index end_
  end.

(** [simd] is the cargo feature. *)
Definition find_quote_or_escape_fast (simd : bool) : list byte → Z → Z → Z :=
  if simd then find_quote_or_escape_sse2 else find_quote_or_escape.

Definition find_quote_fast (simd : bool) : list byte → Z → Z → Z :=
  if simd then find_quote_sse2 else find_quote.

End Swar.

Import Swar.

(** ** Reference definitions *)

(** The number of bytes before the first one of [stop]. *)
Fixpoint prefix_len (stop : byte → bool) (l : list byte) : Z :=
  match l with [] => 0 | b :: l => if stop b then 0 else 1 + prefix_len stop l end.

(** The first position from [index] on of a byte of [stop], or [end]. *)
Definition find_ref (stop : byte → bool) (input : list byte) (index end_ : Z) : Z :=
  Z.min (Z.min end_ (len input)) (index + prefix_len stop (drop (Z.to_nat index) input)).

Definition not_blank (b : byte) : bool := negb (is_blank b).

(** The first position from [index] on that is not blank. *)
Definition skip_ref (input : list byte) (index end_ : Z) : Z :=
  Z.max index (find_ref not_blank input index end_).

Definition swallowed (b : byte) : bool :=
  is_blank b || (value b =? SPACE + 1) || (value b =? TAB - 1).

(** The blanks from [index] on are not followed by a byte that the word scan
    takes for a blank. *)
Definition cleanly_blank (l : list byte) : Prop :=
  let k := prefix_len not_blank l in
  0 < k → ∀ b, l !! Z.to_nat k = Some b → swallowed b = false.

(** What [has_byte] marks: a lane that is the byte, or the byte with its last
    bit flipped after a marked lane. *)
Fixpoint lanes (c : Z) (borrow : bool) (l : list byte) : list bool :=
  match l with
  | [] => []
  | b :: l =>
      let x := Z.lxor (value b) c in
      let hit := (x =? 0) || (borrow && (x =? 1)) in
      hit :: lanes c hit l
  end.

Definition mask_of (flags : list bool) : Z :=
  foldr (λ (f : bool) m, (if f then 128 else 0) + 256 * m) 0 flags.

(** The number of lanes before the first marked one. *)
Fixpoint lead (flags : list bool) : Z :=
  match flags with [] => 0 | f :: flags => if f then 0 else 1 + lead flags end.

(** ** Digits to the base 256 *)

Definition digits (l : list Z) : Z := foldr (λ x m, x + 256 * m) 0 l.

Definition is_digit (x : Z) : Prop := 0 <= x < 256.

Lemma testbit_digit a m i :
  is_digit a → 0 <= i → Z.testbit (a + 256 * m) i = if i <? 8 then Z.testbit a i else Z.testbit m (i - 8).
Proof.
  intros Ha Hi. unfold is_digit in Ha. change 256 with (2 ^ 8) in *.
  replace (a + 2 ^ 8 * m) with (a + m * 2 ^ 8) by lia. destruct (Z.ltb_spec i 8) as [H|H].
  - rewrite <- (Z.mod_pow2_bits_low (a + _) 8) by lia.
    by rewrite Z_mod_plus_full, Z.mod_small by lia.
  - transitivity (Z.testbit ((a + m * 2 ^ 8) / 2 ^ 8) (i - 8)).
    + rewrite Z.div_pow2_bits by lia. f_equal. lia.
    + by rewrite Z_div_plus_full, Z.div_small by lia.
Qed.

Lemma digits_cons x l : digits (x :: l) = x + 256 * digits l.
Proof. done. Qed.

Lemma digits_nonneg l : Forall is_digit l → 0 <= digits l.
Proof. induction 1 as [|x l Hx Hl IH]; simpl; unfold is_digit in *; lia. Qed.

Section lanewise.

Context (f : bool → bool → bool) (op : Z → Z → Z).

Context (op_spec : ∀ a b i, 0 <= i → Z.testbit (op a b) i = f (Z.testbit a i) (Z.testbit b i)).

Context (op_digit : ∀ a b, is_digit a → is_digit b → is_digit (op a b)).

Lemma op_step a b m n :
  is_digit a → is_digit b → op (a + 256 * m) (b + 256 * n) = op a b + 256 * op m n.
Proof.
  intros Ha Hb. apply Z.bits_inj'. intros i Hi.
  rewrite op_spec, !testbit_digit by auto. destruct (Z.ltb_spec i 8); by rewrite op_spec by lia.
Qed.

Lemma op_digits l k :
  Forall is_digit l → Forall is_digit k → length l = length k → op 0 0 = 0 →
  op (digits l) (digits k) = digits (zip_with op l k) ∧ Forall is_digit (zip_with op l k).
Proof.
  intros Hl. revert k. induction Hl as [|a l Ha Hl IH]; intros [|b k] Hk Hlen H0; try done.
  inversion_clear Hk as [|? ? Hb Hk']. destruct (IH k Hk' ltac:(simpl in *; lia) H0) as [E1 E2].
  simpl. rewrite op_step, E1 by done. auto.
Qed.

End lanewise.

Lemma log2_digit a : is_digit a → Z.log2 a < 8.
Proof.
  unfold is_digit. intros. destruct (Z.eq_dec a 0) as [->|]; [simpl; lia|].
  apply Z.log2_lt_pow2; simpl; lia.
Qed.

Lemma digit_of_log2 a : 0 <= a → Z.log2 a < 8 → is_digit a.
Proof.
  intros. split; [done|]. destruct (Z.eq_dec a 0) as [->|]; [lia|].
  change 256 with (2 ^ 8). apply Z.log2_lt_pow2; lia.
Qed.

Lemma land_digit a b : is_digit a → is_digit b → is_digit (Z.land a b).
Proof.
  intros Ha Hb. pose proof (log2_digit a Ha). unfold is_digit in Ha, Hb.
  apply digit_of_log2; [apply Z.land_nonneg; lia|]. pose proof (Z.log2_land a b). lia.
Qed.

Lemma lor_digit a b : is_digit a → is_digit b → is_digit (Z.lor a b).
Proof.
  intros Ha Hb. pose proof (log2_digit a Ha). pose proof (log2_digit b Hb). unfold is_digit in Ha, Hb.
  apply digit_of_log2; [apply Z.lor_nonneg; lia|]. rewrite Z.log2_lor; lia.
Qed.

Lemma lxor_digit a b : is_digit a → is_digit b → is_digit (Z.lxor a b).
Proof.
  intros Ha Hb. pose proof (log2_digit a Ha). pose proof (log2_digit b Hb). unfold is_digit in Ha, Hb.
  apply digit_of_log2; [apply Z.lxor_nonneg; lia|]. pose proof (Z.log2_lxor a b). lia.
Qed.

Lemma land_digits l k :
  Forall is_digit l → Forall is_digit k → length l = length k →
  Z.land (digits l) (digits k) = digits (zip_with Z.land l k) ∧ Forall is_digit (zip_with Z.land l k).
Proof. intros. apply (op_digits andb); auto using Z.land_spec, land_digit. Qed.

Lemma lor_digits l k :
  Forall is_digit l → Forall is_digit k → length l = length k →
  Z.lor (digits l) (digits k) = digits (zip_with Z.lor l k) ∧ Forall is_digit (zip_with Z.lor l k).
Proof. intros. apply (op_digits orb); auto using Z.lor_spec, lor_digit. Qed.

Lemma lxor_digits l k :
  Forall is_digit l → Forall is_digit k → length l = length k →
  Z.lxor (digits l) (digits k) = digits (zip_with Z.lxor l k) ∧ Forall is_digit (zip_with Z.lxor l k).
Proof. intros. apply (op_digits xorb); auto using Z.lxor_spec, lxor_digit. Qed.

(** *** Subtracting one from every lane, with the borrow *)

Fixpoint minus_ones (borrow : bool) (l : list Z) : list Z :=
  match l with
  | [] => []
  | x :: l => (x - 1 - Z.b2z borrow) mod 256 :: minus_ones (x - 1 - Z.b2z borrow <? 0) l
  end.

Lemma minus_ones_digits borrow l :
  Forall is_digit l →
  (digits l - digits (replicate (length l) 1) - Z.b2z borrow) mod 256 ^ Z.of_nat (length l)
  = digits (minus_ones borrow l).
Proof.
  intros Hl. revert borrow. induction Hl as [|x l Hx Hl IH]; intros borrow.
  { simpl. by rewrite Z.mod_1_r. }
  simpl length. rewrite Nat2Z.inj_succ, Z.pow_succ_r by lia. cbn [minus_ones replicate].
  rewrite !digits_cons, <- IH.
  set (P := 256 ^ Z.of_nat (length l)). assert (HP : 0 < P) by (apply Z.pow_pos_nonneg; lia).
  rewrite Z.rem_mul_r by lia. unfold is_digit in Hx.
  assert (Hd : -2 <= x - 1 - Z.b2z borrow < 256) by (destruct borrow; simpl; lia).
  set (A := digits l) in *. set (B := digits (replicate _ 1)) in *. set (d := x - 1 - Z.b2z borrow) in *.
  replace (x + 256 * A - (1 + 256 * B) - Z.b2z borrow) with (d + (A - B) * 256) by (unfold d; lia).
  rewrite Z_mod_plus_full, Z_div_plus_full by lia. f_equal. f_equal. f_equal.
  destruct (Z.ltb_spec d 0); simpl; [|rewrite Z.div_small by lia; lia].
  replace (d / 256) with (-1); [lia|]. apply Z.div_unique with (d + 256); lia.
Qed.

Lemma minus_ones_range borrow l : Forall is_digit (minus_ones borrow l) ∧ length (minus_ones borrow l) = length l.
Proof.
  revert borrow. induction l as [|x l IH]; intros borrow; simpl; [by split|].
  destruct (IH (x - 1 - Z.b2z borrow <? 0)) as [? ->]. split; [|done]. constructor; [|done].
  unfold is_digit. apply Z.mod_pos_bound. lia.
Qed.

(** *** One lane of [has_byte] *)

Definition lane (borrow : bool) (x : Z) : Z :=
  Z.land (Z.land ((x - 1 - Z.b2z borrow) mod 256) (Z.lxor 255 x)) 128.

Definition lane_hit (borrow : bool) (x : Z) : bool := (x =? 0) || (borrow && (x =? 1)).

Lemma lane_exact borrow x :
  is_digit x →
  lane borrow x = (if lane_hit borrow x then 128 else 0) ∧ (x - 1 - Z.b2z borrow <? 0) = lane_hit borrow x.
Proof.
  intros Hx. unfold is_digit in Hx.
  assert (H : forallb (λ n, (lane borrow (Z.of_nat n) =? (if lane_hit borrow (Z.of_nat n) then 128 else 0))
    && Bool.eqb (Z.of_nat n - 1 - Z.b2z borrow <? 0) (lane_hit borrow (Z.of_nat n))) (seq 0 256) = true)
    by (destruct borrow; vm_compute; reflexivity).
  rewrite forallb_forall in H. specialize (H (Z.to_nat x)). rewrite Z2Nat.id in H by lia.
  destruct (andb_prop _ _ (H ltac:(apply in_seq; lia))) as [H1%Z.eqb_eq H2%eqb_prop]. done.
Qed.

Fixpoint hits (borrow : bool) (l : list Z) : list bool :=
  match l with [] => [] | x :: l => lane_hit borrow x :: hits (lane_hit borrow x) l end.

Lemma hits_digits borrow xs :
  Forall is_digit xs →
  digits (zip_with Z.land (zip_with Z.land (minus_ones borrow xs) (zip_with Z.lxor (replicate (length xs) 255) xs))
    (replicate (length xs) 128))
  = mask_of (hits borrow xs).
Proof.
  intros Hxs. revert borrow. induction Hxs as [|x xs Hx Hxs IH]; intros borrow; [done|].
  destruct (lane_exact borrow x Hx) as [E1 E2].
  cbn [length replicate minus_ones zip_with hits mask_of foldr].
  rewrite digits_cons, E2, IH. fold (mask_of (hits (lane_hit borrow x) xs)).
  f_equal. exact E1.
Qed.

Lemma from_le_digits l : from_le_bytes l = digits (value <$> l).
Proof. induction l as [|b l IH]; [done|]. rewrite fmap_cons, digits_cons, <- IH. done. Qed.

Lemma values_digits l : Forall is_digit (value <$> l).
Proof. induction l as [|b l IH]; constructor; [apply value_range|done]. Qed.

Lemma repeat_byte_digits c : is_digit c → repeat_byte c = digits (replicate 8 c).
Proof.
  unfold is_digit, repeat_byte. intros. rewrite Z.mod_small by lia. unfold digits. simpl. lia.
Qed.

Lemma replicate_digits n c : is_digit c → Forall is_digit (replicate n c).
Proof. intros. by apply Forall_replicate. Qed.

Lemma bit_not_digits l :
  Forall is_digit l → length l = 8%nat →
  bit_not (digits l) = digits (zip_with Z.lxor (replicate 8 255) l)
  ∧ Forall is_digit (zip_with Z.lxor (replicate 8 255) l).
Proof.
  intros Hl Hn. unfold bit_not. replace U64.MAX with (digits (replicate 8 255)) by reflexivity.
  apply lxor_digits; [apply replicate_digits; unfold is_digit; lia|done|by rewrite Hn].
Qed.

Lemma lanes_hits c borrow l : lanes c borrow l = hits borrow (zip_with Z.lxor (value <$> l) (replicate (length l) c)).
Proof. revert borrow. induction l as [|b l IH]; intros; simpl; [done|]. by rewrite <- IH. Qed.

(** [has_byte] marks the lanes of [lanes]. *)
Lemma has_byte_lanes c l :
  is_digit c → length l = 8%nat → has_byte (from_le_bytes l) c = mask_of (lanes c false l).
Proof.
  intros Hc Hl. unfold has_byte. rewrite from_le_digits, !repeat_byte_digits by (done || unfold is_digit; lia).
  destruct (lxor_digits (value <$> l) (replicate 8 c)) as [-> Hx];
    [apply values_digits|by apply replicate_digits|by rewrite length_fmap, Hl|].
  set (xs := zip_with Z.lxor (value <$> l) (replicate 8 c)) in *.
  assert (Hn : length xs = 8%nat) by (unfold xs; by rewrite length_zip_with, length_fmap, Hl).
  destruct (bit_not_digits xs Hx Hn) as [-> Hb]. destruct (minus_ones_range false xs) as [Hm Lm].
  unfold wrapping_sub. pose proof (minus_ones_digits false xs Hx) as E. rewrite Hn in E.
  change (256 ^ Z.of_nat 8) with (2 ^ 64) in E. rewrite Z.sub_0_r in E. rewrite E.
  destruct (land_digits _ _ Hm Hb) as [-> Ha]; [rewrite Lm, length_zip_with, Hn; done|].
  destruct (land_digits _ (replicate 8 128) Ha) as [-> _];
    [apply replicate_digits; unfold is_digit; lia|rewrite !length_zip_with, Lm, Hn; done|].
  rewrite lanes_hits, Hl. fold xs. rewrite <- hits_digits by done. by rewrite Hn.
Qed.

(** *** The first marked lane *)

Lemma mask_cons (f : bool) fs : mask_of (f :: fs) = (if f then 128 else 0) + 256 * mask_of fs.
Proof. done. Qed.

Lemma mask_nonneg fs : 0 <= mask_of fs.
Proof. induction fs as [|[] fs IH]; simpl; lia. Qed.

Lemma lead_range fs : 0 <= lead fs <= Z.of_nat (length fs).
Proof. induction fs as [|[] fs IH]; simpl length; cbn [lead]; lia. Qed.

Lemma mask_zero fs : mask_of fs = 0 ↔ lead fs = Z.of_nat (length fs).
Proof.
  induction fs as [|[] fs IH]; [done|..]; pose proof (mask_nonneg fs); pose proof (lead_range fs);
    rewrite mask_cons; cbn [lead length]; [clear IH; split; lia|].
  destruct IH as [I1 I2]. split; intros; [rewrite I1|rewrite I2]; lia.
Qed.

Lemma trailing_zeros_256 m : 0 < m → trailing_zeros (0 + 256 * m) = 8 + trailing_zeros m.
Proof. intros. destruct m as [|p|p]; try lia.
  change (0 + 256 * Zpos p) with (Zpos p~0~0~0~0~0~0~0~0). cbn [trailing_zeros pos_trailing_zeros]. lia.
Qed.

Lemma trailing_zeros_128 m : 0 <= m → trailing_zeros (128 + 256 * m) = 7.
Proof. intros. destruct m as [|p|p]; try lia; reflexivity. Qed.

Lemma first_lane_lead fs : mask_of fs ≠ 0 → first_lane (mask_of fs) = lead fs.
Proof.
  induction fs as [|f fs IH]; [done|]. rewrite mask_cons. cbn [lead]. intros H.
  pose proof (mask_nonneg fs). unfold first_lane in *. destruct f.
  - by rewrite trailing_zeros_128.
  - rewrite trailing_zeros_256 by lia. rewrite <- IH by lia. rewrite !Z.shiftr_div_pow2 by lia.
    change (2 ^ 3) with 8. replace (8 + _) with (trailing_zeros (mask_of fs) + 1 * 8) by lia.
    rewrite Z_div_plus_full by lia. lia.
Qed.

Lemma mask_digits fs : mask_of fs = digits ((λ f : bool, if f then 128 else 0) <$> fs).
Proof. induction fs as [|f fs IH]; [done|]. rewrite fmap_cons, digits_cons, <- IH. done. Qed.

Lemma flags_digits fs : Forall is_digit ((λ f : bool, if f then 128 else 0) <$> fs).
Proof. induction fs as [|[] fs IH]; constructor; unfold is_digit; auto; lia. Qed.

Lemma lor_masks fs gs :
  length fs = length gs → Z.lor (mask_of fs) (mask_of gs) = mask_of (zip_with orb fs gs).
Proof.
  intros Hl. rewrite !mask_digits. destruct (lor_digits _ _ (flags_digits fs) (flags_digits gs)) as [-> _];
    [by rewrite !length_fmap|]. f_equal. revert gs Hl. induction fs as [|f fs IH]; intros [|g gs] Hl; try done.
  simpl. rewrite <- IH by (simpl in *; lia). by destruct f, g.
Qed.

Lemma unmarked_mask fs :
  length fs = 8%nat → Z.land ALL_WS (bit_not (mask_of fs)) = mask_of (negb <$> fs).
Proof.
  intros Hl. rewrite !mask_digits. pose proof (flags_digits fs) as Hd.
  destruct (bit_not_digits _ Hd) as [-> Hb]; [by rewrite length_fmap|].
  replace ALL_WS with (digits (replicate 8 128)) by reflexivity.
  destruct (land_digits (replicate 8 128) _ ltac:(apply replicate_digits; unfold is_digit; lia) Hb) as [-> _];
    [by rewrite length_zip_with, length_fmap, Hl|].
  f_equal. clear Hd Hb. rewrite <- Hl. clear Hl. induction fs as [|f fs IH]; [done|].
  apply (f_equal2 cons); [by destruct f|exact IH].
Qed.

(** *** Marked lanes and bytes *)

Lemma length_lanes c borrow l : length (lanes c borrow l) = length l.
Proof. revert borrow. induction l as [|b l IH]; intros; simpl; auto. Qed.

Lemma lxor_zero a b : (Z.lxor a b =? 0) = (a =? b).
Proof.
  destruct (Z.eqb_spec (Z.lxor a b) 0) as [H|H], (Z.eqb_spec a b); try done.
  - by apply Z.lxor_eq in H.
  - subst. by rewrite Z.lxor_nilpotent in H.
Qed.

Lemma lead_lanes c l : lead (lanes c false l) = prefix_len (λ b, value b =? c) l.
Proof.
  induction l as [|b l IH]; [done|]. cbn [lanes lead prefix_len]. rewrite lxor_zero.
  destruct (value b =? c); [done|]. simpl. by rewrite IH.
Qed.

Lemma lead_or fs gs : length fs = length gs → lead (zip_with orb fs gs) = Z.min (lead fs) (lead gs).
Proof.
  revert gs. induction fs as [|f fs IH]; intros [|g gs] H; try done. cbn [zip_with lead].
  rewrite IH by (simpl in *; lia). pose proof (lead_range fs). pose proof (lead_range gs).
  destruct f, g; simpl; lia.
Qed.

Lemma prefix_len_range stop l : 0 <= prefix_len stop l <= len l.
Proof. unfold len. induction l as [|b l IH]; cbn [prefix_len length]; [|destruct (stop b)]; lia. Qed.

Lemma prefix_len_or p q l :
  prefix_len (λ b, p b || q b) l = Z.min (prefix_len p l) (prefix_len q l).
Proof.
  induction l as [|b l IH]; [done|]. cbn [prefix_len]. rewrite IH.
  pose proof (prefix_len_range p l). pose proof (prefix_len_range q l). destruct (p b), (q b); simpl; lia.
Qed.

(** What a scan looks for, as a mask: the marks are those of [stop] up to the
    first. *)
Definition marks (mask : Z → Z) (stop : byte → bool) : Prop :=
  ∀ l, length l = 8%nat →
    ∃ fs, mask (from_le_bytes l) = mask_of fs ∧ length fs = 8%nat ∧ lead fs = prefix_len stop l.

Lemma quote_marks : marks quote_hits is_quote.
Proof.
  intros l Hl. exists (lanes QUOTE false l). split; [|split].
  - apply has_byte_lanes; [unfold is_digit, QUOTE; lia|done].
  - by rewrite length_lanes.
  - apply lead_lanes.
Qed.

Lemma quote_or_escape_marks : marks quote_or_escape_hits is_quote_or_escape.
Proof.
  intros l Hl. exists (zip_with orb (lanes QUOTE false l) (lanes BACKSLASH false l)). split; [|split].
  - unfold quote_or_escape_hits.
    rewrite !has_byte_lanes by (done || unfold is_digit, QUOTE, BACKSLASH; lia).
    apply lor_masks. by rewrite !length_lanes.
  - by rewrite length_zip_with, !length_lanes, Hl.
  - rewrite lead_or by (by rewrite !length_lanes). rewrite !lead_lanes.
    unfold is_quote_or_escape. by rewrite (prefix_len_or (λ b, value b =? QUOTE) (λ b, value b =? BACKSLASH)).
Qed.

(** The lanes that the whitespace scan marks. *)
Definition blank_lanes (l : list byte) : list bool :=
  zip_with orb (lanes SPACE false l) (lanes TAB false l).

Lemma blank_mask l :
  length l = 8%nat → has_ascii_horizontal_ws (from_le_bytes l) = mask_of (blank_lanes l).
Proof.
  intros Hl. unfold has_ascii_horizontal_ws.
  rewrite !has_byte_lanes by (done || unfold is_digit, SPACE, TAB; lia).
  apply lor_masks. by rewrite !length_lanes.
Qed.

Lemma length_blank_lanes l : length (blank_lanes l) = length l.
Proof. unfold blank_lanes. rewrite length_zip_with, !length_lanes. lia. Qed.

Lemma lane_bit a b : Z.lxor a b = 1 → a = Z.lxor b 1.
Proof. intros <-. by rewrite (Z.lxor_comm a b), <- Z.lxor_assoc, Z.lxor_nilpotent. Qed.

(** The lanes with the borrows that come in. *)
Definition blank_lanes_from (b1 b2 : bool) (l : list byte) : list bool :=
  zip_with orb (lanes SPACE b1 l) (lanes TAB b2 l).

Lemma blank_lane b1 b2 b :
  let hit c borrow := (Z.lxor (value b) c =? 0) || (borrow && (Z.lxor (value b) c =? 1)) in
  (is_blank b = true → hit SPACE b1 || hit TAB b2 = true)
  ∧ (hit SPACE b1 || hit TAB b2 = true → swallowed b = true)
  ∧ hit SPACE false || hit TAB false = is_blank b.
Proof.
  cbv zeta. unfold swallowed, is_blank. rewrite !lxor_zero. split; [|split].
  - destruct (value b =? SPACE); [done|]. simpl. intros ->. by rewrite orb_true_r.
  - destruct (value b =? SPACE); [done|]. destruct (value b =? TAB); [by rewrite ?orb_true_r|].
    simpl. intros [[_ H%Z.eqb_eq%lane_bit]%andb_prop|[_ H%Z.eqb_eq%lane_bit]%andb_prop]%orb_prop; by rewrite H.
  - simpl. by rewrite !orb_false_r.
Qed.

Lemma blank_lanes_from_spec b1 b2 l :
  let q := lead (negb <$> blank_lanes_from b1 b2 l) in
  let k := prefix_len not_blank l in
  k <= q ∧ Forall (λ b, swallowed b = true) (take (Z.to_nat q) l)
  ∧ ((∀ b, l !! Z.to_nat k = Some b → swallowed b = false) → q = k).
Proof.
  cbv zeta. revert b1 b2. induction l as [|b l IH]; intros b1 b2; [by split_and!|].
  destruct (blank_lane b1 b2 b) as (H1&H2&_). unfold blank_lanes_from in *.
  cbn [lanes zip_with]. set (h1 := (_ =? 0) || _) in *. set (h2 := (_ =? 0) || (b2 && _)) in *.
  rewrite fmap_cons. cbn [lead prefix_len]. unfold not_blank at 1 3 5. specialize (IH h1 h2).
  set (q := lead (negb <$> zip_with orb (lanes SPACE h1 l) (lanes TAB h2 l))) in *.
  pose proof (lead_range (negb <$> zip_with orb (lanes SPACE h1 l) (lanes TAB h2 l))).
  pose proof (prefix_len_range not_blank l). destruct IH as (I1&I2&I3).
  destruct (h1 || h2); simpl negb; cbv iota.
  - assert (Hs : swallowed b = true) by auto.
    assert (Hq : Z.to_nat (1 + q) = S (Z.to_nat q)) by lia. rewrite Hq.
    destruct (is_blank b) eqn:Eb; simpl; (split; [lia|]); (split; [by constructor|]).
    + intros Hk. rewrite I3; [done|]. intros b' Hb'. apply Hk.
      replace (Z.to_nat (1 + _)) with (S (Z.to_nat (prefix_len not_blank l))) by lia. done.
    + intros Hk. by rewrite (Hk b eq_refl) in Hs.
  - destruct (is_blank b) eqn:Eb; [by discriminate H1|]. simpl. by split_and!.
Qed.

Lemma blank_lanes_spec l :
  let q := lead (negb <$> blank_lanes l) in
  let k := prefix_len not_blank l in
  k <= q ∧ Forall (λ b, swallowed b = true) (take (Z.to_nat q) l) ∧ (cleanly_blank l → q = k).
Proof.
  cbv zeta. destruct (blank_lanes_from_spec false false l) as (H1&H2&H3).
  split; [exact H1|]. split; [exact H2|]. unfold cleanly_blank. intros Hc.
  destruct (Z.lt_decidable 0 (prefix_len not_blank l)) as [Hk|Hk]; [by apply H3, Hc|].
  pose proof (prefix_len_range not_blank l). destruct l as [|b l]; [done|].
  cbn [prefix_len] in *. pose proof (prefix_len_range not_blank l). unfold not_blank at 1.
  unfold not_blank at 1 in Hk. destruct (is_blank b) eqn:Eb; [simpl in Hk; lia|].
  destruct (blank_lane false false b) as (_&_&H4). cbv zeta in H4. unfold blank_lanes. cbn [lanes zip_with].
  rewrite fmap_cons. cbn [lead]. by rewrite H4, Eb.
Qed.

(** *** Positions *)

Lemma prefix_len_app stop l r :
  prefix_len stop (l ++ r) = if prefix_len stop l =? len l then len l + prefix_len stop r else prefix_len stop l.
Proof.
  induction l as [|b l IH]; [by simpl|]. pose proof (prefix_len_range stop l). cbn [app prefix_len].
  rewrite len_cons, IH. destruct (stop b); [destruct (Z.eqb_spec 0 (1 + len l)); lia|].
  destruct (Z.eqb_spec (prefix_len stop l) (len l)), (Z.eqb_spec (1 + prefix_len stop l) (1 + len l)); lia.
Qed.

(** The rest after the first [n] bytes. *)
Lemma prefix_len_split stop n l :
  0 <= n <= len l →
  prefix_len stop l
  = if prefix_len stop (take (Z.to_nat n) l) =? n
    then n + prefix_len stop (drop (Z.to_nat n) l) else prefix_len stop (take (Z.to_nat n) l).
Proof.
  intros Hn. rewrite <- (take_drop (Z.to_nat n) l) at 1. rewrite prefix_len_app, len_take by done. done.
Qed.

Lemma drop_add {A} (l : list A) i n :
  0 <= i → 0 <= n → drop (Z.to_nat n) (drop (Z.to_nat i) l) = drop (Z.to_nat (i + n)) l.
Proof. intros. rewrite drop_drop. f_equal. lia. Qed.

Lemma chunk_load input index :
  0 <= index → index + 8 <= len input →
  chunk_at input index = from_le_bytes (slice input index (index + 8))
  ∧ length (slice input index (index + 8)) = 8%nat
  ∧ slice input index (index + 8) = take (Z.to_nat 8) (drop (Z.to_nat index) input).
Proof.
  intros Hi Hl. assert (L : length (slice input index (index + 8)) = 8%nat).
  { pose proof (slice_len input index (index + 8)). unfold len in *. lia. }
  split; [|split; [done|]].
  - unfold chunk_at, load_u64_unaligned. rewrite L. simpl. rewrite app_nil_r, take_ge by lia. done.
  - unfold slice. f_equal. lia.
Qed.

(** *** The searches *)

Section find.

Context (hits : Z → Z) (stop : byte → bool) (Hmarks : marks hits stop).

Lemma word_scan input index :
  0 <= index → index + 8 <= len input →
  let hit := hits (chunk_at input index) in
  let n := prefix_len stop (drop (Z.to_nat index) input) in
  if hit =? 0 then n = 8 + prefix_len stop (drop (Z.to_nat (index + 8)) input)
  else n = first_lane hit ∧ n < 8.
Proof.
  cbv zeta. intros Hi Hl. destruct (chunk_load input index Hi Hl) as (->&L&E).
  destruct (Hmarks _ L) as (fs&->&Lf&Hlead).
  assert (Hd : 8 <= len (drop (Z.to_nat index) input)) by (rewrite len_drop; lia).
  rewrite (prefix_len_split stop 8) by lia. rewrite <- E, <- Hlead, drop_add by lia.
  pose proof (lead_range fs). destruct (Z.eqb_spec (mask_of fs) 0) as [H0|H0].
  - apply mask_zero in H0. destruct (Z.eqb_spec (lead fs) 8); lia.
  - rewrite first_lane_lead by done.
    assert (lead fs ≠ 8) by (intros H8; apply H0, mask_zero; lia).
    destruct (Z.eqb_spec (lead fs) 8); lia.
Qed.

Lemma scan_bytes_exact fuel input index end_ :
  0 <= index → end_ <= len input → end_ - index <= Z.of_nat fuel →
  scan_bytes stop fuel input index end_
  = Z.max index (Z.min end_ (index + prefix_len stop (drop (Z.to_nat index) input))).
Proof.
  revert index. induction fuel as [|fuel IH]; intros index Hi He Hf; cbn [scan_bytes].
  { pose proof (prefix_len_range stop (drop (Z.to_nat index) input)). lia. }
  destruct (Z.ltb_spec index end_) as [Hlt|]; [|lia].
  destruct (input !! Z.to_nat index) as [b|] eqn:Eb.
  2: { apply lookup_ge_None in Eb. unfold len in *. lia. }
  rewrite (drop_S _ _ _ Eb). cbn [prefix_len]. destruct (stop b); [lia|].
  rewrite IH by lia. replace (Z.to_nat (index + 1)) with (S (Z.to_nat index)) by lia.
  pose proof (prefix_len_range stop (drop (S (Z.to_nat index)) input)). lia.
Qed.

Lemma find_words_exact fuel input index end_ :
  0 <= index → end_ <= len input →
  let ref i := Z.min end_ (i + prefix_len stop (drop (Z.to_nat i) input)) in
  match find_words hits fuel input index end_ with
  | Return a => index < end_ ∧ a = ref index
  | Break i => index <= i ∧ ref i = ref index
  end.
Proof.
  cbv zeta. revert index. induction fuel as [|fuel IH]; intros index Hi He; cbn [find_words]; [lia|].
  destruct (Z.ltb_spec index end_); [|lia]. destruct (Z.leb_spec (index + 8) (len input)); [|lia].
  pose proof (word_scan input index Hi ltac:(done)) as Hw. cbv zeta in Hw.
  destruct (hits _ =? 0); simpl negb; cbv iota.
  - destruct (Z.ltb_spec end_ (index + 8)); [lia|]. specialize (IH (index + 8) ltac:(lia) He).
    destruct (find_words _ _ _ _ _); lia.
  - destruct Hw as [<- ?]. lia.
Qed.

Lemma find_in_exact input index end_ :
  0 <= index → find_in hits stop input index end_ = find_ref stop input index end_.
Proof.
  intros Hi. unfold find_in, find_ref. set (e := Z.min end_ (len input)).
  pose proof (find_words_exact (length input) input index e Hi ltac:(lia)) as H. cbv zeta in H.
  destruct (find_words _ _ _ _ _) as [a|i]; [lia|]. destruct H as [Hii <-].
  pose proof (len_nonneg input).
  rewrite scan_bytes_exact by (unfold len in *; lia).
  pose proof (prefix_len_range stop (drop (Z.to_nat i) input)). destruct (Z.ltb_spec
    (Z.max i (Z.min e (i + prefix_len stop (drop (Z.to_nat i) input)))) e); lia.
Qed.

(** The loop over pairs of words, inside the input. *)
Lemma find_word_pairs_exact fuel input index end_ :
  0 <= index → end_ <= len input →
  let ref i := Z.min end_ (i + prefix_len stop (drop (Z.to_nat i) input)) in
  match find_word_pairs hits fuel input index end_ with
  | Return a => a = ref index
  | Break i => index <= i ∧ ref i = ref index
  end.
Proof.
  cbv zeta. revert index. induction fuel as [|fuel IH]; intros index Hi He; cbn [find_word_pairs]; [lia|].
  destruct (Z.leb_spec (index + 16) end_); [|lia].
  pose proof (word_scan input index Hi ltac:(lia)) as Hw. cbv zeta in Hw.
  pose proof (word_scan input (index + 8) ltac:(lia) ltac:(lia)) as Hw'. cbv zeta in Hw'.
  replace (index + 8 + 8) with (index + 16) in Hw' by lia.
  pose proof (prefix_len_range stop (drop (Z.to_nat index) input)).
  destruct (hits (chunk_at input index) =? 0); simpl negb; cbv iota.
  - destruct (hits (chunk_at input (index + 8)) =? 0); simpl negb; cbv iota.
    + specialize (IH (index + 16) ltac:(lia) He). destruct (find_word_pairs _ _ _ _ _); lia.
    + destruct Hw' as [Hw' ?]. rewrite <- Hw'. lia.
  - destruct Hw as [<- ?]. lia.
Qed.

End find.

(** Both builds search exactly. *)
Lemma find_quote_fast_exact simd input index end_ :
  0 <= index → end_ <= len input →
  find_quote_fast simd input index end_ = find_ref is_quote input index end_.
Proof.
  intros Hi He. unfold find_quote_fast, find_quote_sse2, find_quote. pose proof quote_marks as Hm.
  destruct simd; [|by apply find_in_exact].
  pose proof (find_word_pairs_exact _ _ Hm (length input) input index end_ Hi He) as H. cbv zeta in H.
  destruct (find_word_pairs _ _ _ _ _) as [a|i].
  - rewrite H. unfold find_ref. lia.
  - rewrite find_in_exact by (done || lia). unfold find_ref. lia.
Qed.

Lemma find_quote_or_escape_fast_exact simd input index end_ :
  0 <= index → end_ <= len input →
  find_quote_or_escape_fast simd input index end_ = find_ref is_quote_or_escape input index end_.
Proof.
  intros Hi He. unfold find_quote_or_escape_fast, find_quote_or_escape_sse2, find_quote_or_escape.
  pose proof quote_or_escape_marks as Hm. destruct simd; [|by apply find_in_exact].
  pose proof (find_word_pairs_exact _ _ Hm (length input) input index end_ Hi He) as H. cbv zeta in H.
  destruct (find_word_pairs _ _ _ _ _) as [a|i].
  - rewrite H. unfold find_ref. lia.
  - rewrite find_in_exact by (done || lia). unfold find_ref. lia.
Qed.

(** *** The whitespace skip *)

Lemma prefix_len_before stop l :
  Forall (λ b, stop b = false) (take (Z.to_nat (prefix_len stop l)) l).
Proof.
  induction l as [|b l IH]; [done|]. cbn [prefix_len]. destruct (stop b) eqn:Eb; [done|].
  pose proof (prefix_len_range stop l). replace (Z.to_nat (1 + _)) with (S (Z.to_nat (prefix_len stop l))) by lia.
  by constructor.
Qed.

Lemma cleanly_take n l : cleanly_blank l → cleanly_blank (take n l).
Proof.
  unfold cleanly_blank. intros Hc Hk b Hb.
  pose proof (prefix_len_range not_blank (take n l)) as Hr. unfold len in Hr.
  assert (Hlt : prefix_len not_blank (take n l) < len (take n l)).
  { apply lookup_lt_Some in Hb. unfold len. lia. }
  assert (E : prefix_len not_blank l = prefix_len not_blank (take n l)).
  { rewrite <- (take_drop n l) at 1. rewrite prefix_len_app. destruct (Z.eqb_spec
      (prefix_len not_blank (take n l)) (len (take n l))); lia. }
  rewrite <- E in *. apply (Hc Hk). by apply lookup_take_Some in Hb as [? _].
Qed.

Lemma cleanly_drop n l :
  0 <= n <= len l → prefix_len not_blank (take (Z.to_nat n) l) = n → cleanly_blank l →
  cleanly_blank (drop (Z.to_nat n) l).
Proof.
  unfold cleanly_blank. intros Hn E Hc Hk b Hb.
  pose proof (prefix_len_split not_blank n l Hn) as Es. rewrite E, Z.eqb_refl in Es. rewrite Es in Hc.
  apply Hc; [lia|]. rewrite lookup_drop in Hb. rewrite <- Hb. f_equal. lia.
Qed.

Definition swallows (l : list byte) : Prop := Forall (λ b, swallowed b = true) l.

Lemma swallows_slice input index a q l :
  swallows (take (Z.to_nat q) l) → l = take (Z.to_nat 8) (drop (Z.to_nat index) input) →
  a - index <= q → q <= 8 → swallows (slice input index a).
Proof.
  intros H -> Ha Hq. rewrite take_take in H. unfold slice. unfold swallows in *.
  eapply Forall_take in H. rewrite take_take in H. revert H.
  replace (Z.to_nat (a - index)) with (Nat.min (Z.to_nat (a - index)) (Nat.min (Z.to_nat q) (Z.to_nat 8))) by lia.
  intros H. exact H.
Qed.

(** What is known about an answer [a] of a skip from [index] on. *)
Definition skips (input : list byte) (e index a : Z) : Prop :=
  let ref := Z.min e (index + prefix_len not_blank (drop (Z.to_nat index) input)) in
  index <= a ∧ a <= Z.max index e ∧ ref <= a ∧ swallows (slice input index a)
  ∧ (cleanly_blank (drop (Z.to_nat index) input) → a = Z.max index ref).

Lemma skips_refl input e index :
  e <= index → skips input e index index.
Proof.
  intros. split_and!; try (intros; lia). rewrite slice_empty. constructor.
Qed.

(** One word, fully taken, then the rest. *)
Lemma skips_word input e index a :
  0 <= index → index + 8 <= len input → index + 8 <= e →
  lead (negb <$> blank_lanes (slice input index (index + 8))) = 8 →
  skips input e (index + 8) a → skips input e index a.
Proof.
  intros Hi Hl He Hq (H1&H2&H3&H4&H5). destruct (chunk_load input index Hi Hl) as (_&L&E).
  destruct (blank_lanes_spec (slice input index (index + 8))) as (B1&B2&B3). cbv zeta in *. rewrite Hq in *.
  assert (Hd : len (drop (Z.to_nat index) input) = len input - index) by (apply len_drop; lia).
  pose proof (prefix_len_split not_blank 8 (drop (Z.to_nat index) input) ltac:(lia)) as Es.
  rewrite drop_add, <- E in Es by lia. set (K := prefix_len not_blank (drop (Z.to_nat index) input)) in *.
  pose proof (prefix_len_range not_blank (drop (Z.to_nat (index + 8)) input)).
  split_and!; try lia.
  - destruct (Z.eqb_spec (prefix_len not_blank (slice input index (index + 8))) 8); lia.
  - rewrite (slice_split input index (index + 8) a) by lia. apply Forall_app_2; [|done].
    eapply swallows_slice; [exact B2|exact E|lia|lia].
  - intros Hc. assert (E8 : 8 = prefix_len not_blank (slice input index (index + 8))).
    { apply B3. rewrite E. by apply cleanly_take. }
    rewrite <- E8, Z.eqb_refl in Es. rewrite H5; [lia|].
    rewrite <- drop_add by lia. apply cleanly_drop; [lia| |done]. by rewrite <- E, <- E8.
Qed.

Lemma skip_words_spec fuel input index e a :
  0 <= index → e <= len input →
  match skip_ws_words fuel input index e with
  | Return a => skips input e index a
  | Break i => 0 <= i ∧ (skips input e i a → skips input e index a)
  end.
Proof.
  revert index. induction fuel as [|fuel IH]; intros index Hi He; cbn [skip_ws_words]; [done|].
  destruct (Z.ltb_spec index e) as [Hlt|]; [|done]. destruct (Z.leb_spec (index + 8) (len input)) as [Hl|]; [|done].
  destruct (chunk_load input index Hi Hl) as (Ec&L&E). rewrite Ec, (blank_mask _ L).
  rewrite unmarked_mask by (by rewrite length_blank_lanes).
  set (chunk := slice input index (index + 8)) in *.
  assert (Ln : length (negb <$> blank_lanes chunk) = 8%nat) by (by rewrite length_fmap, length_blank_lanes).
  pose proof (lead_range (negb <$> blank_lanes chunk)) as Hr. rewrite Ln in Hr.
  assert (Hz : mask_of (negb <$> blank_lanes chunk) = 0 ↔ lead (negb <$> blank_lanes chunk) = 8)
    by (rewrite mask_zero, Ln; done).
  assert (Hrec : index + 8 <= e → lead (negb <$> blank_lanes chunk) = 8 →
    match skip_ws_words fuel input (index + 8) e with
    | Return a => skips input e index a
    | Break i => 0 <= i ∧ (skips input e i a → skips input e index a) end).
  { intros H8 Hq. specialize (IH (index + 8) ltac:(lia) He).
    destruct (skip_ws_words _ _ _ _) as [b|i]; [by apply skips_word|].
    destruct IH as [Hi' IH]. split; [done|]. intros Ha. apply skips_word; auto. }
  destruct (blank_lanes_spec chunk) as (B1&B2&B3). cbv zeta in *.
  pose proof (prefix_len_split not_blank 8 (drop (Z.to_nat index) input) ltac:(rewrite len_drop; lia)) as Es.
  rewrite drop_add, <- E in Es by lia.
  pose proof (prefix_len_range not_blank (drop (Z.to_nat (index + 8)) input)) as HK.
  pose proof (prefix_len_range not_blank chunk) as Hk.
  assert (Hc : cleanly_blank (drop (Z.to_nat index) input) → cleanly_blank chunk)
    by (intros; rewrite E; by apply cleanly_take).
  destruct ((index + 8 <=? e) && (mask_of (blank_lanes chunk) =? ALL_WS)) eqn:Eall.
  - apply andb_prop in Eall as [H8%Z.leb_le Hall%Z.eqb_eq]. apply Hrec; [done|]. apply Hz.
    rewrite <- unmarked_mask by (by rewrite length_blank_lanes). by rewrite Hall.
  - destruct (Z.eqb_spec (mask_of (negb <$> blank_lanes chunk)) 0) as [H0|H0]; simpl negb; cbv iota.
    + apply Hz in H0. destruct (Z.ltb_spec e (index + 8)) as [H8|H8]; [|by apply Hrec].
      split_and!; try lia.
      * eapply swallows_slice; [rewrite H0 in B2; exact B2|exact E|lia|lia].
      * intros Hcl. specialize (B3 (Hc Hcl)). rewrite <- B3, H0 in Es. simpl in Es. lia.
    + assert (Hq : lead (negb <$> blank_lanes chunk) ≠ 8) by (intros H8; apply H0, Hz, H8).
      rewrite first_lane_lead by done. split_and!; try lia.
      * destruct (Z.eqb_spec (prefix_len not_blank chunk) 8); lia.
      * eapply swallows_slice; [exact B2|exact E|lia|lia].
      * intros Hcl. specialize (B3 (Hc Hcl)). destruct (Z.eqb_spec (prefix_len not_blank chunk) 8); lia.
Qed.

Lemma skip_spec input index end_ :
  0 <= index → skips input (Z.min end_ (len input)) index (skip_ascii_horizontal_ws input index end_).
Proof.
  intros Hi. unfold skip_ascii_horizontal_ws. set (e := Z.min end_ (len input)).
  pose proof (len_nonneg input).
  assert (Hb : ∀ i, 0 <= i → skips input e i (scan_bytes not_blank (length input) input i e)).
  { intros i Hi'. rewrite scan_bytes_exact by (unfold len in *; lia).
    pose proof (prefix_len_range not_blank (drop (Z.to_nat i) input)).
    split_and!; try lia. set (K := prefix_len _ _) in *. unfold slice.
    pose proof (prefix_len_before not_blank (drop (Z.to_nat i) input)) as Hf. fold K in Hf.
    apply (Forall_take _ (Z.to_nat (Z.max i (Z.min e (i + K)) - i))) in Hf. rewrite take_take in Hf.
    replace (Nat.min _ _) with (Z.to_nat (Z.max i (Z.min e (i + K)) - i)) in Hf by lia.
    eapply Forall_impl; [exact Hf|]. unfold not_blank, swallowed. intros b Eb%negb_false_iff. by rewrite Eb. }
  pose proof (λ a, skip_words_spec (length input) input index e a Hi ltac:(lia)) as Hw.
  destruct (skip_ws_words _ _ _ _) as [a|i]; [exact (Hw 0)|].
  destruct (Hw (scan_bytes not_blank (length input) input i e)) as [Hi' H']. apply H', (Hb i Hi').
Qed.

(** *** What a search finds *)

Lemma prefix_len_hit stop l :
  prefix_len stop l < len l → ∃ b, l !! Z.to_nat (prefix_len stop l) = Some b ∧ stop b = true.
Proof.
  induction l as [|b l IH]; cbn [prefix_len]; [intros H; change (0 < 0) in H; lia|].
  rewrite len_cons.
  pose proof (prefix_len_range stop l). destruct (stop b) eqn:E; [by exists b|]. intros H1.
  destruct IH as (b'&Hb&?); [lia|]. exists b'.
  replace (Z.to_nat (1 + prefix_len stop l)) with (S (Z.to_nat (prefix_len stop l))) by lia. done.
Qed.

Lemma find_ref_range stop l i e : 0 <= i → Z.min (Z.min e (len l)) i <= find_ref stop l i e <= Z.min e (len l).
Proof.
  intros. unfold find_ref. pose proof (prefix_len_range stop (drop (Z.to_nat i) l)). lia.
Qed.

Lemma find_ref_hit stop l i e :
  0 <= i → find_ref stop l i e < Z.min e (len l) →
  i <= find_ref stop l i e ∧ ∃ b, l !! Z.to_nat (find_ref stop l i e) = Some b ∧ stop b = true.
Proof.
  intros Hi. unfold find_ref. set (d := drop (Z.to_nat i) l). pose proof (prefix_len_range stop d). intros Hlt.
  assert (Hd : len d = len l - i) by (apply len_drop; lia).
  destruct (prefix_len_hit stop d) as (b&Hb&Hs); [lia|]. split; [lia|]. exists b. split; [|done].
  assert (Hb' : drop (Z.to_nat i) l !! Z.to_nat (prefix_len stop d) = Some b) by exact Hb.
  rewrite lookup_drop in Hb'. rewrite <- Hb'.
  replace (Z.to_nat (Z.min _ _)) with (Z.to_nat i + Z.to_nat (prefix_len stop d))%nat by lia. done.
Qed.



(** The byte that is lost: a word starting with [!] after a space. *)
Example skip_takes_bang :
  skip_ascii_horizontal_ws (text " !important") 0 11 = 2 ∧ skip_ref (text " !important") 0 11 = 1.
Proof. split; vm_compute; reflexivity. Qed.
