(* ===== verification/KdlChars.v ===== *)
(** * Characters of KDL text

    The character classes of [crates/tensor-kdl/src/parse/chars.rs] and what the
    reader uses of [str]: its characters, its character boundaries, their
    encoding. A [char] is its code point. *)

From Stdlib Require Import Strings.Byte.
From S2P Require Import Prelude Codec Bytes.

(** ** [parse/chars.rs] *)

Definition is_unicode_space (c : Z) : bool :=
  (c =? 9) || (c =? 32) || (c =? 160) || (c =? 5760) || ((8192 <=? c) && (c <=? 8202))
  || (c =? 8239) || (c =? 8287) || (c =? 12288).

Definition is_newline_char (c : Z) : bool :=
  (c =? 13) || (c =? 10) || (c =? 133) || (c =? 11) || (c =? 12) || (c =? 8232) || (c =? 8233).

Definition is_disallowed_literal (c : Z) : bool :=
  ((0 <=? c) && (c <=? 8)) || ((14 <=? c) && (c <=? 31)) || (c =? 127)
  || ((8206 <=? c) && (c <=? 8207)) || ((8234 <=? c) && (c <=? 8238)) || ((8294 <=? c) && (c <=? 8297))
  || (c =? 65279).

(** The delimiters: backslash, slash, brackets of the three kinds, semicolon,
    quote, hash and equals sign. *)
Definition is_delimiter (c : Z) : bool :=
  (c =? 92) || (c =? 47) || (c =? 40) || (c =? 41) || (c =? 123) || (c =? 125) || (c =? 59)
  || (c =? 91) || (c =? 93) || (c =? 34) || (c =? 35) || (c =? 61).

Definition is_non_identifier_char (c : Z) : bool :=
  is_unicode_space c || is_newline_char c || is_delimiter c || is_disallowed_literal c.

(** ** UTF-8 *)

(** [char::from_u32(c)] succeeds. *)
Definition is_scalar (c : Z) : bool := ((0 <=? c) && (c <? 55296)) || ((57344 <=? c) && (c <=? 1114111)).

(** [c.encode_utf8]. *)
Definition encode_utf8 (c : Z) : list byte :=
  if c <? 128 then [byte_of c]
  else if c <? 2048 then [byte_of (192 + c / 64); byte_of (128 + c mod 64)]
  else if c <? 65536
  then [byte_of (224 + c / 4096); byte_of (128 + c / 64 mod 64); byte_of (128 + c mod 64)]
  else [byte_of (240 + c / 262144); byte_of (128 + c / 4096 mod 64); byte_of (128 + c / 64 mod 64);
        byte_of (128 + c mod 64)].

Definition len_utf8 (c : Z) : Z := if c <? 128 then 1 else if c <? 2048 then 2 else if c <? 65536 then 3 else 4.

Definition low6 (b : byte) : Z := value b mod 64.

(** [chars.next()] with the rest of the text. *)
Definition next_char (l : list byte) : option (Z * list byte) :=
  match l with
  | [] => None
  | a :: l =>
      if is_ascii a then Some (value a, l)
      else match l with
           | [] => None
           | b :: l =>
               if value a <? 224 then Some (value a mod 32 * 64 + low6 b, l)
               else match l with
                    | [] => None
                    | c :: l =>
                        if value a <? 240 then Some (value a mod 16 * 4096 + low6 b * 64 + low6 c, l)
                        else match l with
                             | [] => None
                             | d :: l =>
                                 Some (value a mod 8 * 262144 + low6 b * 4096 + low6 c * 64 + low6 d, l)
                             end
                    end
           end
  end.

Fixpoint chars_from (fuel : nat) (l : list byte) : list Z :=
  match fuel with
  | O => []
  | S fuel => match next_char l with Some (c, l) => c :: chars_from fuel l | None => [] end
  end.

(** [s.chars()]. *)
Definition chars (l : list byte) : list Z := chars_from (length l) l.

(** The text of some characters: [String::push] for each. *)
Definition utf8 (cs : list Z) : list byte := concat (encode_utf8 <$> cs).

(** [s.is_char_boundary(i)]. *)
Definition is_char_boundary (l : list byte) (i : Z) : bool :=
  (i =? len l) || match l !! Z.to_nat i with Some b => (0 <=? i) && negb (continuation b) | None => false end.

(** [&s[a..b]], which panics when a bound is not a character boundary. *)
Definition str_slice (l : list byte) (a b : Z) : option (list byte) :=
  if (a <=? b) && is_char_boundary l a && is_char_boundary l b then Some (slice l a b) else None.

(** *** Lemmas *)

Definition scalar (c : Z) : Prop := is_scalar c = true.

Lemma utf8_cons c cs : utf8 (c :: cs) = encode_utf8 c ++ utf8 cs.
Proof. done. Qed.

Lemma utf8_app cs ds : utf8 (cs ++ ds) = utf8 cs ++ utf8 ds.
Proof. unfold utf8. by rewrite fmap_app, concat_app. Qed.

Lemma scalar_range c : scalar c → 0 <= c <= 1114111 ∧ ¬ (55296 <= c < 57344).
Proof. unfold scalar, is_scalar. lia. Qed.

(** Bytes of an encoding, by their value. *)
Lemma value_lead k v n : 0 <= v < n → k + n <= 256 → 0 <= k → value (byte_of (k + v)) = k + v.
Proof. intros. apply value_of_small. lia. Qed.

Lemma cont_value v : value (byte_of (128 + v mod 64)) = 128 + v mod 64.
Proof. apply value_of_small. pose proof (Z.mod_pos_bound v 64). lia. Qed.

Lemma cont_low v : low6 (byte_of (128 + v mod 64)) = v mod 64.
Proof.
  unfold low6. rewrite cont_value. replace (128 + v mod 64) with (v mod 64 + 2 * 64) by lia.
  by rewrite Z_mod_plus_full, Zmod_mod.
Qed.

Lemma cont_continuation v : continuation (byte_of (128 + v mod 64)) = true.
Proof. unfold continuation, in_range. rewrite cont_value. pose proof (Z.mod_pos_bound v 64). lia. Qed.

(** The four shapes of an encoding. *)
Inductive encoded (c : Z) : list byte → Prop :=
| encoded1 a : c < 128 → value a = c → encoded c [a]
| encoded2 a b :
    128 <= c < 2048 → value a = 192 + c / 64 → value b = 128 + c mod 64 → encoded c [a; b]
| encoded3 a b d :
    2048 <= c < 65536 → value a = 224 + c / 4096 → value b = 128 + c / 64 mod 64 →
    value d = 128 + c mod 64 → encoded c [a; b; d]
| encoded4 a b d e :
    65536 <= c → value a = 240 + c / 262144 → value b = 128 + c / 4096 mod 64 →
    value d = 128 + c / 64 mod 64 → value e = 128 + c mod 64 → encoded c [a; b; d; e].

Lemma encode_encoded c : scalar c → encoded c (encode_utf8 c).
Proof.
  intros [Hc _]%scalar_range. unfold encode_utf8.
  destruct (Z.ltb_spec c 128); [constructor; [done|]; apply value_of_small; lia|].
  destruct (Z.ltb_spec c 2048); [|destruct (Z.ltb_spec c 65536)]; constructor; try lia;
    rewrite ?cont_value; try done; apply value_of_small; div_lia.
Qed.

Lemma encoded_unique c l : scalar c → encoded c l → l = encode_utf8 c.
Proof.
  intros [Hc _]%scalar_range Hl. unfold encode_utf8. destruct Hl.
  - destruct (Z.ltb_spec c 128); [|lia]. f_equal. apply byte_value_inj. rewrite value_of_small; lia.
  - destruct (Z.ltb_spec c 128); [lia|]. destruct (Z.ltb_spec c 2048); [|lia].
    f_equal; [|f_equal]; apply byte_value_inj; rewrite value_of_small; div_lia.
  - destruct (Z.ltb_spec c 128); [lia|]. destruct (Z.ltb_spec c 2048); [lia|].
    destruct (Z.ltb_spec c 65536); [|lia].
    f_equal; [|f_equal; [|f_equal]]; apply byte_value_inj; rewrite value_of_small; div_lia.
  - destruct (Z.ltb_spec c 128); [lia|]. destruct (Z.ltb_spec c 2048); [lia|].
    destruct (Z.ltb_spec c 65536); [lia|].
    f_equal; [|f_equal; [|f_equal; [|f_equal]]]; apply byte_value_inj; rewrite value_of_small; div_lia.
Qed.

Lemma next_char_encode c r : scalar c → next_char (encode_utf8 c ++ r) = Some (c, r).
Proof.
  intros Hs. destruct (encode_encoded c Hs) as [a ? E|a b ? E1 E2|a b d ? E1 E2 E3|a b d e ? E1 E2 E3 E4];
    apply scalar_range in Hs as [Hc _]; simpl; unfold is_ascii, low6;
    rewrite ?E, ?E1, ?E2, ?E3, ?E4.
  - by destruct (Z.ltb_spec c 128); [|lia].
  - destruct (Z.ltb_spec (192 + c / 64) 128); [div_lia|]. destruct (Z.ltb_spec (192 + c / 64) 224); [|div_lia].
    do 2 f_equal. div_lia.
  - destruct (Z.ltb_spec (224 + c / 4096) 128); [div_lia|]. destruct (Z.ltb_spec (224 + c / 4096) 224); [div_lia|].
    destruct (Z.ltb_spec (224 + c / 4096) 240); [|div_lia]. do 2 f_equal. div_lia.
  - destruct (Z.ltb_spec (240 + c / 262144) 128); [div_lia|].
    destruct (Z.ltb_spec (240 + c / 262144) 224); [div_lia|].
    destruct (Z.ltb_spec (240 + c / 262144) 240); [div_lia|]. do 2 f_equal. div_lia.
Qed.

Lemma in_true lo hi v : lo <= v <= hi → (lo <=? v) && (v <=? hi) = true.
Proof. lia. Qed.

Lemma is_utf8_encode c r : scalar c → is_utf8 (encode_utf8 c ++ r) = is_utf8 r.
Proof.
  intros Hs. destruct (encode_encoded c Hs) as [a ? E|a b ? E1 E2|a b d ? E1 E2 E3|a b d e ? E1 E2 E3 E4];
    apply scalar_range in Hs as [Hc Hd]; simpl;
    unfold is_ascii, three_byte_start, four_byte_start, continuation, in_range; rewrite ?E, ?E1, ?E2, ?E3, ?E4.
  - by destruct (Z.ltb_spec c 128); [|lia].
  - destruct (Z.ltb_spec (192 + c / 64) 128); [div_lia|].
    by rewrite (in_true 194 223), (in_true 128 191) by div_lia.
  - destruct (Z.ltb_spec (224 + c / 4096) 128); [div_lia|].
    destruct ((194 <=? 224 + c / 4096) && _) eqn:E0; [div_lia|]. clear E0.
    match goal with |- context [if ?g then _ else _] => assert (Hg : g = true) end.
    { assert (224 + c / 4096 = 224 ∧ 32 <= c / 64 mod 64 ∨ 225 <= 224 + c / 4096 <= 236 ∨
        224 + c / 4096 = 237 ∧ c / 64 mod 64 <= 31 ∨ 238 <= 224 + c / 4096 <= 239) by div_lia.
      pose proof (Z.mod_pos_bound (c / 64) 64 ltac:(lia)).
      set (u := c / 4096) in *. set (v := c / 64 mod 64) in *. clearbody u v. lia. }
    rewrite Hg. by rewrite (in_true 128 191) by div_lia.
  - destruct (Z.ltb_spec (240 + c / 262144) 128); [div_lia|].
    destruct ((194 <=? 240 + c / 262144) && _) eqn:E0; [div_lia|]. clear E0.
    assert (Hu : 0 <= c / 262144 <= 4) by div_lia.
    assert (Hv : c / 262144 = 0 → 16 <= c / 4096 mod 64) by div_lia.
    assert (Hw : c / 262144 = 4 → c / 4096 mod 64 <= 15) by div_lia.
    pose proof (Z.mod_pos_bound (c / 4096) 64 ltac:(lia)).
    rewrite (in_true 128 191 (128 + c / 64 mod 64)), (in_true 128 191 (128 + c mod 64)) by div_lia.
    set (u := c / 262144) in *. set (v := c / 4096 mod 64) in *. clearbody u v.
    match goal with |- context [if ?g then _ else _] => assert (Hg : g = false) by lia end. rewrite Hg.
    match goal with |- ?g && true && true && _ = _ => assert (Hf : g = true) by lia end. by rewrite Hf.
Qed.

(** Every text is empty or starts with the encoding of a character. *)
Lemma utf8_cases l :
  is_utf8 l = true → l = [] ∨ ∃ c r, scalar c ∧ l = encode_utf8 c ++ r ∧ is_utf8 r = true.
Proof.
  destruct l as [|a l]; [by left|]. intros H. right. pose proof (value_range a) as Ha. simpl in H.
  unfold is_ascii in H. destruct (Z.ltb_spec (value a) 128).
  { exists (value a), l. assert (scalar (value a)) by (unfold scalar, is_scalar; lia).
    rewrite <- (encoded_unique (value a) [a]) by (done || by constructor). done. }
  destruct l as [|b l]; [done|]. pose proof (value_range b) as Hb.
  unfold continuation, three_byte_start, four_byte_start, in_range in H.
  destruct ((194 <=? value a) && (value a <=? 223)) eqn:E1.
  { apply andb_prop in H as [H1 H2]. exists (value a mod 32 * 64 + low6 b), l. unfold low6.
    rewrite <- (encoded_unique _ [a; b]); [split; [unfold scalar, is_scalar; div_lia|done]|
      unfold scalar, is_scalar; div_lia|constructor; div_lia]. }
  destruct l as [|d l]; [done|]. pose proof (value_range d) as Hd.
  match type of H with (if ?g then _ else _) = _ => destruct g eqn:E2 end.
  { apply andb_prop in H as [H1 H2]. exists (value a mod 16 * 4096 + low6 b * 64 + low6 d), l. unfold low6.
    unfold continuation, in_range in E2.
    assert (R : 224 <= value a <= 239 ∧ 128 <= value b <= 191 ∧ (value a = 224 → 160 <= value b)
      ∧ (value a = 237 → value b <= 159)) by lia. clear E1 E2.
    rewrite <- (encoded_unique _ [a; b; d]); [split; [unfold scalar, is_scalar; div_lia|done]|
      unfold scalar, is_scalar; div_lia|constructor; div_lia]. }
  destruct l as [|e l]; [done|]. pose proof (value_range e) as He. clear E2.
  apply andb_prop in H as [[[H5 H1]%andb_prop H2]%andb_prop H3].
  exists (value a mod 8 * 262144 + low6 b * 4096 + low6 d * 64 + low6 e), l. unfold low6.
  unfold continuation, in_range in H5.
  assert (R : 240 <= value a <= 244 ∧ 128 <= value b <= 191 ∧ (value a = 240 → 144 <= value b)
      ∧ (value a = 244 → value b <= 143)) by lia. clear E1 H5.
  rewrite <- (encoded_unique _ [a; b; d; e]); [split; [unfold scalar, is_scalar; div_lia|done]|
    unfold scalar, is_scalar; div_lia|constructor; div_lia].
Qed.

Lemma len_encode_utf8 c : scalar c → len (encode_utf8 c) = len_utf8 c ∧ 1 <= len_utf8 c.
Proof.
  intros _. unfold encode_utf8, len_utf8. destruct (c <? 128); [done|].
  destruct (c <? 2048); [done|]. by destruct (c <? 65536).
Qed.

Lemma next_char_utf8 c cs : Forall scalar (c :: cs) → next_char (utf8 (c :: cs)) = Some (c, utf8 cs).
Proof. rewrite Forall_cons. intros [Hc _]. rewrite utf8_cons. by apply next_char_encode. Qed.

Lemma utf8_texts l : is_utf8 l = true ↔ ∃ cs, Forall scalar cs ∧ l = utf8 cs.
Proof.
  split.
  - remember (length l) as n eqn:En. revert l En. induction n as [n IH] using lt_wf_ind. intros l -> H.
    destruct (utf8_cases l H) as [->|(c&r&Hc&->&Hr)]; [by exists []|].
    destruct (IH (length r)) with r as (cs&Hcs&->); try done.
    { rewrite length_app. destruct (len_encode_utf8 c Hc). unfold len in *. lia. }
    exists (c :: cs). split; [by constructor|done].
  - intros (cs&Hcs&->). induction Hcs as [|c cs Hc Hcs IH]; [done|].
    by rewrite utf8_cons, is_utf8_encode.
Qed.

Lemma utf8_valid cs : Forall scalar cs → is_utf8 (utf8 cs) = true.
Proof. intros. apply utf8_texts. eauto. Qed.

Lemma is_utf8_app l r : is_utf8 l = true → is_utf8 (l ++ r) = is_utf8 r.
Proof.
  intros (cs&Hcs&->)%utf8_texts. induction Hcs as [|c cs Hc Hcs IH]; [done|].
  by rewrite utf8_cons, <- app_assoc, is_utf8_encode.
Qed.

Lemma next_char_valid l :
  is_utf8 l = true →
  match next_char l with
  | Some (c, r) => scalar c ∧ l = encode_utf8 c ++ r ∧ is_utf8 r = true
  | None => l = []
  end.
Proof.
  intros H. destruct (utf8_cases l H) as [->|(c&r&Hc&->&Hr)]; [done|]. by rewrite next_char_encode.
Qed.

Lemma chars_from_utf8 cs n :
  Forall scalar cs → (length (utf8 cs) <= n)%nat → chars_from n (utf8 cs) = cs.
Proof.
  intros H. revert n. induction H as [|c cs Hc Hcs IH]; intros n Hn; [by destruct n|].
  rewrite utf8_cons in *. rewrite length_app in Hn. destruct (len_encode_utf8 c Hc). unfold len in *.
  destruct n as [|n]; [lia|]. cbn [chars_from]. rewrite next_char_encode by done. f_equal. apply IH. lia.
Qed.

Lemma chars_utf8 cs : Forall scalar cs → chars (utf8 cs) = cs.
Proof. intros. by apply chars_from_utf8. Qed.

(** *** Character boundaries *)

Definition starts_char (l : list byte) : Prop :=
  match l with [] => True | b :: _ => continuation b = false end.

Lemma encode_utf8_shape c : scalar c → ∃ b l, encode_utf8 c = b :: l ∧ continuation b = false ∧ Forall (λ b, continuation b = true) l.
Proof.
  intros Hs. destruct (encode_encoded c Hs) as [a ? E|a b ? E1 E2|a b d ? E1 E2 E3|a b d e ? E1 E2 E3 E4];
    apply scalar_range in Hs as [Hc _]; eexists _, _; (split; [done|]);
    unfold continuation, in_range; rewrite ?E, ?E1; (split; [div_lia|]);
    repeat constructor; rewrite ?E2, ?E3, ?E4; div_lia.
Qed.

Lemma valid_starts_char l : is_utf8 l = true → starts_char l.
Proof.
  intros H. destruct (utf8_cases l H) as [->|(c&r&Hc&->&Hr)]; [done|].
  by destruct (encode_utf8_shape c Hc) as (b&k&->&?&_).
Qed.

Lemma valid_split a b :
  is_utf8 (a ++ b) = true → starts_char b → is_utf8 a = true ∧ is_utf8 b = true.
Proof.
  remember (length a) as n eqn:En. revert a En. induction n as [n IH] using lt_wf_ind. intros a -> H Hb.
  destruct a as [|x a]; [done|].
  destruct (utf8_cases _ H) as [?|(c&r&Hc&E&Hr)]; [done|].
  destruct (encode_utf8_shape c Hc) as (y&l&Ec&_&Hl).
  apply app_eq_app in E as [k [[E1 E2]|[E1 E2]]].
  - rewrite E1 in *. destruct (IH (length k)) with k as [H1 H2]; try done.
    + rewrite length_app, Ec. simpl. lia.
    + by rewrite <- E2.
    + by rewrite is_utf8_encode.
  - destruct k as [|z k].
    + rewrite app_nil_r in E1. simpl in E2. subst r. rewrite <- E1.
      split; [|done]. rewrite <- (app_nil_r (encode_utf8 c)). by rewrite is_utf8_encode.
    + exfalso. subst b. rewrite Ec in E1. injection E1 as -> ->. simpl in Hb.
      apply Forall_app in Hl as [_ Hl]. inversion_clear Hl. congruence.
Qed.

Lemma boundary_starts l i :
  0 <= i <= len l → is_char_boundary l i = true ↔ starts_char (drop (Z.to_nat i) l).
Proof.
  intros Hi. unfold is_char_boundary. destruct (l !! Z.to_nat i) as [b|] eqn:Eb.
  - rewrite (drop_S _ _ _ Eb). simpl. apply lookup_lt_Some in Eb. unfold len in *.
    destruct (Z.eqb_spec i (Z.of_nat (length l))); [lia|]. destruct (Z.leb_spec 0 i); [|lia]. simpl.
    by destruct (continuation b).
  - apply lookup_ge_None in Eb. rewrite drop_ge by done. unfold len in *.
    destruct (Z.eqb_spec i (Z.of_nat (length l))); [done|lia].
Qed.

Lemma boundary_valid l i :
  is_utf8 l = true → 0 <= i <= len l →
  is_char_boundary l i = true ↔ is_utf8 (drop (Z.to_nat i) l) = true.
Proof.
  intros Hl Hi. rewrite boundary_starts by done. split; [|apply valid_starts_char].
  intros H. eapply (valid_split (take (Z.to_nat i) l)); [by rewrite take_drop|done].
Qed.

(** A slice between two boundaries. *)
Lemma str_slice_valid l a b :
  is_utf8 l = true → 0 <= a <= b → b <= len l →
  is_utf8 (drop (Z.to_nat a) l) = true → is_utf8 (drop (Z.to_nat b) l) = true →
  str_slice l a b = Some (slice l a b) ∧ is_utf8 (slice l a b) = true
  ∧ drop (Z.to_nat a) l = slice l a b ++ drop (Z.to_nat b) l.
Proof.
  intros Hl Hab Hb Ha' Hb'.
  assert (E : drop (Z.to_nat a) l = slice l a b ++ drop (Z.to_nat b) l).
  { unfold slice. rewrite <- (take_drop (Z.to_nat (b - a)) (drop (Z.to_nat a) l)) at 1.
    f_equal. rewrite drop_drop. replace (_ + _)%nat with (Z.to_nat b) by lia. done. }
  split; [|split; [|done]].
  - unfold str_slice. rewrite (proj2 (boundary_valid l a Hl ltac:(lia))) by done.
    rewrite (proj2 (boundary_valid l b Hl ltac:(lia))) by done.
    by destruct (Z.leb_spec a b); [|lia].
  - rewrite E in Ha'. by apply valid_split in Ha' as [? _]; [|apply valid_starts_char].
Qed.
