(* ===== verification/KdlValue.v ===== *)
(** * KDL values, errors and the reader's context

    [crates/tensor-kdl/src]: the values and the tree of [value.rs] and
    [value/tree.rs], the error of [error.rs] without its texts, the context of
    [context.rs], the options of [opts.rs], the padded buffer of [pad.rs] and
    the numbers that [str::parse] reads. A string is the list of its bytes. *)

From Stdlib Require Import Strings.String Strings.Byte Floats.SpecFloat.
From S2P Require Import Prelude Codec Bytes KdlChars.

(** ** Numbers of the standard library *)

Module I128.

Definition MAX : Z := 2 ^ 127 - 1.

Definition MIN : Z := - 2 ^ 127.

Definition ok (v : Z) : Prop := MIN <= v <= MAX.

End I128.

(** The digits of a number, most significant first. *)
Fixpoint read_digits (radix acc : Z) (l : list byte) : option Z :=
  match l with
  | [] => Some acc
  | b :: l =>
      match hex b with
      | Some d => if d <? radix then read_digits radix (acc * radix + d) l else None
      | None => None
      end
  end.

(** [from_str_radix] of an integer type with the range from [lo] to [hi]; for
    radix ten it is [str::parse]. *)
Definition from_str_radix (lo hi radix : Z) (l : list byte) : option Z :=
  let '(negative, digits) :=
    match l with
    | b :: rest =>
        if decide (b = "+"%byte) then (false, rest)
        else if bool_decide (b = "-"%byte) && (lo <? 0) then (true, rest) else (false, l)
    | [] => (false, l)
    end in
  match digits with
  | [] => None
  | _ =>
      magnitude ← read_digits radix 0 digits;
      let v := if negative : bool then - magnitude else magnitude in
      if (lo <=? v) && (v <=? hi) then Some v else None
  end.

(** The [f64] of a decimal number, rounded to the nearest, ties to even. *)
Definition f64 : Type := spec_float.

Definition of_decimal (negative : bool) (mantissa exponent : Z) : f64 :=
  match mantissa with
  | Zpos m =>
      if 0 <=? exponent
      then binary_normalize 53 1024 ((if negative then -1 else 1) * (mantissa * 10 ^ exponent)) 0 false
      else SFdiv 53 1024 (S754_finite negative m 0) (S754_finite false (Z.to_pos (10 ^ (- exponent))) 0)
  | _ => S754_zero negative
  end.

(** The longest prefix of decimal digits, and the rest. *)
Fixpoint span_digits (l : list byte) : list byte * list byte :=
  match l with
  | [] => ([], [])
  | b :: rest =>
      if is_ascii_digit b then let '(digits, rest) := span_digits rest in (b :: digits, rest) else ([], l)
  end.

(** [raw.parse::<f64>()] of a decimal number; the names of the infinities and
    of NaN are not read, which no number literal contains. *)
Definition parse_f64 (l : list byte) : option f64 :=
  let '(negative, l) :=
    match l with
    | b :: rest => if decide (b = "+"%byte) then (false, rest)
                   else if decide (b = "-"%byte) then (true, rest) else (false, l)
    | [] => (false, l)
    end in
  let '(integer, l) := span_digits l in
  let '(fraction, l) :=
    match l with
    | b :: rest => if decide (b = "."%byte) then span_digits rest else ([], l)
    | [] => ([], l)
    end in
  if decide (integer ++ fraction = []) then None
  else
    mantissa ← read_digits 10 0 (integer ++ fraction);
    match l with
    | [] => Some (of_decimal negative mantissa (- len fraction))
    | b :: rest =>
        if decide (b = "e"%byte ∨ b = "E"%byte) then
          let '(below, digits) :=
            match rest with
            | b :: digits => if decide (b = "+"%byte) then (false, digits)
                             else if decide (b = "-"%byte) then (true, digits) else (false, rest)
            | [] => (false, rest)
            end in
          match digits with
          | [] => None
          | _ =>
              exponent ← read_digits 10 0 digits;
              Some (of_decimal negative mantissa ((if below : bool then - exponent else exponent) - len fraction))
          end
        else None
    end.

Example parse_f64_examples :
  parse_f64 (text "0.1") = Some (S754_finite false 7205759403792794 (-56)) ∧
  parse_f64 (text "-12.50") = parse_f64 (text "-125e-1") ∧
  parse_f64 (text "1e400") = Some (S754_infinity false) ∧
  parse_f64 (text "1e-400") = Some (S754_zero false).
Proof. vm_compute. done. Qed.

(** ** [error.rs] *)

Module ErrorCode.

Inductive t :=
| None | UnexpectedEof | Syntax | InvalidEscape | InvalidNumber | InvalidIdent | InvalidKeyword
| ExpectedNodeName | ExpectedValue | ExpectedEquals | ExpectedBrace | ExpectedTerminator
| UnknownProperty | UnknownChild | MissingProperty | MissingArgument | MissingChild
| DuplicateProperty | TypeMismatch | ExceededMaxDepth | ExceededLimit | DisallowedCodePoint
| UnexpectedToken | NoReadInput | BufferOverflow.

End ErrorCode.

#[export] Instance error_code_eq_dec : EqDecision ErrorCode.t.
Proof. solve_decision. Defined.

(** The message and the expected token are texts for the user. *)
Module ErrorCtx.

Record t := { consumed : Z; code : ErrorCode.t }.

Definition ok (consumed : Z) : t := {| consumed := consumed; code := ErrorCode.None |}.

Definition new (code : ErrorCode.t) (consumed : Z) : t := {| consumed := consumed; code := code |}.

Definition with_consumed (consumed : Z) (e : t) : t := {| consumed := consumed; code := code e |}.

Definition is_err (e : t) : bool := negb (bool_decide (code e = ErrorCode.None)).

End ErrorCtx.

(** ** [opts.rs] *)

Module Opts.

Record t := {
  error_on_unknown_keys : bool;
  error_on_missing_keys : bool;
  partial_read : bool;
  validate_trailing : bool }.

Definition new : t :=
  {| error_on_unknown_keys := true; error_on_missing_keys := false;
     partial_read := false; validate_trailing := true |}.

Definition lenient : t :=
  {| error_on_unknown_keys := false; error_on_missing_keys := false;
     partial_read := false; validate_trailing := true |}.

Definition partial : t :=
  {| error_on_unknown_keys := true; error_on_missing_keys := false;
     partial_read := true; validate_trailing := false |}.

Definition FLAG_ERROR_ON_UNKNOWN : Z := Z.shiftl 1 0.

Definition FLAG_ERROR_ON_MISSING : Z := Z.shiftl 1 1.

Definition FLAG_PARTIAL_READ : Z := Z.shiftl 1 2.

Definition FLAG_VALIDATE_TRAILING : Z := Z.shiftl 1 3.

Definition OPTS_DEFAULT : Z := Z.lor FLAG_ERROR_ON_UNKNOWN FLAG_VALIDATE_TRAILING.

Definition OPTS_LENIENT : Z := FLAG_VALIDATE_TRAILING.

Definition OPTS_PARTIAL : Z := Z.lor FLAG_ERROR_ON_UNKNOWN FLAG_PARTIAL_READ.

Definition bits (self : t) : Z :=
  let b := 0 in
  let b := if error_on_unknown_keys self then Z.lor b FLAG_ERROR_ON_UNKNOWN else b in
  let b := if error_on_missing_keys self then Z.lor b FLAG_ERROR_ON_MISSING else b in
  let b := if partial_read self then Z.lor b FLAG_PARTIAL_READ else b in
  if validate_trailing self then Z.lor b FLAG_VALIDATE_TRAILING else b.

Definition flag (f opts : Z) : bool := negb (Z.land opts f =? 0).

Definition flag_error_on_unknown : Z → bool := flag FLAG_ERROR_ON_UNKNOWN.

Definition flag_error_on_missing : Z → bool := flag FLAG_ERROR_ON_MISSING.

Definition flag_partial_read : Z → bool := flag FLAG_PARTIAL_READ.

Definition flag_validate_trailing : Z → bool := flag FLAG_VALIDATE_TRAILING.

Definition from_bits (bits : Z) : t :=
  {| error_on_unknown_keys := flag_error_on_unknown bits;
     error_on_missing_keys := flag_error_on_missing bits;
     partial_read := flag_partial_read bits;
     validate_trailing := flag_validate_trailing bits |}.

End Opts.

(** ** [context.rs] *)

Module Context.

(** Without the message and the file name. *)
Record t := {
  error : ErrorCode.t;
  depth : Z;
  scratch : list byte;
  max_string_len : Z;
  max_children : Z;
  max_depth : Z;
  error_on_unknown_keys : bool;
  error_on_missing_keys : bool }.

Definition DEFAULT_MAX_DEPTH : Z := 256.

Definition new : t :=
  {| error := ErrorCode.None; depth := 0; scratch := []; max_string_len := U64.MAX;
     max_children := U64.MAX; max_depth := DEFAULT_MAX_DEPTH;
     error_on_unknown_keys := true; error_on_missing_keys := false |}.

Definition set_error (e : ErrorCode.t) (c : t) : t :=
  {| error := e; depth := depth c; scratch := scratch c; max_string_len := max_string_len c;
     max_children := max_children c; max_depth := max_depth c;
     error_on_unknown_keys := error_on_unknown_keys c; error_on_missing_keys := error_on_missing_keys c |}.

Definition set_depth (d : Z) (c : t) : t :=
  {| error := error c; depth := d; scratch := scratch c; max_string_len := max_string_len c;
     max_children := max_children c; max_depth := max_depth c;
     error_on_unknown_keys := error_on_unknown_keys c; error_on_missing_keys := error_on_missing_keys c |}.

Definition set_scratch (s : list byte) (c : t) : t :=
  {| error := error c; depth := depth c; scratch := s; max_string_len := max_string_len c;
     max_children := max_children c; max_depth := max_depth c;
     error_on_unknown_keys := error_on_unknown_keys c; error_on_missing_keys := error_on_missing_keys c |}.

Definition apply_opts (opts : Opts.t) (c : t) : t :=
  {| error := error c; depth := depth c; scratch := scratch c; max_string_len := max_string_len c;
     max_children := max_children c; max_depth := max_depth c;
     error_on_unknown_keys := Opts.error_on_unknown_keys opts;
     error_on_missing_keys := Opts.error_on_missing_keys opts |}.

Definition clear_error (c : t) : t := set_error ErrorCode.None c.

Definition reset_depth (c : t) : t := set_depth 0 c.

Definition clear_scratch (c : t) : t := set_scratch [] c.

Definition try_enter_depth (c : t) : t * bool :=
  if max_depth c <=? depth c then (set_error ErrorCode.ExceededMaxDepth c, false)
  else (set_depth (depth c + 1) c, true).

Definition enter_depth (offset : Z) (c : t) : t * Outcome ErrorCtx.t unit :=
  let '(c, entered) := try_enter_depth c in
  if negb entered then (c, Err (ErrorCtx.new ErrorCode.ExceededMaxDepth offset)) else (c, Ok tt).

Definition leave_depth (c : t) : t := set_depth (U32.saturating_sub (depth c) 1) c.

End Context.

(** ** [pad.rs] *)

Module PaddedInput.

Record t := { buf : list byte; content_len : Z }.

Definition PADDING_BYTES : Z := 16.

(** [buf.resize(n, 0)]. *)
Definition resize (n : Z) (l : list byte) : list byte :=
  take (Z.to_nat n) l ++ replicate (Z.to_nat n - length l) Byte.x00.

Definition new (input : list byte) : t :=
  {| buf := resize (len input + PADDING_BYTES) input; content_len := len input |}.

Definition from_string (s : list byte) : t :=
  {| buf := resize (len s + PADDING_BYTES) s; content_len := len s |}.

(** The length overflows no [usize]: a string has at most [isize::MAX] bytes. *)
Definition replace (input : list byte) (self : t) : t :=
  {| buf := resize (len input + PADDING_BYTES) input; content_len := len input |}.

(** [expect] is the panic on invalid UTF-8. *)
Definition as_str (self : t) : Outcome ErrorCtx.t (list byte) :=
  let content := slice (buf self) 0 (content_len self) in
  if is_utf8 content then Ok content else Panic.

Definition padded_bytes (self : t) : list byte := buf self.

Definition content_bytes (self : t) : list byte := slice (buf self) 0 (content_len self).

Definition load_u64_for_scan (input : list byte) (index : Z) : Z :=
  if len input <=? index then 0
  else
    let n := Z.min (len input - index) 8 in
    from_le_bytes (slice input index (index + n) ++ replicate (8 - Z.to_nat n) Byte.x00).

End PaddedInput.

(** ** [value.rs] and [value/tree.rs] *)

(** [KdlStr]: whether the text is borrowed cannot be observed. *)
Definition KdlStr : Type := list byte.

Module Value.

Inductive t :=
| String (s : KdlStr)
| Int (n : Z)
| Float (value : f64) (raw : option KdlStr)
| Bool (b : bool)
| Null.

Definition float (value : f64) : t := Float value None.

Definition float_raw (value : f64) (raw : KdlStr) : t := Float value (Some raw).

Definition as_str (self : t) : option KdlStr := match self with String s => Some s | _ => None end.

Definition as_bool (self : t) : option bool := match self with Bool b => Some b | _ => None end.

Definition as_i128 (self : t) : option Z := match self with Int n => Some n | _ => None end.

End Value.

Module Entry.

Inductive t :=
| Argument (type_name : option KdlStr) (value : Value.t)
| Property (key : KdlStr) (type_name : option KdlStr) (value : Value.t).

Definition is_argument (self : t) : bool := match self with Argument _ _ => true | _ => false end.

Definition is_property (self : t) : bool := match self with Property _ _ _ => true | _ => false end.

End Entry.

Module Node.

Inductive t := mk {
  type_name : option KdlStr;
  name : KdlStr;
  entries : list Entry.t;
  children : list t }.

Definition arguments (self : t) : list Value.t :=
  omap (λ e, match e with Entry.Argument _ value => Some value | _ => None end) (entries self).

(** [entries.iter().rev().find_map(..)]. *)
Definition property (name : KdlStr) (self : t) : option Value.t :=
  head (omap (λ e, match e with
                   | Entry.Property key _ value => if decide (key = name) then Some value else None
                   | _ => None
                   end) (rev (entries self))).

Definition child (name_ : KdlStr) (self : t) : option t :=
  find (λ n, bool_decide (name n = name_)) (children self).

End Node.

Module Document.

Record t := { nodes : list Node.t }.

Definition is_empty (self : t) : bool := match nodes self with [] => true | _ => false end.

Definition node (name : KdlStr) (self : t) : option Node.t :=
  find (λ n, bool_decide (Node.name n = name)) (nodes self).

End Document.
