(* ===== verification/KdlParser.v ===== *)
(** * The KDL reader: scalars, strings and spaces

    [crates/tensor-kdl/src/parse/reader.rs] with [reader/space.rs],
    [reader/string.rs], [reader/multiline.rs] and [reader/number.rs]. A method
    of [Parser] is a [Run] over the cursor; the borrowed input is a parameter.
    Every slice of the input panics off the character boundaries, and a loop
    that ran out of fuel would panic, so that a run without a panic also
    terminates. *)

From Stdlib Require Import Strings.String Strings.Byte Floats.SpecFloat.
From S2P Require Import Prelude Codec Bytes KdlSwar KdlChars KdlValue.

(** ** The borrowed input *)

Module Source.

(** [Parser::input] and [Parser::bytes]; [logical_end] is [input.len()]. *)
Record t := { input : list byte; bytes : list byte }.

Definition of_str (input : list byte) : t := {| input := input; bytes := input |}.

(** [Parser::from_padded], with the text of [as_str]. *)
Definition of_padded (padded : PaddedInput.t) : t :=
  {| input := PaddedInput.content_bytes padded; bytes := PaddedInput.padded_bytes padded |}.

Definition logical_end (self : t) : Z := len (input self).

End Source.

(** ** The cursor: the fields of [Parser] that change *)

Module Cursor.

Record t := { index : Z; ctx : Context.t }.

Definition set_index (i : Z) (s : t) : t := {| index := i; ctx := ctx s |}.

Definition set_ctx (c : Context.t) (s : t) : t := {| index := index s; ctx := c |}.

Definition new (ctx : Context.t) : t := {| index := 0; ctx := ctx |}.

End Cursor.

Abbreviation Parse := (Run Cursor.t ErrorCtx.t).

Import Cursor.

(** The characters that the reader names. *)
Definition NEWLINE : Z := 10.

Definition RETURN : Z := 13.

Definition is_char_digit (c : Z) : bool := (48 <=? c) && (c <=? 57).

Definition is_char_alphanumeric (c : Z) : bool :=
  is_char_digit c || ((65 <=? c) && (c <=? 90)) || ((97 <=? c) && (c <=? 122)).

Definition is_char_hexdigit (c : Z) : bool :=
  is_char_digit c || ((65 <=? c) && (c <=? 70)) || ((97 <=? c) && (c <=? 102)).

(** A character literal of the source. *)
Definition code (b : byte) : Z := value b.

Section parser.

Context (src : Source.t) (simd : bool).

#[local] Abbreviation logical_end := (Source.logical_end src).

#[local] Abbreviation input := (Source.input src).

(** Enough fuel for a loop that moves the cursor at every step. *)
Definition steps : nat := S (length input).

(** ** [reader.rs]: the cursor *)

Definition clamp (i : Z) : Z := Z.min i logical_end.

Definition err_of (c : ErrorCode.t) (s : Cursor.t) : ErrorCtx.t :=
  ErrorCtx.with_consumed (clamp (index s)) (ErrorCtx.new c (clamp (index s))).

(** The offset is overwritten by the position of the cursor. *)
Definition err_at_of (c : ErrorCode.t) (offset : Z) (s : Cursor.t) : ErrorCtx.t :=
  ErrorCtx.with_consumed (clamp (index s)) (ErrorCtx.new c (clamp offset)).

(** [return Err(self.err(c))]. *)
Definition err {A} (c : ErrorCode.t) : Parse A := λ s, (s, Err (err_of c s)).

Definition err_at {A} (c : ErrorCode.t) (offset : Z) : Parse A := λ s, (s, Err (err_at_of c offset s)).

Definition get_index : Parse Z := λ s, (s, Ok (index s)).

Definition put_index (i : Z) : Parse unit := modify (set_index i).

(** [self.index += n]. *)
Definition advance (n : Z) : Parse unit := modify (λ s, set_index (index s + n) s).

Definition get_ctx : Parse Context.t := λ s, (s, Ok (ctx s)).

Definition update_ctx (f : Context.t → Context.t) : Parse unit := modify (λ s, set_ctx (f (ctx s)) s).

(** [&self.input[a..b]]. *)
Definition input_slice (a b : Z) : Parse (list byte) := expect (str_slice input a b).

Definition remaining : Parse (list byte) :=
  s ← get_state; input_slice (clamp (index s)) logical_end.

Definition eof : Parse bool := s ← get_state; mret (logical_end <=? index s).

Definition peek_byte : Parse (option byte) :=
  s ← get_state;
  mret (if logical_end <=? index s then None else Source.bytes src !! Z.to_nat (index s)).

(** [self.peek_byte() == Some(b)]. *)
Definition peek_is (b : byte) : Parse bool := o ← peek_byte; mret (bool_decide (o = Some b)).

Definition peek_char : Parse (option Z) := r ← remaining; mret (fst <$> next_char r).

Definition bump_byte : Parse unit :=
  s ← get_state; if index s <? logical_end then advance 1 else mret tt.

Definition bump_char : Parse (option Z) :=
  r ← remaining;
  match next_char r with
  | None => mret None
  | Some (c, _) => advance (len_utf8 c);; mret (Some c)
  end.

Definition starts_with (w : list byte) : Parse bool := r ← remaining; mret (Bytes.starts_with r w).

Definition consume_exact (w : list byte) : Parse bool :=
  b ← starts_with w; if b : bool then advance (len w);; mret true else mret false.

(** ** [reader/space.rs] *)

Definition at_newline : Parse bool :=
  o ← peek_char; mret (match o with Some c => is_newline_char c | None => false end).

Definition consume_newline : Parse bool :=
  o ← peek_char;
  match o with
  | Some c =>
      if c =? RETURN then
        bump_char;;
        b ← peek_is "010"%byte;
        (if b : bool then bump_byte else mret tt);;
        mret true
      else if is_newline_char c then bump_char;; mret true
      else mret false
  | None => mret false
  end.

Fixpoint line_comment_loop (fuel : nat) : Parse unit :=
  match fuel with
  | O => panic
  | S fuel =>
      o ← peek_char;
      match o with
      | Some c =>
          if is_newline_char c then consume_newline;; mret tt
          else bump_char;; line_comment_loop fuel
      | None => mret tt
      end
  end.

Definition skip_line_comment : Parse unit := advance 2;; line_comment_loop steps.

(** The nesting is an [i32]. *)
Fixpoint block_comment_loop (fuel : nat) (depth : Z) : Parse unit :=
  match fuel with
  | O => panic
  | S fuel =>
      if 0 <? depth then
        e ← eof;
        if e : bool then err ErrorCode.UnexpectedEof
        else
          opens ← starts_with (text "/*");
          if opens : bool then advance 2;; block_comment_loop fuel (I32.wrap (depth + 1))
          else
            closes ← starts_with (text "*/");
            if closes : bool then advance 2;; block_comment_loop fuel (I32.wrap (depth - 1))
            else bump_char;; block_comment_loop fuel depth
      else mret tt
  end.

Definition skip_block_comment : Parse unit := advance 2;; block_comment_loop steps 1.

Fixpoint ws_only_loop (fuel : nat) : Parse unit :=
  match fuel with
  | O => panic
  | S fuel =>
      before ← get_index;
      put_index (Swar.skip_ascii_horizontal_ws (Source.bytes src) before logical_end);;
      o ← peek_char;
      if match o with Some c => is_unicode_space c | None => false end
      then bump_char;; ws_only_loop fuel
      else
        comment ← starts_with (text "/*");
        if comment : bool then skip_block_comment;; ws_only_loop fuel
        else
          i ← get_index;
          if i =? before then mret tt else ws_only_loop fuel
  end.

Definition skip_ws_only : Parse unit := ws_only_loop steps.

Definition skip_escline : Parse unit :=
  b ← peek_is "\"%byte;
  if negb b then err ErrorCode.Syntax
  else
    bump_byte;;
    skip_ws_only;;
    comment ← starts_with (text "//");
    if comment : bool then skip_line_comment
    else
      e ← eof;
      if e : bool then mret tt
      else
        newline ← consume_newline;
        if newline : bool then mret tt else err ErrorCode.Syntax.

Fixpoint node_space_loop (fuel : nat) : Parse unit :=
  match fuel with
  | O => panic
  | S fuel =>
      before ← get_index;
      skip_ws_only;;
      b ← peek_is "\"%byte;
      if b : bool then skip_escline;; node_space_loop fuel
      else
        i ← get_index;
        if i =? before then mret tt else node_space_loop fuel
  end.

Definition skip_node_space_counted : Parse bool :=
  start ← get_index;
  node_space_loop steps;;
  i ← get_index;
  mret (start <? i).

Definition skip_node_space : Parse unit := skip_node_space_counted;; mret tt.

Fixpoint line_space_loop (fuel : nat) : Parse unit :=
  match fuel with
  | O => panic
  | S fuel =>
      before ← get_index;
      skip_ws_only;;
      comment ← starts_with (text "//");
      if comment : bool then skip_line_comment;; line_space_loop fuel
      else
        newline ← consume_newline;
        if newline : bool then line_space_loop fuel
        else
          b ← peek_is "\"%byte;
          if b : bool then skip_escline;; line_space_loop fuel
          else
            i ← get_index;
            if i =? before then mret tt else line_space_loop fuel
  end.

Definition skip_line_space : Parse unit := line_space_loop steps.

(** ** [reader/string.rs] *)

(** [self.ctx.scratch.push(c)]. *)
Definition push (c : Z) : Parse unit :=
  update_ctx (λ x, Context.set_scratch (Context.scratch x ++ encode_utf8 c) x).

Definition is_keyword (ident : list byte) : bool :=
  bool_decide (ident ∈ [text "true"; text "false"; text "null"; text "inf"; text "-inf"; text "nan"]).

Fixpoint identifier_loop (fuel : nat) : Parse unit :=
  match fuel with
  | O => panic
  | S fuel =>
      o ← peek_char;
      match o with
      | Some ch => if is_non_identifier_char ch then mret tt else bump_char;; identifier_loop fuel
      | None => mret tt
      end
  end.

Definition parse_identifier_string : Parse KdlStr :=
  start ← get_index;
  o ← peek_char;
  match o with
  | None => err ErrorCode.InvalidIdent
  | Some c =>
      if is_non_identifier_char c then err ErrorCode.InvalidIdent
      else
        (if (c =? code "+"%byte) || (c =? code "-"%byte) then
           bump_char;;
           o ← peek_char;
           match o with
           | Some n =>
               if is_char_digit n then put_index start;; err ErrorCode.InvalidIdent
               else if n =? code "."%byte then
                 bump_char;;
                 o ← peek_char;
                 match o with
                 | Some n2 =>
                     if is_char_digit n2 then put_index start;; err ErrorCode.InvalidIdent
                     else if negb (is_non_identifier_char n2) then bump_char;; mret tt
                     else mret tt
                 | None => mret tt
                 end
               else if negb (is_non_identifier_char n) && negb (is_char_digit n) then bump_char;; mret tt
               else mret tt
           | None => mret tt
           end
         else if c =? code "."%byte then
           bump_char;;
           o ← peek_char;
           match o with
           | Some n =>
               if is_char_digit n then put_index start;; err ErrorCode.InvalidIdent
               else if negb (is_non_identifier_char n) then bump_char;; mret tt
               else mret tt
           | None => mret tt
           end
         else if is_char_digit c then err ErrorCode.InvalidIdent
         else bump_char;; mret tt);;
        identifier_loop steps;;
        i ← get_index;
        if i =? start then err ErrorCode.InvalidIdent
        else
          ident ← input_slice start i;
          if is_keyword ident then err_at ErrorCode.InvalidIdent start else mret ident
  end.

Fixpoint hex_loop (fuel : nat) : Parse unit :=
  match fuel with
  | O => panic
  | S fuel =>
      o ← peek_byte;
      if match o with Some b => bool_decide (is_Some (hex b)) | None => false end
      then bump_byte;; hex_loop fuel
      else mret tt
  end.

Fixpoint ws_escape_loop (fuel : nat) : Parse unit :=
  match fuel with
  | O => panic
  | S fuel =>
      o ← peek_char;
      match o with
      | Some n =>
          if is_unicode_space n then bump_char;; ws_escape_loop fuel
          else if is_newline_char n then consume_newline;; ws_escape_loop fuel
          else mret tt
      | None => mret tt
      end
  end.

(** [u32::from_str_radix(hex, 16)] and the scalar it is, if any. *)
Definition unicode_scalar (digits : list byte) : option Z :=
  c ← from_str_radix 0 U32.MAX 16 digits;
  if ((55296 <=? c) && (c <=? 57343)) || (1114111 <? c) then None
  else if is_scalar c then Some c else None.

(** The escapes of one character. *)
Definition simple_escape (c : Z) : option Z :=
  if c =? code Byte.x22 then Some 34
  else if c =? code "\"%byte then Some 92
  else if c =? code "b"%byte then Some 8
  else if c =? code "f"%byte then Some 12
  else if c =? code "n"%byte then Some 10
  else if c =? code "r"%byte then Some 13
  else if c =? code "t"%byte then Some 9
  else if c =? code "s"%byte then Some 32
  else None.

Definition interpret_escape : Parse unit :=
  o ← bump_char;
  match o with
  | None => err ErrorCode.InvalidEscape
  | Some c =>
      match simple_escape c with
      | Some e => push e
      | None =>
          if c =? code "u"%byte then
            b ← peek_is "{"%byte;
            if negb b then err ErrorCode.InvalidEscape
            else
              bump_byte;;
              hex_start ← get_index;
              hex_loop steps;;
              b ← peek_is "}"%byte;
              if negb b then err ErrorCode.InvalidEscape
              else
                i ← get_index;
                digits ← input_slice hex_start i;
                if (len digits =? 0) || (6 <? len digits) then err_at ErrorCode.InvalidEscape hex_start
                else
                  match unicode_scalar digits with
                  | None => err_at ErrorCode.InvalidEscape hex_start
                  | Some ch => bump_byte;; push ch
                  end
          else if is_unicode_space c || is_newline_char c then
            b ← peek_is "010"%byte;
            (if (c =? RETURN) && b then bump_byte else mret tt);;
            ws_escape_loop steps
          else err ErrorCode.InvalidEscape
      end
  end.

Fixpoint unescape_loop (fuel : nat) : Parse unit :=
  match fuel with
  | O => panic
  | S fuel =>
      e ← eof;
      if e : bool then err ErrorCode.UnexpectedEof
      else
        o ← bump_char;
        match o with
        | None => err ErrorCode.UnexpectedEof
        | Some c =>
            if c =? code Byte.x22 then mret tt
            else if c =? code "\"%byte then interpret_escape;; unescape_loop fuel
            else if is_disallowed_literal c then
              i ← get_index; err_at ErrorCode.DisallowedCodePoint (i - len_utf8 c)
            else if is_newline_char c then err ErrorCode.Syntax
            else push c;; unescape_loop fuel
        end
  end.

Definition unescape_quoted_until : Parse KdlStr :=
  update_ctx Context.clear_scratch;;
  unescape_loop steps;;
  x ← get_ctx;
  if Context.max_string_len x <? len (Context.scratch x) then err ErrorCode.ExceededLimit
  else
    update_ctx (Context.set_scratch []);;
    mret (Context.scratch x).

(** The search for the closing quote; the cursor stands at [start]. *)
Fixpoint quoted_loop (fuel : nat) (start i : Z) (needs_unescape : bool) : Parse KdlStr :=
  match fuel with
  | O => panic
  | S fuel =>
      if i <? logical_end then
        let special := Swar.find_quote_or_escape_fast simd (Source.bytes src) i logical_end in
        if logical_end <=? special then err ErrorCode.UnexpectedEof
        else
          b ← expect (Source.bytes src !! Z.to_nat special);
          if decide (b = "\"%byte) then quoted_loop fuel start (special + 2) true
          else if decide (b = Byte.x22) then
            raw ← input_slice start special;
            if negb needs_unescape then
              if existsb is_newline_char (chars raw) then err_at ErrorCode.Syntax start
              else
                match list_find (λ c, is_disallowed_literal c = true) (chars raw) with
                | Some (pos, _) =>
                    err_at ErrorCode.DisallowedCodePoint
                      (start + zsum (len_utf8 <$> take pos (chars raw)))
                | None => put_index (special + 1);; mret raw
                end
            else put_index start;; unescape_quoted_until
          else quoted_loop fuel start (special + 1) needs_unescape
      else err ErrorCode.UnexpectedEof
  end.

(** [find_string_closer]: the position of the first closer and the one after
    it. In this loop and those on the characters of a multiline string, the
    outer [None] is a loop that runs out of fuel: the caller panics. *)
Fixpoint closer_loop (fuel : nat) (bytes : list byte) (index end_ quote_count hashes : Z) :
    option (option (Z * Z)) :=
  match fuel with
  | O => None
  | S fuel =>
      if index <? end_ then
        let quote_at := Swar.find_quote_fast simd bytes index end_ in
        if end_ <=? quote_at then Some None
        else
          let quotes_end := quote_at + quote_count in
          let closer_end := quotes_end + hashes in
          if (U64.MAX <? quotes_end) || (U64.MAX <? closer_end) then Some None
          else if (closer_end <=? end_)
            && forallb (λ b, bool_decide (b = Byte.x22)) (slice bytes quote_at quotes_end)
            && forallb (λ b, bool_decide (b = "#"%byte)) (slice bytes quotes_end closer_end)
          then Some (Some (quote_at, closer_end))
          else closer_loop fuel bytes (quote_at + 1) end_ quote_count hashes
      else Some None
  end.

Definition find_string_closer (bytes : list byte) (index end_ quote_count hashes : Z) :
    option (option (Z * Z)) :=
  if quote_count =? 0 then Some None
  else
    let end_ := Z.min end_ (len bytes) in
    if end_ <? index then Some None
    else closer_loop (S (length bytes)) bytes index end_ quote_count hashes.

(** ** [reader/multiline.rs]: on the characters of the body *)

Definition is_ws (c : Z) : bool := is_unicode_space c || is_newline_char c.

(** [while let Some(&n) = chars.peek()] over spaces and newlines. *)
Fixpoint drop_ws (cs : list Z) : list Z :=
  match cs with [] => [] | c :: rest => if is_ws c then drop_ws rest else cs end.

Fixpoint backslash_escape_count_before (rev_prefix : list byte) : Z :=
  match rev_prefix with
  | b :: rest => if decide (b = "\"%byte) then 1 + backslash_escape_count_before rest else 0
  | [] => 0
  end.

Fixpoint closing_prefix_loop (fuel : nat) (cs : list Z) : option bool :=
  match fuel with
  | O => None
  | S fuel =>
      match cs with
      | [] => Some true
      | c :: rest =>
          if is_unicode_space c then closing_prefix_loop fuel rest
          else if c =? code "\"%byte then
            match rest with
            | n :: _ => if is_ws n then closing_prefix_loop fuel (drop_ws rest) else Some false
            | [] => Some false
            end
          else Some false
      end
  end.

Definition closing_line_prefix_ok (prefix : list byte) : option bool :=
  closing_prefix_loop (S (length (chars prefix))) (chars prefix).

(** [push] in front of what the rest of the loop gives. *)
Definition before (cs : list Z) (tail : option (list Z)) : option (list Z) := app cs <$> tail.

(** The whitespace escapes; the inner [None] is the error. *)
Fixpoint resolve_ws_escapes (fuel : nat) (cs : list Z) : option (option (list Z)) :=
  match fuel with
  | O => None
  | S fuel =>
      match cs with
      | [] => Some (Some [])
      | c :: rest =>
          if c =? code "\"%byte then
            match rest with
            | n :: rest' =>
                if is_ws n then resolve_ws_escapes fuel (drop_ws rest)
                else tail ← resolve_ws_escapes fuel rest'; Some (before [c; n] tail)
            | [] => Some (Some [c])
            end
          else if is_disallowed_literal c then Some None
          else tail ← resolve_ws_escapes fuel rest; Some (before [c] tail)
      end
  end.

(** The characters before and after the last newline, [phase1.rfind]. *)
Fixpoint split_last_newline (cs : list Z) : option (list Z * list Z) :=
  match cs with
  | [] => None
  | c :: rest =>
      match split_last_newline rest with
      | Some (before, after) => Some (c :: before, after)
      | None => if c =? NEWLINE then Some ([], rest) else None
      end
  end.

Definition split_closing_indent (phase1 : list Z) : option (list Z * list Z) :=
  match phase1 with
  | [] => Some ([], [])
  | _ =>
      if forallb is_unicode_space phase1 then Some ([], phase1)
      else
        '(before, after) ← split_last_newline phase1;
        if forallb is_unicode_space after then Some (before, after) else None
  end.

(** [content.split('\n')]. *)
Fixpoint lines (cs : list Z) : list (list Z) :=
  match cs with
  | [] => [[]]
  | c :: rest =>
      if c =? NEWLINE then [] :: lines rest
      else match lines rest with line :: more => (c :: line) :: more | [] => [[c]] end
  end.

Definition strip_return (line : list Z) : list Z :=
  match last line with Some c => if c =? RETURN then removelast line else line | None => line end.

Fixpoint strip_indent (indent line : list Z) : option (list Z) :=
  match indent, line with
  | [], _ => Some line
  | a :: indent, b :: line => if a =? b then strip_indent indent line else None
  | _ :: _, [] => None
  end.

Definition dedent_line (indent line : list Z) : option (list Z) :=
  let line := strip_return line in
  if forallb is_unicode_space line then Some [] else strip_indent indent line.

Definition dedent_lines (content indent : list Z) : option (list Z) :=
  match content with
  | [] => Some []
  | _ =>
      dedented ← mapM (dedent_line indent) (lines content);
      Some (concat (imap (λ i line, if decide (i = O) then line else NEWLINE :: line) dedented))
  end.

(** The digits of a Unicode escape up to its brace, and the rest. *)
Fixpoint brace_digits (cs : list Z) (digits : list Z) : option (list Z * list Z) :=
  match cs with
  | h :: rest =>
      if h =? code "}"%byte then Some (digits, rest)
      else if is_char_hexdigit h then
        let digits := digits ++ [h] in
        if (6 <? length digits)%nat then None else brace_digits rest digits
      else None
  | [] => None
  end.

(** The Unicode escape behind its [u]: the character and the rest. *)
Definition unicode_escape (cs : list Z) : option (Z * list Z) :=
  match cs with
  | brace :: rest =>
      if brace =? code "{"%byte then
        '(digits, rest) ← brace_digits rest [];
        match digits with
        | [] => None
        | _ => ch ← unicode_scalar (utf8 digits); Some (ch, rest)
        end
      else None
  | [] => None
  end.

Fixpoint apply_non_ws_escapes (fuel : nat) (cs : list Z) : option (option (list Z)) :=
  match fuel with
  | O => None
  | S fuel =>
      match cs with
      | [] => Some (Some [])
      | c :: rest =>
          if negb (c =? code "\"%byte) then
            tail ← apply_non_ws_escapes fuel rest; Some (before [c] tail)
          else
            match rest with
            | [] => Some None
            | esc :: rest =>
                match simple_escape esc with
                | Some e => tail ← apply_non_ws_escapes fuel rest; Some (before [e] tail)
                | None =>
                    if esc =? code "u"%byte then
                      match unicode_escape rest with
                      | Some (ch, rest) =>
                          tail ← apply_non_ws_escapes fuel rest; Some (before [ch] tail)
                      | None => Some None
                      end
                    else Some None
                end
            end
      end
  end.

Definition dedent_body (phase1 : list Z) : option (list Z) :=
  '(content, indent) ← split_closing_indent phase1; dedent_lines content indent.

Definition process_escaped_multiline (raw_body : list byte) : option (option (list byte)) :=
  phase1 ← resolve_ws_escapes (S (length (chars raw_body))) (chars raw_body);
  match phase1 ≫= dedent_body with
  | None => Some None
  | Some dedented =>
      result ← apply_non_ws_escapes (S (length dedented)) dedented;
      Some (utf8 <$> result)
  end.

Definition process_raw_multiline (raw_body : list byte) : option (list byte) :=
  if existsb is_disallowed_literal (chars raw_body) then None
  else
    utf8 <$> dedent_body (chars raw_body).

(** The position after the last newline of a text, [rfind('\n')]. *)
Fixpoint after_last_newline (l : list byte) (i : Z) : option Z :=
  match l with
  | [] => None
  | b :: l =>
      match after_last_newline l (i + 1) with
      | Some p => Some p
      | None => if decide (b = "010"%byte) then Some (i + 1) else None
      end
  end.

Fixpoint quoted_closer_loop (fuel : nat) (body_start hashes pos : Z) : Parse (option (Z * Z)) :=
  match fuel with
  | O => panic
  | S fuel =>
      found ← expect (find_string_closer (Source.bytes src) pos logical_end 3 hashes);
      match found with
      | None => mret None
      | Some (at_, end_index) =>
          if backslash_escape_count_before (rev (slice input 0 at_)) mod 2 =? 1
          then quoted_closer_loop fuel body_start hashes (at_ + 1)
          else
            before ← input_slice 0 at_;
            let line_start := default body_start (after_last_newline before 0) in
            prefix ← input_slice (Z.max line_start body_start) at_;
            prefix_ok ← expect (closing_line_prefix_ok prefix);
            if prefix_ok : bool then mret (Some (at_, end_index))
            else quoted_closer_loop fuel body_start hashes (at_ + 1)
      end
  end.

Definition find_multiline_closer (body_start hashes : Z) (raw : bool) : Parse (option (Z * Z)) :=
  if raw then expect (find_string_closer (Source.bytes src) body_start logical_end 3 hashes)
  else quoted_closer_loop steps body_start hashes body_start.

(** Three quotes. *)
Definition TRIPLE : list byte := replicate 3 Byte.x22.

Definition parse_multiline_string (hashes : Z) (raw : bool) : Parse KdlStr :=
  opened ← consume_exact TRIPLE;
  if negb opened then err ErrorCode.Syntax
  else
    newline ← consume_newline;
    if negb newline then err ErrorCode.Syntax
    else
      body_start ← get_index;
      o ← find_multiline_closer body_start hashes raw;
      match o with
      | None => err ErrorCode.UnexpectedEof
      | Some (close_at, end_index) =>
          raw_body ← input_slice body_start close_at;
          processed ← expect (if raw then Some (process_raw_multiline raw_body)
                              else process_escaped_multiline raw_body);
          match processed with
          | None => err_at ErrorCode.Syntax body_start
          | Some result =>
              put_index end_index;;
              x ← get_ctx;
              if Context.max_string_len x <? len result then err ErrorCode.ExceededLimit else mret result
          end
      end.

Definition parse_quoted_string : Parse KdlStr :=
  triple ← starts_with TRIPLE;
  if triple : bool then parse_multiline_string 0 false
  else
    b ← peek_is Byte.x22;
    if negb b then err ErrorCode.Syntax
    else
      bump_byte;;
      start ← get_index;
      quoted_loop steps start start false.

Fixpoint hash_loop (fuel : nat) (hashes : Z) : Parse Z :=
  match fuel with
  | O => panic
  | S fuel =>
      b ← peek_is "#"%byte;
      if b : bool then bump_byte;; hash_loop fuel (hashes + 1) else mret hashes
  end.

Definition parse_raw_string : Parse KdlStr :=
  b ← peek_is "#"%byte;
  if negb b then err ErrorCode.Syntax
  else
    hashes ← hash_loop steps 0;
    triple ← starts_with TRIPLE;
    if triple : bool then parse_multiline_string hashes true
    else
      b ← peek_is Byte.x22;
      if negb b then err ErrorCode.Syntax
      else
        bump_byte;;
        start ← get_index;
        found ← expect (find_string_closer (Source.bytes src) start logical_end 1 hashes);
        match found with
        | Some (close_at, end_index) =>
            content ← input_slice start close_at;
            if existsb is_newline_char (chars content) then err_at ErrorCode.Syntax start
            else if existsb is_disallowed_literal (chars content) then err_at ErrorCode.DisallowedCodePoint start
            else put_index end_index;; mret content
        | None => err ErrorCode.UnexpectedEof
        end.

Definition parse_string_value : Parse KdlStr :=
  o ← peek_byte;
  match o with
  | Some b =>
      if decide (b = Byte.x22) then parse_quoted_string
      else if decide (b = "#"%byte) then parse_raw_string
      else parse_identifier_string
  | None => err ErrorCode.UnexpectedEof
  end.

(** ** [reader/number.rs] *)

Fixpoint digits_loop (is_digit : Z → bool) (fuel : nat) (saw_digit last_underscore : bool) : Parse unit :=
  match fuel with
  | O => panic
  | S fuel =>
      o ← peek_char;
      match o with
      | Some c =>
          if c =? code "_"%byte then
            if negb saw_digit || last_underscore then mret tt
            else bump_char;; digits_loop is_digit fuel saw_digit true
          else if is_digit c then bump_char;; digits_loop is_digit fuel true false
          else mret tt
      | None => mret tt
      end
  end.

Definition consume_digits_underscores (is_digit : Z → bool) : Parse unit :=
  digits_loop is_digit steps false false.

Definition reject_number_trailer (start : Z) : Parse unit :=
  o ← peek_char;
  match o with
  | None => mret tt
  | Some c =>
      if is_char_alphanumeric c || (c =? code "_"%byte) || (c =? code "."%byte)
      then err_at ErrorCode.InvalidNumber start else mret tt
  end.

Definition without_underscores (l : list byte) : list byte :=
  filter (λ b, b ≠ "_"%byte) l.

(** The branches of [parse_number] for a prefix such as [0x]. *)
Definition parse_radix (start sign_len : Z) (negative : bool) (is_digit : Z → bool) (radix : Z) : Parse Value.t :=
  advance (sign_len + 2);;
  num_start ← get_index;
  consume_digits_underscores is_digit;;
  i ← get_index;
  if i =? num_start then err_at ErrorCode.InvalidNumber start
  else
    reject_number_trailer start;;
    lexeme ← input_slice num_start i;
    match from_str_radix I128.MIN I128.MAX radix (without_underscores lexeme) with
    | None => err_at ErrorCode.InvalidNumber start
    | Some val => mret (Value.Int (if negative then - val else val))
    end.

(** The fraction of a decimal number; the answer tells whether there is one. *)
Definition parse_fraction (start : Z) : Parse bool :=
  dot ← peek_is "."%byte;
  if dot : bool then
    i ← get_index;
    let after := Source.bytes src !! Z.to_nat (i + 1) in
    if decide (after = Some "_"%byte) then err_at ErrorCode.InvalidNumber i
    else if match after with Some b => is_ascii_digit b | None => false end then
      bump_byte;;
      frac_start ← get_index;
      consume_digits_underscores is_char_digit;;
      i ← get_index;
      if i =? frac_start then err_at ErrorCode.InvalidNumber start else mret true
    else if decide (after = Some "e"%byte ∨ after = Some "E"%byte ∨ after = None)
    then err_at ErrorCode.InvalidNumber i
    else mret false
  else mret false.

Definition parse_exponent (start : Z) : Parse bool :=
  o ← peek_byte;
  if decide (o = Some "e"%byte ∨ o = Some "E"%byte) then
    bump_byte;;
    o ← peek_byte;
    (if decide (o = Some "+"%byte ∨ o = Some "-"%byte) then bump_byte else mret tt);;
    underscore ← peek_is "_"%byte;
    if underscore : bool then i ← get_index; err_at ErrorCode.InvalidNumber i
    else
      exp_start ← get_index;
      consume_digits_underscores is_char_digit;;
      i ← get_index;
      if i =? exp_start then err_at ErrorCode.InvalidNumber start else mret true
  else mret false.

Definition parse_decimal (start : Z) (signed : bool) : Parse Value.t :=
  (if signed then bump_byte else mret tt);;
  int_start ← get_index;
  consume_digits_underscores is_char_digit;;
  i ← get_index;
  if i =? int_start then err_at ErrorCode.InvalidNumber start
  else
    fraction ← parse_fraction start;
    exponent ← parse_exponent start;
    reject_number_trailer start;;
    i ← get_index;
    lex ← input_slice start i;
    let raw := without_underscores lex in
    if fraction || exponent
    then mret (Value.float_raw (default S754_nan (parse_f64 raw)) lex)
    else
      match from_str_radix I128.MIN I128.MAX 10 raw with
      | None => err_at ErrorCode.InvalidNumber start
      | Some v => mret (Value.Int v)
      end.

Definition parse_number : Parse Value.t :=
  start ← get_index;
  s ← remaining;
  let negative := Bytes.starts_with s (text "-") in
  let signed := Bytes.starts_with s (text "+") || negative in
  let sign_len := if signed then 1 else 0 in
  let rest := drop (Z.to_nat sign_len) s in
  if Bytes.starts_with rest (text "0x") || Bytes.starts_with rest (text "0X")
  then parse_radix start sign_len negative is_char_hexdigit 16
  else if Bytes.starts_with rest (text "0o") || Bytes.starts_with rest (text "0O")
  then parse_radix start sign_len negative (λ c, (48 <=? c) && (c <=? 55)) 8
  else if Bytes.starts_with rest (text "0b") || Bytes.starts_with rest (text "0B")
  then parse_radix start sign_len negative (λ c, (48 <=? c) && (c <=? 49)) 2
  else parse_decimal start signed.

(** ** [reader.rs]: values, types and entries *)

Definition starts_with_digit (l : list byte) : bool :=
  match l with b :: _ => is_ascii_digit b | [] => false end.

(** On [self.remaining()]. *)
Definition looks_like_number_text (s : list byte) : bool :=
  match next_char s with
  | None => false
  | Some (first, rest) =>
      if (first =? code "+"%byte) || (first =? code "-"%byte) then
        starts_with_digit rest
        || (bool_decide (head rest = Some "."%byte) && starts_with_digit (tail rest))
        || Bytes.starts_with rest (text "inf")
      else if first =? code "."%byte then starts_with_digit rest
      else is_char_digit first
  end.

Definition looks_like_number : Parse bool := s ← remaining; mret (looks_like_number_text s).

Definition at_value_keyword_or_number : Parse bool :=
  o ← peek_byte;
  match o with
  | Some b =>
      if decide (b = "#"%byte) then mret true
      else if is_ascii_digit b then mret true
      else if decide (b = "+"%byte ∨ b = "-"%byte ∨ b = "."%byte) then looks_like_number
      else mret false
  | None => mret false
  end.

(** [self.input.get(i..).unwrap_or("")]. *)
Definition input_from (i : Z) : list byte := default [] (str_slice input i logical_end).

Definition ends_keyword (c : Z) : bool :=
  is_unicode_space c || is_newline_char c
  || (c =? code "\"%byte) || (c =? code "/"%byte) || (c =? code "("%byte) || (c =? code ")"%byte)
  || (c =? code "{"%byte) || (c =? code "}"%byte) || (c =? code ";"%byte) || (c =? code "="%byte)
  || (c =? code "["%byte).

Definition hash_keyword_end (kw : list byte) : Parse bool :=
  i ← get_index;
  mret (match next_char (input_from (i + len kw)) with Some (c, _) => ends_keyword c | None => true end).

(** [self.starts_with(kw) && self.hash_keyword_end(kw)]. *)
Definition at_keyword (kw : list byte) : Parse bool :=
  b ← starts_with kw; if b : bool then hash_keyword_end kw else mret false.

Definition KEYWORDS : list (list byte * Value.t) :=
  [(text "#true", Value.Bool true); (text "#false", Value.Bool false); (text "#null", Value.Null);
   (text "#inf", Value.float (S754_infinity false)); (text "#-inf", Value.float (S754_infinity true));
   (text "#nan", Value.float S754_nan)].

Fixpoint keyword_or_raw (keywords : list (list byte * Value.t)) : Parse Value.t :=
  match keywords with
  | [] => s ← parse_raw_string; mret (Value.String s)
  | (kw, value) :: keywords =>
      b ← at_keyword kw;
      if b : bool then advance (len kw);; mret value else keyword_or_raw keywords
  end.

Definition parse_hash_keyword_or_raw_string : Parse Value.t := keyword_or_raw KEYWORDS.

Definition try_parse_type_annotation : Parse (option KdlStr) :=
  skip_node_space;;
  b ← peek_is "("%byte;
  if negb b then mret None
  else
    bump_byte;;
    skip_node_space;;
    name ← parse_string_value;
    skip_node_space;;
    b ← peek_is ")"%byte;
    if negb b then err ErrorCode.Syntax else bump_byte;; mret (Some name).

Definition parse_value_after_type : Parse Value.t :=
  e ← eof;
  if e : bool then err ErrorCode.ExpectedValue
  else
    hash ← peek_is "#"%byte;
    if hash : bool then parse_hash_keyword_or_raw_string
    else
      quote ← peek_is Byte.x22;
      if quote : bool then s ← parse_quoted_string; mret (Value.String s)
      else
        o ← peek_char;
        match o with
        | None => err ErrorCode.ExpectedValue
        | Some c =>
            number ← (if (c =? code "+"%byte) || (c =? code "-"%byte) || (c =? code "."%byte) || is_char_digit c
                      then looks_like_number else mret false);
            if number : bool then parse_number
            else s ← parse_string_value; mret (Value.String s)
        end.

Definition parse_typed_value : Parse (option KdlStr * Value.t) :=
  type_name ← try_parse_type_annotation;
  skip_node_space;;
  value ← parse_value_after_type;
  mret (type_name, value).

Definition parse_value : Parse Value.t :=
  try_parse_type_annotation;; skip_node_space;; parse_value_after_type.

(** [match m { Ok(v) => Ok(Some(v)), Err(_) => Ok(None) }]: the state after
    the error is kept. *)
Definition attempt {A} (m : Parse A) : Parse (option A) := λ s,
  match m s with
  | (s, Ok a) => (s, Ok (Some a))
  | (s, Err _) => (s, Ok None)
  | (s, Panic) => (s, Panic)
  end.

Definition parse_prop_or_arg : Parse Entry.t :=
  saved ← get_index;
  type_name ← try_parse_type_annotation;
  skip_node_space;;
  number ← at_value_keyword_or_number;
  if number : bool then
    value ← parse_value_after_type;
    mret (Entry.Argument type_name value)
  else
    string_start ← get_index;
    parsed ← attempt parse_string_value;
    match parsed with
    | None =>
        put_index saved;;
        value ← parse_value;
        mret (Entry.Argument type_name value)
    | Some s =>
        after_string ← get_index;
        skip_node_space;;
        equals ← peek_is "="%byte;
        if equals : bool then
          bump_byte;;
          skip_node_space;;
          '(val_ty, value) ← parse_typed_value;
          match type_name with
          | Some _ => err_at ErrorCode.Syntax string_start
          | None => mret (Entry.Property s val_ty value)
          end
        else
          put_index after_string;;
          mret (Entry.Argument type_name (Value.String s))
    end.

Definition skip_prop_or_arg : Parse unit := parse_prop_or_arg;; mret tt.

(** ** [reader.rs]: the start of a document *)

(** U+FEFF. *)
Definition BOM : list byte := encode_utf8 65279.

Definition skip_bom : Parse unit :=
  b ← starts_with BOM; if b : bool then advance (len BOM) else mret tt.

Definition skip_version_marker : Parse unit :=
  skip_line_space;;
  saved ← get_index;
  slashdash ← consume_exact (text "/-");
  if negb slashdash then mret tt
  else
    skip_node_space;;
    version ← consume_exact (text "kdl-version");
    if negb version then put_index saved
    else
      skip_node_space;;
      two ← consume_exact (text "2");
      number ← (if two : bool then mret true else consume_exact (text "1"));
      if negb number then err ErrorCode.Syntax
      else
        skip_ws_only;;
        e ← eof;
        if e : bool then mret tt
        else
          newline ← consume_newline;
          if newline : bool then mret tt
          else
            comment ← starts_with (text "//");
            if comment : bool then skip_line_comment else err ErrorCode.Syntax.

End parser.
