(* ===== verification/KdlVisit.v ===== *)
(** * The KDL reader: nodes, children and documents

    [crates/tensor-kdl/src/parse/visitor.rs], [parse/reader/visit.rs] and the
    document loop of [parse/reader.rs]. The implementations of [NodeVisitor]
    that the crate itself has are one type; [dom] is the cargo feature that
    builds trees. *)

From Stdlib Require Import Strings.String Strings.Byte.
From S2P Require Import Prelude Codec Bytes KdlSwar KdlChars KdlValue KdlParser.

Import Cursor.

(** ** [parse/visitor.rs] *)

Module DomNodeBuilder.

Record t := {
  type_name : option KdlStr;
  name : option KdlStr;
  entries : list Entry.t;
  children : list Node.t }.

Definition default : t := {| type_name := None; name := None; entries := []; children := [] |}.

Definition finish (self : t) : Outcome ErrorCtx.t Node.t :=
  match name self with
  | None => Err (ErrorCtx.new ErrorCode.ExpectedNodeName 0)
  | Some name =>
      Ok {| Node.type_name := type_name self; Node.name := name;
            Node.entries := entries self; Node.children := children self |}
  end.

Definition on_header (type_name_ : option KdlStr) (name_ : KdlStr) (self : t) : t :=
  {| type_name := type_name_; name := Some name_; entries := entries self; children := children self |}.

Definition push_entry (e : Entry.t) (self : t) : t :=
  {| type_name := type_name self; name := name self; entries := entries self ++ [e];
     children := children self |}.

Definition on_child (child : Node.t) (self : t) : t :=
  {| type_name := type_name self; name := name self; entries := entries self;
     children := children self ++ [child] |}.

End DomNodeBuilder.

(** The counters are [u32]. *)
Module CountingVisitor.

Record t := { headers : Z; arguments : Z; properties : Z; children : Z }.

Definition wrap (v : Z) : Z := v mod 4294967296.

Definition default : t := {| headers := 0; arguments := 0; properties := 0; children := 0 |}.

Definition on_header (self : t) : t :=
  {| headers := wrap (headers self + 1); arguments := arguments self;
     properties := properties self; children := children self |}.

Definition on_argument (self : t) : t :=
  {| headers := headers self; arguments := wrap (arguments self + 1);
     properties := properties self; children := children self |}.

Definition on_property (self : t) : t :=
  {| headers := headers self; arguments := arguments self;
     properties := wrap (properties self + 1); children := children self |}.

Definition on_child (self : t) : t :=
  {| headers := headers self; arguments := arguments self;
     properties := properties self; children := wrap (children self + 1) |}.

(** The end of [take_child_after_header]. *)
Definition add_nested (nested self : t) : t :=
  {| headers := headers self; arguments := wrap (arguments self + arguments nested);
     properties := wrap (properties self + properties nested);
     children := wrap (children self + wrap (1 + children nested)) |}.

End CountingVisitor.

(** The implementations of [NodeVisitor]: the tree builder, the counter and
    the visitor of a skipped children block, which has the default methods. *)
Module Visitor.

Inductive t :=
| Dom (b : DomNodeBuilder.t)
| Counting (c : CountingVisitor.t)
| Skip.

Definition on_header (type_name : option KdlStr) (name : KdlStr) (self : t) : t :=
  match self with
  | Dom b => Dom (DomNodeBuilder.on_header type_name name b)
  | Counting c => Counting (CountingVisitor.on_header c)
  | Skip => Skip
  end.

Definition on_argument (type_name : option KdlStr) (value : Value.t) (self : t) : t * bool :=
  (match self with
   | Dom b => Dom (DomNodeBuilder.push_entry (Entry.Argument type_name value) b)
   | Counting c => Counting (CountingVisitor.on_argument c)
   | Skip => Skip
   end, true).

Definition on_property (key : KdlStr) (type_name : option KdlStr) (value : Value.t) (self : t) : t * bool :=
  (match self with
   | Dom b => Dom (DomNodeBuilder.push_entry (Entry.Property key type_name value) b)
   | Counting c => Counting (CountingVisitor.on_property c)
   | Skip => Skip
   end, true).

Definition on_child (child : Node.t) (self : t) : t :=
  match self with
  | Dom b => Dom (DomNodeBuilder.on_child child b)
  | Counting c => Counting (CountingVisitor.on_child c)
  | Skip => Skip
  end.

(** [take_child_after_header]: the visitor that takes the child's body, with
    what becomes of the parent at its end; [None] for [Ok(false)]. *)
Definition take_child (type_name : option KdlStr) (name : KdlStr) (self : t) : option (t * (t → t)) :=
  match self with
  | Counting c =>
      Some (Counting (CountingVisitor.on_header CountingVisitor.default),
            λ nested, match nested with
                      | Counting n => Counting (CountingVisitor.add_nested n c)
                      | _ => self
                      end)
  | _ => None
  end.

(** [DomNodeBuilder::finish] of a builder that went through a body. *)
Definition finish (self : t) : Outcome ErrorCtx.t Node.t :=
  match self with
  | Dom b => DomNodeBuilder.finish b
  | _ => Panic
  end.

End Visitor.

(** ** [parse/reader/visit.rs] *)

Section visit.

Context (src : Source.t) (simd dom : bool).

#[local] Abbreviation err := (KdlParser.err src).

#[local] Abbreviation peek_is := (KdlParser.peek_is src).

Definition lift {A} (o : Outcome ErrorCtx.t A) : Parse A := λ s, (s, o).

(** The two errors for which [with_expected] replaces the hint keep their code
    and position. *)
Definition parse_node_header : Parse (option KdlStr * KdlStr) :=
  type_name ← try_parse_type_annotation src simd;
  skip_node_space src;;
  name ← parse_string_value src simd;
  mret (type_name, name).

Definition visit_prop_or_arg_bits (opts : Z) (visitor : Visitor.t) : Parse Visitor.t :=
  entry_offset ← get_index;
  entry ← parse_prop_or_arg src simd;
  match entry with
  | Entry.Argument type_name value => mret (Visitor.on_argument type_name value visitor).1
  | Entry.Property key type_name value =>
      let '(visitor, handled) := Visitor.on_property key type_name value visitor in
      if negb handled && Opts.flag_error_on_unknown opts
      then throw (ErrorCtx.new ErrorCode.UnknownProperty entry_offset)
      else mret visitor
  end.

(** [self.ctx.enter_depth(offset)?]. *)
Definition enter_depth (offset : Z) : Parse unit := λ s,
  let '(c, o) := Context.enter_depth offset (ctx s) in (set_ctx c s, o).

(** [let result = m; self.ctx.leave_depth(); result]. *)
Definition then_leave {A} (m : Parse A) : Parse A := λ s,
  let '(s, o) := m s in (set_ctx (Context.leave_depth (ctx s)) s, o).

(** [visit_children_block_bits], with the loop between the braces. *)
Definition children_block (children_loop : Visitor.t → Parse Visitor.t) (visitor : Visitor.t) : Parse Visitor.t :=
  brace ← peek_is "{"%byte;
  if negb brace then err ErrorCode.ExpectedBrace
  else
    offset ← get_index;
    bump_byte src;;
    enter_depth offset;;
    then_leave (
      visitor ← children_loop visitor;
      skip_line_space src;;
      close ← peek_is "}"%byte;
      if negb close then err ErrorCode.ExpectedBrace else bump_byte src;; mret visitor).

(** The loops of [visit_node_body_bits] and [visit_children_block_bits] and
    the calls between them; every call moves the cursor. *)
Fixpoint body_loop (fuel : nat) (opts : Z) (visitor : Visitor.t)
    (after_children has_real_children need_space : bool) : Parse Visitor.t :=
  match fuel with
  | O => panic
  | S fuel =>
      space_before ← skip_node_space_counted src;
      slashdash ← starts_with src (text "/-");
      if slashdash : bool then
        advance 2;;
        skip_line_space src;;
        brace ← peek_is "{"%byte;
        if brace : bool then
          children_block (children_loop fuel Opts.OPTS_DEFAULT) Visitor.Skip;;
          body_loop fuel opts visitor true has_real_children true
        else if after_children then err ErrorCode.Syntax
        else
          skip_prop_or_arg src simd;;
          body_loop fuel opts visitor after_children has_real_children true
      else
        o ← peek_byte src;
        match o with
        | None => mret visitor
        | Some b =>
            if decide (b = "}"%byte) then mret visitor
            else if decide (b = ";"%byte) then bump_byte src;; mret visitor
            else if decide (b = "{"%byte) then
              if has_real_children then err ErrorCode.Syntax
              else
                visitor ← children_block (children_loop fuel opts) visitor;
                body_loop fuel opts visitor true true true
            else
              comment ← (if decide (b = "/"%byte) then starts_with src (text "//") else mret false);
              if comment : bool then skip_line_comment src;; mret visitor
              else if decide (b = "\"%byte) then
                skip_escline src;;
                body_loop fuel opts visitor after_children has_real_children false
              else
                newline ← at_newline src;
                if newline : bool then mret visitor
                else if after_children then err ErrorCode.Syntax
                else if need_space && negb space_before then err ErrorCode.Syntax
                else
                  visitor ← visit_prop_or_arg_bits opts visitor;
                  body_loop fuel opts visitor after_children has_real_children true
        end
  end
with children_loop (fuel : nat) (opts : Z) (visitor : Visitor.t) : Parse Visitor.t :=
  match fuel with
  | O => panic
  | S fuel =>
      skip_line_space src;;
      e ← eof src;
      if e : bool then err ErrorCode.ExpectedBrace
      else
        close ← peek_is "}"%byte;
        if close : bool then mret visitor
        else
          slashdash ← starts_with src (text "/-");
          if slashdash : bool then
            start ← get_index;
            advance 2;;
            skip_line_space src;;
            '(type_name, name) ← parse_node_header;
            body_loop fuel Opts.OPTS_LENIENT
              (Visitor.on_header type_name name (Visitor.Counting CountingVisitor.default)) false false true;;
            i ← get_index;
            if i =? start then err ErrorCode.Syntax else children_loop fuel opts visitor
          else
            '(type_name, name) ← parse_node_header;
            match Visitor.take_child type_name name visitor with
            | Some (nested, done) =>
                nested ← body_loop fuel opts nested false false true;
                children_loop fuel opts (done nested)
            | None =>
                if dom then
                  let child_dom := Visitor.on_header type_name name (Visitor.Dom DomNodeBuilder.default) in
                  child_dom ← body_loop fuel opts child_dom false false true;
                  child ← lift (Visitor.finish child_dom);
                  children_loop fuel opts (Visitor.on_child child visitor)
                else err ErrorCode.UnknownChild
            end
  end.

Definition visit_node_body_bits (opts : Z) (visitor : Visitor.t) : Parse Visitor.t :=
  body_loop (steps src) opts visitor false false true.

Definition visit_node_bits (opts : Z) (visitor : Visitor.t) : Parse Visitor.t :=
  '(type_name, name) ← parse_node_header;
  visit_node_body_bits opts (Visitor.on_header type_name name visitor).

Definition parse_node : Parse Node.t :=
  builder ← visit_node_bits Opts.OPTS_DEFAULT (Visitor.Dom DomNodeBuilder.default);
  lift (Visitor.finish builder).

Definition skip_node : Parse unit :=
  visit_node_bits Opts.OPTS_LENIENT (Visitor.Counting CountingVisitor.default);; mret tt.

(** ** [reader.rs]: documents *)

Section document.

Context {A : Type} (opts_bits : Z) (fill : A → Parse A).

(** [fill] delivers one node to the value that the closure captures. *)
Fixpoint document_loop (fuel : nat) (delivered : Z) (acc : A) : Parse A :=
  match fuel with
  | O => panic
  | S fuel =>
      skip_line_space src;;
      e ← eof src;
      if e : bool then mret acc
      else
        close ← peek_is "}"%byte;
        if close : bool then err ErrorCode.UnexpectedToken
        else
          slashdash ← starts_with src (text "/-");
          if slashdash : bool then
            start ← get_index;
            advance 2;;
            skip_line_space src;;
            skip_node;;
            i ← get_index;
            if i =? start then err ErrorCode.Syntax else document_loop fuel delivered acc
          else
            acc ← fill acc;
            let delivered := delivered + 1 in
            x ← get_ctx;
            if Context.max_children x <? delivered then err ErrorCode.ExceededLimit
            else if Opts.flag_partial_read opts_bits then mret acc
            else document_loop fuel delivered acc
  end.

Definition visit_document_at_nodes_bits (acc : A) : Parse A :=
  skip_bom src;;
  skip_version_marker src;;
  acc ← document_loop (steps src) 0 acc;
  if Opts.flag_validate_trailing opts_bits && negb (Opts.flag_partial_read opts_bits) then
    skip_line_space src;;
    e ← eof src;
    if negb e then err ErrorCode.UnexpectedToken else mret acc
  else mret acc.

End document.

(** [visit_document] with a closure that may fail. *)
Definition visit_document {A} (opts : Opts.t) (visit : A → Node.t → Outcome ErrorCtx.t A) (acc : A) : Parse A :=
  visit_document_at_nodes_bits (Opts.bits opts) (λ acc, node ← parse_node; lift (visit acc node)) acc.

Definition parse_document_with_opts (opts : Opts.t) : Parse Document.t :=
  nodes ← visit_document opts (λ nodes node, Ok (nodes ++ [node])) [];
  mret {| Document.nodes := nodes |}.

Definition parse_document : Parse Document.t := parse_document_with_opts Opts.new.

End visit.

(** [parse_document] and [parse_document_with_context] of the feature [dom]. *)
Definition parse_document_with_context (simd : bool) (input : list byte) (ctx : Context.t) :
    Cursor.t * Outcome ErrorCtx.t Document.t :=
  parse_document (Source.of_str input) simd true (Cursor.new ctx).

Definition from_str (simd : bool) (input : list byte) : Outcome ErrorCtx.t Document.t :=
  (parse_document_with_context simd input Context.new).2.

Definition from_padded (simd : bool) (padded : PaddedInput.t) : Outcome ErrorCtx.t Document.t :=
  (parse_document (Source.of_padded padded) simd true (Cursor.new Context.new)).2.

Example from_str_example :
  from_str false (text "a 1 k=#true {
  b x
}
") = Ok {| Document.nodes := [Node.mk None (text "a")
      [Entry.Argument None (Value.Int 1); Entry.Property (text "k") None (Value.Bool true)]
      [Node.mk None (text "b") [Entry.Argument None (Value.String (text "x"))] []]] |}.
Proof. vm_compute. reflexivity. Qed.
