(* ===== verification/KdlCursor.v ===== *)
(** * The cursor of the KDL reader on valid text

    What the primitives of [KdlParser] answer when the input is UTF-8 and the
    cursor stands on a character boundary, in terms of the text that is left;
    and the logic of runs that do not panic, with the distance they move. The second half reads
    a given text off the front of the input: what a method eats, for literals,
    blanks, line space and terminators. *)

From Stdlib Require Import Strings.String Strings.Byte Floats.SpecFloat.
From S2P Require Import Prelude Codec Bytes KdlSwar KdlChars KdlValue KdlParser.

Import Cursor.

(** The borrowed text is UTF-8 and the bytes behind it do not matter. *)
Class ValidSource (src : Source.t) := {
  valid_input : is_utf8 (Source.input src) = true;
  valid_bytes : ∃ padding, Source.bytes src = Source.input src ++ padding }.

Lemma of_str_valid input : is_utf8 input = true → ValidSource (Source.of_str input).
Proof. intros H. split; [done|]. exists []. by rewrite app_nil_r. Qed.

Section cursor.

Context (src : Source.t) {Hsrc : ValidSource src}.

#[local] Abbreviation input := (Source.input src).

(** The text that is left. *)
Definition rest (s : Cursor.t) : list byte := drop (Z.to_nat (index s)) input.

Definition good (s : Cursor.t) : Prop := 0 <= index s <= len input ∧ is_utf8 (rest s) = true.

Lemma good_ctx c s : good s → good (set_ctx c s).
Proof. done. Qed.

Lemma good_new c : good (Cursor.new c).
Proof. split; [simpl; pose proof (len_nonneg input); lia|apply valid_input]. Qed.

Lemma len_rest s : good s → len (rest s) = len input - index s.
Proof. intros [H _]. by apply len_drop. Qed.

(** Moving over a prefix of what is left. *)
Lemma rest_move s w r n :
  good s → rest s = w ++ r → n = index s + len w → rest (set_index n s) = r.
Proof.
  intros [H _] E ->. unfold rest in *. simpl. pose proof (len_nonneg w).
  rewrite <- drop_add by lia. rewrite E. unfold len. rewrite Nat2Z.id. by rewrite drop_app_length.
Qed.

Lemma good_move s w r n :
  good s → rest s = w ++ r → is_utf8 r = true → n = index s + len w → good (set_index n s).
Proof.
  intros Hs E Hr Hn. pose proof (rest_move s w r n Hs E Hn) as Er. pose proof (len_rest s Hs) as L.
  rewrite E, len_app in L. pose proof (len_nonneg r). pose proof (len_nonneg w). destruct Hs as [? _].
  split; [simpl; lia|]. by rewrite Er.
Qed.

(** The moves that the reader makes are over valid text. *)
Lemma good_move_valid s w r n :
  good s → rest s = w ++ r → is_utf8 w = true → n = index s + len w → good (set_index n s).
Proof.
  intros Hs E Hw Hn. eapply good_move; try done. destruct Hs as [_ H]. rewrite E in H.
  by rewrite is_utf8_app in H.
Qed.

(** *** The primitives *)

Lemma slice_end (l : list byte) a : slice l a (len l) = drop (Z.to_nat a) l.
Proof.
  unfold slice. apply take_ge. rewrite length_drop. unfold len. lia.
Qed.

Lemma clamp_good s : good s → clamp src (index s) = index s.
Proof. intros [H _]. unfold clamp, Source.logical_end. lia. Qed.

Lemma input_slice_good a b s :
  0 <= a <= b → b <= len input → is_utf8 (drop (Z.to_nat a) input) = true →
  is_utf8 (drop (Z.to_nat b) input) = true →
  input_slice src a b s = (s, Ok (slice input a b)).
Proof.
  intros Hab Hb Ha Hb'. unfold input_slice.
  destruct (str_slice_valid input a b valid_input Hab Hb Ha Hb') as (->&_). done.
Qed.

Lemma remaining_good s : good s → remaining src s = (s, Ok (rest s)).
Proof.
  intros Hs. unfold remaining. rewrite run_get, clamp_good by done. destruct Hs as [H Hr].
  rewrite input_slice_good; unfold Source.logical_end; try done; try lia.
  - by rewrite slice_end.
  - rewrite drop_ge; [done|]. unfold len. lia.
Qed.

Lemma rest_nil s : good s → rest s = [] ↔ index s = len input.
Proof.
  intros Hs. pose proof (len_rest s Hs) as L. split.
  - intros E. rewrite E, len_nil in L. lia.
  - intros E. apply len_zero. lia.
Qed.

Lemma eof_good s : good s → eof src s = (s, Ok (bool_decide (rest s = []))).
Proof.
  intros Hs. unfold eof. rewrite run_get. unfold mret, run_ret, Source.logical_end. do 2 f_equal.
  pose proof (rest_nil s Hs) as Hn. destruct Hs as [H _].
  destruct (Z.leb_spec (len input) (index s)); symmetry;
    [apply bool_decide_eq_true_2|apply bool_decide_eq_false_2]; rewrite Hn; lia.
Qed.

Lemma peek_byte_good s : good s → peek_byte src s = (s, Ok (head (rest s))).
Proof.
  intros [H ?]. unfold peek_byte. rewrite run_get. unfold mret, run_ret, Source.logical_end. do 2 f_equal.
  unfold rest. destruct (Z.leb_spec (len input) (index s)) as [Hle|Hlt].
  - rewrite drop_ge; [done|]. unfold len in *. lia.
  - destruct valid_bytes as [padding ->]. unfold len in *. rewrite lookup_app_l by lia.
    rewrite <- (Nat.add_0_r (Z.to_nat (index s))), <- lookup_drop at 1. by destruct (drop _ _).
Qed.

Lemma peek_is_good b s : good s → peek_is src b s = (s, Ok (bool_decide (head (rest s) = Some b))).
Proof. intros Hs. unfold peek_is. by rewrite (run_ok _ _ _ _ _ (peek_byte_good s Hs)). Qed.

Lemma peek_char_good s : good s → peek_char src s = (s, Ok (fst <$> next_char (rest s))).
Proof. intros Hs. unfold peek_char. by rewrite (run_ok _ _ _ _ _ (remaining_good s Hs)). Qed.

Lemma starts_with_good w s : good s → starts_with src w s = (s, Ok (Bytes.starts_with (rest s) w)).
Proof. intros Hs. unfold starts_with. by rewrite (run_ok _ _ _ _ _ (remaining_good s Hs)). Qed.

(** A character that is left. *)
Lemma next_good s c r :
  good s → next_char (rest s) = Some (c, r) →
  scalar c ∧ rest s = encode_utf8 c ++ r ∧ good (set_index (index s + len_utf8 c) s)
  ∧ rest (set_index (index s + len_utf8 c) s) = r ∧ 1 <= len_utf8 c.
Proof.
  intros Hs E. pose proof (next_char_valid (rest s) (proj2 Hs)) as H. rewrite E in H. destruct H as (Hc&Er&Hr).
  destruct (len_encode_utf8 c Hc) as [L ?]. split_and!; try done.
  - eapply good_move; [done|exact Er|done|lia].
  - eapply rest_move; [done|exact Er|lia].
Qed.

Lemma bump_char_good s :
  good s →
  bump_char src s =
    match next_char (rest s) with
    | Some (c, _) => (set_index (index s + len_utf8 c) s, Ok (Some c))
    | None => (s, Ok None)
    end.
Proof.
  intros Hs. unfold bump_char. rewrite (run_ok _ _ _ _ _ (remaining_good s Hs)).
  by destruct (next_char (rest s)) as [[c r]|].
Qed.

Lemma bump_byte_good s b r :
  good s → rest s = b :: r → bump_byte src s = (set_index (index s + 1) s, Ok tt).
Proof.
  intros Hs E. unfold bump_byte. rewrite run_get. pose proof (len_rest s Hs) as L.
  rewrite E, len_cons in L. pose proof (len_nonneg r). unfold Source.logical_end.
  by destruct (Z.ltb_spec (index s) (len input)); [|lia].
Qed.

(** An ASCII byte is a character. *)
Lemma ascii_move s b r :
  good s → rest s = b :: r → is_ascii b = true →
  good (set_index (index s + 1) s) ∧ rest (set_index (index s + 1) s) = r
  ∧ next_char (rest s) = Some (value b, r).
Proof.
  intros Hs E Hb. split_and!.
  - eapply (good_move_valid s [b]); [done|exact E|simpl; by rewrite Hb|done].
  - eapply (rest_move s [b]); [done|exact E|done].
  - rewrite E. simpl. by rewrite Hb.
Qed.

Lemma starts_with_true l w : Bytes.starts_with l w = true ↔ ∃ r, l = w ++ r.
Proof.
  unfold Bytes.starts_with. rewrite bool_decide_eq_true. split.
  - intros [r Hr]. exists r. by apply strip_prefix_some.
  - intros [r ->]. rewrite strip_prefix_app. by eexists.
Qed.

(** Moving over a word of ASCII bytes. *)
Lemma word_move s w :
  good s → Bytes.starts_with (rest s) w = true → forallb is_ascii w = true →
  ∃ r, rest s = w ++ r ∧ good (set_index (index s + len w) s) ∧ rest (set_index (index s + len w) s) = r.
Proof.
  intros Hs [r E]%starts_with_true Hw. exists r. split_and!; [done|..].
  - eapply good_move_valid; [done|exact E|by apply is_utf8_ascii|done].
  - eapply rest_move; [done|exact E|done].
Qed.

(** ** Runs that do not panic *)

Definition limits (c : Context.t) : Z * Z * Z * Z :=
  (Context.depth c, Context.max_string_len c, Context.max_children c, Context.max_depth c).

Definition frame (s s' : Cursor.t) : Prop := limits (ctx s') = limits (ctx s).

(** The cursor moved by at least [n] bytes to a boundary. *)
Definition moved (n : Z) (s s' : Cursor.t) : Prop := good s' ∧ index s + n <= index s' ∧ frame s s'.

Definition failed (s : Cursor.t) (e : ErrorCtx.t) (s' : Cursor.t) : Prop :=
  frame s s' ∧ 0 <= ErrorCtx.consumed e <= len input ∧ ErrorCtx.code e ≠ ErrorCode.None.

(** [m] returns from [s]; when it succeeds it moved by at least [n]. *)
Definition safe {A} (n : Z) (m : Parse A) (s : Cursor.t) (P : A → Cursor.t → Prop) : Prop :=
  runs m s (λ a s', moved n s s' ∧ P a s') (failed s).

Lemma frame_trans s s' s'' : frame s s' → frame s' s'' → frame s s''.
Proof. unfold frame. congruence. Qed.

Lemma moved_trans n m s s' s'' : moved n s s' → moved m s' s'' → moved (n + m) s s''.
Proof.
  intros (_&H1&F1) (G&H2&F2). split_and!; [done|lia|by eapply frame_trans].
Qed.

Lemma moved_weaken n m s s' : moved n s s' → m <= n → moved m s s'.
Proof. intros (?&?&?) ?. split_and!; [done|lia|done]. Qed.

Lemma moved_refl s : good s → moved 0 s s.
Proof. intros. split_and!; [done|lia|done]. Qed.

Lemma failed_trans s s' s'' e : frame s s' → failed s' e s'' → failed s e s''.
Proof. intros F (F'&?&?). split; [by eapply frame_trans|done]. Qed.

Lemma bind_safe {A B} n n1 n2 (m : Parse A) (k : A → Parse B) s P1 P :
  safe n1 m s P1 → (∀ a s', moved n1 s s' → P1 a s' → safe n2 (k a) s' P) → n <= n1 + n2 →
  safe n (m ≫= k) s P.
Proof.
  intros Hm Hk Hn. unfold safe. eapply runs_step; [exact Hm| |done].
  intros a s' [M HP]. eapply runs_mono; [apply (Hk a s' M HP)| |].
  - intros b s'' [M' ?]. split; [|done]. eapply moved_weaken; [by eapply moved_trans|lia].
  - intros e s'' F. eapply failed_trans; [apply M|done].
Qed.

(** A step, and what is left to move. *)
Lemma safe_step {A B} n n1 (m : Parse A) (k : A → Parse B) s P1 P :
  safe n1 m s P1 →
  (∀ a s', moved n1 s s' → P1 a s' → safe (n - (index s' - index s)) (k a) s' P) →
  safe n (m ≫= k) s P.
Proof.
  intros Hm Hk. unfold safe. eapply runs_step; [exact Hm| |done].
  intros a s' [M HP]. eapply runs_mono; [apply (Hk a s' M HP)| |].
  - intros b s'' [(G&D&F) ?]. split; [|done]. split_and!; [done|lia|]. eapply frame_trans; [apply M|done].
  - intros e s'' F. eapply failed_trans; [apply M|done].
Qed.

Lemma safe_mono {A} n n' (m : Parse A) s (P P' : A → Cursor.t → Prop) :
  safe n m s P → n' <= n → (∀ a s', moved n s s' → P a s' → P' a s') → safe n' m s P'.
Proof.
  intros Hm Hn HP. eapply runs_mono; [exact Hm| |done]. intros a s' [M H].
  split; [by eapply moved_weaken|by apply HP].
Qed.

Lemma ret_safe {A} n (a : A) s P : good s → n <= 0 → P a s → safe n (mret a) s P.
Proof. intros Hs Hn HP. split; [|done]. eapply moved_weaken; [by apply moved_refl|done]. Qed.

(** A step that is known exactly. *)
Lemma eq_safe {A B} n n' (m : Parse A) (k : A → Parse B) s s' a P :
  m s = (s', Ok a) → moved n' s s' → safe (n - n') (k a) s' P → safe n (m ≫= k) s P.
Proof.
  intros E M Hk. eapply (bind_safe n n' (n - n') m k s (λ b t, b = a ∧ t = s')); [|intros b t _ [-> ->]; done|lia].
  unfold safe, runs. by rewrite E.
Qed.

Lemma safe_read {A B} n (m : Parse A) (k : A → Parse B) s a P :
  good s → m s = (s, Ok a) → safe n (k a) s P → safe n (m ≫= k) s P.
Proof.
  intros Hs E Hk. eapply (eq_safe n 0); [exact E|by apply moved_refl|]. by rewrite Z.sub_0_r.
Qed.

Lemma failed_err s c i : 0 <= index s → c ≠ ErrorCode.None → failed s (ErrorCtx.with_consumed (clamp src (index s)) (ErrorCtx.new c i)) s.
Proof.
  intros Hs Hc. split_and!; try done; simpl; unfold clamp, Source.logical_end; pose proof (len_nonneg input); lia.
Qed.

Lemma safe_err {A} n c s (P : A → Cursor.t → Prop) :
  0 <= index s → c ≠ ErrorCode.None → safe n (err src c) s P.
Proof. intros. by apply failed_err. Qed.

Lemma safe_err_at {A} n c i s (P : A → Cursor.t → Prop) :
  0 <= index s → c ≠ ErrorCode.None → safe n (err_at src c i) s P.
Proof. intros. by apply failed_err. Qed.

(** Putting the cursor where it is known to be good. *)
Lemma safe_put {B} n n' i (k : unit → Parse B) s P :
  good (set_index i s) → index s + n' <= i → safe (n - n') (k tt) (set_index i s) P →
  safe n (put_index i ≫= k) s P.
Proof. intros G H Hk. eapply eq_safe; [done| |exact Hk]. split_and!; [done|simpl; lia|done]. Qed.

Lemma safe_update {B} n f (k : unit → Parse B) s P :
  good s → limits (f (ctx s)) = limits (ctx s) → safe n (k tt) (set_ctx (f (ctx s)) s) P →
  safe n (update_ctx f ≫= k) s P.
Proof.
  intros Hs Hf Hk. eapply (eq_safe n 0); [done| |by rewrite Z.sub_0_r].
  split_and!; [by apply good_ctx|simpl; lia|done].
Qed.

(** Steps that move, with the new state abstract. *)

Lemma safe_bump_char {B} n (k : option Z → Parse B) s c r P :
  good s → next_char (rest s) = Some (c, r) →
  (∀ s', moved (len_utf8 c) s s' → rest s' = r → 1 <= len_utf8 c → index s' = index s + len_utf8 c →
    safe (n - len_utf8 c) (k (Some c)) s' P) →
  safe n (bump_char src ≫= k) s P.
Proof.
  intros Hs E Hk. destruct (next_good s c r Hs E) as (_&_&G&Hr&?).
  eapply (eq_safe n (len_utf8 c)); [rewrite bump_char_good by done; by rewrite E|split_and!; (done || simpl; lia)|].
  apply Hk; first [done|split_and!; (done || simpl; lia)].
Qed.

Lemma safe_bump_byte {B} n (k : unit → Parse B) s b P :
  good s → head (rest s) = Some b → is_ascii b = true →
  (∀ s', moved 1 s s' → rest s' = tail (rest s) → index s' = index s + 1 → safe (n - 1) (k tt) s' P) →
  safe n (bump_byte src ≫= k) s P.
Proof.
  intros Hs E Hb Hk. destruct (rest s) as [|b' r] eqn:Er; [done|]. injection E as ->.
  destruct (ascii_move s b r Hs Er Hb) as (G&Hr&_).
  eapply (eq_safe n 1); [by apply (bump_byte_good s b r)|split_and!; (done || simpl; lia)|].
  apply Hk; first [done|split_and!; (done || simpl; lia)].
Qed.

Lemma safe_advance {B} n (k : unit → Parse B) s w i P :
  good s → Bytes.starts_with (rest s) w = true → forallb is_ascii w = true → i = len w →
  (∀ s', moved i s s' → rest s = w ++ rest s' → index s' = index s + i → safe (n - i) (k tt) s' P) →
  safe n (advance i ≫= k) s P.
Proof.
  intros Hs E Hw -> Hk. destruct (word_move s w Hs E Hw) as (r&Er&G&Hr).
  eapply (eq_safe n (len w)); [done|split_and!; (done || simpl; lia)|].
  apply Hk; [split_and!; (done || simpl; lia)|by rewrite Hr|done].
Qed.

End cursor.

(** ** Reading a text off the front *)

(** The cursor behind [w]. *)
Definition adv (w : list byte) (s : Cursor.t) : Cursor.t := set_index (index s + len w) s.

Lemma adv_nil s : adv [] s = s.
Proof. unfold adv, set_index. rewrite len_nil, Z.add_0_r. by destruct s. Qed.

Lemma adv_app v w s : adv w (adv v s) = adv (v ++ w) s.
Proof. unfold adv, set_index. simpl. f_equal. rewrite len_app. lia. Qed.

Section eats.

Context (src : Source.t) {Hsrc : ValidSource src} (simd : bool).

#[local] Abbreviation input := (Source.input src).

#[local] Abbreviation good := (KdlCursor.good src).

#[local] Abbreviation rest := (KdlCursor.rest src).

Lemma adv_good w r s : good s → rest s = w ++ r → is_utf8 w = true → good (adv w s) ∧ rest (adv w s) = r.
Proof.
  intros Hs E Hw. split; [by eapply good_move_valid|by eapply rest_move].
Qed.

(** The context [c] has an empty scratch buffer and room for the strings of
    the text. *)
Definition roomy (c : Context.t) : Prop := Context.scratch c = [] ∧ len input <= Context.max_string_len c.

Context (c : Context.t).

Definition eats {A} (m : Parse A) (w r : list byte) (a : A) : Prop :=
  is_utf8 w = true ∧ ∀ s, good s → ctx s = c → rest s = w ++ r → m s = (adv w s, Ok a).

(** Two parts in a row. *)
Lemma eats_bind {A B} (m : Parse A) (k : A → Parse B) v w r a b :
  eats m v (w ++ r) a → eats (k a) w r b → eats (m ≫= k) (v ++ w) r b.
Proof.
  intros [Hv Hm] [Hw Hk]. split; [by rewrite is_utf8_app|].
  intros s Hs Hc E. rewrite <- app_assoc in E. rewrite (run_ok _ _ _ _ _ (Hm s Hs Hc E)).
  destruct (adv_good v (w ++ r) s Hs E Hv) as [G Er]. rewrite Hk by done. by rewrite adv_app.
Qed.

(** A look at what is left. *)
Lemma eats_read {A B} (m : Parse A) (k : A → Parse B) w r a b :
  (∀ s, good s → ctx s = c → rest s = w ++ r → m s = (s, Ok a)) →
  eats (k a) w r b → eats (m ≫= k) w r b.
Proof.
  intros Hm [Hw Hk]. split; [done|]. intros s Hs Hc E. rewrite (run_ok _ _ _ _ _ (Hm s Hs Hc E)). auto.
Qed.

Lemma eats_ret {A} r (a : A) : eats (mret a) [] r a.
Proof. split; [done|]. intros s Hs Hc E. by rewrite adv_nil. Qed.

Lemma eats_then_ret {A B} (m : Parse A) (f : A → B) w r a :
  eats m w r a → eats (m ≫= λ a, mret (f a)) w r (f a).
Proof. intros Hm. rewrite <- (app_nil_r w). eapply eats_bind; [exact Hm|apply eats_ret]. Qed.

Lemma eats_nothing {A B} (m : Parse A) (k : A → Parse B) w r a b :
  eats m [] (w ++ r) a → eats (k a) w r b → eats (m ≫= k) w r b.
Proof. intros Hm Hk. by apply (eats_bind m k [] w r a b). Qed.

(** The fuel of a loop is more than what is left. *)
Lemma eats_steps {A} (m : nat → Parse A) w r a :
  (∀ fuel, (length (w ++ r) < fuel)%nat → eats (m fuel) w r a) → eats (m (steps src)) w r a.
Proof.
  intros Hm. split; [apply (Hm (S (length (w ++ r)))); lia|]. intros s Hs Hc E.
  apply Hm; try done. rewrite <- E. unfold KdlCursor.rest, steps. rewrite length_drop. lia.
Qed.

(** *** Looks *)

Lemma look_char w r : ∀ s, good s → ctx s = c → rest s = w ++ r →
  peek_char src s = (s, Ok (fst <$> next_char (w ++ r))).
Proof. intros s Hs _ <-. by apply peek_char_good. Qed.

Lemma look_byte w r : ∀ s, good s → ctx s = c → rest s = w ++ r → peek_byte src s = (s, Ok (head (w ++ r))).
Proof. intros s Hs _ <-. by apply peek_byte_good. Qed.

Lemma look_is b w r : ∀ s, good s → ctx s = c → rest s = w ++ r →
  peek_is src b s = (s, Ok (bool_decide (head (w ++ r) = Some b))).
Proof. intros s Hs _ <-. by apply peek_is_good. Qed.

Lemma look_with p w r : ∀ s, good s → ctx s = c → rest s = w ++ r →
  starts_with src p s = (s, Ok (Bytes.starts_with (w ++ r) p)).
Proof. intros s Hs _ <-. by apply starts_with_good. Qed.

Lemma look_eof w r : ∀ s, good s → ctx s = c → rest s = w ++ r →
  eof src s = (s, Ok (bool_decide (w ++ r = []))).
Proof. intros s Hs _ <-. by apply eof_good. Qed.

Lemma look_remaining w r : ∀ s, good s → ctx s = c → rest s = w ++ r → remaining src s = (s, Ok (w ++ r)).
Proof. intros s Hs _ <-. by apply remaining_good. Qed.

(** *** Moves *)

Lemma eats_bump_char d r : scalar d → eats (bump_char src) (encode_utf8 d) r (Some d).
Proof.
  intros Hd. split; [rewrite <- (app_nil_r (encode_utf8 d)); by rewrite is_utf8_encode|].
  intros s Hs _ E. rewrite bump_char_good by done. rewrite E, next_char_encode by done.
  destruct (len_encode_utf8 d Hd) as [L _]. unfold adv. by rewrite L.
Qed.

Lemma eats_bump_byte b r : is_ascii b = true → eats (bump_byte src) [b] r tt.
Proof.
  intros Hb. split; [simpl; by rewrite Hb|]. intros s Hs _ E. by apply (bump_byte_good src s b r).
Qed.

Lemma eats_advance w r n : n = len w → is_utf8 w = true → eats (advance n) w r tt.
Proof. intros -> Hw. split; [done|]. intros s Hs _ E. done. Qed.

Lemma eats_consume w r : forallb is_ascii w = true → eats (consume_exact src w) w r true.
Proof.
  intros Hw. unfold consume_exact. eapply eats_read; [apply look_with|].
  rewrite (proj2 (starts_with_true (w ++ r) w)) by eauto.
  apply (eats_then_ret _ (λ _, true) w r tt). apply eats_advance; [done|by apply is_utf8_ascii].
Qed.

(** ** Where a skip stops *)

(** The first character of a text that no skip within a node passes. *)
Definition stops (d : Z) : Prop := is_unicode_space d = false ∧ d ≠ 92 ∧ d ≠ 47 ∧ d ≠ 33 ∧ d ≠ 8.

Definition calm_node (r : list byte) : Prop :=
  is_utf8 r = true ∧ match next_char r with Some (d, _) => stops d | None => True end.

(** Nor does a skip between nodes. *)
Definition calm (r : list byte) : Prop :=
  calm_node r ∧ match next_char r with Some (d, _) => is_newline_char d = false | None => True end.

Lemma calm_cons d r : scalar d → is_utf8 r = true → stops d → calm_node (encode_utf8 d ++ r).
Proof. intros Hd Hr Hs. split; [by rewrite is_utf8_encode|]. by rewrite next_char_encode. Qed.

Lemma encode_ascii d : 0 <= d < 128 → encode_utf8 d = [byte_of d].
Proof. intros. unfold encode_utf8. by destruct (Z.ltb_spec d 128); [|lia]. Qed.

(** The first byte of a text. *)
Lemma head_char r :
  is_utf8 r = true →
  match r with
  | [] => next_char r = None
  | b :: _ => ∃ d t, next_char r = Some (d, t) ∧ (is_ascii b = true → d = value b)
      ∧ (is_ascii b = false → 128 <= d)
  end.
Proof.
  intros H. destruct r as [|b r]; [done|]. pose proof (next_char_valid (b :: r) H) as Hn.
  destruct (next_char (b :: r)) as [[d t]|] eqn:E; [|done]. exists d, t. split; [done|].
  destruct Hn as (Hd&Hn&_). apply scalar_range in Hd as Hd'. split.
  - intros Hb. simpl in E. rewrite Hb in E. by injection E as <- _.
  - intros Hb. destruct (Z.lt_decidable d 128) as [Hlt|]; [|lia]. rewrite encode_ascii in Hn by lia.
    injection Hn as -> _. unfold is_ascii in Hb. rewrite value_of_small in Hb by lia. lia.
Qed.

Lemma calm_byte r b : calm_node r → head r = Some b → swallowed b = false.
Proof.
  intros [Hu Hs] Hb. pose proof (head_char r Hu) as Hh. destruct r as [|b' r]; [done|]. injection Hb as ->.
  destruct Hh as (d&t&E&H1&H2). rewrite E in Hs. destruct Hs as (Hsp&_&_&?&?).
  unfold is_unicode_space in Hsp. unfold swallowed, Swar.is_blank, Swar.SPACE, Swar.TAB.
  destruct (is_ascii b) eqn:Eb; [specialize (H1 eq_refl); subst d; lia|].
  unfold is_ascii in Eb. lia.
Qed.

Lemma calm_not_byte r b : calm_node r → (b = "\"%byte ∨ b = "/"%byte) → head r ≠ Some b.
Proof.
  intros [Hu Hs] Hb E. pose proof (head_char r Hu) as Hh. destruct r as [|b' r]; [done|]. injection E as ->.
  destruct Hh as (d&t&E&H1&_). rewrite E in Hs. destruct Hs as (_&?&?&_).
  assert (Ha : is_ascii b = true) by (by destruct Hb as [-> | ->]). specialize (H1 Ha). subst d.
  destruct Hb as [-> | ->]; done.
Qed.

Lemma calm_not_with r b w : calm_node r → (b = "\"%byte ∨ b = "/"%byte) → Bytes.starts_with r (b :: w) = false.
Proof.
  intros Hr Hb. destruct (Bytes.starts_with r (b :: w)) eqn:E; [|done].
  apply starts_with_true in E as [t ->]. by destruct (calm_not_byte _ b Hr Hb).
Qed.

Lemma calm_not_comment r : calm_node r → Bytes.starts_with r (text "/*") = false.
Proof. intros Hr. apply (calm_not_with r "/"%byte (text "*")); auto. Qed.

Lemma calm_not_line_comment r : calm_node r → Bytes.starts_with r (text "//") = false.
Proof. intros Hr. apply (calm_not_with r "/"%byte (text "/")); auto. Qed.

Lemma calm_not_slashdash r : calm_node r → Bytes.starts_with r (text "/-") = false.
Proof. intros Hr. apply (calm_not_with r "/"%byte (text "-")); auto. Qed.

Lemma calm_not_space r : calm_node r →
  match fst <$> next_char r with Some d => is_unicode_space d | None => false end = false.
Proof. intros [_ Hs]. destruct (next_char r) as [[d t]|]; [apply Hs|done]. Qed.

(** ** Blanks *)

Definition spaces (k : nat) : list byte := replicate k " "%byte.

Lemma len_spaces k : len (spaces k) = Z.of_nat k.
Proof. unfold len, spaces. by rewrite length_replicate. Qed.

Lemma spaces_utf8 k : is_utf8 (spaces k) = true.
Proof. apply is_utf8_ascii. unfold spaces. by induction k. Qed.

Lemma prefix_len_spaces k r : prefix_len not_blank (spaces k ++ r) = Z.of_nat k + prefix_len not_blank r.
Proof. induction k as [|k IH]; [done|]. cbn [spaces replicate app prefix_len]. fold (spaces k). simpl. rewrite IH. lia. Qed.

Lemma skip_spaces s k r :
  good s → rest s = spaces k ++ r → calm_node r →
  Swar.skip_ascii_horizontal_ws (Source.bytes src) (index s) (Source.logical_end src) = index s + Z.of_nat k.
Proof.
  intros Hs E Hr. destruct Hs as [Hi Hu]. destruct valid_bytes as [padding Eb].
  pose proof (len_rest src s ltac:(by split)) as L. rewrite E, len_app, len_spaces in L.
  destruct (skip_spec (Source.bytes src) (index s) (Source.logical_end src) (proj1 Hi)) as (H1&H2&H3&_&H5).
  set (a := Swar.skip_ascii_horizontal_ws _ _ _) in *. unfold Source.logical_end in *.
  assert (Ed : drop (Z.to_nat (index s)) (Source.bytes src) = spaces k ++ r ++ padding).
  { rewrite Eb, drop_app_le by (unfold len in *; lia). change (drop _ input) with (rest s). rewrite E.
    by rewrite <- app_assoc. }
  rewrite Ed in H3, H5. rewrite prefix_len_spaces in H3, H5. pose proof (len_nonneg padding).
  assert (Ee : Z.min (len input) (len (Source.bytes src)) = len input) by (rewrite Eb, len_app; lia).
  rewrite Ee in *. destruct r as [|b r].
  - rewrite len_nil in L. pose proof (prefix_len_range not_blank ([] ++ padding)). lia.
  - assert (Hb : swallowed b = false) by (by eapply calm_byte).
    assert (Hnb : not_blank b = true).
    { unfold not_blank, swallowed in *. destruct (Swar.is_blank b); [done|done]. }
    assert (Hp : prefix_len not_blank ((b :: r) ++ padding) = 0) by (simpl; by rewrite Hnb).
    rewrite Hp in *. rewrite len_cons in L. pose proof (len_nonneg r). rewrite H5; [lia|].
    intros _ b'. rewrite prefix_len_spaces, Hp, Z.add_0_r, Nat2Z.id.
    rewrite lookup_app_r by (unfold spaces; by rewrite length_replicate).
    unfold spaces. rewrite length_replicate, Nat.sub_diag. simpl. by intros [= <-].
Qed.

Lemma eats_ws_loop fuel k r :
  (length (spaces k ++ r) < fuel)%nat → calm_node r → eats (ws_only_loop src fuel) (spaces k) r tt.
Proof.
  revert k. induction fuel as [|fuel IH]; intros k Hf Hr; [lia|]. split; [apply spaces_utf8|].
  intros s Hs Hc E. cbn [ws_only_loop]. etransitivity; [apply (run_ok get_index _ s s (index s)); done|].
  rewrite (skip_spaces s k r Hs E Hr). rewrite <- len_spaces. fold (adv (spaces k) s).
  etransitivity; [apply (run_ok _ _ s (adv (spaces k) s) tt); done|].
  destruct (adv_good (spaces k) r s Hs E (spaces_utf8 k)) as [G Er].
  rewrite (run_ok _ _ _ _ _ (peek_char_good src _ G)), Er, calm_not_space by done.
  rewrite (run_ok _ _ _ _ _ (starts_with_good src _ _ G)), Er, calm_not_comment by done.
  etransitivity; [apply (run_ok get_index _ _ (adv (spaces k) s) (index (adv (spaces k) s))); done|].
  simpl. rewrite len_spaces. destruct k as [|k]; [by destruct (Z.eqb_spec (index s + Z.of_nat 0) (index s)); [|lia]|].
  destruct (Z.eqb_spec (index s + Z.of_nat (S k)) (index s)); [lia|].
  destruct (IH 0%nat ltac:(simpl in *; rewrite ?length_app in Hf; simpl in *; lia) Hr) as [_ H].
  rewrite (H (adv (spaces (S k)) s)) by done. by rewrite adv_nil.
Qed.

Lemma eats_ws k r : calm_node r → eats (skip_ws_only src) (spaces k) r tt.
Proof. intros Hr. apply (eats_steps (ws_only_loop src)). intros fuel Hf. by apply eats_ws_loop. Qed.

Lemma eats_node_space_loop fuel k r :
  (length (spaces k ++ r) < fuel)%nat → calm_node r → eats (node_space_loop src fuel) (spaces k) r tt.
Proof.
  revert k. induction fuel as [|fuel IH]; intros k Hf Hr; [lia|]. split; [apply spaces_utf8|].
  intros s Hs Hc E. cbn [node_space_loop]. etransitivity; [apply (run_ok get_index _ s s (index s)); done|].
  rewrite (run_ok _ _ _ _ _ (proj2 (eats_ws k r Hr) s Hs Hc E)).
  destruct (adv_good (spaces k) r s Hs E (spaces_utf8 k)) as [G Er].
  rewrite (run_ok _ _ _ _ _ (peek_is_good src _ _ G)), Er.
  rewrite bool_decide_eq_false_2 by (apply (calm_not_byte r); auto).
  etransitivity; [apply (run_ok get_index _ _ (adv (spaces k) s) (index (adv (spaces k) s))); done|].
  simpl. rewrite len_spaces. destruct k as [|k]; [by destruct (Z.eqb_spec (index s + Z.of_nat 0) (index s)); [|lia]|].
  destruct (Z.eqb_spec (index s + Z.of_nat (S k)) (index s)); [lia|].
  destruct (IH 0%nat ltac:(simpl in *; rewrite ?length_app in Hf; simpl in *; lia) Hr) as [_ H].
  rewrite (H (adv (spaces (S k)) s)) by done. by rewrite adv_nil.
Qed.

Lemma eats_node_space_counted k r :
  calm_node r → eats (skip_node_space_counted src) (spaces k) r (0 <? Z.of_nat k).
Proof.
  intros Hr. split; [apply spaces_utf8|]. intros s Hs Hc E. unfold skip_node_space_counted.
  etransitivity; [apply (run_ok get_index _ s s (index s)); done|].
  destruct (eats_steps (node_space_loop src) (spaces k) r tt) as [_ H]; [intros; by apply eats_node_space_loop|].
  rewrite (run_ok _ _ _ _ _ (H s Hs Hc E)).
  etransitivity; [apply (run_ok get_index _ _ (adv (spaces k) s) (index (adv (spaces k) s))); done|].
  unfold mret, run_ret. simpl. rewrite len_spaces. do 2 f_equal.
  destruct (Z.ltb_spec (index s) (index s + Z.of_nat k)), (Z.ltb_spec 0 (Z.of_nat k)); lia.
Qed.

Lemma eats_node_space k r : calm_node r → eats (skip_node_space src) (spaces k) r tt.
Proof. intros Hr. apply (eats_then_ret _ (λ _, tt) _ _ _ (eats_node_space_counted k r Hr)). Qed.

Lemma eats_no_space r : calm_node r → eats (skip_node_space src) [] r tt.
Proof. apply (eats_node_space 0). Qed.

(** ** Line space *)

Lemma calm_newline r : is_utf8 r = true → calm_node ("010"%byte :: r).
Proof. intros Hr. split; [done|]. done. Qed.

Lemma not_newline s r :
  good s → rest s = r → calm r → consume_newline src s = (s, Ok false).
Proof.
  intros Hs <- [_ Hn]. unfold consume_newline. rewrite (run_ok _ _ _ _ _ (peek_char_good src s Hs)).
  destruct (next_char (rest s)) as [[d t]|]; [|done]. simpl. rewrite Hn.
  destruct (Z.eqb_spec d RETURN) as [->|]; [done|done].
Qed.

Lemma eats_newline r : eats (consume_newline src) ["010"%byte] r true.
Proof.
  unfold consume_newline. eapply eats_read; [apply look_char|]. simpl.
  change (Z.eqb (value "010"%byte) RETURN) with false. cbv iota.
  change (is_newline_char (value "010"%byte)) with true. cbv iota.
  apply (eats_then_ret _ (λ _, true) _ _ (Some 10)). by apply (eats_bump_char 10).
Qed.

Lemma eats_line_loop fuel k r :
  (length (spaces k ++ r) < fuel)%nat → calm r → eats (line_space_loop src fuel) (spaces k) r tt.
Proof.
  revert k. induction fuel as [|fuel IH]; intros k Hf Hr; [lia|]. split; [apply spaces_utf8|].
  intros s Hs Hc E. cbn [line_space_loop]. etransitivity; [apply (run_ok get_index _ s s (index s)); done|].
  rewrite (run_ok _ _ _ _ _ (proj2 (eats_ws k r (proj1 Hr)) s Hs Hc E)).
  destruct (adv_good (spaces k) r s Hs E (spaces_utf8 k)) as [G Er].
  rewrite (run_ok _ _ _ _ _ (starts_with_good src _ _ G)), Er, calm_not_line_comment by apply Hr.
  rewrite (run_ok _ _ _ _ _ (not_newline _ r G Er Hr)).
  rewrite (run_ok _ _ _ _ _ (peek_is_good src _ _ G)), Er.
  rewrite bool_decide_eq_false_2 by (apply (calm_not_byte r); [apply Hr|auto]).
  etransitivity; [apply (run_ok get_index _ _ (adv (spaces k) s) (index (adv (spaces k) s))); done|].
  simpl. rewrite len_spaces. destruct k as [|k]; [by destruct (Z.eqb_spec (index s + Z.of_nat 0) (index s)); [|lia]|].
  destruct (Z.eqb_spec (index s + Z.of_nat (S k)) (index s)); [lia|].
  destruct (IH 0%nat ltac:(simpl in *; rewrite ?length_app in Hf; simpl in *; lia) Hr) as [_ H].
  rewrite (H (adv (spaces (S k)) s)) by done. by rewrite adv_nil.
Qed.

Lemma eats_indent k r : calm r → eats (skip_line_space src) (spaces k) r tt.
Proof. intros Hr. apply (eats_steps (line_space_loop src)). intros fuel Hf. by apply eats_line_loop. Qed.

(** The end of a line and the indentation of the next. *)
Lemma eats_line_end k r : calm r → eats (skip_line_space src) ("010"%byte :: spaces k) r tt.
Proof.
  intros Hr. apply (eats_steps (line_space_loop src)). intros fuel Hf.
  destruct fuel as [|fuel]; [simpl in Hf; lia|].
  assert (Hu : is_utf8 (spaces k ++ r) = true) by (rewrite is_utf8_app by apply spaces_utf8; apply Hr).
  split; [apply spaces_utf8|]. intros s Hs Hc E. cbn [line_space_loop].
  etransitivity; [apply (run_ok get_index _ s s (index s)); done|].
  pose proof (calm_newline _ Hu) as Hn.
  destruct (eats_ws 0 _ Hn) as [_ H]. rewrite (run_ok _ _ _ _ _ (H s Hs Hc E)), adv_nil.
  rewrite (run_ok _ _ _ _ _ (starts_with_good src _ _ Hs)), E.
  change (Bytes.starts_with (("010"%byte :: spaces k) ++ r) (text "//")) with (Bytes.starts_with ("010"%byte :: spaces k ++ r) (text "//")).
  rewrite calm_not_line_comment by done.
  destruct (eats_newline (spaces k ++ r)) as [_ H2]. rewrite (run_ok _ _ _ _ _ (H2 s Hs Hc E)).
  destruct (adv_good ["010"%byte] (spaces k ++ r) s Hs E eq_refl) as [G Er].
  destruct (eats_line_loop fuel k r ltac:(simpl in Hf; lia) Hr) as [_ H3]. rewrite (H3 _ G Hc Er). by rewrite adv_app.
Qed.

End eats.

(** A hexadecimal digit is an ASCII byte. *)
Lemma hex_ascii b : is_Some (hex b) → is_ascii b = true.
Proof.
  unfold hex, is_ascii_digit, in_range, is_ascii. intros [v E]. repeat case_match; try done; lia.
Qed.
