(* ===== verification/KdlSafe.v ===== *)
(** * The KDL reader does not panic

    On any text, from any context: every loop of the reader ends, no slice of
    the input is off a character boundary, the nesting depth is restored, and
    an error points into the text. *)

From Stdlib Require Import Strings.String Strings.Byte.
From S2P Require Import Prelude Codec Bytes KdlSwar KdlChars KdlValue KdlParser KdlVisit KdlCursor.

Import Cursor.

(** What a loop of the cursor has left. *)
Definition left (src : Source.t) (s : Cursor.t) : Z := len (Source.input src) - index s.

(** One step whose answer is known; the state stays. *)
Ltac read_step :=
  lazymatch goal with
  | |- safe _ _ (peek_char _ ≫= _) _ _ => eapply safe_read; [done|by apply peek_char_good|]
  | |- safe _ _ (peek_byte _ ≫= _) _ _ => eapply safe_read; [done|by apply peek_byte_good|]
  | |- safe _ _ (peek_is _ _ ≫= _) _ _ => eapply safe_read; [done|by apply peek_is_good|]
  | |- safe _ _ (starts_with _ _ ≫= _) _ _ => eapply safe_read; [done|by apply starts_with_good|]
  | |- safe _ _ (remaining _ ≫= _) _ _ => eapply safe_read; [done|by apply remaining_good|]
  | |- safe _ _ (eof _ ≫= _) _ _ => eapply safe_read; [done|by apply eof_good|]
  | |- safe _ _ (get_index ≫= _) _ _ => eapply safe_read; [done|reflexivity|]
  | |- safe _ _ (get_ctx ≫= _) _ _ => eapply safe_read; [done|reflexivity|]
  | |- safe _ _ (mret _ ≫= _) _ _ => eapply safe_read; [done|reflexivity|]
  end; cbv beta iota.

Ltac moved_facts :=
  repeat match goal with M : moved _ _ _ _ |- _ => destruct M as (?&?&?) end; cbv beta in *.

Ltac index_nonneg := match goal with H : good _ ?s |- 0 <= index ?s => apply H end.

Ltac fails := first [apply safe_err; [index_nonneg|done] | apply safe_err_at; [index_nonneg|done]].

Ltac rets := apply ret_safe; [done|simpl in *; lia|try done].

(** The rest of a loop, which has less left. *)
Ltac again IH := eapply safe_mono; [apply IH; [done|unfold left in *; simpl in *; lia]|lia|done].

Section safe.

Context (src : Source.t) {Hsrc : ValidSource src} (simd : bool).

#[local] Abbreviation input := (Source.input src).

#[local] Abbreviation safe := (KdlCursor.safe src).

#[local] Abbreviation good := (KdlCursor.good src).

#[local] Abbreviation rest := (KdlCursor.rest src).

#[local] Abbreviation safe_bump_char := (@KdlCursor.safe_bump_char src Hsrc _).


#[local] Abbreviation left := (left src).

Lemma left_steps s : good s → left s < Z.of_nat (steps src).
Proof. intros [H _]. unfold KdlSafe.left, steps, len in *. lia. Qed.

(** ** Spaces *)

Lemma bump_lf_safe {B} n (k : unit → Parse B) s P :
  good s → (∀ s', moved src 0 s s' → safe n (k tt) s' P) →
  safe n ((if bool_decide (head (rest s) = Some "010"%byte) then bump_byte src else mret tt) ≫= k) s P.
Proof.
  intros Hs Hk. case_bool_decide as E.
  - eapply safe_bump_byte; [done|exact E|done|]. intros s' M _ _.
    eapply safe_mono; [apply Hk; by eapply moved_weaken; [exact M|]|lia|done].
  - read_step. by apply Hk, moved_refl.
Qed.

Lemma consume_newline_safe s :
  good s →
  safe 0 (consume_newline src) s (λ b s', if b : bool then index s + 1 <= index s' else s' = s).
Proof.
  intros Hs. unfold consume_newline. read_step. destruct (next_char (rest s)) as [[c r]|] eqn:E; simpl; [|rets].
  destruct (c =? RETURN).
  - eapply safe_bump_char; [done|exact E|]. intros s' M _ ? ?. moved_facts. read_step.
    apply bump_lf_safe; [done|]. intros s'' M. moved_facts. rets. lia.
  - destruct (is_newline_char c); [|rets].
    eapply safe_bump_char; [done|exact E|]. intros s' M _ ? ?. moved_facts. rets. lia.
Qed.

Lemma line_comment_loop_safe fuel s :
  good s → left s < Z.of_nat fuel → safe 0 (line_comment_loop src fuel) s (λ _ _, True).
Proof.
  revert s. induction fuel as [|fuel IH]; intros s Hs Hf; [unfold KdlSafe.left in *; destruct Hs; lia|].
  cbn [line_comment_loop]. read_step. destruct (next_char (rest s)) as [[c r]|] eqn:E; simpl; [|rets].
  destruct (is_newline_char c).
  - eapply safe_step; [by apply consume_newline_safe|]. intros b s' M _. moved_facts. rets.
  - eapply safe_bump_char; [done|exact E|]. intros s' M _ ? ?. moved_facts.
    again IH.
Qed.

Lemma skip_line_comment_safe s :
  good s → Bytes.starts_with (rest s) (text "//") = true → safe 2 (skip_line_comment src) s (λ _ _, True).
Proof.
  intros Hs E. unfold skip_line_comment. eapply safe_advance; [done|exact E|done|done|].
  intros s' M _ ?. moved_facts. apply line_comment_loop_safe; [done|by apply left_steps].
Qed.

Lemma block_comment_loop_safe fuel depth s :
  good s → left s < Z.of_nat fuel → safe 0 (block_comment_loop src fuel depth) s (λ _ _, True).
Proof.
  revert depth s. induction fuel as [|fuel IH]; intros depth s Hs Hf; [unfold KdlSafe.left in *; destruct Hs; lia|].
  cbn [block_comment_loop]. destruct (0 <? depth); [|rets]. read_step. case_bool_decide as Er; [fails|].
  read_step. destruct (Bytes.starts_with (rest s) (text "/*")) eqn:E1.
  { eapply safe_advance; [done|exact E1|done|done|]. intros s' M _ ?. moved_facts. again IH. }
  read_step. destruct (Bytes.starts_with (rest s) (text "*/")) eqn:E2.
  { eapply safe_advance; [done|exact E2|done|done|]. intros s' M _ ?. moved_facts. again IH. }
  pose proof (next_char_valid (rest s) ltac:(apply Hs)) as Hn.
  destruct (next_char (rest s)) as [[c r]|] eqn:E; [|done].
  eapply safe_bump_char; [done|exact E|]. intros s' M _ ? ?. moved_facts. again IH.
Qed.

Lemma skip_block_comment_safe s :
  good s → Bytes.starts_with (rest s) (text "/*") = true → safe 2 (skip_block_comment src) s (λ _ _, True).
Proof.
  intros Hs E. unfold skip_block_comment. eapply safe_advance; [done|exact E|done|done|].
  intros s' M _ ?. moved_facts. apply block_comment_loop_safe; [done|by apply left_steps].
Qed.

(** The whitespace skip stays on the characters: it takes ASCII bytes only. *)
Lemma swallowed_ascii b : swallowed b = true → is_ascii b = true.
Proof. unfold swallowed, Swar.is_blank, is_ascii, Swar.SPACE, Swar.TAB. lia. Qed.

Lemma skip_ascii_good s :
  good s →
  let i := Swar.skip_ascii_horizontal_ws (Source.bytes src) (index s) (Source.logical_end src) in
  index s <= i ∧ good (set_index i s).
Proof.
  intros Hs. cbv zeta. set (i := Swar.skip_ascii_horizontal_ws _ _ _).
  destruct (skip_spec (Source.bytes src) (index s) (Source.logical_end src) (proj1 (proj1 Hs))) as (H1&H2&_&H4&_).
  fold i in H1, H2, H4. split; [done|]. destruct valid_bytes as [padding Eb]. destruct (proj1 Hs) as [? ?].
  unfold Source.logical_end in *. assert (Hi : i <= len input) by (rewrite Eb, len_app in H2; lia).
  assert (Esl : slice (Source.bytes src) (index s) i = slice input (index s) i).
  { rewrite Eb. unfold slice. rewrite drop_app_le by (unfold len in *; lia).
    rewrite take_app_le by (rewrite length_drop; unfold len in *; lia). done. }
  rewrite Esl in H4. pose proof (slice_len input (index s) i ltac:(lia) ltac:(lia) ltac:(lia)) as L.
  assert (E : rest s = slice input (index s) i ++ drop (Z.to_nat i) input).
  { unfold KdlCursor.rest, slice. rewrite <- (take_drop (Z.to_nat (i - index s)) (drop _ input)) at 1.
    f_equal. rewrite drop_drop. f_equal. lia. }
  eapply good_move_valid; [done|exact E| |lia]. apply is_utf8_ascii, forallb_iff.
  eapply Forall_impl; [exact H4|apply swallowed_ascii].
Qed.

Lemma ws_only_loop_safe fuel s :
  good s → left s < Z.of_nat fuel → safe 0 (ws_only_loop src fuel) s (λ _ _, True).
Proof.
  revert s. induction fuel as [|fuel IH]; intros s Hs Hf; [unfold KdlSafe.left in *; destruct Hs; lia|].
  cbn [ws_only_loop]. read_step. destruct (skip_ascii_good s Hs) as [Hi G].
  set (i := Swar.skip_ascii_horizontal_ws _ _ _) in *. eapply (safe_put _ _ 0); [exact G|lia|].
  read_step. destruct (next_char (rest (set_index i s))) as [[c r]|] eqn:E; simpl.
  - destruct (is_unicode_space c).
    + eapply safe_bump_char; [done|exact E|]. intros s' M _ ? ?. moved_facts. again IH.
    + read_step. destruct (Bytes.starts_with (rest (set_index i s)) (text "/*")) eqn:E1.
      { eapply safe_step; [by apply skip_block_comment_safe|]. intros [] s' M _. moved_facts. again IH. }
      read_step. simpl. destruct (Z.eqb_spec i (index s)); [rets|]. again IH.
  - read_step. destruct (Bytes.starts_with (rest (set_index i s)) (text "/*")) eqn:E1.
    { eapply safe_step; [by apply skip_block_comment_safe|]. intros [] s' M _. moved_facts. again IH. }
    read_step. simpl. destruct (Z.eqb_spec i (index s)); [rets|]. again IH.
Qed.

Lemma skip_ws_only_safe s : good s → safe 0 (skip_ws_only src) s (λ _ _, True).
Proof. intros. by apply (ws_only_loop_safe (steps src)), left_steps. Qed.

Lemma skip_escline_safe s :
  good s → safe 1 (skip_escline src) s (λ _ _, True).
Proof.
  intros Hs. unfold skip_escline. read_step. case_bool_decide as E; simpl; [|fails].
  eapply safe_bump_byte; [done|exact E|done|]. intros s1 M _ _. moved_facts.
  eapply safe_step; [by apply skip_ws_only_safe|]. intros [] s2 M _. moved_facts.
  read_step. destruct (Bytes.starts_with (rest s2) (text "//")) eqn:E1.
  { eapply safe_mono; [by apply skip_line_comment_safe|lia|done]. }
  read_step. case_bool_decide; [rets|].
  eapply safe_step; [by apply consume_newline_safe|]. intros [] s3 M _; moved_facts; [rets|fails].
Qed.

Lemma node_space_loop_safe fuel s :
  good s → left s < Z.of_nat fuel → safe 0 (node_space_loop src fuel) s (λ _ _, True).
Proof.
  revert s. induction fuel as [|fuel IH]; intros s Hs Hf; [unfold KdlSafe.left in *; destruct Hs; lia|].
  cbn [node_space_loop]. read_step. eapply safe_step; [by apply skip_ws_only_safe|].
  intros [] s1 M _. moved_facts. read_step. case_bool_decide.
  - eapply safe_step; [by apply skip_escline_safe|]. intros [] s2 M _. moved_facts. again IH.
  - read_step. destruct (Z.eqb_spec (index s1) (index s)); [rets|]. again IH.
Qed.

Lemma skip_node_space_counted_safe s :
  good s → safe 0 (skip_node_space_counted src) s (λ _ _, True).
Proof.
  intros Hs. unfold skip_node_space_counted. read_step.
  eapply safe_step; [by apply (node_space_loop_safe (steps src)), left_steps|]. intros [] s1 M _. moved_facts.
  read_step. rets.
Qed.

Lemma skip_node_space_safe s : good s → safe 0 (skip_node_space src) s (λ _ _, True).
Proof.
  intros Hs. unfold skip_node_space. eapply safe_step; [by apply skip_node_space_counted_safe|].
  intros b s1 M _. moved_facts. rets.
Qed.

Lemma line_space_loop_safe fuel s :
  good s → left s < Z.of_nat fuel → safe 0 (line_space_loop src fuel) s (λ _ _, True).
Proof.
  revert s. induction fuel as [|fuel IH]; intros s Hs Hf; [unfold KdlSafe.left in *; destruct Hs; lia|].
  cbn [line_space_loop]. read_step. eapply safe_step; [by apply skip_ws_only_safe|].
  intros [] s1 M _. moved_facts. read_step. destruct (Bytes.starts_with (rest s1) (text "//")) eqn:E1.
  { eapply safe_step; [by apply skip_line_comment_safe|]. intros [] s2 M _. moved_facts. again IH. }
  eapply safe_step; [by apply consume_newline_safe|]. intros [] s2 M Hb; moved_facts; [again IH|]. subst s2.
  read_step. case_bool_decide.
  - eapply safe_step; [by apply skip_escline_safe|]. intros [] s2 M _. moved_facts. again IH.
  - read_step. destruct (Z.eqb_spec (index s1) (index s)); [rets|]. again IH.
Qed.

Lemma skip_line_space_safe s : good s → safe 0 (skip_line_space src) s (λ _ _, True).
Proof. intros. by apply (line_space_loop_safe (steps src)), left_steps. Qed.

(** ** Positions on ASCII bytes *)

Lemma good_at_ascii s i b :
  0 <= i → input !! Z.to_nat i = Some b → is_ascii b = true →
  good (set_index i s) ∧ good (set_index (i + 1) s).
Proof.
  intros Hi E Hb. pose proof (lookup_lt_Some _ _ _ E) as Hlt.
  assert (Hlen : i < len input) by (unfold len; lia).
  assert (Er : rest (set_index i s) = b :: drop (S (Z.to_nat i)) input) by (by apply drop_S).
  assert (G : good (set_index i s)).
  { split; [simpl; lia|]. change (is_utf8 (drop (Z.to_nat i) input) = true).
    apply (proj1 (boundary_valid input i valid_input ltac:(lia))), boundary_starts; [lia|].
    change (starts_char (rest (set_index i s))). rewrite Er. simpl. unfold continuation, in_range, is_ascii in *. lia. }
  split; [done|]. by destruct (ascii_move src _ b _ G Er Hb) as [? _].
Qed.

Lemma bytes_input i b :
  0 <= i < len input → Source.bytes src !! Z.to_nat i = Some b → input !! Z.to_nat i = Some b.
Proof.
  intros Hi. destruct valid_bytes as [padding ->]. unfold len in *. by rewrite lookup_app_l by lia.
Qed.

Lemma bytes_len : len input <= len (Source.bytes src).
Proof. destruct valid_bytes as [padding ->]. rewrite len_app. pose proof (len_nonneg padding). lia. Qed.

Lemma safe_slice {B} n (k : list byte → Parse B) s a b P :
  good s → good (set_index a s) → good (set_index b s) → a <= b →
  safe n (k (slice input a b)) s P → safe n (input_slice src a b ≫= k) s P.
Proof.
  intros Hs [Ha Ha'] [Hb Hb'] Hab Hk. eapply safe_read; [done| |exact Hk].
  simpl in *. apply (input_slice_good src); [lia|lia|done|done].
Qed.

Lemma good_index s s0 : good s0 → good (set_index (index s0) s).
Proof. done. Qed.

(** ** Strings *)

Lemma push_safe c s : good s → safe 0 (push c) s (λ _ s', index s' = index s).
Proof.
  intros Hs. unfold push, update_ctx, modify. split; [|done].
  split_and!; [by apply good_ctx|simpl; lia|done].
Qed.

Lemma identifier_loop_safe fuel s :
  good s → left s < Z.of_nat fuel → safe 0 (identifier_loop src fuel) s (λ _ _, True).
Proof.
  revert s. induction fuel as [|fuel IH]; intros s Hs Hf; [unfold KdlSafe.left in *; destruct Hs; lia|].
  cbn [identifier_loop]. read_step. destruct (next_char (rest s)) as [[c r]|] eqn:E; simpl; [|rets].
  destruct (is_non_identifier_char c); [rets|].
  eapply safe_bump_char; [done|exact E|]. intros s' M _ ? ?. moved_facts. again IH.
Qed.

(** Going back before an error. *)
Lemma back_err {A} n i c s (P : A → Cursor.t → Prop) :
  0 <= i → c ≠ ErrorCode.None → safe n (put_index i;; err src c) s P.
Proof.
  intros Hi Hc. unfold put_index, KdlCursor.safe, runs. rewrite run_modify. cbn.
  apply (failed_trans src s (set_index i s)); [done|by apply failed_err].
Qed.

(** One character more, when it is an identifier character. *)
Lemma bump_if_safe c (b : bool) r s :
  good s → next_char (rest s) = Some (c, r) →
  safe 0 (if b then bump_char src;; mret tt else mret tt) s (λ _ _, True).
Proof.
  intros Hs E. destruct b; [|rets]. eapply safe_bump_char; [done|exact E|].
  intros s' M _ ? ?. moved_facts. rets.
Qed.

Ltac bump c r E s' := eapply safe_bump_char; [done|exact E|]; intros s' ? _ ? ?; moved_facts.

Lemma parse_identifier_string_safe s : good s → safe 1 (parse_identifier_string src) s (λ _ _, True).
Proof.
  intros Hs. unfold parse_identifier_string. read_step. read_step.
  destruct (next_char (rest s)) as [[c r]|] eqn:E; simpl; [|fails].
  destruct (is_non_identifier_char c); [fails|].
  assert (Hi : 0 <= index s) by (destruct Hs; lia).
  eapply (safe_step src 1 1 _ _ _ (λ _ _, True)).
  - destruct ((c =? code "+"%byte) || (c =? code "-"%byte)).
    { bump c r E s1. read_step. destruct (next_char (rest s1)) as [[d t]|] eqn:E1; simpl; [|rets].
      destruct (is_char_digit d); [by apply back_err|]. destruct (d =? code "."%byte).
      - bump d t E1 s2. read_step. destruct (next_char (rest s2)) as [[e u]|] eqn:E2; simpl; [|rets].
        destruct (is_char_digit e); [by apply back_err|].
        eapply safe_mono; [by eapply bump_if_safe|lia|done].
      - eapply safe_mono; [by eapply bump_if_safe|lia|done]. }
    destruct (c =? code "."%byte).
    { bump c r E s1. read_step. destruct (next_char (rest s1)) as [[d t]|] eqn:E1; simpl; [|rets].
      destruct (is_char_digit d); [by apply back_err|].
      eapply safe_mono; [by eapply bump_if_safe|lia|done]. }
    destruct (is_char_digit c); [fails|]. bump c r E s1. rets.
  - intros [] s1 M _. moved_facts. eapply safe_step; [by apply (identifier_loop_safe (steps src)), left_steps|].
    intros [] s2 M _. moved_facts. read_step.
    destruct (Z.eqb_spec (index s2) (index s)); [fails|].
    eapply safe_slice; [done|by apply good_index|by apply good_index|lia|].
    destruct (is_keyword _); [fails|rets].
Qed.

Lemma hex_loop_safe fuel s :
  good s → left s < Z.of_nat fuel → safe 0 (hex_loop src fuel) s (λ _ _, True).
Proof.
  revert s. induction fuel as [|fuel IH]; intros s Hs Hf; [unfold KdlSafe.left in *; destruct Hs; lia|].
  cbn [hex_loop]. read_step. destruct (head (rest s)) as [b|] eqn:E; [|rets].
  case_bool_decide as Hb; [|rets].
  eapply safe_bump_byte; [done|exact E|by apply hex_ascii|]. intros s' M _ ?. moved_facts. again IH.
Qed.

Lemma ws_escape_loop_safe fuel s :
  good s → left s < Z.of_nat fuel → safe 0 (ws_escape_loop src fuel) s (λ _ _, True).
Proof.
  revert s. induction fuel as [|fuel IH]; intros s Hs Hf; [unfold KdlSafe.left in *; destruct Hs; lia|].
  cbn [ws_escape_loop]. read_step. destruct (next_char (rest s)) as [[c r]|] eqn:E; simpl; [|rets].
  destruct (is_unicode_space c); [bump c r E s'; again IH|].
  destruct (is_newline_char c) eqn:Ec; [|rets].
  eapply (safe_step src 0 1 _ _ _ (λ _ _, True)); [|intros b s' M _; moved_facts; again IH].
  unfold consume_newline. read_step. rewrite E. simpl. rewrite Ec. destruct (c =? RETURN).
  - bump c r E s'. read_step. apply bump_lf_safe; [done|]. intros s'' M. moved_facts. rets.
  - bump c r E s'. rets.
Qed.

Lemma interpret_escape_safe s : good s → safe 1 (interpret_escape src) s (λ _ _, True).
Proof.
  intros Hs. unfold interpret_escape. destruct (next_char (rest s)) as [[c r]|] eqn:E.
  2: { eapply safe_read; [done|rewrite bump_char_good by done; by rewrite E|]. fails. }
  bump c r E s1. destruct (simple_escape c); [eapply safe_mono; [by apply push_safe|lia|done]|].
  destruct (c =? code "u"%byte).
  - read_step. case_bool_decide as E1; simpl; [|fails].
    eapply safe_bump_byte; [done|exact E1|done|]. intros s2 M _ _. moved_facts. read_step.
    eapply safe_step; [by apply (hex_loop_safe (steps src)), left_steps|]. intros [] s3 M _. moved_facts.
    read_step. case_bool_decide as E3; simpl; [|fails]. read_step.
    eapply safe_slice; [done|by apply good_index|by apply good_index|lia|].
    destruct (_ || _); [fails|]. destruct (unicode_scalar _) as [ch|]; [|fails].
    eapply safe_bump_byte; [done|exact E3|done|]. intros s4 M _ _. moved_facts.
    eapply safe_mono; [by apply push_safe|lia|done].
  - destruct (_ || _); [|fails]. read_step. destruct (c =? RETURN); simpl.
    + apply bump_lf_safe; [done|]. intros s2 M. moved_facts.
      eapply safe_mono; [by apply (ws_escape_loop_safe (steps src)), left_steps|lia|done].
    + read_step. eapply safe_mono; [by apply (ws_escape_loop_safe (steps src)), left_steps|lia|done].
Qed.

Lemma unescape_loop_safe fuel s :
  good s → left s < Z.of_nat fuel → safe 0 (unescape_loop src fuel) s (λ _ _, True).
Proof.
  revert s. induction fuel as [|fuel IH]; intros s Hs Hf; [unfold KdlSafe.left in *; destruct Hs; lia|].
  cbn [unescape_loop]. read_step. case_bool_decide; [fails|].
  destruct (next_char (rest s)) as [[c r]|] eqn:E.
  2: { eapply safe_read; [done|rewrite bump_char_good by done; by rewrite E|]. fails. }
  bump c r E s1. destruct (c =? code Byte.x22); [rets|]. destruct (c =? code "\"%byte).
  { eapply safe_step; [by apply interpret_escape_safe|]. intros [] s2 M _. moved_facts. again IH. }
  destruct (is_disallowed_literal c); [read_step; fails|]. destruct (is_newline_char c); [fails|].
  eapply safe_step; [by apply push_safe|]. intros [] s2 M _. moved_facts. again IH.
Qed.

Lemma unescape_quoted_until_safe s : good s → safe 0 (unescape_quoted_until src) s (λ _ _, True).
Proof.
  intros Hs. unfold unescape_quoted_until. apply safe_update; [done|done|].
  set (s0 := set_ctx _ s). assert (G : good s0) by by apply good_ctx.
  eapply safe_step; [by apply (unescape_loop_safe (steps src)), left_steps|]. intros [] s1 M _. moved_facts.
  read_step. destruct (_ <? _); [fails|]. apply safe_update; [done|done|].
  apply ret_safe; [by apply good_ctx|lia|done].
Qed.

(** What the search for a quote or an escape finds is in the text. *)
Lemma find_special i :
  0 <= i →
  let special := Swar.find_quote_or_escape_fast simd (Source.bytes src) i (Source.logical_end src) in
  special < len input →
  i <= special ∧ ∃ b, input !! Z.to_nat special = Some b ∧ Source.bytes src !! Z.to_nat special = Some b
    ∧ Swar.is_quote_or_escape b = true.
Proof.
  cbv zeta. intros Hi. unfold Source.logical_end. pose proof bytes_len.
  rewrite find_quote_or_escape_fast_exact by done. intros Hlt.
  destruct (find_ref_hit Swar.is_quote_or_escape (Source.bytes src) i (len input) Hi) as (Hle&b&Hb&Hs); [lia|].
  split; [done|]. exists b. split_and!; [|done|done]. by apply bytes_input; [lia|].
Qed.

Lemma quote_or_escape_ascii b : Swar.is_quote_or_escape b = true → is_ascii b = true.
Proof. unfold Swar.is_quote_or_escape, is_ascii, Swar.QUOTE, Swar.BACKSLASH. lia. Qed.

Lemma quoted_loop_safe fuel i b s :
  good s → index s <= i → Z.max 0 (len input - i) < Z.of_nat fuel →
  safe 0 (quoted_loop src simd fuel (index s) i b) s (λ _ _, True).
Proof.
  intros Hs. revert i b. induction fuel as [|fuel IH]; intros i b Hi Hf; [lia|]. cbn [quoted_loop].
  unfold Source.logical_end. destruct (Z.ltb_spec i (len input)) as [Hlt|]; [|fails].
  pose proof (find_special i ltac:(destruct Hs; lia)) as Hf'. cbv zeta in Hf'. unfold Source.logical_end in Hf'.
  set (special := Swar.find_quote_or_escape_fast _ _ _ _) in *.
  destruct (Z.leb_spec (len input) special); [fails|].
  destruct Hf' as (Hsp&x&Hx&Hbx&Hq); [done|]. rewrite Hbx. simpl. read_step.
  case_decide; [apply IH; lia|]. case_decide; [|apply IH; lia].
  destruct (good_at_ascii s special x) as [G1 G2]; [destruct Hs; lia|done|by apply quote_or_escape_ascii|].
  eapply safe_slice; [done|done|done|lia|]. destruct b; simpl.
  - eapply (safe_put _ _ 0); [done|simpl; lia|]. by apply unescape_quoted_until_safe.
  - destruct (existsb _ _); [fails|]. destruct (list_find _ _) as [[pos ?]|]; [fails|].
    eapply (safe_put _ _ 0); [done|lia|]. rets.
Qed.

(** A closer is a run of quotes and hashes inside the text. *)
Lemma closer_loop_found fuel index0 e qc h :
  0 <= index0 → e <= len (Source.bytes src) → 0 < qc → 0 <= h → Z.max 0 (e - index0) < Z.of_nat fuel →
  ∃ found, closer_loop simd fuel (Source.bytes src) index0 e qc h = Some found ∧
    ∀ q c, found = Some (q, c) →
      index0 <= q ∧ c = q + qc + h ∧ c <= e
      ∧ Forall (λ b, b = Byte.x22) (slice (Source.bytes src) q (q + qc))
      ∧ Forall (λ b, b = "#"%byte) (slice (Source.bytes src) (q + qc) c).
Proof.
  intros Hi He Hqc Hh. revert index0 Hi. induction fuel as [|fuel IH]; intros i Hi Hf; [lia|]. cbn [closer_loop].
  destruct (Z.ltb_spec i e); [|by exists None]. rewrite find_quote_fast_exact by done.
  pose proof (find_ref_range Swar.is_quote (Source.bytes src) i e Hi).
  set (at_ := find_ref _ _ _ _) in *. destruct (Z.leb_spec e at_); [by exists None|].
  destruct (_ || _); [by exists None|].
  destruct (_ && _) eqn:E.
  - eexists. split; [done|]. intros q c [= <- <-]. apply andb_prop in E as [[E1%Z.leb_le E2]%andb_prop E3].
    apply forallb_iff in E2, E3. split_and!; [lia|lia|done|..];
      (eapply Forall_impl; [eassumption|]; intros b Hb; by apply bool_decide_eq_true in Hb).
  - destruct (IH (at_ + 1) ltac:(lia) ltac:(lia)) as (found&->&Hfound). exists found. split; [done|].
    intros q c Hq. destruct (Hfound q c Hq) as (?&?). split; [lia|done].
Qed.

Lemma closer_found i qc h :
  0 <= i → 0 < qc → 0 <= h →
  ∃ found, find_string_closer simd (Source.bytes src) i (Source.logical_end src) qc h = Some found ∧
    ∀ q c, found = Some (q, c) →
      i <= q ∧ q < c ∧ c <= len input ∧ ∀ s, good (set_index q s) ∧ good (set_index c s).
Proof.
  intros Hi Hqc Hh. unfold find_string_closer, Source.logical_end. destruct (Z.eqb_spec qc 0); [by exists None|].
  pose proof bytes_len. destruct (Z.ltb_spec (Z.min (len input) (len (Source.bytes src))) i); [by exists None|].
  destruct (closer_loop_found (S (length (Source.bytes src))) i (Z.min (len input) (len (Source.bytes src))) qc h)
    as (found&->&Hfound); [lia..|unfold len in *; lia|]. exists found. split; [done|].
  intros q c Hc. apply Hfound in Hc as (H1&->&H2&H3&H4). split_and!; [done|lia|lia|]. intros s.
  assert (Hsub : ∀ a b, 0 <= a → a <= b → b <= len input → slice (Source.bytes src) a b = slice input a b).
  { intros a b Ha Hab Hb. destruct valid_bytes as [padding ->]. unfold slice.
    rewrite drop_app_le by (unfold len in *; lia).
    by rewrite take_app_le by (rewrite length_drop; unfold len in *; lia). }
  rewrite !Hsub in * by lia.
  assert (Hascii : Forall (λ b, is_ascii b = true) (slice input q (q + qc + h))).
  { rewrite (slice_split input q (q + qc)) by lia. apply Forall_app_2;
      (eapply Forall_impl; [eassumption|]; intros b ->; done). }
  assert (Hq : ∃ b, input !! Z.to_nat q = Some b ∧ is_ascii b = true).
  { destruct (lookup_lt_is_Some_2 input (Z.to_nat q)) as [b Hb]; [unfold len in *; lia|].
    exists b. split; [done|]. rewrite Forall_lookup in Hascii. apply (Hascii 0%nat).
    unfold slice. rewrite lookup_take_lt, lookup_drop, Nat.add_0_r by lia. exact Hb. }
  destruct Hq as (b&Hb&Hab). destruct (good_at_ascii s q b ltac:(lia) Hb Hab) as [G _].
  split; [done|]. eapply (good_move_valid src (set_index q s) (slice input q (q + qc + h))); [done| | |].
  - unfold KdlCursor.rest. simpl.
    rewrite <- (take_drop (Z.to_nat (q + qc + h - q)) (drop (Z.to_nat q) input)) at 1. reflexivity.
  - by apply is_utf8_ascii, forallb_iff.
  - simpl. rewrite slice_len by lia. lia.
Qed.

(** The loops on the characters of a body end. *)
Lemma drop_ws_length cs : (length (drop_ws cs) <= length cs)%nat.
Proof. induction cs as [|c cs IH]; simpl; [lia|]. destruct (is_ws c); simpl; lia. Qed.

Lemma closing_prefix_total fuel cs : (length cs < fuel)%nat → is_Some (closing_prefix_loop fuel cs).
Proof.
  revert cs. induction fuel as [|fuel IH]; intros cs Hf; [lia|]. cbn [closing_prefix_loop].
  destruct cs as [|c cs]; [done|]. simpl in Hf. destruct (is_unicode_space c); [apply IH; lia|].
  destruct (_ =? _); [|done]. destruct cs as [|n cs]; [done|]. destruct (is_ws n); [|done].
  apply IH. pose proof (drop_ws_length (n :: cs)). lia.
Qed.

Lemma resolve_ws_total fuel cs : (length cs < fuel)%nat → is_Some (resolve_ws_escapes fuel cs).
Proof.
  revert cs. induction fuel as [|fuel IH]; intros cs Hf; [lia|]. cbn [resolve_ws_escapes].
  destruct cs as [|c cs]; [done|]. simpl in Hf. destruct (_ =? _).
  - destruct cs as [|n cs]; [done|]. simpl in Hf. destruct (is_ws n).
    + apply IH. pose proof (drop_ws_length (n :: cs)). simpl in *. lia.
    + destruct (IH cs ltac:(lia)) as [tail ->]. by eexists.
  - destruct (is_disallowed_literal c); [done|]. destruct (IH cs ltac:(lia)) as [tail ->]. by eexists.
Qed.

Lemma brace_digits_length cs digits digits' rest' :
  brace_digits cs digits = Some (digits', rest') → (length rest' < length cs)%nat.
Proof.
  revert digits. induction cs as [|h cs IH]; intros digits; simpl; [done|]. destruct (h =? _).
  - intros [= _ <-]. lia.
  - destruct (is_char_hexdigit h); [|done]. destruct (_ <? _)%nat; [done|]. intros H%IH. lia.
Qed.

Lemma unicode_escape_length cs ch rest' :
  unicode_escape cs = Some (ch, rest') → (length rest' < length cs)%nat.
Proof.
  unfold unicode_escape. destruct cs as [|brace cs]; [done|]. destruct (_ =? _); [|done].
  destruct (brace_digits cs []) as [[digits r]|] eqn:E; simpl; [|done]. apply brace_digits_length in E.
  destruct digits; [done|]. destruct (unicode_scalar _); simpl; [|done]. intros [= _ <-]. simpl. lia.
Qed.

Lemma apply_escapes_total fuel cs : (length cs < fuel)%nat → is_Some (apply_non_ws_escapes fuel cs).
Proof.
  revert cs. induction fuel as [|fuel IH]; intros cs Hf; [lia|]. cbn [apply_non_ws_escapes].
  assert (Hgo : ∀ x l, (length l < fuel)%nat →
    is_Some (tail ← apply_non_ws_escapes fuel l; Some (before [x] tail))).
  { intros x l Hl. destruct (IH l Hl) as [tail ->]. by eexists. }
  destruct cs as [|c cs]; [done|]. simpl in Hf. destruct (negb _); [apply Hgo; lia|].
  destruct cs as [|e cs]; [done|]. simpl in Hf. destruct (simple_escape e); [apply Hgo; lia|].
  destruct (_ =? _); [|done]. destruct (unicode_escape cs) as [[ch r]|] eqn:E; [|done].
  apply unicode_escape_length in E. apply Hgo. lia.
Qed.

Lemma process_multiline_total (raw : bool) body :
  is_Some (if raw then Some (process_raw_multiline body) else process_escaped_multiline body).
Proof.
  destruct raw; [by eexists|]. unfold process_escaped_multiline.
  destruct (resolve_ws_total (S (length (chars body))) (chars body)) as [phase1 ->]; [lia|].
  cbn [mbind option_bind]. case_match; [rename l into d|by eexists].
  destruct (apply_escapes_total (S (length d)) d) as [result ->]; [lia|]. by eexists.
Qed.

Lemma after_last_newline_spec l i p :
  after_last_newline l i = Some p → i < p <= i + len l ∧ l !! Z.to_nat (p - 1 - i) = Some "010"%byte.
Proof.
  revert i. induction l as [|b l IH]; intros i; cbn [after_last_newline]; [done|]. rewrite len_cons.
  destruct (after_last_newline l (i + 1)) as [p'|] eqn:E.
  - intros [= <-]. destruct (IH (i + 1) E) as [Hp Hl]. split; [lia|]. rewrite <- Hl.
    replace (Z.to_nat (p' - 1 - i)) with (S (Z.to_nat (p' - 1 - (i + 1)))) by lia. done.
  - case_decide; [|done]. intros [= <-]. pose proof (len_nonneg l). split; [lia|].
    replace (Z.to_nat _) with O by lia. by subst.
Qed.

Lemma quoted_closer_loop_safe fuel body_start hashes pos s :
  good s → index s = body_start → body_start <= pos → 0 <= hashes → Z.max 0 (len input - pos) < Z.of_nat fuel →
  safe 0 (quoted_closer_loop src simd fuel body_start hashes pos) s
    (λ o s', s' = s ∧ ∀ q c, o = Some (q, c) →
       body_start <= q < c ∧ good (set_index q s) ∧ good (set_index c s)).
Proof.
  intros Hs Hb. revert pos. induction fuel as [|fuel IH]; intros pos Hp Hh Hf; [lia|]. cbn [quoted_closer_loop].
  destruct (closer_found pos 3 hashes) as (found&->&Hfound); [destruct Hs; lia|lia..|].
  eapply safe_read; [done|reflexivity|]. destruct found as [[q c]|]; [|rets].
  destruct (Hfound q c eq_refl) as (H1&H2&H3&G).
  destruct (_ =? 1); [apply IH; lia|]. destruct (G s) as [Gq Gc]. destruct Hs as [Hi Hr].
  assert (G0 : good (set_index 0 s)).
  { split; [simpl; lia|]. change (is_utf8 (drop 0 input) = true). rewrite drop_0. apply valid_input. }
  eapply safe_slice; [done|done|done|lia|].
  set (line_start := default body_start _).
  assert (Hl : good (set_index (Z.max line_start body_start) s) ∧ Z.max line_start body_start <= q).
  { unfold line_start. destruct (after_last_newline _ 0) as [p|] eqn:Ep; simpl.
    2: { rewrite Z.max_id. split; [|lia]. rewrite <- Hb. done. }
    apply after_last_newline_spec in Ep as [Hp' Hl]. rewrite slice_len in Hp' by lia. split; [|lia].
    destruct (Z.max_spec p body_start) as [[? ->]|[? ->]]; [by rewrite <- Hb|].
    unfold slice in Hl. apply lookup_take_Some in Hl as [Hl _]. rewrite lookup_drop in Hl. simpl in Hl.
    replace (p - 1 - 0) with (p - 1) in Hl by lia.
    destruct (good_at_ascii s (p - 1) _ ltac:(lia) Hl eq_refl) as [_ G']. by rewrite Z.sub_add in G'. }
  eapply safe_slice; [done|apply Hl|done|apply Hl|].
  destruct (closing_prefix_total (S (length (chars (slice input (Z.max line_start body_start) q))))
    (chars (slice input (Z.max line_start body_start) q))) as [ok Hok]; [lia|].
  unfold closing_line_prefix_ok. rewrite Hok. eapply safe_read; [done|reflexivity|].
  destruct ok; [|apply IH; lia]. apply ret_safe; [done|simpl in *; lia|].
  split; [done|]. intros q' c' [= <- <-]. split; [lia|done].
Qed.

Lemma parse_multiline_string_safe hashes raw s :
  good s → 0 <= hashes → safe 1 (parse_multiline_string src simd hashes raw) s (λ _ _, True).
Proof.
  intros Hs Hh. unfold parse_multiline_string.
  eapply (safe_step src 1 0 _ _ _ (λ (b : bool) s', b = true → index s + 3 <= index s')).
  { unfold consume_exact. read_step. destruct (Bytes.starts_with (rest s) TRIPLE) eqn:E; [|rets].
    eapply safe_advance; [done|exact E|done|done|]. intros s1 M _ ?. moved_facts.
    apply ret_safe; [done|change (len TRIPLE) with 3; lia|]. change (len TRIPLE) with 3 in *. lia. }
  intros opened s1 M Ho. moved_facts. destruct opened; simpl; [|fails]. specialize (Ho eq_refl).
  eapply safe_step; [by apply consume_newline_safe|]. intros [] s2 M Hn; moved_facts; simpl; [|fails].
  read_step. eapply (safe_step src _ 0 _ _ _ (λ o s', s' = s2 ∧ ∀ q c, o = Some (q, c) →
       index s2 <= q < c ∧ good (set_index q s2) ∧ good (set_index c s2))).
  { unfold find_multiline_closer. destruct raw.
    - destruct (closer_found (index s2) 3 hashes) as (found&->&Hfound); [destruct H2; lia|lia..|].
      apply ret_safe; [done|simpl in *; lia|]. split; [done|]. intros q c E.
      destruct (Hfound q c E) as (?&?&?&G). split; [lia|apply G].
    - apply (quoted_closer_loop_safe (steps src)); try done. pose proof (left_steps s2 H2). pose proof (proj1 H2).
      unfold KdlSafe.left in *. lia. }
  intros o s3 M [-> Hq]. destruct o as [[q c]|]; [|fails]. destruct (Hq q c eq_refl) as (Hqc&Gq&Gc).
  eapply safe_slice; [done|by apply good_index|done|lia|].
  destruct (process_multiline_total raw (slice input (index s2) q)) as [processed ->].
  eapply safe_read; [done|reflexivity|]. destruct processed as [result|]; [|fails].
  eapply (safe_put _ _ 1); [done|lia|]. read_step. destruct (_ <? _); [fails|]. apply ret_safe; [done|simpl in *; lia|done].
Qed.

Lemma parse_quoted_string_safe s : good s → safe 1 (parse_quoted_string src simd) s (λ _ _, True).
Proof.
  intros Hs. unfold parse_quoted_string. read_step. destruct (Bytes.starts_with _ _).
  { by apply parse_multiline_string_safe. }
  read_step. case_bool_decide as E; simpl; [|fails].
  eapply safe_bump_byte; [done|exact E|done|]. intros s1 M _ _. moved_facts. read_step.
  eapply safe_mono; [apply (quoted_loop_safe (steps src) (index s1) false s1); [done|lia|]|lia|done].
  pose proof (left_steps s1 H). pose proof (proj1 H). unfold KdlSafe.left in *. lia.
Qed.

Lemma hash_loop_safe fuel hashes s :
  good s → left s < Z.of_nat fuel → 0 <= hashes → safe 0 (hash_loop src fuel hashes) s (λ h _, 0 <= h).
Proof.
  revert hashes s. induction fuel as [|fuel IH]; intros hashes s Hs Hf Hh; [unfold KdlSafe.left in *; destruct Hs; lia|].
  cbn [hash_loop]. read_step. case_bool_decide as E; [|rets].
  eapply safe_bump_byte; [done|exact E|done|]. intros s' M _ ?. moved_facts.
  eapply safe_mono; [apply IH; [done|unfold KdlSafe.left in *; lia|lia]|lia|done].
Qed.

Lemma parse_raw_string_safe s : good s → safe 1 (parse_raw_string src simd) s (λ _ _, True).
Proof.
  intros Hs. unfold parse_raw_string. read_step. case_bool_decide as E; simpl; [|fails].
  eapply safe_step; [apply (hash_loop_safe (steps src)); [done|by apply left_steps|lia]|]. intros h s1 M Hh. moved_facts.
  read_step. destruct (Bytes.starts_with (rest s1) TRIPLE).
  { eapply safe_mono; [by apply parse_multiline_string_safe|lia|done]. }
  read_step. case_bool_decide as E1; simpl; [|fails].
  eapply safe_bump_byte; [done|exact E1|done|]. intros s2 M _ _. moved_facts. read_step.
  destruct (closer_found (index s2) 1 h) as (found&->&Hfound); [destruct H2; lia|lia..|].
  eapply safe_read; [done|reflexivity|]. destruct found as [[q c]|]; [|fails].
  destruct (Hfound q c eq_refl) as (?&?&?&G). destruct (G s2) as [Gq Gc].
  eapply safe_slice; [done|by apply good_index|done|lia|].
  destruct (existsb _ _); [fails|]. destruct (existsb _ _); [fails|].
  eapply (safe_put _ _ 0); [done|lia|]. apply ret_safe; [done|simpl in *; lia|done].
Qed.

Lemma parse_string_value_safe s : good s → safe 1 (parse_string_value src simd) s (λ _ _, True).
Proof.
  intros Hs. unfold parse_string_value. read_step. destruct (head (rest s)) as [b|]; [|fails].
  case_decide; [by apply parse_quoted_string_safe|]. case_decide; [by apply parse_raw_string_safe|].
  by apply parse_identifier_string_safe.
Qed.

(** ** Numbers *)

Lemma safe_bump_byte_tail s b :
  good s → head (rest s) = Some b → is_ascii b = true → safe 0 (bump_byte src) s (λ _ _, True).
Proof.
  intros Hs E Hb. destruct (rest s) as [|b' r] eqn:Er; [done|]. injection E as ->.
  destruct (ascii_move src s b r Hs Er Hb) as (G&_&_).
  unfold KdlCursor.safe, runs. rewrite (bump_byte_good src s b r Hs Er).
  split; [|done]. split_and!; [done|simpl; lia|done].
Qed.

Lemma digits_loop_safe is_digit fuel saw last s :
  good s → left s < Z.of_nat fuel → safe 0 (digits_loop src is_digit fuel saw last) s (λ _ _, True).
Proof.
  revert saw last s. induction fuel as [|fuel IH]; intros saw last s Hs Hf; [unfold KdlSafe.left in *; destruct Hs; lia|].
  cbn [digits_loop]. read_step. destruct (next_char (rest s)) as [[c r]|] eqn:E; simpl; [|rets].
  destruct (c =? code "_"%byte).
  - destruct (_ || _); [rets|]. bump c r E s'. again IH.
  - destruct (is_digit c); [|rets]. bump c r E s'. again IH.
Qed.

Lemma consume_digits_safe is_digit s :
  good s → safe 0 (consume_digits_underscores src is_digit) s (λ _ _, True).
Proof. intros. by apply digits_loop_safe, left_steps. Qed.

Lemma reject_number_trailer_safe start s :
  good s → safe 0 (reject_number_trailer src start) s (λ _ s', s' = s).
Proof.
  intros Hs. unfold reject_number_trailer. read_step.
  destruct (next_char (rest s)) as [[c r]|]; simpl; [|rets]. destruct (_ || _); [fails|rets].
Qed.

Lemma parse_radix_safe start sign_len negative is_digit radix w s :
  good s → Bytes.starts_with (rest s) w = true → forallb is_ascii w = true → len w = sign_len + 2 →
  0 <= sign_len → safe 1 (parse_radix src start sign_len negative is_digit radix) s (λ _ _, True).
Proof.
  intros Hs Hw Ha Hl Hsl. unfold parse_radix. eapply safe_advance; [done|exact Hw|done|lia|].
  intros s1 M _ _. moved_facts. read_step.
  eapply safe_step; [by apply consume_digits_safe|]. intros [] s2 M _. moved_facts. read_step.
  destruct (Z.eqb_spec (index s2) (index s1)); [fails|].
  eapply safe_step; [by apply reject_number_trailer_safe|]. intros [] s3 M ->.
  eapply safe_slice; [done|by apply good_index|by apply good_index|lia|].
  destruct (from_str_radix _ _ _ _); [|fails]. apply ret_safe; [done|simpl in *; lia|done].
Qed.

Lemma parse_fraction_safe start s : good s → safe 0 (parse_fraction src start) s (λ _ _, True).
Proof.
  intros Hs. unfold parse_fraction. read_step. case_bool_decide as E; [|rets]. read_step.
  case_decide; [fails|]. destruct (match _ with Some b => _ | None => _ end).
  - eapply safe_bump_byte; [done|exact E|done|]. intros s1 M _ _. moved_facts. read_step.
    eapply safe_step; [by apply consume_digits_safe|]. intros [] s2 M _. moved_facts. read_step.
    destruct (_ =? _); [fails|]. apply ret_safe; [done|simpl in *; lia|done].
  - case_decide; [fails|rets].
Qed.

Lemma parse_exponent_safe start s : good s → safe 0 (parse_exponent src start) s (λ _ _, True).
Proof.
  intros Hs. unfold parse_exponent. read_step. case_decide as E; [|rets].
  assert (Hb : ∃ b, head (rest s) = Some b ∧ is_ascii b = true) by (destruct E; eauto).
  destruct Hb as (b&Eb&Hb). eapply safe_bump_byte; [done|exact Eb|done|]. intros s1 M _ _. moved_facts.
  read_step. eapply (safe_step src _ 0 _ _ _ (λ _ _, True)).
  { case_decide as E1; [|rets].
    assert (Hd : ∃ d, head (rest s1) = Some d ∧ is_ascii d = true) by (destruct E1; eauto).
    destruct Hd as (d&Ed&Hd). eapply safe_bump_byte_tail; done. }
  intros [] s2 M _. moved_facts. read_step. case_bool_decide; [read_step; fails|]. read_step.
  eapply safe_step; [by apply consume_digits_safe|]. intros [] s3 M _. moved_facts. read_step.
  destruct (_ =? _); [fails|]. apply ret_safe; [done|simpl in *; lia|done].
Qed.


Lemma parse_decimal_safe start signed s :
  good s → index s = start →
  (signed = true → ∃ b, head (rest s) = Some b ∧ is_ascii b = true) →
  safe 1 (parse_decimal src start signed) s (λ _ _, True).
Proof.
  intros Hs <- Hsign. unfold parse_decimal. eapply (safe_step src _ 0 _ _ _ (λ _ _, True)).
  { destruct signed; [|rets]. destruct Hsign as (b&Eb&Hb); [done|]. by eapply safe_bump_byte_tail. }
  intros [] s1 M _. moved_facts. read_step.
  eapply safe_step; [by apply consume_digits_safe|]. intros [] s2 M _. moved_facts. read_step.
  destruct (Z.eqb_spec (index s2) (index s1)); [fails|].
  eapply safe_step; [by apply parse_fraction_safe|]. intros fraction s3 M _. moved_facts.
  eapply safe_step; [by apply parse_exponent_safe|]. intros exponent s4 M _. moved_facts.
  eapply safe_step; [by apply reject_number_trailer_safe|]. intros [] s5 M ->. read_step.
  eapply safe_slice; [done|by apply good_index|by apply good_index|lia|]. cbv zeta.
  destruct (_ || _); [rets|]. destruct (from_str_radix _ _ _ _); [rets|fails].
Qed.

Lemma starts_with_app l a b :
  Bytes.starts_with l a = true → Bytes.starts_with (drop (length a) l) b = true →
  Bytes.starts_with l (a ++ b) = true.
Proof.
  intros [r ->]%starts_with_true. rewrite drop_app_length. intros [t ->]%starts_with_true.
  apply starts_with_true. exists t. by rewrite app_assoc.
Qed.

Lemma parse_number_safe s : good s → safe 1 (parse_number src) s (λ _ _, True).
Proof.
  intros Hs. unfold parse_number. read_step. read_step. cbv zeta.
  set (negative := Bytes.starts_with (rest s) (text "-")).
  set (signed := Bytes.starts_with (rest s) (text "+") || negative).
  assert (Hsg : ∃ sg, Bytes.starts_with (rest s) sg = true ∧ forallb is_ascii sg = true
    ∧ len sg = (if signed then 1 else 0)
    ∧ (signed = true → ∃ b, head (rest s) = Some b ∧ is_ascii b = true)).
  { unfold signed, negative. destruct (Bytes.starts_with (rest s) (text "+")) eqn:E1; simpl.
    - exists (text "+"). split_and!; try done. apply starts_with_true in E1 as [r ->]. by eexists.
    - destruct (Bytes.starts_with (rest s) (text "-")) eqn:E2.
      + exists (text "-"). split_and!; try done. apply starts_with_true in E2 as [r ->]. by eexists.
      + exists []. split_and!; done. }
  destruct Hsg as (sg&Hsg&Ha&Hl&Hb).
  assert (Hpre : ∀ w, Bytes.starts_with (drop (Z.to_nat (if signed then 1 else 0)) (rest s)) w = true →
    Bytes.starts_with (rest s) (sg ++ w) = true).
  { intros w Hw. apply starts_with_app; [done|]. rewrite <- Hl in Hw. unfold len in Hw. by rewrite Nat2Z.id in Hw. }
  assert (Hrad : ∀ p q is_digit radix, len p = 2 → len q = 2 → forallb is_ascii p = true → forallb is_ascii q = true →
    Bytes.starts_with (drop (Z.to_nat (if signed then 1 else 0)) (rest s)) p
    || Bytes.starts_with (drop (Z.to_nat (if signed then 1 else 0)) (rest s)) q = true →
    safe 1 (parse_radix src (index s) (if signed then 1 else 0) negative is_digit radix) s (λ _ _, True)).
  { intros p q is_digit radix Hp Hq Hap Haq [H%Hpre|H%Hpre]%orb_prop;
      (eapply parse_radix_safe; [done|exact H| | |by destruct signed]);
      rewrite ?forallb_app, ?len_app; rewrite ?Ha, ?Hap, ?Haq; try done; lia. }
  destruct (Bytes.starts_with _ (text "0x") || _) eqn:E1; [eapply Hrad; [| | | |exact E1]; done|].
  destruct (Bytes.starts_with _ (text "0o") || _) eqn:E2; [eapply Hrad; [| | | |exact E2]; done|].
  destruct (Bytes.starts_with _ (text "0b") || _) eqn:E3; [eapply Hrad; [| | | |exact E3]; done|].
  by apply parse_decimal_safe.
Qed.

(** ** Values and entries *)

Lemma keyword_or_raw_safe keywords s :
  good s → Forall (λ kv, forallb is_ascii kv.1 = true ∧ 1 <= len kv.1) keywords →
  safe 1 (keyword_or_raw src simd keywords) s (λ _ _, True).
Proof.
  intros Hs. induction 1 as [|[kw value] keywords [Ha Hl] _ IH]; cbn [keyword_or_raw].
  - eapply safe_step; [by apply parse_raw_string_safe|]. intros b s1 M _. moved_facts. rets.
  - unfold at_keyword. destruct (Bytes.starts_with (rest s) kw) eqn:E.
    + eapply (safe_read src _ _ _ s); [done|rewrite (run_ok _ _ _ _ _ (starts_with_good src kw s Hs)), E; reflexivity|].
      destruct (match next_char _ with Some (c, _) => _ | None => _ end); [|done].
      eapply safe_advance; [done|exact E|done|done|]. intros s1 M _ ?. moved_facts. simpl in *. rets.
    + eapply (safe_read src _ _ _ s); [done|rewrite (run_ok _ _ _ _ _ (starts_with_good src kw s Hs)), E; reflexivity|].
      done.
Qed.

Lemma parse_hash_safe s : good s → safe 1 (parse_hash_keyword_or_raw_string src simd) s (λ _ _, True).
Proof.
  intros Hs. apply keyword_or_raw_safe; [done|]. repeat (constructor; [split; [reflexivity|vm_compute; discriminate]|]).
  constructor.
Qed.

Lemma looks_like_number_good s : good s → looks_like_number src s = (s, Ok (looks_like_number_text (rest s))).
Proof. intros Hs. unfold looks_like_number. by rewrite (run_ok _ _ _ _ _ (remaining_good src s Hs)). Qed.

Lemma parse_value_after_type_safe s : good s → safe 1 (parse_value_after_type src simd) s (λ _ _, True).
Proof.
  intros Hs. unfold parse_value_after_type. read_step. case_bool_decide; [fails|]. read_step.
  case_bool_decide; [by apply parse_hash_safe|]. read_step. case_bool_decide.
  { eapply safe_step; [by apply parse_quoted_string_safe|]. intros b s1 M _. moved_facts. rets. }
  read_step. destruct (next_char (rest s)) as [[c r]|]; simpl; [|fails].
  assert (Hend : ∀ b : bool, safe 1 (if b then parse_number src else s ← parse_string_value src simd; mret (Value.String s))
    s (λ _ _, True)).
  { intros []; [by apply parse_number_safe|]. eapply safe_step; [by apply parse_string_value_safe|].
    intros b s1 M _. moved_facts. rets. }
  destruct (_ || _).
  - eapply safe_read; [done|by apply looks_like_number_good|]. apply Hend.
  - read_step. apply (Hend false).
Qed.

Lemma try_parse_type_annotation_safe s : good s → safe 0 (try_parse_type_annotation src simd) s (λ _ _, True).
Proof.
  intros Hs. unfold try_parse_type_annotation. eapply safe_step; [by apply skip_node_space_safe|].
  intros [] s1 M _. moved_facts. read_step. case_bool_decide as E; simpl; [|rets].
  eapply safe_bump_byte; [done|exact E|done|]. intros s2 M _ ?. moved_facts.
  eapply safe_step; [by apply skip_node_space_safe|]. intros [] s3 M _. moved_facts.
  eapply safe_step; [by apply parse_string_value_safe|]. intros name s4 M _. moved_facts.
  eapply safe_step; [by apply skip_node_space_safe|]. intros [] s5 M _. moved_facts.
  read_step. case_bool_decide as E5; simpl; [|fails].
  eapply safe_bump_byte; [done|exact E5|done|]. intros s6 M _ ?. moved_facts. rets.
Qed.

Lemma parse_typed_value_safe s : good s → safe 1 (parse_typed_value src simd) s (λ _ _, True).
Proof.
  intros Hs. unfold parse_typed_value. eapply safe_step; [by apply try_parse_type_annotation_safe|].
  intros ty s1 M _. moved_facts. eapply safe_step; [by apply skip_node_space_safe|]. intros [] s2 M _. moved_facts.
  eapply safe_step; [by apply parse_value_after_type_safe|]. intros v s3 M _. moved_facts. rets.
Qed.

Lemma parse_value_safe s : good s → safe 1 (parse_value src simd) s (λ _ _, True).
Proof.
  intros Hs. unfold parse_value. eapply safe_step; [by apply try_parse_type_annotation_safe|].
  intros ty s1 M _. moved_facts. eapply safe_step; [by apply skip_node_space_safe|]. intros [] s2 M _. moved_facts.
  eapply safe_mono; [by apply parse_value_after_type_safe|lia|done].
Qed.

(** A step that may fail and go back to the start. *)
Lemma attempt_safe {A B} n n1 (m : Parse A) (k : option A → Parse B) s P1 P :
  good s → safe n1 m s P1 →
  (∀ a s', moved src n1 s s' → P1 a s' → safe (n - (index s' - index s)) (k (Some a)) s' P) →
  (∀ s', frame s s' → runs (k None) s' (λ a s'', moved src n s s'' ∧ P a s'') (failed src s)) →
  safe n (attempt m ≫= k) s P.
Proof.
  intros Hs Hm Hk He. unfold KdlCursor.safe, runs, attempt, mbind, run_bind in *.
  destruct (m s) as [s' [a|e|]]; [|by apply He; destruct Hm|done].
  destruct Hm as [M HP]. specialize (Hk a s' M HP). destruct (k (Some a) s') as [s'' [b|e'|]]; [| |done].
  - destruct Hk as [(G&D&F) ?]. split; [|done]. split_and!; [done|lia|]. eapply frame_trans; [apply M|done].
  - eapply failed_trans; [apply M|done].
Qed.

Lemma at_value_keyword_or_number_good s : good s → ∃ b, at_value_keyword_or_number src s = (s, Ok b).
Proof.
  intros Hs. unfold at_value_keyword_or_number. rewrite (run_ok _ _ _ _ _ (peek_byte_good src s Hs)).
  destruct (head (rest s)); [|by eexists]. case_decide; [by eexists|].
  destruct (is_ascii_digit _); [by eexists|]. case_decide; [|by eexists].
  rewrite looks_like_number_good by done. by eexists.
Qed.

Lemma parse_prop_or_arg_safe s : good s → safe 1 (parse_prop_or_arg src simd) s (λ _ _, True).
Proof.
  intros Hs. unfold parse_prop_or_arg. read_step.
  eapply safe_step; [by apply try_parse_type_annotation_safe|]. intros ty s1 M _. moved_facts.
  eapply safe_step; [by apply skip_node_space_safe|]. intros [] s2 M _. moved_facts.
  destruct (at_value_keyword_or_number_good s2 ltac:(done)) as [number Hnum].
  eapply safe_read; [done|exact Hnum|]. destruct number.
  { eapply safe_step; [by apply parse_value_after_type_safe|]. intros v s3 M _. moved_facts. rets. }
  read_step. eapply attempt_safe; [done|by apply parse_string_value_safe| |].
  - intros str s3 M _. moved_facts. read_step.
    eapply safe_step; [by apply skip_node_space_safe|]. intros [] s4 M _. moved_facts.
    read_step. case_bool_decide as E.
    + eapply safe_bump_byte; [done|exact E|done|]. intros s5 M _ ?. moved_facts.
      eapply safe_step; [by apply skip_node_space_safe|]. intros [] s6 M _. moved_facts.
      eapply safe_step; [by apply parse_typed_value_safe|]. intros [vt v] s7 M _. moved_facts.
      destruct ty; [fails|rets].
    + eapply (safe_put _ _ (index s3 - index s4)); [by apply good_index|lia|].
      apply ret_safe; [by apply good_index|lia|done].
  - intros s3 F. set (t := set_index (index s) s3). assert (G : good t) by by apply good_index.
    assert (Hv : safe 1 (value ← parse_value src simd; mret (Entry.Argument ty value)) t (λ _ _, True)).
    { eapply safe_step; [by apply parse_value_safe|]. intros v s4 M _. moved_facts. rets. }
    eapply runs_mono; [exact Hv| |].
    + intros e s4 [(?&D&F') _]. split; [|done]. split_and!; [done|unfold t in D; simpl in D; lia|].
      by eapply (frame_trans s2 s3).
    + intros e s4 Hf. by eapply (failed_trans src s2 s3).
Qed.

Lemma skip_prop_or_arg_safe s : good s → safe 1 (skip_prop_or_arg src simd) s (λ _ _, True).
Proof.
  intros Hs. unfold skip_prop_or_arg. eapply safe_step; [by apply parse_prop_or_arg_safe|].
  intros e s1 M _. moved_facts. rets.
Qed.

(** ** Nodes *)

Lemma parse_node_header_safe s : good s → safe 1 (parse_node_header src simd) s (λ _ _, True).
Proof.
  intros Hs. unfold parse_node_header. eapply safe_step; [by apply try_parse_type_annotation_safe|].
  intros ty s1 M _. moved_facts. eapply safe_step; [by apply skip_node_space_safe|]. intros [] s2 M _. moved_facts.
  eapply safe_step; [by apply parse_string_value_safe|]. intros name s3 M _. moved_facts. rets.
Qed.

(** A tree builder that has its name; the visitors do not change their kind. *)
Definition built (v : Visitor.t) : Prop :=
  match v with Visitor.Dom b => is_Some (DomNodeBuilder.name b) | _ => False end.

Lemma visit_entry_safe opts v s :
  good s → safe 1 (visit_prop_or_arg_bits src simd opts v) s (λ v' _, built v → built v').
Proof.
  intros Hs. unfold visit_prop_or_arg_bits. read_step.
  eapply safe_step; [by apply parse_prop_or_arg_safe|]. intros e s1 M _. moved_facts.
  destruct e; apply ret_safe; try done; try lia; by destruct v.
Qed.

(** What the limits of a context must be for the depth to be counted. *)
Definition counted (c : Context.t) : Prop := 0 <= Context.depth c ∧ Context.max_depth c <= U32.MAX.

Lemma counted_frame s s' : frame s s' → counted (ctx s) → counted (ctx s').
Proof. unfold frame, limits, counted. intros [= -> _ _ ->]. done. Qed.

(** The depth is restored in every case. *)
Lemma enter_leave_safe {A} n (m : Parse A) offset s P :
  good s → counted (ctx s) → 0 <= offset <= len input →
  (∀ s2, good s2 → index s2 = index s → counted (ctx s2) → safe n m s2 P) →
  safe n (enter_depth offset;; then_leave m) s (λ a _, ∃ s', P a s').
Proof.
  intros Hs Hc Ho Hm. unfold KdlCursor.safe, runs.
  destruct (Z.leb_spec (Context.max_depth (ctx s)) (Context.depth (ctx s))) as [Hd|Hd].
  { erewrite run_err.
    2: { unfold enter_depth, Context.enter_depth, Context.try_enter_depth. by rewrite (proj2 (Z.leb_le _ _) Hd). }
    split; [done|]. by split. }
  set (s2 := set_ctx (Context.set_depth (Context.depth (ctx s) + 1) (ctx s)) s).
  erewrite (run_ok _ _ _ s2).
  2: { unfold enter_depth, Context.enter_depth, Context.try_enter_depth. by rewrite (proj2 (Z.leb_gt _ _) Hd). }
  specialize (Hm s2 Hs eq_refl). destruct Hc as [Hc1 Hc2].
  ospecialize (Hm _); [split; simpl; lia|]. unfold then_leave, KdlCursor.safe, runs in *.
  assert (Hfr : ∀ s3, frame s2 s3 → frame s (set_ctx (Context.leave_depth (ctx s3)) s3)).
  { intros s3. unfold frame, limits, Context.leave_depth. simpl. intros [= -> -> -> ->]. f_equal. f_equal. f_equal.
    unfold U32.saturating_sub, U32.sat. unfold U32.MAX in *. lia. }
  destruct (m s2) as [s3 [a|e|]]; [| |done].
  - destruct Hm as [(G3&D3&F3) HP]. split; [|by eexists]. split_and!; [done|done|by apply Hfr].
  - destruct Hm as [F ?]. split; [by apply Hfr|done].
Qed.

Lemma children_block_safe loop v s P :
  good s → counted (ctx s) →
  (∀ s', good s' → index s < index s' → counted (ctx s') → safe 0 (loop v) s' P) →
  safe 1 (children_block src loop v) s (λ v' _, ∃ s', P v' s').
Proof.
  intros Hs Hc Hloop. unfold children_block. read_step. case_bool_decide as E; simpl; [|fails].
  read_step. eapply safe_bump_byte; [done|exact E|done|]. intros s1 M _ ?. moved_facts.
  eapply safe_mono; [apply (enter_leave_safe 1 _ _ _ (λ v' _, ∃ s', P v' s'))|lia|by intros v' s' _ (_&?)].
  - done.
  - by eapply counted_frame.
  - destruct Hs as [? _]. lia.
  - intros s2 G Hi2 Hc2. eapply safe_step; [apply Hloop; [done|lia|done]|].
    intros v' s3 M HP. moved_facts. eapply safe_step; [by apply skip_line_space_safe|]. intros [] s4 M _. moved_facts.
    read_step. case_bool_decide as E4; simpl; [|fails].
    eapply safe_bump_byte; [done|exact E4|done|]. intros s5 M _ ?. moved_facts.
    apply ret_safe; [done|lia|by exists s3].
Qed.

Section nodes.

Context (dom : bool).

(** The statements for the two loops, with the fuel [fuel]. *)
Definition body_safe (fuel : nat) : Prop := ∀ opts v a r n s,
  good s → counted (ctx s) → left s < Z.of_nat fuel →
  safe 0 (body_loop src simd dom fuel opts v a r n) s (λ v' _, built v → built v').

Definition children_safe (fuel : nat) : Prop := ∀ opts v s,
  good s → counted (ctx s) → left s < Z.of_nat fuel →
  safe 0 (children_loop src simd dom fuel opts v) s (λ v' _, built v → built v').

Ltac counts := match goal with |- counted (ctx ?s) =>
  repeat match goal with F : frame ?t s |- _ => apply (counted_frame t s F) end;
  eauto using counted_frame end.

Lemma body_step fuel : body_safe fuel → children_safe fuel → body_safe (S fuel).
Proof.
  intros Hbody Hchildren opts v a r n s Hs Hc Hf. cbn [body_loop].
  assert (Hagain : ∀ v' a' r' n' s' k, good s' → frame s s' → index s < index s' → k <= 0 → (built v → built v') →
    safe k (body_loop src simd dom fuel opts v' a' r' n') s' (λ v'' _, built v → built v'')).
  { intros v' a' r' n' s' k G F Hi Hk Hv. eapply safe_mono; [apply Hbody; [done|by eapply counted_frame|]|done|].
    - unfold KdlSafe.left in *. lia.
    - intros v'' s'' _ Hb. auto. }
  eapply safe_step; [by apply skip_node_space_counted_safe|]. intros space s1 M _. moved_facts.
  read_step. destruct (Bytes.starts_with (rest s1) (text "/-")) eqn:E.
  - eapply safe_advance; [done|exact E|done|done|]. intros s2 M _ ?. moved_facts.
    eapply safe_step; [by apply skip_line_space_safe|]. intros [] s3 M _. moved_facts.
    assert (F3 : frame s s3) by (unfold frame in *; congruence).
    read_step. case_bool_decide as E3.
    + eapply safe_step.
      { apply (children_block_safe _ _ _ (λ _ _, True)); [done|by eapply counted_frame|]. intros s' G Hi Hc'.
        eapply safe_mono; [apply Hchildren; [done|done|unfold KdlSafe.left in *; lia]|lia|done]. }
      intros v' s4 M _. moved_facts. apply Hagain; [done|unfold frame in *; congruence|lia|lia|done].
    + destruct a; [fails|]. eapply safe_step; [by apply skip_prop_or_arg_safe|]. intros [] s4 M _. moved_facts.
      apply Hagain; [done|unfold frame in *; congruence|lia|lia|done].
  - read_step. destruct (head (rest s1)) as [b|] eqn:Eb; [|rets]. case_decide; [rets|].
    case_decide; [subst; eapply safe_bump_byte; [done|exact Eb|done|]; intros s2 M _ ?; moved_facts; rets|].
    case_decide.
    { destruct r; [fails|]. eapply safe_step.
      { apply (children_block_safe _ _ _ (λ v' _, built v → built v')); [done|by eapply counted_frame|].
        intros s' G Hi Hc'. apply Hchildren; [done|done|unfold KdlSafe.left in *; lia]. }
      intros v' s2 M [? Hv]. moved_facts. apply Hagain; [done|unfold frame in *; congruence|lia|lia|done]. }
    assert (Hcom : ∃ c, (if decide (b = "/"%byte) then starts_with src (text "//") else mret false) s1 = (s1, Ok c)
      ∧ (c = true → Bytes.starts_with (rest s1) (text "//") = true)).
    { case_decide; [|by eexists]. rewrite starts_with_good by done. by eexists. }
    destruct Hcom as (c&Hcom&Hct). eapply safe_read; [done|exact Hcom|]. clear Hcom. destruct c.
    { eapply safe_step; [by apply skip_line_comment_safe; auto|]. intros [] s2 M _. moved_facts. rets. }
    case_decide.
    { eapply safe_step; [by apply skip_escline_safe|]. intros [] s2 M _. moved_facts.
      apply Hagain; [done|unfold frame in *; congruence|lia|lia|done]. }
    eapply (safe_read src _ _ _ s1); [done|unfold at_newline; by rewrite (run_ok _ _ _ _ _ (peek_char_good src s1 ltac:(done)))|].
    destruct (match fst <$> _ with Some c => _ | None => _ end); [rets|].
    destruct a; [fails|]. destruct (n && negb space); [fails|].
    eapply safe_step; [by apply visit_entry_safe|]. intros v' s2 M Hv. moved_facts.
    apply Hagain; [done|unfold frame in *; congruence|lia|lia|done].
Qed.

Lemma built_header ty name v : built (Visitor.on_header ty name (Visitor.Dom v)).
Proof. by eexists. Qed.

Lemma children_step fuel : body_safe fuel → children_safe fuel → children_safe (S fuel).
Proof.
  intros Hbody Hchildren opts v s Hs Hc Hf. cbn [children_loop].
  assert (Hagain : ∀ v' s' k, good s' → frame s s' → index s < index s' → k <= 0 → (built v → built v') →
    safe k (children_loop src simd dom fuel opts v') s' (λ v'' _, built v → built v'')).
  { intros v' s' k G F Hi Hk Hv. eapply safe_mono; [apply Hchildren; [done|by eapply counted_frame|]|done|].
    - unfold KdlSafe.left in *. lia.
    - intros v'' s'' _ Hb. auto. }
  assert (Hnode : ∀ opts' v' s' k, good s' → frame s s' → index s < index s' → k <= 0 →
    safe k (body_loop src simd dom fuel opts' v' false false true) s' (λ v'' _, built v' → built v'')).
  { intros opts' v' s' k G F Hi Hk. eapply safe_mono; [apply Hbody; [done|by eapply counted_frame|]|done|done].
    unfold KdlSafe.left in *. lia. }
  eapply safe_step; [by apply skip_line_space_safe|]. intros [] s1 M _. moved_facts.
  read_step. case_bool_decide; [fails|]. read_step. case_bool_decide; [rets|]. read_step.
  destruct (Bytes.starts_with (rest s1) (text "/-")) eqn:E.
  - read_step. eapply safe_advance; [done|exact E|done|done|]. intros s2 M _ ?. moved_facts.
    eapply safe_step; [by apply skip_line_space_safe|]. intros [] s3 M _. moved_facts.
    eapply safe_step; [by apply parse_node_header_safe|]. intros [ty name] s4 M _. moved_facts.
    eapply safe_step; [apply (Hnode _ _ _ 0); [done|unfold frame in *; congruence|lia|lia]|].
    intros v' s5 M _. moved_facts. read_step. destruct (Z.eqb_spec (index s5) (index s1)); [fails|].
    apply Hagain; [done|unfold frame in *; congruence|lia|lia|done].
  - eapply safe_step; [by apply parse_node_header_safe|]. intros [ty name] s2 M _. moved_facts.
    destruct (Visitor.take_child ty name v) as [[nested done]|] eqn:Et.
    + eapply safe_step; [apply (Hnode _ _ _ 0); [done|unfold frame in *; congruence|lia|lia]|].
      intros v' s3 M _. moved_facts. apply Hagain; [done|unfold frame in *; congruence|lia|lia|].
      by destruct v.
    + destruct dom; [|fails].
      eapply safe_step; [apply (Hnode _ _ _ 0); [done|unfold frame in *; congruence|lia|lia]|].
      intros v' s3 M Hv. moved_facts. specialize (Hv (built_header ty name _)).
      destruct v' as [b| |]; try done. destruct Hv as [nm Hnm].
      eapply (safe_read src _ _ _ s3); [done|unfold lift, Visitor.finish, DomNodeBuilder.finish; by rewrite Hnm|].
      apply Hagain; [done|unfold frame in *; congruence|lia|lia|]. by destruct v.
Qed.

Lemma nodes_safe fuel : body_safe fuel ∧ children_safe fuel.
Proof.
  induction fuel as [|fuel [IH1 IH2]].
  - split; intros ?; intros; unfold KdlSafe.left in *;
      match goal with G : good _ |- _ => destruct G; lia end.
  - split; [by apply body_step|by apply children_step].
Qed.

Lemma visit_node_safe opts v s :
  good s → counted (ctx s) →
  safe 1 (visit_node_bits src simd dom opts v) s (λ v' _, ∃ ty name, built (Visitor.on_header ty name v) → built v').
Proof.
  intros Hs Hc. unfold visit_node_bits. eapply safe_step; [by apply parse_node_header_safe|].
  intros [ty name] s1 M _. moved_facts. unfold visit_node_body_bits.
  eapply safe_mono; [apply (proj1 (nodes_safe (steps src))); [done|by eapply counted_frame|by apply left_steps]|lia|].
  intros v' s2 _ Hv. by exists ty, name.
Qed.

Lemma parse_node_safe s :
  good s → counted (ctx s) → safe 1 (parse_node src simd dom) s (λ _ _, True).
Proof.
  intros Hs Hc. unfold parse_node. eapply safe_step; [by apply visit_node_safe|].
  intros v s1 M (ty&name&Hv). moved_facts. specialize (Hv (built_header ty name _)).
  destruct v as [b| |]; try done. destruct Hv as [nm Hnm]. unfold lift, Visitor.finish, DomNodeBuilder.finish.
  rewrite Hnm. rets.
Qed.

Lemma skip_node_safe s :
  good s → counted (ctx s) → safe 1 (skip_node src simd dom) s (λ _ _, True).
Proof.
  intros Hs Hc. unfold skip_node. eapply safe_step; [by apply visit_node_safe|].
  intros v s1 M _. moved_facts. rets.
Qed.

(** ** Documents *)

Lemma consume_exact_safe w s :
  good s → forallb is_ascii w = true →
  safe 0 (consume_exact src w) s (λ b s', if b : bool then index s' = index s + len w else s' = s).
Proof.
  intros Hs Hw. unfold consume_exact. read_step. destruct (Bytes.starts_with (rest s) w) eqn:E; [|rets].
  eapply safe_advance; [done|exact E|done|done|]. intros s1 M _ ?. moved_facts.
  pose proof (len_nonneg w). apply ret_safe; [done|lia|done].
Qed.

Lemma skip_bom_safe s : good s → safe 0 (skip_bom src) s (λ _ _, True).
Proof.
  intros Hs. unfold skip_bom. read_step. destruct (Bytes.starts_with (rest s) BOM) eqn:E; [|rets].
  apply starts_with_true in E as [r Er]. split; [|done]. split_and!.
  - eapply good_move_valid; [done|exact Er|done|done].
  - simpl. pose proof (len_nonneg BOM). lia.
  - done.
Qed.

Lemma skip_version_marker_safe s : good s → safe 0 (skip_version_marker src) s (λ _ _, True).
Proof.
  intros Hs. unfold skip_version_marker. eapply safe_step; [by apply skip_line_space_safe|].
  intros [] s1 M _. moved_facts. read_step.
  eapply safe_step; [by apply consume_exact_safe|]. intros [] s2 M Hb; moved_facts; simpl; [|rets].
  eapply safe_step; [by apply skip_node_space_safe|]. intros [] s3 M _. moved_facts.
  eapply safe_step; [by apply consume_exact_safe|]. intros [] s4 M Hb4; moved_facts; simpl.
  2: { split; [|done]. split_and!; [by apply good_index|simpl; lia|done]. }
  eapply safe_step; [by apply skip_node_space_safe|]. intros [] s5 M _. moved_facts.
  eapply safe_step; [by apply consume_exact_safe|]. intros two s6 M Hb6; moved_facts.
  eapply (safe_step src _ 0 _ _ _ (λ _ _, True)).
  { destruct two; [rets|]. eapply safe_mono; [by apply consume_exact_safe|lia|done]. }
  intros [] s7 M _; moved_facts; simpl; [|fails].
  eapply safe_step; [by apply skip_ws_only_safe|]. intros [] s8 M _. moved_facts.
  read_step. case_bool_decide; [rets|].
  eapply safe_step; [by apply consume_newline_safe|]. intros [] s9 M Hb9; moved_facts; [rets|]. subst s9.
  read_step. destruct (Bytes.starts_with (rest s8) (text "//")) eqn:E; [|fails].
  eapply safe_mono; [by apply skip_line_comment_safe|lia|done].
Qed.

Section document.

Context {A : Type} (opts : Z) (fill : A → Parse A).

(** The caller's closure consumes its node. *)
Context (fill_safe : ∀ acc s, good s → counted (ctx s) → safe 1 (fill acc) s (λ _ _, True)).

Lemma document_loop_safe fuel delivered acc s :
  good s → counted (ctx s) → left s < Z.of_nat fuel →
  safe 0 (document_loop src simd dom opts fill fuel delivered acc) s (λ _ _, True).
Proof.
  revert delivered acc s. induction fuel as [|fuel IH]; intros delivered acc s Hs Hc Hf;
    [unfold KdlSafe.left in *; destruct Hs; lia|]. cbn [document_loop].
  eapply safe_step; [by apply skip_line_space_safe|]. intros [] s1 M _. moved_facts.
  read_step. case_bool_decide; [rets|]. read_step. case_bool_decide; [fails|]. read_step.
  destruct (Bytes.starts_with (rest s1) (text "/-")) eqn:E.
  - read_step. eapply safe_advance; [done|exact E|done|done|]. intros s2 M _ ?. moved_facts.
    eapply safe_step; [by apply skip_line_space_safe|]. intros [] s3 M _. moved_facts.
    eapply safe_step; [apply skip_node_safe; [done|]|].
    { apply (counted_frame s); [unfold frame in *; congruence|done]. }
    intros [] s4 M _. moved_facts. read_step. destruct (_ =? _); [fails|].
    eapply safe_mono; [apply IH; [done| |unfold KdlSafe.left in *; lia]|lia|done].
    apply (counted_frame s); [unfold frame in *; congruence|done].
  - eapply safe_step; [apply fill_safe; [done|by eapply counted_frame]|].
    intros acc' s2 M _. moved_facts. cbv zeta. read_step. destruct (_ <? _); [fails|].
    destruct (Opts.flag_partial_read opts); [rets|].
    eapply safe_mono; [apply IH; [done| |unfold KdlSafe.left in *; lia]|lia|done].
    apply (counted_frame s); [unfold frame in *; congruence|done].
Qed.

Lemma visit_document_at_nodes_safe acc s :
  good s → counted (ctx s) →
  safe 0 (visit_document_at_nodes_bits src simd dom opts fill acc) s
    (λ _ s', Opts.flag_validate_trailing opts && negb (Opts.flag_partial_read opts) = true → rest s' = []).
Proof.
  intros Hs Hc. unfold visit_document_at_nodes_bits.
  eapply safe_step; [by apply skip_bom_safe|]. intros [] s1 M _. moved_facts.
  eapply safe_step; [by apply skip_version_marker_safe|]. intros [] s2 M _. moved_facts.
  eapply safe_step; [apply (document_loop_safe (steps src)); [done| |by apply left_steps]|].
  { apply (counted_frame s); [unfold frame in *; congruence|done]. }
  intros acc' s3 M _. moved_facts. destruct (_ && _); [|rets].
  eapply safe_step; [by apply skip_line_space_safe|]. intros [] s4 M _. moved_facts.
  read_step. case_bool_decide; simpl; [rets|fails].
Qed.

End document.

Lemma parse_document_safe s :
  good s → counted (ctx s) → safe 0 (parse_document src simd dom) s (λ _ s', rest s' = []).
Proof.
  intros Hs Hc. unfold parse_document, parse_document_with_opts, visit_document.
  eapply safe_step; [apply visit_document_at_nodes_safe; [|done|done]|].
  - intros acc s1 Hs1 Hc1. eapply safe_step; [by apply parse_node_safe|]. intros node s2 M _. moved_facts.
    unfold lift. rets.
  - intros nodes s1 M Hr. moved_facts. apply ret_safe; [done|lia|]. by apply Hr.
Qed.

End nodes.

End safe.


