(* ===== verification/KdlWrite.v ===== *)
(** * The KDL writer

    [crates/tensor-kdl/src/encode/sink.rs], [encode.rs] and [write.rs]: the
    growable and the fixed sink, the lexemes, the printing of a tree, and the
    traits of typed values with their entry points. The digits of a finite
    float are a parameter. A writer is correct when it does what pushing one
    text does; that is shown of every writer here, and the
    texts of entries, nodes and documents are given as functions. *)

From Stdlib Require Import Strings.String Strings.Byte Floats.SpecFloat.
From S2P Require Import Prelude Codec Bytes KdlChars KdlValue.

(** ** [encode/sink.rs]: the sink *)

Module WriteSink.

(** The capacity of the growable buffer cannot be observed. *)
Inductive t :=
| Grow (buf : list byte)
| Fixed (bytes : list byte) (ix : Z).

Definition string (buf : list byte) : t := Grow buf.

Definition slice (bytes : list byte) : t := Fixed bytes 0.

Definition written (self : t) : Z := match self with Grow buf => len buf | Fixed _ ix => ix end.

Definition finish (self : t) : Z := written self.

End WriteSink.

Abbreviation Writer := (Run WriteSink.t ErrorCtx.t).

Definition overflow (ix : Z) : ErrorCtx.t := ErrorCtx.new ErrorCode.BufferOverflow ix.

(** [bytes[ix..ix + raw.len()].copy_from_slice(raw)]. *)
Definition copy_at (ix : Z) (raw bytes : list byte) : list byte :=
  take (Z.to_nat ix) bytes ++ raw ++ drop (Z.to_nat (ix + len raw)) bytes.

Definition ensure_capacity (additional : Z) : Writer unit := λ s,
  match s with
  | WriteSink.Grow _ => (s, Ok tt)
  | WriteSink.Fixed bytes ix =>
      if len bytes <? ix + additional then (s, Err (overflow ix)) else (s, Ok tt)
  end.

(** [buf.push(c as char)]: the callers push ASCII. *)
Definition push_byte (c : byte) : Writer unit := λ s,
  match s with
  | WriteSink.Grow buf => (WriteSink.Grow (buf ++ encode_utf8 (value c)), Ok tt)
  | WriteSink.Fixed bytes ix =>
      if len bytes <=? ix then (s, Err (overflow ix))
      else (WriteSink.Fixed (copy_at ix [c] bytes) (ix + 1), Ok tt)
  end.

Definition push_str (raw : list byte) : Writer unit := λ s,
  match s with
  | WriteSink.Grow buf => (WriteSink.Grow (buf ++ raw), Ok tt)
  | WriteSink.Fixed bytes ix =>
      if len bytes <? ix + len raw then
        let n := Z.max 0 (len bytes - ix) in
        let filled := if 0 <? n then copy_at ix (take (Z.to_nat n) raw) bytes else bytes in
        (WriteSink.Fixed filled (len bytes), Err (overflow (len bytes)))
      else (WriteSink.Fixed (copy_at ix raw bytes) (ix + len raw), Ok tt)
  end.

Definition push_byte_n (c : byte) (n : Z) : Writer unit := λ s,
  if n =? 0 then (s, Ok tt)
  else
    match s with
    | WriteSink.Grow buf =>
        (WriteSink.Grow (buf ++ concat (replicate (Z.to_nat n) (encode_utf8 (value c)))), Ok tt)
    | WriteSink.Fixed bytes ix =>
        if len bytes <? ix + n then
          let filled := copy_at ix (replicate (Z.to_nat (len bytes - ix)) c) bytes in
          (WriteSink.Fixed filled (len bytes), Err (overflow (len bytes)))
        else (WriteSink.Fixed (copy_at ix (replicate (Z.to_nat n) c) bytes) (ix + n), Ok tt)
    end.

Definition push_char (c : Z) : Writer unit := push_str (encode_utf8 c).

(** ** [encode/sink.rs]: lexemes *)

(** [level.saturating_mul(4)]. *)
Definition write_indent (level : Z) : Writer unit := push_byte_n " "%byte (U64.saturating_mul level 4).

(** [c.is_control()]: the general category Cc. *)
Definition is_control (c : Z) : bool := ((0 <=? c) && (c <=? 31)) || ((127 <=? c) && (c <=? 159)).

Definition hex_digit (d : Z) : byte := byte_of (if d <? 10 then 48 + d else 97 + (d - 10)).

(** The loop of [write_unicode_escape], least significant digit first, and the
    reversal at its end; a scalar has at most six digits. *)
Fixpoint hex_digits (fuel : nat) (v : Z) : list byte :=
  match fuel with
  | O => []
  | S fuel => if 0 <? v then hex_digits fuel (Z.shiftr v 4) ++ [hex_digit (Z.land v 15)] else []
  end.

Definition write_unicode_escape (cp : Z) : list byte :=
  text "\u{" ++ (if cp =? 0 then text "0" else hex_digits 8 cp) ++ text "}".

Definition write_quoted_char (c : Z) : Writer unit :=
  if c =? 34 then push_str ["\"%byte; Byte.x22]
  else if c =? 92 then push_str (text "\\")
  else if c =? 10 then push_str (text "\n")
  else if c =? 13 then push_str (text "\r")
  else if c =? 9 then push_str (text "\t")
  else if c =? 8 then push_str (text "\b")
  else if c =? 12 then push_str (text "\f")
  else if is_control c || is_disallowed_literal c then push_str (write_unicode_escape c)
  else push_char c.

Definition write_quoted (s : list byte) : Writer unit :=
  push_byte Byte.x22;; for_each write_quoted_char (chars s);; push_byte Byte.x22.

Definition is_digit_char (c : option Z) : bool :=
  match c with Some c => (48 <=? c) && (c <=? 57) | None => false end.

Definition is_bare_ident (s : list byte) : bool :=
  if bool_decide (s = []) then false
  else if bool_decide (s ∈ [text "true"; text "false"; text "null"; text "inf"; text "-inf"; text "nan"]) then false
  else
    match chars s with
    | [] => false
    | first :: rest =>
        if is_digit_char (Some first) then false
        else if (first =? 46) && is_digit_char (head rest) then false
        else if ((first =? 43) || (first =? 45)) && is_digit_char (head rest) then false
        else if ((first =? 43) || (first =? 45)) && bool_decide (head rest = Some 46)
                && is_digit_char (head (tail rest)) then false
        else negb (existsb (λ c, is_non_identifier_char c || is_disallowed_literal c) (first :: rest))
    end.

Definition write_ident_or_string (s : list byte) : Writer unit :=
  if is_bare_ident s then push_str s else write_quoted s.

Definition write_bool (v : bool) : Writer unit := push_str (if v then text "#true" else text "#false").

Definition write_null : Writer unit := push_str (text "#null").

(** The loop of [format_u128_into], from the end of a buffer of forty bytes. *)
Fixpoint u128_digits (fuel : nat) (n : Z) (acc : list byte) : list byte :=
  match fuel with
  | O => acc
  | S fuel => if 0 <? n then u128_digits fuel (n / 10) (byte_of (48 + n mod 10) :: acc) else acc
  end.

Definition format_u128_into (n : Z) : list byte :=
  if n =? 0 then text "0" else u128_digits 40 n [].

Definition format_i128_into (n : Z) : list byte :=
  if n =? I128.MIN then text "-170141183460469231731687303715884105728"
  else if 0 <=? n then format_u128_into n
  else "-"%byte :: format_u128_into (- n).

Definition write_i128 (n : Z) : Writer unit := push_str (format_i128_into n).

Definition write_u128 (n : Z) : Writer unit := push_str (format_u128_into n).

(** [cleaned.replace('e', "E")], and [E+] for an exponent without a sign. *)
Fixpoint upper_exponent (l : list byte) : list byte :=
  match l with
  | [] => []
  | b :: l => (if decide (b = "e"%byte) then "E"%byte else b) :: upper_exponent l
  end.

Fixpoint sign_exponent (l : list byte) : list byte :=
  match l with
  | [] => []
  | b :: l =>
      if decide (b = "E"%byte) then
        match l with
        | [] => [b]
        | c :: _ => if decide (c = "+"%byte ∨ c = "-"%byte) then b :: l else b :: "+"%byte :: l
        end
      else b :: sign_exponent l
  end.

Definition contains (b : byte) (l : list byte) : bool := existsb (λ x, bool_decide (x = b)) l.

Section floats.

(** [format_float_into] of a finite float other than zero: decimal logarithm,
    powers and shortest digits. *)
Context (format_finite : f64 → list byte).

Definition format_float_into (f : f64) : list byte :=
  match f with
  | S754_nan => text "#nan"
  | S754_infinity true => text "#-inf"
  | S754_infinity false => text "#inf"
  | S754_zero true => text "-0.0"
  | S754_zero false => text "0.0"
  | S754_finite _ _ _ => format_finite f
  end.

Definition is_finite (f : f64) : bool :=
  match f with S754_zero _ | S754_finite _ _ _ => true | _ => false end.

Definition format_float_lexical (lex : list byte) (value : f64) : list byte :=
  let cleaned := filter (λ b, b ≠ "_"%byte) lex in
  let exponent := contains "e"%byte cleaned || contains "E"%byte cleaned in
  if negb (is_finite value) && (exponent || contains "."%byte cleaned)
  then sign_exponent (upper_exponent cleaned)
  else if exponent then sign_exponent (upper_exponent cleaned)
  else if contains "."%byte cleaned then cleaned
  else format_float_into value.

Definition write_f64 (f : f64) : Writer unit := push_str (format_float_into f).

Definition write_f64_lexical (lex : list byte) (value : f64) : Writer unit :=
  push_str (format_float_lexical lex value).

(** [(ty)], when there is a type. *)
Definition write_type (type_name : option KdlStr) : Writer unit :=
  match type_name with
  | Some ty => push_byte "("%byte;; write_ident_or_string ty;; push_byte ")"%byte
  | None => mret tt
  end.

Definition write_node_header (indent : Z) (type_name : option KdlStr) (name : KdlStr) : Writer unit :=
  write_indent indent;; write_type type_name;; write_ident_or_string name.

Definition write_argument_prefix : Writer unit := push_byte " "%byte.

Definition write_property_key (key : KdlStr) : Writer unit :=
  push_byte " "%byte;; write_ident_or_string key;; push_byte "="%byte.

Definition write_node_end_leaf : Writer unit := push_byte "010"%byte.

Definition write_children_open : Writer unit := push_str (text " {" ++ ["010"%byte]).

Definition write_children_close (indent : Z) : Writer unit :=
  write_indent indent;; push_str (text "}" ++ ["010"%byte]).

Definition write_flag_line (indent : Z) (name : KdlStr) : Writer unit :=
  write_node_header indent None name;; write_node_end_leaf.

(** ** [write.rs] *)

Definition format_value (value : Value.t) : Writer unit :=
  match value with
  | Value.String s => write_ident_or_string s
  | Value.Bool b => write_bool b
  | Value.Null => write_null
  | Value.Int n => write_i128 n
  | Value.Float value (Some raw) => write_f64_lexical raw value
  | Value.Float value None => write_f64 value
  end.

Definition format_argument (e : Entry.t) : Writer unit :=
  match e with
  | Entry.Argument type_name value => write_argument_prefix;; write_type type_name;; format_value value
  | Entry.Property _ _ _ => mret tt
  end.

(** [str] is ordered by its bytes. *)
Fixpoint str_compare (a b : list byte) : comparison :=
  match a, b with
  | [], [] => Eq
  | [], _ => Lt
  | _, [] => Gt
  | x :: a, y :: b =>
      match Z.compare (value x) (value y) with Eq => str_compare a b | c => c end
  end.

(** [BTreeMap::insert], on the entries in the order of the keys. *)
Fixpoint btree_insert {V} (k : list byte) (v : V) (m : list (list byte * V)) : list (list byte * V) :=
  match m with
  | [] => [(k, v)]
  | (k', v') :: m =>
      match str_compare k k' with
      | Lt => (k, v) :: (k', v') :: m
      | Eq => (k', v) :: m
      | Gt => (k', v') :: btree_insert k v m
      end
  end.

Definition insert_property (m : list (list byte * (option KdlStr * Value.t))) (e : Entry.t) :=
  match e with
  | Entry.Property key type_name value => btree_insert key (type_name, value) m
  | Entry.Argument _ _ => m
  end.

(** The properties that are printed: the last one of every key, by key. *)
Definition properties (entries : list Entry.t) : list (list byte * (option KdlStr * Value.t)) :=
  fold_left insert_property entries [].

Definition format_property (p : list byte * (option KdlStr * Value.t)) : Writer unit :=
  write_property_key p.1;; write_type p.2.1;; format_value p.2.2.

Fixpoint format_node (node : Node.t) (indent : Z) : Writer unit :=
  write_node_header indent (Node.type_name node) (Node.name node);;
  for_each format_argument (Node.entries node);;
  for_each format_property (properties (Node.entries node));;
  match Node.children node with
  | [] => write_node_end_leaf
  | children =>
      write_children_open;;
      (fix format_children (l : list Node.t) : Writer unit :=
         match l with [] => mret tt | child :: l => format_node child (indent + 1);; format_children l end)
        children;;
      write_children_close indent
  end.

(** A failed node does not stop the next one, but a growable sink never fails. *)
Fixpoint format_nodes (nodes : list Node.t) (s : WriteSink.t) : WriteSink.t :=
  match nodes with
  | [] => s
  | node :: nodes => format_nodes nodes (format_node node 0 s).1
  end.

Definition sink_text (s : WriteSink.t) : list byte :=
  match s with WriteSink.Grow buf => buf | WriteSink.Fixed bytes ix => take (Z.to_nat ix) bytes end.

Definition format_document_into (doc : Document.t) (out : list byte) : list byte :=
  sink_text (format_nodes (Document.nodes doc) (WriteSink.string out)).

Definition format_document (doc : Document.t) : list byte := format_document_into doc [].

Definition format_node_into (node : Node.t) (out : list byte) : list byte :=
  sink_text (format_node node 0 (WriteSink.string out)).1.

End floats.

Example format_document_example :
  format_document (λ _, []) {| Document.nodes :=
    [Node.mk None (text "a") [Entry.Property (text "z") None (Value.Int 1);
      Entry.Argument (Some (text "u8")) (Value.Int (-7)); Entry.Property (text "k") None Value.Null;
      Entry.Property (text "z") None (Value.String (text "x y"))]
      [Node.mk None (text "b") [] []]] |}
  = text "a (u8)-7 k=#null z=" ++ [Byte.x22] ++ text "x y" ++ [Byte.x22] ++ text " {
    b
}
".
Proof. vm_compute. reflexivity. Qed.

(** ** [encode.rs]: typed values *)

Class EncodeScalar (T : Type) := write_scalar : T → Writer unit.

#[export] Instance encode_str : EncodeScalar KdlStr := write_ident_or_string.

#[export] Instance encode_bool : EncodeScalar bool := write_bool.

(** The integers that fit [i128]. *)
#[export] Instance encode_int : EncodeScalar Z := write_i128.

#[export] Instance encode_option {T} `{EncodeScalar T} : EncodeScalar (option T) := λ v,
  match v with Some v => write_scalar v | None => write_null end.

Definition write_arg_node_line {S} `{EncodeScalar S} (indent : Z) (name : KdlStr) (value : S) : Writer unit :=
  write_node_header indent None name;; write_argument_prefix;; write_scalar value;; write_node_end_leaf.

Definition write_prop_node_line {S} `{EncodeScalar S} (indent : Z) (name key : KdlStr) (value : S) : Writer unit :=
  write_node_header indent None name;; write_property_key key;; write_scalar value;; write_node_end_leaf.

Class Encode (T : Type) := {
  write_node : T → Z → Writer unit;
  write_node_body : T → Z → Writer unit }.

Definition write_node_named {T} `{Encode T} (v : T) (indent : Z) (name : KdlStr) : Writer unit :=
  write_node_header indent None name;; write_node_body v indent.

Class EncodeDocument (T : Type) := write_document : T → Writer unit.

(** [Flag] has no fields. *)
#[export] Instance encode_flag : Encode unit := {
  write_node _ indent := write_flag_line indent (text "flag");
  write_node_body _ _ := write_node_end_leaf }.

#[export] Instance encode_vec {T} `{Encode T} : EncodeDocument (list T) := λ items,
  for_each (λ item, write_node item 0) items.

(** The parts of [write_into_with_context] and [write_into_slice] that are
    common to documents and nodes. *)
Definition run_into (m : Writer unit) (c : Context.t) : list byte * Context.t * Outcome Empty_set ErrorCtx.t :=
  let c := Context.clear_error c in
  match m (WriteSink.string []) with
  | (sink, Ok _) => (sink_text sink, c, Ok (ErrorCtx.ok (WriteSink.finish sink)))
  | (sink, Err e) =>
      (sink_text sink, Context.set_error (ErrorCtx.code e) c,
       Ok {| ErrorCtx.consumed := WriteSink.written sink; ErrorCtx.code := ErrorCtx.code e |})
  | (sink, Panic) => (sink_text sink, c, Panic)
  end.

Definition sink_bytes (s : WriteSink.t) : list byte :=
  match s with WriteSink.Grow buf => buf | WriteSink.Fixed bytes _ => bytes end.

Definition run_into_slice (m : Writer unit) (buffer : list byte) : list byte * Outcome Empty_set ErrorCtx.t :=
  match m (WriteSink.slice buffer) with
  | (sink, Ok _) => (sink_bytes sink, Ok (ErrorCtx.ok (WriteSink.finish sink)))
  | (sink, Err e) =>
      (sink_bytes sink,
       Ok {| ErrorCtx.consumed := WriteSink.written sink;
             ErrorCtx.code := if decide (ErrorCtx.code e = ErrorCode.None)
                              then ErrorCode.BufferOverflow else ErrorCtx.code e |})
  | (sink, Panic) => (sink_bytes sink, Panic)
  end.

Section entry_points.

Context {T : Type}.

Definition write_into_with_context `{EncodeDocument T} (v : T) (c : Context.t) :
    list byte * Context.t * Outcome Empty_set ErrorCtx.t := run_into (write_document v) c.

Definition write_node_into_with_context `{Encode T} (v : T) (c : Context.t) :
    list byte * Context.t * Outcome Empty_set ErrorCtx.t := run_into (write_node v 0) c.

(** [write]: the text, or the error. *)
Definition write `{EncodeDocument T} (v : T) : Outcome ErrorCtx.t (list byte) :=
  match write_into_with_context v Context.new with
  | (buffer, _, Ok ec) => if ErrorCtx.is_err ec then Err ec else Ok buffer
  | _ => Panic
  end.

Definition to_string_node `{Encode T} (v : T) : Outcome ErrorCtx.t (list byte) :=
  match write_node_into_with_context v Context.new with
  | (buffer, _, Ok ec) => if ErrorCtx.is_err ec then Err ec else Ok buffer
  | _ => Panic
  end.

Definition write_into_slice `{EncodeDocument T} (v : T) (buffer : list byte) : list byte * Outcome Empty_set ErrorCtx.t :=
  run_into_slice (write_document v) buffer.

Definition write_node_into_slice `{Encode T} (v : T) (buffer : list byte) : list byte * Outcome Empty_set ErrorCtx.t :=
  run_into_slice (write_node v 0) buffer.

End entry_points.

(** ** Writers that push one text *)

Definition sink_ok (s : WriteSink.t) : Prop :=
  match s with WriteSink.Grow _ => True | WriteSink.Fixed bytes ix => 0 <= ix <= len bytes end.

(** [m] does to every sink what pushing [t] does. *)
Definition prints (m : Writer unit) (t : list byte) : Prop := ∀ s, sink_ok s → m s = push_str t s.

Lemma copy_at_len ix raw bytes :
  0 <= ix → ix + len raw <= len bytes → len (copy_at ix raw bytes) = len bytes.
Proof.
  intros. pose proof (len_nonneg raw). unfold copy_at. rewrite !len_app, len_take, len_drop by lia. lia.
Qed.

Lemma push_str_ok t s : sink_ok s → sink_ok (push_str t s).1.
Proof.
  destruct s as [buf|bytes ix]; [done|]. simpl. intros H. pose proof (len_nonneg t).
  destruct (Z.ltb_spec (len bytes) (ix + len t)) as [Hlt|Hge]; simpl.
  - destruct (Z.ltb_spec 0 (Z.max 0 (len bytes - ix))); [rewrite copy_at_len; rewrite ?len_take; lia|lia].
  - rewrite copy_at_len by lia. lia.
Qed.

Lemma prints_str t : prints (push_str t) t.
Proof. done. Qed.

Lemma push_str_nil s : sink_ok s → push_str [] s = (s, Ok tt).
Proof.
  destruct s as [buf|bytes ix]; simpl; [by rewrite app_nil_r|]. intros H. rewrite len_nil.
  destruct (Z.ltb_spec (len bytes) (ix + 0)); [lia|]. unfold copy_at. rewrite len_nil, !Z.add_0_r. simpl.
  by rewrite take_drop.
Qed.

Lemma prints_ret : prints (mret tt) [].
Proof. intros s Hs. by rewrite push_str_nil. Qed.

(** Two copies in a row are one. *)
Lemma copy_at_app ix a b bytes :
  0 <= ix → ix + len a + len b <= len bytes →
  copy_at (ix + len a) b (copy_at ix a bytes) = copy_at ix (a ++ b) bytes.
Proof.
  intros Hi Hl. pose proof (len_nonneg a). pose proof (len_nonneg b). unfold copy_at.
  assert (E : length (take (Z.to_nat ix) bytes ++ a) = Z.to_nat (ix + len a)).
  { rewrite length_app, length_take. unfold len in *. lia. }
  rewrite (app_assoc (take _ bytes)), take_app_length' by done.
  rewrite <- !app_assoc. do 3 f_equal.
  rewrite app_assoc, drop_app_ge by (rewrite E; unfold len in *; lia). rewrite E, drop_drop, len_app.
  f_equal. unfold len in *. lia.
Qed.

Lemma copy_at_app_full ix a b bytes :
  0 <= ix → ix + len a <= len bytes → len bytes < ix + len a + len b →
  let n := len bytes - (ix + len a) in
  (if 0 <? n then copy_at (ix + len a) (take (Z.to_nat n) b) (copy_at ix a bytes) else copy_at ix a bytes)
  = copy_at ix (take (Z.to_nat (len bytes - ix)) (a ++ b)) bytes.
Proof.
  cbv zeta. intros Hi Ha Hb. pose proof (len_nonneg a).
  assert (Et : take (Z.to_nat (len bytes - ix)) (a ++ b)
    = a ++ take (Z.to_nat (len bytes - (ix + len a))) b).
  { rewrite take_app_ge by (unfold len in *; lia). do 2 f_equal. unfold len in *. lia. }
  rewrite Et. destruct (Z.ltb_spec 0 (len bytes - (ix + len a))) as [Hn|Hn].
  - apply copy_at_app; [done|]. rewrite len_take by lia. lia.
  - replace (Z.to_nat _) with O by lia. by rewrite take_0, app_nil_r.
Qed.

Lemma push_str_app a b s :
  sink_ok s → (push_str a;; push_str b) s = push_str (a ++ b) s.
Proof.
  intros Hs. destruct s as [buf|bytes ix].
  - unfold mbind, run_bind. simpl. by rewrite <- app_assoc.
  - simpl in Hs. unfold mbind, run_bind, push_str. pose proof (len_nonneg a). pose proof (len_nonneg b).
    rewrite len_app. destruct (Z.ltb_spec (len bytes) (ix + len a)) as [Ha|Ha].
    + destruct (Z.ltb_spec (len bytes) (ix + (len a + len b))); [|lia].
      rewrite Z.max_r by lia. rewrite take_app_le by (unfold len in *; lia). done.
    + rewrite copy_at_len by lia. rewrite <- Z.add_assoc.
      destruct (Z.ltb_spec (len bytes) (ix + (len a + len b))) as [Hb|Hb].
      * rewrite !Z.max_r by lia. rewrite copy_at_app_full by lia.
        destruct (Z.ltb_spec 0 (len bytes - ix)) as [Hp|Hp]; [done|].
        replace (Z.to_nat (len bytes - ix)) with O by lia. rewrite take_0.
        unfold copy_at. rewrite len_nil, Z.add_0_r. simpl. by rewrite take_drop.
      * rewrite copy_at_app by lia. by rewrite Z.add_assoc.
Qed.

Lemma prints_bind m k a b : prints m a → prints k b → prints (m;; k) (a ++ b).
Proof.
  intros Hm Hk s Hs. rewrite <- push_str_app by done. unfold mbind, run_bind. rewrite Hm by done.
  pose proof (push_str_ok a s Hs) as Hok. destruct (push_str a s) as [s' [[]|e|]]; [|done..]. by apply Hk.
Qed.

Lemma encode_byte c : is_ascii c = true → encode_utf8 (value c) = [c].
Proof. by destruct c. Qed.

Lemma prints_byte c : is_ascii c = true → prints (push_byte c) [c].
Proof.
  intros Hc [buf|bytes ix] H; [simpl; by rewrite encode_byte|]. simpl in *. change (len [c]) with 1.
  destruct (Z.leb_spec (len bytes) ix), (Z.ltb_spec (len bytes) (ix + 1)); try lia; [|done].
  rewrite Z.max_l by lia. simpl. by replace ix with (len bytes) by lia.
Qed.

Lemma len_replicate' (c : byte) n : 0 <= n → len (replicate (Z.to_nat n) c) = n.
Proof. intros. by apply len_replicate. Qed.

Lemma prints_byte_n c n : is_ascii c = true → 0 <= n → prints (push_byte_n c n) (replicate (Z.to_nat n) c).
Proof.
  intros Hc Hn s Hs. unfold push_byte_n. destruct (Z.eqb_spec n 0) as [->|H0]; [by rewrite push_str_nil|].
  destruct s as [buf|bytes ix].
  { rewrite encode_byte by done. simpl. do 3 f_equal. by induction (Z.to_nat n) as [|k IH]; simpl; [|f_equal]. }
  simpl in Hs. unfold push_str. rewrite len_replicate' by done.
  destruct (Z.ltb_spec (len bytes) (ix + n)); [|done]. rewrite Z.max_r by lia.
  rewrite take_replicate. replace (Nat.min _ _) with (Z.to_nat (len bytes - ix)) by lia.
  destruct (Z.ltb_spec 0 (len bytes - ix)) as [Hp|Hp]; [done|].
  replace (Z.to_nat (len bytes - ix)) with O by lia. unfold copy_at. simpl. rewrite len_nil, Z.add_0_r.
  by rewrite take_drop.
Qed.

Lemma prints_each {A} (f : A → Writer unit) (g : A → list byte) l :
  (∀ a, a ∈ l → prints (f a) (g a)) → prints (for_each f l) (concat (g <$> l)).
Proof.
  induction l as [|a l IH]; intros Hf; [apply prints_ret|]. simpl.
  apply prints_bind; [apply Hf; by left|]. apply IH. intros b Hb. apply Hf. by right.
Qed.

Lemma prints_eq m t t' : prints m t → t = t' → prints m t'.
Proof. by intros ? <-. Qed.

(** ** The text of a tree *)

Definition indent_text (level : Z) : list byte :=
  replicate (Z.to_nat (U64.saturating_mul level 4)) " "%byte.

Definition escape_text (c : Z) : list byte :=
  if c =? 34 then ["\"%byte; Byte.x22]
  else if c =? 92 then text "\\"
  else if c =? 10 then text "\n"
  else if c =? 13 then text "\r"
  else if c =? 9 then text "\t"
  else if c =? 8 then text "\b"
  else if c =? 12 then text "\f"
  else if is_control c || is_disallowed_literal c then write_unicode_escape c
  else encode_utf8 c.

Definition quoted_text (s : list byte) : list byte :=
  [Byte.x22] ++ concat (escape_text <$> chars s) ++ [Byte.x22].

Definition ident_text (s : list byte) : list byte := if is_bare_ident s then s else quoted_text s.

Definition type_text (type_name : option KdlStr) : list byte :=
  match type_name with Some ty => ["("%byte] ++ ident_text ty ++ [")"%byte] | None => [] end.

Definition bool_text (b : bool) : list byte := if b then text "#true" else text "#false".

Section print.

Context (format_finite : f64 → list byte).

Definition value_text (v : Value.t) : list byte :=
  match v with
  | Value.String s => ident_text s
  | Value.Bool b => bool_text b
  | Value.Null => text "#null"
  | Value.Int n => format_i128_into n
  | Value.Float value (Some raw) => format_float_lexical format_finite raw value
  | Value.Float value None => format_float_into format_finite value
  end.

Definition argument_text (e : Entry.t) : list byte :=
  match e with
  | Entry.Argument ty v => [" "%byte] ++ type_text ty ++ value_text v
  | Entry.Property _ _ _ => []
  end.

Definition property_text (p : list byte * (option KdlStr * Value.t)) : list byte :=
  [" "%byte] ++ ident_text p.1 ++ ["="%byte] ++ type_text p.2.1 ++ value_text p.2.2.

Definition entries_text (entries : list Entry.t) : list byte :=
  concat (argument_text <$> entries) ++ concat (property_text <$> properties entries).

Fixpoint node_text (node : Node.t) (level : Z) : list byte :=
  indent_text level ++ type_text (Node.type_name node) ++ ident_text (Node.name node)
  ++ entries_text (Node.entries node)
  ++ match Node.children node with
     | [] => ["010"%byte]
     | children =>
         (text " {" ++ ["010"%byte])
         ++ (fix nodes_text (l : list Node.t) : list byte :=
               match l with [] => [] | child :: l => node_text child (level + 1) ++ nodes_text l end) children
         ++ indent_text level ++ text "}" ++ ["010"%byte]
     end.

Definition document_text (doc : Document.t) : list byte :=
  concat ((λ node, node_text node 0) <$> Document.nodes doc).

(** The inner loop of [node_text]. *)
Lemma nodes_text_concat level l :
  (fix nodes_text (l : list Node.t) : list byte :=
     match l with [] => [] | child :: l => node_text child (level + 1) ++ nodes_text l end) l
  = concat ((λ node, node_text node (level + 1)) <$> l).
Proof. induction l as [|n l IH]; simpl; [done|]. by rewrite IH. Qed.

End print.

(** ** Induction over trees *)

Section node_ind.

Context (P : Node.t → Prop)
  (Hnode : ∀ ty name entries children, Forall P children → P (Node.mk ty name entries children)).

Fixpoint node_induction (node : Node.t) : P node :=
  match node with
  | Node.mk ty name entries children =>
      Hnode ty name entries children
        ((fix go (l : list Node.t) : Forall P l :=
            match l with
            | [] => Forall_nil_2 _
            | child :: l => Forall_cons_2 _ _ _ (node_induction child) (go l)
            end) children)
  end.

End node_ind.

(** ** The writers print these texts *)

Lemma prints_indent level : prints (write_indent level) (indent_text level).
Proof. apply prints_byte_n; [done|]. unfold U64.saturating_mul, U64.sat. lia. Qed.

Lemma prints_quoted_char c : prints (write_quoted_char c) (escape_text c).
Proof. unfold write_quoted_char, escape_text. repeat case_match; apply prints_str. Qed.

Lemma prints_quoted s : prints (write_quoted s) (quoted_text s).
Proof.
  unfold write_quoted, quoted_text. apply prints_bind; [by apply prints_byte|].
  apply prints_bind; [|by apply prints_byte]. apply prints_each. intros c _. apply prints_quoted_char.
Qed.

Lemma prints_ident s : prints (write_ident_or_string s) (ident_text s).
Proof.
  unfold write_ident_or_string, ident_text. destruct (is_bare_ident s); [apply prints_str|apply prints_quoted].
Qed.

Lemma prints_type ty : prints (write_type ty) (type_text ty).
Proof.
  unfold write_type, type_text. destruct ty; [|apply prints_ret].
  apply prints_bind; [by apply prints_byte|]. apply prints_bind; [apply prints_ident|by apply prints_byte].
Qed.

Lemma prints_header level ty name :
  prints (write_node_header level ty name) (indent_text level ++ type_text ty ++ ident_text name).
Proof.
  apply prints_bind; [apply prints_indent|]. apply prints_bind; [apply prints_type|apply prints_ident].
Qed.

Lemma prints_key key : prints (write_property_key key) ([" "%byte] ++ ident_text key ++ ["="%byte]).
Proof.
  apply prints_bind; [by apply prints_byte|]. apply prints_bind; [apply prints_ident|by apply prints_byte].
Qed.

Create HintDb prints.

#[export] Hint Resolve prints_byte prints_str prints_ret prints_indent prints_ident prints_type
  prints_header prints_key : prints.

Section printed.

Context (format_finite : f64 → list byte).

Lemma prints_value v : prints (format_value format_finite v) (value_text format_finite v).
Proof. destruct v as [s|n|f [raw|]|b|]; simpl; auto with prints; apply prints_str. Qed.

Lemma prints_argument e : prints (format_argument format_finite e) (argument_text format_finite e).
Proof.
  destruct e; simpl; [|apply prints_ret]. apply (prints_bind _ _ [" "%byte]); [by apply prints_byte|].
  apply prints_bind; auto using prints_value with prints.
Qed.

Lemma prints_property p : prints (format_property format_finite p) (property_text format_finite p).
Proof.
  unfold format_property, property_text.
  replace ([" "%byte] ++ _) with (([" "%byte] ++ ident_text p.1 ++ ["="%byte]) ++ type_text p.2.1 ++ value_text format_finite p.2.2)
    by (by rewrite <- !app_assoc).
  apply prints_bind; [auto with prints|]. apply prints_bind; auto using prints_value with prints.
Qed.

Lemma prints_nodes level l :
  Forall (λ n, ∀ level, prints (format_node format_finite n level) (node_text format_finite n level)) l →
  prints ((fix format_children (l : list Node.t) : Writer unit :=
             match l with
             | [] => mret tt
             | child :: l => format_node format_finite child (level + 1);; format_children l
             end) l)
    ((fix nodes_text (l : list Node.t) : list byte :=
        match l with
        | [] => []
        | child :: l => node_text format_finite child (level + 1) ++ nodes_text l
        end) l).
Proof.
  induction 1 as [|n l Hn Hl IHl]; [apply prints_ret|]. apply prints_bind; [apply Hn|apply IHl].
Qed.

Lemma prints_node node level : prints (format_node format_finite node level) (node_text format_finite node level).
Proof.
  revert level. induction node as [ty name entries children IH] using node_induction. intros level.
  cbn [format_node node_text Node.type_name Node.name Node.entries Node.children].
  unfold entries_text. rewrite <- !app_assoc. rewrite (app_assoc (type_text ty)), (app_assoc (indent_text level)).
  apply prints_bind; [apply prints_header|]. apply prints_bind.
  { apply prints_each. intros e _. apply prints_argument. }
  apply prints_bind.
  { apply prints_each. intros p _. apply prints_property. }
  destruct children as [|child more]; [by apply prints_byte|].
  apply (prints_bind _ _ (text " {" ++ ["010"%byte])); [apply prints_str|].
  refine (prints_bind _ _ _ _ (prints_nodes level (child :: more) IH) _).
  apply (prints_bind _ _ (indent_text level)); [apply prints_indent|apply prints_str].
Qed.

Lemma format_nodes_text nodes out :
  format_nodes format_finite nodes (WriteSink.Grow out)
  = WriteSink.Grow (out ++ concat ((λ node, node_text format_finite node 0) <$> nodes)).
Proof.
  revert out. induction nodes as [|node nodes IH]; intros out; simpl; [by rewrite app_nil_r|].
  rewrite (prints_node node 0) by done. simpl. rewrite IH. by rewrite app_assoc.
Qed.

(** The tree printer appends the text of the tree. *)
Lemma format_document_exact doc out :
  format_document_into format_finite doc out = out ++ document_text format_finite doc.
Proof. unfold format_document_into, WriteSink.string. by rewrite format_nodes_text. Qed.

End printed.

(** ** Typed values *)

(** The methods of the sink, and the bytes that a call of each stands for. *)
Inductive Dump :=
| Byte (c : byte)
| Str (raw : list byte)
| ByteN (c : byte) (n : N)
| Char (c : Z).

Definition dump (d : Dump) : Writer unit :=
  match d with
  | Byte c => push_byte c
  | Str raw => push_str raw
  | ByteN c n => push_byte_n c (Z.of_N n)
  | Char c => push_char c
  end.

Definition dump_text (d : Dump) : list byte :=
  match d with
  | Byte c => [c]
  | Str raw => raw
  | ByteN c n => replicate (N.to_nat n) c
  | Char c => encode_utf8 c
  end.

(** The single bytes are ASCII, as the code asserts when it is debugged. *)
Definition dump_ok (d : Dump) : Prop :=
  match d with Byte c | ByteN c _ => is_ascii c = true | _ => True end.

(** [m] calls these methods one after the other and returns the first error. *)
Definition emits (m : Writer unit) (ds : list Dump) : Prop := ∀ s, m s = for_each dump ds s.

Lemma emits_one d : emits (dump d) [d].
Proof. intros s. simpl. unfold mbind, run_bind. by destruct (dump d s) as [s' [[]|e|]]. Qed.

Lemma emits_ret : emits (mret tt) [].
Proof. done. Qed.

Lemma emits_bind m k a b : emits m a → emits k b → emits (m;; k) (a ++ b).
Proof.
  intros Hm Hk s. unfold mbind at 1, run_bind at 1. rewrite Hm. clear m Hm. revert s.
  induction a as [|d a IH]; intros s; simpl; [apply Hk|]. unfold mbind, run_bind.
  destruct (dump d s) as [s' [[]|e|]]; [|done..]. apply IH.
Qed.

Lemma emits_each {A} (f : A → Writer unit) (g : A → list Dump) l :
  (∀ a, emits (f a) (g a)) → emits (for_each f l) (concat (g <$> l)).
Proof. intros Hf. induction l as [|a l IH]; [apply emits_ret|]. by apply emits_bind. Qed.

Definition ident_dumps (s : list byte) : list Dump :=
  if is_bare_ident s then [Str s]
  else [Byte Byte.x22] ++ concat ((λ c, [Str (escape_text c)]) <$> chars s) ++ [Byte Byte.x22].

Lemma emits_ident s : emits (write_ident_or_string s) (ident_dumps s).
Proof.
  unfold write_ident_or_string, ident_dumps. destruct (is_bare_ident s); [apply (emits_one (Str s))|].
  apply emits_bind; [apply (emits_one (Byte _))|]. apply emits_bind; [|apply (emits_one (Byte _))].
  apply emits_each. intros c s'. rewrite <- (emits_one (Str (escape_text c)) s').
  unfold write_quoted_char, escape_text. by repeat case_match.
Qed.

Definition indent_dump (level : Z) : Dump := ByteN " "%byte (Z.to_N (U64.saturating_mul level 4)).

Lemma emits_indent level : emits (write_indent level) [indent_dump level].
Proof.
  intros s. rewrite <- (emits_one (indent_dump level) s). unfold write_indent, indent_dump. simpl.
  by rewrite Z2N.id by (unfold U64.saturating_mul, U64.sat; lia).
Qed.

Lemma ident_dumps_ok s : Forall dump_ok (ident_dumps s).
Proof.
  unfold ident_dumps. destruct (is_bare_ident s); [by repeat constructor|]. rewrite !Forall_app.
  split_and!; [by repeat constructor| |by repeat constructor].
  apply Forall_concat, Forall_fmap, Forall_true. intros c. simpl. by repeat constructor.
Qed.

Ltac dumps_are_ok :=
  repeat first [apply Forall_app; split | apply ident_dumps_ok | apply Forall_cons; split; [done|] | apply Forall_nil_2].

(** A header without a type, which is what typed values write. *)
Definition header_dumps (level : Z) (name : KdlStr) : list Dump := indent_dump level :: ident_dumps name.

Lemma emits_header level name : emits (write_node_header level None name) (header_dumps level name).
Proof.
  apply (emits_bind _ _ [_]); [apply emits_indent|]. apply (emits_bind _ _ []); [apply emits_ret|apply emits_ident].
Qed.

Definition key_dumps (key : KdlStr) : list Dump := Byte " "%byte :: ident_dumps key ++ [Byte "="%byte].

Lemma emits_key key : emits (write_property_key key) (key_dumps key).
Proof.
  apply (emits_bind _ _ [_]); [apply (emits_one (Byte _))|].
  apply emits_bind; [apply emits_ident|apply (emits_one (Byte _))].
Qed.

(** What an implementation of [Encode] is to the entry points: it calls methods
    of the sink it is given, and stops at the first error. *)
Class Dumps (T : Type) `{Encode T} := {
  dumps : T → Z → list Dump;
  dumps_ok : ∀ v level, Forall dump_ok (dumps v level);
  write_node_dumps : ∀ v level, emits (write_node v level) (dumps v level) }.

#[export] Program Instance dumps_flag : Dumps unit :=
  {| dumps _ level := header_dumps level (text "flag") ++ [Byte "010"%byte] |}.
Next Obligation. intros v level. unfold header_dumps. dumps_are_ok. Qed.
Next Obligation. intros [] level. apply emits_bind; [apply emits_header|apply (emits_one (Byte _))]. Qed.

(** The text of a list of values: what all the calls stand for. *)
Definition dumped_text {T} `{Dumps T} (items : list T) : list byte :=
  concat (dump_text <$> concat ((λ item, dumps item 0) <$> items)).

Lemma prints_dump d : dump_ok d → prints (dump d) (dump_text d).
Proof.
  destruct d as [c|raw|c n|c]; simpl; intros Hd; [by apply prints_byte|apply prints_str| |apply prints_str].
  replace (N.to_nat n) with (Z.to_nat (Z.of_N n)) by lia. apply prints_byte_n; [done|lia].
Qed.

Lemma prints_document {T} `{Dumps T} (items : list T) :
  prints (write_document items) (dumped_text items).
Proof.
  intros s Hs. unfold write_document, encode_vec.
  rewrite (emits_each _ (λ item, dumps item 0) items); [|intros item; apply write_node_dumps].
  assert (Hok : Forall dump_ok (concat ((λ item, dumps item 0) <$> items))).
  { apply Forall_concat, Forall_fmap, Forall_true. intros item. apply dumps_ok. }
  rewrite Forall_forall in Hok. apply prints_each; [|done]. intros d Hd. by apply prints_dump, Hok.
Qed.

(** A fixed sink gets the first bytes of the text. *)
Lemma fixed_prefix t bytes :
  push_str t (WriteSink.slice bytes)
  = if len t <=? len bytes then (WriteSink.Fixed (t ++ drop (length t) bytes) (len t), Ok tt)
    else (WriteSink.Fixed (take (length bytes) t) (len bytes), Err (overflow (len bytes))).
Proof.
  unfold push_str, WriteSink.slice. rewrite Z.add_0_l, Z.sub_0_r. pose proof (len_nonneg bytes).
  destruct (Z.ltb_spec (len bytes) (len t)), (Z.leb_spec (len t) (len bytes)); try lia.
  - rewrite Z.max_r by lia.
    assert (E : (if 0 <? len bytes then copy_at 0 (take (Z.to_nat (len bytes)) t) bytes else bytes)
      = take (length bytes) t); [|by rewrite E].
    unfold copy_at. rewrite len_take by lia. unfold len. rewrite Z.add_0_l, Nat2Z.id. simpl.
    rewrite drop_all, app_nil_r. destruct (Z.ltb_spec 0 (Z.of_nat (length bytes))); [done|].
    by rewrite (nil_length_inv bytes) by lia.
  - unfold copy_at, len. rewrite Z.add_0_l, Nat2Z.id. done.
Qed.


(** A node with an argument and a child that has a property, as the derive
    macro writes it. *)
Record Server := { host : KdlStr; port : Z }.

Definition server_body (v : Server) (level : Z) : Writer unit :=
  (write_argument_prefix;; write_scalar (host v));;
  write_children_open;;
  write_prop_node_line (level + 1) (text "bind") (text "port") (port v);;
  write_children_close level.

#[export] Instance encode_server : Encode Server := {
  write_node v level := write_node_header level None (text "server");; server_body v level;
  write_node_body := server_body }.

#[export] Program Instance dumps_server : Dumps Server := {|
  dumps v level :=
    header_dumps level (text "server")
    ++ ([Byte " "%byte] ++ ident_dumps (host v))
    ++ [Str (text " {" ++ ["010"%byte])]
    ++ (header_dumps (level + 1) (text "bind") ++ key_dumps (text "port")
        ++ [Str (format_i128_into (port v))] ++ [Byte "010"%byte])
    ++ [indent_dump level] ++ [Str (text "}" ++ ["010"%byte])] |}.
Next Obligation. intros v level. unfold header_dumps, key_dumps. dumps_are_ok. Qed.
Next Obligation.
  intros [host port] level. apply emits_bind; [apply emits_header|]. apply emits_bind.
  { apply emits_bind; [apply (emits_one (Byte _))|apply emits_ident]. }
  apply emits_bind; [apply (emits_one (Str _))|]. apply emits_bind.
  - apply emits_bind; [apply emits_header|]. apply emits_bind; [apply emits_key|].
    apply emits_bind; [apply (emits_one (Str _))|apply (emits_one (Byte _))].
  - apply emits_bind; [apply emits_indent|apply (emits_one (Str _))].
Qed.

