(* ===== verification/KdlTokens.v ===== *)
(** * Reading back: identifiers, keywords, integers and strings

    The words that the writer prints without quotes and the quoted strings with
    their escapes, read by the methods of [KdlParser]. *)

From Stdlib Require Import Strings.String Strings.Byte Floats.SpecFloat.
From S2P Require Import Prelude Codec Bytes KdlSwar KdlChars KdlValue KdlParser KdlCursor KdlWrite.

Import Cursor.

(** ** What follows a word *)

(** The text after an identifier, a number or a keyword. *)
Definition ends (r : list byte) : Prop :=
  is_utf8 r = true ∧ match next_char r with Some (d, _) => is_non_identifier_char d = true ∧ ends_keyword d = true | None => True end.

(** A bare identifier as characters. *)
Record bare (cs : list Z) : Prop := {
  bare_scalar : Forall scalar cs;
  bare_chars : Forall (λ d, is_non_identifier_char d = false ∧ is_disallowed_literal d = false) cs;
  bare_word : is_keyword (utf8 cs) = false;
  bare_start : match cs with
    | [] => False
    | d :: cs => is_char_digit d = false
        ∧ ((d = 46 ∨ d = 43 ∨ d = 45) → is_digit_char (head cs) = false)
        ∧ ((d = 43 ∨ d = 45) → head cs = Some 46 → is_digit_char (head (tail cs)) = false)
    end }.

Lemma is_bare_ident_bare s : is_utf8 s = true → is_bare_ident s = true → ∃ cs, s = utf8 cs ∧ bare cs.
Proof.
  intros (cs&Hcs&->)%utf8_texts. unfold is_bare_ident. case_bool_decide; [done|].
  case_bool_decide as Hk; [done|]. rewrite chars_utf8 by done. destruct cs as [|d cs]; [done|].
  destruct (is_digit_char (Some d)) eqn:E1; [done|].
  destruct ((d =? 46) && _) eqn:E2; [done|]. destruct (((d =? 43) || (d =? 45)) && is_digit_char (head cs)) eqn:E3; [done|].
  destruct (((d =? 43) || (d =? 45)) && _ && _) eqn:E4; [done|]. intros Hx%negb_true_iff.
  exists (d :: cs). split; [done|]. split.
  - done.
  - apply Forall_forall. intros x Hin. destruct (is_non_identifier_char x) eqn:Ex, (is_disallowed_literal x) eqn:Ey; try done;
      exfalso; apply not_true_iff_false in Hx; apply Hx, existsb_exists; exists x;
      (split; [by apply list_elem_of_In|by rewrite Ex, ?Ey]).
  - unfold is_keyword. by apply bool_decide_eq_false_2.
  - split_and!.
    + exact E1.
    + intros Hd. destruct (is_digit_char (head cs)); [|done]. lia.
    + intros Hd Hh. rewrite Hh in E4. destruct (is_digit_char (head (tail cs))); [|done].
      rewrite bool_decide_eq_true_2 in E4 by done. lia.
Qed.

Lemma digit_identifier d : is_char_digit d = true → is_non_identifier_char d = false.
Proof.
  unfold is_char_digit, is_non_identifier_char, is_unicode_space, is_newline_char, is_delimiter, is_disallowed_literal. lia.
Qed.

(** ** The digits of integers *)

Lemma read_digits_app radix a l k :
  read_digits radix a (l ++ k) = v ← read_digits radix a l; read_digits radix v k.
Proof.
  revert a. induction l as [|b l IH]; intros a; [done|]. simpl. destruct (hex b); [|done].
  destruct (_ <? _); [apply IH|done].
Qed.

(** What is read back from digits [ds], and how they start. *)
Record digits_of (n : Z) (ds : list byte) : Prop := {
  digits_read : read_digits 10 0 ds = Some n;
  digits_all : Forall (λ b, is_ascii_digit b = true) ds;
  digits_zero : ds = text "0" ∨ ∃ b ds', ds = b :: ds' ∧ b ≠ "0"%byte }.

Lemma hex_digit_value v : 0 <= v < 10 → hex (byte_of (48 + v)) = Some v.
Proof.
  intros Hv. destruct (digit_value v Hv) as [Ev Ed]. unfold hex. rewrite Ed, Ev. f_equal. lia.
Qed.

Lemma u128_digits_acc fuel n acc : u128_digits fuel n acc = u128_digits fuel n [] ++ acc.
Proof.
  revert n acc. induction fuel as [|fuel IH]; intros n acc; [done|]. simpl. destruct (0 <? n); [|done].
  rewrite IH, (IH _ [_]), <- app_assoc. done.
Qed.

Lemma u128_digits_of fuel n : 0 < n < 10 ^ Z.of_nat fuel → digits_of n (u128_digits fuel n []).
Proof.
  revert n. induction fuel as [|fuel IH]; intros n Hn; [simpl in Hn; lia|]. cbn [u128_digits].
  destruct (Z.ltb_spec 0 n); [|lia]. rewrite u128_digits_acc.
  pose proof (Z.mod_pos_bound n 10 ltac:(lia)) as Hm. pose proof (Z.div_mod n 10 ltac:(lia)) as Ed.
  rewrite Nat2Z.inj_succ, Z.pow_succ_r in Hn by lia.
  assert (Hq : 0 <= n / 10 < 10 ^ Z.of_nat fuel) by (split; [apply Z.div_pos; lia|apply Z.div_lt_upper_bound; lia]).
  destruct (digit_value (n mod 10) Hm) as [Ev Edig]. destruct (Z.eq_dec (n / 10) 0) as [E0|E0].
  - assert (E : u128_digits fuel (n / 10) [] = []) by (rewrite E0; by destruct fuel). rewrite E. cbn [app].
    split; [|by repeat constructor|].
    + cbn [read_digits]. rewrite hex_digit_value by done. destruct (Z.ltb_spec (n mod 10) 10); [f_equal; lia|lia].
    + right. eexists _, []. split; [done|]. intros Eb. apply (f_equal value) in Eb. rewrite Ev in Eb.
      change (value "0"%byte) with 48 in Eb. lia.
  - destruct (IH (n / 10) ltac:(lia)) as [Hr Ha Hz]. split.
    + rewrite read_digits_app, Hr. cbn [mbind option_bind read_digits]. rewrite hex_digit_value by done.
      destruct (Z.ltb_spec (n mod 10) 10); [f_equal; lia|lia].
    + apply Forall_app. split; [done|by repeat constructor].
    + right. destruct Hz as [E|(b&ds&E&Hb)].
      * rewrite E in Hr. change (Some 0 = Some (n / 10)) in Hr. congruence.
      * rewrite E. by eexists _, _.
Qed.

Lemma format_u128_digits n : 0 <= n < 10 ^ 40 → digits_of n (format_u128_into n).
Proof.
  intros Hn. unfold format_u128_into. destruct (Z.eqb_spec n 0) as [->|].
  - split; [done|by repeat constructor|by left].
  - apply u128_digits_of. change (Z.of_nat 40) with 40. lia.
Qed.

(** A sign in front of digits. *)
Lemma format_i128_digits n :
  I128.ok n →
  ∃ ds, digits_of (Z.abs n) ds ∧ format_i128_into n = (if n <? 0 then "-"%byte :: ds else ds).
Proof.
  intros Hn. assert (HM : 2 ^ 127 < 10 ^ 40) by (vm_compute; done). unfold I128.ok, I128.MIN, I128.MAX in Hn.
  exists (format_u128_into (Z.abs n)). split; [apply format_u128_digits; lia|]. unfold format_i128_into.
  destruct (Z.eqb_spec n I128.MIN) as [->|]; [vm_compute; done|].
  destruct (Z.leb_spec 0 n), (Z.ltb_spec n 0); try lia; do 2 f_equal; lia.
Qed.

Lemma digit_ascii b : is_ascii_digit b = true → is_ascii b = true ∧ is_char_digit (value b) = true ∧ b ≠ "_"%byte.
Proof.
  unfold is_ascii_digit, in_range, is_ascii, is_char_digit. intros H. split_and!; [lia|done|].
  intros ->. vm_compute in H. done.
Qed.

Section tokens.

Context (src : Source.t) {Hsrc : ValidSource src} (simd : bool) (c : Context.t).

#[local] Abbreviation input := (Source.input src).

#[local] Abbreviation good := (KdlCursor.good src).

#[local] Abbreviation rest := (KdlCursor.rest src).

#[local] Abbreviation eats := (KdlCursor.eats src c).

(** The text between a position and the cursor. *)
Lemma input_slice_adv w r s s' :
  good s → rest s = w ++ r → is_utf8 w = true → input_slice src (index s) (index (adv w s)) s' = (s', Ok w).
Proof.
  intros Hs E Hw. pose proof (adv_good src w r s Hs E Hw) as [[Hi Hu] Er].
  pose proof (len_nonneg w). destruct Hs as [Hi0 Hu0].
  assert (Hle : index (adv w s) = index s + len w) by done.
  assert (Hab : 0 <= index s <= index (adv w s)) by lia.
  rewrite (@input_slice_good src Hsrc _ _ s' Hab (proj2 Hi) Hu0 Hu).
  do 2 f_equal. unfold slice. change (drop (Z.to_nat (index s)) input) with (rest s). rewrite E. simpl.
  replace (Z.to_nat (index s + len w - index s)) with (length w) by (unfold len; lia). by rewrite take_app_length.
Qed.

(** ** Identifiers *)

Lemma eats_identifier_loop fuel cs r :
  Forall scalar cs → Forall (λ d, is_non_identifier_char d = false) cs → ends r →
  (length (utf8 cs ++ r) < fuel)%nat → eats (identifier_loop src fuel) (utf8 cs) r tt.
Proof.
  intros Hs Hi [Hu Hr]. revert fuel. induction Hs as [|d cs Hd Hs IH]; intros [|fuel] Hf; try (simpl in Hf; lia).
  - cbn [identifier_loop]. eapply (eats_read src c); [apply (look_char src)|]. simpl.
    destruct (next_char r) as [[d t]|]; simpl; [|apply eats_ret]. destruct Hr as [-> _]. apply eats_ret.
  - apply Forall_cons in Hi as [Hi Hi']. rewrite utf8_cons in *. cbn [identifier_loop].
    eapply (eats_read src c); [apply (look_char src)|]. rewrite <- app_assoc, next_char_encode by done. simpl. rewrite Hi.
    eapply (eats_bind src c); [by apply eats_bump_char|]. apply IH; [done|].
    rewrite <- app_assoc, length_app in Hf. destruct (len_encode_utf8 d Hd). unfold len in *. lia.
Qed.

(** The part of [parse_identifier_string] that looks for numbers. *)
Definition identifier_start (start d : Z) : Parse unit :=
  if (d =? code "+"%byte) || (d =? code "-"%byte) then
    bump_char src;;
    o ← peek_char src;
    match o with
    | Some n =>
        if is_char_digit n then put_index start;; err src ErrorCode.InvalidIdent
        else if n =? code "."%byte then
          bump_char src;;
          o ← peek_char src;
          match o with
          | Some n2 =>
              if is_char_digit n2 then put_index start;; err src ErrorCode.InvalidIdent
              else if negb (is_non_identifier_char n2) then bump_char src;; mret tt
              else mret tt
          | None => mret tt
          end
        else if negb (is_non_identifier_char n) && negb (is_char_digit n) then bump_char src;; mret tt
        else mret tt
    | None => mret tt
    end
  else if d =? code "."%byte then
    bump_char src;;
    o ← peek_char src;
    match o with
    | Some n =>
        if is_char_digit n then put_index start;; err src ErrorCode.InvalidIdent
        else if negb (is_non_identifier_char n) then bump_char src;; mret tt
        else mret tt
    | None => mret tt
    end
  else if is_char_digit d then err src ErrorCode.InvalidIdent
  else bump_char src;; mret tt.

Lemma look_next {B} (k : option Z → Parse B) d w r b :
  scalar d → eats (k (Some d)) (utf8 (d :: w)) r b → eats (peek_char src ≫= k) (utf8 (d :: w)) r b.
Proof.
  intros Hd Hk. eapply (eats_read src c); [apply (look_char src)|]. by rewrite utf8_cons, <- app_assoc, next_char_encode.
Qed.

Lemma look_follower {B} (k : option Z → Parse B) r b :
  ends r →
  (∀ o, match o with Some n => is_char_digit n = false ∧ n ≠ 46 ∧ is_non_identifier_char n = true | None => True end →
    eats (k o) [] r b) →
  eats (peek_char src ≫= k) [] r b.
Proof.
  intros [Hu Hr] Hk. eapply (eats_read src c); [apply (look_char src)|]. apply Hk. simpl.
  destruct (next_char r) as [[n t]|]; simpl; [|done]. destruct Hr as [Hn _]. split_and!; [|by intros ->|done].
  destruct (is_char_digit n) eqn:E; [|done]. apply digit_identifier in E. congruence.
Qed.

Lemma bump_start {B} (k : option Z → Parse B) d w r b :
  scalar d → eats (k (Some d)) (utf8 w) r b → eats (bump_char src ≫= k) (utf8 (d :: w)) r b.
Proof. intros Hd Hk. rewrite utf8_cons. eapply (eats_bind src c); [by apply eats_bump_char|done]. Qed.

Lemma eats_identifier_start start d cs r :
  bare (d :: cs) → ends r →
  ∃ w1 w2, d :: cs = w1 ++ w2 ∧ w1 ≠ [] ∧ eats (identifier_start start d) (utf8 w1) (utf8 w2 ++ r) tt.
Proof.
  intros [Hs Hc _ (Hd&Hp&Hq)] Hr. unfold identifier_start.
  assert (Hbump : ∀ n w, scalar n → eats (bump_char src;; mret tt) (utf8 [n]) w tt).
  { intros n w Hn. apply bump_start; [done|]. apply eats_ret. }
  apply Forall_cons in Hs as [Hds Hs]. apply Forall_cons in Hc as [_ Hc].
  destruct ((d =? code "+"%byte) || (d =? code "-"%byte)) eqn:Esign;
    [|destruct (Z.eqb_spec d (code "."%byte)) as [Edot|Hdot]; [|rewrite Hd]].
  - assert (Hd' : d = 43 ∨ d = 45) by (unfold code in Esign; change (value "+"%byte) with 43 in Esign;
      change (value "-"%byte) with 45 in Esign; lia).
    destruct cs as [|n cs].
    { exists [d], []. split_and!; [done|done|]. apply bump_start; [done|]. apply (look_follower); [done|].
      intros [n|]; [intros (->&Hn&->)|intros _; apply eats_ret].
      destruct (Z.eqb_spec n (code "."%byte)); [done|]. apply eats_ret. }
    apply Forall_cons in Hs as [Hn Hs]. apply Forall_cons in Hc as [[Hni _] Hc].
    assert (Hnd : is_char_digit n = false) by (apply Hp; lia).
    destruct (Z.eqb_spec n 46) as [->|Hn46].
    + destruct cs as [|m cs].
      * exists [d; 46], []. split_and!; [done|done|]. apply bump_start; [done|]. apply (look_next); [done|]. cbv iota.
        rewrite Hnd. apply bump_start; [done|]. apply (look_follower); [done|].
        intros [m|]; [intros (->&_&->)|intros _]; apply eats_ret.
      * apply Forall_cons in Hs as [Hm Hs]. apply Forall_cons in Hc as [[Hmi _] Hc].
        assert (Hmd : is_char_digit m = false) by (apply Hq; [lia|done]).
        exists [d; 46; m], cs. split_and!; [done|done|]. apply bump_start; [done|]. apply (look_next); [done|].
        rewrite Hnd. apply bump_start; [done|]. apply (look_next); [done|]. rewrite Hmd, Hmi. by apply Hbump.
    + exists [d; n], cs. split_and!; [done|done|]. apply bump_start; [done|]. apply (look_next); [done|].
      rewrite Hnd. destruct (Z.eqb_spec n (code "."%byte)); [done|]. rewrite Hni. by apply Hbump.
  - subst d. destruct cs as [|n cs].
    { exists [46], []. split_and!; [done|done|]. apply bump_start; [done|]. apply (look_follower); [done|].
      intros [n|]; [intros (->&_&->)|intros _]; apply eats_ret. }
    apply Forall_cons in Hs as [Hn Hs]. apply Forall_cons in Hc as [[Hni _] Hc].
    exists [46; n], cs. split_and!; [done|done|]. apply bump_start; [done|]. apply (look_next); [done|].
    assert (Hnd : is_char_digit n = false) by (apply Hp; by left). rewrite Hnd, Hni. by apply Hbump.
  - exists [d], cs. split_and!; [done|done|by apply Hbump].
Qed.

Lemma eats_identifier cs r : bare cs → ends r → eats (parse_identifier_string src) (utf8 cs) r (utf8 cs).
Proof.
  intros Hb Hr. split; [by apply utf8_valid, bare_scalar|]. intros s Hs Hc E. unfold parse_identifier_string.
  etransitivity; [apply (run_ok get_index _ s s (index s)); done|].
  destruct cs as [|d cs]; [destruct (bare_start [] Hb)|].
  rewrite (run_ok _ _ _ _ _ (peek_char_good src s Hs)), E, utf8_cons, <- app_assoc.
  pose proof (bare_scalar _ Hb) as Hsc. apply Forall_cons in Hsc as [Hd Hsc].
  rewrite next_char_encode by done. cbn [fmap option_fmap option_map fst].
  pose proof (bare_chars _ Hb) as Hi. assert (Hi' : Forall (λ d, is_non_identifier_char d = false) (d :: cs)).
  { eapply Forall_impl; [exact Hi|]. by intros x []. }
  rewrite (Forall_inv Hi' : is_non_identifier_char d = false).
  destruct (eats_identifier_start (index s) d cs r Hb Hr) as (w1&w2&Ew&Hw1&_&Hstart).
  assert (Hw : utf8 (d :: cs) = utf8 w1 ++ utf8 w2) by (by rewrite Ew, utf8_app).
  rewrite Ew in Hi'. apply Forall_app in Hi' as [Hi1 Hi2].
  pose proof (bare_scalar _ Hb) as Hsc'. rewrite Ew in Hsc'. apply Forall_app in Hsc' as [Hs1 Hs2].
  rewrite Hw, <- app_assoc in E.
  etransitivity; [apply (run_ok _ _ _ _ _ (Hstart s Hs Hc E))|]. cbv beta.
  destruct (adv_good src (utf8 w1) _ s Hs E (utf8_valid _ Hs1)) as [G Er].
  assert (Hloop : eats (identifier_loop src (steps src)) (utf8 w2) r tt)
    by (apply (eats_steps src c (identifier_loop src)); intros; by apply eats_identifier_loop).
  rewrite (run_ok _ _ _ _ _ (proj2 Hloop _ G Hc Er)), adv_app, <- Hw.
  etransitivity; [apply (run_ok get_index _ _ (adv (utf8 (d :: cs)) s) (index (adv (utf8 (d :: cs)) s))); done|].
  rewrite (app_assoc (utf8 w1)), <- Hw in E.
  assert (Hlen : 1 <= len (utf8 (d :: cs))).
  { rewrite utf8_cons, len_app. destruct (len_encode_utf8 d Hd). pose proof (len_nonneg (utf8 cs)). lia. }
  replace (index (adv (utf8 (d :: cs)) s) =? index s) with false by (simpl; symmetry; apply Z.eqb_neq; lia).
  rewrite (run_ok _ _ _ _ _ (input_slice_adv _ r s _ Hs E (utf8_valid _ (bare_scalar _ Hb)))).
  by rewrite (bare_word _ Hb).
Qed.

(** ** Integers *)

Lemma eats_bump_ascii b r : is_ascii b = true → eats (bump_char src) [b] r (Some (value b)).
Proof.
  intros Hb. pose proof (value_range b). assert (E : encode_utf8 (value b) = [b]).
  { rewrite encode_ascii by (unfold is_ascii in Hb; lia). by rewrite byte_of_value. }
  rewrite <- E. apply (eats_bump_char src). unfold scalar, is_scalar, is_ascii in *. lia.
Qed.

(** The first byte after a word. *)
Lemma ends_byte r b :
  ends r → head r = Some b → is_ascii b = true → is_non_identifier_char (value b) = true ∧ ends_keyword (value b) = true.
Proof.
  intros [Hu Hr] Hb Ha. pose proof (head_char r Hu) as Hh. destruct r as [|b' r]; [done|]. injection Hb as ->.
  destruct Hh as (d&t&E&H1&_). rewrite E in Hr. by rewrite (H1 Ha) in Hr.
Qed.

(** [ends_not b]: no word is followed by the letter [b]. *)
Lemma ends_not r b :
  ends r → is_ascii b = true → is_non_identifier_char (value b) = false → head r ≠ Some b.
Proof. intros Hr Ha Hb E. destruct (ends_byte r b Hr E Ha). congruence. Qed.

Lemma next_ascii b l : is_ascii b = true → next_char (b :: l) = Some (value b, l).
Proof. intros Hb. simpl. by rewrite Hb. Qed.

Lemma eats_digits_loop fuel saw underscore ds r :
  Forall (λ b, is_ascii_digit b = true) ds → ends r → (length (ds ++ r) < fuel)%nat →
  eats (digits_loop src is_char_digit fuel saw underscore) ds r tt.
Proof.
  intros Hds Hr. revert fuel saw underscore. induction Hds as [|b ds Hb Hds IH]; intros [|fuel] saw underscore Hf;
    try (simpl in Hf; lia); cbn [digits_loop].
  - apply look_follower; [done|]. intros [n|]; [|intros _; apply eats_ret]. intros (Hn&_&Hi). rewrite Hn.
    destruct (Z.eqb_spec n (code "_"%byte)) as [->|]; [done|]. apply eats_ret.
  - destruct (digit_ascii b Hb) as (Ha&Hd&Hu). eapply (eats_read src c); [apply (look_char src)|].
    rewrite <- app_comm_cons, next_ascii by done. cbn [fmap option_fmap option_map fst].
    destruct (Z.eqb_spec (value b) (code "_"%byte)) as [E|]; [by apply byte_value_inj in E|]. rewrite Hd.
    apply (eats_bind src c _ _ [b] ds r (Some (value b)) tt); [by apply eats_bump_ascii|]. apply IH. simpl in Hf. lia.
Qed.

Lemma eats_digits ds r :
  Forall (λ b, is_ascii_digit b = true) ds → ends r → eats (consume_digits_underscores src is_char_digit) ds r tt.
Proof.
  intros. apply (eats_steps src c (λ fuel, digits_loop src is_char_digit fuel false false)).
  intros. by apply eats_digits_loop.
Qed.

(** No prefix of another radix. *)
Lemma no_radix n ds r b :
  digits_of n ds → ends r → is_ascii b = true → is_non_identifier_char (value b) = false → is_ascii_digit b = false →
  Bytes.starts_with (ds ++ r) ["0"%byte; b] = false.
Proof.
  intros [_ Ha Hz] Hr Hb Hi Hd. destruct (Bytes.starts_with _ _) eqn:E; [|done].
  apply starts_with_true in E as [t E]. exfalso. destruct Hz as [->|(b'&ds'&->&Hb')].
  - injection E as E. by apply (ends_not r b Hr Hb Hi); rewrite E.
  - injection E as -> _. done.
Qed.

Lemma digits_not_sign n ds r b :
  digits_of n ds → is_ascii_digit b = false → Bytes.starts_with (ds ++ r) [b] = false.
Proof.
  intros [_ Ha Hz] Hb. destruct (Bytes.starts_with _ _) eqn:E; [|done]. apply starts_with_true in E as [t E].
  exfalso. destruct ds as [|d ds]; [by destruct Hz as [|(?&?&?&?)]|].
  injection E as -> _. apply Forall_cons in Ha as [Ha _]. congruence.
Qed.

Lemma no_underscores l : Forall (λ b, b ≠ "_"%byte) l → without_underscores l = l.
Proof.
  unfold without_underscores. induction 1 as [|b l Hb Hl IH]; [done|]. rewrite filter_cons_True by done. by rewrite IH.
Qed.

Lemma read_i128 n ds :
  I128.ok n → digits_of (Z.abs n) ds →
  from_str_radix I128.MIN I128.MAX 10 (if n <? 0 then "-"%byte :: ds else ds) = Some n.
Proof.
  intros Hn [Hr Ha Hz]. unfold I128.ok in Hn.
  assert (Hin : (I128.MIN <=? n) && (n <=? I128.MAX) = true) by lia.
  assert (Hne : ∃ b ds', ds = b :: ds' ∧ b ≠ "+"%byte ∧ b ≠ "-"%byte).
  { destruct ds as [|b ds]; [by destruct Hz as [|(?&?&?&?)]|]. exists b, ds. split; [done|].
    apply Forall_cons in Ha as [Ha _]. split; intros ->; done. }
  destruct Hne as (b&ds'&->&Hb1&Hb2). unfold from_str_radix. destruct (Z.ltb_spec n 0).
  - rewrite decide_False by done. rewrite bool_decide_eq_true_2 by done. cbn [andb].
    change (I128.MIN <? 0) with true. cbv iota beta. rewrite Hr. cbn [mbind option_bind].
    replace (- Z.abs n) with n by lia. by rewrite Hin.
  - rewrite decide_False by done. rewrite bool_decide_eq_false_2 by done. cbn [andb].
    rewrite Hr. cbn [mbind option_bind]. replace (Z.abs n) with n by lia. by rewrite Hin.
Qed.

Lemma eats_no_fraction start r : ends r → eats (parse_fraction src start) [] r false.
Proof.
  intros Hr. unfold parse_fraction. eapply (eats_read src c); [apply (look_is src)|]. simpl.
  rewrite bool_decide_eq_false_2 by (by apply ends_not). apply eats_ret.
Qed.

Lemma eats_no_exponent start r : ends r → eats (parse_exponent src start) [] r false.
Proof.
  intros Hr. unfold parse_exponent. eapply (eats_read src c); [apply (look_byte src)|]. simpl.
  rewrite decide_False; [apply eats_ret|]. intros [E|E]; revert E; by apply ends_not.
Qed.

Lemma eats_no_trailer start r : ends r → eats (reject_number_trailer src start) [] r tt.
Proof.
  intros Hr. unfold reject_number_trailer. apply look_follower; [done|].
  intros [n|]; [|intros _; apply eats_ret]. intros (Hn&H46&Hi).
  assert (E : is_char_alphanumeric n || (n =? code "_"%byte) || (n =? code "."%byte) = false); [|rewrite E; apply eats_ret].
  change (code "_"%byte) with 95. change (code "."%byte) with 46.
  unfold is_char_alphanumeric, is_char_digit, is_non_identifier_char, is_unicode_space, is_newline_char,
    is_delimiter, is_disallowed_literal in *. lia.
Qed.

(** A sign, its digits and what follows. *)
Lemma eats_decimal start n ds sign r s :
  sign = (if n <? 0 then ["-"%byte] else []) → I128.ok n → digits_of (Z.abs n) ds → ends r →
  good s → ctx s = c → rest s = (sign ++ ds) ++ r → start = index s →
  parse_decimal src start (n <? 0) s = (adv (sign ++ ds) s, Ok (Value.Int n)).
Proof.
  intros Hsign Hn Hds Hr Hs Hc E ->. unfold parse_decimal.
  assert (Hu1 : is_utf8 sign = true) by (subst sign; by destruct (n <? 0)).
  assert (Hda : Forall (λ b, is_ascii_digit b = true) ds) by apply Hds.
  assert (Hsg : eats (if n <? 0 then bump_byte src else mret tt) sign (ds ++ r) tt).
  { subst sign. destruct (n <? 0); [by apply eats_bump_byte|apply eats_ret]. }
  rewrite <- app_assoc in E. rewrite (run_ok _ _ _ _ _ (proj2 Hsg s Hs Hc E)).
  destruct (adv_good src sign (ds ++ r) s Hs E Hu1) as [G1 E1].
  etransitivity; [apply (run_ok get_index _ _ (adv sign s) (index (adv sign s))); done|]. cbv beta.
  pose proof (eats_digits ds r Hda Hr) as [Hu2 Hd].
  rewrite (run_ok _ _ _ _ _ (Hd _ G1 Hc E1)), adv_app.
  destruct (adv_good src ds r _ G1 E1 Hu2) as [G2 E2]. rewrite adv_app in G2, E2.
  etransitivity; [apply (run_ok get_index _ _ (adv (sign ++ ds) s) (index (adv (sign ++ ds) s))); done|]. cbv beta.
  assert (Hlen : index (adv (sign ++ ds) s) ≠ index (adv sign s)).
  { simpl. rewrite len_app. destruct (digits_zero _ _ Hds) as [->|(b&ds'&->&_)]; [change (len (text "0")) with 1; lia|].
    rewrite len_cons. pose proof (len_nonneg ds'). lia. }
  destruct (Z.eqb_spec (index (adv (sign ++ ds) s)) (index (adv sign s))); [done|].
  rewrite (run_ok _ _ _ _ _ (proj2 (eats_no_fraction _ r Hr) _ G2 Hc E2)), adv_nil.
  rewrite (run_ok _ _ _ _ _ (proj2 (eats_no_exponent _ r Hr) _ G2 Hc E2)), adv_nil.
  rewrite (run_ok _ _ _ _ _ (proj2 (eats_no_trailer _ r Hr) _ G2 Hc E2)), adv_nil.
  etransitivity; [apply (run_ok get_index _ _ (adv (sign ++ ds) s) (index (adv (sign ++ ds) s))); done|]. cbv beta.
  rewrite app_assoc in E.
  assert (Hu : is_utf8 (sign ++ ds) = true) by (by rewrite is_utf8_app).
  rewrite (run_ok _ _ _ _ _ (input_slice_adv _ r s _ Hs E Hu)). cbn [orb].
  rewrite no_underscores.
  - pose proof (read_i128 n ds Hn Hds) as Hread. subst sign. destruct (n <? 0); cbn [app]; by rewrite Hread.
  - apply Forall_app. split; [subst sign; destruct (n <? 0); repeat constructor; discriminate|].
    eapply Forall_impl; [exact Hda|]. intros b Hb. by destruct (digit_ascii b Hb) as (_&_&?).
Qed.

Lemma eats_integer n r : I128.ok n → ends r → eats (parse_number src) (format_i128_into n) r (Value.Int n).
Proof.
  intros Hn Hr. destruct (format_i128_digits n Hn) as (ds&Hds&Ef). set (sign := if n <? 0 then ["-"%byte] else []).
  assert (Ef' : format_i128_into n = sign ++ ds) by (rewrite Ef; unfold sign; by destruct (n <? 0)).
  rewrite Ef'. assert (Hda : is_utf8 ds = true) by exact (proj1 (eats_digits ds r (digits_all _ _ Hds) Hr)).
  split; [rewrite is_utf8_app; [done|unfold sign; by destruct (n <? 0)]|]. intros s Hs Hc E.
  unfold parse_number. etransitivity; [apply (run_ok get_index _ s s (index s)); done|]. cbv beta.
  rewrite (run_ok _ _ _ _ _ (remaining_good src s Hs)), E. cbv zeta.
  assert (Hplus : Bytes.starts_with ((sign ++ ds) ++ r) (text "+") = false).
  { unfold sign. destruct (n <? 0); [done|]. by eapply digits_not_sign. }
  assert (Hminus : Bytes.starts_with ((sign ++ ds) ++ r) (text "-") = (n <? 0)).
  { unfold sign. destruct (n <? 0); [|by eapply digits_not_sign]. apply starts_with_true. by eexists. }
  rewrite Hplus, Hminus. cbn [orb].
  assert (Hdrop : drop (Z.to_nat (if n <? 0 then 1 else 0)) ((sign ++ ds) ++ r) = ds ++ r)
    by (unfold sign; by destruct (n <? 0)).
  rewrite Hdrop.
  assert (Hno : ∀ b, is_ascii b = true → is_non_identifier_char (value b) = false → is_ascii_digit b = false →
    Bytes.starts_with (ds ++ r) ["0"%byte; b] = false) by (intros; by eapply no_radix).
  change (text "0x") with ["0"%byte; "x"%byte]. change (text "0X") with ["0"%byte; "X"%byte].
  change (text "0o") with ["0"%byte; "o"%byte]. change (text "0O") with ["0"%byte; "O"%byte].
  change (text "0b") with ["0"%byte; "b"%byte]. change (text "0B") with ["0"%byte; "B"%byte].
  rewrite !Hno by done. cbn [orb]. by apply eats_decimal with r.
Qed.

(** ** Keywords *)

Lemma input_from_adv w r s :
  good s → rest s = w ++ r → is_utf8 w = true → input_from src (index s + len w) = r.
Proof.
  intros Hs E Hw. destruct (adv_good src w r s Hs E Hw) as [[Hi Hu] Er]. unfold input_from, Source.logical_end.
  change (index (adv w s)) with (index s + len w) in *.
  destruct (str_slice_valid input (index s + len w) (len input) valid_input) as (->&_); try lia.
  - exact Hu.
  - rewrite drop_ge; [done|]. unfold len. lia.
  - simpl. by rewrite slice_end.
Qed.

Lemma eats_keyword kw v l r :
  forallb is_ascii kw = true → ends r → eats (keyword_or_raw src simd ((kw, v) :: l)) kw r v.
Proof.
  intros Hkw Hr. assert (Hu : is_utf8 kw = true) by (by apply is_utf8_ascii). cbn [keyword_or_raw].
  eapply (eats_read src c) with true.
  - intros s Hs Hc E. unfold at_keyword. rewrite (run_ok _ _ _ _ _ (starts_with_good src kw s Hs)), E.
    rewrite (proj2 (starts_with_true (kw ++ r) kw)) by eauto. unfold hash_keyword_end.
    etransitivity; [apply (run_ok get_index _ s s (index s)); done|]. cbv beta.
    rewrite (input_from_adv kw r s Hs E Hu). destruct Hr as [_ Hr].
    destruct (next_char r) as [[d t]|]; [|done]. by destruct Hr as [_ ->].
  - apply (eats_then_ret src c _ (λ _, v) kw r tt). by apply eats_advance.
Qed.

Lemma eats_other_keyword kw v' l w r v :
  Bytes.starts_with (w ++ r) kw = false → eats (keyword_or_raw src simd l) w r v →
  eats (keyword_or_raw src simd ((kw, v') :: l)) w r v.
Proof.
  intros Hw Hl. cbn [keyword_or_raw]. eapply (eats_read src c) with false; [|exact Hl].
  intros s Hs Hc E. unfold at_keyword. by rewrite (run_ok _ _ _ _ _ (starts_with_good src kw s Hs)), E, Hw.
Qed.

(** The keywords that the writer prints. *)
Definition keyword_text (v : Value.t) : option (list byte) :=
  match v with
  | Value.Bool true => Some (text "#true")
  | Value.Bool false => Some (text "#false")
  | Value.Null => Some (text "#null")
  | Value.Float (S754_infinity false) None => Some (text "#inf")
  | Value.Float (S754_infinity true) None => Some (text "#-inf")
  | Value.Float S754_nan None => Some (text "#nan")
  | _ => None
  end.

Lemma eats_keyword_value v w r :
  keyword_text v = Some w → ends r → eats (parse_hash_keyword_or_raw_string src simd) w r v.
Proof.
  intros Hw Hr. unfold parse_hash_keyword_or_raw_string, KEYWORDS.
  destruct v as [| |[|[]| |] [|]|[]|]; try discriminate Hw; injection Hw as <-;
    repeat first [by apply eats_keyword | apply eats_other_keyword; [reflexivity|]].
Qed.

End tokens.

(** ** Quoted strings *)

(** ** Hexadecimal digits *)

Lemma hex_digit_read d : 0 <= d < 16 → hex (hex_digit d) = Some d.
Proof.
  intros Hd. assert (H : ∀ n, (n < 16)%nat → hex (hex_digit (Z.of_nat n)) = Some (Z.of_nat n)).
  { intros n Hn. do 16 (destruct n as [|n]; [vm_compute; done|]). lia. }
  rewrite <- (Z2Nat.id d) by lia. apply H. lia.
Qed.

Record hex_of (n : Z) (ds : list byte) : Prop := {
  hex_read : read_digits 16 0 ds = Some n;
  hex_all : Forall (λ b, is_Some (hex b)) ds;
  hex_len : ds ≠ [] ∧ 16 ^ (len ds - 1) <= Z.max n 1 }.

Lemma hex_digits_of fuel n : 0 < n < 16 ^ Z.of_nat fuel → hex_of n (hex_digits fuel n).
Proof.
  revert n. induction fuel as [|fuel IH]; intros n Hn; [simpl in Hn; lia|]. cbn [hex_digits].
  destruct (Z.ltb_spec 0 n); [|lia].
  assert (El : Z.land n 15 = n mod 16) by (change 15 with (Z.ones 4); by rewrite Z.land_ones).
  assert (Es : Z.shiftr n 4 = n / 16) by (by rewrite Z.shiftr_div_pow2).
  rewrite El, Es. pose proof (Z.mod_pos_bound n 16 ltac:(lia)) as Hm. pose proof (Z.div_mod n 16 ltac:(lia)) as Ed.
  rewrite Nat2Z.inj_succ, Z.pow_succ_r in Hn by lia.
  assert (Hq : 0 <= n / 16 < 16 ^ Z.of_nat fuel) by (split; [apply Z.div_pos; lia|apply Z.div_lt_upper_bound; lia]).
  pose proof (hex_digit_read _ Hm) as Eh. destruct (Z.eq_dec (n / 16) 0) as [E0|E0].
  - assert (E : hex_digits fuel (n / 16) = []) by (rewrite E0; by destruct fuel). rewrite E. cbn [app].
    split; [|by repeat constructor; rewrite Eh|].
    + cbn [read_digits]. rewrite Eh. destruct (Z.ltb_spec (n mod 16) 16); [f_equal; lia|lia].
    + split; [done|]. change (len [hex_digit (n mod 16)] - 1) with 0. lia.
  - destruct (IH (n / 16) ltac:(lia)) as [Hr Ha [Hne Hl]]. split.
    + rewrite read_digits_app, Hr. cbn [mbind option_bind read_digits]. rewrite Eh.
      destruct (Z.ltb_spec (n mod 16) 16); [f_equal; lia|lia].
    + apply Forall_app. split; [done|]. repeat constructor. by rewrite Eh.
    + split; [by destruct (hex_digits fuel (n / 16))|]. rewrite len_app, len_cons, len_nil.
      replace (len (hex_digits fuel (n / 16)) + (1 + 0) - 1) with (Z.succ (len (hex_digits fuel (n / 16)) - 1)) by lia.
      assert (1 <= len (hex_digits fuel (n / 16))).
      { destruct (hex_digits fuel (n / 16)) as [|b l]; [done|]. rewrite len_cons. pose proof (len_nonneg l). lia. }
      rewrite Z.pow_succ_r by lia. lia.
Qed.

(** The digits of an escaped character, and that they stand for it. *)
Definition escape_digits (c : Z) : list byte := if c =? 0 then text "0" else hex_digits 8 c.

Lemma escape_digits_of c : scalar c → hex_of c (escape_digits c) ∧ 1 <= len (escape_digits c) <= 6.
Proof.
  intros Hc%scalar_range. unfold escape_digits. destruct (Z.eqb_spec c 0) as [->|].
  - split; [|vm_compute; done]. split; [done|by repeat constructor|split; [done|vm_compute; done]].
  - assert (H : hex_of c (hex_digits 8 c)) by (apply hex_digits_of; change (16 ^ Z.of_nat 8) with 4294967296; lia).
    split; [done|]. destruct H as [_ _ [Hne Hl]].
    assert (1 <= len (hex_digits 8 c)).
    { destruct (hex_digits 8 c) as [|b l]; [done|]. rewrite len_cons. pose proof (len_nonneg l). lia. }
    split; [lia|]. destruct (Z.le_gt_cases (len (hex_digits 8 c)) 6) as [|Hgt]; [done|].
    assert (16 ^ 6 <= 16 ^ (len (hex_digits 8 c) - 1)) by (apply Z.pow_le_mono_r; lia).
    change (16 ^ 6) with 16777216 in *. lia.
Qed.

Lemma unicode_scalar_digits c : scalar c → unicode_scalar (escape_digits c) = Some c.
Proof.
  intros Hc. destruct (escape_digits_of c Hc) as [[Hr Ha [Hne _]] _]. pose proof (scalar_range c Hc) as Hb.
  unfold unicode_scalar, from_str_radix. destruct (escape_digits c) as [|b ds]; [done|].
  apply Forall_cons in Ha as [[d Ha] _].
  rewrite decide_False by (intros ->; done). rewrite andb_false_r. cbv iota beta. rewrite Hr. cbn [mbind option_bind].
  assert (E : (0 <=? c) && (c <=? U32.MAX) = true) by (unfold U32.MAX; lia). rewrite E. cbn [mbind option_bind].
  assert (E2 : ((55296 <=? c) && (c <=? 57343)) || (1114111 <? c) = false) by lia. rewrite E2.
  unfold scalar in Hc. by rewrite Hc.
Qed.

(** ** Characters and their escapes *)

Definition plain (b : byte) : Prop := Swar.is_quote_or_escape b = false.

(** The characters that [write_quoted] escapes. *)
Definition escaped (c : Z) : bool :=
  (c =? 34) || (c =? 92) || (c =? 10) || (c =? 13) || (c =? 9) || (c =? 8) || (c =? 12)
  || is_control c || is_disallowed_literal c.

Lemma plain_value b : value b ≠ 34 → value b ≠ 92 → plain b.
Proof. unfold plain, Swar.is_quote_or_escape, Swar.QUOTE, Swar.BACKSLASH. lia. Qed.

Lemma encode_plain c : scalar c → c ≠ 34 → c ≠ 92 → Forall plain (encode_utf8 c).
Proof.
  intros Hc H1 H2. pose proof (scalar_range c Hc) as [Hr _].
  destruct (encode_encoded c Hc); repeat constructor; apply plain_value; try lia;
    repeat match goal with H : value _ = _ |- _ => rewrite H; clear H end; div_lia.
Qed.

Lemma hex_plain b : is_Some (hex b) → plain b.
Proof. intros [d Hd]. apply plain_value; intros E; unfold hex, is_ascii_digit, in_range in Hd; rewrite E in Hd; done. Qed.

Lemma escape_plain c : escaped c = false → escape_text c = encode_utf8 c.
Proof.
  unfold escaped, escape_text. intros H. repeat (apply orb_false_iff in H as [H ?]).
  repeat match goal with E : (_ =? _) = false |- _ => rewrite E; clear E end.
  repeat match goal with E : _ = false |- _ => rewrite E; clear E end. done.
Qed.

(** An escape is a backslash, a letter and for the others the digits. *)
Definition is_escape (c : Z) (t : list byte) : Prop :=
  (∃ b, t = ["\"%byte; b] ∧ is_ascii b = true ∧ simple_escape (value b) = Some c)
  ∨ t = text "\u{" ++ escape_digits c ++ text "}".

Lemma escape_is_escape c : escaped c = true → is_escape c (escape_text c).
Proof.
  intros H. unfold escape_text.
  destruct (Z.eqb_spec c 34) as [->|]; [left; exists Byte.x22; done|].
  destruct (Z.eqb_spec c 92) as [->|]; [left; exists "\"%byte; done|].
  destruct (Z.eqb_spec c 10) as [->|]; [left; exists "n"%byte; done|].
  destruct (Z.eqb_spec c 13) as [->|]; [left; exists "r"%byte; done|].
  destruct (Z.eqb_spec c 9) as [->|]; [left; exists "t"%byte; done|].
  destruct (Z.eqb_spec c 8) as [->|]; [left; exists "b"%byte; done|].
  destruct (Z.eqb_spec c 12) as [->|]; [left; exists "f"%byte; done|].
  unfold escaped in H. destruct (is_control c || is_disallowed_literal c) eqn:E; [by right|].
  apply orb_false_iff in E as [E1 E2]. rewrite E1, E2 in H. lia.
Qed.

Lemma escape_shape c : scalar c → is_escape c (escape_text c) →
  ∃ b u, escape_text c = "\"%byte :: b :: u ∧ Forall plain u ∧ is_utf8 (escape_text c) = true
    ∧ len (encode_utf8 c) <= len (escape_text c).
Proof.
  intros Hc [(b&->&Hb&Hs)| ->].
  - exists b, []. split_and!; [done|done|simpl; by rewrite Hb|].
    assert (Hr : c < 128).
    { unfold simple_escape in Hs. repeat (destruct (_ =? _); [injection Hs as <-; done|]). done. }
    rewrite encode_ascii by (apply scalar_range in Hc; lia). by vm_compute.
  - destruct (escape_digits_of c Hc) as [[_ Ha _] Hl]. exists "u"%byte, ("{"%byte :: escape_digits c ++ text "}").
    split_and!; [done|..].
    + constructor; [done|]. apply Forall_app. split; [|by repeat constructor].
      eapply Forall_impl; [exact Ha|]. apply hex_plain.
    + apply is_utf8_ascii. rewrite !forallb_app. simpl. rewrite andb_true_r. apply forallb_forall.
      intros b Hb%list_elem_of_In. rewrite Forall_forall in Ha. by apply hex_ascii, Ha.
    + rewrite !len_app. change (len (text "\u{")) with 3. change (len (text "}")) with 1.
      destruct (len_encode_utf8 c Hc) as [-> _]. unfold len_utf8. repeat (destruct (_ <? _)); lia.
Qed.

(** The body of a quoted string. *)
Definition body_text (cs : list Z) : list byte := concat (escape_text <$> cs).

Lemma escape_cases c : scalar c →
  (escaped c = false ∧ escape_text c = encode_utf8 c ∧ c ≠ 34 ∧ c ≠ 92) ∨ (escaped c = true ∧ is_escape c (escape_text c)).
Proof.
  intros Hc. destruct (escaped c) eqn:E; [right; split; [done|by apply escape_is_escape]|].
  left. split; [done|]. split; [by apply escape_plain|]. unfold escaped in E. lia.
Qed.

Lemma body_utf8 cs : Forall scalar cs → is_utf8 (body_text cs) = true ∧ len (utf8 cs) <= len (body_text cs).
Proof.
  induction 1 as [|c cs Hc Hcs [IHu IHl]]; [done|]. unfold body_text in *. rewrite fmap_cons. cbn [concat].
  rewrite utf8_cons, !len_app. destruct (escape_cases c Hc) as [(_&->&_)|[_ He]].
  - rewrite is_utf8_encode by done. split; [done|lia].
  - destruct (escape_shape c Hc He) as (b&u&_&_&Hu&Hl). rewrite is_utf8_app by done. split; [done|lia].
Qed.

(** Strings that the writer prints on one line: the writer leaves two of the
    newlines of KDL as they are. *)
Definition one_line (cs : list Z) : Prop := Forall (λ d, d ≠ 8232 ∧ d ≠ 8233) cs.

Section strings.

Context (src : Source.t) {Hsrc : ValidSource src} (simd : bool).

#[local] Abbreviation input := (Source.input src).

#[local] Abbreviation good := (KdlCursor.good src).

#[local] Abbreviation rest := (KdlCursor.rest src).

(** ** The scan for the closing quote *)

Lemma prefix_len_plain w b l : Forall plain w → Swar.is_quote_or_escape b = true →
  prefix_len Swar.is_quote_or_escape (w ++ b :: l) = len w.
Proof.
  intros Hw Hb. induction Hw as [|x w Hx Hw IH]; cbn [app prefix_len]; [by rewrite Hb|].
  rewrite Hx, IH, len_cons. lia.
Qed.

Lemma special_at i w b t :
  0 <= i → drop (Z.to_nat i) input = w ++ b :: t → Forall plain w → Swar.is_quote_or_escape b = true →
  Swar.find_quote_or_escape_fast simd (Source.bytes src) i (Source.logical_end src) = i + len w
  ∧ i + len w < len input ∧ Source.bytes src !! Z.to_nat (i + len w) = Some b.
Proof.
  intros Hi E Hw Hb. destruct valid_bytes as [padding Eb]. pose proof (len_nonneg padding). pose proof (len_nonneg w).
  pose proof (len_nonneg t).
  assert (L : len w + (1 + len t) = Z.max 0 (len input - i)).
  { rewrite <- (len_cons b), <- len_app, <- E. unfold len. rewrite length_drop. lia. }
  assert (Hlt : i + len w < len input) by lia.
  assert (Ed : drop (Z.to_nat i) (Source.bytes src) = w ++ b :: t ++ padding).
  { rewrite Eb, drop_app_le by (unfold len in *; lia). by rewrite E, <- app_assoc. }
  split_and!; [|done|].
  - rewrite find_quote_or_escape_fast_exact; [|done|unfold Source.logical_end; rewrite Eb, len_app; lia].
    unfold find_ref. rewrite Ed, prefix_len_plain by done. unfold Source.logical_end. rewrite Eb, len_app. lia.
  - replace (Z.to_nat (i + len w)) with (Z.to_nat i + length w)%nat by (unfold len; lia).
    rewrite <- lookup_drop, Ed. rewrite lookup_app_r by lia. by rewrite Nat.sub_diag.
Qed.

(** What the scan does at the closing quote. *)
Definition close (start special : Z) (needs_unescape : bool) : Parse KdlStr :=
  raw ← input_slice src start special;
  if negb needs_unescape then
    if existsb is_newline_char (chars raw) then err_at src ErrorCode.Syntax start
    else
      match list_find (λ c, is_disallowed_literal c = true) (chars raw) with
      | Some (pos, _) =>
          err_at src ErrorCode.DisallowedCodePoint (start + zsum (len_utf8 <$> take pos (chars raw)))
      | None => put_index (special + 1);; mret raw
      end
  else put_index start;; unescape_quoted_until src.

Lemma quoted_loop_special fuel start i needs w b t s :
  0 <= i → drop (Z.to_nat i) input = w ++ b :: t → Forall plain w → Swar.is_quote_or_escape b = true →
  quoted_loop src simd (S fuel) start i needs s
  = (if decide (b = "\"%byte) then quoted_loop src simd fuel start (i + len w + 2) true
     else close start (i + len w) needs) s.
Proof.
  intros Hi E Hw Hb. destruct (special_at i w b t Hi E Hw Hb) as (Es&Hlt&Hl). cbn [quoted_loop].
  pose proof (len_nonneg w). unfold Source.logical_end in *. destruct (Z.ltb_spec i (len input)); [|lia].
  rewrite Es. destruct (Z.leb_spec (len input) (i + len w)); [lia|].
  etransitivity; [apply (run_ok _ _ s s b); by rewrite Hl|]. cbv beta.
  case_decide as Hbs; [done|]. rewrite decide_True; [done|].
  apply byte_value_inj. change (value Byte.x22) with 34. unfold Swar.is_quote_or_escape, Swar.QUOTE, Swar.BACKSLASH in Hb.
  destruct (Z.eqb_spec (value b) 92) as [Ev|]; [|lia]. exfalso. apply Hbs, byte_value_inj. exact Ev.
Qed.

Lemma quoted_loop_body cs fuel start i needs w t s :
  Forall scalar cs → 0 <= i → drop (Z.to_nat i) input = w ++ body_text cs ++ Byte.x22 :: t → Forall plain w →
  (length (body_text cs) < fuel)%nat →
  quoted_loop src simd fuel start i needs s
  = close start (i + len w + len (body_text cs)) (needs || existsb escaped cs) s.
Proof.
  intros Hcs. revert fuel i needs w. induction Hcs as [|c cs Hc Hcs IH]; intros [|fuel] i needs w Hi E Hw Hf; try lia.
  - rewrite (quoted_loop_special _ _ _ _ w Byte.x22 t) by done. rewrite decide_False by done.
    cbn [existsb]. rewrite orb_false_r. change (len (body_text [])) with 0. by rewrite Z.add_0_r.
  - unfold body_text in E, Hf |- *. rewrite fmap_cons in *. cbn [concat existsb] in *. fold (body_text cs) in *.
    destruct (escape_cases c Hc) as [(He&Et&H1&H2)|[He Ht]]; rewrite He.
    + rewrite Et in *. rewrite (IH (S fuel) i needs (w ++ encode_utf8 c)); [|done|by rewrite E, <- !app_assoc|..].
      * cbn [orb]. rewrite !len_app. f_equal. lia.
      * apply Forall_app. split; [done|by apply encode_plain].
      * rewrite length_app in Hf. lia.
    + destruct (escape_shape c Hc Ht) as (b&u&Eu&Hu&_&_). rewrite Eu in *. cbn [app] in E.
      rewrite (quoted_loop_special _ _ _ _ w "\"%byte (b :: (u ++ body_text cs) ++ Byte.x22 :: t)) by done.
      rewrite decide_True by done. pose proof (len_nonneg w). rewrite (IH fuel (i + len w + 2) true u); [|lia| |done|].
      * rewrite orb_true_r. cbn [orb app]. rewrite !len_cons, len_app. f_equal. lia.
      * replace (Z.to_nat (i + len w + 2)) with (Z.to_nat i + (length w + 2))%nat by (unfold len; lia).
        rewrite <- drop_drop, E, <- drop_drop, drop_app_length. cbn [drop app]. by rewrite <- app_assoc.
      * cbn [app length] in Hf. rewrite length_app in Hf. lia.
Qed.

(** ** Without escapes *)

Lemma not_escaped cs :
  existsb escaped cs = false → one_line cs →
  body_text cs = utf8 cs ∧ existsb is_newline_char cs = false ∧ Forall (λ d, is_disallowed_literal d = false) cs.
Proof.
  intros He Ho. induction Ho as [|d cs [H1 H2] Ho IH]; [done|]. cbn [existsb] in *.
  apply orb_false_iff in He as [Hd He]. destruct (IH He) as (Eb&En&Ed).
  unfold body_text in *. rewrite fmap_cons. cbn [concat]. rewrite Eb, escape_plain, utf8_cons by done.
  unfold escaped in Hd. apply orb_false_iff in Hd as [Hd Hdis]. split_and!; [done| |by constructor].
  rewrite En, orb_false_r. unfold is_control in Hd. unfold is_newline_char. lia.
Qed.

Lemma close_raw cs r s :
  good s → Forall scalar cs → rest s = body_text cs ++ Byte.x22 :: r → existsb escaped cs = false → one_line cs →
  close (index s) (index s + len (body_text cs)) false s = (adv (body_text cs ++ [Byte.x22]) s, Ok (utf8 cs)).
Proof.
  intros Hs Hcs E He Ho. destruct (not_escaped cs He Ho) as (Eb&En&Ed). rewrite Eb in *. unfold close.
  rewrite (run_ok _ _ _ _ _ (input_slice_adv src (utf8 cs) _ s s Hs E (utf8_valid _ Hcs))). cbn [negb].
  rewrite chars_utf8, En by done.
  assert (Ef : list_find (λ c, is_disallowed_literal c = true) cs = None).
  { apply list_find_None. eapply Forall_impl; [exact Ed|]. intros x Hx. by rewrite Hx. }
  rewrite Ef. unfold adv. rewrite len_app. change (len [Byte.x22]) with 1. by rewrite Z.add_assoc.
Qed.

(** ** With escapes *)

(** [t] is pushed to the scratch buffer. *)
Definition grow (t : list byte) (s : Cursor.t) : Cursor.t :=
  set_ctx (Context.set_scratch (Context.scratch (ctx s) ++ t) (ctx s)) s.

Lemma grow_adv t w s : grow t (adv w s) = adv w (grow t s).
Proof. done. Qed.

Lemma grow_grow t u s : grow u (grow t s) = grow (t ++ u) s.
Proof. unfold grow. simpl. by rewrite <- app_assoc. Qed.

Lemma good_grow t s : good s → good (grow t s).
Proof. done. Qed.

Lemma eats_hex_loop c fuel ds r :
  Forall (λ b, is_Some (hex b)) ds → (length (ds ++ "}"%byte :: r) < fuel)%nat →
  eats src c (hex_loop src fuel) ds ("}"%byte :: r) tt.
Proof.
  intros Hds. revert fuel. induction Hds as [|b ds Hb Hds IH]; intros [|fuel] Hf; try lia; cbn [hex_loop].
  - eapply (eats_read src c); [apply (look_byte src)|]. apply eats_ret.
  - eapply (eats_read src c); [apply (look_byte src)|]. cbn [head app]. rewrite bool_decide_eq_true_2 by done.
    apply (eats_bind src c _ _ [b] ds _ tt); [by apply eats_bump_byte, hex_ascii|]. apply IH. simpl in Hf. lia.
Qed.

Lemma interpret_escape_runs d e r s :
  good s → scalar d → is_escape d ("\"%byte :: e) → rest s = e ++ r →
  interpret_escape src s = (adv e (grow (encode_utf8 d) s), Ok tt).
Proof.
  intros Hs Hd He E. unfold interpret_escape. destruct He as [(b&Eb&Ha&Hb)|Ee].
  - injection Eb as ->. rewrite (run_ok _ _ _ _ _ (proj2 (eats_bump_ascii src (ctx s) b r Ha) s Hs eq_refl E)).
    by rewrite Hb.
  - injection Ee as ->. destruct (escape_digits_of d Hd) as [[_ Hall _] Hlen].
    set (ds := escape_digits d) in *.
    cbn [app] in E. rewrite <- app_assoc in E.
    rewrite (run_ok _ _ _ _ _ (proj2 (eats_bump_ascii src (ctx s) "u"%byte _ eq_refl) s Hs eq_refl E)).
    destruct (adv_good src ["u"%byte] _ s Hs E eq_refl) as [G1 E1].
    change (simple_escape (value "u"%byte)) with (@None Z). cbv iota.
    change (value "u"%byte =? code "u"%byte) with true. cbv iota.
    rewrite (run_ok _ _ _ _ _ (peek_is_good src _ _ G1)), E1. rewrite bool_decide_eq_true_2 by done. cbn [negb].
    rewrite (run_ok _ _ _ _ _ (proj2 (eats_bump_byte src (ctx s) "{"%byte _ eq_refl) _ G1 eq_refl E1)), adv_app.
    destruct (adv_good src ["{"%byte] _ _ G1 E1 eq_refl) as [G2 E2]. rewrite adv_app in G2, E2.
    etransitivity; [apply (run_ok get_index _ _ (adv (text "u{") s) (index (adv (text "u{") s))); done|]. cbv beta.
    assert (Hloop : eats src (ctx s) (hex_loop src (steps src)) ds ("}"%byte :: r) tt)
      by (apply (eats_steps src (ctx s) (hex_loop src)); intros; by apply eats_hex_loop).
    change (["u"%byte] ++ ["{"%byte]) with (text "u{") in *.
    rewrite (run_ok _ _ _ _ _ (proj2 Hloop _ G2 eq_refl E2)), adv_app.
    destruct (adv_good src ds _ _ G2 E2 (proj1 Hloop)) as [G3 E3].
    rewrite (adv_app (text "u{") ds) in G3, E3.
    rewrite (run_ok _ _ _ _ _ (peek_is_good src _ _ G3)), E3. rewrite bool_decide_eq_true_2 by done. cbn [negb].
    etransitivity; [apply (run_ok get_index _ _ (adv (text "u{" ++ ds) s) (index (adv (text "u{" ++ ds) s))); done|]. cbv beta.
    pose proof (input_slice_adv src ds _ _ (adv (text "u{" ++ ds) s) G2 E2 (proj1 Hloop)) as Hsl.
    rewrite (adv_app (text "u{") ds) in Hsl. rewrite (run_ok _ _ _ _ _ Hsl).
    replace ((len ds =? 0) || (6 <? len ds)) with false by lia.
    unfold ds at 1. rewrite unicode_scalar_digits by done. fold ds.
    rewrite (run_ok _ _ _ _ _ (proj2 (eats_bump_byte src (ctx s) "}"%byte _ eq_refl) _ G3 eq_refl E3)), adv_app.
    unfold push, update_ctx, modify. by rewrite <- app_assoc.
Qed.

Lemma unescape_loop_body cs fuel s r :
  Forall scalar cs → one_line cs → good s → rest s = body_text cs ++ Byte.x22 :: r →
  (length (rest s) < fuel)%nat →
  unescape_loop src fuel s = (adv (body_text cs ++ [Byte.x22]) (grow (utf8 cs) s), Ok tt).
Proof.
  intros Hcs. revert fuel s. induction Hcs as [|d cs Hd Hcs IH]; intros [|fuel] s Ho Hs E Hf; try lia; cbn [unescape_loop];
    rewrite (run_ok _ _ _ _ _ (eof_good src s Hs)).
  - rewrite bool_decide_eq_false_2 by (by rewrite E).
    rewrite (run_ok _ _ _ _ _ (proj2 (eats_bump_ascii src (ctx s) Byte.x22 r eq_refl) s Hs eq_refl E)).
    unfold grow. rewrite app_nil_r. by destruct s as [i []].
  - unfold body_text in *. rewrite fmap_cons in *. cbn [concat] in *. fold (body_text cs) in *.
    apply Forall_cons in Ho as [Hd1 Ho]. rewrite <- app_assoc in E.
    destruct (escape_cases d Hd) as [(He&Et&H1&H2)|[He Ht]].
    + rewrite Et in *. pose proof (adv_good src (encode_utf8 d) _ s Hs E) as Hadv.
      destruct Hadv as [G1 E1]; [rewrite <- (app_nil_r (encode_utf8 d)); by rewrite is_utf8_encode|].
      assert (Hne : encode_utf8 d ++ body_text cs ++ Byte.x22 :: r ≠ []).
      { destruct (len_encode_utf8 d Hd) as [L ?]. intros E0. apply app_eq_nil in E0 as [E0 _]. rewrite E0 in L.
        rewrite len_nil in L. lia. }
      rewrite bool_decide_eq_false_2 by (by rewrite E).
      rewrite (run_ok _ _ _ _ _ (proj2 (eats_bump_char src (ctx s) d _ Hd) s Hs eq_refl E)).
      change (code Byte.x22) with 34. change (code "\"%byte) with 92.
      destruct (Z.eqb_spec d 34); [done|]. destruct (Z.eqb_spec d 92); [done|].
      unfold escaped in He. apply orb_false_iff in He as [He Hdis]. rewrite Hdis.
      assert (Hnl : is_newline_char d = false) by (unfold is_control in He; unfold is_newline_char; lia).
      rewrite Hnl. etransitivity; [apply (run_ok _ _ _ (grow (encode_utf8 d) (adv (encode_utf8 d) s)) tt); done|].
      rewrite (IH fuel) by (try done; change (rest (grow _ ?x)) with (rest x); rewrite E1, <- Et in *;
        rewrite E, length_app in Hf; destruct (len_encode_utf8 d Hd); unfold len in *; rewrite Et in Hf; lia).
      rewrite !grow_adv, grow_grow, adv_app, <- utf8_cons, <- app_assoc. done.
    + destruct (escape_shape d Hd Ht) as (b&u&Eu&_&Hu&_). rewrite Eu in *.
      cbn [app] in E. rewrite bool_decide_eq_false_2 by (by rewrite E).
      rewrite (run_ok _ _ _ _ _ (proj2 (eats_bump_ascii src (ctx s) "\"%byte _ eq_refl) s Hs eq_refl E)).
      change (value "\"%byte =? code Byte.x22) with false. change (value "\"%byte =? code "\"%byte) with true. cbv iota.
      destruct (adv_good src ["\"%byte] _ s Hs E eq_refl) as [G1 E1].
      assert (Hu' : is_utf8 (b :: u) = true) by exact Hu.
      rewrite (run_ok _ _ _ _ _ (interpret_escape_runs d (b :: u) _ _ G1 Hd Ht E1)).
      destruct (adv_good src (b :: u) _ _ (good_grow (encode_utf8 d) _ G1) E1 Hu') as [G2 E2].
      rewrite (IH fuel) by (try done; rewrite E2; rewrite E in Hf; cbn [length] in Hf; rewrite length_app in Hf; lia).
      rewrite !grow_adv, grow_grow, !adv_app, <- utf8_cons. f_equal. f_equal. cbn [app]. by rewrite <- app_assoc.
Qed.

Lemma grow_done t s : Context.scratch (ctx s) = [] → set_ctx (Context.set_scratch [] (ctx (grow t s))) (grow t s) = s.
Proof. destruct s as [i []]. simpl. intros ->. done. Qed.

Lemma unescape_runs cs s r :
  Forall scalar cs → one_line cs → good s → rest s = body_text cs ++ Byte.x22 :: r → roomy src (ctx s) →
  unescape_quoted_until src s = (adv (body_text cs ++ [Byte.x22]) s, Ok (utf8 cs)).
Proof.
  intros Hcs Ho Hs E [Hsc Hroom]. unfold unescape_quoted_until.
  etransitivity; [apply (run_ok _ _ s s tt); unfold update_ctx, modify, Context.clear_scratch; destruct s as [i []];
    simpl in Hsc; by rewrite Hsc|]. cbv beta.
  rewrite (run_ok _ _ _ _ _ (unescape_loop_body cs (steps src) s r Hcs Ho Hs E
    ltac:(unfold KdlCursor.rest, steps; rewrite length_drop; lia))).
  set (t := adv (body_text cs ++ [Byte.x22]) (grow (utf8 cs) s)).
  etransitivity; [apply (run_ok get_ctx _ t t (ctx (grow (utf8 cs) s))); done|]. cbv beta.
  change (Context.scratch (ctx (grow (utf8 cs) s))) with (Context.scratch (ctx s) ++ utf8 cs). rewrite Hsc. cbn [app].
  destruct (body_utf8 cs Hcs) as [_ Hl]. pose proof (len_rest src s Hs) as L.
  rewrite E, len_app, len_cons in L. pose proof (len_nonneg r). destruct Hs as [Hi _].
  change (Context.max_string_len (ctx (grow (utf8 cs) s))) with (Context.max_string_len (ctx s)).
  destruct (Z.ltb_spec (Context.max_string_len (ctx s)) (len (utf8 cs))); [lia|].
  etransitivity; [apply (run_ok _ _ t (adv (body_text cs ++ [Byte.x22]) s) tt)|done].
  transitivity (adv (body_text cs ++ [Byte.x22])
      (set_ctx (Context.set_scratch [] (ctx (grow (utf8 cs) s))) (grow (utf8 cs) s)), Ok tt : Outcome ErrorCtx.t unit);
    [done|by rewrite grow_done].
Qed.

(** ** The whole string *)

Lemma quoted_utf8 cs : Forall scalar cs → is_utf8 (quoted_text (utf8 cs)) = true.
Proof.
  intros Hcs. unfold quoted_text. rewrite chars_utf8 by done. rewrite is_utf8_app by done.
  fold (body_text cs). by rewrite is_utf8_app by (by apply body_utf8).
Qed.

Lemma eats_quoted c cs r :
  roomy src c → Forall scalar cs → one_line cs → ends r →
  eats src c (parse_quoted_string src simd) (quoted_text (utf8 cs)) r (utf8 cs).
Proof.
  intros Hroom Hcs Ho Hr. split; [by apply quoted_utf8|]. intros s Hs Hc E. unfold quoted_text in *.
  rewrite chars_utf8 in * by done. fold (body_text cs) in *. cbn [app] in E. rewrite <- app_assoc in E. cbn [app] in E.
  unfold parse_quoted_string.
  assert (Ht : Bytes.starts_with (Byte.x22 :: body_text cs ++ Byte.x22 :: r) TRIPLE = false).
  { destruct (Bytes.starts_with _ _) eqn:Et; [|done]. exfalso. apply starts_with_true in Et as [t Et].
    change TRIPLE with [Byte.x22; Byte.x22; Byte.x22] in Et. injection Et as Et. destruct cs as [|d cs].
    - injection Et as ->. by destruct (ends_byte _ Byte.x22 Hr eq_refl eq_refl) as [_ ?].
    - apply Forall_cons in Hcs as [Hd _]. unfold body_text in Et. rewrite fmap_cons in Et. cbn [concat] in Et.
      destruct (escape_cases d Hd) as [(_&Ed&H1&H2)|[_ He]].
      + rewrite Ed in Et. pose proof (encode_plain d Hd H1 H2) as Hp. destruct (encode_utf8_shape d Hd) as (b&l&El&_).
        rewrite El in Et, Hp. injection Et as -> _. apply Forall_cons in Hp as [Hp _]. done.
      + destruct (escape_shape d Hd He) as (b&u&Eu&_). rewrite Eu in Et. injection Et as Eb _. done. }
  rewrite (run_ok _ _ _ _ _ (starts_with_good src TRIPLE s Hs)), E, Ht.
  rewrite (run_ok _ _ _ _ _ (peek_is_good src _ s Hs)), E, bool_decide_eq_true_2 by done. cbn [negb].
  rewrite (run_ok _ _ _ _ _ (proj2 (eats_bump_byte src c Byte.x22 _ eq_refl) s Hs Hc E)).
  destruct (adv_good src [Byte.x22] _ s Hs E eq_refl) as [G1 E1].
  etransitivity; [apply (run_ok get_index _ _ (adv [Byte.x22] s) (index (adv [Byte.x22] s))); done|]. cbv beta.
  set (s1 := adv [Byte.x22] s) in *.
  rewrite (quoted_loop_body cs (steps src) (index s1) (index s1) false [] r s1 Hcs); [|apply G1|exact E1|done|].
  - change (len []) with 0. rewrite Z.add_0_r. cbn [orb]. destruct (existsb escaped cs) eqn:He.
    + unfold close. destruct (body_utf8 cs Hcs) as [Hu _].
      rewrite (run_ok _ _ _ _ _ (input_slice_adv src (body_text cs) _ s1 s1 G1 E1 Hu)). cbn [negb].
      etransitivity; [apply (run_ok _ _ s1 s1 tt); by destruct s1|]. cbv beta.
      rewrite (unescape_runs cs s1 r) by (try done; unfold s1; simpl; by rewrite Hc).
      unfold s1. by rewrite adv_app.
    + rewrite (close_raw cs r s1 G1 Hcs E1 He Ho). unfold s1. by rewrite adv_app.
  - pose proof (len_rest src s1 G1) as L. rewrite E1, len_app in L. destruct G1 as [? _].
    pose proof (len_nonneg (Byte.x22 :: r)). unfold steps, len in *. lia.
Qed.

End strings.
