(* ===== verification/KdlEntries.v ===== *)
(** * Reading back: values, types and entries

    What [value_text], [type_text] and the entries of a node print, read by the
    methods of [KdlParser] that take values, types, arguments and
    properties. *)

From Stdlib Require Import Strings.String Strings.Byte Floats.SpecFloat.
From S2P Require Import Prelude Codec Bytes KdlSwar KdlChars KdlValue KdlParser KdlCursor KdlWrite KdlTokens.

Import Cursor.

(** ** What can be read back *)

(** Names and types: the scan for white space takes an exclamation mark, and
    two of the newlines of KDL are not escaped. *)
Definition readable (s : list byte) : bool :=
  is_utf8 s
  && (if is_bare_ident s then bool_decide (head s ≠ Some "!"%byte)
      else forallb (λ d, negb ((d =? 8232) || (d =? 8233))) (chars s)).

(** Strings and keys, which must not look like numbers. *)
Definition readable_word (s : list byte) : bool :=
  readable s
  && negb (is_bare_ident s && (Bytes.starts_with s (text "+inf") || Bytes.starts_with s (text "-inf"))).

Definition readable_type (ty : option KdlStr) : bool :=
  match ty with Some ty => readable ty | None => true end.

Definition readable_value (v : Value.t) : bool :=
  match v with
  | Value.String s => readable_word s
  | Value.Int n => (I128.MIN <=? n) && (n <=? I128.MAX)
  | _ => bool_decide (is_Some (keyword_text v))
  end.

Definition readable_entry (e : Entry.t) : bool :=
  match e with
  | Entry.Argument ty v => readable_type ty && readable_value v
  | Entry.Property key ty v => readable_word key && readable_type ty && readable_value v
  end.

(** ** How texts begin *)

Definition begins (P : Z → Prop) (w : list byte) : Prop :=
  ∃ d t, scalar d ∧ P d ∧ w = encode_utf8 d ++ t ∧ is_utf8 t = true.

(** Names, values and types. *)
Definition word_start (d : Z) : Prop := d = 34 ∨ (is_non_identifier_char d = false ∧ d ≠ 33).

Definition value_start (d : Z) : Prop := d = 35 ∨ word_start d.

Definition entry_start (d : Z) : Prop := d = 40 ∨ value_start d.

Lemma begins_utf8 P w : begins P w → is_utf8 w = true.
Proof. intros (d&t&Hd&_&->&Ht). by rewrite is_utf8_encode. Qed.

Lemma begins_app P w r : begins P w → is_utf8 r = true → begins P (w ++ r).
Proof.
  intros (d&t&Hd&HP&->&Ht) Hr. exists d, (t ++ r). split_and!; [done|done|by rewrite app_assoc|].
  by rewrite is_utf8_app.
Qed.

Lemma begins_mono (P Q : Z → Prop) w : begins P w → (∀ d, P d → Q d) → begins Q w.
Proof. intros (d&t&Hd&HP&->&Ht) HPQ. exists d, t. auto. Qed.

Lemma begins_ascii P b w : is_ascii b = true → P (value b) → is_utf8 w = true → begins P (b :: w).
Proof.
  intros Hb HP Hw. exists (value b), w. pose proof (value_range b). split_and!; [|done| |done].
  - unfold scalar, is_scalar, is_ascii in *. lia.
  - rewrite encode_ascii by (unfold is_ascii in Hb; lia). by rewrite byte_of_value.
Qed.

Lemma begins_next P w : begins P w → ∃ d t, next_char w = Some (d, t) ∧ P d.
Proof. intros (d&t&Hd&HP&->&Ht). exists d, t. by rewrite next_char_encode. Qed.

Lemma begins_nonempty P w : begins P w → w ≠ [].
Proof. intros (d&t&E&_)%begins_next ->. done. Qed.

Lemma begins_not_byte P w b : begins P w → is_ascii b = true → ¬ P (value b) → head w ≠ Some b.
Proof.
  intros Hw Hb HP E. pose proof (head_char w (begins_utf8 _ _ Hw)) as Hh.
  destruct (begins_next _ _ Hw) as (d&t&En&Hd). destruct w as [|b' w]; [done|]. injection E as ->.
  destruct Hh as (d'&t'&En'&H1&_). rewrite En in En'. injection En' as <- _. rewrite <- (H1 Hb) in HP. done.
Qed.

Lemma entry_stops d : entry_start d → stops d ∧ is_newline_char d = false.
Proof.
  unfold entry_start, value_start, word_start, stops, is_non_identifier_char, is_unicode_space, is_newline_char,
    is_delimiter, is_disallowed_literal. lia.
Qed.

Lemma begins_calm w : begins entry_start w → calm w.
Proof.
  intros Hw. pose proof (begins_utf8 _ _ Hw) as Hu. destruct (begins_next _ _ Hw) as (d&t&E&Hd).
  apply entry_stops in Hd as [Hs Hn]. by split; [split; [done|]|]; rewrite E.
Qed.

(** ** Names *)

Lemma readable_chars s : readable s = true →
  (is_bare_ident s = true ∧ ident_text s = s ∧ ∃ cs, s = utf8 cs ∧ bare cs ∧ head s ≠ Some "!"%byte)
  ∨ (is_bare_ident s = false ∧ ident_text s = quoted_text s ∧ ∃ cs, s = utf8 cs ∧ Forall scalar cs ∧ one_line cs).
Proof.
  unfold readable, ident_text. intros [Hu H]%andb_true_iff. destruct (is_bare_ident s) eqn:E; [left|right].
  - apply bool_decide_eq_true in H. destruct (is_bare_ident_bare s Hu E) as (cs&->&Hb). eauto 6.
  - apply utf8_texts in Hu as (cs&Hcs&->). rewrite chars_utf8 in H by done. split; [done|]. split; [done|].
    exists cs. split_and!; [done|done|]. apply Forall_forall. intros d Hd.
    rewrite forallb_forall in H. specialize (H d ltac:(by apply list_elem_of_In)). lia.
Qed.

Lemma ident_begins s : readable s = true → begins word_start (ident_text s).
Proof.
  intros [(_&->&cs&->&Hb&Hh)|(_&->&cs&->&Hcs&_)]%readable_chars.
  - destruct cs as [|d cs]; [destruct (bare_start _ Hb)|].
    pose proof (bare_scalar _ Hb) as Hs. apply Forall_cons in Hs as [Hd Hs].
    pose proof (bare_chars _ Hb) as Hc. apply Forall_cons in Hc as [[Hc _] _].
    exists d, (utf8 cs). split_and!; [done| |done|by apply utf8_valid]. right. split; [done|]. intros ->.
    apply Hh. done.
  - unfold quoted_text. rewrite chars_utf8 by done. apply (begins_ascii _ Byte.x22); [done|by left|].
    fold (body_text cs). rewrite is_utf8_app; [done|by apply body_utf8].
Qed.

Section entries.

Context (src : Source.t) {Hsrc : ValidSource src} (simd : bool) (c : Context.t) (Hroom : roomy src c).

#[local] Abbreviation good := (KdlCursor.good src).

#[local] Abbreviation rest := (KdlCursor.rest src).

#[local] Abbreviation eats := (KdlCursor.eats src c).

Lemma eats_string s r : readable s = true → ends r → eats (parse_string_value src simd) (ident_text s) r s.
Proof.
  intros Hs Hr. pose proof (ident_begins s Hs) as Hbeg. unfold parse_string_value.
  eapply (eats_read src c); [apply (look_byte src)|].
  destruct (readable_chars s Hs) as [(_&E&cs&->&Hb&_)|(_&E&cs&->&Hcs&Ho)]; rewrite E in *.
  - assert (Hn : ∀ b, is_ascii b = true → b = Byte.x22 ∨ b = "#"%byte → head (utf8 cs ++ r) ≠ Some b).
    { intros b Ha Hb' Eh. destruct cs as [|d cs]; [destruct (bare_start _ Hb)|].
      pose proof (bare_scalar _ Hb) as Hsc. pose proof (bare_chars _ Hb) as Hc.
      apply Forall_cons in Hc as [[Hc _] _]. apply Forall_cons in Hsc as [Hd Hsc].
      revert Eh. apply (begins_not_byte (λ d, is_non_identifier_char d = false)); [|done|by destruct Hb' as [-> | ->]].
      exists d, (utf8 cs ++ r). split_and!; [done|done|by rewrite app_assoc|].
      rewrite is_utf8_app by (by apply utf8_valid). apply Hr. }
    destruct (head (utf8 cs ++ r)) as [b|] eqn:Eh.
    + rewrite decide_False by (intros ->; by apply (Hn Byte.x22); [|left|]).
      rewrite decide_False by (intros ->; by apply (Hn "#"%byte); [|right|]). by apply eats_identifier.
    + exfalso. destruct (begins_nonempty _ _ Hbeg). destruct (utf8 cs); [done|done].
  - unfold quoted_text at 1. cbn [app head]. rewrite decide_True by done. by apply eats_quoted.
Qed.

(** ** Types *)

Lemma calm_ascii b r : is_ascii b = true → stops (value b) → is_utf8 r = true → calm_node (b :: r).
Proof. intros Hb Hs Hr. split; [simpl; by rewrite Hb|]. by rewrite next_ascii. Qed.

Lemma ends_ascii b r :
  is_ascii b = true → is_non_identifier_char (value b) = true → ends_keyword (value b) = true → is_utf8 r = true → ends (b :: r).
Proof. intros Hb H1 H2 Hr. split; [simpl; by rewrite Hb|]. by rewrite next_ascii. Qed.

Lemma type_begins ty w : readable_type ty = true → begins value_start w → begins entry_start (type_text ty ++ w).
Proof.
  intros Hty Hw. pose proof (begins_utf8 _ _ Hw) as Hu. destruct ty as [ty|]; [|by eapply begins_mono; [exact Hw|right]].
  change (type_text (Some ty) ++ w) with ("("%byte :: (ident_text ty ++ [")"%byte]) ++ w).
  apply (begins_ascii _ "("%byte); [done|by left|].
  rewrite <- app_assoc. pose proof (ident_begins ty Hty) as Hi. rewrite is_utf8_app by (by eapply begins_utf8). done.
Qed.

Lemma eats_type ty w r :
  readable_type ty = true → begins value_start w → is_utf8 r = true →
  eats (try_parse_type_annotation src simd) (type_text ty) (w ++ r) ty.
Proof.
  intros Hty Hw Hr. pose proof (begins_app _ _ r Hw Hr) as Hwr. pose proof (begins_utf8 _ _ Hwr) as Hu.
  unfold try_parse_type_annotation.
  eapply (eats_nothing src c); [apply (eats_no_space src)|].
  { rewrite app_assoc. by apply begins_calm, begins_app; [apply type_begins|]. }
  eapply (eats_read src c); [apply (look_is src)|]. destruct ty as [ty|]; cbn [type_text].
  - cbn [app head]. rewrite bool_decide_eq_true_2 by done. cbn [negb].
    pose proof (ident_begins ty Hty) as Hi.
    assert (Hclose : is_utf8 (")"%byte :: w ++ r) = true) by done.
    assert (Hends : ends (")"%byte :: w ++ r)) by (by apply ends_ascii).
    apply (eats_bind src c _ _ ["("%byte] (ident_text ty ++ [")"%byte]) _ tt); [by apply eats_bump_byte|].
    eapply (eats_nothing src c); [apply (eats_no_space src)|].
    { rewrite <- app_assoc. apply begins_calm, begins_app; [|done].
      eapply begins_mono; [exact Hi|]. intros d Hd. by right; right. }
    apply (eats_bind src c _ _ (ident_text ty) [")"%byte] _ ty); [by apply eats_string|].
    eapply (eats_nothing src c); [apply (eats_no_space src); by apply calm_ascii|].
    eapply (eats_read src c); [apply (look_is src)|]. cbn [app head]. rewrite bool_decide_eq_true_2 by done. cbn [negb].
    apply (eats_then_ret src c _ (λ _, Some ty) _ _ tt). by apply eats_bump_byte.
  - rewrite bool_decide_eq_false_2; [apply eats_ret|]. cbn [app].
    apply (begins_not_byte value_start); [done|done|].
    unfold value_start, word_start. change (value "("%byte) with 40. vm_compute. intuition discriminate.
Qed.

(** ** Values *)

(** What a bare word and what follows it look like to the test for numbers. *)
Lemma starts_with_prefix w r p :
  (∀ b, b ∈ p → head r ≠ Some b) → Bytes.starts_with (w ++ r) p = true → Bytes.starts_with w p = true.
Proof.
  revert p. induction w as [|a w IH]; intros p Hr H.
  - destruct p as [|b p]; [done|]. apply starts_with_true in H as [t E]. exfalso.
    cbn [app] in E. apply (Hr b); [left|]. by rewrite E.
  - destruct p as [|b p]; [done|]. apply starts_with_true in H as [t E]. injection E as -> E.
    assert (H' : Bytes.starts_with (w ++ r) p = true) by (apply starts_with_true; by eexists).
    apply IH in H'; [|intros b' Hb'; apply Hr; by right]. apply starts_with_true in H' as [u ->].
    apply starts_with_true. by exists u.
Qed.

Lemma digit_start_word cs r :
  Forall scalar cs → is_digit_char (head cs) = false → ends r → starts_with_digit (utf8 cs ++ r) = false.
Proof.
  intros Hs Hd Hr. destruct cs as [|d cs].
  - simpl. destruct r as [|b r]; [done|]. simpl. destruct (is_ascii_digit b) eqn:Eb; [|done].
    destruct (digit_ascii b Eb) as (Ha&Hc&_). apply digit_identifier in Hc. by destruct (ends_not _ b Hr Ha Hc).
  - apply Forall_cons in Hs as [Hsc Hs]. cbn [head] in Hd. destruct (encode_utf8_shape d Hsc) as (b&l&E&_).
    rewrite utf8_cons, E. simpl. destruct (is_ascii_digit b) eqn:Eb; [|done].
    destruct (digit_ascii b Eb) as (Ha&Hc&_). exfalso.
    assert (Ev : d = value b).
    { pose proof (next_char_encode d [] Hsc) as Hn. rewrite E, app_nil_r, next_ascii in Hn by done. by injection Hn. }
    subst d. unfold is_digit_char, is_char_digit in *. congruence.
Qed.

Lemma bare_not_number cs r :
  bare cs → ends r →
  Bytes.starts_with (utf8 cs) (text "+inf") || Bytes.starts_with (utf8 cs) (text "-inf") = false →
  looks_like_number_text (utf8 cs ++ r) = false.
Proof.
  intros [Hs Hc _ Hst] Hr Hinf. destruct cs as [|d cs]; [done|]. destruct Hst as (Hd&Hp&Hq).
  apply Forall_cons in Hs as [Hsc Hs]. unfold looks_like_number_text.
  rewrite utf8_cons, <- app_assoc, next_char_encode by done.
  change (code "+"%byte) with 43. change (code "-"%byte) with 45. change (code "."%byte) with 46.
  destruct ((d =? 43) || (d =? 45)) eqn:Esign.
  - assert (Hd' : d = 43 ∨ d = 45) by lia.
    rewrite digit_start_word by (try done; apply Hp; lia). cbn [orb].
    assert (Hdot : bool_decide (head (utf8 cs ++ r) = Some "."%byte) && starts_with_digit (tail (utf8 cs ++ r)) = false).
    { case_bool_decide as Eh; [|done]. cbn [andb]. destruct cs as [|n cs].
      - exfalso. by apply (ends_not r "."%byte Hr).
      - apply Forall_cons in Hs as [Hn Hs]. assert (En : n = 46).
        { destruct (encode_utf8_shape n Hn) as (b&l&E&_). pose proof (next_char_encode n [] Hn) as Hx.
          rewrite utf8_cons, E in Eh. injection Eh as ->. rewrite E, app_nil_r, next_ascii in Hx by done. by injection Hx. }
        subst n. change (utf8 (46 :: cs) ++ r) with ("."%byte :: utf8 cs ++ r). cbn [tail].
        apply digit_start_word; [done|by apply Hq|done]. }
    rewrite Hdot. cbn [orb]. destruct (Bytes.starts_with (utf8 cs ++ r) (text "inf")) eqn:Ei; [|done].
    apply starts_with_prefix in Ei.
    + apply starts_with_true in Ei as [t Et]. rewrite utf8_cons, Et in Hinf.
      assert (H2 : ∀ w, Bytes.starts_with (w ++ t) w = true) by (intros; apply starts_with_true; by eexists).
      destruct Hd' as [-> | ->].
      * change (encode_utf8 43 ++ text "inf" ++ t) with (text "+inf" ++ t) in Hinf. by rewrite H2 in Hinf.
      * change (encode_utf8 45 ++ text "inf" ++ t) with (text "-inf" ++ t) in Hinf. by rewrite H2, orb_true_r in Hinf.
    + intros b Hb. change (text "inf") with ["i"%byte; "n"%byte; "f"%byte] in Hb.
      assert (Hb' : b = "i"%byte ∨ b = "n"%byte ∨ b = "f"%byte) by set_solver.
      destruct Hb' as [-> |[-> | ->]]; by apply ends_not.
  - destruct (Z.eqb_spec d 46); [|done]. apply digit_start_word; [done|apply Hp; lia|done].
Qed.

(** A word is not taken for a number. *)
Lemma word_not_number s r :
  readable_word s = true → ends r → is_bare_ident s = true → looks_like_number_text (s ++ r) = false.
Proof.
  unfold readable_word. intros [Hs Hw]%andb_true_iff Hr Hb.
  destruct (readable_chars s Hs) as [(_&_&cs&->&Hbare&_)|(E&_)]; [|congruence].
  rewrite Hb in Hw. cbn [andb] in Hw. apply bare_not_number; [done|done|]. by apply negb_true_iff in Hw.
Qed.

Lemma readable_word_readable s : readable_word s = true → readable s = true.
Proof. unfold readable_word. by intros [H _]%andb_true_iff. Qed.

Lemma integer_begins n : I128.ok n → begins value_start (format_i128_into n).
Proof.
  intros Hn. destruct (format_i128_digits n Hn) as (ds&[_ Ha Hz]&->).
  assert (Hu : is_utf8 ds = true) by (apply is_utf8_ascii, forallb_forall; intros b Hb%list_elem_of_In;
    rewrite Forall_forall in Ha; by apply digit_ascii, Ha).
  destruct (n <? 0); [apply (begins_ascii _ "-"%byte); [done| |done]; right; right; done|].
  destruct ds as [|b ds]; [by destruct Hz as [|(?&?&?&?)]|]. apply Forall_cons in Ha as [Hb _].
  destruct (digit_ascii b Hb) as (Hab&Hd&_). simpl in Hu. rewrite Hab in Hu.
  apply begins_ascii; [done| |done]. right; right. split; [by apply digit_identifier|].
  unfold is_char_digit in Hd. lia.
Qed.

(** Whether the reader takes a value for a number. *)
Lemma integer_number n r : I128.ok n → is_utf8 r = true →
  looks_like_number_text (format_i128_into n ++ r) = true
  ∧ ∃ b, head (format_i128_into n ++ r) = Some b ∧ (is_ascii_digit b = true ∨ b = "-"%byte).
Proof.
  intros Hn Hr. destruct (format_i128_digits n Hn) as (ds&[_ Ha Hz]&->).
  destruct ds as [|b ds]; [by destruct Hz as [|(?&?&?&?)]|]. apply Forall_cons in Ha as [Hb _].
  destruct (digit_ascii b Hb) as (Hab&Hd&_). unfold looks_like_number_text. destruct (n <? 0).
  - cbn [app]. rewrite next_ascii by done. split; [|eexists; split; [done|by right]].
    change ((value "-"%byte =? code "+"%byte) || (value "-"%byte =? code "-"%byte)) with true. cbv iota.
    cbn [starts_with_digit]. by rewrite Hb.
  - cbn [app]. rewrite next_ascii by done. split; [|eexists; split; [done|by left]].
    unfold is_char_digit in *. change (code "+"%byte) with 43. change (code "-"%byte) with 45. change (code "."%byte) with 46.
    destruct ((value b =? 43) || (value b =? 45)) eqn:E1; [lia|]. destruct (Z.eqb_spec (value b) 46); [lia|done].
Qed.

Context (format_finite : f64 → list byte).

#[local] Abbreviation value_text := (KdlWrite.value_text format_finite).

(** The values that are printed as keywords. *)
Lemma keyword_value v w : keyword_text v = Some w → value_text v = w ∧ head w = Some "#"%byte ∧ is_utf8 w = true.
Proof.
  destruct v as [| |[|[]| |] [|]|[]|]; try discriminate; intros [= <-]; done.
Qed.

Lemma readable_value_cases v : readable_value v = true →
  (∃ s, v = Value.String s ∧ readable_word s = true) ∨ (∃ n, v = Value.Int n ∧ I128.ok n)
  ∨ (∃ w, keyword_text v = Some w).
Proof.
  destruct v as [s|n|f raw|b|]; simpl; intros H.
  - left. eauto.
  - right; left. exists n. split; [done|]. unfold I128.ok. lia.
  - right; right. apply bool_decide_eq_true in H as [w Hw]. by exists w.
  - right; right. apply bool_decide_eq_true in H as [w Hw]. by exists w.
  - right; right. by eexists.
Qed.

Lemma value_begins v : readable_value v = true → begins value_start (value_text v).
Proof.
  intros [(s&->&Hs)|[(n&->&Hn)|(w&Hw)]]%readable_value_cases.
  - simpl. eapply begins_mono; [by apply ident_begins, readable_word_readable|]. intros d Hd. by right.
  - simpl. by apply integer_begins.
  - destruct (keyword_value v w Hw) as (->&Hh&Hu). destruct w as [|b w]; [done|]. injection Hh as ->.
    apply begins_ascii; [done|by left|done].
Qed.

Lemma value_not_byte v r b :
  readable_value v = true → is_utf8 r = true → is_ascii b = true → ¬ value_start (value b) →
  head (value_text v ++ r) ≠ Some b.
Proof. intros Hv Hr Hb HP. apply (begins_not_byte value_start); [|done|done]. apply begins_app; [by apply value_begins|done]. Qed.

(** A word begins with a quote or is bare. *)
Lemma word_head s r : readable_word s = true → is_utf8 r = true →
  (is_bare_ident s = true ∧ ident_text s = s ∧ head (s ++ r) ≠ Some Byte.x22)
  ∨ (is_bare_ident s = false ∧ head (ident_text s ++ r) = Some Byte.x22).
Proof.
  intros Hw Hr. pose proof (readable_word_readable s Hw) as Hs.
  destruct (readable_chars s Hs) as [(E&Ei&cs&->&Hb&_)|(E&Ei&_)]; [left|right; split; [done|by rewrite Ei]].
  split_and!; [done|done|]. destruct cs as [|d cs]; [destruct (bare_start _ Hb)|].
  pose proof (bare_scalar _ Hb) as Hsc. pose proof (bare_chars _ Hb) as Hc.
  apply Forall_cons in Hc as [[Hc _] _]. apply Forall_cons in Hsc as [Hd Hsc].
  apply (begins_not_byte (λ d, is_non_identifier_char d = false)); [|done|done].
  exists d, (utf8 cs ++ r). split_and!; [done|done|by rewrite app_assoc|].
  by rewrite is_utf8_app by (by apply utf8_valid).
Qed.

Lemma word_not_hash s r : readable_word s = true → is_utf8 r = true → head (ident_text s ++ r) ≠ Some "#"%byte.
Proof.
  intros Hw Hr. apply (begins_not_byte word_start); [|done|].
  - apply begins_app; [by apply ident_begins, readable_word_readable|done].
  - unfold word_start. vm_compute. intuition discriminate.
Qed.

Lemma eats_value v r :
  readable_value v = true → ends r → eats (parse_value_after_type src simd) (value_text v) r v.
Proof.
  intros Hv Hr. pose proof (proj1 Hr) as Hu. unfold parse_value_after_type.
  pose proof (begins_app _ _ r (value_begins v Hv) Hu) as Hbeg.
  eapply (eats_read src c); [apply (look_eof src)|].
  rewrite bool_decide_eq_false_2 by (by eapply begins_nonempty).
  eapply (eats_read src c); [apply (look_is src)|].
  destruct (readable_value_cases v Hv) as [(s&->&Hs)|[(n&->&Hn)|(w&Hw)]]; cbn [KdlWrite.value_text] in *.
  - rewrite bool_decide_eq_false_2 by (by apply word_not_hash).
    eapply (eats_read src c); [apply (look_is src)|].
    pose proof (readable_word_readable s Hs) as Hread.
    destruct (word_head s r Hs Hu) as [(Eb&Ei&Hh)|(Eb&Hh)].
    + rewrite Ei, bool_decide_eq_false_2 by done.
      eapply (eats_read src c); [apply (look_char src)|].
      rewrite Ei in Hbeg. destruct (begins_next _ _ Hbeg) as (d&t&->&_). cbn [fmap option_fmap option_map fst].
      eapply (eats_read src c) with false.
      * intros t' Ht' Hc' E'. destruct (_ || is_char_digit d); [|done]. unfold looks_like_number.
        rewrite (run_ok _ _ _ _ _ (remaining_good src _ Ht')), E'. by rewrite word_not_number.
      * apply (eats_then_ret src c _ Value.String). rewrite <- Ei at 1. by apply eats_string.
    + rewrite bool_decide_eq_true_2 by done.
      apply (eats_then_ret src c _ Value.String).
      destruct (readable_chars s Hread) as [(E&_)|(_&->&cs&->&Hcs&Ho)]; [congruence|by apply eats_quoted].
  - destruct (integer_number n r Hn Hu) as [Hl (b&Hb&Hb')].
    rewrite Hb, bool_decide_eq_false_2 by (intros [= ->]; by destruct Hb').
    eapply (eats_read src c); [apply (look_is src)|].
    rewrite Hb, bool_decide_eq_false_2 by (intros [= ->]; by destruct Hb').
    eapply (eats_read src c); [apply (look_char src)|].
    assert (Hch : fst <$> next_char (format_i128_into n ++ r) = Some (value b)).
    { destruct (format_i128_into n ++ r) as [|b' l]; [done|]. injection Hb as ->.
      rewrite next_ascii; [done|]. destruct Hb' as [Hb'| ->]; [by apply digit_ascii|done]. }
    rewrite Hch. eapply (eats_read src c) with true; [|by apply eats_integer].
    intros t Ht Hc E. assert (Ed : (value b =? code "+"%byte) || (value b =? code "-"%byte)
      || (value b =? code "."%byte) || is_char_digit (value b) = true).
    { destruct Hb' as [Hb'| ->]; [|done]. destruct (digit_ascii b Hb') as (_&->&_). by rewrite orb_true_r. }
    rewrite Ed. unfold looks_like_number. by rewrite (run_ok _ _ _ _ _ (remaining_good src _ Ht)), E, Hl.
  - destruct (keyword_value v w Hw) as (->&Hh&_).
    assert (Hh' : head (w ++ r) = Some "#"%byte) by (by destruct w).
    rewrite bool_decide_eq_true_2 by done. by apply eats_keyword_value.
Qed.

(** ** Entries *)

(** What follows an entry: blanks and anything but an equals sign. *)
Definition after (r : list byte) : Prop :=
  ends r ∧ ∃ k t, r = spaces k ++ t ∧ calm_node t ∧ head t ≠ Some "="%byte.

Definition entry_text (e : Entry.t) : list byte :=
  match e with
  | Entry.Argument ty v => type_text ty ++ value_text v
  | Entry.Property key ty v => ident_text key ++ ["="%byte] ++ type_text ty ++ value_text v
  end.

Lemma value_text_utf8 v : readable_value v = true → is_utf8 (value_text v) = true.
Proof. intros Hv. by eapply begins_utf8, value_begins. Qed.

Lemma typed_begins ty v : readable_type ty = true → readable_value v = true →
  begins entry_start (type_text ty ++ value_text v).
Proof. intros. by apply type_begins, value_begins. Qed.

Lemma entry_begins e : readable_entry e = true → begins entry_start (entry_text e).
Proof.
  destruct e as [ty v|key ty v]; simpl.
  - intros [Hty Hv]%andb_true_iff. by apply typed_begins.
  - intros [[Hk Hty]%andb_true_iff Hv]%andb_true_iff. apply begins_app.
    + eapply begins_mono; [by apply ident_begins, readable_word_readable|]. intros d Hd. by right; right.
    + change (is_utf8 (type_text ty ++ value_text v) = true). by eapply begins_utf8, typed_begins.
Qed.

Lemma calm_value v r : readable_value v = true → is_utf8 r = true → calm_node (value_text v ++ r).
Proof.
  intros Hv Hr. apply begins_calm, begins_app; [|done]. eapply begins_mono; [by apply value_begins|]. intros d Hd. by right.
Qed.

(** Whether the value is read as a keyword or number. *)
Definition is_word (v : Value.t) : bool := match v with Value.String _ => true | _ => false end.

Lemma word_look s r t :
  readable_word s = true → ends r → good t → rest t = ident_text s ++ r →
  at_value_keyword_or_number src t = (t, Ok false).
Proof.
  intros Hs Hr Ht E. pose proof (proj1 Hr) as Hu. unfold at_value_keyword_or_number.
  rewrite (run_ok _ _ _ _ _ (peek_byte_good src t Ht)), E.
  destruct (head (ident_text s ++ r)) as [b|] eqn:Eh; [|done].
  rewrite decide_False by (intros ->; by apply (word_not_hash s r Hs Hu)).
  destruct (word_head s r Hs Hu) as [(Eb&Ei&_)|(_&Hq)]; [|by rewrite Eh in Hq; injection Hq as ->].
  pose proof (word_not_number s r Hs Hr Eb) as Hn. rewrite Ei in Eh, E.
  destruct (is_ascii_digit b) eqn:Ed.
  2: { destruct (decide (_ ∨ _)); [|done]. unfold looks_like_number.
       by rewrite (run_ok _ _ _ _ _ (remaining_good src t Ht)), E, Hn. }
  destruct (digit_ascii b Ed) as (Ha&Hd&_). destruct (s ++ r) as [|b' l]; [done|]. injection Eh as ->.
  unfold looks_like_number_text in Hn. rewrite next_ascii in Hn by done.
  unfold is_char_digit in *. change (code "+"%byte) with 43 in Hn. change (code "-"%byte) with 45 in Hn.
  change (code "."%byte) with 46 in Hn.
  destruct ((value b =? 43) || (value b =? 45)) eqn:E1; [lia|]. destruct (Z.eqb_spec (value b) 46); [lia|].
  rewrite Hd in Hn. done.
Qed.

Lemma number_look v r t :
  readable_value v = true → is_word v = false → ends r → good t → rest t = value_text v ++ r →
  at_value_keyword_or_number src t = (t, Ok true).
Proof.
  intros Hv Hw Hr Ht E. pose proof (proj1 Hr) as Hu. unfold at_value_keyword_or_number.
  rewrite (run_ok _ _ _ _ _ (peek_byte_good src t Ht)), E.
  destruct (readable_value_cases v Hv) as [(s&->&Hs)|[(n&->&Hn)|(w&Hw')]]; [done| |].
  - cbn [KdlWrite.value_text] in *. destruct (integer_number n r Hn Hu) as [Hl (b&->&Hb)].
    rewrite decide_False by (intros ->; by destruct Hb). destruct Hb as [->| ->]; [done|].
    change (is_ascii_digit "-"%byte) with false. cbv iota. rewrite decide_True by auto.
    unfold looks_like_number. by rewrite (run_ok _ _ _ _ _ (remaining_good src t Ht)), E, Hl.
  - destruct (keyword_value v w Hw') as (->&Hh&_). destruct w as [|b w]; [done|]. injection Hh as ->.
    cbn [app head]. by rewrite decide_True.
Qed.

Lemma attempt_ok {A} (m : Parse A) s s' a : m s = (s', Ok a) → attempt m s = (s', Ok (Some a)).
Proof. intros E. unfold attempt. by rewrite E. Qed.

Lemma eats_argument ty v r :
  readable_entry (Entry.Argument ty v) = true → after r →
  eats (parse_prop_or_arg src simd) (entry_text (Entry.Argument ty v)) r (Entry.Argument ty v).
Proof.
  intros He [Hr (k&t&Er&Ht&Hh)]. pose proof (begins_utf8 _ _ (entry_begins _ He)) as Hall.
  simpl in He. apply andb_true_iff in He as [Hty Hv].
  cbn [entry_text] in *. pose proof (proj1 Hr) as Hu. pose proof (value_text_utf8 v Hv) as Hvu.
  pose proof (eats_type ty (value_text v) r Hty (value_begins v Hv) Hu) as Htype.
  split; [done|]. intros s Hs Hc E. rewrite <- app_assoc in E. unfold parse_prop_or_arg.
  etransitivity; [apply (run_ok get_index _ s s (index s)); done|]. cbv beta.
  rewrite (run_ok _ _ _ _ _ (proj2 Htype s Hs Hc E)).
  destruct (adv_good src (type_text ty) _ s Hs E (proj1 Htype)) as [G1 E1].
  rewrite (run_ok _ _ _ _ _ (proj2 (eats_no_space src c _ (calm_value v r Hv Hu)) _ G1 Hc E1)), adv_nil.
  destruct (is_word v) eqn:Hw.
  - destruct v as [str| | | |]; try done. cbn [KdlWrite.value_text] in *. simpl in Hv.
    rewrite (run_ok _ _ _ _ _ (word_look str r _ Hv Hr G1 E1)).
    set (s1 := adv (type_text ty) s) in *.
    etransitivity; [apply (run_ok get_index _ s1 s1 (index s1)); done|]. cbv beta.
    pose proof (eats_string str r (readable_word_readable _ Hv) Hr) as Hstr.
    rewrite (run_ok _ _ _ _ _ (attempt_ok _ _ _ _ (proj2 Hstr s1 G1 Hc E1))). cbv iota.
    destruct (adv_good src (ident_text str) r s1 G1 E1 Hvu) as [G2 E2]. set (s2 := adv (ident_text str) s1) in *.
    etransitivity; [apply (run_ok get_index _ s2 s2 (index s2)); done|]. cbv beta.
    rewrite Er in E2. rewrite (run_ok _ _ _ _ _ (proj2 (eats_node_space src c k t Ht) s2 G2 Hc E2)).
    destruct (adv_good src (spaces k) t s2 G2 E2 (spaces_utf8 k)) as [G3 E3].
    rewrite (run_ok _ _ _ _ _ (peek_is_good src _ _ G3)), E3, bool_decide_eq_false_2 by done.
    etransitivity; [apply (run_ok _ _ _ s2 tt); by destruct s2|]. unfold s2, s1. by rewrite adv_app.
  - rewrite (run_ok _ _ _ _ _ (number_look v r _ Hv Hw Hr G1 E1)).
    rewrite (run_ok _ _ _ _ _ (proj2 (eats_value v r Hv Hr) _ G1 Hc E1)). by rewrite adv_app.
Qed.

Lemma eats_typed_value ty v r :
  readable_type ty = true → readable_value v = true → ends r →
  eats (parse_typed_value src simd) (type_text ty ++ value_text v) r (ty, v).
Proof.
  intros Hty Hv Hr. pose proof (proj1 Hr) as Hu. unfold parse_typed_value.
  apply (eats_bind src c _ _ (type_text ty) (value_text v) r ty); [by apply eats_type, Hu; [|apply value_begins]|].
  eapply (eats_nothing src c); [apply (eats_no_space src); by apply calm_value|].
  apply (eats_then_ret src c _ (λ v, (ty, v))). by apply eats_value.
Qed.

Lemma eats_property key ty v r :
  readable_entry (Entry.Property key ty v) = true → ends r →
  eats (parse_prop_or_arg src simd) (entry_text (Entry.Property key ty v)) r (Entry.Property key ty v).
Proof.
  intros He Hr. pose proof (begins_utf8 _ _ (entry_begins _ He)) as Hall. simpl in He.
  apply andb_true_iff in He as [[Hk Hty]%andb_true_iff Hv].
  pose proof (proj1 Hr) as Hu. pose proof (readable_word_readable _ Hk) as Hkr.
  pose proof (typed_begins ty v Hty Hv) as Hbeg. pose proof (begins_utf8 _ _ Hbeg) as Htu.
  set (tail := type_text ty ++ value_text v) in *.
  assert (Htr : is_utf8 (tail ++ r) = true) by (by rewrite is_utf8_app).
  assert (Hends : ends ("="%byte :: tail ++ r)) by (by apply ends_ascii).
  pose proof (ident_begins key Hkr) as Hib. pose proof (begins_utf8 _ _ Hib) as Hiu.
  assert (Hvs : begins value_start (ident_text key)) by (eapply begins_mono; [exact Hib|]; intros d Hd; by right).
  split; [done|]. intros s Hs Hc E. cbn [entry_text] in *. fold tail in E |- *. rewrite <- app_assoc in E.
  cbn [app] in E. unfold parse_prop_or_arg.
  etransitivity; [apply (run_ok get_index _ s s (index s)); done|]. cbv beta.
  pose proof (eats_type None (ident_text key) ("="%byte :: tail ++ r) eq_refl Hvs (proj1 Hends)) as Hnone.
  rewrite (run_ok _ _ _ _ _ (proj2 Hnone s Hs Hc E)), adv_nil.
  assert (Hcalm : calm_node (ident_text key ++ "="%byte :: tail ++ r)).
  { apply begins_calm, begins_app; [|apply Hends]. eapply begins_mono; [exact Hvs|]. intros d Hd. by right. }
  rewrite (run_ok _ _ _ _ _ (proj2 (eats_no_space src c _ Hcalm) s Hs Hc E)), adv_nil.
  rewrite (run_ok _ _ _ _ _ (word_look key _ s Hk Hends Hs E)).
  etransitivity; [apply (run_ok get_index _ s s (index s)); done|]. cbv beta.
  pose proof (eats_string key _ Hkr Hends) as Hstr.
  rewrite (run_ok _ _ _ _ _ (attempt_ok _ _ _ _ (proj2 Hstr s Hs Hc E))). cbv iota.
  destruct (adv_good src (ident_text key) _ s Hs E Hiu) as [G1 E1]. set (s1 := adv (ident_text key) s) in *.
  etransitivity; [apply (run_ok get_index _ s1 s1 (index s1)); done|]. cbv beta.
  assert (Hceq : calm_node ("="%byte :: tail ++ r)) by (by apply calm_ascii).
  rewrite (run_ok _ _ _ _ _ (proj2 (eats_no_space src c _ Hceq) s1 G1 Hc E1)), adv_nil.
  rewrite (run_ok _ _ _ _ _ (peek_is_good src _ _ G1)), E1, bool_decide_eq_true_2 by done.
  rewrite (run_ok _ _ _ _ _ (proj2 (eats_bump_byte src c "="%byte _ eq_refl) s1 G1 Hc E1)).
  destruct (adv_good src ["="%byte] _ s1 G1 E1 eq_refl) as [G2 E2]. set (s2 := adv ["="%byte] s1) in *.
  assert (Hct : calm_node (tail ++ r)) by (by apply begins_calm, begins_app).
  rewrite (run_ok _ _ _ _ _ (proj2 (eats_no_space src c _ Hct) s2 G2 Hc E2)), adv_nil.
  rewrite (run_ok _ _ _ _ _ (proj2 (eats_typed_value ty v r Hty Hv Hr) s2 G2 Hc E2)).
  unfold s2, s1, mret, run_ret. by rewrite !adv_app.
Qed.

Lemma eats_entry e r :
  readable_entry e = true → after r → eats (parse_prop_or_arg src simd) (entry_text e) r e.
Proof.
  destruct e as [ty v|key ty v]; intros He Hr; [by apply eats_argument|by apply eats_property; [|apply Hr]].
Qed.

End entries.
