(* ===== verification/KdlRoundtrip.v ===== *)
(** * Reading back what was written

    The normal form of a document: printing loses the order of properties and all but the last one of each
    key. The tree that is left, that it is printed as the same text, and that
    text line by line. Then nodes, children and whole documents are read back,
    up to the theorem that reading what was written gives the normal form. *)

From Stdlib Require Import Strings.String Strings.Byte Floats.SpecFloat.
From S2P Require Import Prelude Codec Bytes KdlChars KdlValue KdlWrite KdlCursor KdlEntries KdlSwar KdlParser KdlVisit KdlTokens.

(** ** What is read back *)

Definition property_entry (p : list byte * (option KdlStr * Value.t)) : Entry.t := Entry.Property p.1 p.2.1 p.2.2.

(** The entries in the order in which they are printed. *)
Definition ordered (entries : list Entry.t) : list Entry.t :=
  filter (λ e, Entry.is_argument e = true) entries ++ (property_entry <$> properties entries).

Fixpoint normal (node : Node.t) : Node.t :=
  match node with
  | Node.mk ty name entries children => Node.mk ty name (ordered entries) (normal <$> children)
  end.

(** Trees that can be read back within a number of levels of children. *)
Fixpoint readable_node (depth : nat) (node : Node.t) : bool :=
  match node with
  | Node.mk ty name entries children =>
      readable_type ty && readable name && forallb readable_entry entries
      && match children with
         | [] => true
         | _ => match depth with O => false | S depth => forallb (readable_node depth) children end
         end
  end.

Lemma btree_insert_forall {V} (P : list byte → Prop) (Q : V → Prop) k v m :
  P k → Q v → Forall (λ p, P p.1 ∧ Q p.2) m → Forall (λ p, P p.1 ∧ Q p.2) (btree_insert k v m).
Proof.
  intros Hk Hv. induction 1 as [|[k' v'] m [Hk' Hv'] Hm IH]; simpl; [by repeat constructor|].
  destruct (str_compare k k'); repeat constructor; done.
Qed.

Lemma properties_readable entries :
  forallb readable_entry entries = true →
  Forall (λ p, readable_word p.1 = true ∧ (readable_type p.2.1 && readable_value p.2.2 = true)) (properties entries).
Proof.
  unfold properties. intros H. assert (Hm : Forall (λ p : list byte * (option KdlStr * Value.t),
    readable_word p.1 = true ∧ (readable_type p.2.1 && readable_value p.2.2 = true)) []) by constructor.
  revert H Hm. generalize (@nil (list byte * (option KdlStr * Value.t))) as m.
  induction entries as [|e entries IH]; intros m H Hm; [done|]. simpl in *.
  apply andb_true_iff in H as [He H]. apply IH; [done|]. destruct e as [ty v|key ty v]; [done|]. simpl in *.
  apply andb_true_iff in He as [[Hk Hty]%andb_true_iff Hv].
  apply (btree_insert_forall (λ k, readable_word k = true) (λ q, readable_type q.1 && readable_value q.2 = true));
    [done|simpl; by rewrite Hty, Hv|done].
Qed.

Lemma ordered_readable entries :
  forallb readable_entry entries = true → Forall (λ e, readable_entry e = true) (ordered entries).
Proof.
  intros H. apply Forall_app. split.
  - apply Forall_forall. intros e [_ He]%list_elem_of_filter. rewrite forallb_forall in H. by apply H, list_elem_of_In.
  - apply Forall_fmap. eapply Forall_impl; [by apply properties_readable|]. intros [k [ty v]] [Hk Hv]. simpl in *.
    by rewrite Hk.
Qed.

(** ** Reading back gives a normal form *)

Definition before (a b : list byte) : Prop := str_compare a b = Lt.

Lemma str_compare_eq a b : str_compare a b = Eq → a = b.
Proof.
  revert b. induction a as [|x a IH]; intros [|y b]; simpl; try done.
  destruct (Z.compare_spec (value x) (value y)) as [E| |]; try done. intros H.
  apply byte_value_inj in E as ->. by rewrite (IH b H).
Qed.

Lemma str_compare_opp a b : str_compare b a = CompOpp (str_compare a b).
Proof.
  revert b. induction a as [|x a IH]; intros [|y b]; simpl; try done.
  rewrite (Z.compare_antisym (value x) (value y)). destruct (value x ?= value y); simpl; [apply IH|done|done].
Qed.

Lemma before_trans a b d : before a b → before b d → before a d.
Proof.
  unfold before. revert b d. induction a as [|x a IH]; intros [|y b] [|z d]; simpl; try done.
  destruct (Z.compare_spec (value x) (value y)), (Z.compare_spec (value y) (value z)),
    (Z.compare_spec (value x) (value z)); try done; try lia. apply IH.
Qed.

Definition keys_sorted {V} (m : list (list byte * V)) : Prop := StronglySorted (λ p q, before p.1 q.1) m.

Lemma btree_insert_sorted {V} k (v : V) m : keys_sorted m → keys_sorted (btree_insert k v m).
Proof.
  unfold keys_sorted. induction 1 as [|[k' v'] m Hs IH Hf]; simpl; [by repeat constructor|].
  destruct (str_compare k k') eqn:E.
  - constructor; [done|]. exact Hf.
  - constructor; [by constructor|]. constructor; [exact E|]. eapply Forall_impl; [exact Hf|].
    intros [k2 v2] H2. simpl in *. by eapply before_trans.
  - constructor; [done|].
    assert (Hk : Forall (λ p : list byte * V, before k' p.1 ∧ True) (btree_insert k v m)).
    { apply (btree_insert_forall (before k') (λ _, True)); [|done|].
      - unfold before. by rewrite str_compare_opp, E.
      - eapply Forall_impl; [exact Hf|]. done. }
    eapply Forall_impl; [exact Hk|]. by intros p [].
Qed.

Lemma properties_sorted entries : keys_sorted (properties entries).
Proof.
  unfold properties. assert (H : keys_sorted (@nil (list byte * (option KdlStr * Value.t)))) by constructor.
  revert H. generalize (@nil (list byte * (option KdlStr * Value.t))) as m.
  induction entries as [|[ty v|key ty v] entries IH]; intros m H; simpl; [done|by apply IH|].
  by apply IH, btree_insert_sorted.
Qed.

Lemma btree_insert_last {V} k (v : V) m : Forall (λ p, before p.1 k) m → btree_insert k v m = m ++ [(k, v)].
Proof.
  induction 1 as [|[k' v'] m Hk Hm IH]; [done|]. simpl in *. unfold before in Hk.
  rewrite (str_compare_opp k' k), Hk. simpl. by rewrite IH.
Qed.

Lemma insert_in_order l m :
  keys_sorted (m ++ l) → fold_left insert_property (property_entry <$> l) m = m ++ l.
Proof.
  revert m. induction l as [|[k [ty v]] l IH]; intros m H; [by rewrite app_nil_r|].
  rewrite fmap_cons. cbn [fold_left]. change (insert_property m (property_entry (k, (ty, v)))) with (btree_insert k (ty, v) m).
  rewrite btree_insert_last.
  - rewrite IH; by rewrite <- app_assoc.
  - clear IH. induction m as [|p m IHm]; [constructor|]. apply StronglySorted_inv in H as [H Hf].
    constructor; [|by apply IHm]. apply Forall_app in Hf as [_ Hf]. by apply Forall_cons in Hf as [Hf _].
Qed.

Lemma ordered_idemp entries : ordered (ordered entries) = ordered entries.
Proof.
  assert (Ha : filter (λ e, Entry.is_argument e = true) (ordered entries) = filter (λ e, Entry.is_argument e = true) entries).
  { unfold ordered. rewrite filter_app. rewrite (list_filter_filter_l _ (λ e, Entry.is_argument e = true)) by done.
    rewrite <- (app_nil_r (filter _ entries)) at 2. f_equal. by induction (properties entries). }
  unfold ordered at 1. rewrite Ha. unfold ordered at 2. f_equal. f_equal. unfold properties at 1, ordered.
  rewrite fold_left_app. assert (Hn : fold_left insert_property (filter (λ e, Entry.is_argument e = true) entries) [] = []).
  { clear Ha. induction entries as [|[ty v|key ty v] entries IH]; [done| |].
    - rewrite filter_cons_True by done. exact IH.
    - by rewrite filter_cons_False by done. }
  rewrite Hn. apply (insert_in_order _ []), properties_sorted.
Qed.

(** ** The text without the indentation of its first line *)

Section text.

Context (format_finite : f64 → list byte).

#[local] Abbreviation entry_text := (KdlEntries.entry_text format_finite).

Definition spaced (entries : list Entry.t) : list byte := concat ((λ e, " "%byte :: entry_text e) <$> entries).

Lemma entries_text_ordered entries : entries_text format_finite entries = spaced (ordered entries).
Proof.
  unfold entries_text, spaced, ordered. rewrite fmap_app, concat_app. f_equal.
  - induction entries as [|[ty v|key ty v] entries IH]; [done| |]; rewrite fmap_cons; cbn [concat].
    + rewrite filter_cons_True by done. rewrite fmap_cons. cbn [concat]. by rewrite IH.
    + by rewrite filter_cons_False by done.
  - rewrite <- list_fmap_compose. f_equal.
Qed.

Definition indentation (level : Z) : nat := Z.to_nat (U64.saturating_mul level 4).

Definition new_line (level : Z) : list byte := "010"%byte :: spaces (indentation level).

Definition header_text (node : Node.t) : list byte := type_text (Node.type_name node) ++ ident_text (Node.name node).

(** Nodes, each on a line of its own, and the line that follows them. *)
Section lines.

Context (body : Node.t → list byte) (inner outer : Z).

Fixpoint lines_of (l : list Node.t) : list byte :=
  match l with
  | [] => new_line outer
  | child :: l => new_line inner ++ (header_text child ++ body child) ++ lines_of l
  end.

End lines.

Fixpoint node_body (level : Z) (node : Node.t) : list byte :=
  match node with
  | Node.mk ty name entries children =>
      spaced (ordered entries)
      ++ match children with
         | [] => []
         | _ => text " {" ++ lines_of (node_body (level + 1)) (level + 1) level children ++ text "}"
         end
  end.

Definition lines (inner outer : Z) : list Node.t → list byte := lines_of (node_body inner) inner outer.

Lemma node_body_eq level ty name entries children :
  node_body level (Node.mk ty name entries children)
  = spaced (ordered entries)
    ++ match children with [] => [] | _ => text " {" ++ lines (level + 1) level children ++ text "}" end.
Proof. done. Qed.

Lemma node_text_body node level :
  node_text format_finite node level = spaces (indentation level) ++ (header_text node ++ node_body level node) ++ ["010"%byte].
Proof.
  revert level. induction node as [ty name entries children IH] using node_induction. intros level.
  rewrite node_body_eq. cbn [node_text Node.type_name Node.name Node.entries Node.children]. unfold header_text.
  cbn [Node.type_name Node.name]. rewrite entries_text_ordered. unfold indent_text. fold (indentation level).
  change (replicate (indentation level) " "%byte) with (spaces (indentation level)).
  destruct children as [|child children]; [by rewrite app_nil_r, <- !app_assoc|].
  rewrite nodes_text_concat. rewrite <- !app_assoc. do 4 f_equal.
  assert (Hl : ∀ l, Forall (λ node, ∀ level, node_text format_finite node level
      = spaces (indentation level) ++ (header_text node ++ node_body level node) ++ ["010"%byte]) l →
    "010"%byte :: concat ((λ node, node_text format_finite node (level + 1)) <$> l) ++ spaces (indentation level)
    = lines (level + 1) level l).
  { induction 1 as [|n l Hn Hl IHl]; [done|]. rewrite fmap_cons. cbn [concat]. unfold lines in *. cbn [lines_of]. rewrite Hn, <- IHl.
    unfold new_line. rewrite <- !app_assoc. done. }
  rewrite <- (Hl _ IH), fmap_cons. cbn [concat app]. by rewrite <- !app_assoc.
Qed.

End text.

(** The document that was read is printed as before. *)
Lemma lines_of_ext f g inner outer l :
  Forall (λ n, header_text (normal n) = header_text n ∧ f (normal n) = g n) l →
  lines_of f inner outer (normal <$> l) = lines_of g inner outer l.
Proof.
  induction 1 as [|n l [Hh Hf] Hl IH]; [done|]. rewrite fmap_cons. cbn [lines_of]. by rewrite Hh, Hf, IH.
Qed.

Lemma header_normal n : header_text (normal n) = header_text n.
Proof. by destruct n. Qed.

Lemma body_normal format_finite n level : node_body format_finite level (normal n) = node_body format_finite level n.
Proof.
  revert level. induction n as [ty name entries children IH] using node_induction. intros level. cbn [normal].
  rewrite !node_body_eq, ordered_idemp. f_equal. destruct children as [|child children]; [done|].
  rewrite fmap_cons. cbv iota. rewrite <- fmap_cons. unfold lines. rewrite (lines_of_ext _ (node_body format_finite (level + 1))); [done|].
  eapply Forall_impl; [exact IH|]. intros n Hn. split; [apply header_normal|apply Hn].
Qed.

(** ** Reading back *)

Import Cursor.

(** ** Reading a body *)

Section reading.

Context (src : Source.t) {Hsrc : ValidSource src} (simd : bool) (format_finite : f64 → list byte).

#[local] Abbreviation good := (KdlCursor.good src).

#[local] Abbreviation rest := (KdlCursor.rest src).

#[local] Abbreviation eats := (KdlCursor.eats src).

#[local] Abbreviation entry_text := (KdlEntries.entry_text format_finite).

#[local] Abbreviation spaced := (KdlRoundtrip.spaced format_finite).

#[local] Abbreviation body_loop := (KdlVisit.body_loop src simd true).

#[local] Abbreviation children_loop := (KdlVisit.children_loop src simd true).

Definition add (entries : list Entry.t) (children : list Node.t) (b : DomNodeBuilder.t) : DomNodeBuilder.t :=
  {| DomNodeBuilder.type_name := DomNodeBuilder.type_name b;
     DomNodeBuilder.name := DomNodeBuilder.name b;
     DomNodeBuilder.entries := DomNodeBuilder.entries b ++ entries;
     DomNodeBuilder.children := DomNodeBuilder.children b ++ children |}.

Lemma add_nil b : add [] [] b = b.
Proof. unfold add. rewrite !app_nil_r. by destruct b. Qed.

Lemma on_child_add child b : DomNodeBuilder.on_child child b = add [] [child] b.
Proof. unfold add. rewrite app_nil_r. by destruct b. Qed.

Lemma add_add es1 es2 cs1 cs2 b : add es2 cs2 (add es1 cs1 b) = add (es1 ++ es2) (cs1 ++ cs2) b.
Proof. unfold add. simpl. by rewrite !app_assoc. Qed.

Lemma eats_visit_entry c opts b e r :
  roomy src c → readable_entry e = true → after r →
  eats c (visit_prop_or_arg_bits src simd opts (Visitor.Dom b)) (entry_text e) r (Visitor.Dom (add [e] [] b)).
Proof.
  intros Hc He Hr. pose proof (eats_entry src simd c Hc format_finite e r He Hr) as [Hu H].
  split; [done|]. intros s Hs Hcs E. unfold visit_prop_or_arg_bits.
  etransitivity; [apply (run_ok get_index _ s s (index s)); done|]. cbv beta.
  rewrite (run_ok _ _ _ _ _ (H s Hs Hcs E)). unfold add, mret, run_ret. rewrite app_nil_r. by destruct e.
Qed.

Lemma entry_byte w : begins entry_start w →
  ∃ b, head w = Some b ∧ b ≠ "}"%byte ∧ b ≠ ";"%byte ∧ b ≠ "{"%byte ∧ b ≠ "/"%byte ∧ b ≠ "\"%byte.
Proof.
  intros Hw. pose proof (begins_nonempty _ _ Hw) as Hne.
  assert (Hn : ∀ b, is_ascii b = true → ¬ entry_start (value b) → head w ≠ Some b) by (intros; by eapply begins_not_byte).
  destruct w as [|b w]; [done|]. exists b. split; [done|].
  split_and!; intros ->; (eapply Hn; [| |done]; [done|]); vm_compute; intuition discriminate.
Qed.

Lemma spaced_utf8 es w :
  Forall (λ e, readable_entry e = true) es → is_utf8 (spaced es ++ w) = is_utf8 w.
Proof.
  unfold KdlRoundtrip.spaced. induction 1 as [|e es He Hes IH]; [done|]. rewrite fmap_cons. cbn [concat app].
  rewrite <- app_assoc. change (is_utf8 (" "%byte :: ?x)) with (is_utf8 x).
  cbn [is_utf8]. rewrite is_utf8_app; [done|]. by eapply begins_utf8, entry_begins.
Qed.

Lemma after_spaced es w : Forall (λ e, readable_entry e = true) es → after w → after (spaced es ++ w).
Proof.
  intros Hes Hw. assert (Hu : is_utf8 (spaced es ++ w) = true) by (rewrite spaced_utf8 by done; apply Hw).
  destruct Hes as [|e es He Hes]; [done|]. unfold KdlRoundtrip.spaced in *. rewrite fmap_cons in *. cbn [concat app] in *.
  rewrite <- app_assoc in *. set (t := concat _ ++ w) in *.
  assert (Ht : is_utf8 (entry_text e ++ t) = true) by exact Hu.
  pose proof (entry_begins format_finite e He) as Hbeg. pose proof (begins_utf8 _ _ Hbeg) as Hue.
  assert (Htu : is_utf8 t = true) by (by rewrite is_utf8_app in Ht).
  pose proof (begins_app _ _ t Hbeg Htu) as Hb.
  split; [by apply ends_ascii|]. exists 1%nat, (entry_text e ++ t). split; [done|]. split; [by apply begins_calm|].
  eapply begins_not_byte; [exact Hb|done|]. vm_compute. intuition discriminate.
Qed.

Lemma eats_entries c opts es b fuel w r a :
  roomy src c → Forall (λ e, readable_entry e = true) es → after (w ++ r) →
  (length ((spaced es ++ w) ++ r) < fuel)%nat →
  (∀ fuel', (length (w ++ r) < fuel')%nat →
    eats c (body_loop fuel' opts (Visitor.Dom (add es [] b)) false false true) w r a) →
  eats c (body_loop fuel opts (Visitor.Dom b) false false true) (spaced es ++ w) r a.
Proof.
  intros Hc Hes Hr. revert fuel b. induction Hes as [|e es He Hes IH]; intros fuel b Hf Hw.
  - rewrite add_nil in Hw. by apply Hw.
  - destruct fuel as [|fuel]; [lia|].
    pose proof (after_spaced es (w ++ r) Hes Hr) as Haft. rewrite app_assoc in Haft.
    unfold KdlRoundtrip.spaced in *. rewrite fmap_cons in *. cbn [concat] in *. fold (KdlRoundtrip.spaced format_finite es) in *.
    pose proof (entry_begins format_finite e He) as Hbeg.
    pose proof (begins_app _ _ _ Hbeg (proj1 (proj1 Haft))) as Hb. pose proof (begins_calm _ Hb) as [Hcalm Hline].
    change ((" "%byte :: entry_text e) ++ spaced es) with (spaces 1 ++ entry_text e ++ spaced es) in *.
    rewrite <- !app_assoc in *. cbn [KdlVisit.body_loop].
    apply (eats_bind src c _ _ (spaces 1) (entry_text e ++ spaced es ++ w) r true).
    { rewrite <- !app_assoc. by apply (eats_node_space_counted src c 1). }
    eapply (eats_read src c); [apply (look_with src)|]. rewrite <- !app_assoc, calm_not_slashdash by done.
    eapply (eats_read src c); [apply (look_byte src)|]. rewrite <- !app_assoc.
    destruct (entry_byte _ Hb) as (x&->&H1&H2&H3&H4&H5). rewrite !decide_False by done.
    eapply (eats_read src c) with false; [done|].
    eapply (eats_read src c) with false.
    { intros s Hs _ E. unfold at_newline. rewrite (run_ok _ _ _ _ _ (peek_char_good src s Hs)), E, <- !app_assoc.
      destruct (next_char _) as [[d t]|]; [|done]. simpl. by rewrite Hline. }
    cbn [negb andb].
    apply (eats_bind src c _ _ (entry_text e) (spaced es ++ w) r (Visitor.Dom (add [e] [] b))).
    { apply eats_visit_entry; [done|done|]. by rewrite <- app_assoc. }
    apply IH.
    + simpl in Hf. rewrite length_app in Hf. rewrite <- ?app_assoc in *. lia.
    + intros fuel' Hf'. rewrite add_add. by apply Hw.
Qed.

(** The end of a node's line. *)
Lemma eats_line_stop c opts b flag1 flag2 flag3 fuel r :
  is_utf8 r = true → eats c (body_loop (S fuel) opts b flag1 flag2 flag3) [] ("010"%byte :: r) b.
Proof.
  intros Hr. pose proof (calm_newline r Hr) as Hcalm. cbn [KdlVisit.body_loop].
  apply (eats_nothing src c _ _ [] _ (0 <? Z.of_nat 0)); [by apply (eats_node_space_counted src c 0)|].
  eapply (eats_read src c); [apply (look_with src)|]. cbn [app]. rewrite calm_not_slashdash by done.
  eapply (eats_read src c); [apply (look_byte src)|]. cbn [app head]. rewrite !decide_False by done.
  eapply (eats_read src c) with false; [done|].
  eapply (eats_read src c) with true; [|apply eats_ret].
  intros s Hs _ E. unfold at_newline. by rewrite (run_ok _ _ _ _ _ (peek_char_good src s Hs)), E.
Qed.

(** *** Children *)

Definition deeper (c : Context.t) : Context.t := Context.set_depth (Context.depth c + 1) c.

Lemma eats_nested {A} c (m : Parse A) offset w r a :
  0 <= Context.depth c < Context.max_depth c → Context.max_depth c <= U32.MAX →
  eats (deeper c) m w r a → eats c (enter_depth offset;; then_leave m) w r a.
Proof.
  intros Hd HM [Hu Hm]. split; [done|]. intros s Hs Hc E.
  assert (He : enter_depth offset s = (set_ctx (deeper c) s, Ok tt)).
  { unfold enter_depth, Context.enter_depth, Context.try_enter_depth. rewrite Hc.
    destruct (Z.leb_spec (Context.max_depth c) (Context.depth c)); [lia|done]. }
  rewrite (run_ok _ _ _ _ _ He). unfold then_leave. rewrite (Hm (set_ctx (deeper c) s)) by done. do 2 f_equal.
  unfold adv, set_index, set_ctx, deeper, Context.leave_depth, Context.set_depth. simpl. subst c. destruct s as [i k]. simpl in *.
  f_equal. unfold U32.saturating_sub, U32.sat. replace (Z.max 0 (Z.min U32.MAX (Context.depth k + 1 - 1))) with (Context.depth k) by lia. by destruct k.
Qed.

Lemma after_line r : is_utf8 r = true → after ("010"%byte :: r).
Proof.
  intros Hr. split; [by apply ends_ascii|]. exists 0%nat, ("010"%byte :: r). split; [done|]. split; [by apply calm_newline|done].
Qed.

Lemma after_brace r : is_utf8 r = true → after (text " {" ++ r).
Proof.
  intros Hr. split; [by apply (ends_ascii " "%byte)|]. exists 1%nat, ("{"%byte :: r). split; [done|].
  split; [by apply calm_ascii|done].
Qed.

Lemma readable_node_entries d node : readable_node d node = true →
  Forall (λ e, readable_entry e = true) (ordered (Node.entries node)).
Proof. destruct node as [ty name entries children], d; simpl; intros [[[? ?]%andb_true_iff ?]%andb_true_iff ?]%andb_true_iff; by apply ordered_readable. Qed.

Lemma body_after d level node r :
  readable_node d node = true → is_utf8 (node_body format_finite level node) = true → is_utf8 r = true →
  after (node_body format_finite level node ++ "010"%byte :: r).
Proof.
  intros Hn Hu Hr. pose proof (readable_node_entries d node Hn) as He. destruct node as [ty name entries children].
  rewrite node_body_eq in *. rewrite spaced_utf8 in Hu by done. rewrite <- app_assoc. apply after_spaced; [done|].
  destruct children as [|child children]; [by apply after_line|].
  rewrite <- app_assoc. apply after_brace. rewrite is_utf8_app; [done|]. exact Hu.
Qed.

Lemma header_begins node :
  readable_type (Node.type_name node) = true → readable (Node.name node) = true → begins entry_start (header_text node).
Proof.
  intros Hty Hn. apply type_begins; [done|]. eapply begins_mono; [by apply ident_begins|]. intros d Hd. by right.
Qed.

Lemma eats_header c node r :
  roomy src c → readable_type (Node.type_name node) = true → readable (Node.name node) = true → ends r →
  eats c (parse_node_header src simd) (header_text node) r (Node.type_name node, Node.name node).
Proof.
  intros Hc Hty Hn Hr. pose proof (proj1 Hr) as Hu. unfold parse_node_header, header_text.
  assert (Hv : begins value_start (ident_text (Node.name node))).
  { eapply begins_mono; [by apply ident_begins|]. intros d Hd. by right. }
  apply (eats_bind src c _ _ (type_text (Node.type_name node)) (ident_text (Node.name node)) r (Node.type_name node)).
  { by apply eats_type. }
  eapply (eats_nothing src c); [apply (eats_no_space src)|].
  { apply begins_calm, begins_app; [|done]. eapply begins_mono; [exact Hv|]. intros d Hd. by right. }
  apply (eats_then_ret src c _ (λ name, (Node.type_name node, name))). by apply eats_string.
Qed.

(** What the context must allow for [d] more levels. *)
Record allows (d : nat) (c : Context.t) : Prop := {
  allows_room : roomy src c;
  allows_depth : 0 <= Context.depth c ∧ Context.depth c + Z.of_nat d <= Context.max_depth c;
  allows_max : Context.max_depth c <= U32.MAX }.

Lemma allows_deeper d c : allows (S d) c → allows d (deeper c).
Proof. intros [Hr Hd HM]. split; [exact Hr| |exact HM]. unfold deeper. simpl in *. lia. Qed.

Definition built (node : Node.t) (b : DomNodeBuilder.t) : DomNodeBuilder.t :=
  add (ordered (Node.entries node)) (normal <$> Node.children node) b.

Definition reads_body (level : Z) (node : Node.t) : Prop := ∀ d c fuel opts b r,
  allows d c → readable_node d node = true → is_utf8 r = true →
  (length (node_body format_finite level node ++ "010"%byte :: r) < fuel)%nat →
  eats c (body_loop fuel opts (Visitor.Dom b) false false true) (node_body format_finite level node)
    ("010"%byte :: r) (Visitor.Dom (built node b)).

Lemma readable_node_header d node : readable_node d node = true →
  readable_type (Node.type_name node) = true ∧ readable (Node.name node) = true.
Proof. destruct node as [ty name entries children], d; simpl; intros [[[? ?]%andb_true_iff ?]%andb_true_iff ?]%andb_true_iff; done. Qed.

Lemma built_finish node :
  Visitor.finish (Visitor.Dom (built node (DomNodeBuilder.on_header (Node.type_name node) (Node.name node) DomNodeBuilder.default)))
  = Ok (normal node).
Proof. by destruct node. Qed.

Lemma lines_newline inner outer l : ∃ t, lines format_finite inner outer l = "010"%byte :: t.
Proof. destruct l; by eexists. Qed.

Lemma eats_lines d c inner outer l fuel opts b r :
  allows d c → Forall (reads_body inner) l → Forall (λ n, readable_node d n = true) l → is_utf8 r = true →
  (length (lines format_finite inner outer l ++ "}"%byte :: r) < fuel)%nat →
  eats c (children_loop fuel opts (Visitor.Dom b)) (lines format_finite inner outer l) ("}"%byte :: r)
    (Visitor.Dom (add [] (normal <$> l) b)).
Proof.
  intros Hc Hl. revert fuel b. induction Hl as [|n l Hn Hl IH]; intros fuel b Hread Hr Hf;
    (destruct fuel as [|fuel]; [lia|]); cbn [KdlVisit.children_loop].
  - rewrite <- (app_nil_r (lines _ _ _ [])). eapply (eats_bind src c); [apply (eats_line_end src)|].
    { split; [by apply calm_ascii|]. done. }
    eapply (eats_read src c); [apply (look_eof src)|]. rewrite bool_decide_eq_false_2 by done.
    eapply (eats_read src c); [apply (look_is src)|]. rewrite bool_decide_eq_true_2 by done.
    rewrite add_nil. apply eats_ret.
  - apply Forall_cons in Hread as [Hrn Hread]. unfold lines in Hf |- *. cbn [lines_of] in *.
    fold (lines format_finite inner outer) in *. destruct (readable_node_header d n Hrn) as [Hty Hname].
    set (w := lines format_finite inner outer l) in *.
    assert (Hrest : eats c (children_loop fuel opts (Visitor.Dom (add [] [normal n] b))) w ("}"%byte :: r)
      (Visitor.Dom (add [] (normal <$> n :: l) b))).
    { rewrite fmap_cons. change (normal n :: (normal <$> l)) with ([normal n] ++ (normal <$> l)).
      rewrite <- (add_add [] []). apply IH; [done|done|]. unfold new_line in Hf. cbn [app length] in Hf.
      rewrite !length_app in Hf. cbn [length] in *. rewrite length_app. simpl in *. lia. }
    pose proof (proj1 Hrest) as Hwu. destruct (lines_newline inner outer l) as [t Et]. fold w in Et.
    assert (Htu : is_utf8 (t ++ "}"%byte :: r) = true).
    { rewrite Et in Hwu. change (is_utf8 t = true) in Hwu. by rewrite is_utf8_app. }
    assert (Hbody : eats c (body_loop fuel opts (Visitor.on_header (Node.type_name n) (Node.name n) (Visitor.Dom DomNodeBuilder.default)) false false true)
      (node_body format_finite inner n) (w ++ "}"%byte :: r)
      (Visitor.Dom (built n (DomNodeBuilder.on_header (Node.type_name n) (Node.name n) DomNodeBuilder.default)))).
    { rewrite Et. cbn [app]. apply (Hn d); [done|done|done|].
      rewrite Et in Hf. unfold new_line in Hf. cbn [app length] in Hf. rewrite !length_app in *. cbn [length app] in *.
      rewrite ?length_app in *. cbn [length] in *. lia. }
    pose proof (proj1 Hbody) as Hbu.
    assert (Hends : ends ((node_body format_finite inner n ++ w) ++ "}"%byte :: r)).
    { rewrite <- app_assoc, Et. exact (proj1 (body_after d inner n _ Hrn Hbu Htu)). }
    pose proof (header_begins n Hty Hname) as Hhb. pose proof (proj1 Hends) as Hendu.
    pose proof (begins_app _ _ _ Hhb Hendu) as Hbeg. rewrite <- app_assoc in Hbeg. pose proof (begins_calm _ Hbeg) as Hcalm.
    rewrite <- !app_assoc. eapply (eats_bind src c); [apply (eats_line_end src); by rewrite <- !app_assoc|].
    eapply (eats_read src c); [apply (look_eof src)|]. rewrite <- !app_assoc.
    rewrite bool_decide_eq_false_2 by (by eapply begins_nonempty).
    eapply (eats_read src c); [apply (look_is src)|]. rewrite <- !app_assoc.
    destruct (entry_byte _ Hbeg) as (x&Hx&H1&_). rewrite bool_decide_eq_false_2 by (rewrite Hx; congruence).
    eapply (eats_read src c); [apply (look_with src)|].
    rewrite <- !app_assoc, calm_not_slashdash by apply Hcalm.
    apply (eats_bind src c _ _ (header_text n) (node_body format_finite inner n ++ w) _ (Node.type_name n, Node.name n)).
    { apply eats_header; [apply Hc|done|done|done]. }
    cbn [Visitor.take_child]. apply (eats_bind src c _ _ _ w _ _ _ Hbody).
    eapply (eats_read src c) with (normal n).
    + intros s _ _ _. unfold lift. by rewrite built_finish.
    + cbn [Visitor.on_child]. by rewrite on_child_add.
Qed.

Lemma eats_index {B} c (k : Z → Parse B) w r b : (∀ i, eats c (k i) w r b) → eats c (get_index ≫= k) w r b.
Proof.
  intros Hk. split; [apply (Hk 0)|]. intros s Hs Hc E.
  etransitivity; [apply (run_ok get_index _ s s (index s)); done|]. by apply (Hk (index s)).
Qed.

Lemma eats_children d c outer l fuel opts b r :
  allows (S d) c → Forall (reads_body (outer + 1)) l → Forall (λ n, readable_node d n = true) l → is_utf8 r = true →
  (length (lines format_finite (outer + 1) outer l ++ "}"%byte :: r) < fuel)%nat →
  eats c (children_block src (children_loop fuel opts) (Visitor.Dom b))
    ("{"%byte :: lines format_finite (outer + 1) outer l ++ ["}"%byte]) r (Visitor.Dom (add [] (normal <$> l) b)).
Proof.
  intros Hc Hl Hread Hr Hf. unfold children_block.
  eapply (eats_read src c); [apply (look_is src)|]. cbn [app head]. rewrite bool_decide_eq_true_2 by done. cbn [negb].
  apply eats_index. intros offset.
  apply (eats_bind src c _ _ ["{"%byte] (lines format_finite (outer + 1) outer l ++ ["}"%byte]) r tt); [by apply eats_bump_byte|].
  apply eats_nested; [pose proof (allows_depth _ _ Hc); lia|apply Hc|].
  apply (eats_bind src _ _ _ _ ["}"%byte] r (Visitor.Dom (add [] (normal <$> l) b))).
  { apply (eats_lines d); try done. by apply allows_deeper. }
  apply (eats_nothing src _ _ _ _ _ tt); [apply (eats_indent src _ 0); split; [by apply calm_ascii|done]|].
  eapply (eats_read src); [apply (look_is src)|]. cbn [app head]. rewrite bool_decide_eq_true_2 by done. cbn [negb].
  apply (eats_then_ret src _ _ (λ _, Visitor.Dom (add [] (normal <$> l) b)) _ _ tt). by apply eats_bump_byte.
Qed.

Lemma eats_body node level : reads_body level node.
Proof.
  revert level. induction node as [ty name entries children IH] using node_induction.
  intros level d c fuel opts b r Hc Hn Hr Hf. pose proof (readable_node_entries d _ Hn) as He.
  rewrite node_body_eq in *. unfold built. cbn [Node.entries Node.children] in *.
  destruct children as [|child children].
  { apply eats_entries; [apply Hc|done|by apply after_line|done|]. intros [|fuel'] Hf'; [lia|]. by apply eats_line_stop. }
  destruct d as [|d]; [by simpl in Hn; rewrite andb_false_r in Hn|].
  assert (Hread : Forall (λ n, readable_node d n = true) (child :: children)).
  { simpl in Hn. apply andb_true_iff in Hn as [_ Hn]. apply Forall_forall. intros n Hin.
    change (forallb (readable_node d) (child :: children) = true) in Hn. rewrite forallb_forall in Hn.
    by apply Hn, list_elem_of_In. }
  assert (IH' : Forall (reads_body (level + 1)) (child :: children)) by (eapply Forall_impl; [exact IH|]; auto).
  set (l := child :: children) in *. clearbody l. set (w := lines format_finite (level + 1) level l) in *.
  assert (Hblock : ∀ fuel, (length (w ++ "}"%byte :: "010"%byte :: r) < fuel)%nat →
    ∀ b, eats c (children_block src (children_loop fuel opts) (Visitor.Dom b)) ("{"%byte :: w ++ ["}"%byte]) ("010"%byte :: r)
      (Visitor.Dom (add [] (normal <$> l) b))) by (intros; by apply (eats_children d)).
  assert (Hu : is_utf8 (w ++ ["}"%byte]) = true) by (by apply (proj1 (Hblock _ (Nat.lt_succ_diag_r _) b))).
  assert (Hu' : is_utf8 ((w ++ ["}"%byte]) ++ "010"%byte :: r) = true) by (by rewrite is_utf8_app).
  assert (Hcalm : calm_node ("{"%byte :: (w ++ ["}"%byte]) ++ "010"%byte :: r)) by (by apply calm_ascii).
  apply eats_entries; [apply Hc|done|by apply after_brace|done|].
  intros [|fuel'] Hf'; [lia|]. cbn [KdlVisit.body_loop].
  apply (eats_bind src c _ _ (spaces 1) ("{"%byte :: w ++ ["}"%byte]) _ true); [by apply (eats_node_space_counted src c 1)|].
  eapply (eats_read src c); [apply (look_with src)|]. cbn [app]. rewrite calm_not_slashdash by done.
  eapply (eats_read src c); [apply (look_byte src)|]. cbn [app head].
  rewrite (decide_False (P := "{"%byte = "}"%byte)), (decide_False (P := "{"%byte = ";"%byte)), decide_True by done.
  rewrite <- (app_nil_r ("{"%byte :: w ++ ["}"%byte])).
  assert (Hfuel : (length (w ++ "}"%byte :: "010"%byte :: r) < fuel')%nat).
  { change (text " {" ++ w ++ text "}") with (" "%byte :: "{"%byte :: w ++ ["}"%byte]) in Hf'.
    cbn [app length] in Hf'. rewrite !length_app in *. cbn [length] in *. lia. }
  apply (eats_bind src c _ _ _ [] _ _ _ (Hblock fuel' Hfuel _)). rewrite add_add, app_nil_r. cbn [app].
  destruct fuel' as [|fuel']; [lia|]. by apply eats_line_stop.
Qed.

(** ** Documents *)

Lemma eats_lift {A} c (o : Outcome ErrorCtx.t A) r a : o = Ok a → eats c (lift o) [] r a.
Proof. intros ->. split; [done|]. intros s _ _ _. by rewrite adv_nil. Qed.

(** A whole node, without its line. *)
Definition node_line (node : Node.t) : list byte := header_text node ++ node_body format_finite 0 node.

Definition tail_text (l : list Node.t) : list byte :=
  match l with [] => [] | node :: l => node_line node ++ lines format_finite 0 0 l end.

Lemma lines_tail l : lines format_finite 0 0 l = "010"%byte :: tail_text l.
Proof. destruct l as [|n l]; [done|]. done. Qed.

Lemma eats_parse_node d c node r :
  allows d c → readable_node d node = true → is_utf8 r = true →
  eats c (parse_node src simd true) (node_line node) ("010"%byte :: r) (normal node) ∧ begins entry_start (node_line node).
Proof.
  intros Hc Hn Hr. destruct (readable_node_header d node Hn) as [Hty Hname].
  set (b := DomNodeBuilder.on_header (Node.type_name node) (Node.name node) DomNodeBuilder.default).
  assert (Hbody : eats c (visit_node_body_bits src simd true Opts.OPTS_DEFAULT (Visitor.Dom b)) (node_body format_finite 0 node)
    ("010"%byte :: r) (Visitor.Dom (built node b))).
  { apply (eats_steps src c (λ fuel, body_loop fuel Opts.OPTS_DEFAULT (Visitor.Dom b) false false true)).
    intros fuel Hf. by apply (eats_body node 0 d). }
  pose proof (body_after d 0 node r Hn (proj1 Hbody) Hr) as [Haft _].
  split; [|apply begins_app; [by apply header_begins|apply Hbody]].
  unfold parse_node, visit_node_bits. rewrite <- (app_nil_r (node_line node)).
  apply (eats_bind src c _ _ _ [] _ (Visitor.Dom (built node b))).
  - apply (eats_bind src c _ _ (header_text node) _ _ (Node.type_name node, Node.name node)); [|exact Hbody].
    by apply eats_header; [apply Hc|..].
  - apply eats_lift, built_finish.
Qed.

Definition collect (nodes : list Node.t) : Parse (list Node.t) :=
  node ← parse_node src simd true; lift (Ok (nodes ++ [node])).

Lemma calm_nil : calm [].
Proof. done. Qed.

Lemma eats_document_loop d c lead l fuel delivered acc :
  allows d c → Forall (λ n, readable_node d n = true) l → (∀ t, calm t → eats c (skip_line_space src) lead t tt) →
  delivered + Z.of_nat (length l) <= Context.max_children c → (length (lead ++ tail_text l) < fuel)%nat →
  eats c (document_loop src simd true (Opts.bits Opts.new) collect fuel delivered acc) (lead ++ tail_text l) []
    (acc ++ (normal <$> l)).
Proof.
  intros Hc Hl. revert lead fuel delivered acc. induction Hl as [|n l Hn Hl IH]; intros lead fuel delivered acc Hlead Hd Hf;
    (destruct fuel as [|fuel]; [lia|]); cbn [document_loop].
  - apply (eats_bind src c _ _ lead [] [] tt); [by apply Hlead, calm_nil|].
    eapply (eats_read src c); [apply (look_eof src)|]. rewrite fmap_nil, (app_nil_r acc). apply eats_ret.
  - assert (Hrest : eats c (document_loop src simd true (Opts.bits Opts.new) collect fuel (delivered + 1) (acc ++ [normal n]))
      ("010"%byte :: tail_text l) [] (acc ++ (normal <$> n :: l))).
    { rewrite fmap_cons. change (normal n :: (normal <$> l)) with ([normal n] ++ (normal <$> l)). rewrite app_assoc.
      apply (IH ["010"%byte]); [intros t Ht; by apply (eats_line_end src c 0)|simpl in Hd; lia|].
      cbn [tail_text] in Hf. rewrite lines_tail, !length_app in Hf.
      assert (1 <= length (node_line n))%nat.
      { destruct (eats_parse_node d c n [] Hc Hn eq_refl) as [_ Hb]. apply begins_nonempty in Hb.
        by destruct (node_line n); [|simpl; lia]. }
      cbn [app length] in *. lia. }
    assert (Hu : is_utf8 (tail_text l) = true) by exact (proj1 Hrest).
    destruct (eats_parse_node d c n (tail_text l) Hc Hn Hu) as [Hnode Hb].
    cbn [tail_text]. rewrite lines_tail in *.
    pose proof (begins_app _ _ ("010"%byte :: tail_text l) Hb Hu) as Hbeg. pose proof (begins_calm _ Hbeg) as Hcalm.
    eapply (eats_bind src c); [apply Hlead; by rewrite app_nil_r|].
    eapply (eats_read src c); [apply (look_eof src)|]. rewrite app_nil_r.
    rewrite bool_decide_eq_false_2 by (by eapply begins_nonempty).
    eapply (eats_read src c); [apply (look_is src)|]. rewrite app_nil_r.
    destruct (entry_byte _ Hbeg) as (x&Hx&H1&_). rewrite bool_decide_eq_false_2 by (rewrite Hx; congruence).
    eapply (eats_read src c); [apply (look_with src)|]. rewrite app_nil_r, calm_not_slashdash by apply Hcalm.
    apply (eats_bind src c _ _ (node_line n) ("010"%byte :: tail_text l) [] (acc ++ [normal n])).
    + unfold collect. rewrite <- (app_nil_r (node_line n)) at 1.
      apply (eats_bind src c _ _ (node_line n) [] _ (normal n)); [by rewrite app_nil_r|by apply eats_lift].
    + eapply (eats_read src c) with c; [intros s _ Hs _; unfold get_ctx; by rewrite Hs|].
      destruct (Z.ltb_spec (Context.max_children c) (delivered + 1)); [simpl in Hd; lia|exact Hrest].
Qed.

Lemma tail_text_begins d c l :
  allows d c → Forall (λ n, readable_node d n = true) l → is_utf8 (tail_text l) = true →
  tail_text l = [] ∨ begins entry_start (tail_text l).
Proof.
  intros Hc Hl Hu. destruct Hl as [|n l Hn Hl]; [by left|right]. cbn [tail_text] in *. rewrite lines_tail in *.
  destruct (eats_parse_node d c n [] Hc Hn eq_refl) as [[Hnu _] Hb]. apply begins_app; [done|].
  by rewrite is_utf8_app in Hu.
Qed.

Lemma calm_tail w : w = [] ∨ begins entry_start w → calm w.
Proof. intros [->|Hw]; [apply calm_nil|by apply begins_calm]. Qed.

Lemma eats_document_start c w :
  w = [] ∨ begins entry_start w → is_utf8 w = true →
  eats c (skip_bom src) [] w tt ∧ eats c (skip_version_marker src) [] w tt.
Proof.
  intros Hw Hu. pose proof (calm_tail w Hw) as Hcalm. split.
  - unfold skip_bom. eapply (eats_read src c); [apply (look_with src)|]. cbn [app].
    assert (E : Bytes.starts_with w BOM = false).
    { destruct (Bytes.starts_with w BOM) eqn:E; [|done]. exfalso. apply starts_with_true in E as [t E].
      destruct Hw as [->|Hw]; [done|]. destruct (begins_next _ _ Hw) as (d&t'&En&Hd).
      unfold BOM in E. rewrite E, next_char_encode in En by done. injection En as <- _.
      vm_compute in Hd. intuition discriminate. }
    rewrite E. apply eats_ret.
  - unfold skip_version_marker. apply (eats_nothing src c _ _ [] w tt); [by apply (eats_indent src c 0)|].
    apply eats_index. intros saved. eapply (eats_read src c) with false; [|apply eats_ret].
    intros s Hs _ E. unfold consume_exact. rewrite (run_ok _ _ _ _ _ (starts_with_good src _ s Hs)), E.
    cbn [app]. rewrite calm_not_slashdash by apply Hcalm. done.
Qed.

Lemma eats_document d c l :
  allows d c → Forall (λ n, readable_node d n = true) l → Z.of_nat (length l) <= Context.max_children c →
  eats c (parse_document src simd true) (tail_text l) [] {| Document.nodes := normal <$> l |}.
Proof.
  intros Hc Hl Hd.
  assert (Hloop : ∀ fuel, (length (tail_text l ++ []) < fuel)%nat →
    eats c (document_loop src simd true (Opts.bits Opts.new) collect fuel 0 []) (tail_text l) [] (normal <$> l)).
  { intros fuel Hf. rewrite app_nil_r in Hf. apply (eats_document_loop d c []); try done.
    intros t Ht. by apply (eats_indent src c 0). }
  pose proof (proj1 (Hloop _ (Nat.lt_succ_diag_r _))) as Hu.
  pose proof (tail_text_begins d c l Hc Hl Hu) as Hw.
  destruct (eats_document_start c (tail_text l ++ [])) as [Hbom Hver]; [by rewrite app_nil_r|by rewrite app_nil_r|].
  unfold parse_document, parse_document_with_opts.
  apply (eats_then_ret src c _ (λ nodes, {| Document.nodes := nodes |})). unfold visit_document, visit_document_at_nodes_bits.
  apply (eats_nothing src c _ _ (tail_text l) [] tt); [exact Hbom|].
  apply (eats_nothing src c _ _ (tail_text l) [] tt); [exact Hver|].
  rewrite <- (app_nil_r (tail_text l)). apply (eats_bind src c _ _ (tail_text l) [] [] (normal <$> l)).
  { apply (eats_steps src c (λ fuel, document_loop src simd true (Opts.bits Opts.new) collect fuel 0 [])). exact Hloop. }
  change (Opts.flag_validate_trailing (Opts.bits Opts.new) && negb (Opts.flag_partial_read (Opts.bits Opts.new))) with true.
  apply (eats_nothing src c _ _ [] [] tt); [by apply (eats_indent src c 0), calm_nil|].
  eapply (eats_read src c); [apply (look_eof src)|]. apply eats_ret.
Qed.

(** A node takes at least the byte of its line. *)
Lemma tail_text_length l : (length l <= length (tail_text l))%nat.
Proof.
  assert (H : ∀ l, (length l < length (lines format_finite 0 0 l))%nat).
  { clear l. induction l as [|n l IH]; [simpl; lia|]. unfold lines in *. cbn [lines_of length].
    rewrite !length_app. unfold new_line at 1. simpl. lia. }
  destruct l as [|n l]; [simpl; lia|]. cbn [tail_text length]. rewrite length_app. specialize (H l). lia.
Qed.

End reading.

(** ** The round trip *)

Lemma document_text_tail format_finite nodes :
  concat ((λ node, node_text format_finite node 0) <$> nodes) = tail_text format_finite nodes.
Proof.
  induction nodes as [|n nodes IH]; [done|]. rewrite fmap_cons. cbn [concat tail_text].
  rewrite node_text_body, IH, lines_tail. unfold node_line. change (spaces (indentation 0)) with (@nil byte).
  cbn [app]. by rewrite <- !app_assoc.
Qed.

Definition normal_document (doc : Document.t) : Document.t :=
  {| Document.nodes := normal <$> Document.nodes doc |}.

Lemma new_allows src : len (Source.input src) <= U64.MAX → allows src 256 Context.new.
Proof. intros H. split; [by split|split; vm_compute; done|vm_compute; done]. Qed.

(** The text of a readable document is UTF-8: it would be read from any place. *)
Lemma document_utf8 format_finite nodes :
  Forall (λ n, readable_node 256 n = true) nodes → is_utf8 (tail_text format_finite nodes) = true.
Proof.
  intros Hn. pose proof (of_str_valid [] eq_refl) as Hsrc.
  set (c := {| Context.error := ErrorCode.None; Context.depth := 0; Context.scratch := [];
               Context.max_string_len := U64.MAX; Context.max_children := Z.of_nat (length nodes);
               Context.max_depth := 256; Context.error_on_unknown_keys := true;
               Context.error_on_missing_keys := false |}).
  assert (Hc : allows (Source.of_str []) 256 c) by (split; [by split|split; vm_compute; done|vm_compute; done]).
  exact (proj1 (eats_document (Source.of_str []) false format_finite 256 c nodes Hc Hn (Z.le_refl _))).
Qed.

Lemma read_tail simd format_finite padding nodes :
  Forall (λ n, readable_node 256 n = true) nodes → len (tail_text format_finite nodes) <= U64.MAX →
  let t := tail_text format_finite nodes in
  (parse_document {| Source.input := t; Source.bytes := t ++ padding |} simd true (Cursor.new Context.new)).2
  = Ok {| Document.nodes := normal <$> nodes |}.
Proof.
  intros Hn Hl t. set (src := {| Source.input := t; Source.bytes := t ++ padding |}).
  assert (Hsrc : ValidSource src) by (split; [by apply document_utf8|by exists padding]).
  assert (Hc : allows src 256 Context.new) by (by apply new_allows).
  pose proof (tail_text_length format_finite nodes) as Hlen. unfold len in Hl.
  destruct (eats_document src simd format_finite 256 Context.new nodes Hc Hn) as [_ H].
  { change (Context.max_children Context.new) with U64.MAX. lia. }
  rewrite (H (Cursor.new Context.new)); [done|by apply good_new|done|]. simpl. by rewrite app_nil_r.
Qed.

Lemma tail_normal format_finite nodes : tail_text format_finite (normal <$> nodes) = tail_text format_finite nodes.
Proof.
  destruct nodes as [|n nodes]; [done|]. rewrite fmap_cons. cbn [tail_text]. unfold node_line, lines.
  rewrite header_normal, body_normal, (lines_of_ext _ (node_body format_finite 0)); [done|].
  apply Forall_forall. intros m _. split; [apply header_normal|apply body_normal].
Qed.

Lemma format_document_tail format_finite doc :
  format_document format_finite doc = tail_text format_finite (Document.nodes doc).
Proof. unfold format_document. rewrite format_document_exact. apply document_text_tail. Qed.

(** C12: what [format_document] writes is read back by [from_str], and by
    [from_padded] from a padded copy, with both scans: as the same tree with
    the arguments of every node in order and its properties by key, the last
    one of each, which is written as the same text again. The document must be
    readable: its strings are UTF-8, those that are quoted hold no U+2028 and
    U+2029, which the writer does not escape and the reader refuses, those that
    are bare do not begin with an exclamation mark and, as values and keys, with
    a signed inf; integers are an [i128]; floats are those printed as keywords,
    since the digits of the others are a parameter; nodes are at most 256 levels
    deep; and the text is no longer than a [u64]. *)
Theorem kdl_roundtrip (simd : bool) (format_finite : f64 → list byte) (doc : Document.t) :
  forallb (readable_node 256) (Document.nodes doc) = true →
  let t := format_document format_finite doc in
  len t <= U64.MAX →
  from_str simd t = Ok (normal_document doc)
  ∧ from_padded simd (PaddedInput.new t) = Ok (normal_document doc)
  ∧ format_document format_finite (normal_document doc) = t.
Proof.
  intros Hn t Hl. assert (Hn' : Forall (λ n, readable_node 256 n = true) (Document.nodes doc)).
  { apply Forall_forall. intros n Hin. rewrite forallb_forall in Hn. by apply Hn, list_elem_of_In. }
  assert (Et : t = tail_text format_finite (Document.nodes doc)).
  { apply format_document_tail. }
  clearbody t. subst t. split_and!; [| |by rewrite format_document_tail; apply tail_normal].
  - unfold from_str, parse_document_with_context, Source.of_str.
    rewrite <- (app_nil_r (tail_text _ _)) at 2. by apply read_tail.
  - unfold from_padded, Source.of_padded, PaddedInput.content_bytes, PaddedInput.padded_bytes, PaddedInput.new.
    cbn [PaddedInput.buf PaddedInput.content_len]. set (w := tail_text format_finite (Document.nodes doc)) in *.
    unfold PaddedInput.resize, PaddedInput.PADDING_BYTES. rewrite take_ge by (unfold len; lia).
    assert (Ew : ∀ padding, slice (w ++ padding) 0 (len w) = w).
    { intros padding. by apply (slice_mid [] w padding). }
    rewrite Ew. by apply read_tail.
Qed.

Lemma kdl_roundtrip_witness :
  let doc := {| Document.nodes :=
    [Node.mk (Some (text "t")) (text "a b")
      [Entry.Property (text "k") None (Value.Int (-12)); Entry.Argument None (Value.Bool true);
       Entry.Property (text "k") (Some (text "u8")) (Value.String (text "x"))]
      [Node.mk None (text "c") [Entry.Argument None (Value.Float S754_nan None)] []]] |} in
  forallb (readable_node 256) (Document.nodes doc) = true
  ∧ len (format_document (λ _, []) doc) <= U64.MAX
  ∧ from_str true (format_document (λ _, []) doc)
    = Ok {| Document.nodes :=
        [Node.mk (Some (text "t")) (text "a b")
          [Entry.Argument None (Value.Bool true);
           Entry.Property (text "k") (Some (text "u8")) (Value.String (text "x"))]
          [Node.mk None (text "c") [Entry.Argument None (Value.Float S754_nan None)] []]] |}.
Proof.
  intros doc. assert (Hr : forallb (readable_node 256) (Document.nodes doc) = true) by (vm_compute; reflexivity).
  assert (Hl : len (format_document (λ _, []) doc) <= U64.MAX) by (vm_compute; discriminate).
  split; [exact Hr|]. split; [exact Hl|].
  rewrite (proj1 (kdl_roundtrip true (λ _, []) doc Hr Hl)). vm_compute. reflexivity.
Defined.
